(* ===== verification/_CoqProject ===== *)
-Q . S2P
Prelude.v
Text.v
TextFacts.v
Lines.v
Value.v
Decoder.v
DecoderFacts.v
Framing.v
Output.v
Emission.v
Roundtrip.v
Stream.v
StreamFacts.v
Oneshot.v
SafeText.v
Request.v
Outcome.v
Precedence.v
Admission.v
Session.v
Signal.v
Store.v
Slot.v
Quoting.v
Analyser.v
Trust.v
Approval.v
Subscription.v
Buffer.v
Bounded.v
Observations.v
WorkingSet.v
Broker.v
Discovery.v
Policy.v
Json.v
JsonGrammar.v
JsonPath.v
Projection.v
Width.v
Paste.v
Terminal.v
TerminalFacts.v
Secrets.v
Uri.v
History.v
Local.v
Ordered.v
Spec.v
SpecFacts.v
Compile.v
CompileFacts.v
CatalogDiff.v
Args.v
Passthrough.v
Credentials.v
Journal.v
Shared.v
F64.v
Find.v
FindFacts.v
Vocabulary.v
Mcp.v
Theme.v
Table.v
TableFacts.v
Generic.v
Plugin.v
Ssh.v
Tls.v
Probe.v
Keys.v
Scope.v
Screen.v
ScreenFacts.v
Fixtures.v
Corpus.v
Harness.v
Differential.v
Tools.v
