(* ===== verification/Prelude.v ===== *)
(** * Penguin Redis: a verification library

    Penguin Redis is a Redis client in Rust.  This library models the parts of it
    that decide what is sent, what is shown and what is kept: the wire protocol,
    the safety core (requests, outcomes, sessions, policy, approvals, trust), the
    line editor, the terminal and history around it, the bounded stores, the
    completion, discovery and search behind it, the JSON documents it reads and
    writes, its profiles and credentials, what it draws, the tunnels it connects
    through and the agents it serves.  Paths below are under [src/crates/]
    unless they begin with [xtask/].

    ** How the program hangs together

    The command line gives the options and, if there is one, the command
    (Args), which runs over a one-shot connection (Passthrough, Oneshot).  A line
    typed at the prompt is a local command (Local), or is split into arguments
    (Quoting), which become a request with effects given by the local catalog
    (Request, Precedence).  The catalog is compiled from two pinned snapshots
    (Compile), which are compared (CatalogDiff); its grammars give every argument
    typed so far a role (Spec), which decides what may be offered for it.  A
    policy or an approval lets it through (Admission, Approval, Trust), it is encoded
    and written, and its reply is decoded incrementally (Oneshot, Decoder).  The
    outcome has four dimensions and one exit code (Outcome).  Frames are routed
    to stdout and stderr by output mode (Output), untrusted text is escaped
    before it is displayed (SafeText), results and pushes are kept under budgets
    (Store, Subscription), and the connection's state (Session) says what may be
    sent behind the user's back.

    The line itself is typed at a prompt (Buffer) that one coordinator owns
    together with the menu, the review of pasted text and the alternate screen
    (Terminal, over Paste and Width).  What was sent is remembered without its
    secrets (History), a register of secrets is scrubbed from everything written
    out (Secrets), and connections come from URIs (Uri).  Names seen in replies
    are kept per scope (Observations, WorkingSet) and offered through a broker
    (Broker); keys can be discovered with SCAN under a budget (Discovery).  An
    agent speaks JSON-RPC over standard input and output (Mcp); its read-only
    requests are authorised by patterns (Policy), everything else by a person's
    token (Approval).  A command is found by its purpose (Find, over the tables of
    Vocabulary).  A JSON value is parsed with the spans of its nodes (Json),
    addressed and edited by path (JsonPath), and replies are projected to JSON
    (Projection).

    Replies are drawn as trees (Generic) or tables (Table) in a theme (Theme), or
    by a plugin, a separate process that is never trusted (Plugin); whether a
    table may be padded with spaces is what the width probe finds out about the
    terminal (Probe).  Profiles are files that several processes share (Shared);
    their secrets live in a credential store (Credentials), and a journal makes
    the two agree after a crash (Journal).  A connection may go through an SSH
    child or TLS (Ssh, Tls), and background tasks belong to a scope (Scope).  The
    test harness watches the whole program through a screen of its own (Screen)
    and records what it saw (Harness); a synthetic server (Fixtures) sends it
    whatever a script says, a proxy makes connections fail (Tools), hostile
    replies are kept with what a parser is said to do with them (Corpus), and a
    second run of every case with the official client is compared (Differential).
    Memory is measured and judged over long runs, and the pinned snapshots of the
    catalog carry a stamp (Tools).

    ** Files

    Shared:
    - this file: results, bytes, automation, list lemmas;
    - [Text], [TextFacts]: the library functions of Rust the program computes
      with (decimal and hexadecimal numbers, UTF-8, ASCII classes,
      little-endian integers), executable, and their laws; [Lines], the lines of
      a text as [str::lines] and [BufRead] cut them; [F64], the binary64
      arithmetic that the search ranks with.

    Wire protocol ([pr-protocol], [pr-application/output.rs], [pr-transport/oneshot.rs]):
    - [Value] is [value.rs]; [Decoder] is [decoder.rs], with
      [DecoderFacts] (stability under more input, progress, locality of every
      parser) and [Framing] (what a connection may rely on);
    - [Stream] is [stream.rs]: the event machine that walks a frame without
      holding it, and the reassembler; [StreamFacts] relates it to [Decoder];
    - [Output] is [output.rs], with [Emission] (what reaches stdout) and
      [Roundtrip] (well-formed values, re-encoding);
    - [Oneshot] is [oneshot.rs].

    Safety core ([pr-core], [pr-catalog/precedence.rs], [pr-application/pipe.rs], [pr-security]):
    - [SafeText] is [safetext.rs], [Request] is [request.rs], [Outcome] is
      [outcome.rs], [Session] is [session.rs], [Signal] is [signal.rs];
    - [Precedence] is [precedence.rs]; [Admission] is [pipe.rs];
    - [Trust] is [trust.rs]; [Approval] is [approval.rs].

    Stores, routing and editing ([pr-results], [pr-routing], [pr-repl], [pr-intelligence]):
    - [Store] is [store.rs], [Subscription] is [subscription.rs], [Slot] is
      [slot.rs];
    - [Quoting] is [quoting.rs], [Analyser] is [analyser.rs], [Buffer] is
      [buffer.rs], [History] is [history.rs], [Local] is [local.rs].

    Catalog ([pr-catalog]):
    - [Ordered] is the order of strings, [sort], [dedup] and the iteration of a
      [BTreeMap], with the classes [TotalPre] and [TotalLe];
    - [Spec] is [spec.rs], with what the walker may give out; [SpecFacts] relates
      the walker to the positional reading, to [numkeys] and to halves, and
      states keywords and versions;
    - [Compile] is [snapshot.rs], [compile.rs] and [embedded.rs], with
      [CompileFacts]; [CatalogDiff] is [diff.rs].

    Executable ([prc]):
    - [Args] is [args.rs], the paths and texts of [startup.rs] and the choice of [main.rs];
      [Passthrough] is [passthrough.rs] and [binout.rs].

    Assistance ([pr-intelligence], [pr-mcp]):
    - [Bounded] is what the bounded stores of names share: a vector with its
      capacity, and the class [Ring] of what a store promises (a weight, an exact
      account, eviction of the oldest);
    - [Observations] is [scope.rs] and [WorkingSet] is [working_set.rs], the two
      instances of it; [Broker] is [broker.rs]; [Discovery] is [discovery.rs];
    - [Policy] is [policy.rs], with the globs of Redis as trees, their text and
      their meaning, defined without the matcher; [Mcp] is
      [tools.rs] and [stdio.rs];
    - [Find] is [find.rs], with [FindFacts]; [Vocabulary] is [vocabulary.rs]: its
      terms, purposes and implications, and what is special about them.

    Profiles ([pr-profiles]):
    - [Credentials] is [credentials.rs]: references, the class of a store with its
      laws and the stores that meet them; [Journal] is [journal.rs], proved over
      any store of the class; [Shared] is [shared.rs] and [perms.rs], with the
      interleaving of several processes as a step relation and the access lists of
      Windows as texts.

    Rendering ([pr-render]):
    - [Theme] is [theme.rs]; [Table] is [table.rs], with [TableFacts]: what
      stands on a terminal (a grid that is overwritten and wraps) once the lines of
      a table were typed; [Generic] is [generic.rs];
      [Plugin] is [plugin.rs] and [clipboard.rs].

    Transport ([pr-transport]):
    - [Ssh] is [ssh.rs], with the way a SOCKS5 server reads a request (RFC 1928);
      [Tls] is [tls.rs].

    JSON ([pr-json], [pr-application/json_projection.rs]):
    - [Json] is [dom.rs]; [JsonGrammar] is the grammar as trees and their
      printing, and the proof that the parser inverts it; [JsonPath] is
      [path.rs] with [get] and [replace]; [Projection] is [json_projection.rs].

    Terminal ([pr-terminal], [pr-render/width.rs]):
    - [Width] is [width.rs], [Paste] is [paste.rs]; [Terminal] is [event.rs],
      [ownership.rs], [paint.rs] and [coordinator.rs]; [TerminalFacts] holds its
      invariant, over any sink whose puts can be listed (the class [SinkLog]);
    - [Probe] is [probe.rs]; [Keys] is [bridge.rs] and the table of functions of
      [pr-repl/entries.rs].

    Tasks and tools:
    - [Scope] is [pr-core/scope.rs], as steps of the scope and of its tasks;
    - [Screen] is [xtask/pty-harness/src/screen.rs], with [ScreenFacts];
      [Harness] is [lib.rs] beside it;
    - [Fixtures] is the synthetic server of [xtask/resp-server/src] ([frame.rs],
      [encode.rs], [inbound.rs], [script.rs], [server.rs]), and what both
      sides make of it; [Corpus] is its [hostile.rs];
    - [Differential] is [xtask/differential/src] ([compare.rs], [cases.rs],
      [report.rs] and the report of the runner);
    - [Tools] has a module for each of [xtask/src/fault.rs] (Faults),
      [xtask/src/measure.rs] and [pr-core/mem.rs] (Measure),
      [xtask/src/catalog.rs] (Stamp) and [xtask/soak/src/lib.rs] (Soak).

    Secrets ([pr-security]):
    - [Secrets] is [secrets.rs], [sink.rs] and [diagnostics.rs]; [Uri] is
      [uri.rs].

    ** What the theorems show

    - Framing, Stream: chunk boundaries do not matter; a value is decoded from
      exactly its own bytes; errors are final; limits hold for every decoded
      value; a decoded value re-encodes to bytes that decode to it; the
      streaming reader reassembles the values the decoder returns.
    - Sending: a command is sent as exactly its arguments, or the part of it the
      socket took; a call returns the first reply however the bytes arrive;
      piping cannot bypass policy, and admission is exact and complete;
      approvals authorise exactly the approved bytes, for identities whose
      hashed bytes are the approved ones; previews and canonical bytes determine
      the arguments; credentials are re-bound exactly when they must be.
    - Showing: no push reaches the stdout of a reply format; event formats write
      one line per frame; no escape sequence survives display; exit codes never
      hide an unsettled effect.
    - Keeping: budgets, exact accounting and oldest-first eviction; sessions
      never let a probe into a transaction; undo and redo restore, an edit
      applies exactly when it fits the present text, and the calls of the line
      buffer that may panic are those inside an open group; a record of a
      subscription is the longest newest run that fits; tokens and spans agree
      between the tokenizer and the analyser; slots are CRC16.
    - The terminal: nothing pasted is executed by itself, also when it arrives
      as key presses; every notice is shown, once and in order; the draft
      survives the alternate screen; only the line buffer's walk over graphemes
      panics.
    - The catalog: roles and keys come from the reviewed snapshot only; effects
      are the server's flags and the reviewed table, bit for bit, and unknown is
      the default; the merge of the families is exact; the walker agrees with
      positions and with [numkeys]; choosing an option removes exactly its
      group; the embedded catalog's answers do not depend on the order of the
      questions.
    - The command line: the command's words are the command's, byte for byte; no
      option weakens verification and none re-points a profile; the exit code of
      a run says how far it came, also when writes and reads fail; local
      commands round trip.
    - Secrets: a scrubbed text holds no registered secret, brackets and the
      words of the replacement apart; a history entry reveals no more than its
      level allows, recalls exactly the command that was typed or cannot be
      submitted, and is offered only in its scope; URIs round trip.
    - Assistance: names are offered in their scope only, and all of them until
      one is evicted; the working set stays within its budget; what is shown
      belongs to the current state; discovery ends against every server, with
      exactly the keys that were sent; glob matching ends and, for patterns and
      keys without the three flaws shown in [Policy], means what the pattern
      says; a policy authorises exactly the reads it lists.
    - JSON: the parser accepts exactly the grammar within the depth limit, names
      that are no Unicode text apart; paths round trip, duplicates are never
      guessed at, an edit changes the bytes of its own node only; every
      projection of a reply is JSON.
    - Profiles: a journal reads back what was appended; a cleanup never touches
      a referenced secret and leaves nothing to clean up; no update of a shared
      file is lost among processes that take the lock, and beside those that do
      not none loses its own edit; an access list judged to be the user's alone
      is.
    - Search and agents: a hit says truly why it is one; the implications settle
      in four passes, in every order; what an agent may do without a person, and
      that standard output is nothing but answers, whatever the input and the
      pipe.
    - Drawing: a table whose texts hold no control characters fits its terminal,
      has its borders in their columns and shows, in the end, all that it does
      not report as cut; colour is decoration; a reply's tree is complete and,
      in every theme, safe; a plugin is contained; the probe measures what the
      terminal does.
    - Connecting: the SSH child is started with what the code requires of it and
      nothing else, the pool of tunnels accounts for its children, which may end
      by themselves, what the SOCKS5 client writes and when it connects is
      exact, and so is TLS.
    - Supervision: no task outlives its scope unstopped. The harness's screen
      does not depend on chunks, keeps the main screen safe from the alternate
      one, and panics only after a tab, a character wider than the screen, a
      huge count, or a way out of the alternate screen in another size than the
      way in.
    - Tools: what the synthetic server sends is what the client decodes, and
      what the client sends is what the server reads, however the bytes arrive;
      a hostile sample meets the outcome stated for it exactly when it is not
      one of the listed ones, each group of which has a lemma that says why; a
      recording holds exactly the bytes received and answers every query once;
      the comparison passes exactly when the two clients agree, as long as no
      argument holds a space; a fault does what it says; a budget measured over
      a reset window misses no allocation; a stamp certifies its bytes.

    ** Conventions

    A [u8] is a [byte], a [Vec<u8>] or [Bytes] is [bytes], a string is [str] (its
    scalar values) where the code works on characters and [bytes] where it works
    on bytes.  Machine integers are [Z], with wrap-around or saturation where the
    code can reach it ([u16] checksums, the [u32] interrupt counter, saturating
    sums); counters that only grow by one (revisions, epochs, ids) are not
    wrapped.  A [&mut self] method returns the new state; [Result] is [result]
    with [let?]; a panic, where the code can reach one, is [None].

    Loops that are not structural take fuel.  Decoder loops are given one unit per
    input byte and consume a byte in every round ([DecoderFacts.ploop_unroll]);
    readers and admission are given one unit per buffered byte plus one
    ([Framing.drain_fuel], [Admission.admit_loop_spec]); the streamer consumes a
    byte in every transition without an event, and the driver around it spends
    at most four units per byte ([StreamFacts.step_unroll],
    [StreamFacts.drive_enough]).  The JSON parser is given the nesting it may
    still enter and one round per byte; the glob matcher one round per pair of
    pattern and key positions ([Policy.glob_fuel]); a discovery two steps per
    request of its budget and two more; percent escapes and scrubbing one round
    per byte and one; the walker's repeats one round per remaining argument
    ([SpecFacts.repeat_loop_enough]); the screen one round per buffered byte
    ([ScreenFacts.feed_loop_fuel]).  No theorem is about a run that stopped for want of fuel.

    ** Parameters

    Code outside the repository is an argument of the definitions that use it:
    the BLAKE3 hash ([blake3], for which theorems speak of a collision), the
    Unicode case tables of non-ASCII characters ([upper], [lower_table]), the
    JSON reader of snapshots ([from_slice]), the texts of system errors ([show]),
    the command catalog ([catalog], an argument in the source too), the size of a message in
    memory ([size]), the sizes of structs and the growth of a vector
    ([Observations], [WorkingSet]), the display widths of characters
    ([Width.UnicodeWidth]), the text of a history entry's parts
    ([History.PartsText]), the escapes of the Debug format ([Projection],
    [Compile], [Mcp]), the server's MATCH ([Discovery.literal_prefix_exact], which assumes only its
    documented meaning), the key ring of the platform and a secret store
    ([Credentials]), the JSON library ([Mcp], [Plugin]), the lower-case mapping and the
    logarithm ([Find]), the TLS library and its parsers ([Tls]), the terminal
    library ([Probe]), the Debug text of a value ([Differential]), the parser of a
    line of metrics ([Tools]), and what the operating system reports: of a child,
    its output and its timing ([Plugin], [Ssh]), of memory and of
    files ([Tools]) and of access lists ([Shared]).

    ** Not modelled

    Sockets, the Windows console and the system calls behind its access lists,
    threads and the async runtime beyond the steps of a scope and of a shared
    file; the contents of the snapshots; [pr-intelligence/phrases.rs], a generated
    table that the search takes as an argument; the contrast of colours, which
    only tests compute; the panic hook; the terminal interface of [pr-tui], which
    draws one frame through a library.  A poisoned lock and a failing SQLite
    statement are not modelled.  Of the development tools under [xtask/], what
    starts containers, terminals and processes, the runner of the soak test and
    the command lines are not modelled: they only call the parts that are, or
    the operating system.  What is left beyond these is data and calls of
    libraries, so nothing further is planned. *)

From Stdlib Require Export ZArith Lia String Ascii Strings.Byte Bool.
From stdpp Require Export base tactics numbers option list strings gmap.

#[global] Open Scope Z_scope.

(** ** Results

    Rust's [Result<A, E>].  The [?] operator is [let?]. *)

Inductive result (E A : Type) : Type :=
| Ok (a : A)
| Err (e : E).
Arguments Ok {E A} a.
Arguments Err {E A} e.

Definition rbind {E A B : Type} (m : result E A) (f : A -> result E B) : result E B :=
  match m with
  | Ok a => f a
  | Err e => Err e
  end.

Declare Scope penguin_scope.
Delimit Scope penguin_scope with penguin.
#[global] Open Scope penguin_scope.

Notation "'let?' x ':=' m 'in' k" := (rbind m (fun x => k))
  (at level 10, x name, m at level 100, k at level 200)
  : penguin_scope.

Definition ok_or {E A : Type} (o : option A) (e : E) : result E A :=
  match o with
  | Some a => Ok a
  | None => Err e
  end.

Definition is_ok {E A : Type} (r : result E A) : bool :=
  match r with
  | Ok _ => true
  | Err _ => false
  end.

#[export] Instance result_eq_dec `{EqDecision E, EqDecision A} : EqDecision (result E A).
Proof. solve_decision. Defined.

(** ** Bytes

    A [u8] is a [Byte.byte]; [bz] is its numeric value. *)

Abbreviation byte := Byte.byte.
Abbreviation bytes := (list Byte.byte).

Definition bz (b : byte) : Z := Z.of_N (Byte.to_N b).

(** The byte of a number, modulo 256 ([as u8]). *)
Definition zb (z : Z) : byte := default x00 (Byte.of_N (Z.to_N (z mod 256))).

(** A literal byte string, Rust's [b"..."]. *)
Definition bs (s : string) : bytes := list_byte_of_string s.

(** Length as a [usize]. *)
Definition zlen {A : Type} (l : list A) : Z := Z.of_nat (length l).

#[export] Instance byte_eq_decision : EqDecision byte := Byte.byte_eq_dec.

#[export] Program Instance byte_countable : Countable byte :=
  inj_countable Byte.to_N Byte.of_N _.
Next Obligation. intros b. apply Byte.of_to_N. Qed.

Lemma bz_range b : 0 <= bz b < 256.
Proof.
  unfold bz. pose proof (Byte.to_N_bounded b). lia.
Qed.

Lemma zb_bz b : zb (bz b) = b.
Proof.
  unfold zb, bz. rewrite Z.mod_small by (apply bz_range).
  by rewrite N2Z.id, Byte.of_to_N.
Qed.

(** All 256 bytes, to decide a property of bytes by computation. *)
Definition all_bytes : bytes := (fun n => zb (Z.of_nat n)) <$> seq 0 256.

Lemma all_bytes_complete (b : byte) : b ∈ all_bytes.
Proof.
  apply list_elem_of_fmap. exists (Z.to_nat (bz b)).
  pose proof (bz_range b). rewrite Z2Nat.id, zb_bz by lia. split; [done|].
  apply elem_of_seq. lia.
Qed.

Lemma byte_forall (P : byte -> bool) :
  forallb P all_bytes = true -> forall b, P b = true.
Proof.
  intros H b. rewrite forallb_forall in H. apply H, list_elem_of_In, all_bytes_complete.
Qed.

Lemma bz_zb z : 0 <= z < 256 -> bz (zb z) = z.
Proof.
  intros Hz. unfold zb, bz. rewrite Z.mod_small by done.
  destruct (Byte.of_N (Z.to_N z)) as [b|] eqn:E; simpl.
  - apply Byte.to_of_N in E. rewrite E. lia.
  - apply Byte.of_N_None_iff in E. lia.
Qed.

Lemma bz_inj b c : bz b = bz c -> b = c.
Proof. intros E. by rewrite <- (zb_bz b), E, zb_bz. Qed.

(** ** Automation *)

Create HintDb penguin.
Create Rewrite HintDb zlen.
#[export] Hint Resolve bz_range zb_bz bz_zb : penguin.

(** Normalise equations between results and split conditionals. *)
Ltac inv_result :=
  repeat match goal with
  | H : Ok _ = Ok _ |- _ => injection H as H
  | H : Err _ = Err _ |- _ => injection H as H
  | H : Ok _ = Err _ |- _ => discriminate H
  | H : Err _ = Ok _ |- _ => discriminate H
  | H : rbind ?m _ = _ |- _ => let E := fresh "E" in destruct m eqn:E; simpl in H
  end.

Ltac split_cases := repeat (case_match || case_decide); simplify_eq/=.

(** ** Generic list lemmas *)

Lemma zlen_nonneg {A} (l : list A) : 0 <= zlen l.
Proof. unfold zlen. lia. Qed.

Lemma zlen_nil {A} : zlen (@nil A) = 0.
Proof. reflexivity. Qed.

Lemma zlen_cons {A} (x : A) l : zlen (x :: l) = zlen l + 1.
Proof. unfold zlen. simpl. lia. Qed.

Lemma zlen_app {A} (l k : list A) : zlen (l ++ k) = zlen l + zlen k.
Proof. unfold zlen. rewrite length_app. lia. Qed.

Lemma zlen_map {A B} (f : A -> B) l : zlen (map f l) = zlen l.
Proof. unfold zlen. by rewrite length_map. Qed.

#[export] Hint Rewrite @zlen_nil @zlen_cons @zlen_app @zlen_map : zlen.
#[export] Hint Resolve zlen_nonneg : penguin.

(** A suffix of a list, as positions in a buffer advance. *)
Lemma suffix_length_le {A} (l k : list A) : l `suffix_of` k -> (length l <= length k)%nat.
Proof. intros [p ->]. rewrite length_app. lia. Qed.

Lemma take_app_ge {A} (l k : list A) n :
  (n <= length l)%nat -> take n (l ++ k) = take n l.
Proof. intros Hn. rewrite take_app. replace (n - length l)%nat with 0%nat by lia.
  by rewrite take_0, app_nil_r. Qed.

Lemma drop_app_ge {A} (l k : list A) n :
  (n <= length l)%nat -> drop n (l ++ k) = drop n l ++ k.
Proof. intros Hn. rewrite drop_app. replace (n - length l)%nat with 0%nat by lia.
  by rewrite drop_0. Qed.

(** Filters that keep all, or nothing. *)
Lemma filter_all {A} (P : A -> Prop) `{!forall x, Decision (P x)} (l : list A) :
  (forall x, x ∈ l -> P x) -> filter P l = l.
Proof.
  induction l as [|x l IH]; intros Hl; [done|].
  rewrite filter_cons_True by apply Hl, list_elem_of_here. f_equal.
  apply IH. intros y Hy. by apply Hl, list_elem_of_further.
Qed.

Lemma filter_none {A} (P : A -> Prop) `{!forall x, Decision (P x)} (l : list A) :
  (forall x, x ∈ l -> ~ P x) -> filter P l = [].
Proof.
  induction l as [|x l IH]; intros Hl; [done|].
  rewrite filter_cons_False by apply Hl, list_elem_of_here.
  apply IH. intros y Hy. by apply Hl, list_elem_of_further.
Qed.
