(* ===== verification/Text.v ===== *)
(** * The parts of Rust's standard library the program computes with

    ASCII classes of bytes, decimal and hexadecimal numbers, UTF-8, and
    little-endian integers, each as an executable function on bytes.  A [str]
    is the list of its Unicode scalar values.  Nothing here models code of the
    repository: these are the library functions its components call. *)

From S2P Require Import Prelude.

(** ** ASCII classes ([u8::is_ascii_*]) *)

Definition is_ascii_digit (b : byte) : bool := bool_decide (48 <= bz b <= 57).
Definition is_ascii_hexdigit (b : byte) : bool :=
  is_ascii_digit b || bool_decide (65 <= bz b <= 70) || bool_decide (97 <= bz b <= 102).
Definition is_ascii_whitespace (b : byte) : bool :=
  bool_decide (b ∈ [" "%byte; x09; x0a; x0c; x0d]).
Definition is_ascii_graphic (b : byte) : bool := bool_decide (33 <= bz b <= 126).
Definition is_ascii (b : byte) : bool := bool_decide (bz b < 128).

Definition to_ascii_uppercase_byte (b : byte) : byte :=
  if decide (97 <= bz b <= 122) then zb (bz b - 32) else b.
Definition to_ascii_uppercase (s : bytes) : bytes := to_ascii_uppercase_byte <$> s.
Definition eq_ignore_ascii_case (s t : bytes) : bool :=
  bool_decide (to_ascii_uppercase s = to_ascii_uppercase t).

(** The value of a hexadecimal digit. *)
Definition hex_value (b : byte) : option Z :=
  if decide (48 <= bz b <= 57) then Some (bz b - 48)
  else if decide (97 <= bz b <= 102) then Some (bz b - 97 + 10)
  else if decide (65 <= bz b <= 70) then Some (bz b - 65 + 10)
  else None.

(** [{:x}] of one digit and [{:02x}] of a byte. *)
Definition hex_digit (z : Z) : byte := if decide (z < 10) then zb (48 + z) else zb (87 + z).
Definition hex2 (b : byte) : bytes := [hex_digit (bz b / 16); hex_digit (bz b mod 16)].

(** ** Decimal numbers *)

Definition digit_value (b : byte) : option Z :=
  if decide (48 <= bz b <= 57) then Some (bz b - 48) else None.

(** Left-to-right value of a digit string, [None] on any other byte. *)
Fixpoint digits_from (acc : Z) (s : bytes) : option Z :=
  match s with
  | [] => Some acc
  | b :: r => match digit_value b with
              | Some d => digits_from (acc * 10 + d) r
              | None => None
              end
  end.
Definition digits (s : bytes) : option Z :=
  match s with
  | [] => None
  | _ => digits_from 0 s
  end.

(** [str::parse] for an unsigned integer with largest value [max]: an optional
    [+], then at least one digit, no overflow. *)
Definition parse_unsigned (max : Z) (s : bytes) : option Z :=
  let body := match s with
              | b :: r => if decide (b = "+"%byte) then r else s
              | [] => s
              end in
  match digits body with
  | Some n => if decide (n <= max) then Some n else None
  | None => None
  end.

(** [str::parse] for a signed integer in [min, max]: an optional sign. *)
Definition parse_signed (min max : Z) (s : bytes) : option Z :=
  let '(neg, body) := match s with
                      | b :: r => if decide (b = "+"%byte) then (false, r)
                                  else if decide (b = "-"%byte) then (true, r)
                                  else (false, s)
                      | [] => (false, s)
                      end in
  match digits body with
  | Some n => let v := if neg : bool then - n else n in
              if decide (min <= v <= max) then Some v else None
  | None => None
  end.

Definition u8_max : Z := 2 ^ 8 - 1.
Definition u16_max : Z := 2 ^ 16 - 1.
Definition u32_max : Z := 2 ^ 32 - 1.
Definition u64_max : Z := 2 ^ 64 - 1.
Definition usize_max : Z := 2 ^ 64 - 1.
Definition i64_min : Z := - 2 ^ 63.
Definition i64_max : Z := 2 ^ 63 - 1.

(** [{}] of a non-negative integer: most significant digit first. *)
Fixpoint print_digits (fuel : nat) (n : Z) (acc : bytes) : bytes :=
  match fuel with
  | O => acc
  | S f => let acc' := zb (48 + n mod 10) :: acc in
           if decide (n < 10) then acc' else print_digits f (n / 10) acc'
  end.
Definition print_unsigned (n : Z) : bytes := print_digits (S (Z.to_nat (Z.log2 n))) n [].
Definition print_signed (z : Z) : bytes :=
  if decide (z < 0) then "-"%byte :: print_unsigned (- z) else print_unsigned z.

(** ** Floating-point literals: whether [str::parse::<f64>] succeeds

    The grammar of the documentation of [f64::from_str]: an optional sign, then
    [inf], [infinity] or [nan] in any case, or digits with at most one point
    and at least one digit, and an optional exponent. *)

Fixpoint skip_digits (s : bytes) : nat * bytes :=
  match s with
  | b :: r => if is_ascii_digit b then let '(n, t) := skip_digits r in (S n, t) else (O, s)
  | [] => (O, s)
  end.

Definition strip_sign (s : bytes) : bytes :=
  match s with
  | b :: r => if decide (b = "+"%byte \/ b = "-"%byte) then r else s
  | [] => s
  end.

Definition float_exponent (s : bytes) : bool :=
  match s with
  | [] => true
  | e :: r =>
      if decide (e = "e"%byte \/ e = "E"%byte) then
        let '(n, t) := skip_digits (strip_sign r) in
        bool_decide (0 < n)%nat && bool_decide (t = [])
      else false
  end.

Definition float_number (s : bytes) : bool :=
  let '(n, t) := skip_digits s in
  match t with
  | p :: t' => if decide (p = "."%byte) then
                 let '(m, u) := skip_digits t' in
                 bool_decide (0 < n + m)%nat && float_exponent u
               else bool_decide (0 < n)%nat && float_exponent t
  | [] => bool_decide (0 < n)%nat
  end.

Definition parses_as_f64 (s : bytes) : bool :=
  let u := strip_sign s in
  bool_decide (to_ascii_uppercase u ∈ [bs "INF"; bs "INFINITY"; bs "NAN"]) || float_number u.

(** ** UTF-8 *)

Abbreviation str := (list Z).

(** One step of validation: the next scalar value and its width, or where the
    sequence breaks ([error_len], [None] when the input merely ends). *)
Inductive utf8_step :=
| U8End
| U8Char (c : Z) (width : nat)
| U8Bad (error_len : option nat).

Definition is_cont (b : byte) : bool := bool_decide (128 <= bz b <= 191).

Definition utf8_next2 (x : Z) (r : bytes) : utf8_step :=
  match r with
  | [] => U8Bad None
  | b1 :: _ => if is_cont b1 then U8Char ((x - 192) * 64 + (bz b1 - 128)) 2
               else U8Bad (Some 1%nat)
  end.

(** The second byte a three- or four-byte lead accepts. *)
Definition second_ok3 (x y : Z) : bool :=
  bool_decide (x = 224 /\ 160 <= y <= 191) || bool_decide (225 <= x <= 236 /\ 128 <= y <= 191)
  || bool_decide (x = 237 /\ 128 <= y <= 159) || bool_decide (238 <= x <= 239 /\ 128 <= y <= 191).
Definition second_ok4 (x y : Z) : bool :=
  bool_decide (x = 240 /\ 144 <= y <= 191) || bool_decide (241 <= x <= 243 /\ 128 <= y <= 191)
  || bool_decide (x = 244 /\ 128 <= y <= 143).

Definition utf8_next3 (x : Z) (r : bytes) : utf8_step :=
  match r with
  | [] => U8Bad None
  | b1 :: r1 =>
      if second_ok3 x (bz b1) then
        match r1 with
        | [] => U8Bad None
        | b2 :: _ => if is_cont b2
                     then U8Char ((x - 224) * 4096 + (bz b1 - 128) * 64 + (bz b2 - 128)) 3
                     else U8Bad (Some 2%nat)
        end
      else U8Bad (Some 1%nat)
  end.

Definition utf8_next4 (x : Z) (r : bytes) : utf8_step :=
  match r with
  | [] => U8Bad None
  | b1 :: r1 =>
      if second_ok4 x (bz b1) then
        match r1 with
        | [] => U8Bad None
        | b2 :: r2 =>
            if is_cont b2 then
              match r2 with
              | [] => U8Bad None
              | b3 :: _ =>
                  if is_cont b3
                  then U8Char ((x - 240) * 262144 + (bz b1 - 128) * 4096
                               + (bz b2 - 128) * 64 + (bz b3 - 128)) 4
                  else U8Bad (Some 3%nat)
              end
            else U8Bad (Some 2%nat)
        end
      else U8Bad (Some 1%nat)
  end.

Definition utf8_next (s : bytes) : utf8_step :=
  match s with
  | [] => U8End
  | b0 :: r =>
      let x := bz b0 in
      if decide (x < 128) then U8Char x 1
      else if decide (194 <= x <= 223) then utf8_next2 x r
      else if decide (224 <= x <= 239) then utf8_next3 x r
      else if decide (240 <= x <= 244) then utf8_next4 x r
      else U8Bad (Some 1%nat)
  end.

(** The scalar values of the longest valid prefix, and what follows it. *)
Fixpoint utf8_run (fuel : nat) (s : bytes) : str * option (bytes * option nat) :=
  match fuel with
  | O => ([], None)
  | S f =>
      match utf8_next s with
      | U8End => ([], None)
      | U8Bad l => ([], Some (s, l))
      | U8Char c n => let '(cs, e) := utf8_run f (drop n s) in (c :: cs, e)
      end
  end.
Definition utf8 (s : bytes) : str * option (bytes * option nat) := utf8_run (S (length s)) s.

(** [str::from_utf8]. *)
Definition from_utf8 (s : bytes) : option str :=
  match utf8 s with
  | (cs, None) => Some cs
  | (_, Some _) => None
  end.

(** [String::from_utf8_lossy]: every ill-formed part becomes U+FFFD. *)
Fixpoint lossy_run (fuel : nat) (s : bytes) : str :=
  match fuel with
  | O => []
  | S f =>
      match utf8 s with
      | (cs, None) => cs
      | (cs, Some (bad, None)) => cs ++ [65533]
      | (cs, Some (bad, Some n)) => cs ++ 65533 :: lossy_run f (drop n bad)
      end
  end.
Definition from_utf8_lossy (s : bytes) : str := lossy_run (S (length s)) s.

(** [char::encode_utf8] and [char::len_utf8]. *)
Definition encode_char (c : Z) : bytes :=
  if decide (c < 128) then [zb c]
  else if decide (c < 2048) then [zb (192 + c / 64); zb (128 + c mod 64)]
  else if decide (c < 65536) then
    [zb (224 + c / 4096); zb (128 + c / 64 mod 64); zb (128 + c mod 64)]
  else [zb (240 + c / 262144); zb (128 + c / 4096 mod 64); zb (128 + c / 64 mod 64);
        zb (128 + c mod 64)].
Definition encode_str (s : str) : bytes := s ≫= encode_char.

(** [char::is_whitespace] (the Unicode [White_Space] property) and [str::trim]. *)
Definition char_is_whitespace (c : Z) : bool :=
  bool_decide (9 <= c <= 13) || bool_decide (8192 <= c <= 8202)
  || bool_decide (c ∈ [32; 133; 160; 5760; 8232; 8233; 8239; 8287; 12288]).
Fixpoint trim_start (s : str) : str :=
  match s with
  | c :: r => if char_is_whitespace c then trim_start r else s
  | [] => []
  end.
Definition trim (s : str) : str := reverse (trim_start (reverse (trim_start s))).
Definition trim_end (s : str) : str := reverse (trim_start (reverse s)).

(** [str::split(sep)]: the parts between separators, one more than there are. *)
Fixpoint split_on (sep : Z) (s : str) : list str :=
  match s with
  | [] => [[]]
  | c :: r =>
      if decide (c = sep) then [] :: split_on sep r
      else match split_on sep r with
           | [] => [[c]]
           | p :: ps => (c :: p) :: ps
           end
  end.

(** [str::replace] of a pattern of two characters by one. *)
Fixpoint replace_pair (a b by' : Z) (s : str) : str :=
  match s with
  | [] => []
  | c :: r =>
      match r with
      | d :: r' => if decide (c = a /\ d = b) then by' :: replace_pair a b by' r'
                   else c :: replace_pair a b by' r
      | [] => [c]
      end
  end.

(** An ASCII string literal as a [str]. *)
Definition chars (s : string) : str := bz <$> bs s.

(** ** Little-endian integers ([to_le_bytes]) *)

Fixpoint le_bytes (width : nat) (n : Z) : bytes :=
  match width with
  | O => []
  | S w => zb n :: le_bytes w (n / 256)
  end.

(** ** Small [str] and slice functions *)

(** [slice::join] and [str::replace] of one character. *)
Fixpoint join {A : Type} (sep : list A) (parts : list (list A)) : list A :=
  match parts with
  | [] => []
  | [p] => p
  | p :: r => p ++ sep ++ join sep r
  end.
Definition replace_char (c : Z) (by' : str) (s : str) : str :=
  s ≫= (fun d => if decide (d = c) then by' else [d]).

(** [slice::chunks]: pieces of [n] elements, the last possibly shorter. *)
Fixpoint chunks_fuel {A : Type} (fuel n : nat) (l : list A) : list (list A) :=
  match fuel, l with
  | O, _ | _, [] => []
  | S f, _ => take n l :: chunks_fuel f n (drop n l)
  end.
Definition chunks {A : Type} (n : nat) (l : list A) : list (list A) :=
  chunks_fuel (length l) n l.

(** [str::strip_prefix] on slices. *)
Fixpoint strip_prefix {A : Type} `{EqDecision A} (p s : list A) : option (list A) :=
  match p, s with
  | [], _ => Some s
  | a :: p', b :: s' => if decide (a = b) then strip_prefix p' s' else None
  | _, [] => None
  end.

(** A literal in which the single quote stands for the double quote. *)
Definition quoted (s : string) : str := (fun c => if decide (c = 39) then 34 else c) <$> chars s.

(** [{:04x}] of a scalar value below [65536]. *)
Definition hex4 (c : Z) : str :=
  bz <$> [hex_digit (c / 4096); hex_digit (c / 256 mod 16); hex_digit (c / 16 mod 16);
          hex_digit (c mod 16)].

(** [str::contains]. *)
Fixpoint contains_str (needle s : str) : bool :=
  match strip_prefix needle s with
  | Some _ => true
  | None => match s with
            | [] => false
            | _ :: r => contains_str needle r
            end
  end.
