(* ===== verification/TextFacts.v ===== *)
(** * Numbers, ASCII and UTF-8: the facts the components share *)

From S2P Require Import Prelude Text.

Create HintDb text.

(** ** Printing and reading numbers *)

Lemma is_ascii_digit_spec b : is_ascii_digit b = true <-> 48 <= bz b <= 57.
Proof. unfold is_ascii_digit. by rewrite bool_decide_eq_true. Qed.

Lemma digit_value_zb d : 0 <= d < 10 -> digit_value (zb (48 + d)) = Some d.
Proof.
  intros Hd. unfold digit_value. rewrite bz_zb by lia.
  rewrite decide_True by lia. f_equal. lia.
Qed.

Lemma digits_from_app a s t :
  digits_from a (s ++ t) =
  match digits_from a s with
  | Some a' => digits_from a' t
  | None => None
  end.
Proof. revert a. induction s as [|b s IH]; intros a; simpl; [done|]. by case_match. Qed.

Lemma print_digits_spec fuel n acc :
  0 <= n < 10 ^ Z.of_nat fuel ->
  exists ds (k : nat), print_digits fuel n acc = ds ++ acc /\
    (0 < fuel -> ds <> [])%nat /\ Forall (fun b => is_ascii_digit b = true) ds /\
    forall a, digits_from a ds = Some (a * 10 ^ Z.of_nat k + n).
Proof.
  revert n acc. induction fuel as [|f IH]; intros n acc Hn.
  { exists [], 0%nat. simpl in Hn. split_and!; [done|lia|constructor|].
    intros a. simpl. f_equal. lia. }
  simpl. pose proof (Z.mod_pos_bound n 10 ltac:(lia)) as Hm.
  assert (Hd : is_ascii_digit (zb (48 + n mod 10)) = true).
  { apply is_ascii_digit_spec. rewrite bz_zb; lia. }
  case_decide.
  - exists [zb (48 + n mod 10)], 1%nat. split_and!; [done..|by repeat constructor|].
    intros a. cbn [digits_from]. rewrite digit_value_zb by lia. f_equal.
    rewrite Z.mod_small by lia. lia.
  - rewrite Nat2Z.inj_succ, Z.pow_succ_r in Hn by lia.
    destruct (IH (n / 10) (zb (48 + n mod 10) :: acc)) as (ds & k & -> & _ & Hf & Hv).
    { split; [apply Z.div_pos; lia|apply Z.div_lt_upper_bound; lia]. }
    exists (ds ++ [zb (48 + n mod 10)]), (S k).
    split_and!; [by rewrite <- app_assoc|by destruct ds|apply Forall_app; by repeat constructor|].
    intros a. rewrite digits_from_app, Hv. cbn [digits_from].
    rewrite digit_value_zb by lia. f_equal.
    rewrite Nat2Z.inj_succ, Z.pow_succ_r by lia. pose proof (Z.div_mod n 10 ltac:(lia)). lia.
Qed.

Lemma print_unsigned_spec n :
  0 <= n ->
  print_unsigned n <> [] /\ Forall (fun b => is_ascii_digit b = true) (print_unsigned n) /\
  digits (print_unsigned n) = Some n.
Proof.
  intros Hn. unfold print_unsigned.
  destruct (print_digits_spec (S (Z.to_nat (Z.log2 n))) n []) as (ds & k & -> & Hne & Hf & Hv).
  { split; [done|]. rewrite Nat2Z.inj_succ, Z2Nat.id by apply Z.log2_nonneg.
    destruct (decide (n = 0)) as [->|]; [done|].
    pose proof (Z.log2_spec n ltac:(lia)) as [_ Hlt].
    eapply Z.lt_le_trans; [exact Hlt|]. apply Z.pow_le_mono_l. lia. }
  rewrite app_nil_r. split_and!; [apply Hne; lia|done|].
  unfold digits. destruct ds as [|b ds]; [exfalso; apply Hne; (done || lia)|]. rewrite Hv. done.
Qed.

Lemma digits_head b s n : digits (b :: s) = Some n -> is_ascii_digit b = true.
Proof.
  unfold digits. simpl. unfold digit_value. case_decide; [|done]. intros _.
  by apply is_ascii_digit_spec.
Qed.

Lemma is_ascii_digit_not b c : is_ascii_digit b = true -> is_ascii_digit c = false -> b <> c.
Proof. intros Hb Hc ->. congruence. Qed.

Lemma parse_unsigned_print max n :
  0 <= n <= max -> parse_unsigned max (print_unsigned n) = Some n.
Proof.
  intros Hn. destruct (print_unsigned_spec n) as (Hne & Hf & Hd); [lia|].
  unfold parse_unsigned. destruct (print_unsigned n) as [|b s]; [done|].
  apply Forall_cons in Hf as [Hb _].
  rewrite decide_False by (by eapply is_ascii_digit_not).
  rewrite Hd. by rewrite decide_True by lia.
Qed.

Lemma parse_signed_print min max z :
  min <= z <= max -> parse_signed min max (print_signed z) = Some z.
Proof.
  intros Hz. unfold print_signed, parse_signed. case_decide.
  - destruct (print_unsigned_spec (- z)) as (_ & _ & Hd); [lia|].
    rewrite decide_False by done. rewrite decide_True by done. rewrite Hd.
    rewrite Z.opp_involutive. by rewrite decide_True by lia.
  - destruct (print_unsigned_spec z) as (Hne & Hf & Hd); [lia|].
    destruct (print_unsigned z) as [|b s]; [done|]. apply Forall_cons in Hf as [Hb _].
    rewrite !decide_False by (by eapply is_ascii_digit_not).
    rewrite Hd. by rewrite decide_True by lia.
Qed.

(** ** ASCII text *)

Lemma utf8_run_ascii f s :
  (length s < f)%nat -> Forall (fun b => bz b < 128) s -> utf8_run f s = (bz <$> s, None).
Proof.
  revert s. induction f as [|f IH]; intros s Hf Hs; [lia|].
  destruct s as [|b s]; [done|]. apply Forall_cons in Hs as [Hb Hs].
  cbn [utf8_run utf8_next]. rewrite decide_True by done.
  simpl in Hf. change (drop 1 (b :: s)) with s. rewrite (IH s); [done|lia|done].
Qed.

Lemma from_utf8_ascii s : Forall (fun b => bz b < 128) s -> from_utf8 s = Some (bz <$> s).
Proof. intros Hs. unfold from_utf8, utf8. by rewrite utf8_run_ascii by (done || lia). Qed.

Lemma trim_start_id s : head s = None \/ (exists c, head s = Some c /\ char_is_whitespace c = false) ->
  trim_start s = s.
Proof.
  destruct s as [|c s]; [done|]. intros [[=]|(d & [= <-] & E)]. simpl. by rewrite E.
Qed.

Lemma trim_id s : Forall (fun c => char_is_whitespace c = false) s -> trim s = s.
Proof.
  intros Hs. unfold trim.
  assert (forall t, Forall (fun c => char_is_whitespace c = false) t -> trim_start t = t) as Ht.
  { intros t Htt. apply trim_start_id. destruct Htt as [|c t Hc]; [by left|right; by exists c]. }
  rewrite (Ht s) by done. rewrite Ht by (by apply Forall_reverse).
  apply reverse_involutive.
Qed.

(** Printable ASCII other than the space is never trimmed. *)
Lemma char_not_whitespace c : 33 <= c <= 126 -> char_is_whitespace c = false.
Proof.
  intros Hc. unfold char_is_whitespace.
  rewrite !bool_decide_eq_false_2; [done|..]; try lia.
  rewrite !elem_of_cons, elem_of_nil. lia.
Qed.

Definition graphic (b : byte) : Prop := 33 <= bz b <= 126.

Lemma graphic_ascii s : Forall graphic s -> Forall (fun b => bz b < 128) s.
Proof. intros Hs. eapply Forall_impl; [exact Hs|]. unfold graphic. lia. Qed.

Lemma graphic_trim s : Forall graphic s -> trim (bz <$> s) = bz <$> s.
Proof.
  intros Hs. apply trim_id, Forall_fmap. eapply Forall_impl; [done|].
  intros b. apply char_not_whitespace.
Qed.

Lemma digit_graphic s : Forall (fun b => is_ascii_digit b = true) s -> Forall graphic s.
Proof.
  intros Hs. eapply Forall_impl; [exact Hs|]. intros b Hb. apply is_ascii_digit_spec in Hb. unfold graphic. lia.
Qed.

Lemma print_signed_graphic z : Forall graphic (print_signed z).
Proof.
  unfold print_signed. case_decide.
  - constructor; [by split|]. apply digit_graphic, print_unsigned_spec. lia.
  - apply digit_graphic, print_unsigned_spec. lia.
Qed.

Lemma graphic_no_byte s c : Forall graphic s -> ~ graphic c -> c ∉ s.
Proof. intros Hs Hc Hin. by eapply Hc, (proj1 (Forall_forall _ _) Hs). Qed.

(** ** UTF-8 decoding and encoding *)

Lemma zb_of b z : 0 <= z < 256 -> bz b = z -> zb z = b.
Proof. intros _ <-. apply zb_bz. Qed.

(** Read a conditional of the decoder as the facts it tests. *)
Ltac utf8_cases :=
  repeat match goal with
  | x : Byte.byte |- _ => lazymatch goal with
      | _ : 0 <= bz x < 256 |- _ => fail
      | _ => pose proof (bz_range x)
      end
  | |- context [match ?r with [] => _ | _ :: _ => _ end] => destruct r
  | |- context [if decide _ then _ else _] => case_decide
  | |- (if ?c then _ else _) = _ -> _ => destruct c eqn:?
  end;
  intros [= <- <-];
  repeat match goal with
  | H : (_ || _)%bool = true |- _ => apply orb_true_iff in H as [H|H]
  | H : bool_decide _ = true |- _ => apply bool_decide_eq_true in H
  end.

Lemma utf8_next_encode s c n :
  utf8_next s = U8Char c n ->
  encode_char c = take n s /\ (0 < n <= length s)%nat /\ 0 <= c < 1114112.
Proof.
  unfold utf8_next. destruct s as [|b r]; [done|].
  unfold utf8_next2, utf8_next3, utf8_next4, is_cont, second_ok3, second_ok4.
  utf8_cases; (split; [|split; [simpl; lia|lia]]); unfold encode_char;
  repeat first [rewrite decide_False by lia | rewrite decide_True by lia]; simpl;
  repeat match goal with
  | |- _ :: _ = _ :: _ => f_equal
  | |- zb _ = _ => apply zb_of; [Z.to_euclidean_division_equations; lia|]
  | |- bz _ = _ => Z.to_euclidean_division_equations; lia
  end; try done.
Qed.

Lemma utf8_run_encode f s :
  (length s < f)%nat ->
  encode_str (utf8_run f s).1 ++ match (utf8_run f s).2 with Some (bad, _) => bad | None => [] end = s /\
  Forall (fun c => 0 <= c < 1114112) (utf8_run f s).1 /\
  match (utf8_run f s).2 with Some (bad, _) => bad <> [] | None => True end.
Proof.
  revert s. induction f as [|f IH]; intros s Hf; [lia|]. cbn [utf8_run].
  destruct (utf8_next s) as [|c n|l] eqn:E.
  - destruct s as [|b r]; [by split_and!; [|constructor|]|]. exfalso. revert E.
    unfold utf8_next, utf8_next2, utf8_next3, utf8_next4.
    repeat (case_match || case_decide); done.
  - apply utf8_next_encode in E as (E & Hn & Hc).
    destruct (IH (drop n s)) as (E1 & H1 & H2); [rewrite length_drop; lia|].
    destruct (utf8_run f (drop n s)) as [cs e]. simpl in *. split_and!; [|by constructor|done].
    unfold encode_str in *. simpl. rewrite E, <- app_assoc, E1. apply take_drop.
  - split_and!; [done|constructor|]. by destruct s.
Qed.

Lemma utf8_encode s cs : utf8 s = (cs, None) -> encode_str cs = s.
Proof.
  unfold utf8. destruct (utf8_run_encode (S (length s)) s) as (E & _); [lia|].
  intros Eq. rewrite Eq in E. simpl in E. by rewrite app_nil_r in E.
Qed.

Lemma utf8_bad s cs bad l :
  utf8 s = (cs, Some (bad, l)) -> s = encode_str cs ++ bad /\ bad <> [].
Proof.
  unfold utf8. destruct (utf8_run_encode (S (length s)) s) as (E & _ & Hb); [lia|].
  intros Eq. rewrite Eq in E, Hb. done.
Qed.

Lemma from_utf8_scalar s t : from_utf8 s = Some t -> Forall (fun c => 0 <= c < 1114112) t.
Proof.
  unfold from_utf8, utf8. destruct (utf8_run_encode (S (length s)) s) as (_ & H & _); [lia|].
  destruct (utf8_run _ s) as [cs [[]|]]; intros [= ->]. done.
Qed.

Lemma from_utf8_encode s t : from_utf8 s = Some t -> encode_str t = s.
Proof.
  unfold from_utf8. destruct (utf8 s) as [cs [[]|]] eqn:E; intros [= ->]. by apply utf8_encode.
Qed.

(** ** Scalar values: what a [char] may be *)

Definition scalar (c : Z) : Prop := 0 <= c < 55296 \/ 57344 <= c < 1114112.

Lemma utf8_next_scalar s c n : utf8_next s = U8Char c n -> scalar c.
Proof.
  unfold utf8_next, scalar. destruct s as [|b r]; [done|].
  unfold utf8_next2, utf8_next3, utf8_next4, is_cont, second_ok3, second_ok4.
  utf8_cases; lia.
Qed.

(** Decide a test of the decoder from the ranges at hand. *)
Ltac utf8_decide :=
  repeat first
    [ rewrite decide_True by (Z.to_euclidean_division_equations; lia)
    | rewrite decide_False by (Z.to_euclidean_division_equations; lia) ].

Lemma is_cont_zb z : 0 <= z < 64 -> is_cont (zb (128 + z)) = true.
Proof. intros Hz. unfold is_cont. rewrite bz_zb by lia. apply bool_decide_eq_true. lia. Qed.

Lemma utf8_next_encode_char c r :
  scalar c -> utf8_next (encode_char c ++ r) = U8Char c (length (encode_char c)).
Proof.
  intros Hc. unfold scalar in Hc. unfold encode_char. case_decide as H1.
  { cbn [app utf8_next length]. rewrite bz_zb by lia. by rewrite decide_True by lia. }
  case_decide as H2.
  { assert (2 <= c / 64 < 32) by (Z.to_euclidean_division_equations; lia).
    pose proof (Z.mod_pos_bound c 64 ltac:(lia)).
    cbn [app utf8_next length]. rewrite bz_zb by lia.
    rewrite decide_False, decide_True by lia. unfold utf8_next2.
    rewrite is_cont_zb, bz_zb by lia. f_equal. pose proof (Z.div_mod c 64). lia. }
  case_decide as H3.
  { assert (0 <= c / 4096 < 16) by (Z.to_euclidean_division_equations; lia).
    pose proof (Z.mod_pos_bound c 64 ltac:(lia)). pose proof (Z.mod_pos_bound (c / 64) 64 ltac:(lia)).
    cbn [app utf8_next length]. rewrite bz_zb by lia.
    rewrite decide_False, decide_False, decide_True by lia. unfold utf8_next3.
    rewrite bz_zb by lia.
    assert (second_ok3 (224 + c / 4096) (128 + c / 64 mod 64) = true) as ->.
    { unfold second_ok3. rewrite !orb_true_iff, !bool_decide_eq_true.
      Z.to_euclidean_division_equations; lia. }
    rewrite is_cont_zb, bz_zb by lia. f_equal. Z.to_euclidean_division_equations; lia. }
  assert (0 <= c / 262144 < 5) by (Z.to_euclidean_division_equations; lia).
  pose proof (Z.mod_pos_bound c 64 ltac:(lia)). pose proof (Z.mod_pos_bound (c / 64) 64 ltac:(lia)).
  pose proof (Z.mod_pos_bound (c / 4096) 64 ltac:(lia)).
  cbn [app utf8_next length]. rewrite bz_zb by lia.
  rewrite decide_False, decide_False, decide_False, decide_True by lia. unfold utf8_next4.
  rewrite bz_zb by lia.
  assert (second_ok4 (240 + c / 262144) (128 + c / 4096 mod 64) = true) as ->.
  { unfold second_ok4. rewrite !orb_true_iff, !bool_decide_eq_true.
    Z.to_euclidean_division_equations; lia. }
  rewrite !is_cont_zb, !bz_zb by lia. f_equal. Z.to_euclidean_division_equations; lia.
Qed.

Lemma encode_char_nonempty c : (0 < length (encode_char c))%nat.
Proof. unfold encode_char. repeat case_decide; simpl; lia. Qed.

Lemma utf8_run_encode_str f cs :
  Forall scalar cs -> (length (encode_str cs) < f)%nat -> utf8_run f (encode_str cs) = (cs, None).
Proof.
  intros Hs. revert f. induction Hs as [|c cs Hc _ IH]; intros f Hf.
  - destruct f; [lia|]. done.
  - destruct f as [|f]; [lia|]. unfold encode_str in *. cbn [mbind list_bind] in *.
    rewrite length_app in Hf. pose proof (encode_char_nonempty c).
    cbn [utf8_run]. rewrite utf8_next_encode_char by done. rewrite drop_app_length, IH by lia. done.
Qed.

Lemma from_utf8_encode_str cs : Forall scalar cs -> from_utf8 (encode_str cs) = Some cs.
Proof. intros Hs. unfold from_utf8, utf8. by rewrite utf8_run_encode_str by (done || lia). Qed.

Lemma utf8_run_scalar f s : Forall scalar (utf8_run f s).1.
Proof.
  revert s. induction f as [|f IH]; intros s; cbn [utf8_run]; [constructor|].
  destruct (utf8_next s) as [|c n|l] eqn:E; [constructor| |constructor].
  specialize (IH (drop n s)). destruct (utf8_run f (drop n s)) as [cs e]. simpl in *.
  constructor; [by eapply utf8_next_scalar|done].
Qed.

Lemma from_utf8_scalars s t : from_utf8 s = Some t -> Forall scalar t.
Proof.
  unfold from_utf8, utf8. pose proof (utf8_run_scalar (S (length s)) s) as H.
  destruct (utf8_run _ s) as [cs [[]|]]; intros [= <-]. done.
Qed.

Lemma lossy_run_scalar f s : Forall scalar (lossy_run f s).
Proof.
  revert s. induction f as [|f IH]; intros s; cbn [lossy_run]; [constructor|].
  pose proof (utf8_run_scalar (S (length s)) s) as H. unfold utf8.
  destruct (utf8_run _ s) as [cs [[bad [n|]]|]]; simpl in *; [|apply Forall_app; split; [done|]|done].
  - apply Forall_app. split; [done|]. constructor; [unfold scalar; lia|apply IH].
  - constructor; [unfold scalar; lia|constructor].
Qed.

Lemma from_utf8_lossy_scalar s : Forall scalar (from_utf8_lossy s).
Proof. apply lossy_run_scalar. Qed.

Lemma encode_str_app s t : encode_str (s ++ t) = encode_str s ++ encode_str t.
Proof. unfold encode_str. apply bind_app. Qed.

Lemma encode_str_ascii s : Forall (fun b => bz b < 128) s -> encode_str (bz <$> s) = s.
Proof.
  induction 1 as [|b s Hb _ IH]; [done|]. unfold encode_str in *. rewrite fmap_cons.
  cbn [mbind list_bind]. unfold encode_char at 1. rewrite decide_True, zb_bz by done. cbn [app].
  by rewrite IH.
Qed.

Lemma from_utf8_lossy_valid s t : from_utf8 s = Some t -> from_utf8_lossy s = t.
Proof.
  unfold from_utf8, from_utf8_lossy. cbn [lossy_run]. by destruct (utf8 s) as [cs [[]|]]; intros [= <-].
Qed.

Lemma from_utf8_lossy_ascii s : Forall (fun b => bz b < 128) s -> from_utf8_lossy s = bz <$> s.
Proof. intros Hs. by apply from_utf8_lossy_valid, from_utf8_ascii. Qed.

Lemma from_utf8_lossy_encode cs : Forall scalar cs -> from_utf8_lossy (encode_str cs) = cs.
Proof. intros Hs. by apply from_utf8_lossy_valid, from_utf8_encode_str. Qed.

Lemma encode_join_sep sep (parts : list str) :
  encode_str (join sep parts) = join (encode_str sep) (encode_str <$> parts).
Proof.
  induction parts as [|p [|q parts] IH]; [done|done|].
  change (join sep (p :: q :: parts)) with (p ++ sep ++ join sep (q :: parts)).
  rewrite !encode_str_app, IH. done.
Qed.
