(* ===== verification/Lines.v ===== *)
(** * Cutting text: prefixes, separators and lines

    [str::strip_prefix], [split], [split_once], [rsplit_once] and [lines], with
    the laws the components that read line-based files and addresses share. *)

From S2P Require Import Prelude Text TextFacts.

(** [split_once(c)] and [rsplit_once(c)]. *)
Fixpoint split_once (c : Z) (s : str) : option (str * str) :=
  match s with
  | [] => None
  | d :: r => if decide (d = c) then Some ([], r) else prod_map (cons d) id <$> split_once c r
  end.
Fixpoint rsplit_once (c : Z) (s : str) : option (str * str) :=
  match s with
  | [] => None
  | d :: r =>
      match rsplit_once c r with
      | Some (p, q) => Some (d :: p, q)
      | None => if decide (d = c) then Some ([], r) else None
      end
  end.
(** [str::lines]: a line ends at a newline, with a carriage return before it
    dropped; what follows the last newline is a line unless it is empty. *)
Definition strip_cr (s : str) : str :=
  match reverse s with
  | c :: r => if decide (c = 13) then reverse r else s
  | [] => s
  end.
Fixpoint lines_of (ps : list str) : list str :=
  match ps with
  | [] => []
  | p :: r => match r with
              | [] => if decide (p = []) then [] else [p]
              | _ :: _ => strip_cr p :: lines_of r
              end
  end.
Definition str_lines (s : str) : list str := lines_of (split_on 10 s).

(** A literal of the source in any script: Rocq reads its UTF-8. *)
Definition txt (s : string) : str := default [] (from_utf8 (bs s)).

(** ** Prefixes *)

Lemma strip_prefix_spec {A} `{EqDecision A} (p s r : list A) : strip_prefix p s = Some r <-> s = p ++ r.
Proof.
  revert s. induction p as [|x p IH]; intros s; cbn [strip_prefix app].
  - split; congruence.
  - destruct s as [|y s]; [done|]. case_decide as H; [subst; rewrite IH; naive_solver|]. naive_solver.
Qed.

Lemma strip_prefix_app {A} `{EqDecision A} (p s : list A) : strip_prefix p (p ++ s) = Some s.
Proof. by apply strip_prefix_spec. Qed.

(** ** Cutting at a character *)

Lemma split_once_app c p q : (c ∉ p) -> split_once c (p ++ c :: q) = Some (p, q).
Proof.
  induction p as [|d p IH]; intros Hp; cbn [app split_once]; [by rewrite decide_True|].
  apply not_elem_of_cons in Hp as [Hd Hp]. by rewrite decide_False, IH.
Qed.

Lemma split_once_none c p : (c ∉ p) -> split_once c p = None.
Proof.
  induction p as [|d p IH]; intros Hp; [done|]. cbn [split_once].
  apply not_elem_of_cons in Hp as [Hd Hp]. by rewrite decide_False, IH.
Qed.

Lemma split_once_some c s p q : split_once c s = Some (p, q) -> s = p ++ c :: q /\ c ∉ p.
Proof.
  revert p. induction s as [|d s IH]; intros p; cbn [split_once]; [done|].
  case_decide as Hd; [intros [= <- <-]; subst; split; [done|apply not_elem_of_nil]|].
  destruct (split_once c s) as [[a b]|]; [|done]. intros [= <- <-]. destruct (IH a eq_refl) as [-> Hn].
  split; [done|]. cbn. by apply not_elem_of_cons.
Qed.

Lemma rsplit_once_none c p : (c ∉ p) -> rsplit_once c p = None.
Proof.
  induction p as [|d p IH]; intros Hp; [done|]. cbn [rsplit_once].
  apply not_elem_of_cons in Hp as [Hd Hp]. by rewrite IH, decide_False.
Qed.

Lemma rsplit_once_app c p q : (c ∉ q) -> rsplit_once c (p ++ c :: q) = Some (p, q).
Proof.
  intros Hq. induction p as [|d p IH]; cbn [app rsplit_once].
  - by rewrite rsplit_once_none, decide_True.
  - by rewrite IH.
Qed.

(** ** Splitting *)

Lemma split_on_nonempty sep s : split_on sep s <> [].
Proof. destruct s; simpl; [done|]. case_decide; [done|]. by case_match. Qed.

Lemma split_on_app sep l s : sep ∉ l ->
  split_on sep (l ++ sep :: s) = l :: split_on sep s.
Proof.
  induction l as [|c l IH]; intros Hl; cbn [app split_on]; [by rewrite decide_True|].
  apply not_elem_of_cons in Hl as [Hc Hl]. by rewrite decide_False, IH.
Qed.

Lemma split_on_single sep l : sep ∉ l -> split_on sep l = [l].
Proof.
  induction l as [|c l IH]; intros Hl; [done|]. cbn [split_on].
  apply not_elem_of_cons in Hl as [Hc Hl]. by rewrite decide_False, IH.
Qed.

Lemma split_on_join sep ls : Forall (fun l => sep ∉ l) ls -> ls <> [] ->
  split_on sep (join [sep] ls) = ls.
Proof.
  induction 1 as [|l ls Hl Hls IH]; intros Hn; [done|]. destruct ls as [|l' ls].
  - by apply split_on_single.
  - change (join [sep] (l :: l' :: ls)) with (l ++ sep :: join [sep] (l' :: ls)).
    by rewrite split_on_app, IH.
Qed.

Lemma join_avoids {A} (c s : A) ls : c <> s -> Forall (fun l => c ∉ l) ls -> (c ∉ join [s] ls).
Proof.
  intros Hc. induction 1 as [|l ls Hl Hls IH]; [apply not_elem_of_nil|].
  destruct ls as [|l' ls]; [done|]. change (c ∉ l ++ [s] ++ join [s] (l' :: ls)).
  rewrite !not_elem_of_app. split_and!; [done|by intros ?%list_elem_of_singleton|done].
Qed.

Lemma split_on_parts sep d s l : l ∈ split_on sep s -> d ∈ l -> d <> sep /\ d ∈ s.
Proof.
  revert l. induction s as [|c s IH]; intros l Hl Hd; cbn [split_on] in Hl.
  - apply list_elem_of_singleton in Hl as ->. by apply not_elem_of_nil in Hd.
  - case_decide as Hc.
    + apply elem_of_cons in Hl as [->|Hl]; [by apply not_elem_of_nil in Hd|].
      destruct (IH _ Hl Hd). split; [done|by right].
    + destruct (split_on sep s) as [|p ps].
      * apply list_elem_of_singleton in Hl as ->. apply list_elem_of_singleton in Hd as ->.
        split; [done|by left].
      * apply elem_of_cons in Hl as [->|Hl].
        -- apply elem_of_cons in Hd as [->|Hd]; [split; [done|by left]|].
           destruct (IH p ltac:(by left) Hd). split; [done|by right].
        -- destruct (IH l ltac:(by right) Hd). split; [done|by right].
Qed.

(** Splitting a concatenation: the last part of one and the first of the other are one. *)
Lemma split_on_concat_any sep s q : exists ps l r qs,
  split_on sep s = ps ++ [l] /\ split_on sep q = r :: qs /\ split_on sep (s ++ q) = ps ++ (l ++ r) :: qs.
Proof.
  induction s as [|c s (ps & l & r & qs & E & Eq & E')]; cbn [app split_on].
  - destruct (split_on sep q) as [|r qs] eqn:Eq; [by apply split_on_nonempty in Eq|]. by exists [], [], r, qs.
  - rewrite E, E'. case_decide; [by exists ([] :: ps), l, r, qs|].
    destruct ps as [|p' ps]; [by exists [], (c :: l), r, qs|by exists ((c :: p') :: ps), l, r, qs].
Qed.

Lemma join_split_on sep s : join [sep] (split_on sep s) = s.
Proof.
  induction s as [|c s IH]; [done|]. cbn [split_on]. pose proof (split_on_nonempty sep s).
  case_decide as Hc; destruct (split_on sep s) as [|p ps]; try done; [by subst c; cbn in *; f_equal|].
  destruct ps; cbn in *; by f_equal.
Qed.

(** Splitting a concatenation whose cut is a separator. *)
Lemma split_on_concat sep s t : split_on sep (s ++ sep :: t) = split_on sep s ++ split_on sep t.
Proof.
  induction s as [|c s IH]; cbn [app split_on]; [by rewrite decide_True|]. rewrite IH.
  case_decide; [done|]. pose proof (split_on_nonempty sep s). by destruct (split_on sep s).
Qed.

(** ** Lines *)

Lemma strip_cr_id s : last s <> Some 13 -> strip_cr s = s.
Proof.
  unfold strip_cr. intros H. destruct (reverse s) as [|c r] eqn:E; [done|].
  rewrite decide_False; [done|]. intros ->. apply H.
  rewrite <- (reverse_involutive s), E, reverse_cons. apply last_snoc.
Qed.

Lemma lines_of_snoc ps p : lines_of (ps ++ [p]) = (strip_cr <$> ps) ++ (if decide (p = []) then [] else [p]).
Proof.
  induction ps as [|q ps IH]; [by cbn; case_decide|].
  change ((q :: ps) ++ [p]) with (q :: (ps ++ [p])). cbn [lines_of fmap list_fmap app].
  rewrite IH. by destruct ps.
Qed.

(** A text every line of which is ended. *)
Definition terminated (t : str) : Prop := t = [] \/ exists u, t = u ++ [10].

(** Behind ended lines, more text is read by itself. *)
Lemma str_lines_app t u : terminated t -> str_lines (t ++ u) = str_lines t ++ str_lines u.
Proof.
  intros [->|[v ->]]; [done|]. unfold str_lines. rewrite <- app_assoc. cbn [app].
  rewrite !split_on_concat. cbn [split_on]. rewrite lines_of_snoc. cbn. rewrite app_nil_r.
  assert (E : forall ps, ps <> [] -> forall k, lines_of (k ++ ps) = (strip_cr <$> k) ++ lines_of ps).
  { intros ps Hps. induction k as [|q k IH]; [done|]. change ((q :: k) ++ ps) with (q :: (k ++ ps)).
    cbn [lines_of fmap list_fmap app]. rewrite IH. by destruct k, ps. }
  apply E, split_on_nonempty.
Qed.

Lemma str_lines_single l : 10 ∉ l -> last l <> Some 13 -> str_lines (l ++ [10]) = [l].
Proof.
  intros Hl Hc. unfold str_lines. rewrite split_on_concat, split_on_single by done. cbn.
  by rewrite strip_cr_id.
Qed.

Lemma str_lines_open l : 10 ∉ l -> l <> [] -> str_lines l = [l].
Proof. intros Hl Hn. unfold str_lines. rewrite split_on_single by done. cbn. by rewrite decide_False. Qed.

Lemma terminated_snoc t l : terminated (t ++ l ++ [10]).
Proof. right. exists (t ++ l). by rewrite app_assoc. Qed.

(** A text with a visible character is not blank. *)
Lemma trim_start_nonempty s c : c ∈ s -> char_is_whitespace c = false -> c ∈ trim_start s.
Proof.
  induction s as [|d s IH]; intros Hc Hw; [done|]. cbn [trim_start]. destruct (char_is_whitespace d) eqn:E; [|done].
  apply elem_of_cons in Hc as [->|Hc]; [congruence|]. by apply IH.
Qed.

Lemma trim_nonempty s c : c ∈ s -> char_is_whitespace c = false -> trim s <> [].
Proof.
  intros Hc Hw E. assert (Hin : c ∈ trim s); [|rewrite E in Hin; by apply elem_of_nil in Hin].
  unfold trim. apply elem_of_reverse, trim_start_nonempty; [|done]. by apply elem_of_reverse, trim_start_nonempty.
Qed.
