(* ===== verification/Value.v ===== *)
(** * Decoded RESP values ([crates/pr-protocol/src/value.rs])

    Scalars keep their bytes, maps are ordered entry lists with duplicates.
    [V]-prefixed constructors are the variants of [Value]. *)

From S2P Require Import Prelude.

(** Which null spelling arrived. *)
Inductive NullForm := NBulk | NArray | NResp3.

#[warnings="-register-all"]
Inductive Value :=
| VSimple (b : bytes)
| VError (b : bytes)
| VInteger (z : Z)
| VBulk (b : bytes)
| VNull (form : NullForm)
| VArray (items : list Value)
| VBoolean (t : bool)
| VDouble (lexeme : bytes)
| VBigNumber (lexeme : bytes)
| VBulkError (b : bytes)
| VVerbatim (format : byte * byte * byte) (data : bytes)
| VMap (entries : list (Value * Value))
| VSet (items : list Value)
| VAttribute (attrs : list (Value * Value)) (value : Value)
| VPush (items : list Value).

#[export] Instance NullForm_eq_dec : EqDecision NullForm.
Proof. solve_decision. Defined.

(** ** Induction through the nested lists *)

Section value_ind.
Context (P : Value -> Prop).
Let PP (kv : Value * Value) := P kv.1 /\ P kv.2.
Context (Hsimple : forall b, P (VSimple b)) (Herror : forall b, P (VError b))
  (Hint : forall z, P (VInteger z)) (Hbulk : forall b, P (VBulk b))
  (Hnull : forall f, P (VNull f)) (Harray : forall vs, Forall P vs -> P (VArray vs))
  (Hbool : forall t, P (VBoolean t)) (Hdouble : forall b, P (VDouble b))
  (Hbig : forall b, P (VBigNumber b)) (Hberr : forall b, P (VBulkError b))
  (Hverb : forall f b, P (VVerbatim f b))
  (Hmap : forall kv, Forall PP kv -> P (VMap kv))
  (Hset : forall vs, Forall P vs -> P (VSet vs))
  (Hattr : forall kv v, Forall PP kv -> P v -> P (VAttribute kv v))
  (Hpush : forall vs, Forall P vs -> P (VPush vs)).

Fixpoint value_rect' (v : Value) : P v :=
  let list_ind := fix go (vs : list Value) : Forall P vs :=
    match vs with
    | [] => Forall_nil_2 _
    | x :: r => Forall_cons_2 _ _ _ (value_rect' x) (go r)
    end in
  let pair_ind := fix go (kv : list (Value * Value)) : Forall PP kv :=
    match kv with
    | [] => Forall_nil_2 _
    | x :: r => Forall_cons_2 _ _ _ (conj (value_rect' x.1) (value_rect' x.2)) (go r)
    end in
  match v with
  | VSimple b => Hsimple b
  | VError b => Herror b
  | VInteger z => Hint z
  | VBulk b => Hbulk b
  | VNull f => Hnull f
  | VArray vs => Harray vs (list_ind vs)
  | VBoolean t => Hbool t
  | VDouble b => Hdouble b
  | VBigNumber b => Hbig b
  | VBulkError b => Hberr b
  | VVerbatim f b => Hverb f b
  | VMap kv => Hmap kv (pair_ind kv)
  | VSet vs => Hset vs (list_ind vs)
  | VAttribute kv v => Hattr kv v (pair_ind kv) (value_rect' v)
  | VPush vs => Hpush vs (list_ind vs)
  end.
End value_ind.

(** ** [Value::depth], [Value::leaf_count], [Value::is_push] *)

Definition max_list (ns : list nat) : nat := foldr Nat.max O ns.
Definition sum_nat (ns : list nat) : nat := foldr Nat.add O ns.

Fixpoint depth (v : Value) : nat :=
  match v with
  | VArray vs | VSet vs | VPush vs => (1 + max_list (map depth vs))%nat
  | VMap kv => (1 + max_list (map (fun '(k, w) => depth k `max` depth w) kv))%nat
  | VAttribute attrs w =>
      (1 + max_list (map (fun '(k, x) => depth k `max` depth x) attrs) `max` depth w)%nat
  | _ => 1%nat
  end.

Fixpoint leaf_count (v : Value) : nat :=
  match v with
  | VArray vs | VSet vs | VPush vs => sum_nat (map leaf_count vs)
  | VMap kv => sum_nat (map (fun '(k, w) => (leaf_count k + leaf_count w)%nat) kv)
  | VAttribute attrs w =>
      (sum_nat (map (fun '(k, x) => (leaf_count k + leaf_count x)%nat) attrs)
       + leaf_count w)%nat
  | _ => 1%nat
  end.

Definition is_push (v : Value) : bool :=
  match v with
  | VPush _ => true
  | _ => false
  end.

Lemma max_list_le (ns : list nat) (m : nat) :
  (max_list ns <= m)%nat <-> Forall (fun n : nat => (n <= m)%nat) ns.
Proof.
  induction ns as [|n ns IH]; simpl.
  - split; [constructor|lia].
  - rewrite Forall_cons, <- IH. lia.
Qed.
