(* ===== verification/Decoder.v ===== *)
(** * The incremental RESP decoder ([crates/pr-protocol/src/decoder.rs])

    The parser reads the unread part of the buffer, [b[pos..]], and returns
    what is left of it: advancing [*pos] by [n] is dropping [n] bytes.  A
    [Ok(None)] return leaves the decoder's buffer as it was, as in the source,
    where every caller restores [*pos]. *)

From S2P Require Import Prelude Text Value.

(** ** Limits and outcomes *)

Record Budget := {
  max_depth : nat;
  max_elements : Z;
  max_bulk_bytes : Z;
  max_frame_bytes : Z;
}.

Definition default_budget : Budget := {|
  max_depth := 64;
  max_elements := 1024 * 1024;
  max_bulk_bytes := 16 * 1024 * 1024;
  max_frame_bytes := 64 * 1024 * 1024;
|}.

(** [DecodeError::Protocol] and [DecodeError::Budget]. *)
Inductive DecodeError :=
| Protocol (what : string)
| OverBudget (what : string).

#[export] Instance DecodeError_eq_dec : EqDecision DecodeError.
Proof. solve_decision. Defined.

(** [Result<Option<A>, DecodeError>] together with the advanced position. *)
Inductive parsed (A : Type) :=
| PDone (a : A) (rest : bytes)
| PMore
| PFail (e : DecodeError).
Arguments PDone {A} a rest.
Arguments PMore {A}.
Arguments PFail {A} e.

(** The [need!] macro: errors and [None] return early. *)
Definition pbind {A B : Type} (m : parsed A) (k : A -> bytes -> parsed B) : parsed B :=
  match m with
  | PDone a r => k a r
  | PMore => PMore
  | PFail e => PFail e
  end.

Notation "'need!' x '@' r ':=' m 'in' k" := (pbind m (fun x r => k))
  (at level 10, x name, r name, m at level 100, k at level 200) : penguin_scope.

(** The [?] operator on a pure check. *)
Definition pcheck {A B : Type} (m : result DecodeError A) (k : A -> parsed B) : parsed B :=
  match m with
  | Ok a => k a
  | Err e => PFail e
  end.

Notation "'try!' x ':=' m 'in' k" := (pcheck m (fun x => k))
  (at level 10, x name, m at level 100, k at level 200) : penguin_scope.

(** ** Lines *)

Inductive LineScan :=
| Cr (i : nat)
| BareLf
| NeedMore.

Fixpoint scan_line (b : bytes) : LineScan :=
  match b with
  | [] => NeedMore
  | c :: r =>
      if decide (c = x0d) then Cr 0
      else if decide (c = x0a) then BareLf
      else match scan_line r with
           | Cr i => Cr (S i)
           | other => other
           end
  end.

Definition line (b : bytes) : parsed bytes :=
  match scan_line b with
  | BareLf => PFail (Protocol "bare LF in line")
  | NeedMore => PMore
  | Cr cr =>
      match drop (cr + 1) b with
      | [] => PMore
      | c :: _ => if decide (c = x0a) then PDone (take cr b) (drop (cr + 2) b)
                  else PFail (Protocol "CR not followed by LF")
      end
  end.

(** ** Scalars *)

Definition parse_i64 (s : bytes) : result DecodeError Z :=
  if decide (s = []) then Err (Protocol "empty integer")
  else
    match from_utf8 s with
    | None => Err (Protocol "non-ascii integer")
    | Some txt =>
        if decide (head s = Some "+"%byte \/ trim txt <> txt \/ "_"%byte ∈ s)
        then Err (Protocol "malformed integer")
        else ok_or (parse_signed i64_min i64_max s) (Protocol "integer out of range")
    end.

Definition parse_len (s : bytes) (budget : Budget) (what : string)
  : result DecodeError (option Z) :=
  let? n := parse_i64 s in
  if decide (n = -1) then Ok None
  else if decide (n < 0) then Err (Protocol "negative length")
  else
    let cap := if decide (what = "bulk"%string) then max_bulk_bytes budget
               else max_elements budget in
    if decide (n > cap) then Err (OverBudget what) else Ok (Some n).

Definition validate_double (s : bytes) : result DecodeError unit :=
  match from_utf8 s with
  | None => Err (Protocol "non-ascii double")
  | Some t =>
      let ok := bool_decide (s ∈ [bs "inf"; bs "-inf"; bs "+inf"; bs "nan"; bs "-nan"])
                || parses_as_f64 s in
      if decide (ok = false \/ s = [] \/ "_"%byte ∈ s \/ trim t <> t)
      then Err (Protocol "malformed double")
      else Ok tt
  end.

Definition validate_bignum (s : bytes) : result DecodeError unit :=
  let body := match s with
              | b :: r => if decide (b = "-"%byte) then r else s
              | [] => s
              end in
  if decide (body = [] \/ forallb is_ascii_digit body = false)
  then Err (Protocol "malformed big number")
  else Ok tt.

Definition crlf : bytes := [x0d; x0a].

(** [n] payload bytes and their CRLF. *)
Definition payload (n : Z) (unterminated : string) (b : bytes) : parsed bytes :=
  if decide (n + 2 > zlen b) then PMore
  else
    let data := take (Z.to_nat n) b in
    let r := drop (Z.to_nat n) b in
    if decide (take 2 r = crlf) then PDone data (drop 2 r)
    else PFail (Protocol unterminated).

(** Rust's [loop]: a round either continues with a new state or breaks with a
    result.  Running out of fuel reads as needing more bytes; every round of
    the loops below consumes input, so fuel beyond the length of the input is
    never used up ([DecoderFacts.ploop_unroll]). *)
Fixpoint ploop {St A : Type} (round : St -> bytes -> parsed (St + A)) (fuel : nat)
  (s : St) (b : bytes) : parsed A :=
  match fuel with
  | O => PMore
  | S f =>
      need! o @ r := round s b in
      match o with
      | inl s' => ploop round f s' r
      | inr a => PDone a r
      end
  end.

(** One [;n] chunk of a streamed bulk string; [;0] ends it. *)
Definition chunk_round (budget : Budget) (out b : bytes) : parsed (bytes + bytes) :=
  match b with
  | [] => PMore
  | c :: r =>
      if decide (c = ";"%byte) then
        need! clen @ r1 := line r in
        try! len := parse_len clen budget "bulk" in
        match len with
        | None => PFail (Protocol "streamed chunk length cannot be null")
        | Some n =>
            if decide (n = 0) then PDone (inr out) r1
            else if decide (zlen out + n > max_bulk_bytes budget) then PFail (OverBudget "bulk")
            else
              need! chunk @ r2 := payload n "chunk not CRLF terminated" r1 in
              PDone (inl (out ++ chunk)) r2
        end
      else PFail (Protocol "streamed chunk must start with ';'")
  end.

Definition bulk_chunks (budget : Budget) (b : bytes) : parsed bytes :=
  ploop (chunk_round budget) (S (length b)) [] b.

Definition verbatim (data : bytes) (rest : bytes) : parsed Value :=
  match data with
  | f0 :: f1 :: f2 :: c :: d =>
      if decide (c = ":"%byte) then PDone (VVerbatim (f0, f1, f2) d) rest
      else PFail (Protocol "verbatim needs `xxx:` prefix")
  | _ => PFail (Protocol "verbatim needs `xxx:` prefix")
  end.

(** [$], [!] and [=]. *)
Definition parse_blob (tag : byte) (budget : Budget) (b : bytes) : parsed Value :=
  need! hdr @ r := line b in
  if decide (tag = "$"%byte /\ hdr = bs "?") then
    need! out @ r' := bulk_chunks budget r in
    PDone (VBulk out) r'
  else
    try! len := parse_len hdr budget "bulk" in
    match len with
    | None => PDone (VNull NBulk) r
    | Some n =>
        need! data @ r' := payload n "bulk not CRLF terminated" r in
        if decide (tag = "$"%byte) then PDone (VBulk data) r'
        else if decide (tag = "!"%byte) then PDone (VBulkError data) r'
        else verbatim data r'
    end.

(** The one-line scalars. *)
Definition parse_line_scalar (tag : byte) (b : bytes) : parsed Value :=
  need! l @ r := line b in
  if decide (tag = "+"%byte) then PDone (VSimple l) r
  else if decide (tag = "-"%byte) then PDone (VError l) r
  else if decide (tag = ":"%byte) then try! n := parse_i64 l in PDone (VInteger n) r
  else if decide (tag = "#"%byte) then
    if decide (l = bs "t") then PDone (VBoolean true) r
    else if decide (l = bs "f") then PDone (VBoolean false) r
    else PFail (Protocol "malformed boolean")
  else if decide (tag = "_"%byte) then
    if decide (l = []) then PDone (VNull NResp3) r
    else PFail (Protocol "null takes no payload")
  else if decide (tag = ","%byte) then try! u := validate_double l in PDone (VDouble l) r
  else try! u := validate_bignum l in PDone (VBigNumber l) r.

(** ** Aggregates, over the parser [pv] of their elements *)

Section aggregates.
Context (pv : bytes -> parsed Value) (budget : Budget).

Definition parse_pair (b : bytes) : parsed (Value * Value) :=
  need! k @ r := pv b in
  need! v @ r' := pv r in
  PDone (k, v) r'.

(** [for _ in 0..n]. *)
Fixpoint parse_n {A : Type} (p : bytes -> parsed A) (n : nat) (b : bytes) : parsed (list A) :=
  match n with
  | O => PDone [] b
  | S n' =>
      need! x @ r := p b in
      need! xs @ r' := parse_n p n' r in
      PDone (x :: xs) r'
  end.

(** One round of a streamed aggregate, ended by a [.] line. *)
Definition streamed_round {A : Type} (p : bytes -> parsed A) (acc : list A) (b : bytes)
  : parsed (list A + list A) :=
  match b with
  | [] => PMore
  | c :: r =>
      if decide (c = "."%byte) then
        need! l @ r' := line r in
        if decide (l = []) then PDone (inr acc) r'
        else PFail (Protocol "streamed terminator takes no payload")
      else
        need! x @ r' := p b in
        if decide (zlen (acc ++ [x]) > max_elements budget) then PFail (OverBudget "elements")
        else PDone (inl (acc ++ [x])) r'
  end.

Definition parse_streamed {A : Type} (p : bytes -> parsed A) (b : bytes) : parsed (list A) :=
  ploop (streamed_round p) (S (length b)) [] b.

Definition collection (tag : byte) (items : list Value) : Value :=
  if decide (tag = "*"%byte) then VArray items
  else if decide (tag = "~"%byte) then VSet items
  else VPush items.

(** [*], [~], [>] and [%]. *)
Definition parse_aggregate (tag : byte) (b : bytes) : parsed Value :=
  need! hdr @ r := line b in
  if decide (hdr = bs "?") then
    if decide (tag = "%"%byte) then
      need! kv @ r' := parse_streamed parse_pair r in PDone (VMap kv) r'
    else
      need! vs @ r' := parse_streamed pv r in PDone (collection tag vs) r'
  else
    try! len := parse_len hdr budget "elements" in
    match len with
    | None => PDone (VNull NArray) r
    | Some n =>
        if decide (tag = "%"%byte) then
          need! kv @ r' := parse_n parse_pair (Z.to_nat n) r in PDone (VMap kv) r'
        else
          need! vs @ r' := parse_n pv (Z.to_nat n) r in PDone (collection tag vs) r'
    end.

(** [|]. *)
Definition parse_attribute (b : bytes) : parsed Value :=
  need! hdr @ r := line b in
  try! len := parse_len hdr budget "elements" in
  match len with
  | None => PFail (Protocol "attribute length cannot be null")
  | Some n =>
      need! attrs @ r1 := parse_n parse_pair (Z.to_nat n) r in
      need! v @ r2 := pv r1 in
      PDone (VAttribute attrs v) r2
  end.
End aggregates.

Definition is_line_tag (tag : byte) : bool :=
  bool_decide (tag ∈ bs "+-:#_,(").
Definition is_blob_tag (tag : byte) : bool :=
  bool_decide (tag ∈ bs "$!=").
Definition is_aggregate_tag (tag : byte) : bool :=
  bool_decide (tag ∈ bs "*~>%").

(** [parse_value].  [room] is [max_depth - depth]: the check
    [depth >= max_depth] is [room = 0], and an element is parsed one deeper. *)
Fixpoint parse_value (room : nat) (budget : Budget) (b : bytes) : parsed Value :=
  match room with
  | O => PFail (OverBudget "depth")
  | S room' =>
      match b with
      | [] => PMore
      | tag :: r =>
          if is_line_tag tag then parse_line_scalar tag r
          else if is_blob_tag tag then parse_blob tag budget r
          else if is_aggregate_tag tag then
            parse_aggregate (parse_value room' budget) budget tag r
          else if decide (tag = "|"%byte) then
            parse_attribute (parse_value room' budget) budget r
          else PFail (Protocol "unknown type byte")
      end
  end.

(** ** The resumable decoder *)

Inductive Step :=
| SValue (v : Value)
| Incomplete.

Record Decoder := mkDecoder {
  buf : bytes;
  budget : Budget;
}.

Definition new (b : Budget) : Decoder := mkDecoder [] b.
Definition with_defaults : Decoder := new default_budget.
Definition feed (d : Decoder) (b : bytes) : Decoder := mkDecoder (buf d ++ b) (budget d).
Definition buffered (d : Decoder) : Z := zlen (buf d).

(** [decode], with the decoder after it. *)
Definition decode (d : Decoder) : result DecodeError Step * Decoder :=
  if decide (zlen (buf d) > max_frame_bytes (budget d))
  then (Err (OverBudget "frame buffer"), d)
  else
    match parse_value (max_depth (budget d)) (budget d) (buf d) with
    | PDone v r => (Ok (SValue v), mkDecoder r (budget d))
    | PMore => (Ok Incomplete, d)
    | PFail e => (Err e, d)
    end.
