(* ===== verification/DecoderFacts.v ===== *)
(** * Decoder: stability under more input, progress, bounds

    The lemmas the decoder's properties rest on.  A parser is [stable] when an
    answer it gives on some bytes is the answer it gives on any longer input,
    and [consumes] when a value costs at least one byte. *)

From S2P Require Import Prelude Text Value Decoder.

Create HintDb parser.

(** ** Stability and progress as predicates on parsers *)

(** The answer [m] on a prefix, seen with [c] appended to the input. *)
Definition extends {A} (m : parsed A) (c : bytes) (m' : parsed A) : Prop :=
  match m with
  | PDone a r => m' = PDone a (r ++ c)
  | PMore => True
  | PFail e => m' = PFail e
  end.

Definition stable {A} (p : bytes -> parsed A) : Prop :=
  forall b c, extends (p b) c (p (b ++ c)).

(** A value leaves a suffix of the input. *)
Definition advances {A} (p : bytes -> parsed A) : Prop :=
  forall b a r, p b = PDone a r -> exists u, b = u ++ r.

(** ... and a shorter one. *)
Definition consumes {A} (p : bytes -> parsed A) : Prop :=
  forall b a r, p b = PDone a r -> exists u, b = u ++ r /\ u <> [].

Lemma consumes_advances {A} (p : bytes -> parsed A) : consumes p -> advances p.
Proof. intros H b a r E. destruct (H _ _ _ E) as (u & -> & _). by exists u. Qed.

Lemma consumes_length {A} (p : bytes -> parsed A) b a r :
  consumes p -> p b = PDone a r -> (length r < length b)%nat.
Proof.
  intros H E. destruct (H _ _ _ E) as (u & -> & Hu).
  rewrite length_app. destruct u; simpl; [done|lia].
Qed.

Lemma advances_length {A} (p : bytes -> parsed A) b a r :
  advances p -> p b = PDone a r -> (length r <= length b)%nat.
Proof. intros H E. destruct (H _ _ _ E) as (u & ->). rewrite length_app. lia. Qed.

Section composition.
Context {A B : Type}.
Implicit Types (p : bytes -> parsed A) (k : A -> bytes -> parsed B).

Lemma stable_done (a : A) : stable (fun b => PDone a b).
Proof. by intros b c. Qed.

Lemma stable_fail (e : DecodeError) : stable (fun _ => @PFail A e).
Proof. by intros b c. Qed.

Lemma stable_bind p k :
  stable p -> (forall a, stable (k a)) -> stable (fun b => pbind (p b) k).
Proof.
  intros Hp Hk b c. specialize (Hp b c).
  destruct (p b) as [a r| |e]; simpl in *; [|done|by rewrite Hp].
  rewrite Hp. apply Hk.
Qed.

Lemma stable_check (m : result DecodeError A) k :
  (forall a, m = Ok a -> stable (k a)) -> stable (fun b => pcheck m (fun a => k a b)).
Proof. intros Hk b c. destruct m; simpl; [by apply Hk|done]. Qed.

Lemma advances_done (a : A) : advances (fun b => PDone a b).
Proof. intros b a' r [= <- <-]. by exists []. Qed.

Lemma advances_fail (e : DecodeError) : advances (fun _ => @PFail A e).
Proof. intros b a r [=]. Qed.

Lemma advances_bind p k :
  advances p -> (forall a, advances (k a)) -> advances (fun b => pbind (p b) k).
Proof.
  intros Hp Hk b x r E. destruct (p b) as [a r1| |e] eqn:E1; simpl in E; [|done|done].
  apply Hp in E1 as [u ->]. apply Hk in E as [u' ->].
  exists (u ++ u'). by rewrite app_assoc.
Qed.

Lemma advances_check (m : result DecodeError A) k :
  (forall a, advances (k a)) -> advances (fun b => pcheck m (fun a => k a b)).
Proof. intros Hk b x r E. destruct m; simpl in E; [by eapply Hk|done]. Qed.

Lemma consumes_bind p k :
  consumes p -> (forall a, advances (k a)) -> consumes (fun b => pbind (p b) k).
Proof.
  intros Hp Hk b x r E. destruct (p b) as [a r1| |e] eqn:E1; simpl in E; [|done|done].
  apply Hp in E1 as (u & -> & Hu). apply Hk in E as [u' ->].
  exists (u ++ u'). split; [by rewrite app_assoc|]. by destruct u.
Qed.
End composition.

#[export] Hint Resolve stable_done stable_fail stable_bind stable_check advances_done
  advances_fail advances_bind advances_check consumes_bind consumes_advances : parser.

(** Walk through binds, checks and the conditionals between them. *)
Ltac parser_step :=
  match goal with
  | |- forall _, _ => intros ?
  | |- stable (fun b => pbind _ _) => apply stable_bind
  | |- stable (fun b => pcheck _ _) => apply stable_check
  | |- advances (fun b => pbind _ _) => apply advances_bind
  | |- advances (fun b => pcheck _ _) => apply advances_check
  | |- consumes (fun b => pbind _ _) => apply consumes_bind
  | |- context [decide ?P] => destruct (decide P)
  | |- context [match ?o with Some _ => _ | None => _ end] => destruct o
  end.
Ltac parser_solve := repeat parser_step; auto with parser.

(** View a goal about the input [b] as one about the parser run on it. *)
Ltac as_stable b c :=
  match goal with
  | |- extends ?m c _ =>
      let p := eval pattern b in m in
      match p with ?F b => apply (fun H : stable F => H b c) end
  end.
Tactic Notation "as_advances" ident(b) hyp(E) "with" ident(u) :=
  match type of E with
  | ?m = PDone _ ?r =>
      let p := eval pattern b in m in
      match p with ?F b =>
        let H := fresh in
        assert (H : advances F); [clear E|apply H in E as [u ->]; clear H]
      end
  end.

(** ** Lines and payloads *)

Lemma scan_line_app b c :
  match scan_line b with
  | Cr i => scan_line (b ++ c) = Cr i /\ (i < length b)%nat
  | BareLf => scan_line (b ++ c) = BareLf
  | NeedMore => True
  end.
Proof.
  induction b as [|x b IH]; simpl; [done|].
  repeat case_decide; simpl; [split; [done|lia]|done|].
  destruct (scan_line b); [|by rewrite IH|done].
  destruct IH as [-> ?]. split; [done|lia].
Qed.

Lemma line_stable : stable line.
Proof.
  intros b c. unfold line. pose proof (scan_line_app b c) as H.
  destruct (scan_line b) as [i| |]; simpl; [|by rewrite H|done].
  destruct H as [-> Hi]. destruct (drop (i + 1) b) as [|x t] eqn:E; [done|].
  assert (i + 2 <= length b)%nat.
  { apply (f_equal length) in E. rewrite length_drop in E. simpl in E. lia. }
  rewrite (drop_app_ge b c (i + 1)), E by lia. simpl.
  case_decide; simpl; [|done].
  by rewrite take_app_ge, drop_app_ge by lia.
Qed.

Lemma line_consumes : consumes line.
Proof.
  intros b a r. unfold line. destruct (scan_line b) as [i| |]; [|done|done].
  destruct (drop (i + 1) b) as [|x t] eqn:E; [done|]. case_decide; [|done].
  intros [= <- <-]. exists (take (i + 2) b). rewrite take_drop. split; [done|].
  intros E'. apply (f_equal length) in E'. rewrite length_take in E'.
  apply (f_equal length) in E. rewrite length_drop in E. simpl in *. lia.
Qed.

Lemma parse_len_bounds s budget what n :
  parse_len s budget what = Ok (Some n) ->
  0 <= n <= if decide (what = "bulk"%string) then max_bulk_bytes budget else max_elements budget.
Proof.
  unfold parse_len. destruct (parse_i64 s) as [m|e]; simpl; [|done].
  repeat case_decide; intros [= <-]; lia.
Qed.

Lemma payload_stable n what : 0 <= n -> stable (payload n what).
Proof.
  intros Hn b c. unfold payload. rewrite zlen_app.
  destruct (decide (n + 2 > zlen b)); [done|].
  destruct (decide (n + 2 > zlen b + zlen c)); [pose proof (zlen_nonneg c); lia|].
  unfold zlen in *.
  rewrite take_app_ge, drop_app_ge by lia.
  assert (2 <= length (drop (Z.to_nat n) b))%nat by (rewrite length_drop; lia).
  rewrite (take_app_ge _ c 2) by lia. case_decide; simpl; [|done].
  by rewrite drop_app_ge by lia.
Qed.

Lemma payload_done n what b data r :
  payload n what b = PDone data r ->
  data = take (Z.to_nat n) b /\ b = data ++ crlf ++ r /\ n + 2 <= zlen b.
Proof.
  unfold payload. case_decide; [done|]. case_decide as E; [|done]. intros [= <- <-].
  rewrite <- E, take_drop, take_drop. split_and!; [done..|lia].
Qed.

Lemma payload_advances n what : advances (payload n what).
Proof.
  intros b a r E. apply payload_done in E as (_ & -> & _).
  exists (a ++ crlf). by rewrite <- app_assoc.
Qed.

#[export] Hint Resolve line_stable line_consumes payload_advances : parser.
#[export] Hint Extern 1 (stable (payload _ _)) =>
  apply payload_stable;
  match goal with H : parse_len _ _ _ = Ok (Some _) |- _ => apply parse_len_bounds in H; lia end
  : parser.

(** ** Loops *)

Section loops.
Context {St A : Type} (round : St -> bytes -> parsed (St + A)).

Lemma ploop_S f s b :
  ploop round (S f) s b =
  need! o @ r := round s b in
  match o with
  | inl s' => ploop round f s' r
  | inr a => PDone a r
  end.
Proof. done. Qed.

Lemma ploop_stable f s : (forall s, stable (round s)) -> stable (ploop round f s).
Proof.
  intros Hr. revert s. induction f as [|f IH]; intros s b c; [done|]. simpl.
  apply (stable_bind (round s)); [done|]. intros []; [apply IH|apply stable_done].
Qed.

Lemma ploop_advances f s : (forall s, advances (round s)) -> advances (ploop round f s).
Proof.
  intros Hr. revert s. induction f as [|f IH]; intros s b a r; [done|]. simpl.
  apply (advances_bind (round s)); [done|]. intros []; [apply IH|apply advances_done].
Qed.

Lemma ploop_consumes f s : (forall s, consumes (round s)) -> consumes (ploop round f s).
Proof.
  intros Hr. destruct f as [|f]; intros b a r; [done|]. simpl.
  apply (consumes_bind (round s)); [done|]. intros [].
  - apply ploop_advances. intros. by apply consumes_advances.
  - apply advances_done.
Qed.

(** Fuel beyond the length of the input does not matter ... *)
Lemma ploop_fuel f f' s b :
  (forall s, consumes (round s)) -> (length b < f)%nat -> (length b < f')%nat ->
  ploop round f s b = ploop round f' s b.
Proof.
  intros Hr. revert f' s b. induction f as [|f IH]; intros [|f'] s b Hf Hf'; try lia.
  simpl. destruct (round s b) as [[s'|a] r| |] eqn:E; simpl; try done.
  apply consumes_length in E; [|done]. apply IH; lia.
Qed.

(** ... so the loop satisfies the equation of the source's [loop]. *)
Lemma ploop_unroll s b :
  (forall s, consumes (round s)) ->
  ploop round (S (length b)) s b =
  need! o @ r := round s b in
  match o with
  | inl s' => ploop round (S (length r)) s' r
  | inr a => PDone a r
  end.
Proof.
  intros Hr. rewrite ploop_S.
  destruct (round s b) as [[s'|a] r| |] eqn:E; cbn [pbind]; try done.
  apply consumes_length in E; [|done]. apply ploop_fuel; [done|lia..].
Qed.

(** A loop that answers keeps its answer with more fuel. *)
Lemma ploop_more_fuel f f' s b :
  (f <= f')%nat -> ploop round f s b <> PMore -> ploop round f' s b = ploop round f s b.
Proof.
  revert f' s b. induction f as [|f IH]; intros [|f'] s b Hf H; simpl in *; try done; try lia.
  destruct (round s b) as [[s'|a] r| |] eqn:E; simpl in *; try done.
  apply IH; [lia|done].
Qed.

(** Looping with fuel for the whole input is stable. *)
Lemma ploop_len_stable s :
  (forall s, stable (round s)) -> stable (fun b => ploop round (S (length b)) s b).
Proof.
  intros Hr b c.
  pose proof (ploop_stable (S (length b)) s Hr b c) as H.
  rewrite (length_app b c).
  destruct (ploop round (S (length b)) s b) as [a r| |e] eqn:E; [|done|];
    cbn [extends] in H |- *;
    (rewrite (ploop_more_fuel (S (length b))); [done|lia|by rewrite H]).
Qed.
End loops.

#[export] Hint Resolve ploop_len_stable ploop_consumes : parser.

(** ** Streamed bulk strings *)

Lemma chunk_round_stable budget out : stable (chunk_round budget out).
Proof.
  intros [|x b] c; [done|]. simpl. case_decide; [|done]. as_stable b c. parser_solve.
Qed.

Lemma chunk_round_consumes budget out : consumes (chunk_round budget out).
Proof.
  intros [|x b] a r; [done|]. simpl. case_decide; [|done]. intros E. as_advances b E with u.
  - parser_solve.
  - by exists (x :: u).
Qed.

#[export] Hint Resolve chunk_round_stable chunk_round_consumes : parser.

Lemma bulk_chunks_stable budget : stable (bulk_chunks budget).
Proof. unfold bulk_chunks. auto with parser. Qed.

Lemma bulk_chunks_consumes budget : consumes (bulk_chunks budget).
Proof. intros b a r. apply ploop_consumes. auto with parser. Qed.

#[export] Hint Resolve bulk_chunks_stable bulk_chunks_consumes : parser.

(** ** Values *)

Lemma verbatim_stable data : stable (verbatim data).
Proof.
  intros b c. unfold verbatim. repeat (case_match; try done).
Qed.

Lemma verbatim_advances data : advances (verbatim data).
Proof.
  intros b a r. unfold verbatim. repeat (case_match; try done).
  intros [= _ <-]. by exists [].
Qed.

#[export] Hint Resolve verbatim_stable verbatim_advances : parser.

Lemma parse_line_scalar_stable tag : stable (parse_line_scalar tag).
Proof. unfold parse_line_scalar. parser_solve. Qed.
Lemma parse_line_scalar_advances tag : advances (parse_line_scalar tag).
Proof. unfold parse_line_scalar. parser_solve. Qed.
Lemma parse_blob_stable tag budget : stable (parse_blob tag budget).
Proof. unfold parse_blob. parser_solve. Qed.
Lemma parse_blob_advances tag budget : advances (parse_blob tag budget).
Proof. unfold parse_blob. parser_solve. Qed.

Section aggregates.
Context (pv : bytes -> parsed Value) (budget : Budget).
Context (Hstable : stable pv) (Hcons : consumes pv).

Lemma parse_pair_stable : stable (parse_pair pv).
Proof. unfold parse_pair. parser_solve. Qed.
Lemma parse_pair_consumes : consumes (parse_pair pv).
Proof. unfold parse_pair. parser_solve. Qed.

Lemma parse_n_stable {A} (p : bytes -> parsed A) n : stable p -> stable (parse_n p n).
Proof. intros Hp. induction n; simpl; parser_solve. Qed.
Lemma parse_n_advances {A} (p : bytes -> parsed A) n : advances p -> advances (parse_n p n).
Proof. intros Hp. induction n; simpl; parser_solve. Qed.

Lemma streamed_round_stable {A} (p : bytes -> parsed A) acc :
  stable p -> stable (streamed_round budget p acc).
Proof.
  intros Hp [|x b] c; [done|]. simpl. case_decide.
  - as_stable b c. parser_solve.
  - change (x :: b ++ c) with ((x :: b) ++ c). generalize (x :: b). clear b. intros b.
    as_stable b c. parser_solve.
Qed.
Lemma streamed_round_consumes {A} (p : bytes -> parsed A) acc :
  consumes p -> consumes (streamed_round budget p acc).
Proof.
  intros Hp [|x b] a r; [done|]. simpl. case_decide; intros E.
  - as_advances b E with u; [parser_solve|]. by exists (x :: u).
  - destruct (p (x :: b)) as [y r1| |] eqn:E1; simpl in E; [|done..].
    case_decide; [done|]. injection E as <- <-. by eapply Hp.
Qed.

Lemma parse_streamed_stable {A} (p : bytes -> parsed A) :
  stable p -> stable (parse_streamed budget p).
Proof. intros. apply ploop_len_stable. intros. by apply streamed_round_stable. Qed.
Lemma parse_streamed_advances {A} (p : bytes -> parsed A) :
  consumes p -> advances (parse_streamed budget p).
Proof.
  intros Hp b a r. apply ploop_advances. intros.
  by apply consumes_advances, streamed_round_consumes.
Qed.

Hint Resolve parse_pair_stable parse_pair_consumes parse_n_stable parse_n_advances
  parse_streamed_stable parse_streamed_advances : parser.

Lemma parse_aggregate_stable tag : stable (parse_aggregate pv budget tag).
Proof. unfold parse_aggregate. parser_solve. Qed.
Lemma parse_aggregate_advances tag : advances (parse_aggregate pv budget tag).
Proof. unfold parse_aggregate. parser_solve. Qed.
Lemma parse_attribute_stable : stable (parse_attribute pv budget).
Proof. unfold parse_attribute. parser_solve. Qed.
Lemma parse_attribute_advances : advances (parse_attribute pv budget).
Proof. unfold parse_attribute. parser_solve. Qed.
End aggregates.

#[export] Hint Resolve parse_line_scalar_stable parse_line_scalar_advances parse_blob_stable
  parse_blob_advances parse_aggregate_stable parse_aggregate_advances parse_attribute_stable
  parse_attribute_advances : parser.

Lemma parse_value_consumes room budget : consumes (parse_value room budget).
Proof.
  induction room as [|room IH]; intros [|tag b] a r; simpl; try done. intros E.
  assert (exists u, b = u ++ r) as [u ->]; [|by exists (tag :: u)].
  repeat case_match; try done; revert E.
  - apply parse_line_scalar_advances.
  - apply parse_blob_advances.
  - by apply parse_aggregate_advances.
  - by apply parse_attribute_advances.
Qed.

Lemma parse_value_stable room budget : stable (parse_value room budget).
Proof.
  induction room as [|room IH]; intros [|tag b] c; simpl; try done.
  pose proof (parse_value_consumes room budget).
  repeat case_match; try done.
  - apply parse_line_scalar_stable.
  - apply parse_blob_stable.
  - by apply parse_aggregate_stable.
  - by apply parse_attribute_stable.
Qed.

(** ** Exact extent: a parser reads no further than the value it returns *)

Definition local {A} (p : bytes -> parsed A) : Prop :=
  forall u a r, p (u ++ r) = PDone a r -> forall r', p (u ++ r') = PDone a r'.

Section local_composition.
Context {A B : Type}.
Implicit Types (p : bytes -> parsed A) (k : A -> bytes -> parsed B).

Lemma local_done (a : A) : local (fun b => PDone a b).
Proof.
  intros u a' r [= <- E]. replace u with (@nil byte); [done|].
  apply (f_equal length) in E. rewrite length_app in E. destruct u; [done|simpl in E; lia].
Qed.

Lemma local_fail (e : DecodeError) : local (fun _ => @PFail A e).
Proof. intros u a r [=]. Qed.

Lemma local_bind p k :
  advances p -> local p -> (forall a, advances (k a)) -> (forall a, local (k a)) ->
  local (fun b => pbind (p b) k).
Proof.
  intros Ap Lp Ak Lk u x r E r'. destruct (p (u ++ r)) as [a r1| |] eqn:E1; simpl in E; [|done..].
  destruct (Ak _ _ _ _ E) as [u2 ->]. destruct (Ap _ _ _ E1) as [u1 Eu].
  rewrite app_assoc in Eu. apply app_inv_tail in Eu as ->.
  rewrite <- app_assoc in E1. rewrite <- app_assoc, (Lp _ _ _ E1). simpl. by eapply Lk.
Qed.

Lemma local_check (m : result DecodeError A) k :
  (forall a, m = Ok a -> local (k a)) -> local (fun b => pcheck m (fun a => k a b)).
Proof. intros Hk u x r E r'. destruct m; simpl in *; [by eapply Hk|done]. Qed.
End local_composition.

#[export] Hint Resolve local_done local_fail : parser.

Ltac local_step :=
  match goal with
  | |- forall _, _ => intros ?
  | |- local (fun b => pbind _ _) => apply local_bind
  | |- local (fun b => pcheck _ _) => apply local_check
  | |- local _ => match goal with
                  | |- context [decide ?P] => destruct (decide P)
                  | |- context [match ?o with Some _ => _ | None => _ end] => destruct o
                  end
  end.
Ltac local_solve := repeat local_step; auto with parser; parser_solve.

(** A line is everything up to its CRLF, and holds neither CR nor LF. *)
Lemma scan_line_spec b i :
  scan_line b = Cr i <->
  exists l r, b = l ++ (x0d :: r) /\ length l = i /\ (x0d ∉ l) /\ (x0a ∉ l).
Proof.
  revert i. induction b as [|c b IH]; intros i; simpl.
  { split; [done|]. by intros ([] & r & ? & _). }
  split.
  - case_decide; [|case_decide]; simplify_eq; [|done|].
    + intros [= <-]. exists [], b. split_and!; done || apply not_elem_of_nil.
    + destruct (scan_line b) as [j| |]; try done. intros [= <-].
      destruct (IH j) as [(l & r & -> & <- & ? & ?) _]; [done|].
      exists (c :: l), r. rewrite !not_elem_of_cons. by split_and!.
  - intros ([|y l] & r & Eb & <- & Hr & Hl); injection Eb as <- ->; [by rewrite decide_True|].
    apply not_elem_of_cons in Hr as [? ?], Hl as [? ?]. rewrite !decide_False by done.
    destruct (IH (length l)) as [_ IH']. rewrite IH'; [done|]. by exists l, r.
Qed.

Lemma line_spec b l r :
  line b = PDone l r <-> b = l ++ crlf ++ r /\ (x0d ∉ l) /\ (x0a ∉ l).
Proof.
  unfold line. split.
  - destruct (scan_line b) as [i| |] eqn:E; [|done..].
    apply scan_line_spec in E as (l' & t & -> & <- & Hr & Hl).
    rewrite !drop_app_add, take_app_length. simpl. destruct t as [|c t]; [done|].
    rewrite drop_0. case_decide; [|done]. subst. by intros [= <- <-].
  - intros (-> & Hr & Hl).
    assert (scan_line (l ++ crlf ++ r) = Cr (length l)) as ->.
    { apply scan_line_spec. by exists l, (x0a :: r). }
    rewrite !drop_app_add, take_app_length. done.
Qed.

Lemma line_local : local line.
Proof.
  intros u r a E r'. apply line_spec in E as (E & ? & ?). apply line_spec. split; [|done].
  rewrite app_assoc in E. apply app_inv_tail in E as ->. by rewrite <- app_assoc.
Qed.

Lemma payload_exact n what data r :
  zlen data = n -> payload n what (data ++ crlf ++ r) = PDone data r.
Proof.
  intros <-. unfold payload. rewrite decide_False.
  - unfold zlen. by rewrite Nat2Z.id, take_app_length, drop_app_length.
  - rewrite !zlen_app. change (zlen crlf) with 2. pose proof (zlen_nonneg r). lia.
Qed.

Lemma payload_local n what : 0 <= n -> local (payload n what).
Proof.
  intros Hn u r a E r'. apply payload_done in E as (Ed & E & Hle).
  assert (zlen r = n) as Ha.
  { rewrite Ed. unfold zlen in *. rewrite length_take. lia. }
  rewrite app_assoc in E. apply app_inv_tail in E as ->. rewrite <- app_assoc.
  by apply payload_exact.
Qed.

#[export] Hint Resolve line_local : parser.
#[export] Hint Extern 1 (local (payload _ _)) =>
  apply payload_local;
  match goal with H : parse_len _ _ _ = Ok (Some _) |- _ => apply parse_len_bounds in H; lia end
  : parser.

Section local_loops.
Context {St A : Type} (round : St -> bytes -> parsed (St + A)).
Context (Hc : forall s, consumes (round s)) (Hl : forall s, local (round s)).

Lemma ploop_local f s : local (ploop round f s).
Proof.
  revert s. induction f as [|f IH]; intros s u a r; [done|]. rewrite ploop_S.
  revert u a r. change (local (fun b => need! o @ r := round s b in
    match o with inl s' => ploop round f s' r | inr a => PDone a r end)).
  apply local_bind; [by apply consumes_advances|done|intros []..].
  - apply ploop_advances. intros. by apply consumes_advances.
  - apply advances_done.
  - apply IH.
  - apply local_done.
Qed.

Lemma ploop_len_local s : local (fun b => ploop round (S (length b)) s b).
Proof.
  intros u a r E r'. cbn beta in *.
  set (F := S (length (u ++ r) + length (u ++ r'))).
  rewrite <- (ploop_fuel round F); [|done|lia..].
  rewrite <- (ploop_fuel round F) in E; [|done|lia..].
  by eapply ploop_local.
Qed.
End local_loops.

Ltac as_local E :=
  match type of E with
  | ?m = PDone ?a ?r =>
      match m with
      | context [?u ++ r] =>
          let p := eval pattern (u ++ r) in m in
          match p with ?F _ => refine ((_ : local F) u a r E _) end
      end
  end.

Lemma chunk_round_local budget out : local (chunk_round budget out).
Proof.
  intros [|x u] a r E r'.
  { apply consumes_length in E; [simpl in E; lia|apply chunk_round_consumes]. }
  simpl in *. case_decide; [|done]. as_local E. local_solve.
Qed.

#[export] Hint Resolve chunk_round_local : parser.

Lemma bulk_chunks_local budget : local (bulk_chunks budget).
Proof. unfold bulk_chunks. apply ploop_len_local; auto with parser. Qed.

Lemma verbatim_local data : local (verbatim data).
Proof.
  destruct data as [|f0 [|f1 [|f2 [|c d]]]]; try apply local_fail.
  unfold verbatim. destruct (decide (c = ":"%byte)); auto with parser.
Qed.

#[export] Hint Resolve bulk_chunks_local verbatim_local : parser.

Lemma parse_line_scalar_local tag : local (parse_line_scalar tag).
Proof. unfold parse_line_scalar. local_solve. Qed.
Lemma parse_blob_local tag budget : local (parse_blob tag budget).
Proof. unfold parse_blob. local_solve. Qed.

Section local_aggregates.
Context (pv : bytes -> parsed Value) (budget : Budget).
Context (Hlocal : local pv) (Hcons : consumes pv).

Hint Resolve parse_pair_consumes parse_n_advances parse_streamed_advances : parser.

Lemma parse_pair_local : local (parse_pair pv).
Proof. unfold parse_pair. local_solve. Qed.

Lemma parse_n_local {A} (p : bytes -> parsed A) n :
  advances p -> local p -> local (parse_n p n).
Proof. intros Ap Lp. induction n; simpl; local_solve. Qed.

Lemma streamed_round_local {A} (p : bytes -> parsed A) acc :
  consumes p -> local p -> local (streamed_round budget p acc).
Proof.
  intros Cp Lp [|x u] a r E r'.
  { apply consumes_length in E; [simpl in E; lia|by apply streamed_round_consumes]. }
  simpl in *. case_decide; [as_local E; local_solve|].
  destruct (p (x :: u ++ r)) as [y r1| |] eqn:E1; simpl in E; [|done..].
  case_decide as Hn; [done|]. injection E as <- <-.
  pose proof (Lp (x :: u) _ _ E1 r') as E2. simpl in E2. rewrite E2. simpl. by rewrite decide_False.
Qed.

Lemma parse_streamed_local {A} (p : bytes -> parsed A) :
  consumes p -> local p -> local (parse_streamed budget p).
Proof.
  intros. unfold parse_streamed. apply ploop_len_local; intros.
  - by apply streamed_round_consumes.
  - by apply streamed_round_local.
Qed.

Hint Resolve parse_pair_local parse_n_local parse_streamed_local : parser.

Lemma parse_aggregate_local tag : local (parse_aggregate pv budget tag).
Proof. unfold parse_aggregate. local_solve. Qed.
Lemma parse_attribute_local : local (parse_attribute pv budget).
Proof. unfold parse_attribute. local_solve. Qed.
End local_aggregates.

Lemma parse_value_local room budget : local (parse_value room budget).
Proof.
  induction room as [|room IH]; intros [|tag u] a r E r'; try done.
  { apply consumes_length in E; [simpl in E; lia|apply parse_value_consumes]. }
  pose proof (parse_value_consumes room budget).
  simpl in *. repeat case_match; try done.
  - by eapply parse_line_scalar_local.
  - by eapply parse_blob_local.
  - by eapply parse_aggregate_local.
  - by eapply parse_attribute_local.
Qed.
