(* ===== verification/Framing.v ===== *)
(** * Framing: what the decoder promises a connection

    [read_all] is the loop every reader runs on a decoder (decode until it no
    longer returns values), [receive] the same interleaved with the chunks a
    socket delivers. *)

From S2P Require Import Prelude Text Value Decoder DecoderFacts.

(** ** Reading a decoder dry *)

Record Reading := mkReading {
  values : list Value;
  failure : option DecodeError;
  after : Decoder;
}.

Definition with_value (v : Value) (x : Reading) : Reading :=
  mkReading (v :: values x) (failure x) (after x).
Definition with_values (vs : list Value) (x : Reading) : Reading :=
  mkReading (vs ++ values x) (failure x) (after x).

Fixpoint drain (fuel : nat) (d : Decoder) : Reading :=
  match fuel with
  | O => mkReading [] None d
  | S f =>
      match decode d with
      | (Ok (SValue v), d') => with_value v (drain f d')
      | (Ok Incomplete, d') => mkReading [] None d'
      | (Err e, d') => mkReading [] (Some e) d'
      end
  end.

Definition read_all (d : Decoder) : Reading := drain (S (length (buf d))) d.

Fixpoint receive (d : Decoder) (chunks : list bytes) : Reading :=
  match chunks with
  | [] => read_all d
  | c :: cs => let x := read_all (feed d c) in with_values (values x) (receive (after x) cs)
  end.

(** ** One decoding step *)

Definition in_frame (d : Decoder) : Prop := zlen (buf d) <= max_frame_bytes (budget d).

Lemma decode_in_frame d :
  in_frame d ->
  decode d =
  match parse_value (max_depth (budget d)) (budget d) (buf d) with
  | PDone v r => (Ok (SValue v), mkDecoder r (budget d))
  | PMore => (Ok Incomplete, d)
  | PFail e => (Err e, d)
  end.
Proof. unfold in_frame, decode. intros H. by rewrite decide_False by lia. Qed.

Lemma decode_value_inv d v d' :
  decode d = (Ok (SValue v), d') ->
  in_frame d /\ budget d' = budget d /\
  parse_value (max_depth (budget d)) (budget d) (buf d) = PDone v (buf d').
Proof.
  unfold decode, in_frame. case_decide; [done|].
  destruct (parse_value _ _ _) eqn:E; intros [= <- <-]. split; [lia|done].
Qed.

Lemma decode_value_shorter d v d' :
  decode d = (Ok (SValue v), d') -> (length (buf d') < length (buf d))%nat.
Proof.
  intros (_ & _ & E)%decode_value_inv.
  by eapply consumes_length, E; apply parse_value_consumes.
Qed.

Lemma in_frame_feed d c : in_frame (feed d c) -> in_frame d.
Proof.
  unfold in_frame, feed. simpl. rewrite zlen_app. pose proof (zlen_nonneg c). lia.
Qed.

Lemma decode_value_feed d v d' c :
  in_frame (feed d c) ->
  decode d = (Ok (SValue v), d') ->
  decode (feed d c) = (Ok (SValue v), feed d' c) /\ in_frame (feed d' c).
Proof.
  intros Hf E. pose proof (decode_value_shorter _ _ _ E) as Hlen.
  apply decode_value_inv in E as (_ & Hb & E).
  pose proof (parse_value_stable (max_depth (budget d)) (budget d) (buf d) c) as Hs.
  rewrite E in Hs. simpl in Hs. split.
  - rewrite (decode_in_frame _ Hf). simpl. rewrite Hs. unfold feed. by rewrite Hb.
  - unfold in_frame, feed, zlen in *. simpl in *. rewrite Hb.
    rewrite length_app in *. lia.
Qed.

(** ** Unrolling the reading loop *)

Lemma drain_fuel f f' d :
  (length (buf d) < f)%nat -> (length (buf d) < f')%nat -> drain f d = drain f' d.
Proof.
  revert f' d. induction f as [|f IH]; intros [|f'] d Hf Hf'; try lia. simpl.
  destruct (decode d) as [[[v|]|e] d'] eqn:E; try done.
  apply decode_value_shorter in E. f_equal. apply IH; lia.
Qed.

Lemma read_all_unroll d :
  read_all d =
  match decode d with
  | (Ok (SValue v), d') => with_value v (read_all d')
  | (Ok Incomplete, d') => mkReading [] None d'
  | (Err e, d') => mkReading [] (Some e) d'
  end.
Proof.
  unfold read_all at 1. cbn [drain].
  destruct (decode d) as [[[v|]|e] d'] eqn:E; try done.
  apply decode_value_shorter in E. f_equal. apply drain_fuel; lia.
Qed.

Lemma with_values_app vs ws x : with_values vs (with_values ws x) = with_values (vs ++ ws) x.
Proof. unfold with_values. simpl. by rewrite app_assoc. Qed.

Lemma with_values_nil x : with_values [] x = x.
Proof. by destruct x. Qed.

(** Reading early and then feeding is feeding and then reading. *)
Lemma read_all_feed d c :
  in_frame (feed d c) ->
  read_all (feed d c) =
    with_values (values (read_all d)) (read_all (feed (after (read_all d)) c)) /\
  in_frame (feed (after (read_all d)) c).
Proof.
  remember (length (buf d)) as n eqn:Hn. revert d Hn.
  induction n as [n IH] using lt_wf_ind. intros d -> Hf.
  rewrite (read_all_unroll d). destruct (decode d) as [[[v|]|e] d'] eqn:E.
  - destruct (decode_value_feed _ _ _ _ Hf E) as [E' Hf'].
    rewrite (read_all_unroll (feed d c)), E'.
    apply decode_value_shorter in E.
    destruct (IH _ E d' eq_refl Hf') as [-> ?]. simpl. split; [|done].
    by unfold with_value, with_values.
  - assert (d' = d) as ->.
    { revert E. rewrite decode_in_frame by (by eapply in_frame_feed). by case_match; intros [=]. }
    simpl. by rewrite with_values_nil.
  - assert (d' = d) as ->.
    { revert E. rewrite decode_in_frame by (by eapply in_frame_feed). by case_match; intros [=]. }
    simpl. by rewrite with_values_nil.
Qed.

Lemma feed_feed d c c' : feed (feed d c) c' = feed d (c ++ c').
Proof. unfold feed. simpl. by rewrite app_assoc. Qed.

Lemma feed_nil d : feed d [] = d.
Proof. unfold feed. rewrite app_nil_r. by destruct d. Qed.

Lemma decode_error_feed d e d' c :
  decode d = (Err e, d') -> in_frame (feed d c) ->
  d' = d /\ decode (feed d c) = (Err e, feed d c).
Proof.
  intros E Hf. revert E. rewrite decode_in_frame by (by eapply in_frame_feed).
  pose proof (parse_value_stable (max_depth (budget d)) (budget d) (buf d) c) as Hs.
  destruct (parse_value _ _ (buf d)) eqn:E; intros [= <- <-]. split; [done|].
  rewrite (decode_in_frame _ Hf). simpl in *. by rewrite Hs.
Qed.

Lemma receive_whole d chunks :
  in_frame (feed d (concat chunks)) -> receive d chunks = read_all (feed d (concat chunks)).
Proof.
  revert d. induction chunks as [|c cs IH]; intros d Hf; simpl in *.
  - by rewrite feed_nil.
  - rewrite <- feed_feed in *. destruct (read_all_feed _ _ Hf) as [-> Hf'].
    f_equal. by apply IH.
Qed.

(** ** Properties *)

(** C1. Chunk boundaries do not matter: however the bytes of a stream are split
    into chunks, decoding as they arrive yields the values, the failure and the
    leftover buffer of decoding the whole at once, if the whole fits the limit of
    one frame buffer. *)
Theorem receive_chunk_independent d chunks :
  in_frame (feed d (concat chunks)) ->
  receive d chunks = read_all (feed d (concat chunks)).
Proof. apply receive_whole. Qed.

(** The stream [+A, :3] split inside its CRLF and its number. *)
Lemma receive_chunk_independent_witness :
  receive with_defaults [bs "+A"; [x0d]; [x0a] ++ bs ":"; bs "3" ++ crlf; bs "*"] =
  read_all (feed with_defaults (concat [bs "+A"; [x0d]; [x0a] ++ bs ":"; bs "3" ++ crlf; bs "*"])).
Proof. apply receive_chunk_independent. vm_compute. discriminate. Defined.

(** C2. A value is decoded exactly: the decoder removes the non-empty run of
    bytes [u] that encodes it and nothing else, the same value is decoded from
    [u] whatever follows, and no proper prefix of [u] completes or fails. *)
Theorem decode_exact d v d' :
  decode d = (Ok (SValue v), d') ->
  exists u,
    u <> [] /\ buf d = u ++ buf d' /\ budget d' = budget d /\
    (forall c, in_frame (mkDecoder (u ++ c) (budget d)) ->
      decode (mkDecoder (u ++ c) (budget d)) = (Ok (SValue v), mkDecoder c (budget d))) /\
    (forall p q, u = p ++ q -> q <> [] ->
      decode (mkDecoder p (budget d)) = (Ok Incomplete, mkDecoder p (budget d))).
Proof.
  intros E. apply decode_value_inv in E as (Hf & Hb & E).
  destruct (parse_value_consumes _ _ _ _ _ E) as (u & Eu & Hu).
  exists u. split_and!; [done..| |].
  - intros c Hc. rewrite (decode_in_frame _ Hc). simpl.
    rewrite Eu in E. by rewrite (parse_value_local _ _ _ _ _ E c).
  - intros p q -> Hq. rewrite decode_in_frame; simpl.
    2: { revert Hf. unfold in_frame. simpl. rewrite Eu, !zlen_app.
         pose proof (zlen_nonneg q). pose proof (zlen_nonneg (buf d')). lia. }
    pose proof (parse_value_stable (max_depth (budget d)) (budget d) p (q ++ buf d')) as Hs.
    rewrite app_assoc, <- Eu, E in Hs.
    destruct (parse_value _ _ p) as [v' r| |e] eqn:Ep; simpl in Hs; [|done..].
    exfalso. injection Hs as _ Hs. apply (f_equal length) in Hs.
    rewrite !length_app in Hs. destruct q; [done|simpl in Hs; lia].
Qed.

Lemma decode_exact_witness :
  exists u, u <> [] /\ bs "+OK" ++ crlf ++ bs ":1" = u ++ bs ":1".
Proof.
  destruct (decode_exact (feed with_defaults (bs "+OK" ++ crlf ++ bs ":1"))
    (VSimple (bs "OK")) (mkDecoder (bs ":1") default_budget)) as (u & Hu & Eu & _).
  { vm_compute. reflexivity. }
  exists u. split; [exact Hu|exact Eu].
Defined.

(** A decoding error is final: it consumed nothing, and no further bytes
    make the decoder return anything but the same error. *)
Theorem decode_error_final d e d' c :
  decode d = (Err e, d') -> in_frame (feed d c) ->
  d' = d /\ decode (feed d c) = (Err e, feed d c).
Proof. apply decode_error_feed. Qed.

Lemma decode_error_final_witness :
  decode (feed (feed with_defaults (bs "+OK" ++ [x0a])) (bs ":1" ++ crlf)) =
  (Err (Protocol "bare LF in line"), feed (feed with_defaults (bs "+OK" ++ [x0a])) (bs ":1" ++ crlf)).
Proof.
  eapply (decode_error_final _ _ (feed with_defaults (bs "+OK" ++ [x0a])));
    vm_compute; [reflexivity|discriminate].
Defined.
