(* ===== verification/Output.v ===== *)
(** * Output modes and the routing of push frames ([crates/pr-application/src/output.rs])

    The [Emitter] receives the frames of a run in arrival order and decides
    what each contributes to stdout and stderr.  Text is a [str] (scalar
    values); it becomes bytes where the source calls [as_bytes]. *)

From S2P Require Import Prelude Text Value.

(** ** Modes and flags *)

Inductive OutputMode := Pretty | Raw | Json | Csv | TypedJson | Ndjson | Resp | Bytes.

#[export] Instance OutputMode_eq_dec : EqDecision OutputMode.
Proof. solve_decision. Defined.

Definition flag (m : OutputMode) : string :=
  match m with
  | Pretty => "--output pretty"
  | Raw => "--raw"
  | Json => "--json"
  | Csv => "--csv"
  | TypedJson => "--output typed-json"
  | Ndjson => "--output ndjson"
  | Resp => "--output resp"
  | Bytes => "--bytes"
  end.

Definition is_event_stream (m : OutputMode) : bool :=
  match m with
  | Ndjson | TypedJson => true
  | _ => false
  end.

Inductive FlagError :=
| Conflict (names : string)
| UnknownFormat (name : string).

#[export] Instance FlagError_eq_dec : EqDecision FlagError.
Proof. solve_decision. Defined.

Definition named (name : string) : result FlagError OutputMode :=
  if decide (name = "pretty"%string) then Ok Pretty
  else if decide (name = "raw"%string) then Ok Raw
  else if decide (name = "json"%string) then Ok Json
  else if decide (name = "csv"%string) then Ok Csv
  else if decide (name = "typed-json"%string) then Ok TypedJson
  else if decide (name = "ndjson"%string) then Ok Ndjson
  else if decide (name = "resp"%string) then Ok Resp
  else if decide (name = "bytes"%string) then Ok Bytes
  else Err (UnknownFormat name).

(** The [while] loop of [select]: [chosen] grows in order; the word after
    [--output] is consumed with it (an absent one reads as empty). *)
Fixpoint select_loop (flags : list string) (chosen : list OutputMode)
  : result FlagError (list OutputMode) :=
  match flags with
  | [] => Ok chosen
  | f :: rest =>
      if decide (f = "--raw"%string) then select_loop rest (chosen ++ [Raw])
      else if decide (f = "--json"%string) then select_loop rest (chosen ++ [Json])
      else if decide (f = "--csv"%string) then select_loop rest (chosen ++ [Csv])
      else if decide (f = "--bytes"%string) then select_loop rest (chosen ++ [Bytes])
      else if decide (f = "--output"%string) then
        match rest with
        | [] => let? m := named ""%string in Ok (chosen ++ [m])
        | name :: rest' => let? m := named name in select_loop rest' (chosen ++ [m])
        end
      else
        match strip_prefix (bs "--output=") (bs f) with
        | Some name => let? m := named (string_of_list_byte name) in
                       select_loop rest (chosen ++ [m])
        | None => select_loop rest chosen
        end
  end.

(** [Vec::dedup] and [join] on the conflicting names. *)
Fixpoint dedup (names : list string) : list string :=
  match names with
  | a :: ((b :: _) as r) => if decide (a = b) then dedup r else a :: dedup r
  | _ => names
  end.

Definition select (flags : list string) : result FlagError OutputMode :=
  let? chosen := select_loop flags [] in
  match chosen with
  | [] => Ok Pretty
  | [one] => Ok one
  | many => Err (Conflict (String.concat ", " (dedup (map flag many))))
  end.

Definition resolve_protocol (mode : OutputMode) (explicit : option Z) : Z :=
  match explicit with
  | Some v => v
  | None => match mode with
            | Json | TypedJson | Resp => 3
            | _ => 2
            end
  end.

Inductive PushRoute := DiscardCounted | StderrNdjson | StdoutEvent.

#[export] Instance PushRoute_eq_dec : EqDecision PushRoute.
Proof. solve_decision. Defined.

Definition push_route (mode : OutputMode) (show_pushes : bool) : PushRoute :=
  if is_event_stream mode then StdoutEvent
  else if show_pushes then StderrNdjson
  else DiscardCounted.

(** ** Pushes, through attribute wrappers *)

Fixpoint is_push (v : Value) : bool :=
  match v with
  | VPush _ => true
  | VAttribute _ w => is_push w
  | _ => false
  end.

(** ** Normalised RESP3 *)

Definition line_of (tag : string) (body : bytes) : bytes := bs tag ++ body ++ [x0d; x0a].
Definition count_line (tag : string) (n : Z) : bytes := line_of tag (print_signed n).

Fixpoint encode_resp3 (v : Value) : bytes :=
  match v with
  | VSimple b => line_of "+" b
  | VError b => line_of "-" b
  | VInteger n => line_of ":" (print_signed n)
  | VBulk b => count_line "$" (zlen b) ++ b ++ [x0d; x0a]
  | VNull _ => line_of "_" []
  | VBoolean t => line_of "#" (if t then bs "t" else bs "f")
  | VDouble lex => line_of "," lex
  | VBigNumber d => line_of "(" d
  | VBulkError b => count_line "!" (zlen b) ++ b ++ [x0d; x0a]
  | VVerbatim (f0, f1, f2) data =>
      count_line "=" (zlen data + 4) ++ [f0; f1; f2] ++ bs ":" ++ data ++ [x0d; x0a]
  | VArray items => count_line "*" (zlen items) ++ concat (map encode_resp3 items)
  | VSet items => count_line "~" (zlen items) ++ concat (map encode_resp3 items)
  | VMap entries =>
      count_line "%" (zlen entries)
      ++ concat (map (fun '(k, w) => encode_resp3 k ++ encode_resp3 w) entries)
  | VPush items => count_line ">" (zlen items) ++ concat (map encode_resp3 items)
  | VAttribute attrs w =>
      count_line "|" (zlen attrs)
      ++ concat (map (fun '(k, x) => encode_resp3 k ++ encode_resp3 x) attrs)
      ++ encode_resp3 w
  end.

(** ** Events *)

Definition type_name (v : Value) : string :=
  match v with
  | VSimple _ => "simple"
  | VError _ => "error"
  | VInteger _ => "integer"
  | VBulk _ => "bulk"
  | VNull _ => "null"
  | VArray _ => "array"
  | VBoolean _ => "boolean"
  | VDouble _ => "double"
  | VBigNumber _ => "bignumber"
  | VBulkError _ => "bulkerror"
  | VVerbatim _ _ => "verbatim"
  | VMap _ => "map"
  | VSet _ => "set"
  | VAttribute _ _ => "attribute"
  | VPush _ => "push"
  end.

(** One character of [json_string]. *)
Definition json_char (c : Z) : str :=
  if decide (c = 34) then [92; 34]
  else if decide (c = 92) then [92; 92]
  else if decide (c = 10) then chars "\n"
  else if decide (c = 13) then chars "\r"
  else if decide (c = 9) then chars "\t"
  else if decide (c < 32) then chars "\u" ++ hex4 c
  else [c].
Definition json_string (s : str) : str := [34] ++ (s ≫= json_char) ++ [34].

(** [base64], standard alphabet, padded. *)
Definition base64_alphabet : bytes :=
  bs "ABCDEFGHIJKLMNOPQRSTUVWXYZabcdefghijklmnopqrstuvwxyz0123456789+/".
Definition base64_char (n : Z) : byte := nth (Z.to_nat (Z.land n 63)) base64_alphabet x00.
Definition base64_chunk (chunk : bytes) : bytes :=
  let b i := bz (nth i chunk x00) in
  let n := Z.lor (Z.lor (Z.shiftl (b 0%nat) 16) (Z.shiftl (b 1%nat) 8)) (b 2%nat) in
  [base64_char (Z.shiftr n 18); base64_char (Z.shiftr n 12);
   if decide (1 < length chunk)%nat then base64_char (Z.shiftr n 6) else "="%byte;
   if decide (2 < length chunk)%nat then base64_char n else "="%byte].
Definition base64 (input : bytes) : bytes := concat (map base64_chunk (chunks 3 input)).

Definition bytes_json (b : bytes) : str :=
  match from_utf8 b with
  | Some s => json_string s
  | None => quoted "{'b64':'" ++ (bz <$> base64 b) ++ quoted "'}"
  end.

Fixpoint json_value (v : Value) : str :=
  match v with
  | VSimple b | VError b | VBulkError b | VBulk b => bytes_json b
  | VInteger n => bz <$> print_signed n
  | VNull _ => chars "null"
  | VBoolean t => if t then chars "true" else chars "false"
  | VDouble lex | VBigNumber lex => bytes_json lex
  | VVerbatim (f0, f1, f2) data =>
      quoted "{'format':" ++ bytes_json [f0; f1; f2] ++ quoted ",'data':" ++ bytes_json data
      ++ chars "}"
  | VArray items | VSet items | VPush items =>
      chars "[" ++ join (chars ",") (map json_value items) ++ chars "]"
  | VMap entries =>
      chars "["
      ++ join (chars ",")
           (map (fun '(k, w) =>
              chars "[" ++ json_value k ++ chars "," ++ json_value w ++ chars "]") entries)
      ++ chars "]"
  | VAttribute attrs w =>
      quoted "{'attributes':["
      ++ join (chars ",")
           (map (fun '(k, x) =>
              chars "[" ++ json_value k ++ chars "," ++ json_value x ++ chars "]") attrs)
      ++ quoted "],'value':" ++ json_value w ++ chars "}"
  end.

Definition event_line (kind : string) (seq : Z) (v : Value) : str :=
  quoted "{'v':1,'kind':'" ++ chars kind ++ quoted "','seq':" ++ (bz <$> print_signed seq)
  ++ quoted ",'type':'" ++ chars (type_name v) ++ quoted "','value':" ++ json_value v
  ++ chars "}".

(** ** The reply-shaped modes *)

Fixpoint raw_text (v : Value) : str :=
  match v with
  | VSimple b | VBulk b | VError b | VBulkError b => from_utf8_lossy b
  | VDouble b | VBigNumber b => from_utf8_lossy b
  | VInteger n => bz <$> print_signed n
  | VBoolean t => if t then chars "1" else chars "0"
  | VNull _ => []
  | VArray items | VSet items | VPush items => join [10] (map raw_text items)
  | VMap entries =>
      join [10] (map (fun '(k, w) => raw_text k ++ [10] ++ raw_text w) entries)
  | VVerbatim _ data => from_utf8_lossy data
  | VAttribute _ w => raw_text w
  end.

Definition csv_cell (v : Value) : str :=
  let t := raw_text v in
  if decide (44 ∈ t \/ 34 ∈ t \/ 10 ∈ t) then [34] ++ replace_char 34 [34; 34] t ++ [34]
  else t.

Fixpoint csv_cells (v : Value) : list str :=
  match v with
  | VArray items | VSet items => concat (map csv_cells items)
  | VMap entries => concat (map (fun '(k, w) => [csv_cell k; csv_cell w]) entries)
  | _ => [csv_cell v]
  end.

Definition render_simple (mode : OutputMode) (v : Value) : str :=
  match mode with
  | Json => json_value v ++ [10]
  | Csv => join (chars ",") (csv_cells v) ++ [10]
  | _ => raw_text v ++ [10]
  end.

(** ** The emitter *)

Record Arrival := mkArrival {
  value : Value;
  wire : bytes;
}.

Record Emitter := mkEmitter {
  mode : option OutputMode;
  route : option PushRoute;
  stdout : bytes;
  stderr : bytes;
  trace : option bytes;
  pushes : Z;
  replies : Z;
  seq : Z;
}.

Definition new_emitter (m : OutputMode) (show_pushes : bool) : Emitter :=
  mkEmitter (Some m) (Some (push_route m show_pushes)) [] [] None 0 0 0.

Definition with_wire_trace (e : Emitter) : Emitter :=
  mkEmitter (mode e) (route e) (stdout e) (stderr e) (Some []) (pushes e) (replies e) (seq e).

(** [extend_from_slice] on the two streams. *)
Definition to_stdout (b : bytes) (e : Emitter) : Emitter :=
  mkEmitter (mode e) (route e) (stdout e ++ b) (stderr e) (trace e) (pushes e) (replies e) (seq e).
Definition to_stderr (b : bytes) (e : Emitter) : Emitter :=
  mkEmitter (mode e) (route e) (stdout e) (stderr e ++ b) (trace e) (pushes e) (replies e) (seq e).

Definition accept (a : Arrival) (e : Emitter) : Emitter :=
  let m := default Pretty (mode e) in
  let r := default DiscardCounted (route e) in
  let s := seq e + 1 in
  let v := value a in
  let count p q :=
    mkEmitter (mode e) (route e) (stdout e) (stderr e)
      ((fun t => t ++ wire a) <$> trace e) p q s in
  if is_push v then
    let e' := count (pushes e + 1) (replies e) in
    let event := encode_str (event_line "push" s v) ++ [x0a] in
    match r with
    | DiscardCounted => e'
    | StderrNdjson => to_stderr event e'
    | StdoutEvent => to_stdout event e'
    end
  else
    let e' := count (pushes e) (replies e + 1) in
    match m with
    | Ndjson | TypedJson => to_stdout (encode_str (event_line "reply" s v) ++ [x0a]) e'
    | Resp => to_stdout (encode_resp3 v) e'
    | Bytes =>
        match v with
        | VBulk b => to_stdout b e'
        | _ => to_stderr (bs "--bytes requires a single blob reply" ++ [x0a]) e'
        end
    | Raw | Pretty | Json | Csv => to_stdout (encode_str (render_simple m v)) e'
    end.

Definition finish (e : Emitter) : Emitter :=
  if decide (route e = Some DiscardCounted /\ pushes e > 0) then
    let plural := if decide (pushes e = 1) then [] else bs "s" in
    to_stderr (print_unsigned (pushes e) ++ bs " push frame" ++ plural ++ bs " suppressed"
               ++ [x0a]) e
  else e.

(** The frames of a run, in arrival order. *)
Definition accept_all (arrivals : list Arrival) (e : Emitter) : Emitter :=
  foldl (fun e a => accept a e) e arrivals.
