(* ===== verification/Emission.v ===== *)
(** * What an emitter puts on its streams

    Pushes never reach the stdout of a reply format, and an event format
    writes exactly one line per frame. *)

From S2P Require Import Prelude Text TextFacts Value Output.

(** ** Text without control characters *)

Definition plain (s : str) : Prop := Forall (fun c => 32 <= c < 1114112) s.

Lemma plain_app s t : plain (s ++ t) <-> plain s /\ plain t.
Proof. apply Forall_app. Qed.

Lemma plain_join sep parts : plain sep -> Forall plain parts -> plain (join sep parts).
Proof.
  intros Hs. induction 1 as [|p parts Hp Hps IH]; simpl; [constructor|].
  destruct parts; [done|]. by rewrite !plain_app.
Qed.

Lemma plain_byte_string s : forallb (fun b => bool_decide (32 <= bz b)) s = true -> plain (bz <$> s).
Proof.
  intros H. apply Forall_fmap, Forall_forall. intros b Hb.
  rewrite forallb_forall in H. specialize (H b (proj1 (list_elem_of_In _ _) Hb)).
  apply bool_decide_eq_true in H. pose proof (bz_range b). simpl. lia.
Qed.

Lemma plain_chars s :
  forallb (fun b => bool_decide (32 <= bz b)) (bs s) = true -> plain (chars s).
Proof. apply plain_byte_string. Qed.

Lemma plain_quoted s :
  forallb (fun b => bool_decide (32 <= bz b)) (bs s) = true -> plain (quoted s).
Proof.
  intros H%plain_chars. apply Forall_fmap. eapply Forall_impl; [exact H|].
  intros c Hc. simpl in *. case_decide; lia.
Qed.

Lemma plain_graphic s : Forall graphic s -> plain (bz <$> s).
Proof. intros H. apply Forall_fmap. eapply Forall_impl; [exact H|]. unfold graphic. simpl. lia. Qed.

Lemma hex_digit_graphic z : 0 <= z < 16 -> 48 <= bz (hex_digit z) <= 102.
Proof. intros Hz. unfold hex_digit. case_decide; rewrite bz_zb by lia; lia. Qed.

Lemma hex_digit_plain z : 0 <= z < 16 -> 32 <= bz (hex_digit z) < 1114112.
Proof. intros Hz. pose proof (hex_digit_graphic z Hz). lia. Qed.

Lemma plain_hex4 c : 0 <= c < 65536 -> plain (hex4 c).
Proof.
  intros Hc. unfold hex4, plain.
  assert (0 <= c / 4096 < 16) by (split; [apply Z.div_pos; lia|apply Z.div_lt_upper_bound; lia]).
  pose proof (Z.mod_pos_bound (c / 256) 16 ltac:(lia)).
  pose proof (Z.mod_pos_bound (c / 16) 16 ltac:(lia)).
  pose proof (Z.mod_pos_bound c 16 ltac:(lia)).
  repeat (apply Forall_cons; split; [apply hex_digit_plain; lia|]). constructor.
Qed.

Lemma plain_json_string s : Forall (fun c => 0 <= c < 1114112) s -> plain (json_string s).
Proof.
  intros Hs. unfold json_string. rewrite !plain_app. split_and!; [by repeat constructor| |by repeat constructor].
  induction Hs as [|c s Hc _ IH]; simpl; [constructor|]. apply plain_app. split; [|done].
  unfold json_char. repeat case_decide; try (by apply plain_chars); try (repeat constructor; lia).
  apply plain_app. split; [by apply plain_chars|apply plain_hex4; lia].
Qed.

Lemma base64_char_plain n : 32 <= bz (base64_char n) < 1114112.
Proof.
  assert (Forall (fun b => 32 <= bz b < 1114112) base64_alphabet) as Hf.
  { apply Forall_fmap with (f := bz) (P := fun c => 32 <= c < 1114112).
    by apply (plain_byte_string base64_alphabet). }
  unfold base64_char. rewrite Forall_forall in Hf. apply Hf, list_elem_of_In, nth_In.
  change 63 with (Z.ones 6). rewrite Z.land_ones by lia.
  pose proof (Z.mod_pos_bound n (2 ^ 6) ltac:(lia)). change (length base64_alphabet) with 64%nat. lia.
Qed.

Lemma plain_base64 b : plain (bz <$> base64 b).
Proof.
  apply Forall_fmap. unfold base64. apply Forall_concat, Forall_fmap, Forall_true.
  intros c. unfold base64_chunk. simpl.
  repeat (apply Forall_cons; split; [first [apply base64_char_plain|case_decide;
    [apply base64_char_plain|done]]|]). constructor.
Qed.

#[local] Hint Resolve plain_base64 plain_json_string from_utf8_scalar : core.

Lemma plain_bytes_json b : plain (bytes_json b).
Proof.
  unfold bytes_json. destruct (from_utf8 b) eqn:E; [by eauto|].
  rewrite !plain_app. split_and!; [by apply plain_quoted|done|by apply plain_quoted].
Qed.

Lemma plain_pairs (kv : list (Value * Value)) :
  Forall (fun kv => plain (json_value kv.1) /\ plain (json_value kv.2)) kv ->
  plain (join (chars ",")
    (map (fun '(k, w) =>
       chars "[" ++ json_value k ++ chars "," ++ json_value w ++ chars "]") kv)).
Proof.
  intros H. apply plain_join; [by apply plain_chars|]. apply Forall_fmap.
  eapply Forall_impl; [exact H|]. intros [k w] [Hk Hw]. cbn [fst snd] in Hk, Hw. unfold compose.
  rewrite !plain_app. split_and!; try done; by apply plain_chars.
Qed.

Lemma plain_json_value v : plain (json_value v).
Proof.
  induction v using value_rect'; cbn [json_value];
    try destruct f as [[f0 f1] f2]; try destruct t;
    rewrite ?plain_app; split_and?;
    try (by apply plain_chars); try (by apply plain_quoted); try apply plain_bytes_json;
    try (apply plain_graphic, print_signed_graphic); try (by apply plain_pairs); try done;
    (apply plain_join; [by apply plain_chars|by apply Forall_fmap]).
Qed.

Lemma plain_event_line kind n v : plain (chars kind) -> plain (event_line kind n v).
Proof.
  intros Hk. unfold event_line. rewrite !plain_app.
  split_and!; try done; try (by apply plain_quoted); try (by apply plain_chars);
    try apply plain_json_value; try (apply plain_graphic, print_signed_graphic).
  by destruct v; apply plain_chars.
Qed.

Lemma zb_ge (z : Z) : 32 <= z mod 256 -> zb z <> x0a.
Proof.
  intros Hz E. pose proof (Z.mod_pos_bound z 256 ltac:(lia)) as Hm.
  assert (bz (zb (z mod 256)) = z mod 256) as E' by (by apply bz_zb).
  unfold zb in E', E. rewrite Z.mod_mod in E' by lia. rewrite E in E'.
  assert (bz x0a = 10) by done. lia.
Qed.

Lemma zb_high z : 128 <= z < 256 -> zb z <> x0a.
Proof. intros Hz. apply zb_ge. rewrite Z.mod_small; lia. Qed.

Lemma encode_char_no_lf c : 32 <= c < 1114112 -> x0a ∉ encode_char c.
Proof.
  intros Hc. unfold encode_char.
  pose proof (Z.mod_pos_bound c 64 ltac:(lia)).
  pose proof (Z.mod_pos_bound (c / 64) 64 ltac:(lia)).
  pose proof (Z.mod_pos_bound (c / 4096) 64 ltac:(lia)).
  repeat case_decide; rewrite !not_elem_of_cons; split_and!; try (by apply not_elem_of_nil);
    apply not_eq_sym.
  - apply zb_ge. rewrite Z.mod_small; lia.
  - apply zb_high. split; [|]; pose proof (Z.div_pos c 64);
      pose proof (Z.div_lt_upper_bound c 64 32); lia.
  - apply zb_high. lia.
  - pose proof (Z.div_pos c 4096); pose proof (Z.div_lt_upper_bound c 4096 16).
    apply zb_high. lia.
  - apply zb_high. lia.
  - apply zb_high. lia.
  - pose proof (Z.div_pos c 262144); pose proof (Z.div_lt_upper_bound c 262144 5).
    apply zb_high. lia.
  - apply zb_high. lia.
  - apply zb_high. lia.
  - apply zb_high. lia.
Qed.

Lemma encode_str_no_lf s : plain s -> x0a ∉ encode_str s.
Proof.
  intros H Hin. apply list_elem_of_bind in Hin as (c & Hc & Hin).
  pose proof (proj1 (Forall_forall _ _) H) as H'.
  by eapply encode_char_no_lf; [apply (H' _ Hin)|].
Qed.

(** ** Reply formats *)

(** What one reply adds to the stdout of a reply format. *)
Definition reply_output (m : OutputMode) (v : Value) : bytes :=
  match m with
  | Ndjson | TypedJson => []
  | Resp => encode_resp3 v
  | Bytes => match v with VBulk b => b | _ => [] end
  | Raw | Pretty | Json | Csv => encode_str (render_simple m v)
  end.

Definition reply_frames (arrivals : list Arrival) : list Arrival :=
  filter (fun a => is_push (value a) = false) arrivals.
Definition push_frames (arrivals : list Arrival) : list Arrival :=
  filter (fun a => is_push (value a) = true) arrivals.

(** The mode and the route an emitter was made with. *)
Definition configured (m : OutputMode) (sp : bool) (e : Emitter) : Prop :=
  mode e = Some m /\ route e = Some (push_route m sp).

Lemma accept_configured m sp a e : configured m sp e -> configured m sp (accept a e).
Proof.
  intros [Hm Hr]. unfold accept, configured. rewrite Hm, Hr. simpl.
  destruct (is_push (value a)); [by destruct (push_route m sp)|].
  destruct m; try done. by destruct (value a).
Qed.

Lemma accept_stdout_reply m sp a e :
  configured m sp e -> is_event_stream m = false ->
  stdout (accept a e) =
    stdout e ++ (if is_push (value a) then [] else reply_output m (value a)).
Proof.
  intros [Hm Hr] Hs. unfold accept. rewrite Hm, Hr. unfold push_route. rewrite Hs. simpl.
  destruct (is_push (value a)); [destruct sp; simpl; by rewrite app_nil_r|].
  destruct m; try done; try (by destruct (value a); simpl; rewrite ?app_nil_r).
Qed.

Lemma accept_all_stdout_reply m sp arrivals e :
  configured m sp e -> is_event_stream m = false ->
  stdout (accept_all arrivals e) =
    stdout e ++ concat (map (fun a => reply_output m (value a)) (reply_frames arrivals)).
Proof.
  intros Hc Hs. revert e Hc. induction arrivals as [|a l IH]; intros e Hc; simpl.
  { by rewrite app_nil_r. }
  rewrite IH by (by apply accept_configured).
  rewrite (accept_stdout_reply m sp) by done. unfold reply_frames. rewrite filter_cons.
  destruct (is_push (value a)) eqn:E; simpl; by rewrite <- app_assoc.
Qed.

Lemma finish_stdout e : stdout (finish e) = stdout e.
Proof. unfold finish. by case_decide. Qed.

(** In every reply format, whatever pushes arrive and whether or not they
    are shown, stdout holds the outputs of the replies, in order, and nothing
    else. *)
Theorem reply_stdout_exact m sp arrivals :
  is_event_stream m = false ->
  stdout (finish (accept_all arrivals (new_emitter m sp))) =
    concat (map (fun a => reply_output m (value a)) (reply_frames arrivals)).
Proof.
  intros Hs. rewrite finish_stdout. by rewrite (accept_all_stdout_reply m sp).
Qed.

Lemma reply_stdout_exact_witness :
  stdout (finish (accept_all
    [mkArrival (VAttribute [] (VPush [VBulk (bs "invalidate")])) [];
     mkArrival (VInteger 3) []; mkArrival (VPush []) []] (new_emitter Json true))) =
  bs "3" ++ [x0a].
Proof. rewrite (reply_stdout_exact Json true); [|reflexivity]. vm_compute. reflexivity. Defined.

(** ** Event formats *)

Definition event_of (n : Z) (a : Arrival) : bytes :=
  encode_str (event_line (if is_push (value a) then "push" else "reply") n (value a)).

Fixpoint events_from (n : Z) (arrivals : list Arrival) : list bytes :=
  match arrivals with
  | [] => []
  | a :: l => event_of n a :: events_from (n + 1) l
  end.

Lemma event_of_no_lf n a : x0a ∉ event_of n a.
Proof. apply encode_str_no_lf, plain_event_line. by case_match; apply plain_chars. Qed.

Lemma accept_event m sp a e :
  configured m sp e -> is_event_stream m = true ->
  stdout (accept a e) = stdout e ++ event_of (seq e + 1) a ++ [x0a] /\
  seq (accept a e) = seq e + 1 /\ stderr (accept a e) = stderr e.
Proof.
  intros [Hm Hr] Hs. unfold accept, event_of. rewrite Hm, Hr. unfold push_route. rewrite Hs.
  simpl. destruct (is_push (value a)); [done|]. by destruct m.
Qed.

(** In an event format stdout is one line per frame, in arrival order,
    pushes included, numbered from 1; no event contains a line feed, whatever
    bytes the server sent, and nothing is written to stderr. *)
Theorem event_stdout_lines m sp arrivals :
  is_event_stream m = true ->
  let e := finish (accept_all arrivals (new_emitter m sp)) in
  stdout e = concat (map (fun l => l ++ [x0a]) (events_from 1 arrivals)) /\
  Forall (fun l => x0a ∉ l) (events_from 1 arrivals) /\
  length (events_from 1 arrivals) = length arrivals /\
  stderr e = [].
Proof.
  intros Hs. simpl.
  assert (forall n e, configured m sp e -> seq e + 1 = n ->
    let e' := accept_all arrivals e in
    stdout e' = stdout e ++ concat (map (fun l => l ++ [x0a]) (events_from n arrivals)) /\
    stderr e' = stderr e /\ route e' = route e) as H.
  { induction arrivals as [|a l IH]; intros n e Hc Hn; simpl.
    { by rewrite app_nil_r. }
    destruct (accept_event m sp a e Hc Hs) as (E1 & E2 & E3).
    pose proof (accept_configured m sp a e Hc) as Hc'.
    destruct (IH (n + 1) (accept a e) Hc') as (-> & -> & ->); [lia|].
    rewrite E1, E3, Hn, <- app_assoc. split_and!; [done..|].
    destruct Hc as [_ ->], Hc' as [_ ->]. done. }
  destruct (H 1 (new_emitter m sp)) as (E1 & E2 & E3); [done..|].
  rewrite finish_stdout, E1. split_and!; [done| | |].
  - clear. generalize 1. induction arrivals as [|a l IH]; intros n; constructor;
      [apply event_of_no_lf|apply IH].
  - clear. generalize 1. induction arrivals as [|a l IH]; intros n; simpl; [done|].
    by rewrite IH.
  - unfold finish. rewrite E3. simpl. unfold push_route. rewrite Hs. simpl.
    done.
Qed.

Lemma event_stdout_lines_witness :
  Forall (fun l => x0a ∉ l)
    (events_from 1 [mkArrival (VBulk [x0a; xff]) []; mkArrival (VPush [VBulk [x0a]]) []]).
Proof.
  exact (proj1 (proj2 (event_stdout_lines Ndjson false
    [mkArrival (VBulk [x0a; xff]) []; mkArrival (VPush [VBulk [x0a]]) []] eq_refl))).
Defined.

(** Every frame is counted once, as a push or as a reply, and the wire
    trace, when there is one, is the bytes of all frames in order. *)
Theorem frames_accounted arrivals e :
  let e' := accept_all arrivals e in
  pushes e' = pushes e + zlen (push_frames arrivals) /\
  replies e' = replies e + zlen (reply_frames arrivals) /\
  seq e' = seq e + zlen arrivals /\
  trace e' = (fun t => t ++ concat (map wire arrivals)) <$> trace e.
Proof.
  revert e. induction arrivals as [|a l IH]; intros e; simpl.
  { split_and!; try (unfold zlen; simpl; lia). destruct (trace e); simpl; by rewrite ?app_nil_r. }
  destruct (IH (accept a e)) as (-> & -> & -> & ->).
  unfold push_frames, reply_frames. rewrite !filter_cons, zlen_cons.
  assert (trace (accept a e) = (fun t => t ++ wire a) <$> trace e /\
    seq (accept a e) = seq e + 1 /\
    pushes (accept a e) = pushes e + (if is_push (value a) then 1 else 0) /\
    replies (accept a e) = replies e + (if is_push (value a) then 0 else 1)) as (-> & -> & -> & ->).
  { unfold accept. destruct (is_push (value a)); simpl.
    - destruct (default _ (route e)); simpl; split_and!; try done; lia.
    - destruct (default _ (mode e)); simpl; try (split_and!; done || lia).
      destruct (value a); simpl; split_and!; done || lia. }
  destruct (is_push (value a)) eqn:Ep; simpl; rewrite ?zlen_cons; split_and!; try lia;
    destruct (trace e); simpl; by rewrite ?app_assoc.
Qed.
