(* ===== verification/Roundtrip.v ===== *)
(** * Decoded values respect the budget and can be re-encoded

    [encodable] is the well-formedness of a value under a budget.  Every value
    the decoder returns has it, and every value that has it is decoded back
    from its normalised RESP3. *)

From S2P Require Import Prelude Text TextFacts Value Decoder DecoderFacts Framing Output.

(** ** Well-formed values *)

Definition one_line (b : bytes) : bool := bool_decide ((x0d ∉ b) /\ (x0a ∉ b)).
Definition fits (n cap : Z) : bool := bool_decide (n <= cap /\ n <= i64_max).

Fixpoint encodable (room : nat) (bud : Budget) (v : Value) : bool :=
  match room with
  | O => false
  | S deeper =>
      let all vs := forallb (encodable deeper bud) vs in
      let all_pairs kv := forallb (fun p => encodable deeper bud p.1 && encodable deeper bud p.2) kv in
      match v with
      | VSimple b | VError b => one_line b
      | VInteger z => bool_decide (i64_min <= z <= i64_max)
      | VBulk b | VBulkError b => fits (zlen b) (max_bulk_bytes bud)
      | VNull _ | VBoolean _ => true
      | VDouble lex => one_line lex && is_ok (validate_double lex)
      | VBigNumber d => one_line d && is_ok (validate_bignum d)
      | VVerbatim _ data => fits (zlen data + 4) (max_bulk_bytes bud)
      | VArray vs | VSet vs | VPush vs => fits (zlen vs) (max_elements bud) && all vs
      | VMap kv => fits (zlen kv) (max_elements bud) && all_pairs kv
      | VAttribute kv w =>
          fits (zlen kv) (max_elements bud) && all_pairs kv && encodable deeper bud w
      end
  end.

(** The one change re-encoding makes: every null is the RESP3 null. *)
Fixpoint normalise (v : Value) : Value :=
  match v with
  | VNull _ => VNull NResp3
  | VArray vs => VArray (map normalise vs)
  | VSet vs => VSet (map normalise vs)
  | VPush vs => VPush (map normalise vs)
  | VMap kv => VMap (map (fun '(k, w) => (normalise k, normalise w)) kv)
  | VAttribute kv w =>
      VAttribute (map (fun '(k, x) => (normalise k, normalise x)) kv) (normalise w)
  | _ => v
  end.

Lemma fits_spec n cap : fits n cap = true <-> n <= cap /\ n <= i64_max.
Proof. apply bool_decide_eq_true. Qed.

Lemma one_line_spec b : one_line b = true <-> (x0d ∉ b) /\ (x0a ∉ b).
Proof. apply bool_decide_eq_true. Qed.

(** ** Reading what was written *)

Lemma graphic_one_line s : Forall graphic s -> one_line s = true.
Proof.
  intros Hs. apply one_line_spec. split; apply graphic_no_byte; try done; by intros [].
Qed.

Lemma line_line_of b r : one_line b = true -> line (b ++ [x0d; x0a] ++ r) = PDone b r.
Proof. intros H%one_line_spec. by apply line_spec. Qed.

Lemma parse_i64_print z : i64_min <= z <= i64_max -> parse_i64 (print_signed z) = Ok z.
Proof.
  intros Hz. pose proof (print_signed_graphic z) as Hg. unfold parse_i64.
  assert (print_signed z <> [] /\ head (print_signed z) <> Some "+"%byte /\
    Forall (fun b => b = "-"%byte \/ is_ascii_digit b = true) (print_signed z)) as (Hne & Hh & Hf).
  { unfold print_signed. case_decide.
    - destruct (print_unsigned_spec (- z)) as (_ & Hf & _); [lia|].
      split_and!; [done|done|]. constructor; [by left|].
      eapply Forall_impl; [exact Hf|]. by right.
    - destruct (print_unsigned_spec z) as (Hne & Hf & _); [lia|]. split_and!; [done| |].
      + destruct (print_unsigned z); [done|]. apply Forall_cons in Hf as [Hb _].
        by intros [= ->].
      + eapply Forall_impl; [exact Hf|]. by right. }
  rewrite decide_False by done. rewrite from_utf8_ascii by (by apply graphic_ascii).
  rewrite decide_False.
  - by rewrite parse_signed_print.
  - rewrite graphic_trim by done. intros [?|[?|Hin]]; [done|done|].
    rewrite Forall_forall in Hf. by destruct (Hf _ Hin).
Qed.

Lemma parse_len_print n bud what :
  0 <= n -> n <= (if decide (what = "bulk"%string) then max_bulk_bytes bud else max_elements bud) ->
  n <= i64_max -> parse_len (print_signed n) bud what = Ok (Some n).
Proof.
  intros H0 Hcap Hmax. unfold parse_len. rewrite parse_i64_print by (unfold i64_min; lia). simpl.
  by rewrite !decide_False by lia.
Qed.

Lemma print_signed_not_streamed n : 0 <= n -> print_signed n <> bs "?".
Proof.
  intros Hn E. pose proof (print_signed_graphic n) as _. unfold print_signed in E.
  rewrite decide_False in E by lia.
  destruct (print_unsigned_spec n Hn) as (_ & Hf & _). rewrite E in Hf.
  apply Forall_cons in Hf as [[=] _].
Qed.

Lemma parse_blob_print tag bud b r :
  fits (zlen b) (max_bulk_bytes bud) = true ->
  parse_blob tag bud (print_signed (zlen b) ++ [x0d; x0a] ++ b ++ [x0d; x0a] ++ r) =
    if decide (tag = "$"%byte) then PDone (VBulk b) r
    else if decide (tag = "!"%byte) then PDone (VBulkError b) r
    else verbatim b r.
Proof.
  intros [Hc Hm]%fits_spec. pose proof (zlen_nonneg b) as H0. unfold parse_blob.
  rewrite line_line_of by apply graphic_one_line, print_signed_graphic. simpl pbind.
  rewrite decide_False by (intros [_ E]; by apply (print_signed_not_streamed (zlen b))).
  rewrite parse_len_print by (done || lia). simpl pcheck.
  change (x0d :: x0a :: r) with (crlf ++ r). by rewrite payload_exact.
Qed.

(** Reading [n] things back to back. *)
Lemma parse_n_concat {A B} (p : bytes -> parsed B) (enc : A -> bytes) (f : A -> B) (xs : list A) r :
  Forall (fun x => forall r, p (enc x ++ r) = PDone (f x) r) xs ->
  parse_n p (length xs) (concat (map enc xs) ++ r) = PDone (map f xs) r.
Proof.
  induction 1 as [|x xs Hx _ IH]; simpl; [done|].
  rewrite <- app_assoc, Hx. simpl. by rewrite IH.
Qed.

Lemma parse_pair_app pv k w k' w' ek ew r :
  (forall r, pv (ek ++ r) = PDone k r) -> (forall r, pv (ew ++ r) = PDone w r) ->
  k' = k -> w' = w -> parse_pair pv ((ek ++ ew) ++ r) = PDone (k', w') r.
Proof.
  intros Hk Hw -> ->. unfold parse_pair. rewrite <- app_assoc, Hk. simpl. by rewrite Hw.
Qed.

(** What it is for the values below to be read back. *)
Definition reads_back (room : nat) (bud : Budget) (v : Value) : Prop :=
  forall r, parse_value room bud (encode_resp3 v ++ r) = PDone (normalise v) r.

Section composite.
Context (room : nat) (bud : Budget).
Context (IH : forall v, encodable room bud v = true -> reads_back room bud v).

Lemma read_items vs r :
  forallb (encodable room bud) vs = true ->
  parse_n (parse_value room bud) (length vs) (concat (map encode_resp3 vs) ++ r) =
    PDone (map normalise vs) r.
Proof.
  intros H. apply parse_n_concat, Forall_forall. intros v Hv. apply IH.
  rewrite forallb_forall in H. by apply H, list_elem_of_In.
Qed.

Lemma read_pairs kv r :
  forallb (fun p => encodable room bud p.1 && encodable room bud p.2) kv = true ->
  parse_n (parse_pair (parse_value room bud)) (length kv)
    (concat (map (fun '(k, w) => encode_resp3 k ++ encode_resp3 w) kv) ++ r) =
    PDone (map (fun '(k, w) => (normalise k, normalise w)) kv) r.
Proof.
  intros H. apply parse_n_concat, Forall_forall. intros [k w] Hv r'.
  rewrite forallb_forall in H. specialize (H (k, w) (proj1 (list_elem_of_In _ _) Hv)).
  simpl in H. apply andb_true_iff in H as [Hk Hw].
  eapply parse_pair_app; [by apply IH|by apply IH|done|done].
Qed.

(** The header of an aggregate and what follows it. *)
Lemma read_aggregate {A} tag (xs : list A) body r :
  tag <> "%"%byte -> fits (zlen xs) (max_elements bud) = true ->
  parse_aggregate (parse_value room bud) bud tag
    (print_signed (zlen xs) ++ [x0d; x0a] ++ body ++ r) =
  (need! vs @ r' := parse_n (parse_value room bud) (length xs) (body ++ r) in
   PDone (collection tag vs) r').
Proof.
  intros Ht [Hc Hm]%fits_spec. pose proof (zlen_nonneg xs) as H0. unfold parse_aggregate.
  rewrite line_line_of by apply graphic_one_line, print_signed_graphic. simpl pbind.
  rewrite decide_False by (by apply print_signed_not_streamed).
  rewrite parse_len_print by (done || lia). simpl pcheck.
  rewrite decide_False by done. unfold zlen. by rewrite Nat2Z.id.
Qed.

Lemma read_map (kv : list (Value * Value)) body r :
  fits (zlen kv) (max_elements bud) = true ->
  parse_aggregate (parse_value room bud) bud "%"
    (print_signed (zlen kv) ++ [x0d; x0a] ++ body ++ r) =
  (need! vs @ r' := parse_n (parse_pair (parse_value room bud)) (length kv) (body ++ r) in
   PDone (VMap vs) r').
Proof.
  intros [Hc Hm]%fits_spec. pose proof (zlen_nonneg kv) as H0. unfold parse_aggregate.
  rewrite line_line_of by apply graphic_one_line, print_signed_graphic. simpl pbind.
  rewrite decide_False by (by apply print_signed_not_streamed).
  rewrite parse_len_print by (done || lia). simpl pcheck.
  unfold zlen. by rewrite Nat2Z.id.
Qed.

Lemma read_attribute (kv : list (Value * Value)) body r :
  fits (zlen kv) (max_elements bud) = true ->
  parse_attribute (parse_value room bud) bud
    (print_signed (zlen kv) ++ [x0d; x0a] ++ body ++ r) =
  (need! attrs @ r1 := parse_n (parse_pair (parse_value room bud)) (length kv) (body ++ r) in
   need! v @ r2 := parse_value room bud r1 in
   PDone (VAttribute attrs v) r2).
Proof.
  intros [Hc Hm]%fits_spec. pose proof (zlen_nonneg kv) as H0. unfold parse_attribute.
  rewrite line_line_of by apply graphic_one_line, print_signed_graphic. simpl pbind.
  rewrite parse_len_print by (done || lia). simpl pcheck.
  unfold zlen. by rewrite Nat2Z.id.
Qed.
End composite.

Lemma is_ok_inv {E} (m : result E unit) : is_ok m = true -> m = Ok tt.
Proof. destruct m as [[]|]; done. Qed.

(** The first byte selects the parser of the rest. *)
Section dispatch.
Context (room : nat) (bud : Budget) (tag : byte) (b : bytes).

Lemma parse_value_line :
  is_line_tag tag = true -> parse_value (S room) bud (tag :: b) = parse_line_scalar tag b.
Proof. intros H. simpl. by rewrite H. Qed.

Lemma parse_value_blob :
  is_line_tag tag = false -> is_blob_tag tag = true ->
  parse_value (S room) bud (tag :: b) = parse_blob tag bud b.
Proof. intros H1 H2. simpl. by rewrite H1, H2. Qed.

Lemma parse_value_aggregate :
  is_line_tag tag = false -> is_blob_tag tag = false -> is_aggregate_tag tag = true ->
  parse_value (S room) bud (tag :: b) = parse_aggregate (parse_value room bud) bud tag b.
Proof. intros H1 H2 H3. simpl. by rewrite H1, H2, H3. Qed.

Lemma parse_value_attribute :
  tag = "|"%byte ->
  parse_value (S room) bud (tag :: b) = parse_attribute (parse_value room bud) bud b.
Proof. by intros ->. Qed.
End dispatch.

Lemma verbatim_prefix f0 f1 f2 data r :
  verbatim (f0 :: f1 :: f2 :: ":"%byte :: data) r = PDone (VVerbatim (f0, f1, f2) data) r.
Proof. done. Qed.

Ltac dispatch :=
  first [rewrite parse_value_line by done; unfold parse_line_scalar
        |rewrite parse_value_blob by done; rewrite parse_blob_print by done
        |rewrite parse_value_aggregate by done
        |rewrite parse_value_attribute by done].

Ltac read_checked :=
  match goal with E : is_ok _ = true |- _ => apply is_ok_inv in E; rewrite E end.

Lemma encodable_reads_back bud room v : encodable room bud v = true -> reads_back room bud v.
Proof.
  revert v. induction room as [|room IH]; intros v H r; [done|].
  destruct v; cbn [encodable] in H; cbn [encode_resp3 normalise];
    try destruct format as [[f0 f1] f2];
    unfold line_of, count_line, line_of;
    repeat match goal with
    | H : _ && _ = true |- _ => apply andb_true_iff in H as [? ?]
    end; rewrite <- ?app_assoc;
    try (match goal with |- context [bs ?s ++ ?x] =>
           let t := eval cbv in (bs s) in
           match t with ?c :: [] => change (bs s ++ x) with (c :: x) end end).
  1, 2: dispatch; by rewrite line_line_of.
  - dispatch. rewrite line_line_of by apply graphic_one_line, print_signed_graphic. simpl pbind.
    apply bool_decide_eq_true in H. by rewrite parse_i64_print.
  - by dispatch.
  - done.
  - dispatch. rewrite read_aggregate by done. by rewrite read_items.
  - by destruct t.
  - dispatch. rewrite line_line_of by done. simpl pbind. by read_checked.
  - dispatch. rewrite line_line_of by done. simpl pbind. by read_checked.
  - by dispatch.
  - pose (b := f0 :: f1 :: f2 :: ":"%byte :: data).
    replace (zlen data + 4) with (zlen b) in * by (unfold zlen; simpl; lia).
    change ([f0; f1; f2] ++ bs ":" ++ data ++ [x0d; x0a] ++ r) with (b ++ [x0d; x0a] ++ r).
    by dispatch.
  - dispatch. rewrite read_map by done. by rewrite read_pairs.
  - dispatch. rewrite read_aggregate by done. by rewrite read_items.
  - dispatch. rewrite read_attribute by done. rewrite read_pairs by done. simpl pbind.
    by rewrite (IH v).
  - dispatch. rewrite read_aggregate by done. by rewrite read_items.
Qed.

(** ** Values as they leave the decoder *)

Lemma one_line_line b l r : line b = PDone l r -> one_line l = true.
Proof. intros (_ & ? & ?)%line_spec. by apply one_line_spec. Qed.

Lemma parse_i64_range s z : parse_i64 s = Ok z -> i64_min <= z <= i64_max.
Proof.
  unfold parse_i64. case_decide; [done|]. destruct (from_utf8 s); [|done]. case_decide; [done|].
  unfold parse_signed. destruct (match s with [] => _ | _ => _ end) as [neg body].
  destruct (digits body); simpl; [|done]. case_decide; simpl; [|done]. by intros [= <-].
Qed.

Lemma parse_len_fits s bud what n :
  parse_len s bud what = Ok (Some n) ->
  0 <= n /\ fits n (if decide (what = "bulk"%string) then max_bulk_bytes bud
                    else max_elements bud) = true.
Proof.
  intros E. pose proof (parse_len_bounds _ _ _ _ E) as [Hn Hc]. split; [done|].
  apply fits_spec. split; [done|]. unfold parse_len in E.
  destruct (parse_i64 s) as [m|] eqn:Ei; simpl in E; [|done].
  apply parse_i64_range in Ei. repeat case_decide; simplify_eq; lia.
Qed.

Lemma payload_length n what b data r :
  0 <= n -> payload n what b = PDone data r -> zlen data = n.
Proof.
  intros Hn (-> & _ & Hle)%payload_done. unfold zlen in *. rewrite length_take. lia.
Qed.

(** A result of [p] satisfies [P]. *)
Definition yields {A} (p : bytes -> parsed A) (P : A -> Prop) : Prop :=
  forall b a r, p b = PDone a r -> P a.

Lemma parse_n_yields {A} (p : bytes -> parsed A) P n b xs r :
  yields p P -> parse_n p n b = PDone xs r -> Forall P xs /\ length xs = n.
Proof.
  intros Hp. revert b xs r. induction n as [|n IH]; intros b xs r; simpl.
  { by intros [= <- _]. }
  destruct (p b) as [x r1| |] eqn:E; simpl; [|done..].
  destruct (parse_n p n r1) as [ys r2| |] eqn:E2; simpl; [|done..]. intros [= <- <-].
  apply IH in E2 as [Hf <-]. split; [|done]. constructor; [by eapply Hp|done].
Qed.

Lemma parse_pair_yields pv P :
  yields pv P -> yields (parse_pair pv) (fun kv => P kv.1 /\ P kv.2).
Proof.
  intros Hp b [k w] r. unfold parse_pair. destruct (pv b) as [k' r1| |] eqn:E; simpl; [|done..].
  destruct (pv r1) as [w' r2| |] eqn:E2; simpl; [|done..]. intros [= <- <- _]. by eauto.
Qed.

(** A streamed aggregate stays within [max_elements] and has good elements. *)
Lemma ploop_invariant {St A} (round : St -> bytes -> parsed (St + A)) (I : St -> Prop)
    (Q : A -> Prop) fuel s b a r :
  (forall s b s' r, I s -> round s b = PDone (inl s') r -> I s') ->
  (forall s b a r, I s -> round s b = PDone (inr a) r -> Q a) ->
  I s -> ploop round fuel s b = PDone a r -> Q a.
Proof.
  intros HI HQ. revert s b. induction fuel as [|f IH]; intros s b Hs; simpl; [done|].
  destruct (round s b) as [[s'|a'] r'| |] eqn:E; simpl; [|..|done|done].
  - apply IH. by eapply HI.
  - intros [= <- <-]. by eapply HQ.
Qed.

Lemma parse_streamed_yields {A} bud (p : bytes -> parsed A) P b xs r :
  0 <= max_elements bud -> yields p P -> parse_streamed bud p b = PDone xs r ->
  Forall P xs /\ zlen xs <= max_elements bud.
Proof.
  intros H0 Hp. set (I := fun xs => Forall P xs /\ zlen xs <= max_elements bud).
  apply (ploop_invariant (streamed_round bud p) I I).
  - intros s b' s' r' [Hs Hl]. unfold streamed_round. destruct b' as [|c b']; [done|].
    case_decide.
    { destruct (line b'); simpl; [|done..]. by case_decide. }
    destruct (p (c :: b')) eqn:E; simpl; [|done..]. case_decide; [done|]. intros [= <- _].
    unfold I in *. split; [|lia]. apply Forall_app. split; [done|]. constructor; [by eapply Hp|done].
  - intros s b' a r' [Hs Hl]. unfold streamed_round. destruct b' as [|c b']; [done|].
    case_decide.
    { destruct (line b'); simpl; [|done..]. case_decide; [|done]. by intros [= <- _]. }
    destruct (p (c :: b')); simpl; [|done..]. by case_decide.
  - split; [constructor|done].
Qed.

Lemma bulk_chunks_bound bud b out r :
  0 <= max_bulk_bytes bud -> bulk_chunks bud b = PDone out r -> zlen out <= max_bulk_bytes bud.
Proof.
  intros H0. set (I := fun o : bytes => zlen o <= max_bulk_bytes bud).
  apply (ploop_invariant (chunk_round bud) I I).
  - intros s b' s' r' Hs. unfold chunk_round. destruct b' as [|c b']; [done|].
    case_decide; [|done]. destruct (line b') as [l r1| |]; simpl; [|done..].
    destruct (parse_len l bud "bulk") as [[n|]|] eqn:E; simpl; [|done..].
    apply parse_len_bounds in E as [Hn _]. case_decide; [done|]. case_decide; [done|].
    destruct (payload n _ r1) as [d r2| |] eqn:Ep; simpl; [|done..]. intros [= <- _].
    apply payload_length in Ep; [|done]. unfold I in *. rewrite zlen_app. lia.
  - intros s b' s' r' Hs. unfold chunk_round. destruct b' as [|c b']; [done|].
    case_decide; [|done]. destruct (line b') as [l r1| |]; simpl; [|done..].
    destruct (parse_len l bud "bulk") as [[n|]|] eqn:E; simpl; [|done..].
    case_decide; [by intros [= <- _]|]. case_decide; [done|].
    by destruct (payload n _ r1).
  - done.
Qed.

(** Budgets that fit a machine, as every budget of the program does. *)
Definition sane (bud : Budget) : Prop :=
  0 <= max_elements bud <= i64_max /\ 0 <= max_bulk_bytes bud <= i64_max.

Lemma forallb_Forall {A} (f : A -> bool) l : Forall (fun x => f x = true) l -> forallb f l = true.
Proof. intros H. apply forallb_forall. intros x Hx. rewrite Forall_forall in H. by apply H, list_elem_of_In. Qed.

Lemma parse_line_scalar_encodable room bud tag :
  yields (parse_line_scalar tag) (fun v => encodable (S room) bud v = true).
Proof.
  intros b v r. unfold parse_line_scalar. destruct (line b) as [l r1| |] eqn:E; simpl; [|done..].
  apply one_line_line in E. repeat case_decide; simpl; try (by intros [= <- _]); try done.
  - destruct (parse_i64 l) eqn:Ei; simpl; [|done]. intros [= <- _]. simpl.
    apply bool_decide_eq_true. by eapply parse_i64_range.
  - destruct (validate_double l) eqn:Ed; simpl; [|done]. intros [= <- _]. simpl.
    by rewrite E, Ed.
  - destruct (validate_bignum l) eqn:Ed; simpl; [|done]. intros [= <- _]. simpl.
    by rewrite E, Ed.
Qed.

Lemma parse_blob_encodable room bud tag :
  sane bud -> yields (parse_blob tag bud) (fun v => encodable (S room) bud v = true).
Proof.
  intros [_ [Hb0 Hb1]] b v r. unfold parse_blob.
  destruct (line b) as [hdr r1| |]; simpl; [|done..]. case_decide.
  { destruct (bulk_chunks bud r1) eqn:E; simpl; [|done..]. intros [= <- _]. simpl.
    apply bulk_chunks_bound in E; [|done]. apply fits_spec. lia. }
  destruct (parse_len hdr bud "bulk") as [[n|]|] eqn:El; simpl; [|by intros [= <- _]|done].
  apply parse_len_fits in El as [Hn Hf]. simpl in Hf.
  destruct (payload n _ r1) as [d r2| |] eqn:Ep; simpl; [|done..].
  apply payload_length in Ep; [|done].
  case_decide; [|case_decide]; try (intros [= <- _]; simpl; by rewrite Ep).
  unfold verbatim. destruct d as [|f0 [|f1 [|f2 [|c d]]]]; try done.
  case_decide; [|done]. intros [= <- _]. simpl. rewrite <- Hf, <- Ep. f_equal.
  unfold zlen. simpl. lia.
Qed.

Section aggregates.
Context (room : nat) (bud : Budget) (Hbud : sane bud).
Let good v := encodable room bud v = true.
Context (IH : yields (parse_value room bud) good).

Lemma streamed_encodable {A} (p : bytes -> parsed A) P b xs r :
  yields p P -> parse_streamed bud p b = PDone xs r ->
  Forall P xs /\ fits (zlen xs) (max_elements bud) = true.
Proof.
  destruct Hbud as [[H0 H1] _]. intros Hp E.
  apply (parse_streamed_yields _ _ P) in E as [? ?]; [|done..].
  split; [done|]. apply fits_spec. lia.
Qed.

Lemma counted_encodable {A} (p : bytes -> parsed A) P hdr n b xs r :
  yields p P -> parse_len hdr bud "elements" = Ok (Some n) ->
  parse_n p (Z.to_nat n) b = PDone xs r ->
  Forall P xs /\ fits (zlen xs) (max_elements bud) = true.
Proof.
  intros Hp [Hn Hf]%parse_len_fits E. apply (parse_n_yields _ P) in E as [? El]; [|done].
  split; [done|]. unfold zlen. by rewrite El, Z2Nat.id.
Qed.

Lemma collection_encodable tag vs :
  Forall good vs -> fits (zlen vs) (max_elements bud) = true ->
  encodable (S room) bud (collection tag vs) = true.
Proof.
  intros Hv Hf. unfold collection. apply forallb_Forall in Hv.
  repeat case_decide; simpl; by rewrite Hf, Hv.
Qed.

Lemma pairs_encodable kv :
  Forall (fun kv => good kv.1 /\ good kv.2) kv ->
  forallb (fun p => encodable room bud p.1 && encodable room bud p.2) kv = true.
Proof.
  intros H. apply forallb_Forall. eapply Forall_impl; [exact H|].
  intros [k w] [Hk Hw]. by apply andb_true_iff.
Qed.

Lemma parse_aggregate_encodable tag :
  yields (parse_aggregate (parse_value room bud) bud tag)
    (fun v => encodable (S room) bud v = true).
Proof.
  pose proof (parse_pair_yields _ _ IH) as IHp.
  intros b v r. unfold parse_aggregate. destruct (line b) as [hdr r1| |]; simpl; [|done..].
  case_decide; [case_decide|].
  - destruct (parse_streamed _ _ r1) eqn:E; simpl; [|done..]. intros [= <- _].
    destruct (streamed_encodable _ _ _ _ _ IHp E) as [Hf Hl]. simpl.
    by rewrite Hl, pairs_encodable.
  - destruct (parse_streamed _ _ r1) eqn:E; simpl; [|done..]. intros [= <- _].
    destruct (streamed_encodable _ _ _ _ _ IH E). by apply collection_encodable.
  - destruct (parse_len hdr bud "elements") as [[n|]|] eqn:El; simpl; [|by intros [= <- _]|done].
    case_decide; destruct (parse_n _ _ r1) eqn:E; simpl; try done; intros [= <- _].
    + destruct (counted_encodable _ _ _ _ _ _ _ IHp El E) as [Hf Hl]. simpl.
      by rewrite Hl, pairs_encodable.
    + destruct (counted_encodable _ _ _ _ _ _ _ IH El E). by apply collection_encodable.
Qed.

Lemma parse_attribute_encodable :
  yields (parse_attribute (parse_value room bud) bud)
    (fun v => encodable (S room) bud v = true).
Proof.
  pose proof (parse_pair_yields _ _ IH) as IHp.
  intros b v r. unfold parse_attribute. destruct (line b) as [hdr r1| |]; simpl; [|done..].
  destruct (parse_len hdr bud "elements") as [[n|]|] eqn:El; simpl; [|done..].
  destruct (parse_n _ _ r1) as [kv r2| |] eqn:E; simpl; [|done..].
  destruct (parse_value room bud r2) as [w r3| |] eqn:Ew; simpl; [|done..]. intros [= <- _].
  destruct (counted_encodable _ _ _ _ _ _ _ IHp El E) as [Hf Hl]. simpl.
  rewrite Hl, pairs_encodable by done. by eapply IH.
Qed.
End aggregates.

Lemma decoded_encodable bud room :
  sane bud -> yields (parse_value room bud) (fun v => encodable room bud v = true).
Proof.
  intros Hb. induction room as [|room IH]; intros b v r; [done|].
  destruct b as [|tag b]; [done|]. simpl parse_value.
  destruct (is_line_tag tag); [by apply parse_line_scalar_encodable|].
  destruct (is_blob_tag tag); [by apply parse_blob_encodable|].
  destruct (is_aggregate_tag tag); [by apply parse_aggregate_encodable|].
  case_decide; [by apply parse_attribute_encodable|done].
Qed.

Lemma encodable_depth room bud v : encodable room bud v = true -> (depth v <= room)%nat.
Proof.
  revert v. induction room as [|room IH]; intros v; [done|].
  assert (forall vs, forallb (encodable room bud) vs = true ->
    (max_list (map depth vs) <= room)%nat) as Hvs.
  { intros vs H. apply max_list_le, Forall_fmap, Forall_forall. intros v' Hv'.
    apply IH. rewrite forallb_forall in H. by apply H, list_elem_of_In. }
  assert (forall kv, forallb (fun p => encodable room bud p.1 && encodable room bud p.2) kv = true ->
    (max_list (map (fun '(k, w) => depth k `max` depth w) kv) <= room)%nat) as Hkv.
  { intros kv H. apply max_list_le, Forall_fmap, Forall_forall. intros [k w] Hv'.
    rewrite forallb_forall in H. specialize (H (k, w) (proj1 (list_elem_of_In _ _) Hv')).
    apply andb_true_iff in H as [Hk%IH Hw%IH]. simpl in *. lia. }
  destruct v; cbn [encodable depth]; intros H;
    repeat match goal with
    | H : _ && _ = true |- _ => apply andb_true_iff in H as [? ?]
    end; try lia;
    try (match goal with H : forallb _ _ = true |- _ => first [apply Hvs in H|apply Hkv in H] end);
    try lia.
  match goal with H : encodable _ _ _ = true |- _ => apply IH in H end. lia.
Qed.

(** ** Properties *)

(** C5. Bounds: under a budget no larger than the machine's integers, a decoded
    value is no deeper than [max_depth], its bulks and aggregates are no larger
    than their limits, its integers are in range, its one-line scalars hold no
    line break, and its doubles and big numbers are well-formed. *)
Theorem decode_within_budget d v d' :
  decode d = (Ok (SValue v), d') -> sane (budget d) ->
  encodable (max_depth (budget d)) (budget d) v = true /\
  (depth v <= max_depth (budget d))%nat.
Proof.
  intros (_ & _ & E)%decode_value_inv Hs. apply decoded_encodable in E; [|done].
  split; [done|]. by apply encodable_depth in E.
Qed.

Lemma default_budget_sane : sane default_budget.
Proof. split; split; by vm_compute. Qed.

Lemma decode_within_budget_witness :
  encodable 64 default_budget (VArray [VBulk (bs "a"); VNull NBulk]) = true.
Proof.
  refine (proj1 (decode_within_budget
    (feed with_defaults (bs "*2" ++ crlf ++ bs "$1" ++ crlf ++ bs "a" ++ crlf ++ bs "$-1" ++ crlf))
    _ (mkDecoder [] default_budget) _ _)).
  - vm_compute. reflexivity.
  - split; split; vm_compute; intros [=].
Defined.

(** C4. Round trip: a value that was decoded, re-encoded as normalised RESP3,
    decodes to the same value with every null normalised, consuming exactly the
    bytes written, whatever follows them, if that fits one frame buffer; the
    limits of the budget are within the machine's integers. *)
Theorem reencode_decodes d v d' c :
  decode d = (Ok (SValue v), d') -> sane (budget d) ->
  in_frame (mkDecoder (encode_resp3 v ++ c) (budget d)) ->
  decode (mkDecoder (encode_resp3 v ++ c) (budget d)) =
    (Ok (SValue (normalise v)), mkDecoder c (budget d)).
Proof.
  intros (_ & _ & E)%decode_value_inv Hs Hf. apply decoded_encodable in E; [|done].
  rewrite (decode_in_frame _ Hf). simpl. by rewrite (encodable_reads_back _ _ _ E).
Qed.

Lemma reencode_decodes_witness :
  decode (mkDecoder (encode_resp3 (VMap [(VNull NBulk, VDouble (bs "1.50"))]) ++ bs "+") default_budget)
  = (Ok (SValue (VMap [(VNull NResp3, VDouble (bs "1.50"))])), mkDecoder (bs "+") default_budget).
Proof.
  refine (reencode_decodes
    (feed with_defaults (bs "%1" ++ crlf ++ bs "$-1" ++ crlf ++ bs ",1.50" ++ crlf))
    (VMap [(VNull NBulk, VDouble (bs "1.50"))]) (mkDecoder [] default_budget) _ _ _ _).
  - vm_compute. reflexivity.
  - split; split; vm_compute; intros [=].
  - vm_compute. intros [=].
Defined.
