(* ===== verification/Stream.v ===== *)
(** * Streamed decoding ([crates/pr-protocol/src/stream.rs])

    The streamer walks a frame as events without holding its payloads; the
    reassembler rebuilds the value.  The source's [step] calls itself after an
    internal transition: one transition is [action], and [step] repeats it.
    Stacks have their top first, the queue its front first. *)

From S2P Require Import Prelude Text Value Decoder.

Inductive AggKind := AggArray | AggSet | AggPush | AggMap | AggAttribute.
Inductive ScalarKind := ScalarBulk | ScalarBulkError | ScalarVerbatim (format : byte * byte * byte).

#[export] Instance AggKind_eq_dec : EqDecision AggKind.
Proof. solve_decision. Defined.

Inductive Event :=
| Whole (v : Value)
| ScalarBegin (kind : ScalarKind) (len : option Z)
| ScalarChunk (b : bytes)
| ScalarEnd
| AggregateBegin (kind : AggKind) (len : option Z)
| AggregateEnd
| FrameEnd.

Record StreamBudget := mkStreamBudget {
  stream_above : Z;
  max_streamed_bytes : Z;
}.
Definition default_stream_budget : StreamBudget :=
  mkStreamBudget (1024 * 1024) (2 * 1024 * 1024 * 1024).

Inductive State :=
| AtValue
| Payload (remaining : Z)
| ChunkHeader
| Chunk (remaining : Z).

Record Pending := mkPending {
  pending_kind : AggKind;
  remaining : option Z;
}.

Record Streamer := mkStreamer {
  sbuf : bytes;
  sbudget : Budget;
  stream : StreamBudget;
  stack : list Pending;
  state : State;
  queued : list Event;
  streamed_so_far : Z;
}.

Definition new_streamer (b : Budget) (s : StreamBudget) : Streamer :=
  mkStreamer [] b s [] AtValue [] 0.
Definition default_streamer : Streamer := new_streamer default_budget default_stream_budget.

Definition feed_streamer (s : Streamer) (b : bytes) : Streamer :=
  mkStreamer (sbuf s ++ b) (sbudget s) (stream s) (stack s) (state s) (queued s) (streamed_so_far s).
Definition streamer_buffered (s : Streamer) : Z := zlen (sbuf s).

(** [self.buf.advance], [self.state = ...] and the stack and queue. *)
Definition with_buf (b : bytes) (s : Streamer) : Streamer :=
  mkStreamer b (sbudget s) (stream s) (stack s) (state s) (queued s) (streamed_so_far s).
Definition with_state (t : State) (s : Streamer) : Streamer :=
  mkStreamer (sbuf s) (sbudget s) (stream s) (stack s) t (queued s) (streamed_so_far s).
Definition with_stack (k : list Pending) (q : list Event) (s : Streamer) : Streamer :=
  mkStreamer (sbuf s) (sbudget s) (stream s) k (state s) q (streamed_so_far s).
Definition with_streamed (n : Z) (s : Streamer) : Streamer :=
  mkStreamer (sbuf s) (sbudget s) (stream s) (stack s) (state s) (queued s) n.

(** The loop of [close_completed]: a value finished; close what it completes. *)
Fixpoint close_completed (k : list Pending) (q : list Event) : list Pending * list Event :=
  match k with
  | [] => ([], q ++ [FrameEnd])
  | p :: rest =>
      match remaining p with
      | None => (k, q)
      | Some n =>
          if decide (n - 1 > 0) then (mkPending (pending_kind p) (Some (n - 1)) :: rest, q)
          else close_completed rest (q ++ [AggregateEnd])
      end
  end.

Definition closing (s : Streamer) : Streamer :=
  let '(k, q) := close_completed (stack s) (queued s) in with_stack k q s.

Definition finish_value (e : Event) (s : Streamer) : Streamer :=
  closing (with_stack (stack s) (queued s ++ [e]) s).

(** What one transition does: return an event, go on, or stop. *)
Inductive action :=
| Emit (e : Event) (s : Streamer)
| Again (s : Streamer)
| Wait
| Refuse (e : DecodeError) (s : Streamer).

(** [need!] and [?] inside a transition of [s]. *)
Definition abind {A : Type} (s : Streamer) (m : parsed A) (k : A -> bytes -> action) : action :=
  match m with
  | PDone a r => k a r
  | PMore => Wait
  | PFail e => Refuse e s
  end.
Definition acheck {A : Type} (s : Streamer) (m : result DecodeError A) (k : A -> action) : action :=
  match m with
  | Ok a => k a
  | Err e => Refuse e s
  end.

Definition continue_payload (todo : Z) (streamed : bool) (s : Streamer) : action :=
  if decide (todo = 0) then
    if decide (zlen (sbuf s) < 2) then Wait
    else if decide (take 2 (sbuf s) <> crlf) then Refuse (Protocol "bulk not CRLF terminated") s
    else
      let s1 := with_buf (drop 2 (sbuf s)) s in
      if streamed then Again (with_state ChunkHeader s1)
      else Again (finish_value ScalarEnd (with_state AtValue s1))
  else if decide (sbuf s = []) then Wait
  else
    let n := Z.min todo (zlen (sbuf s)) in
    let chunk := take (Z.to_nat n) (sbuf s) in
    let s1 := with_buf (drop (Z.to_nat n) (sbuf s)) s in
    Emit (ScalarChunk chunk)
      (with_state (if streamed then Chunk (todo - n) else Payload (todo - n)) s1).

Definition chunk_header (s : Streamer) : action :=
  match sbuf s with
  | [] => Wait
  | c :: r =>
      if decide (c = ";"%byte) then
        abind s (line r) (fun hdr r' =>
        acheck s (parse_i64 hdr) (fun n =>
          if decide (n < 0) then Refuse (Protocol "streamed chunk length cannot be null") s
          else
            let s1 := with_streamed (Z.min usize_max (streamed_so_far s + n)) s in
            if decide (streamed_so_far s1 > max_streamed_bytes (stream s1))
            then Refuse (OverBudget "bulk") s1
            else
              let s2 := with_buf r' s1 in
              if decide (n = 0) then Again (finish_value ScalarEnd (with_state AtValue s2))
              else Again (with_state (Chunk n) s2)))
      else Refuse (Protocol "streamed chunk must start with ';'") s
  end.

Definition agg_kind (tag : byte) : AggKind :=
  if decide (tag = "*"%byte) then AggArray
  else if decide (tag = "~"%byte) then AggSet
  else if decide (tag = ">"%byte) then AggPush
  else if decide (tag = "%"%byte) then AggMap
  else AggAttribute.

(** The child values of an aggregate of [n] ([checked_mul], [checked_add]). *)
Definition children (kind : AggKind) (n : Z) : option Z :=
  let c := match kind with
           | AggMap => 2 * n
           | AggAttribute => 2 * n + 1
           | _ => n
           end in
  if decide (c <= usize_max) then Some c else None.

Definition open_aggregate (tag : byte) (r : bytes) (s : Streamer) : action :=
  if decide (max_depth (sbudget s) <= length (stack s))%nat then Refuse (OverBudget "depth") s
  else
    abind s (line r) (fun hdr r' =>
      let kind := agg_kind tag in
      let s1 := with_buf r' s in
      if decide (hdr = bs "?") then
        if decide (kind = AggAttribute) then Refuse (Protocol "unknown type byte") s
        else Emit (AggregateBegin kind None)
               (with_stack (mkPending kind None :: stack s1) (queued s1) s1)
      else
        acheck s (parse_len hdr (sbudget s) "elements") (fun len =>
          match len with
          | None =>
              if decide (kind = AggAttribute)
              then Refuse (Protocol "attribute length cannot be null") s
              else Again (finish_value (Whole (VNull NArray)) s1)
          | Some n =>
              match children kind n with
              | None => Refuse (OverBudget "elements") s1
              | Some c =>
                  let q := queued s1 ++ [AggregateBegin kind (Some n)] in
                  if decide (c = 0)
                  then Again (closing (with_stack (stack s1) (q ++ [AggregateEnd]) s1))
                  else Again (with_stack (mkPending kind (Some c) :: stack s1) q s1)
              end
          end)).

(** A value decoded whole, by the decoder's own parser. *)
Definition whole_value (s : Streamer) : action :=
  abind s (parse_value (max_depth (sbudget s) - length (stack s)) (sbudget s) (sbuf s)) (fun v r =>
    Again (finish_value (Whole v) (with_buf r s))).

(** A scalar of [n] bytes, too large to hold; [r] follows its header. *)
Definition begin_payload (tag : byte) (n : Z) (r : bytes) (s : Streamer) : action :=
  let start kind size r' :=
    Emit (ScalarBegin kind (Some size)) (with_state (Payload size) (with_buf r' s)) in
  if decide (tag = "$"%byte) then start ScalarBulk n r
  else if decide (tag = "!"%byte) then start ScalarBulkError n r
  else if decide (n < 4) then Refuse (Protocol "verbatim needs `xxx:` prefix") s
  else
    match r with
    | f0 :: f1 :: f2 :: c :: r' =>
        if decide (c = ":"%byte) then start (ScalarVerbatim (f0, f1, f2)) (n - 4) r'
        else Refuse (Protocol "verbatim needs `xxx:` prefix") s
    | _ => Wait
    end.

Definition open_scalar (tag : byte) (r : bytes) (s : Streamer) : action :=
  abind s (line r) (fun hdr r' =>
    if decide (tag = "$"%byte /\ hdr = bs "?") then
      Emit (ScalarBegin ScalarBulk None)
        (with_state ChunkHeader (with_streamed 0 (with_buf r' s)))
    else
      acheck s (parse_i64 hdr) (fun n =>
        if decide (n = -1) then Again (finish_value (Whole (VNull NBulk)) (with_buf r' s))
        else if decide (n < 0) then Refuse (Protocol "negative length") s
        else if decide (n > max_streamed_bytes (stream s)) then Refuse (OverBudget "bulk") s
        else if decide (n < stream_above (stream s)) then whole_value s
        else begin_payload tag n r' s)).

(** The top of the stack is a streamed aggregate. *)
Definition top_streamed (s : Streamer) : bool :=
  match stack s with
  | p :: _ => bool_decide (remaining p = None)
  | [] => false
  end.

Definition next_value (s : Streamer) : action :=
  match sbuf s with
  | [] => Wait
  | tag :: r =>
      if decide (tag = "."%byte /\ top_streamed s = true) then
        abind s (line r) (fun rest r' =>
          if decide (rest = []) then
            Again (closing (with_stack (tail (stack s)) (queued s ++ [AggregateEnd]) (with_buf r' s)))
          else Refuse (Protocol "streamed terminator takes no payload") s)
      else if is_aggregate_tag tag || bool_decide (tag = "|"%byte) then open_aggregate tag r s
      else if is_blob_tag tag then open_scalar tag r s
      else whole_value s
  end.

Definition act (s : Streamer) : action :=
  match queued s with
  | e :: q => Emit e (with_stack (stack s) q s)
  | [] =>
      match state s with
      | Payload n => continue_payload n false s
      | Chunk n => continue_payload n true s
      | ChunkHeader => chunk_header s
      | AtValue => next_value s
      end
  end.

Inductive SStep :=
| SEvent (e : Event)
| SIncomplete.

(** Every [Again] consumes input ([StreamFacts.act_again]), so one unit of fuel
    per byte and one more are enough. *)
Fixpoint step_fuel (fuel : nat) (s : Streamer) : result DecodeError SStep * Streamer :=
  match fuel with
  | O => (Ok SIncomplete, s)
  | S f =>
      match act s with
      | Emit e s' => (Ok (SEvent e), s')
      | Again s' => step_fuel f s'
      | Wait => (Ok SIncomplete, s)
      | Refuse e s' => (Err e, s')
      end
  end.
Definition step (s : Streamer) : result DecodeError SStep * Streamer :=
  step_fuel (S (length (sbuf s))) s.

(** ** Reassembling *)

Record Reassembler := mkReassembler {
  rstack : list (AggKind * list Value);
  scalar : option (ScalarKind * bytes);
  done_value : option Value;
}.
Definition new_reassembler : Reassembler := mkReassembler [] None None.

(** [Reassembler::value]. *)
Definition give (v : Value) (r : Reassembler) : Reassembler :=
  match rstack r with
  | (k, items) :: rest => mkReassembler ((k, items ++ [v]) :: rest) (scalar r) (done_value r)
  | [] => mkReassembler [] (scalar r) (Some v)
  end.

Fixpoint pairs (items : list Value) : result DecodeError (list (Value * Value)) :=
  match items with
  | [] => Ok []
  | k :: v :: r => let? kv := pairs r in Ok ((k, v) :: kv)
  | [_] => Err (Protocol "odd number of map entries")
  end.

Definition finish_aggregate (kind : AggKind) (items : list Value) : result DecodeError Value :=
  match kind with
  | AggArray => Ok (VArray items)
  | AggSet => Ok (VSet items)
  | AggPush => Ok (VPush items)
  | AggMap => let? kv := pairs items in Ok (VMap kv)
  | AggAttribute =>
      match last items with
      | None => Err (Protocol "attribute with no value")
      | Some v => let? kv := pairs (removelast items) in Ok (VAttribute kv v)
      end
  end.

Definition scalar_value (kind : ScalarKind) (data : bytes) : Value :=
  match kind with
  | ScalarBulk => VBulk data
  | ScalarBulkError => VBulkError data
  | ScalarVerbatim f => VVerbatim f data
  end.

Definition push_event (e : Event) (r : Reassembler) : result DecodeError unit * Reassembler :=
  match e with
  | Whole v => (Ok tt, give v r)
  | ScalarBegin kind _ => (Ok tt, mkReassembler (rstack r) (Some (kind, [])) (done_value r))
  | ScalarChunk b =>
      match scalar r with
      | None => (Err (Protocol "chunk outside a scalar"), r)
      | Some (kind, data) =>
          (Ok tt, mkReassembler (rstack r) (Some (kind, data ++ b)) (done_value r))
      end
  | ScalarEnd =>
      match scalar r with
      | None => (Err (Protocol "scalar end outside a scalar"), r)
      | Some (kind, data) =>
          (Ok tt, give (scalar_value kind data) (mkReassembler (rstack r) None (done_value r)))
      end
  | AggregateBegin kind _ =>
      (Ok tt, mkReassembler ((kind, []) :: rstack r) (scalar r) (done_value r))
  | AggregateEnd =>
      match rstack r with
      | [] => (Err (Protocol "aggregate end with none open"), r)
      | (kind, items) :: rest =>
          let r1 := mkReassembler rest (scalar r) (done_value r) in
          match finish_aggregate kind items with
          | Ok v => (Ok tt, give v r1)
          | Err e => (Err e, r1)
          end
      end
  | FrameEnd => (Ok tt, r)
  end.

(** [Reassembler::take]. *)
Definition take_value (r : Reassembler) : option Value * Reassembler :=
  (done_value r, mkReassembler (rstack r) (scalar r) None).

(** The loop of [decode_by_streaming]; when the streamer waits, the next chunk
    is fed to it.  Also returns what was not read. *)
Fixpoint drive (fuel : nat) (s : Streamer) (r : Reassembler) (chunks : list bytes)
  : result DecodeError (option Value) * bytes :=
  match fuel with
  | O => (Ok None, sbuf s ++ concat chunks)
  | S f =>
      match step s with
      | (Err e, s') => (Err e, sbuf s' ++ concat chunks)
      | (Ok SIncomplete, s') =>
          match chunks with
          | [] => (Ok None, sbuf s')
          | c :: cs => drive f (feed_streamer s' c) r cs
          end
      | (Ok (SEvent e), s') =>
          match push_event e r with
          | (Err x, _) => (Err x, sbuf s' ++ concat chunks)
          | (Ok _, r') =>
              match e with
              | FrameEnd => ((Ok (take_value r').1), sbuf s' ++ concat chunks)
              | _ => drive f s' r' chunks
              end
          end
      end
  end.

(** Every event costs input or a place in the queue or the stack
    ([StreamFacts.act_cost]). *)
Definition drive_fuel (chunks : list bytes) : nat :=
  S (length chunks + 4 * length (concat chunks)).

Definition decode_by_streaming (b : bytes) (bud : Budget) (sb : StreamBudget)
  : result DecodeError (option Value) :=
  (drive (drive_fuel [b]) (feed_streamer (new_streamer bud sb) b) new_reassembler []).1.

Definition decode_by_value (b : bytes) (bud : Budget) : result DecodeError (option Value) :=
  match decode (feed (new bud) b) with
  | (Ok (SValue v), _) => Ok (Some v)
  | (Ok Incomplete, _) => Ok None
  | (Err e, _) => Err e
  end.

(** A frame that arrives in chunks, streamed as they come. *)
Definition stream_chunks (chunks : list bytes) (bud : Budget) (sb : StreamBudget)
  : result DecodeError (option Value) * bytes :=
  drive (drive_fuel chunks) (new_streamer bud sb) new_reassembler chunks.

Example streams_array :
  decode_by_streaming (bs "*2" ++ crlf ++ bs ":1" ++ crlf ++ bs "$3" ++ crlf ++ bs "abc" ++ crlf)
    default_budget (mkStreamBudget 2 100) = Ok (Some (VArray [VInteger 1; VBulk (bs "abc")])).
Proof. vm_compute. reflexivity. Qed.

Example streams_chunks :
  stream_chunks [bs "*2" ++ [x0d]; [x0a] ++ bs ":1" ++ crlf ++ bs "=8" ++ crlf ++ bs "tx"; bs "t:ab";
                 bs "cd" ++ [x0d]; [x0a] ++ bs "+x"]
    default_budget (mkStreamBudget 2 100) =
  (Ok (Some (VArray [VInteger 1; VVerbatim ("t", "x", "t")%byte (bs "abcd")])), bs "+x").
Proof. vm_compute. reflexivity. Qed.
