(* ===== verification/StreamFacts.v ===== *)
(** * The streamer reassembles what the decoder returns

    A world is a streamer, a reassembler and the chunks still to arrive.  The
    driver moves from world to world; a value of the decoder's grammar moves the
    streamer from before the value to after it, and gives the value to the
    reassembler, wherever the chunks are cut. *)

From stdpp Require Import relations.
From S2P Require Import Prelude Text Value Decoder DecoderFacts Framing Roundtrip Stream.

(** ** Fuel *)

Lemma close_completed_acc k q :
  close_completed k q = ((close_completed k []).1, q ++ (close_completed k []).2).
Proof.
  revert q. induction k as [|p k IH]; intros q; cbn [close_completed]; [done|].
  destruct (remaining p) as [n|]; [|by rewrite app_nil_r].
  case_decide; [by rewrite app_nil_r|]. rewrite IH, (IH ([] ++ _)). cbn [fst snd].
  by rewrite <- app_assoc.
Qed.

(** What a streamer may still do without input: four units per byte. *)
Definition cost (s : Streamer) : nat :=
  (4 * length (sbuf s) + length (queued s) + 2 * length (stack s))%nat.

Lemma close_completed_cost k q :
  (length (close_completed k q).2 + 2 * length (close_completed k q).1
   <= length q + 2 * length k + 1)%nat.
Proof.
  revert q. induction k as [|p k IH]; intros q; cbn [close_completed].
  - cbn. rewrite length_app. cbn. lia.
  - destruct (remaining p) as [n|]; [|cbn; lia]. case_decide; [cbn; lia|].
    etransitivity; [apply IH|]. rewrite length_app. cbn. lia.
Qed.

Lemma closing_cost s : (cost (closing s) <= cost s + 1)%nat.
Proof.
  unfold closing, cost. pose proof (close_completed_cost (stack s) (queued s)).
  destruct (close_completed _ _). cbn in *. lia.
Qed.
Lemma closing_buf s : sbuf (closing s) = sbuf s.
Proof. unfold closing. by destruct (close_completed _ _). Qed.
Lemma finish_value_cost e s : (cost (finish_value e s) <= cost s + 2)%nat.
Proof.
  unfold finish_value. etransitivity; [apply closing_cost|].
  unfold cost. cbn. rewrite length_app. cbn. lia.
Qed.
Lemma finish_value_buf e s : sbuf (finish_value e s) = sbuf s.
Proof. unfold finish_value. by rewrite closing_buf. Qed.

Lemma closing_state s : state (closing s) = state s.
Proof. unfold closing. by destruct (close_completed _ _). Qed.
Lemma finish_value_state e s : state (finish_value e s) = state s.
Proof. unfold finish_value. by rewrite closing_state. Qed.

(** A count of bytes to come is not negative ([usize]). *)
Definition counted (s : Streamer) : Prop :=
  match state s with
  | Payload n | Chunk n => 0 <= n
  | _ => True
  end.

(** What the two kinds of progress cost. *)
Definition cheaper (s : Streamer) (a : action) : Prop :=
  match a with
  | Again s' => (length (sbuf s') < length (sbuf s))%nat /\ (cost s' <= cost s)%nat /\ counted s'
  | Emit _ s' => (cost s' < cost s)%nat /\ counted s'
  | _ => True
  end.

Lemma cheaper_bind {A} s (p : bytes -> parsed A) b k :
  advances p ->
  (forall a r, (length r <= length b)%nat -> cheaper s (k a r)) -> cheaper s (abind s (p b) k).
Proof.
  intros Hp Hk. destruct (p b) as [a r| |e] eqn:E; cbn [abind cheaper]; try done.
  apply Hk. by eapply advances_length.
Qed.
Lemma cheaper_check {A} s (m : result DecodeError A) k :
  (forall a, m = Ok a -> cheaper s (k a)) -> cheaper s (acheck s m k).
Proof. intros Hk. destruct m; cbn [acheck]; [by apply Hk|done]. Qed.

Lemma line_advances : advances line.
Proof. auto with parser. Qed.

Ltac cheap :=
  cbn [cheaper]; repeat split; unfold counted in *;
  repeat rewrite ?closing_buf, ?finish_value_buf, ?closing_state, ?finish_value_state;
  repeat match goal with
  | |- context [cost (closing ?s)] => pose proof (closing_cost s); generalize dependent (closing s); intros
  | |- context [cost (finish_value ?e ?s)] =>
      pose proof (finish_value_cost e s); generalize dependent (finish_value e s); intros
  end;
  unfold cost in *; cbn in *;
  try match goal with E : sbuf _ = _ |- _ => rewrite E in *; cbn in * end;
  rewrite ?length_app, ?length_drop in *; cbn in *; try (done || lia).

Lemma continue_payload_cheaper n b s : 0 <= n -> cheaper s (continue_payload n b s).
Proof.
  intros Hn. unfold continue_payload. case_decide as H0.
  - case_decide as Hl; [done|]. case_decide; [done|]. unfold zlen in Hl.
    destruct b; cheap.
  - case_decide as Hb; [done|].
    assert ((1 <= Z.to_nat (Z.min n (zlen (sbuf s))))%nat /\ Z.min n (zlen (sbuf s)) <= n
            /\ (1 <= length (sbuf s))%nat) as (? & ? & ?).
    { unfold zlen. destruct (sbuf s); [done|]. cbn. lia. }
    destruct b; cheap.
Qed.

Lemma chunk_header_cheaper s : cheaper s (chunk_header s).
Proof.
  unfold chunk_header. destruct (sbuf s) as [|c r] eqn:E; [done|]. case_decide; [|done].
  apply cheaper_bind; [apply line_advances|]. intros hdr r' Hr.
  apply cheaper_check. intros n _. case_decide; [done|]. case_decide; [done|].
  case_decide; cheap.
Qed.

Lemma whole_value_cheaper s : counted s -> cheaper s (whole_value s).
Proof.
  intros Hs. unfold whole_value, abind. destruct (parse_value _ _ _) as [v r| |] eqn:E; try done.
  apply consumes_length in E; [|apply parse_value_consumes]. cheap.
Qed.

Lemma open_aggregate_cheaper tag r s : counted s -> sbuf s = tag :: r -> cheaper s (open_aggregate tag r s).
Proof.
  intros Hs E. unfold open_aggregate. case_decide; [done|].
  apply cheaper_bind; [apply line_advances|]. intros hdr r' Hr.
  case_decide; [case_decide; [done|]; cheap|].
  apply cheaper_check. intros [n|] _.
  - destruct (children _ _) as [c|]; [|done]. case_decide; cheap.
  - case_decide; [done|]. cheap.
Qed.

Lemma open_scalar_cheaper tag r s : counted s -> sbuf s = tag :: r -> cheaper s (open_scalar tag r s).
Proof.
  intros Hs E. unfold open_scalar.
  apply cheaper_bind; [apply line_advances|]. intros hdr r' Hr.
  case_decide; [cheap|].
  apply cheaper_check. intros n _.
  case_decide; [cheap|]. case_decide; [done|]. case_decide; [done|].
  case_decide; [by apply whole_value_cheaper|].
  unfold begin_payload. repeat (case_decide || case_match); simplify_eq; try done;
    cheap.
Qed.

Lemma next_value_cheaper s : counted s -> cheaper s (next_value s).
Proof.
  intros Hs. unfold next_value. destruct (sbuf s) as [|tag r] eqn:E; [done|]. case_decide as Ht.
  - apply cheaper_bind; [apply line_advances|]. intros l r' Hr. case_decide; [|done].
    destruct Ht as [_ Ht]. unfold top_streamed in Ht.
    destruct (stack s) as [|p k] eqn:Ek; [done|]. cheap; rewrite Ek; cbn; lia.
  - case_match; [by apply open_aggregate_cheaper|].
    case_match; [by apply open_scalar_cheaper|by apply whole_value_cheaper].
Qed.

Lemma act_cheaper s : counted s -> cheaper s (act s).
Proof.
  intros Hs. unfold act. destruct (queued s) as [|e q] eqn:Eq.
  - pose proof Hs as Hc. unfold counted in Hc. destruct (state s).
    + by apply next_value_cheaper.
    + by apply continue_payload_cheaper.
    + apply chunk_header_cheaper.
    + by apply continue_payload_cheaper.
  - cheap. rewrite Eq. cbn. lia.
Qed.

Lemma step_fuel_enough f f' s :
  counted s -> (length (sbuf s) < f)%nat -> (length (sbuf s) < f')%nat ->
  step_fuel f s = step_fuel f' s.
Proof.
  revert f' s. induction f as [|f IH]; intros [|f'] s Hs Hf Hf'; try lia. cbn [step_fuel].
  pose proof (act_cheaper s Hs) as Hc. destruct (act s); try done.
  destruct Hc as (? & _ & ?). apply IH; [done|lia..].
Qed.

(** [step] repeats transitions until one answers: fuel is never used up. *)
Lemma step_unroll s : counted s ->
  step s = match act s with
           | Emit e s' => (Ok (SEvent e), s')
           | Again s' => step s'
           | Wait => (Ok SIncomplete, s)
           | Refuse e s' => (Err e, s')
           end.
Proof.
  intros Hs. unfold step at 1. cbn [step_fuel].
  pose proof (act_cheaper s Hs) as Hc. destruct (act s); try done.
  destruct Hc as (? & _ & ?). apply step_fuel_enough; [done|lia..].
Qed.

(** ** Worlds *)

Record world := mkWorld {
  streamer : Streamer;
  reassembler : Reassembler;
  arriving : list bytes;
}.

Inductive move : world -> world -> Prop :=
| move_again s s' r cs : act s = Again s' -> move (mkWorld s r cs) (mkWorld s' r cs)
| move_emit s e s' r r' cs :
    act s = Emit e s' -> e <> FrameEnd -> push_event e r = (Ok tt, r') ->
    move (mkWorld s r cs) (mkWorld s' r' cs)
| move_feed s r c cs :
    act s = Wait -> move (mkWorld s r (c :: cs)) (mkWorld (feed_streamer s c) r cs).

Definition moves : world -> world -> Prop := rtc move.

Definition world_cost (w : world) : nat :=
  (cost (streamer w) + 4 * length (concat (arriving w)) + length (arriving w))%nat.

Definition drive_world (f : nat) (w : world) := drive f (streamer w) (reassembler w) (arriving w).

Lemma move_counted w w' : move w w' -> counted (streamer w) -> counted (streamer w').
Proof.
  intros H Hs. pose proof (act_cheaper _ Hs) as Hc. destruct H as [? ? ? ? E|? ? ? ? ? ? E|? ? ? ? E];
    cbn [streamer] in *; rewrite E in Hc; cbn in Hc; try apply Hc. done.
Qed.

(** A move costs what it spends, and the driver makes it. *)
Lemma move_drive w w' f :
  move w w' -> counted (streamer w) -> (world_cost w < f)%nat ->
  exists f', (world_cost w' < f')%nat /\ drive_world f w = drive_world f' w'.
Proof.
  intros H Hs Hf. pose proof (act_cheaper _ Hs) as Hc.
  destruct H as [s s' r cs E|s e s' r r' cs E He Hp|s r c cs E]; cbn [streamer] in *;
    rewrite E in Hc; unfold drive_world, world_cost in *;
    cbn [streamer reassembler arriving cheaper] in *.
  - exists f. destruct Hc as (_ & ? & ?). split; [lia|].
    destruct f as [|f]; [lia|]. cbn [drive]. by rewrite (step_unroll s), E.
  - destruct f as [|f]; [lia|]. exists f. destruct Hc as [? _]. split; [lia|]. cbn [drive].
    rewrite (step_unroll s), E, Hp by done. by destruct e.
  - destruct f as [|f]; [lia|]. exists f. split.
    + unfold cost in *. cbn [sbuf queued stack feed_streamer concat length] in *.
      rewrite !length_app in *. lia.
    + cbn [drive]. by rewrite (step_unroll s), E.
Qed.

Lemma moves_drive w w' f :
  moves w w' -> counted (streamer w) -> (world_cost w < f)%nat ->
  exists f', counted (streamer w') /\ (world_cost w' < f')%nat /\ drive_world f w = drive_world f' w'.
Proof.
  intros H. revert f. induction H as [w|w w1 w2 H _ IH]; intros f Hs Hf; [by exists f|].
  destruct (move_drive _ _ f H Hs Hf) as (f' & Hf' & ->).
  apply IH; [by eapply move_counted|done].
Qed.

Lemma moves_again s s' r cs w :
  act s = Again s' -> moves (mkWorld s' r cs) w -> moves (mkWorld s r cs) w.
Proof. intros. eapply rtc_l; [by apply move_again|done]. Qed.
Lemma moves_emit s e s' r r' cs w :
  act s = Emit e s' -> e <> FrameEnd -> push_event e r = (Ok tt, r') ->
  moves (mkWorld s' r' cs) w -> moves (mkWorld s r cs) w.
Proof. intros. eapply rtc_l; [by eapply move_emit|done]. Qed.

(** Until the bytes [u] a transition needs have arrived, the streamer waits. *)
Lemma moves_arrive s r u rest :
  (forall b c, b ++ c = u -> c <> [] -> act (with_buf b s) = Wait) ->
  forall buf cs, buf ++ concat cs = u ++ rest ->
  exists x cs', x ++ concat cs' = rest /\
    moves (mkWorld (with_buf buf s) r cs) (mkWorld (with_buf (u ++ x) s) r cs').
Proof.
  intros Hw buf cs. revert buf. induction cs as [|c cs IH]; intros buf E.
  - cbn [concat] in E. rewrite app_nil_r in E. subst. exists rest, []. cbn [concat].
    rewrite app_nil_r. split; [done|apply rtc_refl].
  - apply app_eq_inv in E as E'. destruct E' as [(k & -> & E')|(k & -> & E')].
    + exists k, (c :: cs). split; [done|apply rtc_refl].
    + destruct k as [|y k].
      { exists [], (c :: cs). rewrite !app_nil_r. cbn [app] in E'. by split; [|apply rtc_refl]. }
      destruct (IH (buf ++ c)) as (x & cs' & Ex & Hm).
      { rewrite <- app_assoc. done. }
      exists x, cs'. split; [done|]. eapply rtc_l; [|exact Hm].
      apply (move_feed (with_buf buf s)). by eapply Hw.
Qed.

(** A parser that is stable asks for more on every proper part of its input. *)
Lemma stable_prefix {A} (p : bytes -> parsed A) b c a :
  stable p -> p (b ++ c) = PDone a [] -> c <> [] -> p b = PMore.
Proof.
  intros Hp E Hc. specialize (Hp b c). rewrite E in Hp. destruct (p b) as [a' r| |e]; [|done|done].
  cbn in Hp. injection Hp as _ Hr. symmetry in Hr. by apply app_eq_nil in Hr as [_ ?].
Qed.

(** ** Sequences of values in the decoder's grammar *)

Inductive elements (pv : bytes -> parsed Value) : bytes -> list Value -> Prop :=
| elements_nil : elements pv [] []
| elements_cons u v us vs :
    pv u = PDone v [] -> elements pv us vs -> elements pv (u ++ us) (v :: vs).

Lemma elements_app pv u vs u' vs' :
  elements pv u vs -> elements pv u' vs' -> elements pv (u ++ u') (vs ++ vs').
Proof.
  intros H H'. induction H as [|u v us vs Hu _ IH]; [done|].
  rewrite <- app_assoc. by constructor.
Qed.

(** Each result [a] of [p] is written as the values [f a]. *)
Definition spells (pv : bytes -> parsed Value) {A : Type} (p : bytes -> parsed A) (f : A -> list Value)
  : Prop := forall b a r, p b = PDone a r -> exists u, b = u ++ r /\ elements pv u (f a).

Section spelling.
Context (pv : bytes -> parsed Value) (Hc : consumes pv) (Hl : local pv).

Lemma spells_value : spells pv pv (fun v => [v]).
Proof.
  intros b v r E. destruct (Hc _ _ _ E) as (u & -> & _). exists u. split; [done|].
  rewrite <- (app_nil_r u). constructor; [|constructor].
  specialize (Hl u v r E []). by rewrite app_nil_r in Hl.
Qed.

Lemma spells_pair : spells pv (parse_pair pv) (fun '(k, v) => [k; v]).
Proof.
  intros b [k v] r. unfold parse_pair. destruct (pv b) as [k' r1| |] eqn:E1; cbn [pbind]; [|done..].
  destruct (pv r1) as [v' r2| |] eqn:E2; cbn [pbind]; [|done..]. intros [= <- <- <-].
  apply spells_value in E1 as (u1 & -> & H1). apply spells_value in E2 as (u2 & -> & H2).
  exists (u1 ++ u2). rewrite <- app_assoc. split; [done|]. exact (elements_app _ _ [k'] _ [v'] H1 H2).
Qed.

Context {A : Type} (p : bytes -> parsed A) (f : A -> list Value) (Hp : spells pv p f).

Lemma spells_n n : spells pv (parse_n p n) (fun xs => xs ≫= f).
Proof.
  induction n as [|n IH]; intros b xs r; cbn [parse_n].
  - intros [= <- <-]. exists []. by split; [|constructor].
  - destruct (p b) as [x r1| |] eqn:E1; cbn [pbind]; [|done..].
    destruct (parse_n p n r1) as [ys r2| |] eqn:E2; cbn [pbind]; [|done..]. intros [= <- <-].
    apply Hp in E1 as (u1 & -> & H1). apply IH in E2 as (u2 & -> & H2).
    exists (u1 ++ u2). rewrite <- app_assoc. split; [done|]. by apply elements_app.
Qed.

(** A streamed aggregate: its elements, then a [.] line. *)
Lemma streamed_spells b fuel acc xs r :
  ploop (streamed_round b p) fuel acc r = PDone xs [] ->
  exists u ys, r = u ++ "."%byte :: crlf /\ xs = acc ++ ys /\ elements pv u (ys ≫= f).
Proof.
  revert acc r. induction fuel as [|fuel IH]; intros acc r; [done|]. rewrite ploop_S.
  destruct r as [|c r]; [done|]. cbn [streamed_round]. case_decide as Hd.
  - destruct (line r) as [l r1| |] eqn:El; cbn [pbind]; [|done..].
    case_decide; [|done]. cbn [pbind]. intros [= <- ->]. apply line_spec in El as [-> _].
    subst. exists [], []. rewrite !app_nil_r. split; [done|]. split; [done|exact (elements_nil pv)].
  - destruct (p (c :: r)) as [x r1| |] eqn:E1; cbn [pbind]; [|done..]. case_decide; [done|]. cbn [pbind].
    intros Hrest. apply IH in Hrest as (u & ys & -> & -> & H2). apply Hp in E1 as (u1 & -> & H1).
    exists (u1 ++ u), (x :: ys). rewrite <- !app_assoc. split; [done|]. split; [done|].
    by apply elements_app.
Qed.
End spelling.

Lemma pairs_spelled kv : pairs (kv ≫= (fun '(k, v) => [k; v])) = Ok kv.
Proof. induction kv as [|[k v] kv IH]; [done|]. cbn in *. by rewrite IH. Qed.

Lemma bind_singleton {A} (xs : list A) : xs ≫= (fun x => [x]) = xs.
Proof. induction xs as [|x xs IH]; [done|]. cbn in *. by rewrite IH. Qed.

(** ** Reading one value

    [bud] and [sb] are the streamer's budgets, [big] the decoder's: the same
    depth and elements, and bulk strings as large as the streamer accepts. *)

Section reading.
Context (bud big : Budget) (sb : StreamBudget).
Context (Hdepth : max_depth big = max_depth bud) (Helements : max_elements big = max_elements bud).
Context (Hbulk : max_bulk_bytes big <= max_streamed_bytes sb).
Context (Hsmall : Z.min (stream_above sb - 1) (max_bulk_bytes big) <= max_bulk_bytes bud).

(** A streamer with nothing queued. *)
Definition reading (fs : list Pending) (t : State) (buf : bytes) (n : Z) : Streamer :=
  mkStreamer buf bud sb fs t [] n.

(** The world once a value has been given and the aggregates it completes are
    about to close. *)
Definition after (v : Value) (fs : list Pending) (rs : list (AggKind * list Value))
  (d : option Value) (buf : bytes) (n : Z) (cs : list bytes) : world :=
  mkWorld (mkStreamer buf bud sb (close_completed fs []).1 AtValue (close_completed fs []).2 n)
    (give v (mkReassembler rs None d)) cs.

(** From a streamer in state [t], the bytes [u] are read as the value [v]. *)
Definition reads_from (t : State) (sc : option (ScalarKind * bytes)) (fs : list Pending)
  (rs : list (AggKind * list Value)) (u : bytes) (v : Value) (n : Z) : Prop :=
  forall d buf cs rest, buf ++ concat cs = u ++ rest ->
  exists n' buf' cs', buf' ++ concat cs' = rest /\
    moves (mkWorld (reading fs t buf n) (mkReassembler rs sc d) cs) (after v fs rs d buf' n' cs').

Definition reads_as (fs : list Pending) (rs : list (AggKind * list Value)) (u : bytes) (v : Value)
  : Prop := forall n, reads_from AtValue None fs rs u v n.

Lemma finish_reading e fs buf n :
  finish_value e (reading fs AtValue buf n) =
  mkStreamer buf bud sb (close_completed fs []).1 AtValue (e :: (close_completed fs []).2) n.
Proof.
  unfold finish_value, closing. cbn. rewrite close_completed_acc. done.
Qed.

Lemma finish_whole s v fs rs d buf n cs :
  act s = Again (finish_value (Whole v) (reading fs AtValue buf n)) ->
  moves (mkWorld s (mkReassembler rs None d) cs) (after v fs rs d buf n cs).
Proof.
  intros E. eapply moves_again; [exact E|]. rewrite finish_reading.
  eapply moves_emit; [reflexivity|done|reflexivity|apply rtc_refl].
Qed.

Lemma finish_scalar s k data fs rs d buf n cs :
  act s = Again (finish_value ScalarEnd (reading fs AtValue buf n)) ->
  moves (mkWorld s (mkReassembler rs (Some (k, data)) d) cs)
    (after (scalar_value k data) fs rs d buf n cs).
Proof.
  intros E. eapply moves_again; [exact E|]. rewrite finish_reading.
  eapply moves_emit; [reflexivity|done|reflexivity|apply rtc_refl].
Qed.

(** A value the streamer decodes whole once its bytes are there. *)
Lemma reads_whole fs rs u v :
  parse_value (max_depth bud - length fs) bud u = PDone v [] ->
  (forall n b c, b ++ c = u -> c <> [] -> b <> [] ->
     act (reading fs AtValue b n) = whole_value (reading fs AtValue b n)
     \/ act (reading fs AtValue b n) = Wait) ->
  (forall n x, act (reading fs AtValue (u ++ x) n) = whole_value (reading fs AtValue (u ++ x) n)) ->
  reads_as fs rs u v.
Proof.
  intros Hp Hw Hu n d buf cs rest E.
  destruct (moves_arrive (reading fs AtValue buf n) (mkReassembler rs None d) u rest) with buf cs
    as (x & cs' & Ex & Hm); [|done|].
  - intros b c <- Hc. change (act (reading fs AtValue b n) = Wait).
    destruct (decide (b = [])) as [->|Hb]; [done|].
    destruct (Hw n b c eq_refl Hc Hb) as [->| ->]; [|done].
    unfold whole_value. cbn [sbudget sbuf stack reading].
    by rewrite (stable_prefix _ b c v (parse_value_stable _ _) Hp Hc).
  - exists n, x, cs'. split; [done|]. etransitivity; [exact Hm|]. apply finish_whole.
    change (act (reading fs AtValue (u ++ x) n) = Again (finish_value (Whole v) (reading fs AtValue x n))).
    rewrite Hu. unfold whole_value. cbn [sbudget sbuf stack reading].
    pose proof (parse_value_stable (max_depth bud - length fs) bud u x) as Hs. rewrite Hp in Hs.
    cbn in Hs. rewrite Hs. done.
Qed.

(** ** Payloads *)

Definition sending (streamed : bool) (n : Z) : State := if streamed then Chunk n else Payload n.

Lemma act_payload streamed fs buf n m :
  act (reading fs (sending streamed m) buf n) = continue_payload m streamed (reading fs (sending streamed m) buf n).
Proof. by destruct streamed. Qed.

Lemma zlen_0 {A} (l : list A) : zlen l = 0 -> l = [].
Proof. destruct l; [done|]. rewrite zlen_cons. pose proof (zlen_nonneg l). lia. Qed.

Lemma zlen_to_nat {A} (l : list A) : Z.to_nat (zlen l) = length l.
Proof. apply Nat2Z.id. Qed.

(** What [continue_payload] emits when bytes are there. *)
Lemma continue_payload_emit streamed fs buf n (data : bytes) :
  data <> [] -> buf <> [] ->
  let m := Z.min (zlen data) (zlen buf) in
  act (reading fs (sending streamed (zlen data)) buf n) =
  Emit (ScalarChunk (take (Z.to_nat m) buf))
    (reading fs (sending streamed (zlen data - m)) (drop (Z.to_nat m) buf) n).
Proof.
  intros Hd Hb m. rewrite act_payload. unfold continue_payload. cbn [sbuf reading].
  rewrite decide_False by (intros ?%zlen_0; done). rewrite decide_False by done.
  by destruct streamed.
Qed.

(** The payload left to read is [data]; what was read so far is [acc]. *)
Definition payload_read (streamed : bool) fs rs d k n cs (buf data acc rest : bytes) : Prop :=
  exists buf' cs', buf' ++ concat cs' = rest /\
    moves (mkWorld (reading fs (sending streamed (zlen data)) buf n) (mkReassembler rs (Some (k, acc)) d) cs)
          (mkWorld (reading fs (sending streamed 0) buf' n) (mkReassembler rs (Some (k, acc ++ data)) d) cs').

Lemma payload_read_nil streamed fs rs d k n cs buf acc rest :
  buf ++ concat cs = rest -> payload_read streamed fs rs d k n cs buf [] acc rest.
Proof. intros E. exists buf, cs. rewrite app_nil_r. by split; [|apply rtc_refl]. Qed.

Lemma payload_read_chunk streamed fs rs d k n cs buf data acc rest :
  buf ++ concat cs = data ++ rest ->
  (forall data' acc', [] ++ concat cs = data' ++ rest ->
     payload_read streamed fs rs d k n cs [] data' acc' rest) ->
  payload_read streamed fs rs d k n cs buf data acc rest.
Proof.
  intros E IH. destruct (decide (data = [])) as [->|Hd]; [by apply payload_read_nil|].
  destruct (decide (buf = [])) as [->|Hb]; [by apply IH|].
  pose proof (continue_payload_emit streamed fs buf n data Hd Hb) as Ha. cbn zeta in Ha.
  apply app_eq_inv in E as [(x & -> & E)|(x & -> & E)].
  - rewrite zlen_app, Z.min_l in Ha by (pose proof (zlen_nonneg x); lia).
    rewrite zlen_to_nat, take_app_length, drop_app_length, Z.sub_diag in Ha.
    exists x, cs. split; [done|]. eapply moves_emit; [exact Ha|done|reflexivity|apply rtc_refl].
  - rewrite zlen_app, Z.min_r in Ha by (pose proof (zlen_nonneg x); lia).
    rewrite zlen_to_nat, take_ge, drop_ge in Ha by lia.
    replace (zlen buf + zlen x - zlen buf) with (zlen x) in Ha by lia.
    destruct (IH x (acc ++ buf)) as (buf' & cs' & Er & Hm); [done|].
    exists buf', cs'. split; [done|]. rewrite zlen_app.
    eapply moves_emit; [exact Ha|done|reflexivity|]. by rewrite app_assoc.
Qed.

Lemma payload_moves streamed fs rs d k n cs : forall buf data acc rest,
  buf ++ concat cs = data ++ rest -> payload_read streamed fs rs d k n cs buf data acc rest.
Proof.
  induction cs as [|c cs IH]; intros buf data acc rest E; (apply payload_read_chunk; [done|]);
    intros data' acc' E'.
  - cbn in E'. symmetry in E'. apply app_eq_nil in E' as [-> ->]. by apply payload_read_nil.
  - destruct (decide (data' = [])) as [->|Hd]; [by apply payload_read_nil|].
    destruct (IH c data' acc' rest E') as (buf' & cs' & Er & Hm). exists buf', cs'. split; [done|].
    eapply rtc_l; [|exact Hm]. apply (move_feed (reading fs (sending streamed (zlen data')) [] n)).
    rewrite act_payload. unfold continue_payload.
    rewrite decide_False by (intros ?%zlen_0; done). done.
Qed.

(** The CRLF after a payload. *)
Lemma crlf_moves streamed fs n r buf cs rest :
  buf ++ concat cs = crlf ++ rest ->
  exists x cs', x ++ concat cs' = rest /\
    moves (mkWorld (reading fs (sending streamed 0) buf n) r cs)
          (mkWorld (reading fs (sending streamed 0) (crlf ++ x) n) r cs').
Proof.
  intros E. apply (moves_arrive (reading fs (sending streamed 0) buf n) r crlf rest) in E as H.
  - exact H.
  - intros b c Eb Hc. change (act (reading fs (sending streamed 0) b n) = Wait).
    rewrite act_payload. unfold continue_payload. cbn [sbuf reading].
    rewrite decide_True by done. rewrite decide_True; [done|].
    apply (f_equal length) in Eb. rewrite length_app in Eb. destruct c; [done|].
    unfold zlen. cbn in Eb. lia.
Qed.

Lemma act_crlf streamed fs x n :
  act (reading fs (sending streamed 0) (crlf ++ x) n) =
  if streamed then Again (reading fs ChunkHeader x n)
  else Again (finish_value ScalarEnd (reading fs AtValue x n)).
Proof.
  rewrite act_payload. unfold continue_payload. cbn [sbuf reading].
  rewrite decide_True by done. rewrite decide_False.
  - rewrite decide_False; [by destruct streamed|]. intros H. by apply H.
  - rewrite zlen_app. change (zlen crlf) with 2. pose proof (zlen_nonneg x). lia.
Qed.

(** A payload of declared length: bytes, then CRLF, then the value. *)
Lemma declared_reads fs rs k data n :
  reads_from (Payload (zlen data)) (Some (k, [])) fs rs (data ++ crlf) (scalar_value k data) n.
Proof.
  intros d buf cs rest E. rewrite <- app_assoc in E.
  destruct (payload_moves false fs rs d k n cs buf data [] (crlf ++ rest) E) as (b1 & cs1 & E1 & M1).
  destruct (crlf_moves false fs n (mkReassembler rs (Some (k, [] ++ data)) d) b1 cs1 rest E1)
    as (b2 & cs2 & E2 & M2).
  exists n, b2, cs2. split; [done|]. etransitivity; [exact M1|]. etransitivity; [exact M2|].
  apply finish_scalar. by rewrite act_crlf.
Qed.

(** ** Headers *)

Lemma header_arrives fs t n r tag hdr rest buf cs :
  line (hdr ++ crlf) = PDone hdr [] ->
  act (reading fs t [] n) = Wait ->
  (forall b, line b = PMore -> act (reading fs t (tag :: b) n) = Wait) ->
  buf ++ concat cs = (tag :: hdr ++ crlf) ++ rest ->
  exists x cs', x ++ concat cs' = rest /\
    moves (mkWorld (reading fs t buf n) r cs) (mkWorld (reading fs t (tag :: hdr ++ crlf ++ x) n) r cs').
Proof.
  intros Hl H0 Hw E.
  destruct (moves_arrive (reading fs t buf n) r (tag :: hdr ++ crlf) rest) with buf cs
    as (x & cs' & Ex & Hm); [|done|].
  - intros [|c b] c' Eb Hc; [exact H0|]. injection Eb as -> Eb.
    change (act (reading fs t (tag :: b) n) = Wait). apply Hw.
    rewrite <- Eb in Hl. by eapply stable_prefix, Hc; [apply line_stable|exact Hl].
  - exists x, cs'. split; [done|].
    change (with_buf ((tag :: hdr ++ crlf) ++ x) (reading fs t buf n))
      with (reading fs t ((tag :: hdr ++ crlf) ++ x) n) in Hm.
    cbn [app] in Hm. by rewrite <- app_assoc in Hm.
Qed.

Lemma line_split b hdr r :
  line b = PDone hdr r -> b = hdr ++ crlf ++ r /\ (forall x, line (hdr ++ crlf ++ x) = PDone hdr x).
Proof. intros (-> & Hr)%line_spec. split; [done|]. intros x. by apply line_spec. Qed.

(** A part of a header line and what follows it: the line is there, or not yet. *)
Lemma line_prefix hdr b c r :
  (forall x, line (hdr ++ crlf ++ x) = PDone hdr x) -> b ++ c = hdr ++ crlf ++ r ->
  line b = PMore \/ exists y, b = hdr ++ crlf ++ y /\ y ++ c = r.
Proof.
  intros Hl E. pose proof (line_stable b c) as Hs. rewrite E, Hl in Hs.
  destruct (line b) as [h y| |e] eqn:El; [right|by left|done].
  cbn in Hs. injection Hs as <- ->. apply line_split in El as [-> _]. by exists y.
Qed.

Lemma parse_len_i64 s b what len :
  parse_len s b what = Ok len -> parse_i64 s = Ok (default (-1) len) /\ (forall n, len = Some n -> 0 <= n).
Proof.
  unfold parse_len. destruct (parse_i64 s) as [z|]; cbn [rbind]; [|done].
  case_decide; [subst; intros [= <-]; done|]. case_decide; [done|].
  case_decide; case_decide; try done; intros [= <-]; (split; [done|]); intros ? [= <-]; lia.
Qed.

Lemma parse_len_caps s b what n :
  parse_len s b what = Ok (Some n) ->
  0 <= n <= (if decide (what = "bulk"%string) then max_bulk_bytes b else max_elements b)
  /\ n <= i64_max.
Proof.
  intros H. apply parse_len_fits in H as [? H]. apply fits_spec in H as [? ?]. lia.
Qed.

(** ** Streamed strings *)

Lemma chunk_header_at fs clen x n m :
  line (clen ++ crlf ++ x) = PDone clen x -> parse_i64 clen = Ok m -> 0 <= m ->
  n + m <= max_streamed_bytes sb ->
  let n' := Z.min usize_max (n + m) in
  act (reading fs ChunkHeader (";"%byte :: clen ++ crlf ++ x) n) =
  if decide (m = 0) then Again (finish_value ScalarEnd (reading fs AtValue x n'))
  else Again (reading fs (Chunk m) x n').
Proof.
  intros Hl Hi Hm Hc n'. unfold act. cbn [queued state reading]. unfold chunk_header.
  cbn [sbuf reading]. rewrite decide_True by done. rewrite Hl. cbn [abind]. rewrite Hi. cbn [acheck].
  rewrite decide_False by lia. cbn [with_streamed streamed_so_far stream reading].
  rewrite decide_False by (subst n'; lia). done.
Qed.

Lemma chunk_header_waits fs n b :
  line b = PMore -> act (reading fs ChunkHeader (";"%byte :: b) n) = Wait.
Proof.
  intros Hl. unfold act. cbn [queued state reading]. unfold chunk_header. cbn [sbuf reading].
  rewrite decide_True by done. by rewrite Hl.
Qed.

(** The rounds of a streamed string that is [out] in the end, [acc] being read. *)
Lemma chunks_read fs rs fuel : forall acc b out n,
  ploop (chunk_round big) fuel acc b = PDone out [] ->
  n <= zlen acc -> zlen acc <= Z.max 0 (max_bulk_bytes big) ->
  reads_from ChunkHeader (Some (ScalarBulk, acc)) fs rs b (VBulk out) n.
Proof.
  induction fuel as [|fuel IH]; intros acc b out n Hp Hn Hacc; [done|]. rewrite ploop_S in Hp.
  destruct b as [|c b]; [done|]. cbn [chunk_round] in Hp. case_decide as Hc; [subst c|done].
  destruct (line b) as [clen r1| |] eqn:El; [|done..]. cbn [pbind] in Hp.
  destruct (parse_len clen big "bulk") as [[m|]|] eqn:Em; [|done..]. cbn [pcheck] in Hp.
  destruct (parse_len_i64 _ _ _ _ Em) as [Hi _]. pose proof (parse_len_caps _ _ _ _ Em) as [Hm _].
  cbn in Hi. rewrite decide_True in Hm by done.
  destruct (line_split _ _ _ El) as [-> Hl].
  intros d buf cs rest E.
  destruct (header_arrives fs ChunkHeader n (mkReassembler rs (Some (ScalarBulk, acc)) d) ";"%byte clen (r1 ++ rest) buf cs)
    as (x & cs1 & Ex & M1).
  { rewrite <- (app_nil_r (clen ++ crlf)), <- app_assoc. apply Hl. }
  { done. }
  { apply chunk_header_waits. }
  { rewrite E. cbn [app]. by rewrite <- !app_assoc. }
  case_decide as H0.
  - injection Hp as -> ->. subst m. eexists _, x, cs1. split; [exact Ex|]. etransitivity; [exact M1|].
    apply finish_scalar. rewrite (chunk_header_at fs clen x n 0) by (done || lia).
    by rewrite decide_True.
  - case_decide as Hcap; [done|].
    destruct (payload m _ r1) as [chunk r2| |] eqn:Ep; cbn [pbind] in Hp; [|done..].
    pose proof (payload_length _ _ _ _ _ (proj1 Hm) Ep) as Hz.
    apply payload_done in Ep as (_ & -> & _). subst m.
    pose proof (chunk_header_at fs clen x n (zlen chunk) (Hl x) Hi ltac:(lia) ltac:(lia)) as Ha.
    cbn zeta in Ha. rewrite decide_False in Ha by done.
    set (n' := Z.min usize_max (n + zlen chunk)) in *.
    rewrite <- !app_assoc in Ex.
    destruct (payload_moves true fs rs d ScalarBulk n' cs1 x chunk acc (crlf ++ r2 ++ rest) Ex)
      as (b2 & cs2 & E2 & M2).
    destruct (crlf_moves true fs n' (mkReassembler rs (Some (ScalarBulk, acc ++ chunk)) d) b2 cs2 (r2 ++ rest) E2)
      as (b3 & cs3 & E3 & M3).
    destruct (IH (acc ++ chunk) r2 out n' Hp) with d b3 cs3 rest as (n4 & b4 & cs4 & E4 & M4).
    { rewrite zlen_app. lia. }
    { rewrite zlen_app. lia. }
    { done. }
    exists n4, b4, cs4. split; [done|]. etransitivity; [exact M1|].
    eapply moves_again; [exact Ha|]. etransitivity; [exact M2|]. etransitivity; [exact M3|].
    eapply moves_again; [exact (act_crlf true fs b3 n')|]. exact M4.
Qed.

(** ** Scalars *)

Definition tag_class (tag : byte) : bool * bool * bool :=
  (is_aggregate_tag tag || bool_decide (tag = "|"%byte), is_blob_tag tag, is_line_tag tag).

Lemma line_tag_class tag :
  is_line_tag tag = true -> tag <> "."%byte /\ tag_class tag = (false, false, true).
Proof.
  intros H. apply (bool_decide_unpack _).
  pose proof (byte_forall (fun t => implb (is_line_tag t)
    (bool_decide (t <> "."%byte /\ tag_class t = (false, false, true)))) ltac:(by vm_compute) tag) as Hb.
  cbv beta in Hb. rewrite H in Hb. by apply Is_true_true.
Qed.

Lemma blob_tag_class tag :
  is_blob_tag tag = true -> tag <> "."%byte /\ tag_class tag = (false, true, false).
Proof.
  intros H. apply (bool_decide_unpack _).
  pose proof (byte_forall (fun t => implb (is_blob_tag t)
    (bool_decide (t <> "."%byte /\ tag_class t = (false, true, false)))) ltac:(by vm_compute) tag) as Hb.
  cbv beta in Hb. rewrite H in Hb. by apply Is_true_true.
Qed.

Lemma act_tag fs tag b n : tag <> "."%byte ->
  act (reading fs AtValue (tag :: b) n) =
  if (tag_class tag).1.1 then open_aggregate tag b (reading fs AtValue (tag :: b) n)
  else if (tag_class tag).1.2 then open_scalar tag b (reading fs AtValue (tag :: b) n)
  else whole_value (reading fs AtValue (tag :: b) n).
Proof.
  intros Ht. unfold act. cbn [queued state reading]. unfold next_value. cbn [sbuf reading].
  rewrite decide_False by (intros [? _]; done). done.
Qed.

Lemma line_scalar_reads fs rs room tag r v :
  (max_depth bud - length fs)%nat = S room -> is_line_tag tag = true ->
  parse_line_scalar tag r = PDone v [] -> reads_as fs rs (tag :: r) v.
Proof.
  intros Hroom Ht Hp. destruct (line_tag_class _ Ht) as [Hd Hc].
  assert (forall b n, act (reading fs AtValue (tag :: b) n) = whole_value (reading fs AtValue (tag :: b) n)) as Ha.
  { intros b n. by rewrite act_tag, Hc by done. }
  apply reads_whole.
  - rewrite Hroom. cbn [parse_value]. by rewrite Ht.
  - intros n [|c b] c' E _ Hb; [done|]. injection E as -> _. left. apply Ha.
  - intros n x. apply Ha.
Qed.

Lemma blob_at fs tag hdr x n : is_blob_tag tag = true -> line (hdr ++ crlf ++ x) = PDone hdr x ->
  act (reading fs AtValue (tag :: hdr ++ crlf ++ x) n) =
  let s := reading fs AtValue (tag :: hdr ++ crlf ++ x) n in
  if decide (tag = "$"%byte /\ hdr = bs "?") then
    Emit (ScalarBegin ScalarBulk None) (reading fs ChunkHeader x 0)
  else acheck s (parse_i64 hdr) (fun m =>
    if decide (m = -1) then Again (finish_value (Whole (VNull NBulk)) (reading fs AtValue x n))
    else if decide (m < 0) then Refuse (Protocol "negative length") s
    else if decide (m > max_streamed_bytes sb) then Refuse (OverBudget "bulk") s
    else if decide (m < stream_above sb) then whole_value s
    else begin_payload tag m x s).
Proof.
  intros Ht Hl. destruct (blob_tag_class _ Ht) as [Hd Hc]. rewrite act_tag, Hc by done. cbn [fst snd].
  unfold open_scalar. rewrite Hl. done.
Qed.

Lemma blob_waits fs tag b n : is_blob_tag tag = true -> line b = PMore ->
  act (reading fs AtValue (tag :: b) n) = Wait.
Proof.
  intros Ht Hl. destruct (blob_tag_class _ Ht) as [Hd Hc]. rewrite act_tag, Hc by done. cbn [fst snd].
  unfold open_scalar. by rewrite Hl.
Qed.

(** The header of a blob arrives. *)
Lemma blob_header fs tag hdr r rest buf cs n :
  is_blob_tag tag = true -> (forall x, line (hdr ++ crlf ++ x) = PDone hdr x) ->
  buf ++ concat cs = (tag :: hdr ++ crlf ++ rest) ->
  exists x cs', x ++ concat cs' = rest /\
    moves (mkWorld (reading fs AtValue buf n) r cs)
          (mkWorld (reading fs AtValue (tag :: hdr ++ crlf ++ x) n) r cs').
Proof.
  intros Ht Hl E. apply header_arrives.
  - rewrite <- (app_nil_r (hdr ++ crlf)), <- app_assoc. apply Hl.
  - done.
  - intros b. by apply blob_waits.
  - rewrite E. cbn [app]. by rewrite <- app_assoc.
Qed.

Lemma parse_len_other s b b' n :
  parse_len s b "bulk" = Ok (Some n) -> n <= max_bulk_bytes b' -> parse_len s b' "bulk" = Ok (Some n).
Proof.
  unfold parse_len. intros H Hn. destruct (parse_i64 s) as [z|]; cbn [rbind] in *; [|done].
  case_decide; [done|]. case_decide; [done|].
  destruct (decide ("bulk" = "bulk")%string); [|done].
  case_decide; [done|]. injection H as ->. by rewrite decide_False by lia.
Qed.

Lemma streamed_blob_reads fs rs hdr r out :
  hdr = bs "?" -> (forall x, line (hdr ++ crlf ++ x) = PDone hdr x) ->
  bulk_chunks big r = PDone out [] -> reads_as fs rs ("$"%byte :: hdr ++ crlf ++ r) (VBulk out).
Proof.
  intros Hq Hl Hp n d buf cs rest E.
  destruct (blob_header fs "$" hdr (mkReassembler rs None d) (r ++ rest) buf cs n)
    as (x & cs1 & Ex & M1); [done|done| |].
  { rewrite E. cbn [app]. by rewrite <- !app_assoc. }
  destruct (chunks_read fs rs _ [] r out 0 Hp ltac:(done) ltac:(rewrite zlen_nil; lia) d x cs1 rest Ex)
    as (n2 & b2 & cs2 & E2 & M2).
  exists n2, b2, cs2. split; [done|]. etransitivity; [exact M1|].
  pose proof (blob_at fs "$" hdr x n eq_refl (Hl x)) as Ha. cbn zeta in Ha.
  rewrite decide_True in Ha by done.
  eapply moves_emit; [exact Ha|done|reflexivity|exact M2].
Qed.

Lemma null_blob_reads fs rs tag hdr :
  is_blob_tag tag = true -> (forall x, line (hdr ++ crlf ++ x) = PDone hdr x) ->
  ~ (tag = "$"%byte /\ hdr = bs "?") -> parse_i64 hdr = Ok (-1) ->
  reads_as fs rs (tag :: hdr ++ crlf) (VNull NBulk).
Proof.
  intros Ht Hl Hq Hi n d buf cs rest E.
  destruct (blob_header fs tag hdr (mkReassembler rs None d) rest buf cs n)
    as (x & cs1 & Ex & M1); [done|done| |].
  { rewrite E. cbn [app]. by rewrite <- !app_assoc. }
  exists n, x, cs1. split; [done|]. etransitivity; [exact M1|]. apply finish_whole.
  rewrite blob_at by done. cbn zeta. rewrite decide_False, Hi by done. done.
Qed.

Lemma small_blob_reads fs rs room tag hdr r v m :
  (max_depth bud - length fs)%nat = S room ->
  is_blob_tag tag = true -> (forall x, line (hdr ++ crlf ++ x) = PDone hdr x) ->
  ~ (tag = "$"%byte /\ hdr = bs "?") -> parse_i64 hdr = Ok m ->
  0 <= m <= max_streamed_bytes sb -> m < stream_above sb ->
  parse_blob tag bud (hdr ++ crlf ++ r) = PDone v [] ->
  reads_as fs rs (tag :: hdr ++ crlf ++ r) v.
Proof.
  intros Hroom Ht Hl Hq Hi Hm Hlt Hp.
  assert (Hw : forall n x, act (reading fs AtValue (tag :: hdr ++ crlf ++ x) n)
                 = whole_value (reading fs AtValue (tag :: hdr ++ crlf ++ x) n)).
  { intros n x. rewrite blob_at by done. cbn zeta. rewrite decide_False, Hi by done. cbn [acheck].
    rewrite !decide_False by lia. by rewrite decide_True. }
  apply reads_whole.
  - rewrite Hroom. cbn [parse_value]. destruct (blob_tag_class _ Ht) as [_ Hc].
    unfold tag_class in Hc. injection Hc as _ Hb ->. by rewrite Hb.
  - intros n [|c b] c' E Hc' Hb; [done|]. injection E as -> E.
    change (b ++ c' = hdr ++ crlf ++ r) in E.
    destruct (line_prefix _ _ _ _ Hl E) as [El|(y & -> & _)]; [right; by apply blob_waits|left; apply Hw].
  - intros n x. cbn [app]. rewrite <- !app_assoc. apply Hw.
Qed.

(** A payload too large to hold: its first event, then its bytes. *)
Lemma large_blob_reads fs rs tag hdr k pre data m :
  is_blob_tag tag = true -> (forall x, line (hdr ++ crlf ++ x) = PDone hdr x) ->
  ~ (tag = "$"%byte /\ hdr = bs "?") -> parse_i64 hdr = Ok m ->
  0 <= m <= max_streamed_bytes sb -> ~ m < stream_above sb ->
  (forall s y c, y ++ c = pre -> c <> [] -> begin_payload tag m y s = Wait) ->
  (forall s x, begin_payload tag m (pre ++ x) s =
     Emit (ScalarBegin k (Some (zlen data))) (with_state (Payload (zlen data)) (with_buf x s))) ->
  reads_as fs rs (tag :: hdr ++ crlf ++ pre ++ data ++ crlf) (scalar_value k data).
Proof.
  intros Ht Hl Hq Hi Hm Hge Hwait Hgo n d buf cs rest E.
  assert (Ha : forall x, act (reading fs AtValue (tag :: hdr ++ crlf ++ x) n)
                 = begin_payload tag m x (reading fs AtValue (tag :: hdr ++ crlf ++ x) n)).
  { intros x. rewrite blob_at by done. cbn zeta. rewrite decide_False, Hi by done. cbn [acheck].
    by rewrite !decide_False by lia. }
  destruct (moves_arrive (reading fs AtValue buf n) (mkReassembler rs None d)
              (tag :: hdr ++ crlf ++ pre) (data ++ crlf ++ rest)) with buf cs
    as (x & cs1 & E1 & M1).
  - intros [|c b] c' Eb Hc; [done|]. injection Eb as -> Eb.
    change (b ++ c' = hdr ++ crlf ++ pre) in Eb.
    change (act (reading fs AtValue (tag :: b) n) = Wait).
    destruct (line_prefix _ _ _ _ Hl Eb) as [El|(y & -> & Ey)]; [by apply blob_waits|].
    rewrite Ha. by eapply Hwait.
  - rewrite E. cbn [app]. by rewrite <- !app_assoc.
  - destruct (declared_reads fs rs k data n d x cs1 rest) as (n2 & b2 & cs2 & E2 & M2).
    { by rewrite E1, <- app_assoc. }
    exists n2, b2, cs2. split; [done|]. etransitivity; [exact M1|].
    change (with_buf ((tag :: hdr ++ crlf ++ pre) ++ x) (reading fs AtValue buf n))
      with (reading fs AtValue ((tag :: hdr ++ crlf ++ pre) ++ x) n).
    cbn [app]. rewrite <- !app_assoc.
    eapply moves_emit; [by rewrite Ha, Hgo|done|reflexivity|exact M2].
Qed.

Lemma bulk_begins k tag m : tag = "$"%byte /\ k = ScalarBulk \/ tag = "!"%byte /\ k = ScalarBulkError ->
  forall s x, begin_payload tag m x s = Emit (ScalarBegin k (Some m)) (with_state (Payload m) (with_buf x s)).
Proof. by intros [[-> ->]|[-> ->]]. Qed.

Lemma verbatim_begins f0 f1 f2 m : 4 <= m ->
  forall s x, begin_payload "="%byte m ([f0; f1; f2; ":"%byte] ++ x) s =
    Emit (ScalarBegin (ScalarVerbatim (f0, f1, f2)) (Some (m - 4)))
      (with_state (Payload (m - 4)) (with_buf x s)).
Proof. intros Hm s x. unfold begin_payload. rewrite !decide_False by (done || lia). done. Qed.

Lemma verbatim_waits f0 f1 f2 f3 m : 4 <= m ->
  forall s y c, y ++ c = [f0; f1; f2; f3] -> c <> [] -> begin_payload "="%byte m y s = Wait.
Proof.
  intros Hm s y c E Hc. unfold begin_payload. rewrite !decide_False by (done || lia).
  destruct y as [|y0 [|y1 [|y2 [|y3 y]]]]; try done. exfalso. injection E as _ _ _ _ E.
  by apply app_eq_nil in E as [_ ?].
Qed.

Lemma verbatim_done data rest v r :
  verbatim data rest = PDone v r ->
  exists f0 f1 f2 d, data = [f0; f1; f2; ":"%byte] ++ d /\ v = VVerbatim (f0, f1, f2) d /\ r = rest.
Proof.
  destruct data as [|f0 [|f1 [|f2 [|c d]]]]; try done. cbn [verbatim]. case_decide; [|done].
  subst. intros [= <- <-]. by exists f0, f1, f2, d.
Qed.

Lemma blob_tag_cases tag : is_blob_tag tag = true -> tag = "$"%byte \/ tag = "!"%byte \/ tag = "="%byte.
Proof.
  unfold is_blob_tag. rewrite bool_decide_eq_true. cbn. rewrite !elem_of_cons, elem_of_nil. tauto.
Qed.

Lemma large_value_reads fs rs tag hdr data m v :
  is_blob_tag tag = true -> (forall x, line (hdr ++ crlf ++ x) = PDone hdr x) ->
  ~ (tag = "$"%byte /\ hdr = bs "?") -> parse_i64 hdr = Ok m ->
  0 <= m <= max_streamed_bytes sb -> ~ m < stream_above sb -> zlen data = m ->
  (if decide (tag = "$"%byte) then PDone (VBulk data) []
   else if decide (tag = "!"%byte) then PDone (VBulkError data) []
   else verbatim data []) = PDone v [] ->
  reads_as fs rs (tag :: hdr ++ crlf ++ data ++ crlf) v.
Proof.
  intros Ht Hl Hq Hi Hm Hge Hz Hv. subst m.
  assert (Hnil : forall s y c, y ++ c = [] -> c <> [] -> begin_payload tag (zlen data) y s = Wait).
  { intros s y c E Hc. by apply app_eq_nil in E as [_ ?]. }
  destruct (blob_tag_cases _ Ht) as [-> |[-> | ->]]; cbn in Hv.
  - injection Hv as <-. apply (large_blob_reads fs rs _ hdr ScalarBulk [] data (zlen data)); auto.
  - injection Hv as <-. apply (large_blob_reads fs rs _ hdr ScalarBulkError [] data (zlen data)); auto.
  - apply verbatim_done in Hv as (f0 & f1 & f2 & dd & -> & -> & _).
    rewrite zlen_app in *. change (zlen [f0; f1; f2; ":"%byte]) with 4 in *. pose proof (zlen_nonneg dd).
    rewrite <- app_assoc.
    apply (large_blob_reads fs rs _ hdr (ScalarVerbatim (f0, f1, f2)) [f0; f1; f2; ":"%byte] dd (4 + zlen dd));
      auto.
    + intros s y c. apply verbatim_waits. lia.
    + intros s x. rewrite verbatim_begins by lia. by replace (4 + zlen dd - 4) with (zlen dd) by lia.
Qed.

Lemma blob_reads fs rs room tag r v :
  (max_depth bud - length fs)%nat = S room -> is_blob_tag tag = true ->
  parse_blob tag big r = PDone v [] -> reads_as fs rs (tag :: r) v.
Proof.
  intros Hroom Ht Hp. pose proof Hp as Hp'. unfold parse_blob in Hp'.
  destruct (line r) as [hdr r1| |] eqn:El; [|done..]. cbn [pbind] in Hp'.
  destruct (line_split _ _ _ El) as [-> Hl]. case_decide as Hq.
  - destruct Hq as [-> Hq]. destruct (bulk_chunks big r1) as [out r2| |] eqn:Eb; [|done..].
    cbn [pbind] in Hp'. injection Hp' as <- ->. by apply streamed_blob_reads.
  - destruct (parse_len hdr big "bulk") as [len|] eqn:Em; [|done]. cbn [pcheck] in Hp'.
    destruct (parse_len_i64 _ _ _ _ Em) as [Hi _]. destruct len as [m|]; cbn in Hi.
    2: { injection Hp' as <- ->. rewrite app_nil_r. by apply null_blob_reads. }
    pose proof (parse_len_caps _ _ _ _ Em) as [Hm _]. rewrite decide_True in Hm by done.
    destruct (payload m _ r1) as [data r2| |] eqn:Ed; [|done..]. cbn [pbind] in Hp'.
    pose proof (payload_length _ _ _ _ _ (proj1 Hm) Ed) as Hz.
    destruct (decide (m < stream_above sb)) as [Hlt|Hge].
    + eapply (small_blob_reads fs rs room tag hdr r1 v m); try done; [lia|].
      assert (parse_len hdr bud "bulk" = Ok (Some m)) as Em' by (eapply parse_len_other; [done|lia]).
      revert Hp. unfold parse_blob. rewrite Hl. cbn [pbind]. rewrite !decide_False by done.
      by rewrite Em, Em'.
    + pose proof (payload_done _ _ _ _ _ Ed) as (_ & -> & _).
      assert (r2 = []) as ->.
      { repeat case_decide; try (by injection Hp' as _ ->).
        by apply verbatim_done in Hp' as (? & ? & ? & ? & _ & _ & ?). }
      rewrite app_nil_r. eapply large_value_reads; try done. lia.
Qed.

(** ** Aggregates *)

Lemma aggregate_end k items fs rs v d buf n cs :
  finish_aggregate k items = Ok v ->
  moves (mkWorld (mkStreamer buf bud sb (close_completed fs []).1 AtValue
                   (AggregateEnd :: (close_completed fs []).2) n)
           (mkReassembler ((k, items) :: rs) None d) cs)
        (after v fs rs d buf n cs).
Proof.
  intros Hv. eapply moves_emit; [reflexivity|done| |apply rtc_refl].
  cbn [push_event rstack scalar done_value]. by rewrite Hv.
Qed.

Section members.
Context (room : nat).
Context (IH : forall fs rs u v, (max_depth bud - length fs)%nat = room ->
  parse_value room big u = PDone v [] -> reads_as fs rs u v).

(** The members of an aggregate with [zlen vs] values to come. *)
Lemma counted_members k fs rs u vs :
  elements (parse_value room big) u vs -> (max_depth bud - S (length fs))%nat = room -> vs <> [] ->
  forall items v n d buf cs rest, finish_aggregate k (items ++ vs) = Ok v ->
  buf ++ concat cs = u ++ rest ->
  exists n' buf' cs', buf' ++ concat cs' = rest /\
    moves (mkWorld (reading (mkPending k (Some (zlen vs)) :: fs) AtValue buf n)
             (mkReassembler ((k, items) :: rs) None d) cs)
          (after v fs rs d buf' n' cs').
Proof.
  intros He Hroom Hne. induction He as [|u0 v0 us vs Hu Hvs IHvs]; [done|].
  intros items v n d buf cs rest Hv E. rewrite <- app_assoc in E.
  destruct (IH (mkPending k (Some (zlen (v0 :: vs))) :: fs) ((k, items) :: rs) u0 v0 Hroom Hu n d buf cs
              (us ++ rest) E) as (n1 & b1 & cs1 & E1 & M1).
  rewrite zlen_cons in *. unfold after in M1. cbn [close_completed remaining] in M1.
  replace (zlen vs + 1 - 1) with (zlen vs) in M1 by lia. pose proof (zlen_nonneg vs).
  destruct vs as [|v1 vs].
  - inversion Hvs; subst. exists n1, b1, cs1. split; [done|]. etransitivity; [exact M1|].
    cbn. rewrite close_completed_acc. by apply aggregate_end.
  - rewrite decide_True in M1 by (rewrite zlen_cons; pose proof (zlen_nonneg vs); lia).
    destruct (IHvs ltac:(done) (items ++ [v0]) v n1 d b1 cs1 rest) as (n2 & b2 & cs2 & E2 & M2).
    { by rewrite <- app_assoc. }
    { done. }
    exists n2, b2, cs2. split; [done|]. etransitivity; [exact M1|exact M2].
Qed.

Lemma streamed_end_waits k fs n b :
  line b = PMore -> act (reading (mkPending k None :: fs) AtValue ("."%byte :: b) n) = Wait.
Proof.
  intros Hl. unfold act. cbn [queued state reading]. unfold next_value. cbn [sbuf reading].
  rewrite decide_True by done. by rewrite Hl.
Qed.

Lemma streamed_members k fs rs u vs :
  elements (parse_value room big) u vs -> (max_depth bud - S (length fs))%nat = room ->
  forall items v n d buf cs rest, finish_aggregate k (items ++ vs) = Ok v ->
  buf ++ concat cs = (u ++ "."%byte :: crlf) ++ rest ->
  exists n' buf' cs', buf' ++ concat cs' = rest /\
    moves (mkWorld (reading (mkPending k None :: fs) AtValue buf n)
             (mkReassembler ((k, items) :: rs) None d) cs)
          (after v fs rs d buf' n' cs').
Proof.
  intros He Hroom. induction He as [|u0 v0 us vs Hu Hvs IHvs];
    intros items v n d buf cs rest Hv E.
  - rewrite app_nil_r in Hv.
    destruct (header_arrives (mkPending k None :: fs) AtValue n (mkReassembler ((k, items) :: rs) None d)
                "."%byte [] rest buf cs) as (x & cs1 & E1 & M1);
      [done|done|by apply streamed_end_waits|done|].
    exists n, x, cs1. split; [done|]. etransitivity; [exact M1|]. eapply moves_again; [reflexivity|].
    cbn. unfold closing. cbn. rewrite close_completed_acc. by apply aggregate_end.
  - rewrite <- !app_assoc in E.
    destruct (IH (mkPending k None :: fs) ((k, items) :: rs) u0 v0 Hroom Hu n d buf cs
                (us ++ ("."%byte :: crlf) ++ rest)) as (n1 & b1 & cs1 & E1 & M1); [done|].
    unfold after in M1. cbn [close_completed remaining] in M1.
    destruct (IHvs (items ++ [v0]) v n1 d b1 cs1 rest) as (n2 & b2 & cs2 & E2 & M2).
    { by rewrite <- app_assoc. }
    { by rewrite <- app_assoc. }
    exists n2, b2, cs2. split; [done|]. etransitivity; [exact M1|exact M2].
Qed.

(** Opening an aggregate. *)
Definition opens (tag : byte) : Prop := is_aggregate_tag tag || bool_decide (tag = "|"%byte) = true.

Lemma opens_dot tag : opens tag -> tag <> "."%byte.
Proof. by intros H ->. Qed.

Lemma act_open fs tag b n : opens tag ->
  act (reading fs AtValue (tag :: b) n) = open_aggregate tag b (reading fs AtValue (tag :: b) n).
Proof. intros H. rewrite act_tag by (by apply opens_dot). cbn [tag_class fst snd]. by rewrite H. Qed.

Lemma open_waits fs tag n b : opens tag -> (max_depth bud - length fs)%nat = S room ->
  line b = PMore -> act (reading fs AtValue (tag :: b) n) = Wait.
Proof.
  intros Ht Hd Hl. rewrite act_open by done. unfold open_aggregate. cbn [stack sbudget reading].
  rewrite decide_False by lia. by rewrite Hl.
Qed.

Lemma open_header fs tag hdr r rest buf cs n :
  opens tag -> (max_depth bud - length fs)%nat = S room ->
  (forall x, line (hdr ++ crlf ++ x) = PDone hdr x) ->
  buf ++ concat cs = (tag :: hdr ++ crlf ++ rest) ->
  exists x cs', x ++ concat cs' = rest /\
    moves (mkWorld (reading fs AtValue buf n) r cs)
          (mkWorld (reading fs AtValue (tag :: hdr ++ crlf ++ x) n) r cs').
Proof.
  intros Ht Hd Hl E. apply header_arrives.
  - rewrite <- (app_nil_r (hdr ++ crlf)), <- app_assoc. apply Hl.
  - done.
  - intros b. by apply open_waits.
  - rewrite E. cbn [app]. by rewrite <- app_assoc.
Qed.

Lemma parse_len_elements s : parse_len s big "elements" = parse_len s bud "elements".
Proof. unfold parse_len. by rewrite Helements. Qed.

Lemma opened_counted fs rs tag hdr u vs v m :
  opens tag -> (max_depth bud - length fs)%nat = S room ->
  (forall x, line (hdr ++ crlf ++ x) = PDone hdr x) -> hdr <> bs "?" ->
  parse_len hdr big "elements" = Ok (Some m) -> children (agg_kind tag) m = Some (zlen vs) ->
  elements (parse_value room big) u vs -> finish_aggregate (agg_kind tag) vs = Ok v ->
  reads_as fs rs (tag :: hdr ++ crlf ++ u) v.
Proof.
  intros Ht Hd Hl Hq Hm Hch He Hv n d buf cs rest E.
  destruct (open_header fs tag hdr (mkReassembler rs None d) (u ++ rest) buf cs n)
    as (x & cs1 & E1 & M1); [done|done|done| |].
  { rewrite E. cbn [app]. by rewrite <- !app_assoc. }
  assert (Ha : act (reading fs AtValue (tag :: hdr ++ crlf ++ x) n) =
    let s1 := reading fs AtValue x n in
    let q := [AggregateBegin (agg_kind tag) (Some m)] in
    if decide (zlen vs = 0) then Again (closing (with_stack fs (q ++ [AggregateEnd]) s1))
    else Again (with_stack (mkPending (agg_kind tag) (Some (zlen vs)) :: fs) q s1)).
  { rewrite act_open by done. unfold open_aggregate. cbn [stack sbudget reading].
    rewrite decide_False by lia. rewrite Hl. cbn [abind]. rewrite decide_False by done.
    rewrite <- parse_len_elements, Hm. cbn [acheck]. by rewrite Hch. }
  cbn zeta in Ha. case_decide as Hz.
  - apply zlen_0 in Hz as ->. inversion He; subst. exists n, x, cs1. split; [done|].
    etransitivity; [exact M1|]. eapply moves_again; [exact Ha|].
    unfold closing. cbn [stack queued with_stack reading app]. rewrite close_completed_acc.
    eapply moves_emit; [reflexivity|done|reflexivity|]. by apply aggregate_end.
  - destruct (counted_members (agg_kind tag) fs rs u vs He ltac:(lia)) with (items := @nil Value) (v := v)
      (n := n) (d := d) (buf := x) (cs := cs1) (rest := rest) as (n2 & b2 & cs2 & E2 & M2);
      [by intros ->|done|done|].
    exists n2, b2, cs2. split; [done|]. etransitivity; [exact M1|]. eapply moves_again; [exact Ha|].
    eapply moves_emit; [reflexivity|done|reflexivity|exact M2].
Qed.

Lemma opened_streamed fs rs tag hdr u vs v :
  opens tag -> (max_depth bud - length fs)%nat = S room ->
  (forall x, line (hdr ++ crlf ++ x) = PDone hdr x) -> hdr = bs "?" -> agg_kind tag <> AggAttribute ->
  elements (parse_value room big) u vs -> finish_aggregate (agg_kind tag) vs = Ok v ->
  reads_as fs rs (tag :: hdr ++ crlf ++ u ++ "."%byte :: crlf) v.
Proof.
  intros Ht Hd Hl Hq Hk He Hv n d buf cs rest E.
  destruct (open_header fs tag hdr (mkReassembler rs None d) ((u ++ "."%byte :: crlf) ++ rest) buf cs n)
    as (x & cs1 & E1 & M1); [done|done|done| |].
  { rewrite E. cbn [app]. by rewrite <- !app_assoc. }
  assert (Ha : act (reading fs AtValue (tag :: hdr ++ crlf ++ x) n) =
    Emit (AggregateBegin (agg_kind tag) None) (reading (mkPending (agg_kind tag) None :: fs) AtValue x n)).
  { rewrite act_open by done. unfold open_aggregate. cbn [stack sbudget reading].
    rewrite decide_False by lia. rewrite Hl. cbn [abind]. rewrite decide_True by done.
    by rewrite decide_False. }
  destruct (streamed_members (agg_kind tag) fs rs u vs He ltac:(lia) [] v n d x cs1 rest Hv E1)
    as (n2 & b2 & cs2 & E2 & M2).
  exists n2, b2, cs2. split; [done|]. etransitivity; [exact M1|].
  eapply moves_emit; [exact Ha|done|reflexivity|exact M2].
Qed.

Lemma opened_null fs rs tag hdr :
  opens tag -> (max_depth bud - length fs)%nat = S room ->
  (forall x, line (hdr ++ crlf ++ x) = PDone hdr x) -> hdr <> bs "?" -> agg_kind tag <> AggAttribute ->
  parse_len hdr big "elements" = Ok None -> reads_as fs rs (tag :: hdr ++ crlf) (VNull NArray).
Proof.
  intros Ht Hd Hl Hq Hk Hm n d buf cs rest E.
  destruct (open_header fs tag hdr (mkReassembler rs None d) rest buf cs n)
    as (x & cs1 & E1 & M1); [done|done|done| |].
  { rewrite E. cbn [app]. by rewrite <- !app_assoc. }
  exists n, x, cs1. split; [done|]. etransitivity; [exact M1|]. apply finish_whole.
  rewrite act_open by done. unfold open_aggregate. cbn [stack sbudget reading].
  rewrite decide_False by lia. rewrite Hl. cbn [abind]. rewrite decide_False by done.
  rewrite <- parse_len_elements, Hm. cbn [acheck]. by rewrite decide_False.
Qed.

Lemma aggregate_tag_cases tag : is_aggregate_tag tag = true ->
  opens tag /\ agg_kind tag <> AggAttribute /\
  (tag = "%"%byte /\ agg_kind tag = AggMap \/
   tag <> "%"%byte /\ forall items, finish_aggregate (agg_kind tag) items = Ok (collection tag items) /\
     forall m, agg_kind tag = AggMap \/ children (agg_kind tag) m = (if decide (m <= usize_max) then Some m else None)).
Proof.
  intros H. split; [unfold opens; by rewrite H|]. revert H.
  unfold is_aggregate_tag. rewrite bool_decide_eq_true. cbn. rewrite !elem_of_cons, elem_of_nil.
  intros [-> |[-> |[-> |[-> |[]]]]]; (split; [done|]); try (by left); right; (split; [done|]);
    intros items; (split; [done|]); intros m; by right.
Qed.

Lemma spelled_pair_length (kv : list (Value * Value)) :
  zlen (kv ≫= (fun '(k, v) => [k; v])) = 2 * zlen kv.
Proof.
  induction kv as [|[k v] kv IHkv]; [done|].
  rewrite bind_cons, zlen_app, IHkv, (zlen_cons (k, v)).
  change (zlen [k; v]) with 2. lia.
Qed.

Lemma parse_n_length {A} (p : bytes -> parsed A) n b xs r : parse_n p n b = PDone xs r -> length xs = n.
Proof. intros H. by apply (parse_n_yields p (fun _ => True)) in H as [_ ?]. Qed.

Lemma children_fits k m c : m <= i64_max ->
  c = match k with AggMap => 2 * m | AggAttribute => 2 * m + 1 | _ => m end ->
  children k m = Some c.
Proof.
  intros Hm ->. unfold children. change i64_max with (2 ^ 63 - 1) in Hm.
  change usize_max with (2 ^ 64 - 1). by rewrite decide_True by (destruct k; lia).
Qed.

Abbreviation members := (parse_value room big).
Let members_pair := spells_pair members (parse_value_consumes room big) (parse_value_local room big).
Let members_value := spells_value members (parse_value_consumes room big) (parse_value_local room big).

Lemma aggregate_reads fs rs tag r v :
  (max_depth bud - length fs)%nat = S room -> is_aggregate_tag tag = true ->
  parse_aggregate members big tag r = PDone v [] -> reads_as fs rs (tag :: r) v.
Proof.
  intros Hd Ht Hp. destruct (aggregate_tag_cases _ Ht) as (Ho & Hk & Hkind). unfold parse_aggregate in Hp.
  destruct (line r) as [hdr r1| |] eqn:El; [|done..]. cbn [pbind] in Hp.
  destruct (line_split _ _ _ El) as [-> Hl]. case_decide as Hq.
  - case_decide as Hm.
    + destruct (parse_streamed _ _ r1) as [kv r2| |] eqn:Es; [|done..]. cbn [pbind] in Hp.
      injection Hp as <- ->. apply (streamed_spells members _ _ members_pair) in Es as (u & ys & -> & -> & He).
      destruct Hkind as [[_ Hkind]|[? _]]; [|done].
      eapply opened_streamed; try done. rewrite Hkind. cbn [finish_aggregate app]. by rewrite pairs_spelled.
    + destruct (parse_streamed _ _ r1) as [vs r2| |] eqn:Es; [|done..]. cbn [pbind] in Hp.
      injection Hp as <- ->. apply (streamed_spells members _ _ members_value) in Es as (u & ys & -> & -> & He).
      destruct Hkind as [[? _]|[_ Hkind]]; [done|]. rewrite bind_singleton in He.
      eapply opened_streamed; try done. apply Hkind.
  - destruct (parse_len hdr big "elements") as [len|] eqn:Em; [|done]. cbn [pcheck] in Hp.
    destruct len as [m|]; [|injection Hp as <- ->; rewrite app_nil_r; by apply opened_null].
    pose proof (parse_len_caps _ _ _ _ Em) as [[Hm _] Hmax].
    case_decide as Hmap.
    + destruct (parse_n _ _ r1) as [kv r2| |] eqn:Es; [|done..]. cbn [pbind] in Hp.
      injection Hp as <- ->. pose proof (parse_n_length _ _ _ _ _ Es) as Hlen.
      apply (spells_n members _ _ members_pair) in Es as (u & -> & He). rewrite app_nil_r.
      destruct Hkind as [[_ Hkind]|[? _]]; [|done].
      eapply opened_counted; try done; rewrite Hkind.
      * apply children_fits; [done|]. rewrite spelled_pair_length. unfold zlen. lia.
      * cbn [finish_aggregate]. by rewrite pairs_spelled.
    + destruct (parse_n _ _ r1) as [vs r2| |] eqn:Es; [|done..]. cbn [pbind] in Hp.
      injection Hp as <- ->. pose proof (parse_n_length _ _ _ _ _ Es) as Hlen.
      apply (spells_n members _ _ members_value) in Es as (u & -> & He). rewrite app_nil_r.
      rewrite bind_singleton in He. destruct Hkind as [[? _]|[_ Hkind]]; [done|].
      eapply opened_counted; try done; [|apply Hkind].
      apply children_fits; [done|]. unfold zlen. destruct (agg_kind tag) eqn:Ek; try lia; try done.
      destruct (Hkind []) as [Hf _]. revert Hf. rewrite ?Ek. unfold collection. cbn. by repeat case_decide.
Qed.

Lemma attribute_reads fs rs r v :
  (max_depth bud - length fs)%nat = S room ->
  parse_attribute members big r = PDone v [] -> reads_as fs rs ("|"%byte :: r) v.
Proof.
  intros Hd Hp. unfold parse_attribute in Hp.
  destruct (line r) as [hdr r1| |] eqn:El; [|done..]. cbn [pbind] in Hp.
  destruct (line_split _ _ _ El) as [-> Hl].
  destruct (parse_len hdr big "elements") as [[m|]|] eqn:Em; [|done..]. cbn [pcheck] in Hp.
  pose proof (parse_len_caps _ _ _ _ Em) as [[Hm _] Hmax].
  destruct (parse_n _ _ r1) as [kv r2| |] eqn:Es; [|done..]. cbn [pbind] in Hp.
  destruct (members r2) as [w r3| |] eqn:Ew; [|done..]. cbn [pbind] in Hp. injection Hp as <- ->.
  pose proof (parse_n_length _ _ _ _ _ Es) as Hlen.
  apply (spells_n members _ _ members_pair) in Es as (u & -> & He).
  apply members_value in Ew as (u' & -> & He'). rewrite app_nil_r.
  assert (hdr <> bs "?") as Hq by (intros ->; done).
  apply opened_counted with (vs := (kv ≫= (fun '(k, v) => [k; v])) ++ [w]) (m := m); try done.
  - apply children_fits; [done|]. rewrite zlen_app, spelled_pair_length. change (zlen [w]) with 1.
    change (agg_kind "|"%byte) with AggAttribute. unfold zlen. lia.
  - by apply elements_app.
  - change (agg_kind "|"%byte) with AggAttribute. unfold finish_aggregate.
    by rewrite last_snoc, removelast_last, pairs_spelled.
Qed.
End members.

Lemma values_read room fs rs u v :
  (max_depth bud - length fs)%nat = room -> parse_value room big u = PDone v [] -> reads_as fs rs u v.
Proof.
  revert fs rs u v. induction room as [|room IH]; intros fs rs [|tag r] v Hd Hp; try done.
  cbn [parse_value] in Hp. repeat (case_match || case_decide); try done.
  - by eapply line_scalar_reads.
  - by eapply blob_reads.
  - by eapply (aggregate_reads room).
  - subst. by eapply (attribute_reads room).
Qed.

End reading.

(** ** The driver's answer *)

Lemma drive_frame_end f s s' r cs :
  counted s -> act s = Emit FrameEnd s' ->
  drive (S f) s r cs = (Ok (done_value r), sbuf s' ++ concat cs).
Proof. intros Hs Ha. cbn [drive]. by rewrite (step_unroll s), Ha. Qed.

Lemma step_fuel_cost f s r s' :
  counted s -> step_fuel f s = (r, s') ->
  match r with
  | Ok (SEvent _) => (cost s' < cost s)%nat /\ counted s'
  | Ok SIncomplete => (cost s' <= cost s)%nat /\ counted s'
  | Err _ => True
  end.
Proof.
  revert s. induction f as [|f IH]; intros s Hs; cbn [step_fuel]; [by intros [= <- <-]|].
  pose proof (act_cheaper s Hs) as Hc. destruct (act s) as [e s1|s1| |e s1]; cbn [cheaper] in Hc.
  - by intros [= <- <-].
  - destruct Hc as (_ & Hc & Hs1). intros E. specialize (IH s1 Hs1 E).
    destruct r as [[e|]|e]; [| |done]; (split; [lia|apply IH]).
  - by intros [= <- <-].
  - by intros [= <- <-].
Qed.

(** More fuel than the world costs changes nothing: the driver always ends by
    itself, on every input. *)
Lemma drive_enough f f' s r cs :
  counted s -> (world_cost (mkWorld s r cs) < f)%nat -> (world_cost (mkWorld s r cs) < f')%nat ->
  drive f s r cs = drive f' s r cs.
Proof.
  unfold world_cost. cbn [streamer arriving].
  revert f' s r cs. induction f as [|f IH]; intros [|f'] s r cs Hs Hf Hf'; try lia. cbn [drive].
  pose proof (step_fuel_cost (S (length (sbuf s))) s) as Hc. fold (step s) in Hc.
  destruct (step s) as [[[e|]|e] s1]; [| |done]; destruct (Hc _ _ Hs eq_refl) as [H1 H2].
  - destruct (push_event e r) as [[u|x] r']; [|done].
    destruct e; try (apply IH; [done|lia|lia]). done.
  - destruct cs as [|c cs]; [done|].
    assert (cost (feed_streamer s1 c) = cost s1 + 4 * length c)%nat as Ec.
    { unfold cost. cbn. rewrite length_app. lia. }
    cbn [concat length] in Hf, Hf'. rewrite length_app in Hf, Hf'.
    apply IH; [done|rewrite Ec; lia|rewrite Ec; lia].
Qed.

Lemma reads_frame bud big sb u rest v s cs f :
  max_depth big = max_depth bud -> max_elements big = max_elements bud ->
  max_bulk_bytes big <= max_streamed_bytes sb ->
  Z.min (stream_above sb - 1) (max_bulk_bytes big) <= max_bulk_bytes bud ->
  parse_value (max_depth big) big u = PDone v [] ->
  s = feed_streamer (new_streamer bud sb) (sbuf s) -> sbuf s ++ concat cs = u ++ rest ->
  (4 * length (u ++ rest) + length cs < f)%nat ->
  drive f s new_reassembler cs = (Ok (Some v), rest).
Proof.
  intros Hd He Hb Hs Hp Es E Hf.
  destruct (values_read bud big sb Hd He Hb Hs (max_depth big) [] [] u v ltac:(cbn; lia) Hp 0 None
              (sbuf s) cs rest E) as (n' & b' & cs' & E' & M).
  assert (s = reading bud sb [] AtValue (sbuf s) 0) as Es' by exact Es.
  assert (counted s) as Hc by (by rewrite Es').
  assert (world_cost (mkWorld s new_reassembler cs) < f)%nat as Hcost.
  { unfold world_cost, cost. rewrite Es'. cbn [streamer arriving sbuf queued stack reading length].
    rewrite <- E, length_app in Hf. lia. }
  rewrite <- Es' in M. apply (moves_drive _ _ f M) in Hcost as (f' & Hc' & Hf' & Hdrive); [|done].
  unfold drive_world in Hdrive. cbn [streamer reassembler arriving after] in Hdrive, Hc'.
  change (mkReassembler [] None None) with new_reassembler in Hdrive. rewrite Hdrive.
  destruct f' as [|f']; [lia|]. by erewrite drive_frame_end by (done || reflexivity); cbn; rewrite E'.
Qed.

(** ** Properties *)

(** C3. One semantics, not two: whatever frame the decoder accepts, under limits
    as large as the streaming limit, the streamer walks and the reassembler
    rebuilds to the same value, consuming exactly its bytes, however the bytes
    are cut into chunks; the streamer's own budget need only hold the values
    it does not stream.  The driver never stops for want of fuel. *)
Theorem stream_reassembles bud big sb chunks v d :
  max_depth big = max_depth bud -> max_elements big = max_elements bud ->
  max_bulk_bytes big <= max_streamed_bytes sb ->
  Z.min (stream_above sb - 1) (max_bulk_bytes big) <= max_bulk_bytes bud ->
  decode (mkDecoder (concat chunks) big) = (Ok (SValue v), d) ->
  stream_chunks chunks bud sb = (Ok (Some v), buf d) /\
  decode_by_streaming (concat chunks) bud sb = Ok (Some v) /\
  (forall f, (drive_fuel chunks <= f)%nat ->
     drive f (new_streamer bud sb) new_reassembler chunks = stream_chunks chunks bud sb).
Proof.
  intros Hd He Hb Hs (_ & _ & E)%decode_value_inv. cbn [budget buf] in E.
  destruct (spells_value _ (parse_value_consumes _ _) (parse_value_local _ _) _ _ _ E) as (u & Eu & _).
  assert (parse_value (max_depth big) big u = PDone v []) as Hp.
  { rewrite <- (app_nil_r u). eapply (parse_value_local _ _ u v (buf d)). by rewrite <- Eu. }
  split; [|split].
  - eapply (reads_frame bud big); try done.
    cbn [drive_fuel]. unfold drive_fuel. rewrite Eu. lia.
  - unfold decode_by_streaming. erewrite (reads_frame bud big); try done.
    + cbn. by rewrite app_nil_r, Eu.
    + unfold drive_fuel. cbn [concat length]. rewrite Eu, app_nil_r. lia.
  - intros f Hf. unfold stream_chunks, drive_fuel in *.
    apply drive_enough; [done|..]; unfold world_cost, cost; cbn [streamer arriving sbuf queued stack new_streamer length];
      lia.
Qed.

(** A ten-byte string where the decoder's own limit is four. *)
Definition small_bulk : Budget := Build_Budget 3 8 4 100.
Definition large_bulk : Budget := Build_Budget 3 8 50 100.

Lemma stream_reassembles_witness :
  stream_chunks [bs "*2" ++ crlf ++ bs "$10" ++ [x0d]; [x0a] ++ bs "abcd"; bs "efghij" ++ crlf ++ bs "%?" ++ crlf;
                 bs "+k" ++ crlf ++ bs "_" ++ crlf ++ bs "." ++ crlf ++ bs ":7"]
    small_bulk (mkStreamBudget 5 50) =
  (Ok (Some (VArray [VBulk (bs "abcdefghij"); VMap [(VSimple (bs "k"), VNull NResp3)]])), bs ":7").
Proof.
  refine (proj1 (stream_reassembles small_bulk large_bulk (mkStreamBudget 5 50) _ _
    (mkDecoder (bs ":7") large_bulk) eq_refl eq_refl _ _ _)).
  - vm_compute. discriminate.
  - vm_compute. discriminate.
  - vm_compute. reflexivity.
Defined.

(** ** Where the two readers differ *)

(** The decoder refuses a value nested too deep; the streamer does not check the
    depth of a scalar it streams. *)
Lemma streamed_scalar_depth :
  let b := bs "*1" ++ crlf ++ bs "$5" ++ crlf ++ bs "hello" ++ crlf in
  let shallow := Build_Budget 1 8 50 100 in
  decode_by_value b shallow = Err (OverBudget "depth") /\
  decode_by_streaming b shallow (mkStreamBudget 2 50) = Ok (Some (VArray [VBulk (bs "hello")])).
Proof. vm_compute. done. Qed.

(** The limit on elements is not applied to a streamed aggregate. *)
Lemma streamed_aggregate_elements :
  let b := bs "*?" ++ crlf ++ bs ":1" ++ crlf ++ bs ":2" ++ crlf ++ bs "." ++ crlf in
  let narrow := Build_Budget 3 1 50 100 in
  decode_by_value b narrow = Err (OverBudget "elements") /\
  decode_by_streaming b narrow (mkStreamBudget 2 50) = Ok (Some (VArray [VInteger 1; VInteger 2])).
Proof. vm_compute. done. Qed.
