(* ===== verification/Oneshot.v ===== *)
(** * The one-shot connection ([crates/pr-transport/src/oneshot.rs])

    A call writes one encoded command and reads one reply.  The socket is the
    list of what its writes and its reads will answer; a read that returns no
    bytes, and the end of the list, are the end of the stream. *)

From S2P Require Import Prelude Text TextFacts Value Decoder DecoderFacts Framing Output Roundtrip.

Inductive CallError :=
| Io (what : string)
| DecodeFailed (e : DecodeError)
| TruncatedReply
| Unresolved (addr : string).

#[export] Instance CallError_eq_dec : EqDecision CallError.
Proof. solve_decision. Defined.

(** [encode_command]: a RESP2 array of bulk strings. *)
Definition encode_command (argv : list bytes) : bytes :=
  bs "*" ++ print_unsigned (zlen argv) ++ crlf
  ++ concat (map (fun a => bs "$" ++ print_unsigned (zlen a) ++ crlf ++ a ++ crlf) argv).

(** What becomes of [write_all] and [flush] for one command: all is sent; the
    socket fails after it took some bytes; all is taken and [flush] fails. *)
Inductive Send :=
| Sent
| WriteFails (taken : nat) (what : string)
| FlushFails (what : string).

(** The state of a connection: the sends and the reads to come (past the end of
    the first, everything is sent), the bytes written so far and the decoder. *)
Record Oneshot := mkOneshot {
  sends : list Send;
  reads : list (result string bytes);
  written : bytes;
  decoder : Decoder;
}.

Definition over (ws : list Send) (rs : list (result string bytes)) : Oneshot :=
  mkOneshot ws rs [] with_defaults.

(** The decoding half of the loop of [read_reply]: skip pushes. *)
Fixpoint next_reply (fuel : nat) (d : Decoder) : result CallError (option Value) * Decoder :=
  match fuel with
  | O => (Ok None, d)
  | S f =>
      match decode d with
      | (Err e, d') => (Err (DecodeFailed e), d')
      | (Ok (SValue v), d') => if Value.is_push v then next_reply f d' else (Ok (Some v), d')
      | (Ok Incomplete, d') => (Ok None, d')
      end
  end.

(** [read_reply]: decode until a reply, then read more. *)
Fixpoint read_reply (rs : list (result string bytes)) (d : Decoder)
  : result CallError Value * list (result string bytes) * Decoder :=
  match next_reply (S (length (buf d))) d with
  | (Err e, d') => (Err e, rs, d')
  | (Ok (Some v), d') => (Ok v, rs, d')
  | (Ok None, d') =>
      match rs with
      | [] => (Err TruncatedReply, [], d')
      | Err what :: rs' => (Err (Io what), rs', d')
      | Ok c :: rs' => if decide (c = []) then (Err TruncatedReply, rs', d')
                       else read_reply rs' (feed d' c)
      end
  end.

(** [write_all] and [flush]: the bytes that went out and the failure. *)
Definition send (w : option Send) (wire : bytes) : bytes * option CallError :=
  match w with
  | None | Some Sent => (wire, None)
  | Some (WriteFails n what) => (take n wire, Some (Io what))
  | Some (FlushFails what) => (wire, Some (Io what))
  end.

Definition call (argv : list bytes) (o : Oneshot) : result CallError Value * Oneshot :=
  match send (head (sends o)) (encode_command argv) with
  | (out, Some e) => (Err e, mkOneshot (tail (sends o)) (reads o) (written o ++ out) (decoder o))
  | (out, None) =>
      let '(r, rs, d) := read_reply (reads o) (decoder o) in
      (r, mkOneshot (tail (sends o)) rs (written o ++ out) d)
  end.

(** What a call has written is a part of its command, and all of it when it
    returns a reply. *)
Lemma call_writes argv o :
  exists part, written (call argv o).2 = written o ++ part /\ part `prefix_of` encode_command argv /\
    (is_ok (call argv o).1 = true -> part = encode_command argv).
Proof.
  unfold call. destruct (head (sends o)) as [[|n what|what]|]; cbn [send];
    try (destruct (read_reply _ _) as [[r rs] d]); eexists; (split; [reflexivity|]); split; try done.
  - exists (drop n (encode_command argv)). by rewrite take_drop.
Qed.

(** ** What a reading says about the reply *)

Definition first_reply (x : Reading) : result CallError (option Value) :=
  match filter (fun v => Value.is_push v = false) (values x) with
  | v :: _ => Ok (Some v)
  | [] => match failure x with
            | Some e => Err (DecodeFailed e)
            | None => Ok None
            end
  end.

Lemma first_reply_push v x :
  Value.is_push v = true -> first_reply (with_value v x) = first_reply x.
Proof.
  intros Hv. unfold first_reply. simpl. rewrite filter_cons_False by congruence. done.
Qed.

Lemma next_reply_spec f d :
  (length (buf d) < f)%nat ->
  (next_reply f d).1 = first_reply (read_all d) /\
  ((next_reply f d).1 = Ok None -> (next_reply f d).2 = after (read_all d) /\
    Forall (fun v => Value.is_push v = true) (values (read_all d)) /\
    failure (read_all d) = None).
Proof.
  revert d. induction f as [|f IH]; intros d Hf; [lia|].
  rewrite read_all_unroll. simpl. destruct (decode d) as [[[v|]|e] d'] eqn:E.
  - apply decode_value_shorter in E. destruct (Value.is_push v) eqn:Ev.
    + rewrite first_reply_push by done. destruct (IH d') as [H1 H2]; [lia|].
      split; [done|]. intros (? & ? & ?)%H2. simpl. split_and!; try done. by constructor.
    + split; [|done]. unfold first_reply. simpl. by rewrite filter_cons_True.
  - simpl. done.
  - by split.
Qed.

Lemma first_reply_values vs x :
  Forall (fun v => Value.is_push v = true) vs ->
  first_reply (with_values vs x) = first_reply x.
Proof.
  induction 1 as [|v vs Hv _ IH]; [by rewrite with_values_nil|].
  change (with_values (v :: vs) x) with (with_value v (with_values vs x)).
  by rewrite first_reply_push.
Qed.

(** The failure a reading ends with is what its decoder answers. *)
Lemma read_all_failure d e :
  failure (read_all d) = Some e ->
  exists d', decode (after (read_all d)) = (Err e, d').
Proof.
  remember (length (buf d)) as n eqn:Hn. revert d Hn.
  induction n as [n IH] using lt_wf_ind. intros d ->. rewrite read_all_unroll.
  destruct (decode d) as [[[v|]|e'] d'] eqn:E; simpl; [|done|].
  - apply decode_value_shorter in E. intros H. by eapply IH.
  - intros [= ->]. assert (d' = d) as ->; [|by exists d].
    revert E. unfold decode. case_decide; [by intros [=]|].
    by case_match; intros [=].
Qed.

(** A decided answer is not changed by what follows. *)
Lemma first_reply_feed d c r :
  in_frame (feed d c) -> first_reply (read_all d) = r -> r <> Ok None ->
  first_reply (read_all (feed d c)) = r.
Proof.
  intros Hf Hr Hd. destruct (read_all_feed d c Hf) as [E Hf'].
  rewrite E. unfold first_reply in *. simpl. rewrite filter_app.
  destruct (filter _ (values (read_all d))) as [|v vs]; [|done]. simpl.
  destruct (failure (read_all d)) as [e|] eqn:Ef; [|by subst].
  destruct (read_all_failure _ _ Ef) as [d' Ed].
  destruct (decode_error_feed _ _ _ c Ed Hf') as [_ Ed'].
  rewrite read_all_unroll, Ed'. simpl. done.
Qed.

(** ** Properties *)

Lemma print_unsigned_signed n : 0 <= n -> print_unsigned n = print_signed n.
Proof. intros H. unfold print_signed. by rewrite decide_False by lia. Qed.

Lemma encode_command_resp3 argv : encode_command argv = encode_resp3 (VArray (map VBulk argv)).
Proof.
  unfold encode_command. cbn [encode_resp3]. unfold count_line, line_of.
  rewrite !print_unsigned_signed by apply zlen_nonneg. rewrite zlen_map.
  rewrite <- !app_assoc. do 3 f_equal. rewrite map_map. f_equal. apply map_ext. intros a.
  cbn [encode_resp3]. unfold count_line, line_of.
  rewrite print_unsigned_signed by apply zlen_nonneg. by rewrite <- !app_assoc.
Qed.

Lemma encode_command_decodes argv bud c :
  (2 <= max_depth bud)%nat ->
  fits (zlen argv) (max_elements bud) = true ->
  Forall (fun a => fits (zlen a) (max_bulk_bytes bud) = true) argv ->
  in_frame (mkDecoder (encode_command argv ++ c) bud) ->
  decode (mkDecoder (encode_command argv ++ c) bud) =
    (Ok (SValue (VArray (map VBulk argv))), mkDecoder c bud).
Proof.
  intros Hd Hn Ha Hf. rewrite encode_command_resp3 in *.
  rewrite (decode_in_frame _ Hf). cbn [buf budget]. rewrite encodable_reads_back.
  - cbn [normalise]. by rewrite map_map.
  - destruct (max_depth bud) as [|[|room]]; [lia..|]. cbn [encodable].
    rewrite zlen_map, Hn. apply forallb_Forall, Forall_map. eapply Forall_impl; [exact Ha|]. done.
Qed.

(** A command is sent as exactly its arguments: within the budget, the
    bytes written decode to the array of the arguments as bulk strings, with
    nothing left over, whatever bytes the arguments hold. *)
Theorem encode_command_exact argv bud c :
  (2 <= max_depth bud)%nat ->
  fits (zlen argv) (max_elements bud) = true ->
  Forall (fun a => fits (zlen a) (max_bulk_bytes bud) = true) argv ->
  in_frame (mkDecoder (encode_command argv ++ c) bud) ->
  decode (mkDecoder (encode_command argv ++ c) bud) =
    (Ok (SValue (VArray (map VBulk argv))), mkDecoder c bud).
Proof. apply encode_command_decodes. Qed.

Lemma encode_command_exact_witness :
  decode (mkDecoder (encode_command [bs "SET"; crlf; []] ++ bs "*") default_budget) =
    (Ok (SValue (VArray [VBulk (bs "SET"); VBulk crlf; VBulk []])), mkDecoder (bs "*") default_budget).
Proof.
  refine (encode_command_exact [bs "SET"; crlf; []] default_budget (bs "*") _ _ _ _).
  - simpl. lia.
  - reflexivity.
  - repeat constructor.
  - vm_compute. intros [=].
Defined.

(** A call reads the same reply however the server's bytes are split into
    reads: the first value that is not a push, else the decoder's failure, else
    [TruncatedReply] when the stream ends and the system's error when a read
    fails. *)
Theorem read_reply_chunk_independent rs d failing :
  Forall (fun c => c <> []) rs ->
  in_frame (feed d (concat rs)) ->
  (read_reply ((Ok <$> rs) ++ match failing with Some what => [Err what] | None => [] end) d).1.1 =
    match first_reply (read_all (feed d (concat rs))) with
    | Ok (Some v) => Ok v
    | Ok None => Err (match failing with Some what => Io what | None => TruncatedReply end)
    | Err e => Err e
    end.
Proof.
  intros Hrs. revert d. induction Hrs as [|c rs Hc _ IH]; intros d Hf; cbn [concat fmap list_fmap app] in *.
  - rewrite feed_nil. destruct (next_reply_spec (S (length (buf d))) d) as [<- _]; [lia|].
    destruct failing as [what|]; cbn [read_reply]; by destruct (next_reply _ d) as [[[v|]|e] d'].
  - cbn [read_reply]. destruct (next_reply_spec (S (length (buf d))) d) as [E1 E2]; [lia|].
    destruct (next_reply _ d) as [[[v|]|e] d']; cbn [fst snd] in *.
    + by rewrite (first_reply_feed _ _ (Ok (Some v))).
    + destruct E2 as (-> & Hp & Hn); [done|]. rewrite decide_False by done.
      destruct (read_all_feed d (c ++ concat rs) Hf) as [-> Hf'].
      rewrite <- !feed_feed in Hf'. rewrite IH by done.
      by rewrite feed_feed, first_reply_values.
    + by rewrite (first_reply_feed _ _ (Err e)).
Qed.

Lemma read_reply_chunk_independent_witness :
  (read_reply [Ok (bs ">1" ++ [x0d]); Ok ([x0a] ++ bs ":1" ++ crlf ++ bs "+O"); Ok (bs "K" ++ crlf)]
    with_defaults).1.1 = Ok (VSimple (bs "OK")).
Proof.
  refine (eq_trans (read_reply_chunk_independent
    [bs ">1" ++ [x0d]; [x0a] ++ bs ":1" ++ crlf ++ bs "+O"; bs "K" ++ crlf] with_defaults None _ _) _).
  - repeat constructor; discriminate.
  - vm_compute. intros [=].
  - vm_compute. reflexivity.
Defined.

(** A push that carries an attribute is returned as the reply of the call: the
    test made here does not look through the attribute. *)
Lemma attributed_push_taken_for_reply :
  let pushed := VAttribute [(VSimple (bs "k"), VSimple (bs "v"))] (VPush [VSimple (bs "m")]) in
  Output.is_push pushed = true /\
  (read_reply [Ok (bs "|1" ++ crlf ++ bs "+k" ++ crlf ++ bs "+v" ++ crlf ++ bs ">1" ++ crlf ++ bs "+m" ++ crlf
               ++ bs "+OK" ++ crlf)] with_defaults).1.1 = Ok pushed.
Proof. split; [reflexivity|vm_compute; reflexivity]. Qed.
