(* ===== verification/SafeText.v ===== *)
(** * The display trust boundary ([crates/pr-core/src/safetext.rs])

    Text from outside becomes a [SafeText]: its display form, with everything
    that could drive a terminal escaped, and its original bytes. *)

From S2P Require Import Prelude Text TextFacts.

Record SafeText := mkSafeText {
  escaped : str;
  raw : bytes;
  escaped_any : bool;
}.

#[export] Instance SafeText_eq_dec : EqDecision SafeText.
Proof. solve_decision. Defined.

Definition C1_START : Z := 128.
Definition C1_END : Z := 159.

Definition push_escaped_byte (b : byte) : str := chars "\x" ++ (bz <$> hex2 b).

Definition is_dangerous_char (c : Z) : bool :=
  if decide (c < 32 /\ c <> 9 /\ c <> 10 /\ c <> 13) then true
  else if decide (c = 127) then true
  else if decide (C1_START <= c <= C1_END) then true
  else bool_decide (c = 8206 \/ c = 8207 \/ 8234 <= c <= 8238 \/ 8294 <= c <= 8297).

(** What [push_str_escaped] appends, and whether it escaped anything. *)
Definition push_str_escaped (s : str) : str * bool :=
  (s ≫= (fun c => if is_dangerous_char c then encode_char c ≫= push_escaped_byte else [c]),
   existsb is_dangerous_char s).

(** The loop of [from_bytes]: validate, escape the valid part, escape the bytes
    that are not text, and go on after them. *)
Fixpoint from_bytes_loop (fuel : nat) (rest : bytes) : str * bool :=
  match fuel with
  | O => ([], false)
  | S f =>
      match utf8 rest with
      | (s, None) => push_str_escaped s
      | (s, Some (bad, error_len)) =>
          let '(good, any) := push_str_escaped s in
          let skip := Nat.max (default (length bad) error_len) 1 in
          let broken := take skip bad in
          let out := good ++ (broken ≫= push_escaped_byte) in
          let any' := any || bool_decide (broken <> []) in
          if decide (length bad <= skip)%nat then (out, any')
          else let '(more, any'') := from_bytes_loop f (drop skip bad) in
               (out ++ more, any' || any'')
      end
  end.

Definition from_bytes (b : bytes) : SafeText :=
  let '(e, any) := from_bytes_loop (S (length b)) b in mkSafeText e b any.

Definition from_str_escaped (s : str) : SafeText := from_bytes (encode_str s).
Definition trusted (s : str) : SafeText := mkSafeText s (encode_str s) false.
Definition as_display (t : SafeText) : str := escaped t.
Definition was_escaped (t : SafeText) : bool := escaped_any t.
Definition display_len (t : SafeText) : Z := zlen (escaped t).
Definition is_empty (t : SafeText) : bool := bool_decide (raw t = []).

(** ** Facts *)

Lemma escaped_byte_safe b :
  Forall (fun c => is_dangerous_char c = false) (push_escaped_byte b).
Proof.
  assert (forallb (fun c => negb (is_dangerous_char c)) (push_escaped_byte b) = true) as H.
  { revert b. by apply byte_forall. }
  apply Forall_forall. intros c Hc. rewrite forallb_forall in H.
  apply negb_true_iff. by apply H, list_elem_of_In.
Qed.

Lemma bind_safe {A} (f : A -> str) (s : list A) :
  (forall a, Forall (fun c => is_dangerous_char c = false) (f a)) ->
  Forall (fun c => is_dangerous_char c = false) (s ≫= f).
Proof. intros Hf. induction s; simpl; [constructor|]. by apply Forall_app. Qed.

Lemma push_str_escaped_safe s :
  Forall (fun c => is_dangerous_char c = false) (push_str_escaped s).1.
Proof.
  apply bind_safe. intros c. destruct (is_dangerous_char c) eqn:E.
  - apply bind_safe, escaped_byte_safe.
  - by constructor.
Qed.

Lemma from_bytes_loop_safe f b :
  Forall (fun c => is_dangerous_char c = false) (from_bytes_loop f b).1.
Proof.
  revert b. induction f as [|f IH]; intros b; cbn [from_bytes_loop]; [constructor|].
  destruct (utf8 b) as [s [[bad l]|]]; [|apply push_str_escaped_safe].
  pose proof (push_str_escaped_safe s) as Hs. destruct (push_str_escaped s) as [good any].
  cbn [fst] in Hs. case_decide; cbn [fst].
  - apply Forall_app. split; [done|]. apply bind_safe, escaped_byte_safe.
  - specialize (IH (drop (Nat.max (default (length bad) l) 1) bad)).
    destruct (from_bytes_loop f _) as [more any'']. cbn [fst] in *.
    apply Forall_app. split; [|done]. apply Forall_app. split; [done|].
    apply bind_safe, escaped_byte_safe.
Qed.

Lemma push_str_unescaped s :
  (push_str_escaped s).2 = false -> (push_str_escaped s).1 = s.
Proof.
  unfold push_str_escaped. cbn [fst snd]. set (f := fun c => _).
  induction s as [|c s IH]; cbn [existsb]; [done|]. intros [Hc Hs]%orb_false_iff.
  change (f c ++ (s ≫= f) = c :: s). rewrite IH by done. unfold f. by rewrite Hc.
Qed.

(** ** Properties *)

(** Whatever bytes arrive, the display form holds no character that can
    drive a terminal or reorder a line, and the original bytes are kept. *)
Theorem from_bytes_safe b :
  Forall (fun c => is_dangerous_char c = false) (as_display (from_bytes b)) /\
  raw (from_bytes b) = b.
Proof.
  unfold from_bytes, as_display. pose proof (from_bytes_loop_safe (S (length b)) b) as H.
  destruct (from_bytes_loop _ b) as [e any]. by split.
Qed.

Lemma from_bytes_loop_unescaped f b :
  (length b < f)%nat -> (from_bytes_loop f b).2 = false ->
  encode_str (from_bytes_loop f b).1 = b.
Proof.
  destruct f as [|f]; [lia|]. intros Hf. cbn [from_bytes_loop].
  destruct (utf8 b) as [s [[bad l]|]] eqn:E.
  - apply utf8_bad in E as [_ Hbad]. destruct (push_str_escaped s) as [good any].
    assert (take (Nat.max (default (length bad) l) 1) bad <> []) as Ht.
    { destruct bad; [done|]. by destruct (default _ l) as [|[]]. }
    rewrite bool_decide_true by done. rewrite orb_true_r. case_decide; [done|].
    by destruct (from_bytes_loop f _).
  - intros H. rewrite push_str_unescaped by done. by apply utf8_encode.
Qed.

(** Text that was not escaped is displayed unchanged: the display form
    encodes to exactly the bytes that arrived. *)
Theorem unescaped_is_verbatim b :
  was_escaped (from_bytes b) = false -> encode_str (as_display (from_bytes b)) = b.
Proof.
  unfold from_bytes, was_escaped, as_display.
  pose proof (from_bytes_loop_unescaped (S (length b)) b ltac:(lia)) as H.
  destruct (from_bytes_loop _ b). done.
Qed.

Lemma unescaped_is_verbatim_witness :
  encode_str (as_display (from_bytes (bs "player:" ++ [xc3; xa9]))) = bs "player:" ++ [xc3; xa9].
Proof. apply unescaped_is_verbatim. vm_compute. reflexivity. Defined.
