(* ===== verification/Request.v ===== *)
(** * Requests and their effects ([crates/pr-core/src/request.rs])

    A request carries its argument bytes exactly; approvals are bound to its
    canonical bytes, [len(argc)] then each length and argument, as 64-bit
    little-endian integers. *)

From S2P Require Import Prelude Text TextFacts SafeText.

Inductive RequestOrigin := User | Tui | Recipe | Agent | FromPipe | Discovery.

#[export] Instance RequestOrigin_eq_dec : EqDecision RequestOrigin.
Proof. solve_decision. Defined.

Definition requires_human_approval_for_writes (o : RequestOrigin) : bool :=
  match o with
  | Agent | FromPipe => true
  | _ => false
  end.

Record Effects := mkEffects {
  reads_data : bool;
  writes_data : bool;
  consumes_state : bool;
  blocks : bool;
  admin : bool;
  destructive : bool;
  unknown : bool;
}.

#[export] Instance Effects_eq_dec : EqDecision Effects.
Proof. solve_decision. Defined.

Definition effects_default : Effects := mkEffects false false false false false false false.
Definition effects_unknown : Effects := mkEffects false false false false false false true.
Definition effects_read : Effects := mkEffects true false false false false false false.
Definition effects_write : Effects := mkEffects false true false false false false false.

Definition mutates (e : Effects) : bool :=
  writes_data e || consumes_state e || admin e || destructive e || unknown e.

Record RequestBudget := mkRequestBudget {
  max_retained_bytes : Z;
  timeout_ms : Z;
  request_max_depth : Z;
}.

Definition default_request_budget : RequestBudget :=
  mkRequestBudget (16 * 1024 * 1024) 30000 64.

Record CommandRequest := mkRequest {
  args : list bytes;
  origin : RequestOrigin;
  effects : Effects;
  request_budget : RequestBudget;
}.

Definition new_request (a : list bytes) (o : RequestOrigin) (e : Effects) : CommandRequest :=
  mkRequest a o e default_request_budget.

(** [str::to_uppercase]: ASCII letters, and [upper] for every other character
    (the Unicode mapping, a table of the language's library). *)
Definition to_uppercase (upper : Z -> str) (s : str) : str :=
  s ≫= (fun c => if decide (c < 128) then [if decide (97 <= c <= 122) then c - 32 else c]
                 else upper c).

Definition command_name (upper : Z -> str) (r : CommandRequest) : option str :=
  match args r with
  | [] => None
  | first :: _ => to_uppercase upper <$> from_utf8 first
  end.

(** A [usize] as a little-endian [u64]. *)
Definition len_prefix (n : Z) : bytes := le_bytes 8 n.

Definition canonical_bytes (r : CommandRequest) : bytes :=
  len_prefix (zlen (args r)) ++ (args r ≫= (fun a => len_prefix (zlen a) ++ a)).

Definition display (r : CommandRequest) : SafeText := from_bytes (join (bs " ") (args r)).

(** ** Facts *)

Lemma le_bytes_length w n : length (le_bytes w n) = w.
Proof. revert n. induction w as [|w IH]; intros n; simpl; [done|]. by rewrite IH. Qed.

Lemma zb_mod z : zb z = zb (z mod 256).
Proof. unfold zb. by rewrite Z.mod_mod by lia. Qed.

Lemma zb_inj_mod x y : zb x = zb y -> x mod 256 = y mod 256.
Proof.
  intros E. rewrite (zb_mod x), (zb_mod y) in E.
  pose proof (Z.mod_pos_bound x 256 ltac:(lia)). pose proof (Z.mod_pos_bound y 256 ltac:(lia)).
  rewrite <- (bz_zb (x mod 256)), <- (bz_zb (y mod 256)) by done. by rewrite E.
Qed.

Lemma le_bytes_inj w m n :
  0 <= m < 256 ^ Z.of_nat w -> 0 <= n < 256 ^ Z.of_nat w -> le_bytes w m = le_bytes w n -> m = n.
Proof.
  revert m n. induction w as [|w IH]; intros m n Hm Hn; simpl.
  { simpl in *. lia. }
  rewrite Nat2Z.inj_succ, Z.pow_succ_r in Hm, Hn by lia.
  intros [= E0 E]. apply zb_inj_mod in E0. apply IH in E.
  - pose proof (Z.div_mod m 256). pose proof (Z.div_mod n 256). lia.
  - split; [apply Z.div_pos; lia|apply Z.div_lt_upper_bound; lia].
  - split; [apply Z.div_pos; lia|apply Z.div_lt_upper_bound; lia].
Qed.

(** Lengths are [u64]s. *)
Definition in_u64 (n : Z) : Prop := 0 <= n <= u64_max.
Definition addressable (argv : list bytes) : Prop :=
  in_u64 (zlen argv) /\ Forall (fun a => in_u64 (zlen a)) argv.

Lemma len_prefix_app m n x y :
  in_u64 m -> in_u64 n -> len_prefix m ++ x = len_prefix n ++ y -> m = n /\ x = y.
Proof.
  unfold in_u64, u64_max, len_prefix. intros Hm Hn E.
  apply app_inj_1 in E as [E ?]; [|by rewrite !le_bytes_length]. split; [|done].
  apply (le_bytes_inj 8) in E; [done|lia|lia].
Qed.

Lemma args_bytes_inj a b x y :
  length a = length b ->
  Forall (fun s => in_u64 (zlen s)) a -> Forall (fun s => in_u64 (zlen s)) b ->
  (a ≫= (fun s => len_prefix (zlen s) ++ s)) ++ x = (b ≫= (fun s => len_prefix (zlen s) ++ s)) ++ y ->
  a = b /\ x = y.
Proof.
  intros Hl Ha. revert b Hl. induction Ha as [|s a Hs _ IH]; intros [|t b] Hl Hb; try done.
  apply Forall_cons in Hb as [Ht Hb]. cbn [mbind list_bind]. rewrite <- !app_assoc.
  intros [En E]%len_prefix_app; [|done..].
  apply app_inj_1 in E as [-> E]; [|unfold zlen in En; lia].
  apply IH in E as [-> ->]; [done|by injection Hl|done].
Qed.

Lemma canonical_bytes_args r s x y :
  addressable (args r) -> addressable (args s) ->
  canonical_bytes r ++ x = canonical_bytes s ++ y -> args r = args s /\ x = y.
Proof.
  intros [Hr Hra] [Hs Hsa]. unfold canonical_bytes. rewrite <- !app_assoc.
  intros [En E]%len_prefix_app; [|done..].
  apply args_bytes_inj in E; [done|unfold zlen in En; lia|done|done].
Qed.

(** ** Properties *)

(** The canonical bytes determine the arguments, boundaries included, even
    when more bytes follow: no two requests, and no request and a longer
    stream, share them. *)
Theorem canonical_bytes_injective r s x y :
  addressable (args r) -> addressable (args s) ->
  canonical_bytes r ++ x = canonical_bytes s ++ y -> args r = args s /\ x = y.
Proof. apply canonical_bytes_args. Qed.

Lemma canonical_bytes_injective_witness :
  let r := new_request [bs "SET"; bs "k"] User effects_write in
  args r = [bs "SET"; bs "k"] /\ bs "z" = bs "z".
Proof.
  refine (canonical_bytes_injective (new_request [bs "SET"; bs "k"] User effects_write)
    (new_request [bs "SET"; bs "k"] Agent effects_read) (bs "z") (bs "z") _ _ _).
  - split; [split; vm_compute; intros [=]|]. repeat constructor; vm_compute; intros [=].
  - split; [split; vm_compute; intros [=]|]. repeat constructor; vm_compute; intros [=].
  - vm_compute. reflexivity.
Defined.
