(* ===== verification/Outcome.v ===== *)
(** * Execution outcomes and exit codes ([crates/pr-core/src/outcome.rs])

    Four independent dimensions; a composite reply holds outcomes of its own. *)

From S2P Require Import Prelude Text SafeText.

Inductive Delivery := NotSent | CancelledBeforeSend | DeniedByPolicy | Sent | UnknownAfterSend.

Inductive EffectsCertainty :=
| NoCommandSent
| ReplyObserved
| ConditionNotApplied
| EffectsPossible
| KnownPartial
| UnacknowledgedByMode.

Inductive RenderStatus :=
| NotRendered
| Rendered
| RenderFailed (diagnostic : str)
| Truncated (first last : Z).

Record ServerError := mkServerError {
  code : str;
  message : SafeText;
}.

(** [str::split_once] at a space. *)
Fixpoint split_once_space (s : str) : option (str * str) :=
  match s with
  | [] => None
  | c :: r => if decide (c = 32) then Some ([], r)
              else match split_once_space r with
                   | Some (a, b) => Some (c :: a, b)
                   | None => None
                   end
  end.

Definition parse_server_error (b : bytes) : ServerError :=
  let text := from_utf8_lossy b in
  let '(c, rest) := default (text, []) (split_once_space text) in
  mkServerError c (from_str_escaped rest).

(** [Reply], over the type of the outcomes a composite reply holds. *)
Inductive Reply (O : Type) :=
| RNone
| ROk (handle : Z)
| RError (e : ServerError)
| RQueued
| SuppressedByReplyMode
| Partial (children : list O).
Arguments RNone {O}.
Arguments ROk {O} handle.
Arguments RError {O} e.
Arguments RQueued {O}.
Arguments SuppressedByReplyMode {O}.
Arguments Partial {O} children.

#[warnings="-register-all"]
Inductive ExecutionOutcome :=
| mkOutcome (delivery : Delivery) (reply : Reply ExecutionOutcome) (effects : EffectsCertainty)
    (render : RenderStatus).

Definition delivery (o : ExecutionOutcome) := let '(mkOutcome d _ _ _) := o in d.
Definition reply (o : ExecutionOutcome) := let '(mkOutcome _ r _ _) := o in r.
Definition effects (o : ExecutionOutcome) := let '(mkOutcome _ _ e _) := o in e.
Definition render (o : ExecutionOutcome) := let '(mkOutcome _ _ _ x) := o in x.

#[export] Instance Delivery_eq_dec : EqDecision Delivery.
Proof. solve_decision. Defined.
#[export] Instance EffectsCertainty_eq_dec : EqDecision EffectsCertainty.
Proof. solve_decision. Defined.

Inductive ExitCode :=
| Success
| Usage
| Connection
| CommandError
| PolicyDenied
| ResultUnknown
| PartialBatch
| LocalFailure
| SentUnacknowledged
| Cancelled.

#[export] Instance ExitCode_eq_dec : EqDecision ExitCode.
Proof. solve_decision. Defined.

Definition exit_status (c : ExitCode) : Z :=
  match c with
  | Success => 0
  | Usage => 2
  | Connection => 3
  | CommandError => 4
  | PolicyDenied => 5
  | ResultUnknown => 6
  | PartialBatch => 7
  | LocalFailure => 8
  | SentUnacknowledged => 9
  | Cancelled => 130
  end.

Definition not_sent : ExecutionOutcome := mkOutcome NotSent RNone NoCommandSent NotRendered.
Definition confirmed (handle : Z) : ExecutionOutcome :=
  mkOutcome Sent (ROk handle) ReplyObserved Rendered.

Definition unsettled (e : EffectsCertainty) : bool :=
  match e with
  | EffectsPossible | KnownPartial => true
  | _ => false
  end.

Definition is_uncertain (o : ExecutionOutcome) : bool :=
  bool_decide (delivery o = UnknownAfterSend) || unsettled (effects o).

(** The part of [exit_code] after the composite case. *)
Definition leaf_exit_code (d : Delivery) (r : Reply ExecutionOutcome) (e : EffectsCertainty) (x : RenderStatus)
  : ExitCode :=
  if unsettled e then ResultUnknown
  else if decide (d = DeniedByPolicy) then PolicyDenied
  else match r with
  | RError _ => CommandError
  | SuppressedByReplyMode => SentUnacknowledged
  | _ =>
      if decide (e = UnacknowledgedByMode) then SentUnacknowledged
      else match x with
      | RenderFailed _ => LocalFailure
      | _ => if decide (d = CancelledBeforeSend) then Cancelled else Success
      end
  end.

Fixpoint exit_code (o : ExecutionOutcome) : ExitCode :=
  let '(mkOutcome d r e x) := o in
  if decide (d = UnknownAfterSend) then ResultUnknown
  else match r with
  | Partial children =>
      let codes := map exit_code children in
      if existsb (fun c => bool_decide (c = ResultUnknown)) codes then ResultUnknown
      else if existsb (fun c => bool_decide (c <> Success)) codes then PartialBatch
      else Success
  | _ => leaf_exit_code d r e x
  end.

(** ** Outcomes within an outcome *)

(** [part_of o o']: [o] is [o'] or lies within its composite replies. *)
Inductive part_of : ExecutionOutcome -> ExecutionOutcome -> Prop :=
| part_self o : part_of o o
| part_child o c d cs e x :
    part_of o c -> c ∈ cs -> part_of o (mkOutcome d (Partial cs) e x).

Definition is_composite (o : ExecutionOutcome) : bool :=
  match reply o with
  | Partial _ => true
  | _ => false
  end.

Lemma leaf_exit_unknown d r e x :
  leaf_exit_code d r e x <> ResultUnknown -> unsettled e = false.
Proof. unfold leaf_exit_code. by destruct (unsettled e). Qed.

Lemma exit_leaf o :
  is_composite o = false -> delivery o <> UnknownAfterSend ->
  exit_code o = leaf_exit_code (delivery o) (reply o) (effects o) (render o).
Proof.
  destruct o as [d r e x]. unfold is_composite. simpl. intros Hc Hd.
  rewrite decide_False by done. by destruct r.
Qed.

Lemma exit_composite d cs e x :
  d <> UnknownAfterSend ->
  exit_code (mkOutcome d (Partial cs) e x) =
    if existsb (fun c => bool_decide (c = ResultUnknown)) (map exit_code cs) then ResultUnknown
    else if existsb (fun c => bool_decide (c <> Success)) (map exit_code cs) then PartialBatch
    else Success.
Proof. intros Hd. simpl. by rewrite decide_False. Qed.

Lemma exit_delivery o : exit_code o <> ResultUnknown -> delivery o <> UnknownAfterSend.
Proof. destruct o as [d r e x]. simpl. by case_decide. Qed.

Lemma existsb_false_elem {A} (f : A -> bool) l x : existsb f l = false -> x ∈ l -> f x = false.
Proof.
  intros H Hx. destruct (f x) eqn:E; [|done].
  assert (existsb f l = true) as H'; [|congruence].
  apply existsb_exists. exists x. split; [by apply list_elem_of_In|done].
Qed.

Lemma exit_child c d cs e x :
  c ∈ cs -> exit_code (mkOutcome d (Partial cs) e x) <> ResultUnknown ->
  exit_code c <> ResultUnknown /\
  (exit_code (mkOutcome d (Partial cs) e x) = Success -> exit_code c = Success).
Proof.
  intros Hc H. pose proof (exit_delivery _ H) as Hd. simpl in Hd.
  rewrite exit_composite in * by done.
  assert (exit_code c ∈ map exit_code cs) as Hm by (by apply list_elem_of_fmap_2).
  destruct (existsb _ _) eqn:E1; [done|].
  pose proof (existsb_false_elem _ _ _ E1 Hm) as N1. apply bool_decide_eq_false in N1.
  split; [done|]. destruct (existsb (fun c => bool_decide (c <> Success)) _) eqn:E2; [done|].
  intros _. pose proof (existsb_false_elem _ _ _ E2 Hm) as N2.
  apply bool_decide_eq_false, dec_stable in N2. done.
Qed.

(** ** Properties *)

(** An exit code other than [ResultUnknown] means nothing inside is in
    doubt: no part of the outcome was lost after sending, and every simple part
    has settled effects. *)
Theorem exit_code_settled o p :
  exit_code o <> ResultUnknown -> part_of p o ->
  delivery p <> UnknownAfterSend /\ (is_composite p = false -> is_uncertain p = false).
Proof.
  intros H Hp. revert H. induction Hp as [o|o c d cs e x _ IH Hc]; intros H.
  - pose proof (exit_delivery _ H) as Hd. split; [done|]. intros Hs.
    rewrite exit_leaf in H by done. apply leaf_exit_unknown in H.
    unfold is_uncertain. by rewrite bool_decide_false, H.
  - apply IH. by eapply exit_child.
Qed.

Definition mixed_batch : ExecutionOutcome :=
  mkOutcome Sent (Partial [confirmed 1; mkOutcome Sent (RError (mkServerError [] (trusted [])))
    ReplyObserved Rendered]) ReplyObserved Rendered.

Lemma exit_code_settled_witness : delivery (confirmed 1) <> UnknownAfterSend.
Proof.
  refine (proj1 (exit_code_settled mixed_batch (confirmed 1) _ _)).
  - vm_compute. intros [=].
  - eapply part_child; [apply part_self|]. apply list_elem_of_here.
Defined.

(** Exit status 130 is kept for a cancellation with nothing in doubt: it is
    returned exactly when the request was cancelled before sending, is not
    composite, carries no error and no suppressed reply, has settled effects
    and was not spoiled by a rendering failure. *)
Theorem exit_code_cancelled o :
  exit_code o = Cancelled <->
  delivery o = CancelledBeforeSend /\ is_composite o = false /\ is_uncertain o = false /\
  effects o <> UnacknowledgedByMode /\
  (forall e, reply o <> RError e) /\ reply o <> SuppressedByReplyMode /\
  (forall d, render o <> RenderFailed d).
Proof.
  destruct o as [d r e x]. unfold is_composite, is_uncertain, leaf_exit_code. simpl. split.
  - intros H. destruct d; simpl in H; try done;
      destruct r; try (by repeat case_match); unfold leaf_exit_code in H;
      destruct e, x; simpl in *; simplify_eq; try (by repeat case_match); by split_and!.
  - intros (-> & Hc & Hu & He & Hr & Hs & Hx). simpl.
    destruct r; try done; try (by destruct (Hr e0)); unfold leaf_exit_code;
      destruct e; try done; destruct x; try done; by destruct (Hx diagnostic).
Qed.

(** A composite's own effects do not reach its exit code. *)
Example composite_effects_ignored :
  let o := mkOutcome Sent (Partial [confirmed 1]) EffectsPossible Rendered in
  exit_code o = Success /\ is_uncertain o = true.
Proof. split; reflexivity. Qed.
