(* ===== verification/Precedence.v ===== *)
(** * Local authority over command effects ([crates/pr-catalog/src/precedence.rs])

    The local catalog decides effects; what a server reports changes
    availability and what is displayed. *)

From S2P Require Import Prelude Text Request.

Record LocalSpec := mkLocalSpec {
  spec_name : str;
  spec_effects : Effects;
  documented : bool;
}.

Section names.
Context (upper : Z -> str).

Definition known (name : str) (e : Effects) : LocalSpec :=
  mkLocalSpec (to_uppercase upper name) e true.
Definition unknown_spec (name : str) : LocalSpec :=
  mkLocalSpec (to_uppercase upper name) effects_unknown false.
End names.

(** Flags are compared as ASCII; a flag is the bytes of a string. *)
Record RemoteReport := mkRemoteReport {
  present : bool;
  flags : list bytes;
  summary : option str;
}.

Inductive Availability := ObservedSupported | ObservedUnsupported | UnknownAvailability.

Record Resolved := mkResolved {
  resolved_name : str;
  resolved_effects : Effects;
  availability : Availability;
  server_flags : list bytes;
  server_disagrees : bool;
}.

Definition has_flag (fs : list bytes) (f : string) : bool :=
  existsb (fun x => eq_ignore_ascii_case x (bs f)) fs.

Definition effects_from_flags (fs : list bytes) : option Effects :=
  let has := has_flag fs in
  if negb (has "readonly"%string) && negb (has "write"%string) && negb (has "admin"%string)
  then None
  else Some (mkEffects (has "readonly"%string || has "write"%string) (has "write"%string) false
               (has "blocking"%string) (has "admin"%string) false false).

Definition resolve (l : LocalSpec) (remote : option RemoteReport) : Resolved :=
  let av := match remote with
            | None => UnknownAvailability
            | Some r => if present r then ObservedSupported else ObservedUnsupported
            end in
  let fs := match remote with
            | Some r => flags r
            | None => []
            end in
  let disagrees :=
    match documented l, effects_from_flags fs with
    | true, Some claimed =>
        negb (bool_decide (writes_data claimed = writes_data (spec_effects l)))
        || negb (bool_decide (admin claimed = admin (spec_effects l)))
    | _, _ => false
    end in
  mkResolved (spec_name l) (spec_effects l) av fs disagrees.

Definition resolved_mutates (r : Resolved) : bool := mutates (resolved_effects r).

Definition disagreement_note (r : Resolved) : option bytes :=
  if negb (server_disagrees r) then None
  else Some (bs "server reports: " ++ join (bs ", ") (server_flags r)).

(** A server cannot loosen policy: whatever it reports, the effects are
    the local catalog's, and a command the catalog does not know stays unknown
    and counts as mutating; a server that calls a documented write read-only is
    reported as disagreeing. *)
Theorem remote_never_loosens upper name e remote :
  resolved_effects (resolve (known upper name e) remote) = e /\
  resolved_mutates (resolve (unknown_spec upper name) remote) = true /\
  (writes_data e = true ->
   forall r, remote = Some r -> has_flag (flags r) "readonly" = true ->
   has_flag (flags r) "write" = false ->
   server_disagrees (resolve (known upper name e) remote) = true).
Proof.
  split_and!; [done|done|]. intros He r -> Hr Hw. unfold resolve, effects_from_flags. simpl.
  rewrite Hr, Hw. simpl. by rewrite He.
Qed.

Lemma remote_never_loosens_witness :
  server_disagrees (resolve (known (fun c => [c]) (chars "set") effects_write)
    (Some (mkRemoteReport true [bs "ReadOnly"] None))) = true.
Proof.
  refine (proj2 (proj2 (remote_never_loosens (fun c => [c]) (chars "set") effects_write
    (Some (mkRemoteReport true [bs "ReadOnly"] None)))) eq_refl _ eq_refl _ _); vm_compute; reflexivity.
Defined.
