(* ===== verification/Admission.v ===== *)
(** * Admission of piped commands ([crates/pr-application/src/pipe.rs])

    Every frame of a piped stream is decoded, classified by the local catalog
    and put through the policy; the first that cannot be admitted stops the
    stream. *)

From S2P Require Import Prelude Text TextFacts Value Decoder DecoderFacts Framing Output Roundtrip.
From S2P Require Import Oneshot SafeText Request Outcome Precedence.

Inductive PipeError :=
| NotACommand (index offset : Z)
| Malformed (index offset : Z) (reason : string)
| StreamTruncated (index offset : Z)
| Refused (index : Z) (command : str) (reason : string).

Definition pipe_error_exit_code (e : PipeError) : ExitCode :=
  match e with
  | NotACommand _ _ | Malformed _ _ _ | StreamTruncated _ _ => Usage
  | Refused _ _ _ => PolicyDenied
  end.

Record PipePolicy := mkPipePolicy {
  allow_writes : bool;
  allow_destructive : bool;
  allow_unclassified : bool;
  allow_pipe : bool;
}.

Definition development : PipePolicy := mkPipePolicy true false true true.
Definition production : PipePolicy := mkPipePolicy false false false true.
Definition agent : PipePolicy := mkPipePolicy false false false false.

Record AdmittedCommand := mkAdmitted {
  index : Z;
  request : CommandRequest;
}.

Record Admission := mkAdmission {
  accepted : list AdmittedCommand;
  stopped : option PipeError;
}.

Definition admission_exit_code (a : Admission) : ExitCode :=
  match stopped a with
  | Some e => pipe_error_exit_code e
  | None => Success
  end.

Fixpoint all_bulks (items : list Value) : option (list bytes) :=
  match items with
  | [] => Some []
  | VBulk b :: r => cons b <$> all_bulks r
  | _ :: _ => None
  end.

Definition as_command (v : Value) : option (list bytes) :=
  match v with
  | VArray items => if decide (items = []) then None else all_bulks items
  | _ => None
  end.

Definition refuse_reason (e : Effects) (p : PipePolicy) : option string :=
  if unknown e && negb (allow_unclassified p) then
    Some "command is not classified by the local catalog"%string
  else if destructive e && negb (allow_destructive p) then
    Some "destructive commands are denied on this profile"%string
  else if (writes_data e || consumes_state e || admin e) && negb (allow_writes p) then
    Some "writes are denied on this profile"%string
  else None.

(** The catalog and the Unicode upper-case table are arguments. *)
Section admission.
Context (upper : Z -> str) (catalog : str -> option Effects).

Definition classify (name : str) : LocalSpec :=
  match catalog name with
  | Some e => known upper name e
  | None => unknown_spec upper name
  end.

(** The catalog name and the effects of a command. *)
Definition frame_name (argv : list bytes) : str :=
  to_uppercase upper (from_utf8_lossy (default [] (head argv))).
Definition frame_effects (argv : list bytes) : Effects :=
  resolved_effects (resolve (classify (frame_name argv)) None).

(** The loop of [admit_stream]; [acc], [i] and [off] are [accepted], [index] and
    [offset].  A round that goes on has consumed a frame. *)
Fixpoint admit_loop (policy : PipePolicy) (fuel : nat) (d : Decoder) (acc : list AdmittedCommand)
  (i off : Z) : Admission :=
  match fuel with
  | O => mkAdmission acc None
  | S f =>
      match decode d with
      | (Ok (SValue v), d') =>
          let consumed := buffered d - buffered d' in
          match as_command v with
          | None => mkAdmission acc (Some (NotACommand i off))
          | Some argv =>
              let name := frame_name argv in
              let e := frame_effects argv in
              match refuse_reason e policy with
              | Some reason => mkAdmission acc (Some (Refused i name reason))
              | None =>
                  admit_loop policy f d' (acc ++ [mkAdmitted i (new_request argv FromPipe e)])
                    (i + 1) (off + consumed)
              end
          end
      | (Ok Incomplete, d') =>
          if decide (buffered d' = 0) then mkAdmission acc None
          else mkAdmission acc (Some (StreamTruncated i off))
      | (Err e, d') =>
          let reason := match e with Protocol m | OverBudget m => m end in
          mkAdmission acc (Some (Malformed i off reason))
      end
  end.

Definition admit_stream (input : bytes) (policy : PipePolicy) : Admission :=
  if negb (allow_pipe policy) then
    mkAdmission [] (Some (Refused 0 [] "this origin may not use --pipe"))
  else
    let d := feed with_defaults input in
    admit_loop policy (S (length (buf d))) d [] 0 0.
End admission.

(** ** What admission guarantees: the frames of a stream *)

(** [frame u a]: the bytes [u] are exactly the encoding of the admitted
    command. *)
Definition frame (bud : Budget) (u : bytes) (a : AdmittedCommand) : Prop :=
  exists v, parse_value (max_depth bud) bud u = PDone v [] /\
            as_command v = Some (args (request a)).

(** Indices count up from [i]. *)
Fixpoint numbered (i : Z) (l : list AdmittedCommand) : Prop :=
  match l with
  | [] => True
  | a :: r => index a = i /\ numbered (i + 1) r
  end.

Section spec.
Context (upper : Z -> str) (catalog : str -> option Effects) (policy : PipePolicy).
Let effects_of := frame_effects upper catalog.

(** The request a frame becomes, and that the policy lets it through. *)
Definition permitted (a : AdmittedCommand) : Prop :=
  request a = new_request (args (request a)) FromPipe (effects_of (args (request a))) /\
  refuse_reason (effects_of (args (request a))) policy = None /\ args (request a) <> [].

(** Why a stream whose unread part is [d] stopped, at frame [i] and offset
    [off]. *)
Definition stops_at (d : Decoder) (i off : Z) (e : option PipeError) : Prop :=
  match e with
  | None => buf d = []
  | Some (NotACommand i' o) =>
      i' = i /\ o = off /\
      exists v d', decode d = (Ok (SValue v), d') /\ as_command v = None
  | Some (Refused i' name reason) =>
      i' = i /\
      exists v argv d', decode d = (Ok (SValue v), d') /\ as_command v = Some argv /\
        name = frame_name upper argv /\ refuse_reason (effects_of argv) policy = Some reason
  | Some (StreamTruncated i' o) =>
      i' = i /\ o = off /\ decode d = (Ok Incomplete, d) /\ buf d <> []
  | Some (Malformed i' o reason) =>
      i' = i /\ o = off /\
      exists e, decode d = (Err e, d) /\ reason = match e with Protocol m | OverBudget m => m end
  end.

Lemma as_command_nonempty v argv : as_command v = Some argv -> argv <> [].
Proof.
  destruct v; try done. simpl. case_decide; [done|].
  destruct items as [|w items]; [done|]. destruct w; try done. simpl.
  destruct (all_bulks items); [|done]. by intros [= <-].
Qed.

Lemma decode_frame d v d' :
  decode d = (Ok (SValue v), d') ->
  exists u, buf d = u ++ buf d' /\ u <> [] /\ budget d' = budget d /\
    parse_value (max_depth (budget d)) (budget d) u = PDone v [].
Proof.
  intros (_ & Hb & E)%decode_value_inv.
  destruct (parse_value_consumes _ _ _ _ _ E) as (u & Eu & Hu).
  exists u. split_and!; try done. rewrite Eu in E.
  pose proof (parse_value_local _ _ _ _ _ E []) as El. by rewrite app_nil_r in El.
Qed.

Lemma decode_same d r d' : decode d = (r, d') -> (forall v, r <> Ok (SValue v)) -> d' = d.
Proof.
  unfold decode. case_decide; [by intros [= _ <-]|].
  case_match; intros [= <- <-]; try done. intros Hv. by destruct (Hv a).
Qed.

(** Nothing admitted yet: no frames before the stop. *)
Ltac at_start :=
  rewrite app_nil_r; change (zlen (@nil AdmittedCommand)) with 0;
  change (zlen (concat (@nil bytes))) with 0; rewrite !Z.add_0_r; cbn [stopped stops_at concat app].

Lemma admit_loop_spec f d acc i off :
  (length (buf d) < f)%nat ->
  let res := admit_loop upper catalog policy f d acc i off in
  exists new frames d',
    accepted res = acc ++ new /\ budget d' = budget d /\
    buf d = concat frames ++ buf d' /\
    Forall2 (frame (budget d)) frames new /\ Forall permitted new /\ numbered i new /\
    stops_at d' (i + zlen new) (off + zlen (concat frames)) (stopped res).
Proof.
  revert d acc i off. induction f as [|f IH]; intros d acc i off Hf; [lia|]. cbn [admit_loop].
  destruct (decode d) as [[[v|]|e] d1] eqn:E.
  - destruct (decode_frame _ _ _ E) as (u & Eu & Hu & Hb & Ep).
    destruct (as_command v) as [argv|] eqn:Ec.
    2:{ exists [], [], d. at_start. split_and!; try (by constructor); eauto. }
    destruct (refuse_reason _ policy) as [reason|] eqn:Er.
    { exists [], [], d. at_start. split_and!; try (by constructor); eauto 8. }
    assert (length (buf d1) < f)%nat as Hf1.
    { rewrite Eu, length_app in Hf. destruct u; [done|]. simpl in Hf. lia. }
    set (a := mkAdmitted i _).
    destruct (IH d1 (acc ++ [a]) (i + 1) (off + (buffered d - buffered d1)) Hf1)
      as (new & frames & d' & Ea & Hb' & Ed & Hfr & Hp & Hn & Hs).
    exists (a :: new), (u :: frames), d'. rewrite Hb in *.
    split_and!; try done.
    + by rewrite Ea, <- app_assoc.
    + simpl. by rewrite <- app_assoc, <- Ed.
    + constructor; [|done]. by exists v.
    + constructor; [|done]. split_and!; [done|done|]. by eapply as_command_nonempty.
    + revert Hs. unfold buffered. rewrite Eu. cbn [concat]. rewrite !zlen_app, zlen_cons.
      replace (i + 1 + zlen new) with (i + (zlen new + 1)) by lia.
      by replace (off + (zlen u + zlen (buf d1) - zlen (buf d1)) + zlen (concat frames))
        with (off + (zlen u + zlen (concat frames))) by lia.
  - assert (d1 = d) as -> by (by eapply decode_same; [exact E|]). exists [], [], d.
    case_decide as Hd; at_start; split_and!; try done; try (by constructor).
    + unfold buffered, zlen in Hd. destruct (buf d); [done|]. simpl in Hd. lia.
    + intros En. apply Hd. unfold buffered. by rewrite En.
  - assert (d1 = d) as -> by (by eapply decode_same; [exact E|]). exists [], [], d. at_start. split_and!; try (by constructor); eauto.
Qed.
End spec.

(** ** Properties *)

(** C7. Policy cannot be bypassed by piping: every admitted command has the
    effects the local catalog gives its name (unknown when it has none), and
    the profile permits them: an unclassified, destructive or writing command
    is admitted only where that is allowed, and nothing is admitted for an
    origin that may not pipe. *)
Theorem admit_enforces_policy upper catalog policy input a :
  a ∈ accepted (admit_stream upper catalog input policy) ->
  allow_pipe policy = true /\
  Request.effects (request a) = default effects_unknown (catalog (frame_name upper (args (request a)))) /\
  (unknown (Request.effects (request a)) = true -> allow_unclassified policy = true) /\
  (destructive (Request.effects (request a)) = true -> allow_destructive policy = true) /\
  (writes_data (Request.effects (request a)) || consumes_state (Request.effects (request a))
   || admin (Request.effects (request a)) = true -> allow_writes policy = true) /\
  origin (request a) = FromPipe.
Proof.
  unfold admit_stream. destruct (allow_pipe policy); [|by intros ?%elem_of_nil]. intros Ha.
  destruct (admit_loop_spec upper catalog policy _ (feed with_defaults input) [] 0 0
    (Nat.lt_succ_diag_r _)) as (new & frames & d' & E & _ & _ & _ & Hp & _).
  cbn [negb] in Ha. rewrite E in Ha. simpl in Ha.
  rewrite Forall_forall in Hp. destruct (Hp _ Ha) as (Er & Hr & _).
  assert (frame_effects upper catalog (args (request a)) =
    default effects_unknown (catalog (frame_name upper (args (request a))))) as Ef.
  { unfold frame_effects, classify. by destruct (catalog _). }
  pose proof (f_equal Request.effects Er) as Ee. pose proof (f_equal origin Er) as Eo.
  cbn [Request.effects origin new_request] in Ee, Eo.
  rewrite Ee, Eo, <- Ef. revert Hr. unfold refuse_reason.
  destruct (frame_effects _ _ _) as [? w c ? ad de un]. simpl.
  destruct un, de, w, c, ad, (allow_unclassified policy), (allow_destructive policy),
    (allow_writes policy); simpl; try discriminate; intros _; split_and!; done.
Qed.

Definition sample_catalog (name : str) : option Effects :=
  if decide (name = chars "GET") then Some effects_read
  else if decide (name = chars "SET") then Some effects_write
  else None.

Lemma admit_enforces_policy_witness :
  Request.effects (new_request [bs "get"; bs "k"] FromPipe effects_read) =
  default effects_unknown (sample_catalog (frame_name (fun c => [c]) [bs "get"; bs "k"])).
Proof.
  refine (proj1 (proj2 (admit_enforces_policy (fun c => [c]) sample_catalog production
    (encode_command [bs "get"; bs "k"])
    (mkAdmitted 0 (new_request [bs "get"; bs "k"] FromPipe effects_read)) _))).
  vm_compute. apply list_elem_of_here.
Defined.

(** Admission is exact and fail-closed: the stream is the concatenation of
    the frames of the admitted commands, in order and numbered from 0, followed
    by an unread rest; it ends without an error only when that rest is empty,
    and otherwise the reported index and offset are those of the first frame
    not admitted, which is broken, cut short, not a command, or refused. *)
Theorem admit_exact upper catalog policy input :
  allow_pipe policy = true ->
  let res := admit_stream upper catalog input policy in
  exists frames rest,
    input = concat frames ++ rest /\
    Forall2 (frame default_budget) frames (accepted res) /\
    numbered 0 (accepted res) /\
    stops_at upper catalog policy (mkDecoder rest default_budget)
      (zlen (accepted res)) (zlen (concat frames)) (stopped res).
Proof.
  intros Hp. simpl. unfold admit_stream. rewrite Hp. cbn [negb].
  destruct (admit_loop_spec upper catalog policy _ (feed with_defaults input) [] 0 0
    (Nat.lt_succ_diag_r _)) as (new & frames & d' & E & Hb & Ed & Hfr & _ & Hn & Hs).
  rewrite E. exists frames, (buf d'). simpl in *. split_and!; try done.
  destruct d' as [b bud]. simpl in *. by subst.
Qed.

Lemma admit_exact_witness :
  exists frames rest,
    encode_command [bs "GET"; bs "k"] ++ bs "*1" = concat frames ++ rest /\
    stops_at (fun c => [c]) sample_catalog production (mkDecoder rest default_budget) 1
      (zlen (concat frames)) (Some (StreamTruncated 1 20)).
Proof.
  destruct (admit_exact (fun c => [c]) sample_catalog production
    (encode_command [bs "GET"; bs "k"] ++ bs "*1") eq_refl) as (frames & rest & E & _ & _ & H).
  exists frames, rest. split; [exact E|]. revert H.
  replace (zlen _) with 1 by (vm_compute; reflexivity).
  replace (stopped _) with (Some (StreamTruncated 1 20)) by (vm_compute; reflexivity).
  exact (fun H => H).
Defined.

(** ** Completeness *)

(** A command the decoder's default budget can carry. *)
Definition sendable (argv : list bytes) : Prop :=
  argv <> [] /\ fits (zlen argv) (max_elements default_budget) = true /\
  Forall (fun a => fits (zlen a) (max_bulk_bytes default_budget) = true) argv.

Fixpoint admitted_from (upper : Z -> str) (catalog : str -> option Effects) (i : Z)
  (argvs : list (list bytes)) : list AdmittedCommand :=
  match argvs with
  | [] => []
  | argv :: r =>
      mkAdmitted i (new_request argv FromPipe (frame_effects upper catalog argv))
      :: admitted_from upper catalog (i + 1) r
  end.

Lemma all_bulks_map argv : all_bulks (map VBulk argv) = Some argv.
Proof. induction argv as [|a argv IH]; simpl; [done|]. by rewrite IH. Qed.

Lemma as_command_array argv : argv <> [] -> as_command (VArray (map VBulk argv)) = Some argv.
Proof.
  intros Hne. unfold as_command. rewrite decide_False by (by destruct argv).
  apply all_bulks_map.
Qed.

Lemma decode_command argv c :
  sendable argv -> zlen (encode_command argv ++ c) <= max_frame_bytes default_budget ->
  decode (mkDecoder (encode_command argv ++ c) default_budget) =
    (Ok (SValue (VArray (map VBulk argv))), mkDecoder c default_budget).
Proof.
  intros (_ & Hn & Ha) Hf. by apply encode_command_decodes; [simpl; lia|..].
Qed.

Lemma admit_loop_commands upper catalog policy f argvs acc i off :
  (length (concat (map encode_command argvs)) < f)%nat ->
  Forall sendable argvs ->
  Forall (fun argv => refuse_reason (frame_effects upper catalog argv) policy = None) argvs ->
  zlen (concat (map encode_command argvs)) <= max_frame_bytes default_budget ->
  admit_loop upper catalog policy f
    (mkDecoder (concat (map encode_command argvs)) default_budget) acc i off =
  mkAdmission (acc ++ admitted_from upper catalog i argvs) None.
Proof.
  revert f acc i off. induction argvs as [|argv argvs IH]; intros [|f] acc i off Hf Hs Hr Hz;
    try lia; cbn [map concat] in *.
  { simpl. by rewrite app_nil_r. }
  apply Forall_cons in Hs as [Ha Hs], Hr as [Hra Hr]. cbn [admit_loop].
  rewrite decode_command by done. destruct Ha as (Hne & _).
  rewrite as_command_array, Hra by done. cbn [admitted_from].
  rewrite length_app in Hf. rewrite zlen_app in Hz.
  pose proof (zlen_nonneg (encode_command argv)).
  rewrite IH; [by rewrite <- app_assoc|simpl in Hf; lia|done|done|lia].
Qed.

(** Nothing legitimate is lost: commands within the decoder's limits that
    the policy permits are all admitted from their encodings, in order, and the
    stream ends cleanly. *)
Theorem admit_complete upper catalog policy argvs :
  allow_pipe policy = true ->
  Forall sendable argvs ->
  Forall (fun argv => refuse_reason (frame_effects upper catalog argv) policy = None) argvs ->
  zlen (concat (map encode_command argvs)) <= max_frame_bytes default_budget ->
  admit_stream upper catalog (concat (map encode_command argvs)) policy =
    mkAdmission (admitted_from upper catalog 0 argvs) None.
Proof.
  intros Hp Hs Hr Hz. unfold admit_stream. rewrite Hp. cbn [negb].
  by apply (admit_loop_commands _ _ _ _ _ []); [apply Nat.lt_succ_diag_r|..].
Qed.

Lemma admit_complete_witness :
  stopped (admit_stream (fun c => [c]) sample_catalog
    (concat (map encode_command [[bs "GET"; bs "a"]; [bs "get"; crlf]])) production) = None.
Proof.
  rewrite (admit_complete (fun c => [c]) sample_catalog production
    [[bs "GET"; bs "a"]; [bs "get"; crlf]]); [reflexivity|reflexivity| | |].
  - repeat constructor; discriminate.
  - repeat constructor.
  - vm_compute. intros [=].
Defined.
