(* ===== verification/Session.v ===== *)
(** * Connection session state ([crates/pr-core/src/session.rs])

    What the client believes about a connection, as the commands it sends and
    the disconnections it meets change it. *)

From S2P Require Import Prelude Text SafeText Outcome.

Inductive Protocol := Resp2 | Resp3.
Inductive ReplyMode := ReplyOn | ReplyOff | SkipNext.
Inductive TxState :=
| TxNone
| Watching (keys : Z)
| Queuing (queued : Z) (had_error : bool).
Inductive SessionRefusal := ProbeInsideTransaction | ProbeWhileReplySuppressed | NoTransaction.

#[export] Instance Protocol_eq_dec : EqDecision Protocol.
Proof. solve_decision. Defined.
#[export] Instance ReplyMode_eq_dec : EqDecision ReplyMode.
Proof. solve_decision. Defined.
#[export] Instance TxState_eq_dec : EqDecision TxState.
Proof. solve_decision. Defined.

Record SessionState := mkSession {
  protocol : Protocol;
  db : Z;
  reply_mode : ReplyMode;
  tx : TxState;
  subscribed : bool;
  identity_epoch : Z;
  scope_epoch : Z;
}.

Definition fresh_session : SessionState := mkSession Resp2 0 ReplyOn TxNone false 0 0.

Definition set_protocol (p : Protocol) (s : SessionState) : SessionState :=
  mkSession p (db s) (reply_mode s) (tx s) (subscribed s) (identity_epoch s) (scope_epoch s).
Definition set_reply_mode (m : ReplyMode) (s : SessionState) : SessionState :=
  mkSession (protocol s) (db s) m (tx s) (subscribed s) (identity_epoch s) (scope_epoch s).
Definition set_tx (t : TxState) (s : SessionState) : SessionState :=
  mkSession (protocol s) (db s) (reply_mode s) t (subscribed s) (identity_epoch s) (scope_epoch s).
Definition set_subscribed (b : bool) (s : SessionState) : SessionState :=
  mkSession (protocol s) (db s) (reply_mode s) (tx s) b (identity_epoch s) (scope_epoch s).
Definition select_db (n : Z) (s : SessionState) : SessionState :=
  mkSession (protocol s) n (reply_mode s) (tx s) (subscribed s) (identity_epoch s)
    (scope_epoch s + 1).

Definition is_queuing (t : TxState) : bool :=
  match t with
  | Queuing _ _ => true
  | _ => false
  end.

Definition may_probe (s : SessionState) : result SessionRefusal unit :=
  if is_queuing (tx s) then Err ProbeInsideTransaction
  else if decide (reply_mode s <> ReplyOn) then Err ProbeWhileReplySuppressed
  else Ok tt.

Definition expect_reply_for_next (s : SessionState) : bool * SessionState :=
  match reply_mode s with
  | ReplyOn => (true, s)
  | ReplyOff => (false, s)
  | SkipNext => (false, set_reply_mode ReplyOn s)
  end.

Definition bump_identity (s : SessionState) : SessionState :=
  mkSession (protocol s) (db s) (reply_mode s) (tx s) (subscribed s) (identity_epoch s + 1)
    (scope_epoch s + 1).

Definition reset (s : SessionState) : SessionState :=
  mkSession Resp2 0 ReplyOn TxNone false (identity_epoch s + 1) (scope_epoch s + 1).

(** [HELLO]. *)
Definition observe_hello (argv : list bytes) (s : SessionState) : SessionState :=
  let s1 := if decide (argv !! 1%nat = Some (bs "3")) then set_protocol Resp3 s
            else if decide (1 < length argv)%nat then set_protocol Resp2 s
            else s in
  if existsb (fun a => eq_ignore_ascii_case a (bs "AUTH")) argv then bump_identity s1 else s1.

(** [SELECT]; an argument that is not UTF-8 parses as the empty string. *)
Definition observe_select (argv : list bytes) (s : SessionState) : SessionState :=
  match argv !! 1%nat with
  | Some v => match (match from_utf8 v with
                     | Some _ => parse_unsigned u32_max v
                     | None => None
                     end) with
              | Some n => select_db n s
              | None => s
              end
  | None => s
  end.

(** [CLIENT REPLY ...]. *)
Definition observe_client (argv : list bytes) (s : SessionState) : SessionState :=
  match argv !! 1%nat with
  | Some sub =>
      if eq_ignore_ascii_case sub (bs "REPLY") then
        match to_ascii_uppercase <$> argv !! 2%nat with
        | Some m => if decide (m = bs "OFF") then set_reply_mode ReplyOff s
                    else if decide (m = bs "SKIP") then set_reply_mode SkipNext s
                    else if decide (m = bs "ON") then set_reply_mode ReplyOn s
                    else s
        | None => s
        end
      else s
  | None => s
  end.

Definition observe_command (argv : list bytes) (s : SessionState) : SessionState :=
  match argv with
  | [] => s
  | name :: _ =>
      let upper := to_ascii_uppercase name in
      if decide (upper = bs "HELLO") then observe_hello argv s
      else if decide (upper = bs "AUTH") then bump_identity s
      else if decide (upper = bs "RESET") then reset s
      else if decide (upper = bs "SELECT") then observe_select argv s
      else if decide (upper = bs "MULTI") then set_tx (Queuing 0 false) s
      else if decide (upper = bs "EXEC" \/ upper = bs "DISCARD") then set_tx TxNone s
      else if decide (upper = bs "WATCH") then
        match tx s with
        | TxNone => set_tx (Watching (Z.max 0 (zlen argv - 1))) s
        | _ => s
        end
      else if decide (upper = bs "UNWATCH") then
        match tx s with
        | Watching _ => set_tx TxNone s
        | _ => s
        end
      else if decide (upper = bs "SUBSCRIBE" \/ upper = bs "PSUBSCRIBE" \/ upper = bs "SSUBSCRIBE")
        then set_subscribed true s
      else if decide (upper = bs "UNSUBSCRIBE" \/ upper = bs "PUNSUBSCRIBE"
                      \/ upper = bs "SUNSUBSCRIBE")
        then set_subscribed false s
      else if decide (upper = bs "CLIENT") then observe_client argv s
      else match tx s with
           | Queuing q e => set_tx (Queuing (q + 1) e) s
           | _ => s
           end
  end.

Definition note_queue_error (s : SessionState) : SessionState :=
  match tx s with
  | Queuing q _ => set_tx (Queuing q true) s
  | _ => s
  end.

Definition queued_outcome : ExecutionOutcome := mkOutcome Sent RQueued EffectsPossible Rendered.

Record ReconnectLosses := mkLosses {
  had_transaction : bool;
  had_subscription : bool;
  reply_mode_was : ReplyMode;
  db_was : Z;
  protocol_was : Protocol;
}.

Definition on_disconnect (s : SessionState) : ReconnectLosses * SessionState :=
  (mkLosses (negb (bool_decide (tx s = TxNone))) (subscribed s) (reply_mode s) (db s) (protocol s),
   mkSession Resp2 0 ReplyOn TxNone false (identity_epoch s + 1) (scope_epoch s + 1)).

Definition needs_disclosure (l : ReconnectLosses) : bool :=
  had_transaction l || had_subscription l || bool_decide (reply_mode_was l <> ReplyOn).

(** ** Histories of a session *)

Inductive event :=
| Command (argv : list bytes)
| Expect
| QueueError
| Disconnect.

Definition apply_event (e : event) (s : SessionState) : SessionState :=
  match e with
  | Command argv => observe_command argv s
  | Expect => (expect_reply_for_next s).2
  | QueueError => note_queue_error s
  | Disconnect => (on_disconnect s).2
  end.

Inductive step : SessionState -> event -> SessionState -> Prop :=
| step_event s e : step s e (apply_event e s).

Inductive reachable : SessionState -> Prop :=
| reachable_fresh : reachable fresh_session
| reachable_step s e s' : reachable s -> step s e s' -> reachable s'.

(** An event changes the epochs in one of three ways. *)
Definition advanced (s s' : SessionState) : Prop :=
  (identity_epoch s' = identity_epoch s /\ scope_epoch s' = scope_epoch s) \/
  (identity_epoch s' = identity_epoch s /\ scope_epoch s' = scope_epoch s + 1) \/
  (identity_epoch s' = identity_epoch s + 1 /\ scope_epoch s' = scope_epoch s + 1).

Lemma advanced_refl s : advanced s s.
Proof. by left. Qed.

Lemma advanced_hello argv s : advanced s (observe_hello argv s).
Proof.
  unfold observe_hello, advanced. destruct (existsb _ argv); repeat case_decide; simpl; auto.
Qed.

Lemma advanced_select argv s : advanced s (observe_select argv s).
Proof.
  unfold observe_select, advanced. destruct (argv !! 1%nat) as [v|]; [|by auto].
  destruct (from_utf8 v); [|by auto]. destruct (parse_unsigned u32_max v); simpl; auto.
Qed.

(** [CLIENT] changes the reply mode at most. *)
Lemma observe_client_mode argv s : exists m, observe_client argv s = set_reply_mode m s.
Proof.
  assert (s = set_reply_mode (reply_mode s) s) as Es by (by destruct s).
  unfold observe_client. destruct (argv !! 1%nat); [|by eauto]. case_match; [|by eauto].
  destruct (to_ascii_uppercase <$> argv !! 2%nat); [|by eauto]. repeat case_decide; eauto.
Qed.

Lemma advanced_command argv s : advanced s (observe_command argv s).
Proof.
  destruct argv as [|name argv]; [apply advanced_refl|]. unfold observe_command.
  repeat (case_decide; [first [apply advanced_hello|apply advanced_select
    |by (destruct (observe_client_mode (name :: argv) s) as [m ->]; left)
    |by (unfold advanced; simpl; auto)|by (destruct (tx s); left)]|]).
  by destruct (tx s); left.
Qed.

Lemma epochs_step e s : advanced s (apply_event e s).
Proof.
  destruct e as [argv| | |]; simpl.
  - apply advanced_command.
  - unfold expect_reply_for_next. by destruct (reply_mode s); left.
  - unfold note_queue_error. by destruct (tx s); left.
  - right; right. by split.
Qed.

Definition keeps_transaction (argv : list bytes) : bool :=
  match argv with
  | [] => true
  | name :: _ => bool_decide (to_ascii_uppercase name ∉ [bs "EXEC"; bs "DISCARD"; bs "RESET"])
  end.

Definition stays_queuing (e : event) : bool :=
  match e with
  | Command argv => keeps_transaction argv
  | Expect | QueueError => true
  | Disconnect => false
  end.

Lemma tx_hello argv s : tx (observe_hello argv s) = tx s.
Proof. unfold observe_hello. destruct (existsb _ argv); by repeat case_decide. Qed.

Lemma tx_select argv s : tx (observe_select argv s) = tx s.
Proof. unfold observe_select. by repeat case_match. Qed.

Lemma queuing_command argv s :
  is_queuing (tx s) = true -> keeps_transaction argv = true ->
  is_queuing (tx (observe_command argv s)) = true.
Proof.
  destruct argv as [|name argv]; [done|]. unfold keeps_transaction, observe_command.
  intros Hq Hs. apply bool_decide_eq_true in Hs. rewrite !not_elem_of_cons in Hs.
  destruct Hs as (H1 & H2 & H3 & _).
  destruct (tx s) as [| |q e] eqn:Et; try done.
  repeat (case_decide; [first
    [done|by rewrite tx_hello, Et|by rewrite tx_select, Et
    |by (destruct (observe_client_mode (name :: argv) s) as [m ->]; simpl; rewrite Et)
    |by (simpl; rewrite Et)|by (exfalso; destruct_or?; congruence)]|]).
  done.
Qed.

Lemma queuing_step e s :
  is_queuing (tx s) = true -> stays_queuing e = true -> is_queuing (tx (apply_event e s)) = true.
Proof.
  destruct e as [argv| | |]; simpl; intros Hq Hs; [by apply queuing_command| | |done].
  - unfold expect_reply_for_next. by destruct (reply_mode s).
  - unfold note_queue_error. by destruct (tx s).
Qed.

(** ** Properties *)

(** Epochs never go back, and a change of identity always changes the
    observation scope: in every reachable state the scope epoch is at least the
    identity epoch, and along every history both only grow; a disconnection
    raises both. *)
Theorem epochs_monotone s :
  reachable s ->
  0 <= identity_epoch s <= scope_epoch s /\
  (forall e s', step s e s' ->
     identity_epoch s <= identity_epoch s' /\ scope_epoch s <= scope_epoch s' /\
     (identity_epoch s < identity_epoch s' -> scope_epoch s < scope_epoch s') /\
     (e = Disconnect -> identity_epoch s < identity_epoch s')).
Proof.
  intros Hs. split.
  - induction Hs as [|s e s' _ IH Hst]; [done|]. inversion Hst; subst.
    pose proof (epochs_step e s) as H. unfold advanced in H. lia.
  - intros e s' [t e']. pose proof (epochs_step e' t) as H. unfold advanced in H.
    split_and!; [lia|lia|lia|]. intros ->. simpl. lia.
Qed.

Lemma epochs_monotone_witness :
  let s := observe_command [bs "AUTH"; bs "x"] fresh_session in
  0 <= identity_epoch s <= scope_epoch s.
Proof.
  refine (proj1 (epochs_monotone (observe_command [bs "AUTH"; bs "x"] fresh_session) _)).
  eapply reachable_step; [apply reachable_fresh|].
  exact (step_event fresh_session (Command [bs "AUTH"; bs "x"])).
Defined.

(** C30. No background probe enters a transaction: from [MULTI] on, whatever
    else is sent or goes wrong, probes are refused until an [EXEC], a
    [DISCARD], a [RESET] or a disconnection; and whenever a probe is allowed,
    the session is not queuing and the next reply is the probe's own. *)
Theorem probe_never_in_transaction s name args es :
  to_ascii_uppercase name = bs "MULTI" ->
  Forall (fun e => stays_queuing e = true) es ->
  may_probe (foldl (fun s e => apply_event e s) (observe_command (name :: args) s) es) =
    Err ProbeInsideTransaction /\
  (forall s', may_probe s' = Ok tt ->
     is_queuing (tx s') = false /\ expect_reply_for_next s' = (true, s')).
Proof.
  intros Hn Hes. split.
  - assert (is_queuing (tx (observe_command (name :: args) s)) = true) as Hq.
    { unfold observe_command. rewrite Hn. done. }
    revert Hq. generalize (observe_command (name :: args) s) as t.
    induction Hes as [|e es He _ IH]; intros t Hq; simpl.
    + unfold may_probe. by rewrite Hq.
    + by apply IH, queuing_step.
  - intros s'. unfold may_probe, expect_reply_for_next.
    destruct (is_queuing (tx s')); [done|]. by destruct (reply_mode s').
Qed.

Lemma probe_never_in_transaction_witness :
  may_probe (foldl (fun s e => apply_event e s) (observe_command [bs "multi"] fresh_session)
    [Command [bs "SET"; bs "k"; bs "v"]; QueueError; Command [bs "CLIENT"; bs "REPLY"; bs "OFF"]])
  = Err ProbeInsideTransaction.
Proof.
  refine (proj1 (probe_never_in_transaction fresh_session (bs "multi") [] _ _ _)).
  - reflexivity.
  - repeat constructor.
Defined.

(** A disconnection leaves a clean connection and says what was lost: the
    transaction, subscription, reply mode, database and protocol are back to
    those of a fresh session, and nothing needs disclosing exactly when none of
    the first three was in use. *)
Theorem disconnect_clean s :
  let '(losses, s') := on_disconnect s in
  (protocol s', db s', reply_mode s', tx s', subscribed s') = (Resp2, 0, ReplyOn, TxNone, false) /\
  may_probe s' = Ok tt /\
  (needs_disclosure losses = false <->
     tx s = TxNone /\ subscribed s = false /\ reply_mode s = ReplyOn) /\
  s' = reset s.
Proof.
  simpl. split_and!; try done. unfold needs_disclosure. simpl.
  rewrite !orb_false_iff, negb_false_iff, bool_decide_eq_true, bool_decide_eq_false.
  split; [intros [[? ?] Hm]; split_and!; try done; by apply dec_stable in Hm|].
  intros (-> & -> & ->). split; [done|]. by intros [].
Qed.

(** A [SELECT] inside a transaction is only queued by the server, yet it changes
    the believed database at once and is not counted as queued. *)
Lemma select_in_transaction_applied :
  let s := observe_command [bs "SELECT"; bs "5"] (observe_command [bs "MULTI"] fresh_session) in
  db s = 5 /\ tx s = Queuing 0 false.
Proof. done. Qed.
