(* ===== verification/Signal.v ===== *)
(** * Interrupts and what they mean ([crates/pr-core/src/signal.rs])

    The meaning of Ctrl+C and Ctrl+Break by what the session is doing, and the
    counter through which the operating system delivers them. *)

From S2P Require Import Prelude Text.

Inductive Activity := Editing | Idle | Unsent | AwaitingReply | Blocked | Streaming | Batch.
Inductive Signal := Interrupt | Break.
Inductive Response :=
| ClearInput
| CancelUnsent
| StopWaiting
| CloseRequestSession
| EndStream
| StopIssuing
| Exit.

#[export] Instance Activity_eq_dec : EqDecision Activity.
Proof. solve_decision. Defined.
#[export] Instance Response_eq_dec : EqDecision Response.
Proof. solve_decision. Defined.

Definition leaves_effects_unknown (r : Response) : bool :=
  match r with
  | StopWaiting | CloseRequestSession | StopIssuing => true
  | _ => false
  end.

(** [Interrupts] is its one counter, [consecutive_idle]. *)
Record Interrupts := mkInterrupts { consecutive_idle : Z }.

Definition new_interrupts : Interrupts := mkInterrupts 0.
Definition activity (i : Interrupts) : Interrupts := mkInterrupts 0.

(** [on] for one Ctrl+C. *)
Definition on_interrupt (a : Activity) (i : Interrupts) : Response * Interrupts :=
  match a with
  | Idle =>
      let n := consecutive_idle i + 1 in
      (if decide (n >= 2) then Exit else ClearInput, mkInterrupts n)
  | Editing => (ClearInput, mkInterrupts 0)
  | Unsent => (CancelUnsent, mkInterrupts 0)
  | AwaitingReply => (StopWaiting, mkInterrupts 0)
  | Blocked => (CloseRequestSession, mkInterrupts 0)
  | Streaming => (EndStream, mkInterrupts 0)
  | Batch => (StopIssuing, mkInterrupts 0)
  end.

(** [on]: Ctrl+Break runs the rule twice. *)
Definition on (s : Signal) (a : Activity) (i : Interrupts) : Response * Interrupts :=
  match s with
  | Interrupt => on_interrupt a i
  | Break =>
      let '(first, i1) := on_interrupt a i in
      if decide (first = Exit) then (first, i1) else on_interrupt Idle i1
  end.

(** ** Delivery: the shared counter [PENDING], an atomic [u32] *)

Definition weight_of_event (ctrl_type : Z) : option Z :=
  if decide (ctrl_type = 0) then Some 1
  else if decide (ctrl_type = 1) then Some 2
  else None.

Definition deliver (ctrl_type : Z) (pending : Z) : bool * Z :=
  match weight_of_event ctrl_type with
  | Some n => (true, (pending + n) mod 2 ^ 32)
  | None => (false, pending)
  end.

Definition take_pending (pending : Z) : Z * Z := (pending, 0).

(** ** Histories *)

(** What reaches an [Interrupts]: a Ctrl+C in some activity, or anything else
    the user does. *)
Inductive input :=
| Pressed (a : Activity)
| Other.

Definition feed_input (i : Interrupts) (x : input) : Interrupts :=
  match x with
  | Pressed a => (on_interrupt a i).2
  | Other => activity i
  end.

(** The run of idle Ctrl+Cs a history ends with. *)
Definition idle_run (h : list input) : nat :=
  foldl (fun n x => match x with Pressed Idle => S n | _ => O end) O h.

Lemma consecutive_is_idle_run h :
  consecutive_idle (foldl feed_input new_interrupts h) = Z.of_nat (idle_run h).
Proof.
  unfold idle_run.
  assert (forall i n, consecutive_idle i = Z.of_nat n ->
    consecutive_idle (foldl feed_input i h) =
    Z.of_nat (foldl (fun n x => match x with Pressed Idle => S n | _ => O end) n h)) as H.
  { induction h as [|x h IH]; intros i n E; simpl; [done|]. apply IH.
    destruct x as [[]|]; simpl; lia. }
  by apply H.
Qed.

(** Ctrl+C leaves the program only at an empty prompt, and only when the
    thing just before it was also a Ctrl+C at an empty prompt: any other
    activity in between starts the count again. *)
Theorem exit_iff_twice_idle h a :
  (on Interrupt a (foldl feed_input new_interrupts h)).1 = Exit <->
  a = Idle /\ exists h', h = h' ++ [Pressed Idle].
Proof.
  pose proof (consecutive_is_idle_run h) as E. simpl.
  assert ((0 < idle_run h)%nat <-> exists h', h = h' ++ [Pressed Idle]) as Hrun.
  { unfold idle_run. destruct h as [|x h] using rev_ind; simpl.
    - split; [lia|]. intros [h' H]. by destruct h'.
    - rewrite foldl_app. simpl. split.
      + intros H. exists h. destruct x as [[]|]; by try lia.
      + intros [h' [-> ->]%app_inj_tail]. lia. }
  rewrite <- Hrun. destruct a; simpl; rewrite ?E; try (split; [done|by intros []]).
  case_decide; split; intros; try done; try lia. split; [done|lia].
Qed.

(** Ctrl+Break is two Ctrl+Cs, the second at an idle prompt unless the
    first already left. *)
Theorem break_is_two_interrupts a i :
  0 <= consecutive_idle i ->
  on Break a i =
    (if decide ((on Interrupt a i).1 = Exit) then on Interrupt a i
     else on Interrupt Idle (on Interrupt a i).2) /\
  (a = Idle -> (on Break a i).1 = Exit).
Proof.
  intros Hi. simpl. split.
  - by destruct (on_interrupt a i).
  - intros ->. simpl. repeat case_decide; simpl; try done; try lia; case_decide; try done; lia.
Qed.

Lemma break_is_two_interrupts_witness : (on Break Idle new_interrupts).1 = Exit.
Proof. refine (proj2 (break_is_two_interrupts Idle new_interrupts _) eq_refl). simpl. lia. Defined.

(** A Ctrl+Break while a reply is awaited answers [ClearInput]: that the
    request's effects became unknown is not in the response. *)
Example break_hides_uncertainty :
  leaves_effects_unknown (on Interrupt AwaitingReply new_interrupts).1 = true /\
  leaves_effects_unknown (on Break AwaitingReply new_interrupts).1 = false.
Proof. split; reflexivity. Qed.

(** ** Interleavings of the console thread and the program *)

Inductive delivery_step :=
| Deliver (ctrl_type : Z)
| TakePending.

(** The counter and what has been taken so far. *)
Definition run_step (st : Z * Z) (x : delivery_step) : Z * Z :=
  let '(pending, taken) := st in
  match x with
  | Deliver t => ((deliver t pending).2, taken)
  | TakePending => let '(n, pending') := take_pending pending in (pending', taken + n)
  end.

Definition weight (x : delivery_step) : Z :=
  match x with
  | Deliver t => default 0 (weight_of_event t)
  | TakePending => 0
  end.
Definition total_weight (xs : list delivery_step) : Z := foldr (fun x n => weight x + n) 0 xs.

Lemma step_weight_nonneg x : 0 <= weight x.
Proof. destruct x as [t|]; simpl; [|done]. unfold weight_of_event. repeat case_decide; simpl; lia. Qed.

Lemma total_weight_nonneg xs : 0 <= total_weight xs.
Proof. induction xs as [|x xs IH]; simpl; [done|]. pose proof (step_weight_nonneg x). lia. Qed.

(** No interrupt is lost or counted twice in any interleaving of
    deliveries and takes: as long as fewer than 2^32 are outstanding, what was
    taken and what is still pending add up to what was delivered. *)
Theorem delivery_conserves xs p t :
  0 <= p -> p + total_weight xs < 2 ^ 32 ->
  let '(p', t') := foldl run_step (p, t) xs in p' + t' = p + t + total_weight xs /\ 0 <= p'.
Proof.
  revert p t. induction xs as [|x xs IH]; intros p t Hp Hx; simpl in *; [lia|].
  pose proof (total_weight_nonneg xs) as Hw.
  destruct x as [c|]; simpl in *.
  - unfold deliver. destruct (weight_of_event c) as [n|] eqn:E; simpl in *.
    + pose proof (step_weight_nonneg (Deliver c)) as Hn. simpl in Hn. rewrite E in Hn. simpl in Hn.
      rewrite Z.mod_small by lia. specialize (IH (p + n) t ltac:(lia) ltac:(lia)).
      destruct (foldl run_step (p + n, t) xs). lia.
    + specialize (IH p t Hp ltac:(lia)). destruct (foldl run_step (p, t) xs). lia.
  - specialize (IH 0 (t + p) ltac:(lia) ltac:(lia)).
    destruct (foldl run_step (0, t + p) xs). lia.
Qed.

Lemma delivery_conserves_witness :
  foldl run_step (0, 0) [Deliver 1; TakePending; Deliver 0; Deliver 5] = (1, 2) /\ 1 + 2 = 0 + 0 + 3.
Proof.
  pose proof (delivery_conserves [Deliver 1; TakePending; Deliver 0; Deliver 5] 0 0
    ltac:(lia) ltac:(vm_compute; reflexivity)) as H.
  split; [reflexivity|]. exact (proj1 H).
Defined.
