(* ===== verification/Store.v ===== *)
(** * Bounded result retention ([crates/pr-results/src/store.rs])

    Results are kept under a byte budget, evicted oldest first, and dropped
    when the scope they were observed in ends. *)

From S2P Require Import Prelude.

Record StoreBudget := mkStoreBudget {
  total_bytes : Z;
  single_bytes : Z;
}.

Definition default_store_budget : StoreBudget :=
  mkStoreBudget (64 * 1024 * 1024) (16 * 1024 * 1024).

Inductive Unavailable := TooLarge | Evicted | UnknownResult | ScopeExpired.

Record Retained := mkRetained {
  handle : Z;
  contents : bytes;
  captured_in : Z;
}.

#[export] Instance Unavailable_eq_dec : EqDecision Unavailable.
Proof. solve_decision. Defined.
#[export] Instance Retained_eq_dec : EqDecision Retained.
Proof. solve_decision. Defined.

(** ** Replies that do not fit *)

Inductive OversizeAction := Prompt (declared : Z) | StreamAndMark | StreamOnly.

Record OutputContext := mkOutputContext {
  interactive : bool;
  declared_len : option Z;
  output_started : bool;
}.

Definition oversize_action (ctx : OutputContext) (b : StoreBudget) : OversizeAction :=
  if negb (interactive ctx) then StreamOnly
  else match declared_len ctx with
       | Some n => if decide (output_started ctx = false /\ n > single_bytes b) then Prompt n
                   else StreamAndMark
       | None => StreamAndMark
       end.

(** ** The store *)

Record ResultStore := mkStore {
  store_budget : StoreBudget;
  order : list Z;
  items : gmap Z Retained;
  evicted : list Z;
  too_large : list Z;
  used : Z;
  next_id : Z;
}.

Definition new_store (b : StoreBudget) : ResultStore := mkStore b [] ∅ [] [] 0 1.

Definition used_bytes (s : ResultStore) : Z := used s.
Definition store_len (s : ResultStore) : Z := Z.of_nat (size (items s)).
Definition store_is_empty (s : ResultStore) : bool := bool_decide (items s = ∅).

(** Forget one result: the body of the eviction loop. *)
Definition evict (oldest : Z) (rest : list Z) (s : ResultStore) : ResultStore :=
  match items s !! oldest with
  | Some old =>
      mkStore (store_budget s) rest (delete oldest (items s)) (evicted s ++ [oldest]) (too_large s)
        (used s - zlen (contents old)) (next_id s)
  | None => mkStore (store_budget s) rest (items s) (evicted s) (too_large s) (used s) (next_id s)
  end.

(** The [while] loop of [put]: evict until [size] fits or nothing is left. *)
Fixpoint make_room (ids : list Z) (size : Z) (s : ResultStore) : ResultStore :=
  match ids with
  | [] => s
  | oldest :: rest =>
      if decide (used s + size > total_bytes (store_budget s))
      then make_room rest size (evict oldest rest s)
      else s
  end.

Definition refuse_large (id : Z) (s : ResultStore) : ResultStore :=
  mkStore (store_budget s) (order s) (items s) (evicted s) (too_large s ++ [id]) (used s) (next_id s).

Definition keep (r : Retained) (s : ResultStore) : ResultStore :=
  mkStore (store_budget s) (order s ++ [handle r]) (<[handle r := r]> (items s)) (evicted s)
    (too_large s) (used s + zlen (contents r)) (next_id s).

Definition take_id (s : ResultStore) : ResultStore :=
  mkStore (store_budget s) (order s) (items s) (evicted s) (too_large s) (used s) (next_id s + 1).

Definition put (b : bytes) (epoch : Z) (s : ResultStore) : Z * ResultStore :=
  let id := next_id s in
  let s1 := take_id s in
  let size := zlen b in
  if decide (size > single_bytes (store_budget s)) then (id, refuse_large id s1)
  else
    let s2 := make_room (order s1) size s1 in
    if decide (used s2 + size > total_bytes (store_budget s2)) then (id, refuse_large id s2)
    else (id, keep (mkRetained id b epoch) s2).

Definition get (h : Z) (current_scope : Z) (s : ResultStore) : result Unavailable Retained :=
  match items s !! h with
  | Some r => if decide (captured_in r <> current_scope) then Err ScopeExpired else Ok r
  | None => if decide (h ∈ evicted s) then Err Evicted
            else if decide (h ∈ too_large s) then Err TooLarge
            else Err UnknownResult
  end.

(** [invalidate_scope]: the ids to drop are those of the map's entries from
    another epoch, in the order the hash map yields them. *)
Definition doomed (keep_epoch : Z) (s : ResultStore) (ids : list Z) : Prop :=
  NoDup ids /\
  forall id, id ∈ ids <-> exists r, items s !! id = Some r /\ captured_in r <> keep_epoch.

Definition drop_one (s : ResultStore) (id : Z) : ResultStore :=
  let used' := match items s !! id with
               | Some r => used s - zlen (contents r)
               | None => used s
               end in
  mkStore (store_budget s) (filter (fun o => o <> id) (order s)) (delete id (items s))
    (evicted s ++ [id]) (too_large s) used' (next_id s).

Definition invalidate_scope (ids : list Z) (s : ResultStore) : Z * ResultStore :=
  (zlen ids, foldl drop_one s ids).

(** ** Histories *)

Inductive store_step : ResultStore -> ResultStore -> Prop :=
| step_put s b epoch : store_step s (put b epoch s).2
| step_invalidate s keep_epoch ids :
    doomed keep_epoch s ids -> store_step s (invalidate_scope ids s).2.

Inductive store_reachable (b : StoreBudget) : ResultStore -> Prop :=
| store_fresh : store_reachable b (new_store b)
| store_next s s' : store_reachable b s -> store_step s s' -> store_reachable b s'.

(** ** The invariant *)

Definition size_of (s : ResultStore) (id : Z) : Z :=
  match items s !! id with
  | Some r => zlen (contents r)
  | None => 0
  end.
Definition sum_Z (ns : list Z) : Z := foldr Z.add 0 ns.

(** An id is retained, evicted or too large, and exactly one of them. *)
Record store_ok (s : ResultStore) : Prop := {
  ok_order : NoDup (order s);
  ok_items : forall id, id ∈ order s <-> is_Some (items s !! id);
  ok_handle : forall id r, items s !! id = Some r -> handle r = id;
  ok_single : forall id r, items s !! id = Some r ->
    zlen (contents r) <= single_bytes (store_budget s);
  ok_used : used s = sum_Z (map (size_of s) (order s));
  ok_total : 0 <= used s <= total_bytes (store_budget s);
  ok_next : 1 <= next_id s;
  ok_ids : forall id, (id ∈ order s \/ id ∈ evicted s \/ id ∈ too_large s) <-> 1 <= id < next_id s;
  ok_apart : forall id, (id ∈ order s -> (id ∉ evicted s) /\ (id ∉ too_large s)) /\
    (id ∈ evicted s -> (id ∉ too_large s));
}.

Lemma sum_Z_app l k : sum_Z (l ++ k) = sum_Z l + sum_Z k.
Proof. induction l as [|n l IH]; simpl; [done|]. unfold sum_Z in *. lia. Qed.

Lemma sum_filter_ne (f : Z -> Z) id l :
  NoDup l -> id ∈ l ->
  sum_Z (map f (filter (fun o => o <> id) l)) = sum_Z (map f l) - f id.
Proof.
  induction 1 as [|x l Hx Hl IH]; [by intros ?%elem_of_nil|]. rewrite elem_of_cons.
  rewrite filter_cons. intros [->|Hin].
  - rewrite decide_False by (by intros []). rewrite filter_all.
    + simpl. unfold sum_Z. lia.
    + intros y Hy ->. done.
  - rewrite decide_True by (by intros ->). simpl. unfold sum_Z in *. rewrite IH by done. lia.
Qed.

Lemma sum_map_ext (f g : Z -> Z) l :
  (forall x, x ∈ l -> f x = g x) -> sum_Z (map f l) = sum_Z (map g l).
Proof.
  induction l as [|x l IH]; intros H; simpl; [done|]. unfold sum_Z in *.
  rewrite H by apply list_elem_of_here. rewrite IH; [done|].
  intros y Hy. apply H. by apply list_elem_of_further.
Qed.

Lemma size_of_nonneg s id : 0 <= size_of s id.
Proof. unfold size_of. case_match; [apply zlen_nonneg|done]. Qed.

Lemma sum_nonneg s l : 0 <= sum_Z (map (size_of s) l).
Proof.
  induction l as [|x l IH]; simpl; [done|]. unfold sum_Z in *. pose proof (size_of_nonneg s x). lia.
Qed.

Lemma drop_one_budget s id : store_budget (drop_one s id) = store_budget s.
Proof. done. Qed.

Lemma drop_one_ok s id : store_ok s -> id ∈ order s -> store_ok (drop_one s id).
Proof.
  intros [Hno Hit Hh Hs Hu Ht Hn Hid Hap] Hin.
  assert (used (drop_one s id) = sum_Z (map (size_of (drop_one s id)) (order (drop_one s id)))) as Hu'.
  { destruct (proj1 (Hit id) Hin) as [r Hr]. simpl. rewrite Hr.
    rewrite (sum_map_ext _ (size_of s)).
    - rewrite sum_filter_ne, <- Hu by done. unfold size_of. by rewrite Hr.
    - intros x Hx%list_elem_of_filter. destruct Hx as [Hne _]. unfold size_of. simpl.
      by rewrite lookup_delete_ne. }
  constructor.
  - simpl. by apply NoDup_filter.
  - intros x. simpl. rewrite list_elem_of_filter, Hit. destruct (decide (x = id)) as [->|Hne].
    + rewrite lookup_delete_eq. split; [by intros []|by intros []].
    + rewrite lookup_delete_ne by done. naive_solver.
  - intros x r. simpl. intros [_ E]%lookup_delete_Some. by apply Hh.
  - intros x r. simpl. intros [_ E]%lookup_delete_Some. by eapply Hs.
  - done.
  - rewrite Hu'. split; [apply sum_nonneg|]. rewrite <- Hu'. simpl.
    destruct (items s !! id); [pose proof (zlen_nonneg (contents r))|]; lia.
  - done.
  - intros x. simpl. rewrite list_elem_of_filter, elem_of_app, list_elem_of_singleton, <- Hid.
    destruct (decide (x = id)); naive_solver.
  - intros x. simpl. rewrite list_elem_of_filter, elem_of_app, list_elem_of_singleton.
    pose proof (Hap x) as [Ha1 Ha2]. pose proof (Hap id) as [Hb1 Hb2].
    split; [naive_solver|]. intros [He| ->]; naive_solver.
Qed.

Lemma evict_drop_one s oldest rest :
  store_ok s -> order s = oldest :: rest -> evict oldest rest s = drop_one s oldest.
Proof.
  intros Hok Ho. assert (oldest ∈ order s) as Hin by (rewrite Ho; apply list_elem_of_here).
  destruct (proj1 (ok_items s Hok oldest) Hin) as [r Hr].
  pose proof (ok_order s Hok) as Hno. rewrite Ho in Hno. apply NoDup_cons in Hno as [Hno _].
  unfold evict, drop_one. rewrite Hr, Ho. f_equal. symmetry.
  rewrite filter_cons_False by (by intros []). apply filter_all. by intros y Hy ->.
Qed.

(** What making room does: an oldest prefix goes, and not a result more than
    needed. *)
Lemma make_room_spec ids size s :
  store_ok s -> order s = ids ->
  let s' := make_room ids size s in
  store_ok s' /\ store_budget s' = store_budget s /\ next_id s' = next_id s /\
  too_large s' = too_large s /\
  exists dropped,
    order s = dropped ++ order s' /\ evicted s' = evicted s ++ dropped /\
    (forall id, id ∈ order s' -> items s' !! id = items s !! id) /\
    (forall d, last dropped = Some d ->
      total_bytes (store_budget s) < used s' + size_of s d + size) /\
    (used s' + size <= total_bytes (store_budget s) \/ order s' = []).
Proof.
  revert s. induction ids as [|oldest rest IH]; intros s Hok Ho; cbn [make_room].
  - split_and!; try done. exists []. rewrite Ho. split_and!; try done; [by rewrite app_nil_r|by right].
  - case_decide as Hd.
    2:{ split_and!; try done. exists []. split_and!; try done; [by rewrite app_nil_r|left; lia]. }
    rewrite (evict_drop_one s oldest rest) by done.
    assert (oldest ∈ order s) as Hin by (rewrite Ho; apply list_elem_of_here).
    pose proof (ok_order s Hok) as Hno. rewrite Ho in Hno. apply NoDup_cons in Hno as [Hnin Hno].
    assert (order (drop_one s oldest) = rest) as Ho'.
    { simpl. rewrite Ho, filter_cons_False by (by intros []). apply filter_all. by intros y Hy ->. }
    destruct (IH (drop_one s oldest) (drop_one_ok _ _ Hok Hin) Ho') as
      (Hok' & Hb & Hn & Htl & dropped & E1 & E2 & E3 & E4 & E5).
    rewrite drop_one_budget in *. split_and!; try done.
    exists (oldest :: dropped). rewrite Ho' in E1.
    split_and!; [by rewrite Ho; cbn [app]; f_equal|by rewrite E2; simpl; rewrite <- app_assoc| | |done].
    + intros id Hid. rewrite E3 by done. simpl. rewrite lookup_delete_ne; [done|].
      intros ->. apply Hnin. rewrite E1. apply elem_of_app. by right.
    + intros d Hd'. destruct dropped as [|d0 ds].
      * injection Hd' as <-. assert (used (make_room rest size (drop_one s oldest)) =
          used s - size_of s oldest) as ->; [|lia].
        rewrite (ok_used _ Hok'), (ok_used _ Hok), Ho. simpl in E1. rewrite <- E1.
        change (map (size_of s) (oldest :: rest)) with (size_of s oldest :: map (size_of s) rest).
        rewrite (sum_map_ext _ (size_of s) rest); [unfold sum_Z; simpl; lia|].
        intros x Hx. unfold size_of at 1. rewrite E3 by (by rewrite <- E1). simpl.
        rewrite lookup_delete_ne; [done|]. by intros ->.
      * assert (size_of (drop_one s oldest) d = size_of s d) as <-; [|by apply E4].
        unfold size_of. simpl items. rewrite lookup_delete_ne; [done|]. intros ->.
        apply Hnin. rewrite E1. apply elem_of_app. left. by apply last_Some_elem_of.
Qed.

Lemma take_id_ok_ids s :
  store_ok s -> (next_id s ∉ order s) /\ (next_id s ∉ evicted s) /\ (next_id s ∉ too_large s).
Proof.
  intros Hok. pose proof (ok_ids s Hok (next_id s)) as H.
  split_and!; intros Hin; assert (1 <= next_id s < next_id s) by (apply H; auto); lia.
Qed.

(** Issuing an id and filing it as too large, or as kept. *)
Lemma refuse_large_ok s : store_ok s -> store_ok (refuse_large (next_id s) (take_id s)).
Proof.
  intros Hok. pose proof (take_id_ok_ids s Hok) as (N1 & N2 & N3).
  destruct Hok as [Hno Hit Hh Hs Hu Ht Hn Hid Hap].
  constructor; simpl; try done; [lia| |].
  - intros x. rewrite elem_of_app, list_elem_of_singleton. specialize (Hid x).
    destruct (decide (x = next_id s)) as [->|]; [split; [lia|auto]|].
    split; [intros [?|[?|[?|?]]]; try done; assert (1 <= x < next_id s) by (apply Hid; auto); lia|].
    intros ?. assert (1 <= x < next_id s) as [?|[?|?]]%Hid by lia; auto.
  - intros x. rewrite elem_of_app, list_elem_of_singleton. destruct (Hap x) as [H1 H2].
    split; [intros Hx; destruct (H1 Hx); split; [done|]|intros Hx];
      (intros [?| ->]; [by try apply H2|done]).
Qed.

Lemma keep_ok s r :
  store_ok s -> handle r = next_id s -> zlen (contents r) <= single_bytes (store_budget s) ->
  used s + zlen (contents r) <= total_bytes (store_budget s) ->
  store_ok (keep r (take_id s)).
Proof.
  intros Hok Hr Hsz Hfit. pose proof (take_id_ok_ids s Hok) as (N1 & N2 & N3).
  destruct Hok as [Hno Hit Hh Hs Hu Ht Hn Hid Hap]. unfold keep. rewrite Hr. simpl.
  pose proof (zlen_nonneg (contents r)).
  constructor; simpl; try done.
  - apply NoDup_app. split_and!; [done| |apply NoDup_singleton].
    intros x Hx ->%list_elem_of_singleton. done.
  - intros x. rewrite elem_of_app, list_elem_of_singleton, Hit.
    destruct (decide (x = next_id s)) as [->|].
    + rewrite lookup_insert_eq. split; [by eauto|auto].
    + rewrite lookup_insert_ne by done. split; [by intros [?|?]|auto].
  - intros x q [[<- <-]|[_ E]]%lookup_insert_Some; [done|by apply Hh].
  - intros x q [[<- <-]|[_ E]]%lookup_insert_Some; [done|by eapply Hs].
  - rewrite map_app, sum_Z_app, Hu. f_equal.
    + apply sum_map_ext. intros x Hx. unfold size_of. simpl.
      rewrite lookup_insert_ne; [done|]. by intros <-.
    + simpl. unfold sum_Z, size_of. simpl. rewrite lookup_insert_eq. lia.
  - lia.
  - lia.
  - intros x. rewrite elem_of_app, list_elem_of_singleton. specialize (Hid x).
    destruct (decide (x = next_id s)) as [->|]; [split; [lia|auto]|].
    split; [intros [[?|?]|[?|?]]; try done; assert (1 <= x < next_id s) by (apply Hid; auto); lia|].
    intros ?. assert (1 <= x < next_id s) as [?|[?|?]]%Hid by lia; auto.
  - intros x. rewrite elem_of_app, list_elem_of_singleton. destruct (Hap x) as [H1 H2].
    split; [|done]. by intros [?| ->]; [apply H1|].
Qed.

(** [take_id] only moves the counter, so making room commutes with it. *)
Lemma make_room_take_id ids size s :
  make_room ids size (take_id s) = take_id (make_room ids size s).
Proof.
  revert s. induction ids as [|x ids IH]; intros s; cbn [make_room]; [done|].
  change (used (take_id s)) with (used s). change (store_budget (take_id s)) with (store_budget s).
  case_decide; [|done]. rewrite <- IH. f_equal. unfold evict. simpl. by destruct (items s !! x).
Qed.

Lemma put_ok s b epoch : store_ok s -> store_ok (put b epoch s).2.
Proof.
  intros Hok. unfold put. change (store_budget (take_id s)) with (store_budget s).
  case_decide as Hl; [by apply refuse_large_ok|]. change (order (take_id s)) with (order s).
  rewrite make_room_take_id.
  destruct (make_room_spec (order s) (zlen b) s Hok eq_refl) as (Hok' & Hb & Hn & _).
  set (s' := make_room (order s) (zlen b) s) in *.
  change (used (take_id s')) with (used s').
  change (store_budget (take_id s')) with (store_budget s').
  rewrite <- Hn. case_decide; simpl; [by apply refuse_large_ok|].
  apply keep_ok; simpl; try done; rewrite ?Hb in *; lia.
Qed.

Lemma invalidate_ok s keep_epoch ids :
  store_ok s -> doomed keep_epoch s ids -> store_ok (invalidate_scope ids s).2.
Proof.
  intros Hok [Hnd Hids]. simpl.
  assert (forall id, id ∈ ids -> id ∈ order s) as Hin.
  { intros id (r & Hr & _)%Hids. apply (ok_items s Hok). by eauto. }
  clear Hids. revert s Hok Hin. induction Hnd as [|x ids Hx _ IH]; intros s Hok Hin; simpl; [done|].
  apply IH.
  - apply drop_one_ok; [done|]. apply Hin, list_elem_of_here.
  - intros id Hid. simpl. apply list_elem_of_filter. split; [by intros ->|].
    by apply Hin, list_elem_of_further.
Qed.

Lemma new_store_ok b : 0 <= total_bytes b -> store_ok (new_store b).
Proof.
  intros Hb. constructor; simpl; try done.
  - constructor.
  - intros id. rewrite lookup_empty. split; [by intros ?%elem_of_nil|by intros []].
  - intros id. rewrite !elem_of_nil. lia.
  - intros id. rewrite !elem_of_nil. naive_solver.
Qed.

Lemma reachable_ok b s : 0 <= total_bytes b -> store_reachable b s -> store_ok s /\ store_budget s = b.
Proof.
  intros Hb. induction 1 as [|s s' _ [IH Eb] Hs]; [by split; [apply new_store_ok|]|].
  destruct Hs as [s x epoch|s k ids Hd].
  - split; [by apply put_ok|]. rewrite <- Eb. unfold put.
    change (store_budget (take_id s)) with (store_budget s). case_decide; [done|].
    change (order (take_id s)) with (order s). rewrite make_room_take_id.
    destruct (make_room_spec (order s) (zlen x) s IH eq_refl) as (_ & Hb' & _).
    case_decide; simpl; done.
  - split; [by eapply invalidate_ok|]. rewrite <- Eb. simpl. clear.
    revert s. induction ids as [|x ids IH]; intros s; simpl; [done|]. by rewrite IH.
Qed.

(** ** Properties *)

(** C32. The budgets hold in every reachable store: the bytes retained are
    counted exactly and never exceed the total, and no retained result exceeds
    the single-result budget. *)
Theorem store_within_budget b s :
  0 <= total_bytes b -> store_reachable b s ->
  used_bytes s = sum_Z (map (size_of s) (order s)) /\
  0 <= used_bytes s <= total_bytes b /\
  NoDup (order s) /\ (forall id, id ∈ order s <-> is_Some (items s !! id)) /\
  (forall id r, items s !! id = Some r -> zlen (contents r) <= single_bytes b).
Proof.
  intros Hb Hr. destruct (reachable_ok b s Hb Hr) as [Hok <-].
  split_and!; try apply Hok.
Qed.

Definition small_budget : StoreBudget := mkStoreBudget 5 3.
Definition busy_store : ResultStore :=
  (put (bs "ccc") 1 (put (bs "bb") 1 (put (bs "aa") 1 (new_store small_budget)).2).2).2.

Lemma busy_store_reachable : store_reachable small_budget busy_store.
Proof. repeat (eapply store_next; [|apply step_put]). apply store_fresh. Qed.

Lemma store_within_budget_witness : used_bytes busy_store = 5 /\ 0 <= used_bytes busy_store <= 5.
Proof.
  split; [reflexivity|].
  exact (proj1 (proj2 (store_within_budget small_budget busy_store ltac:(by vm_compute)
    busy_store_reachable))).
Defined.

(** The answer to a lookup is always the right one: in every reachable
    store an id is unknown exactly when it was never issued, and otherwise it is
    exactly one of retained, evicted and too large; a retained result is returned
    to the scope it was captured in and to no other. *)
Theorem get_classifies b s h scope :
  0 <= total_bytes b -> store_reachable b s ->
  (get h scope s = Err UnknownResult <-> ~ (1 <= h < next_id s)) /\
  (get h scope s = Err Evicted <-> h ∈ evicted s) /\
  (get h scope s = Err TooLarge <-> h ∈ too_large s) /\
  (get h scope s = Err ScopeExpired <-> exists r, items s !! h = Some r /\ captured_in r <> scope) /\
  (forall r, get h scope s = Ok r <-> items s !! h = Some r /\ captured_in r = scope) /\
  (forall r, get h scope s = Ok r -> handle r = h).
Proof.
  intros Hb Hr. destruct (reachable_ok b s Hb Hr) as [Hok _].
  pose proof (ok_ids s Hok h) as Hid. pose proof (ok_apart s Hok h) as [H1 H2].
  rewrite (ok_items s Hok) in Hid, H1. unfold get.
  destruct (items s !! h) as [r|] eqn:E.
  - destruct H1 as [N1 N2]; [by eauto|].
    assert (1 <= h < next_id s) by (apply Hid; left; by eauto).
    pose proof (ok_handle s Hok h r E).
    case_decide; split_and!; try intros q; naive_solver.
  - assert (~ is_Some (@None Retained)) as N by (by intros []).
    repeat case_decide; split_and!; try intros q; naive_solver.
Qed.

Lemma get_classifies_witness : get 9 1 busy_store = Err UnknownResult.
Proof.
  apply (proj1 (get_classifies small_budget busy_store 9 1 ltac:(by vm_compute) busy_store_reachable)).
  vm_compute. intros [_ [=]].
Defined.

(** Eviction is oldest first and no more than needed: a result that fits
    the single-result budget is kept, the results dropped for it are the oldest
    ones, in order, and without the last of them dropped it would not have
    fitted; every other result keeps its bytes. *)
Theorem put_evicts_oldest b s x epoch :
  0 <= total_bytes b -> store_reachable b s -> zlen x <= single_bytes b -> zlen x <= total_bytes b ->
  let '(h, s') := put x epoch s in
  h = next_id s /\ get h epoch s' = Ok (mkRetained h x epoch) /\
  exists dropped kept,
    order s = dropped ++ kept /\ order s' = kept ++ [h] /\ evicted s' = evicted s ++ dropped /\
    (forall id, id ∈ kept -> items s' !! id = items s !! id) /\
    (forall d, last dropped = Some d -> total_bytes b < used_bytes s' + size_of s d).
Proof.
  intros Hb Hr Hx Ht. destruct (reachable_ok b s Hb Hr) as [Hok Eb].
  unfold put. change (store_budget (take_id s)) with (store_budget s).
  rewrite decide_False by (rewrite Eb; lia). change (order (take_id s)) with (order s).
  rewrite make_room_take_id.
  destruct (make_room_spec (order s) (zlen x) s Hok eq_refl)
    as (Hok' & Hb' & Hn & _ & dropped & E1 & E2 & E3 & E4 & E5).
  set (s2 := make_room (order s) (zlen x) s) in *.
  change (used (take_id s2)) with (used s2).
  change (store_budget (take_id s2)) with (store_budget s2). rewrite Hb', Eb in *.
  rewrite decide_False.
  2:{ destruct E5 as [E5|E5]; [lia|]. rewrite (ok_used _ Hok'), E5. simpl. lia. }
  split_and!; [done| |].
  - unfold get, keep. simpl. rewrite lookup_insert_eq. by rewrite decide_False by (by intros []).
  - exists dropped, (order s2). unfold keep. simpl. split_and!; try done.
    + intros id Hid. rewrite lookup_insert_ne; [by apply E3|]. intros <-.
      pose proof (take_id_ok_ids s Hok) as [N _]. apply N. rewrite E1. apply elem_of_app. by right.
    + unfold used_bytes. simpl. intros d Hd. apply E4 in Hd. lia.
Qed.

Lemma put_evicts_oldest_witness :
  get 4 1 (put (bs "dd") 1 busy_store).2 = Ok (mkRetained 4 (bs "dd") 1).
Proof.
  pose proof (put_evicts_oldest small_budget busy_store (bs "dd") 1 ltac:(by vm_compute)
    busy_store_reachable ltac:(by vm_compute) ltac:(by vm_compute)) as H.
  destruct (put (bs "dd") 1 busy_store) as [h s'] eqn:E.
  assert (h = 4) as Eh by (revert E; vm_compute; congruence). subst h.
  exact (proj1 (proj2 H)).
Defined.
