(* ===== verification/Slot.v ===== *)
(** * Cluster slots and redirects ([crates/pr-routing/src/slot.rs])

    The slot of a key is the CRC16 of its hash tag; redirect errors name a slot
    and the node that serves it. *)

From S2P Require Import Prelude Text TextFacts.

Definition SLOT_COUNT : Z := 16384.

(** [u16 << 1]: the top bit is lost. *)
Definition shl16 (c : Z) : Z := Z.land (Z.shiftl c 1) 65535.
Definition crc_bit (c : Z) : Z :=
  if decide (Z.land c 32768 <> 0) then Z.lxor (shl16 c) 4129 else shl16 c.
Definition crc_byte (c : Z) (b : byte) : Z := Nat.iter 8 crc_bit (Z.lxor c (Z.shiftl (bz b) 8)).
Definition crc16 (data : bytes) : Z := foldl crc_byte 0 data.

(** [iter().position(|c| *c == b)]. *)
Fixpoint position (b : byte) (s : bytes) : option nat :=
  match s with
  | [] => None
  | c :: r => if decide (c = b) then Some O else S <$> position b r
  end.

Definition hash_tag (key : bytes) : bytes :=
  match position "{" key with
  | None => key
  | Some open =>
      let after := drop (open + 1) key in
      match position "}" after with
      | None => key
      | Some rel => if decide (rel = O) then key else take rel after
      end
  end.

Definition slot_for (key : bytes) : Z := crc16 (hash_tag key) mod SLOT_COUNT.

Definition same_slot (keys : list bytes) : option Z :=
  match keys with
  | [] => None
  | k :: ks =>
      let first := slot_for k in
      if forallb (fun k' => bool_decide (slot_for k' = first)) ks then Some first else None
  end.

(** ** Redirects *)

Record Redirect := mkRedirect {
  ask : bool;
  slot : Z;
  host : str;
  port : Z;
}.

#[export] Instance Redirect_eq_dec : EqDecision Redirect.
Proof. solve_decision. Defined.

(** [str::split_whitespace]: [word] is the word being read, reversed. *)
Fixpoint words (word : str) (s : str) : list str :=
  match s with
  | [] => if decide (word = []) then [] else [reverse word]
  | c :: r =>
      if char_is_whitespace c
      then if decide (word = []) then words [] r else reverse word :: words [] r
      else words (c :: word) r
  end.
Definition split_whitespace (s : str) : list str := words [] s.

(** [str::split_once] of a pattern and [str::rsplit_once] of a character. *)
Fixpoint split_once (p : str) (s : str) : option (str * str) :=
  match strip_prefix p s with
  | Some r => Some ([], r)
  | None => match s with
            | [] => None
            | c :: r => prod_map (cons c) id <$> split_once p r
            end
  end.
Fixpoint rsplit_once (d : Z) (s : str) : option (str * str) :=
  match s with
  | [] => None
  | c :: r => match rsplit_once d r with
              | Some (a, b) => Some (c :: a, b)
              | None => if decide (c = d) then Some ([], r) else None
              end
  end.

Definition parse_u16 (s : str) : option Z := parse_unsigned u16_max (encode_str s).

Definition parse_addr (addr : str) : option (str * str) :=
  match strip_prefix (chars "[") addr with
  | Some rest => split_once (chars "]:") rest
  | None => rsplit_once 58 addr
  end.

Definition parse_redirect (err : str) : option Redirect :=
  match split_whitespace err with
  | kind :: more =>
      if decide (kind = chars "ASK" \/ kind = chars "MOVED") then
        match more with
        | s :: addr :: _ =>
            match parse_u16 s with
            | None => None
            | Some n =>
                match parse_addr addr with
                | None => None
                | Some (h, p) =>
                    mkRedirect (bool_decide (kind = chars "ASK")) n h <$> parse_u16 p
                end
            end
        | [s] => None
        | [] => None
        end
      else None
  | [] => None
  end.

(** ** The checksum as a polynomial remainder *)

(** Integers as polynomials over GF(2): congruence modulo
    [x^16 + x^12 + x^5 + 1]. *)
Definition generator : Z := 69665.

Inductive congruent : Z -> Z -> Prop :=
| cong_refl a : congruent a a
| cong_step a b k : 0 <= k -> congruent (Z.lxor a (Z.shiftl generator k)) b -> congruent a b.

(** The message as one polynomial, first byte most significant. *)
Definition message (data : bytes) : Z :=
  foldl (fun acc b => Z.lxor (Z.shiftl acc 8) (bz b)) 0 data.

Lemma cong_lxor a b c : congruent a b -> congruent (Z.lxor a c) (Z.lxor b c).
Proof.
  induction 1 as [a|a b k Hk _ IH]; [constructor|]. apply (cong_step _ _ k); [done|].
  by rewrite Z.lxor_assoc, (Z.lxor_comm c), <- Z.lxor_assoc.
Qed.

Lemma cong_shiftl a b n : 0 <= n -> congruent a b -> congruent (Z.shiftl a n) (Z.shiftl b n).
Proof.
  intros Hn. induction 1 as [a|a b k Hk _ IH]; [constructor|].
  apply (cong_step _ _ (k + n)); [lia|]. by rewrite <- Z.shiftl_shiftl, <- Z.shiftl_lxor.
Qed.

Lemma cong_trans a b c : congruent a b -> congruent b c -> congruent a c.
Proof. induction 1 as [|a b k Hk _ IH]; [done|]. intros H. by apply (cong_step _ _ k), IH. Qed.

Definition u16 (c : Z) : Prop := 0 <= c < 2 ^ 16.

Lemma u16_shl c : u16 (shl16 c).
Proof.
  unfold u16, shl16. change 65535 with (Z.ones 16). rewrite Z.land_ones by lia.
  apply Z.mod_pos_bound. lia.
Qed.

Lemma u16_lxor a b : u16 a -> u16 b -> u16 (Z.lxor a b).
Proof.
  unfold u16. intros Ha Hb. split; [apply Z.lxor_nonneg; lia|].
  destruct (decide (Z.lxor a b = 0)) as [->|]; [lia|].
  assert (0 <= Z.lxor a b) by (apply Z.lxor_nonneg; lia).
  apply Z.log2_lt_pow2; [lia|]. pose proof (Z.log2_lxor a b ltac:(lia) ltac:(lia)).
  assert (forall x, 0 <= x < 2 ^ 16 -> Z.log2 x < 16) as Hl.
  { intros x Hx. destruct (decide (x = 0)) as [->|]; [done|]. apply Z.log2_lt_pow2; lia. }
  pose proof (Hl a Ha). pose proof (Hl b Hb). lia.
Qed.

Lemma u16_crc_bit c : u16 (crc_bit c).
Proof.
  unfold crc_bit. case_decide; [apply u16_lxor; [apply u16_shl|by split]|apply u16_shl].
Qed.

(** Splitting off a top bit. *)
Lemma land_pow2_small y n : 0 <= n -> 0 <= y < 2 ^ n -> Z.land y (2 ^ n) = 0.
Proof.
  intros Hn Hy. apply Z.bits_inj'. intros i Hi.
  rewrite Z.land_spec, Z.pow2_bits_eqb, Z.bits_0 by lia.
  destruct (Z.eqb_spec n i) as [<-|]; [|by rewrite andb_false_r].
  rewrite andb_true_r. rewrite Z.testbit_false by lia. by rewrite Z.div_small, Zmod_0_l.
Qed.

Lemma land_pow2_large c n : 0 <= n -> 2 ^ n <= c < 2 * 2 ^ n -> Z.land c (2 ^ n) <> 0.
Proof.
  intros Hn Hc E. apply (f_equal (fun z => Z.testbit z n)) in E.
  rewrite Z.land_spec, Z.pow2_bits_true, Z.bits_0, andb_true_r in E by lia.
  rewrite Z.testbit_false in E by lia.
  assert (c / 2 ^ n = 1) as Ed by (symmetry; apply Z.div_unique with (c - 2 ^ n); lia).
  rewrite Ed in E. done.
Qed.

Lemma lxor_top x n : 0 <= n -> 2 ^ n <= x < 2 * 2 ^ n -> Z.lxor x (2 ^ n) = x mod 2 ^ n.
Proof.
  intros Hn Hx. replace x with (x - 2 ^ n + 2 ^ n) at 1 by lia.
  rewrite Z.add_nocarry_lxor by (apply land_pow2_small; lia).
  rewrite Z.lxor_assoc, Z.lxor_nilpotent, Z.lxor_0_r.
  apply Z.mod_unique with 1; lia.
Qed.

Lemma crc_bit_congruent c : u16 c -> congruent (Z.shiftl c 1) (crc_bit c).
Proof.
  unfold u16. intros Hc. unfold crc_bit, shl16. change 65535 with (Z.ones 16).
  rewrite Z.land_ones by lia. rewrite Z.shiftl_mul_pow2 by lia. change (2 ^ 1) with 2.
  change 32768 with (2 ^ 15). destruct (decide (c < 2 ^ 15)).
  - rewrite decide_False by (intros H; apply H, land_pow2_small; lia).
    rewrite Z.mod_small by lia. constructor.
  - rewrite decide_True by (apply land_pow2_large; lia).
    rewrite <- lxor_top by lia. apply (cong_step _ _ 0); [done|].
    change (Z.shiftl generator 0) with (Z.lxor (2 ^ 16) 4129).
    rewrite Z.lxor_assoc. constructor.
Qed.

Lemma crc_bits_congruent n c :
  u16 c -> u16 (Nat.iter n crc_bit c) /\ congruent (Z.shiftl c (Z.of_nat n)) (Nat.iter n crc_bit c).
Proof.
  intros Hc. induction n as [|n [IH1 IH2]]; [by split; [|constructor]|].
  rewrite Nat2Z.inj_succ. cbn [Nat.iter nat_rect]. split; [apply u16_crc_bit|].
  apply cong_trans with (Z.shiftl (Nat.iter n crc_bit c) 1); [|by apply crc_bit_congruent].
  replace (Z.shiftl c (Z.succ (Z.of_nat n))) with (Z.shiftl (Z.shiftl c (Z.of_nat n)) 1)
    by (rewrite Z.shiftl_shiftl by lia; f_equal; lia).
  by apply cong_shiftl.
Qed.

Lemma u16_byte b : u16 (Z.shiftl (bz b) 8).
Proof. unfold u16. rewrite Z.shiftl_mul_pow2 by lia. pose proof (bz_range b). lia. Qed.

Lemma crc_byte_u16 c b : u16 c -> u16 (crc_byte c b).
Proof.
  intros Hc. apply (crc_bits_congruent 8). apply u16_lxor; [done|apply u16_byte].
Qed.

Lemma crc_byte_congruent c m b :
  u16 c -> congruent (Z.shiftl m 16) c ->
  congruent (Z.shiftl (Z.lxor (Z.shiftl m 8) (bz b)) 16) (crc_byte c b).
Proof.
  intros Hc Hm. unfold crc_byte.
  apply cong_trans with (Z.shiftl (Z.lxor c (Z.shiftl (bz b) 8)) 8).
  - rewrite !Z.shiftl_lxor, !Z.shiftl_shiftl by lia. apply cong_lxor.
    change (8 + 16) with (16 + 8). rewrite <- Z.shiftl_shiftl by lia. by apply cong_shiftl.
  - apply (crc_bits_congruent 8). apply u16_lxor; [done|apply u16_byte].
Qed.

(** The checksum is the CRC16/XMODEM of the data: a 16-bit remainder of the
    data, as a polynomial over GF(2) times [x^16], modulo
    [x^16 + x^12 + x^5 + 1]; every slot is below 16384. *)
Theorem crc16_is_remainder data :
  0 <= crc16 data < 2 ^ 16 /\ congruent (Z.shiftl (message data) 16) (crc16 data) /\
  0 <= slot_for data < SLOT_COUNT.
Proof.
  assert (forall c m, u16 c -> congruent (Z.shiftl m 16) c ->
    u16 (foldl crc_byte c data) /\
    congruent (Z.shiftl (foldl (fun acc b => Z.lxor (Z.shiftl acc 8) (bz b)) m data) 16)
      (foldl crc_byte c data)) as H.
  { induction data as [|b data IH]; intros c m Hc Hm; cbn [foldl]; [done|].
    apply IH; [by apply crc_byte_u16|by apply crc_byte_congruent]. }
  destruct (H 0 0) as [H1 H2]; [by split|constructor|].
  split_and!; [apply H1|apply H1|exact H2|..]; apply Z.mod_pos_bound; done.
Qed.

Example crc16_test_vector : crc16 (bs "123456789") = 12739.
Proof. vm_compute. reflexivity. Qed.

(** ** Hash tags *)

Lemma position_spec b s :
  match position b s with
  | Some n => exists p r, s = p ++ b :: r /\ length p = n /\ b ∉ p
  | None => b ∉ s
  end.
Proof.
  induction s as [|c s IH]; simpl; [apply not_elem_of_nil|]. case_decide as Hc.
  - subst. exists [], s. split_and!; try done. apply not_elem_of_nil.
  - destruct (position b s) as [n|]; simpl.
    + destruct IH as (p & r & -> & <- & Hp). exists (c :: p), r.
      split_and!; try done. rewrite not_elem_of_cons. by split.
    + rewrite not_elem_of_cons. by split.
Qed.

Lemma position_app b p r : b ∉ p -> position b (p ++ b :: r) = Some (length p).
Proof.
  induction p as [|c p IH]; simpl; intros Hp; [by rewrite decide_True|].
  apply not_elem_of_cons in Hp as [Hc Hp]. rewrite decide_False by congruence. by rewrite IH.
Qed.

Lemma drop_past {A} (p : list A) c r : drop (length p + 1) (p ++ c :: r) = r.
Proof. induction p as [|x p IH]; simpl; [by rewrite drop_0|done]. Qed.

(** The hash tag is what lies between the first brace and the next closing
    one, when that is not empty, and the whole key otherwise; so keys with the
    same tag share a slot whatever surrounds it. *)
Theorem hash_tag_spec key :
  (forall p tag s, key = p ++ bs "{" ++ tag ++ bs "}" ++ s ->
     ("{"%byte ∉ p) -> ("}"%byte ∉ tag) -> tag <> [] ->
     hash_tag key = tag /\ slot_for key = crc16 tag mod SLOT_COUNT) /\
  ((forall p tag s, key = p ++ bs "{" ++ tag ++ bs "}" ++ s ->
     ("{"%byte ∉ p) -> ("}"%byte ∉ tag) -> tag = []) -> hash_tag key = key).
Proof.
  split.
  - intros p tag s -> Hp Ht Hne. assert (hash_tag (p ++ bs "{" ++ tag ++ bs "}" ++ s) = tag) as E.
    { change (p ++ bs "{" ++ tag ++ bs "}" ++ s) with (p ++ "{"%byte :: tag ++ "}"%byte :: s).
      unfold hash_tag. rewrite position_app, drop_past, position_app by done.
      rewrite decide_False by (by destruct tag). by rewrite take_app_length. }
    split; [done|]. unfold slot_for. by rewrite E.
  - intros H. unfold hash_tag. pose proof (position_spec "{" key) as Hs.
    destruct (position "{" key) as [open|]; [|done]. destruct Hs as (p & r & -> & <- & Hp).
    rewrite drop_past.
    pose proof (position_spec "}" r) as Hr. destruct (position "}" r) as [rel|]; [|done].
    destruct Hr as (tag & s & -> & <- & Ht). specialize (H p tag s eq_refl Hp Ht).
    subst tag. done.
Qed.

Lemma hash_tag_spec_witness : hash_tag (bs "{user1}:a") = bs "user1".
Proof.
  refine (proj1 (proj1 (hash_tag_spec (bs "{user1}:a")) [] (bs "user1") (bs ":a") eq_refl _ _ _)).
  - apply not_elem_of_nil.
  - apply (bool_decide_unpack _). vm_compute. exact I.
  - discriminate.
Defined.

Lemma same_slot_spec keys n :
  same_slot keys = Some n <-> keys <> [] /\ Forall (fun k => slot_for k = n) keys.
Proof.
  destruct keys as [|k ks]; simpl; [by split; [|intros []]|].
  destruct (forallb _ ks) eqn:E.
  - rewrite forallb_forall in E. split.
    + intros [= <-]. split; [done|]. constructor; [done|]. apply Forall_forall. intros k' Hk.
      apply list_elem_of_In, E, bool_decide_eq_true in Hk. done.
    + intros [_ [-> _]%Forall_cons]. done.
  - split; [done|]. intros [_ [<- Hks]%Forall_cons]. exfalso.
    assert (forallb (fun k' => bool_decide (slot_for k' = slot_for k)) ks = true); [|congruence].
    apply forallb_forall. intros k' Hk%list_elem_of_In. apply bool_decide_eq_true.
    by apply (proj1 (Forall_forall _ _) Hks).
Qed.
