(* ===== verification/Quoting.v ===== *)
(** * The request tokenizer and its inverse ([crates/pr-repl/src/quoting.rs])

    A scanner works on the unread part of the line and counts the bytes it
    consumes; [i] in the source is the sum of those counts. *)

From S2P Require Import Prelude Text TextFacts.

Inductive TokenizeError := UnbalancedQuotes | QuoteNotFollowedBySpace.

#[export] Instance TokenizeError_eq_dec : EqDecision TokenizeError.
Proof. solve_decision. Defined.

Record Token := mkToken {
  token_bytes : bytes;
  span : nat * nat;
}.

(** [hex]: the value of a hexadecimal digit, and of two of them after [\x]. *)
Definition hex (c : byte) : option Z := hex_value c.
Definition hex_escape (r : bytes) : option byte :=
  match r with
  | x :: r' =>
      if decide (x = "x"%byte) then
        match r' with
        | h :: l :: _ =>
            match hex h, hex l with
            | Some hv, Some lv => Some (zb (hv * 16 + lv))
            | _, _ => None
            end
        | _ => None
        end
      else None
  | [] => None
  end.

Definition unescape (e : byte) : byte :=
  if decide (e = "n"%byte) then x0a
  else if decide (e = "r"%byte) then x0d
  else if decide (e = "t"%byte) then x09
  else if decide (e = "b"%byte) then x08
  else if decide (e = "a"%byte) then x07
  else e.

Inductive QuoteMode := NoQuote | Double | Single.

#[export] Instance QuoteMode_eq_dec : EqDecision QuoteMode.
Proof. solve_decision. Defined.

Abbreviation dquote := x22.
Abbreviation squote := x27.
Abbreviation backslash := x5c.

(** A byte decoded from [n] bytes of the line, before what follows. *)
Definition emit (c : byte) (n : nat) (m : result TokenizeError (bytes * nat))
  : result TokenizeError (bytes * nat) :=
  let? p := m in Ok (c :: p.1, (n + p.2)%nat).
Definition skip (n : nat) (m : result TokenizeError (bytes * nat))
  : result TokenizeError (bytes * nat) :=
  let? p := m in Ok (p.1, (n + p.2)%nat).

(** After a closing quote: whitespace or the end of the line. *)
Definition close_quote (r : bytes) : result TokenizeError (bytes * nat) :=
  match r with
  | [] => Ok ([], 1%nat)
  | n :: _ => if is_ascii_whitespace n then Ok ([], 1%nat) else Err QuoteNotFollowedBySpace
  end.

(** The inner loop of [split_args]: the decoded token and the bytes it takes. *)
Fixpoint scan (m : QuoteMode) (s : bytes) : result TokenizeError (bytes * nat) :=
  match m with
  | Double =>
      match s with
      | [] => Err UnbalancedQuotes
      | c :: r =>
          if decide (c = backslash) then
            match hex_escape r, r with
            | Some b, _ :: _ :: _ :: r' => emit b 4 (scan Double r')
            | _, e :: r' => emit (unescape e) 2 (scan Double r')
            | _, [] => Err UnbalancedQuotes
            end
          else if decide (c = dquote) then close_quote r
          else emit c 1 (scan Double r)
      end
  | Single =>
      match s with
      | [] => Err UnbalancedQuotes
      | c :: r =>
          match r with
          | e :: r' =>
              if decide (c = backslash /\ e = squote) then emit squote 2 (scan Single r')
              else if decide (c = squote) then close_quote r
              else emit c 1 (scan Single r)
          | [] => if decide (c = squote) then close_quote r else emit c 1 (scan Single r)
          end
      end
  | NoQuote =>
      match s with
      | [] => Ok ([], O)
      | c :: r =>
          if is_ascii_whitespace c then Ok ([], O)
          else if decide (c = dquote) then skip 1 (scan Double r)
          else if decide (c = squote) then skip 1 (scan Single r)
          else emit c 1 (scan NoQuote r)
      end
  end.

Fixpoint spaces (s : bytes) : nat :=
  match s with
  | [] => O
  | c :: r => if is_ascii_whitespace c then S (spaces r) else O
  end.

(** The outer loop of [split_args], at offset [i]. *)
Fixpoint split_from (fuel i : nat) (s : bytes) : result TokenizeError (list Token) :=
  match fuel with
  | O => Ok []
  | S f =>
      let w := spaces s in
      let s' := drop w s in
      if decide (s' = []) then Ok []
      else
        let? p := scan NoQuote s' in
        let start := (i + w)%nat in
        let stop := (start + p.2)%nat in
        let? rest := split_from f stop (drop p.2 s') in
        Ok (mkToken p.1 (start, stop) :: rest)
  end.

Definition split_args (line : bytes) : result TokenizeError (list Token) :=
  split_from (S (length line)) 0 line.

Definition is_incomplete (line : bytes) : bool :=
  match split_args line with
  | Err UnbalancedQuotes => true
  | _ => false
  end.

(** [quote]. *)
Definition quote_byte (c : byte) : str :=
  if decide (c = backslash) then [92; 92]
  else if decide (c = dquote) then [92; 34]
  else if decide (c = x0a) then chars "\n"
  else if decide (c = x0d) then chars "\r"
  else if decide (c = x09) then chars "\t"
  else if decide (c = x07) then chars "\a"
  else if decide (c = x08) then chars "\b"
  else if decide (32 <= bz c <= 126) then [bz c]
  else chars "\x" ++ (bz <$> hex2 c).

Definition is_simple (arg : bytes) : bool :=
  bool_decide (arg <> [])
  && forallb (fun c => is_ascii_graphic c && bool_decide (c ∉ [dquote; squote; backslash])) arg.

Definition quote (arg : bytes) : str :=
  if is_simple arg then from_utf8_lossy arg else [34] ++ (arg ≫= quote_byte) ++ [34].

(** ** Scanning what was quoted *)

(** Nothing, or whitespace, follows. *)
Definition at_boundary (r : bytes) : Prop :=
  match r with
  | [] => True
  | c :: _ => is_ascii_whitespace c = true
  end.

(** One quoted byte is read back, whatever follows it in the quotes. *)
Lemma scan_quote_byte c r :
  scan Double (encode_str (quote_byte c) ++ r) =
    emit c (length (encode_str (quote_byte c))) (scan Double r).
Proof. destruct c; reflexivity. Qed.

Definition shift (b : bytes) (n : nat) (m : result TokenizeError (bytes * nat))
  : result TokenizeError (bytes * nat) :=
  let? p := m in Ok (b ++ p.1, (n + p.2)%nat).

Lemma scan_quote_bytes arg r :
  scan Double (encode_str (arg ≫= quote_byte) ++ r) =
    shift arg (length (encode_str (arg ≫= quote_byte))) (scan Double r).
Proof.
  induction arg as [|c arg IH].
  - simpl. by destruct (scan Double r) as [[]|].
  - cbn [mbind list_bind]. rewrite encode_str_app, <- app_assoc, scan_quote_byte, IH.
    destruct (scan Double r) as [[b n]|]; simpl; [|done]. by rewrite length_app, Nat.add_assoc.
Qed.

Lemma close_quote_boundary r : at_boundary r -> close_quote r = Ok ([], 1%nat).
Proof. destruct r; simpl; [done|]. by intros ->. Qed.

Lemma simple_byte c :
  is_ascii_graphic c && bool_decide (c ∉ [dquote; squote; backslash]) = true ->
  is_ascii_whitespace c = false /\ c <> dquote /\ c <> squote /\ bz c < 128.
Proof.
  intros [Hg Hn]%andb_true_iff. apply bool_decide_eq_true in Hg, Hn.
  rewrite !not_elem_of_cons in Hn. destruct Hn as (? & ? & _ & _). split_and!; try done; [|lia].
  revert Hg. destruct c; try reflexivity; vm_compute; intros [? ?]; exfalso; auto.
Qed.

Lemma scan_simple arg r :
  forallb (fun c => is_ascii_graphic c && bool_decide (c ∉ [dquote; squote; backslash])) arg = true ->
  at_boundary r -> scan NoQuote (arg ++ r) = Ok (arg, length arg).
Proof.
  intros Ha Hr. induction arg as [|c arg IH]; cbn [forallb app] in *.
  - destruct r as [|d r]; [done|]. cbn [scan]. simpl in Hr. by rewrite Hr.
  - apply andb_true_iff in Ha as [Hc Ha]. apply simple_byte in Hc as (Hw & Hd & Hs & _).
    cbn [scan]. rewrite Hw, !decide_False by done. by rewrite IH.
Qed.

(** The bytes of a quoted argument scan to the argument. *)
Lemma scan_quote arg r :
  at_boundary r ->
  scan NoQuote (encode_str (quote arg) ++ r) = Ok (arg, length (encode_str (quote arg))).
Proof.
  intros Hr. unfold quote. destruct (is_simple arg) eqn:E.
  - apply andb_true_iff in E as [_ E].
    assert (Forall (fun b => bz b < 128) arg) as Ha.
    { apply Forall_forall. intros c Hc%list_elem_of_In. rewrite forallb_forall in E.
      by apply simple_byte, E. }
    rewrite from_utf8_lossy_ascii, encode_str_ascii by done. by apply scan_simple.
  - rewrite !encode_str_app, <- !app_assoc. change (encode_str [34]) with [dquote].
    cbn [app scan]. rewrite decide_True by done. change (is_ascii_whitespace dquote) with false.
    cbv iota. rewrite scan_quote_bytes. cbn [scan]. rewrite decide_False, decide_True by done.
    rewrite close_quote_boundary by done. simpl. rewrite app_nil_r, length_app. done.
Qed.

Lemma quote_starts arg : exists c r, encode_str (quote arg) = c :: r /\ is_ascii_whitespace c = false.
Proof.
  unfold quote. destruct (is_simple arg) eqn:E.
  - apply andb_true_iff in E as [Hne E]. apply bool_decide_eq_true in Hne.
    destruct arg as [|c arg]; [done|].
    assert (Forall (fun b => bz b < 128) (c :: arg)) as Ha.
    { apply Forall_forall. intros d Hd%list_elem_of_In. rewrite forallb_forall in E.
      by apply simple_byte, E. }
    exists c, arg. rewrite from_utf8_lossy_ascii, encode_str_ascii by done. split; [done|].
    apply andb_true_iff in E as [E _]. by apply simple_byte in E as [Hw _].
  - exists dquote. rewrite encode_str_app. change (encode_str [34]) with [dquote]. eauto.
Qed.

(** A line of quoted arguments, separated by single spaces. *)
Definition quoted_line (args : list bytes) : bytes :=
  join (bs " ") (map (fun a => encode_str (quote a)) args).

Lemma spaces_boundary s :
  Forall (fun c => is_ascii_whitespace c = true) (take (spaces s) s) /\
  match drop (spaces s) s with [] => True | c :: _ => is_ascii_whitespace c = false end.
Proof.
  induction s as [|c s IH]; simpl; [by split|].
  destruct (is_ascii_whitespace c) eqn:E; simpl; [|by split].
  destruct IH. by split; [constructor|].
Qed.

Lemma spaces_cons_false c r : is_ascii_whitespace c = false -> spaces (c :: r) = 0%nat.
Proof. simpl. by intros ->. Qed.

(** One round of [split_args] at a token. *)
Lemma split_from_token f i s b n :
  s <> [] -> spaces s = 0%nat -> scan NoQuote s = Ok (b, n) ->
  split_from (S f) i s =
    (let? rest := split_from f (i + n)%nat (drop n s) in Ok (mkToken b (i, (i + n)%nat) :: rest)).
Proof.
  intros Hne Hw Hs. cbn [split_from]. rewrite Hw, drop_0, decide_False, Hs by done. simpl.
  by rewrite Nat.add_0_r.
Qed.

Lemma split_from_space f i c s :
  is_ascii_whitespace c = true -> split_from (S f) i (c :: s) = split_from (S f) (S i) s.
Proof.
  intros Hc. cbn [split_from spaces]. rewrite Hc. cbn [drop skipn].
  by rewrite <- Nat.add_succ_comm.
Qed.

Lemma quoted_line_cons a args :
  quoted_line (a :: args) =
  encode_str (quote a) ++ match args with [] => [] | _ => bs " " ++ quoted_line args end.
Proof. destruct args; simpl; [by rewrite app_nil_r|done]. Qed.

Lemma split_from_quoted args f i :
  (length (quoted_line args) < f)%nat ->
  exists toks, split_from f i (quoted_line args) = Ok toks /\ map token_bytes toks = args.
Proof.
  revert f i. induction args as [|a args IH]; intros f i Hf.
  { destruct f; [lia|]. by exists []. }
  destruct f as [|f]; [lia|]. rewrite quoted_line_cons in *.
  destruct (quote_starts a) as (c & r & Eq & Hc).
  set (more := match args with [] => [] | _ => _ end) in *.
  assert (at_boundary more) as Hb by (by destruct args).
  rewrite (split_from_token _ _ _ a (length (encode_str (quote a)))).
  2: by rewrite Eq. 2: by rewrite Eq; apply spaces_cons_false. 2: by apply scan_quote.
  rewrite drop_app_length. rewrite length_app in Hf.
  assert (0 < length (encode_str (quote a)))%nat by (rewrite Eq; simpl; lia).
  destruct args as [|a' args].
  - destruct f; [lia|]. eexists. split; [reflexivity|done].
  - destruct f as [|f]; [lia|]. change more with (" "%byte :: quoted_line (a' :: args)) in *.
    rewrite split_from_space by done. cbn [length] in Hf.
    destruct (IH (S f) (S (i + length (encode_str (quote a))))) as (toks & -> & Et).
    { lia. }
    eexists. split; [reflexivity|]. simpl. by rewrite Et.
Qed.

(** ** Tokens as stretches of the line *)

Lemma hex_escape_take r k : hex_escape r = None -> hex_escape (take k r) = None.
Proof.
  destruct r as [|x [|h [|l r]]], k as [|[|[|k]]]; simpl; try done; by repeat case_match.
Qed.

(** The rules a successful scan follows. *)
Inductive scanned : QuoteMode -> bytes -> bytes -> nat -> Prop :=
| sc_end s : at_boundary s -> scanned NoQuote s [] 0
| sc_open_double r b n : scanned Double r b n -> scanned NoQuote (dquote :: r) b (S n)
| sc_open_single r b n : scanned Single r b n -> scanned NoQuote (squote :: r) b (S n)
| sc_plain c r b n :
    is_ascii_whitespace c = false -> c <> dquote -> c <> squote ->
    scanned NoQuote r b n -> scanned NoQuote (c :: r) (c :: b) (S n)
| sc_close_double r : at_boundary r -> scanned Double (dquote :: r) [] 1
| sc_close_single r : at_boundary r -> scanned Single (squote :: r) [] 1
| sc_hex x h l r v b n :
    hex_escape [x; h; l] = Some v -> scanned Double r b n ->
    scanned Double (backslash :: x :: h :: l :: r) (v :: b) (4 + n)
| sc_escape e r b n :
    hex_escape (e :: r) = None -> scanned Double r b n ->
    scanned Double (backslash :: e :: r) (unescape e :: b) (2 + n)
| sc_double c r b n :
    c <> backslash -> c <> dquote -> scanned Double r b n -> scanned Double (c :: r) (c :: b) (S n)
| sc_single_escape r b n :
    scanned Single r b n -> scanned Single (backslash :: squote :: r) (squote :: b) (2 + n)
| sc_single c r b n :
    c <> squote -> ~ (c = backslash /\ head r = Some squote) ->
    scanned Single r b n -> scanned Single (c :: r) (c :: b) (S n).

Lemma hex_escape_head x h l r : hex_escape (x :: h :: l :: r) = hex_escape [x; h; l].
Proof. done. Qed.

Lemma hex_escape_long r b : hex_escape r = Some b -> exists x h l r', r = x :: h :: l :: r'.
Proof.
  destruct r as [|x [|h [|l r]]]; simpl; try done; try (by case_decide).
  intros _. by exists x, h, l, r.
Qed.

Lemma emit_ok c k m b n :
  emit c k m = Ok (b, n) -> exists b' n', m = Ok (b', n') /\ b = c :: b' /\ n = (k + n')%nat.
Proof. destruct m as [[b' n']|]; simpl; [|done]. intros [= <- <-]. eauto. Qed.

Lemma skip_ok k m b n :
  skip k m = Ok (b, n) -> exists n', m = Ok (b, n') /\ n = (k + n')%nat.
Proof. destruct m as [[b' n']|]; simpl; [|done]. intros [= <- <-]. eauto. Qed.

Lemma close_quote_ok r b n :
  close_quote r = Ok (b, n) -> b = [] /\ n = 1%nat /\ at_boundary r.
Proof.
  destruct r as [|c r]; simpl; [by intros [= <- <-]|].
  destruct (is_ascii_whitespace c) eqn:E; [|done]. by intros [= <- <-].
Qed.

Lemma scan_scanned_fuel k m s b n :
  (length s <= k)%nat -> scan m s = Ok (b, n) -> scanned m s b n.
Proof.
  revert m s b n. induction k as [|k IH]; intros m s b n Hk;
    (destruct s as [|c r]; [destruct m; cbn [scan]; try done; by intros [= <- <-]; constructor|]);
    cbn [length] in Hk; [lia|].
  destruct m; cbn [scan].
  - destruct (is_ascii_whitespace c) eqn:Hw; [by intros [= <- <-]; constructor|].
    case_decide; [|case_decide]; subst.
    + intros (n' & E & ->)%skip_ok. apply IH in E; [by constructor|lia].
    + intros (n' & E & ->)%skip_ok. apply IH in E; [by constructor|lia].
    + intros (b' & n' & E & -> & ->)%emit_ok. apply IH in E; [by constructor|lia].
  - case_decide; [|case_decide]; subst.
    + destruct (hex_escape r) as [v|] eqn:Hx.
      * destruct (hex_escape_long _ _ Hx) as (x & h & l & r' & ->).
        intros (b' & n' & E & -> & ->)%emit_ok. apply IH in E; [by constructor|simpl in Hk; lia].
      * destruct r as [|e r]; [done|].
        intros (b' & n' & E & -> & ->)%emit_ok. apply IH in E; [by constructor|simpl in Hk; lia].
    + intros (-> & -> & Hb)%close_quote_ok. by constructor.
    + intros (b' & n' & E & -> & ->)%emit_ok. apply IH in E; [by constructor|lia].
  - destruct r as [|e r].
    + case_decide; subst; [by intros (-> & -> & Hb)%close_quote_ok; constructor|].
      by intros (b' & n' & E & -> & ->)%emit_ok.
    + case_decide as He; [destruct He as [-> ->]|case_decide; subst].
      * intros (b' & n' & E & -> & ->)%emit_ok. apply IH in E; [by constructor|simpl in Hk; lia].
      * intros (-> & -> & Hb)%close_quote_ok. by constructor.
      * intros (b' & n' & E & -> & ->)%emit_ok. apply IH in E; [|lia]. constructor; [done| |done].
        intros [-> [= ->]]. by apply He.
Qed.

Lemma scanned_scan m s b n : scanned m s b n -> scan m s = Ok (b, n).
Proof.
  induction 1; cbn [scan].
  - destruct s as [|c s]; [done|]. simpl in *. by rewrite H.
  - by rewrite IHscanned.
  - by rewrite IHscanned.
  - by rewrite H, !decide_False, IHscanned by done.
  - by rewrite close_quote_boundary.
  - rewrite close_quote_boundary by done. by destruct r.
  - rewrite decide_True by done. rewrite hex_escape_head, H. by rewrite IHscanned.
  - rewrite decide_True by done. rewrite H. by rewrite IHscanned.
  - by rewrite !decide_False, IHscanned by done.
  - rewrite decide_True by done. by rewrite IHscanned.
  - destruct r as [|e r]; [by inversion H1|].
    rewrite decide_False by (intros [-> ->]; by apply H0).
    by rewrite decide_False, IHscanned by done.
Qed.

Lemma scan_scanned m s b n : scan m s = Ok (b, n) <-> scanned m s b n.
Proof. split; [by apply (scan_scanned_fuel (length s))|apply scanned_scan]. Qed.

(** What a scan took is a token by itself, and a boundary follows it. *)
Lemma scanned_self_contained m s b n :
  scanned m s b n ->
  (n <= length s)%nat /\ scanned m (take n s) b n /\ at_boundary (drop n s).
Proof.
  induction 1; cbn [Nat.add take drop length];
    try match goal with IH : _ /\ _ /\ _ |- _ => destruct IH as (Hl & Hs & Hb) end.
  - split_and!; [lia|by constructor|by rewrite drop_0].
  - split_and!; [lia|by constructor|done].
  - split_and!; [lia|by constructor|done].
  - split_and!; [lia|by constructor|done].
  - split_and!; [lia|by constructor|by rewrite drop_0].
  - split_and!; [lia|by constructor|by rewrite drop_0].
  - split_and!; [lia|by constructor|done].
  - split_and!; [lia|constructor; [|done]|done]. by apply (hex_escape_take (e :: r) (S n)).
  - split_and!; [lia|by constructor|done].
  - split_and!; [lia|by constructor|done].
  - split_and!; [lia|constructor; [done| |done]|done].
    intros [-> Hh]. apply H0. split; [done|]. by destruct r, n.
Qed.

(** A line as blank stretches and the tokens between them. *)
Definition blank (w : bytes) : Prop := Forall (fun c => is_ascii_whitespace c = true) w.

Inductive tiles : nat -> bytes -> list Token -> Prop :=
| tiles_end i w : blank w -> tiles i w []
| tiles_token i w text rest tok toks :
    blank w -> text <> [] -> spaces text = 0%nat ->
    scan NoQuote text = Ok (token_bytes tok, length text) ->
    span tok = ((i + length w)%nat, (i + length w + length text)%nat) ->
    at_boundary rest -> tiles (span tok).2 rest toks ->
    tiles i (w ++ text ++ rest) (tok :: toks).

Lemma scan_nonempty c r b n :
  is_ascii_whitespace c = false -> scan NoQuote (c :: r) = Ok (b, n) -> (1 <= n)%nat.
Proof.
  cbn [scan]. intros ->. case_decide; [|case_decide].
  - intros (n' & _ & ->)%skip_ok. lia.
  - intros (n' & _ & ->)%skip_ok. lia.
  - intros (b' & n' & _ & _ & ->)%emit_ok. lia.
Qed.

Lemma split_from_tiles f i s toks :
  (length s < f)%nat -> split_from f i s = Ok toks -> tiles i s toks.
Proof.
  revert i s toks. induction f as [|f IH]; intros i s toks Hf; [lia|]. cbn [split_from].
  destruct (spaces_boundary s) as [Hw Hb]. pose proof (take_drop (spaces s) s) as Es.
  set (w := take (spaces s) s) in *. set (s' := drop (spaces s) s) in *.
  assert (length w = spaces s) as Hlw.
  { apply length_take_le. clear. induction s as [|c s IH]; simpl; [lia|]. case_match; lia. }
  rewrite <- Es, length_app in Hf. case_decide as Hs.
  - intros [= <-]. rewrite <- Es, Hs, app_nil_r. by constructor.
  - destruct (scan NoQuote s') as [[b n]|] eqn:E; simpl; [|done].
    destruct s' as [|c r] eqn:Es'; [done|].
    pose proof (scan_nonempty _ _ _ _ Hb E) as Hn.
    apply scan_scanned, scanned_self_contained in E as (Hl & Hsc & Hd).
    assert (length (take n (c :: r)) = n) as Hlt by (by apply length_take_le).
    destruct (split_from f _ (drop n (c :: r))) as [toks'|] eqn:E2; simpl; [|done].
    intros [= <-]. rewrite <- Hlw in E2 |- *. rewrite <- Es, <- (take_drop n (c :: r)) at 1.
    apply tiles_token; simpl; try done.
    + intros Ht. rewrite Ht in Hlt. simpl in Hlt. lia.
    + destruct n; [lia|]. by apply spaces_cons_false.
    + rewrite Hlt. by apply scan_scanned.
    + by rewrite Hlt.
    + apply IH; [|done]. rewrite length_drop. lia.
Qed.

(** ** Properties *)
(** Quoting and tokenizing are inverse: the line made of the quoted
    arguments splits into exactly those arguments, whatever bytes they hold. *)
Theorem split_quoted args :
  exists toks, split_args (quoted_line args) = Ok toks /\ map token_bytes toks = args.
Proof. apply split_from_quoted. lia. Qed.

(** Tokens are stretches of the line: a line that tokenizes is blanks and
    tokens in turn, each token's span is exactly the bytes it was decoded from,
    these bytes are a token by themselves, and a blank or the end follows them. *)
Theorem split_args_tiles line toks : split_args line = Ok toks -> tiles 0 line toks.
Proof. apply split_from_tiles. lia. Qed.

Lemma split_args_tiles_witness :
  tiles 0 (bs " SET 'a b'") [mkToken (bs "SET") (1, 4)%nat; mkToken (bs "a b") (5, 10)%nat].
Proof. apply split_args_tiles. vm_compute. reflexivity. Defined.
