(* ===== verification/Analyser.v ===== *)
(** * The lenient analyser of the line being edited
    ([crates/pr-intelligence/src/analyser.rs])

    It accepts every input; where the tokenizer accepts the line too, both must
    see the same tokens, because a completion replaces the analyser's spans and
    the tokenizer decides what is sent. *)

From S2P Require Import Prelude Text TextFacts Request Quoting.

Record Span := mkSpan {
  range : nat * nat;
  span_bytes : bytes;
  complete : bool;
}.

Record Analysis := mkAnalysis {
  spans : list Span;
  active : option nat;
  quote_mode : QuoteMode;
  incomplete : bool;
  at_new_token : bool;
}.

Definition command (upper : Z -> str) (a : Analysis) : option str :=
  match spans a with
  | s :: _ => to_uppercase upper <$> from_utf8 (span_bytes s)
  | [] => None
  end.

Definition active_index (a : Analysis) : nat := default (length (spans a)) (active a).

Definition replacement_span (a : Analysis) : option (nat * nat) :=
  if at_new_token a then None
  else match active a with
       | Some i => range <$> spans a !! i
       | None => None
       end.

(** What the inner loop of [analyse] leaves: the bytes so far, how many bytes of
    the line they took, the quoting state and whether the token is complete. *)
Record Scanned := mkScanned {
  got : bytes;
  took : nat;
  mode_after : QuoteMode;
  closed : bool;
}.

Definition more (b : bytes) (n : nat) (x : Scanned) : Scanned :=
  mkScanned (b ++ got x) (n + took x)%nat (mode_after x) (closed x).

(** What follows a closing quote: the token ends, or goes on unquoted. *)
Definition after_quote (r : bytes) (continue : Scanned) : Scanned :=
  match r with
  | [] => mkScanned [] 1 NoQuote true
  | n :: _ => if is_ascii_whitespace n then mkScanned [] 1 NoQuote true else more [] 1 continue
  end.

Fixpoint lenient (m : QuoteMode) (s : bytes) : Scanned :=
  match s with
  | [] => mkScanned [] 0 m (bool_decide (m = NoQuote))
  | c :: r =>
      match m with
      | NoQuote =>
          if is_ascii_whitespace c then mkScanned [] 0 NoQuote true
          else if decide (c = dquote) then more [] 1 (lenient Double r)
          else if decide (c = squote) then more [] 1 (lenient Single r)
          else more [c] 1 (lenient NoQuote r)
      | Double =>
          if decide (c = backslash) then
            match hex_escape r, r with
            | Some b, _ :: _ :: _ :: r' => more [b] 4 (lenient Double r')
            | _, e :: r' => more [unescape e] 2 (lenient Double r')
            | _, [] => more [] 1 (lenient Double r)
            end
          else if decide (c = dquote) then after_quote r (lenient NoQuote r)
          else more [c] 1 (lenient Double r)
      | Single =>
          match r with
          | e :: r' =>
              if decide (c = backslash /\ e = squote) then more [squote] 2 (lenient Single r')
              else if decide (c = squote) then after_quote r (lenient NoQuote r)
              else more [c] 1 (lenient Single r)
          | [] => if decide (c = squote) then after_quote r (lenient NoQuote r)
                  else more [c] 1 (lenient Single r)
          end
      end
  end.

(** The outer loop: the spans, the quoting state at the cursor and whether a
    quote is open. *)
Record Scan := mkScan {
  found : list Span;
  quote_at_cursor : QuoteMode;
  open_quote : bool;
}.

Fixpoint analyse_from (fuel i cursor : nat) (s : bytes) (acc : Scan) : Scan :=
  match fuel with
  | O => acc
  | S f =>
      let w := spaces s in
      let s' := drop w s in
      if decide (s' = []) then acc
      else
        let x := lenient NoQuote s' in
        let start := (i + w)%nat in
        let stop := (start + took x)%nat in
        analyse_from f stop cursor (drop (took x) s')
          (mkScan (found acc ++ [mkSpan (start, stop) (got x) (closed x)])
             (if decide (start <= cursor <= stop)%nat then mode_after x else quote_at_cursor acc)
             (open_quote acc || bool_decide (mode_after x <> NoQuote)))
  end.

(** The last span the cursor touches. *)
Definition touching (cursor : nat) (ss : list Span) : option nat :=
  foldl (fun a '(i, s) => if decide ((range s).1 <= cursor <= (range s).2)%nat then Some i else a)
    None (imap pair ss).

Definition analyse (line : bytes) (cursor : nat) : Analysis :=
  let cursor := Nat.min cursor (length line) in
  let x := analyse_from (S (length line)) 0 cursor line (mkScan [] NoQuote false) in
  let at_new := match last (found x) with
                | None => true
                | Some l => bool_decide ((range l).2 < cursor)%nat
                end in
  mkAnalysis (found x) (if at_new then None else touching cursor (found x)) (quote_at_cursor x)
    (open_quote x) at_new.

Definition submittable (line : bytes) : result TokenizeError unit :=
  let? t := split_args line in Ok tt.

(** ** Agreement with the tokenizer *)

Lemma lenient_scanned m s b n : scanned m s b n -> lenient m s = mkScanned b n NoQuote true.
Proof.
  induction 1; cbn [lenient].
  - destruct s as [|c s]; [done|]. cbn [at_boundary lenient] in *. by rewrite H.
  - by rewrite IHscanned.
  - by rewrite IHscanned.
  - by rewrite H, !decide_False, IHscanned by done.
  - destruct r as [|c r]; [done|]. cbn [at_boundary] in H. unfold after_quote. by rewrite H.
  - destruct r as [|c r]; [done|]. cbn [at_boundary] in H. unfold after_quote. by rewrite H.
  - rewrite decide_True by done. rewrite hex_escape_head, H. by rewrite IHscanned.
  - rewrite decide_True by done. rewrite H. by rewrite IHscanned.
  - by rewrite !decide_False, IHscanned by done.
  - rewrite decide_True by done. by rewrite IHscanned.
  - destruct r as [|e r]; [by inversion H1|].
    rewrite decide_False by (intros [-> ->]; by apply H0).
    by rewrite decide_False, IHscanned by done.
Qed.

Lemma lenient_unbalanced k m s :
  (length s <= k)%nat -> scan m s = Err UnbalancedQuotes ->
  mode_after (lenient m s) <> NoQuote /\ (took (lenient m s) = length s).
Proof.
  assert (forall c n x, emit c n x = Err UnbalancedQuotes -> x = Err UnbalancedQuotes) as He.
  { intros c n [[]|]; simpl; [done|congruence]. }
  assert (forall n x, skip n x = Err UnbalancedQuotes -> x = Err UnbalancedQuotes) as Hsk.
  { intros n [[]|]; simpl; [done|congruence]. }
  assert (forall r, close_quote r <> Err UnbalancedQuotes) as Hc.
  { intros [|c r]; simpl; [done|]. by destruct (is_ascii_whitespace c). }
  revert m s. induction k as [|k IH]; intros m s Hk;
    (destruct s as [|c r]; [destruct m; cbn [scan]; done|]); cbn [length] in *; [lia|].
  destruct m; cbn [scan lenient].
  - destruct (is_ascii_whitespace c); [done|]. case_decide; [|case_decide].
    + intros E%Hsk%IH; [|lia]. simpl. destruct E; split; [done|lia].
    + intros E%Hsk%IH; [|lia]. simpl. destruct E; split; [done|lia].
    + intros E%He%IH; [|lia]. simpl. destruct E; split; [done|lia].
  - case_decide; [|case_decide].
    + destruct (hex_escape r) as [v|] eqn:Hx.
      * destruct (hex_escape_long _ _ Hx) as (x & h & l & r' & ->). simpl in Hk.
        intros E%He%IH; [|lia]. simpl. destruct E; split; [done|lia].
      * destruct r as [|e r]; [done|]. simpl in Hk.
        intros E%He%IH; [|lia]. simpl. destruct E; split; [done|lia].
    + by intros E%Hc.
    + intros E%He%IH; [|lia]. simpl. destruct E; split; [done|lia].
  - destruct r as [|e r].
    + case_decide; [by intros E%Hc|]. intros _. done.
    + simpl in Hk. case_decide; [|case_decide].
      * intros E%He%IH; [|lia]. simpl. destruct E; split; [done|lia].
      * by intros E%Hc.
      * intros E%He%IH; [|simpl; lia]. cbn [more mode_after took]. destruct E; split; [done|lia].
Qed.

(** The analyser's view of a token. *)
Definition span_of (t : Token) : Span := mkSpan (span t) (token_bytes t) true.

Lemma analyse_from_agrees f i cursor s acc toks :
  split_from f i s = Ok toks ->
  let x := analyse_from f i cursor s acc in
  found x = found acc ++ map span_of toks /\ open_quote x = open_quote acc.
Proof.
  revert i s acc toks. induction f as [|f IH]; intros i s acc toks; cbn [split_from analyse_from].
  { intros [= <-]. by rewrite app_nil_r. }
  case_decide; [intros [= <-]; by rewrite app_nil_r|].
  destruct (scan NoQuote _) as [[b n]|] eqn:E; simpl; [|done].
  apply scan_scanned, lenient_scanned in E. rewrite E. simpl.
  destruct (split_from f _ _) as [toks'|] eqn:E2; simpl; [|done]. intros [= <-].
  destruct (IH _ _ (mkScan (found acc ++ [mkSpan ((i + spaces s)%nat, (i + spaces s + n)%nat) b true])
    (if decide (i + spaces s <= cursor <= i + spaces s + n)%nat then NoQuote
     else quote_at_cursor acc) (open_quote acc || false)) _ E2) as [H1 H2].
  rewrite H1, H2. simpl. by rewrite <- app_assoc, orb_false_r.
Qed.

Lemma analyse_from_open f i cursor s acc :
  open_quote acc = true -> open_quote (analyse_from f i cursor s acc) = true.
Proof.
  revert i s acc. induction f as [|f IH]; intros i s acc Ha; cbn [analyse_from]; [done|].
  case_decide; [done|]. apply IH. simpl. by rewrite Ha.
Qed.

Lemma analyse_from_unbalanced f i cursor s acc :
  split_from f i s = Err UnbalancedQuotes -> open_quote (analyse_from f i cursor s acc) = true.
Proof.
  revert i s acc. induction f as [|f IH]; intros i s acc; cbn [split_from analyse_from]; [done|].
  case_decide; [done|]. destruct (scan NoQuote _) as [[b n]|[]] eqn:E; simpl; [| |done].
  - apply scan_scanned, lenient_scanned in E. rewrite E. simpl.
    destruct (split_from f _ _) as [|[]] eqn:E2; simpl; [done| |done]. intros _. by apply IH.
  - intros _. apply analyse_from_open. simpl.
    destruct (lenient_unbalanced _ _ _ (le_n _) E) as [Hm _].
    rewrite (bool_decide_true _ Hm). apply orb_true_r.
Qed.

(** The two parsers agree: wherever the tokenizer accepts a line, the
    analyser reports exactly its tokens, with the same spans and bytes, all
    complete and no quote open, wherever the cursor is; and where the tokenizer
    finds a quote unbalanced, the analyser says the line is incomplete. *)
Theorem analyse_agrees line cursor :
  match split_args line with
  | Ok toks => spans (analyse line cursor) = map span_of toks /\
               incomplete (analyse line cursor) = false
  | Err UnbalancedQuotes => incomplete (analyse line cursor) = true
  | Err QuoteNotFollowedBySpace => submittable line = Err QuoteNotFollowedBySpace
  end.
Proof.
  unfold submittable, split_args. destruct (split_from _ 0 line) as [toks|[]] eqn:E; [| |done].
  - apply (analyse_from_agrees _ _ (Nat.min cursor (length line)) _ (mkScan [] NoQuote false)) in E
      as [H1 H2]. by split.
  - by apply (analyse_from_unbalanced _ _ (Nat.min cursor (length line)) _ (mkScan [] NoQuote false)) in E.
Qed.
