(* ===== verification/Trust.v ===== *)
(** * Trust identities, credential binding and discovery bounds
    ([crates/pr-security/src/trust.rs])

    A string is its UTF-8 bytes.  The hash function (BLAKE3, in hexadecimal) is
    an argument of the definitions that use it. *)

From S2P Require Import Prelude Text Request.

Inductive Endpoint :=
| Tcp (host : bytes) (port : Z)
| Unix (path : bytes)
| SshTunnel (jump remote : bytes).

Inductive TlsIdentity :=
| NoTls
| Ca (ca_set_hash server_name : bytes)
| SpkiPin (sha256 : bytes).

Inductive ServerIdentity :=
| Standalone (run_id_prefix : option bytes)
| Sentinel (master_name sentinel_set_hash : bytes)
| Cluster (node_id_set_hash : bytes) (seed_hosts : list bytes).

Record AuthIdentity := mkAuthIdentity {
  username : option bytes;
  secret_ref : bytes;
}.

Record TrustIdentity := mkTrustIdentity {
  endpoint : Endpoint;
  tls_identity : TlsIdentity;
  server_identity : ServerIdentity;
  auth_identity : AuthIdentity;
}.

#[export] Instance Endpoint_eq_dec : EqDecision Endpoint.
Proof. solve_decision. Defined.
#[export] Instance TlsIdentity_eq_dec : EqDecision TlsIdentity.
Proof. solve_decision. Defined.
#[export] Instance ServerIdentity_eq_dec : EqDecision ServerIdentity.
Proof. solve_decision. Defined.
#[export] Instance AuthIdentity_eq_dec : EqDecision AuthIdentity.
Proof. solve_decision. Defined.

(** ** What is hashed *)

Definition nul : bytes := [x00].

Definition hash_endpoint (e : Endpoint) : bytes :=
  match e with
  | Tcp host port => bs "tcp" ++ nul ++ host ++ le_bytes 2 port
  | Unix path => bs "unix" ++ nul ++ path
  | SshTunnel jump remote => bs "ssh" ++ nul ++ jump ++ nul ++ remote
  end.

Definition hash_tls (t : TlsIdentity) : bytes :=
  match t with
  | NoTls => bs "tls-none" ++ nul
  | Ca ca_set_hash server_name => bs "tls-ca" ++ nul ++ ca_set_hash ++ nul ++ server_name
  | SpkiPin sha256 => bs "tls-spki" ++ nul ++ sha256
  end.

Definition hash_server (s : ServerIdentity) : bytes :=
  match s with
  | Standalone _ => bs "standalone" ++ nul
  | Sentinel master_name _ => bs "sentinel" ++ nul ++ master_name
  | Cluster node_id_set_hash _ => bs "cluster" ++ nul ++ node_id_set_hash
  end.

(** The bytes fed to the hasher by [hash] and [credential_binding_hash]. *)
Definition identity_preimage (i : TrustIdentity) : bytes :=
  bs "penguin.trust-identity.v1" ++ nul
  ++ hash_endpoint (endpoint i) ++ hash_tls (tls_identity i) ++ hash_server (server_identity i)
  ++ default [] (username (auth_identity i)) ++ nul ++ secret_ref (auth_identity i).
Definition binding_preimage (i : TrustIdentity) : bytes :=
  bs "penguin.credential-binding.v1" ++ nul
  ++ hash_tls (tls_identity i) ++ hash_server (server_identity i).

Section hashing.
Context (blake3 : bytes -> bytes).

Definition identity_hash (i : TrustIdentity) : bytes := blake3 (identity_preimage i).
Definition credential_binding_hash (i : TrustIdentity) : bytes := blake3 (binding_preimage i).
End hashing.

(** ** Comparing with a previously trusted identity *)

Inductive Advisory := SentinelSetChanged.
Inductive RebindVerdict :=
| NoChange
| AddressOnly
| AdvisoryChange (a : Advisory)
| TlsIdentityChanged
| ServerIdentityChanged
| AuthIdentityChanged.

Definition requires_rebind (v : RebindVerdict) : bool :=
  match v with
  | NoChange | AddressOnly | AdvisoryChange _ => false
  | _ => true
  end.

Definition advisory (v : RebindVerdict) : option Advisory :=
  match v with
  | AdvisoryChange a => Some a
  | _ => None
  end.

(** [core::mem::discriminant] of a server identity. *)
Definition discriminant (s : ServerIdentity) : Z :=
  match s with
  | Standalone _ => 0
  | Sentinel _ _ => 1
  | Cluster _ _ => 2
  end.

Definition compare (self previous : TrustIdentity) : RebindVerdict :=
  if decide (auth_identity self <> auth_identity previous) then AuthIdentityChanged
  else if decide (tls_identity self <> tls_identity previous) then TlsIdentityChanged
  else if decide (discriminant (server_identity self) <> discriminant (server_identity previous))
    then ServerIdentityChanged
  else
    let changed := match server_identity self, server_identity previous with
                   | Sentinel a _, Sentinel b _ => bool_decide (a <> b)
                   | Cluster a _, Cluster b _ => bool_decide (a <> b)
                   | _, _ => false
                   end in
    if changed then ServerIdentityChanged
    else if decide (endpoint self <> endpoint previous) then AddressOnly
    else match server_identity self, server_identity previous with
         | Sentinel _ a, Sentinel _ b =>
             if decide (a <> b) then AdvisoryChange SentinelSetChanged else NoChange
         | _, _ => NoChange
         end.

(** ** Certificate rotation *)

Record RotationWindow := mkRotationWindow {
  current : TlsIdentity;
  previous : option TlsIdentity;
  previous_until_ms : Z;
}.

Inductive RotationVerdict :=
| Current
| PreviousWithinWindow
| PreviousExpired
| UnknownTls.

Definition accepts (v : RotationVerdict) : bool :=
  match v with
  | Current | PreviousWithinWindow => true
  | _ => false
  end.

Definition settled (c : TlsIdentity) : RotationWindow := mkRotationWindow c None 0.

Definition judge (w : RotationWindow) (presented : TlsIdentity) (now_ms : Z) : RotationVerdict :=
  if decide (presented = current w) then Current
  else match previous w with
       | Some p => if decide (p = presented /\ now_ms < previous_until_ms w)
                   then PreviousWithinWindow
                   else if decide (p = presented) then PreviousExpired
                   else UnknownTls
       | None => UnknownTls
       end.

(** ** Redirect targets *)

Inductive RedirectDecision := Known | WithinBounds | ConfirmationRequired.

Definition KnownNodes := list (bytes * Z).

Record DiscoveryBounds := mkBounds {
  allowed_hosts : list bytes;
  allowed_suffixes : list bytes;
}.

Definition contains (host : bytes) (port : Z) (nodes : KnownNodes) : bool :=
  bool_decide ((host, port) ∈ nodes).

(** [str::ends_with]. *)
Definition ends_with (s suffix : bytes) : bool :=
  bool_decide (drop (length s - length suffix) s = suffix).

Definition permits (b : DiscoveryBounds) (host : bytes) (port : Z) : bool :=
  if decide (host ++ bs ":" ++ print_unsigned port ∈ allowed_hosts b \/ host ∈ allowed_hosts b)
  then true
  else existsb (ends_with host) (allowed_suffixes b).

Definition decide_redirect (b : DiscoveryBounds) (host : bytes) (port : Z) (nodes : KnownNodes)
  : RedirectDecision :=
  if contains host port nodes then Known
  else if permits b host port then WithinBounds
  else ConfirmationRequired.

Definition accept_node (d : RedirectDecision) (host : bytes) (port : Z) (nodes : KnownNodes)
  : bool * KnownNodes :=
  match d with
  | Known => (true, nodes)
  | WithinBounds => (true, nodes ++ [(host, port)])
  | ConfirmationRequired => (false, nodes)
  end.

Definition accept_confirmed (host : bytes) (port : Z) (nodes : KnownNodes) : KnownNodes :=
  if contains host port nodes then nodes else nodes ++ [(host, port)].

(** ** The logical service *)

(** What of a server identity a credential is bound to. *)
Definition service (s : ServerIdentity) : Z * bytes :=
  match s with
  | Standalone _ => (0, [])
  | Sentinel m _ => (1, m)
  | Cluster h _ => (2, h)
  end.

Lemma service_hash s s' : service s = service s' -> hash_server s = hash_server s'.
Proof. destruct s, s'; simpl; congruence. Qed.

Lemma compare_keeps self prev :
  requires_rebind (compare self prev) = false <->
  auth_identity self = auth_identity prev /\ tls_identity self = tls_identity prev /\
  service (server_identity self) = service (server_identity prev).
Proof.
  unfold compare. case_decide as Ha; [split; [done|by intros (? & _)]|].
  case_decide as Ht; [split; [done|by intros (_ & ? & _)]|].
  destruct (server_identity self), (server_identity prev); simpl;
    try (split; [done|by intros (_ & _ & ?)]);
    repeat (case_bool_decide || case_decide); simpl; split; try done; naive_solver.
Qed.

(** ** Parsing the hashed bytes back *)

Definition nul_free (b : bytes) : Prop := x00 ∉ b.

(** Strings without a NUL byte, as every name in a profile is. *)
Definition tls_nul_free (t : TlsIdentity) : Prop :=
  match t with
  | NoTls => True
  | Ca a b => nul_free a /\ nul_free b
  | SpkiPin a => nul_free a
  end.
Definition server_nul_free (s : ServerIdentity) : Prop := nul_free (service s).2.

(** Two strings up to their first NUL. *)
Lemma split_at_nul a b x y : nul_free a -> nul_free b -> a ++ nul ++ x = b ++ nul ++ y -> a = b /\ x = y.
Proof.
  unfold nul_free. revert b. induction a as [|c a IH]; intros [|d b] Ha Hb; simpl.
  - by intros [= ->].
  - intros [= <- _]. exfalso. apply Hb. apply list_elem_of_here.
  - intros [= -> _]. exfalso. apply Ha. apply list_elem_of_here.
  - apply not_elem_of_cons in Ha as [_ Ha]. apply not_elem_of_cons in Hb as [_ Hb].
    intros [= -> E]. by apply IH in E as [-> ->].
Qed.

Lemma nul_free_app a b : nul_free a -> nul_free b -> nul_free (a ++ b).
Proof. unfold nul_free. intros Ha Hb. rewrite elem_of_app. by intros [?|?]. Qed.

(** The tag of a service, and what follows its NUL. *)
Definition service_tag (s : ServerIdentity) : bytes :=
  match s with
  | Standalone _ => bs "standalone"
  | Sentinel _ _ => bs "sentinel"
  | Cluster _ _ => bs "cluster"
  end.

Lemma hash_server_tag s : hash_server s = service_tag s ++ nul ++ (service s).2.
Proof. by destruct s. Qed.

Lemma service_tag_free s : nul_free (service_tag s).
Proof. apply (bool_decide_unpack _). by destruct s. Qed.

(** No tag is the end of another string ending in a different tag. *)
Lemma tags_apart a b s s' : a ++ service_tag s = b ++ service_tag s' -> a = b /\ service_tag s = service_tag s'.
Proof.
  intros E. destruct (decide (service_tag s = service_tag s')) as [Et|Hne].
  { rewrite Et in E. by apply app_inv_tail in E. }
  exfalso. apply (f_equal (fun l => take 3 (reverse l))) in E.
  rewrite !reverse_app in E.
  rewrite !take_app_le in E by (by destruct s, s'; vm_compute; lia).
  destruct s, s'; try done; vm_compute in E; done.
Qed.

Lemma service_of_tag s s' :
  service_tag s = service_tag s' -> (service s).2 = (service s').2 -> service s = service s'.
Proof. destruct s, s'; simpl; try done; congruence. Qed.

Lemma binding_tail a b s s' :
  nul_free a -> nul_free b -> server_nul_free s -> server_nul_free s' ->
  a ++ hash_server s = b ++ hash_server s' -> a = b /\ service s = service s'.
Proof.
  intros Ha Hb Hs Hs'. rewrite !hash_server_tag, !app_assoc, <- (app_assoc (a ++ _)), <- (app_assoc (b ++ _)).
  intros [E1 E2]%split_at_nul; [|by apply nul_free_app; [|apply service_tag_free]..].
  apply tags_apart in E1 as [-> Et]. split; [done|]. by apply service_of_tag.
Qed.

(** What the hash of the whole identity determines.  Names are without a NUL
    byte, and neither byte of a port is zero. *)
Definition endpoint_plain (e : Endpoint) : Prop :=
  match e with
  | Tcp host port => nul_free host /\ nul_free (le_bytes 2 port) /\ 0 <= port < 65536
  | Unix path => nul_free path
  | SshTunnel jump remote => nul_free jump /\ nul_free remote
  end.
Definition user_name (i : TrustIdentity) : bytes := default [] (username (auth_identity i)).
Record identity_plain (i : TrustIdentity) : Prop := mkPlain {
  ip_endpoint : endpoint_plain (endpoint i);
  ip_tls : tls_nul_free (tls_identity i);
  ip_server : server_nul_free (server_identity i);
  ip_user : nul_free (user_name i);
}.

Definition tls_tag (t : TlsIdentity) : bytes :=
  match t with
  | NoTls => bs "tls-none"
  | Ca _ _ => bs "tls-ca"
  | SpkiPin _ => bs "tls-spki"
  end.

Lemma tls_tag_free t : nul_free (tls_tag t).
Proof. apply (bool_decide_unpack _). by destruct t. Qed.

Lemma tls_tags_apart a b t t' : a ++ tls_tag t = b ++ tls_tag t' -> a = b /\ tls_tag t = tls_tag t'.
Proof.
  intros E. destruct (decide (tls_tag t = tls_tag t')) as [Et|Hne].
  { rewrite Et in E. by apply app_inv_tail in E. }
  exfalso. apply (f_equal (fun l => take 2 (reverse l))) in E. rewrite !reverse_app in E.
  rewrite !take_app_le in E by (by destruct t, t'; vm_compute; lia).
  destruct t, t'; try done; vm_compute in E; done.
Qed.

Lemma endpoint_tls a b t t' x y :
  nul_free a -> nul_free b -> a ++ tls_tag t ++ nul ++ x = b ++ tls_tag t' ++ nul ++ y ->
  a = b /\ tls_tag t = tls_tag t' /\ x = y.
Proof.
  intros Ha Hb. rewrite (app_assoc a), (app_assoc b).
  intros [E ->]%split_at_nul; [|by apply nul_free_app; [|apply tls_tag_free]..].
  by apply tls_tags_apart in E as [-> ->].
Qed.

(** The service and the user name, which nothing separates. *)
Lemma service_user a b s s' u u' x y :
  nul_free a -> nul_free b -> server_nul_free s -> server_nul_free s' -> nul_free u -> nul_free u' ->
  a ++ hash_server s ++ u ++ nul ++ x = b ++ hash_server s' ++ u' ++ nul ++ y ->
  a = b /\ (service s).1 = (service s').1 /\ (service s).2 ++ u = (service s').2 ++ u' /\ x = y.
Proof.
  intros Ha Hb Hs Hs' Hu Hu'. rewrite !hash_server_tag, <- !app_assoc, (app_assoc a), (app_assoc b).
  intros [E1 E2]%split_at_nul; [|by apply nul_free_app; [|apply service_tag_free]..].
  apply tags_apart in E1 as [-> Et]. rewrite !app_assoc in E2. rewrite <- !(app_assoc _ nul) in E2.
  apply split_at_nul in E2 as [E2 ->]; [|by apply nul_free_app..].
  split_and!; [done| |done|done]. by destruct s, s'.
Qed.

Lemma tls_rest t t' s s' u u' x y :
  tls_nul_free t -> tls_nul_free t' -> tls_tag t = tls_tag t' ->
  server_nul_free s -> server_nul_free s' -> nul_free u -> nul_free u' ->
  drop (length (tls_tag t) + 1) (hash_tls t) ++ hash_server s ++ u ++ nul ++ x =
  drop (length (tls_tag t') + 1) (hash_tls t') ++ hash_server s' ++ u' ++ nul ++ y ->
  t = t' /\ (service s).1 = (service s').1 /\ (service s).2 ++ u = (service s').2 ++ u' /\ x = y.
Proof.
  destruct t as [|a b|p], t' as [|a' b'|p']; intros Ht Ht' Etag Hs Hs' Hu Hu'; try done;
    cbn [tls_tag hash_tls tls_nul_free] in *.
  - intros E. apply (service_user [] []) in E as (_ & ? & ? & ?); try done; by apply not_elem_of_nil.
  - change (drop _ (bs "tls-ca" ++ nul ++ ?l)) with l. destruct Ht, Ht'. rewrite <- !app_assoc.
    intros [-> E]%split_at_nul; [|done..]. by apply service_user in E as (-> & ? & ? & ?).
  - change (drop _ (bs "tls-spki" ++ nul ++ ?l)) with l.
    intros E. by apply service_user in E as (-> & ? & ? & ?).
Qed.

Lemma hash_tls_tag t : hash_tls t = tls_tag t ++ nul ++ drop (length (tls_tag t) + 1) (hash_tls t).
Proof. by destruct t. Qed.

Lemma identity_preimage_determines i j :
  identity_plain i -> identity_plain j -> identity_preimage i = identity_preimage j ->
  endpoint i = endpoint j /\ tls_identity i = tls_identity j /\
  (service (server_identity i)).1 = (service (server_identity j)).1 /\
  (service (server_identity i)).2 ++ user_name i = (service (server_identity j)).2 ++ user_name j /\
  secret_ref (auth_identity i) = secret_ref (auth_identity j).
Proof.
  intros [He Ht Hs Hu] [He' Ht' Hs' Hu'] E. unfold identity_preimage in E. fold (user_name i) (user_name j) in E.
  apply app_inv_head, app_inv_head in E. rewrite (hash_tls_tag (tls_identity i)), (hash_tls_tag (tls_identity j)) in E.
  rewrite <- !app_assoc in E.
  destruct (endpoint i) as [h p|f|a b], (endpoint j) as [h' p'|f'|a' b']; cbn [hash_endpoint endpoint_plain] in *;
    rewrite <- ?app_assoc in E;
    (apply split_at_nul in E as [Etag E]; [|apply (bool_decide_unpack _); vm_compute; exact I..]);
    try (vm_compute in Etag; discriminate Etag); clear Etag.
  - rewrite (app_assoc h), (app_assoc h') in E. destruct He as (H1 & H2 & H3), He' as (H1' & H2' & H3').
    apply endpoint_tls in E as (Eh & Etag & E); [|by apply nul_free_app..].
    apply app_inj_2 in Eh as [-> Ep]; [|by rewrite !le_bytes_length].
    apply (le_bytes_inj 2) in Ep as ->; [|lia..]. apply tls_rest in E; naive_solver.
  - apply endpoint_tls in E as (-> & Etag & E); [|done..]. apply tls_rest in E; naive_solver.
  - destruct He, He'. apply split_at_nul in E as [-> E]; [|done..].
    apply endpoint_tls in E as (-> & Etag & E); [|done..]. apply tls_rest in E; naive_solver.
Qed.

(** ** Properties *)

(** A credential is re-bound exactly when the principal, the TLS identity or the
    logical service changed; while it is not, its binding is the same bytes
    whatever the address, the run id or the Sentinel set. *)
Theorem rebind_exactly_when_needed blake3 self prev :
  (requires_rebind (compare self prev) = false <->
     auth_identity self = auth_identity prev /\ tls_identity self = tls_identity prev /\
     service (server_identity self) = service (server_identity prev)) /\
  (requires_rebind (compare self prev) = false ->
     credential_binding_hash blake3 self = credential_binding_hash blake3 prev).
Proof.
  split; [apply compare_keeps|]. intros (_ & Et & Es)%compare_keeps.
  unfold credential_binding_hash, binding_preimage. by rewrite Et, (service_hash _ _ Es).
Qed.

(** Two services whose names differ. *)
Definition moved_service (run : option bytes) : TrustIdentity :=
  mkTrustIdentity (Tcp (bs "redis.internal") 6379) NoTls (Standalone run)
    (mkAuthIdentity None (bs "credential:1")).

Lemma rebind_exactly_when_needed_witness :
  credential_binding_hash (fun b => b) (moved_service (Some (bs "abc"))) =
  credential_binding_hash (fun b => b) (moved_service None).
Proof.
  exact (proj2 (rebind_exactly_when_needed (fun b => b) (moved_service (Some (bs "abc")))
    (moved_service None)) eq_refl).
Defined.

(** What a credential binding hashes determines what it binds: for names
    without a NUL byte, equal bytes mean the same TLS identity and the same
    logical service. *)
Theorem binding_injective i j :
  tls_nul_free (tls_identity i) -> tls_nul_free (tls_identity j) ->
  server_nul_free (server_identity i) -> server_nul_free (server_identity j) ->
  binding_preimage i = binding_preimage j ->
  tls_identity i = tls_identity j /\ service (server_identity i) = service (server_identity j).
Proof.
  intros Ht Ht' Hs Hs' E. unfold binding_preimage in E.
  apply app_inv_head, app_inv_head in E.
  destruct (tls_identity i) as [|a b|p], (tls_identity j) as [|a' b'|p']; simpl in Ht, Ht';
    cbn [hash_tls] in E; rewrite <- ?app_assoc in E;
    (apply split_at_nul in E as [Etag E]; [|apply (bool_decide_unpack _); vm_compute; exact I..]);
    try (vm_compute in Etag; discriminate Etag).
  - apply (binding_tail [] []) in E as [_ ?]; try done; by apply not_elem_of_nil.
  - destruct Ht, Ht'. apply split_at_nul in E as [-> E]; [|done..].
    by apply binding_tail in E as [-> ?].
  - by apply binding_tail in E as [-> ?].
Qed.

Lemma binding_injective_witness :
  tls_identity (moved_service None) = tls_identity (moved_service (Some (bs "x"))).
Proof.
  refine (proj1 (binding_injective (moved_service None) (moved_service (Some (bs "x"))) _ _ _ _ _)).
  - exact I.
  - exact I.
  - apply not_elem_of_nil.
  - apply not_elem_of_nil.
  - reflexivity.
Defined.

(** The whole identity is not hashed injectively: the service and the user name
    are concatenated with nothing between them, so two services share a hash,
    whatever the hash function, while [compare] tells them apart. *)
Definition confused (master : bytes) (user : option bytes) : TrustIdentity :=
  mkTrustIdentity (Tcp (bs "redis.internal") 6379) NoTls (Sentinel master [])
    (mkAuthIdentity user (bs "credential:1")).

Theorem identity_hash_ambiguous blake3 :
  let i := confused (bs "main") (Some (bs "admin")) in
  let j := confused (bs "mainadmin") None in
  identity_hash blake3 i = identity_hash blake3 j /\
  service (server_identity i) <> service (server_identity j) /\
  requires_rebind (compare i j) = true.
Proof. split_and!; [done|by vm_compute|by vm_compute]. Qed.

(** The nodes a profile comes to know: following redirects and confirming. *)
Inductive nodes_step (b : DiscoveryBounds) : KnownNodes -> KnownNodes -> Prop :=
| step_redirect nodes host port :
    nodes_step b nodes (accept_node (decide_redirect b host port nodes) host port nodes).2
| step_confirmed nodes host port : nodes_step b nodes (accept_confirmed host port nodes).

Lemma contains_spec host port nodes : contains host port nodes = true <-> (host, port) ∈ nodes.
Proof. apply bool_decide_eq_true. Qed.

(** Following a redirect reaches only nodes already known or within the
    profile's bounds, and leaves the others alone. *)
Lemma redirect_within_bounds b nodes host port :
  let '(may_use, nodes') := accept_node (decide_redirect b host port nodes) host port nodes in
  (may_use = true <-> (host, port) ∈ nodes \/ permits b host port = true) /\
  (may_use = true -> (host, port) ∈ nodes') /\
  (forall n, n ∈ nodes' <-> n ∈ nodes \/ (may_use = true /\ n = (host, port))).
Proof.
  unfold decide_redirect. destruct (contains host port nodes) eqn:E.
  - apply contains_spec in E. simpl. split_and!; [naive_solver|done|naive_solver].
  - assert ((host, port) ∉ nodes) by (rewrite <- contains_spec; congruence).
    destruct (permits b host port); simpl.
    + split_and!; [naive_solver|intros _; apply elem_of_app; right; apply list_elem_of_here|].
      intros n. rewrite elem_of_app, list_elem_of_singleton. naive_solver.
    + naive_solver.
Qed.

(** A rotation window only closes: an identity accepted at a time was accepted
    at every earlier time, the current one always is, and any other is refused
    from [previous_until_ms] on. *)
Theorem rotation_only_closes w p t t' :
  t <= t' -> accepts (judge w p t') = true ->
  accepts (judge w p t) = true /\ (p = current w \/ (previous w = Some p /\ t' < previous_until_ms w)).
Proof.
  intros Ht. unfold judge. case_decide; [by auto|]. destruct (previous w) as [q|]; [|done].
  case_decide as Hq; [|by case_decide]. destruct Hq as [-> Hq]. intros _.
  rewrite decide_True by (split; [done|lia]). auto.
Qed.

Lemma rotation_only_closes_witness :
  accepts (judge (mkRotationWindow NoTls (Some (SpkiPin (bs "a"))) 10) (SpkiPin (bs "a")) 3) = true.
Proof.
  refine (proj1 (rotation_only_closes _ _ 3 9 _ _)); [lia|vm_compute; reflexivity].
Defined.

(** The decision handed to [accept] is not tied to the address it was made for. *)
Lemma accept_unbound_decision host port nodes :
  accept_node WithinBounds host port nodes = (true, nodes ++ [(host, port)]).
Proof. done. Qed.

(** An entry without a port allows every port of the host. *)
Lemma bare_host_any_port port :
  permits (mkBounds [bs "redis.example"] []) (bs "redis.example") port = true.
Proof.
  unfold permits. rewrite decide_True; [done|]. right. cbn [allowed_hosts].
  apply list_elem_of_here.
Qed.
