(* ===== verification/Approval.v ===== *)
(** * Approvals bound to exact bytes ([crates/pr-security/src/approval.rs])

    A token records what was approved as a hash of the request's canonical
    bytes; the kernel recomputes it before every execution. *)

From S2P Require Import Prelude Text TextFacts SafeText Request Trust.

Record Epochs := mkEpochs {
  auth_epoch : Z;
  policy_epoch : Z;
  topology_epoch : Z;
}.

Inductive Issuer := Human | Policy (id : bytes).

#[export] Instance Epochs_eq_dec : EqDecision Epochs.
Proof. solve_decision. Defined.

Record ApprovalToken := mkApprovalToken {
  token_profile : bytes;
  trust_identity_hash : bytes;
  token_db : Z;
  token_epochs : Epochs;
  token_request : bytes;
  token_plan : bytes;
  max_actions : Z;
  expires_at_ms : Z;
  issued_by : Issuer;
}.

Inductive ApprovalRefusal :=
| RequestMismatch
| ProfileMismatch
| TrustIdentityMismatch
| DbMismatch
| EpochChanged
| Expired
| ActionBudgetExhausted
| PolicyCannotAuthorise.

Record ExecutionContext := mkExecutionContext {
  profile_uuid : bytes;
  trust_identity : TrustIdentity;
  db_index : Z;
  epochs : Epochs;
  now_ms : Z;
  actions_used : Z;
}.

(** ** What an approver reads *)

Definition escape_byte (c : byte) : str :=
  if decide (c = x22) then [92; 34]
  else if decide (c = x5c) then [92; 92]
  else if decide (32 <= bz c <= 126) then [bz c]
  else chars "\x" ++ (bz <$> hex2 c).
Definition escape_bytes (b : bytes) : str := b ≫= escape_byte.

(** One line of the preview: [argv[i] len=n], the escaped bytes, a line feed. *)
Definition preview_line (i : Z) (a : bytes) : str :=
  chars "argv[" ++ (bz <$> print_unsigned i) ++ chars "] len=" ++ (bz <$> print_unsigned (zlen a))
  ++ [32; 34] ++ escape_bytes a ++ [34; 10].
Fixpoint preview_from (i : Z) (argv : list bytes) : str :=
  match argv with
  | [] => []
  | a :: r => preview_line i a ++ preview_from (i + 1) r
  end.
Definition preview (r : CommandRequest) : str :=
  chars "argc=" ++ (bz <$> print_unsigned (zlen (args r))) ++ [10] ++ preview_from 0 (args r).

(** ** Hashes and decisions *)

Definition request_preimage (r : CommandRequest) : bytes :=
  bs "penguin.request.v1" ++ nul ++ canonical_bytes r.
Definition plan_preimage (rs : list CommandRequest) : bytes :=
  bs "penguin.plan.v1" ++ nul ++ len_prefix (zlen rs)
  ++ (rs ≫= (fun r => len_prefix (zlen (canonical_bytes r)) ++ canonical_bytes r)).

Section hashing.
Context (blake3 : bytes -> bytes).

Definition request_hash (r : CommandRequest) : bytes := blake3 (request_preimage r).
Definition plan_hash (rs : list CommandRequest) : bytes := blake3 (plan_preimage rs).

Definition for_request (profile : bytes) (i : TrustIdentity) (db : Z) (e : Epochs)
  (r : CommandRequest) (expires : Z) (issuer : Issuer) : ApprovalToken :=
  let h := request_hash r in
  mkApprovalToken profile (identity_hash blake3 i) db e h h 1 expires issuer.

Definition authorise (t : ApprovalToken) (r : CommandRequest) (ctx : ExecutionContext)
  : result ApprovalRefusal unit :=
  if decide (token_profile t <> profile_uuid ctx) then Err ProfileMismatch
  else if decide (trust_identity_hash t <> identity_hash blake3 (trust_identity ctx))
    then Err TrustIdentityMismatch
  else if decide (token_db t <> db_index ctx) then Err DbMismatch
  else if decide (token_epochs t <> epochs ctx) then Err EpochChanged
  else if decide (now_ms ctx >= expires_at_ms t) then Err Expired
  else if decide (actions_used ctx >= max_actions t) then Err ActionBudgetExhausted
  else if decide (request_hash r <> token_request t) then Err RequestMismatch
  else match issued_by t with
       | Policy _ => if mutates (effects r) || requires_human_approval_for_writes (origin r)
                     then Err PolicyCannotAuthorise else Ok tt
       | Human => Ok tt
       end.

(** Two byte strings with one hash. *)
Definition collision : Prop := exists x y, x <> y /\ blake3 x = blake3 y.

Lemma authorise_ok t r ctx :
  authorise t r ctx = Ok tt <->
  token_profile t = profile_uuid ctx /\
  trust_identity_hash t = identity_hash blake3 (trust_identity ctx) /\
  token_db t = db_index ctx /\ token_epochs t = epochs ctx /\
  now_ms ctx < expires_at_ms t /\ actions_used ctx < max_actions t /\
  request_hash r = token_request t /\
  (forall id, issued_by t = Policy id ->
     mutates (effects r) = false /\ requires_human_approval_for_writes (origin r) = false).
Proof.
  unfold authorise. split.
  - repeat (case_decide; [done|]). intros Hok.
    split_and!; try done; try lia.
    intros id Ei. rewrite Ei in Hok. by destruct (mutates _), (requires_human_approval_for_writes _).
  - intros (-> & -> & -> & -> & He & Hu & -> & Hp).
    rewrite !decide_False by (lia || (by intros [])).
    destruct (issued_by t) as [|id]; [done|]. by destruct (Hp id eq_refl) as [-> ->].
Qed.

Lemma request_hash_args r s :
  addressable (args r) -> addressable (args s) -> request_hash r = request_hash s ->
  args r = args s \/ collision.
Proof.
  intros Hr Hs E. destruct (decide (request_preimage r = request_preimage s)) as [Ep|Hne].
  - left. unfold request_preimage in Ep. apply app_inv_head, app_inv_head in Ep.
    assert (canonical_bytes r ++ [] = canonical_bytes s ++ []) as Ec by (by rewrite Ep).
    by apply canonical_bytes_args in Ec as [? _].
  - right. by exists (request_preimage r), (request_preimage s).
Qed.
End hashing.

Lemma same_identity i j :
  identity_plain i -> identity_plain j -> identity_preimage i = identity_preimage j ->
  endpoint i = endpoint j /\ tls_identity i = tls_identity j /\
  secret_ref (auth_identity i) = secret_ref (auth_identity j) /\
  (service (server_identity i)).1 = (service (server_identity j)).1 /\
  (user_name i = user_name j -> service (server_identity i) = service (server_identity j)).
Proof.
  intros Hi Hj E. destruct (identity_preimage_determines i j Hi Hj E) as (? & ? & Hk & Hn & ?).
  split_and!; try done. intros Eu. rewrite Eu in Hn. apply app_inv_tail in Hn.
  destruct (service (server_identity i)), (service (server_identity j)). simpl in *. congruence.
Qed.

(** ** Properties *)

(** C10. An approval authorises the approved bytes in the approved context: a
    request is let through only in the profile, database, epochs and time the
    token was issued for, once, only if its arguments are byte for byte the
    approved ones, and only for an identity whose hashed bytes are those of the
    approved one (in either comparison, or the hash function has collided).  For
    identities whose names hold no NUL byte and whose port has no zero byte, that
    is the approved endpoint, TLS identity, secret and kind of service; of the
    name of the service and the user's it is the concatenation alone, so one
    service is told from another only for the same user
    ([authorise_confused_service]).  A policy's approval never covers a mutating
    request or one from an agent or a pipe.  Conversely, the approved request is
    let through in the context it was approved in. *)
Theorem authorise_exact blake3 profile i db e approved expires issuer r ctx :
  addressable (args approved) -> addressable (args r) ->
  let token := for_request blake3 profile i db e approved expires issuer in
  let j := trust_identity ctx in
  (authorise blake3 token r ctx = Ok tt ->
     profile = profile_uuid ctx /\ db = db_index ctx /\ e = epochs ctx /\ now_ms ctx < expires /\
     actions_used ctx < 1 /\
     (args r = args approved \/ collision blake3) /\
     (identity_preimage i = identity_preimage j \/ collision blake3) /\
     (identity_plain i -> identity_plain j ->
        endpoint i = endpoint j /\ tls_identity i = tls_identity j /\
        secret_ref (auth_identity i) = secret_ref (auth_identity j) /\
        (service (server_identity i)).1 = (service (server_identity j)).1 /\
        (user_name i = user_name j -> service (server_identity i) = service (server_identity j))
        \/ collision blake3) /\
     (forall id, issuer = Policy id ->
        mutates (effects r) = false /\ origin r <> Agent /\ origin r <> FromPipe)) /\
  (profile = profile_uuid ctx -> i = j -> db = db_index ctx -> e = epochs ctx ->
   now_ms ctx < expires -> actions_used ctx < 1 -> args r = args approved ->
   (forall id, issuer = Policy id ->
      mutates (effects r) = false /\ origin r <> Agent /\ origin r <> FromPipe) ->
   authorise blake3 token r ctx = Ok tt).
Proof.
  intros Ha Hr token j. split.
  - intros (H1 & H2 & H3 & H4 & H5 & H6 & H7 & H8)%authorise_ok. simpl in *.
    assert (identity_preimage i = identity_preimage j \/ collision blake3) as Hi.
    { destruct (decide (identity_preimage i = identity_preimage j)); [by left|right].
      by exists (identity_preimage i), (identity_preimage j). }
    split_and!; try done.
    + by apply request_hash_args.
    + intros Hp Hq. destruct Hi as [E|?]; [left|by right].
      by apply same_identity.
    + intros id Hid. destruct (H8 id Hid) as [? Ho].
      split_and!; [done|by intros E; rewrite E in Ho..].
  - intros -> -> -> -> He Hu Hargs Hp. apply authorise_ok. simpl. split_and!; try done.
    + unfold request_hash, request_preimage, canonical_bytes. by rewrite Hargs.
    + intros id Hi. destruct (Hp id Hi) as (? & ? & ?). split; [done|]. by destruct (origin r).
Qed.

Definition sample_context : ExecutionContext :=
  mkExecutionContext (bs "p1") (moved_service None) 0 (mkEpochs 0 0 0) 1000 0.
Definition sample_request : CommandRequest := new_request [bs "GET"; bs "k"] User effects_read.

Lemma authorise_exact_witness :
  let i := moved_service None in
  authorise (fun b => b) (for_request (fun b => b) (bs "p1") i 0 (mkEpochs 0 0 0) sample_request 10000
    (Policy (bs "r"))) sample_request sample_context = Ok tt /\
  identity_plain i /\
  (identity_preimage i = identity_preimage (trust_identity sample_context) \/ collision (fun b => b)).
Proof.
  assert (addressable (args sample_request)) as Ha.
  { split; [split; vm_compute; intros [=]|]. repeat constructor; vm_compute; intros [=]. }
  assert (authorise (fun b => b) (for_request (fun b => b) (bs "p1") (moved_service None) 0 (mkEpochs 0 0 0)
    sample_request 10000 (Policy (bs "r"))) sample_request sample_context = Ok tt) as Hok
    by (vm_compute; reflexivity).
  cbn zeta. split_and!; [exact Hok| |].
  - constructor; simpl; try done; [|apply not_elem_of_nil..].
    split_and!; [apply (bool_decide_unpack _); vm_compute; exact I..|lia|lia].
  - exact (proj1 (proj2 (proj2 (proj2 (proj2 (proj2 (proj2 (proj1 (authorise_exact (fun b => b) (bs "p1")
      (moved_service None) 0 (mkEpochs 0 0 0) sample_request 10000 (Policy (bs "r"))
      sample_request sample_context Ha Ha) Hok)))))))).
Defined.

(** The identity hash accepts a token issued for another service. *)
Example authorise_confused_service blake3 :
  authorise blake3
    (for_request blake3 (bs "p1") (confused (bs "main") (Some (bs "admin"))) 0 (mkEpochs 0 0 0)
       sample_request 10000 Human)
    sample_request
    (mkExecutionContext (bs "p1") (confused (bs "mainadmin") None) 0 (mkEpochs 0 0 0) 1000 0) = Ok tt.
Proof. apply authorise_ok. simpl. split_and!; try done; lia. Qed.

(** ** The preview determines the arguments *)

(** Reading one escaped byte back. *)
Definition unescape_step (s : str) : option (byte * str) :=
  match s with
  | [] => None
  | c :: r =>
      if decide (c = 92) then
        match r with
        | [] => None
        | d :: r' =>
            if decide (d = 34) then Some (x22, r')
            else if decide (d = 92) then Some (x5c, r')
            else match r' with
                 | h :: l :: r'' =>
                     Some (zb (default 0 (hex_value (zb h)) * 16 + default 0 (hex_value (zb l))), r'')
                 | _ => None
                 end
        end
      else if decide (c = 34) then None
      else Some (zb c, r)
  end.

Lemma unescape_escape c r : unescape_step (escape_byte c ++ r) = Some (c, r).
Proof. destruct c; reflexivity. Qed.

Lemma escape_bytes_inj a b x y :
  escape_bytes a ++ 34 :: x = escape_bytes b ++ 34 :: y -> a = b /\ x = y.
Proof.
  revert b. induction a as [|c a IH]; intros [|d b]; unfold escape_bytes in *;
    cbn [mbind list_bind app]; rewrite <- ?app_assoc; intros E.
  - by injection E as ->.
  - apply (f_equal unescape_step) in E. rewrite unescape_escape in E. done.
  - apply (f_equal unescape_step) in E. rewrite unescape_escape in E. done.
  - apply (f_equal unescape_step) in E. rewrite !unescape_escape in E.
    injection E as -> E. by apply IH in E as [-> ->].
Qed.

(** A printed number ends where its digits do. *)
Lemma print_unsigned_split m n x y c :
  0 <= m -> 0 <= n -> ~ (48 <= c <= 57) ->
  (bz <$> print_unsigned m) ++ c :: x = (bz <$> print_unsigned n) ++ c :: y -> m = n /\ x = y.
Proof.
  intros Hm Hn Hc.
  destruct (print_unsigned_spec m Hm) as (_ & Hfm & Hdm).
  destruct (print_unsigned_spec n Hn) as (_ & Hfn & Hdn).
  assert (forall s t : bytes, Forall (fun b => is_ascii_digit b = true) s ->
    Forall (fun b => is_ascii_digit b = true) t ->
    (bz <$> s) ++ c :: x = (bz <$> t) ++ c :: y -> s = t /\ x = y) as H.
  { clear -Hc. induction s as [|a s IH]; intros [|b t] Hs Ht E; cbn [fmap list_fmap app] in E.
    - by injection E as ->.
    - apply Forall_cons in Ht as [Hb _]. apply is_ascii_digit_spec in Hb. injection E as -> _. lia.
    - apply Forall_cons in Hs as [Ha _]. apply is_ascii_digit_spec in Ha. injection E as <- _. lia.
    - apply Forall_cons in Hs as [_ Hs], Ht as [_ Ht]. injection E as Eab E.
      apply bz_inj in Eab as ->. by destruct (IH t Hs Ht E) as [-> ->]. }
  intros E. apply H in E as [Es ->]; [|done..]. split; [|done].
  rewrite Es in Hdm. congruence.
Qed.

Lemma preview_from_inj i a b :
  length a = length b -> 0 <= i -> preview_from i a = preview_from i b -> a = b.
Proof.
  revert i b. induction a as [|x a IH]; intros i [|y b] Hl Hi; try done. cbn [preview_from].
  unfold preview_line. rewrite <- !app_assoc. intros E.
  do 3 apply app_inv_head in E.
  change ([32; 34] ++ ?l) with (32 :: 34 :: l) in E.
  apply print_unsigned_split in E as [_ E]; [|apply zlen_nonneg..|lia].
  injection E as E. change ([34; 10] ++ ?l) with (34 :: 10 :: l) in E.
  apply escape_bytes_inj in E as [-> E]. injection E as E.
  apply IH in E as ->; [done|by injection Hl|lia].
Qed.

(** What an approver sees is what is hashed: two requests with the same
    preview have the same arguments, byte for byte. *)
Theorem preview_injective r s : preview r = preview s -> args r = args s.
Proof.
  unfold preview. intros E. apply app_inv_head in E.
  change ([10] ++ ?l) with (10 :: l) in E.
  apply print_unsigned_split in E as [Hn E]; [|apply zlen_nonneg..|lia].
  apply preview_from_inj in E; [done|unfold zlen in Hn; lia|lia].
Qed.

Lemma preview_injective_witness :
  args sample_request = args (new_request [bs "GET"; bs "k"] Agent effects_write).
Proof.
  apply (preview_injective sample_request (new_request [bs "GET"; bs "k"] Agent effects_write)).
  reflexivity.
Defined.
