(* ===== verification/Subscription.v ===== *)
(** * The subscription record ([crates/pr-results/src/subscription.rs])

    A ring of deliveries under an entry limit and a byte limit, with counts of
    what was dropped and why. *)

From S2P Require Import Prelude Text.

Definition MAX_ENTRIES : Z := 10000.
Definition MAX_BYTES : Z := 16 * 1024 * 1024.

Record Message := mkMessage {
  channel : bytes;
  pattern : option bytes;
  payload : bytes;
  at_ms : Z;
}.

Record Dropped := mkDropped {
  by_count : Z;
  by_bytes : Z;
  oversized : Z;
}.

Definition total (d : Dropped) : Z := by_count d + by_bytes d + oversized d.

Record Subscription := mkSubscription {
  entries : list Message;
  held_bytes : Z;
  max_entries : Z;
  max_bytes : Z;
  received : Z;
  dropped : Dropped;
}.

(** [std::mem::size_of::<Message>()], a property of the target, is an argument. *)
Section record.
Context (message_size : Z).

Definition weight (m : Message) : Z :=
  zlen (channel m) + match pattern m with Some p => zlen p | None => 0 end + zlen (payload m)
  + message_size.

Definition with_limits (entry_limit byte_limit : Z) : Subscription :=
  mkSubscription [] 0 (Z.max entry_limit 1) (Z.max byte_limit 1) 0 (mkDropped 0 0 0).
Definition new_subscription : Subscription := with_limits MAX_ENTRIES MAX_BYTES.

(** [evict]; [saturating_sub] on the byte count. *)
Definition evict (for_count : bool) (s : Subscription) : Subscription :=
  match entries s with
  | [] => s
  | old :: rest =>
      let d := dropped s in
      mkSubscription rest (Z.max 0 (held_bytes s - weight old)) (max_entries s) (max_bytes s)
        (received s)
        (if for_count then mkDropped (by_count d + 1) (by_bytes d) (oversized d)
         else mkDropped (by_count d) (by_bytes d + 1) (oversized d))
  end.

(** The two loops of [push]; [fuel] bounds the evictions by the entries held. *)
Fixpoint evict_for_count (fuel : nat) (s : Subscription) : Subscription :=
  match fuel with
  | O => s
  | S f => if decide (zlen (entries s) + 1 > max_entries s) then evict_for_count f (evict true s)
           else s
  end.
Fixpoint evict_for_bytes (fuel : nat) (w : Z) (s : Subscription) : Subscription :=
  match fuel with
  | O => s
  | S f => if decide (held_bytes s + w > max_bytes s) then
             if decide (entries s = []) then s else evict_for_bytes f w (evict false s)
           else s
  end.

Definition received_one (s : Subscription) : Subscription :=
  mkSubscription (entries s) (held_bytes s) (max_entries s) (max_bytes s) (received s + 1) (dropped s).

Definition refuse_oversized (s : Subscription) : Subscription :=
  let d := dropped s in
  mkSubscription (entries s) (held_bytes s) (max_entries s) (max_bytes s) (received s)
    (mkDropped (by_count d) (by_bytes d) (oversized d + 1)).

Definition append (m : Message) (s : Subscription) : Subscription :=
  mkSubscription (entries s ++ [m]) (held_bytes s + weight m) (max_entries s) (max_bytes s)
    (received s) (dropped s).

Definition push (m : Message) (s : Subscription) : Subscription :=
  let s1 := received_one s in
  let w := weight m in
  if decide (w > max_bytes s1) then refuse_oversized s1
  else
    let s2 := evict_for_count (length (entries s1)) s1 in
    let s3 := evict_for_bytes (length (entries s2)) w s2 in
    append m s3.

Definition is_complete (s : Subscription) : bool := bool_decide (total (dropped s) = 0).

Definition status (s : Subscription) : bytes :=
  let d := dropped s in
  bs "received " ++ print_unsigned (received s) ++ bs " " ++ [xc2; xb7]
  ++ bs " retained " ++ print_unsigned (zlen (entries s)) ++ bs " " ++ [xc2; xb7]
  ++ bs " dropped " ++ print_unsigned (total d) ++ bs " (" ++ print_unsigned (by_count d)
  ++ bs " by count, " ++ print_unsigned (by_bytes d) ++ bs " by size, "
  ++ print_unsigned (oversized d) ++ bs " too large)".

(** ** The invariant *)

Definition weights (ms : list Message) : Z := foldr (fun m n => weight m + n) 0 ms.

Definition acceptable (s : Subscription) (m : Message) : Prop := weight m <= max_bytes s.
#[local] Instance acceptable_dec s m : Decision (acceptable s m) := Z_le_dec _ _.

(** [history] is every message accounted for, in order, and [k] the number that
    has been counted but not yet placed.  What is retained is the newest of the
    messages that fit the record at all; the others are counted. *)
Record record_ok (k : Z) (history : list Message) (s : Subscription) : Prop := {
  ok_limits : 1 <= max_entries s /\ 1 <= max_bytes s;
  ok_bytes : held_bytes s = weights (entries s);
  ok_in_bytes : held_bytes s <= max_bytes s;
  ok_in_count : zlen (entries s) <= max_entries s;
  ok_received : received s = zlen history + k;
  ok_counts : 0 <= by_count (dropped s) /\ 0 <= by_bytes (dropped s) /\ 0 <= oversized (dropped s);
  ok_balance : received s = zlen (entries s) + total (dropped s) + k;
  ok_newest : exists lost, filter (acceptable s) history = lost ++ entries s;
}.

Context (Hsize : 0 <= message_size).

Lemma weight_nonneg m : 0 <= weight m.
Proof.
  unfold weight. pose proof (zlen_nonneg (channel m)). pose proof (zlen_nonneg (payload m)).
  destruct (pattern m) as [p|]; [pose proof (zlen_nonneg p)|]; lia.
Qed.

Lemma weights_nonneg ms : 0 <= weights ms.
Proof. induction ms as [|m ms IH]; simpl; [lia|]. pose proof (weight_nonneg m). lia. Qed.

Lemma weights_app ms ns : weights (ms ++ ns) = weights ms + weights ns.
Proof. induction ms as [|m ms IH]; simpl; [done|]. lia. Qed.

Lemma evict_ok c k h s : record_ok k h s -> record_ok k h (evict c s).
Proof.
  intros Hok. unfold evict. destruct (entries s) as [|old rest] eqn:E; [done|].
  destruct Hok as [Hl Hb Hib Hic Hr Hc Hba [lost Hn]]. rewrite E in *.
  pose proof (weight_nonneg old). pose proof (weights_nonneg rest).
  rewrite zlen_cons in *. simpl in Hb.
  constructor; simpl; try done; try lia.
  - destruct c; simpl; lia.
  - unfold total in *. destruct c; simpl in *; lia.
  - exists (lost ++ [old]). by rewrite <- app_assoc.
Qed.

Lemma evict_same c s :
  max_entries (evict c s) = max_entries s /\ max_bytes (evict c s) = max_bytes s.
Proof. unfold evict. by destruct (entries s). Qed.

Lemma evict_entries c s : entries (evict c s) = tail (entries s).
Proof. unfold evict. by destruct (entries s) eqn:E. Qed.

Lemma evict_for_count_ok f k h s :
  record_ok k h s -> (length (entries s) <= f)%nat ->
  let s' := evict_for_count f s in
  record_ok k h s' /\ max_bytes s' = max_bytes s /\ max_entries s' = max_entries s /\
  zlen (entries s') + 1 <= max_entries s.
Proof.
  revert s. induction f as [|f IH]; intros s Hok Hf; cbn [evict_for_count].
  - destruct (entries s) as [|m ms] eqn:E; [|simpl in Hf; lia].
    pose proof (ok_limits _ _ _ Hok). rewrite zlen_nil. split_and!; try done; lia.
  - case_decide; [|split_and!; try done; lia].
    destruct (evict_same true s) as [E1 E2].
    destruct (IH (evict true s)) as (H1 & H2 & H3 & H4);
      [by apply evict_ok| |split_and!; try done; congruence || lia].
    rewrite evict_entries. destruct (entries s); simpl in *; lia.
Qed.

Lemma evict_for_bytes_ok f k h w s :
  record_ok k h s -> (length (entries s) <= f)%nat -> w <= max_bytes s ->
  let s' := evict_for_bytes f w s in
  record_ok k h s' /\ max_bytes s' = max_bytes s /\ max_entries s' = max_entries s /\
  held_bytes s' + w <= max_bytes s /\ zlen (entries s') <= zlen (entries s).
Proof.
  revert s. induction f as [|f IH]; intros s Hok Hf Hw; cbn [evict_for_bytes].
  - pose proof (ok_bytes _ _ _ Hok) as Hb.
    destruct (entries s) as [|m ms] eqn:E; [|simpl in Hf; lia].
    simpl in Hb. split_and!; try done; lia.
  - case_decide; [|split_and!; try done; lia]. case_decide as He.
    { pose proof (ok_bytes _ _ _ Hok) as Hb. rewrite He in Hb. simpl in Hb. split_and!; try done; lia. }
    destruct (evict_same false s) as [E1 E2].
    assert (zlen (entries (evict false s)) <= zlen (entries s)).
    { rewrite evict_entries. destruct (entries s); simpl; rewrite ?zlen_cons; lia. }
    destruct (IH (evict false s)) as (H1 & H2 & H3 & H4 & H5); [by apply evict_ok| |congruence|].
    { rewrite evict_entries. destruct (entries s); simpl in *; lia. }
    split_and!; try done; congruence || lia.
Qed.

Lemma push_ok h m s : record_ok 0 h s -> record_ok 0 (h ++ [m]) (push m s).
Proof.
  intros Hok. unfold push.
  assert (record_ok 1 h (received_one s)) as Hok1.
  { destruct Hok as [Hl Hb Hib Hic Hr Hc Hba Hn]. constructor; simpl; try done; lia. }
  case_decide as Hw.
  - destruct Hok1 as [Hl Hb Hib Hic Hr Hc Hba [lost Hn]]. simpl in *.
    constructor; simpl; try done; try lia.
    + rewrite zlen_app. unfold zlen. simpl. unfold zlen in *. lia.
    + unfold total in *. simpl. lia.
    + exists lost. rewrite filter_app, filter_cons_False, filter_nil, app_nil_r; [done|].
      unfold acceptable. simpl. lia.
  - destruct (evict_for_count_ok _ _ _ _ Hok1 (le_n _)) as (Hok2 & Eb2 & Ee2 & Hc2).
    set (s2 := evict_for_count _ _) in *.
    destruct (evict_for_bytes_ok _ _ _ (weight m) s2 Hok2 (le_n _)) as (Hok3 & Eb3 & Ee3 & Hf3 & Hl3).
    { simpl in *. lia. }
    set (s3 := evict_for_bytes _ _ s2) in *.
    destruct Hok3 as [Hl Hb Hib Hic Hr Hc Hba [lost Hn]]. simpl in Hw, Eb2, Ee2, Hc2.
    constructor; simpl; try done; try lia.
    + rewrite weights_app. simpl. lia.
    + rewrite zlen_app. unfold zlen at 2. simpl. lia.
    + rewrite zlen_app. unfold zlen at 2. simpl. lia.
    + rewrite zlen_app. unfold zlen at 2. simpl. lia.
    + exists lost. rewrite filter_app. rewrite (filter_cons_True _ m), filter_nil.
      * change (filter (acceptable s3) h ++ [m] = lost ++ entries s3 ++ [m]).
        by rewrite Hn, <- app_assoc.
      * unfold acceptable. simpl. lia.
Qed.

(** Receiving a whole stream. *)
Definition receive_all (ms : list Message) (s : Subscription) : Subscription :=
  foldl (fun s m => push m s) s ms.

Lemma receive_all_ok h ms s : record_ok 0 h s -> record_ok 0 (h ++ ms) (receive_all ms s).
Proof.
  revert h s. induction ms as [|m ms IH]; intros h s Hok; simpl; [by rewrite app_nil_r|].
  replace (h ++ m :: ms) with ((h ++ [m]) ++ ms) by (by rewrite <- app_assoc).
  by apply IH, push_ok.
Qed.

Lemma push_same m s :
  max_entries (push m s) = max_entries s /\ max_bytes (push m s) = max_bytes s.
Proof.
  assert (forall f t, max_entries (evict_for_count f t) = max_entries t /\
    max_bytes (evict_for_count f t) = max_bytes t) as H1.
  { induction f as [|f IH]; intros t; cbn [evict_for_count]; [done|]. case_decide; [|done].
    destruct (IH (evict true t)) as [-> ->]. apply evict_same. }
  assert (forall f w t, max_entries (evict_for_bytes f w t) = max_entries t /\
    max_bytes (evict_for_bytes f w t) = max_bytes t) as H2.
  { induction f as [|f IH]; intros w t; cbn [evict_for_bytes]; [done|].
    repeat case_decide; try done. destruct (IH w (evict false t)) as [-> ->]. apply evict_same. }
  unfold push. case_decide; [done|]. simpl.
  by rewrite !(proj1 (H2 _ _ _)), !(proj2 (H2 _ _ _)), (proj1 (H1 _ _)), (proj2 (H1 _ _)).
Qed.

Lemma receive_all_same ms s :
  max_entries (receive_all ms s) = max_entries s /\ max_bytes (receive_all ms s) = max_bytes s.
Proof.
  revert s. induction ms as [|m ms IH]; intros s; simpl; [done|].
  destruct (IH (push m s)) as [-> ->]. apply push_same.
Qed.

Definition fitting (cap : Z) (ms : list Message) : list Message := filter (fun m => weight m <= cap) ms.

Lemma fitting_newest cap k h s : record_ok k h s -> max_bytes s = cap -> exists lost, fitting cap h = lost ++ entries s.
Proof. by intros [_ _ _ _ _ _ _ Hn] <-. Qed.

Lemma fitting_snoc cap h m :
  fitting cap (h ++ [m]) = if decide (weight m <= cap) then fitting cap h ++ [m] else fitting cap h.
Proof. unfold fitting. rewrite filter_app, filter_cons, filter_nil. case_decide; [done|by rewrite app_nil_r]. Qed.

(** Nothing is given up without need: of the messages small enough to keep, the
    newest that is not retained would exceed a limit, together with those that
    are and with [n] more entries of [w] bytes that are about to be added. *)
Definition tight (cap n w : Z) (h : list Message) (s : Subscription) : Prop :=
  max_bytes s = cap /\ forall lost x, fitting cap h = lost ++ x :: entries s ->
    zlen (x :: entries s) + n > max_entries s \/ weights (x :: entries s) + w > cap.

Lemma evict_tight c k cap n w h s : record_ok k h s ->
  zlen (entries s) + n > max_entries s \/ held_bytes s + w > max_bytes s ->
  tight cap n w h s -> tight cap n w h (evict c s).
Proof.
  intros Hok Hneed [Hcap Ht]. unfold tight. destruct (evict_same c s) as [-> ->]. split; [done|]. intros lost x.
  destruct (fitting_newest _ _ _ _ Hok Hcap) as [lost' Hn]. pose proof (ok_bytes _ _ _ Hok) as Hb.
  rewrite evict_entries. destruct (entries s) as [|old rest] eqn:E; cbn [tail]; [apply Ht|].
  rewrite Hn. change (lost' ++ old :: rest) with (lost' ++ [old] ++ rest). change (lost ++ x :: rest) with (lost ++ [x] ++ rest).
  rewrite !app_assoc. intros [[_ [= ->]]%app_inj_2 _]%app_inj_2; [|done..].
  destruct Hneed; [left; done|right; lia].
Qed.

Lemma evict_for_count_tight f k cap w h s :
  record_ok k h s -> tight cap 1 w h s -> tight cap 1 w h (evict_for_count f s).
Proof.
  revert s. induction f as [|f IH]; intros s Hok Ht; cbn [evict_for_count]; [done|]. case_decide; [|done].
  apply IH; [by apply evict_ok|]. eapply evict_tight; eauto.
Qed.

Lemma evict_for_bytes_tight f k cap n w h s :
  record_ok k h s -> tight cap n w h s -> tight cap n w h (evict_for_bytes f w s).
Proof.
  revert s. induction f as [|f IH]; intros s Hok Ht; cbn [evict_for_bytes]; [done|].
  case_decide; [|done]. case_decide; [done|]. apply IH; [by apply evict_ok|]. eapply evict_tight; eauto.
Qed.

Lemma push_tight cap h m s : record_ok 0 h s -> tight cap 0 0 h s -> tight cap 0 0 (h ++ [m]) (push m s).
Proof.
  intros Hok [Hcap Ht]. unfold push. assert (record_ok 1 h (received_one s)) as Hok1.
  { destruct Hok. constructor; simpl; try done; lia. }
  pose proof (weight_nonneg m) as Hm. case_decide as Hw; cbn [received_one max_bytes] in Hw.
  - split; [done|]. intros lost x. cbn [refuse_oversized received_one entries max_entries].
    rewrite fitting_snoc, decide_False by lia. apply Ht.
  - assert (tight cap 1 (weight m) h (received_one s)) as Ht1.
    { split; [done|]. intros lost x Hf. specialize (Ht lost x Hf). cbn [received_one entries max_entries] in *. lia. }
    destruct (evict_for_count_ok _ _ _ _ Hok1 (le_n _)) as (Hok2 & _).
    apply (evict_for_count_tight (length (entries (received_one s))) _ _ _ _ _ Hok1) in Ht1.
    set (s2 := evict_for_count _ _) in *.
    apply (evict_for_bytes_tight (length (entries s2)) _ _ _ _ _ _ Hok2) in Ht1.
    set (s3 := evict_for_bytes _ _ s2) in *. destruct Ht1 as [Hcap3 Ht1]. split; [done|].
    intros lost x. cbn [append entries max_entries]. rewrite fitting_snoc, decide_True by lia.
    change (lost ++ x :: entries s3 ++ [m]) with (lost ++ (x :: entries s3) ++ [m]).
    rewrite app_assoc. intros [Hf _]%app_inj_2; [|done]. specialize (Ht1 lost x Hf).
    change (x :: entries s3 ++ [m]) with ((x :: entries s3) ++ [m]).
    rewrite zlen_app, weights_app. change (zlen [m]) with 1. simpl (weights [m]). lia.
Qed.

Lemma receive_all_tight cap h ms s :
  record_ok 0 h s -> tight cap 0 0 h s -> tight cap 0 0 (h ++ ms) (receive_all ms s).
Proof.
  revert h s. induction ms as [|m ms IH]; intros h s Hok Ht; simpl; [by rewrite app_nil_r|].
  replace (h ++ m :: ms) with ((h ++ [m]) ++ ms) by (by rewrite <- app_assoc).
  apply IH; [by apply push_ok|by apply push_tight].
Qed.

Lemma with_limits_ok a b : record_ok 0 [] (with_limits a b).
Proof. constructor; simpl; try done; unfold zlen; simpl; try lia. by exists []. Qed.
End record.

Lemma filter_length_all {A} (P : A -> Prop) `{forall x, Decision (P x)} (l : list A) :
  length (filter P l) = length l -> filter P l = l.
Proof.
  induction l as [|x l IH]; [done|]. rewrite filter_cons. case_decide; simpl; intros E.
  - f_equal. apply IH. lia.
  - pose proof (length_filter P l). lia.
Qed.

(** ** Properties *)

(** C40. The record of a subscription is the longest run of newest messages that
    its two limits allow, and hides nothing: after any stream of messages the
    bytes held are counted exactly and within the byte limit, the entries within
    the entry limit (a limit of 0 counts as 1); of the messages that are not
    larger than the whole record, exactly the newest are retained, in order, as
    many as fit: with the newest one lost, a limit would be exceeded; every
    message received is either retained or counted as dropped; and the record
    calls itself complete exactly when it holds every message received. The size
    of a message in memory is any number from 0. *)
Theorem subscription_accounts size a b ms :
  0 <= size ->
  let s := receive_all size ms (with_limits a b) in
  held_bytes s = weights size (entries s) /\ held_bytes s <= Z.max b 1 /\
  zlen (entries s) <= Z.max a 1 /\
  (exists lost, filter (fun m => weight size m <= Z.max b 1) ms = lost ++ entries s /\
     forall older x, lost = older ++ [x] ->
       zlen (x :: entries s) > Z.max a 1 \/ weights size (x :: entries s) > Z.max b 1) /\
  zlen ms = zlen (entries s) + total (dropped s) /\ received s = zlen ms /\
  (is_complete s = true <-> entries s = ms).
Proof.
  intros Hsize s. pose proof (receive_all_ok size Hsize [] ms _ (with_limits_ok size a b)) as Hok.
  assert (tight size (Z.max b 1) 0 0 [] (with_limits a b)) as Htight by (split; [done|]; by intros []).
  apply (receive_all_tight size Hsize _ [] ms _ (with_limits_ok size a b)) in Htight.
  fold s in Hok, Htight. cbn [app] in Htight. simpl in Hok.
  destruct (receive_all_same size ms (with_limits a b)) as [Ea Eb]. fold s in Ea, Eb.
  simpl in Ea, Eb. destruct Hok as [Hl Hb Hib Hic Hr Hc Hba [lost Hn]].
  assert (filter (fun m => weight size m <= Z.max b 1) ms = lost ++ entries s) as Hf.
  { rewrite <- Hn. apply list_filter_iff. intros m. unfold acceptable. by rewrite Eb. }
  split_and!; try done; try lia.
  { exists lost. split; [done|]. intros older x El. destruct Htight as [_ Ht]. unfold fitting in Ht.
    specialize (Ht older x). rewrite Hf, El, <- app_assoc in Ht. specialize (Ht eq_refl). lia. }
  unfold is_complete. rewrite bool_decide_eq_true. split.
  - intros Ht. assert (length (entries s) = length ms) as Hlen by (unfold zlen in *; lia).
    pose proof (length_filter (fun m => weight size m <= Z.max b 1) ms) as Hle.
    assert (lost = []) as ->.
    { apply length_zero_iff_nil. rewrite Hf, length_app in Hle. lia. }
    rewrite <- (filter_length_all (fun m => weight size m <= Z.max b 1) ms); [by rewrite Hf|].
    by rewrite Hf.
  - intros E. rewrite E in Hba. lia.
Qed.

Lemma subscription_accounts_witness :
  let m c := mkMessage (bs "a") None [c] 0 in
  entries (receive_all 8 [m "1"%byte; m "2"%byte] (with_limits 1 100)) = [m "2"%byte] /\
  total (dropped (receive_all 8 [m "1"%byte; m "2"%byte] (with_limits 1 100))) = 1.
Proof.
  cbv zeta. split; [reflexivity|].
  destruct (subscription_accounts 8 1 100 [mkMessage (bs "a") None ["1"%byte] 0; mkMessage (bs "a") None ["2"%byte] 0]
    ltac:(lia)) as (_ & _ & _ & _ & H & _).
  match type of H with ?l = ?k + _ => change l with 2 in H; change k with 1 in H end. lia.
Defined.
