(* ===== verification/Buffer.v ===== *)
(** * The line buffer and its undo transactions ([crates/pr-repl/src/buffer.rs])

    Text is a [str]; offsets count UTF-8 bytes.  A Rust operation that panics
    (slicing off a character boundary, subtracting below zero) is [None]. *)

From S2P Require Import Prelude Text.

(** ** Strings indexed by bytes *)

Definition len_utf8 (c : Z) : nat := length (encode_char c).
Definition byte_len (s : str) : nat := length (encode_str s).

(** [split_at]: [None] off a character boundary or past the end. *)
Fixpoint split_at (i : nat) (s : str) : option (str * str) :=
  if decide (i = O) then Some ([], s)
  else match s with
       | [] => None
       | c :: r => if decide (len_utf8 c <= i)%nat
                   then prod_map (cons c) id <$> split_at (i - len_utf8 c) r
                   else None
       end.

Definition is_boundary (s : str) (i : nat) : bool :=
  match split_at i s with
  | Some _ => true
  | None => false
  end.

(** [text[i..].chars().next()]. *)
Definition char_at (s : str) (i : nat) : option Z :=
  match split_at i s with
  | Some (_, c :: _) => Some c
  | _ => None
  end.

(** [text[s..e]] and [replace_range(s..e, x)]. *)
Definition slice (t : str) (s e : nat) : option str :=
  match split_at s t with
  | Some (_, r) => if decide (s <= e)%nat then fst <$> split_at (e - s) r else None
  | None => None
  end.
Definition replace_range (t : str) (s e : nat) (x : str) : option str :=
  match split_at s t with
  | Some (p, r) =>
      if decide (s <= e)%nat then
        match split_at (e - s) r with
        | Some (_, q) => Some (p ++ x ++ q)
        | None => None
        end
      else None
  | None => None
  end.

(** ** Graphemes *)

Definition is_extending (c : Z) : bool :=
  bool_decide (768 <= c <= 879 \/ 6832 <= c <= 6911 \/ 7616 <= c <= 7679 \/ 8400 <= c <= 8447
    \/ 65024 <= c <= 65039 \/ 65056 <= c <= 65071 \/ 127995 <= c <= 127999
    \/ 917760 <= c <= 917999 \/ c = 8205).

Abbreviation zwj := 8205.

(** [while at > 0 && !is_char_boundary(at) { at -= 1 }]. *)
Fixpoint floor_boundary (s : str) (at_ : nat) : nat :=
  match at_ with
  | O => O
  | S n => if is_boundary s at_ then at_ else floor_boundary s n
  end.

Definition prev_char_start (s : str) (from : nat) : nat :=
  match from with
  | O => O
  | S n => floor_boundary s n
  end.

(** The loop of [prev_grapheme]; each round starts with [at -= 1], which
    panics at zero. *)
Fixpoint prev_loop (fuel : nat) (s : str) (at_ : nat) : option nat :=
  match fuel, at_ with
  | O, _ | _, O => None
  | S f, S n =>
      let at' := floor_boundary s n in
      match char_at s at' with
      | None => Some at'
      | Some ch =>
          if is_extending ch then (if decide (at' = O) then Some O else prev_loop f s at')
          else
            let before := prev_char_start s at' in
            if decide (before < at')%nat then
              if decide (char_at s before = Some zwj) then prev_loop f s before else Some at'
            else Some at'
      end
  end.

Definition prev_grapheme (s : str) (from : nat) : option nat :=
  if decide (from = O) then Some O else prev_loop (S from) s from.

(** The loop of [next_grapheme], on the text after the position: how many bytes
    it moves on. *)
Fixpoint next_extent (r : str) : nat :=
  match r with
  | [] => O
  | c :: r' =>
      if is_extending c then (len_utf8 c + next_extent r')%nat
      else if decide (c = zwj) then
        match r' with
        | a :: r'' => (len_utf8 c + len_utf8 a + next_extent r'')%nat
        | [] => len_utf8 c
        end
      else O
  end.

(** [None] when the position is inside a character, where slicing panics. *)
Definition next_grapheme (s : str) (i : nat) : option nat :=
  if decide (byte_len s <= i)%nat then Some (byte_len s)
  else match split_at i s with
       | Some (_, first :: r) => Some (i + len_utf8 first + next_extent r)%nat
       | Some (_, []) => Some (byte_len s)
       | None => None
       end.

(** ** The buffer *)

Inductive EditError :=
| NotACharBoundary (at_ : nat)
| OutOfRange (s e len : nat)
| InvertedRange (s e : nat)
| StaleRevision (expected actual : Z)
| SpanContentChanged
| NothingTo (what : string).

Record AppliedEdit := mkEdit {
  at_ : nat;
  removed : str;
  inserted : str;
  cursor_before : nat;
}.

Record Transaction := mkTransaction {
  edits : list AppliedEdit;
  label : string;
}.

Record TextEdit := mkTextEdit {
  edit_start : nat;
  edit_end : nat;
  edit_text : str;
  edit_revision : option Z;
  expected : option str;
}.

Definition new_edit (s e : nat) (x : str) : TextEdit := mkTextEdit s e x None None.
Definition at_revision (r : Z) (e : TextEdit) : TextEdit :=
  mkTextEdit (edit_start e) (edit_end e) (edit_text e) (Some r) (expected e).
Definition expecting (x : str) (e : TextEdit) : TextEdit :=
  mkTextEdit (edit_start e) (edit_end e) (edit_text e) (edit_revision e) (Some x).

(** The stacks have their top first. *)
Record LineBuffer := mkBuffer {
  text : str;
  cursor : nat;
  revision : Z;
  undo_stack : list Transaction;
  redo_stack : list Transaction;
  open : option Transaction;
}.

Definition empty_buffer : LineBuffer := mkBuffer [] 0 0 [] [] None.

Definition with_cursor (c : nat) (b : LineBuffer) : LineBuffer :=
  mkBuffer (text b) c (revision b) (undo_stack b) (redo_stack b) (open b).

Definition set_cursor (i : nat) (b : LineBuffer) : result EditError unit * LineBuffer :=
  if decide (byte_len (text b) < i)%nat then (Err (OutOfRange i i (byte_len (text b))), b)
  else if is_boundary (text b) i then (Ok tt, with_cursor i b)
  else (Err (NotACharBoundary i), b).

Definition move_left (b : LineBuffer) : option LineBuffer :=
  (fun c => with_cursor c b) <$> prev_grapheme (text b) (cursor b).
Definition move_right (b : LineBuffer) : option LineBuffer :=
  (fun c => with_cursor c b) <$> next_grapheme (text b) (cursor b).

Definition begin (l : string) (b : LineBuffer) : LineBuffer :=
  mkBuffer (text b) (cursor b) (revision b) (undo_stack b) (redo_stack b) (Some (mkTransaction [] l)).

Definition commit (b : LineBuffer) : LineBuffer :=
  match open b with
  | Some t =>
      if decide (edits t = []) then
        mkBuffer (text b) (cursor b) (revision b) (undo_stack b) (redo_stack b) None
      else mkBuffer (text b) (cursor b) (revision b) (t :: undo_stack b) [] None
  | None => b
  end.

Definition record (e : AppliedEdit) (b : LineBuffer) : LineBuffer :=
  match open b with
  | Some t =>
      mkBuffer (text b) (cursor b) (revision b) (undo_stack b) (redo_stack b)
        (Some (mkTransaction (edits t ++ [e]) (label t)))
  | None =>
      mkBuffer (text b) (cursor b) (revision b) (mkTransaction [e] "edit" :: undo_stack b) [] None
  end.

(** The end of every mutation: new text and cursor, one more revision. *)
Definition mutated (t : str) (c : nat) (b : LineBuffer) : LineBuffer :=
  mkBuffer t c (revision b + 1) (undo_stack b) (redo_stack b) (open b).

Definition insert (x : str) (b : LineBuffer) : option LineBuffer :=
  let i := cursor b in
  match replace_range (text b) i i x with
  | None => None
  | Some t => Some (mutated t (i + byte_len x) (record (mkEdit i [] x i) b))
  end.

Definition backspace (b : LineBuffer) : option LineBuffer :=
  if decide (cursor b = O) then Some b
  else
    match prev_grapheme (text b) (cursor b) with
    | None => None
    | Some start =>
        match slice (text b) start (cursor b), replace_range (text b) start (cursor b) [] with
        | Some gone, Some t => Some (mutated t start (record (mkEdit start gone [] (cursor b)) b))
        | _, _ => None
        end
    end.

(** The two optional conditions of an edit: the revision it was computed
    against, and the text it replaces. *)
Definition stale (e : TextEdit) (b : LineBuffer) : bool :=
  match edit_revision e with
  | Some r => negb (bool_decide (r = revision b))
  | None => false
  end.
Definition unexpected (e : TextEdit) (gone : str) : bool :=
  match expected e with
  | Some x => negb (bool_decide (x = gone))
  | None => false
  end.

Definition apply (e : TextEdit) (b : LineBuffer) : option (result EditError unit * LineBuffer) :=
  let s := edit_start e in
  let stop := edit_end e in
  if stale e b then Some (Err (StaleRevision (default 0 (edit_revision e)) (revision b)), b)
  else if decide (stop < s)%nat then Some (Err (InvertedRange s stop), b)
  else if decide (byte_len (text b) < stop)%nat then
    Some (Err (OutOfRange s stop (byte_len (text b))), b)
  else if negb (is_boundary (text b) s) then Some (Err (NotACharBoundary s), b)
  else if negb (is_boundary (text b) stop) then Some (Err (NotACharBoundary stop), b)
  else
    match slice (text b) s stop, replace_range (text b) s stop (edit_text e) with
    | Some gone, Some t =>
        if unexpected e gone then
          Some (Err SpanContentChanged, b)
        else
          Some (Ok tt, mutated t (s + byte_len (edit_text e))
                         (record (mkEdit s gone (edit_text e) (cursor b)) b))
    | _, _ => None
    end.

Definition accept_completion (e : TextEdit) (b : LineBuffer)
  : option (result EditError unit * LineBuffer) :=
  match apply e (begin "accept completion" b) with
  | None => None
  | Some (Ok u, b') => Some (Ok u, commit b')
  | Some (Err x, b') =>
      Some (Err x, mkBuffer (text b') (cursor b') (revision b') (undo_stack b') (redo_stack b') None)
  end.

(** [reverse] and [forward]: the text and the cursor after replaying edits. *)
Fixpoint reverse_edits (es : list AppliedEdit) (t : str) (c : nat) : option (str * nat) :=
  match es with
  | [] => Some (t, c)
  | e :: r =>
      match replace_range t (at_ e) (at_ e + byte_len (inserted e)) (removed e) with
      | None => None
      | Some t' => reverse_edits r t' (cursor_before e)
      end
  end.
Fixpoint forward_edits (es : list AppliedEdit) (t : str) (c : nat) : option (str * nat) :=
  match es with
  | [] => Some (t, c)
  | e :: r =>
      match replace_range t (at_ e) (at_ e + byte_len (removed e)) (inserted e) with
      | None => None
      | Some t' => forward_edits r t' (at_ e + byte_len (inserted e))%nat
      end
  end.

Definition undo (b : LineBuffer) : option (result EditError unit * LineBuffer) :=
  match undo_stack b with
  | [] => Some (Err (NothingTo "undo"), b)
  | t :: rest =>
      match reverse_edits (reverse (edits t)) (text b) (cursor b) with
      | None => None
      | Some (x, c) =>
          Some (Ok tt, mkBuffer x c (revision b + 1) rest (t :: redo_stack b) (open b))
      end
  end.

Definition redo (b : LineBuffer) : option (result EditError unit * LineBuffer) :=
  match redo_stack b with
  | [] => Some (Err (NothingTo "redo"), b)
  | t :: rest =>
      match forward_edits (edits t) (text b) (cursor b) with
      | None => None
      | Some (x, c) =>
          Some (Ok tt, mkBuffer x c (revision b + 1) (t :: undo_stack b) rest (open b))
      end
  end.

Definition undo_depth (b : LineBuffer) : Z := zlen (undo_stack b).

Definition set_text (x : str) (b : LineBuffer) : LineBuffer :=
  let b1 := begin "set text" b in
  let b2 := record (mkEdit 0 (text b) x (cursor b)) b1 in
  commit (mutated x (byte_len x) b2).

(** ** Offsets *)

Lemma len_utf8_pos c : (0 < len_utf8 c)%nat.
Proof. unfold len_utf8, encode_char. repeat case_decide; simpl; lia. Qed.

Lemma byte_len_cons c s : byte_len (c :: s) = (len_utf8 c + byte_len s)%nat.
Proof. unfold byte_len, len_utf8, encode_str. cbn [mbind list_bind]. by rewrite length_app. Qed.

Lemma byte_len_app s t : byte_len (s ++ t) = (byte_len s + byte_len t)%nat.
Proof.
  induction s as [|c s IH]; [done|]. cbn [app]. rewrite !byte_len_cons, IH. lia.
Qed.

Lemma split_at_spec s : forall i p q, split_at i s = Some (p, q) <-> s = p ++ q /\ byte_len p = i.
Proof.
  induction s as [|c s IH]; intros i p q; cbn [split_at].
  - case_decide as Hi; split.
    + by intros [= <- <-].
    + intros [E <-]. symmetry in E. by apply app_eq_nil in E as [-> ->].
    + done.
    + intros [E <-]. symmetry in E. apply app_eq_nil in E as [-> ->]. by destruct Hi.
  - case_decide as Hi; [|case_decide as Hc].
    + subst. split; [by intros [= <- <-]|]. intros [E Hp].
      destruct p as [|a p]; [by simplify_eq/=|].
      rewrite byte_len_cons in Hp. pose proof (len_utf8_pos a). lia.
    + split.
      * intros H. apply fmap_Some in H as ([p' q'] & H & E). apply IH in H as [-> H].
        cbn in E. simplify_eq. split; [done|]. rewrite byte_len_cons. lia.
      * intros [E Hp]. destruct p as [|a p]; [by destruct Hi|].
        cbn in E. simplify_eq. rewrite byte_len_cons.
        rewrite (proj2 (IH _ p q)); [done|]. split; [done|lia].
    + split; [done|]. intros [E <-]. destruct p as [|a p]; [by destruct Hi|].
      cbn in E. simplify_eq. rewrite byte_len_cons in Hc. lia.
Qed.

Lemma split_at_app p q : split_at (byte_len p) (p ++ q) = Some (p, q).
Proof. by apply split_at_spec. Qed.

Lemma is_boundary_spec s i :
  is_boundary s i = true <-> exists p q, s = p ++ q /\ byte_len p = i.
Proof.
  unfold is_boundary. split.
  - destruct (split_at i s) as [[p q]|] eqn:E; [|done]. intros _.
    exists p, q. by apply split_at_spec.
  - intros (p & q & E). by rewrite (proj2 (split_at_spec s i p q) E).
Qed.

Lemma boundary_app p q : is_boundary (p ++ q) (byte_len p) = true.
Proof. apply is_boundary_spec. eauto. Qed.

Lemma boundary_end s : is_boundary s (byte_len s) = true.
Proof. apply is_boundary_spec. exists s, []. by rewrite app_nil_r. Qed.

Lemma boundary_0 s : is_boundary s 0 = true.
Proof. apply is_boundary_spec. by exists [], s. Qed.

(** A slice and a replacement exist exactly where the text is cut in three. *)
Definition cut (t : str) (s e : nat) (p m q : str) : Prop :=
  t = p ++ m ++ q /\ byte_len p = s /\ byte_len (p ++ m) = e.

Lemma cut_slice t s e p m q : cut t s e p m q -> slice t s e = Some m.
Proof.
  intros (-> & <- & <-). unfold slice. rewrite split_at_app, byte_len_app, decide_True by lia.
  replace (_ + _ - _)%nat with (byte_len m) by lia. by rewrite split_at_app.
Qed.

Lemma cut_replace t s e p m q x : cut t s e p m q -> replace_range t s e x = Some (p ++ x ++ q).
Proof.
  intros (-> & <- & <-). unfold replace_range.
  rewrite split_at_app, byte_len_app, decide_True by lia.
  replace (_ + _ - _)%nat with (byte_len m) by lia. by rewrite split_at_app.
Qed.

Lemma replace_cut t s e x t' :
  replace_range t s e x = Some t' -> exists p m q, cut t s e p m q /\ t' = p ++ x ++ q.
Proof.
  unfold replace_range. intros H. split_cases.
  repeat match goal with
  | H : split_at _ _ = Some _ |- _ => apply split_at_spec in H as [? ?]
  end. subst. eexists _, _, _. split; [|done]. split; [done|]. split; [done|].
  rewrite byte_len_app. lia.
Qed.

Lemma cut_exists t s e :
  is_boundary t s = true -> is_boundary t e = true -> (s <= e)%nat ->
  exists p m q, cut t s e p m q.
Proof.
  intros (p & r & -> & <-)%is_boundary_spec (p' & q & E & <-)%is_boundary_spec Hle.
  apply app_eq_inv in E as [(m & Er & Ep)|(m & Er & Ep)].
  - subst. rewrite byte_len_app in Hle. destruct m as [|c m].
    + exists p', [], r. unfold cut. by rewrite !app_nil_r.
    + rewrite byte_len_cons in Hle. pose proof (len_utf8_pos c). lia.
  - subst. exists p, m, q. done.
Qed.

(** ** Edits as changes of the text *)

(** [link e t t']: the edit turns the text [t] into [t']. *)
Definition link (e : AppliedEdit) (t t' : str) : Prop :=
  exists p q, t = p ++ removed e ++ q /\ t' = p ++ inserted e ++ q /\ byte_len p = at_ e.

(** A sequence of edits between two texts, each made with its cursor on a
    character boundary. *)
Fixpoint replays (es : list AppliedEdit) (t t' : str) : Prop :=
  match es with
  | [] => t = t'
  | e :: r => exists u, link e t u /\ is_boundary t (cursor_before e) = true /\ replays r u t'
  end.

Lemma link_reverse e t t' :
  link e t t' -> replace_range t' (at_ e) (at_ e + byte_len (inserted e)) (removed e) = Some t.
Proof.
  intros (p & q & -> & -> & <-). eapply cut_replace. split; [done|].
  by rewrite byte_len_app.
Qed.

Lemma link_forward e t t' :
  link e t t' -> replace_range t (at_ e) (at_ e + byte_len (removed e)) (inserted e) = Some t'.
Proof.
  intros (p & q & -> & -> & <-). eapply cut_replace. split; [done|].
  by rewrite byte_len_app.
Qed.

Lemma link_after e t t' : link e t t' -> is_boundary t' (at_ e + byte_len (inserted e)) = true.
Proof.
  intros (p & q & -> & -> & <-). rewrite app_assoc, <- byte_len_app. apply boundary_app.
Qed.

Lemma reverse_edits_app es fs t c :
  reverse_edits (es ++ fs) t c =
  match reverse_edits es t c with
  | Some (t', c') => reverse_edits fs t' c'
  | None => None
  end.
Proof.
  revert t c. induction es as [|e es IH]; intros t c; cbn [reverse_edits app]; [done|].
  case_match; [apply IH|done].
Qed.

(** Where the cursor is after undoing or redoing edits. *)
Definition cursor_undone (es : list AppliedEdit) (c : nat) : nat :=
  match es with
  | [] => c
  | e :: _ => cursor_before e
  end.
Fixpoint cursor_redone (es : list AppliedEdit) (c : nat) : nat :=
  match es with
  | [] => c
  | e :: r => cursor_redone r (at_ e + byte_len (inserted e))%nat
  end.

Lemma replays_reverse es t t' c :
  replays es t t' -> reverse_edits (reverse es) t' c = Some (t, cursor_undone es c).
Proof.
  revert t. induction es as [|e es IH]; intros t; cbn [replays].
  - by intros ->.
  - intros (u & Hl & _ & Hr). rewrite reverse_cons, reverse_edits_app, (IH u Hr).
    cbn [reverse_edits cursor_undone]. by rewrite (link_reverse _ _ _ Hl).
Qed.

Lemma replays_forward es t t' c :
  replays es t t' -> forward_edits es t c = Some (t', cursor_redone es c).
Proof.
  revert t c. induction es as [|e es IH]; intros t c; cbn [replays].
  - by intros ->.
  - intros (u & Hl & _ & Hr). cbn [forward_edits cursor_redone].
    rewrite (link_forward _ _ _ Hl). by apply IH.
Qed.

Lemma replays_snoc es e t u t' :
  replays es t u -> link e u t' -> is_boundary u (cursor_before e) = true ->
  replays (es ++ [e]) t t'.
Proof.
  revert t. induction es as [|a es IH]; intros t; cbn [replays app].
  - intros -> Hl Hb. by exists t'.
  - intros (v & Hv & Hc & Hr) Hl Hb. exists v. eauto.
Qed.

Lemma replays_boundary_undone es t t' c :
  replays es t t' -> is_boundary t' c = true -> is_boundary t (cursor_undone es c) = true.
Proof. destruct es as [|e es]; cbn [replays]; [by intros ->|]. by intros (u & _ & Hb & _). Qed.

Lemma replays_boundary_redone es t t' c :
  replays es t t' -> is_boundary t c = true -> is_boundary t' (cursor_redone es c) = true.
Proof.
  revert t c. induction es as [|e es IH]; intros t c; cbn [replays]; [by intros ->|].
  intros (u & Hl & _ & Hr) _. apply (IH u); [done|]. by eapply link_after.
Qed.

(** One recorded change of a buffer. *)
Definition edited (b b' : LineBuffer) : Prop :=
  exists e t, link e (text b) t /\ cursor_before e = cursor b
    /\ b' = mutated t (at_ e + byte_len (inserted e)) (record e b).

Lemma insert_edited x b b' : insert x b = Some b' -> edited b b'.
Proof.
  unfold insert. intros H. case_match eqn:E; [|done]. simplify_eq.
  apply replace_cut in E as (p & m & q & (Ht & Hp & Hm) & ->).
  exists (mkEdit (cursor b) [] x (cursor b)), (p ++ x ++ q). cbn.
  split; [|done]. exists p, q. cbn. rewrite byte_len_app in Hm.
  destruct m as [|c m]; [done|]. rewrite byte_len_cons in Hm. pose proof (len_utf8_pos c). lia.
Qed.

Lemma backspace_edited b b' :
  backspace b = Some b' -> (cursor b = O /\ b' = b) \/ edited b b'.
Proof.
  unfold backspace. intros H. case_decide; [left; split; congruence|right].
  destruct (prev_grapheme _ _) as [start|]; [|done].
  destruct (slice _ _ _) as [gone|] eqn:Es; [|done].
  destruct (replace_range _ _ _ _) as [t|] eqn:Er; [|done]. simplify_eq.
  apply replace_cut in Er as (p & m & q & Hc & ->).
  rewrite (cut_slice _ _ _ _ _ _ Hc) in Es. simplify_eq. destruct Hc as (Ht & Hp & _).
  exists (mkEdit start gone [] (cursor b)), (p ++ [] ++ q). cbn.
  split; [by exists p, q|]. split; [done|]. by rewrite Nat.add_0_r.
Qed.

Lemma apply_edited e b r b' :
  apply e b = Some (r, b') -> (is_ok r = false /\ b' = b) \/ (r = Ok tt /\ edited b b').
Proof.
  unfold apply. intros H.
  repeat (case_match; [by left; simplify_eq|]).
  destruct (slice _ _ _) as [gone|] eqn:Es; [|done].
  destruct (replace_range _ _ _ _) as [t|] eqn:Er; [|done].
  destruct (unexpected e gone); [by left; simplify_eq|]. simplify_eq. right. split; [done|].
  apply replace_cut in Er as (p & m & q & Hc & ->).
  rewrite (cut_slice _ _ _ _ _ _ Hc) in Es. simplify_eq. destruct Hc as (Ht & Hp & _).
  exists (mkEdit (edit_start e) gone (edit_text e) (cursor b)), (p ++ edit_text e ++ q). cbn.
  split; [by exists p, q|]. done.
Qed.

(** ** Single edits *)

Inductive Edit :=
| Insert (x : str)
| Backspace
| Replace (e : TextEdit)
| Accept (e : TextEdit)
| SetText (x : str).

Definition edit (op : Edit) (b : LineBuffer) : option (result EditError unit * LineBuffer) :=
  match op with
  | Insert x => pair (Ok tt) <$> insert x b
  | Backspace => pair (Ok tt) <$> backspace b
  | Replace e => apply e b
  | Accept e => accept_completion e b
  | SetText x => Some (Ok tt, set_text x b)
  end.

(** The edit became one transaction of its own. *)
Definition one_transaction (b b' : LineBuffer) : Prop :=
  exists e l t, link e (text b) t /\ cursor_before e = cursor b
    /\ b' = mkBuffer t (at_ e + byte_len (inserted e)) (revision b + 1)
              (mkTransaction [e] l :: undo_stack b) [] None.

Lemma edited_one_transaction b b' : open b = None -> edited b b' -> one_transaction b b'.
Proof.
  intros Ho (e & t & Hl & Hc & ->). exists e, "edit"%string, t. split; [done|]. split; [done|].
  unfold record. by rewrite Ho.
Qed.

Lemma grouped_one_transaction l b b' :
  edited (begin l b) b' -> one_transaction b (commit b').
Proof. intros (e & t & Hl & Hc & ->). by exists e, l, t. Qed.

Lemma set_text_edited l x b :
  edited (begin l b) (mutated x (byte_len x) (record (mkEdit 0 (text b) x (cursor b)) (begin l b))).
Proof.
  exists (mkEdit 0 (text b) x (cursor b)), x. split; [|done].
  exists [], []. cbn. by rewrite !app_nil_r.
Qed.

Lemma close_unchanged l b : open b = None ->
  mkBuffer (text (begin l b)) (cursor (begin l b)) (revision (begin l b)) (undo_stack (begin l b))
    (redo_stack (begin l b)) None = b.
Proof. destruct b. cbn. by intros ->. Qed.

Lemma edit_cases op b r b' :
  open b = None -> edit op b = Some (r, b') ->
  (b' = b /\ (op = Backspace /\ cursor b = O \/ is_ok r = false))
  \/ (r = Ok tt /\ one_transaction b b').
Proof.
  intros Ho. destruct op as [x| |e|e|x]; cbn [edit]; intros H.
  - apply fmap_Some in H as (b1 & H & E). simplify_eq.
    apply insert_edited in H. eauto using edited_one_transaction.
  - apply fmap_Some in H as (b1 & H & E). simplify_eq.
    apply backspace_edited in H as [[? ->]|H]; eauto 6 using edited_one_transaction.
  - apply apply_edited in H as [[Hr ->]|[-> H]]; eauto using edited_one_transaction.
  - unfold accept_completion in H. destruct (apply e _) as [[r1 b1]|] eqn:E; [|done].
    apply apply_edited in E as [[Hr ->]|[-> E]].
    + destruct r1; [done|]. simplify_eq. left. rewrite close_unchanged by done. by eauto.
    + simplify_eq. eauto using grouped_one_transaction.
  - simplify_eq. right. split; [done|]. unfold set_text.
    apply (grouped_one_transaction "set text"), set_text_edited.
Qed.

Lemma one_transaction_undo b b' :
  one_transaction b b' ->
  exists c, undo b' = Some (Ok tt, c) /\ text c = text b /\ cursor c = cursor b
    /\ undo_stack c = undo_stack b /\ open c = None
    /\ exists d, redo c = Some (Ok tt, d) /\ text d = text b' /\ cursor d = cursor b'
         /\ undo_stack d = undo_stack b' /\ redo_stack d = [].
Proof.
  intros (e & l & t & Hl & Hc & ->). eexists. split.
  - unfold undo. cbn [undo_stack edits text cursor redo_stack revision open].
    change (reverse [e]) with [e]. cbn [reverse_edits]. by rewrite (link_reverse _ _ _ Hl).
  - cbn. repeat (split; [done|]). eexists. split.
    + unfold redo. cbn [redo_stack edits text cursor forward_edits].
      rewrite (link_forward _ _ _ Hl). done.
    + done.
Qed.

(** ** Groups *)

Inductive GroupStep :=
| GInsert (x : str)
| GBackspace
| GReplace (e : TextEdit)
| GLeft
| GRight
| GCursor (i : nat).

Definition group_step (s : GroupStep) (b : LineBuffer) : option LineBuffer :=
  match s with
  | GInsert x => insert x b
  | GBackspace => backspace b
  | GReplace e => snd <$> apply e b
  | GLeft => move_left b
  | GRight => move_right b
  | GCursor i => Some (snd (set_cursor i b))
  end.

Fixpoint group_steps (ss : list GroupStep) (b : LineBuffer) : option LineBuffer :=
  match ss with
  | [] => Some b
  | s :: r => group_step s b ≫= group_steps r
  end.

(** ** Cursor movement stays on character boundaries *)

Lemma floor_boundary_ok s i : is_boundary s (floor_boundary s i) = true.
Proof.
  induction i as [|i IH]; cbn [floor_boundary]; [apply boundary_0|]. by case_match.
Qed.

Lemma prev_loop_boundary s f i j : prev_loop f s i = Some j -> is_boundary s j = true.
Proof.
  revert i. induction f as [|f IH]; intros i; cbn [prev_loop]; [done|].
  destruct i as [|i]; [done|]. intros H.
  repeat (case_match || case_decide); simplify_eq; eauto using floor_boundary_ok, boundary_0.
Qed.

Lemma prev_grapheme_boundary s i j : prev_grapheme s i = Some j -> is_boundary s j = true.
Proof.
  unfold prev_grapheme. case_decide; [|apply prev_loop_boundary].
  intros [= <-]. apply boundary_0.
Qed.

Lemma next_extent_prefix n : forall r, (length r <= n)%nat ->
  exists p q, r = p ++ q /\ byte_len p = next_extent r.
Proof.
  induction n as [|n IH]; intros [|c r] Hn; cbn [length] in Hn; try lia; cbn [next_extent];
    try (exists [], []; done).
  case_match; [|case_decide as Hc].
  - destruct (IH r) as (p & q & -> & E); [lia|]. exists (c :: p), q.
    by rewrite byte_len_cons, E.
  - subst. destruct r as [|a r]; cbn [length] in Hn.
    + by exists [8205], [].
    + destruct (IH r) as (p & q & -> & E); [lia|]. exists (8205 :: a :: p), q.
      by rewrite !byte_len_cons, E, Nat.add_assoc.
  - by exists [], (c :: r).
Qed.

Lemma next_grapheme_boundary s i j : next_grapheme s i = Some j -> is_boundary s j = true.
Proof.
  unfold next_grapheme. case_decide; [intros [= <-]; apply boundary_end|].
  destruct (split_at i s) as [[p [|c r]]|] eqn:E; [intros [= <-]; apply boundary_end| |done].
  apply split_at_spec in E as [-> <-]. intros [= <-].
  destruct (next_extent_prefix _ r (le_n _)) as (x & y & -> & <-).
  apply is_boundary_spec. exists (p ++ c :: x), y.
  rewrite <- app_assoc, byte_len_app, byte_len_cons. split; [done|lia].
Qed.

Lemma next_grapheme_total s i : is_boundary s i = true -> next_grapheme s i <> None.
Proof.
  intros (p & q & -> & <-)%is_boundary_spec. unfold next_grapheme.
  case_decide; [done|]. rewrite split_at_app. by destruct q.
Qed.

(** ** The invariant of a buffer

    Undoing works back from the text the stacks were built on: the present text,
    or, with a group open, the text at the start of the group. *)

Fixpoint undoable (ts : list Transaction) (t : str) : Prop :=
  match ts with
  | [] => True
  | x :: r => exists u, replays (edits x) u t /\ undoable r u
  end.
Fixpoint redoable (ts : list Transaction) (t : str) : Prop :=
  match ts with
  | [] => True
  | x :: r => exists u, replays (edits x) t u /\ redoable r u
  end.

Definition since (b : LineBuffer) (t : str) : Prop :=
  match open b with
  | None => t = text b
  | Some x => replays (edits x) t (text b)
  end.

Record wf (b : LineBuffer) : Prop := mkWf {
  wf_cursor : is_boundary (text b) (cursor b) = true;
  wf_stacks : exists t, since b t /\ undoable (undo_stack b) t /\ redoable (redo_stack b) t;
}.

Lemma wf_empty : wf empty_buffer.
Proof. split; [done|]. by exists []. Qed.

Lemma wf_with_cursor c b : is_boundary (text b) c = true -> wf b -> wf (with_cursor c b).
Proof. intros Hc [_ (t & H)]. split; [done|]. by exists t. Qed.

Lemma wf_edited b b' : wf b -> edited b b' -> wf b'.
Proof.
  intros [Hc (t & Hs & Hu & Hr)] (e & u & Hl & He & ->).
  assert (He' : is_boundary (text b) (cursor_before e) = true) by congruence.
  split; [exact (link_after _ _ _ Hl)|].
  unfold since, record in *. destruct (open b) as [x|]; cbn.
  - exists t. eauto using replays_snoc.
  - subst. exists u. split; [done|]. split; [|done]. exists (text b). split; [|done]. by exists u.
Qed.

Lemma wf_commit b : wf b -> wf (commit b).
Proof.
  intros [Hc (t & Hs & Hu & Hr)]. unfold commit, since in *.
  destruct (open b) as [x|] eqn:Ho.
  - case_decide as Hx; (split; [done|]); cbn.
    + rewrite Hx in Hs. cbn in Hs. subst. by exists (text b).
    + exists (text b). split; [done|]. split; [by exists t|done].
  - split; [done|]. exists t. unfold since. by rewrite Ho.
Qed.

Lemma wf_begin l b : open b = None -> wf b -> wf (begin l b).
Proof.
  intros Ho [Hc (t & Hs & H)]. split; [done|]. unfold since in *. rewrite Ho in Hs. subst.
  by exists (text b).
Qed.

Lemma set_cursor_wf i b : wf b -> wf (snd (set_cursor i b)).
Proof.
  intros Hw. unfold set_cursor. case_decide; [done|]. case_match; [|done].
  by apply wf_with_cursor.
Qed.

Lemma wf_one_transaction b b' : open b = None -> wf b -> one_transaction b b' -> wf b'.
Proof.
  intros Ho [Hc (t & Hs & Hu & _)] (e & l & u & Hl & He & ->). unfold since in Hs.
  rewrite Ho in Hs. subst. split; [exact (link_after _ _ _ Hl)|]. exists u. split; [done|].
  split; [|done]. exists (text b). split; [|done]. exists u. by rewrite He.
Qed.

Lemma group_step_wf s b b' : wf b -> group_step s b = Some b' -> wf b'.
Proof.
  intros Hw. destruct s as [x| |e| | |i]; cbn [group_step].
  - intros H. eapply wf_edited, insert_edited; eauto.
  - intros [[_ ->]|H]%backspace_edited; eauto using wf_edited.
  - intros ([r c] & H & ->)%fmap_Some. apply apply_edited in H as [[_ ->]|[_ H]]; eauto using wf_edited.
  - intros (c & H & ->)%fmap_Some. eauto using wf_with_cursor, prev_grapheme_boundary.
  - intros (c & H & ->)%fmap_Some. eauto using wf_with_cursor, next_grapheme_boundary.
  - intros [= <-]. by apply set_cursor_wf.
Qed.

(** The first edit of a group remembers the cursor, so the transaction's text
    is all that is followed through it. *)
Definition grouping (b0 b : LineBuffer) : Prop :=
  undo_stack b = undo_stack b0 /\ is_boundary (text b) (cursor b) = true
  /\ exists x, open b = Some x /\ replays (edits x) (text b0) (text b).

Lemma grouping_edited b0 b b' : grouping b0 b -> edited b b' -> grouping b0 b'.
Proof.
  intros (Hu & Hc & x & Hx & Hr) (e & t & Hl & He & ->). unfold record. rewrite Hx.
  split; [done|]. split; [exact (link_after _ _ _ Hl)|]. eexists. split; [done|].
  cbn. eapply replays_snoc; eauto.
Qed.

Lemma grouping_with_cursor b0 b c :
  grouping b0 b -> is_boundary (text b) c = true -> grouping b0 (with_cursor c b).
Proof. by intros (Hu & _ & H) Hc. Qed.

Lemma grouping_step b0 b s b' : grouping b0 b -> group_step s b = Some b' -> grouping b0 b'.
Proof.
  intros Hg. destruct s as [x| |e| | |i]; cbn [group_step].
  - intros H. eapply grouping_edited, insert_edited; eauto.
  - intros [[_ ->]|H]%backspace_edited; eauto using grouping_edited.
  - intros ([r c] & H & ->)%fmap_Some.
    apply apply_edited in H as [[_ ->]|[_ H]]; eauto using grouping_edited.
  - intros (c & H & ->)%fmap_Some. eauto using grouping_with_cursor, prev_grapheme_boundary.
  - intros (c & H & ->)%fmap_Some. eauto using grouping_with_cursor, next_grapheme_boundary.
  - intros [= <-]. unfold set_cursor. case_decide; [done|]. case_match; [|done].
    by apply grouping_with_cursor.
Qed.

Lemma grouping_steps b0 ss b b' : grouping b0 b -> group_steps ss b = Some b' -> grouping b0 b'.
Proof.
  revert b. induction ss as [|s ss IH]; intros b Hg; cbn [group_steps]; [by intros [= <-]|].
  intros (c & H1 & H2)%bind_Some. eauto using grouping_step.
Qed.

Lemma transaction_undo x t b :
  replays (edits x) t (text b) ->
  exists c, undo (mkBuffer (text b) (cursor b) (revision b) (x :: undo_stack b) [] None) = Some (Ok tt, c)
    /\ text c = t /\ undo_stack c = undo_stack b
    /\ exists d, redo c = Some (Ok tt, d) /\ text d = text b /\ undo_stack d = x :: undo_stack b.
Proof.
  intros Hr. unfold undo. cbn [undo_stack text cursor revision redo_stack open].
  rewrite (replays_reverse _ _ _ _ Hr). eexists. split; [done|]. cbn. split; [done|]. split; [done|].
  unfold redo. cbn [redo_stack text cursor]. rewrite (replays_forward _ _ _ _ Hr).
  by eexists.
Qed.

(** ** The calls of a client *)

(** Every call that changes a buffer; [Plain] are those that a group collects or
    that only move the cursor. *)
Inductive Call :=
| Plain (s : GroupStep)
| Complete (e : TextEdit)
| Recall (x : str)
| Begin (l : string)
| Commit
| Undo
| Redo.

Definition call (c : Call) (b : LineBuffer) : option LineBuffer :=
  match c with
  | Plain s => group_step s b
  | Complete e => snd <$> accept_completion e b
  | Recall x => Some (set_text x b)
  | Begin l => Some (begin l b)
  | Commit => Some (commit b)
  | Undo => snd <$> undo b
  | Redo => snd <$> redo b
  end.

Fixpoint calls (cs : list Call) (b : LineBuffer) : option LineBuffer :=
  match cs with
  | [] => Some b
  | c :: r => call c b ≫= calls r
  end.

(** What the open group has recorded, and the calls that either drop it or work
    on the text as if it were not there. *)
Definition pending (b : LineBuffer) : list AppliedEdit :=
  match open b with Some t => edits t | None => [] end.
Definition disturbs (c : Call) : bool :=
  match c with Complete _ | Recall _ | Begin _ | Undo | Redo => true | Plain _ | Commit => false end.

(** ** Reachable buffers: any calls in any order, except that a group which holds
    edits is closed before a call that would disturb it. *)
Inductive step : LineBuffer -> LineBuffer -> Prop :=
| step_call c b b' : (disturbs c = true -> pending b = []) -> call c b = Some b' -> step b b'.

Inductive reachable : LineBuffer -> Prop :=
| reachable_empty : reachable empty_buffer
| reachable_step b b' : reachable b -> step b b' -> reachable b'.

(** The buffer without its open group. *)
Definition closed (b : LineBuffer) : LineBuffer :=
  mkBuffer (text b) (cursor b) (revision b) (undo_stack b) (redo_stack b) None.

Lemma since_idle b t : pending b = [] -> since b t <-> t = text b.
Proof. unfold pending, since. destruct (open b) as [x|]; [|done]. by intros ->. Qed.

Lemma wf_idle b : pending b = [] -> wf b ->
  is_boundary (text b) (cursor b) = true /\ undoable (undo_stack b) (text b) /\ redoable (redo_stack b) (text b).
Proof. intros Hp [Hc (t & Hs & H)]. apply since_idle in Hs as ->; [|done]. by split. Qed.

Lemma wf_closed b : pending b = [] -> wf b -> wf (closed b).
Proof. intros Hp (Hc & H)%wf_idle; [|done]. split; [done|]. by exists (text b). Qed.

Lemma wf_undo b : pending b = [] -> wf b -> exists r b', undo b = Some (r, b') /\ wf b'.
Proof.
  intros Hp Hw. destruct (wf_idle b Hp Hw) as (Hc & Hu & Hr). unfold undo.
  destruct (undo_stack b) as [|x rest] eqn:Es; [by eexists _, _|].
  cbn [undoable] in Hu. destruct Hu as (u & Hx & Hu). rewrite (replays_reverse _ _ _ _ Hx).
  eexists _, _. split; [done|]. split; [exact (replays_boundary_undone _ _ _ _ Hx Hc)|].
  exists u. split; [by apply since_idle|]. split; [done|]. by exists (text b).
Qed.

Lemma wf_redo b : pending b = [] -> wf b -> exists r b', redo b = Some (r, b') /\ wf b'.
Proof.
  intros Hp Hw. destruct (wf_idle b Hp Hw) as (Hc & Hu & Hr). unfold redo.
  destruct (redo_stack b) as [|x rest] eqn:Es; [by eexists _, _|].
  cbn [redoable] in Hr. destruct Hr as (u & Hx & Hr). rewrite (replays_forward _ _ _ _ Hx).
  eexists _, _. split; [done|]. split; [exact (replays_boundary_redone _ _ _ _ Hx Hc)|].
  exists u. split; [by apply since_idle|]. split; [|done]. by exists (text b).
Qed.

Lemma wf_edit op b r b' : open b = None -> wf b -> edit op b = Some (r, b') -> wf b'.
Proof. intros Ho Hw He. apply edit_cases in He as [[-> _]|[_ H]]; eauto using wf_one_transaction. Qed.

Lemma call_wf c b b' : (disturbs c = true -> pending b = []) -> wf b -> call c b = Some b' -> wf b'.
Proof.
  intros Hd Hw. destruct c as [s|e|x|l| | |]; cbn [call disturbs] in *.
  - by apply group_step_wf.
  - intros ([r c] & H & ->)%fmap_Some. change (edit (Accept e) (closed b) = Some (r, c)) in H.
    by eapply wf_edit, H; [|apply wf_closed; auto].
  - intros [= <-]. apply (wf_edit (SetText x) (closed b) (Ok tt)); [done|by apply wf_closed; auto|done].
  - intros [= <-]. apply (wf_begin l (closed b)); [done|by apply wf_closed; auto].
  - intros [= <-]. by apply wf_commit.
  - intros ([r c] & H & ->)%fmap_Some. destruct (wf_undo b (Hd eq_refl) Hw) as (? & ? & E & Hc). cbn. congruence.
  - intros ([r c] & H & ->)%fmap_Some. destruct (wf_redo b (Hd eq_refl) Hw) as (? & ? & E & Hc). cbn. congruence.
Qed.

Lemma reachable_wf b : reachable b -> wf b.
Proof. induction 1 as [|b b' _ IH Hs]; [apply wf_empty|]. destruct Hs. by eapply call_wf. Qed.

(** Steps of a client that keeps no group open. *)
Lemma step_inside s b b' : group_step s b = Some b' -> step b b'.
Proof. intros H. by apply (step_call (Plain s)). Qed.

Lemma step_edit op b r b' : open b = None -> edit op b = Some (r, b') -> step b b'.
Proof.
  intros Ho H. assert (Hp : pending b = []) by (unfold pending; by rewrite Ho).
  destruct op as [x| |e|e|x]; cbn [edit] in H.
  - apply fmap_Some in H as (c & H & [= -> ->]). by apply (step_inside (GInsert x)).
  - apply fmap_Some in H as (c & H & [= -> ->]). by apply (step_inside GBackspace).
  - apply (step_inside (GReplace e)). cbn. by rewrite H.
  - apply (step_call (Complete e)); [done|]. cbn. by rewrite H.
  - injection H as <- <-. by apply (step_call (Recall x)).
Qed.

(** ** Moving back over a character

    The position is taken below zero only from the start of the line, and gets
    there only before a joiner. *)

Lemma floor_boundary_le s i : (floor_boundary s i <= i)%nat.
Proof. induction i as [|i IH]; cbn [floor_boundary]; [done|]. case_match; lia. Qed.

Lemma prev_char_start_le s i : (prev_char_start s i <= i)%nat.
Proof. destruct i as [|i]; [done|]. cbn. pose proof (floor_boundary_le s i). lia. Qed.

Lemma prev_loop_total s : head s <> Some zwj -> forall f i, (0 < i < f)%nat -> prev_loop f s i <> None.
Proof.
  intros Hz. induction f as [|f IH]; intros i Hi; [lia|]. cbn [prev_loop]. destruct i as [|i]; [lia|].
  pose proof (floor_boundary_le s i). destruct (char_at s _) as [ch|]; [|done]. case_match.
  - case_decide; [done|]. apply IH. lia.
  - pose proof (prev_char_start_le s (floor_boundary s i)). case_decide; [|done]. case_decide as Ez; [|done].
    apply IH. split; [|lia]. apply Nat.neq_0_lt_0. intros E. rewrite E in Ez. unfold char_at in Ez. by destruct s.
Qed.

Lemma prev_grapheme_total s i : head s <> Some zwj -> prev_grapheme s i <> None.
Proof. intros Hz. unfold prev_grapheme. case_decide; [done|]. apply prev_loop_total; [done|lia]. Qed.

Lemma prev_loop_le s f : forall i j, prev_loop f s i = Some j -> (j <= i)%nat.
Proof.
  induction f as [|f IH]; intros i j; cbn [prev_loop]; [done|]. destruct i as [|i]; [done|].
  pose proof (floor_boundary_le s i). pose proof (prev_char_start_le s (floor_boundary s i)). intros Hj.
  repeat (case_match || case_decide); simplify_eq; try lia; apply IH in Hj; lia.
Qed.

Lemma prev_grapheme_le s i j : prev_grapheme s i = Some j -> (j <= i)%nat.
Proof. unfold prev_grapheme. case_decide; [by intros [= <-]; lia|apply prev_loop_le]. Qed.

(** ** Applying an edit computed elsewhere *)

(** The edit still means what it meant: its span cuts the text, and revision and
    replaced text, where given, are the present ones. *)
Definition fits (e : TextEdit) (b : LineBuffer) (p m q : str) : Prop :=
  cut (text b) (edit_start e) (edit_end e) p m q
  /\ (forall r, edit_revision e = Some r -> r = revision b)
  /\ (forall x, expected e = Some x -> x = m).

Lemma cut_unique t s e p m q p' m' q' :
  cut t s e p m q -> cut t s e p' m' q' -> m = m'.
Proof.
  intros H H'. apply cut_slice in H, H'. congruence.
Qed.

Lemma cut_bounds t s e p m q : cut t s e p m q ->
  (s <= e)%nat /\ (e <= byte_len t)%nat /\ is_boundary t s = true /\ is_boundary t e = true.
Proof.
  intros (-> & <- & <-). rewrite !byte_len_app. split; [lia|]. split; [lia|].
  split; [apply boundary_app|]. rewrite <- byte_len_app, app_assoc. apply boundary_app.
Qed.

Lemma not_stale e b : stale e b = false <-> (forall r, edit_revision e = Some r -> r = revision b).
Proof.
  unfold stale. destruct (edit_revision e) as [r|]; [|naive_solver].
  rewrite negb_false_iff, bool_decide_eq_true. naive_solver.
Qed.

Lemma not_unexpected e m : unexpected e m = false <-> (forall x, expected e = Some x -> x = m).
Proof.
  unfold unexpected. destruct (expected e) as [x|]; [|naive_solver].
  rewrite negb_false_iff, bool_decide_eq_true. naive_solver.
Qed.

Lemma apply_fits e b p m q : fits e b p m q ->
  apply e b = Some (Ok tt, mutated (p ++ edit_text e ++ q) (edit_start e + byte_len (edit_text e))
                (record (mkEdit (edit_start e) m (edit_text e) (cursor b)) b)).
Proof.
  intros (Hc & Hr%not_stale & Hx%not_unexpected). unfold apply.
  destruct (cut_bounds _ _ _ _ _ _ Hc) as (? & ? & Hs & He).
  rewrite Hr, Hs, He. rewrite !decide_False by lia. cbn [negb].
  by rewrite (cut_slice _ _ _ _ _ _ Hc), (cut_replace _ _ _ _ _ _ _ Hc), Hx.
Qed.

Lemma apply_misfit e b : (forall p m q, ~ fits e b p m q) -> exists x, apply e b = Some (Err x, b).
Proof.
  intros Hn. unfold apply.
  destruct (stale e b) eqn:Hr; [by eexists|].
  case_decide; [by eexists|]. case_decide; [by eexists|].
  destruct (is_boundary _ (edit_start e)) eqn:Hs; [|by eexists].
  destruct (is_boundary _ (edit_end e)) eqn:He; [|by eexists]. cbn [negb].
  destruct (cut_exists _ _ _ Hs He) as (p & m & q & Hc); [lia|].
  rewrite (cut_slice _ _ _ _ _ _ Hc), (cut_replace _ _ _ _ _ _ _ Hc).
  destruct (unexpected e m) eqn:Hx; [by eexists|].
  destruct (Hn p m q). split; [done|]. by rewrite <- not_stale, <- not_unexpected.
Qed.

Lemma apply_ok_fits e b b' : apply e b = Some (Ok tt, b') -> exists p m q, fits e b p m q.
Proof.
  unfold apply. intros H.
  destruct (stale e b) eqn:Hr; [done|].
  repeat (case_match; [done|]).
  destruct (slice _ _ _) as [gone|] eqn:Es; [|done].
  destruct (replace_range _ _ _ _) as [t|] eqn:Er; [|done].
  destruct (unexpected e gone) eqn:Hx; [done|].
  apply replace_cut in Er as (p & m & q & Hc & _).
  rewrite (cut_slice _ _ _ _ _ _ Hc) in Es. simplify_eq. exists p, gone, q.
  split; [done|]. by rewrite <- not_stale, <- not_unexpected.
Qed.

#[export] Instance fits_dec e b : Decision (exists p m q, fits e b p m q).
Proof.
  destruct (apply e b) as [[[[]|x] c]|] eqn:E.
  - left. by eapply apply_ok_fits.
  - right. intros (p & m & q & H%apply_fits). congruence.
  - right. intros (p & m & q & H%apply_fits). congruence.
Defined.

(** Any edit — typing, deleting, a replacement, a completion, a recalled
    line — either is refused (or had nothing to delete) and changes nothing, or
    is one transaction: undoing it restores text, cursor and earlier history,
    and redoing it brings text and cursor back. *)
Theorem edit_undo_restores op b r b' :
  open b = None -> edit op b = Some (r, b') ->
  (b' = b /\ (op = Backspace /\ cursor b = O \/ is_ok r = false))
  \/ (r = Ok tt /\ revision b' = revision b + 1
      /\ exists c, undo b' = Some (Ok tt, c) /\ text c = text b /\ cursor c = cursor b
           /\ undo_stack c = undo_stack b
           /\ exists d, redo c = Some (Ok tt, d) /\ text d = text b' /\ cursor d = cursor b'
                /\ undo_stack d = undo_stack b' /\ redo_stack d = []).
Proof.
  intros Ho He. destruct (edit_cases _ _ _ _ Ho He) as [H|[Hr H]]; [by left|right].
  split; [done|]. split; [by destruct H as (? & ? & ? & _ & _ & ->)|].
  destruct (one_transaction_undo _ _ H) as (c & ? & ? & ? & ? & _ & ?). eauto 10.
Qed.

(** The line [get k], cursor at its end. *)
Definition sample : LineBuffer := set_text (chars "get k") empty_buffer.

Lemma edit_undo_restores_witness :
  exists b', edit (Accept (new_edit 0 3 (chars "GETDEL"))) sample = Some (Ok tt, b')
  /\ text b' = chars "GETDEL k"
  /\ exists c, undo b' = Some (Ok tt, c) /\ text c = chars "get k".
Proof.
  eexists. split; [vm_compute; reflexivity|]. split; [vm_compute; reflexivity|].
  destruct (edit_undo_restores (Accept (new_edit 0 3 (chars "GETDEL"))) sample _ _ eq_refl
              ltac:(vm_compute; reflexivity)) as [[E _]|(_ & _ & c & Hc & Ht & _)].
  - discriminate E.
  - exists c. split; [exact Hc|]. rewrite Ht. reflexivity.
Defined.

(** Whatever happens inside a group — edits, refused edits, cursor
    movement — undoes as one: after [commit], one undo restores the text and the
    history from before the group, and one redo restores the group's result. *)
Theorem group_undoes_as_one l ss b b' :
  open b = None -> is_boundary (text b) (cursor b) = true ->
  group_steps ss (begin l b) = Some b' ->
  text (commit b') = text b' /\ open (commit b') = None
  /\ ((undo_stack (commit b') = undo_stack b /\ text b' = text b)
      \/ exists c, undo (commit b') = Some (Ok tt, c) /\ text c = text b
           /\ undo_stack c = undo_stack b
           /\ exists d, redo c = Some (Ok tt, d) /\ text d = text b'
                /\ undo_stack d = undo_stack (commit b')).
Proof.
  intros Ho Hc Hs.
  assert (Hg : grouping b (begin l b)) by (split; [done|split; [done|by eexists]]).
  destruct (grouping_steps _ _ _ _ Hg Hs) as (Hu & _ & x & Hx & Hr).
  unfold commit. rewrite Hx. case_decide as Hn; cbn [text open undo_stack].
  - split; [done|]. split; [done|]. left. split; [done|]. by rewrite Hn in Hr.
  - split; [done|]. split; [done|]. right.
    destruct (transaction_undo _ _ _ Hr) as (c & ? & ? & E & d & ? & ? & ?).
    exists c. split; [done|]. split; [done|]. split; [congruence|]. eauto.
Qed.

Lemma group_undoes_as_one_witness :
  exists b', group_steps [GInsert (chars " v"); GLeft; GBackspace; GReplace (new_edit 0 3 (chars "set"))]
               (begin "guide" sample) = Some b'
  /\ text b' = chars "set kv"
  /\ exists c, undo (commit b') = Some (Ok tt, c) /\ text c = chars "get k".
Proof.
  eexists. split; [vm_compute; reflexivity|]. split; [vm_compute; reflexivity|].
  destruct (group_undoes_as_one "guide"
              [GInsert (chars " v"); GLeft; GBackspace; GReplace (new_edit 0 3 (chars "set"))]
              sample _ eq_refl eq_refl ltac:(vm_compute; reflexivity))
    as (_ & _ & [[E _]|(c & Hc & Ht & _)]).
  - discriminate E.
  - exists c. split; [exact Hc|]. rewrite Ht. reflexivity.
Defined.

Lemma insert_total x b : wf b -> insert x b <> None.
Proof.
  intros [Hc _]. unfold insert. destruct (cut_exists _ _ _ Hc Hc) as (p & m & q & H); [lia|].
  by rewrite (cut_replace _ _ _ _ _ _ _ H).
Qed.

(** Backspace panics exactly where finding the previous grapheme does. *)
Lemma backspace_total b : wf b -> prev_grapheme (text b) (cursor b) <> None -> backspace b <> None.
Proof.
  intros [Hc _] Hp. unfold backspace. case_decide; [done|].
  destruct (prev_grapheme _ _) as [start|] eqn:E; [|done].
  destruct (cut_exists (text b) start (cursor b)) as (p & m & q & Hq);
    [by eapply prev_grapheme_boundary|done|by eapply prev_grapheme_le|].
  by rewrite (cut_slice _ _ _ _ _ _ Hq), (cut_replace _ _ _ _ _ _ _ Hq).
Qed.

Lemma apply_total e b : apply e b <> None.
Proof.
  destruct (decide (exists p m q, fits e b p m q)) as [(p & m & q & H)|Hn].
  - by rewrite (apply_fits _ _ _ _ _ H).
  - destruct (apply_misfit e b) as [x ->]; [|done]. intros p m q H. apply Hn. by exists p, m, q.
Qed.

(** The calls that look back from the cursor. *)
Definition looks_back (c : Call) : bool :=
  match c with Plain (GBackspace | GLeft) => true | _ => false end.

(** C31. After any calls of the buffer's interface in any order, as long as a
    group that holds edits was closed before a completion was accepted, a line
    recalled, another group begun or anything undone or redone: the cursor is on
    a character boundary, and no further call that keeps to the same rule panics,
    however long the history, except deleting back and moving left in a line that
    starts with a zero-width joiner. *)
Theorem reachable_never_panics b :
  reachable b ->
  is_boundary (text b) (cursor b) = true
  /\ forall c, (disturbs c = true -> pending b = []) ->
       (looks_back c = true -> head (text b) <> Some zwj) -> call c b <> None.
Proof.
  intros Hb%reachable_wf. pose proof (wf_cursor _ Hb) as Hc. split; [done|].
  intros c Hd Hl. destruct c as [[x| |e| | |i]|e|x|l| | |]; cbn [call group_step disturbs looks_back] in *; try done.
  - by apply insert_total.
  - apply backspace_total; [done|]. apply prev_grapheme_total. by apply Hl.
  - pose proof (apply_total e b). by destruct (apply e b).
  - unfold move_left. pose proof (prev_grapheme_total (text b) (cursor b) (Hl eq_refl)). by destruct (prev_grapheme _ _).
  - unfold move_right. pose proof (next_grapheme_total _ _ Hc). by destruct (next_grapheme _ _).
  - unfold accept_completion. pose proof (apply_total e (begin "accept completion" b)).
    by destruct (apply e _) as [[[]]|].
  - by destruct (wf_undo b (Hd eq_refl) Hb) as (? & ? & -> & _).
  - by destruct (wf_redo b (Hd eq_refl) Hb) as (? & ? & -> & _).
Qed.

Lemma sample_reachable : reachable sample.
Proof.
  eapply reachable_step; [apply reachable_empty|]. by apply (step_call (Recall (chars "get k"))).
Qed.

Lemma reachable_never_panics_witness :
  reachable sample /\ call Undo sample <> None /\ call (Plain GBackspace) sample <> None.
Proof.
  split; [exact sample_reachable|].
  destruct (reachable_never_panics sample sample_reachable) as (_ & H).
  split; apply H; done.
Defined.

(** C34. An edit computed elsewhere, such as a completion, is applied exactly when
    it still fits the buffer: its revision and replaced text, where given, are the
    present ones, and its span cuts the text at character boundaries. It then
    replaces its span, with the cursor after the replacement and one more
    revision, and, when no group was open, it is one transaction: one undo gives
    back text, cursor and earlier history, and a redo after it text and cursor.
    Any other edit is refused and leaves the buffer as it was. *)
Theorem apply_exact e b :
  (exists p m q b', fits e b p m q /\ apply e b = Some (Ok tt, b')
     /\ text b' = p ++ edit_text e ++ q /\ cursor b' = byte_len (p ++ edit_text e)
     /\ revision b' = revision b + 1
     /\ (open b = None -> exists c, undo b' = Some (Ok tt, c) /\ text c = text b /\ cursor c = cursor b
           /\ undo_stack c = undo_stack b
           /\ exists d, redo c = Some (Ok tt, d) /\ text d = text b' /\ cursor d = cursor b'))
  \/ ((forall p m q, ~ fits e b p m q) /\ exists x, apply e b = Some (Err x, b)).
Proof.
  destruct (decide (exists p m q, fits e b p m q)) as [(p & m & q & H)|Hn].
  - left. pose proof (apply_fits _ _ _ _ _ H) as Ha. eexists p, m, q, _. split; [done|]. split; [exact Ha|].
    split; [done|]. split; [|split; [by cbn; unfold record; destruct (open b)|]].
    + destruct H as ((_ & <- & _) & _). cbn [mutated cursor]. by rewrite byte_len_app.
    + intros Ho. apply apply_edited in Ha as [[Ha _]|[_ Ha]]; [done|].
      destruct (one_transaction_undo _ _ (edited_one_transaction _ _ Ho Ha)) as (c & ? & ? & ? & ? & _ & d & ? & ? & ? & _).
      eauto 10.
  - right. assert (H : forall p m q, ~ fits e b p m q) by (intros p m q H; apply Hn; by exists p, m, q).
    split; [done|]. by apply apply_misfit.
Qed.

(** A completion of [get], computed on the present revision. *)
Lemma apply_exact_witness :
  exists b' c, apply (at_revision 1 (expecting (chars "get") (new_edit 0 3 (chars "GETDEL")))) sample = Some (Ok tt, b')
  /\ text b' = chars "GETDEL k" /\ undo b' = Some (Ok tt, c) /\ text c = chars "get k".
Proof.
  destruct (apply_exact (at_revision 1 (expecting (chars "get") (new_edit 0 3 (chars "GETDEL")))) sample)
    as [(p & m & q & b' & _ & Ha & _ & _ & _ & Hu)|(_ & x & Ha)].
  - destruct (Hu eq_refl) as (c & Hc & Ht & _). exists b', c. split; [exact Ha|].
    split; [vm_compute in Ha; injection Ha as <-; reflexivity|]. split; [exact Hc|]. rewrite Ht. reflexivity.
  - vm_compute in Ha. discriminate.
Defined.

(** ** What the module's comments promise and the code does not do *)

(** Moving left over [a] in a line that starts with a zero-width joiner takes
    the position below zero. *)
Lemma leading_joiner_underflows : prev_grapheme [zwj; 97] 4 = None.
Proof. reflexivity. Qed.

(** A line with that text and cursor is reachable by typing it. *)
Lemma leading_joiner_reachable : exists b, reachable b /\ backspace b = None.
Proof.
  exists (mutated [zwj; 97] 4 (record (mkEdit 0 [] [zwj; 97] 0) empty_buffer)).
  split; [|reflexivity]. eapply reachable_step; [apply reachable_empty|].
  by apply (step_inside (GInsert [zwj; 97])).
Qed.

(** Undoing while a group holds edits replays the last closed transaction over a
    text it was not made on: here a range past the end of the line. *)
Lemma undo_in_group_panics :
  exists b, reachable b /\ text b = [] /\ call Undo b = None /\
    calls [Plain (GInsert (chars "abc")); Begin "guide"; Plain (GReplace (new_edit 0 3 []))] empty_buffer = Some b.
Proof.
  eexists. split; [|split; [|split; [|vm_compute; reflexivity]]; reflexivity].
  eapply reachable_step; [eapply reachable_step; [eapply reachable_step; [apply reachable_empty|]|]|].
  - by apply (step_inside (GInsert (chars "abc"))).
  - by apply (step_call (Begin "guide")).
  - by apply (step_inside (GReplace (new_edit 0 3 []))).
Qed.

(** Beginning a group while another holds edits drops that one's record, though
    its changes of the text stay: the next undo panics. *)
Lemma begin_in_group_forgets :
  exists b, calls [Plain (GInsert (chars "abc")); Begin "guide"; Plain GBackspace; Begin "guide"; Commit] empty_buffer = Some b /\
    text b = chars "ab" /\ open b = None /\ call Undo b = None.
Proof. eexists. split; [vm_compute; reflexivity|]. by split_and!. Qed.

(** Accepting a completion while a group holds edits drops that record too. *)
Lemma accept_in_group_forgets :
  exists b, calls [Plain (GInsert (chars "abc")); Begin "guide"; Plain GBackspace; Complete (new_edit 9 9 [])] empty_buffer = Some b /\
    text b = chars "ab" /\ open b = None /\ call Undo b = None.
Proof. eexists. split; [vm_compute; reflexivity|]. by split_and!. Qed.

(** The cursor can be put between a letter and its combining accent. *)
Lemma cursor_inside_grapheme :
  fst (set_cursor 1 (set_text [101; 769] empty_buffer)) = Ok tt
  /\ next_grapheme [101; 769] 0 = Some 3%nat.
Proof. done. Qed.
