(* ===== verification/Bounded.v ===== *)
(** * Stores that forget their oldest items

    The interface shared by the stores of [pr-intelligence] that hold names
    under a budget: a queue of items, each of some weight, with a byte account
    kept beside it.  [evict_while] is the loop they run before an insertion.
    A [Vec]'s capacity counts in their budgets, so a vector here is its elements
    and its capacity; how far a full vector grows is not documented and is an
    argument, [grow]. *)

From S2P Require Import Prelude.

(** ** Vectors *)

Record Vec (A : Type) := mkVec { elems : list A; capacity : Z }.
Arguments mkVec {A}.
Arguments elems {A}.
Arguments capacity {A}.

Definition vec_new {A} : Vec A := mkVec [] 0.

(** [push]: a full vector is given room for [grow capacity] elements. *)
Definition vec_push {A} (grow : Z -> Z) (x : A) (v : Vec A) : Vec A :=
  mkVec (elems v ++ [x])
    (if decide (zlen (elems v) = capacity v) then grow (capacity v) else capacity v).

(** [remove(0)], [retain] and [clear] keep the capacity. *)
Definition vec_with {A} (l : list A) (v : Vec A) : Vec A := mkVec l (capacity v).

Definition vec_ok {A} (v : Vec A) : Prop := zlen (elems v) <= capacity v.

Lemma vec_push_ok {A} grow (x : A) v :
  (forall n, 0 <= n -> n < grow n) -> vec_ok v -> vec_ok (vec_push grow x v).
Proof.
  unfold vec_ok, vec_push. intros Hg Hv. pose proof (zlen_nonneg (elems v)).
  cbn [elems capacity]. autorewrite with zlen.
  case_decide as E; [|lia]. pose proof (Hg (capacity v)). lia.
Qed.

Lemma vec_with_ok {A} (l : list A) v :
  (length l <= length (elems v))%nat -> vec_ok v -> vec_ok (vec_with l v).
Proof. unfold vec_ok, vec_with, zlen. simpl. lia. Qed.

(** ** Queues with a byte account *)

Class Ring (S I : Type) := {
  ring_items : S -> list I;
  ring_weight : I -> Z;
  ring_bytes : S -> Z;
  ring_drop : S -> S;
}.

Class RingLaws (S I : Type) `{Ring S I} := {
  ring_weight_nonneg (x : I) : 0 <= ring_weight x;
  ring_drop_items (s : S) : ring_items (ring_drop s) = tail (ring_items s);
  ring_drop_bytes (s : S) x r :
    ring_items s = x :: r -> ring_bytes (ring_drop s) = ring_bytes s - ring_weight x;
}.

Section ring.
Context {S I : Type} `{Ring S I, !RingLaws S I}.

Definition weights (l : list I) : Z := foldr (fun x n => ring_weight x + n) 0 l.

Lemma ring_weights_nonneg l : 0 <= weights l.
Proof. induction l as [|x l IH]; simpl; [lia|]. pose proof (ring_weight_nonneg x). lia. Qed.

Lemma ring_weights_app l k : weights (l ++ k) = weights l + weights k.
Proof. induction l as [|x l IH]; simpl; lia. Qed.

Lemma weights_drop n l : weights (drop n l) <= weights l.
Proof.
  rewrite <- (take_drop n l) at 2. rewrite ring_weights_app. pose proof (ring_weights_nonneg (take n l)). lia.
Qed.

(** How much more the account says than the items weigh. *)
Definition excess (s : S) : Z := ring_bytes s - weights (ring_items s).

(** [while !items.is_empty() && full { drop the oldest }]. *)
Fixpoint evict_loop (fuel : nat) (full : S -> bool) (s : S) : S :=
  match fuel with
  | O => s
  | Datatypes.S f =>
      match ring_items s with
      | [] => s
      | _ :: _ => if full s then evict_loop f full (ring_drop s) else s
      end
  end.
Definition evict_while (full : S -> bool) (s : S) : S :=
  evict_loop (length (ring_items s)) full s.

(** What the loop did: it dropped the oldest [k] items, each because the store
    was full, and stopped when nothing was left or it was not full. *)
Record evicted_to (full : S -> bool) (s s' : S) (k : nat) : Prop := {
  ev_state : s' = Nat.iter k ring_drop s;
  ev_items : ring_items s' = drop k (ring_items s);
  ev_excess : excess s' = excess s;
  ev_stop : ring_items s' = [] \/ full s' = false;
  ev_needed : forall j, (j < k)%nat ->
    drop j (ring_items s) <> [] /\ full (Nat.iter j ring_drop s) = true;
}.

Lemma iter_shift {A} (f : A -> A) n x : Nat.iter n f (f x) = f (Nat.iter n f x).
Proof. induction n as [|n IH]; simpl; congruence. Qed.

Lemma evict_loop_spec fuel full s :
  (length (ring_items s) <= fuel)%nat -> exists k, evicted_to full s (evict_loop fuel full s) k.
Proof.
  revert s. induction fuel as [|f IH]; intros s Hf; cbn [evict_loop].
  - exists 0%nat. destruct (ring_items s) eqn:E; [|simpl in Hf; lia].
    constructor; simpl; rewrite ?E; auto; lia.
  - destruct (ring_items s) as [|x r] eqn:E.
    { exists 0%nat. constructor; simpl; rewrite ?E; auto; lia. }
    destruct (full s) eqn:Ef.
    2:{ exists 0%nat. constructor; simpl; rewrite ?E; auto; lia. }
    assert (ring_items (ring_drop s) = r) as Er by (by rewrite ring_drop_items, E).
    destruct (IH (ring_drop s)) as [k [Hst Hit Hex Hstop Hn]].
    { rewrite Er. simpl in Hf. lia. }
    exists (Datatypes.S k). constructor.
    + rewrite Hst. by rewrite iter_shift.
    + rewrite Hit, Er, E. done.
    + rewrite Hex. unfold excess. rewrite Er, E. simpl.
      rewrite (ring_drop_bytes s x r E). lia.
    + done.
    + intros [|j] Hj; simpl; [by rewrite E|].
      destruct (Hn j) as [H1 H2]; [lia|]. rewrite Er in H1. rewrite E. simpl.
      split; [done|]. by rewrite <- iter_shift.
Qed.

Lemma evict_while_spec full s : exists k, evicted_to full s (evict_while full s) k.
Proof. by apply evict_loop_spec. Qed.

(** With an exact account, an emptied queue accounts for nothing. *)
Lemma excess_empty s : excess s = 0 -> ring_items s = [] -> ring_bytes s = 0.
Proof. unfold excess. intros E Hi. rewrite Hi in E. simpl in E. lia. Qed.
End ring.
