(* ===== verification/Observations.v ===== *)
(** * Observed names ([crates/pr-intelligence/src/scope.rs])

    Names the user has seen, kept under a budget and offered only in the scope
    they were observed in.  [profile_uuid] and [service_identity] are the bytes
    of the strings.  The sizes of the two structs in memory and the growth of a
    vector are arguments. *)

From S2P Require Import Prelude Text Bounded.

Record ObservationScope := mkScope {
  profile_uuid : bytes;
  service_identity : bytes;
  scope_db : Z;
  scope_auth_epoch : Z;
  scope_policy_epoch : Z;
  scope_topology_epoch : Z;
}.

Inductive Origin := RetainedResult | History | SchemaHint | FromDiscovery.

#[export] Instance ObservationScope_eq_dec : EqDecision ObservationScope.
Proof. solve_decision. Defined.
#[export] Instance Origin_eq_dec : EqDecision Origin.
Proof. solve_decision. Defined.

(** [Display]: [uuid/service/db0/a0/p0/t0]. *)
Definition show_scope (s : ObservationScope) : bytes :=
  profile_uuid s ++ bs "/" ++ service_identity s ++ bs "/db" ++ print_unsigned (scope_db s)
  ++ bs "/a" ++ print_unsigned (scope_auth_epoch s) ++ bs "/p" ++ print_unsigned (scope_policy_epoch s)
  ++ bs "/t" ++ print_unsigned (scope_topology_epoch s).

Definition new_scope (uuid identity : bytes) (db : Z) : ObservationScope :=
  mkScope uuid identity db 0 0 0.

Definition accepts (s other : ObservationScope) : bool := bool_decide (s = other).

Definition origin_label (o : Origin) : bytes :=
  match o with
  | RetainedResult => bs "observed on this connection"
  | History => bs "from history"
  | SchemaHint => bs "schema suggestion"
  | FromDiscovery => bs "discovered"
  end.

Definition asserts_existence (o : Origin) : bool :=
  match o with
  | RetainedResult | FromDiscovery => true
  | History | SchemaHint => false
  end.

Record Observation := mkObservation {
  name : bytes;
  scope : ObservationScope;
  origin : Origin;
  parent_key : option bytes;
}.

#[export] Instance Observation_eq_dec : EqDecision Observation.
Proof. solve_decision. Defined.

Record ObservationStore := mkObservations {
  items : Vec Observation;
  held : Z;
  max_items : Z;
  max_bytes : Z;
  evicted : Z;
}.

Definition MAX_OBSERVED_BYTES : Z := 2 * 1024 * 1024.

(** [slice::starts_with]. *)
Definition starts_with (s p : bytes) : bool := bool_decide (strip_prefix p s <> None).

Definition same_name (a b : Observation) : bool :=
  bool_decide (name a = name b /\ scope a = scope b /\ parent_key a = parent_key b).

Section store.
Context (scope_size observation_size : Z) (grow : Z -> Z).

Definition byte_cost (s : ObservationScope) : Z :=
  scope_size + zlen (profile_uuid s) + zlen (service_identity s).

Definition observation_cost (o : Observation) : Z :=
  zlen (name o) + match parent_key o with Some k => zlen k | None => 0 end + byte_cost (scope o).

Definition with_budget (entries bytes_limit : Z) : ObservationStore :=
  mkObservations vec_new 0 entries bytes_limit 0.
Definition new_observations (entries : Z) : ObservationStore :=
  with_budget entries MAX_OBSERVED_BYTES.

Definition store_bytes (s : ObservationStore) : Z :=
  held s + capacity (items s) * observation_size.

Definition store_len (s : ObservationStore) : Z := zlen (elems (items s)).

(** [items.remove(0)] and the counts beside it; not called when empty. *)
Definition drop_oldest (s : ObservationStore) : ObservationStore :=
  match elems (items s) with
  | gone :: rest =>
      mkObservations (vec_with rest (items s)) (held s - observation_cost gone) (max_items s)
        (max_bytes s) (evicted s + 1)
  | [] => s
  end.

#[export] Instance observations_ring : Ring ObservationStore Observation := {
  ring_items s := elems (items s);
  ring_weight := observation_cost;
  ring_bytes := held;
  ring_drop := drop_oldest;
}.

(** The condition of the eviction loop, besides the store not being empty. *)
Definition no_room (cost : Z) (s : ObservationStore) : bool :=
  bool_decide (zlen (elems (items s)) + 1 > max_items s)
  || bool_decide (store_bytes s + cost > max_bytes s).

(** [existing.origin = o.origin] on the first item of the same name. *)
Fixpoint update_origin (o : Observation) (l : list Observation) : option (list Observation) :=
  match l with
  | [] => None
  | e :: r =>
      if same_name e o then Some (mkObservation (name e) (scope e) (origin o) (parent_key e) :: r)
      else match update_origin o r with
           | Some r' => Some (e :: r')
           | None => None
           end
  end.

Definition record (o : Observation) (s : ObservationStore) : ObservationStore :=
  match update_origin o (elems (items s)) with
  | Some l => mkObservations (vec_with l (items s)) (held s) (max_items s) (max_bytes s) (evicted s)
  | None =>
      let cost := observation_cost o in
      if decide (cost > max_bytes s)
      then mkObservations (items s) (held s) (max_items s) (max_bytes s) (evicted s + 1)
      else
        let s' := evict_while (no_room cost) s in
        mkObservations (vec_push grow o (items s')) (held s' + cost) (max_items s') (max_bytes s')
          (evicted s')
  end.

Definition keys_for (sc : ObservationScope) (prefix : bytes) (s : ObservationStore)
  : list Observation :=
  filter (fun o => parent_key o = None /\ accepts sc (scope o) = true /\
                   starts_with (name o) prefix = true) (elems (items s)).

Definition fields_for (sc : ObservationScope) (key prefix : bytes) (s : ObservationStore)
  : list Observation :=
  filter (fun o => parent_key o = Some key /\ accepts sc (scope o) = true /\
                   starts_with (name o) prefix = true) (elems (items s)).

(** Returns how many were dropped; the byte account is left as it is. *)
Definition invalidate_except (keep : ObservationScope) (s : ObservationStore)
  : Z * ObservationStore :=
  let kept := filter (fun o => accepts keep (scope o) = true) (elems (items s)) in
  (store_len s - zlen kept,
   mkObservations (vec_with kept (items s)) (held s) (max_items s) (max_bytes s) (evicted s)).

Definition clear (s : ObservationStore) : ObservationStore :=
  mkObservations (vec_with [] (items s)) (held s) (max_items s) (max_bytes s) (evicted s).

(** ** Histories *)

Inductive op :=
| Record (o : Observation)
| InvalidateExcept (keep : ObservationScope)
| Clear.

Definition run_op (s : ObservationStore) (a : op) : ObservationStore :=
  match a with
  | Record o => record o s
  | InvalidateExcept keep => (invalidate_except keep s).2
  | Clear => clear s
  end.
Definition run (ops : list op) (s : ObservationStore) : ObservationStore := foldl run_op s ops.

(** ** The invariant *)

Definition key_of (o : Observation) : bytes * ObservationScope * option bytes :=
  (name o, scope o, parent_key o).

(** What a store without limits would hold. *)
Definition spec_op (acc : list Observation) (a : op) : list Observation :=
  match a with
  | Record o => acc ++ [o]
  | InvalidateExcept keep => filter (fun o => scope o = keep) acc
  | Clear => []
  end.
Definition spec (ops : list op) : list Observation := foldl spec_op [] ops.

(** The names held are distinct and are among those of the unlimited store,
    all of them while nothing was evicted; the byte account is at least what
    they cost. *)
Record store_ok (known : list Observation) (s : ObservationStore) : Prop := {
  ok_distinct : NoDup (key_of <$> elems (items s));
  ok_sound : forall o, o ∈ elems (items s) -> key_of o ∈ (key_of <$> known);
  ok_complete : evicted s = 0 -> forall o, o ∈ known -> key_of o ∈ (key_of <$> elems (items s));
  ok_count : 0 <= evicted s;
  ok_vec : vec_ok (items s);
  ok_account : 0 <= excess s;
}.

Context (Hscope : 0 <= scope_size) (Hgrow : forall n, 0 <= n -> n < grow n).

Lemma observation_cost_nonneg o : 0 <= observation_cost o.
Proof.
  unfold observation_cost, byte_cost.
  pose proof (zlen_nonneg (name o)). pose proof (zlen_nonneg (profile_uuid (scope o))).
  pose proof (zlen_nonneg (service_identity (scope o))).
  destruct (parent_key o) as [k|]; [pose proof (zlen_nonneg k)|]; lia.
Qed.

#[local] Instance observations_ring_laws : RingLaws ObservationStore Observation.
Proof.
  split.
  - apply observation_cost_nonneg.
  - intros s. simpl. unfold drop_oldest. by destruct (elems (items s)) eqn:E.
  - intros s x r. simpl. unfold drop_oldest. by intros ->.
Qed.

Lemma drop_oldest_limits k s :
  max_items (Nat.iter k drop_oldest s) = max_items s /\
  max_bytes (Nat.iter k drop_oldest s) = max_bytes s /\
  capacity (items (Nat.iter k drop_oldest s)) = capacity (items s).
Proof.
  induction k as [|k (H1 & H2 & H3)]; [done|]. simpl. unfold drop_oldest at 1 3 5.
  destruct (elems _); [done|]. simpl. done.
Qed.

Lemma same_name_key a b : same_name a b = true <-> key_of a = key_of b.
Proof.
  unfold same_name, key_of. rewrite bool_decide_eq_true. split.
  - by intros (-> & -> & ->).
  - by intros [= -> -> ->].
Qed.

Lemma update_origin_none o l :
  update_origin o l = None <-> (key_of o ∉ (key_of <$> l)).
Proof.
  induction l as [|e r IH]; simpl; [split; [intros _; apply not_elem_of_nil|done]|].
  rewrite not_elem_of_cons, <- IH. destruct (same_name e o) eqn:E.
  - apply same_name_key in E. split; [done|]. intros [H _]. by rewrite E in H.
  - assert (key_of o <> key_of e) by (intros H; rewrite <- not_true_iff_false in E; by apply E, same_name_key).
    destruct (update_origin o r); [|tauto]. split; [done|]. by intros [_ ?].
Qed.

(** The items whose origin is brought up to date are otherwise the same. *)
Lemma update_origin_some o l l' :
  update_origin o l = Some l' ->
  key_of <$> l' = key_of <$> l /\ observation_cost <$> l' = observation_cost <$> l /\
  exists e, e ∈ l' /\ key_of e = key_of o /\ origin e = origin o.
Proof.
  revert l'. induction l as [|e r IH]; intros l'; simpl; [done|].
  destruct (same_name e o) eqn:E.
  - intros [= <-]. apply same_name_key in E. simpl. split_and!; [done..|].
    eexists. split; [apply list_elem_of_here|]. done.
  - destruct (update_origin o r) as [r'|] eqn:Er; [|done]. intros [= <-].
    destruct (IH r' eq_refl) as (H1 & H2 & x & Hx & H3). rewrite !fmap_cons, H1, H2.
    split_and!; [done..|]. exists x. split; [by apply list_elem_of_further|done].
Qed.

Lemma weights_fmap (l k : list Observation) :
  observation_cost <$> l = observation_cost <$> k -> weights l = weights k.
Proof.
  revert k. induction l as [|x l IH]; intros [|y k]; simpl; intros [=]; [done|].
  rewrite (IH k) by done. lia.
Qed.

Lemma record_new o s :
  key_of o ∉ (key_of <$> elems (items s)) -> observation_cost o <= max_bytes s ->
  exists s' k, evicted_to (no_room (observation_cost o)) s s' k /\
    record o s = mkObservations (vec_push grow o (items s')) (held s' + observation_cost o)
      (max_items s) (max_bytes s) (evicted s').
Proof.
  intros Hn Hc. unfold record. apply update_origin_none in Hn. rewrite Hn.
  rewrite decide_False by lia.
  destruct (evict_while_spec (no_room (observation_cost o)) s) as [k Hk].
  exists (evict_while (no_room (observation_cost o)) s), k. split; [done|].
  destruct Hk as [Hst _ _ _ _]. destruct (drop_oldest_limits k s) as (H1 & H2 & _).
  change (Nat.iter k drop_oldest s) with (Nat.iter k ring_drop s) in H1, H2.
  rewrite <- Hst in H1, H2. by rewrite H1, H2.
Qed.

Lemma iter_drop_evicted k s :
  (forall j, (j < k)%nat -> drop j (elems (items s)) <> []) ->
  evicted (Nat.iter k drop_oldest s) = evicted s + Z.of_nat k /\
  elems (items (Nat.iter k drop_oldest s)) = drop k (elems (items s)).
Proof.
  induction k as [|k IH]; intros Hk; [by rewrite drop_0; split; simpl; [lia|]|].
  destruct IH as [H1 H2]; [intros j Hj; apply Hk; lia|].
  pose proof (Hk k ltac:(lia)) as Hne. simpl. unfold drop_oldest at 1 3. rewrite H2.
  destruct (drop k (elems (items s))) as [|x r] eqn:E; [done|]. simpl. split; [lia|].
  rewrite <- Nat.add_1_r, <- drop_drop, E. done.
Qed.

Lemma record_known_ok known o l s :
  update_origin o (elems (items s)) = Some l -> store_ok known s ->
  store_ok (known ++ [o])
    (mkObservations (vec_with l (items s)) (held s) (max_items s) (max_bytes s) (evicted s)).
Proof.
  intros E [Hd Hs Hco Hn Hv Ha]. destruct (update_origin_some _ _ _ E) as (Hk & Hw & e & He & Hke & _).
  assert (length l = length (elems (items s))) as Hlen.
  { apply (f_equal length) in Hk. by rewrite !length_fmap in Hk. }
  constructor; cbn [items elems vec_with evicted]; try done.
  - by rewrite Hk.
  - intros x Hx. assert (key_of x ∈ key_of <$> elems (items s)) as Hin
      by (rewrite <- Hk; by apply list_elem_of_fmap_2).
    apply list_elem_of_fmap in Hin as (y & -> & Hy). rewrite fmap_app.
    apply elem_of_app. left. by apply Hs.
  - intros H0 x Hx. rewrite Hk. apply elem_of_app in Hx as [Hx|Hx%list_elem_of_singleton].
    + by apply Hco.
    + subst x. rewrite <- Hk, <- Hke. by apply list_elem_of_fmap_2.
  - apply vec_with_ok; [lia|done].
  - unfold excess. simpl. rewrite (weights_fmap _ _ Hw). apply Ha.
Qed.

Lemma record_new_ok known o s s' k :
  key_of o ∉ (key_of <$> elems (items s)) -> evicted_to (no_room (observation_cost o)) s s' k ->
  store_ok known s ->
  store_ok (known ++ [o]) (mkObservations (vec_push grow o (items s')) (held s' + observation_cost o)
    (max_items s) (max_bytes s) (evicted s')).
Proof.
  intros Hn [Hst Hit Hex _ Hne] [Hd Hs Hco Hc Hv Ha]. simpl in Hit, Hne.
  destruct (drop_oldest_limits k s) as (_ & _ & Hcap).
  destruct (iter_drop_evicted k s) as [Hev _]; [intros j Hj; by apply Hne|].
  change (Nat.iter k drop_oldest s) with (Nat.iter k ring_drop s) in Hcap, Hev.
  rewrite <- Hst in Hcap, Hev.
  constructor; cbn [items vec_push elems evicted].
  - rewrite Hit, fmap_app, fmap_drop. apply NoDup_app. split_and!.
    + rewrite <- (take_drop k (key_of <$> elems (items s))) in Hd. by apply NoDup_app in Hd as (_ & _ & ?).
    + intros x Hx Hin. apply list_elem_of_singleton in Hin as ->.
      apply Hn. rewrite <- (take_drop k (key_of <$> _)). apply elem_of_app. by right.
    + apply NoDup_singleton.
  - intros x Hx. rewrite fmap_app. apply elem_of_app in Hx as [Hx|Hx%list_elem_of_singleton].
    + apply elem_of_app. left. apply Hs. rewrite Hit in Hx.
      rewrite <- (take_drop k (elems (items s))). apply elem_of_app. by right.
    + subst x. apply elem_of_app. right. by apply list_elem_of_singleton.
  - intros H0 x Hx. assert (k = 0%nat) as -> by lia. rewrite Hit, drop_0, fmap_app. apply elem_of_app.
    apply elem_of_app in Hx as [Hx|Hx%list_elem_of_singleton].
    + left. apply Hco; [lia|done].
    + right. subst x. by apply list_elem_of_singleton.
  - lia.
  - apply vec_push_ok; [done|]. unfold vec_ok in *. rewrite Hit, Hcap. unfold zlen in *.
    rewrite length_drop. lia.
  - unfold excess in *. cbn [ring_items ring_bytes observations_ring items held elems vec_push] in *.
    rewrite ring_weights_app. simpl. lia.
Qed.

Lemma record_ok known o s : store_ok known s -> store_ok (known ++ [o]) (record o s).
Proof.
  intros Hok. destruct (update_origin o (elems (items s))) as [l|] eqn:E.
  { unfold record. rewrite E. by apply record_known_ok. }
  pose proof (proj1 (update_origin_none _ _) E) as Hn.
  destruct (decide (observation_cost o > max_bytes s)) as [Hc|Hc].
  - unfold record. rewrite E, decide_True by done. destruct Hok as [Hd Hs Hco Hcn Hv Ha].
    constructor; cbn [items evicted]; try done; [| |lia].
    + intros x Hx. rewrite fmap_app. apply elem_of_app. left. by apply Hs.
    + intros. lia.
  - destruct (record_new o s Hn ltac:(lia)) as (s' & k & Hk & ->). by eapply record_new_ok.
Qed.

Lemma weights_filter (P : Observation -> Prop) `{forall o, Decision (P o)} (l : list Observation) :
  weights (filter P l) <= weights l.
Proof.
  induction l as [|x l IH]; [done|]. rewrite filter_cons. pose proof (observation_cost_nonneg x).
  case_decide; simpl; lia.
Qed.

Lemma retain_ok known keep s :
  store_ok known s ->
  store_ok (filter (fun o => scope o = keep) known) (invalidate_except keep s).2.
Proof.
  intros [Hd Hs Hco Hn Hv Ha].
  assert (forall o, accepts keep (scope o) = true <-> scope o = keep) as Hacc.
  { intros o. unfold accepts. rewrite bool_decide_eq_true. naive_solver. }
  constructor; cbn [items elems vec_with snd invalidate_except evicted]; try done.
  - eapply sublist_NoDup; [exact Hd|]. apply fmap_sublist, sublist_filter.
  - intros o [Ha' Ho]%list_elem_of_filter. apply Hacc in Ha'.
    destruct (proj1 (list_elem_of_fmap _ _ _) (Hs o Ho)) as (r & Er & Hr).
    rewrite Er. apply list_elem_of_fmap_2, list_elem_of_filter. split; [|done].
    unfold key_of in Er. congruence.
  - intros H0 o [Ha' Ho]%list_elem_of_filter.
    destruct (proj1 (list_elem_of_fmap _ _ _) (Hco H0 o Ho)) as (r & Er & Hr).
    rewrite Er. apply list_elem_of_fmap_2, list_elem_of_filter. split; [|done].
    apply Hacc. unfold key_of in Er. congruence.
  - apply vec_with_ok; [apply length_filter|done].
  - unfold excess in *. simpl in *.
    pose proof (weights_filter (fun o => accepts keep (scope o) = true) (elems (items s))). lia.
Qed.

Lemma clear_ok known s : store_ok known s -> store_ok [] (clear s).
Proof.
  intros [Hd Hs Hco Hn Hv Ha]. constructor; cbn [items elems vec_with clear evicted]; try done.
  - constructor.
  - intros o Ho. by apply elem_of_nil in Ho.
  - intros _ o Ho. by apply elem_of_nil in Ho.
  - apply vec_with_ok; [simpl; lia|done].
  - unfold excess in *. simpl in *. pose proof (ring_weights_nonneg (elems (items s))). lia.
Qed.

Lemma observed_run_ok ops known s : store_ok known s -> store_ok (foldl spec_op known ops) (run ops s).
Proof.
  revert known s. induction ops as [|a ops IH]; intros known s Hs; simpl; [done|].
  apply IH. destruct a as [o|keep|]; simpl.
  - by apply record_ok.
  - by apply retain_ok.
  - by eapply clear_ok.
Qed.

Lemma with_budget_ok a b : store_ok [] (with_budget a b).
Proof.
  constructor; simpl; try done; [constructor| |].
  - intros o Ho. by apply elem_of_nil in Ho.
  - intros _ o Ho. by apply elem_of_nil in Ho.
Qed.

(** The last name recorded is offered, unless it is larger than the budget. *)
Lemma record_offers o s :
  observation_cost o <= max_bytes s ->
  exists o', o' ∈ elems (items (record o s)) /\ key_of o' = key_of o /\ origin o' = origin o.
Proof.
  intros Hc. destruct (update_origin o (elems (items s))) as [l|] eqn:E.
  - unfold record. rewrite E. simpl. destruct (update_origin_some _ _ _ E) as (_ & _ & ?). done.
  - apply update_origin_none in E. destruct (record_new o s E Hc) as (s' & k & _ & ->).
    exists o. split; [|done]. simpl. apply elem_of_app. right. by apply list_elem_of_singleton.
Qed.
Context (Hobs : 0 <= observation_size).

(** Within both limits, with an exact account. *)
Record within (s : ObservationStore) : Prop := {
  wi_exact : excess s = 0;
  wi_bytes : held s <= max_bytes s;
  wi_len : store_len s <= Z.max 1 (max_items s);
  wi_capacity : 0 <= capacity (items s);
}.

Lemma record_within o s :
  within s -> within (record o s) /\ max_bytes (record o s) = max_bytes s /\
  max_items (record o s) = max_items s.
Proof.
  intros [Hx Hb Hl Hcap]. destruct (update_origin o (elems (items s))) as [l|] eqn:E.
  { unfold record. rewrite E. destruct (update_origin_some _ _ _ E) as (Hk & Hw & _).
    apply (f_equal length) in Hk. rewrite !length_fmap in Hk. split; [|done].
    unfold excess, store_len, zlen in *. constructor; simpl in *; try done.
    - unfold excess. simpl. by rewrite (weights_fmap _ _ Hw).
    - unfold store_len, zlen. simpl. by rewrite Hk. }
  destruct (decide (observation_cost o > max_bytes s)) as [Hc|Hc].
  { unfold record. rewrite E, decide_True by done. done. }
  apply update_origin_none in E.
  destruct (record_new o s E ltac:(lia)) as (s' & k & [Hst Hit Hex Hstop _] & ->).
  destruct (drop_oldest_limits k s) as (H1 & H2 & H3).
  change (Nat.iter k drop_oldest s) with (Nat.iter k ring_drop s) in H1, H2, H3.
  rewrite <- Hst in H1, H2, H3. split; [|done].
  assert (held s' + observation_cost o <= max_bytes s /\
    zlen (elems (items s')) + 1 <= Z.max 1 (max_items s)) as [Hb' Hl'].
  { destruct Hstop as [Hs|Hs].
    - rewrite Hx in Hex. pose proof (excess_empty _ Hex Hs) as H0. simpl in H0, Hs. rewrite Hs, H0.
      unfold zlen. simpl. lia.
    - unfold no_room in Hs. apply orb_false_iff in Hs as [Hs1%bool_decide_eq_false Hs2%bool_decide_eq_false].
      unfold store_bytes in Hs2. assert (0 <= capacity (items s') * observation_size) by nia. lia. }
  unfold excess, store_len in *. constructor;
    cbn [ring_items ring_bytes observations_ring items held elems vec_push max_bytes max_items capacity] in *.
  - unfold excess in *. cbn [ring_items ring_bytes observations_ring items held elems vec_push] in *.
    rewrite ring_weights_app. simpl. lia.
  - lia.
  - unfold store_len. cbn [items elems vec_push]. autorewrite with zlen. lia.
  - rewrite H3. case_decide; [pose proof (Hgrow (capacity (items s))); lia|done].
Qed.

Lemma record_all_within os s :
  within s -> let s' := run (Record <$> os) s in
  within s' /\ max_bytes s' = max_bytes s /\ max_items s' = max_items s.
Proof.
  revert s. induction os as [|o os IH]; intros s Hs; simpl; [done|].
  destruct (record_within o s Hs) as (H1 & <- & <-). by apply IH.
Qed.
End store.

(** ** Findings *)

(** Doubling from four, as [Vec] does. *)
Definition doubling (n : Z) : Z := Z.max 4 (2 * n).

Definition tiny (n : string) : Observation :=
  mkObservation (bs n) (new_scope [] [] 0) RetainedResult None.

(** The loop makes room for the name, and then the push grows the vector: the
    bytes the store reports are above its limit. *)
Lemma growth_exceeds_budget :
  let s := run 10 20 doubling [Record (tiny "k")] (with_budget 100 90) in
  max_bytes s = 90 /\ store_bytes 20 s = 91.
Proof. split; vm_compute; reflexivity. Qed.

(** [clear] leaves the account as it was: a store that was full holds one name
    at a time from then on. *)
Lemma clear_keeps_account :
  let full := Record <$> [tiny "a"; tiny "b"; tiny "c"; tiny "d"] in
  store_len (run 100 0 doubling full (with_budget 100 404)) = 4 /\
  let s := run 100 0 doubling (full ++ Clear :: full) (with_budget 100 404) in
  store_len s = 1 /\ evicted s = 3.
Proof. vm_compute. auto. Qed.

(** ** Properties *)

(** Names are offered only where they were seen.  After any history of
    recordings, invalidations and clears, a key or field offered in a scope has
    exactly that scope, the wanted parent and the typed prefix, and was recorded
    so after the last clear and after the last invalidation that kept another
    scope; conversely, as long as nothing was evicted, every such name is
    offered. *)
Theorem offered_in_scope scope_size observation_size grow ops a b sc key prefix :
  0 <= scope_size -> (forall n, 0 <= n -> n < grow n) ->
  let s := run scope_size observation_size grow ops (with_budget a b) in
  let offered parent := match parent with
                        | None => keys_for sc prefix s
                        | Some k => fields_for sc k prefix s
                        end in
  let known r := r ∈ spec ops /\ scope r = sc /\ parent_key r = key /\
                 starts_with (name r) prefix = true in
  (forall o, o ∈ offered key -> exists r, known r /\ key_of r = key_of o) /\
  (evicted s = 0 -> forall r, known r -> exists o, o ∈ offered key /\ key_of o = key_of r).
Proof.
  intros Hsize Hgrow s offered known.
  destruct (observed_run_ok scope_size observation_size grow Hsize Hgrow ops [] _ (with_budget_ok scope_size a b))
    as [_ Hs Hco _ _ _]. fold s in Hs, Hco.
  assert (forall o, o ∈ offered key <-> o ∈ elems (items s) /\ scope o = sc /\ parent_key o = key /\
    starts_with (name o) prefix = true) as Ho.
  { intros o. unfold offered, keys_for, fields_for, accepts. clear -sc. destruct key as [k|];
      rewrite list_elem_of_filter, bool_decide_eq_true; naive_solver. }
  split.
  - intros o (Hin & H1 & H2 & H3)%Ho.
    destruct (proj1 (list_elem_of_fmap _ _ _) (Hs o Hin)) as (r & Er & Hr).
    exists r. unfold known. unfold key_of in *. injection Er as E1 E2 E3. split; [|congruence].
    split_and!; [exact Hr|congruence..].
  - intros H0 r (Hin & H1 & H2 & H3).
    destruct (proj1 (list_elem_of_fmap _ _ _) (Hco H0 r Hin)) as (o & Eo & Hino).
    exists o. unfold key_of in *. injection Eo as E1 E2 E3. split; [|congruence].
    apply Ho. split_and!; congruence.
Qed.

Lemma offered_in_scope_witness :
  0 <= 10 /\ keys_for (new_scope [] [] 0) (bs "a")
    (run 10 20 doubling [Record (tiny "ab"); Record (tiny "b")] (with_budget 100 1000)) = [tiny "ab"] /\
  exists r, (r ∈ spec [Record (tiny "ab"); Record (tiny "b")] /\ scope r = new_scope [] [] 0 /\
    parent_key r = None /\ starts_with (name r) (bs "a") = true) /\ key_of r = key_of (tiny "ab").
Proof.
  split; [lia|]. split; [vm_compute; reflexivity|].
  apply (proj1 (offered_in_scope 10 20 doubling [Record (tiny "ab"); Record (tiny "b")] 100 1000
    (new_scope [] [] 0) None (bs "a") ltac:(lia) ltac:(unfold doubling; lia))).
  vm_compute. constructor.
Defined.

(** Recording a name already held only updates where it came from; a name
    larger than the whole budget is refused and counted; any other name is
    appended after the oldest names were dropped, no more of them than the
    limits require, and each is counted. *)
Theorem record_exact scope_size observation_size grow o s :
  0 <= scope_size ->
  let cost := observation_cost scope_size o in
  let s' := record scope_size observation_size grow o s in
  (key_of o ∈ (key_of <$> elems (items s)) ->
     key_of <$> elems (items s') = key_of <$> elems (items s) /\ evicted s' = evicted s /\
     exists e, e ∈ elems (items s') /\ key_of e = key_of o /\ origin e = origin o) /\
  (key_of o ∉ (key_of <$> elems (items s)) -> cost > max_bytes s ->
     items s' = items s /\ held s' = held s /\ evicted s' = evicted s + 1) /\
  (key_of o ∉ (key_of <$> elems (items s)) -> cost <= max_bytes s ->
     exists k, elems (items s') = drop k (elems (items s)) ++ [o] /\
       evicted s' = evicted s + Z.of_nat k /\
       (drop k (elems (items s)) = [] \/
        no_room observation_size cost (Nat.iter k (drop_oldest scope_size) s) = false) /\
       forall j, (j < k)%nat -> drop j (elems (items s)) <> [] /\
        no_room observation_size cost (Nat.iter j (drop_oldest scope_size) s) = true).
Proof.
  intros Hsize cost s'. split_and!.
  - intros Hin. destruct (update_origin o (elems (items s))) as [l|] eqn:E.
    + unfold s', record. rewrite E. destruct (update_origin_some scope_size _ _ _ E) as (H1 & _ & H2).
      done.
    + apply update_origin_none in E. done.
  - intros Hn Hc. apply update_origin_none in Hn. unfold s', record. rewrite Hn.
    rewrite decide_True by done. done.
  - intros Hn Hc. destruct (record_new scope_size observation_size grow Hsize o s Hn Hc)
      as (t & k & [Hst Hit Hex Hstop Hne] & E).
    exists k. unfold s'. rewrite E. cbn [items elems vec_push evicted]. simpl in Hit, Hst, Hstop, Hne.
    destruct (iter_drop_evicted scope_size k s) as [Hev _]; [intros j Hj; by apply Hne|].
    rewrite <- Hit, <- Hst. split_and!; try done. by rewrite Hst.
Qed.

Lemma record_exact_witness :
  0 <= 10 /\ (tiny "a" ∈ elems (items (run 10 20 doubling [Record (tiny "a")] (with_budget 100 1000)))) /\
  evicted (record 10 20 doubling (tiny "a")
    (run 10 20 doubling [Record (tiny "a")] (with_budget 100 1000))) = 0.
Proof.
  split; [lia|]. split; [vm_compute; constructor|].
  apply (proj1 (record_exact 10 20 doubling (tiny "a")
    (run 10 20 doubling [Record (tiny "a")] (with_budget 100 1000)) ltac:(lia))).
  vm_compute. constructor.
Defined.
