(* ===== verification/WorkingSet.v ===== *)
(** * The assistance working set ([crates/pr-intelligence/src/working_set.rs])

    Everything assistance holds besides the catalog, and the budgets of its
    parts.  The sizes of the structs in memory and the growth of a vector are
    arguments, as in [Observations]. *)

From S2P Require Import Prelude Text Bounded Observations.

(** ** Budgets ([mod limits]) *)

Definition OBSERVED_KEYS_ENTRIES : Z := 5000.
Definition OBSERVED_KEYS_BYTES : Z := 2 * 1024 * 1024.
Definition FIELD_NAMES_BYTES : Z := 2 * 1024 * 1024.
Definition METADATA_BYTES : Z := 2 * 1024 * 1024.
Definition SCRATCH_BYTES : Z := 2 * 1024 * 1024.
Definition ANALYSER_BYTES : Z := 1024 * 1024.
Definition DISCOVERY_BYTES : Z := 1024 * 1024.
Definition SUB_ITEM_TOTAL : Z :=
  OBSERVED_KEYS_BYTES + FIELD_NAMES_BYTES + METADATA_BYTES + SCRATCH_BYTES + ANALYSER_BYTES
  + DISCOVERY_BYTES.
Definition HEAP_INCREMENT : Z := SUB_ITEM_TOTAL + 2 * 1024 * 1024.

(** ** Bounded names *)

Record BoundedNames := mkNames {
  entries : Vec (bytes * bytes);
  names_held : Z;
  names_max_entries : Z;
  names_max_bytes : Z;
  names_evicted : Z;
}.

Definition new_names (entry_limit byte_limit : Z) : BoundedNames :=
  mkNames vec_new 0 entry_limit byte_limit 0.

(** [size_of::<(Vec<u8>, Vec<u8>)>()] is [slot]. *)
Section names.
Context (slot : Z) (grow : Z -> Z).

Definition names_bytes (n : BoundedNames) : Z := names_held n + capacity (entries n) * slot.
Definition names_len (n : BoundedNames) : Z := zlen (elems (entries n)).
Definition names_is_empty (n : BoundedNames) : bool := bool_decide (elems (entries n) = []).

Definition name_cost (e : bytes * bytes) : Z := zlen e.1 + zlen e.2 + slot.

(** The body of the eviction loop; not run when empty. *)
Definition drop_name (n : BoundedNames) : BoundedNames :=
  match elems (entries n) with
  | gone :: rest =>
      mkNames (vec_with rest (entries n)) (names_held n - name_cost gone) (names_max_entries n)
        (names_max_bytes n) (names_evicted n + 1)
  | [] => n
  end.

#[export] Instance names_ring : Ring BoundedNames (bytes * bytes) := {
  ring_items n := elems (entries n);
  ring_weight := name_cost;
  ring_bytes := names_held;
  ring_drop := drop_name;
}.

Definition names_full (cost : Z) (n : BoundedNames) : bool :=
  bool_decide (names_len n + 1 > names_max_entries n)
  || bool_decide (names_bytes n + cost > names_max_bytes n).

Definition insert (owner nm : bytes) (n : BoundedNames) : bool * BoundedNames :=
  let cost := name_cost (owner, nm) in
  if decide (cost > names_max_bytes n) then (false, n)
  else
    let n' := evict_while (names_full cost) n in
    (true, mkNames (vec_push grow (owner, nm) (entries n')) (names_held n' + cost)
             (names_max_entries n') (names_max_bytes n') (names_evicted n')).

Context (Hslot : 0 <= slot) (Hgrow : forall n, 0 <= n -> n < grow n).

#[local] Instance names_ring_laws : RingLaws BoundedNames (bytes * bytes).
Proof.
  split.
  - intros e. simpl. unfold name_cost. pose proof (zlen_nonneg e.1). pose proof (zlen_nonneg e.2). lia.
  - intros n. simpl. unfold drop_name. by destruct (elems (entries n)) eqn:E.
  - intros n x r. simpl. unfold drop_name. by intros ->.
Qed.

Lemma drop_name_limits k n :
  names_max_entries (Nat.iter k drop_name n) = names_max_entries n /\
  names_max_bytes (Nat.iter k drop_name n) = names_max_bytes n /\
  capacity (entries (Nat.iter k drop_name n)) = capacity (entries n).
Proof.
  induction k as [|k (H1 & H2 & H3)]; [done|]. simpl. unfold drop_name at 1 3 5.
  by destruct (elems _).
Qed.

(** The account is exact and within the limits. *)
Record names_ok (n : BoundedNames) : Prop := {
  nk_exact : excess n = 0;
  nk_bytes : names_held n <= Z.max 0 (names_max_bytes n);
  nk_len : names_len n <= Z.max 1 (names_max_entries n);
  nk_capacity : 0 <= capacity (entries n);
}.

Lemma new_names_ok a b : names_ok (new_names a b).
Proof. constructor; unfold excess, names_len, zlen; simpl; lia. Qed.

Lemma insert_spec owner nm n :
  names_ok n -> name_cost (owner, nm) <= names_max_bytes n ->
  exists k, let n' := (insert owner nm n).2 in
    (insert owner nm n).1 = true /\ names_ok n' /\
    elems (entries n') = drop k (elems (entries n)) ++ [(owner, nm)] /\
    names_max_bytes n' = names_max_bytes n /\ names_max_entries n' = names_max_entries n /\
    forall j, (j < k)%nat -> drop j (elems (entries n)) <> [] /\
      names_full (name_cost (owner, nm)) (Nat.iter j drop_name n) = true.
Proof.
  intros [Hx Hb Hl Hcap] Hc. unfold insert. rewrite decide_False by lia.
  destruct (evict_while_spec (names_full (name_cost (owner, nm))) n) as (k & [Hst Hit Hex Hstop Hne]).
  set (n' := evict_while _ n) in *. exists k. simpl in Hit, Hne.
  destruct (drop_name_limits k n) as (H1 & H2 & H3).
  change (Nat.iter k drop_name n) with (Nat.iter k ring_drop n) in H1, H2, H3.
  rewrite <- Hst in H1, H2, H3. cbn [fst snd entries elems vec_push names_max_bytes names_max_entries].
  assert (names_held n' + name_cost (owner, nm) <= names_max_bytes n /\
    names_len n' + 1 <= Z.max 1 (names_max_entries n)) as [Hb' Hl'].
  { destruct Hstop as [Hs|Hs].
    - rewrite Hx in Hex. pose proof (excess_empty _ Hex Hs) as H0. simpl in H0, Hs.
      unfold names_len, zlen. rewrite Hs, H0. simpl. lia.
    - unfold names_full in Hs. apply orb_false_iff in Hs as [Hs1%bool_decide_eq_false Hs2%bool_decide_eq_false].
      unfold names_bytes in Hs2. assert (0 <= capacity (entries n') * slot) by nia. lia. }
  split; [done|]. split; [|by rewrite Hit, H1, H2; split_and!].
  unfold excess, names_len in *. constructor; unfold excess, names_len;
    cbn [ring_items ring_bytes names_ring entries names_held elems vec_push names_max_bytes
         names_max_entries capacity] in *.
  - rewrite ring_weights_app. simpl. lia.
  - lia.
  - autorewrite with zlen. lia.
  - rewrite H3. case_decide; [pose proof (Hgrow (capacity (entries n))); lia|done].
Qed.

Lemma insert_ok owner nm n :
  names_ok n -> names_ok (insert owner nm n).2 /\
  names_max_bytes (insert owner nm n).2 = names_max_bytes n.
Proof.
  intros Hn. destruct (decide (name_cost (owner, nm) > names_max_bytes n)) as [Hc|Hc].
  - unfold insert. by rewrite decide_True.
  - destruct (insert_spec owner nm n Hn ltac:(lia)) as (k & _ & H1 & _ & H2 & _). done.
Qed.
End names.

(** ** The working set *)

Record WorkingSet := mkWorkingSet {
  keys : ObservationStore;
  fields : BoundedNames;
  metadata : bytes;
  scratch : bytes;
  analyser : bytes;
  discovery : bytes;
}.

Definition new_working_set : WorkingSet :=
  mkWorkingSet (new_observations OBSERVED_KEYS_ENTRIES) (new_names usize_max FIELD_NAMES_BYTES)
    [] [] [] [].

(** [{:0width}] of an unsigned integer. *)
Definition pad_zeros (width : nat) (n : Z) : bytes :=
  let ds := print_unsigned n in replicate (width - length ds) "0"%byte ++ ds.

(** [vec![b; n]]. *)
Definition filled (b : byte) (n : Z) : bytes := replicate (Z.to_nat n) b.

Section set.
Context (scope_size observation_size slot : Z) (grow : Z -> Z).

(** The loop of [saturate_keys] from [i], [rounds] of it left. *)
Fixpoint saturate_keys_loop (rounds : nat) (i : Z) (sc : ObservationScope) (ks : ObservationStore)
  : ObservationStore :=
  match rounds with
  | O => ks
  | S f =>
      let nm := bs "penguin:fixture:player:" ++ pad_zeros 12 i ++ bs ":profile" in
      let before := store_len ks in
      let ks' := record scope_size observation_size grow (mkObservation nm sc RetainedResult None) ks in
      if decide (store_len ks' = before /\ store_len ks' <> 0) then ks'
      else saturate_keys_loop f (i + 1) sc ks'
  end.
Definition saturate_keys (sc : ObservationScope) (w : WorkingSet) : WorkingSet :=
  mkWorkingSet (saturate_keys_loop (Z.to_nat (OBSERVED_KEYS_ENTRIES * 2)) 0 sc (keys w)) (fields w)
    (metadata w) (scratch w) (analyser w) (discovery w).

(** The loop of [saturate_fields]: it stops by itself once [i] passes a
    million, so a million and one rounds are all it ever runs. *)
Fixpoint saturate_fields_loop (rounds : nat) (i : Z) (fs : BoundedNames) : BoundedNames :=
  match rounds with
  | O => fs
  | S f =>
      let nm := bs "field:" ++ pad_zeros 16 i ++ bs ":value" in
      let before := names_len fs in
      let '(inserted, fs') := insert slot grow (bs "penguin:fixture:player:10001") nm fs in
      if negb inserted then fs'
      else if decide (names_len fs' = before) then fs'
      else if decide (i + 1 > 1000000) then fs'
      else saturate_fields_loop f (i + 1) fs'
  end.
Definition saturate_fields (w : WorkingSet) : WorkingSet :=
  mkWorkingSet (keys w) (saturate_fields_loop (Z.to_nat 1000001) 0 (fields w))
    (metadata w) (scratch w) (analyser w) (discovery w).

Definition saturate (sc : ObservationScope) (w : WorkingSet) : WorkingSet :=
  let w1 := saturate_keys sc w in
  let w2 := saturate_fields w1 in
  mkWorkingSet (keys w2) (fields w2) (filled xab METADATA_BYTES) (filled xcd SCRATCH_BYTES)
    (filled xef ANALYSER_BYTES) (filled x12 DISCOVERY_BYTES).

Definition accounted_bytes (w : WorkingSet) : Z :=
  names_bytes slot (fields w) + zlen (metadata w) + zlen (scratch w) + zlen (analyser w)
  + zlen (discovery w) + store_bytes observation_size (keys w).

(** What the vectors reserve for their elements. *)
Definition reserved_bytes (w : WorkingSet) : Z :=
  capacity (entries (fields w)) * slot + capacity (items (keys w)) * observation_size.

(** ** Steps: what fills a working set *)

Inductive fill_step : WorkingSet -> WorkingSet -> Prop :=
| fill_key w o :
    fill_step w (mkWorkingSet (record scope_size observation_size grow o (keys w)) (fields w)
                   (metadata w) (scratch w) (analyser w) (discovery w))
| fill_field w owner nm :
    fill_step w (mkWorkingSet (keys w) (insert slot grow owner nm (fields w)).2
                   (metadata w) (scratch w) (analyser w) (discovery w))
| fill_saturate w sc : fill_step w (saturate sc w).

Inductive filled_to : WorkingSet -> Prop :=
| filled_new : filled_to new_working_set
| filled_next w w' : filled_to w -> fill_step w w' -> filled_to w'.

Context (Hscope : 0 <= scope_size) (Hobs : 0 <= observation_size) (Hslot : 0 <= slot)
  (Hgrow : forall n, 0 <= n -> n < grow n).

Record set_ok (w : WorkingSet) : Prop := {
  wk_keys : within scope_size (keys w) /\ max_bytes (keys w) = OBSERVED_KEYS_BYTES /\
    max_items (keys w) = OBSERVED_KEYS_ENTRIES;
  wk_fields : names_ok slot (fields w) /\ names_max_bytes (fields w) = FIELD_NAMES_BYTES;
  wk_metadata : zlen (metadata w) <= METADATA_BYTES;
  wk_scratch : zlen (scratch w) <= SCRATCH_BYTES;
  wk_analyser : zlen (analyser w) <= ANALYSER_BYTES;
  wk_discovery : zlen (discovery w) <= DISCOVERY_BYTES;
}.

Lemma saturate_keys_ok f i sc ks :
  within scope_size ks ->
  within scope_size (saturate_keys_loop f i sc ks) /\
  max_bytes (saturate_keys_loop f i sc ks) = max_bytes ks /\
  max_items (saturate_keys_loop f i sc ks) = max_items ks.
Proof.
  revert i ks. induction f as [|f IH]; intros i ks Hk; cbn [saturate_keys_loop]; [done|].
  set (o := mkObservation _ sc RetainedResult None).
  destruct (record_within scope_size observation_size grow Hscope Hgrow Hobs o ks Hk) as (H1 & H2 & H3).
  case_decide; [done|]. destruct (IH (i + 1) _ H1) as (H4 & H5 & H6). split_and!; [done|congruence..].
Qed.

Lemma saturate_fields_ok f i fs :
  names_ok slot fs ->
  names_ok slot (saturate_fields_loop f i fs) /\
  names_max_bytes (saturate_fields_loop f i fs) = names_max_bytes fs.
Proof.
  revert i fs. induction f as [|f IH]; intros i fs Hf; cbn [saturate_fields_loop]; [done|].
  set (nm := bs "field:" ++ _).
  destruct (insert_ok slot grow Hslot Hgrow (bs "penguin:fixture:player:10001") nm fs Hf) as [H1 H2].
  destruct (insert slot grow _ nm fs) as [ins fs'] eqn:E. cbn [snd] in H1, H2.
  destruct (negb ins); [done|]. case_decide; [done|]. case_decide; [done|].
  destruct (IH (i + 1) fs' H1) as [H3 H4]. split; [done|congruence].
Qed.

Lemma filled_len b n : 0 <= n -> zlen (filled b n) = n.
Proof. intros Hn. unfold zlen, filled. rewrite length_replicate. lia. Qed.

Lemma new_working_set_ok : set_ok new_working_set.
Proof.
  constructor; cbn [new_working_set keys fields metadata scratch analyser discovery];
    try (unfold METADATA_BYTES, SCRATCH_BYTES, ANALYSER_BYTES, DISCOVERY_BYTES, zlen; simpl; lia).
  - split_and!; [|done..]. constructor; vm_compute; done.
  - split; [apply new_names_ok|done].
Qed.

Lemma fill_step_ok w w' : set_ok w -> fill_step w w' -> set_ok w'.
Proof.
  intros [(K1 & K2 & K3) [F1 F2] Hm Hs Ha Hd] Hst. destruct Hst as [w o|w owner nm|w sc].
  - constructor; cbn [keys fields metadata scratch analyser discovery]; try done.
    destruct (record_within scope_size observation_size grow Hscope Hgrow Hobs o _ K1) as (H1 & H2 & H3).
    split_and!; [done|congruence..].
  - constructor; cbn [keys fields metadata scratch analyser discovery]; try done.
    destruct (insert_ok slot grow Hslot Hgrow owner nm _ F1) as [H1 H2]. split; [done|congruence].
  - assert (set_ok (saturate_fields (saturate_keys sc w))) as [Hk Hf _ _ _ _].
    { generalize (saturate_keys_ok (Z.to_nat (OBSERVED_KEYS_ENTRIES * 2)) 0 sc _ K1).
      generalize (saturate_fields_ok (Z.to_nat 1000001) 0 _ F1).
      unfold saturate_fields, saturate_keys. cbn [keys fields metadata scratch analyser discovery].
      intros [H1 H2] (H3 & H4 & H5).
      constructor; cbn [keys fields metadata scratch analyser discovery]; [| |assumption..].
      - split_and!; [exact H3|rewrite H4; exact K2|rewrite H5; exact K3].
      - split; [exact H1|rewrite H2; exact F2]. }
    unfold saturate. constructor; cbn [keys fields metadata scratch analyser discovery];
      [exact Hk|exact Hf|..];
      (rewrite filled_len; [|unfold METADATA_BYTES, SCRATCH_BYTES, ANALYSER_BYTES, DISCOVERY_BYTES; lia]);
      apply Z.le_refl.
Qed.

Lemma filled_ok w : filled_to w -> set_ok w.
Proof. induction 1; [apply new_working_set_ok|by eapply fill_step_ok]. Qed.
End set.

(** ** Properties *)

(** Filled in any way, saturation included, a working set accounts for at
    most the sum of its sub-budgets besides the room its vectors reserve, each
    store of names is within its own budget, and the rest of the heap budget is
    the two mebibytes of margin. *)
Theorem working_set_within scope_size observation_size slot grow w :
  0 <= scope_size -> 0 <= observation_size -> 0 <= slot -> (forall n, 0 <= n -> n < grow n) ->
  filled_to scope_size observation_size slot grow w ->
  accounted_bytes observation_size slot w
    <= HEAP_INCREMENT - 2 * 1024 * 1024 + reserved_bytes observation_size slot w /\
  held (keys w) = weights (H := observations_ring scope_size) (elems (items (keys w))) /\
  held (keys w) <= OBSERVED_KEYS_BYTES /\ store_len (keys w) <= OBSERVED_KEYS_ENTRIES /\
  names_held (fields w) = weights (H := names_ring slot) (elems (entries (fields w))) /\
  names_held (fields w) <= FIELD_NAMES_BYTES.
Proof.
  intros Hscope Hobs Hslot Hgrow Hw.
  pose proof (filled_ok scope_size observation_size slot grow Hscope Hobs Hslot Hgrow w Hw) as Hok.
  destruct Hok as [([K1 K2 K3 _] & K4 & K5) [[F1 F2 F3 _] F4] Hm Hs Ha Hd].
  unfold excess in K1, F1. cbn [ring_items ring_bytes observations_ring names_ring] in K1, F1.
  unfold accounted_bytes, reserved_bytes, names_bytes, store_bytes.
  unfold HEAP_INCREMENT, SUB_ITEM_TOTAL. rewrite K4 in K2. rewrite F4 in F2. rewrite K5 in K3.
  unfold OBSERVED_KEYS_ENTRIES, FIELD_NAMES_BYTES in *. split_and!; lia.
Qed.

Lemma working_set_within_witness :
  filled_to 10 20 48 doubling new_working_set /\
  held (keys new_working_set) <= OBSERVED_KEYS_BYTES.
Proof.
  split; [constructor|].
  destruct (working_set_within 10 20 48 doubling new_working_set) as (_ & _ & H & _);
    [done|done|done|unfold doubling; lia|constructor|exact H].
Defined.
