(* ===== verification/Broker.v ===== *)
(** * The candidate broker ([crates/pr-intelligence/src/broker.rs])

    Candidates arrive while the user keeps typing.  A result is used only if the
    buffer and the scope are still what they were when it was asked for.  Ids
    and display texts are the bytes of the strings. *)

From S2P Require Import Prelude Observations.

Record Stamp := mkStamp { buffer_revision : Z; stamp_scope : ObservationScope }.

Record Candidate := mkCandidate {
  id : bytes;
  insert_text : bytes;
  display : bytes;
}.

Inductive Dropped := StaleRevision | ScopeChanged | Superseded.

Inductive Accepted := Use (cs : list Candidate) | Discard (why : Dropped).

#[export] Instance Stamp_eq_dec : EqDecision Stamp.
Proof. solve_decision. Defined.
#[export] Instance Candidate_eq_dec : EqDecision Candidate.
Proof. solve_decision. Defined.

Record Broker := mkBroker {
  current : option Stamp;
  issued : Z;
  shown : list Candidate;
  focused : option nat;
  discarded : Z;
}.

Definition new_broker : Broker := mkBroker None 0 [] None 0.

Definition set_state (st : Stamp) (b : Broker) : Broker :=
  mkBroker (Some st) (issued b) (shown b) (focused b) (discarded b).

Definition issue (b : Broker) : Z * Broker :=
  (issued b + 1, mkBroker (current b) (issued b + 1) (shown b) (focused b) (discarded b)).

Definition focused_candidate (b : Broker) : option Candidate :=
  i ← focused b; shown b !! i.

Definition focus (index : nat) (b : Broker) : Broker :=
  if decide (index < length (shown b))%nat
  then mkBroker (current b) (issued b) (shown b) (Some index) (discarded b)
  else b.

Definition unfocus (b : Broker) : Broker :=
  mkBroker (current b) (issued b) (shown b) None (discarded b).

(** [iter().position(|c| c.id == id)]. *)
Fixpoint position (i : bytes) (cs : list Candidate) : option nat :=
  match cs with
  | [] => None
  | c :: r => if decide (id c = i) then Some O else S <$> position i r
  end.

Definition merge (cs : list Candidate) (b : Broker) : Broker :=
  let focused_id := id <$> focused_candidate b in
  mkBroker (current b) (issued b) cs (i ← focused_id; position i cs) (discarded b).

Definition discard (b : Broker) : Broker :=
  mkBroker (current b) (issued b) (shown b) (focused b) (discarded b + 1).

Definition deliver (seq : Z) (st : Stamp) (cs : list Candidate) (b : Broker) : Accepted * Broker :=
  match current b with
  | None => (Discard ScopeChanged, discard b)
  | Some cur =>
      if decide (stamp_scope st <> stamp_scope cur) then (Discard ScopeChanged, discard b)
      else if decide (buffer_revision st <> buffer_revision cur)
      then (Discard StaleRevision, discard b)
      else if decide (seq < issued b) then (Discard Superseded, discard b)
      else (Use cs, merge cs b)
  end.

(** ** Histories *)

Inductive event :=
| SetState (st : Stamp)
| Issue
| Deliver (seq : Z) (st : Stamp) (cs : list Candidate)
| Focus (index : nat)
| Unfocus.

Definition handle (b : Broker) (e : event) : Broker :=
  match e with
  | SetState st => set_state st b
  | Issue => (issue b).2
  | Deliver seq st cs => (deliver seq st cs b).2
  | Focus i => focus i b
  | Unfocus => unfocus b
  end.
Definition run (es : list event) : Broker := foldl handle new_broker es.

(** The focus is on a candidate that is shown. *)
Definition broker_ok (b : Broker) : Prop :=
  match focused b with
  | Some i => (i < length (shown b))%nat
  | None => True
  end.

(** ** Facts *)

(** The result still matches what the editor is looking at. *)
Definition applies (seq : Z) (st : Stamp) (b : Broker) : Prop :=
  current b = Some st /\ issued b <= seq.

Lemma deliver_spec seq st cs b :
  (applies seq st b /\ deliver seq st cs b = (Use cs, merge cs b)) \/
  (~ applies seq st b /\ exists why, deliver seq st cs b = (Discard why, discard b)).
Proof.
  unfold deliver, applies. destruct (current b) as [cur|] eqn:E.
  2:{ right. split; [by intros [? _]|by eexists]. }
  case_decide as H1.
  { right. split; [intros [[= ->] _]; done|by eexists]. }
  case_decide as H2.
  { right. split; [intros [[= ->] _]; done|by eexists]. }
  case_decide as H3.
  { right. split; [intros [_ ?]; lia|by eexists]. }
  left. split; [|done]. split; [|lia]. f_equal. destruct st, cur. simpl in *.
  congruence.
Qed.

Lemma position_first i cs :
  match position i cs with
  | Some k => exists c, cs !! k = Some c /\ id c = i /\
                forall j d, (j < k)%nat -> cs !! j = Some d -> id d <> i
  | None => forall c, c ∈ cs -> id c <> i
  end.
Proof.
  induction cs as [|c r IH]; simpl.
  { intros c Hc. by apply elem_of_nil in Hc. }
  case_decide as E.
  - exists c. split_and!; [done|done|]. intros j d Hj. lia.
  - destruct (position i r) as [k|]; simpl.
    + destruct IH as (d & Hd & Hi & Hn). exists d. split_and!; [done|done|].
      intros [|j] x Hj; simpl; [congruence|]. apply Hn. lia.
    + intros d [->|Hd]%elem_of_cons; [done|]. by apply IH.
Qed.

Lemma handle_ok b e : broker_ok b -> broker_ok (handle b e).
Proof.
  intros Hb. destruct e as [st| |seq st cs|i|]; simpl; try done.
  - destruct (deliver_spec seq st cs b) as [[_ ->]|[_ [why ->]]]; simpl; [|done].
    unfold broker_ok, merge. cbn [focused shown].
    destruct (focused_candidate b) as [c|]; simpl; [|done].
    pose proof (position_first (id c) cs) as Hp. destruct (position (id c) cs) as [k|]; [|done].
    destruct Hp as (d & Hd & _). by apply lookup_lt_Some in Hd.
  - unfold focus. case_decide; [|done]. done.
Qed.

Lemma run_snoc es e : run (es ++ [e]) = handle (run es) e.
Proof. unfold run. by rewrite foldl_app. Qed.

Lemma broker_run_ok es : broker_ok (run es).
Proof.
  induction es as [|e es IH] using rev_ind; [done|]. rewrite run_snoc. by apply handle_ok.
Qed.

(** ** Properties *)

(** No stale candidate is ever shown.  Whatever the order of editor changes,
    requests, results and focus moves, what is shown is nothing or the
    candidates of one result that, when it arrived, carried exactly the revision
    and scope of the editor and had no newer request issued; every later result
    was discarded, and the focus is on a candidate that is shown. *)
Theorem shown_current es :
  let b := run es in
  broker_ok b /\
  (shown b = [] \/
   exists pre seq st cs post,
     es = pre ++ Deliver seq st cs :: post /\
     current (run pre) = Some st /\ issued (run pre) <= seq /\ shown b = cs /\
     forall p1 seq' st' cs' p2, post = p1 ++ Deliver seq' st' cs' :: p2 ->
       exists why, (deliver seq' st' cs' (run (pre ++ Deliver seq st cs :: p1))).1 = Discard why).
Proof.
  cbn zeta. split; [apply broker_run_ok|].
  induction es as [|e es IH] using rev_ind; [by left|].
  assert (forall b', handle (run es) e = b' -> shown b' = shown (run es) ->
    (forall seq' st' cs', e = Deliver seq' st' cs' ->
      exists why, (deliver seq' st' cs' (run es)).1 = Discard why) ->
    shown b' = [] \/
    exists pre seq st cs post, es ++ [e] = pre ++ Deliver seq st cs :: post /\
     current (run pre) = Some st /\ issued (run pre) <= seq /\ shown b' = cs /\
     forall p1 seq' st' cs' p2, post = p1 ++ Deliver seq' st' cs' :: p2 ->
       exists why, (deliver seq' st' cs' (run (pre ++ Deliver seq st cs :: p1))).1 = Discard why)
    as Hkeep.
  { intros b' Eb Hs Hd. rewrite Hs.
    destruct IH as [IH|(pre & seq & st & cs & post & -> & Hc & Hi & Hsh & Hp)]; [by left|right].
    exists pre, seq, st, cs, (post ++ [e]). rewrite <- app_assoc. split_and!; try done.
    intros p1 seq' st' cs' p2 E.
    destruct p2 as [|x p2 _] using rev_ind.
    - apply app_inj_tail in E as [-> ->]. by apply Hd.
    - assert (post = p1 ++ Deliver seq' st' cs' :: p2) as E2.
      { change (Deliver seq' st' cs' :: p2 ++ [x]) with ((Deliver seq' st' cs' :: p2) ++ [x]) in E.
        rewrite app_assoc in E. by apply app_inj_tail in E as [-> _]. }
      by eapply Hp. }
  rewrite run_snoc. destruct e as [st| |seq st cs|i|]; simpl in *;
    try (by apply (Hkeep _ eq_refl)).
  - destruct (deliver_spec seq st cs (run es)) as [[[Hc Hi] E]|[_ [why E]]]; rewrite E.
    + right. exists es, seq, st, cs, []. split_and!; try done.
      intros p1 ? ? ? p2 Ep. by destruct p1.
    + apply Hkeep; [by rewrite E|done|].
      intros seq' st' cs' [= -> -> ->]. rewrite E. by exists why.
  - apply (Hkeep _ eq_refl); [|done]. unfold focus. by case_decide.
Qed.

(** Focus follows the candidate, not the row: when a result is used, the
    focus is on the first candidate with the id that was focused, and on nothing
    if there was no focus or the id is gone; a discarded result changes nothing
    but the count of discards. *)
Theorem focus_follows_id seq st cs b :
  let '(answer, b') := deliver seq st cs b in
  match answer with
  | Use cs' =>
      cs' = cs /\ shown b' = cs /\ discarded b' = discarded b /\
      match focused_candidate b with
      | Some c =>
          match focused_candidate b' with
          | Some c' => id c' = id c /\ exists k, focused b' = Some k /\ cs !! k = Some c' /\
              forall j d, (j < k)%nat -> cs !! j = Some d -> id d <> id c
          | None => focused b' = None /\ forall d, d ∈ cs -> id d <> id c
          end
      | None => focused b' = None
      end
  | Discard _ => b' = discard b
  end.
Proof.
  destruct (deliver_spec seq st cs b) as [[_ ->]|[_ [why ->]]]; [|done].
  split_and!; [done..|].
  assert (focused_candidate (merge cs b) = (i ← focused (merge cs b); cs !! i)) as -> by done.
  unfold merge. cbn [focused]. destruct (focused_candidate b) as [c|]; simpl; [|done].
  pose proof (position_first (id c) cs) as Hp. destruct (position (id c) cs) as [k|] eqn:Ek; simpl.
  - destruct Hp as (d & Hd & Hi & Hn). rewrite Hd. split; [done|]. exists k. done.
  - done.
Qed.
