(* ===== verification/Discovery.v ===== *)
(** * Key discovery ([crates/pr-intelligence/src/discovery.rs])

    A run of [SCAN] requests under a budget, as the state machine the caller
    drives, and the refusal cooldown.  An [Instant] and a [Duration] are a
    number of nanoseconds; texts are bytes. *)

From S2P Require Import Prelude Text.

(** ** Match patterns *)

Inductive MatchMode := LiteralPrefix | RawGlob.

Definition mode_label (m : MatchMode) : bytes :=
  match m with
  | LiteralPrefix => bs "prefix"
  | RawGlob => bs "glob"
  end.

Definition glob_special (b : byte) : bool :=
  bool_decide (b ∈ ["*"; "?"; "["; "]"; "\"]%byte).

Definition scan_pattern (m : MatchMode) (input : bytes) : bytes :=
  match m with
  | RawGlob => input
  | LiteralPrefix =>
      (input ≫= fun b => if glob_special b then ["\"%byte; b] else [b]) ++ ["*"%byte]
  end.

Definition escape (s : bytes) : bytes :=
  s ≫= fun c => if decide (32 <= bz c <= 126) then [c] else bs "\x" ++ hex2 c.

Definition preview (m : MatchMode) (input : bytes) : bytes :=
  mode_label m ++ bs ": typed " ++ escape input ++ bs " " ++ [xe2; x86; x92] ++ bs " MATCH "
  ++ escape (scan_pattern m input).

(** ** Budgets and outcomes *)

Record Budget := mkBudget {
  max_scans : Z;
  count_hint : Z;
  max_duration : Z;
  max_requests_per_sec : Z;
  max_response_bytes : Z;
}.

Definition from_secs (n : Z) : Z := n * 1000000000.

Definition explicit_default : Budget := mkBudget 200 1000 (from_secs 10) 20 (1024 * 1024).
Definition automatic_default : Budget := mkBudget 2 100 (from_secs 1) 2 (256 * 1024).

Inductive Completeness :=
| Exhausted
| BudgetReached (limit : bytes)
| Cancelled
| Denied (reason : bytes).

#[export] Instance Completeness_eq_dec : EqDecision Completeness.
Proof. solve_decision. Defined.

Definition is_conclusive (c : Completeness) : bool :=
  match c with
  | Exhausted => true
  | _ => false
  end.

Definition empty_message (c : Completeness) : bytes :=
  match c with
  | Exhausted =>
      bs "No matches. The keyspace was walked to the end, though SCAN offers no "
      ++ bs "snapshot: a key added or removed during the walk may not be reflected"
  | BudgetReached limit =>
      bs "No matches in the observed portion; discovery incomplete (stopped at the "
      ++ limit ++ bs " budget)"
  | Cancelled => bs "No matches in the observed portion; discovery incomplete (cancelled)"
  | Denied reason =>
      bs "Discovery was refused by the server (" ++ reason ++ bs "); nothing can be concluded "
      ++ bs "about which keys exist"
  end.

Inductive Step :=
| Scan (cursor : Z) (pattern : bytes) (count : Z)
| Wait (d : Z)
| Done (c : Completeness).

Record Progress := mkProgress {
  p_scans_used : Z;
  p_scans_left : Z;
  p_matched : Z;
  p_keys_seen : Z;
  p_bytes_seen : Z;
}.

(** ** A run *)

Record Discovery := mkDiscovery {
  pattern : bytes;
  mode : MatchMode;
  budget : Budget;
  cursor : Z;
  scans_used : Z;
  keys_seen : Z;
  bytes_seen : Z;
  matches : list bytes;
  seen : gset bytes;
  started : option Z;
  last_request : option Z;
  finished : option Completeness;
}.

Definition new_discovery (m : MatchMode) (input : bytes) (b : Budget) : Discovery :=
  mkDiscovery (scan_pattern m input) m b 0 0 0 0 [] ∅ None None None.

Definition progress (d : Discovery) : Progress :=
  mkProgress (scans_used d) (Z.max 0 (max_scans (budget d) - scans_used d)) (zlen (matches d))
    (keys_seen d) (bytes_seen d).

Definition finish (c : Completeness) (d : Discovery) : Step * Discovery :=
  (Done c, mkDiscovery (pattern d) (mode d) (budget d) (cursor d) (scans_used d) (keys_seen d)
             (bytes_seen d) (matches d) (seen d) (started d) (last_request d) (Some c)).

Definition start_at (now : Z) (d : Discovery) : Discovery :=
  mkDiscovery (pattern d) (mode d) (budget d) (cursor d) (scans_used d) (keys_seen d)
    (bytes_seen d) (matches d) (seen d) (Some (default now (started d))) (last_request d) (finished d).

(** [Instant::duration_since] is zero for a later instant. *)
Definition duration_since (now earlier : Z) : Z := Z.max 0 (now - earlier).

(** How long the rate limit still asks to wait: the whole gap less what has
    passed ([checked_sub], not zero).  [None] when the division by a rate of
    zero panics. *)
Definition rate_wait (now : Z) (d : Discovery) : option (option Z) :=
  match last_request d with
  | None => Some None
  | Some last =>
      if decide (max_requests_per_sec (budget d) = 0) then None
      else
        let min_gap := from_secs 1 / max_requests_per_sec (budget d) in
        let since := duration_since now last in
        Some (if decide (since < min_gap) then Some (min_gap - since) else None)
  end.

Definition send_scan (now : Z) (d : Discovery) : Step * Discovery :=
  (Scan (cursor d) (pattern d) (count_hint (budget d)),
   mkDiscovery (pattern d) (mode d) (budget d) (cursor d) (scans_used d + 1) (keys_seen d)
     (bytes_seen d) (matches d) (seen d) (started d) (Some now) (finished d)).

Definition next_step (now : Z) (d : Discovery) : option (Step * Discovery) :=
  match finished d with
  | Some f => Some (Done f, d)
  | None =>
      let d := start_at now d in
      let started := default now (started d) in
      if decide (duration_since now started >= max_duration (budget d))
      then Some (finish (BudgetReached (bs "time")) d)
      else if decide (scans_used d >= max_scans (budget d))
      then Some (finish (BudgetReached (bs "SCAN count")) d)
      else if decide (bytes_seen d >= max_response_bytes (budget d))
      then Some (finish (BudgetReached (bs "response size")) d)
      else
        match rate_wait now d with
        | None => None
        | Some (Some wait) => Some (Wait wait, d)
        | Some None => Some (send_scan now d)
        end
  end.

(** One key of a reply: [seen.insert], and a match if it was new. *)
Definition note_key (acc : list bytes * gset bytes) (k : bytes) : list bytes * gset bytes :=
  let '(ms, s) := acc in
  if decide (k ∈ s) then (ms, s) else (ms ++ [k], {[ k ]} ∪ s).

Definition feed (next : Z) (keys : list bytes) (reply_bytes : Z) (d : Discovery) : Discovery :=
  let '(ms, s) := foldl note_key (matches d, seen d) keys in
  mkDiscovery (pattern d) (mode d) (budget d) next (scans_used d) (keys_seen d + zlen keys)
    (bytes_seen d + reply_bytes) ms s (started d) (last_request d)
    (if decide (next = 0) then Some Exhausted else finished d).

Definition set_finished (f : option Completeness) (d : Discovery) : Discovery :=
  mkDiscovery (pattern d) (mode d) (budget d) (cursor d) (scans_used d) (keys_seen d)
    (bytes_seen d) (matches d) (seen d) (started d) (last_request d) f.

Definition cancel (d : Discovery) : Discovery :=
  match finished d with
  | None => set_finished (Some Cancelled) d
  | Some _ => d
  end.

Definition deny (reason : bytes) (d : Discovery) : Discovery :=
  set_finished (Some (Denied reason)) d.

Record Outcome := mkOutcome {
  found : list bytes;
  completeness : Completeness;
  final_progress : Progress;
}.

Definition outcome (d : Discovery) : Outcome :=
  mkOutcome (matches d) (default (BudgetReached (bs "unfinished")) (finished d)) (progress d).

Definition summary (o : Outcome) : bytes :=
  match found o with
  | [] => empty_message (completeness o)
  | _ :: _ =>
      let n := print_unsigned (zlen (found o)) in
      match completeness o with
      | Exhausted => n ++ bs " match(es); the keyspace was walked to the end"
      | BudgetReached limit =>
          n ++ bs " match(es) in the observed portion; discovery incomplete (stopped at the "
          ++ limit ++ bs " budget after " ++ print_unsigned (p_scans_used (final_progress o))
          ++ bs " SCANs)"
      | Cancelled => n ++ bs " match(es) in the observed portion; discovery incomplete (cancelled)"
      | Denied reason => n ++ bs " match(es) before the server refused (" ++ reason ++ bs ")"
      end
  end.

(** ** The cooldown after a refusal *)

Definition Cooldown : Type := gmap (bytes * Z) Z.
Definition COOLDOWN : Z := from_secs 60.

Definition refused (profile : bytes) (db now : Z) (c : Cooldown) : Cooldown :=
  <[(profile, db) := now + COOLDOWN]> c.

(** The remaining wait is the error. *)
Definition check (profile : bytes) (db now : Z) (c : Cooldown) : result Z unit :=
  match c !! (profile, db) with
  | Some t => if decide (t > now) then Err (t - now) else Ok tt
  | None => Ok tt
  end.

Definition cleared_by_user (profile : bytes) (db : Z) (c : Cooldown) : Cooldown :=
  delete (profile, db) c.

(** ** A caller

    What answers a request, and after how long; a caller that asks again after
    the wait it was told. *)

Inductive Reply :=
| Page (next : Z) (keys : list bytes) (reply_bytes : Z)
| Refusal (reason : bytes)
| UserCancelled.

Definition answer (r : Reply) (d : Discovery) : Discovery :=
  match r with
  | Page next keys n => feed next keys n d
  | Refusal reason => deny reason d
  | UserCancelled => cancel d
  end.

(** The pages received, newest last, each with the cursor sent for it. *)
Definition Trace : Type := list (Z * (Z * list bytes)).

Fixpoint drive (fuel : nat) (server : nat -> Reply * Z) (i : nat) (now : Z) (t : Trace)
    (d : Discovery) : option (Completeness * Trace * Discovery) :=
  match fuel with
  | O => None
  | S f =>
      match next_step now d with
      | None => None
      | Some (Done c, d') => Some (c, t, d')
      | Some (Wait w, d') => drive f server i (now + w) t d'
      | Some (Scan c _ _, d') =>
          let '(r, dt) := server i in
          let t' := match r with
                    | Page next keys _ => t ++ [(c, (next, keys))]
                    | _ => t
                    end in
          drive f server (S i) (now + dt) t' (answer r d')
      end
  end.

(** The distinct elements of a list, in order of first occurrence. *)
Definition distinct (ks : list bytes) : list bytes := (foldl note_key ([], ∅) ks).1.

Definition keys_of (t : Trace) : list bytes := t ≫= fun p => p.2.2.

(** Each cursor sent is the one the page before returned, from 0 on. *)
Fixpoint walk_from (c : Z) (t : Trace) : Prop :=
  match t with
  | [] => True
  | (sent, (next, _)) :: r => sent = c /\ walk_from next r
  end.
Definition last_cursor (t : Trace) : Z :=
  match last t with
  | Some (_, (next, _)) => next
  | None => 0
  end.

(** ** Facts *)

(** What is known of a run that has received the pages of [t]. *)
Record run_ok (t : Trace) (d : Discovery) : Prop := {
  rk_matches : (matches d, seen d) = foldl note_key ([], ∅) (keys_of t);
  rk_walk : walk_from 0 t;
  rk_cursor : cursor d = last_cursor t;
  rk_scans : 0 <= scans_used d <= Z.max 0 (max_scans (budget d));
  rk_exhausted : finished d = Some Exhausted -> t <> [] /\ last_cursor t = 0;
}.

Lemma walk_from_snoc c t sent next ks :
  walk_from c t -> sent = match last t with Some (_, (n, _)) => n | None => c end ->
  walk_from c (t ++ [(sent, (next, ks))]).
Proof.
  revert c. induction t as [|[s [n k]] t IH]; intros c; [by intros _ ->|].
  rewrite last_cons. cbn [walk_from app]. intros [-> Hw] Hs. split; [done|]. apply IH; [done|].
  rewrite Hs. by destruct (last t).
Qed.

Lemma feed_ok t d next ks n :
  run_ok t d -> finished d = None -> run_ok (t ++ [(cursor d, (next, ks))]) (feed next ks n d).
Proof.
  intros [Hm Hw Hc Hs _] Hf. unfold feed.
  assert (foldl note_key (matches d, seen d) ks =
    foldl note_key ([], ∅) (keys_of (t ++ [(cursor d, (next, ks))]))) as E.
  { unfold keys_of in *. rewrite bind_app, foldl_app, <- Hm. simpl. by rewrite app_nil_r. }
  destruct (foldl note_key (matches d, seen d) ks) as [ms s] eqn:Ef.
  constructor; cbn [matches seen cursor scans_used budget finished]; try done.
  - apply walk_from_snoc; [done|]. rewrite Hc. unfold last_cursor. by destruct (last t) as [[? [? ?]]|].
  - unfold last_cursor. by rewrite last_snoc.
  - rewrite Hf. intros Hx. split; [by destruct t|]. unfold last_cursor. rewrite last_snoc.
    by case_decide.
Qed.

Definition same_run (d d' : Discovery) : Prop :=
  matches d' = matches d /\ seen d' = seen d /\ cursor d' = cursor d /\ budget d' = budget d /\
  scans_used d' = scans_used d.

Lemma run_ok_same t d d' :
  run_ok t d -> same_run d d' -> finished d' <> Some Exhausted -> run_ok t d'.
Proof.
  intros [Hm Hw Hc Hs He] (E1 & E2 & E3 & E4 & E5) Hf. constructor; congruence.
Qed.

(** The four answers of [next_step], with what each leaves. *)
Inductive step_case (now : Z) (d : Discovery) : Step -> Discovery -> Prop :=
| case_finished f : finished d = Some f -> step_case now d (Done f) d
| case_budget l d' :
    finished d = None -> same_run d d' -> finished d' = Some (BudgetReached l) ->
    step_case now d (Done (BudgetReached l)) d'
| case_wait w d' :
    finished d = None -> same_run d d' -> finished d' = None -> 0 < w ->
    last_request d' = last_request d ->
    (forall l, last_request d = Some l -> l <= now ->
      rate_wait (now + w) d' = Some None) ->
    step_case now d (Wait w) d'
| case_scan d' :
    finished d = None -> scans_used d < max_scans (budget d) -> finished d' = None ->
    matches d' = matches d -> seen d' = seen d -> cursor d' = cursor d -> budget d' = budget d ->
    scans_used d' = scans_used d + 1 -> last_request d' = Some now ->
    step_case now d (Scan (cursor d) (pattern d) (count_hint (budget d))) d'.

Lemma rate_wait_again now d w :
  rate_wait now d = Some (Some w) ->
  0 < w /\ forall l, last_request d = Some l -> l <= now -> rate_wait (now + w) d = Some None.
Proof.
  unfold rate_wait. destruct (last_request d) as [last|]; [|done]. case_decide; [done|].
  case_decide as Hw; [|done]. intros [= <-]. unfold duration_since in *. split; [lia|].
  intros l [= ->] Hl. rewrite decide_False by lia. done.
Qed.

Lemma next_step_spec now d :
  max_requests_per_sec (budget d) <> 0 ->
  exists st d', next_step now d = Some (st, d') /\ step_case now d st d'.
Proof.
  intros Hr. unfold next_step. destruct (finished d) as [f|] eqn:Ef.
  { eexists _, _. split; [done|]. by constructor. }
  cbn [started start_at budget scans_used bytes_seen].
  case_decide; [eexists _, _; split; [done|]; by econstructor|].
  case_decide; [eexists _, _; split; [done|]; by econstructor|].
  case_decide; [eexists _, _; split; [done|]; by econstructor|].
  destruct (rate_wait now (start_at now d)) as [[w|]|] eqn:E.
  - destruct (rate_wait_again _ _ _ E) as [Hw Ha].
    eexists _, _. split; [done|]. constructor; try done.
  - exists (Scan (cursor d) (pattern d) (count_hint (budget d))), (send_scan now (start_at now d)).2.
    split; [done|]. constructor; try done. simpl in *. lia.
  - exfalso. unfold rate_wait in E. destruct (last_request _); [|done].
    rewrite decide_False in E by done. done.
Qed.

(** A run that may ask again at once does not wait. *)
Lemma step_case_no_wait now d st d' :
  step_case now d st d' -> rate_wait now d = Some None -> next_step now d = Some (st, d') ->
  forall w, st <> Wait w.
Proof.
  intros Hc Hr. unfold next_step. destruct Hc as [f Hf|l d' Hf|w d' Hf|d' Hf]; try done.
  rewrite Hf. repeat case_decide; try done.
  assert (rate_wait now (start_at now d) = rate_wait now d) as -> by done. by rewrite Hr.
Qed.

Lemma step_case_ok now t d st d' :
  step_case now d st d' -> run_ok t d -> run_ok t d'.
Proof.
  intros Hc Hok. destruct Hc as [f Hf|l d' Hf Hs Hf'|w d' Hf Hs Hf'|d' Hf Hlt Hf' H1 H2 H3 H4 H5].
  - done.
  - eapply run_ok_same; [done..|congruence].
  - eapply run_ok_same; [done..|congruence].
  - destruct Hok as [Hm Hw Hc Hs He]. constructor; try congruence. rewrite H4, H5. lia.
Qed.

Definition rounds_left (d : Discovery) : nat := Z.to_nat (max_scans (budget d) - scans_used d).

Section drive.
Context (server : nat -> Reply * Z) (Hclock : forall i, 0 <= (server i).2).

Lemma answer_ok i c t d :
  run_ok t d -> finished d = None -> c = cursor d ->
  let d' := answer (server i).1 d in
  run_ok (match (server i).1 with Page next keys _ => t ++ [(c, (next, keys))] | _ => t end) d' /\
  budget d' = budget d /\ scans_used d' = scans_used d /\ last_request d' = last_request d.
Proof.
  intros Hok Hf ->. destruct (server i).1 as [next keys n|reason|]; cbn [answer].
  - split; [by apply feed_ok|]. unfold feed. by destruct (foldl _ _ _).
  - split; [|done]. eapply run_ok_same; [done..|done].
  - unfold cancel. rewrite Hf. split; [|done]. eapply run_ok_same; [done..|done].
Qed.

Definition ended (n : nat) (i : nat) (now : Z) (t : Trace) (d : Discovery) : Prop :=
  exists c t' d', drive n server i now t d = Some (c, t', d') /\ run_ok t' d' /\
    finished d' = Some c /\ budget d' = budget d.

Lemma drive_ends n i now t d :
  run_ok t d -> max_requests_per_sec (budget d) <> 0 ->
  (forall l, last_request d = Some l -> l <= now) ->
  (2 * rounds_left d + 2 <= n)%nat \/
    (2 * rounds_left d + 1 <= n)%nat /\ rate_wait now d = Some None \/
    (1 <= n)%nat /\ finished d <> None ->
  ended n i now t d.
Proof.
  revert i now t d. induction n as [|n IH]; intros i now t d Hok Hr Hl Hn; [lia|].
  unfold ended. cbn [drive].
  destruct (next_step_spec now d Hr) as (st & d' & E & Hc). rewrite E.
  pose proof (step_case_ok _ t _ _ _ Hc Hok) as Hok'.
  pose proof (step_case_no_wait _ _ _ _ Hc) as Hnw.
  destruct Hc as [f Hf|l d' Hf Hs Hf'|w d' Hf Hs Hf' Hw Hlast Hagain|d' Hf Hlt Hf' H1 H2 H3 H4 H5 H6].
  - by exists f, t, d.
  - exists (BudgetReached l), t, d'. split_and!; try done. by destruct Hs as (_ & _ & _ & ? & _).
  - destruct Hs as (S1 & S2 & S3 & S4 & S5).
    destruct Hn as [Hn|[[Hn Hrw]|[_ Hn]]]; [|by destruct (Hnw Hrw E w)|done].
    destruct (IH i (now + w) t d') as (c & t' & d2 & G1 & G2 & G3 & G4); try done.
    + by rewrite S4.
    + rewrite Hlast. intros l Hl'. pose proof (Hl l Hl'). lia.
    + right. left. unfold rounds_left in *. rewrite S4, S5. split; [lia|].
      destruct (last_request d) as [l|] eqn:El; [by eapply Hagain; [|apply Hl]|].
      unfold rate_wait. by rewrite Hlast.
    + exists c, t', d2. split_and!; try done. congruence.
  - pose proof (Hclock i) as Hdt. pose proof (answer_ok i (cursor d) t d' Hok' Hf' (eq_sym H3)) as Ha.
    destruct (server i) as [r dt]. cbn [fst snd] in Ha, Hdt. destruct Ha as (A1 & A2 & A3 & A4).
    assert (rounds_left d = S (rounds_left (answer r d'))) as Hrl.
    { unfold rounds_left. rewrite A2, A3, H4, H5. lia. }
    destruct (IH (S i) (now + dt) _ (answer r d') A1) as (c & t' & d2 & G1 & G2 & G3 & G4).
    + by rewrite A2, H4.
    + rewrite A4, H6. intros l [= <-]. lia.
    + left. destruct Hn as [Hn|[[Hn _]|[_ Hn]]]; [lia|lia|done].
    + exists c, t', d2. split_and!; try done. congruence.
Qed.
End drive.

Lemma new_discovery_ok m input b : run_ok [] (new_discovery m input b).
Proof. constructor; simpl; try done. lia. Qed.

Lemma note_keys_spec ks ms s :
  NoDup ms -> (forall k, k ∈ s <-> k ∈ ms) ->
  let '(ms', s') := foldl note_key (ms, s) ks in
  NoDup ms' /\ (forall k, k ∈ s' <-> k ∈ ms') /\ (forall k, k ∈ ms' <-> k ∈ ms \/ k ∈ ks) /\
  exists new, ms' = ms ++ new.
Proof.
  revert ms s. induction ks as [|k ks IH]; intros ms s Hd Hs; simpl.
  { split_and!; try done; [|by exists []; rewrite app_nil_r].
    intros k. rewrite elem_of_nil. tauto. }
  case_decide as Hk.
  - specialize (IH ms s Hd Hs). destruct (foldl note_key (ms, s) ks) as [ms' s'].
    destruct IH as (H1 & H2 & H3 & H4). split_and!; try done.
    intros x. rewrite H3, elem_of_cons. apply Hs in Hk. naive_solver.
  - specialize (IH (ms ++ [k]) ({[k]} ∪ s)).
    destruct (foldl note_key (ms ++ [k], {[k]} ∪ s) ks) as [ms' s'].
    destruct IH as (H1 & H2 & H3 & new & H4).
    + apply NoDup_app. split_and!; [done| |apply NoDup_singleton].
      intros x Hx ->%list_elem_of_singleton. apply Hk. by apply Hs.
    + intros x. rewrite elem_of_union, elem_of_singleton, Hs, elem_of_app, list_elem_of_singleton. tauto.
    + split_and!; try done.
      * intros x. rewrite H3, elem_of_app, list_elem_of_singleton, elem_of_cons. tauto.
      * exists (k :: new). by rewrite H4, <- app_assoc.
Qed.

Lemma distinct_spec ks : NoDup (distinct ks) /\ forall k, k ∈ distinct ks <-> k ∈ ks.
Proof.
  unfold distinct. pose proof (note_keys_spec ks [] ∅) as H.
  destruct (foldl note_key ([], ∅) ks) as [ms s].
  destruct H as (H1 & H2 & H3 & _); [constructor| |].
  - intros k. split; [set_solver|]. by intros ?%elem_of_nil.
  - split; [done|]. intros k. simpl. rewrite H3, elem_of_nil. tauto.
Qed.

(** ** Findings *)

(** A backslash is shown as it is, so a typed [\x00] and a NUL byte have one
    preview. *)
Lemma discovery_preview_ambiguous :
  preview RawGlob (bs "\x00") = preview RawGlob [x00].
Proof. vm_compute. reflexivity. Qed.

(** A rate of zero is a division by zero at the second request. *)
Lemma zero_rate_panics :
  let b := mkBudget 2 100 (from_secs 1) 0 1000 in
  match next_step 0 (new_discovery RawGlob [] b) with
  | Some (_, d) => next_step 1 (feed 7 [] 10 d)
  | None => Some (Wait 0, new_discovery RawGlob [] b)
  end = None.
Proof. vm_compute. reflexivity. Qed.

(** ** Properties *)

(** C33. A run always ends, within its budget, and says truly how far it got.
    Under a budget that allows requests at a positive rate, whatever the server
    answers and however long it takes, a caller that waits as told gets an answer
    after at most twice the allowed requests and two rounds more; the requests
    sent are within the budget, each cursor sent is the one received before it
    (an empty page does not end the walk), the matches are the distinct keys of
    all the pages in order of arrival, and the run is called exhausted only when
    the last cursor received was zero. *)
Theorem discovery_ends m input b server now :
  0 < max_requests_per_sec b -> (forall i, 0 <= (server i).2) ->
  let fuel := (2 * Z.to_nat (max_scans b) + 2)%nat in
  exists c t d, drive fuel server 0 now [] (new_discovery m input b) = Some (c, t, d) /\
    completeness (outcome d) = c /\ 0 <= scans_used d <= Z.max 0 (max_scans b) /\
    walk_from 0 t /\ matches d = distinct (keys_of t) /\ NoDup (matches d) /\
    (forall k, k ∈ matches d <-> k ∈ keys_of t) /\
    (is_conclusive c = true -> t <> [] /\ last_cursor t = 0).
Proof.
  intros Hr Hclock fuel.
  destruct (drive_ends server Hclock fuel 0 now [] (new_discovery m input b)) as
    (c & t & d & E & [Hm Hw Hc Hs He] & Hf & Hb).
  - apply new_discovery_ok.
  - simpl. lia.
  - done.
  - left. unfold rounds_left, fuel. simpl. rewrite Z.sub_0_r. done.
  - exists c, t, d. rewrite Hb in Hs. cbn [budget new_discovery] in Hs. destruct (distinct_spec (keys_of t)) as [Hd1 Hd2].
    assert (matches d = distinct (keys_of t)) as Em by (unfold distinct; by rewrite <- Hm).
    split_and!; try done; try (by rewrite Em); try lia.
    + unfold outcome. by rewrite Hf.
    + intros Hx. apply He. rewrite Hf. destruct c; cbn in Hx; congruence.
Qed.

Lemma discovery_ends_witness :
  let server i := if decide (i = 0%nat) then (Page 7 [bs "a"; bs "b"] 10, 5)
                  else if decide (i = 1%nat) then (Page 3 [] 10, 5)
                  else (Page 0 [bs "b"; bs "c"] 10, 5) in
  0 < max_requests_per_sec explicit_default /\
  exists c t d, drive (2 * Z.to_nat (max_scans explicit_default) + 2) server 0 0 []
                  (new_discovery LiteralPrefix [] explicit_default) = Some (c, t, d) /\ NoDup (matches d).
Proof.
  intros server. split; [done|].
  assert (forall i, 0 <= snd (server i)) as Hs by (intros i; unfold server; repeat case_decide; simpl; lia).
  destruct (discovery_ends LiteralPrefix [] explicit_default server 0 eq_refl Hs)
    as (c & t & d & E & _ & _ & _ & _ & Hd & _).
  exists c, t, d. split; [exact E|exact Hd].
Defined.

(** A literal prefix means exactly that prefix.  Under any server whose
    [MATCH] reads an escaped byte as that byte, an ordinary byte as itself and a
    final star as anything, the pattern sent for a literal prefix matches a key
    exactly if the key begins with the bytes typed, whatever they are. *)
Theorem literal_prefix_exact (glob_match : bytes -> bytes -> Prop) input key :
  (forall c p k, glob_match ("\"%byte :: c :: p) k <-> exists r, k = c :: r /\ glob_match p r) ->
  (forall c p k, glob_special c = false ->
     (glob_match (c :: p) k <-> exists r, k = c :: r /\ glob_match p r)) ->
  (forall k, glob_match ["*"%byte] k) ->
  (glob_match (scan_pattern LiteralPrefix input) key <-> input `prefix_of` key).
Proof.
  intros Hesc Hord Hstar. unfold scan_pattern. revert key.
  induction input as [|b input IH]; intros key; simpl.
  { split; [intros _; apply prefix_nil|intros _; apply Hstar]. }
  assert (glob_match ((if glob_special b then ["\"%byte; b] else [b]) ++
    (input ≫= fun b => if glob_special b then ["\"%byte; b] else [b]) ++ ["*"%byte]) key <->
    exists r, key = b :: r /\ input `prefix_of` r) as E.
  { destruct (glob_special b) eqn:Eb; simpl; [rewrite Hesc|rewrite Hord by done];
      split; intros (r & -> & Hr); exists r; (split; [done|]); by apply IH. }
  rewrite <- app_assoc, E. split.
  - intros (r & -> & Hr). by apply prefix_cons.
  - intros Hp. destruct key as [|c r]; [by apply prefix_nil_inv in Hp|].
    apply prefix_cons_inv_1 in Hp as Ec. subst c.
    apply prefix_cons_inv_2 in Hp. by exists r.
Qed.

(** A [MATCH] for the witness: escapes, literals and stars. *)
Fixpoint simple_glob (p k : bytes) : Prop :=
  match p with
  | [] => k = []
  | b :: p' =>
      if decide (b = "\"%byte) then
        match p' with
        | [] => False
        | c :: p'' => match k with
                      | d :: r => c = d /\ simple_glob p'' r
                      | [] => False
                      end
        end
      else if decide (b = "*"%byte) then True
      else match k with
           | d :: r => b = d /\ simple_glob p' r
           | [] => False
           end
  end.

Lemma literal_prefix_exact_witness :
  simple_glob (scan_pattern LiteralPrefix (bs "user[1]")) (bs "user[1]:name") <->
  bs "user[1]" `prefix_of` bs "user[1]:name".
Proof.
  apply (literal_prefix_exact simple_glob).
  - intros c p k. cbn [simple_glob]. rewrite decide_True by done. destruct k as [|d r].
    + split; [done|by intros (? & ? & _)].
    + split; [intros [-> ?]; by exists r|by intros (? & [= -> ->] & ?)].
  - intros c p k Hc. cbn [simple_glob].
    rewrite decide_False, decide_False by (by intros ->). destruct k as [|d r].
    + split; [done|by intros (? & ? & _)].
    + split; [intros [-> ?]; by exists r|by intros (? & [= -> ->] & ?)].
  - done.
Defined.

(** After a refusal discovery is quiet for the whole cooldown, the answer is
    the time left, and only for that profile and database; a retry by the user
    ends it. *)
Theorem cooldown_exact profile db t c now profile' db' :
  check profile db now (refused profile db t c) =
    (if decide (now < t + COOLDOWN) then Err (t + COOLDOWN - now) else Ok tt) /\
  check profile db now (cleared_by_user profile db c) = Ok tt /\
  ((profile', db') <> (profile, db) ->
   check profile' db' now (refused profile db t c) = check profile' db' now c /\
   check profile' db' now (cleared_by_user profile db c) = check profile' db' now c).
Proof.
  unfold check, refused, cleared_by_user, Cooldown in *. split_and!.
  - rewrite lookup_insert_eq. repeat case_decide; try done; lia.
  - by rewrite lookup_delete_eq.
  - intros Hne. by rewrite lookup_insert_ne, lookup_delete_ne by done.
Qed.
