(* ===== verification/Policy.v ===== *)
(** * Approval policies for agents ([crates/pr-mcp/src/policy.rs])

    What a rule written by a person may authorise without one, and the glob
    matcher that decides which keys its patterns cover.  Positions in a pattern
    or a key are [nat]; strings are their bytes. *)

From S2P Require Import Prelude Text TextFacts Request.

Record PolicyRule := mkRule {
  rule_id : bytes;
  version : Z;
  key_patterns : list bytes;
  max_result_bytes : Z;
  max_calls_per_hour : Z;
}.

Inductive PolicyRefusal :=
| NotReadOnly (offending : bytes)
| Unclassified
| NoKeyPatterns
| KeyNotListed (key : bytes)
| NoKeys
| ResultTooLarge (estimated limit : Z)
| RateLimited (used limit : Z)
| PlanExecutionIsAlwaysHuman.

(** The section sign is U+00A7. *)
Definition message (r : PolicyRefusal) : bytes :=
  match r with
  | NotReadOnly offending =>
      bs "a policy approval covers read-only requests; this one is " ++ offending
      ++ bs ". A person must approve it (" ++ [xc2; xa7] ++ bs "29.4)"
  | Unclassified =>
      bs "the local catalog does not classify this command, so its "
      ++ bs "effects are unknown; a policy cannot vouch for it (ADR-030)"
  | NoKeyPatterns => bs "this policy rule lists no key pattern, so it authorises nothing"
  | KeyNotListed k => k ++ bs " is not covered by a key pattern this policy lists"
  | NoKeys => bs "this request names no key, so no key pattern can cover it"
  | ResultTooLarge estimated limit =>
      bs "the estimated result is " ++ print_unsigned estimated
      ++ bs " bytes and this policy's limit is " ++ print_unsigned limit
  | RateLimited used limit =>
      bs "this policy allows " ++ print_unsigned limit ++ bs " calls per hour and "
      ++ print_unsigned used ++ bs " have been made"
  | PlanExecutionIsAlwaysHuman =>
      bs "every execute_approved_plan call needs a human-signed approval token whose "
      ++ bs "plan_hash matches, even when the plan only reads (" ++ [xc2; xa7] ++ bs "29.4)"
  end.

Definition beyond_read_only (e : Effects) : option bytes :=
  if unknown e then Some (bs "unclassified")
  else if writes_data e then Some (bs "a write")
  else if destructive e then Some (bs "destructive")
  else if consumes_state e then Some (bs "a consuming read")
  else if admin e then Some (bs "administrative")
  else if blocks e then Some (bs "potentially blocking")
  else None.

(** ** The glob matcher *)

(** The loop of [class] from index [i]: where it stops and whether [c] was
    met. *)
Fixpoint class_loop (fuel : nat) (p : bytes) (i : nat) (first hit : bool) (c : byte) : nat * bool :=
  match fuel with
  | O => (i, hit)
  | S f =>
      match p !! i with
      | None => (i, hit)
      | Some b =>
          if decide (b = "]"%byte /\ first = false) then (i, hit)
          else
            match p !! (i + 1)%nat with
            | Some b1 =>
                if decide (b = "\"%byte)
                then class_loop f p (i + 2) false (hit || bool_decide (b1 = c)) c
                else
                  match p !! (i + 2)%nat with
                  | Some b2 =>
                      if decide (b1 = "-"%byte /\ b2 <> "]"%byte)
                      then class_loop f p (i + 3) false
                             (hit || bool_decide (bz b <= bz c <= bz b2)) c
                      else class_loop f p (i + 1) false (hit || bool_decide (b = c)) c
                  | None => class_loop f p (i + 1) false (hit || bool_decide (b = c)) c
                  end
            | None => class_loop f p (i + 1) false (hit || bool_decide (b = c)) c
            end
      end
  end.

Definition class (p : bytes) (at_ : nat) (c : byte) : option (nat * bool) :=
  let i := S at_ in
  let negate := bool_decide (p !! i = Some "^"%byte) in
  let i := if negate then S i else i in
  let '(i, hit) := class_loop (length p) p i true false c in
  if decide (length p <= i)%nat then None else Some (S i, xorb hit negate).

(** [pi], [ki], [star] ([usize::MAX] is [None]) and [star_k]. *)
Record GlobState := mkGlob { pi : nat; ki : nat; star : option nat; star_k : nat }.

(** Back to just after the last star, which takes one byte more; [None] when
    there was no star. *)
Definition retry (st : GlobState) : option GlobState :=
  match star st with
  | None => None
  | Some s => Some (mkGlob (S s) (S (star_k st)) (Some s) (S (star_k st)))
  end.

Definition go (n : nat) (st : GlobState) : GlobState :=
  mkGlob n (S (ki st)) (star st) (star_k st).

(** One round of the main loop at the key byte [c]; [None] returns [false]. *)
Definition glob_round (p : bytes) (c : byte) (st : GlobState) : option GlobState :=
  match p !! pi st with
  | None => retry st
  | Some b =>
      if decide (b = "*"%byte) then Some (mkGlob (S (pi st)) (ki st) (Some (pi st)) (ki st))
      else if decide (b = "?"%byte) then Some (go (S (pi st)) st)
      else if decide (b = "["%byte) then
        match class p (pi st) c with
        | Some (next, true) => Some (go next st)
        | _ => retry st
        end
      else if decide (b = "\"%byte /\ p !! S (pi st) = Some c) then Some (go (S (S (pi st))) st)
      else if decide (b = c) then Some (go (S (pi st)) st)
      else retry st
  end.

(** The trailing loop: skip stars, then the pattern must be used up. *)
Fixpoint only_stars (p : bytes) : bool :=
  match p with
  | [] => true
  | b :: r => if decide (b = "*"%byte) then only_stars r else false
  end.

Fixpoint glob_loop (fuel : nat) (p k : bytes) (st : GlobState) : option bool :=
  match fuel with
  | O => None
  | S f =>
      match k !! ki st with
      | None => Some (only_stars (drop (pi st) p))
      | Some c =>
          match glob_round p c st with
          | None => Some false
          | Some st' => glob_loop f p k st'
          end
      end
  end.

Definition glob_fuel (p k : bytes) : nat := ((length k + 1) * (length p + 2))%nat.
Definition glob_init : GlobState := mkGlob 0 0 None 0.

Definition glob_bytes (p k : bytes) : bool :=
  default false (glob_loop (glob_fuel p k) p k glob_init).
Definition glob_match (pattern key : bytes) : bool := glob_bytes pattern key.

(** ** Authorisation *)

Fixpoint first_unlisted (patterns : list bytes) (keys : list bytes) : option bytes :=
  match keys with
  | [] => None
  | k :: r =>
      let key := encode_str (from_utf8_lossy k) in
      if existsb (fun p => glob_match p key) patterns then first_unlisted patterns r else Some key
  end.

Definition may_authorise (rule : PolicyRule) (req : CommandRequest) (keys : list bytes)
    (estimated_bytes calls_in_last_hour : Z) : result PolicyRefusal unit :=
  if unknown (effects req) then Err Unclassified
  else
    match beyond_read_only (effects req) with
    | Some offending => Err (NotReadOnly offending)
    | None =>
        if negb (reads_data (effects req)) then Err (NotReadOnly (bs "not a data read"))
        else
          match key_patterns rule, keys with
          | [], _ => Err NoKeyPatterns
          | _, [] => Err NoKeys
          | _, _ =>
              match first_unlisted (key_patterns rule) keys with
              | Some key => Err (KeyNotListed key)
              | None =>
                  if decide (estimated_bytes > max_result_bytes rule)
                  then Err (ResultTooLarge estimated_bytes (max_result_bytes rule))
                  else if decide (calls_in_last_hour >= max_calls_per_hour rule)
                  then Err (RateLimited calls_in_last_hour (max_calls_per_hour rule))
                  else Ok tt
              end
          end
    end.

(** [Result<Infallible, PolicyRefusal>]. *)
Definition may_authorise_plan_execution (rule : PolicyRule) : result PolicyRefusal Empty_set :=
  Err PlanExecutionIsAlwaysHuman.

(** ** What a glob means *)

(** A pattern read from the left: a star takes any bytes, a question mark or a
    class one, an escaped byte is itself, and so is any other byte, an escaping
    backslash excepted. *)
Inductive glob : bytes -> bytes -> Prop :=
| glob_end : glob [] []
| glob_star_end p k : glob p k -> glob ("*"%byte :: p) k
| glob_star_more p c k : glob ("*"%byte :: p) k -> glob ("*"%byte :: p) (c :: k)
| glob_any p c k : glob p k -> glob ("?"%byte :: p) (c :: k)
| glob_class p c k n :
    class ("["%byte :: p) 0 c = Some (n, true) -> glob (drop n ("["%byte :: p)) k ->
    glob ("["%byte :: p) (c :: k)
| glob_escape p c k : glob p k -> glob ("\"%byte :: c :: p) (c :: k)
| glob_literal p c k :
    (c ∉ ["*"; "?"; "["]%byte) -> (c = "\"%byte -> head p <> Some "\"%byte) ->
    glob p k -> glob (c :: p) (c :: k).

(** ** Classes *)

(** What a class lists, apart from the byte it is asked about: the index where
    it ends and the ranges it holds. *)
Fixpoint class_items (fuel : nat) (p : bytes) (i : nat) (first : bool) : nat * list (byte * byte) :=
  match fuel with
  | O => (i, [])
  | S f =>
      match p !! i with
      | None => (i, [])
      | Some b =>
          if decide (b = "]"%byte /\ first = false) then (i, [])
          else
            let '(n, next, item) :=
              match p !! (i + 1)%nat with
              | Some b1 =>
                  if decide (b = "\"%byte) then ((i + 2)%nat, false, (b1, b1))
                  else match p !! (i + 2)%nat with
                       | Some b2 => if decide (b1 = "-"%byte /\ b2 <> "]"%byte)
                                    then ((i + 3)%nat, false, (b, b2))
                                    else ((i + 1)%nat, false, (b, b))
                       | None => ((i + 1)%nat, false, (b, b))
                       end
              | None => ((i + 1)%nat, false, (b, b))
              end in
            let '(e, items) := class_items f p n next in (e, item :: items)
      end
  end.

Definition in_range (c : byte) (r : byte * byte) : bool := bool_decide (bz r.1 <= bz c <= bz r.2).

Lemma in_range_single b c : in_range c (b, b) = bool_decide (b = c).
Proof.
  unfold in_range. apply bool_decide_ext. simpl. split; [|intros ->; lia].
  intros Hc. apply bz_inj. lia.
Qed.

Lemma class_loop_items f p i first hit c :
  class_loop f p i first hit c =
  ((class_items f p i first).1, hit || existsb (in_range c) (class_items f p i first).2).
Proof.
  revert i first hit. induction f as [|f IH]; intros i first hit; cbn [class_loop class_items].
  { simpl. by rewrite orb_false_r. }
  destruct (p !! i) as [b|]; [|simpl; by rewrite orb_false_r].
  case_decide; [simpl; by rewrite orb_false_r|].
  destruct (p !! (i + 1)%nat) as [b1|]; [case_decide; [|destruct (p !! (i + 2)%nat) as [b2|]; [case_decide|]]|];
    rewrite IH; destruct (class_items f p _ false) as [e items]; cbn [fst snd existsb];
    rewrite ?in_range_single; by rewrite orb_assoc.
Qed.

(** The fuel given is enough: every round moves on. *)
Lemma class_items_fuel f g p i first :
  (length p <= f + i)%nat -> (length p <= g + i)%nat ->
  class_items f p i first = class_items g p i first.
Proof.
  revert g i first. induction f as [|f IH]; intros g i first Hf Hg.
  { assert (p !! i = None) as E by (apply lookup_ge_None; lia).
    destruct g; cbn [class_items]; [done|]. by rewrite E. }
  destruct g as [|g].
  { assert (p !! i = None) as E by (apply lookup_ge_None; lia). cbn [class_items]. by rewrite E. }
  cbn [class_items]. destruct (p !! i) as [b|]; [|done]. case_decide; [done|].
  destruct (p !! (i + 1)%nat) as [b1|]; [case_decide; [|destruct (p !! (i + 2)%nat) as [b2|]; [case_decide|]]|];
    rewrite (IH g) by lia; done.
Qed.

Lemma class_items_bounds f p i first :
  (i <= length p)%nat -> (i <= (class_items f p i first).1 <= length p)%nat.
Proof.
  revert i first. induction f as [|f IH]; intros i first Hi; cbn [class_items]; [simpl; lia|].
  destruct (p !! i) as [b|] eqn:E; [|simpl; lia]. apply lookup_lt_Some in E.
  case_decide; [simpl; lia|].
  destruct (p !! (i + 1)%nat) as [b1|] eqn:E1; [apply lookup_lt_Some in E1; case_decide;
    [|destruct (p !! (i + 2)%nat) as [b2|] eqn:E2; [apply lookup_lt_Some in E2; case_decide|]]|];
    match goal with |- context [class_items _ _ ?n false] =>
      specialize (IH n false ltac:(lia)); destruct (class_items f p n false) as [e items] end;
    simpl in *; lia.
Qed.

Lemma class_items_ge f p i first : (i <= (class_items f p i first).1)%nat.
Proof.
  revert i first. induction f as [|f IH]; intros i first; cbn [class_items]; [simpl; lia|].
  destruct (p !! i) as [b|]; [|simpl; lia]. case_decide; [simpl; lia|].
  destruct (p !! (i + 1)%nat) as [b1|]; [case_decide; [|destruct (p !! (i + 2)%nat) as [b2|];
    [case_decide|]]|];
    match goal with |- context [class_items _ _ ?n false] =>
      specialize (IH n false); destruct (class_items f p n false) as [e items] end;
    simpl in *; lia.
Qed.

Lemma class_items_drop f p i first k :
  class_items f (drop k p) i first =
  (((class_items f p (k + i) first).1 - k)%nat, (class_items f p (k + i) first).2).
Proof.
  revert i first. induction f as [|f IH]; intros i first; cbn [class_items]; [simpl; f_equal; lia|].
  rewrite !lookup_drop, !(Nat.add_assoc k).
  destruct (p !! (k + i)%nat) as [b|]; [|simpl; f_equal; lia]. case_decide; [simpl; f_equal; lia|].
  destruct (p !! (k + i + 1)%nat) as [b1|]; [case_decide; [|destruct (p !! (k + i + 2)%nat) as [b2|]; [case_decide|]]|];
    rewrite IH, Nat.add_assoc; by destruct (class_items f p _ false).
Qed.

(** A class as a prefix of the pattern: negation, the end and the ranges. *)
Definition class_of (p : bytes) (at_ : nat) : bool * nat * list (byte * byte) :=
  let negate := bool_decide (p !! S at_ = Some "^"%byte) in
  let '(e, items) := class_items (length p) p (if negate then S (S at_) else S at_) true in
  (negate, e, items).

Lemma class_spec p at_ c :
  class p at_ c =
  let '(negate, e, items) := class_of p at_ in
  if decide (length p <= e)%nat then None
  else Some (S e, xorb (existsb (in_range c) items) negate).
Proof.
  unfold class, class_of. rewrite class_loop_items.
  by destruct (class_items _ _ _ _) as [e items].
Qed.

Lemma class_drop p at_ c :
  class (drop at_ p) 0 c = prod_map (fun n => n - at_)%nat id <$> class p at_ c.
Proof.
  rewrite !class_spec. unfold class_of. rewrite !lookup_drop, length_drop.
  replace (at_ + 1)%nat with (S at_) by lia.
  set (neg := bool_decide (p !! S at_ = Some "^"%byte)).
  rewrite class_items_drop. replace (at_ + (if neg then 2 else 1))%nat with (if neg then S (S at_) else S at_)
    by (destruct neg; lia).
  rewrite (class_items_fuel (length p - at_) (length p)) by (destruct neg; lia).
  pose proof (class_items_ge (length p) p (if neg then S (S at_) else S at_) true) as Hge.
  destruct (class_items (length p) p _ true) as [e items]. cbn [fst snd] in *.
  assert (at_ < e)%nat by (destruct neg; lia).
  destruct (decide (length p <= e)%nat).
  - rewrite decide_True by lia. done.
  - rewrite decide_False by lia. simpl. do 2 f_equal. lia.
Qed.

Lemma class_next p at_ c n hit : class p at_ c = Some (n, hit) -> (at_ < n <= length p)%nat.
Proof.
  rewrite class_spec. unfold class_of.
  set (start := if bool_decide _ then _ else _).
  pose proof (class_items_ge (length p) p start true) as Hge.
  assert (at_ < start)%nat by (unfold start; case_bool_decide; lia).
  destruct (class_items (length p) p start true) as [e items]. simpl in *.
  case_decide; [done|]. intros [= <- _]. lia.
Qed.

Lemma class_same_next p at_ c c' n n' hit hit' :
  class p at_ c = Some (n, hit) -> class p at_ c' = Some (n', hit') -> n = n'.
Proof.
  rewrite !class_spec. destruct (class_of p at_) as [[neg e] items]. case_decide; [done|].
  by intros [= <- _] [= <- _].
Qed.

(** ** The loop *)

(** Its measure: bytes left to the star, then pattern left. *)
Definition glob_measure (p k : bytes) (st : GlobState) : nat :=
  ((length k - star_k st) * (length p + 2) + (length p + 1 - pi st))%nat.

Record glob_inv (p k : bytes) (st : GlobState) : Prop := {
  gi_pi : (pi st <= length p)%nat;
  gi_star : forall s, star st = Some s -> (s < length p)%nat;
  gi_order : (star_k st <= ki st <= length k)%nat;
}.

Lemma glob_round_inv p k c st st' :
  glob_inv p k st -> k !! ki st = Some c -> glob_round p c st = Some st' ->
  glob_inv p k st' /\ (glob_measure p k st' < glob_measure p k st)%nat.
Proof.
  intros [Hp Hs Ho] Hc. apply lookup_lt_Some in Hc as Hk.
  assert (forall st', retry st = Some st' ->
    glob_inv p k st' /\ (glob_measure p k st' < glob_measure p k st)%nat) as Hretry.
  { unfold retry. intros st2. destruct (star st) as [s|] eqn:E; [|done]. intros [= <-].
    pose proof (Hs s eq_refl). split.
    - constructor; simpl; [lia| |lia]. by intros ? [= <-].
    - unfold glob_measure. simpl.
      replace (length k - star_k st)%nat with (S (length k - S (star_k st)))%nat by lia. lia. }
  assert (forall n, (pi st < n <= length p)%nat ->
    glob_inv p k (go n st) /\ (glob_measure p k (go n st) < glob_measure p k st)%nat) as Hgo.
  { intros n Hn. split; [constructor; simpl; try done; lia|]. unfold glob_measure, go. simpl. lia. }
  unfold glob_round. destruct (p !! pi st) as [b|] eqn:Eb; [|apply Hretry].
  apply lookup_lt_Some in Eb as Hlt.
  case_decide; [intros [= <-]|].
  { split; [constructor; simpl; try lia; by intros ? [= <-]|]. unfold glob_measure. simpl.
    assert ((length k - ki st) * (length p + 2) <= (length k - star_k st) * (length p + 2))%nat
      by (apply Nat.mul_le_mono_r; lia). lia. }
  case_decide; [intros [= <-]; apply Hgo; lia|].
  case_decide.
  { destruct (class p (pi st) c) as [[n [|]]|] eqn:Ec; [|apply Hretry..].
    intros [= <-]. apply Hgo. apply class_next in Ec. lia. }
  case_decide as Hesc; [intros [= <-]; apply Hgo|].
  { destruct Hesc as [_ Hesc]. apply lookup_lt_Some in Hesc. lia. }
  case_decide; [intros [= <-]; apply Hgo; lia|apply Hretry].
Qed.

Lemma glob_loop_total f p k st :
  glob_inv p k st -> (glob_measure p k st < f)%nat ->
  forall g, (f <= g)%nat -> exists b, glob_loop f p k st = Some b /\ glob_loop g p k st = Some b.
Proof.
  revert st. induction f as [|f IH]; intros st Hi Hm g Hg; [lia|].
  destruct g as [|g]; [lia|]. cbn [glob_loop].
  destruct (k !! ki st) as [c|] eqn:Ec; [|by eexists].
  destruct (glob_round p c st) as [st'|] eqn:Er; [|by eexists].
  destruct (glob_round_inv _ _ _ _ _ Hi Ec Er) as [Hi' Hm']. apply IH; [done|lia|lia].
Qed.

Lemma glob_init_inv p k : glob_inv p k glob_init.
Proof. constructor; simpl; [lia|done|lia]. Qed.

Lemma glob_init_measure p k : (glob_measure p k glob_init < glob_fuel p k)%nat.
Proof. unfold glob_measure, glob_fuel. simpl. lia. Qed.

(** ** One token of the pattern *)

(** Where the token at [i] leads if it takes the byte [c]; not for stars. *)
Definition advance (p : bytes) (i : nat) (c : byte) : option nat :=
  b ← p !! i;
  if decide (b = "?"%byte) then Some (S i)
  else if decide (b = "["%byte) then
    match class p i c with
    | Some (n, true) => Some n
    | _ => None
    end
  else if decide (b = "\"%byte /\ p !! S i = Some c) then Some (S (S i))
  else if decide (b = c) then Some (S i)
  else None.

Lemma glob_round_advance p c st :
  p !! pi st <> Some "*"%byte ->
  glob_round p c st =
  match advance p (pi st) c with
  | Some n => Some (go n st)
  | None => retry st
  end.
Proof.
  unfold glob_round, advance. destruct (p !! pi st) as [b|]; simpl; [|done]. intros Hb.
  rewrite decide_False by congruence. repeat case_decide; try done.
  by destruct (class p (pi st) c) as [[n [|]]|].
Qed.

Lemma advance_glob p i c n l :
  p !! i <> Some "*"%byte -> advance p i c = Some n -> glob (drop n p) l -> glob (drop i p) (c :: l).
Proof.
  unfold advance. destruct (p !! i) as [b|] eqn:Eb; simpl; [|done].
  intros Hb. rewrite (drop_S p b i Eb). case_decide as H1.
  { subst b. intros [= <-] Hg. by constructor. }
  case_decide as H2.
  { subst b. destruct (class p i c) as [[m [|]]|] eqn:Ec; [|done..]. intros [= ->] Hg.
    rewrite <- (drop_S p _ i Eb). apply class_next in Ec as Hn.
    pose proof (class_drop p i c) as Hd. rewrite Ec in Hd. simpl in Hd.
    rewrite (drop_S p _ i Eb) in *. eapply glob_class; [exact Hd|].
    rewrite <- (drop_S p _ i Eb), drop_drop. by replace (i + (n - i))%nat with n by lia. }
  case_decide as H3.
  { destruct H3 as [-> H3]. intros [= <-] Hg. rewrite (drop_S p c (S i) H3). by constructor. }
  case_decide as H4; [|done]. subst b. intros [= <-] Hg. apply glob_literal; [|intros ->|done].
  - set_solver.
  - destruct (drop (S i) p) as [|d r] eqn:Ed; simpl; [done|]. intros [= ->]. apply H3. split; [done|].
    rewrite <- (Nat.add_0_r (S i)), <- lookup_drop, Ed. done.
Qed.

(** No backslash in the pattern can meet one in the key: the condition under
    which the matcher's two readings of a backslash never both apply. *)
Definition unambiguous (p k : bytes) : Prop := ("\"%byte ∉ k) \/ ("\"%byte ∉ p).

Lemma not_in_drop (b : byte) k n : (b ∉ k) -> (b ∉ drop n k).
Proof. intros Hb Hin. apply Hb. rewrite <- (take_drop n k). apply elem_of_app. by right. Qed.

Lemma unambiguous_drop p k n : unambiguous p k -> unambiguous p (drop n k).
Proof. intros [H|H]; [left; by apply not_in_drop|by right]. Qed.

Lemma glob_advance p i b l :
  p !! i = Some b -> b <> "*"%byte -> unambiguous p l -> glob (drop i p) l ->
  exists c r n, l = c :: r /\ advance p i c = Some n /\ glob (drop n p) r.
Proof.
  intros Eb Hb Hl Hg. unfold advance. rewrite Eb. simpl. rewrite (drop_S p b i Eb) in Hg.
  inversion Hg as [|q k Hq|q c k Hq|q c k Hq|q c k n Hc Hq|q c k Hq|q c k Hc1 Hc2 Hq]; subst; try done.
  - exists c, k, (S i). done.
  - exists c, k, (i + n)%nat. rewrite decide_False, decide_True by done.
    pose proof (class_drop p i c) as Hd. rewrite (drop_S p _ i Eb), Hc in Hd.
    destruct (class p i c) as [[m h]|] eqn:Ec; [|done]. simpl in Hd. injection Hd as -> <-.
    apply class_next in Ec. replace (i + (m - i))%nat with m in * by lia.
    split_and!; [done..|]. rewrite <- (drop_S p _ i Eb), drop_drop in Hq.
    by replace (i + (m - i))%nat with m in Hq by lia.
  - exists c, k, (S (S i)). match goal with H : _ :: _ = drop _ _ |- _ => rename H into Ed end.
    assert (p !! S i = Some c) as Ec by (rewrite <- (Nat.add_0_r (S i)), <- lookup_drop, <- Ed; done).
    rewrite decide_False, decide_False, decide_True by done. split_and!; [done..|].
    rewrite (drop_S p c (S i) Ec) in Ed. by injection Ed as ->.
  - exists b, k, (S i). rewrite decide_False, decide_False by set_solver.
    assert (b <> "\"%byte \/ p !! S i <> Some b) as Hesc.
    { destruct (decide (b = "\"%byte)) as [->|]; [|by left]. destruct Hl as [Hl|Hl]; [set_solver|].
      by apply list_elem_of_lookup_2 in Eb. }
    rewrite decide_False by naive_solver. by rewrite decide_True by done.
Qed.

Lemma advance_same p i c c' n n' :
  (c <> "\"%byte /\ c' <> "\"%byte \/ ("\"%byte ∉ p)) ->
  advance p i c = Some n -> advance p i c' = Some n' -> n = n'.
Proof.
  unfold advance. destruct (p !! i) as [b|] eqn:Eb; simpl; [|done]. intros Hcc.
  case_decide; [congruence|]. case_decide.
  { destruct (class p i c) as [[m [|]]|] eqn:E1; [|done..].
    destruct (class p i c') as [[m' [|]]|] eqn:E2; [|done..]. intros [= <-] [= <-].
    by eapply class_same_next. }
  destruct (decide (b = "\"%byte)) as [->|Hb].
  - destruct Hcc as [[Hc Hc']|Hp]; [|by apply list_elem_of_lookup_2 in Eb].
    case_decide; [|by rewrite decide_False by done]. intros [= <-].
    case_decide; [by intros [= <-]|]. by rewrite decide_False by done.
  - repeat case_decide; naive_solver.
Qed.

(** ** Soundness and completeness of the loop *)

Lemma glob_star_drop p k i j :
  (i <= j)%nat -> glob ("*"%byte :: p) (drop j k) -> glob ("*"%byte :: p) (drop i k).
Proof.
  intros Hij. replace j with (i + (j - i))%nat by lia. generalize (j - i)%nat as n. clear.
  intros n. revert i. induction n as [|n IH]; intros i Hg; [by rewrite Nat.add_0_r in Hg|].
  rewrite <- Nat.add_succ_comm in Hg. apply IH in Hg.
  destruct (k !! i) as [c|] eqn:E.
  - rewrite (drop_S k c i E). by constructor.
  - apply lookup_ge_None in E. rewrite drop_ge in * by lia. done.
Qed.

Lemma glob_star_inv p k i :
  (i <= length k)%nat -> glob ("*"%byte :: p) (drop i k) ->
  exists j, (i <= j <= length k)%nat /\ glob p (drop j k).
Proof.
  intros Hi Hg. remember ("*"%byte :: p) as q eqn:Eq. remember (drop i k) as l eqn:El.
  revert i Hi Eq El. induction Hg as [|q l Hg IH|q c l Hg IH| | | |q c l Hc _ _ _]; intros i Hi Eq El; try done.
  - injection Eq as ->. subst l. by exists i.
  - injection Eq as ->. destruct (k !! i) as [d|] eqn:E.
    + rewrite (drop_S k d i E) in El. injection El as <- ->. apply lookup_lt_Some in E.
      destruct (IH (S i)) as (j & Hj & Hgj); [lia|done|done|]. exists j. split; [lia|done].
    + apply lookup_ge_None in E. rewrite drop_ge in El by lia. done.
  - injection Eq as -> ->. set_solver.
Qed.

Lemma glob_nil p : glob p [] <-> only_stars p = true.
Proof.
  split.
  - intros Hg. remember [] as l eqn:E. induction Hg; try done. cbn [only_stars].
    rewrite decide_True by done. auto.
  - induction p as [|b p IH]; [constructor|]. cbn [only_stars]. case_decide; [|done].
    subst b. intros Ho. constructor. auto.
Qed.

Record glob_sound (p k : bytes) (st : GlobState) : Prop := {
  gs_here : glob (drop (pi st) p) (drop (ki st) k) -> glob p k;
  gs_star : forall s, star st = Some s ->
    forall j, (star_k st <= j)%nat -> glob (drop (S s) p) (drop j k) -> glob p k;
}.

Lemma glob_round_sound p k c st st' :
  k !! ki st = Some c -> glob_round p c st = Some st' -> glob_sound p k st -> glob_sound p k st'.
Proof.
  intros Hc Hr [Hh Hs]. destruct (decide (p !! pi st = Some "*"%byte)) as [Eb|Eb].
  - unfold glob_round in Hr. rewrite Eb, decide_True in Hr by done. injection Hr as <-.
    rewrite (drop_S p _ _ Eb) in Hh. constructor; simpl.
    + intros Hg. apply Hh. by constructor.
    + intros s [= <-] j Hj Hg. apply Hh. eapply glob_star_drop; [done|]. by constructor.
  - rewrite glob_round_advance in Hr by done. destruct (advance p (pi st) c) as [n|] eqn:En.
    + injection Hr as <-. constructor; simpl; [|done]. intros Hg. apply Hh.
      rewrite (drop_S k c _ Hc). by eapply advance_glob.
    + unfold retry in Hr. destruct (star st) as [s|]; [|done]. injection Hr as <-.
      constructor; simpl.
      * intros Hg. eapply (Hs s eq_refl (S (star_k st))); [lia|done].
      * intros s' [= <-] j Hj Hg. eapply (Hs s eq_refl j); [lia|done].
Qed.

Lemma glob_loop_sound f p k st : glob_sound p k st -> glob_loop f p k st = Some true -> glob p k.
Proof.
  revert st. induction f as [|f IH]; intros st Hs; cbn [glob_loop]; [done|].
  destruct (k !! ki st) as [c|] eqn:Ec.
  - destruct (glob_round p c st) as [st'|] eqn:Er; [|done]. apply IH. by eapply glob_round_sound.
  - intros [= Ho]. apply (gs_here _ _ _ Hs). apply lookup_ge_None in Ec.
    rewrite (drop_ge k) by lia. by apply glob_nil.
Qed.

(** A match of the whole that is not found from here starts further from the
    last star; and from wherever that star is left, the tokens since it take as
    many bytes. *)
Record glob_complete (p k : bytes) (st : GlobState) : Prop := {
  gc_here : glob p k -> glob (drop (pi st) p) (drop (ki st) k) \/
    exists s j, star st = Some s /\ (star_k st < j <= length k)%nat /\
                glob (drop (S s) p) (drop j k);
  gc_since : forall s j, star st = Some s -> (j <= length k)%nat -> glob (drop (S s) p) (drop j k) ->
    glob (drop (pi st) p) (drop (j + (ki st - star_k st)) k) /\
    (j + (ki st - star_k st) <= length k)%nat;
}.

Lemma glob_round_complete p k c st :
  unambiguous p k -> glob_inv p k st -> k !! ki st = Some c -> glob_complete p k st ->
  match glob_round p c st with
  | Some st' => glob_complete p k st'
  | None => ~ glob p k
  end.
Proof.
  intros Hk Hi Hc [Hh Hs]. pose proof (gi_order _ _ _ Hi) as Ho. apply lookup_lt_Some in Hc as Hlt.
  destruct (decide (p !! pi st = Some "*"%byte)) as [Eb|Eb].
  - unfold glob_round. rewrite Eb, decide_True by done. constructor; simpl.
    + intros Hg. assert (exists j, (ki st <= j <= length k)%nat /\ glob (drop (S (pi st)) p) (drop j k))
        as (j & Hj & Hgj).
      { destruct (Hh Hg) as [Hg'|(s & j & Es & Hj & Hg')].
        - rewrite (drop_S p _ _ Eb) in Hg'. apply glob_star_inv in Hg'; [done|lia].
        - destruct (Hs s j Es) as [Hg2 Hle]; [lia|done|]. rewrite (drop_S p _ _ Eb) in Hg2.
          apply glob_star_inv in Hg2 as (j' & Hj' & Hgj'); [|done]. exists j'. split; [lia|done]. }
      destruct (decide (j = ki st)) as [->|]; [by left|]. right. exists (pi st), j. split_and!; [done|lia|lia|done].
    + intros s j [= <-] Hj Hg. rewrite Nat.sub_diag, Nat.add_0_r. done.
  - rewrite glob_round_advance by done.
    assert (forall d q, k !! q = Some d -> c <> "\"%byte /\ d <> "\"%byte \/ ("\"%byte ∉ p)) as Hcb.
    { intros d q Ed. destruct Hk as [Hk|Hk]; [left|by right].
      split; intros ->; apply Hk; by eapply list_elem_of_lookup_2. }
    destruct (advance p (pi st) c) as [n|] eqn:En.
    + assert (exists b, p !! pi st = Some b) as [b Ep].
      { unfold advance in En. destruct (p !! pi st) as [b|]; [by exists b|done]. }
      assert (b <> "*"%byte) as Hb by congruence.
      assert (forall q, glob (drop (pi st) p) (drop q k) ->
        glob (drop n p) (drop (S q) k) /\ (q < length k)%nat) as Hone.
      { intros q Hg. destruct (glob_advance p (pi st) b _ Ep Hb (unambiguous_drop _ _ q Hk) Hg)
          as (d & r & n' & Eq & Ea & Hg').
        assert (k !! q = Some d) as Ed by (rewrite <- (Nat.add_0_r q), <- lookup_drop, Eq; done).
        rewrite (drop_S k d q Ed) in Eq. injection Eq as <-. apply lookup_lt_Some in Ed as Hq.
        assert (n = n') as -> by (eapply advance_same; [by eapply Hcb|exact En|exact Ea]). done. }
      constructor; cbn [go pi ki star star_k].
      * intros Hg. destruct (Hh Hg) as [Hg'|Hr]; [|by right]. left. by apply Hone.
      * intros s j Es Hj Hg. destruct (Hs s j Es Hj Hg) as [Hg' _]. apply Hone in Hg' as [Hg' Hlt'].
        replace (j + (S (ki st) - star_k st))%nat with (S (j + (ki st - star_k st))) by lia.
        split; [done|lia].
    + assert (~ glob (drop (pi st) p) (drop (ki st) k)) as Hno.
      { intros Hg. destruct (p !! pi st) as [b|] eqn:Ep.
        - destruct (glob_advance p (pi st) b _ Ep ltac:(congruence) (unambiguous_drop _ _ (ki st) Hk) Hg)
            as (d & r & n' & Eq & Ea & _).
          rewrite (drop_S k c _ Hc) in Eq. injection Eq as <- <-. congruence.
        - apply lookup_ge_None in Ep. rewrite (drop_ge p), (drop_S k c _ Hc) in Hg by lia.
          inversion Hg. }
      unfold retry. destruct (star st) as [s|] eqn:Es.
      * constructor; cbn [pi ki star star_k].
        -- intros Hg. destruct (Hh Hg) as [Hg'|(s' & j & [= <-] & Hj & Hg')]; [done|].
           destruct (decide (j = S (star_k st))) as [->|]; [by left|right].
           exists s, j. split_and!; [done|lia|lia|done].
        -- intros s' j [= <-] Hj Hg. by rewrite Nat.sub_diag, Nat.add_0_r.
      * intros Hg. destruct (Hh Hg) as [Hg'|(s' & j & [=] & _)]. done.
Qed.

Lemma glob_loop_complete f p k st :
  unambiguous p k -> glob_inv p k st -> glob_complete p k st ->
  glob_loop f p k st = Some false -> ~ glob p k.
Proof.
  intros Hk. revert st. induction f as [|f IH]; intros st Hi Hc; cbn [glob_loop]; [done|].
  destruct (k !! ki st) as [c|] eqn:Ec.
  - pose proof (glob_round_complete p k c st Hk Hi Ec Hc) as Hr.
    destruct (glob_round p c st) as [st'|] eqn:Er; [|done].
    apply IH; [|done]. by eapply glob_round_inv.
  - intros [= Ho] Hg. apply lookup_ge_None in Ec. pose proof (gi_order _ _ _ Hi) as Hord.
    assert (glob (drop (pi st) p) []) as Hg'.
    { destruct (gc_here _ _ _ Hc Hg) as [Hg'|(s & j & Es & Hj & Hg')].
      - by rewrite (drop_ge k) in Hg' by lia.
      - destruct (gc_since _ _ _ Hc s j Es) as [_ Hle]; [lia|done|]. lia. }
    apply glob_nil in Hg'. congruence.
Qed.

Lemma glob_match_sound p k : glob_match p k = true -> glob p k.
Proof.
  destruct (glob_loop_total (glob_fuel p k) p k glob_init (glob_init_inv p k) (glob_init_measure p k) _ (le_n _))
    as (b & E & _).
  unfold glob_match, glob_bytes. rewrite E. simpl. intros ->.
  eapply glob_loop_sound; [|exact E]. constructor; simpl; [done|]. by intros ? [=].
Qed.

Lemma glob_match_complete p k : unambiguous p k -> glob p k -> glob_match p k = true.
Proof.
  destruct (glob_loop_total (glob_fuel p k) p k glob_init (glob_init_inv p k) (glob_init_measure p k) _ (le_n _))
    as (b & E & _).
  unfold glob_match, glob_bytes. rewrite E. simpl. intros Hk Hg. destruct b; [done|]. exfalso.
  eapply glob_loop_complete; [done|apply glob_init_inv| |exact E|done].
  constructor; simpl; [intros ?; by left|]. by intros ? ? [=].
Qed.

(** ** The language of globs *)

(** A glob as its author means it, by tokens, and the text it is written as. *)
Inductive Item := IByte (c : byte) | IQuoted (c : byte) | IRange (lo hi : byte).
Inductive Token :=
| TkByte (c : byte)
| TkQuoted (c : byte)
| TkAny
| TkStar
| TkClass (negated : bool) (items : list Item).

Definition print_item (it : Item) : bytes :=
  match it with
  | IByte c => [c]
  | IQuoted c => ["\"%byte; c]
  | IRange lo hi => [lo; "-"%byte; hi]
  end.
Definition print_token (t : Token) : bytes :=
  match t with
  | TkByte c => [c]
  | TkQuoted c => ["\"%byte; c]
  | TkAny => ["?"%byte]
  | TkStar => ["*"%byte]
  | TkClass negated items =>
      "["%byte :: (if negated then ["^"%byte] else []) ++ (items ≫= print_item) ++ ["]"%byte]
  end.
Definition print_glob (g : list Token) : bytes := g ≫= print_token.

(** What can be written so that it reads back: a byte that is special is quoted,
    and a class is not empty, its ranges go up, and no byte of it reads as its
    end, its negation or a range. *)
Definition item_ok (it : Item) : Prop :=
  match it with
  | IByte c => c ∉ ["]"; "\"; "-"; "^"]%byte
  | IQuoted _ => True
  | IRange lo hi => (lo ∉ ["]"; "\"; "-"; "^"]%byte) /\ hi <> "]"%byte /\ bz lo <= bz hi
  end.
Definition token_ok (t : Token) : Prop :=
  match t with
  | TkByte c => c ∉ ["*"; "?"; "["; "\"]%byte
  | TkClass _ items => items <> [] /\ Forall item_ok items
  | _ => True
  end.

(** What it means. *)
Definition item_has (c : byte) (it : Item) : Prop :=
  match it with
  | IByte d | IQuoted d => c = d
  | IRange lo hi => bz lo <= bz c <= bz hi
  end.
Definition takes (t : Token) (c : byte) : Prop :=
  match t with
  | TkByte d | TkQuoted d => c = d
  | TkAny => True
  | TkStar => False
  | TkClass false items => Exists (item_has c) items
  | TkClass true items => ~ Exists (item_has c) items
  end.
Inductive matches : list Token -> bytes -> Prop :=
| matches_end : matches [] []
| matches_star g any k : matches g k -> matches (TkStar :: g) (any ++ k)
| matches_one t g c k : takes t c -> matches g k -> matches (t :: g) (c :: k).

Definition item_range (it : Item) : byte * byte :=
  match it with
  | IByte c | IQuoted c => (c, c)
  | IRange lo hi => (lo, hi)
  end.

Lemma item_head it r : item_ok it -> head (print_item it ++ r) <> Some "-"%byte /\
  head (print_item it ++ r) <> Some "]"%byte /\ head (print_item it ++ r) <> Some "^"%byte.
Proof. destruct it; simpl; intros H; split_and!; intros [= ->]; set_solver. Qed.

Lemma items_head its r : Forall item_ok its -> head ((its ≫= print_item) ++ "]"%byte :: r) <> Some "-"%byte.
Proof.
  destruct 1 as [|it its Hit _]; [done|]. cbn [mbind list_bind]. rewrite <- app_assoc. by apply item_head.
Qed.

(** One item of a class, read at its start. *)
Lemma class_items_item f it its r first :
  item_ok it -> Forall item_ok its ->
  class_items (S f) (print_item it ++ (its ≫= print_item) ++ "]"%byte :: r) 0 first =
  let '(e, items) := class_items f (print_item it ++ (its ≫= print_item) ++ "]"%byte :: r)
                       (length (print_item it)) false in
  (e, item_range it :: items).
Proof.
  intros Hit Hits. pose proof (items_head its r Hits) as Hh.
  set (tl := (its ≫= print_item) ++ "]"%byte :: r) in *.
  assert (tl <> []) as Hne by (unfold tl; by destruct (its ≫= print_item)).
  destruct it as [c|c|lo hi]; cbn [print_item app class_items lookup list_lookup Nat.add length]; simpl in Hit.
  - rewrite decide_False by set_solver. destruct tl as [|d tl']; [done|]. simpl in Hh.
    cbn [lookup list_lookup]. rewrite decide_False by set_solver. destruct tl' as [|d2 tl2]; cbn [lookup list_lookup].
    + done.
    + rewrite decide_False by (intros [-> _]; by apply Hh). done.
  - rewrite decide_False by (by intros [? _]). rewrite decide_True by done. done.
  - destruct Hit as (H1 & H2 & _). rewrite decide_False by set_solver. rewrite decide_False by set_solver.
    rewrite decide_True by done. done.
Qed.

Lemma class_items_print f its r first :
  Forall item_ok its -> (its <> [] \/ first = false) -> (length its < f)%nat ->
  class_items f ((its ≫= print_item) ++ "]"%byte :: r) 0 first =
  (length (its ≫= print_item), item_range <$> its).
Proof.
  intros Hits. revert f first. induction Hits as [|it its Hit Hits IH]; intros f first Hne Hf.
  - destruct f as [|f]; [simpl in Hf; lia|]. destruct Hne as [? | ->]; done.
  - destruct f as [|f]; [simpl in Hf; lia|]. cbn [mbind list_bind]. rewrite <- app_assoc.
    rewrite class_items_item by done. fold (its ≫= print_item).
    pose proof (class_items_drop f (print_item it ++ (its ≫= print_item) ++ "]"%byte :: r) 0 false
      (length (print_item it))) as Hd.
    rewrite drop_app_length, Nat.add_0_r in Hd.
    rewrite IH in Hd by (by right || (simpl in Hf; lia)).
    pose proof (class_items_ge f (print_item it ++ (its ≫= print_item) ++ "]"%byte :: r)
      (length (print_item it)) false) as Hge.
    destruct (class_items f _ (length (print_item it)) false) as [e items]. cbn [fst snd] in *.
    injection Hd as He <-. rewrite length_app, He. f_equal. lia.
Qed.

Lemma in_range_item c it : item_ok it -> in_range c (item_range it) = true <-> item_has c it.
Proof.
  destruct it as [d|d|lo hi]; intros _; unfold item_range; rewrite ?in_range_single, ?bool_decide_eq_true;
    simpl; try (split; congruence). unfold in_range. by rewrite bool_decide_eq_true.
Qed.

Lemma existsb_items c its :
  Forall item_ok its -> existsb (in_range c) (item_range <$> its) = true <-> Exists (item_has c) its.
Proof.
  induction 1 as [|it its Hit _ IH]; simpl; [by rewrite Exists_nil|].
  by rewrite orb_true_iff, Exists_cons, in_range_item, IH.
Qed.

Lemma items_long its : Forall item_ok its -> (length its <= length (its ≫= print_item))%nat.
Proof.
  induction 1 as [|it its _ _ IH]; [done|].
  change ((it :: its) ≫= print_item) with (print_item it ++ (its ≫= print_item)). rewrite length_app.
  cbn [length]. assert (1 <= length (print_item it))%nat by (destruct it; simpl; lia). lia.
Qed.

(** A printed class is read back: it ends at its bracket, and it holds the bytes
    it means. *)
Lemma class_print negated its r c :
  token_ok (TkClass negated its) ->
  exists hit, class (print_token (TkClass negated its) ++ r) 0 c =
    Some (length (print_token (TkClass negated its)), hit) /\
    (hit = true <-> takes (TkClass negated its) c).
Proof.
  intros [Hne Hits]. rewrite class_spec. unfold class_of.
  set (p := print_token (TkClass negated its) ++ r).
  assert (p = "["%byte :: (if negated then ["^"%byte] else []) ++ (its ≫= print_item) ++ "]"%byte :: r) as Ep.
  { unfold p. cbn [print_token app]. by rewrite <- !app_assoc. }
  assert (bool_decide (p !! 1%nat = Some "^"%byte) = negated) as ->.
  { rewrite Ep. destruct negated; [by apply bool_decide_eq_true|]. apply bool_decide_eq_false. cbn [app lookup list_lookup].
    destruct its as [|it its]; [done|]. apply Forall_cons in Hits as [Hit _]. cbn [mbind list_bind].
    rewrite <- app_assoc. pose proof (item_head it ((its ≫= print_item) ++ "]"%byte :: r) Hit) as (_ & _ & H).
    by destruct it. }
  set (start := if negated then 2%nat else 1%nat).
  assert (drop start p = (its ≫= print_item) ++ "]"%byte :: r) as Ed by (rewrite Ep; by destruct negated).
  pose proof (class_items_drop (length p) p 0 true start) as Hd. rewrite Ed, Nat.add_0_r in Hd.
  pose proof (items_long its Hits) as Hlong.
  assert (length p = start + length (its ≫= print_item) + 1 + length r)%nat as El.
  { rewrite Ep. cbn [length]. rewrite !length_app. cbn [length]. destruct negated; simpl; lia. }
  rewrite class_items_print in Hd by (done || by left || lia).
  pose proof (class_items_ge (length p) p start true) as Hge.
  destruct (class_items (length p) p start true) as [e items]. cbn [fst snd] in *.
  injection Hd as He <-. rewrite decide_False by lia. eexists. split.
  - f_equal. f_equal. cbn [print_token length]. rewrite !length_app. cbn [length]. destruct negated; simpl in *; lia.
  - pose proof (existsb_items c its Hits) as Hx. cbn [takes].
    destruct negated, (existsb (in_range c) (item_range <$> its)); simpl; naive_solver.
Qed.

Lemma print_glob_cons t g : print_glob (t :: g) = print_token t ++ print_glob g.
Proof. done. Qed.

Lemma unambiguous_tail p q k l : unambiguous (p ++ q) (l ++ k) -> unambiguous q k.
Proof. intros [H|H]; [left|right]; rewrite elem_of_app in H; tauto. Qed.

(** Written out, a glob matches what it means. *)
Lemma matches_glob g k : Forall token_ok g -> matches g k -> glob (print_glob g) k.
Proof.
  intros Hg Hm. revert Hg. induction Hm as [|g any k _ IH|t g c k Ht _ IH]; intros Hg; [constructor|..];
    apply Forall_cons in Hg as [Hok Hg]; rewrite print_glob_cons; specialize (IH Hg).
  - induction any as [|c any IHa]; cbn [app print_token]; [by apply glob_star_end|by apply glob_star_more].
  - destruct t as [d|d| | |negated its]; cbn [takes] in Ht; subst; cbn [print_token app].
    + apply glob_literal; [simpl in Hok; set_solver|intros ->; simpl in Hok; set_solver|done].
    + by apply glob_escape.
    + by apply glob_any.
    + done.
    + destruct (class_print negated its (print_glob g) c Hok) as (hit & Ec & Hh).
      assert (hit = true) as -> by (by apply Hh). cbn [print_token app] in Ec.
      eapply glob_class; [exact Ec|].
      change (glob (drop (length (print_token (TkClass negated its)))
        (print_token (TkClass negated its) ++ print_glob g)) k). by rewrite drop_app_length.
Qed.

Lemma glob_matches g k :
  Forall token_ok g -> unambiguous (print_glob g) k -> glob (print_glob g) k -> matches g k.
Proof.
  intros Hg. revert k. induction Hg as [|t g Hok Hg IH]; intros k Hu Hk.
  { inversion Hk. constructor. }
  rewrite print_glob_cons in *. destruct t as [d|d| | |negated its]; cbn [print_token app] in *; simpl in Hok.
  - inversion Hk; subst; try (exfalso; set_solver). apply matches_one; [done|].
    apply IH; [by apply (unambiguous_tail [d] _ _ [d])|done].
  - inversion Hk; subst.
    + apply matches_one; [done|]. apply IH; [|done]. eapply (unambiguous_tail ["\"%byte; d] _ _ [d]), Hu.
    + exfalso. destruct Hu as [Hu|Hu]; apply Hu; apply list_elem_of_here.
  - inversion Hk; subst; [|exfalso; set_solver]. apply matches_one; [done|].
    apply IH; [|done]. eapply (unambiguous_tail ["?"%byte] _ _ [_]), Hu.
  - apply (glob_star_inv _ k 0) in Hk as (j & Hj & Hk); [|lia].
    rewrite <- (take_drop j k). apply matches_star. apply IH; [|done].
    eapply (unambiguous_tail ["*"%byte] _ _ (take j k)). by rewrite take_drop.
  - inversion Hk as [| | | |q c l n Hc Hl| |q c l Hc]; subst; [|exfalso; set_solver].
    destruct (class_print negated its (print_glob g) c) as (hit & Ec & Hh); [done|].
    cbn [print_token app] in Ec. rewrite Ec in Hc. injection Hc as <- ->.
    change (glob (drop (length (print_token (TkClass negated its)))
      (print_token (TkClass negated its) ++ print_glob g)) l) in Hl. rewrite drop_app_length in Hl.
    apply matches_one; [by apply Hh|]. apply IH; [|done].
    apply (unambiguous_tail (print_token (TkClass negated its)) _ _ [c]). done.
Qed.

(** ** Authorisation *)

(** Some listed pattern, read as a glob, matches the key as displayed, and the
    matcher finds that it does. *)
Definition covered (patterns : list bytes) (k : bytes) : Prop :=
  exists p, p ∈ patterns /\ glob p (encode_str (from_utf8_lossy k)) /\
    glob_match p (encode_str (from_utf8_lossy k)) = true.

Lemma covered_existsb patterns k :
  existsb (fun p => glob_match p (encode_str (from_utf8_lossy k))) patterns = true <->
  covered patterns k.
Proof.
  rewrite existsb_exists. unfold covered. setoid_rewrite list_elem_of_In.
  split; [intros (p & Hp & Hm)|intros (p & Hp & _ & Hm)]; exists p; [|done].
  split; [done|]. split; [by apply glob_match_sound|done].
Qed.

(** Some listed glob means the key. *)
Definition listed (globs : list (list Token)) (k : bytes) : Prop := exists g, g ∈ globs /\ matches g k.

Lemma covered_listed globs k t :
  Forall (Forall token_ok) globs -> from_utf8 k = Some t ->
  Forall (fun g => unambiguous (print_glob g) k) globs ->
  covered (print_glob <$> globs) k <-> listed globs k.
Proof.
  intros Hok Ht Hu. unfold covered, listed.
  rewrite (from_utf8_lossy_valid k t Ht), (from_utf8_encode k t Ht).
  rewrite Forall_forall in Hok, Hu. split.
  - intros (p & (g & -> & Hg)%list_elem_of_fmap & Hp & _). exists g. split; [done|].
    apply glob_matches; auto.
  - intros (g & Hg & Hm). exists (print_glob g). split_and!; [by apply list_elem_of_fmap_2|..].
    + apply matches_glob; auto.
    + apply glob_match_complete; [auto|]. apply matches_glob; auto.
Qed.

Lemma first_unlisted_spec patterns keys :
  match first_unlisted patterns keys with
  | None => forall k, k ∈ keys -> covered patterns k
  | Some key => exists before k after, keys = before ++ k :: after /\
      key = encode_str (from_utf8_lossy k) /\ ~ covered patterns k /\
      forall k', k' ∈ before -> covered patterns k'
  end.
Proof.
  induction keys as [|k r IH]; cbn [first_unlisted]; [by intros k ?%elem_of_nil|].
  destruct (existsb _ patterns) eqn:E.
  - apply covered_existsb in E. destruct (first_unlisted patterns r) as [key|].
    + destruct IH as (b & k' & a & -> & -> & Hn & Hb). exists (k :: b), k', a. split_and!; try done.
      intros x [->|Hx]%elem_of_cons; auto.
    + intros x [->|Hx]%elem_of_cons; auto.
  - exists [], k, r. split_and!; try done; [|by intros ? ?%elem_of_nil].
    rewrite <- covered_existsb. congruence.
Qed.

(** The effects a policy may cover: reading data, and no other effect. *)
Lemma read_only_effects e :
  unknown e = false /\ beyond_read_only e = None /\ reads_data e = true <-> e = effects_read.
Proof.
  unfold beyond_read_only, effects_read. split; [|by intros ->].
  destruct e as [r w c b a d u]; simpl. intros (-> & H & ->).
  by destruct w, d, c, a, b.
Qed.

(** ** Findings *)

(** A backslash in a pattern also matches itself when the byte after it does
    not: a literal star opens onto every key that begins with a backslash. *)
Lemma escaped_star_matches_all :
  glob_match (bs "secret:\*") (bs "secret:\anything") = true /\
  glob_match (bs "secret:\a") (bs "secret:\a") = true.
Proof. vm_compute. auto. Qed.

(** An unterminated class is not a literal bracket: it matches nothing. *)
Lemma unterminated_class_matches_nothing :
  glob_match (bs "user[1") (bs "user[1") = false /\ glob_match (bs "[") (bs "[") = false.
Proof. vm_compute. auto. Qed.

(** Keys are compared after a lossy conversion: two keys that are not UTF-8 are
    covered by a pattern that names either. *)
Lemma lossy_keys_conflated :
  first_unlisted [[xef; xbf; xbd]] [[xff]; [xfe]] = None.
Proof. vm_compute. reflexivity. Qed.

(** ** Properties *)

(** The glob matcher always answers, for every pattern and key: its loop
    backtracks to one star at most once per byte of the key, so that it ends
    within [(|key| + 1) * (|pattern| + 2)] rounds, whatever more it is given. *)
Theorem glob_terminates p k fuel :
  (glob_fuel p k <= fuel)%nat -> glob_loop fuel p k glob_init = Some (glob_match p k).
Proof.
  intros Hf. unfold glob_match, glob_bytes.
  destruct (glob_loop_total (glob_fuel p k) p k glob_init (glob_init_inv p k) (glob_init_measure p k) fuel Hf)
    as (b & -> & ->). done.
Qed.

Lemma glob_terminates_witness :
  glob_loop 100 (bs "a*b") (bs "aab") glob_init = Some true.
Proof.
  rewrite (glob_terminates (bs "a*b") (bs "aab") 100); [vm_compute; reflexivity|].
  vm_compute. lia.
Defined.

(** Backtracking to the last star alone loses nothing.  A key the matcher
    accepts is matched by the pattern read as a glob, token by token with every
    choice of what its stars take; and, unless the pattern and the key both hold
    a backslash, a key is accepted whenever the glob matches it. *)
Theorem glob_match_exact p k :
  (glob_match p k = true -> glob p k) /\
  (unambiguous p k -> glob p k -> glob_match p k = true).
Proof. split; [apply glob_match_sound|apply glob_match_complete]. Qed.

Lemma glob_match_exact_witness :
  glob_match (bs "user:[0-9]*:\*") (bs "user:12:34:*") = true /\
  glob (bs "user:[0-9]*:\*") (bs "user:12:34:*").
Proof.
  split; [vm_compute; reflexivity|].
  apply (proj1 (glob_match_exact (bs "user:[0-9]*:\*") (bs "user:12:34:*"))). vm_compute. reflexivity.
Defined.

Lemma may_authorise_ok rule req keys estimated calls :
  may_authorise rule req keys estimated calls = Ok tt <->
     effects req = effects_read /\ key_patterns rule <> [] /\ keys <> [] /\
     (forall k, k ∈ keys -> covered (key_patterns rule) k) /\
     estimated <= max_result_bytes rule /\ calls < max_calls_per_hour rule.
Proof.
  unfold may_authorise. rewrite <- read_only_effects.
  destruct (unknown (effects req)); [split; naive_solver|].
  destruct (beyond_read_only (effects req)); [split; naive_solver|].
  destruct (reads_data (effects req)); cbn [negb]; [|split; naive_solver].
  destruct (key_patterns rule) as [|p ps]; [split; naive_solver|].
  destruct keys as [|k ks]; [split; naive_solver|].
  pose proof (first_unlisted_spec (p :: ps) (k :: ks)) as Hspec.
  destruct (first_unlisted (p :: ps) (k :: ks)) as [key|].
  - split; [done|]. destruct Hspec as (b & x & a & E & _ & Hn & _). intros (_ & _ & _ & Hall & _). exfalso.
    apply Hn, Hall. rewrite E. apply elem_of_app. right. apply list_elem_of_here.
  - repeat case_decide; split; try done; intros Hx; [destruct_and! Hx; lia..|]. split_and!; try done; lia.
Qed.

(** A rule of well-formed globs, asked about keys that are UTF-8; a glob and a
    key do not both hold a backslash. *)
Record listing (rule : PolicyRule) (globs : list (list Token)) (keys : list bytes) : Prop := mkListing {
  li_patterns : key_patterns rule = print_glob <$> globs;
  li_globs : Forall (Forall token_ok) globs;
  li_keys : Forall (fun k => from_utf8 k <> None) keys;
  li_plain : Forall (fun k => Forall (fun g => unambiguous (print_glob g) k) globs) keys;
}.

Lemma listing_covered rule globs keys k :
  listing rule globs keys -> k ∈ keys -> covered (key_patterns rule) k <-> listed globs k.
Proof.
  intros [-> Hg Hk Hu] Hin. rewrite Forall_forall in Hk, Hu. specialize (Hk k Hin).
  destruct (from_utf8 k) as [t|] eqn:Et; [|done]. eapply covered_listed; [done|exact Et|by apply Hu].
Qed.

(** C8. A rule authorises exactly the plain reads of the keys it lists.  Its
    patterns are well-formed globs, written as Redis writes them (bytes, quoted
    bytes, any byte, any bytes, classes of bytes and of ranges, negated or not),
    and the keys are UTF-8 and hold no backslash unless no pattern does
    ([escaped_star_matches_all], [unterminated_class_matches_nothing] and
    [lossy_keys_conflated] are what happens otherwise).  Then a request is
    authorised exactly if its effects are reading data and nothing else, the
    rule lists patterns and the request names keys, every key is what some
    listed glob means, and the estimate and the rate are within the rule; the key
    named in a refusal is the first one that no glob means. *)
Theorem may_authorise_exact rule req globs keys estimated calls :
  listing rule globs keys ->
  (may_authorise rule req keys estimated calls = Ok tt <->
     effects req = effects_read /\ globs <> [] /\ keys <> [] /\
     (forall k, k ∈ keys -> listed globs k) /\
     estimated <= max_result_bytes rule /\ calls < max_calls_per_hour rule) /\
  (forall key, may_authorise rule req keys estimated calls = Err (KeyNotListed key) ->
     exists before after, keys = before ++ key :: after /\
       ~ listed globs key /\ forall k', k' ∈ before -> listed globs k').
Proof.
  intros Hl. pose proof (listing_covered rule globs keys) as Hc. split.
  - rewrite may_authorise_ok. rewrite (li_patterns _ _ _ Hl) at 1.
    assert ((forall k, k ∈ keys -> covered (key_patterns rule) k) <-> (forall k, k ∈ keys -> listed globs k)) as ->.
    { split; intros H k Hk; by apply (Hc k Hl Hk), H. }
    assert (print_glob <$> globs <> [] <-> globs <> []) as -> by (by destruct globs). done.
  - intros key. unfold may_authorise.
    destruct (unknown _); [done|]. destruct (beyond_read_only _); [done|]. destruct (reads_data _); cbn [negb]; [|done].
    pose proof (first_unlisted_spec (key_patterns rule) keys) as Hspec.
    destruct (key_patterns rule) as [|p ps]; [done|]. destruct keys as [|k ks]; [done|].
    destruct (first_unlisted (p :: ps) (k :: ks)) as [k'|]; [|by repeat case_decide]. intros [= <-].
    destruct Hspec as (b & x & a & E & -> & Hn & Hb). exists b, a.
    assert (x ∈ k :: ks) as Hx by (rewrite E; set_solver).
    assert (encode_str (from_utf8_lossy x) = x) as ->.
    { pose proof (li_keys _ _ _ Hl) as Hk. rewrite Forall_forall in Hk. specialize (Hk x Hx).
      destruct (from_utf8 x) as [t|] eqn:Et; [|done].
      by rewrite (from_utf8_lossy_valid x t Et), (from_utf8_encode x t Et). }
    split_and!; [done|by rewrite <- (Hc x Hl Hx)|]. intros y Hy. apply (Hc y Hl); [|by apply Hb].
    rewrite E. apply elem_of_app. by left.
Qed.

Lemma may_authorise_exact_witness :
  let rule := mkRule (bs "r") 1 [bs "user:[0-9]*"] 100 10 in
  let globs := [(TkByte <$> bs "user:") ++ [TkClass false [IRange "0" "9"]; TkStar]] in
  let req := new_request [bs "GET"; bs "user:12"] Agent effects_read in
  listing rule globs [bs "user:12"] /\ may_authorise rule req [bs "user:12"] 50 3 = Ok tt.
Proof.
  intros rule globs req.
  assert (listing rule globs [bs "user:12"]) as Hl.
  { constructor.
    - vm_compute. reflexivity.
    - repeat (apply Forall_cons; split); try apply Forall_nil; simpl; try done; try set_solver.
      split; [done|]. apply Forall_singleton. simpl. split_and!; [set_solver|done|done].
    - apply Forall_singleton. by vm_compute.
    - apply Forall_singleton, Forall_singleton. left.
      apply (bool_decide_unpack (not ("\"%byte ∈ bs "user:12"))). by vm_compute. }
  split; [exact Hl|]. apply (proj1 (may_authorise_exact rule req globs [bs "user:12"] 50 3 Hl)).
  split_and!; try done. intros k ->%list_elem_of_singleton. exists ((TkByte <$> bs "user:") ++ [TkClass false [IRange "0" "9"]; TkStar]).
  split; [by apply list_elem_of_singleton|].
  repeat (apply matches_one; [done|]). apply matches_one; [|apply (matches_star [] (bs "2") []), matches_end].
  apply Exists_cons_hd. simpl. by vm_compute.
Defined.
