(* ===== verification/Json.v ===== *)
(** * The JSON document model ([crates/pr-json/src/dom.rs])

    A tree whose nodes carry the span of bytes they were read from, so that
    nothing is ever rebuilt.  The parser's position is its offset and the bytes
    from there on; a decoded key is a [str].  The recursion of [value] is bounded
    by the depth limit, its loops by the bytes left ([JsonGrammar] shows that
    they never run out of rounds). *)

From S2P Require Import Prelude Text.

Record Member (N : Type) := mkMember {
  key_span : nat * nat;
  key : str;
  occurrence : Z;
  occurrence_total : Z;
  member_value : N;
}.
Arguments mkMember {N}.
Arguments key_span {N}.
Arguments key {N}.
Arguments occurrence {N}.
Arguments occurrence_total {N}.
Arguments member_value {N}.

Inductive NodeKind (N : Type) :=
| JNull
| JBool (b : bool)
| JNumber
| JString
| JArray (items : list N)
| JObject (members : list (Member N)).
Arguments JNull {N}.
Arguments JBool {N}.
Arguments JNumber {N}.
Arguments JString {N}.
Arguments JArray {N}.
Arguments JObject {N}.

Inductive JsonNode := mkNode (span : nat * nat) (kind : NodeKind JsonNode).

Definition span (n : JsonNode) : nat * nat := let 'mkNode s _ := n in s.
Definition kind (n : JsonNode) : NodeKind JsonNode := let 'mkNode _ k := n in k.

Record Document := mkDocument { source : bytes; root : JsonNode }.

Inductive JsonError :=
| Syntax (at_ : nat) (msg : string)
| Eof
| DepthExceeded (max : nat)
| Trailing (at_ : nat)
| AmbiguousMember (name : str) (total : Z)
| NoSuchPath
| BadPath (msg : string).

Record Limits := mkLimits { max_depth : nat }.
Definition default_limits : Limits := mkLimits 128.

(** ** The scanner *)

Abbreviation cursor := (nat * bytes)%type.

Definition is_ws (b : byte) : bool := bool_decide (b ∈ [" "%byte; x09; x0a; x0d]).

Fixpoint skip_ws (i : nat) (s : bytes) : cursor :=
  match s with
  | b :: r => if is_ws b then skip_ws (S i) r else (i, s)
  | [] => (i, s)
  end.
Definition ws (c : cursor) : cursor := skip_ws c.1 c.2.

Definition peek (c : cursor) : result JsonError byte :=
  match c.2 with
  | b :: _ => Ok b
  | [] => Err Eof
  end.

(** [self.i += n]. *)
Definition bump (n : nat) (c : cursor) : cursor := ((c.1 + n)%nat, drop n c.2).

Definition eat (b : byte) (msg : string) (c : cursor) : result JsonError cursor :=
  let? x := peek c in
  if decide (x = b) then Ok (bump 1 c) else Err (Syntax c.1 msg).

Definition lit (s : bytes) (msg : string) (c : cursor) : result JsonError cursor :=
  if decide (take (length s) c.2 = s) then Ok (bump (length s) c) else Err (Syntax c.1 msg).

(** The four digits of an escape, from offset [i]. *)
Fixpoint hex_digits (n : nat) (i : nat) (s : bytes) : result JsonError unit :=
  match n with
  | O => Ok tt
  | S n' =>
      match s with
      | [] => Err Eof
      | h :: r => if is_ascii_hexdigit h then hex_digits n' (S i) r
                  else Err (Syntax i "bad \u escape")
      end
  end.

Definition simple_escape (e : byte) : bool :=
  bool_decide (e ∈ [x22; x5c; "/"; "b"; "f"; "n"; "r"; "t"]%byte).

(** The loop of [string_span], after the opening quote. *)
Fixpoint string_loop (i : nat) (s : bytes) : result JsonError cursor :=
  match s with
  | [] => Err Eof
  | c :: r =>
      if decide (c = x22) then Ok (S i, r)
      else if decide (c = x5c) then
        match r with
        | [] => Err Eof
        | e :: r1 =>
            if decide (e = "u"%byte) then
              match hex_digits 4 (i + 2) r1 with
              | Err er => Err er
              | Ok _ => match r1 with
                        | _ :: _ :: _ :: _ :: r5 => string_loop (i + 6) r5
                        | _ => Err Eof
                        end
              end
            else if simple_escape e then string_loop (i + 2) r1
            else Err (Syntax (i + 1) "bad escape")
        end
      else if decide (bz c <= 31) then Err (Syntax i "control char in string")
      else string_loop (S i) r
  end.

(** The span is the start and the position after. *)
Definition string_span (c : cursor) : result JsonError cursor :=
  let? c1 := eat x22 "expected string" c in
  string_loop c1.1 c1.2.

(** [while digit { i += 1 }]. *)
Definition skip_number (c : cursor) : cursor :=
  let '(n, r) := skip_digits c.2 in ((c.1 + n)%nat, r).

Definition head_is (p : byte -> bool) (c : cursor) : bool :=
  match c.2 with
  | b :: _ => p b
  | [] => false
  end.

Definition number_int (c : cursor) : result JsonError cursor :=
  let? b := peek c in
  let c := if decide (b = "-"%byte) then bump 1 c else c in
  let? b := peek c in
  if decide (b = "0"%byte) then Ok (bump 1 c)
  else if decide (49 <= bz b <= 57) then Ok (skip_number c)
  else Err (Syntax c.1 "expected digit").

Definition number_frac (c : cursor) : result JsonError cursor :=
  if head_is (fun b => bool_decide (b = "."%byte)) c then
    let c := bump 1 c in
    let c' := skip_number c in
    if decide (c'.1 = c.1) then Err (Syntax c'.1 "expected digit after '.'") else Ok c'
  else Ok c.

Definition number_exp (c : cursor) : result JsonError cursor :=
  if head_is (fun b => bool_decide (b = "e"%byte \/ b = "E"%byte)) c then
    let c := bump 1 c in
    let c := if head_is (fun b => bool_decide (b = "+"%byte \/ b = "-"%byte)) c then bump 1 c else c in
    let c' := skip_number c in
    if decide (c'.1 = c.1) then Err (Syntax c'.1 "expected digit in exponent") else Ok c'
  else Ok c.

Definition number_span (c : cursor) : result JsonError cursor :=
  let? c1 := number_int c in
  let? c2 := number_frac c1 in
  number_exp c2.

(** ** Decoding a string token *)

(** [u16::from_str_radix(_, 16)] of four bytes. *)
Fixpoint hex_from (acc : Z) (s : bytes) : option Z :=
  match s with
  | [] => Some acc
  | b :: r => match hex_value b with
              | Some d => hex_from (acc * 16 + d) r
              | None => None
              end
  end.
Definition hex_u16 (s : bytes) : option Z :=
  let body := match s with
              | b :: r => if decide (b = "+"%byte) then r else s
              | [] => s
              end in
  match body with
  | [] => None
  | _ => hex_from 0 body
  end.

(** The four bytes of [inner.get(i..i + 4)]. *)
Definition get4 (s : bytes) : option bytes :=
  if decide (4 <= length s)%nat then Some (take 4 s) else None.

(** The character of a [\u] escape whose digits begin at [s], and what follows. *)
Definition unicode_escape (s : bytes) : option (Z * bytes) :=
  hex ← get4 s;
  hi ← hex_u16 hex;
  let s := drop 4 s in
  if decide (55296 <= hi < 56320) then
    if decide (take 2 s = [x5c; "u"%byte]) then
      hex2 ← get4 (drop 2 s);
      lo ← hex_u16 hex2;
      if decide (56320 <= lo < 57344)
      then Some (65536 + (hi - 55296) * 1024 + (lo - 56320), drop 6 s)
      else None
    else None
  else if decide (56320 <= hi < 57344) then None
  else Some (hi, s).

Definition escaped_char (e : byte) : option Z :=
  if decide (e = x22) then Some 34
  else if decide (e = x5c) then Some 92
  else if decide (e = "/"%byte) then Some 47
  else if decide (e = "b"%byte) then Some 8
  else if decide (e = "f"%byte) then Some 12
  else if decide (e = "n"%byte) then Some 10
  else if decide (e = "r"%byte) then Some 13
  else if decide (e = "t"%byte) then Some 9
  else None.

Fixpoint decode_loop (fuel : nat) (s : bytes) : option str :=
  match fuel with
  | O => Some []
  | S f =>
      match s with
      | [] => Some []
      | c :: r =>
          if decide (c <> x5c) then
            match from_utf8 s with
            | Some (ch :: _) => cons ch <$> decode_loop f (drop (length (encode_char ch)) s)
            | _ => None
            end
          else
            match r with
            | [] => None
            | e :: r1 =>
                if decide (e = "u"%byte) then
                  '(ch, r2) ← unicode_escape r1;
                  cons ch <$> decode_loop f r2
                else
                  ch ← escaped_char e;
                  cons ch <$> decode_loop f r1
            end
      end
  end.

(** [tok.get(1..len - 1)]. *)
Definition inner (tok : bytes) : option bytes :=
  if decide (1 <= length tok - 1)%nat then Some (take (length tok - 2) (drop 1 tok)) else None.

Definition decode_string (tok : bytes) : option str :=
  s ← inner tok; decode_loop (length s) s.

(** ** Occurrences *)

Definition count_key (totals : gmap str Z) (k : str) : gmap str Z :=
  <[k := default 0 (totals !! k) + 1]> totals.

Definition totals_of (ks : list str) : gmap str Z := foldl count_key ∅ ks.

Definition number_member (totals : gmap str Z) (seen : gmap str Z)
    (m : (nat * nat) * str * JsonNode) : Member JsonNode * gmap str Z :=
  let '(ks, k, v) := m in
  let n := default 0 (seen !! k) + 1 in
  (mkMember ks k n (default 1 (totals !! k)) v, <[k := n]> seen).

Fixpoint number_members (totals seen : gmap str Z) (ms : list ((nat * nat) * str * JsonNode))
  : list (Member JsonNode) :=
  match ms with
  | [] => []
  | m :: r => let '(m', seen') := number_member totals seen m in
              m' :: number_members totals seen' r
  end.

Definition members_of (raw : list ((nat * nat) * str * JsonNode)) : list (Member JsonNode) :=
  number_members (totals_of ((fun m => m.1.2) <$> raw)) ∅ raw.

(** ** Values *)

(** The bytes of a token that began with [s] and ended where [r] begins. *)
Definition token (s r : bytes) : bytes := take (length s - length r) s.

Section loops.
Context (value : cursor -> result JsonError (JsonNode * cursor)).

Fixpoint items_loop (rounds : nat) (acc : list JsonNode) (c : cursor)
  : result JsonError (list JsonNode * cursor) :=
  match rounds with
  | O => Err Eof
  | S f =>
      let? vc := value c in
      let acc := acc ++ [vc.1] in
      let c := ws vc.2 in
      let? b := peek c in
      if decide (b = ","%byte) then items_loop f acc (bump 1 c)
      else if decide (b = "]"%byte) then Ok (acc, bump 1 c)
      else Err (Syntax c.1 "expected ',' or ']'")
  end.

Definition raw_member (c : cursor) : result JsonError ((nat * nat) * str * JsonNode * cursor) :=
  let c := ws c in
  let? ce := string_span c in
  match decode_string (token c.2 ce.2) with
  | None => Err (Syntax c.1 "bad key escape")
  | Some k =>
      let? cv := eat ":" "expected ':'" (ws ce) in
      let? vc := value cv in
      Ok ((c.1, ce.1), k, vc.1, vc.2)
  end.

Fixpoint members_loop (rounds : nat) (acc : list ((nat * nat) * str * JsonNode)) (c : cursor)
  : result JsonError (list ((nat * nat) * str * JsonNode) * cursor) :=
  match rounds with
  | O => Err Eof
  | S f =>
      let? mc := raw_member c in
      let acc := acc ++ [mc.1] in
      let c := ws mc.2 in
      let? b := peek c in
      if decide (b = ","%byte) then members_loop f acc (bump 1 c)
      else if decide (b = "}"%byte) then Ok (acc, bump 1 c)
      else Err (Syntax c.1 "expected ',' or '}'")
  end.

Definition array (c : cursor) : result JsonError (list JsonNode * cursor) :=
  let c := ws (bump 1 c) in
  let? b := peek c in
  if decide (b = "]"%byte) then Ok ([], bump 1 c) else items_loop (S (length c.2)) [] c.

Definition object (c : cursor) : result JsonError (list (Member JsonNode) * cursor) :=
  let c := ws (bump 1 c) in
  let? b := peek c in
  if decide (b = "}"%byte) then Ok ([], bump 1 c)
  else let? mc := members_loop (S (length c.2)) [] c in Ok (members_of mc.1, mc.2).

(** The match on the first byte. *)
Definition value_at (c : cursor) : result JsonError (JsonNode * cursor) :=
  let? b := peek c in
  if decide (b = "n"%byte) then
    let? e := lit (bs "null") "expected null" c in Ok (mkNode (c.1, e.1) JNull, e)
  else if decide (b = "t"%byte) then
    let? e := lit (bs "true") "expected true" c in Ok (mkNode (c.1, e.1) (JBool true), e)
  else if decide (b = "f"%byte) then
    let? e := lit (bs "false") "expected false" c in Ok (mkNode (c.1, e.1) (JBool false), e)
  else if decide (b = x22) then
    let? e := string_span c in Ok (mkNode (c.1, e.1) JString, e)
  else if decide (b = "-"%byte \/ 48 <= bz b <= 57) then
    let? e := number_span c in Ok (mkNode (c.1, e.1) JNumber, e)
  else if decide (b = "["%byte) then
    let? ie := array c in Ok (mkNode (c.1, ie.2.1) (JArray ie.1), ie.2)
  else if decide (b = "{"%byte) then
    let? me := object c in Ok (mkNode (c.1, me.2.1) (JObject me.1), me.2)
  else Err (Syntax c.1 "unexpected token").
End loops.

(** [left] is how many more levels the limit [max] allows. *)
Fixpoint value (max left : nat) (c : cursor) : result JsonError (JsonNode * cursor) :=
  match left with
  | O => Err (DepthExceeded max)
  | S l => value_at (value max l) (ws c)
  end.

(** ** Documents *)

Definition parse (src : bytes) (lim : Limits) : result JsonError Document :=
  let? rc := value (max_depth lim) (max_depth lim) (0%nat, src) in
  let c := ws rc.2 in
  if decide (c.1 <> length src) then Err (Trailing c.1) else Ok (mkDocument src rc.1).

(** [trim_ascii]. *)
Fixpoint trim_ascii_start (s : bytes) : bytes :=
  match s with
  | b :: r => if is_ascii_whitespace b then trim_ascii_start r else s
  | [] => []
  end.
Definition trim_ascii (s : bytes) : bytes :=
  reverse (trim_ascii_start (reverse (trim_ascii_start s))).

Definition looks_like_json (b : bytes) : bool :=
  let t := trim_ascii b in
  match t with
  | c :: _ => bool_decide (c = "{"%byte \/ c = "["%byte) && is_ok (parse t default_limits)
  | [] => false
  end.

Definition slice (sp : nat * nat) (s : bytes) : bytes := take (sp.2 - sp.1) (drop sp.1 s).

Definition raw (d : Document) (n : JsonNode) : bytes := slice (span n) (source d).

Definition number_lexeme (d : Document) (n : JsonNode) : option str :=
  match kind n with
  | JNumber => from_utf8 (raw d n)
  | _ => None
  end.

Definition string_value (d : Document) (n : JsonNode) : option str :=
  match kind n with
  | JString => decode_string (raw d n)
  | _ => None
  end.

Fixpoint collect_dups (n : JsonNode) : list (str * Z) :=
  let 'mkNode _ k := n in
  match k with
  | JObject ms =>
      ms ≫= fun m =>
        (if decide (occurrence m = 1 /\ occurrence_total m > 1)
         then [(key m, occurrence_total m)] else []) ++ collect_dups (member_value m)
  | JArray items => items ≫= collect_dups
  | _ => []
  end.

Definition duplicate_members (d : Document) : list (str * Z) := collect_dups (root d).
