(* ===== verification/JsonGrammar.v ===== *)
(** * What the JSON parser accepts, and the tree it builds

    The grammar of JSON texts as a printed tree that keeps every blank and every
    lexeme, and where [Json.value] puts its nodes.  [value_sound] and
    [value_complete] say that the parser is that grammar read backwards. *)

From S2P Require Import Prelude Text TextFacts Json.

(** ** The grammar *)

Definition blank (w : bytes) : Prop := Forall (fun b => is_ws b = true) w.
Definition digits_text (ds : bytes) : Prop := Forall (fun b => is_ascii_digit b = true) ds.

Definition int_text (ds : bytes) : Prop :=
  ds = ["0"%byte] \/ exists d r, ds = d :: r /\ 49 <= bz d <= 57 /\ digits_text r.
Definition frac_text (s : bytes) : Prop :=
  s = [] \/ exists ds, s = "."%byte :: ds /\ ds <> [] /\ digits_text ds.
Definition exp_text (s : bytes) : Prop :=
  s = [] \/ exists e sign ds, s = e :: sign ++ ds /\ (e = "e"%byte \/ e = "E"%byte) /\
    (sign = [] \/ sign = ["+"%byte] \/ sign = ["-"%byte]) /\ ds <> [] /\ digits_text ds.
Definition number_text (s : bytes) : Prop :=
  exists sign int frac exp, s = sign ++ int ++ frac ++ exp /\
    (sign = [] \/ sign = ["-"%byte]) /\ int_text int /\ frac_text frac /\ exp_text exp.

Inductive string_body : bytes -> Prop :=
| body_end : string_body []
| body_plain c r : c <> x22 -> c <> x5c -> 31 < bz c -> string_body r -> string_body (c :: r)
| body_escape e r : simple_escape e = true -> string_body r -> string_body (x5c :: e :: r)
| body_unicode h1 h2 h3 h4 r :
    Forall (fun h => is_ascii_hexdigit h = true) [h1; h2; h3; h4] -> string_body r ->
    string_body (x5c :: "u"%byte :: h1 :: h2 :: h3 :: h4 :: r).
Definition string_text (s : bytes) : Prop := exists b, s = x22 :: b ++ [x22] /\ string_body b.

Record titem (T : Type) := mkItem { ti_before : bytes; ti_value : T; ti_after : bytes }.
Arguments mkItem {T}.
Arguments ti_before {T}.
Arguments ti_value {T}.
Arguments ti_after {T}.

(** A member: blanks, the key, blanks, the colon, then an item. *)
Record tmember (T : Type) := mkTMember {
  tm_before : bytes; tm_key : bytes; tm_gap : bytes; tm_item : titem T
}.
Arguments mkTMember {T}.
Arguments tm_before {T}.
Arguments tm_key {T}.
Arguments tm_gap {T}.
Arguments tm_item {T}.

Inductive tree :=
| TNull
| TBool (b : bool)
| TNumber (lexeme : bytes)
| TString (lexeme : bytes)
| TArray0 (w : bytes)
| TArray (items : list (titem tree))
| TObject0 (w : bytes)
| TObject (ms : list (tmember tree)).

Section tree_induction.
Context (P : tree -> Prop).
Context (Hnull : P TNull) (Hbool : forall b, P (TBool b)) (Hnum : forall l, P (TNumber l))
  (Hstr : forall l, P (TString l)) (Harr0 : forall w, P (TArray0 w))
  (Harr : forall items, Forall (fun it => P (ti_value it)) items -> P (TArray items))
  (Hobj0 : forall w, P (TObject0 w))
  (Hobj : forall ms, Forall (fun m => P (ti_value (tm_item m))) ms -> P (TObject ms)).

Fixpoint tree_ind' (t : tree) : P t :=
  match t with
  | TNull => Hnull
  | TBool b => Hbool b
  | TNumber l => Hnum l
  | TString l => Hstr l
  | TArray0 w => Harr0 w
  | TArray items =>
      Harr items ((fix go l : Forall (fun it => P (ti_value it)) l :=
        match l with
        | [] => Forall_nil_2 _
        | it :: r => Forall_cons_2 _ it r (tree_ind' (ti_value it)) (go r)
        end) items)
  | TObject0 w => Hobj0 w
  | TObject ms =>
      Hobj ms ((fix go l : Forall (fun m => P (ti_value (tm_item m))) l :=
        match l with
        | [] => Forall_nil_2 _
        | m :: r => Forall_cons_2 _ m r (tree_ind' (ti_value (tm_item m))) (go r)
        end) ms)
  end.
End tree_induction.

Definition print_item (pr : tree -> bytes) (it : titem tree) : bytes :=
  ti_before it ++ pr (ti_value it) ++ ti_after it.
Definition print_member (pr : tree -> bytes) (m : tmember tree) : bytes :=
  tm_before m ++ tm_key m ++ tm_gap m ++ ":"%byte :: print_item pr (tm_item m).

Fixpoint print (t : tree) : bytes :=
  match t with
  | TNull => bs "null"
  | TBool true => bs "true"
  | TBool false => bs "false"
  | TNumber l | TString l => l
  | TArray0 w => "["%byte :: w ++ ["]"%byte]
  | TArray items => "["%byte :: join [","%byte] (print_item print <$> items) ++ ["]"%byte]
  | TObject0 w => "{"%byte :: w ++ ["}"%byte]
  | TObject ms => "{"%byte :: join [","%byte] (print_member print <$> ms) ++ ["}"%byte]
  end.

Fixpoint depth (t : tree) : nat :=
  match t with
  | TArray items => S (foldr (fun it n => Nat.max (depth (ti_value it)) n) 0%nat items)
  | TObject ms => S (foldr (fun m n => Nat.max (depth (ti_value (tm_item m))) n) 0%nat ms)
  | _ => 1%nat
  end.

Definition key_of (m : tmember tree) : str := default [] (decode_string (tm_key m)).

Definition item_wf (ok : tree -> Prop) (it : titem tree) : Prop :=
  blank (ti_before it) /\ ok (ti_value it) /\ blank (ti_after it).
Definition member_wf (ok : tree -> Prop) (m : tmember tree) : Prop :=
  blank (tm_before m) /\ string_text (tm_key m) /\ blank (tm_gap m) /\ item_wf ok (tm_item m).

(** The grammar: any string may name a member, a lone surrogate escape
    included. *)
Fixpoint wf (t : tree) : Prop :=
  match t with
  | TNull | TBool _ => True
  | TNumber l => number_text l
  | TString l => string_text l
  | TArray0 w | TObject0 w => blank w
  | TArray items => items <> [] /\ foldr (fun it Q => item_wf wf it /\ Q) True items
  | TObject ms => ms <> [] /\ foldr (fun m Q => member_wf wf m /\ Q) True ms
  end.

(** Every member's name denotes Unicode text. *)
Fixpoint names_decode (t : tree) : Prop :=
  match t with
  | TArray items => foldr (fun it Q => names_decode (ti_value it) /\ Q) True items
  | TObject ms =>
      foldr (fun m Q => (decode_string (tm_key m) <> None /\ names_decode (ti_value (tm_item m))) /\ Q)
        True ms
  | _ => True
  end.

(** Both at once: what the parser keeps. *)
Definition member_readable (ok : tree -> Prop) (m : tmember tree) : Prop :=
  blank (tm_before m) /\ string_text (tm_key m) /\ decode_string (tm_key m) <> None /\
  blank (tm_gap m) /\ item_wf ok (tm_item m).

Fixpoint readable (t : tree) : Prop :=
  match t with
  | TNull | TBool _ => True
  | TNumber l => number_text l
  | TString l => string_text l
  | TArray0 w | TObject0 w => blank w
  | TArray items => items <> [] /\ foldr (fun it Q => item_wf readable it /\ Q) True items
  | TObject ms => ms <> [] /\ foldr (fun m Q => member_readable readable m /\ Q) True ms
  end.

Lemma foldr_and_split {A} (P Q R : A -> Prop) l :
  Forall (fun a => P a <-> Q a /\ R a) l ->
  foldr (fun a X => P a /\ X) True l <->
  foldr (fun a X => Q a /\ X) True l /\ foldr (fun a X => R a /\ X) True l.
Proof. induction 1 as [|a l H _ IH]; cbn [foldr]; [tauto|]. rewrite H, IH. tauto. Qed.

Lemma readable_spec t : readable t <-> wf t /\ names_decode t.
Proof.
  induction t as [|b|l|l|w|items IH|w|ms IH] using tree_ind'; cbn [readable wf names_decode]; try tauto.
  - rewrite foldr_and_split with (Q := item_wf wf) (R := fun it => names_decode (ti_value it)); [tauto|].
    eapply Forall_impl; [exact IH|]. cbn beta. unfold item_wf. intros it ->. tauto.
  - rewrite foldr_and_split with (Q := member_wf wf)
      (R := fun m => decode_string (tm_key m) <> None /\ names_decode (ti_value (tm_item m))); [tauto|].
    eapply Forall_impl; [exact IH|]. cbn beta. unfold member_readable, member_wf, item_wf.
    intros m ->. tauto.
Qed.

(** ** Where its nodes are *)

Section place.
Context (place : nat -> tree -> JsonNode).

Fixpoint place_items (off : nat) (items : list (titem tree)) : list JsonNode :=
  match items with
  | [] => []
  | it :: r => place (off + length (ti_before it)) (ti_value it)
               :: place_items (off + length (print_item print it) + 1) r
  end.

Fixpoint place_members (off : nat) (ms : list (tmember tree))
  : list ((nat * nat) * str * JsonNode) :=
  match ms with
  | [] => []
  | m :: r =>
      let k := (off + length (tm_before m))%nat in
      let v := (k + length (tm_key m) + length (tm_gap m) + 1)%nat in
      ((k, (k + length (tm_key m))%nat), key_of m,
       place (v + length (ti_before (tm_item m))) (ti_value (tm_item m)))
      :: place_members (off + length (print_member print m) + 1) r
  end.
End place.

Fixpoint place (off : nat) (t : tree) : JsonNode :=
  mkNode (off, (off + length (print t))%nat)
    (match t with
     | TNull => JNull
     | TBool b => JBool b
     | TNumber _ => JNumber
     | TString _ => JString
     | TArray0 _ => JArray []
     | TArray items => JArray (place_items place (S off) items)
     | TObject0 _ => JObject []
     | TObject ms => JObject (members_of (place_members place (S off) ms))
     end).

(** ** Scanner lemmas *)

(** What may follow a number: not a byte that would continue it. *)
Definition stops (r : bytes) : Prop :=
  match r with
  | [] => True
  | b :: _ => is_ascii_digit b = false /\ b <> "."%byte /\ b <> "e"%byte /\ b <> "E"%byte
  end.

Lemma skip_ws_spec i s : exists w r, s = w ++ r /\ blank w /\ skip_ws i s = ((i + length w)%nat, r) /\
  match r with b :: _ => is_ws b = false | [] => True end.
Proof.
  revert i. induction s as [|b s IH]; intros i; cbn [skip_ws].
  - exists [], []. rewrite Nat.add_0_r. split_and!; try done. constructor.
  - destruct (is_ws b) eqn:E.
    + destruct (IH (S i)) as (w & r & -> & Hw & -> & Hr). exists (b :: w), r.
      split_and!; try done; [by constructor|]. f_equal. simpl. lia.
    + exists [], (b :: s). rewrite Nat.add_0_r. split_and!; try done. constructor.
Qed.

Lemma ws_blank i w r :
  blank w -> match r with b :: _ => is_ws b = false | [] => True end ->
  ws (i, w ++ r) = ((i + length w)%nat, r).
Proof.
  unfold ws. cbn [fst snd]. revert i. induction w as [|b w IH]; intros i Hw Hr; simpl.
  - rewrite Nat.add_0_r. destruct r as [|b r]; cbn [skip_ws]; [done|]. by rewrite Hr.
  - apply Forall_cons in Hw as [-> Hw]. rewrite IH by done. f_equal. lia.
Qed.

Lemma hex_digits_spec n i s :
  hex_digits n i s = Ok tt <->
  (n <= length s)%nat /\ Forall (fun h => is_ascii_hexdigit h = true) (take n s).
Proof.
  revert i s. induction n as [|n IH]; intros i s; cbn [hex_digits take].
  - split; [split; [lia|constructor]|done].
  - destruct s as [|h r]; [split; [done|]; simpl; lia|]. destruct (is_ascii_hexdigit h) eqn:E.
    + rewrite IH. cbn [take length]. rewrite Forall_cons. naive_solver lia.
    + split; [done|]. cbn [take]. rewrite Forall_cons. intros (_ & ? & _). congruence.
Qed.

Lemma string_loop_sound i s c :
  string_loop i s = Ok c ->
  exists b, s = b ++ x22 :: c.2 /\ string_body b /\ c.1 = (i + length b + 1)%nat.
Proof.
  remember (length s) as n eqn:En. revert i s c En. induction n as [n IH] using lt_wf_ind.
  intros i s c ->. destruct s as [|b r]; cbn [string_loop]; [done|].
  case_decide as H1.
  { subst b. intros [= <-]. exists []. split_and!; [done|constructor|simpl; lia]. }
  case_decide as H2.
  - subst b. destruct r as [|e r1]; [done|]. case_decide as H3.
    + subst e. destruct (hex_digits 4 (i + 2) r1) as [[]|] eqn:Eh; [|done].
      apply hex_digits_spec in Eh as [Hl Hh].
      destruct r1 as [|h1 [|h2 [|h3 [|h4 r5]]]]; try (simpl in Hl; lia). intros E.
      destruct (IH (length r5) ltac:(simpl; lia) _ _ _ eq_refl E) as (b & -> & Hb & ->).
      exists (x5c :: "u"%byte :: h1 :: h2 :: h3 :: h4 :: b). split_and!; [done|by constructor|simpl; lia].
    + destruct (simple_escape e) eqn:Ee; [|done]. intros E.
      destruct (IH (length r1) ltac:(simpl; lia) _ _ _ eq_refl E) as (b & -> & Hb & ->).
      exists (x5c :: e :: b). split_and!; [done|by constructor|simpl; lia].
  - case_decide; [done|]. intros E.
    destruct (IH (length r) ltac:(simpl; lia) _ _ _ eq_refl E) as (b' & -> & Hb & ->).
    exists (b :: b'). split_and!; [done|constructor; try done; lia|simpl; lia].
Qed.

Lemma simple_escape_not_u e : simple_escape e = true -> e <> "u"%byte.
Proof. by intros H ->. Qed.

Lemma string_loop_complete i b r :
  string_body b -> string_loop i (b ++ x22 :: r) = Ok ((i + length b + 1)%nat, r).
Proof.
  intros Hb. revert i. induction Hb as [|c b' H1 H2 H3 _ IH|e b' He _ IH|h1 h2 h3 h4 b' Hh _ IH]; intros i.
  - cbn [app string_loop]. rewrite decide_True by done. do 2 f_equal. simpl. lia.
  - cbn [app string_loop]. rewrite !decide_False by (done || lia). rewrite IH. do 2 f_equal. simpl. lia.
  - cbn [app string_loop]. rewrite (decide_False (P := x5c = x22)), (decide_True (P := x5c = x5c)) by done.
    rewrite decide_False by (by apply simple_escape_not_u). rewrite He, IH. do 2 f_equal. simpl. lia.
  - cbn [app string_loop]. rewrite (decide_False (P := x5c = x22)), (decide_True (P := x5c = x5c)) by done.
    rewrite decide_True by done.
    assert (hex_digits 4 (i + 2) (h1 :: h2 :: h3 :: h4 :: b' ++ x22 :: r) = Ok tt) as ->
      by (apply hex_digits_spec; split; [simpl; lia|done]).
    rewrite IH. do 2 f_equal. simpl. lia.
Qed.

Lemma string_span_spec c c' :
  string_span c = Ok c' <->
  exists l, c.2 = l ++ c'.2 /\ string_text l /\ c'.1 = (c.1 + length l)%nat.
Proof.
  unfold string_span, eat, peek, string_text. destruct c as [i s]. cbn [fst snd]. split.
  - destruct s as [|b r]; cbn [rbind]; [done|]. case_decide; [|done]. subst b. cbn [rbind bump fst snd].
    intros E. apply string_loop_sound in E as (b & E & Hb & E2). simpl in E. rewrite drop_0 in E.
    exists (x22 :: b ++ [x22]). split_and!.
    + rewrite E. simpl. by rewrite <- app_assoc.
    + by exists b.
    + rewrite E2. simpl. rewrite length_app. simpl. lia.
  - intros (l & Es & (b & -> & Hb) & E1). subst s. cbn [app rbind]. rewrite decide_True by done.
    cbn [rbind bump fst snd]. rewrite <- app_assoc. simpl. rewrite drop_0.
    rewrite string_loop_complete by done. destruct c' as [j r]. simpl in *. subst j.
    rewrite length_app. do 2 f_equal. simpl. lia.
Qed.

(** ** Numbers *)

Definition no_digit (r : bytes) : Prop :=
  match r with
  | b :: _ => is_ascii_digit b = false
  | [] => True
  end.

Lemma skip_digits_spec s :
  exists ds r, s = ds ++ r /\ digits_text ds /\ no_digit r /\ skip_digits s = (length ds, r).
Proof.
  induction s as [|b s (ds & r & -> & Hd & Hr & E)]; cbn [skip_digits].
  - exists [], []. split_and!; try done. constructor.
  - destruct (is_ascii_digit b) eqn:Eb.
    + rewrite E. exists (b :: ds), r. split_and!; try done. by constructor.
    + exists [], (b :: ds ++ r). split_and!; try done. constructor.
Qed.

Lemma skip_digits_app ds r : digits_text ds -> no_digit r -> skip_digits (ds ++ r) = (length ds, r).
Proof.
  induction 1 as [|b ds Hb _ IH]; intros Hr; simpl.
  - destruct r as [|b r]; cbn [skip_digits]; [done|]. by rewrite Hr.
  - rewrite Hb, IH by done. done.
Qed.

(** A scanning step took [l]. *)
Definition took (c : cursor) (l : bytes) (c' : cursor) : Prop :=
  c.2 = l ++ c'.2 /\ c'.1 = (c.1 + length l)%nat.

Lemma took_app c1 l1 c2 l2 c3 : took c1 l1 c2 -> took c2 l2 c3 -> took c1 (l1 ++ l2) c3.
Proof. intros [E1 E2] [E3 E4]. split; [by rewrite E1, E3, app_assoc|]. rewrite length_app. lia. Qed.

Lemma took_nil c : took c [] c.
Proof. split; [done|simpl; lia]. Qed.

Lemma took_bump n c : (n <= length c.2)%nat -> took c (take n c.2) (bump n c).
Proof. intros Hn. split; [cbn [bump snd]; by rewrite take_drop|]. rewrite length_take. simpl. lia. Qed.

Lemma took_bump1 b r c : c.2 = b :: r -> took c [b] (bump 1 c).
Proof. intros E. pose proof (took_bump 1 c) as H. rewrite E in H. apply H. simpl. lia. Qed.

Lemma took_skip c :
  exists ds, took c ds (skip_number c) /\ digits_text ds /\ no_digit (skip_number c).2.
Proof.
  unfold skip_number. destruct (skip_digits_spec c.2) as (ds & r & E & Hd & Hr & ->).
  exists ds. split_and!; [split; [done|simpl; lia]|done|done].
Qed.

Lemma digit_range b : is_ascii_digit b = true <-> 48 <= bz b <= 57.
Proof. apply is_ascii_digit_spec. Qed.

Lemma number_int_sound c c' :
  number_int c = Ok c' ->
  exists sign int, took c (sign ++ int) c' /\ (sign = [] \/ sign = ["-"%byte]) /\ int_text int.
Proof.
  unfold number_int, peek. destruct c.2 as [|b r] eqn:E; [done|]. cbn [rbind].
  assert (exists sign c1, (if decide (b = "-"%byte) then bump 1 c else c) = c1 /\ took c sign c1 /\
    (sign = [] \/ sign = ["-"%byte])) as (sign & c1 & -> & Ht & Hs).
  { case_decide.
    - subst b. exists ["-"%byte], (bump 1 c). split_and!; [done|by eapply took_bump1|by right].
    - exists [], c. split_and!; [done|apply took_nil|by left]. }
  destruct c1.2 as [|d s] eqn:E1; [done|]. cbn [rbind]. case_decide as H0.
  - subst d. intros [= <-]. exists sign, ["0"%byte]. split_and!; [|done|by left].
    eapply took_app; [done|]. by eapply took_bump1.
  - case_decide as H1; [|done]. intros [= <-]. destruct (took_skip c1) as (ds & Ht2 & Hd & _).
    exists sign, ds. split_and!; [by eapply took_app|done|right].
    destruct Ht2 as [E2 _]. destruct ds as [|d' ds'].
    + exfalso. unfold skip_number in E2. rewrite E1 in E2. cbn [skip_digits] in E2.
      assert (is_ascii_digit d = true) as Hdd by (apply digit_range; lia). rewrite Hdd in E2.
      destruct (skip_digits s) as [n t] eqn:Es. simpl in E2.
      destruct (skip_digits_spec s) as (ds2 & r2 & -> & _ & _ & Es2). rewrite Es in Es2.
      injection Es2 as -> ->. apply (f_equal length) in E2. simpl in E2. rewrite length_app in E2. lia.
    + rewrite E1 in E2. injection E2 as <- _. exists d, ds'. split_and!; [done|lia..|].
      by apply Forall_cons in Hd as [_ ?].
Qed.

Lemma fraction_sound c c' (err : JsonError) :
  (let c'' := skip_number c in if decide (c''.1 = c.1) then Err err else Ok c'') = Ok c' ->
  exists ds, took c ds c' /\ ds <> [] /\ digits_text ds.
Proof.
  cbn zeta. case_decide as H; [done|]. intros [= <-].
  destruct (took_skip c) as (ds & [E1 E2] & Hd & _). exists ds. split_and!; try done.
  intros ->. simpl in E2. lia.
Qed.

Lemma number_frac_sound c c' : number_frac c = Ok c' -> exists l, took c l c' /\ frac_text l.
Proof.
  unfold number_frac, head_is. destruct c.2 as [|b r] eqn:E.
  { intros [= <-]. exists []. split; [apply took_nil|by left]. }
  case_bool_decide; [|intros [= <-]; exists []; split; [apply took_nil|by left]].
  subst b. intros Hf. apply fraction_sound in Hf as (ds & Ht & Hne & Hd).
  exists ("."%byte :: ds). split; [|right; by exists ds].
  change ("."%byte :: ds) with (["."%byte] ++ ds). eapply took_app; [by eapply took_bump1|done].
Qed.

Lemma number_exp_sound c c' : number_exp c = Ok c' -> exists l, took c l c' /\ exp_text l.
Proof.
  unfold number_exp. unfold head_is at 1. destruct c.2 as [|b r] eqn:E.
  { intros [= <-]. exists []. split; [apply took_nil|by left]. }
  case_bool_decide as Hb; [|intros [= <-]; exists []; split; [apply took_nil|by left]].
  assert (exists sign c1, (if head_is (fun b => bool_decide (b = "+"%byte \/ b = "-"%byte)) (bump 1 c)
      then bump 1 (bump 1 c) else bump 1 c) = c1 /\ took (bump 1 c) sign c1 /\
    (sign = [] \/ sign = ["+"%byte] \/ sign = ["-"%byte])) as (sign & c1 & -> & Ht & Hs).
  { unfold head_is. destruct (bump 1 c).2 as [|d s] eqn:E1.
    - exists [], (bump 1 c). split_and!; [done|apply took_nil|by left].
    - case_bool_decide as Hd.
      + exists [d], (bump 1 (bump 1 c)). split_and!; [done|by eapply took_bump1|].
        destruct Hd as [->| ->]; [right; by left|right; by right].
      + exists [], (bump 1 c). split_and!; [done|apply took_nil|by left]. }
  intros Hf. apply fraction_sound in Hf as (ds & Ht2 & Hne & Hd).
  exists (b :: sign ++ ds). split; [|right; exists b, sign, ds; done].
  change (b :: sign ++ ds) with ([b] ++ sign ++ ds). eapply took_app; [by eapply took_bump1|].
  by eapply took_app.
Qed.

Lemma number_span_sound c c' : number_span c = Ok c' -> exists l, took c l c' /\ number_text l.
Proof.
  unfold number_span. intros H. inv_result.
  apply number_int_sound in E as (sign & int & T1 & Hs & Hi).
  apply number_frac_sound in E0 as (frac & T2 & Hf). apply number_exp_sound in H as (exp & T3 & He).
  exists ((sign ++ int) ++ frac ++ exp). split.
  - eapply took_app; [done|]. by eapply took_app.
  - exists sign, int, frac, exp. split_and!; try done. by rewrite <- app_assoc.
Qed.

(** A byte in a range of numbers is not a given other byte. *)
Ltac byte_neq :=
  intros ->; match goal with H : _ <= bz _ <= _ |- _ =>
    let H1 := fresh in let H2 := fresh in destruct H as [H1 H2];
    vm_compute in H1, H2; first [by destruct H1 | by destruct H2]
  end.

(** *** Completeness *)

Lemma exp_text_no_digit e r : exp_text e -> stops r -> no_digit (e ++ r).
Proof.
  intros [->|(b & sign & ds & -> & [->| ->] & _)] Hr; try done. destruct r; [done|]. by destruct Hr.
Qed.

Lemma frac_text_no_digit f e r : frac_text f -> exp_text e -> stops r -> no_digit (f ++ e ++ r).
Proof.
  intros [->|(ds & -> & _)] He Hr; [simpl; by apply exp_text_no_digit|done].
Qed.

Lemma skip_number_app i ds r :
  digits_text ds -> no_digit r -> skip_number (i, ds ++ r) = ((i + length ds)%nat, r).
Proof. intros Hd Hr. unfold skip_number. cbn [fst snd]. by rewrite skip_digits_app. Qed.

Lemma number_int_complete i sign int r :
  (sign = [] \/ sign = ["-"%byte]) -> int_text int -> no_digit r ->
  number_int (i, sign ++ int ++ r) = Ok ((i + length (sign ++ int))%nat, r).
Proof.
  intros Hs Hi Hr.
  assert (forall j, (let? b := peek (j, int ++ r) in
    if decide (b = "0"%byte) then Ok (bump 1 (j, int ++ r))
    else if decide (49 <= bz b <= 57) then Ok (skip_number (j, int ++ r))
    else Err (Syntax j "expected digit")) = Ok ((j + length int)%nat, r)) as Hint.
  { intros j. destruct Hi as [->|(d & ds & -> & Hd & Hds)]; [done|].
    assert (skip_number (j, (d :: ds) ++ r) = ((j + length (d :: ds))%nat, r)) as E.
    { apply skip_number_app; [|done]. constructor; [apply digit_range; lia|done]. }
    cbn [app] in E.
    unfold peek. cbn [app snd rbind]. rewrite decide_False by byte_neq.
    rewrite decide_True by done. by rewrite E. }
  unfold number_int. destruct Hs as [->| ->].
  - assert (exists b t, int ++ r = b :: t /\ b <> "-"%byte) as (b & t & E & Hb).
    { destruct Hi as [->|(d & ds & -> & Hd & _)]; eexists _, _; (split; [reflexivity|]); [done|].
      byte_neq. }
    cbn [app]. unfold peek at 1. cbn [snd]. rewrite E. cbn [rbind]. rewrite decide_False by done.
    rewrite <- E. apply Hint.
  - cbn [app]. unfold peek at 1. cbn [snd rbind]. rewrite decide_True by done.
    change (bump 1 (i, "-"%byte :: int ++ r)) with ((i + 1)%nat, drop 0 (int ++ r)). rewrite drop_0.
    rewrite Hint. do 2 f_equal. simpl. lia.
Qed.

Lemma number_frac_complete i f e r :
  frac_text f -> exp_text e -> stops r ->
  number_frac (i, f ++ e ++ r) = Ok ((i + length f)%nat, e ++ r).
Proof.
  intros [->|(ds & -> & Hne & Hd)] He Hr; unfold number_frac.
  - rewrite Nat.add_0_r. cbn [app]. unfold head_is. cbn [snd].
    destruct He as [->|(b & sign & es & -> & [->| ->] & _)]; cbn [app]; try done.
    destruct r as [|b r]; [done|]. rewrite bool_decide_eq_false_2; [done|]. by destruct Hr as (_ & ? & _).
  - unfold head_is. cbn [app snd]. rewrite bool_decide_eq_true_2 by done.
    change (bump 1 (i, "."%byte :: ds ++ e ++ r)) with ((i + 1)%nat, drop 0 (ds ++ e ++ r)). rewrite drop_0.
    rewrite skip_number_app by (done || by apply exp_text_no_digit). cbn [fst].
    rewrite decide_False by (destruct ds; [done|simpl; lia]). do 2 f_equal. simpl. lia.
Qed.

Lemma number_exp_complete i e r :
  exp_text e -> stops r -> number_exp (i, e ++ r) = Ok ((i + length e)%nat, r).
Proof.
  intros [->|(b & sign & ds & -> & Hb & Hs & Hne & Hd)] Hr; unfold number_exp.
  - rewrite Nat.add_0_r. unfold head_is. cbn [app snd]. destruct r as [|c r]; [done|].
    rewrite bool_decide_eq_false_2; [done|]. destruct Hr as (_ & _ & ? & ?). tauto.
  - assert (no_digit r) as Hnd by (destruct r; [done|]; by destruct Hr).
    unfold head_is at 1. cbn [app snd]. rewrite bool_decide_eq_true_2 by done.
    change (bump 1 (i, b :: (sign ++ ds) ++ r)) with ((i + 1)%nat, drop 0 ((sign ++ ds) ++ r)).
    rewrite drop_0, <- app_assoc.
    assert ((if head_is (fun b => bool_decide (b = "+"%byte \/ b = "-"%byte)) ((i + 1)%nat, sign ++ ds ++ r)
      then bump 1 ((i + 1)%nat, sign ++ ds ++ r) else ((i + 1)%nat, sign ++ ds ++ r))
      = ((i + 1 + length sign)%nat, ds ++ r)) as ->.
    { destruct Hs as [->|[->| ->]].
      - rewrite Nat.add_0_r. unfold head_is. cbn [app snd]. destruct ds as [|d ds]; [done|].
        cbn [app]. apply Forall_cons in Hd as [Hd _]. apply digit_range in Hd.
        rewrite bool_decide_eq_false_2; [done|]. intros [E|E]; revert E; byte_neq.
      - done.
      - done. }
    rewrite skip_number_app by done. cbn [fst].
    rewrite decide_False by (destruct ds; [done|simpl; lia]). do 2 f_equal.
    cbn [length]. rewrite length_app. lia.
Qed.

Lemma number_span_complete i l r :
  number_text l -> stops r -> number_span (i, l ++ r) = Ok ((i + length l)%nat, r).
Proof.
  intros (sign & int & frac & exp & -> & Hs & Hi & Hf & He) Hr. unfold number_span.
  rewrite <- !app_assoc.
  rewrite number_int_complete by (done || by apply frac_text_no_digit). cbn [rbind].
  rewrite number_frac_complete by done. cbn [rbind].
  rewrite number_exp_complete by done. do 2 f_equal. rewrite !length_app. lia.
Qed.

(** ** Values: soundness *)

Lemma ws_took c : exists w, blank w /\ took c w (ws c).
Proof.
  unfold ws. destruct (skip_ws_spec c.1 c.2) as (w & r & E & Hw & -> & _).
  exists w. split; [done|]. by split.
Qed.

Lemma peek_ok c b : peek c = Ok b -> exists r, c.2 = b :: r.
Proof. unfold peek. destruct c.2; [done|]. intros [= ->]. by eexists. Qed.

Lemma eat_ok b msg c c' : eat b msg c = Ok c' -> took c [b] c'.
Proof.
  unfold eat. intros H. inv_result. apply peek_ok in E as [r E]. case_decide; [|done].
  subst. injection H as <-. by eapply took_bump1.
Qed.

Lemma lit_ok s msg c c' : lit s msg c = Ok c' -> took c s c'.
Proof.
  unfold lit. case_decide as E; [|done]. intros [= <-]. rewrite <- E at 1.
  apply took_bump. apply (f_equal length) in E. rewrite length_take in E. lia.
Qed.

Lemma took_token c l c' : took c l c' -> token c.2 c'.2 = l.
Proof.
  intros [E _]. unfold token. rewrite E, length_app.
  replace (length l + length c'.2 - length c'.2)%nat with (length l) by lia. by rewrite take_app_length.
Qed.

Lemma foldr_and_Forall {A} (P : A -> Prop) l : foldr (fun x Q => P x /\ Q) True l <-> Forall P l.
Proof. induction l as [|x l IH]; simpl; [done|]. rewrite Forall_cons. tauto. Qed.

(** What a parser of values promises on success, up to a depth. *)
Definition value_spec (d : nat) (V : cursor -> result JsonError (JsonNode * cursor)) : Prop :=
  forall c n c', V c = Ok (n, c') ->
    exists w t, blank w /\ readable t /\ (depth t <= d)%nat /\ took c (w ++ print t) c' /\
      n = place (c.1 + length w) t.

Definition item_fits (d : nat) (it : titem tree) : Prop :=
  item_wf readable it /\ (depth (ti_value it) <= d)%nat.
Definition member_fits (d : nat) (m : tmember tree) : Prop :=
  member_readable readable m /\ (depth (ti_value (tm_item m)) <= d)%nat.

Lemma join_cons (sep p : bytes) ps :
  join sep (p :: ps) = p ++ match ps with [] => [] | _ => sep ++ join sep ps end.
Proof. destruct ps; simpl; [by rewrite app_nil_r|done]. Qed.

Lemma took_eq c l l' c' : took c l c' -> l = l' -> took c l' c'.
Proof. by intros ? <-. Qed.

Section sound.
Context (d : nat) (V : cursor -> result JsonError (JsonNode * cursor)) (HV : value_spec d V).

(** A value and the blanks after it. *)
Lemma item_sound c n c1 :
  V c = Ok (n, c1) -> exists it, item_fits d it /\ took c (print_item print it) (ws c1) /\
    n = place (c.1 + length (ti_before it)) (ti_value it).
Proof.
  intros H. apply HV in H as (w & t & Hw & Ht & Hd & Hk & ->).
  destruct (ws_took c1) as (wa & Hwa & Hka). exists (mkItem w t wa).
  split_and!; [by repeat split| |done]. eapply took_eq; [by eapply took_app|].
  unfold print_item. simpl. by rewrite <- app_assoc.
Qed.

Lemma items_loop_sound f acc c items c' :
  items_loop V f acc c = Ok (items, c') ->
  exists its, its <> [] /\ Forall (item_fits d) its /\
    took c (join [","%byte] (print_item print <$> its) ++ ["]"%byte]) c' /\
    items = acc ++ place_items place c.1 its.
Proof.
  revert acc c. induction f as [|f IH]; intros acc c; cbn [items_loop]; [done|].
  intros H. inv_result. destruct a as [n c1]. cbn [fst snd] in *.
  apply item_sound in E as (it & Hit & Hk & ->). apply peek_ok in E0 as [r Er].
  case_decide as Hc.
  - subst a0. apply IH in H as (its & Hne & Hits & Hk2 & ->). exists (it :: its).
    split_and!; [done|by constructor| |].
    + eapply took_eq; [eapply took_app; [done|eapply took_app; [by eapply took_bump1|done]]|].
      rewrite fmap_cons, join_cons. destruct its as [|it2 its2]; [done|]. rewrite fmap_cons.
      by rewrite <- !app_assoc.
    + rewrite <- app_assoc. cbn [place_items]. do 3 f_equal. destruct Hk as [_ Hk]. cbn [bump fst]. lia.
  - case_decide as Hb; [|done]. subst a0. injection H as <- <-. exists [it].
    split_and!; [done|by constructor| |done].
    eapply took_app; [done|by eapply took_bump1].
Qed.

Lemma raw_member_sound c m c1 :
  raw_member V c = Ok (m, c1) -> exists tm, member_fits d tm /\
    took c (print_member print tm) (ws c1) /\ place_members place c.1 [tm] = [m].
Proof.
  unfold raw_member. intros H. inv_result. destruct (ws_took c) as (wb & Hwb & Hkb).
  apply string_span_spec in E as (k & E & Hk & E1).
  assert (took (ws c) k a) as Hkk by done. rewrite (took_token _ _ _ Hkk) in H.
  destruct (decode_string k) as [ks|] eqn:Ek; [|done]. inv_result.
  destruct (ws_took a) as (wk & Hwk & Hkw). apply eat_ok in E0 as Hkc. clear E0.
  destruct a1 as [n c2]. cbn [fst snd] in *. subst.
  apply item_sound in E2 as (it & Hit & Hki & ->). exists (mkTMember wb k wk it).
  split_and!.
  - destruct Hit as [Hi1 Hi2]. split; [|exact Hi2]. unfold member_readable.
    cbn [tm_before tm_key tm_gap tm_item]. split_and!; try done. congruence.
  - eapply took_eq; [eapply took_app; [exact Hkb|eapply took_app; [exact Hkk|eapply took_app;
      [exact Hkw|eapply took_app; [exact Hkc|exact Hki]]]]|].
    unfold print_member. simpl. done.
  - cbn [place_members tm_before tm_key tm_gap tm_item]. unfold key_of. cbn [tm_key]. rewrite Ek.
    cbn [default]. destruct Hkb as [_ B1], Hkk as [_ B2], Hkw as [_ B3], Hkc as [_ B4]. cbn [length] in B4.
    rewrite B4, B3, B2, B1. done.
Qed.

Lemma members_loop_sound f acc c ms c' :
  members_loop V f acc c = Ok (ms, c') ->
  exists tms, tms <> [] /\ Forall (member_fits d) tms /\
    took c (join [","%byte] (print_member print <$> tms) ++ ["}"%byte]) c' /\
    ms = acc ++ place_members place c.1 tms.
Proof.
  revert acc c. induction f as [|f IH]; intros acc c; cbn [members_loop]; [done|].
  intros H. inv_result. destruct a as [m c1]. cbn [fst snd] in *.
  apply raw_member_sound in E as (tm & Htm & Hk & Em). apply peek_ok in E0 as [r Er].
  case_decide as Hc.
  - subst a0. apply IH in H as (tms & Hne & Htms & Hk2 & ->). exists (tm :: tms).
    split_and!; [done|by constructor| |].
    + eapply took_eq; [eapply took_app; [done|eapply took_app; [by eapply took_bump1|done]]|].
      rewrite fmap_cons, join_cons. destruct tms as [|tm2 tms2]; [done|]. rewrite fmap_cons.
      by rewrite <- !app_assoc.
    + rewrite <- app_assoc. f_equal. cbn [place_members] in *. injection Em as <-. cbn [app]. do 2 f_equal.
      destruct Hk as [_ Hk]. cbn [bump fst]. lia.
  - case_decide as Hb; [|done]. subst a0. injection H as <- <-. exists [tm].
    split_and!; [done|by constructor| |by rewrite Em].
    eapply took_app; [done|by eapply took_bump1].
Qed.

Lemma max_depth_items its :
  Forall (item_fits d) its ->
  (foldr (fun it n => Nat.max (depth (ti_value it)) n) 0%nat its <= d)%nat.
Proof. induction 1 as [|it its [_ H] _ IH]; simpl; lia. Qed.
Lemma max_depth_members ms :
  Forall (member_fits d) ms ->
  (foldr (fun m n => Nat.max (depth (ti_value (tm_item m))) n) 0%nat ms <= d)%nat.
Proof. induction 1 as [|m ms [_ H] _ IH]; simpl; lia. Qed.

Lemma print_item_blank w wb t wa :
  print_item print (mkItem (w ++ wb) t wa) = w ++ print_item print (mkItem wb t wa).
Proof. unfold print_item. cbn [ti_before]. by rewrite <- app_assoc. Qed.
Lemma print_member_blank w wb k wk it :
  print_member print (mkTMember (w ++ wb) k wk it) = w ++ print_member print (mkTMember wb k wk it).
Proof. unfold print_member. cbn [tm_before]. by rewrite <- app_assoc. Qed.

Lemma array_sound c r items c' :
  c.2 = "["%byte :: r -> array V c = Ok (items, c') ->
  exists t, readable t /\ (depth t <= S d)%nat /\ took c (print t) c' /\
    mkNode (c.1, c'.1) (JArray items) = place c.1 t.
Proof.
  intros Ec H. unfold array in H. destruct (ws_took (bump 1 c)) as (w & Hw & Hk).
  pose proof (took_bump1 _ _ _ Ec) as Hb.
  destruct (peek (ws (bump 1 c))) as [a|] eqn:E; cbn [rbind] in H; [|done]. apply peek_ok in E as [r' Er]. case_decide as H1.
  - subst a. injection H as <- <-. exists (TArray0 w).
    assert (took c (print (TArray0 w)) (bump 1 (ws (bump 1 c)))) as Ht.
    { eapply took_eq; [eapply took_app; [exact Hb|eapply took_app; [exact Hk|by eapply took_bump1]]|]. done. }
    split_and!; [done|simpl; lia|done|]. destruct Ht as [_ ->]. done.
  - apply items_loop_sound in H as (its & Hne & Hits & Hk2 & ->). cbn [app].
    destruct its as [|[wb t wa] its]; [done|].
    set (its' := mkItem (w ++ wb) t wa :: its). exists (TArray its').
    assert (took c (print (TArray its')) c') as Ht.
    { eapply took_eq; [eapply took_app; [exact Hb|eapply took_app; [exact Hk|exact Hk2]]|].
      unfold its'. cbn [print]. rewrite !fmap_cons, !join_cons, print_item_blank. by rewrite <- !app_assoc. }
    apply Forall_cons in Hits as [[(Hb1 & Hb2 & Hb3) Hd1] Hits].
    assert (Forall (item_fits d) its') as Hits'.
    { constructor; [|done]. split; [|done]. repeat split; try done. by apply Forall_app. }
    split_and!; [split; [done|]|simpl; apply le_n_S; by apply (max_depth_items its')|done|].
    + apply foldr_and_Forall. eapply Forall_impl; [exact Hits'|]. by intros ? [? _].
    + destruct Ht as [_ ->]. unfold its'. cbn [place place_items]. do 2 f_equal.
      destruct Hb as [_ Hb], Hk as [_ Hk]. cbn [length bump fst] in *.
      cbn [ti_before ti_value]. f_equal; [f_equal; rewrite length_app; lia|].
      f_equal. unfold print_item. cbn [ti_before ti_value ti_after]. rewrite !length_app. lia.
Qed.

Lemma object_sound c r ms c' :
  c.2 = "{"%byte :: r -> object V c = Ok (ms, c') ->
  exists t, readable t /\ (depth t <= S d)%nat /\ took c (print t) c' /\
    mkNode (c.1, c'.1) (JObject ms) = place c.1 t.
Proof.
  intros Ec H. unfold object in H. destruct (ws_took (bump 1 c)) as (w & Hw & Hk).
  pose proof (took_bump1 _ _ _ Ec) as Hb.
  destruct (peek (ws (bump 1 c))) as [a|] eqn:E; cbn [rbind] in H; [|done]. apply peek_ok in E as [r' Er]. case_decide as H1.
  - subst a. injection H as <- <-. exists (TObject0 w).
    assert (took c (print (TObject0 w)) (bump 1 (ws (bump 1 c)))) as Ht.
    { eapply took_eq; [eapply took_app; [exact Hb|eapply took_app; [exact Hk|by eapply took_bump1]]|]. done. }
    split_and!; [done|simpl; lia|done|]. destruct Ht as [_ ->]. done.
  - destruct (members_loop V _ _ _) as [[ms' c2]|] eqn:E; cbn [rbind fst snd] in H; [|done].
    injection H as <- <-.
    apply members_loop_sound in E as (tms & Hne & Htms & Hk2 & ->). cbn [app].
    destruct tms as [|[wb k wk it] tms]; [done|].
    set (tms' := mkTMember (w ++ wb) k wk it :: tms). exists (TObject tms').
    assert (took c (print (TObject tms')) c2) as Ht.
    { eapply took_eq; [eapply took_app; [exact Hb|eapply took_app; [exact Hk|exact Hk2]]|].
      unfold tms'. cbn [print]. rewrite !fmap_cons, !join_cons, print_member_blank. by rewrite <- !app_assoc. }
    apply Forall_cons in Htms as [[(Hb1 & Hb2) Hd1] Htms].
    assert (Forall (member_fits d) tms') as Htms'.
    { constructor; [|done]. split; [|done]. split; [by apply Forall_app|done]. }
    split_and!; [split; [done|]|simpl; apply le_n_S; by apply (max_depth_members tms')|done|].
    + apply foldr_and_Forall. eapply Forall_impl; [exact Htms'|]. by intros ? [? _].
    + destruct Ht as [_ ->]. unfold tms'. cbn [place place_members]. do 3 f_equal.
      destruct Hb as [_ Hb], Hk as [_ Hk]. cbn [length bump fst] in *.
      cbn [tm_before tm_key tm_gap tm_item].
      replace (S c.1 + length (w ++ wb))%nat with ((ws (bump 1 c)).1 + length wb)%nat
        by (rewrite length_app; lia).
      f_equal. f_equal. rewrite print_member_blank, length_app. lia.
Qed.
End sound.

Lemma value_at_sound d V c n c' :
  value_spec d V -> value_at V c = Ok (n, c') ->
  exists t, readable t /\ (depth t <= S d)%nat /\ took c (print t) c' /\ n = place c.1 t.
Proof.
  intros HV. unfold value_at. destruct (peek c) as [b|] eqn:Ep; cbn [rbind]; [|done].
  apply peek_ok in Ep as [r Er].
  assert (forall t, took c (print t) c' -> (c'.1 = c.1 + length (print t))%nat) as Hlen by (by intros t [_ ?]).
  case_decide as H1.
  { intros H. destruct (lit _ _ _) as [e|] eqn:E; cbn [rbind] in H; [|done]. injection H as <- <-.
    apply lit_ok in E. exists TNull. split_and!; [done|simpl; lia|done|]. simpl. by destruct E as [_ ->]. }
  case_decide as H2.
  { intros H. destruct (lit _ _ _) as [e|] eqn:E; cbn [rbind] in H; [|done]. injection H as <- <-.
    apply lit_ok in E. exists (TBool true). split_and!; [done|simpl; lia|done|]. simpl. by destruct E as [_ ->]. }
  case_decide as H3.
  { intros H. destruct (lit _ _ _) as [e|] eqn:E; cbn [rbind] in H; [|done]. injection H as <- <-.
    apply lit_ok in E. exists (TBool false). split_and!; [done|simpl; lia|done|]. simpl. by destruct E as [_ ->]. }
  case_decide as H4.
  { intros H. destruct (string_span c) as [e|] eqn:E; cbn [rbind] in H; [|done]. injection H as <- <-.
    apply string_span_spec in E as (l & E & Hl & E1). exists (TString l).
    split_and!; [done|simpl; lia|done|]. simpl. by rewrite E1. }
  case_decide as H5.
  { intros H. destruct (number_span c) as [e|] eqn:E; cbn [rbind] in H; [|done]. injection H as <- <-.
    apply number_span_sound in E as (l & [E E1] & Hl). exists (TNumber l).
    split_and!; [done|simpl; lia|done|]. simpl. by rewrite E1. }
  case_decide as H6.
  { subst b. intros H. destruct (array V c) as [[items c2]|] eqn:E; cbn [rbind fst snd] in H; [|done].
    injection H as <- <-. destruct (array_sound d V HV c r items c2 Er E) as (t & Ht & Hd & Hk & E2). by exists t. }
  case_decide as H7; [|done].
  subst b. intros H. destruct (object V c) as [[ms c2]|] eqn:E; cbn [rbind fst snd] in H; [|done].
  injection H as <- <-. destruct (object_sound d V HV c r ms c2 Er E) as (t & Ht & Hd & Hk & E2). by exists t.
Qed.

Lemma value_sound max d : value_spec d (value max d).
Proof.
  induction d as [|d IH]; intros c n c'; cbn [value]; [done|]. intros H.
  destruct (ws_took c) as (w & Hw & Hk).
  destruct (value_at_sound d _ _ _ _ IH H) as (t & Ht & Hd & Hk2 & ->).
  exists w, t. split_and!; try done; [by eapply took_app|]. by destruct Hk as [_ ->].
Qed.

(** ** Values: completeness *)

(** Where a value begins. *)
Lemma print_head t :
  readable t -> exists b r, print t = b :: r /\ is_ws b = false /\ b <> "]"%byte.
Proof.
  destruct t as [| [|] |l|l|w|items|w|ms]; simpl; intros H; try by eexists _, _.
  - destruct H as (sign & int & frac & exp & -> & [->| ->] & Hi & _); [|by eexists _, _].
    destruct Hi as [->|(d & ds & -> & Hd & _)]; [by eexists _, _|]. eexists _, _. split; [reflexivity|].
    split; [|byte_neq].
    unfold is_ws. apply bool_decide_eq_false_2. rewrite !elem_of_cons.
    intros [E|[E|[E|[E|E]]]]; revert E; [byte_neq..|]. by intros ?%elem_of_nil.
  - destruct H as (b & -> & _). by eexists _, _.
Qed.

Lemma print_nonempty t : readable t -> (0 < length (print t))%nat.
Proof. intros Ht. destruct (print_head t Ht) as (b & r & -> & _). simpl. lia. Qed.

(** A number may be followed by a blank, a comma or a closing bracket. *)
Definition closes (b : byte) : Prop := b = ","%byte \/ b = "]"%byte \/ b = "}"%byte.

Lemma stops_after w b r : blank w -> closes b -> stops (w ++ b :: r).
Proof.
  intros Hw Hb. destruct w as [|x w]; simpl.
  - destruct Hb as [->|[->| ->]]; by vm_compute.
  - apply Forall_cons in Hw as [Hx _]. unfold is_ws in Hx. apply bool_decide_eq_true in Hx.
    rewrite !elem_of_cons in Hx. destruct Hx as [->|[->|[->|[->|Hx]]]]; [by vm_compute..|].
    by apply elem_of_nil in Hx.
Qed.

Lemma stops_blank w : blank w -> stops w.
Proof.
  intros Hw. destruct w as [|x w]; [done|]. apply Forall_cons in Hw as [Hx _]. simpl.
  unfold is_ws in Hx. apply bool_decide_eq_true in Hx.
  rewrite !elem_of_cons in Hx. destruct Hx as [->|[->|[->|[->|Hx]]]]; [by vm_compute..|].
  by apply elem_of_nil in Hx.
Qed.

Definition value_accepts (d : nat) (V : cursor -> result JsonError (JsonNode * cursor)) : Prop :=
  forall i w t r, blank w -> readable t -> (depth t <= d)%nat -> stops r ->
    V (i, w ++ print t ++ r) = Ok (place (i + length w) t, ((i + length w + length (print t))%nat, r)).

Lemma closes_ws b : closes b -> is_ws b = false.
Proof. by intros [->|[->| ->]]. Qed.

Lemma bump1_cons i (b : byte) r : bump 1 (i, b :: r) = ((i + 1)%nat, r).
Proof. unfold bump. cbn [fst snd]. by rewrite skipn_cons, drop_0. Qed.

Section complete.
Context (d : nat) (V : cursor -> result JsonError (JsonNode * cursor)) (HV : value_accepts d V).

Lemma item_complete i it b r :
  item_fits d it -> closes b ->
  exists c1, V (i, print_item print it ++ b :: r) =
      Ok (place (i + length (ti_before it)) (ti_value it), c1) /\
    ws c1 = ((i + length (print_item print it))%nat, b :: r).
Proof.
  intros [(Hb & Ht & Ha) Hd] Hc. unfold print_item. rewrite <- !app_assoc.
  rewrite HV by (done || by apply stops_after). eexists. split; [done|].
  rewrite ws_blank; [|done|by apply closes_ws]. f_equal. rewrite !length_app. lia.
Qed.

Lemma items_loop_complete its f acc i r :
  its <> [] -> Forall (item_fits d) its -> (length its <= f)%nat ->
  items_loop V f acc (i, join [","%byte] (print_item print <$> its) ++ "]"%byte :: r) =
  Ok (acc ++ place_items place i its,
      ((i + length (join [","%byte] (print_item print <$> its)) + 1)%nat, r)).
Proof.
  revert f acc i. induction its as [|it its IH]; intros f acc i Hne Hits Hf; [done|].
  apply Forall_cons in Hits as [Hit Hits]. destruct f as [|f]; [simpl in Hf; lia|].
  rewrite fmap_cons, join_cons. cbn [items_loop]. destruct its as [|it2 its].
  - cbn [fmap list_fmap]. rewrite app_nil_r.
    destruct (item_complete i it "]"%byte r Hit) as (c1 & -> & Ew); [right; by left|].
    cbn [rbind fst snd]. rewrite Ew. cbn [peek snd rbind]. rewrite decide_False, decide_True by done.
    by rewrite bump1_cons.
  - set (rest := it2 :: its) in *. set (js := join [","%byte] (print_item print <$> rest)).
    assert (match print_item print <$> rest with [] => [] | _ => [","%byte] ++ js end = ","%byte :: js) as ->
      by done.
    rewrite <- app_assoc. cbn [app].
    destruct (item_complete i it ","%byte (js ++ "]"%byte :: r) Hit) as (c1 & -> & Ew); [by left|].
    cbn [rbind fst snd]. rewrite Ew. cbn [peek snd rbind]. rewrite decide_True by done.
    rewrite bump1_cons, IH; [|done|done|simpl in *; lia].
    rewrite <- app_assoc. cbn [app place_items]. fold js. do 3 f_equal. rewrite length_app. simpl. lia.
Qed.

Lemma string_text_head l : string_text l -> exists r, l = x22 :: r.
Proof. intros (b & -> & _). by eexists. Qed.

Lemma raw_member_complete i m b r :
  member_fits d m -> closes b ->
  exists c1, raw_member V (i, print_member print m ++ b :: r) =
      Ok (((i + length (tm_before m))%nat, (i + length (tm_before m) + length (tm_key m))%nat), key_of m,
          place (i + length (tm_before m) + length (tm_key m) + length (tm_gap m) + 1
                 + length (ti_before (tm_item m))) (ti_value (tm_item m)), c1) /\
    ws c1 = ((i + length (print_member print m))%nat, b :: r).
Proof.
  intros [(Hb & Hk & Hdk & Hg & Hit) Hd] Hc. destruct m as [wb k wk it].
  cbn [tm_before tm_key tm_gap tm_item] in *. unfold raw_member, print_member.
  cbn [tm_before tm_key tm_gap tm_item]. rewrite <- !app_assoc. cbn [app].
  destruct (string_text_head k Hk) as [kr Ek].
  rewrite ws_blank; [|done|by rewrite Ek].
  set (after := wk ++ ":"%byte :: print_item print it ++ b :: r).
  assert (string_span ((i + length wb)%nat, k ++ after) = Ok ((i + length wb + length k)%nat, after)) as ->.
  { apply string_span_spec. by exists k. }
  cbn [rbind fst snd].
  assert (token (k ++ after) after = k) as ->.
  { apply (took_token ((i + length wb)%nat, k ++ after) k ((i + length wb + length k)%nat, after)). done. }
  unfold key_of. cbn [tm_key]. destruct (decode_string k) as [ks|] eqn:Eks; [|done]. cbn [default].
  unfold after. rewrite ws_blank by done. unfold eat. cbn [peek snd rbind]. rewrite decide_True by done.
  cbn [rbind]. rewrite bump1_cons.
  destruct (item_complete (i + length wb + length k + length wk + 1) it b r) as (c1 & -> & Ew); [by split|done|].
  cbn [rbind fst snd]. eexists. split; [reflexivity|]. rewrite Ew. f_equal.
  rewrite !length_app. cbn [length]. lia.
Qed.

Lemma members_loop_complete tms f acc i r :
  tms <> [] -> Forall (member_fits d) tms -> (length tms <= f)%nat ->
  members_loop V f acc (i, join [","%byte] (print_member print <$> tms) ++ "}"%byte :: r) =
  Ok (acc ++ place_members place i tms,
      ((i + length (join [","%byte] (print_member print <$> tms)) + 1)%nat, r)).
Proof.
  revert f acc i. induction tms as [|tm tms IH]; intros f acc i Hne Htms Hf; [done|].
  apply Forall_cons in Htms as [Htm Htms]. destruct f as [|f]; [simpl in Hf; lia|].
  rewrite fmap_cons, join_cons. cbn [members_loop]. destruct tms as [|tm2 tms].
  - cbn [fmap list_fmap]. rewrite app_nil_r.
    destruct (raw_member_complete i tm "}"%byte r Htm) as (c1 & -> & Ew); [right; by right|].
    cbn [rbind fst snd]. rewrite Ew. cbn [peek snd rbind]. rewrite decide_False, decide_True by done.
    by rewrite bump1_cons.
  - set (rest := tm2 :: tms) in *. set (js := join [","%byte] (print_member print <$> rest)).
    assert (match print_member print <$> rest with [] => [] | _ => [","%byte] ++ js end = ","%byte :: js) as ->
      by done.
    rewrite <- app_assoc. cbn [app].
    destruct (raw_member_complete i tm ","%byte (js ++ "}"%byte :: r) Htm) as (c1 & -> & Ew); [by left|].
    cbn [rbind fst snd]. rewrite Ew. cbn [peek snd rbind]. rewrite decide_True by done.
    rewrite bump1_cons, IH; [|done|done|simpl in *; lia].
    rewrite <- app_assoc. cbn [app place_members]. fold js. do 3 f_equal. rewrite length_app. simpl. lia.
Qed.

Lemma join_long {A} (sep : list A) ps :
  Forall (fun p => 0 < length p)%nat ps -> (length ps <= length (join sep ps))%nat.
Proof.
  induction 1 as [|p ps Hp _ IH]; [done|]. destruct ps as [|q ps]; [simpl in *; lia|].
  change (join sep (p :: q :: ps)) with (p ++ sep ++ join sep (q :: ps)).
  rewrite !length_app. cbn [length] in *. lia.
Qed.

Lemma items_short its :
  Forall (item_fits d) its -> (length its <= length (join [","%byte] (print_item print <$> its)))%nat.
Proof.
  intros Hits. rewrite <- (length_fmap (print_item print) its). apply join_long, Forall_fmap.
  eapply Forall_impl; [exact Hits|]. intros it [(_ & Ht & _) _]. apply print_nonempty in Ht.
  unfold compose, print_item. rewrite !length_app. lia.
Qed.

Lemma members_short tms :
  Forall (member_fits d) tms -> (length tms <= length (join [","%byte] (print_member print <$> tms)))%nat.
Proof.
  intros Htms. rewrite <- (length_fmap (print_member print) tms). apply join_long, Forall_fmap.
  eapply Forall_impl; [exact Htms|]. intros tm _.
  unfold compose, print_member. rewrite !length_app. simpl. lia.
Qed.
End complete.

(** The blanks before the first item are read with the bracket. *)
Lemma array_complete d V i its r :
  value_accepts d V -> its <> [] -> Forall (item_fits d) its ->
  array V (i, "["%byte :: (join [","%byte] (print_item print <$> its) ++ ["]"%byte]) ++ r) =
  Ok (place_items place (S i) its,
      ((i + length ("["%byte :: join [","%byte] (print_item print <$> its) ++ ["]"%byte]))%nat, r)).
Proof.
  intros HV Hne Hits. destruct its as [|[wb t wa] its]; [done|].
  pose proof Hits as [[(Hb & Ht & Ha) Hd] Hrest]%Forall_cons. cbn [ti_before ti_value ti_after] in *.
  set (its' := mkItem [] t wa :: its).
  assert (join [","%byte] (print_item print <$> mkItem wb t wa :: its) =
    wb ++ join [","%byte] (print_item print <$> its')) as Ej.
  { unfold its'. rewrite !fmap_cons, !join_cons, <- (app_nil_r wb), print_item_blank, app_nil_r.
    by rewrite <- app_assoc. }
  unfold array. rewrite bump1_cons, <- app_assoc, Ej, <- app_assoc. cbn [app].
  destruct (print_head t Ht) as (b & s & Eb & Hws & Hnb).
  assert (exists s', join [","%byte] (print_item print <$> its') ++ "]"%byte :: r = b :: s') as [s' Es].
  { unfold its'. rewrite fmap_cons, join_cons. unfold print_item at 1. cbn [ti_before ti_value ti_after].
    rewrite Eb. by eexists. }
  rewrite ws_blank; [|done|by rewrite Es]. unfold peek. cbn [snd]. rewrite Es. cbn [rbind].
  rewrite decide_False by done. rewrite <- Es.
  assert (Forall (item_fits d) its') as Hits'.
  { constructor; [|done]. split; [|done]. split_and!; [constructor|done..]. }
  rewrite (items_loop_complete d V HV); [|done|done|].
  2:{ pose proof (items_short d its' Hits'). rewrite length_app. lia. }
  unfold its'. cbn [app place_items ti_before ti_value length]. rewrite Nat.add_0_r.
  assert (print_item print (mkItem wb t wa) = wb ++ print_item print (mkItem [] t wa)) as ->
    by (rewrite <- print_item_blank, app_nil_r; done).
  rewrite !length_app. cbn [length]. do 3 f_equal; [f_equal; lia|f_equal; lia|lia].
Qed.

Lemma object_complete d V i ms r :
  value_accepts d V -> ms <> [] -> Forall (member_fits d) ms ->
  object V (i, "{"%byte :: (join [","%byte] (print_member print <$> ms) ++ ["}"%byte]) ++ r) =
  Ok (members_of (place_members place (S i) ms),
      ((i + length ("{"%byte :: join [","%byte] (print_member print <$> ms) ++ ["}"%byte]))%nat, r)).
Proof.
  intros HV Hne Hms. destruct ms as [|[wb k wk it] ms]; [done|].
  pose proof Hms as [[(Hb & Hk & Hrest1) Hd] Hrest]%Forall_cons. cbn [tm_before tm_key] in *.
  set (ms' := mkTMember [] k wk it :: ms).
  assert (join [","%byte] (print_member print <$> mkTMember wb k wk it :: ms) =
    wb ++ join [","%byte] (print_member print <$> ms')) as Ej.
  { unfold ms'. rewrite !fmap_cons, !join_cons, <- (app_nil_r wb), print_member_blank, app_nil_r.
    by rewrite <- app_assoc. }
  unfold object. rewrite bump1_cons, <- app_assoc, Ej, <- app_assoc. cbn [app].
  destruct (string_text_head k Hk) as [kr Ekr].
  assert (exists s', join [","%byte] (print_member print <$> ms') ++ "}"%byte :: r = x22 :: s') as [s' Es].
  { unfold ms'. rewrite fmap_cons, join_cons. unfold print_member at 1. cbn [tm_before tm_key].
    rewrite Ekr. by eexists. }
  rewrite ws_blank; [|done|by rewrite Es]. unfold peek. cbn [snd]. rewrite Es. cbn [rbind].
  rewrite decide_False by done. rewrite <- Es.
  assert (Forall (member_fits d) ms') as Hms'.
  { constructor; [|done]. split; [|done]. split; [constructor|done]. }
  rewrite (members_loop_complete d V HV); [|done|done|].
  2:{ pose proof (members_short d ms' Hms'). rewrite length_app. lia. }
  cbn [rbind fst snd app].
  assert (place_members place (i + 1 + length wb) ms' = place_members place (S i) (mkTMember wb k wk it :: ms))
    as ->.
  { unfold ms'. cbn [place_members tm_before tm_key tm_gap tm_item]. unfold key_of. cbn [tm_key length].
    replace (i + 1 + length wb + 0)%nat with (S i + length wb)%nat by lia. f_equal. f_equal.
    rewrite <- (app_nil_r wb) at 2. rewrite print_member_blank, length_app. lia. }
  do 2 f_equal. f_equal. cbn [length]. rewrite !length_app. simpl. lia.
Qed.

(** The byte that begins a value decides how it is read. *)
Lemma value_at_complete d V i t r :
  value_accepts d V -> readable t -> (depth t <= S d)%nat -> stops r ->
  value_at V (i, print t ++ r) = Ok (place i t, ((i + length (print t))%nat, r)).
Proof.
  intros HV Ht Hd Hr. unfold value_at.
  destruct t as [|b|l|l|w|items|w|ms].
  - simpl. done.
  - destruct b; simpl; done.
  - assert (exists b s, l ++ r = b :: s /\ (b = "-"%byte \/ 48 <= bz b <= 57)) as (b & s & E & Hb).
    { destruct Ht as (sign & int & frac & exp & -> & [->| ->] & Hi & _); [|eexists _, _; split; [done|by left]].
      destruct Hi as [->|(x & ds & -> & Hx & _)]; eexists _, _; (split; [reflexivity|right]);
        [by vm_compute|lia]. }
    assert (forall c, c <> "-"%byte -> 57 < bz c \/ bz c < 48 -> b <> c) as Hne.
    { intros c Hc1 Hc2 ->. destruct Hb as [->|Hb]; [done|lia]. }
    cbn [print]. unfold peek. cbn [snd]. rewrite E. cbn [rbind].
    rewrite decide_False by (apply Hne; [done|left; by vm_compute]).
    rewrite decide_False by (apply Hne; [done|left; by vm_compute]).
    rewrite decide_False by (apply Hne; [done|left; by vm_compute]).
    rewrite decide_False by (apply Hne; [done|right; by vm_compute]).
    rewrite decide_True by done. rewrite <- E, number_span_complete by done. done.
  - destruct (string_text_head l Ht) as [s E].
    cbn [print]. unfold peek. cbn [snd]. rewrite E. cbn [app rbind].
    rewrite !(decide_False (P := x22 = _)) by done. rewrite decide_True by done.
    change (x22 :: s ++ r) with ((x22 :: s) ++ r). rewrite <- E.
    assert (string_span (i, l ++ r) = Ok ((i + length l)%nat, r)) as ->
      by (apply string_span_spec; by exists l). done.
  - cbn [print app]. unfold peek. cbn [snd rbind]. rewrite !(decide_False (P := "["%byte = _)) by done.
    rewrite decide_False by (intros [?|[_ Hx]]; [done|by apply Hx]). rewrite decide_True by done.
    unfold array. rewrite bump1_cons, <- app_assoc. cbn [app]. rewrite ws_blank by done.
    cbn [peek snd rbind]. rewrite decide_True by done. cbn [rbind fst snd]. rewrite bump1_cons.
    cbn [place print rbind fst snd]. assert (i + 1 + length w + 1 = i + length ("["%byte :: w ++ ["]"%byte]))%nat as ->
      by (cbn [length]; rewrite length_app; simpl; lia). done.
  - destruct Ht as [Hne Hits]. apply foldr_and_Forall in Hits.
    assert (Forall (item_fits d) items) as Hfit.
    { cbn [depth] in Hd. apply le_S_n in Hd. clear -Hits Hd. induction items as [|it its IH]; [done|].
      apply Forall_cons in Hits as [H1 H2]. simpl in Hd. constructor; [split; [done|lia]|].
      apply IH; first [done|lia]. }
    cbn [print app]. unfold peek. cbn [snd rbind]. rewrite !(decide_False (P := "["%byte = _)) by done.
    rewrite decide_False by (intros [?|[_ Hx]]; [done|by apply Hx]). rewrite decide_True by done.
    rewrite array_complete with (d := d) by done. cbn [rbind fst snd]. done.
  - cbn [print app]. unfold peek. cbn [snd rbind]. rewrite !(decide_False (P := "{"%byte = _)) by done.
    rewrite decide_False by (intros [?|[_ Hx]]; [done|by apply Hx]).
    rewrite decide_True by done.
    unfold object. rewrite bump1_cons, <- app_assoc. cbn [app]. rewrite ws_blank by done.
    cbn [peek snd rbind]. rewrite decide_True by done. cbn [rbind fst snd]. rewrite bump1_cons.
    cbn [place print rbind fst snd]. assert (i + 1 + length w + 1 = i + length ("{"%byte :: w ++ ["}"%byte]))%nat as ->
      by (cbn [length]; rewrite length_app; simpl; lia). done.
  - destruct Ht as [Hne Hms]. apply foldr_and_Forall in Hms.
    assert (Forall (member_fits d) ms) as Hfit.
    { cbn [depth] in Hd. apply le_S_n in Hd. clear -Hms Hd. induction ms as [|m ms IH]; [done|].
      apply Forall_cons in Hms as [H1 H2]. simpl in Hd. constructor; [split; [done|lia]|].
      apply IH; first [done|lia]. }
    cbn [print app]. unfold peek. cbn [snd rbind]. rewrite !(decide_False (P := "{"%byte = _)) by done.
    rewrite decide_False by (intros [?|[_ Hx]]; [done|by apply Hx]).
    rewrite decide_True by done.
    rewrite object_complete with (d := d) by done. cbn [rbind fst snd]. done.
Qed.

Lemma value_complete max d : value_accepts d (value max d).
Proof.
  induction d as [|d IH]; intros i w t r Hw Ht Hd Hr; cbn [value].
  - destruct t; simpl in Hd; lia.
  - destruct (print_head t Ht) as (b & s & E & Hb & _).
    rewrite ws_blank; [|done|by rewrite E]. by apply (value_at_complete d).
Qed.

(** ** Documents *)

(** A text of the grammar between blanks. *)
Lemma parse_complete w t w' lim :
  blank w -> readable t -> blank w' -> (depth t <= max_depth lim)%nat ->
  parse (w ++ print t ++ w') lim = Ok (mkDocument (w ++ print t ++ w') (place (length w) t)).
Proof.
  intros Hw Ht Hw' Hd. unfold parse.
  rewrite (value_complete (max_depth lim) (max_depth lim) 0%nat w t w') by (done || by apply stops_blank).
  cbn [rbind fst snd]. pose proof (ws_blank (0 + length w + length (print t)) w' [] Hw' I) as Ew.
  rewrite app_nil_r in Ew. rewrite Ew. cbn [fst].
  rewrite decide_False; [done|]. rewrite !length_app. lia.
Qed.

Lemma parse_sound s lim doc :
  parse s lim = Ok doc ->
  exists w t w', s = w ++ print t ++ w' /\ blank w /\ readable t /\ blank w' /\
    (depth t <= max_depth lim)%nat /\ doc = mkDocument s (place (length w) t).
Proof.
  unfold parse. intros H.
  destruct (value _ _ _) as [[n c]|] eqn:E; cbn [rbind fst snd] in H; [|done].
  destruct (value_sound _ _ _ _ _ E) as (w & t & Hw & Ht & Hd & Hk & ->).
  destruct (ws_took c) as (w' & Hw' & Hk').
  case_decide as Hl; [done|]. injection H as <-.
  destruct Hk as [E1 E2], Hk' as [E3 E4]. cbn [fst snd] in *.
  exists w, t, w'. split_and!; try done.
  rewrite E1, E3, <- app_assoc. do 2 f_equal.
  rewrite E4, E2, E1, E3, !length_app in Hl.
  destruct (ws c).2 as [|b r]; [by rewrite app_nil_r|]. simpl in Hl. lia.
Qed.
