(* ===== verification/JsonPath.v ===== *)
(** * Paths into a JSON document ([crates/pr-json/src/path.rs], [dom.rs])

    Paths that name the occurrence of a duplicated member, their resolution, and
    replacing the bytes of one node.  A path is a [str]: every delimiter is
    ASCII, so that scanning its characters and its bytes agree. *)

From S2P Require Import Prelude Text TextFacts Json JsonGrammar.

(** ** Paths *)

Inductive Step :=
| SMember (name : str) (occ : option Z)
| SIndex (i : Z).

#[export] Instance Step_eq_dec : EqDecision Step.
Proof. solve_decision. Defined.

(** [while i < len && p(b[i]) { i += 1 }]: the slice passed over and the rest. *)
Fixpoint span_while (p : Z -> bool) (s : str) : str * str :=
  match s with
  | c :: r => if p c then let '(a, b) := span_while p r in (c :: a, b) else ([], s)
  | [] => ([], [])
  end.

Definition is_digit (c : Z) : bool := bool_decide (48 <= c <= 57).

(** [str::parse] of a run of digits. *)
Definition parse_number (max : Z) (ds : str) : option Z := parse_unsigned max (zb <$> ds).

Definition parse_occurrence (s : str) : result JsonError (option Z * str) :=
  match s with
  | c :: r =>
      if decide (c = 35) then
        let '(ds, r1) := span_while is_digit r in
        if decide (ds = []) then Err (BadPath "expected digits after '#'")
        else match parse_number u32_max ds with
             | None => Err (BadPath "bad occurrence")
             | Some n => if decide (n = 0) then Err (BadPath "occurrence is 1-based")
                         else Ok (Some n, r1)
             end
      else Ok (None, s)
  | [] => Ok (None, s)
  end.

(** After the opening bracket. *)
Definition parse_bracket (s : str) : result JsonError (Step * str) :=
  if decide (head s = Some 34) then
    let '(name, r1) := span_while (fun c => negb (bool_decide (c = 34))) (tail s) in
    match r1 with
    | [] => Err (BadPath "unterminated quoted member")
    | _ :: r2 =>
        if decide (head r2 <> Some 93) then Err (BadPath "expected ]")
        else let? occ := parse_occurrence (tail r2) in Ok (SMember name occ.1, occ.2)
    end
  else
    let '(ds, r1) := span_while is_digit s in
    if decide (ds = [] \/ head r1 <> Some 93) then Err (BadPath "expected [n]")
    else match parse_number usize_max ds with
         | None => Err (BadPath "bad index")
         | Some n => Ok (SIndex n, tail r1)
         end.

Definition parse_dot (s : str) : result JsonError (Step * str) :=
  let '(name, r1) := span_while (fun c => negb (bool_decide (c ∈ [46; 91; 35]))) s in
  if decide (name = []) then Err (BadPath "empty member name")
  else let? occ := parse_occurrence r1 in Ok (SMember name occ.1, occ.2).

Fixpoint parse_steps (fuel : nat) (s : str) : result JsonError (list Step) :=
  match fuel, s with
  | _, [] => Ok []
  | O, _ => Ok []
  | S f, c :: r =>
      let? sr := (if decide (c = 46) then parse_dot r
                  else if decide (c = 91) then parse_bracket r
                  else Err (BadPath "expected '.' or '['")) in
      let? rest := parse_steps f sr.2 in
      Ok (sr.1 :: rest)
  end.

Definition parse_path (p : str) : result JsonError (list Step) :=
  let body := if decide (head p = Some 36) then tail p else p in
  parse_steps (length body) body.

(** ** Resolution *)

Definition step (node : JsonNode) (s : Step) : result JsonError JsonNode :=
  match kind node, s with
  | JObject ms, SMember name occ =>
      let matching := filter (fun m => key m = name) ms in
      match matching with
      | [] => Err NoSuchPath
      | m :: _ =>
          match occ with
          | None =>
              if decide (1 < length matching)%nat
              then Err (AmbiguousMember name (Z.min (zlen matching) u32_max))
              else Ok (member_value m)
          | Some n =>
              ok_or (member_value <$> List.find (fun m => bool_decide (occurrence m = n)) matching)
                NoSuchPath
          end
      end
  | JArray items, SIndex i => ok_or (items !! Z.to_nat i) NoSuchPath
  | _, _ => Err NoSuchPath
  end.

Fixpoint walk (node : JsonNode) (steps : list Step) : result JsonError JsonNode :=
  match steps with
  | [] => Ok node
  | s :: r => let? next := step node s in walk next r
  end.

Definition get (d : Document) (path : str) : result JsonError JsonNode :=
  let? steps := parse_path path in walk (root d) steps.

Definition replace (d : Document) (path : str) (new_raw : bytes) : result JsonError bytes :=
  let? node := get d path in
  Ok (take (span node).1 (source d) ++ new_raw ++ drop (span node).2 (source d)).

(** ** Occurrences *)

(** What naming a member means: the only one of that name, or the [n]th. *)
Definition pick {A} (name : str) (occ : option Z) (vs : list A) : result JsonError A :=
  match occ, vs with
  | _, [] => Err NoSuchPath
  | None, [v] => Ok v
  | None, _ => Err (AmbiguousMember name (Z.min (zlen vs) u32_max))
  | Some n, _ => if decide (1 <= n) then ok_or (vs !! Z.to_nat (n - 1)) NoSuchPath
                 else Err NoSuchPath
  end.

Abbreviation raw_entry := ((nat * nat) * str * JsonNode)%type.
Definition entry_key (m : raw_entry) : str := m.1.2.

Lemma pick_nth {A} name n (vs : list A) :
  1 <= n -> pick name (Some n) vs = ok_or (vs !! Z.to_nat (n - 1)) NoSuchPath.
Proof. intros Hn. unfold pick. destruct vs; [done|]. by rewrite decide_True. Qed.

(** Members of one name, numbered from [n]. *)
Definition number_from (n total : Z) (ms : list raw_entry) : list (Member JsonNode) :=
  imap (fun i (m : raw_entry) => mkMember m.1.1 m.1.2 (n + Z.of_nat i + 1) total m.2) ms.

Lemma number_from_cons n total (m : raw_entry) ms :
  number_from n total (m :: ms) =
  mkMember m.1.1 m.1.2 (n + 1) total m.2 :: number_from (n + 1) total ms.
Proof.
  unfold number_from. rewrite imap_cons. f_equal; [f_equal; lia|]. apply imap_ext.
  intros i x _. simpl. f_equal. lia.
Qed.

Lemma number_members_filter totals seen name ms :
  filter (fun m => key m = name) (number_members totals seen ms) =
  number_from (default 0 (seen !! name)) (default 1 (totals !! name))
    (filter (fun m => entry_key m = name) ms).
Proof.
  revert seen. induction ms as [|[[ks k] v] ms IH]; intros seen; [done|].
  cbn [number_members number_member]. rewrite !filter_cons. cbn [key entry_key fst snd].
  unfold entry_key at 1. cbn [fst snd]. case_decide as E.
  - subst k. rewrite number_from_cons. cbn [fst snd]. f_equal. by rewrite IH, lookup_insert_eq.
  - rewrite IH, lookup_insert_ne by done. done.
Qed.

Lemma find_number_from n total (ms : list raw_entry) k :
  member_value <$> List.find (fun m => bool_decide (occurrence m = k)) (number_from n total ms) =
  if decide (n + 1 <= k) then snd <$> ms !! Z.to_nat (k - n - 1) else None.
Proof.
  revert n. induction ms as [|m ms IH]; intros n.
  - simpl. by case_decide.
  - rewrite number_from_cons. cbn [List.find occurrence]. case_bool_decide as E.
    + subst k. rewrite decide_True by lia. replace (Z.to_nat (n + 1 - n - 1)) with 0%nat by lia. done.
    + rewrite IH. destruct (decide (n + 1 <= k)).
      * rewrite decide_True by lia.
        replace (Z.to_nat (k - n - 1)) with (S (Z.to_nat (k - (n + 1) - 1))) by lia. done.
      * by rewrite decide_False by lia.
Qed.

Lemma step_object sp ms name occ :
  step (mkNode sp (JObject (members_of ms))) (SMember name occ) =
  pick name occ (snd <$> filter (fun m => entry_key m = name) ms).
Proof.
  unfold step, members_of. cbn [kind]. rewrite number_members_filter, lookup_empty. cbn [default].
  set (total := default 1 _). set (vs := filter (fun m => entry_key m = name) ms).
  destruct vs as [|v [|v2 vs']] eqn:Ev.
  - by destruct occ.
  - rewrite number_from_cons. destruct occ as [n|]; [|done].
    rewrite <- number_from_cons, find_number_from. unfold pick. cbn [fmap list_fmap].
    replace (n - 0 - 1) with (n - 1) by lia. change (0 + 1) with 1. case_decide; [|done].
    by destruct (Z.to_nat (n - 1)) as [|[|?]].
  - rewrite <- Ev. destruct occ as [n|].
    + rewrite Ev, number_from_cons, <- number_from_cons, find_number_from, <- Ev. unfold pick.
      rewrite Ev. cbn [fmap list_fmap].
      replace (n - 0 - 1) with (n - 1) by lia. change (0 + 1) with 1. case_decide; [|done].
      rewrite <- list_lookup_fmap. done.
    + rewrite Ev, !number_from_cons. unfold pick. cbn [fmap list_fmap].
      rewrite decide_True by (simpl; lia). do 3 f_equal. unfold number_from, zlen. simpl.
      rewrite length_imap, length_fmap. lia.
Qed.

(** ** Holes: a child and the text around it *)

(** [fill] puts a value where [x] is; [pre] and [post] are the text around. *)
Record hole (t x : tree) (st : Step) (fill : tree -> tree) (pre post : bytes) : Prop := {
  ho_self : t = fill x;
  ho_wf : readable x;
  ho_print y : print (fill y) = pre ++ print y ++ post;
  ho_step off y : step (place off (fill y)) st = Ok (place (off + length pre) y);
  ho_fill y : readable y -> readable (fill y);
  ho_child : (S (depth x) <= depth (fill x))%nat;
  ho_depth y D : (depth (fill x) <= S D)%nat -> (depth y <= D)%nat -> (depth (fill y) <= S D)%nat;
}.

(** The pieces before and after one piece of a joined list. *)
Definition lead (ps : list bytes) : bytes := ps ≫= fun p => p ++ [","%byte].
Definition trail (ps : list bytes) : bytes := ps ≫= fun p => ","%byte :: p.

Lemma join_split l p r : join [","%byte] (l ++ p :: r) = lead l ++ p ++ trail r.
Proof.
  assert (forall q, join [","%byte] (q :: r) = q ++ trail r) as Hr.
  { clear. induction r as [|q r IH]; intros p; [by rewrite join_cons|]. rewrite join_cons, IH. done. }
  induction l as [|q l IH]; [apply Hr|]. cbn [app]. rewrite join_cons.
  unfold lead in *. cbn [mbind list_bind]. rewrite <- !app_assoc.
  destruct (l ++ p :: r) eqn:E; [by destruct l|]. by rewrite IH.
Qed.

Lemma place_items_app f off l it r :
  place_items f off (l ++ it :: r) =
  place_items f off l ++ f (off + length (lead (print_item print <$> l)) + length (ti_before it))%nat (ti_value it)
    :: place_items f (off + length (lead (print_item print <$> l)) + length (print_item print it) + 1) r.
Proof.
  revert off. induction l as [|x l IH]; intros off; cbn [app place_items].
  - by rewrite Nat.add_0_r.
  - rewrite IH, fmap_cons. unfold lead. cbn [mbind list_bind app]. rewrite !length_app. cbn [length].
    set (n := length (mbind _ _)).
    replace (off + (length (print_item print x) + 1 + n))%nat
      with (off + length (print_item print x) + 1 + n)%nat by lia. done.
Qed.

Lemma place_items_length f off l : length (place_items f off l) = length l.
Proof. revert off. induction l as [|x l IH]; intros off; simpl; [done|]. by rewrite IH. Qed.

Lemma place_members_app f off l m r :
  let o := (off + length (lead (print_member print <$> l)))%nat in
  let v := (o + length (tm_before m) + length (tm_key m) + length (tm_gap m) + 1)%nat in
  place_members f off (l ++ m :: r) =
  place_members f off l ++
    (((o + length (tm_before m))%nat, (o + length (tm_before m) + length (tm_key m))%nat), key_of m,
     f (v + length (ti_before (tm_item m)))%nat (ti_value (tm_item m)))
    :: place_members f (o + length (print_member print m) + 1) r.
Proof.
  cbn zeta. revert off. induction l as [|x l IH]; intros off; cbn [app place_members].
  - by rewrite Nat.add_0_r.
  - rewrite IH, fmap_cons. unfold lead. cbn [mbind list_bind app]. rewrite !length_app. cbn [length].
    set (n := length (mbind _ _)).
    replace (off + (length (print_member print x) + 1 + n))%nat
      with (off + length (print_member print x) + 1 + n)%nat by lia. done.
Qed.

Lemma place_members_filter f off ms name :
  length (filter (fun m => entry_key m = name) (place_members f off ms)) =
  length (filter (fun m => key_of m = name) ms).
Proof.
  revert off. induction ms as [|m ms IH]; intros off; cbn [place_members]; [done|].
  rewrite !filter_cons. unfold entry_key at 1. cbn [fst snd].
  repeat case_decide; try done; cbn [length]; by rewrite ?IH.
Qed.

Lemma place_members_keys f off ms : entry_key <$> place_members f off ms = key_of <$> ms.
Proof. revert off. induction ms as [|m ms IH]; intros off; [done|]. cbn [place_members]. by rewrite !fmap_cons, IH. Qed.

Lemma filter_lookup_split {A} (P : A -> Prop) `{forall x, Decision (P x)} (l : list A) i x :
  filter P l !! i = Some x -> exists a b, l = a ++ x :: b /\ length (filter P a) = i /\ P x.
Proof.
  revert i. induction l as [|y l IH]; intros i; [done|]. rewrite filter_cons. case_decide as Hy.
  - destruct i as [|i]; simpl.
    + intros [= ->]. by exists [], l.
    + intros (a & b & -> & Hi & Hx)%IH. exists (y :: a), b. rewrite filter_cons_True by done.
      split_and!; [done|simpl; congruence|done].
  - intros (a & b & -> & Hi & Hx)%IH. exists (y :: a), b. by rewrite filter_cons_False.
Qed.

(** [pick] looks only at how many there are. *)
Lemma pick_index {A} name occ (vs : list A) v :
  pick name occ vs = Ok v -> exists i, vs !! i = Some v /\
    forall B (ws : list B) w, length ws = length vs -> ws !! i = Some w -> pick name occ ws = Ok w.
Proof.
  unfold pick. destruct vs as [|v1 vs]; [by destruct occ|]. destruct occ as [n|].
  - case_decide as Hn; [|done]. destruct ((v1 :: vs) !! Z.to_nat (n - 1)) as [u|] eqn:E; [|done].
    simpl. intros [= ->]. exists (Z.to_nat (n - 1)). split; [done|].
    intros B ws w Hl Hw. destruct ws as [|w1 ws]; [done|]. by rewrite Hw.
  - destruct vs as [|v2 vs]; [|done]. intros [= ->]. exists 0%nat. split; [done|].
    intros B ws w Hl Hw. destruct ws as [|w1 [|w2 ws]]; try done. by injection Hw as ->.
Qed.

Lemma array_hole l it r i :
  readable (TArray (l ++ it :: r)) -> length l = Z.to_nat i ->
  hole (TArray (l ++ it :: r)) (ti_value it) (SIndex i)
    (fun y => TArray (l ++ mkItem (ti_before it) y (ti_after it) :: r))
    ("["%byte :: lead (print_item print <$> l) ++ ti_before it)
    (ti_after it ++ trail (print_item print <$> r) ++ ["]"%byte]).
Proof.
  intros [Hne Hall] Hi. apply foldr_and_Forall in Hall.
  apply Forall_app in Hall as [Hl [(Hb & Hv & Ha) Hr]%Forall_cons].
  constructor.
  - by destruct it.
  - done.
  - intros y. cbn [print]. rewrite fmap_app, fmap_cons, join_split. unfold print_item at 2.
    cbn [ti_before ti_value ti_after app]. rewrite <- !app_assoc. done.
  - intros off y. unfold step. cbn [place kind]. rewrite place_items_app.
    rewrite lookup_app_r by (rewrite place_items_length; lia). rewrite place_items_length, Hi, Nat.sub_diag.
    cbn [lookup list_lookup ok_or ti_before ti_value length]. rewrite length_app. do 2 f_equal. lia.
  - intros y Hy. split; [by destruct l|]. apply foldr_and_Forall, Forall_app. split; [done|].
    constructor; [done|done].
  - cbn [depth]. rewrite foldr_app. cbn [foldr tm_item ti_value]. apply le_n_S. clear. induction l as [|z l IH]; simpl; lia.
  - intros y D. cbn [depth]. rewrite !foldr_app. cbn [foldr ti_value].
    intros H1 H2. apply le_n_S. apply le_S_n in H1. revert H1. clear -H2.
    induction l as [|x l IH]; simpl; lia.
Qed.

Lemma object_hole l m r name occ i :
  readable (TObject (l ++ m :: r)) -> key_of m = name ->
  length (filter (fun m => key_of m = name) l) = i ->
  (forall B (ws : list B) w, length ws = length (filter (fun m => key_of m = name) (l ++ m :: r)) ->
     ws !! i = Some w -> pick name occ ws = Ok w) ->
  hole (TObject (l ++ m :: r)) (ti_value (tm_item m)) (SMember name occ)
    (fun y => TObject (l ++ mkTMember (tm_before m) (tm_key m) (tm_gap m)
                (mkItem (ti_before (tm_item m)) y (ti_after (tm_item m))) :: r))
    ("{"%byte :: lead (print_member print <$> l) ++ tm_before m ++ tm_key m ++ tm_gap m
       ++ ":"%byte :: ti_before (tm_item m))
    (ti_after (tm_item m) ++ trail (print_member print <$> r) ++ ["}"%byte]).
Proof.
  intros [Hne Hall] Hk Hi Hpick. apply foldr_and_Forall in Hall.
  apply Forall_app in Hall as [Hl [(Hb & Hs & Hd & Hg & (Hb2 & Hv & Ha)) Hr]%Forall_cons].
  constructor.
  - by destruct m as [? ? ? []].
  - done.
  - intros y. cbn [print]. rewrite fmap_app, fmap_cons, join_split. unfold print_member at 2, print_item at 1.
    cbn [tm_before tm_key tm_gap tm_item ti_before ti_value ti_after app]. rewrite <- !app_assoc. cbn [app].
    rewrite <- !app_assoc. done.
  - intros off y. cbn [place]. rewrite step_object, place_members_app.
    cbn [tm_before tm_key tm_gap tm_item ti_before ti_value].
    apply Hpick.
    + rewrite length_fmap, !filter_app, !length_app, place_members_filter. f_equal.
      rewrite !filter_cons. unfold entry_key at 1. unfold key_of at 1. cbn [fst snd tm_key].
      change (default [] (decode_string (tm_key m))) with (key_of m). rewrite !decide_True by done.
      cbn [length]. by rewrite place_members_filter.
    + rewrite filter_app, fmap_app.
      rewrite lookup_app_r by (rewrite length_fmap, place_members_filter; lia).
      rewrite length_fmap, place_members_filter, Hi, Nat.sub_diag, filter_cons.
      unfold entry_key at 1, key_of at 1. cbn [fst snd tm_key].
      change (default [] (decode_string (tm_key m))) with (key_of m). rewrite decide_True by done.
      cbn [fmap list_fmap lookup list_lookup snd]. do 2 f_equal. cbn [length].
      rewrite !length_app. cbn [length]. lia.
  - intros y Hy. split; [by destruct l|]. apply foldr_and_Forall, Forall_app. split; [done|].
    constructor; [done|done].
  - cbn [depth]. rewrite foldr_app. cbn [foldr tm_item ti_value]. apply le_n_S. clear. induction l as [|z l IH]; simpl; lia.
  - intros y D. cbn [depth]. rewrite !foldr_app. cbn [foldr tm_item ti_value].
    intros H1 H2. apply le_n_S. apply le_S_n in H1. revert H1. clear -H2.
    induction l as [|x l IH]; simpl; lia.
Qed.

Lemma step_hole off t st n :
  readable t -> step (place off t) st = Ok n ->
  exists x fill pre post, hole t x st fill pre post /\ n = place (off + length pre) x.
Proof.
  intros Ht H. destruct t as [| | | |w|items|w|ms]; try done; destruct st as [name occ|i]; try done.
  - unfold step in H. cbn [place kind] in H.
    destruct (place_items place (S off) items !! Z.to_nat i) as [n'|] eqn:E; [|done].
    apply lookup_lt_Some in E as Hlt. rewrite place_items_length in Hlt.
    destruct (lookup_lt_is_Some_2 items _ Hlt) as [it Hit].
    apply list_elem_of_split_length in Hit as (l & r & -> & Hl).
    eexists _, _, _, _. pose proof (array_hole l it r i Ht (eq_sym Hl)) as Hh. split; [exact Hh|].
    pose proof (ho_step _ _ _ _ _ _ Hh off (ti_value it)) as Hs. cbn beta in Hs.
    rewrite <- (ho_self _ _ _ _ _ _ Hh) in Hs. unfold step in Hs. cbn [place kind] in Hs.
    rewrite E in Hs. rewrite H in Hs. by injection Hs.
  - cbn [place] in H. rewrite step_object in H.
    apply pick_index in H as (i & Hi & Hp).
    assert (length (snd <$> filter (fun m => entry_key m = name) (place_members place (S off) ms)) =
      length (filter (fun m => key_of m = name) ms)) as El by (rewrite length_fmap; apply place_members_filter).
    rewrite El in Hp. apply lookup_lt_Some in Hi as Hlt. rewrite El in Hlt.
    destruct (lookup_lt_is_Some_2 (filter (fun m => key_of m = name) ms) _ Hlt) as [m Hm].
    apply filter_lookup_split in Hm as (l & r & -> & Hl & Hk).
    eexists _, _, _, _. pose proof (object_hole l m r name occ i Ht Hk Hl Hp) as Hh. split; [exact Hh|].
    pose proof (ho_step _ _ _ _ _ _ Hh off (ti_value (tm_item m))) as Hs. cbn beta in Hs.
    rewrite <- (ho_self _ _ _ _ _ _ Hh) in Hs. cbn [place] in Hs. rewrite step_object in Hs.
    rewrite (Hp _ _ n) in Hs; [by injection Hs|done|done].
Qed.

Lemma walk_hole steps off t n :
  readable t -> walk (place off t) steps = Ok n ->
  exists x fill pre post, t = fill x /\ readable x /\ n = place (off + length pre) x /\
    (forall y, print (fill y) = pre ++ print y ++ post) /\
    (forall y o, walk (place o (fill y)) steps = Ok (place (o + length pre) y)) /\
    (forall y, readable y -> readable (fill y)) /\
    (forall y D, (depth (fill x) <= D + length steps)%nat -> (depth y <= D)%nat ->
       (depth (fill y) <= D + length steps)%nat).
Proof.
  revert off t. induction steps as [|st steps IH]; intros off t Ht H; cbn [walk] in H.
  - injection H as <-. exists t, (fun y => y), [], []. split_and!; try done.
    + by rewrite Nat.add_0_r.
    + intros y. by rewrite app_nil_r.
    + intros y o. by rewrite Nat.add_0_r.
    + intros y D _ Hy. simpl. lia.
  - destruct (step (place off t) st) as [n1|] eqn:E; cbn [rbind] in H; [|done].
    destruct (step_hole off t st n1 Ht E) as (x1 & f1 & p1 & q1 & [S1 S2 S3 S4 S5 S6 S7] & ->).
    destruct (IH _ _ S2 H) as (x & f2 & p2 & q2 & T1 & T2 & T3 & T4 & T5 & T6 & T7).
    exists x, (fun y => f1 (f2 y)), (p1 ++ p2), (q2 ++ q1). subst t x1 n. split_and!; try done.
    + rewrite length_app. f_equal. lia.
    + intros y. rewrite S3, T4, <- !app_assoc. done.
    + intros y o. cbn [walk]. rewrite S4. cbn [rbind]. rewrite T5, length_app. do 2 f_equal. lia.
    + intros y Hy. by apply S5, T6.
    + intros y D Hd Hy. cbn [length] in *. rewrite Nat.add_succ_r in *. apply S7; [done|].
      apply T7; [lia|done].
Qed.

(** ** Printing a path *)

Definition print_step (s : Step) : str :=
  match s with
  | SMember name occ =>
      [91; 34] ++ name ++ [34; 93]
      ++ match occ with Some n => 35 :: (bz <$> print_unsigned n) | None => [] end
  | SIndex i => 91 :: (bz <$> print_unsigned i) ++ [93]
  end.
Definition print_path (steps : list Step) : str := 36 :: steps ≫= print_step.

(** Steps that can be written between quotes, with numbers of the machine. *)
Definition printable (s : Step) : Prop :=
  match s with
  | SMember name occ =>
      (34 ∉ name) /\ match occ with Some n => 1 <= n <= u32_max | None => True end
  | SIndex i => 0 <= i <= usize_max
  end.

Lemma span_while_app p a r :
  Forall (fun c => p c = true) a -> match r with c :: _ => p c = false | [] => True end ->
  span_while p (a ++ r) = (a, r).
Proof.
  induction 1 as [|c a Hc _ IH]; intros Hr; simpl.
  - destruct r as [|c r]; simpl; [done|]. by rewrite Hr.
  - by rewrite Hc, IH.
Qed.

Definition not_digit_head (r : str) : Prop :=
  match r with
  | c :: _ => is_digit c = false
  | [] => True
  end.

Lemma span_number n r :
  0 <= n -> not_digit_head r ->
  span_while is_digit ((bz <$> print_unsigned n) ++ r) = (bz <$> print_unsigned n, r).
Proof.
  intros Hn Hr. apply span_while_app; [|done]. apply Forall_fmap.
  destruct (print_unsigned_spec n Hn) as (_ & Hd & _). eapply Forall_impl; [exact Hd|].
  intros b Hb. unfold compose, is_digit. apply is_ascii_digit_spec in Hb. by apply bool_decide_eq_true.
Qed.

Lemma parse_printed max n : 0 <= n <= max -> parse_number max (bz <$> print_unsigned n) = Some n.
Proof.
  intros Hn. unfold parse_number. rewrite <- list_fmap_compose.
  rewrite (list_fmap_ext _ id) by (intros; apply zb_bz). rewrite list_fmap_id. by apply parse_unsigned_print.
Qed.

Lemma print_not_nil n : 0 <= n -> exists c r, bz <$> print_unsigned n = c :: r /\ is_digit c = true.
Proof.
  intros Hn. destruct (print_unsigned_spec n Hn) as (Hne & Hd & _).
  destruct (print_unsigned n) as [|b l]; [done|]. apply Forall_cons in Hd as [Hb _].
  exists (bz b), (bz <$> l). split; [done|]. apply is_ascii_digit_spec in Hb. by apply bool_decide_eq_true.
Qed.

Lemma parse_occurrence_print occ r :
  match occ with Some n => 1 <= n <= u32_max | None => True end ->
  not_digit_head r -> head r <> Some 35 ->
  parse_occurrence (match occ with Some n => 35 :: (bz <$> print_unsigned n) | None => [] end ++ r)
    = Ok (occ, r).
Proof.
  intros Hocc Hr H35. unfold parse_occurrence. destruct occ as [n|]; cbn [app].
  - rewrite decide_True by done. rewrite span_number by (done || lia).
    destruct (print_not_nil n) as (c & l & E & _); [lia|].
    rewrite decide_False by (by rewrite E). rewrite parse_printed by lia.
    by rewrite decide_False by lia.
  - destruct r as [|c r]; [done|]. rewrite decide_False; [done|]. intros ->. done.
Qed.

Lemma parse_bracket_print s r :
  printable s -> not_digit_head r -> head r <> Some 35 ->
  exists body, print_step s = 91 :: body /\ parse_bracket (body ++ r) = Ok (s, r).
Proof.
  intros Hs Hr H35. destruct s as [name occ|i]; cbn [print_step].
  - eexists. split; [reflexivity|]. cbn [app]. rewrite <- app_assoc. cbn [app]. unfold parse_bracket. cbn [head tail].
    rewrite decide_True by done. destruct Hs as [Hn Ho]. rewrite span_while_app; [|apply Forall_forall|done].
    + cbn [head tail]. rewrite decide_False by (intros H; by apply H). by rewrite parse_occurrence_print.
    + intros c Hc. rewrite bool_decide_eq_false_2; [done|]. by intros ->.
  - eexists. split; [reflexivity|]. rewrite <- app_assoc. cbn [app].
    destruct (print_not_nil i) as (c & l & E & Hc); [by destruct Hs|].
    unfold parse_bracket. rewrite decide_False.
    2:{ rewrite E. intros [= ->]. by vm_compute in Hc. }
    rewrite span_number by (done || by destruct Hs). cbn [head tail].
    rewrite decide_False by (rewrite E; by intros [?|?]). by rewrite parse_printed.
Qed.

Lemma parse_steps_print steps fuel :
  Forall printable steps -> (length (steps ≫= print_step) <= fuel)%nat ->
  parse_steps fuel (steps ≫= print_step) = Ok steps.
Proof.
  intros Hs. revert fuel. induction Hs as [|s steps Hp Hs IH]; intros fuel Hf; cbn [mbind list_bind].
  { by destruct fuel. }
  assert (not_digit_head (steps ≫= print_step) /\ head (steps ≫= print_step) <> Some 35) as [Hr H35].
  { destruct steps as [|s2 steps]; [done|]. cbn [mbind list_bind]. by destruct s2. }
  destruct (parse_bracket_print s _ Hp Hr H35) as (body & E & Eb). cbn [mbind list_bind] in Hf.
  rewrite E in *. cbn [app length] in *. destruct fuel as [|fuel]; [lia|]. cbn [parse_steps].
  rewrite decide_False, decide_True by done. rewrite Eb. cbn [rbind fst snd].
  rewrite IH by (rewrite length_app in Hf; lia). done.
Qed.

(** ** Properties *)

(** C6. The parser is the grammar of JSON read backwards, over bytes: it
    accepts a text exactly if the text is a printed tree of the grammar between
    blanks, nested no deeper than the limit, in which every member's name
    denotes Unicode text (a grammatical name that is a lone surrogate or is not
    UTF-8 is refused: [undecodable_name_refused]); its document is then the
    source itself with, for every value of the tree, one node whose span is
    exactly where that value is printed. *)
Theorem json_parse_exact s lim doc :
  parse s lim = Ok doc <->
  exists w t w', s = w ++ print t ++ w' /\ blank w /\ wf t /\ blank w' /\ names_decode t /\
    (depth t <= max_depth lim)%nat /\ doc = mkDocument s (place (length w) t).
Proof.
  split.
  - intros (w & t & w' & -> & Hw & [Ht Hn]%readable_spec & Hw' & Hd & ->)%parse_sound.
    by exists w, t, w'.
  - intros (w & t & w' & -> & Hw & Ht & Hw' & Hn & Hd & ->).
    apply parse_complete; [done|by apply readable_spec|done|done].
Qed.

(** A grammatical document one of whose names is a lone surrogate is refused
    whole, though the same surrogate as a value is kept. *)
Definition surrogate_name : bytes := x22 :: x5c :: bs "ud800" ++ [x22].

Lemma undecodable_name_refused :
  let named := TObject [mkTMember [] surrogate_name [] (mkItem [] TNull [])] in
  let valued := TArray [mkItem [] (TString surrogate_name) []] in
  wf named /\ wf valued /\
  parse (print named) default_limits = Err (Syntax 1 "bad key escape") /\
  parse (print valued) default_limits = Ok (mkDocument (print valued) (place 0 valued)).
Proof.
  assert (string_text surrogate_name) as H.
  { exists (x5c :: bs "ud800"). split; [done|]. apply body_unicode; [repeat constructor|constructor]. }
  cbn zeta. split_and!; try (vm_compute; reflexivity).
  - split; [done|]. split; [|done]. repeat split; try constructor. exact H.
  - split; [done|]. split; [|done]. repeat split; try constructor. exact H.
Qed.

(** Editing changes one value and nothing else.  When a path resolves to a
    node and a new JSON text is no deeper than the place allows, the edited
    document is the old one with that node's bytes replaced and every other byte
    kept; it parses, and the same path resolves to exactly the new text. *)
Theorem json_replace_exact s lim path steps doc n v dv :
  parse s lim = Ok doc -> parse_path path = Ok steps -> get doc path = Ok n ->
  (length steps <= max_depth lim)%nat ->
  parse v (mkLimits (max_depth lim - length steps)) = Ok dv -> span (root dv) = (0%nat, length v) ->
  exists pre post, s = pre ++ raw doc n ++ post /\
    replace doc path v = Ok (pre ++ v ++ post) /\
    exists doc' n', parse (pre ++ v ++ post) lim = Ok doc' /\ get doc' path = Ok n' /\
      raw doc' n' = v /\ span n' = (length pre, (length pre + length v)%nat).
Proof.
  intros Hdoc Hpath Hget Hle Hv Hspan.
  apply parse_sound in Hdoc as (w & t & w' & -> & Hw & Ht & Hw' & Hd & ->).
  unfold get, replace, get in *. rewrite Hpath in *. cbn [rbind root] in *.
  destruct (walk_hole _ _ _ _ Ht Hget) as (x & fill & pre & post & -> & Hx & -> & Hp & Hs & Hf & Hdep).
  apply parse_sound in Hv as (u & y & u' & -> & Hu & Hy & Hu' & Hdy & ->). cbn [root max_depth] in *.
  assert (span (place (length u) y) = (length u, (length u + length (print y))%nat)) as Esp by (by destruct y).
  rewrite Esp, !length_app in Hspan. injection Hspan as E1 E2.
  destruct u; [|done]. destruct u'; [|simpl in E2; lia]. cbn [app] in *. rewrite app_nil_r.
  assert (forall o z, span (place o z) = (o, (o + length (print z))%nat)) as Hsp by (by intros o []).
  exists (w ++ pre), (post ++ w').
  assert (forall z, (w ++ pre) ++ print z ++ post ++ w' = w ++ print (fill z) ++ w') as Etext.
  { intros z. rewrite Hp, <- !app_assoc. done. }
  assert (forall z, slice (span (place (length w + length pre) z)) ((w ++ pre) ++ print z ++ post ++ w')
    = print z) as Eslice.
  { intros z. unfold slice. rewrite Hsp. cbn [fst snd].
    rewrite drop_app_length' by (by rewrite length_app).
    replace (length w + length pre + length (print z) - (length w + length pre))%nat
      with (length (print z)) by lia. by rewrite take_app_length. }
  split_and!.
  - unfold raw. cbn [source]. rewrite <- Etext, Eslice. done.
  - rewrite Hget. cbn [rbind source]. rewrite Hsp. cbn [fst snd]. rewrite <- Etext.
    rewrite take_app_length' by (by rewrite length_app).
    rewrite (app_assoc (w ++ pre) (print x)), drop_app_length' by (rewrite !length_app; lia). done.
  - rewrite Etext. eexists _, (place (length w + length pre) y). split_and!.
    + apply parse_complete; [done|by apply Hf|done|].
      replace (max_depth lim) with (max_depth lim - length steps + length steps)%nat by lia.
      apply Hdep; [lia|done].
    + cbn [root]. apply Hs.
    + unfold raw. cbn [source]. by rewrite <- Etext, Eslice.
    + rewrite Hsp, length_app. done.
Qed.

Definition sample_json : bytes := (fun b => if decide (b = "'"%byte) then x22 else b) <$>
  bs " {'a': [1.2300, -0], 'b':{'a':null,'a' : true}} ".
Definition sample_path : str := chars ".b.a#2".

Lemma json_replace_exact_witness :
  exists doc n dv, parse sample_json default_limits = Ok doc /\ get doc sample_path = Ok n /\
    parse (bs "[7]") (mkLimits 126) = Ok dv /\
    exists pre post, replace doc sample_path (bs "[7]") = Ok (pre ++ bs "[7]" ++ post).
Proof.
  destruct (parse sample_json default_limits) as [doc|] eqn:E1; [|vm_compute in E1; done].
  destruct (get doc sample_path) as [n|] eqn:E2.
  2:{ vm_compute in E1. injection E1 as <-. vm_compute in E2. done. }
  destruct (parse (bs "[7]") (mkLimits 126)) as [dv|] eqn:E3; [|vm_compute in E3; done].
  exists doc, n, dv. split; [reflexivity|]. split; [exact E2|]. split; [reflexivity|].
  destruct (json_replace_exact sample_json default_limits sample_path
    [SMember (chars "b") None; SMember (chars "a") (Some 2)] doc n (bs "[7]") dv) as (pre & post & _ & H & _);
    [exact E1|vm_compute; reflexivity|exact E2|simpl; lia|exact E3|vm_compute in E3; by injection E3 as <-|].
  by exists pre, post.
Defined.

(** A duplicated member is never picked silently.  In a parsed document,
    naming a member without an occurrence resolves only if the name is unique in
    its object and is refused as ambiguous, with the count, otherwise; the
    occurrence [n] resolves to the [n]th member of that name in source order,
    and to nothing when there is none. *)
Theorem member_addressing s lim doc path n ms name :
  parse s lim = Ok doc -> get doc path = Ok n -> kind n = JObject ms ->
  let same := filter (fun m => key m = name) ms in
  step n (SMember name None) =
    match same with
    | [] => Err NoSuchPath
    | [m] => Ok (member_value m)
    | _ => Err (AmbiguousMember name (Z.min (zlen same) u32_max))
    end /\
  (forall i, 1 <= i ->
     step n (SMember name (Some i)) = ok_or (member_value <$> same !! Z.to_nat (i - 1)) NoSuchPath) /\
  (forall i m, same !! i = Some m ->
     occurrence m = Z.of_nat i + 1).
Proof.
  intros Hdoc Hget Hk. cbn zeta.
  apply parse_sound in Hdoc as (w & t & w' & -> & Hw & Ht & Hw' & Hd & ->).
  unfold get in Hget. destruct (parse_path path) as [steps|]; cbn [rbind root] in Hget; [|done].
  destruct (walk_hole _ _ _ _ Ht Hget) as (x & fill & pre & post & _ & _ & -> & _).
  assert (exists raws, ms = members_of raws) as [raws ->].
  { destruct x; cbn [place kind] in Hk; try done; [|by injection Hk as <-; eexists].
    injection Hk as <-. by exists []. }
  assert (filter (fun m => key m = name) (members_of raws) =
    number_from 0 (default 1 (totals_of ((fun m => m.1.2) <$> raws) !! name))
      (filter (fun m => entry_key m = name) raws)) as Ef.
  { unfold members_of. by rewrite number_members_filter, lookup_empty. }
  set (total := default 1 _) in Ef. set (vs := filter (fun m => entry_key m = name) raws) in Ef.
  assert (forall i : nat, number_from 0 total vs !! i =
    (fun m : raw_entry => mkMember m.1.1 m.1.2 (0 + Z.of_nat i + 1) total m.2) <$> vs !! i) as Hnum.
  { intros i. unfold number_from. by rewrite list_lookup_imap. }
  assert (kind (place (length w + length pre) x) = JObject (members_of raws)) as Hk' by done.
  destruct (place (length w + length pre) x) as [sp k]. cbn [kind] in Hk'. subst k.
  rewrite Ef. split_and!.
  - rewrite step_object. fold vs. destruct vs as [|v1 [|v2 vs']]; [done| |].
    + rewrite number_from_cons. done.
    + rewrite !number_from_cons. unfold pick. cbn [fmap list_fmap]. do 3 f_equal.
      unfold zlen, number_from. simpl. by rewrite length_imap, length_fmap.
  - intros i Hi. rewrite step_object. fold vs. rewrite pick_nth, Hnum, list_lookup_fmap by done.
    by destruct (vs !! Z.to_nat (i - 1)).
  - intros i m. rewrite Hnum. destruct (vs !! i); [|done]. intros [= <-]. simpl. lia.
Qed.

Lemma member_addressing_witness :
  exists doc n ms, parse sample_json default_limits = Ok doc /\ get doc (chars "$.b") = Ok n /\
    kind n = JObject ms /\
    step n (SMember (chars "a") None) = Err (AmbiguousMember (chars "a") 2).
Proof.
  destruct (parse sample_json default_limits) as [doc|] eqn:E1; [|vm_compute in E1; done].
  destruct (get doc (chars "$.b")) as [n|] eqn:E2.
  2:{ vm_compute in E1. injection E1 as <-. vm_compute in E2. done. }
  destruct (kind n) as [| | | |items|ms] eqn:Ek;
    try (vm_compute in E1; injection E1 as <-; vm_compute in E2; injection E2 as <-; done).
  exists doc, n, ms. split; [reflexivity|]. split; [exact E2|]. split; [exact Ek|].
  rewrite (proj1 (member_addressing sample_json default_limits doc (chars "$.b") n ms (chars "a") E1 E2 Ek)).
  vm_compute in E1. injection E1 as <-. vm_compute in E2. injection E2 as <-.
  injection Ek as <-. vm_compute. reflexivity.
Defined.

(** A path printed with quoted members and occurrences parses back to its
    steps. *)
Theorem path_roundtrip steps :
  Forall printable steps -> parse_path (print_path steps) = Ok steps.
Proof.
  intros Hs. unfold parse_path, print_path. cbn [head tail]. rewrite decide_True by done.
  by apply parse_steps_print.
Qed.

Lemma path_roundtrip_witness :
  parse_path (print_path [SMember (chars "x.y") (Some 2); SIndex 7]) =
  Ok [SMember (chars "x.y") (Some 2); SIndex 7].
Proof.
  apply path_roundtrip. repeat constructor; vm_compute; try done.
  intros H. repeat (apply elem_of_cons in H as [H|H]; [done|]). by apply elem_of_nil in H.
Defined.
