(* ===== verification/Projection.v ===== *)
(** * The JSON projection of a reply ([crates/pr-application/src/json_projection.rs])

    One reply as the JSON text of [--json], with a notice for everything the
    text leaves out.  Texts are [str]; the parser they are read back with is
    [Json]. *)

From S2P Require Import Prelude Text TextFacts Value Decoder Output Json JsonGrammar.

(** ** Notices *)

Inductive Notice :=
| NonUtf8 (len : Z)
| NonFiniteDouble (lexeme : str)
| DuplicateMapKeys
| NonStringMapKey
| AttributeDiscarded
| VerbatimFormatDiscarded (format : str).

#[export] Instance Notice_eq_dec : EqDecision Notice.
Proof. solve_decision. Defined.

(** [debug] is [{:?}] of a string: the escapes of the library's tables. *)
Definition notice_message (debug : str -> str) (n : Notice) : str :=
  match n with
  | NonUtf8 len =>
      chars "a " ++ (bz <$> print_unsigned len)
      ++ quoted "-byte value is not valid UTF-8 and was encoded as {'$bytes': base64}"
  | NonFiniteDouble lexeme =>
      chars "the double " ++ lexeme ++ chars " has no JSON number form and was encoded as a string"
  | DuplicateMapKeys =>
      chars "the reply has duplicate keys, so it was encoded as an array of pairs rather "
      ++ chars "than an object"
  | NonStringMapKey =>
      chars "the reply has a key that is not a string, so it was encoded as an array of "
      ++ chars "pairs rather than an object"
  | AttributeDiscarded => chars "an attribute was discarded; use --output typed-json to see it"
  | VerbatimFormatDiscarded format =>
      chars "the verbatim format tag " ++ debug format
      ++ chars " was discarded; use --output typed-json to see it"
  end.

Inductive Strictness := Lenient | Strict.
Inductive Protocol := Two | Three.

#[export] Instance Strictness_eq_dec : EqDecision Strictness.
Proof. solve_decision. Defined.

Record Projection := mkProjection {
  json : str;
  notices : list Notice;
  refused : option Notice;
}.

Definition projection_ok (p : Projection) : bool := bool_decide (refused p = None).

Fixpoint is_error (v : Value) : bool :=
  match v with
  | VError _ | VBulkError _ => true
  | VAttribute _ value => is_error value
  | _ => false
  end.

(** ** Doubles

    Whether a literal is a finite [f64]: a magnitude of [m * 10^e] is rounded to
    infinity from [2^1024 - 2^970], half a unit above the largest one, on. *)

Definition digits_value (ds : bytes) : Z := default 0 (digits_from 0 ds).

Definition f64_overflow : Z := 2 ^ 1024 - 2 ^ 970.

Definition exponent_of (s : bytes) : Z :=
  match s with
  | _ :: r =>
      let v := digits_value (strip_sign r) in
      if decide (head r = Some "-"%byte) then - v else v
  | [] => 0
  end.

(** Mantissa and exponent of a literal that [float_number] accepts. *)
Definition float_parts (s : bytes) : Z * Z :=
  let '(n, t) := skip_digits s in
  if decide (head t = Some "."%byte) then
    let '(m, u) := skip_digits (tail t) in
    (digits_value (take n s ++ take m (tail t)), exponent_of u - Z.of_nat m)
  else (digits_value (take n s), exponent_of t).

Definition f64_finite (s : bytes) : bool :=
  let u := strip_sign s in
  float_number u &&
  (let '(m, e) := float_parts u in
   bool_decide (m = 0) ||
   (if decide (0 <= e) then bool_decide (m * 10 ^ e < f64_overflow)
    else bool_decide (m < f64_overflow * 10 ^ (- e)))).

(** ** Rendering *)

(** What has been said so far: the notices and the refusal. *)
Abbreviation notes := (list Notice * option Notice)%type.

Definition notify (n : Notice) (st : notes) : notes := (st.1 ++ [n], st.2).

Definition string_or_bytes (b : bytes) (s : Strictness) (st : notes) : str * notes :=
  match from_utf8 b with
  | Some t => (json_string t, st)
  | None =>
      let n := NonUtf8 (zlen b) in
      if decide (s = Strict) then
        (chars "null", (st.1, match st.2 with None => Some n | Some r => Some r end))
      else (quoted "{'$bytes':'" ++ (bz <$> base64 b) ++ quoted "'}", notify n st)
  end.

Definition double (lex : bytes) (st : notes) : str * notes :=
  let text := from_utf8_lossy lex in
  if f64_finite (encode_str text) then (text, st)
  else (json_string text, notify (NonFiniteDouble text) st).

(** [iter().map(..).collect()] of a function that records notes. *)
Section map_notes.
Context {A B : Type} (f : A -> notes -> B * notes).

Fixpoint map_notes (l : list A) (st : notes) : list B * notes :=
  match l with
  | [] => ([], st)
  | x :: r =>
      let '(y, st) := f x st in
      let '(ys, st) := map_notes r st in
      (y :: ys, st)
  end.
End map_notes.

(** The same over the entries of a map and their keys, [zip]ped. *)
Section map_members.
Context (f : Value -> notes -> str * notes).

Fixpoint map_members (entries : list (Value * Value)) (keys : list str) (st : notes)
  : list str * notes :=
  match entries, keys with
  | (_, v) :: r, k :: ks =>
      let '(y, st) := f v st in
      let '(ys, st) := map_members r ks st in
      ((json_string k ++ chars ":" ++ y) :: ys, st)
  | _, _ => ([], st)
  end.
End map_members.

Definition comma_list (opening closing : Z) (parts : list str) : str :=
  opening :: join [44] parts ++ [closing].

(** The keys of a map, if all of them are text. *)
Definition text_key (k : Value) : option str :=
  match k with
  | VSimple b | VBulk b => from_utf8 b
  | _ => None
  end.
Fixpoint text_keys (entries : list (Value * Value)) : option (list str) :=
  match entries with
  | [] => Some []
  | (k, _) :: r => k' ← text_key k; cons k' <$> text_keys r
  end.

Definition format_bytes (f : byte * byte * byte) : bytes := let '(a, b, c) := f in [a; b; c].

Section render.
Context (strictness : Strictness).

Fixpoint render (v : Value) (st : notes) : str * notes :=
  match v with
  | VSimple b | VBulk b => string_or_bytes b strictness st
  | VInteger n => (bz <$> print_signed n, st)
  | VDouble lex => double lex st
  | VBigNumber d => (json_string (from_utf8_lossy d), st)
  | VBoolean t => (chars (if t then "true" else "false"), st)
  | VNull _ => (chars "null", st)
  | VArray items | VSet items | VPush items =>
      let '(parts, st) := map_notes render items st in (comma_list 91 93 parts, st)
  | VMap entries =>
      let as_pairs st :=
        let '(parts, st) := map_notes (fun e st =>
          let '(k, st) := render e.1 st in
          let '(v, st) := render e.2 st in
          (chars "[" ++ k ++ chars "," ++ v ++ chars "]", st)) entries st in
        (comma_list 91 93 parts, st) in
      match text_keys entries with
      | None => as_pairs (notify NonStringMapKey st)
      | Some keys =>
          if decide (length (remove_dups keys) <> length keys)
          then as_pairs (notify DuplicateMapKeys st)
          else
            let '(parts, st) := map_members render entries keys st in
            (comma_list 123 125 parts, st)
      end
  | VVerbatim format data =>
      string_or_bytes data strictness
        (notify (VerbatimFormatDiscarded (from_utf8_lossy (format_bytes format))) st)
  | VError b | VBulkError b =>
      (quoted "{'error':" ++ json_string (from_utf8_lossy b) ++ chars "}", st)
  | VAttribute _ value => render value (notify AttributeDiscarded st)
  end.
End render.

(** [protocol] is passed around and decides nothing. *)
Definition project (v : Value) (protocol : Protocol) (s : Strictness) : Projection :=
  let '(text, st) := render s v ([], None) in mkProjection text st.1 st.2.

Definition project_many (vs : list Value) (protocol : Protocol) (s : Strictness) : Projection :=
  match vs with
  | [one] => project one protocol s
  | _ =>
      let '(lines, st) := map_notes (render s) vs ([], None) in
      mkProjection (join [10] lines) st.1 st.2
  end.

(** ** Strings *)

Lemma forall_below (n : nat) (P : Z -> bool) (c : Z) :
  forallb P (Z.of_nat <$> List.seq 0 n) = true -> 0 <= c < Z.of_nat n -> P c = true.
Proof.
  intros H Hc. rewrite forallb_forall in H. apply H, list_elem_of_In, list_elem_of_fmap.
  exists (Z.to_nat c). split; [lia|]. apply elem_of_seq. lia.
Qed.

(** The bytes of a character that is not escaped. *)
Lemma encode_plain c :
  scalar c -> 32 <= c -> c <> 34 -> c <> 92 ->
  Forall (fun b => b <> x22 /\ b <> x5c /\ 31 < bz b) (encode_char c).
Proof.
  intros Hs Hc H1 H2.
  assert (forall z, 31 < z < 256 -> z <> 34 -> z <> 92 -> zb z <> x22 /\ zb z <> x5c /\ 31 < bz (zb z)) as Hz.
  { intros z Hz Hz1 Hz2. rewrite bz_zb by lia. split_and!; [| |lia].
    - intros E. apply (f_equal bz) in E. rewrite bz_zb in E by lia. by change (bz x22) with 34 in E.
    - intros E. apply (f_equal bz) in E. rewrite bz_zb in E by lia. by change (bz x5c) with 92 in E. }
  unfold scalar in Hs. unfold encode_char. repeat case_decide; repeat constructor;
    apply Hz; Z.to_euclidean_division_equations; lia.
Qed.

Lemma string_body_plain bs' r :
  Forall (fun b => b <> x22 /\ b <> x5c /\ 31 < bz b) bs' -> string_body r -> string_body (bs' ++ r).
Proof. induction 1 as [|b l (H1 & H2 & H3) _ IH]; intros Hr; simpl; [done|]. constructor; auto. Qed.

(** An escaped character: a two-byte escape, or four digits. *)
Definition escape_ok (c : Z) : bool :=
  match encode_str (json_char c) with
  | [b; e] => bool_decide (b = x5c) && simple_escape e && bool_decide (e <> "u"%byte) &&
              bool_decide (escaped_char e = Some c)
  | [b; u; h1; h2; h3; h4] =>
      bool_decide (b = x5c) && bool_decide (u = "u"%byte) &&
      forallb is_ascii_hexdigit [h1; h2; h3; h4] && bool_decide (hex_u16 [h1; h2; h3; h4] = Some c)
  | _ => false
  end.

Lemma escapes_ok c : 0 <= c < 32 \/ c = 34 \/ c = 92 -> escape_ok c = true.
Proof.
  intros [Hc|[->| ->]]; [|by vm_compute..]. apply (forall_below 32); [by vm_compute|lia].
Qed.

Lemma json_char_plain c : 32 <= c -> c <> 34 -> c <> 92 -> json_char c = [c].
Proof. intros H1 H2 H3. unfold json_char. by rewrite !decide_False by lia. Qed.

Definition escapes (c : Z) : Prop := 0 <= c < 32 \/ c = 34 \/ c = 92.
Lemma escapes_or_plain c : scalar c -> escapes c \/ (32 <= c /\ c <> 34 /\ c <> 92).
Proof. unfold scalar, escapes. lia. Qed.

Lemma json_body_text s : Forall scalar s -> string_body (encode_str (s ≫= json_char)).
Proof.
  induction 1 as [|c s Hc _ IH]; [constructor|]. cbn [mbind list_bind]. rewrite encode_str_app.
  destruct (escapes_or_plain c Hc) as [He|(H1 & H2 & H3)].
  - apply escapes_ok in He. unfold escape_ok in He.
    destruct (encode_str (json_char c)) as [|b [|e [|h1 [|h2 [|h3 [|h4 [|]]]]]]]; try done.
    + rewrite !andb_true_iff, bool_decide_eq_true in He. destruct He as [[[-> He] _] _]. by constructor.
    + rewrite !andb_true_iff, !bool_decide_eq_true in He. destruct He as [[[-> ->] Hh] _].
      constructor; [|done]. apply Forall_forall. intros h Hin. rewrite forallb_forall in Hh.
      by apply Hh, list_elem_of_In.
  - rewrite json_char_plain by done. unfold encode_str at 1. cbn [mbind list_bind]. rewrite app_nil_r.
    apply string_body_plain; [by apply encode_plain|done].
Qed.

Lemma encode_json_string s :
  encode_str (json_string s) = x22 :: encode_str (s ≫= json_char) ++ [x22].
Proof. unfold json_string. rewrite !encode_str_app. done. Qed.

Lemma json_string_text s : Forall scalar s -> string_text (encode_str (json_string s)).
Proof. intros Hs. rewrite encode_json_string. eexists. split; [done|]. by apply json_body_text. Qed.

Lemma json_char_scalar c : scalar c -> Forall scalar (json_char c).
Proof.
  intros Hc. destruct (escapes_or_plain c Hc) as [He|(H1 & H2 & H3)].
  - assert (forallb (fun d => bool_decide (0 <= d < 128)) (json_char c) = true) as Hf.
    { destruct He as [He|[->| ->]]; [|by vm_compute..].
      apply (forall_below 32 (fun c => forallb (fun d => bool_decide (0 <= d < 128)) (json_char c)));
        [by vm_compute|lia]. }
    apply Forall_forall. intros d Hd. rewrite forallb_forall in Hf.
    apply list_elem_of_In, Hf, bool_decide_eq_true in Hd. unfold scalar. lia.
  - rewrite json_char_plain by done. constructor; [done|constructor].
Qed.

Lemma get4_cons a b c d r : get4 (a :: b :: c :: d :: r) = Some [a; b; c; d].
Proof. unfold get4. rewrite decide_True by (cbn [length]; lia). done. Qed.

Lemma decode_loop_json s fuel :
  Forall scalar s -> (length (encode_str (s ≫= json_char)) <= fuel)%nat ->
  decode_loop fuel (encode_str (s ≫= json_char)) = Some s.
Proof.
  intros Hs. revert fuel. induction Hs as [|c s Hc Hs IH]; intros fuel Hf.
  { by destruct fuel. }
  cbn [mbind list_bind] in *. rewrite encode_str_app in *. rewrite length_app in Hf.
  destruct (escapes_or_plain c Hc) as [He|(H1 & H2 & H3)].
  - apply escapes_ok in He. unfold escape_ok in He. set (rest := encode_str (s ≫= json_char)) in *.
    destruct (encode_str (json_char c)) as [|b [|e [|h1 [|h2 [|h3 [|h4 [|]]]]]]]; try done;
      cbn [length] in Hf; (destruct fuel as [|fuel]; [lia|]); cbn [app decode_loop].
    + rewrite !andb_true_iff, !bool_decide_eq_true in He. destruct He as [[[-> _] Hu] Hc'].
      rewrite decide_False by (intros H; by apply H). rewrite decide_False by done.
      rewrite Hc'. cbn [mbind option_bind]. by rewrite IH by lia.
    + rewrite !andb_true_iff, !bool_decide_eq_true in He. destruct He as [[[-> ->] _] Hc'].
      rewrite decide_False by (intros H; by apply H). rewrite decide_True by done.
      unfold unicode_escape. rewrite get4_cons. cbn [mbind option_bind]. rewrite Hc'. cbn [mbind option_bind].
      rewrite decide_False, decide_False by (unfold scalar in Hc; lia). cbn [mbind option_bind].
      change (drop 4 (h1 :: h2 :: h3 :: h4 :: rest)) with rest. by rewrite IH by lia.
  - rewrite json_char_plain in * by done. assert (encode_str [c] = encode_char c) as Ec by (unfold encode_str; cbn [mbind list_bind]; by rewrite app_nil_r).
    rewrite Ec in *. pose proof (encode_char_nonempty c) as Hne.
    pose proof (encode_plain c Hc H1 H2 H3) as Hp.
    set (rest := encode_str (s ≫= json_char)) in *.
    destruct fuel as [|fuel]; [lia|]. cbn [decode_loop].
    destruct (encode_char c ++ rest) as [|b r] eqn:E.
    { apply (f_equal length) in E. rewrite length_app in E. simpl in E. lia. }
    assert (b <> x5c) as Hb.
    { destruct (encode_char c) as [|b' r']; [simpl in Hne; lia|]. injection E as <- _.
      apply Forall_cons in Hp as [(_ & ? & _) _]. done. }
    rewrite decide_True by done. rewrite <- E.
    assert (encode_char c ++ rest = encode_str (c :: (s ≫= json_char))) as Ee by done.
    rewrite Ee, from_utf8_encode_str.
    + rewrite <- Ee, drop_app_length, IH by lia. done.
    + constructor; [done|]. apply Forall_bind. eapply Forall_impl; [exact Hs|]. apply json_char_scalar.
Qed.

Lemma decode_json_string s : Forall scalar s -> decode_string (encode_str (json_string s)) = Some s.
Proof.
  intros Hs. unfold decode_string, inner. rewrite encode_json_string. cbn [length]. rewrite length_app.
  cbn [length]. rewrite decide_True by lia. cbn [mbind option_bind drop].
  replace (S (length (encode_str (s ≫= json_char)) + 1) - 2)%nat
    with (length (encode_str (s ≫= json_char))) by lia.
  rewrite ?skipn_cons, ?drop_0, take_app_length. by apply decode_loop_json.
Qed.

(** ** Every rendering is a JSON text *)

(** [text] is a value of the grammar nested at most [n] deep. *)
Definition is_json (n : nat) (text : str) : Prop :=
  exists t, readable t /\ (JsonGrammar.depth t <= n)%nat /\ encode_str text = print t.

Lemma is_json_mono m n text : (m <= n)%nat -> is_json m text -> is_json n text.
Proof. intros H (t & ? & ? & ?). exists t. split_and!; [done|lia|done]. Qed.

Lemma encode_join (parts : list str) :
  encode_str (join [44] parts) = join [","%byte] (encode_str <$> parts).
Proof. exact (encode_join_sep [44] parts). Qed.

Lemma encode_comma_list o c parts :
  0 <= o < 128 -> 0 <= c < 128 ->
  encode_str (comma_list o c parts) = zb o :: join [","%byte] (encode_str <$> parts) ++ [zb c].
Proof.
  intros Ho Hc. unfold comma_list. change (o :: ?x) with ([o] ++ x).
  assert (forall d, 0 <= d < 128 -> encode_str [d] = [zb d]) as Hd.
  { intros d Hd. unfold encode_str, encode_char. cbn [mbind list_bind]. by rewrite decide_True by lia. }
  change (encode_str (o :: join [44] parts ++ [c])) with (encode_str ([o] ++ join [44] parts ++ [c])).
  by rewrite !encode_str_app, encode_join, !Hd.
Qed.

(** A list of values, printed without blanks. *)
Lemma is_json_array n parts :
  Forall (is_json n) parts -> is_json (S n) (comma_list 91 93 parts).
Proof.
  intros Hp. unfold is_json. rewrite encode_comma_list by lia.
  assert (exists ts, encode_str <$> parts = print <$> ts /\
    Forall (fun t => readable t /\ (JsonGrammar.depth t <= n)%nat) ts) as (ts & -> & Hts).
  { induction Hp as [|p parts (t & Ht & Hd & E) _ (ts & Es & Hts)]; [by exists []|].
    exists (t :: ts). rewrite !fmap_cons, E, Es. split; [done|]. by constructor. }
  destruct ts as [|t ts]; [exists (TArray0 []); split_and!; [constructor|simpl; lia|done]|].
  exists (TArray ((fun t => mkItem [] t []) <$> t :: ts)). split_and!.
  - split; [done|]. apply foldr_and_Forall, Forall_fmap. eapply Forall_impl; [exact Hts|].
    intros u [Hu _]. split_and!; [constructor|done|constructor].
  - cbn [JsonGrammar.depth]. apply le_n_S. apply (max_depth_items n). apply Forall_fmap.
    eapply Forall_impl; [exact Hts|]. intros u [Hu Hd]. split; [|done]. split_and!; [constructor|done|constructor].
  - cbn [print]. rewrite <- list_fmap_compose. do 3 f_equal. apply list_fmap_ext. intros _ u _.
    unfold compose, print_item. simpl. by rewrite app_nil_r.
Qed.

(** Members, printed without blanks. *)
Lemma is_json_object n (ms : list (str * str)) :
  Forall (fun m => Forall scalar m.1 /\ is_json n m.2) ms ->
  is_json (S n) (comma_list 123 125 ((fun m => json_string m.1 ++ chars ":" ++ m.2) <$> ms)).
Proof.
  intros Hms. unfold is_json. rewrite encode_comma_list by lia.
  set (member := fun (k : str) (t : tree) => mkTMember [] (encode_str (json_string k)) [] (mkItem [] t [])).
  assert (exists tms, encode_str <$> ((fun m => json_string m.1 ++ chars ":" ++ m.2) <$> ms) =
      print_member print <$> tms /\ Forall (member_fits n) tms) as (tms & -> & Htms).
  { induction Hms as [|m ms (Hk & t & Ht & Hd & E) _ (tms & Es & Htms)]; [by exists []|].
    exists (member m.1 t :: tms). rewrite !fmap_cons, Es. split.
    - f_equal. rewrite !encode_str_app, E. unfold member, print_member, print_item. simpl.
      by rewrite app_nil_r.
    - constructor; [|done]. split; [|done]. unfold member_readable, member. cbn [tm_before tm_key tm_gap tm_item].
      split_and!; [constructor|by apply json_string_text|by rewrite decode_json_string|constructor|].
      split_and!; [constructor|done|constructor]. }
  destruct tms as [|tm tms]; [exists (TObject0 []); split_and!; [constructor|simpl; lia|done]|].
  exists (TObject (tm :: tms)). split_and!.
  - split; [done|]. apply foldr_and_Forall. eapply Forall_impl; [exact Htms|]. by intros ? [? _].
  - cbn [JsonGrammar.depth]. apply le_n_S. by apply (max_depth_members n).
  - done.
Qed.

Lemma is_json_string s : Forall scalar s -> is_json 1 (json_string s).
Proof. intros Hs. exists (TString (encode_str (json_string s))). split_and!; [by apply json_string_text|simpl; lia|done]. Qed.

(** Text without characters to escape is its own JSON string. *)
Lemma json_string_plain s :
  Forall (fun c => 32 <= c /\ c <> 34 /\ c <> 92) s -> json_string s = [34] ++ s ++ [34].
Proof.
  intros Hs. unfold json_string. do 2 f_equal. induction Hs as [|c s (H1 & H2 & H3) _ IH]; [done|].
  cbn [mbind list_bind]. rewrite json_char_plain by done. cbn [app]. by rewrite IH.
Qed.

Lemma base64_text b : Forall (fun c => 32 <= c < 128 /\ c <> 34 /\ c <> 92) (bz <$> base64 b).
Proof.
  apply Forall_fmap. unfold base64. apply Forall_concat, Forall_fmap, Forall_true. intros c.
  assert (forall n, 32 <= bz (base64_char n) < 128 /\ bz (base64_char n) <> 34 /\ bz (base64_char n) <> 92) as Hc.
  { intros n. unfold base64_char.
    assert (forallb (fun b => bool_decide (32 <= bz b < 128 /\ bz b <> 34 /\ bz b <> 92)) base64_alphabet = true)
      as Hf by (by vm_compute).
    rewrite forallb_forall in Hf. eapply bool_decide_eq_true, Hf, nth_In.
    change 63 with (Z.ones 6). rewrite Z.land_ones by lia.
    pose proof (Z.mod_pos_bound n (2 ^ 6) ltac:(lia)). change (length base64_alphabet) with 64%nat. lia. }
  unfold base64_chunk. simpl. repeat (apply Forall_cons; split; [first [apply Hc|case_decide; [apply Hc|]]; by vm_compute|]).
  constructor.
Qed.

Lemma scalar_chars s : Forall scalar (chars s).
Proof.
  apply Forall_fmap, Forall_true. intros b. pose proof (bz_range b). unfold compose, scalar. lia.
Qed.

Lemma is_json_bytes b : is_json 2 (quoted "{'$bytes':'" ++ (bz <$> base64 b) ++ quoted "'}").
Proof.
  pose proof (base64_text b) as Hb.
  assert (quoted "{'$bytes':'" ++ (bz <$> base64 b) ++ quoted "'}" =
    comma_list 123 125 ((fun m => json_string m.1 ++ chars ":" ++ m.2) <$>
      [(chars "$bytes", json_string (bz <$> base64 b))])) as ->.
  { rewrite (json_string_plain (bz <$> base64 b)).
    - cbn [fmap list_fmap join fst snd comma_list]. unfold comma_list. cbn [join fst snd].
      change (json_string (chars "$bytes")) with (quoted "'$bytes'").
      rewrite <- !app_assoc. reflexivity.
    - eapply Forall_impl; [exact Hb|]. naive_solver. }
  apply is_json_object. constructor; [|constructor]. cbn [fst snd]. split.
  - apply scalar_chars.
  - apply is_json_string. eapply Forall_impl; [exact Hb|]. unfold scalar. naive_solver lia.
Qed.

Lemma is_json_error s : Forall scalar s -> is_json 2 (quoted "{'error':" ++ json_string s ++ chars "}").
Proof.
  intros Hs.
  assert (quoted "{'error':" ++ json_string s ++ chars "}" =
    comma_list 123 125 ((fun m => json_string m.1 ++ chars ":" ++ m.2) <$> [(chars "error", json_string s)])) as ->.
  { cbn [fmap list_fmap]. unfold comma_list. cbn [join fst snd].
    change (json_string (chars "error")) with (quoted "'error'"). rewrite <- !app_assoc. reflexivity. }
  apply is_json_object. constructor; [|constructor]. cbn [fst snd]. split; [|by apply is_json_string].
  apply scalar_chars.
Qed.

(** *** Numbers *)

Lemma print_digits_lead fuel n acc :
  0 < n < 10 ^ Z.of_nat fuel ->
  exists d r, print_digits fuel n acc = d :: r /\ 49 <= bz d <= 57.
Proof.
  revert n acc. induction fuel as [|f IH]; intros n acc Hn; [simpl in Hn; lia|].
  cbn [print_digits]. case_decide.
  - rewrite Z.mod_small by lia. exists (zb (48 + n)), acc. split; [done|]. rewrite bz_zb by lia. lia.
  - apply IH. rewrite Nat2Z.inj_succ, Z.pow_succ_r in Hn by lia.
    Z.to_euclidean_division_equations; lia.
Qed.

Lemma print_unsigned_int n : 0 <= n -> int_text (print_unsigned n).
Proof.
  intros Hn. destruct (decide (n = 0)) as [->|]; [by left|right].
  destruct (print_unsigned_spec n Hn) as (_ & Hd & _).
  destruct (print_digits_lead (S (Z.to_nat (Z.log2 n))) n []) as (d & r & E & Hr).
  { split; [lia|]. pose proof (Z.log2_spec n ltac:(lia)) as [_ Hl].
    rewrite Nat2Z.inj_succ, Z2Nat.id by apply Z.log2_nonneg.
    eapply Z.lt_le_trans; [exact Hl|]. apply Z.pow_le_mono_l. lia. }
  unfold print_unsigned in *. rewrite E in *. apply Forall_cons in Hd as [_ Hd]. by exists d, r.
Qed.

Lemma is_json_integer z : is_json 1 (bz <$> print_signed z).
Proof.
  exists (TNumber (print_signed z)). split_and!; [|simpl; lia|].
  - unfold print_signed. case_decide.
    + exists ["-"%byte], (print_unsigned (- z)), [], []. rewrite !app_nil_r.
      split_and!; [done|by right|apply print_unsigned_int; lia|by left|by left].
    + exists [], (print_unsigned z), [], []. rewrite !app_nil_r.
      split_and!; [done|by left|apply print_unsigned_int; lia|by left|by left].
  - apply encode_str_ascii, graphic_ascii, print_signed_graphic.
Qed.

Lemma number_text_ascii l : number_text l -> Forall (fun b => bz b < 128) l.
Proof.
  intros (sign & int & frac & exp & -> & Hs & Hi & Hf & He).
  assert (forall ds, digits_text ds -> Forall (fun b => bz b < 128) ds) as Hd.
  { intros ds H. eapply Forall_impl; [exact H|]. intros b Hb. apply is_ascii_digit_spec in Hb. lia. }
  rewrite !Forall_app. split_and!.
  - destruct Hs as [->| ->]; [constructor|]. by repeat constructor.
  - destruct Hi as [->|(d & r & -> & Hr & Hds)]; [by repeat constructor|]. constructor; [lia|by apply Hd].
  - destruct Hf as [->|(ds & -> & _ & Hds)]; constructor; [done|by apply Hd].
  - destruct He as [->|(e & sg & ds & -> & Hce & Hsg & _ & Hds)]; constructor; [by destruct Hce as [->| ->]|].
    apply Forall_app. split; [|by apply Hd]. destruct Hsg as [->|[->| ->]]; by repeat constructor.
Qed.

(** The finite doubles of a value, attributes aside, are written as JSON
    numbers. *)
Definition json_double (lex : bytes) : Prop :=
  f64_finite (encode_str (from_utf8_lossy lex)) = true -> number_text lex.

Fixpoint doubles_ok (v : Value) : Prop :=
  match v with
  | VDouble lex => json_double lex
  | VArray vs | VSet vs | VPush vs => foldr (fun x Q => doubles_ok x /\ Q) True vs
  | VMap es => foldr (fun e Q => (doubles_ok e.1 /\ doubles_ok e.2) /\ Q) True es
  | VAttribute _ w => doubles_ok w
  | _ => True
  end.

Lemma double_json lex st : json_double lex -> is_json 1 (double lex st).1.
Proof.
  intros Hd. unfold double. destruct (f64_finite _) eqn:E; cbn [fst].
  - pose proof (Hd E) as Hn. exists (TNumber lex). split_and!; [done|simpl; lia|].
    rewrite from_utf8_lossy_ascii by (by apply number_text_ascii). by apply encode_str_ascii, number_text_ascii.
  - apply is_json_string, from_utf8_lossy_scalar.
Qed.

Lemma string_or_bytes_json b s st : is_json 2 (string_or_bytes b s st).1.
Proof.
  unfold string_or_bytes. destruct (from_utf8 b) as [t|] eqn:E.
  - apply (is_json_mono 1); [lia|]. by apply is_json_string, (from_utf8_scalars b).
  - case_decide; [|apply is_json_bytes]. exists TNull. split_and!; [done|simpl; lia|done].
Qed.

Lemma map_notes_json {A} (f : A -> notes -> str * notes) n (l : list A) st :
  Forall (fun x => forall st, is_json n (f x st).1) l -> Forall (is_json n) (map_notes f l st).1.
Proof.
  intros Hl. revert st. induction Hl as [|x l Hx _ IH]; intros st; cbn [map_notes]; [constructor|].
  specialize (Hx st). destruct (f x st) as [y st1]. specialize (IH st1).
  destruct (map_notes f l st1) as [ys st2]. by constructor.
Qed.

Lemma map_members_json (f : Value -> notes -> str * notes) n entries keys st :
  Forall (fun e => forall st, is_json n (f e.2 st).1) entries -> Forall (Forall scalar) keys ->
  exists ms, (map_members f entries keys st).1 =
      (fun m => json_string m.1 ++ chars ":" ++ m.2) <$> ms /\
    Forall (fun m => Forall scalar m.1 /\ is_json n m.2) ms.
Proof.
  intros He. revert keys st. induction He as [|[k' v] es Hv _ IH]; intros keys st Hk; cbn [map_members].
  { by exists []. }
  destruct keys as [|k ks]; [by exists []|]. apply Forall_cons in Hk as [Hk Hks].
  specialize (Hv st). cbn [snd] in Hv. destruct (f v st) as [y st1].
  destruct (IH ks st1 Hks) as (ms & E & Hms). destruct (map_members f es ks st1) as [ys st2].
  cbn [fst] in *. exists ((k, y) :: ms). rewrite E. split; [done|]. by constructor.
Qed.

Lemma text_keys_scalar entries keys : text_keys entries = Some keys -> Forall (Forall scalar) keys.
Proof.
  revert keys. induction entries as [|[k v] r IH]; intros keys; cbn [text_keys].
  { intros [= <-]. constructor. }
  destruct (text_key k) as [t|] eqn:E; [|done]. cbn [mbind option_bind].
  destruct (text_keys r) as [ks|]; [|done]. intros [= <-]. constructor; [|by apply IH].
  destruct k; try done; by apply from_utf8_scalars in E.
Qed.

Lemma pair_json n k v : is_json n k -> is_json n v -> is_json (S n) (chars "[" ++ k ++ chars "," ++ v ++ chars "]").
Proof.
  intros Hk Hv.
  assert (chars "[" ++ k ++ chars "," ++ v ++ chars "]" = comma_list 91 93 [k; v]) as ->.
  { unfold comma_list. cbn [join app]. rewrite <- !app_assoc. reflexivity. }
  apply is_json_array. by repeat constructor.
Qed.

(** The elements of an aggregate, from the elements themselves. *)
Definition renders (s : Strictness) (v : Value) : Prop :=
  forall st, doubles_ok v -> is_json (2 * Value.depth v) (render s v st).1.

Lemma list_json s vs st :
  Forall (renders s) vs -> foldr (fun x Q => doubles_ok x /\ Q) True vs ->
  is_json (2 * (1 + max_list (map Value.depth vs)))
    (let '(parts, st) := map_notes (render s) vs st in (comma_list 91 93 parts, st)).1.
Proof.
  intros IH Hv. apply foldr_and_Forall in Hv. set (d := max_list (map Value.depth vs)).
  assert (Forall (is_json (2 * d)) (map_notes (render s) vs st).1) as Hp.
  { apply map_notes_json. assert (d <= d)%nat as Hd by lia. apply max_list_le in Hd.
    apply Forall_map in Hd. rewrite Forall_forall in *. intros x Hx st'.
    eapply is_json_mono; [|by apply IH, Hv]. specialize (Hd x Hx). unfold compose in Hd. lia. }
  destruct (map_notes (render s) vs st) as [parts st']. cbn [fst] in *.
  eapply is_json_mono; [|by apply is_json_array]. lia.
Qed.

Lemma map_json s es st :
  Forall (fun kv => renders s kv.1 /\ renders s kv.2) es -> doubles_ok (VMap es) ->
  is_json (2 * (1 + max_list (map (fun '(k, w) => (Value.depth k `max` Value.depth w)%nat) es)))
    (render s (VMap es) st).1.
Proof.
  intros IH Hv. cbn [doubles_ok] in Hv. apply foldr_and_Forall in Hv.
  set (d := max_list (map _ es)). assert (d <= d)%nat as Hd by lia. apply max_list_le in Hd.
  apply Forall_map in Hd.
  assert (Forall (fun e : Value * Value => (forall st, is_json (2 * d) (render s e.1 st).1) /\
    forall st, is_json (2 * d) (render s e.2 st).1) es) as Hes.
  { rewrite Forall_forall in *. intros [k w] Hx. destruct (IH _ Hx) as [Hk Hw], (Hv _ Hx) as [Vk Vw].
    specialize (Hd _ Hx). cbn in *. split; intros st'; (eapply is_json_mono; [|by auto]); lia. }
  assert (forall st, is_json (2 * (1 + d)) (let '(parts, st) := map_notes (fun e st =>
          let '(k, st) := render s e.1 st in
          let '(v, st) := render s e.2 st in
          (chars "[" ++ k ++ chars "," ++ v ++ chars "]", st)) es st in
        (comma_list 91 93 parts, st)).1) as Hpairs.
  { intros st'. set (f := fun (e : Value * Value) (st : notes) => _).
    assert (Forall (is_json (S (2 * d))) (map_notes f es st').1) as Hp.
    { apply map_notes_json. eapply Forall_impl; [exact Hes|]. intros e [Hk Hw] st2. unfold f.
      specialize (Hk st2). destruct (render s e.1 st2) as [k st3]. specialize (Hw st3).
      destruct (render s e.2 st3) as [w st4]. by apply pair_json. }
    destruct (map_notes f es st') as [parts st2]. cbn [fst] in *.
    eapply is_json_mono; [|by apply is_json_array]. lia. }
  cbn [render]. destruct (text_keys es) as [keys|] eqn:Ek; [|apply Hpairs].
  case_decide; [apply Hpairs|].
  destruct (map_members_json (render s) (2 * d) es keys st) as (ms & E & Hms).
  - eapply Forall_impl; [exact Hes|]. by intros e [_ ?].
  - by eapply text_keys_scalar.
  - destruct (map_members (render s) es keys st) as [parts st']. cbn [fst] in *. subst parts.
    eapply is_json_mono; [|by apply is_json_object]. lia.
Qed.

Lemma render_json s v : renders s v.
Proof. induction v as [b|b|z|b|f|vs IH|t|b|b|b|f b|es IH|vs IH|es v _ IH|vs IH] using value_rect';
    intros st Hv; cbn [render Value.depth].
  - apply string_or_bytes_json.
  - apply is_json_error, from_utf8_lossy_scalar.
  - apply (is_json_mono 1); [lia|]. apply is_json_integer.
  - apply string_or_bytes_json.
  - exists TNull. split_and!; [done|simpl; lia|done].
  - by apply list_json.
  - exists (TBool t). split_and!; [done|simpl; lia|by destruct t].
  - apply (is_json_mono 1); [lia|]. by apply double_json.
  - apply (is_json_mono 1); [lia|]. apply is_json_string, from_utf8_lossy_scalar.
  - apply is_json_error, from_utf8_lossy_scalar.
  - apply string_or_bytes_json.
  - by apply map_json.
  - by apply list_json.
  - eapply is_json_mono; [|by apply IH]. lia.
  - by apply list_json.
Qed.

(** ** Findings *)

(** A double that is not a JSON number is written as it arrived: the decoder
    accepts [+1.5], and the projection is not JSON. *)
Lemma double_sign_not_json :
  decode (mkDecoder (bs ",+1.5" ++ crlf) default_budget) =
    (Ok (SValue (VDouble (bs "+1.5"))), mkDecoder [] default_budget) /\
  notices (project (VDouble (bs "+1.5")) Three Strict) = [] /\
  is_ok (parse (encode_str (json (project (VDouble (bs "+1.5")) Three Strict))) default_limits) = false.
Proof. vm_compute. auto. Qed.

(** ** Properties *)

(** The projection of a reply is always a JSON text.  If the finite doubles
    of a value are written as JSON numbers, then whatever its bytes are, strict
    or not, the text parses, with a nesting of at most twice the value's. *)
Theorem projection_parses v protocol s :
  doubles_ok v ->
  exists doc, parse (encode_str (json (project v protocol s))) (mkLimits (2 * Value.depth v)) = Ok doc.
Proof.
  intros Hv. destruct (render_json s v ([], None) Hv) as (t & Ht & Hd & E).
  unfold project. destruct (render s v ([], None)) as [text st]. cbn [json fst] in *.
  eexists. rewrite E, <- (app_nil_l (print t)), <- (app_nil_r (print t)).
  apply parse_complete; [constructor|done|constructor|done].
Qed.

Definition sample_reply : Value :=
  VMap [(VBulk (bs "a"), VArray [VInteger (-7); VDouble (bs "1.2300"); VBulk [xff; x0a]]);
        (VSimple (bs "b"), VNull NResp3)].

Lemma projection_parses_witness :
  doubles_ok sample_reply /\
  exists doc, parse (encode_str (json (project sample_reply Three Lenient))) (mkLimits 6) = Ok doc.
Proof.
  assert (doubles_ok sample_reply) as H.
  { cbn. split_and!; try done. intros _. exists [], ["1"%byte], (bs ".2300"), [].
    split_and!; [done|by left| |right; exists (bs "2300"); split_and!; [done|done|by repeat constructor]|by left].
    right. exists "1"%byte, []. split_and!; try done. constructor. }
  split; [exact H|]. apply (projection_parses sample_reply Three Lenient H).
Defined.

(** A JSON string is decoded to exactly the text it was written for, control
    characters, quotes and characters beyond the basic plane included. *)
Theorem json_string_roundtrip s :
  Forall scalar s -> decode_string (encode_str (json_string s)) = Some s.
Proof. apply decode_json_string. Qed.

Lemma json_string_roundtrip_witness :
  decode_string (encode_str (json_string [97; 34; 92; 0; 127; 233; 128512])) =
  Some [97; 34; 92; 0; 127; 233; 128512].
Proof. apply json_string_roundtrip. repeat constructor; unfold scalar; lia. Defined.
