(* ===== verification/Width.v ===== *)
(** * Display width under a declared policy ([crates/pr-render/src/width.rs])

    How many columns a character takes is the answer of a library
    ([unicode_width]); it is the class [UnicodeWidth].  Characters are scalar
    values. *)

From S2P Require Import Prelude Text TextFacts.

(** The library's [width] and [width_cjk]; [None] for control characters. *)
Class UnicodeWidth := {
  width : Z -> option Z;
  width_cjk : Z -> option Z;
}.

Class UnicodeWidthLaws (W : UnicodeWidth) : Prop := {
  width_nonneg c w : width c = Some w -> 0 <= w;
  width_cjk_nonneg c w : width_cjk c = Some w -> 0 <= w;
}.

Inductive AmbiguousWidth := Narrow | Wide.
#[export] Instance AmbiguousWidth_eq_dec : EqDecision AmbiguousWidth.
Proof. solve_decision. Defined.

Record WidthPolicy := mkWidthPolicy { ambiguous : AmbiguousWidth }.

Definition narrow : WidthPolicy := mkWidthPolicy Narrow.
Definition wide : WidthPolicy := mkWidthPolicy Wide.

(** [l.starts_with(..)] after [to_ascii_lowercase]. *)
Definition to_ascii_lowercase_char (c : Z) : Z := if decide (65 <= c <= 90) then c + 32 else c.
Definition starts_with_str (p s : str) : bool :=
  match strip_prefix p s with
  | Some _ => true
  | None => false
  end.
Definition from_locale (lang : option str) : WidthPolicy :=
  match lang with
  | Some l =>
      let l := to_ascii_lowercase_char <$> l in
      if starts_with_str (chars "zh") l || starts_with_str (chars "ja") l
         || starts_with_str (chars "ko") l
      then wide else narrow
  | None => narrow
  end.

Abbreviation zero_joiner := 8205.

Section Width.
Context `{W : UnicodeWidth}.

(** Characters that occupy no columns of their own. *)
Definition is_zero_width (c : Z) : bool :=
  bool_decide (8203 <= c <= 8207 \/ 65024 <= c <= 65039 \/ 127995 <= c <= 127999
               \/ 917760 <= c <= 917999)
  || match width c with
     | Some w => bool_decide (w = 0)
     | None => true
     end.

Definition char_width (p : WidthPolicy) (c : Z) : Z :=
  if is_zero_width c then 0
  else match ambiguous p with
       | Wide => default 0 (width_cjk c)
       | Narrow => default 0 (width c)
       end.

(** The two loops of [str_width].  [cluster] is the width of the cluster being
    absorbed, [None] before one starts; a joiner takes the character it joins
    with it. *)
Fixpoint clusters (p : WidthPolicy) (cluster : option Z) (s : str) : Z :=
  match cluster, s with
  | None, [] => 0
  | None, c :: r =>
      if is_zero_width c then clusters p None r else clusters p (Some (char_width p c)) r
  | Some w, [] => w
  | Some w, next :: r =>
      if decide (next = zero_joiner) then
        match r with
        | [] => Z.max w 2
        | _ :: r' => clusters p (Some (Z.max w 2)) r'
        end
      else if is_zero_width next then clusters p (Some w) r
      else w + clusters p (Some (char_width p next)) r
  end.

Definition str_width (p : WidthPolicy) (s : str) : Z := clusters p None s.

(** The loop of [truncate], with the width so far. *)
Fixpoint take_columns (p : WidthPolicy) (max w : Z) (s : str) : str * Z :=
  match s with
  | [] => ([], w)
  | c :: r =>
      if decide (max < w + char_width p c) then ([], w)
      else let '(out, w') := take_columns p max (w + char_width p c) r in (c :: out, w')
  end.

Definition truncate (p : WidthPolicy) (s : str) (max : Z) : str * Z :=
  if decide (str_width p s <= max) then (s, str_width p s) else take_columns p max 0 s.

(** ** Laws *)

(** The sum of the widths of the characters. *)
Definition columns (p : WidthPolicy) (s : str) : Z := foldr (fun c t => char_width p c + t) 0 s.

Lemma columns_app p s t : columns p (s ++ t) = columns p s + columns p t.
Proof. induction s; simpl; lia. Qed.

Lemma joiner_zero_width : is_zero_width zero_joiner = true.
Proof. done. Qed.

Lemma zero_width_columns p c : is_zero_width c = true -> char_width p c = 0.
Proof. unfold char_width. by intros ->. Qed.

Lemma clusters_columns p s : zero_joiner ∉ s ->
  forall w, clusters p w s = default 0 w + columns p s.
Proof.
  induction s as [|c r IH]; intros Hz [w|]; [simpl; lia..| |];
    apply not_elem_of_cons in Hz as [Hc Hr]; cbn [clusters columns foldr default];
    fold (columns p r); [rewrite decide_False by done|];
    destruct (is_zero_width c) eqn:E; rewrite IH by done; simpl; unfold id;
    rewrite ?(zero_width_columns _ _ E); lia.
Qed.

(** Without joiners a text is as wide as its characters together. *)
Lemma str_width_columns p s : zero_joiner ∉ s -> str_width p s = columns p s.
Proof. intros Hz. unfold str_width. by rewrite clusters_columns. Qed.

Context {WL : UnicodeWidthLaws W}.

Lemma char_width_nonneg p c : 0 <= char_width p c.
Proof.
  unfold char_width. destruct (is_zero_width c); [lia|]. destruct (ambiguous p).
  - destruct (width c) eqn:E; simpl; [by eapply width_nonneg|lia].
  - destruct (width_cjk c) eqn:E; simpl; [by eapply width_cjk_nonneg|lia].
Qed.

Lemma columns_nonneg p s : 0 <= columns p s.
Proof. induction s as [|c s IH]; simpl; [lia|]. pose proof (char_width_nonneg p c). lia. Qed.

Lemma take_columns_spec p max s : forall w out w', w <= max ->
  take_columns p max w s = (out, w') ->
  w' = w + columns p out /\ w' <= max /\
  exists rest, s = out ++ rest /\
    match rest with
    | [] => True
    | c :: _ => max < w' + char_width p c
    end.
Proof.
  induction s as [|c r IH]; intros w out w' Hw; cbn [take_columns].
  - intros [= <- <-]. simpl. split_and!; [lia|lia|]. by exists [].
  - case_decide as Hc; [intros [= <- <-]; simpl; split_and!; [lia|lia|by exists (c :: r)]|].
    destruct (take_columns p max _ r) as [out' w''] eqn:E. intros [= <- <-].
    apply IH in E as (-> & Hm & rest & -> & Hrest); [|lia]. cbn [columns foldr].
    fold (columns p out'). split_and!; [lia|lia|]. exists rest. split; [done|]. by destruct rest.
Qed.

(** Truncating yields a prefix, and the sum of its characters' widths, within
    the limit; the next character would not have fitted. *)
Lemma truncate_prefix p s max out w :
  zero_joiner ∉ s -> 0 <= max -> truncate p s max = (out, w) ->
  w = str_width p out /\ w <= max /\
  exists rest, s = out ++ rest /\
    match rest with
    | [] => True
    | c :: _ => max < str_width p (out ++ [c])
    end.
Proof.
  intros Hz Hm. unfold truncate. case_decide as Hs.
  - intros [= <- <-]. split_and!; [done|done|]. exists []. by rewrite app_nil_r.
  - intros (-> & Hw & rest & -> & Hrest)%take_columns_spec; [|lia].
    assert (Ho : zero_joiner ∉ out) by (intros H; apply Hz, elem_of_app; by left).
    rewrite str_width_columns by done. split_and!; [lia|lia|]. exists rest. split; [done|].
    destruct rest as [|c rest]; [done|]. rewrite str_width_columns, columns_app; [simpl; lia|].
    intros [H| <-%list_elem_of_singleton]%elem_of_app; [by apply Ho|].
    apply Hz, elem_of_app. right. by left.
Qed.

(** Truncating a text without joiners yields its longest prefix that fits,
    with the width it has: every prefix within the limit is no longer. *)
Theorem truncate_longest p s max out w :
  zero_joiner ∉ s -> 0 <= max -> truncate p s max = (out, w) ->
  out `prefix_of` s /\ w = str_width p out /\ w <= max /\
  forall q, q `prefix_of` s -> str_width p q <= max -> q `prefix_of` out.
Proof.
  intros Hz Hm (Hw & Hl & rest & -> & Hrest)%truncate_prefix; [|done..].
  split_and!; [by exists rest|done|done|]. intros q Hq Hqw.
  destruct (prefix_weak_total q out (out ++ rest)) as [H|[k ->]]; [done|by exists rest|done|].
  destruct k as [|c k]; [by rewrite app_nil_r|]. exfalso.
  apply prefix_app_inv in Hq as [k' ->]. cbn [app] in Hrest, Hz.
  rewrite !not_elem_of_app, !not_elem_of_cons, not_elem_of_app in Hz.
  rewrite str_width_columns, columns_app in Hqw, Hrest
    by (rewrite not_elem_of_app, not_elem_of_cons; pose proof (not_elem_of_nil zero_joiner); tauto).
  simpl in *. fold (columns p k) in Hqw. pose proof (columns_nonneg p k). lia.
Qed.

End Width.

(** ** A concrete width *)

(** A sample table: controls have none, combining marks and the joiner have
    zero, East Asian characters and emoji two, ambiguous ones one or two. *)
#[export] Instance sample_width : UnicodeWidth := {|
  width c := if decide (c < 32) then None
             else if decide (768 <= c <= 879 \/ c = 8205) then Some 0
             else if decide (19968 <= c <= 40959 \/ 128000 <= c <= 129535) then Some 2 else Some 1;
  width_cjk c := if decide (c < 32) then None
             else if decide (768 <= c <= 879 \/ c = 8205) then Some 0
             else if decide (913 <= c <= 937 \/ 19968 <= c <= 40959 \/ 128000 <= c <= 129535)
                  then Some 2 else Some 1;
|}.

#[export] Instance sample_width_laws : UnicodeWidthLaws sample_width.
Proof.
  split; intros c w; unfold width, width_cjk; simpl; repeat case_decide; intros [= <-]; lia.
Qed.

Lemma truncate_longest_witness :
  truncate narrow [20013; 25991; 101; 769] 4 = ([20013; 25991], 4)
  /\ forall q, q `prefix_of` [20013; 25991; 101; 769] -> str_width narrow q <= 4 ->
       q `prefix_of` [20013; 25991].
Proof.
  split; [reflexivity|].
  apply (truncate_longest narrow [20013; 25991; 101; 769] 4 [20013; 25991] 4).
  - set_solver by lia.
  - lia.
  - reflexivity.
Defined.

(** ** What the module's comments promise and the code does not do *)

(** [truncate] is said never to split a cluster.  It counts characters, not
    clusters: of a family emoji followed by a letter it keeps one member and a
    dangling joiner. *)
Lemma truncate_splits_cluster :
  str_width narrow [128104; 8205; 128105] = 2
  /\ truncate narrow [128104; 8205; 128105; 98] 2 = ([128104; 8205], 2).
Proof. done. Qed.

(** And what it returns can be wider than the limit, by the module's own
    measure: a joiner makes its cluster two columns wide. *)
Lemma truncated_too_wide :
  truncate narrow [97; 8205; 98; 99] 1 = ([97; 8205], 1) /\ str_width narrow [97; 8205] = 2.
Proof. done. Qed.
