(* ===== verification/Paste.v ===== *)
(** * Pasted input and its review ([crates/pr-terminal/src/paste.rs])

    Durations are nanoseconds; the times of keystrokes are milliseconds, as in
    the source.  [decide] of the source is [decide_choice]. *)

From Stdlib Require Import Sorting.Sorted.
From S2P Require Import Prelude Text TextFacts Lines.

Definition BURST_GAP : Z := 10 * 1000000.
Definition INLINE_LIMIT : Z := 120.

Record Keystroke := mkKeystroke { keystroke_byte : byte; at_ms : Z }.

Inductive Segment :=
| Typed (b : bytes)
| Pasted (b : bytes).

Definition segment_bytes (s : Segment) : bytes :=
  match s with
  | Typed b | Pasted b => b
  end.
Definition is_paste (s : Segment) : bool :=
  match s with
  | Pasted _ => true
  | Typed _ => false
  end.

Definition newline_byte (b : byte) : bool := bool_decide (b = x0a \/ b = x0d).

(** What the closure [flush] pushes for a burst that is not empty. *)
Definition segment_of (burst : list Keystroke) : Segment :=
  let bytes := keystroke_byte <$> burst in
  let multiline := existsb newline_byte bytes in
  let long := bool_decide (INLINE_LIMIT < zlen bytes) in
  if bool_decide (1 < zlen burst) && (multiline || long) then Pasted bytes else Typed bytes.

Definition flush (burst : list Keystroke) (out : list Segment) : list Segment :=
  match burst with
  | [] => out
  | _ => out ++ [segment_of burst]
  end.

Fixpoint classify_loop (gap_ms : Z) (burst : list Keystroke) (out : list Segment)
    (trace : list Keystroke) : list Segment :=
  match trace with
  | [] => flush burst out
  | k :: r =>
      match last burst with
      | Some prev =>
          if decide (Z.max 0 (at_ms k - at_ms prev) < gap_ms)
          then classify_loop gap_ms (burst ++ [k]) out r
          else classify_loop gap_ms [k] (flush burst out) r
      | None => classify_loop gap_ms [k] out r
      end
  end.

Definition classify (trace : list Keystroke) (gap : Z) : list Segment :=
  classify_loop (Z.min (gap / 1000000) u64_max) [] [] trace.

(** ** The staging view *)

Inductive Choice := OneByOne | SingleCommand | Cancel.
#[export] Instance Choice_eq_dec : EqDecision Choice.
Proof. solve_decision. Defined.

Record Staging := mkStaging {
  lines : list str;
  focused : nat;
  decided : option Choice;
}.

Abbreviation lf := 10.
Abbreviation cr := 13.

Definition new_staging (bytes : bytes) : Staging :=
  mkStaging (split_on lf (replace_char cr [lf] (replace_pair cr lf lf (from_utf8_lossy bytes)))) 0 None.

Definition staged_len (s : Staging) : nat := length (lines s).
Definition staged_is_empty (s : Staging) : bool := bool_decide (lines s = []).

Definition focus (index : nat) (s : Staging) : Staging :=
  mkStaging (lines s) (index `min` (length (lines s) - 1)) (decided s).

(** stdpp's list insert does nothing out of range, as [get_mut] does. *)
Definition edit_line (text : str) (s : Staging) : Staging :=
  mkStaging (<[focused s := text]> (lines s)) (focused s) (decided s).

Definition delete (s : Staging) : Staging :=
  if decide (focused s < length (lines s))%nat then
    let ls := take (focused s) (lines s) ++ drop (S (focused s)) (lines s) in
    mkStaging ls (focused s `min` (length ls - 1)) (decided s)
  else s.

Definition kept (s : Staging) : list str :=
  filter (fun l => l <> []) (trim_end <$> lines s).

Definition decide_choice (c : Choice) (s : Staging) : list str * Staging :=
  (match c with
   | Cancel => []
   | OneByOne => kept s
   | SingleCommand => match kept s with
                      | [] => []
                      | _ => [join [lf] (kept s)]
                      end
   end, mkStaging (lines s) (focused s) (Some c)).

Definition needs_staging (bytes : bytes) : bool :=
  existsb (fun b => bool_decide (b = x0a \/ (b = x0d /\ 1 < zlen bytes))) bytes
  || bool_decide (INLINE_LIMIT < zlen bytes).

(** ** Bursts *)

(** Two keystrokes close enough to belong together, and two bursts that do not
    touch. *)
Definition close (gap_ms : Z) (k k' : Keystroke) : Prop := Z.max 0 (at_ms k' - at_ms k) < gap_ms.
Definition apart (gap_ms : Z) (b b' : list Keystroke) : Prop :=
  forall k k', last b = Some k -> head b' = Some k' -> ~ close gap_ms k k'.

Definition burst_ok (gap_ms : Z) (b : list Keystroke) : Prop := b <> [] /\ Sorted (close gap_ms) b.

Lemma sorted_snoc {A} (R : A -> A -> Prop) l x :
  Sorted R l -> (forall y, last l = Some y -> R y x) -> Sorted R (l ++ [x]).
Proof.
  induction 1 as [|a l Hl IH Ha]; intros Hx; [by repeat constructor|].
  cbn [app]. constructor.
  - apply IH. intros y Hy. apply Hx. destruct l; [done|by rewrite last_cons_cons].
  - destruct l as [|b l]; cbn [app].
    + constructor. by apply Hx.
    + inversion Ha. by constructor.
Qed.

Lemma classify_loop_bursts g trace : forall burst out, Sorted (close g) burst ->
  exists bursts, classify_loop g burst out trace = out ++ (segment_of <$> bursts) /\
    concat bursts = burst ++ trace /\ Forall (burst_ok g) bursts /\ Sorted (apart g) bursts /\
    (burst <> [] -> exists t bs, bursts = (burst ++ t) :: bs).
Proof.
  induction trace as [|k r IH]; intros burst out Hb; cbn [classify_loop].
  - destruct burst as [|b burst].
    + exists []. cbn. rewrite app_nil_r. repeat split; auto. done.
    + exists [b :: burst]. cbn. rewrite app_nil_r.
      repeat split; auto; [by constructor|]. intros _. exists [], []. by rewrite app_nil_r.
  - destruct (last burst) as [prev|] eqn:El.
    + assert (burst <> []) as Hn by (by intros ->).
      case_decide as Hc.
      * destruct (IH (burst ++ [k]) out) as (bursts & -> & Hcat & Hok & Hsep & Hhd).
        { apply sorted_snoc; [done|]. intros y. rewrite El. by intros [= <-]. }
        exists bursts. split_and!; [done|by rewrite Hcat, <- app_assoc|done|done|].
        intros _. destruct Hhd as (t & bs & ->); [by destruct burst|]. exists (k :: t), bs. by rewrite <- app_assoc.
      * destruct (IH [k] (flush burst out)) as (bursts & -> & Hcat & Hok & Hsep & Hhd); [by repeat constructor|].
        destruct Hhd as (t & bs & ->); [done|]. exists (burst :: ([k] ++ t) :: bs).
        split_and!.
        -- destruct burst; [done|]. cbn [flush fmap list_fmap]. by rewrite <- app_assoc.
        -- cbn [concat] in *. by rewrite Hcat.
        -- by constructor.
        -- constructor; [done|]. constructor. intros a a' Ha [= <-]. rewrite El in Ha. by injection Ha as <-.
        -- intros _. exists [], (([k] ++ t) :: bs). by rewrite app_nil_r.
    + apply last_None in El as ->.
      destruct (IH [k] out) as (bursts & -> & Hcat & Hok & Hsep & _); [by repeat constructor|].
      exists bursts. split_and!; [done|done|done|done|done].
Qed.

(** Input is cut into its maximal bursts, nothing lost or moved: a burst of
    more than one byte with a line break or too long is pasted, and nothing else
    is.  A line break counts as typed only when it arrived alone. *)
Theorem classify_exact trace gap :
  let g := Z.min (gap / 1000000) u64_max in
  concat (segment_bytes <$> classify trace gap) = keystroke_byte <$> trace /\
  (exists bursts, classify trace gap = segment_of <$> bursts /\ concat bursts = trace /\
     Forall (burst_ok g) bursts /\ Sorted (apart g) bursts) /\
  (forall b, Typed b ∈ classify trace gap ->
     (exists c, c ∈ b /\ newline_byte c = true) -> exists c, b = [c]).
Proof.
  intros g. unfold classify. fold g.
  destruct (classify_loop_bursts g trace [] []) as (bursts & -> & Hcat & Hok & Hsep & _); [constructor|].
  cbn [app] in *. split_and!.
  - rewrite <- Hcat. clear. induction bursts as [|b bs IH]; [done|].
    cbn [fmap list_fmap concat]. rewrite fmap_app, IH. f_equal. unfold segment_of. by case_match.
  - by exists bursts.
  - intros b Hb (c & Hc & Hn). apply list_elem_of_fmap in Hb as (burst & Hs & Hin).
    rewrite Forall_forall in Hok. apply Hok in Hin as [Hne _]. unfold segment_of in Hs.
    replace (existsb newline_byte (keystroke_byte <$> burst)) with true in Hs.
    + destruct burst as [|x [|y burst]]; [done|..].
      * injection Hs as ->. by exists (keystroke_byte x).
      * rewrite bool_decide_true in Hs by (unfold zlen; simpl; lia). done.
    + symmetry. apply existsb_exists. exists c. split; [|done]. apply list_elem_of_In.
      revert Hs. case_match; [done|]. by intros [= ->].
Qed.

(** ** Line endings *)

Lemma replace_pair_id a b by' s : (a ∉ s \/ b ∉ s) -> replace_pair a b by' s = s.
Proof.
  induction s as [|c s IH]; intros H; [done|]. destruct s as [|d s]; [done|].
  cbn [replace_pair]. rewrite decide_False.
  - f_equal. apply IH. destruct H as [H|H]; apply not_elem_of_cons in H; tauto.
  - intros [-> ->]. destruct H as [H|H]; apply H; [by left|right; by left].
Qed.

Lemma replace_pair_app a b by' l s : a ∉ l -> a <> b ->
  replace_pair a b by' (l ++ a :: b :: s) = l ++ by' :: replace_pair a b by' s.
Proof.
  intros Hl Hab. induction l as [|c l IH]; cbn [app].
  - cbn [replace_pair]. by rewrite decide_True.
  - apply not_elem_of_cons in Hl as [Hc Hl]. specialize (IH Hl).
    destruct l as [|d l]; cbn [app replace_pair] in *; rewrite decide_False by naive_solver; by rewrite IH.
Qed.

Lemma replace_pair_join a b by' ls : a <> b -> Forall (fun l => a ∉ l) ls ->
  replace_pair a b by' (join [a; b] ls) = join [by'] ls.
Proof.
  intros Hab. induction 1 as [|l ls Hl Hls IH]; [done|]. destruct ls as [|l' ls].
  - apply replace_pair_id. by left.
  - change (join [a; b] (l :: l' :: ls)) with (l ++ a :: b :: join [a; b] (l' :: ls)).
    by rewrite replace_pair_app, IH.
Qed.

Lemma replace_char_id c x s : c ∉ s -> replace_char c x s = s.
Proof.
  induction s as [|d s IH]; intros H; [done|]. apply not_elem_of_cons in H as [Hd H].
  unfold replace_char in *. cbn [mbind list_bind]. by rewrite decide_False, IH.
Qed.

Lemma replace_char_app c x s t : replace_char c x (s ++ t) = replace_char c x s ++ replace_char c x t.
Proof. apply bind_app. Qed.

Lemma replace_char_join c x ls : Forall (fun l => c ∉ l) ls ->
  replace_char c x (join [c] ls) = join x ls.
Proof.
  induction 1 as [|l ls Hl Hls IH]; [done|]. destruct ls as [|l' ls].
  - by apply replace_char_id.
  - change (join [c] (l :: l' :: ls)) with (l ++ [c] ++ join [c] (l' :: ls)).
    rewrite !replace_char_app, replace_char_id, IH by done. unfold replace_char.
    cbn [mbind list_bind]. by rewrite decide_True, app_nil_r.
Qed.

Lemma join_not_elem (d : Z) sep ls : d ∉ sep -> Forall (fun l => d ∉ l) ls -> d ∉ join sep ls.
Proof.
  intros Hs. induction 1 as [|l ls Hl Hls IH]; [apply not_elem_of_nil|]. destruct ls as [|l' ls]; [done|].
  change (join sep (l :: l' :: ls)) with (l ++ sep ++ join sep (l' :: ls)).
  rewrite !not_elem_of_app. tauto.
Qed.

Lemma replace_char_clean c (x s : str) : c ∉ x -> c ∉ replace_char c x s.
Proof.
  intros Hx. unfold replace_char. intros (d & Hd & _)%list_elem_of_bind. case_decide; [done|].
  apply list_elem_of_singleton in Hd. by subst.
Qed.

(** A line as a text editor has it. *)
Definition line_ok (l : str) : Prop := Forall scalar l /\ (lf ∉ l) /\ (cr ∉ l).

Definition staged_lines (s : str) : list str :=
  split_on lf (replace_char cr [lf] (replace_pair cr lf lf s)).

Lemma scalar_join sep ls : Forall scalar sep -> Forall line_ok ls -> Forall scalar (join sep ls).
Proof.
  intros Hsep. induction 1 as [|l ls [Hl _] Hls IH]; [constructor|]. destruct ls as [|l' ls]; [done|].
  change (join sep (l :: l' :: ls)) with (l ++ sep ++ join sep (l' :: ls)).
  rewrite !Forall_app. tauto.
Qed.

Lemma staged_lines_join sep ls : sep ∈ [[lf]; [cr; lf]; [cr]] -> Forall line_ok ls -> ls <> [] ->
  staged_lines (join sep ls) = ls.
Proof.
  intros Hsep Hls Hn. unfold staged_lines.
  assert (Hlf : Forall (fun l => lf ∉ l) ls) by (apply (Forall_impl line_ok); [done|intros l Hl; apply Hl]).
  assert (Hcr : Forall (fun l => cr ∉ l) ls) by (apply (Forall_impl line_ok); [done|intros l Hl; apply Hl]).
  assert ((cr ∉ [lf]) /\ (lf ∉ [cr])) as [Hcl Hlc] by (rewrite !list_elem_of_singleton; lia).
  repeat (apply elem_of_cons in Hsep as [->|Hsep]); [..|by apply not_elem_of_nil in Hsep].
  - rewrite replace_pair_id by (left; by apply join_not_elem).
    rewrite replace_char_id by (by apply join_not_elem). by apply split_on_join.
  - rewrite replace_pair_join by (done || lia).
    rewrite replace_char_id by (by apply join_not_elem). by apply split_on_join.
  - rewrite replace_pair_id by (right; by apply join_not_elem).
    rewrite replace_char_join by done. by apply split_on_join.
Qed.

Lemma staged_lines_clean s l : l ∈ staged_lines s -> (lf ∉ l) /\ (cr ∉ l).
Proof.
  intros Hl. split; intros Hd; destruct (split_on_parts _ _ _ _ Hl Hd) as [Hn Hi]; [done|].
  revert Hi. apply replace_char_clean. rewrite list_elem_of_singleton. lia.
Qed.

(** A block of lines is staged as those lines, whichever line ending it was
    copied with; and no staged line contains a line ending, whatever the bytes. *)
Theorem staged_exact :
  (forall sep ls, sep ∈ [[lf]; [cr; lf]; [cr]] -> Forall line_ok ls -> ls <> [] ->
     lines (new_staging (encode_str (join sep ls))) = ls) /\
  (forall bytes l, l ∈ lines (new_staging bytes) -> (lf ∉ l) /\ (cr ∉ l)).
Proof.
  split.
  - intros sep ls Hsep Hls Hn. cbn [new_staging lines]. rewrite from_utf8_lossy_encode.
    + by apply staged_lines_join.
    + apply scalar_join; [|done]. unfold scalar.
      repeat (apply elem_of_cons in Hsep as [->|Hsep]); [..|by apply not_elem_of_nil in Hsep];
        repeat constructor; lia.
  - intros bytes l. apply staged_lines_clean.
Qed.

(** ** The focus stays on a line *)

Definition staging_ok (s : Staging) : Prop := (focused s < length (lines s))%nat \/ lines s = [].

Lemma new_staging_ok b : staging_ok (new_staging b).
Proof.
  left. cbn [new_staging focused lines]. destruct (split_on _ _) eqn:E; [|simpl; lia].
  by apply split_on_nonempty in E.
Qed.

Lemma clamped_ok (ls : list str) n d : staging_ok (mkStaging ls (n `min` (length ls - 1)) d).
Proof. unfold staging_ok. destruct ls; simpl; [by right|left; lia]. Qed.

Lemma focus_ok i s : staging_ok (focus i s).
Proof. apply clamped_ok. Qed.

Lemma edit_line_ok x s : staging_ok s -> staging_ok (edit_line x s).
Proof.
  intros [H|H]; [left|right]; cbn [edit_line lines focused]; [by rewrite length_insert|by rewrite H].
Qed.

Lemma delete_ok s : staging_ok s -> staging_ok (delete s).
Proof. unfold delete. case_decide; [intros _; apply clamped_ok|done]. Qed.

#[export] Hint Resolve new_staging_ok focus_ok edit_line_ok delete_ok : penguin.

(** ** Witness and samples *)

Lemma staged_exact_witness :
  lines (new_staging (encode_str (join [cr; lf] [chars "SET a 1"; chars "FLUSHALL"])))
  = [chars "SET a 1"; chars "FLUSHALL"].
Proof.
  apply staged_exact; [set_solver| |done].
  repeat constructor; rewrite ?not_elem_of_cons; unfold scalar; cbn; try lia; set_solver by lia.
Defined.

Lemma staged_exact_sample :
  kept (new_staging (bs "SET a 1 " ++ bs "
" ++ bs "
FLUSHALL")) = [chars "SET a 1"; chars "FLUSHALL"].
Proof. reflexivity. Qed.

(** Typed slowly, an Enter is an Enter; in a burst it is part of a paste. *)
Lemma classify_sample :
  classify [mkKeystroke "G"%byte 0; mkKeystroke x0d 50; mkKeystroke "A"%byte 100; mkKeystroke x0a 101] BURST_GAP
  = [Typed (bs "G"); Typed [x0d]; Pasted ["A"%byte; x0a]].
Proof. reflexivity. Qed.
