(* ===== verification/Terminal.v ===== *)
(** * The terminal coordinator ([crates/pr-terminal/src])

    [event.rs]: keys, inputs, the mailbox and the merged source; [paint.rs]: the
    painter, over any sink; [ownership.rs]: the token; [coordinator.rs]: the one
    state machine behind the prompt, the menu, the review of a paste and the
    alternate screen.  A step that can panic (slicing a text off a character
    boundary) is an [option].  Instants are nanoseconds. *)

From S2P Require Import Prelude Text TextFacts Buffer Width Paste.

(** ** Events *)

Inductive Key :=
| KChar (c : Z)
| KBackspace | KEnter | KTab | KEsc | KUp | KDown | KLeft | KRight
| KCtrl (c : Z)
| KFunction (n : Z).

Inductive NoticeOrigin := Push | Connection | Client.

Definition origin_name (o : NoticeOrigin) : str :=
  match o with
  | Push => chars "push"
  | Connection => chars "conn"
  | Client => chars "info"
  end.

Record Notice := mkNotice { notice_text : str; notice_origin : NoticeOrigin }.

Inductive Input :=
| IKey (k : Key)
| IPaste (b : bytes)
| IResize (cols rows : Z)
| IMessage (n : Notice)
| IInterrupt.

(** The mailbox: a queue behind a lock.  A lock that was poisoned is not
    modelled. *)
Definition Mailbox := list Input.
Definition post (i : Input) (m : Mailbox) : Mailbox := m ++ [i].
Definition notify (o : NoticeOrigin) (text : str) (m : Mailbox) : Mailbox :=
  post (IMessage (mkNotice text o)) m.
Definition mailbox_take (m : Mailbox) : option Input * Mailbox :=
  match m with
  | i :: r => (Some i, r)
  | [] => (None, [])
  end.

(** The merged source: [now] and [later] are what the keyboard yields without
    waiting and after waiting; the second is asked only when all else is empty. *)
Definition next_input (now later : option Input) (m : Mailbox) : option Input * Mailbox :=
  match now with
  | Some k => (Some k, m)
  | None =>
      match mailbox_take m with
      | (Some i, m') => (Some i, m')
      | (None, m') =>
          match later with
          | Some k => (Some k, m')
          | None => mailbox_take m'
          end
      end
  end.

(** ** Ownership *)

Inductive OwnershipError := AlreadyOwned.

(** [compare_exchange(false, true)] on the flag: the answer and the flag. *)
Definition acquire (owned : bool) : result OwnershipError unit * bool :=
  if owned then (Err AlreadyOwned, owned) else (Ok tt, true).
Definition release : bool := false.

(** ** The painter *)

Class Sink (Out : Type) := {
  put : bytes -> Out -> Out;
  flush_sink : Out -> Out;
}.

(** The recording sink. *)
Record Capture := mkCapture { cap_bytes : bytes; flushes : Z }.
#[export] Instance capture_sink : Sink Capture := {|
  put b s := mkCapture (cap_bytes s ++ b) (flushes s);
  flush_sink s := mkCapture (cap_bytes s) (flushes s + 1);
|}.

Definition ESC : bytes := [x1b].
Definition ERASE_BELOW : bytes := ESC ++ bs "[J".
Definition COLUMN_ZERO : bytes := [x0d].
Definition ENTER_ALTERNATE : bytes := ESC ++ bs "[?1049h".
Definition LEAVE_ALTERNATE : bytes := ESC ++ bs "[?1049l".
Definition HIDE_CURSOR : bytes := ESC ++ bs "[?25l".
Definition SHOW_CURSOR : bytes := ESC ++ bs "[?25h".
Definition ENABLE_BRACKETED_PASTE : bytes := ESC ++ bs "[?2004h".
Definition DISABLE_BRACKETED_PASTE : bytes := ESC ++ bs "[?2004l".

Section Painter.
Context `{Sink Out}.
Implicit Type s : Out.

Definition raw (b : bytes) s : Out := put b s.
Definition ptext (t : str) s : Out := put (encode_str t) s.
Definition up (n : Z) s : Out := if decide (0 < n) then put (ESC ++ bs "[" ++ print_unsigned n ++ bs "A") s else s.
Definition go_right (n : Z) s : Out :=
  if decide (0 < n) then put (ESC ++ bs "[" ++ print_unsigned n ++ bs "C") s else s.
Definition erase_block s : Out := put ERASE_BELOW (put COLUMN_ZERO s).
Definition newline s : Out := put [x0d; x0a] s.
Definition done_frame s : Out := flush_sink s.

End Painter.

(** ** The menu *)

Record Menu := mkMenu { items : list str; menu_focused : option nat }.

Definition new_menu (items : list str) : Menu := mkMenu items None.
Definition menu_down (m : Menu) : Menu :=
  if decide (items m = []) then m
  else mkMenu (items m) (Some (match menu_focused m with
                               | None => O
                               | Some i => ((i + 1) `mod` length (items m))%nat
                               end)).
Definition menu_up (m : Menu) : Menu :=
  if decide (items m = []) then m
  else mkMenu (items m) (Some (match menu_focused m with
                               | None | Some O => (length (items m) - 1)%nat
                               | Some (S i) => i
                               end)).
Definition selection (m : Menu) : option str := i ← menu_focused m; items m !! i.

(** ** The coordinator *)

Inductive Surface := Repl | Alternate.
#[export] Instance Surface_eq_dec : EqDecision Surface.
Proof. solve_decision. Defined.

Inductive Action :=
| NoAction
| Submit (line : str)
| SubmitMany (lines : list str)
| Quit.

Record Tui := mkTui { box_text : str; box_cursor : nat; help : bool }.
Definition default_tui : Tui := mkTui [] 0 false.

Record Coordinator (Out : Type) := mkCoordinator {
  sink : Out;
  cols : Z;
  rows : Z;
  width_policy : WidthPolicy;
  prompt : str;
  buffer : LineBuffer;
  menu : option Menu;
  staging : option Staging;
  surface : Surface;
  tui : Tui;
  stash : option (str * nat);
  origin : str;
  cursor_row : Z;
  pending : list Notice;
  frames : Z;
  printed : Z;
  last_key_at : option Z;
  pending_paste : bytes;
  burst_touched_buffer : bool;
}.
Arguments mkCoordinator {Out}.
Arguments sink {Out} _.
Arguments cols {Out} _.
Arguments rows {Out} _.
Arguments width_policy {Out} _.
Arguments prompt {Out} _.
Arguments buffer {Out} _.
Arguments menu {Out} _.
Arguments staging {Out} _.
Arguments surface {Out} _.
Arguments tui {Out} _.
Arguments stash {Out} _.
Arguments origin {Out} _.
Arguments cursor_row {Out} _.
Arguments pending {Out} _.
Arguments frames {Out} _.
Arguments printed {Out} _.
Arguments last_key_at {Out} _.
Arguments pending_paste {Out} _.
Arguments burst_touched_buffer {Out} _.

(** Assignments to one field. *)
Section Fields.
Context {Out : Type}.
Implicit Type c : Coordinator Out.

Definition set_sink (x : Out) c : Coordinator Out :=
    mkCoordinator x (cols c) (rows c) (width_policy c) (prompt c) (buffer c) (menu c) (staging
    c) (surface c) (tui c) (stash c) (origin c) (cursor_row c) (pending c) (frames c) (printed
    c) (last_key_at c) (pending_paste c) (burst_touched_buffer c).
Definition set_cols (x : Z) c : Coordinator Out :=
    mkCoordinator (sink c) x (rows c) (width_policy c) (prompt c) (buffer c) (menu c) (staging
    c) (surface c) (tui c) (stash c) (origin c) (cursor_row c) (pending c) (frames c) (printed
    c) (last_key_at c) (pending_paste c) (burst_touched_buffer c).
Definition set_rows (x : Z) c : Coordinator Out :=
    mkCoordinator (sink c) (cols c) x (width_policy c) (prompt c) (buffer c) (menu c) (staging
    c) (surface c) (tui c) (stash c) (origin c) (cursor_row c) (pending c) (frames c) (printed
    c) (last_key_at c) (pending_paste c) (burst_touched_buffer c).
Definition set_width_policy (x : WidthPolicy) c : Coordinator Out :=
    mkCoordinator (sink c) (cols c) (rows c) x (prompt c) (buffer c) (menu c) (staging c)
    (surface c) (tui c) (stash c) (origin c) (cursor_row c) (pending c) (frames c) (printed c)
    (last_key_at c) (pending_paste c) (burst_touched_buffer c).
Definition set_prompt (x : str) c : Coordinator Out :=
    mkCoordinator (sink c) (cols c) (rows c) (width_policy c) x (buffer c) (menu c) (staging c)
    (surface c) (tui c) (stash c) (origin c) (cursor_row c) (pending c) (frames c) (printed c)
    (last_key_at c) (pending_paste c) (burst_touched_buffer c).
Definition set_buffer (x : LineBuffer) c : Coordinator Out :=
    mkCoordinator (sink c) (cols c) (rows c) (width_policy c) (prompt c) x (menu c) (staging c)
    (surface c) (tui c) (stash c) (origin c) (cursor_row c) (pending c) (frames c) (printed c)
    (last_key_at c) (pending_paste c) (burst_touched_buffer c).
Definition set_menu (x : option Menu) c : Coordinator Out :=
    mkCoordinator (sink c) (cols c) (rows c) (width_policy c) (prompt c) (buffer c) x (staging
    c) (surface c) (tui c) (stash c) (origin c) (cursor_row c) (pending c) (frames c) (printed
    c) (last_key_at c) (pending_paste c) (burst_touched_buffer c).
Definition set_staging (x : option Staging) c : Coordinator Out :=
    mkCoordinator (sink c) (cols c) (rows c) (width_policy c) (prompt c) (buffer c) (menu c) x
    (surface c) (tui c) (stash c) (origin c) (cursor_row c) (pending c) (frames c) (printed c)
    (last_key_at c) (pending_paste c) (burst_touched_buffer c).
Definition set_surface (x : Surface) c : Coordinator Out :=
    mkCoordinator (sink c) (cols c) (rows c) (width_policy c) (prompt c) (buffer c) (menu c)
    (staging c) x (tui c) (stash c) (origin c) (cursor_row c) (pending c) (frames c) (printed c)
    (last_key_at c) (pending_paste c) (burst_touched_buffer c).
Definition set_tui (x : Tui) c : Coordinator Out :=
    mkCoordinator (sink c) (cols c) (rows c) (width_policy c) (prompt c) (buffer c) (menu c)
    (staging c) (surface c) x (stash c) (origin c) (cursor_row c) (pending c) (frames c)
    (printed c) (last_key_at c) (pending_paste c) (burst_touched_buffer c).
Definition set_stash (x : option (str * nat)) c : Coordinator Out :=
    mkCoordinator (sink c) (cols c) (rows c) (width_policy c) (prompt c) (buffer c) (menu c)
    (staging c) (surface c) (tui c) x (origin c) (cursor_row c) (pending c) (frames c) (printed
    c) (last_key_at c) (pending_paste c) (burst_touched_buffer c).
Definition set_origin (x : str) c : Coordinator Out :=
    mkCoordinator (sink c) (cols c) (rows c) (width_policy c) (prompt c) (buffer c) (menu c)
    (staging c) (surface c) (tui c) (stash c) x (cursor_row c) (pending c) (frames c) (printed
    c) (last_key_at c) (pending_paste c) (burst_touched_buffer c).
Definition set_cursor_row (x : Z) c : Coordinator Out :=
    mkCoordinator (sink c) (cols c) (rows c) (width_policy c) (prompt c) (buffer c) (menu c)
    (staging c) (surface c) (tui c) (stash c) (origin c) x (pending c) (frames c) (printed c)
    (last_key_at c) (pending_paste c) (burst_touched_buffer c).
Definition set_pending (x : list Notice) c : Coordinator Out :=
    mkCoordinator (sink c) (cols c) (rows c) (width_policy c) (prompt c) (buffer c) (menu c)
    (staging c) (surface c) (tui c) (stash c) (origin c) (cursor_row c) x (frames c) (printed c)
    (last_key_at c) (pending_paste c) (burst_touched_buffer c).
Definition set_frames (x : Z) c : Coordinator Out :=
    mkCoordinator (sink c) (cols c) (rows c) (width_policy c) (prompt c) (buffer c) (menu c)
    (staging c) (surface c) (tui c) (stash c) (origin c) (cursor_row c) (pending c) x (printed
    c) (last_key_at c) (pending_paste c) (burst_touched_buffer c).
Definition set_printed (x : Z) c : Coordinator Out :=
    mkCoordinator (sink c) (cols c) (rows c) (width_policy c) (prompt c) (buffer c) (menu c)
    (staging c) (surface c) (tui c) (stash c) (origin c) (cursor_row c) (pending c) (frames c) x
    (last_key_at c) (pending_paste c) (burst_touched_buffer c).
Definition set_last_key_at (x : option Z) c : Coordinator Out :=
    mkCoordinator (sink c) (cols c) (rows c) (width_policy c) (prompt c) (buffer c) (menu c)
    (staging c) (surface c) (tui c) (stash c) (origin c) (cursor_row c) (pending c) (frames c)
    (printed c) x (pending_paste c) (burst_touched_buffer c).
Definition set_pending_paste (x : bytes) c : Coordinator Out :=
    mkCoordinator (sink c) (cols c) (rows c) (width_policy c) (prompt c) (buffer c) (menu c)
    (staging c) (surface c) (tui c) (stash c) (origin c) (cursor_row c) (pending c) (frames c)
    (printed c) (last_key_at c) x (burst_touched_buffer c).
Definition set_burst_touched_buffer (x : bool) c : Coordinator Out :=
    mkCoordinator (sink c) (cols c) (rows c) (width_policy c) (prompt c) (buffer c) (menu c)
    (staging c) (surface c) (tui c) (stash c) (origin c) (cursor_row c) (pending c) (frames c)
    (printed c) (last_key_at c) (pending_paste c) x.

End Fields.


Section Coordinator.
Context `{W : UnicodeWidth} `{Sink Out}.
Abbreviation coordinator := (Coordinator Out).
Implicit Type c : coordinator.

(** [Coordinator::new] with the flag of ownership. *)
Definition new_coordinator (out : Out) (co ro : Z) (owned : bool)
  : result OwnershipError coordinator * bool :=
  match acquire owned with
  | (Err e, o) => (Err e, o)
  | (Ok _, o) =>
      (Ok (mkCoordinator out co ro narrow (chars "penguin> ") empty_buffer None None Repl default_tui
             None [] 0 [] 0 0 None [] false), o)
  end.

(** One frame: what the painter puts, then a flush, then the counter. *)
Definition frame (paint : Out -> Out) c : coordinator :=
  set_frames (frames c + 1) (set_sink (done_frame (paint (sink c))) c).

(** *** Painting *)

Definition marker (here : bool) : str := if here then chars "> " else chars "  ".

Definition shown_row (p : WidthPolicy) (co : Z) (here : bool) (l : str) : str :=
  marker here ++ (truncate p l (Z.max 0 (co - 2))).1.

Definition staging_rows (p : WidthPolicy) (co : Z) (st : Staging) : list str :=
  let count := length (filter (fun l => trim l <> []) (lines st)) in
  (chars "-- pasted " ++ (bz <$> print_unsigned (Z.of_nat count))
     ++ chars " line(s), nothing has run --")
  :: imap (fun i l => shown_row p co (bool_decide (focused st = i)) l) (lines st)
  ++ [chars "[1] run one by one  [2] run as one command  [Esc] cancel"].

Definition menu_rows (p : WidthPolicy) (co : Z) (m : Menu) : list str :=
  imap (fun i item => shown_row p co (bool_decide (menu_focused m = Some i)) item) (items m).

Definition put_rows (rows : list str) (s : Out) : Out :=
  foldl (fun s line => ptext line (newline s)) s rows.

Definition repaint c : option coordinator :=
  match surface c with
  | Alternate => Some c
  | Repl =>
      let co := Z.max (cols c) 1 in
      let p := width_policy c in
      let t := text (buffer c) in
      let cur := (cursor (buffer c) `min` byte_len t)%nat in
      before ← slice t 0 cur;
      let cursor_col := str_width p (prompt c) + str_width p before in
      let staging_lines := match staging c with Some st => staging_rows p co st | None => [] end in
      let menu_lines := match menu c with Some m => menu_rows p co m | None => [] end in
      let paint s :=
        go_right (cursor_col `mod` co)
          (raw [x0d] (up (zlen menu_lines + zlen staging_lines)
             (put_rows menu_lines (put_rows staging_lines
                (ptext t (ptext (prompt c) (erase_block (up (cursor_row c) s)))))))) in
      Some (set_cursor_row (cursor_col / co) (frame paint c))
  end.

Definition paint_alternate c : coordinator :=
  frame (fun s =>
    let s := ptext (chars "penguin TUI " ++ [8212] ++ chars " " ++ origin c) (raw (ESC ++ bs "[H" ++ ESC ++ bs "[2J") s) in
    let s := ptext (chars "command: " ++ box_text (tui c)) (newline s) in
    if help (tui c) then ptext (chars "[help] F1 closes this. Esc returns.") (newline s) else s) c.

(** *** Notices *)

Definition notice_line (n : Notice) : str :=
  chars "[" ++ origin_name (notice_origin n) ++ chars "] " ++ notice_text n.

Definition print_notice (n : Notice) c : coordinator :=
  let c' := frame (fun s => newline (ptext (notice_line n) (erase_block (up (cursor_row c) s)))) c in
  set_cursor_row 0 (set_printed (printed c + 1) c').

Definition deliver (n : Notice) c : option coordinator :=
  match surface c with
  | Alternate => Some (set_pending (pending c ++ [n]) c)
  | Repl => repaint (print_notice n c)
  end.

(** *** Surfaces *)

Definition open_menu (rows : list str) c : option coordinator :=
  repaint (set_menu (Some (new_menu rows)) c).
Definition close_menu c : option coordinator :=
  match menu c with
  | Some _ => repaint (set_menu None c)
  | None => Some c
  end.

Definition enter_alternate c : coordinator :=
  match surface c with
  | Alternate => c
  | Repl =>
      let b := buffer c in
      let c := set_stash (Some (text b, cursor b)) c in
      let c := set_tui (mkTui (text b) (cursor b) false) c in
      let c := frame (fun s => raw HIDE_CURSOR (raw ENTER_ALTERNATE (erase_block s))) c in
      paint_alternate (set_surface Alternate c)
  end.

Definition leave_alternate c : option coordinator :=
  match surface c with
  | Repl => Some c
  | Alternate =>
      let carried := box_text (tui c) in
      let carried_cursor := (box_cursor (tui c) `min` byte_len carried)%nat in
      let c := set_tui default_tui c in
      let c := frame (fun s => raw SHOW_CURSOR (raw LEAVE_ALTERNATE s)) c in
      let c := set_cursor_row 0 (set_surface Repl c) in
      let c := set_buffer (set_cursor carried_cursor (set_text carried (buffer c))).2 c in
      let c := set_stash None c in
      let waiting := pending c in
      repaint (foldl (fun c n => print_notice n c) (set_pending [] c) waiting)
  end.

Definition start c : option coordinator := repaint (frame (raw ENABLE_BRACKETED_PASTE) c).

Definition shutdown c : option coordinator :=
  c ← (match surface c with Alternate => leave_alternate c | Repl => Some c end);
  Some (frame (fun s => newline (raw SHOW_CURSOR (raw DISABLE_BRACKETED_PASTE (erase_block s)))) c).

(** [Drop]: what the sink holds and the flag of ownership afterwards. *)
Definition drop_coordinator c : Out * bool :=
  (match surface c with
   | Alternate => done_frame (raw SHOW_CURSOR (raw LEAVE_ALTERNATE (sink c)))
   | Repl => sink c
   end, release).

(** *** Keys at the prompt *)

(** Byte offset of the last white space, [rfind(char::is_whitespace)]. *)
Fixpoint rfind_whitespace (s : str) : option nat :=
  match s with
  | [] => None
  | ch :: r =>
      match rfind_whitespace r with
      | Some i => Some (len_utf8 ch + i)%nat
      | None => if char_is_whitespace ch then Some O else None
      end
  end.

Definition accept_selection c : option coordinator :=
  match menu c ≫= selection with
  | None => Some c
  | Some sel =>
      let cur := cursor (buffer c) in
      head ← slice (text (buffer c)) 0 cur;
      let start := match rfind_whitespace head with Some i => (i + 1)%nat | None => O end in
      '(_, b) ← accept_completion (new_edit start cur sel) (buffer c);
      Some (set_menu None (set_buffer b c))
  end.

Definition row_focused c : bool :=
  match menu c with
  | Some m => match menu_focused m with Some _ => true | None => false end
  | None => false
  end.

(** The [match] of [repl_key], before the repaint. *)
Definition repl_key_action (k : Key) c : option (Action * coordinator) :=
  match k with
  | KChar ch => b ← insert [ch] (buffer c); Some (NoAction, set_menu None (set_buffer b c))
  | KBackspace => b ← backspace (buffer c); Some (NoAction, set_menu None (set_buffer b c))
  | KLeft => b ← move_left (buffer c); Some (NoAction, set_buffer b c)
  | KRight => b ← move_right (buffer c); Some (NoAction, set_buffer b c)
  | KDown => Some (NoAction, set_menu (menu_down <$> menu c) c)
  | KUp => Some (NoAction, set_menu (menu_up <$> menu c) c)
  | KEsc => Some (NoAction, set_menu None c)
  | KTab | KEnter =>
      if row_focused c then c ← accept_selection c; Some (NoAction, c)
      else match k with
           | KEnter =>
               let line := text (buffer c) in
               let c := set_menu None (set_buffer (set_text [] (buffer c)) c) in
               let c := frame (fun s => newline (ptext (prompt c ++ line) (erase_block s))) c in
               Some (Submit line, set_cursor_row 0 c)
           | _ => Some (NoAction, c)
           end
  | KCtrl ch =>
      if decide (ch = 99) then
        Some (NoAction, set_menu None (set_buffer (set_text [] (buffer c)) c))
      else if decide (ch = 100 /\ text (buffer c) = []) then Some (Quit, c)
      else Some (NoAction, c)
  | KFunction _ => Some (NoAction, c)
  end.

Definition repl_key (k : Key) c : option (Action * coordinator) :=
  '(a, c) ← repl_key_action k c;
  c ← repaint c;
  Some (a, c).

(** What a finished burst amounts to. *)
Definition flush_burst c : option coordinator :=
  let content := pending_paste c in
  let touched := burst_touched_buffer c in
  let content := if touched then content ++ encode_str (text (buffer c)) else content in
  let c := set_pending_paste [] c in
  let c := if touched then set_buffer (set_text [] (buffer c)) c else c in
  let c := set_burst_touched_buffer false c in
  if decide (content = []) then Some c
  else
    let content := if decide (last content = Some x0a) then removelast content else content in
    if needs_staging content then
      repaint (set_menu None (set_staging (Some (new_staging content)) c))
    else
      b ← insert (from_utf8_lossy content) (buffer c);
      repaint (set_buffer b c).

Definition since_last (at_ : Z) (p : Z) : Z := Z.max 0 (at_ - p).

Definition bursty (at_ : Z) c : bool :=
  match last_key_at c with
  | Some p => bool_decide (since_last at_ p < BURST_GAP)
  | None => false
  end.

Definition repl_key_at (k : Key) (at_ : Z) c : option (Action * coordinator) :=
  let in_burst := bursty at_ c in
  let c := set_last_key_at (Some at_) c in
  c ← (if negb in_burst && negb (bool_decide (pending_paste c = [])) then flush_burst c else Some c);
  if in_burst then
    match k with
    | KEnter =>
        let held := pending_paste c ++ encode_str (text (buffer c)) ++ [x0a] in
        let c := set_buffer (set_text [] (buffer c)) (set_pending_paste held c) in
        c ← repaint (set_menu None (set_burst_touched_buffer false c));
        Some (NoAction, c)
    | KChar _ | KBackspace => repl_key k (set_burst_touched_buffer true c)
    | _ => repl_key k c
    end
  else repl_key k c.

Definition tick (at_ : Z) c : option coordinator :=
  let quiet := match last_key_at c with
               | Some p => bool_decide (BURST_GAP <= since_last at_ p)
               | None => true
               end in
  if quiet && negb (bool_decide (pending_paste c = [])) then flush_burst c else Some c.

(** *** Keys of the review and of the alternate screen *)

Definition staging_key_action (k : Key) (st : Staging) c : Action * coordinator :=
  match k with
  | KDown => (NoAction, set_staging (Some (focus (focused st + 1) st)) c)
  | KUp => (NoAction, set_staging (Some (focus (focused st - 1) st)) c)
  | KBackspace =>
      let st := delete st in
      (NoAction, set_staging (if staged_is_empty st then None else Some st) c)
  | KEsc => (NoAction, set_staging None c)
  | KChar ch =>
      if decide (ch = 49) then (SubmitMany (decide_choice OneByOne st).1, set_staging None c)
      else if decide (ch = 50) then
        (match (decide_choice SingleCommand st).1 with
         | l :: _ => Submit l
         | [] => NoAction
         end, set_staging None c)
      else (NoAction, c)
  | KCtrl ch => if decide (ch = 99) then (NoAction, set_staging None c) else (NoAction, c)
  | _ => (NoAction, c)
  end.

Definition staging_key (k : Key) c : option (Action * coordinator) :=
  match staging c with
  | None => Some (NoAction, c)
  | Some st => let '(a, c) := staging_key_action k st c in c ← repaint c; Some (a, c)
  end.

(** Typing and erasing in the command box. *)
Definition box_insert (ch : Z) (t : Tui) : option Tui :=
  x ← replace_range (box_text t) (box_cursor t) (box_cursor t) [ch];
  Some (mkTui x (box_cursor t + len_utf8 ch) (help t)).
Definition box_backspace (t : Tui) : option Tui :=
  before ← slice (box_text t) 0 (box_cursor t);
  match last before with
  | None => Some t
  | Some ch =>
      let i := (box_cursor t - len_utf8 ch)%nat in
      x ← replace_range (box_text t) i (box_cursor t) [];
      Some (mkTui x i (help t))
  end.

Definition tui_key (k : Key) c : option coordinator :=
  let t := tui c in
  let stay (t : Tui) := Some (paint_alternate (set_tui t c)) in
  match k with
  | KFunction n => if decide (n = 1) then stay (mkTui (box_text t) (box_cursor t) (negb (help t))) else stay t
  | KEsc => if help t then stay (mkTui (box_text t) (box_cursor t) false) else leave_alternate c
  | KChar ch => if help t then stay t else t ← box_insert ch t; stay t
  | KBackspace => if help t then stay t else t ← box_backspace t; stay t
  | _ => stay t
  end.

(** *** One input *)

Definition handle_at (input : Input) (at_ : Z) c : option (Action * coordinator) :=
  match input with
  | IResize co ro =>
      c ← repaint (set_cursor_row 0 (set_rows ro (set_cols co c)));
      Some (NoAction, c)
  | IMessage n => c ← deliver n c; Some (NoAction, c)
  | IInterrupt => Some (Quit, c)
  | IPaste b =>
      match surface c with
      | Alternate => Some (NoAction, c)
      | Repl =>
          c ← (if needs_staging b then Some (set_menu None (set_staging (Some (new_staging b)) c))
               else x ← insert (from_utf8_lossy b) (buffer c); Some (set_buffer x c));
          c ← repaint c;
          Some (NoAction, c)
      end
  | IKey k =>
      match staging c with
      | Some _ => staging_key k (set_last_key_at (Some at_) c)
      | None =>
          match surface c with
          | Repl => repl_key_at k at_ c
          | Alternate => c ← tui_key k c; Some (NoAction, c)
          end
      end
  end.

End Coordinator.
