(* ===== verification/TerminalFacts.v ===== *)
(** * What the coordinator guarantees

    A pasted block is never executed by itself, no notice is lost, the alternate
    screen gives the draft back, and nothing reachable panics except where the
    line buffer does. *)

From S2P Require Import Prelude Text TextFacts Buffer Width Lines Paste Terminal.

(** ** The line buffer behind the prompt *)

(** A buffer the coordinator holds: reachable, with no group open. *)
Definition settled (b : LineBuffer) : Prop := reachable b /\ open b = None.

Lemma settled_empty : settled empty_buffer.
Proof. split; [constructor|done]. Qed.

Lemma settled_wf b : settled b -> wf b.
Proof. intros [H _]. by apply reachable_wf. Qed.

Lemma settled_edit op b r b' : settled b -> edit op b = Some (r, b') -> settled b'.
Proof.
  intros [Hr Ho] He. split; [by eapply reachable_step, step_edit|].
  apply edit_cases in He as [[-> _]|[_ (e & l & t & _ & _ & ->)]]; done.
Qed.

Lemma settled_inside s b b' : settled b -> group_step s b = Some b' -> open b' = None -> settled b'.
Proof. intros [Hr _] Hs Ho. split; [by eapply reachable_step, step_inside|done]. Qed.

Lemma settled_insert x b : settled b -> exists b', insert x b = Some b' /\ settled b'.
Proof.
  intros Hb. pose proof (wf_cursor _ (settled_wf _ Hb)) as Hc.
  destruct (cut_exists _ _ _ Hc Hc) as (p & m & q & H); [lia|].
  assert (exists b', insert x b = Some b') as [b' E].
  { unfold insert. rewrite (cut_replace _ _ _ _ _ _ _ H). eauto. }
  exists b'. split; [done|]. eapply (settled_edit (Insert x)); [done|]. cbn [edit]. by rewrite E.
Qed.

Lemma settled_set_text x b : settled b -> settled (set_text x b).
Proof. intros Hb. by eapply (settled_edit (SetText x)). Qed.

Lemma settled_set_cursor i b : settled b -> settled (set_cursor i b).2.
Proof.
  intros Hb. eapply (settled_inside (GCursor i)); [done|done|]. destruct Hb as [_ Ho].
  unfold set_cursor. by repeat case_match.
Qed.

Lemma settled_accept e b : settled b -> exists r b', accept_completion e b = Some (r, b') /\ settled b'.
Proof.
  intros Hb. assert (exists r b', accept_completion e b = Some (r, b')) as (r & b' & E).
  { unfold accept_completion.
    destruct (decide (exists p m q, fits e (begin "accept completion" b) p m q)) as [(p & m & q & H)|Hn].
    - rewrite (apply_fits _ _ _ _ _ H). eauto.
    - destruct (apply_misfit e (begin "accept completion" b)) as [x ->]; [|eauto].
      intros p m q H. apply Hn. by exists p, m, q. }
  exists r, b'. split; [done|]. by eapply (settled_edit (Accept e)).
Qed.

Lemma settled_move_right b : settled b -> exists b', move_right b = Some b' /\ settled b'.
Proof.
  intros Hb. pose proof (next_grapheme_total _ _ (wf_cursor _ (settled_wf _ Hb))) as Ht.
  unfold move_right. destruct (next_grapheme _ _) as [i|] eqn:E; [|done]. cbn [fmap option_fmap option_map].
  eexists. split; [done|]. eapply (settled_inside GRight); [done| |by destruct Hb].
  cbn [group_step]. unfold move_right. by rewrite E.
Qed.

Lemma settled_move_left b b' : settled b -> move_left b = Some b' -> settled b'.
Proof.
  intros Hb H. eapply (settled_inside GLeft); [done|done|]. unfold move_left in H.
  apply fmap_Some in H as (i & _ & ->). by destruct Hb.
Qed.

Lemma settled_backspace b b' : settled b -> backspace b = Some b' -> settled b'.
Proof. intros Hb H. eapply (settled_edit Backspace); [done|]. cbn [edit]. by rewrite H. Qed.

(** ** What is painted

    A sink whose puts can be listed, in order. *)
Class SinkLog (Out : Type) `{Sink Out} := {
  written : Out -> list bytes;
  written_put b s : written (put b s) = written s ++ [b];
  written_flush s : written (flush_sink s) = written s;
}.

(** The sink that lists its puts. *)
#[export] Instance list_sink : Sink (list bytes) := {| put b s := s ++ [b]; flush_sink s := s |}.
#[export] Program Instance list_sink_log : SinkLog (list bytes) := {| written s := s |}.
Solve All Obligations with done.

Section Facts.
Context `{W : UnicodeWidth} {Out : Type} {HS : Sink Out} {HL : SinkLog Out}.
Implicit Type c : Coordinator Out.

Definition extends (s s' : Out) : Prop := written s `prefix_of` written s'.

Lemma extends_refl s : extends s s.
Proof. by unfold extends. Qed.
Lemma extends_put b s s' : extends s s' -> extends s (put b s').
Proof. unfold extends. rewrite written_put. intros H. by apply prefix_app_r. Qed.
Lemma extends_flush s s' : extends s s' -> extends s (flush_sink s').
Proof. unfold extends. by rewrite written_flush. Qed.
Lemma extends_up n s s' : extends s s' -> extends s (up n s').
Proof. unfold up. case_decide; auto using extends_put. Qed.
Lemma extends_right n s s' : extends s s' -> extends s (go_right n s').
Proof. unfold go_right. case_decide; auto using extends_put. Qed.
Lemma extends_rows rs s s' : extends s s' -> extends s (put_rows rs s').
Proof.
  revert s'. induction rs as [|r rs IH]; intros s' Hs; [done|]. apply IH. by repeat apply extends_put.
Qed.

Ltac extends := unfold raw, ptext, newline, erase_block, done_frame;
  repeat (apply extends_put || apply extends_flush || apply extends_up || apply extends_right
          || apply extends_rows || apply extends_refl).

(** ** The invariant, and the account of notices *)

Record ok c : Prop := mkOk {
  ok_buffer : settled (buffer c);
  ok_box : surface c = Alternate -> is_boundary (box_text (tui c)) (box_cursor (tui c)) = true;
  ok_pending : surface c = Repl -> pending c = [];
  ok_staging : forall st, staging c = Some st -> staging_ok st /\ lines st <> [];
}.

Definition note (n : Notice) : bytes := encode_str (notice_line n).

(** The notices [d] were delivered between [c] and [c']: those printed meanwhile
    and those waiting now are those waiting before and [d], in order. *)
Definition account (d : list Notice) c c' : Prop :=
  exists ps more, pending c ++ d = ps ++ pending c' /\
    written (sink c') = written (sink c) ++ more /\
    (note <$> ps) `sublist_of` more /\ printed c' = printed c + zlen ps.

Lemma account_same c c' :
  pending c' = pending c -> extends (sink c) (sink c') -> printed c' = printed c -> account [] c c'.
Proof.
  intros Hp [more Hs] Hn. exists [], more. rewrite Hp, Hn, app_nil_r. split_and!; [done|done|apply sublist_nil_l|].
  rewrite zlen_nil. lia.
Qed.

Lemma account_trans d e c1 c2 c3 : account d c1 c2 -> account e c2 c3 -> account (d ++ e) c1 c3.
Proof.
  intros (ps & more & Hp & Hs & Hl & Hn) (qs & more' & Hq & Hs' & Hl' & Hn').
  exists (ps ++ qs), (more ++ more'). split_and!.
  - by rewrite app_assoc, Hp, <- app_assoc, Hq, app_assoc.
  - by rewrite Hs', Hs, app_assoc.
  - rewrite fmap_app. by apply sublist_app.
  - rewrite Hn', Hn, zlen_app. lia.
Qed.

Lemma account_then d c1 c2 c3 : account [] c1 c2 -> account d c2 c3 -> account d c1 c3.
Proof. apply (account_trans []). Qed.

Lemma account_next d c1 c2 c3 : account d c1 c2 -> account [] c2 c3 -> account d c1 c3.
Proof. intros H1 H2. rewrite <- (app_nil_r d). by eapply account_trans. Qed.

(** Everything but the sink, the cursor's row and the counters. *)
Record same c c' : Prop := mkSame {
  same_buffer : buffer c' = buffer c; same_menu : menu c' = menu c;
  same_staging : staging c' = staging c; same_surface : surface c' = surface c;
  same_tui : tui c' = tui c; same_pending : pending c' = pending c;
  same_last : last_key_at c' = last_key_at c; same_paste : pending_paste c' = pending_paste c;
  same_touched : burst_touched_buffer c' = burst_touched_buffer c; same_origin : origin c' = origin c;
}.

Lemma same_ok c c' : same c c' -> ok c -> ok c'.
Proof.
  intros [Eb _ Es Ef Et Ep _ _ _ _] [H1 H2 H3 H4].
  split; [by rewrite Eb|by rewrite Ef, Et|by rewrite Ef, Ep|by rewrite Es].
Qed.

Lemma ok_cut c : ok c -> exists m q, cut (text (buffer c)) 0 (cursor (buffer c)) [] m q.
Proof.
  intros Hok. pose proof (wf_cursor _ (settled_wf _ (ok_buffer _ Hok))) as Hc.
  destruct (cut_exists (text (buffer c)) 0 (cursor (buffer c))) as (p & m & q & H); [apply boundary_0|done|lia|].
  assert (p = []) as ->; [|by exists m, q]. destruct H as (_ & H & _). destruct p as [|x p]; [done|].
  rewrite byte_len_cons in H. pose proof (len_utf8_pos x). lia.
Qed.

Lemma boundary_bound t i : is_boundary t i = true -> (i <= byte_len t)%nat.
Proof. intros (p & q & -> & <-)%is_boundary_spec. rewrite byte_len_app. lia. Qed.

(** A repaint shows, and changes nothing else. *)
Lemma repaint_spec c : ok c -> exists c', repaint c = Some c' /\ same c c' /\ account [] c c'.
Proof.
  intros Hok. unfold repaint. destruct (surface c) eqn:Es.
  - rewrite Nat.min_l by (apply boundary_bound, wf_cursor, settled_wf, Hok).
    destruct (ok_cut _ Hok) as (m & q & H). rewrite (cut_slice _ _ _ _ _ _ H). cbn [mbind option_bind].
    eexists. split; [done|]. split; [by split|]. apply account_same; [done| |done]. cbn. extends.
  - exists c. split; [done|]. split; [by split|]. apply account_same; [done|apply extends_refl|done].
Qed.

Lemma repaint_ok c : ok c -> exists c', repaint c = Some c' /\ ok c' /\ account [] c c'.
Proof.
  intros Hok. destruct (repaint_spec _ Hok) as (c' & ? & ? & ?). eauto using same_ok.
Qed.

(** ** Steps

    What a step from [c] may do, where [st] finds the coordinator in its result
    and [P] holds when it panics. *)
Definition outcome {A} (st : A -> Coordinator Out) (d : list Notice) c (P : Prop) (r : option A) : Prop :=
  match r with
  | Some x => ok (st x) /\ account d c (st x)
  | None => P
  end.

Lemma outcome_bind {A B} (st : A -> Coordinator Out) (st' : B -> Coordinator Out) d c P r f :
  outcome st d c P r -> (forall x, ok (st x) -> outcome st' [] (st x) P (f x)) ->
  outcome st' d c P (r ≫= f).
Proof.
  destruct r as [x|]; [|done]. intros [Hok Ha] Hf. specialize (Hf x Hok). cbn [mbind option_bind].
  destruct (f x) as [y|]; [|done]. destruct Hf. split; [done|]. by eapply account_next.
Qed.

Lemma outcome_from {A} (st : A -> Coordinator Out) d c c0 P r :
  pending c0 = pending c -> extends (sink c) (sink c0) -> printed c0 = printed c ->
  outcome st d c0 P r -> outcome st d c P r.
Proof.
  intros H1 H2 H3. destruct r; [|done]. intros [Hok Ha]. split; [done|].
  by eapply account_then; [apply account_same|].
Qed.

Lemma outcome_ret {A} (st : A -> Coordinator Out) c P x :
  pending (st x) = pending c -> extends (sink c) (sink (st x)) -> printed (st x) = printed c ->
  ok (st x) -> outcome st [] c P (Some x).
Proof. intros. split; [done|]. by apply account_same. Qed.

Lemma outcome_repaint P c : ok c -> outcome id [] c P (repaint c).
Proof. intros (c' & -> & ? & ?)%repaint_ok. done. Qed.

Lemma ok_set_buffer b c : settled b -> ok c -> ok (set_buffer b c).
Proof. intros Hb []. by split. Qed.
Lemma ok_set_menu m c : ok c -> ok (set_menu m c).
Proof. intros []. by split. Qed.
Lemma ok_set_staging st c : (forall s, st = Some s -> staging_ok s /\ lines s <> []) -> ok c -> ok (set_staging st c).
Proof. intros Hs []. by split. Qed.
Lemma ok_set_paste b c : ok c -> ok (set_pending_paste b c).
Proof. intros []. by split. Qed.
Lemma ok_set_touched b c : ok c -> ok (set_burst_touched_buffer b c).
Proof. intros []. by split. Qed.
Lemma ok_set_last t c : ok c -> ok (set_last_key_at t c).
Proof. intros []. by split. Qed.
Lemma ok_set_row n c : ok c -> ok (set_cursor_row n c).
Proof. intros []. by split. Qed.
Lemma ok_frame paint c : ok c -> ok (frame paint c).
Proof. intros []. by split. Qed.
Lemma ok_size co ro c : ok c -> ok (set_rows ro (set_cols co c)).
Proof. intros []. by split. Qed.
Lemma new_staging_lines b : lines (new_staging b) <> [].
Proof. apply split_on_nonempty. Qed.
Lemma ok_new_staging b c : ok c -> ok (set_staging (Some (new_staging b)) c).
Proof. apply ok_set_staging. intros s [= <-]. split; [apply new_staging_ok|apply new_staging_lines]. Qed.
Lemma ok_no_staging c : ok c -> ok (set_staging None c).
Proof. by apply ok_set_staging. Qed.

Hint Resolve ok_set_buffer ok_set_menu ok_set_paste ok_set_touched ok_set_last ok_set_row ok_frame
  ok_new_staging ok_no_staging ok_buffer ok_size settled_set_text extends_refl : core.

(** A step that ends by repainting after assignments. *)
Ltac repaints :=
  match goal with
  | |- outcome _ _ ?c _ (repaint ?c0) => apply (outcome_from _ _ _ c0); [done|auto|done|apply outcome_repaint; auto 12]
  end.

Ltac returns := apply outcome_ret; cbn [snd]; [done|try done; auto|done|unfold id; cbn [snd]; auto 10].

Lemma outcome_pair {A} (x : A) d c P r :
  outcome id d c P r -> outcome snd d c P (c ← r; Some (x, c)).
Proof. by destruct r. Qed.

Lemma outcome_insert {A} (st : A -> Coordinator Out) c P x f : ok c ->
  (forall b, settled b -> outcome st [] c P (f b)) -> outcome st [] c P (insert x (buffer c) ≫= f).
Proof. intros Hok Hf. destruct (settled_insert x _ (ok_buffer _ Hok)) as (b & -> & Hb). by apply Hf. Qed.

(** *** Each operation *)

Lemma flush_burst_step P c : ok c -> outcome id [] c P (flush_burst c).
Proof.
  intros Hok. unfold flush_burst.
  set (c1 := set_burst_touched_buffer false _).
  assert (H1 : ok c1 /\ pending c1 = pending c /\ sink c1 = sink c /\ printed c1 = printed c)
    by (unfold c1; destruct (burst_touched_buffer c); split_and!; try done; auto 10).
  destruct H1 as (H1 & Hp & Hs & Hn). clearbody c1. apply (outcome_from _ _ _ c1); [done|by rewrite Hs|done|].
  case_decide; [returns|].
  match goal with |- context [needs_staging ?x] => destruct (needs_staging x) end; [repaints|].
  apply outcome_insert; [done|]. intros b Hb. repaints.
Qed.

Lemma tick_step P at_ c : ok c -> outcome id [] c P (tick at_ c).
Proof.
  intros Hok. unfold tick. case_match; [by apply flush_burst_step|]. returns.
Qed.

Lemma accept_selection_step P c : ok c -> outcome id [] c P (accept_selection c).
Proof.
  intros Hok. unfold accept_selection. destruct (_ ≫= selection) as [sel|]; [|returns].
  destruct (ok_cut _ Hok) as (m & q & H). rewrite (cut_slice _ _ _ _ _ _ H). cbn [mbind option_bind].
  match goal with |- context [accept_completion ?e _] =>
    destruct (settled_accept e _ (ok_buffer _ Hok)) as (r & b & -> & Hb) end.
  returns.
Qed.

(** Where the line buffer's walk over graphemes leaves the text. *)
Definition stuck (k : Key) : Prop :=
  (k = KLeft \/ k = KBackspace) /\ exists b, settled b /\ prev_grapheme (text b) (cursor b) = None.

Lemma repl_key_action_step k c : ok c -> outcome snd [] c (stuck k) (repl_key_action k c).
Proof.
  intros Hok. pose proof (ok_buffer _ Hok) as Hb. destruct k; cbn [repl_key_action].
  - apply outcome_insert; [done|]. intros b ?. returns.
  - destruct (backspace (buffer c)) as [b|] eqn:E; cbn [mbind option_bind].
    + apply settled_backspace in E; [|done]. returns.
    + split; [by right|]. exists (buffer c). split; [done|].
      destruct (prev_grapheme (text (buffer c)) (cursor (buffer c))) eqn:Ep; [|done].
      exfalso. apply (backspace_total (buffer c)); [by apply settled_wf|by rewrite Ep|done].
  - destruct (row_focused c).
    + apply outcome_pair. by apply accept_selection_step.
    + apply outcome_ret; cbn [snd]; [done|cbn; extends|done|auto 10].
  - destruct (row_focused c); [apply outcome_pair; by apply accept_selection_step|returns].
  - returns.
  - returns.
  - returns.
  - destruct (move_left (buffer c)) as [b|] eqn:E; cbn [mbind option_bind].
    + apply settled_move_left in E; [|done]. returns.
    + split; [by left|]. exists (buffer c). split; [done|]. unfold move_left in E.
      by destruct (prev_grapheme _ _).
  - destruct (settled_move_right _ Hb) as (b & -> & ?). returns.
  - case_decide; [returns|]. case_decide; returns.
  - returns.
Qed.

Lemma repl_key_step k c : ok c -> outcome snd [] c (stuck k) (repl_key k c).
Proof.
  intros Hok. unfold repl_key. eapply outcome_bind; [by apply repl_key_action_step|].
  intros [a c'] Hok'. cbn [snd] in *. apply outcome_pair, outcome_repaint. done.
Qed.

Lemma repl_key_at_step k at_ c : ok c -> outcome snd [] c (stuck k) (repl_key_at k at_ c).
Proof.
  intros Hok. unfold repl_key_at. set (in_burst := bursty at_ c).
  apply (outcome_from _ _ _ (set_last_key_at (Some at_) c)); [done|auto|done|].
  eapply (outcome_bind id).
  - case_match; [apply flush_burst_step; auto|returns].
  - intros c1 H1. change (id c1) with c1 in *. destruct in_burst; [|by apply repl_key_step].
    destruct k; try (by apply repl_key_step);
      try (by apply (outcome_from _ _ _ (set_burst_touched_buffer true c1)); [done|auto|done|apply repl_key_step; auto]).
    apply outcome_pair. repaints.
Qed.

Lemma staging_key_step P k c : ok c -> outcome snd [] c P (staging_key k c).
Proof.
  intros Hok. unfold staging_key. destruct (staging c) as [st|] eqn:Es; [|returns].
  destruct (ok_staging _ Hok _ Es) as [Hst Hne].
  assert (Hfocus : forall i, ok (set_staging (Some (focus i st)) c)).
  { intros i. apply ok_set_staging; [|done]. intros s [= <-]. by split; [apply focus_ok|]. }
  assert (Hdel : ok (set_staging (if staged_is_empty (delete st) then None else Some (delete st)) c)).
  { apply ok_set_staging; [|done]. intros s. unfold staged_is_empty. case_bool_decide; [done|].
    intros [= <-]. by split; [apply delete_ok|]. }
  destruct (staging_key_action k st c) as [a c'] eqn:E.
  assert (H : ok c' /\ pending c' = pending c /\ sink c' = sink c /\ printed c' = printed c).
  { destruct k; cbn [staging_key_action] in E; repeat case_decide; simplify_eq; split_and!; try done; auto. }
  destruct H as (Hok' & ? & Hs & ?). apply outcome_pair, (outcome_from _ _ _ c'); [done|by rewrite Hs|done|].
  by apply outcome_repaint.
Qed.

(** Printing a notice puts its line, and touches nothing of the draft. *)
Lemma print_notice_spec n c :
  pending (print_notice n c) = pending c /\ buffer (print_notice n c) = buffer c /\
  staging (print_notice n c) = staging c /\ surface (print_notice n c) = surface c /\
  tui (print_notice n c) = tui c /\ printed (print_notice n c) = printed c + 1 /\
  exists more, written (sink (print_notice n c)) = written (sink c) ++ more /\ [note n] `sublist_of` more.
Proof.
  do 6 (split; [done|]). cbn. unfold newline, ptext, done_frame. rewrite written_flush, !written_put.
  assert (extends (sink c) (erase_block (up (cursor_row c) (sink c)))) as [more ->] by extends.
  exists (more ++ [note n] ++ [[x0d; x0a]]). split; [by rewrite <- !app_assoc|].
  by apply sublist_inserts_l, sublist_inserts_r.
Qed.

Lemma print_all_spec ns : forall c,
  let c' := foldl (fun c n => print_notice n c) c ns in
  pending c' = pending c /\ buffer c' = buffer c /\ staging c' = staging c /\ surface c' = surface c /\
  tui c' = tui c /\ printed c' = printed c + zlen ns /\
  exists more, written (sink c') = written (sink c) ++ more /\ (note <$> ns) `sublist_of` more.
Proof.
  induction ns as [|n ns IH]; intros c; cbn [foldl].
  - do 5 (split; [done|]). split; [rewrite zlen_nil; lia|]. exists []. by rewrite app_nil_r.
  - destruct (IH (print_notice n c)) as (H1 & H2 & H3 & H4 & H5 & H6 & more & Hm & Hl).
    destruct (print_notice_spec n c) as (G1 & G2 & G3 & G4 & G5 & G6 & more' & Gm & Gl).
    split_and!; [congruence..|rewrite H6, G6, zlen_cons; lia|].
    exists (more' ++ more). split; [by rewrite Hm, Gm, app_assoc|].
    rewrite fmap_cons. by apply (sublist_app [note n]).
Qed.

Lemma deliver_step P n c : ok c -> outcome id [n] c P (deliver n c).
Proof.
  intros Hok. unfold deliver. destruct (surface c) eqn:Es.
  - destruct (print_notice_spec n c) as (H1 & H2 & H3 & H4 & H5 & H6 & more & Hm & Hl).
    assert (Hok' : ok (print_notice n c)).
    { destruct Hok. split; rewrite ?H1, ?H2, ?H3, ?H4, ?H5; done. }
    destruct (repaint_ok _ Hok') as (c' & -> & Hc' & Ha). split; [done|].
    eapply account_next; [|exact Ha]. exists [n], more. rewrite H1, (ok_pending _ Hok Es). done.
  - split; [destruct Hok; split; cbn; try done; by rewrite Es|].
    exists [], []. cbn [pending id set_pending sink printed]. rewrite app_nil_r.
    split_and!; [done|done|apply sublist_nil_l|]. rewrite zlen_nil. lia.
Qed.

Lemma leave_alternate_step P c : ok c -> outcome id [] c P (leave_alternate c).
Proof.
  intros Hok. unfold leave_alternate. destruct (surface c) eqn:Es; [returns|].
  match goal with |- context [foldl _ (set_pending [] ?x) _] => set (c1 := x) end.
  assert (Hw : exists more, written (sink c1) = written (sink c) ++ more).
  { unfold c1. cbn. change (extends (sink c) (done_frame (raw SHOW_CURSOR (raw LEAVE_ALTERNATE (sink c))))). extends. }
  destruct Hw as [more Hw].
  destruct (print_all_spec (pending c1) (set_pending [] c1)) as (H1 & H2 & H3 & H4 & H5 & H6 & more' & Hm & Hl).
  set (c2 := foldl _ _ _) in *.
  assert (Hok2 : ok c2).
  { destruct Hok. split; rewrite ?H1, ?H2, ?H3, ?H4, ?H5; cbn; [|done|done|done].
    by apply settled_set_cursor, settled_set_text. }
  destruct (repaint_ok _ Hok2) as (c' & -> & Hc' & Ha). split; [done|].
  eapply account_next; [|exact Ha]. exists (pending c1), (more ++ more'). rewrite H1. split_and!.
  - done.
  - rewrite Hm. change (sink (set_pending [] c1)) with (sink c1). by rewrite Hw, app_assoc.
  - by apply sublist_inserts_l.
  - done.
Qed.

Lemma paint_alternate_step t c :
  ok (set_tui t c) -> outcome id [] c False (Some (paint_alternate (set_tui t c))).
Proof.
  intros Hok. apply outcome_ret; [done| |done|by apply ok_frame]. cbn. destruct (help t); extends.
Qed.

Lemma ok_set_tui t c : surface c = Alternate ->
  is_boundary (box_text t) (box_cursor t) = true -> ok c -> ok (set_tui t c).
Proof. intros Hs Hb []. by split. Qed.

Lemma box_insert_spec ch t : is_boundary (box_text t) (box_cursor t) = true ->
  exists t', box_insert ch t = Some t' /\ is_boundary (box_text t') (box_cursor t') = true.
Proof.
  intros Hb. unfold box_insert. destruct (cut_exists _ _ _ Hb Hb) as (p & m & q & H); [lia|].
  rewrite (cut_replace _ _ _ _ _ _ _ H). eexists. split; [done|]. destruct H as (_ & <- & _). cbn.
  apply is_boundary_spec. exists (p ++ [ch]), q. rewrite <- app_assoc, byte_len_app. split; [done|].
  rewrite byte_len_cons. change (byte_len []) with 0%nat. lia.
Qed.

Lemma box_backspace_spec t : is_boundary (box_text t) (box_cursor t) = true ->
  exists t', box_backspace t = Some t' /\ is_boundary (box_text t') (box_cursor t') = true.
Proof.
  intros Hb. unfold box_backspace. apply is_boundary_spec in Hb as (p & q & Ht & Hp).
  assert (Hc : cut (box_text t) 0 (box_cursor t) [] p q) by (split_and!; [done|done|simpl; lia]).
  rewrite (cut_slice _ _ _ _ _ _ Hc). cbn [mbind option_bind].
  destruct p as [|ch p _] using rev_ind.
  - exists t. split; [done|]. rewrite Ht, <- Hp. apply boundary_app.
  - rewrite last_snoc. rewrite byte_len_app, byte_len_cons in Hp. change (byte_len []) with 0%nat in Hp.
    replace (box_cursor t - len_utf8 ch)%nat with (byte_len p) by lia.
    rewrite (cut_replace (box_text t) (byte_len p) (box_cursor t) p [ch] q).
    + eexists. split; [done|]. apply boundary_app.
    + split_and!; [by rewrite Ht, <- app_assoc|done|]. rewrite byte_len_app, byte_len_cons. by change (byte_len []) with 0%nat.
Qed.

Lemma tui_key_step k c : surface c = Alternate -> ok c -> outcome id [] c False (tui_key k c).
Proof.
  intros Hs Hok. pose proof (ok_box _ Hok Hs) as Hb.
  assert (Hstay : forall t, is_boundary (box_text t) (box_cursor t) = true ->
            outcome id [] c False (Some (paint_alternate (set_tui t c))))
    by (intros t Ht; by apply paint_alternate_step, ok_set_tui).
  destruct k as [ch| | | | | | | | |ch|n]; cbn [tui_key]; auto.
  - destruct (help (tui c)); [auto|]. destruct (box_insert_spec ch _ Hb) as (t & -> & Ht).
    cbn [mbind option_bind]. auto.
  - destruct (help (tui c)); [auto|]. destruct (box_backspace_spec _ Hb) as (t & -> & Ht).
    cbn [mbind option_bind]. auto.
  - destruct (help (tui c)); [auto|]. by apply leave_alternate_step.
  - case_decide; auto.
Qed.

Definition delivered_by (i : Input) : list Notice :=
  match i with
  | IMessage n => [n]
  | _ => []
  end.
Definition key_of (i : Input) : Key :=
  match i with
  | IKey k => k
  | _ => KEsc
  end.

Lemma weaken {A} (st : A -> Coordinator Out) d c P r : outcome st d c False r -> outcome st d c P r.
Proof. by destruct r. Qed.

(** One input: the invariant holds after it, the account of notices goes on,
    and only the walk over graphemes panics. *)
Lemma handle_at_step i at_ c : ok c ->
  outcome snd (delivered_by i) c (stuck (key_of i)) (handle_at i at_ c).
Proof.
  intros Hok. destruct i as [k|b|co ro|n|]; cbn [handle_at delivered_by key_of].
  - destruct (staging c) eqn:Es.
    + apply (outcome_from _ _ _ (set_last_key_at (Some at_) c)); [done|auto|done|].
      by apply staging_key_step, ok_set_last.
    + destruct (surface c) eqn:Ef; [by apply repl_key_at_step|].
      apply outcome_pair, weaken. by apply tui_key_step.
  - destruct (surface c); [|returns]. eapply (outcome_bind id).
    + destruct (needs_staging b); [returns|]. apply outcome_insert; [done|]. intros x Hx. returns.
    + intros c1 H1. by apply outcome_pair, outcome_repaint.
  - apply outcome_pair. repaints.
  - apply outcome_pair. by apply deliver_step.
  - returns.
Qed.

(** ** Histories *)

Inductive op :=
| Handle (i : Input) (at_ : Z)
| Tick (at_ : Z)
| OpenMenu (rows : list str)
| CloseMenu
| EnterAlternate
| LeaveAlternate
| Start
| SetPrompt (p : str)
| SetOrigin (o : str)
| SetWidth (w : WidthPolicy).

Definition quietly (r : option (Coordinator Out)) : option (Action * Coordinator Out) := c ← r; Some (NoAction, c).

Definition do_op (o : op) c : option (Action * Coordinator Out) :=
  match o with
  | Handle i at_ => handle_at i at_ c
  | Tick at_ => quietly (tick at_ c)
  | OpenMenu rows => quietly (open_menu rows c)
  | CloseMenu => quietly (close_menu c)
  | EnterAlternate => Some (NoAction, enter_alternate c)
  | LeaveAlternate => quietly (leave_alternate c)
  | Start => quietly (start c)
  | SetPrompt p => Some (NoAction, set_prompt p c)
  | SetOrigin o => Some (NoAction, set_origin o c)
  | SetWidth w => Some (NoAction, set_width_policy w c)
  end.

Fixpoint run (os : list op) c : option (list Action * Coordinator Out) :=
  match os with
  | [] => Some ([], c)
  | o :: r => '(a, c) ← do_op o c; '(acts, c) ← run r c; Some (a :: acts, c)
  end.

Definition delivered (os : list op) : list Notice :=
  os ≫= (fun o => match o with Handle i _ => delivered_by i | _ => [] end).

Lemma enter_alternate_step c P : ok c -> outcome id [] c P (Some (enter_alternate c)).
Proof.
  intros Hok. unfold enter_alternate. destruct (surface c) eqn:Es; [|returns].
  apply outcome_ret; [done| |done|].
  - cbn. extends.
  - apply ok_frame. pose proof (ok_buffer _ Hok) as Hb. split; cbn; [done| |done|by destruct Hok].
    intros _. by apply wf_cursor, settled_wf.
Qed.

Lemma open_menu_step rows P c : ok c -> outcome id [] c P (open_menu rows c).
Proof. intros Hok. unfold open_menu. repaints. Qed.

Lemma close_menu_step P c : ok c -> outcome id [] c P (close_menu c).
Proof. intros Hok. unfold close_menu. destruct (menu c); [repaints|returns]. Qed.

Lemma start_step P c : ok c -> outcome id [] c P (start c).
Proof.
  intros Hok. unfold start. apply (outcome_from _ _ _ (frame (raw ENABLE_BRACKETED_PASTE) c));
    [done|cbn; extends|done|apply outcome_repaint; auto].
Qed.

Definition op_key (o : op) : Key :=
  match o with
  | Handle i _ => key_of i
  | _ => KEsc
  end.

Lemma do_op_step o c : ok c -> outcome snd (delivered [o]) c (stuck (op_key o)) (do_op o c).
Proof.
  intros Hok. unfold delivered. cbn [mbind list_bind].
  destruct o as [i at_|at_|rows| | | | |p|x|w]; cbn [do_op op_key]; unfold quietly; rewrite ?app_nil_r;
    try apply outcome_pair; auto using handle_at_step, tick_step, open_menu_step, close_menu_step,
      leave_alternate_step, start_step.
  - exact (enter_alternate_step c True Hok).
  - apply outcome_ret; [done..|]. by destruct Hok.
  - apply outcome_ret; [done..|]. by destruct Hok.
  - apply outcome_ret; [done..|]. by destruct Hok.
Qed.

Lemma run_account os : forall c acts c', ok c -> run os c = Some (acts, c') ->
  ok c' /\ account (delivered os) c c'.
Proof.
  induction os as [|o os IH]; intros c acts c' Hok; cbn [run].
  - intros [= <- <-]. split; [done|]. by apply account_same.
  - pose proof (do_op_step o c Hok) as Ho. destruct (do_op o c) as [[a c1]|]; [|done].
    cbn [mbind option_bind]. destruct Ho as [Hok1 Ha]. cbn [snd] in *.
    destruct (run os c1) as [[acts1 c2]|] eqn:E; [|done]. intros [= <- <-].
    destruct (IH _ _ _ Hok1 E) as [Hok2 Ha2]. split; [done|].
    change (delivered (o :: os)) with (delivered ([o] ++ os)). unfold delivered. rewrite bind_app.
    by eapply account_trans.
Qed.

Lemma new_ok out co ro c o : new_coordinator out co ro false = (Ok c, o) ->
  ok c /\ pending c = [] /\ printed c = 0 /\ sink c = out.
Proof.
  intros [= <- _]. split; [|done]. split; [apply settled_empty|done|done|done].
Qed.

(** C21. No notice is lost, repeated or reordered: after any history those
    printed and those waiting are all that were delivered, nothing waits while
    the prompt has the screen, and leaving the alternate screen always succeeds
    and prints what waits. *)
Theorem notices_all_shown os out co ro o c0 acts c :
  new_coordinator out co ro false = (Ok c0, o) -> run os c0 = Some (acts, c) ->
  (surface c = Repl -> pending c = []) /\
  (exists shown more, delivered os = shown ++ pending c /\ printed c = zlen shown /\
     written (sink c) = written out ++ more /\ (note <$> shown) `sublist_of` more) /\
  exists c', leave_alternate c = Some c' /\ surface c' = Repl /\ pending c' = [] /\
    exists more, written (sink c') = written out ++ more /\ (note <$> delivered os) `sublist_of` more.
Proof.
  intros (Hok0 & Hp0 & Hn0 & Hs0)%new_ok Hr.
  destruct (run_account _ _ _ _ Hok0 Hr) as [Hok Ha]. split; [apply Hok|].
  pose proof Ha as (shown & more & Hd & Hw & Hl & Hn). rewrite Hp0 in Hd. split.
  - exists shown, more. rewrite Hn, Hn0, Hw, Hs0. done.
  - pose proof (leave_alternate_step False c Hok) as Hv.
    assert (Hsurf : forall c', leave_alternate c = Some c' -> surface c' = Repl).
    { intros c'. unfold leave_alternate. destruct (surface c) eqn:Es; [by intros [= <-]|]. intros Hc'.
      match type of Hc' with repaint ?x = _ => assert (surface x = Repl) as Hx end.
      { match goal with |- context [foldl _ ?x ?l] => destruct (print_all_spec l x) as (_ & _ & _ & -> & _) end. done. }
      unfold repaint in Hc'. rewrite Hx in Hc'. destruct (slice _ _ _); [|done]. by injection Hc' as <-. }
    destruct (leave_alternate c) as [c'|]; [|done]. destruct Hv as [Hok' Ha'].
    exists c'. pose proof (Hsurf _ eq_refl) as Hsf. pose proof (ok_pending _ Hok' Hsf) as Hp'.
    split_and!; [done|done|done|].
    pose proof (account_next _ _ _ _ Ha Ha') as (shown' & more' & Hd' & Hw' & Hl' & _).
    rewrite Hp0, Hp', app_nil_r in Hd'. cbn [app id] in Hd'. subst shown'. exists more'. unfold id in Hw'. by rewrite Hw', Hs0.
Qed.

(** Whatever the history, every further step succeeds, except that moving
    left or erasing at the prompt fails where the line buffer's walk over
    graphemes does. *)
Theorem reachable_steps os o out co ro f c0 acts c :
  new_coordinator out co ro false = (Ok c0, f) -> run os c0 = Some (acts, c) ->
  do_op o c = None ->
  exists at_ k, o = Handle (IKey k) at_ /\ (k = KLeft \/ k = KBackspace) /\
    exists b, reachable b /\ prev_grapheme (text b) (cursor b) = None.
Proof.
  intros (Hok0 & _)%new_ok Hr Hn. destruct (run_account _ _ _ _ Hok0 Hr) as [Hok _].
  pose proof (do_op_step o c Hok) as Ho. rewrite Hn in Ho. destruct Ho as (Hk & b & [Hb _] & Hp).
  destruct o as [[k|?|? ?|?|] at_|at_|rows| | | | |p|x|w]; cbn [op_key key_of] in Hk; try (by destruct Hk).
  exists at_, k. eauto 10.
Qed.

(** ** What is executed *)

(** The prompt as an Enter finds it: what a burst held is released first. *)
Definition released (at_ : Z) c : option (Coordinator Out) :=
  let c' := set_last_key_at (Some at_) c in
  if decide (pending_paste c = []) then Some c' else flush_burst c'.

Lemma repaint_some a c r : (c' ← repaint c; Some (a : Action, c')) = Some r -> r.1 = a.
Proof. destruct (repaint c); [|done]. by intros [= <-]. Qed.

Lemma repl_key_submits k c a c' : repl_key k c = Some (a, c') ->
  match a with
  | NoAction => True
  | Submit l => k = KEnter /\ row_focused c = false /\ l = text (buffer c)
  | SubmitMany _ => False
  | Quit => k = KCtrl 100 /\ text (buffer c) = []
  end.
Proof.
  unfold repl_key. destruct (repl_key_action k c) as [[a1 c1]|] eqn:E; [|done]. cbn [mbind option_bind].
  intros H%repaint_some. cbn [fst] in H. subst a1. destruct k; cbn [repl_key_action] in E;
    repeat match type of E with
    | (if _ then _ else _) = _ => case_decide || case_match
    | (_ ≫= _) = Some _ => let x := fresh "x" in apply bind_Some in E as (x & ? & E)
    end; simplify_eq; try done.
  destruct_and!. by subst.
Qed.

(** C20. A line is submitted only by an Enter that did not come in a burst, with
    no menu row focused and no paste staged, and is then the line at the prompt;
    or, while a paste is staged, by the key 2, as one command, or by the key 1 as
    several lines, and these are then the staged lines.  The review of a staged
    paste is drawn at the prompt only: with the alternate screen up those two
    keys act on it unseen ([unseen_paste_runs]).  No paste, notice or resize
    submits. *)
Theorem submissions_deliberate i at_ c a c' :
  handle_at i at_ c = Some (a, c') ->
  match a with
  | NoAction => True
  | Submit l =>
      (i = IKey (KChar 50) /\ exists st, staging c = Some st /\ kept st <> [] /\ l = join [lf] (kept st)) \/
      (i = IKey KEnter /\ staging c = None /\ surface c = Repl /\ bursty at_ c = false /\
       exists c1, released at_ c = Some c1 /\ row_focused c1 = false /\ l = text (buffer c1))
  | SubmitMany ls => i = IKey (KChar 49) /\ exists st, staging c = Some st /\ ls = kept st
  | Quit => i = IInterrupt \/ i = IKey (KCtrl 100)
  end.
Proof.
  destruct i as [k|b|co ro|n|]; cbn [handle_at].
  - destruct (staging c) as [st|] eqn:Es.
    + unfold staging_key. cbn [staging set_last_key_at]. rewrite Es.
      destruct (staging_key_action _ _ _) as [a1 c1] eqn:E. intros H%repaint_some. cbn [fst] in H. subst a1.
      destruct k; cbn [staging_key_action] in E; repeat case_decide; simplify_eq; try done.
      * split; [done|]. by exists st.
      * unfold decide_choice. cbn [fst]. destruct (kept st) as [|l ls] eqn:Ek; [done|].
        left. split; [done|]. exists st. rewrite Ek. done.
    + destruct (surface c) eqn:Ef.
      * unfold repl_key_at. set (in_burst := bursty at_ c).
        match goal with |- (?m ≫= _) = _ -> _ => destruct m as [c1|] eqn:E1 end; [|done].
        cbn [mbind option_bind]. destruct in_burst eqn:Eb.
        -- destruct k; intros H; try (apply repl_key_submits in H; destruct a; naive_solver).
           apply repaint_some in H. cbn [fst] in H. by subst a.
        -- intros H%repl_key_submits. destruct a; try naive_solver.
           destruct H as (-> & Hr & ->). right. do 4 (split; [done|]). exists c1. split; [|done].
           unfold released. subst in_burst. cbn [negb andb pending_paste set_last_key_at] in E1.
           case_decide as Hp; [rewrite bool_decide_true in E1|rewrite bool_decide_false in E1]; done.
      * destruct (tui_key k c); [|done]. by intros [= <- <-].
  - destruct (surface c); [|by intros [= <- <-]].
    intros (c1 & _ & H)%bind_Some. apply repaint_some in H. cbn [fst] in H. by subst a.
  - intros H%repaint_some. cbn [fst] in H. by subst a.
  - destruct (deliver n c); [|done]. by intros [= <- <-].
  - intros [= <- <-]. by left.
Qed.

(** ** The alternate screen *)

Lemma set_text_text x b : text (set_text x b) = x.
Proof. unfold set_text, commit, record. cbn [begin open mutated]. by case_decide. Qed.
Lemma set_text_cursor x b : cursor (set_text x b) = byte_len x.
Proof. unfold set_text, commit, record. cbn [begin open mutated]. by case_decide. Qed.

Lemma restored_buffer x i b : is_boundary x i = true ->
  let b' := (set_cursor (i `min` byte_len x) (set_text x b)).2 in text b' = x /\ cursor b' = i.
Proof.
  intros Hi. pose proof (boundary_bound _ _ Hi). rewrite Nat.min_l by done.
  unfold set_cursor. rewrite set_text_text, decide_False, Hi by lia. cbn [snd with_cursor text cursor]. by rewrite set_text_text.
Qed.

Lemma leave_alternate_draft c c' : ok c -> surface c = Alternate -> leave_alternate c = Some c' ->
  text (buffer c') = box_text (tui c) /\ cursor (buffer c') = box_cursor (tui c) /\ surface c' = Repl /\
  origin c' = origin c.
Proof.
  intros Hok Es. unfold leave_alternate. rewrite Es.
  match goal with |- context [foldl _ ?x ?l] => set (c1 := x); set (ns := l) end.
  intros Hr. destruct (print_all_spec ns c1) as (_ & Hb & _ & Hs & _).
  assert (Ho : origin (foldl (fun c n => print_notice n c) c1 ns) = origin c1).
  { clearbody ns. clear. generalize c1. induction ns as [|n ns IH]; intros d; [done|]. cbn [foldl]. by rewrite IH. }
  set (c2 := foldl _ _ _) in *. unfold repaint in Hr. rewrite Hs in Hr. cbn [surface c1] in Hr.
  destruct (slice _ _ _) as [before|]; [|done]. injection Hr as <-.
  cbn [buffer surface origin set_cursor_row frame set_frames set_sink]. rewrite Hb, Hs, Ho.
  destruct (restored_buffer _ _ (buffer c) (ok_box _ Hok Es)) as [H1 H2]. done.
Qed.

(** Going to the alternate screen takes the draft and its cursor along;
    typing there executes nothing; and coming back, whatever happened meanwhile,
    leaves the command box as the draft at the prompt, unsubmitted, with the
    source label unchanged. *)
Theorem draft_carried os out co ro f c0 acts c :
  new_coordinator out co ro false = (Ok c0, f) -> run os c0 = Some (acts, c) ->
  (surface c = Repl ->
     let c' := enter_alternate c in
     surface c' = Alternate /\ box_text (tui c') = text (buffer c) /\ box_cursor (tui c') = cursor (buffer c) /\
     exists c'', leave_alternate c' = Some c'' /\ text (buffer c'') = text (buffer c) /\
       cursor (buffer c'') = cursor (buffer c) /\ origin c'' = origin c) /\
  (surface c = Alternate ->
     (exists c', leave_alternate c = Some c' /\ surface c' = Repl /\ text (buffer c') = box_text (tui c) /\
        cursor (buffer c') = box_cursor (tui c) /\ origin c' = origin c) /\
     (staging c = None -> forall k at_, exists c', handle_at (IKey k) at_ c = Some (NoAction, c'))).
Proof.
  intros (Hok0 & _)%new_ok Hr. destruct (run_account _ _ _ _ Hok0 Hr) as [Hok _]. split; intros Es.
  - assert (Hen : enter_alternate c = paint_alternate (set_surface Alternate
      (frame (fun s => raw HIDE_CURSOR (raw ENTER_ALTERNATE (erase_block s)))
        (set_tui (mkTui (text (buffer c)) (cursor (buffer c)) false)
          (set_stash (Some (text (buffer c), cursor (buffer c))) c))))).
    { unfold enter_alternate. by rewrite Es. }
    pose proof (enter_alternate_step c False Hok) as [Hok' _]. cbn [id] in Hok'. unfold id in Hok'.
    cbv zeta. rewrite Hen in *. split; [done|]. split; [done|]. split; [done|].
    match goal with |- exists c'', leave_alternate ?x = _ /\ _ => set (c1 := x) in * end.
    pose proof (leave_alternate_step False c1 Hok') as Hl.
    destruct (leave_alternate c1) as [c''|] eqn:E; [|done]. exists c''. split; [done|].
    by destruct (leave_alternate_draft _ _ Hok' eq_refl E) as (-> & -> & _ & ->).
  - split.
    + pose proof (leave_alternate_step False c Hok) as Hl.
      destruct (leave_alternate c) as [c'|] eqn:E; [|done]. exists c'. split; [done|].
      by destruct (leave_alternate_draft _ _ Hok Es E) as (-> & -> & -> & ->).
    + intros Hst k at_. cbn [handle_at]. rewrite Hst, Es.
      pose proof (tui_key_step k c Es Hok) as Hk. destruct (tui_key k c) as [c'|]; [|done]. by exists c'.
Qed.

(** ** A paste that arrives as keys *)

(** A character of the block and its time; a line break arrives as Enter. *)
Definition press (ch : Z) : Key := if decide (ch = lf) then KEnter else KChar ch.

Fixpoint in_burst (p : Z) (keys : list (Z * Z)) : Prop :=
  match keys with
  | [] => True
  | (_, t) :: r => since_last t p < BURST_GAP /\ in_burst t r
  end.

Fixpoint last_time (t : Z) (keys : list (Z * Z)) : Z :=
  match keys with
  | [] => t
  | (_, t') :: r => last_time t' r
  end.

Definition presses (keys : list (Z * Z)) : list op := (fun k => Handle (IKey (press k.1)) k.2) <$> keys.

(** The prompt while a burst is coming in: what was there and what has come,
    [s], is what is held followed by what the prompt shows. *)
Record holding (s : str) (t : Z) c : Prop := mkHolding {
  hold_ok : ok c;
  hold_staging : staging c = None;
  hold_surface : surface c = Repl;
  hold_last : last_key_at c = Some t;
  hold_cursor : cursor (buffer c) = byte_len (text (buffer c));
  hold_text : exists held, pending_paste c = encode_str held /\ s = held ++ text (buffer c);
  hold_none : lf ∉ s -> pending_paste c = [];
  hold_some : lf ∈ s -> pending_paste c <> [] /\
                (burst_touched_buffer c = false -> text (buffer c) = []);
}.

Lemma insert_at_end x b : settled b -> cursor b = byte_len (text b) ->
  exists b', insert x b = Some b' /\ settled b' /\ text b' = text b ++ x /\ cursor b' = byte_len (text b').
Proof.
  intros Hb Hc. destruct (settled_insert x b Hb) as (b' & E & Hb'). exists b'. split; [done|]. split; [done|].
  unfold insert in E. rewrite (cut_replace (text b) _ _ (text b) [] []) in E.
  - injection E as <-. unfold mutated. cbn [text cursor]. rewrite app_nil_r, byte_len_app, Hc. done.
  - split_and!; [by rewrite !app_nil_r|done|by rewrite app_nil_r].
Qed.

Lemma encode_snoc s ch : encode_str (s ++ [ch]) = encode_str s ++ encode_char ch.
Proof. rewrite encode_str_app. unfold encode_str at 2. cbn [mbind list_bind]. by rewrite app_nil_r. Qed.

Lemma repaint_same c : ok c -> exists c', repaint c = Some c' /\ ok c' /\ same c c'.
Proof. intros Hok. destruct (repaint_spec c Hok) as (c' & ? & ? & _). eauto using same_ok. Qed.

(** A character in a burst is typed at the prompt, and touches it. *)
Lemma char_held s t t' c ch (touched : bool) :
  holding s t c -> ch <> lf ->
  (touched = true \/ (lf ∉ s)) ->
  exists c', repl_key (KChar ch) (set_burst_touched_buffer touched (set_last_key_at (Some t') c))
             = Some (NoAction, c') /\ holding (s ++ [ch]) t' c'.
Proof.
  intros [Hok Hst Hsf _ Hcur Htx Hno Hso] Hch Ht. unfold repl_key. cbn [repl_key_action buffer set_burst_touched_buffer set_last_key_at].
  destruct (insert_at_end [ch] (buffer c)) as (b & -> & Hb & Hbt & Hbc); [by apply ok_buffer|done|].
  cbn [mbind option_bind].
  match goal with |- context [repaint ?x] => destruct (repaint_same x) as (c' & -> & Hok' & Hs) end; [by auto 12|].
  exists c'. split; [done|]. destruct Hs as [Eb _ Es Ef _ _ El Ep Et _]. cbn in Eb, Es, Ef, El, Ep, Et.
  split; rewrite ?Eb, ?Es, ?Ef, ?El, ?Ep, ?Et, ?Hbt; try done.
  - by rewrite Hbc, Hbt.
  - destruct Htx as (held & Hp & ->). exists held. by rewrite Hp, app_assoc.
  - rewrite not_elem_of_app. tauto.
  - rewrite elem_of_app, list_elem_of_singleton. intros [H|H]; [|by subst].
    split; [by apply Hso|]. destruct Ht as [->|Ht]; [done|]. by destruct Ht.
Qed.

Lemma key_held s t t' c ch : holding s t c -> since_last t' t < BURST_GAP ->
  exists c', handle_at (IKey (press ch)) t' c = Some (NoAction, c') /\ holding (s ++ [ch]) t' c'.
Proof.
  intros Hh Ht. pose proof Hh as [Hok Hst Hsf Hl Hcur Htx Hno Hso]. cbn [handle_at]. rewrite Hst, Hsf.
  unfold repl_key_at. replace (bursty t' c) with true by (unfold bursty; by rewrite Hl, bool_decide_true).
  cbn [negb andb mbind option_bind]. unfold press. case_decide as Hch.
  - match goal with |- context [repaint ?x] => destruct (repaint_same x) as (c' & -> & Hok' & Hs) end; [by auto 12|].
    cbn [mbind option_bind]. exists c'. split; [done|]. subst ch.
    destruct Hs as [Eb _ Es Ef _ _ El Ep Et _]. cbn [buffer staging surface last_key_at pending_paste
      burst_touched_buffer set_menu set_burst_touched_buffer set_buffer set_pending_paste set_last_key_at] in *.
    split; rewrite ?Eb, ?Es, ?Ef, ?El, ?Ep, ?Et, ?set_text_text, ?set_text_cursor; try done.
    + destruct Htx as (held & Hp & ->). exists ((held ++ text (buffer c)) ++ [lf]).
      by rewrite encode_snoc, encode_str_app, Hp, app_nil_r, <- app_assoc.
    + rewrite not_elem_of_app, not_elem_of_cons. tauto.
    + intros _. split; [|done]. by destruct (pending_paste c), (encode_str _).
  - by eapply char_held; [|done|left].
Qed.

Lemma keys_held keys : forall s t c, holding s t c -> in_burst t keys ->
  exists acts c' t', run (presses keys) c = Some (acts, c') /\ Forall (fun a => a = NoAction) acts /\
    t' = last_time t keys /\ holding (s ++ (fst <$> keys)) t' c'.
Proof.
  induction keys as [|[ch t'] keys IH]; intros s t c Hh Hb; cbn [presses run fmap list_fmap].
  - exists [], c, t. rewrite app_nil_r. split_and!; [done|constructor|done|done].
  - destruct Hb as [Ht Hb]. destruct (key_held s t t' c ch Hh Ht) as (c1 & E & H1).
    cbn [do_op fst snd]. rewrite E. cbn [mbind option_bind].
    destruct (IH _ _ _ H1 Hb) as (acts & c' & t2 & Er & Ha & El & H2). unfold presses in Er. rewrite Er.
    cbn [mbind option_bind]. exists (NoAction :: acts), c', t2. split; [done|]. split; [by constructor|].
    split; [done|]. rewrite <- app_assoc in H2. exact H2.
Qed.

(** The last line break of a block is the Enter that was held back. *)
Definition unsubmitted (s : str) : str := if decide (last s = Some lf) then removelast s else s.

Lemma removelast_snoc {A} (l : list A) x : removelast (l ++ [x]) = l.
Proof. rewrite removelast_app by done. simpl. by rewrite app_nil_r. Qed.

Lemma encode_char_last ch : scalar ch -> exists b r, encode_char ch = r ++ [b] /\ (b = x0a <-> ch = lf).
Proof.
  intros Hs. assert (0 <= ch < 1114112) by (unfold scalar in Hs; lia).
  assert (Hb : forall z, 0 <= z < 256 -> zb z = x0a <-> z = lf).
  { intros z Hz. split; [|by intros ->]. intros E. rewrite <- (bz_zb z) by done. by rewrite E. }
  unfold encode_char. case_decide; [|case_decide; [|case_decide]].
  - exists (zb ch), []. split; [done|]. apply Hb. lia.
  - eexists _, [_]. split; [done|]. rewrite Hb by (Z.to_euclidean_division_equations; lia).
    Z.to_euclidean_division_equations. lia.
  - eexists _, [_; _]. split; [done|]. rewrite Hb by (Z.to_euclidean_division_equations; lia).
    Z.to_euclidean_division_equations. lia.
  - eexists _, [_; _; _]. split; [done|]. rewrite Hb by (Z.to_euclidean_division_equations; lia).
    Z.to_euclidean_division_equations. lia.
Qed.

Lemma unsubmitted_encode s : Forall scalar s ->
  (if decide (last (encode_str s) = Some x0a) then removelast (encode_str s) else encode_str s)
  = encode_str (unsubmitted s).
Proof.
  intros Hs. unfold unsubmitted. destruct s as [|ch s _] using rev_ind; [done|].
  apply Forall_app in Hs as [_ Hch]. inversion Hch as [|? ? Hc _]; subst.
  destruct (encode_char_last ch Hc) as (b & r & E & Hb).
  rewrite !encode_snoc, E, app_assoc, !last_snoc. destruct (decide (ch = lf)) as [->|Hn].
  - rewrite !decide_True by (try done; f_equal; by apply Hb). rewrite !removelast_snoc.
    change (encode_char lf) with ([] ++ [x0a]) in E. apply app_inj_tail in E as [<- _]. by rewrite app_nil_r.
  - rewrite !decide_False by (intros [= H]; tauto). by rewrite encode_snoc, E, app_assoc.
Qed.

Lemma quiet_releases s t c at_ : holding s t c -> Forall scalar s -> BURST_GAP <= since_last at_ t ->
  exists c', tick at_ c = Some c' /\
    if decide (lf ∈ s) then
      let content := unsubmitted s in
      if needs_staging (encode_str content)
      then staging c' = Some (new_staging (encode_str content)) /\ text (buffer c') = []
      else staging c' = None /\ text (buffer c') = content
    else c' = c /\ text (buffer c') = s.
Proof.
  intros [Hok Hst Hsf Hl Hcur Htx Hno Hso] Hs Hq. unfold tick. rewrite Hl, bool_decide_true by done.
  case_decide as Hlf.
  - destruct (Hso Hlf) as [Hp Ht]. rewrite bool_decide_false by done. cbn [negb andb].
    unfold flush_burst.
    assert (Hc : (if burst_touched_buffer c then pending_paste c ++ encode_str (text (buffer c)) else pending_paste c)
                 = encode_str s).
    { destruct Htx as (held & Hh & ->). rewrite encode_str_app, Hh.
      destruct (burst_touched_buffer c); [done|]. rewrite Ht by done. by rewrite app_nil_r. }
    assert (Hne : encode_str s <> []).
    { destruct Htx as (held & Hh & ->). rewrite encode_str_app, <- Hh. by destruct (pending_paste c). }
    rewrite Hc, decide_False, unsubmitted_encode by done.
    set (c1 := set_burst_touched_buffer false _).
    assert (H1 : ok c1 /\ text (buffer c1) = [] /\ cursor (buffer c1) = 0%nat /\ staging c1 = None).
    { unfold c1. destruct (burst_touched_buffer c).
      - cbn [buffer staging set_burst_touched_buffer set_buffer set_pending_paste].
        rewrite set_text_text, set_text_cursor. split_and!; auto 12.
      - cbn [buffer staging set_burst_touched_buffer set_pending_paste]. rewrite Hcur, Ht by done.
        split_and!; auto 12. }
    clearbody c1. destruct H1 as (H1 & H2 & H3 & H4). cbv zeta. destruct (needs_staging _).
    + match goal with |- context [repaint ?x] => destruct (repaint_same x) as (c' & -> & Hok' & Hsm) end; [by auto 12|].
      exists c'. split; [done|]. destruct Hsm as [Eb _ Es _ _ _ _ _ _ _]. rewrite Eb, Es. done.
    + destruct (insert_at_end (from_utf8_lossy (encode_str (unsubmitted s))) (buffer c1)) as (b & -> & Hb & Hbt & _);
        [by apply ok_buffer|by rewrite H3, H2|].
      cbn [mbind option_bind].
      match goal with |- context [repaint ?x] => destruct (repaint_same x) as (c' & -> & Hok' & Hsm) end; [by auto 12|].
      exists c'. split; [done|]. destruct Hsm as [Eb _ Es _ _ _ _ _ _ _]. rewrite Eb, Es. cbn [buffer staging set_buffer].
      rewrite Hbt, H2. split; [done|]. apply from_utf8_lossy_encode. unfold unsubmitted. case_decide; [|done].
      destruct s as [|ch s _] using rev_ind; [done|]. rewrite removelast_snoc. by apply Forall_app in Hs as [? _].
  - rewrite bool_decide_true by auto. exists c. split; [done|]. split; [done|].
    destruct Htx as (held & Hh & ->). rewrite Hno in Hh by done.
    destruct held as [|h held]; [done|]. exfalso. unfold encode_str in Hh. cbn [mbind list_bind] in Hh.
    pose proof (encode_char_nonempty h). destruct (encode_char h); [simpl in *; lia|done].
Qed.

(** A block that arrives as key presses, Enter included, each within the
    burst gap of the one before, submits nothing.  Once input is quiet, a block
    with a line break is under review, line by line, together with what stood at
    the prompt — or, if it is one short line, stands at the prompt unsubmitted; a
    block without one stands there too. *)
Theorem burst_never_runs c ch t (keys : list (Z * Z)) at_ :
  ok c -> staging c = None -> surface c = Repl -> pending_paste c = [] -> burst_touched_buffer c = false ->
  cursor (buffer c) = byte_len (text (buffer c)) -> (lf ∉ text (buffer c)) -> Forall scalar (text (buffer c)) ->
  ch <> lf -> Forall scalar (ch :: (fst <$> keys)) -> in_burst t keys ->
  BURST_GAP <= since_last at_ (last_time t keys) ->
  let s := text (buffer c) ++ ch :: (fst <$> keys) in
  exists acts c1 c2, run (presses ((ch, t) :: keys)) c = Some (acts, c1) /\
    Forall (fun a => a = NoAction) acts /\ tick at_ c1 = Some c2 /\
    if decide (lf ∈ s) then
      let content := unsubmitted s in
      if needs_staging (encode_str content)
      then staging c2 = Some (new_staging (encode_str content)) /\ text (buffer c2) = []
      else staging c2 = None /\ text (buffer c2) = content
    else c2 = c1 /\ text (buffer c2) = s.
Proof.
  intros Hok Hst Hsf Hp Ht Hcur Hlf Hsc Hch Hks Hb Hq s.
  assert (exists c', handle_at (IKey (KChar ch)) t c = Some (NoAction, c') /\ holding (text (buffer c) ++ [ch]) t c') as (c' & E & Hh).
  { cbn [handle_at]. rewrite Hst, Hsf. unfold repl_key_at. rewrite bool_decide_true by done.
    rewrite andb_false_r. cbn [mbind option_bind].
    assert (Hh0 : holding (text (buffer c)) t (set_last_key_at (Some t) c)).
    { split; [by apply ok_set_last|done..|by exists []; split; [exact Hp|]|done|by intros ?]. }
    assert (Hsame : set_burst_touched_buffer false (set_last_key_at (Some t) (set_last_key_at (Some t) c))
                    = set_last_key_at (Some t) c).
    { unfold set_burst_touched_buffer, set_last_key_at. cbn. by rewrite <- Ht. }
    destruct (bursty t c).
    - change (set_burst_touched_buffer true (set_last_key_at (Some t) c))
        with (set_burst_touched_buffer true (set_last_key_at (Some t) (set_last_key_at (Some t) c))).
      eapply char_held; [done|done|by left].
    - pose proof (char_held _ _ t _ ch false Hh0 Hch ltac:(by right)) as Hx. by rewrite Hsame in Hx. }
  destruct (keys_held keys _ _ _ Hh Hb) as (acts & c1 & t' & Er & Ha & -> & H1).
  rewrite <- app_assoc in H1. change ([ch] ++ (fst <$> keys)) with (ch :: (fst <$> keys)) in H1. fold s in H1.
  destruct (quiet_releases _ _ _ at_ H1) as (c2 & E2 & H2); [by apply Forall_app|done|].
  exists (NoAction :: acts), c1, c2. split; [|split; [by constructor|by split]].
  cbn [presses run fmap list_fmap do_op fst snd]. assert (press ch = KChar ch) as -> by (unfold press; by rewrite decide_False). rewrite E.
  cbn [mbind option_bind]. unfold presses in Er. by rewrite Er.
Qed.

End Facts.

(** ** Witnesses *)

Definition first_coordinator : Coordinator (list bytes) :=
  mkCoordinator [] 80 24 narrow (chars "penguin> ") empty_buffer None None Repl default_tui
    None [] 0 [] 0 0 None [] false.

Lemma first_coordinator_new : new_coordinator [] 80 24 false = (Ok first_coordinator, true).
Proof. reflexivity. Qed.

Definition after (os : list op) : Coordinator (list bytes) :=
  match run os first_coordinator with
  | Some (_, c) => c
  | None => first_coordinator
  end.

Definition hello : Notice := mkNotice (chars "hello") Push.
Definition lost : Notice := mkNotice (chars "lost") Connection.
Definition notices_history : list op :=
  [Start; Handle (IMessage hello) 0; EnterAlternate; Handle (IMessage lost) 5].

Lemma notices_all_shown_witness :
  pending (after notices_history) = [lost]
  /\ exists c', leave_alternate (after notices_history) = Some c' /\
       exists more, written (sink c') = written [] ++ more /\ [note hello; note lost] `sublist_of` more.
Proof.
  assert (Hr : run notices_history first_coordinator
               = Some ([NoAction; NoAction; NoAction; NoAction], after notices_history))
    by (vm_compute; reflexivity).
  split; [reflexivity|].
  destruct (notices_all_shown _ _ _ _ _ _ _ _ first_coordinator_new Hr) as (_ & _ & c' & Hl & _ & _ & Hs).
  exists c'. split; [exact Hl|exact Hs].
Defined.

Lemma reachable_steps_witness :
  do_op (Handle (IKey KLeft) 100000000) (after [Handle (IPaste (encode_str [zwj; 97])) 0]) = None
  /\ exists b, reachable b /\ prev_grapheme (text b) (cursor b) = None.
Proof.
  assert (H : do_op (Handle (IKey KLeft) 100000000) (after [Handle (IPaste (encode_str [zwj; 97])) 0]) = None)
    by (vm_compute; reflexivity).
  assert (Hr : run [Handle (IPaste (encode_str [zwj; 97])) 0] first_coordinator
               = Some ([NoAction], after [Handle (IPaste (encode_str [zwj; 97])) 0]))
    by (vm_compute; reflexivity).
  split; [exact H|].
  destruct (reachable_steps _ _ _ _ _ _ _ _ _ first_coordinator_new Hr H) as (_ & _ & _ & _ & Hb).
  exact Hb.
Defined.

Definition reviewing : Coordinator (list bytes) := after [Handle (IPaste (bs "SET a 1
FLUSHALL")) 0].

Lemma submissions_deliberate_witness :
  exists c', handle_at (IKey (KChar 49)) 7 reviewing = Some (SubmitMany [chars "SET a 1"; chars "FLUSHALL"], c')
  /\ exists st, staging reviewing = Some st /\ [chars "SET a 1"; chars "FLUSHALL"] = kept st.
Proof.
  assert (exists c', handle_at (IKey (KChar 49)) 7 reviewing
                     = Some (SubmitMany [chars "SET a 1"; chars "FLUSHALL"], c')) as [c' H]
    by (eexists; vm_compute; reflexivity).
  exists c'. split; [exact H|]. exact (proj2 (submissions_deliberate _ _ _ _ _ H)).
Defined.

Definition drafting : list op := [SetOrigin (chars "r2"); Handle (IPaste (bs "get k")) 0; Handle (IKey KLeft) 50000000].

Lemma draft_carried_witness :
  exists c'', leave_alternate (enter_alternate (after drafting)) = Some c''
    /\ text (buffer c'') = chars "get k" /\ cursor (buffer c'') = 4%nat /\ origin c'' = chars "r2".
Proof.
  assert (Hr : run drafting first_coordinator = Some ([NoAction; NoAction; NoAction], after drafting))
    by (vm_compute; reflexivity).
  destruct (draft_carried _ _ _ _ _ _ _ _ first_coordinator_new Hr) as [H _].
  assert (Hs : surface (after drafting) = Repl) by (vm_compute; reflexivity).
  destruct (H Hs) as (_ & _ & _ & c'' & Hl & Ht & Hc & Ho).
  exists c''. split; [exact Hl|]. rewrite Ht, Hc, Ho. split; [|split]; vm_compute; reflexivity.
Defined.

Lemma burst_never_runs_witness :
  exists c1 c2,
    run (presses [(97, 0); (10, 1000); (98, 2000); (10, 3000)]) first_coordinator
      = Some ([NoAction; NoAction; NoAction; NoAction], c1)
    /\ tick 20000000 c1 = Some c2 /\ staging c2 = Some (new_staging (bs "a
b")) /\ text (buffer c2) = [].
Proof.
  destruct (burst_never_runs first_coordinator 97 0 [(10, 1000); (98, 2000); (10, 3000)] 20000000)
    as (acts & c1 & c2 & Hr & Ha & Ht & Hs).
  - split; [apply settled_empty|discriminate|reflexivity|discriminate].
  - reflexivity.
  - reflexivity.
  - reflexivity.
  - reflexivity.
  - reflexivity.
  - apply not_elem_of_nil.
  - constructor.
  - discriminate.
  - cbn [fmap list_fmap fst]. repeat (apply List.Forall_cons; [unfold scalar; lia|]). apply List.Forall_nil.
  - repeat split; vm_compute; reflexivity.
  - vm_compute. discriminate.
  - assert (E : option_map fst (run (presses [(97, 0); (10, 1000); (98, 2000); (10, 3000)]) first_coordinator)
                = Some [NoAction; NoAction; NoAction; NoAction]) by (vm_compute; reflexivity).
    rewrite Hr in E. injection E as ->. exists c1, c2. split; [exact Hr|]. split; [exact Ht|].
    vm_compute in Hs |- *. exact Hs.
Defined.

(** ** What the module's comments promise and the code does not do *)

(** Keys go to the review whenever a paste is staged, whatever has the screen:
    with the alternate screen up, where the review is not drawn, typing 1 into
    the command box runs every line of the paste. *)
Lemma unseen_paste_runs :
  let c := after [Handle (IPaste (bs "SET a 1
FLUSHALL")) 0; EnterAlternate] in
  surface c = Alternate /\
  exists c', handle_at (IKey (KChar 49)) 9 c = Some (SubmitMany [chars "SET a 1"; chars "FLUSHALL"], c').
Proof. split; [reflexivity|]. eexists. vm_compute. reflexivity. Qed.

(** Accepting a menu row after a white space of several bytes: the word is taken
    to start one byte after the white space does, which is inside it, and the
    buffer refuses the edit; the menu closes and nothing is inserted. *)
Lemma completion_lost_after_wide_space :
  let c := after [Handle (IPaste (encode_str [103; 12288; 107])) 0; OpenMenu [chars "key"]; Handle (IKey KDown) 50000000] in
  row_focused c = true /\
  exists c', handle_at (IKey KTab) 100000000 c = Some (NoAction, c') /\
    text (buffer c') = [103; 12288; 107] /\ menu c' = None.
Proof. split; [reflexivity|]. eexists. split; [vm_compute; reflexivity|]. split; reflexivity. Qed.

(** A block without a line break is never reviewed when it arrives as keys,
    however long; the same block as one paste is. *)
Lemma long_block_not_reviewed :
  let keys := (fun n => (97, Z.of_nat n)) <$> seq 0 200 in
  needs_staging (encode_str (fst <$> keys)) = true /\
  exists acts c1 c2, run (presses keys) first_coordinator = Some (acts, c1) /\
    tick 1000000000 c1 = Some c2 /\ staging c2 = None /\ text (buffer c2) = fst <$> keys.
Proof.
  split; [vm_compute; reflexivity|]. eexists _, _, _. split; [vm_compute; reflexivity|].
  split; [vm_compute; reflexivity|]. split; vm_compute; reflexivity.
Qed.
