(* ===== verification/Secrets.v ===== *)
(** * The register of secrets, and the way out
    ([crates/pr-security/src/secrets.rs], [sink.rs], [diagnostics.rs])

    The process-wide register is a state passed along; a poisoned lock is not
    modelled.  The panic hook is wiring. *)

From Stdlib Require Import Sorting.Sorted.
From S2P Require Import Prelude Text TextFacts Lines.

Definition REDACTED : bytes := bs "[redacted]".
Definition MIN_SECRET_LEN : Z := 4.

(** ** Searching *)

Definition starts_with (needle h : bytes) : bool :=
  match strip_prefix needle h with
  | Some _ => true
  | None => false
  end.

(** [windows(n).position(|w| w == needle)]. *)
Fixpoint position_of (needle h : bytes) : option nat :=
  if starts_with needle h then Some O
  else match h with
       | [] => None
       | _ :: r => S <$> position_of needle r
       end.

Definition find (h needle : bytes) : option nat :=
  if decide (needle = [] \/ zlen h < zlen needle) then None else position_of needle h.

(** The loop of [replace_all]; a round consumes at least a byte. *)
Fixpoint replace_loop (fuel : nat) (rest needle with_ : bytes) : bytes :=
  match fuel with
  | O => rest
  | S f =>
      match find rest needle with
      | None => rest
      | Some i => take i rest ++ with_ ++ replace_loop f (drop (i + length needle) rest) needle with_
      end
  end.
Definition replace_all (h needle with_ : bytes) : bytes := replace_loop (S (length h)) h needle with_.

(** ** The set *)

Record SecretSet := mkSecrets { values : list bytes }.
Definition new_secrets : SecretSet := mkSecrets [].

(** [sort_by_key(Reverse(len))], which keeps the order of equals. *)
Fixpoint insert_longest (v : bytes) (l : list bytes) : list bytes :=
  match l with
  | [] => [v]
  | w :: r => if decide (zlen w <= zlen v) then v :: l else w :: insert_longest v r
  end.
Definition sort_longest (l : list bytes) : list bytes := foldr insert_longest [] l.

Definition remember (secret : bytes) (s : SecretSet) : bool * SecretSet :=
  if decide (zlen secret < MIN_SECRET_LEN) then (false, s)
  else if decide (secret ∈ values s) then (true, s)
  else (true, mkSecrets (sort_longest (values s ++ [secret]))).

Definition secrets_len (s : SecretSet) : Z := zlen (values s).
Definition scrub (s : SecretSet) (h : bytes) : bytes :=
  foldl (fun out v => replace_all out v REDACTED) h (values s).

Definition appears_in (s : SecretSet) (h : bytes) : option bytes :=
  List.find (fun v => match find h v with Some _ => true | None => false end) (values s).

Definition scrub_str (s : SecretSet) (t : str) : str := from_utf8_lossy (scrub s (encode_str t)).
Definition appears (s : SecretSet) (h : bytes) : bool :=
  match appears_in s h with
  | Some _ => true
  | None => false
  end.

(** ** Destinations *)

Inductive Destination :=
| DUri | DTlsError | DDebug | DTrace | DHistory | DClipboard | DCrashReport | DTraceWire
| DDiagnosticsBundle | DTelemetry.

Record Emitted := mkEmitted { emitted_to : Destination; emitted_text : str }.
Record EmittedBytes := mkEmittedBytes { emitted_bytes_to : Destination; emitted_bytes : bytes }.

Definition emit (s : SecretSet) (d : Destination) (t : str) : Emitted := mkEmitted d (scrub_str s t).
Definition emit_bytes (s : SecretSet) (d : Destination) (b : bytes) : EmittedBytes :=
  mkEmittedBytes d (scrub s b).

(** ** The support bundle *)

Record Bundle := mkBundle { bundle_lines : list str }.
Definition new_bundle : Bundle := mkBundle [].
Definition fact (s : SecretSet) (name value : str) (b : Bundle) : Bundle :=
  mkBundle (bundle_lines b ++ [name ++ chars ": " ++ emitted_text (emit s DDiagnosticsBundle value)]).
Definition record_payload (name : str) (n : Z) (b : Bundle) : Bundle :=
  mkBundle (bundle_lines b ++ [name ++ chars ": " ++ (bz <$> print_unsigned n) ++ chars " bytes (contents not recorded)"]).
Definition finish_bundle (s : SecretSet) (b : Bundle) : Emitted :=
  emit s DDiagnosticsBundle (join [10] (bundle_lines b)).

(** ** Occurrences *)

Definition occurs (w h : bytes) : Prop := exists a b, h = a ++ w ++ b.

Lemma starts_with_spec w h : starts_with w h = true <-> exists b, h = w ++ b.
Proof.
  unfold starts_with. destruct (strip_prefix w h) as [r|] eqn:E.
  - apply strip_prefix_spec in E. naive_solver.
  - split; [done|]. intros [b Hb]. apply strip_prefix_spec in Hb. congruence.
Qed.

Lemma position_of_some w h i : position_of w h = Some i ->
  h = take i h ++ w ++ drop (i + length w) h /\
  (forall a b, h = a ++ w ++ b -> (i <= length a)%nat).
Proof.
  revert i. induction h as [|x h IH]; intros i; cbn [position_of]; destruct (starts_with w _) eqn:E.
  - intros [= <-]. apply starts_with_spec in E as [b Hb]. split; [|lia].
    rewrite take_0, Nat.add_0_l. cbn [app]. rewrite Hb at 1. by rewrite Hb, drop_app_length.
  - done.
  - intros [= <-]. apply starts_with_spec in E as [b Hb]. split; [|lia].
    rewrite take_0, Nat.add_0_l. cbn [app]. by rewrite Hb, drop_app_length.
  - intros (j & Hj & ->)%fmap_Some. destruct (IH _ Hj) as [H1 H2]. split.
    + cbn [take drop Nat.add app]. by rewrite <- H1.
    + intros [|y a] b Hb; [|injection Hb as -> Hb; apply H2 in Hb; simpl; lia].
      exfalso. assert (starts_with w (x :: h) = true) by (apply starts_with_spec; by exists b). congruence.
Qed.

Lemma position_of_none w h : position_of w h = None -> ~ occurs w h.
Proof.
  induction h as [|x h IH]; cbn [position_of]; destruct (starts_with w _) eqn:E; try done.
  - intros _ (a & b & Hb). destruct a; [|done]. assert (starts_with w [] = true); [|congruence].
    apply starts_with_spec. by exists b.
  - intros Hn%fmap_None (a & b & Hb). destruct a as [|y a].
    + assert (starts_with w (x :: h) = true); [|congruence]. apply starts_with_spec. by exists b.
    + injection Hb as -> Hb. apply (IH Hn). by exists a, b.
Qed.

Lemma find_none h w : w <> [] -> find h w = None -> ~ occurs w h.
Proof.
  intros Hw. unfold find. case_decide as H; [|apply position_of_none].
  intros _ (a & b & ->). destruct H as [H|H]; [done|]. revert H. autorewrite with zlen.
  pose proof (zlen_nonneg a). pose proof (zlen_nonneg b). lia.
Qed.

Lemma find_some h w i : find h w = Some i ->
  w <> [] /\ h = take i h ++ w ++ drop (i + length w) h /\ ~ occurs w (take i h).
Proof.
  unfold find. case_decide as H; [done|]. intros E%position_of_some. destruct E as [E1 E2].
  assert (Hw : w <> []) by tauto. split; [done|]. split; [done|]. intros (a & b & Hab).
  assert (Hi : (i <= length a)%nat).
  { apply (E2 a (b ++ w ++ drop (i + length w) h)). rewrite E1 at 1. by rewrite Hab, <- !app_assoc. }
  pose proof (length_take h i) as Ht. rewrite Hab, !length_app in Ht. destruct w; [done|]. simpl in Ht. lia.
Qed.

(** ** What a replacement leaves

    A secret the replacement text cannot take part in: it has no bracket, and
    is not part of the word between them. *)
Definition plain (w : bytes) : Prop :=
  w <> [] /\ ("["%byte ∉ w) /\ ("]"%byte ∉ w) /\ ~ occurs w (bs "redacted").

Lemma occurs_app_l w a b : occurs w a -> occurs w (a ++ b).
Proof. intros (u & v & ->). exists u, (v ++ b). by rewrite <- !app_assoc. Qed.
Lemma occurs_app_r w a b : occurs w b -> occurs w (a ++ b).
Proof. intros (u & v & ->). exists (a ++ u), v. by rewrite <- !app_assoc. Qed.

(** An occurrence does not cross a byte it does not contain. *)
Lemma occurs_apart (x : byte) w a b : (x ∉ w) -> occurs w (a ++ x :: b) -> occurs w a \/ occurs w b.
Proof.
  intros Hx (u & v & E). revert a E. induction u as [|y u IH]; intros a E.
  - cbn [app] in E. destruct (prefix_weak_total w a (a ++ x :: b)) as [[k ->]|[k ->]].
    + by exists v.
    + by exists (x :: b).
    + left. exists [], k. done.
    + destruct k as [|z k]; [left; exists [], []; by rewrite !app_nil_r|]. exfalso.
      rewrite <- app_assoc in E. apply app_inv_head in E. injection E as <- E. apply Hx.
      apply elem_of_app. right. by left.
  - destruct a as [|z a]; cbn [app] in E; injection E as -> E.
    + right. exists u, v. done.
    + destruct (IH a E) as [H|H]; [left|by right]. destruct H as (p & q & ->). by exists (y :: p), q.
Qed.

Lemma occurs_around_redacted w p r : plain w -> occurs w (p ++ REDACTED ++ r) -> occurs w p \/ occurs w r.
Proof.
  intros (_ & Hl & Hr & Hn). change (REDACTED ++ r) with ("["%byte :: (bs "redacted" ++ "]"%byte :: r)).
  intros [H|H]%occurs_apart; [by left| |done]. apply occurs_apart in H as [H|H]; [done|by right|done].
Qed.

Lemma replace_loop_spec v w : v <> [] -> plain w -> forall f rest, (length rest < f)%nat ->
  (occurs w (replace_loop f rest v REDACTED) -> occurs w rest) /\
  (w = v -> ~ occurs w (replace_loop f rest v REDACTED)).
Proof.
  intros Hv Hw. induction f as [|f IH]; intros rest Hf; [lia|]. cbn [replace_loop].
  destruct (find rest v) as [i|] eqn:E.
  - apply find_some in E as (_ & E & Hi).
    set (tail := drop (i + length v) rest) in *.
    assert (Ht : (length tail < f)%nat).
    { unfold tail. rewrite length_drop. destruct v; [done|]. simpl.
      destruct rest as [|x rest]; [|simpl in Hf |- *; lia].
      exfalso. destruct (take i []); discriminate E. }
    destruct (IH tail Ht) as [H1 H2]. split.
    + intros [H|H]%occurs_around_redacted; [| |done]; rewrite E; [by apply occurs_app_l|].
      by apply occurs_app_r, occurs_app_r, H1.
    + intros -> [H|H]%occurs_around_redacted; [done|by apply H2|done].
  - split; [done|]. intros ->. by apply find_none.
Qed.

Lemma replace_all_spec h v w : v <> [] -> plain w ->
  (occurs w (replace_all h v REDACTED) -> occurs w h) /\ (w = v -> ~ occurs w (replace_all h v REDACTED)).
Proof. intros Hv Hw. apply replace_loop_spec; [done|done|lia]. Qed.

Lemma scrub_loop vs w : Forall (fun v => v <> []) vs -> plain w -> forall h,
  let out := foldl (fun out v => replace_all out v REDACTED) h vs in
  (occurs w out -> occurs w h) /\ (w ∈ vs -> ~ occurs w out).
Proof.
  intros Hvs Hw. induction Hvs as [|v vs Hv _ IH]; intros h; cbn [foldl].
  - split; [done|]. intros H. by apply not_elem_of_nil in H.
  - destruct (IH (replace_all h v REDACTED)) as [H1 H2].
    destruct (replace_all_spec h v w Hv Hw) as [H3 H4]. split; [auto|].
    intros [->|H]%elem_of_cons; [|by apply H2]. intros Ho. by apply (H4 eq_refl), H1.
Qed.

(** ** The set is in order *)

Definition registered (ss : list bytes) : SecretSet := foldl (fun s x => (remember x s).2) new_secrets ss.

Lemma insert_longest_perm v l : insert_longest v l ≡ₚ v :: l.
Proof.
  induction l as [|w l IH]; cbn [insert_longest]; [done|]. case_decide; [done|]. rewrite IH.
  apply perm_swap.
Qed.

Lemma sort_longest_perm l : sort_longest l ≡ₚ l.
Proof. induction l as [|v l IH]; cbn [sort_longest foldr]; [done|]. by rewrite insert_longest_perm, IH. Qed.

Lemma remember_elem x s w : w ∈ values (remember x s).2 <->
  w ∈ values s \/ (w = x /\ MIN_SECRET_LEN <= zlen x).
Proof.
  unfold remember. case_decide; [cbn; split; [by left|intros [H1|[_ H1]]; [done|lia]]|].
  case_decide as Hin; cbn [snd values].
  - split; [by left|]. intros [H1|[-> _]]; done.
  - rewrite sort_longest_perm, elem_of_app, list_elem_of_singleton. split; [|tauto].
    intros [H1| ->]; [by left|right; split; [done|lia]].
Qed.

Lemma registered_elem ss w : w ∈ values (registered ss) <-> w ∈ ss /\ MIN_SECRET_LEN <= zlen w.
Proof.
  unfold registered. induction ss as [|x ss IH] using rev_ind.
  - cbn. rewrite elem_of_nil. tauto.
  - rewrite foldl_app. cbn [foldl]. rewrite remember_elem, IH, elem_of_app, list_elem_of_singleton. naive_solver.
Qed.

Lemma registered_nonempty ss : Forall (fun v => v <> []) (values (registered ss)).
Proof.
  apply Forall_forall. intros v [_ Hv]%registered_elem. intros ->. unfold MIN_SECRET_LEN in Hv.
  rewrite zlen_nil in Hv. lia.
Qed.

Lemma appears_in_spec s h : appears_in s h = None <->
  Forall (fun v => match find h v with Some _ => False | None => True end) (values s).
Proof.
  unfold appears_in. induction (values s) as [|v vs IH]; cbn [List.find]; [by split|].
  rewrite Forall_cons. destruct (find h v); [naive_solver|]. rewrite IH. tauto.
Qed.

Lemma occurs_refl w h : find h w <> None -> occurs w h.
Proof.
  destruct (find h w) as [i|] eqn:E; [|done]. intros _. apply find_some in E as (_ & E & _). by eexists _, _.
Qed.

Lemma scrub_clean ss h : (forall w, w ∈ values (registered ss) -> ~ occurs w h) -> scrub (registered ss) h = h.
Proof.
  intros Hn. pose proof (registered_nonempty ss) as Hne. unfold scrub.
  induction (values (registered ss)) as [|v vs IH]; cbn [foldl]; [done|].
  inversion Hne as [|? ? Hv Hvs]; subst.
  assert (replace_all h v REDACTED = h) as ->; [|apply IH; [intros w Hw; apply Hn; by right|done]].
  unfold replace_all. cbn [replace_loop]. destruct (find h v) as [i|] eqn:E; [|done].
  exfalso. apply (Hn v); [by left|]. apply occurs_refl. by rewrite E.
Qed.

(** ** Whole secrets

    Longest first, so that a secret inside another does not break it up. *)

Lemma insert_longest_sorted v l :
  Sorted (fun x y => zlen y <= zlen x) l -> Sorted (fun x y => zlen y <= zlen x) (insert_longest v l).
Proof.
  induction 1 as [|w l Hl IH Hw]; cbn [insert_longest]; [by repeat constructor|].
  case_decide as H; [by repeat constructor|]. constructor; [done|].
  destruct l as [|u l]; cbn [insert_longest]; [constructor; lia|].
  inversion Hw; subst. case_decide; constructor; lia.
Qed.

Lemma sort_longest_sorted l : StronglySorted (fun x y => zlen y <= zlen x) (sort_longest l).
Proof.
  apply Sorted_StronglySorted; [intros x y z; lia|].
  induction l as [|v l IH]; cbn [sort_longest foldr]; [constructor|]. by apply insert_longest_sorted.
Qed.

Lemma registered_sorted ss : StronglySorted (fun x y => zlen y <= zlen x) (values (registered ss)).
Proof.
  unfold registered. induction ss as [|x ss IH] using rev_ind; [constructor|].
  rewrite foldl_app. cbn [foldl]. unfold remember. case_decide; [done|]. case_decide; [done|].
  apply sort_longest_sorted.
Qed.

Lemma replace_all_absent h v : ~ occurs v h -> replace_all h v REDACTED = h.
Proof.
  intros Hn. unfold replace_all. cbn [replace_loop]. destruct (find h v) as [i|] eqn:E; [|done].
  exfalso. apply Hn, occurs_refl. by rewrite E.
Qed.

Lemma occurs_longer v w : occurs v w -> zlen w <= zlen v -> v = w.
Proof.
  intros (a & b & ->) Hl. unfold zlen in Hl. rewrite !length_app in Hl.
  assert (length a = 0 /\ length b = 0)%nat as [->%nil_length_inv ->%nil_length_inv] by lia.
  by rewrite app_nil_r.
Qed.

Lemma replace_all_self w : w <> [] -> replace_all w w REDACTED = REDACTED.
Proof.
  intros Hw. unfold replace_all. cbn [replace_loop].
  assert (find w w = Some 0%nat) as ->.
  { unfold find. rewrite decide_False by (intros [?|?]; [done|lia]).
    destruct w as [|x w]; [done|]. cbn [position_of].
    assert (starts_with (x :: w) (x :: w) = true) as -> by (apply starts_with_spec; exists []; by rewrite app_nil_r).
    done. }
  rewrite take_0, Nat.add_0_l, drop_all. cbn [app].
  destruct (length w); cbn [replace_loop]; [by rewrite app_nil_r|].
  assert (find [] w = None) as ->; [|by rewrite app_nil_r].
  unfold find. case_decide as H; [done|]. exfalso. apply H. destruct w; [by left|right; rewrite zlen_cons, zlen_nil].
  pose proof (zlen_nonneg w). lia.
Qed.

Lemma plain_not_redacted v : plain v -> ~ occurs v REDACTED.
Proof.
  intros Hv H. assert (occurs v ([] ++ REDACTED ++ [])) as H' by (by rewrite app_nil_r).
  apply occurs_around_redacted in H' as [(a & b & E)|(a & b & E)]; [| |done];
    destruct Hv as [Hv _]; destruct a; [|done|destruct v; done|done]; destruct v; done.
Qed.

Lemma scrub_whole vs w : StronglySorted (fun x y => zlen y <= zlen x) vs -> Forall plain vs -> w ∈ vs ->
  foldl (fun out v => replace_all out v REDACTED) w vs = REDACTED.
Proof.
  induction 1 as [|v vs Hs IH Hv]; intros Hp Hw; [by apply elem_of_nil in Hw|].
  apply Forall_cons in Hp as [Hpv Hp]. cbn [foldl].
  assert (forall us, Forall plain us -> foldl (fun out v => replace_all out v REDACTED) REDACTED us = REDACTED)
    as Hdone.
  { induction 1 as [|u us Hu _ IHu]; cbn [foldl]; [done|].
    by rewrite replace_all_absent by (by apply plain_not_redacted). }
  destruct (decide (v = w)) as [->|Hne].
  - rewrite replace_all_self by apply Hpv. by apply Hdone.
  - assert (w ∈ vs) as Hin by (by apply elem_of_cons in Hw as [->|?]).
    rewrite replace_all_absent; [by apply IH|]. intros Ho. apply Hne, occurs_longer; [done|].
    by eapply Forall_forall in Hv.
Qed.

(** A byte that no secret holds parts the text. *)
Lemma position_of_apart (x : byte) v a b : v <> [] -> (x ∉ v) ->
  position_of v (a ++ x :: b) =
  match position_of v a with
  | Some i => Some i
  | None => (fun i => length a + 1 + i)%nat <$> position_of v b
  end.
Proof.
  intros Hv Hx. assert (forall r, starts_with v (x :: r) = false) as Hh.
  { intros r. apply not_true_iff_false. rewrite starts_with_spec. intros [s E].
    destruct v; [done|]. injection E as -> _. apply Hx. by left. }
  induction a as [|c a IH]; cbn [app].
  - cbn [position_of]. rewrite Hh. assert (starts_with v [] = false) as ->.
    { apply not_true_iff_false. rewrite starts_with_spec. intros [s E]. by destruct v. }
    cbn [length Nat.add]. by destruct (position_of v b).
  - cbn [position_of]. assert (starts_with v (c :: a ++ x :: b) = starts_with v (c :: a)) as ->.
    { apply eq_true_iff_eq. rewrite !starts_with_spec. split.
      - intros [s E]. change (c :: a ++ x :: b) with ((c :: a) ++ x :: b) in E.
        destruct (prefix_weak_total v (c :: a) ((c :: a) ++ x :: b)) as [[k Hk]|[k Hk]];
          [by exists s|by exists (x :: b)|by exists k|].
        destruct k as [|y k]; [exists []; by rewrite Hk, !app_nil_r|]. exfalso. rewrite Hk, <- app_assoc in E.
        apply app_inv_head in E. injection E as <- _. apply Hx. rewrite Hk. apply elem_of_app. right. by left.
      - intros [s Hs]. exists (s ++ x :: b). change (c :: a ++ x :: b) with ((c :: a) ++ x :: b).
        by rewrite Hs, app_assoc. }
    destruct (starts_with v (c :: a)); [done|]. rewrite IH. destruct (position_of v a); [done|].
    by destruct (position_of v b).
Qed.

Lemma find_position h v : v <> [] -> find h v = position_of v h.
Proof.
  intros Hv. unfold find. case_decide as H; [|done]. destruct H as [H|H]; [done|]. symmetry.
  destruct (position_of v h) as [i|] eqn:E; [|done]. apply position_of_some in E as [E _].
  rewrite E in H. rewrite !zlen_app in H. pose proof (zlen_nonneg (take i h)).
  pose proof (zlen_nonneg (drop (i + length v) h)). lia.
Qed.

Lemma replace_loop_fuel v r : v <> [] -> forall f g rest, (length rest < f)%nat -> (length rest < g)%nat ->
  replace_loop f rest v r = replace_loop g rest v r.
Proof.
  intros Hv. induction f as [|f IH]; intros [|g] rest Hf Hg; try lia. cbn [replace_loop].
  destruct (find rest v) as [i|] eqn:E; [|done]. do 2 f_equal.
  assert (1 <= length v)%nat by (destruct v; [done|simpl; lia]).
  apply find_some in E as (_ & E & _). apply (f_equal length) in E. rewrite !length_app in E.
  apply IH; rewrite length_drop; lia.
Qed.

Lemma replace_all_apart (x : byte) v a b : v <> [] -> (x ∉ v) ->
  replace_all (a ++ x :: b) v REDACTED = replace_all a v REDACTED ++ x :: replace_all b v REDACTED.
Proof.
  intros Hv Hx. remember (length a) as n eqn:En. revert a En. induction n as [n IH] using lt_wf_ind. intros a ->.
  assert (1 <= length v)%nat as Hlen by (destruct v; [done|simpl; lia]).
  unfold replace_all. cbn [replace_loop]. rewrite !find_position, position_of_apart by done.
  destruct (position_of v a) as [i|] eqn:E.
  - apply position_of_some in E as [E _]. apply (f_equal length) in E. rewrite !length_app, length_drop, length_take in E.
    rewrite take_app_le, drop_app_le, <- !app_assoc by lia. do 2 f_equal.
    specialize (IH (length (drop (i + length v) a)) ltac:(rewrite length_drop; lia) _ eq_refl).
    unfold replace_all in IH. rewrite (replace_loop_fuel v REDACTED Hv _ (S (length (drop (i + length v) a ++ x :: b))))
      by (rewrite ?length_app, ?length_drop; simpl; lia).
    rewrite IH.
    rewrite (replace_loop_fuel v REDACTED Hv _ (length a) (drop _ a)) by (rewrite ?length_drop; lia).
    do 2 f_equal. cbn [replace_loop]. by rewrite find_position by done.
  - destruct (position_of v b) as [j|] eqn:Eb; cbn [fmap option_fmap option_map]; [|done].
    apply position_of_some in Eb as [Eb _]. apply (f_equal length) in Eb. rewrite !length_app, length_drop, length_take in Eb.
    replace (length a + 1 + j)%nat with (length (a ++ [x]) + j)%nat by (rewrite length_app; simpl; lia).
    change (a ++ x :: b) with (a ++ [x] ++ b). rewrite !(app_assoc a [x]), take_app_add.
    rewrite <- Nat.add_assoc, drop_app_add, <- !app_assoc. cbn [app]. do 3 f_equal.
    f_equal. apply replace_loop_fuel; [done|rewrite length_drop, ?length_app; simpl; lia..].
Qed.

Lemma scrub_apart vs (x : byte) : Forall (fun v => v <> []) vs -> Forall (fun v => x ∉ v) vs -> forall a b,
  foldl (fun out v => replace_all out v REDACTED) (a ++ x :: b) vs =
  foldl (fun out v => replace_all out v REDACTED) a vs ++ x ::
    foldl (fun out v => replace_all out v REDACTED) b vs.
Proof.
  intros Hne. induction Hne as [|v vs Hv _ IH]; intros Hx a b; [done|]. apply Forall_cons in Hx as [Hxv Hx].
  cbn [foldl]. by rewrite replace_all_apart, IH.
Qed.

(** C17. What scrubbing takes out of a text.  A registered secret of four bytes
    or more is nowhere in it afterwards, provided it has no square bracket and is
    no part of the word between the brackets of the replacement (else every
    replacement puts it back: [scrub_puts_back]).  If every secret is such, the
    audit then finds nothing, and a secret is replaced whole where it is the
    whole text or stands between bytes that no secret holds, also if another
    secret is a part of it (two that overlap leave an end:
    [scrub_leaves_tail]).  Text without secrets is unchanged. *)
Theorem scrub_removes ss h :
  let s := registered ss in
  (forall w, w ∈ ss -> MIN_SECRET_LEN <= zlen w -> plain w -> ~ occurs w (scrub s h)) /\
  (Forall plain ss -> appears_in s (scrub s h) = None) /\
  (Forall plain ss -> forall w, w ∈ ss -> MIN_SECRET_LEN <= zlen w ->
     scrub s w = REDACTED /\
     forall (x y : byte) a b, Forall (fun v => (x ∉ v) /\ (y ∉ v)) ss -> h = a ++ x :: w ++ y :: b ->
       scrub s h = scrub s a ++ x :: REDACTED ++ y :: scrub s b) /\
  ((forall w, w ∈ values s -> ~ occurs w h) -> scrub s h = h).
Proof.
  intros s. pose proof (registered_nonempty ss) as Hne. fold s in Hne.
  assert (forall w, w ∈ values s -> w ∈ ss) as Hss by (intros w Hw; by apply registered_elem in Hw as [? _]).
  split_and!.
  - intros w Hw Hl Hp. destruct (scrub_loop (values s) w Hne Hp h) as [_ H]. apply H.
    by apply registered_elem.
  - intros Hp. apply appears_in_spec, Forall_forall. intros w Hw.
    destruct (find (scrub s h) w) eqn:E; [|done].
    assert (plain w) as Hpw by (rewrite Forall_forall in Hp; by apply Hp, Hss).
    destruct (scrub_loop (values s) w Hne Hpw h) as [_ H]. apply (H Hw), occurs_refl.
    fold (scrub s h). by rewrite E.
  - intros Hp w Hw Hl.
    assert (scrub s w = REDACTED) as Hwhole.
    { apply scrub_whole; [apply registered_sorted| |by apply registered_elem].
      rewrite Forall_forall in Hp. apply Forall_forall. auto. }
    split; [done|]. intros x y a b Hxy ->. rewrite Forall_forall in Hxy.
    assert (Forall (fun v => x ∉ v) (values s) /\ Forall (fun v => y ∉ v) (values s)) as [Hx Hy].
    { split; apply Forall_forall; intros v Hv; by apply Hxy, Hss. }
    unfold scrub in *. by rewrite !scrub_apart, Hwhole.
  - apply scrub_clean.
Qed.

Definition sample_secrets : list bytes := [bs "hunter2"; bs "hunter2-old"; bs "abc"].

Lemma scrub_removes_witness :
  Forall plain sample_secrets /\
  appears_in (registered sample_secrets) (scrub (registered sample_secrets) (bs "AUTH hunter2-old x")) = None /\
  scrub (registered sample_secrets) (bs "AUTH hunter2-old x") = bs "AUTH [redacted] x".
Proof.
  assert (Forall plain sample_secrets) as Hp.
  { repeat (apply List.Forall_cons; [split; [discriminate|]; split; [set_solver|]; split; [set_solver|];
      apply position_of_none; vm_compute; reflexivity|]). apply List.Forall_nil. }
  destruct (scrub_removes sample_secrets (bs "AUTH hunter2-old x")) as (_ & H2 & H3 & _).
  split; [exact Hp|]. split; [exact (H2 Hp)|].
  destruct (H3 Hp (bs "hunter2-old")) as [_ H]; [right; by left|by vm_compute|].
  rewrite (H " "%byte " "%byte (bs "AUTH") (bs "x")); [vm_compute; reflexivity| |reflexivity].
  repeat (apply List.Forall_cons; [split; set_solver|]). apply List.Forall_nil.
Defined.

(** ** What the module's comments promise and the code does not do *)

(** A secret that is part of the replacement text is put back by every
    replacement. *)
Lemma scrub_puts_back :
  appears_in (registered [bs "acted"; bs "hunter2"]) (bs "hunter2") = Some (bs "hunter2")
  /\ appears_in (registered [bs "acted"; bs "hunter2"])
       (scrub (registered [bs "acted"; bs "hunter2"]) (bs "hunter2")) = Some (bs "acted").
Proof. split; vm_compute; reflexivity. Qed.

(** And two secrets of one length that overlap leave the end of the second in
    the text. *)
Lemma scrub_leaves_tail :
  scrub (registered [bs "abcdef"; bs "efghij"]) (bs "abcdefghij") = bs "[redacted]ghij".
Proof. vm_compute. reflexivity. Qed.
