(* ===== verification/Uri.v ===== *)
(** * Connection URIs ([crates/pr-security/src/uri.rs])

    Text is a [str]; every separator is ASCII, so cutting at characters and at
    their bytes is the same.  Parsing returns the register with the password in
    it. *)

From S2P Require Import Prelude Text TextFacts Lines Secrets.

Inductive UriError := Scheme | NoHost | Port | Database | Userinfo | PercentEscape.
#[export] Instance UriError_eq_dec : EqDecision UriError.
Proof. solve_decision. Defined.

Record Redis := mkRedis {
  tls : bool;
  user : option str;
  password : option bytes;
  host : str;
  port : Z;
  db : Z;
}.

Definition has_password (r : Redis) : bool :=
  match password r with
  | Some _ => true
  | None => false
  end.

Definition decimal (n : Z) : str := bz <$> print_unsigned n.

Definition redacted (r : Redis) : str :=
  (if tls r then chars "rediss" else chars "redis") ++ chars "://" ++
  match user r with
  | Some u => u ++ (if has_password r then chars ":" ++ (bz <$> REDACTED) else []) ++ chars "@"
  | None => if has_password r then (bz <$> REDACTED) ++ chars "@" else []
  end ++ host r ++ chars ":" ++ decimal (port r) ++ chars "/" ++ decimal (db r).

(** ** Cutting text *)

(** [split_once("://")]. *)
Fixpoint split_scheme (s : str) : option (str * str) :=
  match strip_prefix (chars "://") s with
  | Some r => Some ([], r)
  | None => match s with
            | [] => None
            | d :: r => prod_map (cons d) id <$> split_scheme r
            end
  end.

Definition lower_char (c : Z) : Z := if decide (65 <= c <= 90) then c + 32 else c.

(** ** Percent escapes *)

(** [u8::from_str_radix(s, 16)] of two characters, which takes a leading plus. *)
Definition radix16 (a b : byte) : option Z :=
  if decide (a = "+"%byte) then hex_value b
  else x ← hex_value a; y ← hex_value b; Some (16 * x + y).

Fixpoint percent_decode (fuel : nat) (b : bytes) : result UriError bytes :=
  match fuel, b with
  | O, _ | _, [] => Ok []
  | S f, c :: r =>
      if decide (c = "%"%byte) then
        match r with
        | x :: y :: r' =>
            match from_utf8 [x; y] with
            | None => Err PercentEscape
            | Some _ =>
                let? v := ok_or (radix16 x y) PercentEscape in
                let? rest := percent_decode f r' in
                Ok (zb v :: rest)
            end
        | _ => Err PercentEscape
        end
      else let? rest := percent_decode f r in Ok (c :: rest)
  end.
Definition percent_decode_bytes (s : str) : result UriError bytes :=
  let b := encode_str s in percent_decode (S (length b)) b.
Definition percent_decode_str (s : str) : result UriError str :=
  let? b := percent_decode_bytes s in ok_or (from_utf8 b) PercentEscape.

(** ** Parsing *)

Definition parse_userinfo (userinfo : option str) : result UriError (option str * option bytes) :=
  match userinfo with
  | None => Ok (None, None)
  | Some ui =>
      let '(u, p) := match split_once 58 ui with
                     | Some (u, p) => (u, Some p)
                     | None => (ui, None)
                     end in
      if match p with Some p => bool_decide (58 ∈ p) | None => false end then Err Userinfo
      else
        let? usr := (if decide (u = []) then Ok None else let? x := percent_decode_str u in Ok (Some x)) in
        let? pw := match p with
                   | None => Ok None
                   | Some p => let? x := percent_decode_bytes p in Ok (Some x)
                   end in
        Ok (usr, pw)
  end.

Definition parse_hostport (hostport : str) : result UriError (str * option str) :=
  let plain_host := match rsplit_once 58 hostport with
                    | Some (h, p) => Ok (h, Some p)
                    | None => Ok (hostport, None)
                    end in
  match hostport with
  | c :: r =>
      if decide (c = 91) then
        match split_once 93 r with
        | Some (h, after) =>
            match after with
            | [] => Ok (h, None)
            | d :: p => if decide (d = 58) then Ok (h, Some p) else Err Port
            end
        | None => plain_host
        end
      else plain_host
  | [] => plain_host
  end.

Definition parse_port (p : option str) : result UriError Z :=
  match p with
  | None => Ok 6379
  | Some p =>
      match parse_unsigned u16_max (encode_str p) with
      | Some n => if decide (0 < n) then Ok n else Err Port
      | None => Err Port
      end
  end.

Definition parse_db (path : option str) : result UriError Z :=
  match path with
  | None | Some [] => Ok 0
  | Some p => ok_or (parse_unsigned u32_max (encode_str p)) Database
  end.

Definition parse_scheme (scheme : str) : result UriError bool :=
  let s := lower_char <$> scheme in
  if decide (s = chars "redis") then Ok false
  else if decide (s = chars "rediss") then Ok true else Err Scheme.

(** The userinfo ends at the last [@]; the path starts at the first [/]. *)
Definition split_userinfo (rest : str) : option str * str :=
  match rsplit_once 64 rest with
  | Some (u, a) => (Some u, a)
  | None => (None, rest)
  end.
Definition split_path (authority : str) : str * option str :=
  match split_once 47 authority with
  | Some (h, p) => (h, Some p)
  | None => (authority, None)
  end.

Definition parse (raw : str) (register : SecretSet) : result UriError Redis * SecretSet :=
  match (
    let? sr := ok_or (split_scheme raw) Scheme in
    let? t := parse_scheme sr.1 in
    let ua := split_userinfo sr.2 in
    let? up := parse_userinfo ua.1 in
    let hp := split_path ua.2 in
    let? hostport := parse_hostport hp.1 in
    if decide (hostport.1 = []) then Err NoHost
    else
      let? po := parse_port hostport.2 in
      let? d := parse_db hp.2 in
      Ok (mkRedis t up.1 up.2 hostport.1 po d)) with
  | Err e => (Err e, register)
  | Ok r =>
      (Ok r, match password r with
             | Some p => (remember p register).2
             | None => register
             end)
  end.

Example parse_sample :
  (parse (chars "rediss://app:p%40ss@[::1]:6380/2") new_secrets).1
  = Ok (mkRedis true (Some (chars "app")) (Some (bs "p@ss")) (chars "::1") 6380 2).
Proof. vm_compute. reflexivity. Qed.

(** ** Writing a URI *)

Definition percent_byte (b : byte) : bytes := "%"%byte :: hex2 b.
Definition percent_encode (b : bytes) : str := bz <$> (b ≫= percent_byte).

Definition host_text (h : str) : str := if decide (58 ∈ h) then [91] ++ h ++ [93] else h.

Definition userinfo_text (u : option str) (p : option bytes) : str :=
  match u with
  | Some u => percent_encode (encode_str u)
  | None => []
  end ++ match p with
         | Some p => 58 :: percent_encode p
         | None => []
         end.

Definition uri_text (r : Redis) : str :=
  (if tls r then chars "rediss" else chars "redis") ++ chars "://" ++
  match user r, password r with
  | None, None => []
  | u, p => userinfo_text u p ++ [64]
  end ++ host_text (host r) ++ 58 :: decimal (port r) ++ 47 :: decimal (db r).

Record writable (r : Redis) : Prop := mkWritable {
  w_user : forall u, user r = Some u -> u <> [] /\ Forall scalar u;
  w_host : host r <> [] /\ (64 ∉ host r) /\ (47 ∉ host r) /\ (91 ∉ host r) /\ (93 ∉ host r);
  w_port : 1 <= port r <= u16_max;
  w_db : 0 <= db r <= u32_max;
}.

(** ** Escapes *)

Lemma radix16_hex b : radix16 (hex_digit (bz b / 16)) (hex_digit (bz b mod 16)) = Some (bz b).
Proof.
  assert (H : forall b, bool_decide (radix16 (hex_digit (bz b / 16)) (hex_digit (bz b mod 16)) = Some (bz b)) = true)
    by (apply byte_forall; vm_compute; reflexivity).
  specialize (H b). by apply bool_decide_eq_true in H.
Qed.

Lemma percent_byte_ascii b : Forall (fun c => bz c < 128) (percent_byte b).
Proof.
  assert (H : forall b, forallb (fun c => bool_decide (bz c < 128)) (percent_byte b) = true)
    by (apply byte_forall; vm_compute; reflexivity).
  specialize (H b). rewrite forallb_forall in H. apply Forall_forall. intros c Hc.
  apply list_elem_of_In, H in Hc. by apply bool_decide_eq_true in Hc.
Qed.

(** The escapes use none of the characters that separate the parts. *)
Lemma percent_byte_clean b : Forall (fun c => bz c ∉ [58; 64; 47; 91; 93]) (percent_byte b).
Proof.
  assert (H : forall b, forallb (fun c => bool_decide (bz c ∉ [58; 64; 47; 91; 93])) (percent_byte b) = true)
    by (apply byte_forall; vm_compute; reflexivity).
  specialize (H b). rewrite forallb_forall in H. apply Forall_forall. intros c Hc.
  apply list_elem_of_In, H in Hc. by apply bool_decide_eq_true in Hc.
Qed.

Lemma Forall_bind_bytes (P : byte -> Prop) (f : byte -> bytes) b : (forall x, Forall P (f x)) -> Forall P (b ≫= f).
Proof. intros H. induction b as [|x b IH]; cbn [mbind list_bind]; [constructor|]. apply Forall_app. by split. Qed.

Lemma percent_encode_clean b c : c ∈ [58; 64; 47; 91; 93] -> (c ∉ percent_encode b).
Proof.
  intros Hc (x & -> & Hx)%list_elem_of_fmap.
  assert (H : Forall (fun c => bz c ∉ [58; 64; 47; 91; 93]) (b ≫= percent_byte)) by apply Forall_bind_bytes, percent_byte_clean.
  rewrite Forall_forall in H. by apply (H x Hx).
Qed.

Lemma encode_percent b : encode_str (percent_encode b) = b ≫= percent_byte.
Proof. apply encode_str_ascii, Forall_bind_bytes, percent_byte_ascii. Qed.

Lemma percent_decode_encode b : forall f, (length (b ≫= percent_byte) < f)%nat ->
  percent_decode f (b ≫= percent_byte) = Ok b.
Proof.
  induction b as [|x b IH]; intros f Hf; [by destruct f|]. destruct f as [|f]; [lia|].
  cbn [mbind list_bind percent_byte hex2 app percent_decode] in *. rewrite decide_True by done.
  pose proof (percent_byte_ascii x) as Ha. unfold percent_byte, hex2 in Ha. apply Forall_cons in Ha as [_ Ha].
  rewrite (from_utf8_ascii _ Ha), radix16_hex. cbn [ok_or rbind]. rewrite IH; [|simpl in Hf; lia].
  cbn [rbind]. by rewrite zb_bz.
Qed.

Lemma percent_decode_bytes_encode b : percent_decode_bytes (percent_encode b) = Ok b.
Proof. unfold percent_decode_bytes. rewrite encode_percent. apply percent_decode_encode. lia. Qed.

Lemma percent_decode_str_encode u : Forall scalar u -> percent_decode_str (percent_encode (encode_str u)) = Ok u.
Proof.
  intros Hu. unfold percent_decode_str. rewrite percent_decode_bytes_encode. cbn [rbind].
  by rewrite from_utf8_encode_str.
Qed.

Lemma percent_encode_nonempty b : b <> [] -> percent_encode b <> [].
Proof. destruct b; [done|]. intros _. unfold percent_encode. cbn [mbind list_bind percent_byte app fmap list_fmap]. done. Qed.

Lemma parse_userinfo_text u p : (forall x, u = Some x -> x <> [] /\ Forall scalar x) ->
  (u <> None \/ p <> None) -> parse_userinfo (Some (userinfo_text u p)) = Ok (u, p).
Proof.
  intros Hu Hn. unfold parse_userinfo, userinfo_text.
  set (ut := match u with Some x => percent_encode (encode_str x) | None => [] end).
  assert (Hc : (58 ∉ ut)).
  { unfold ut. destruct u; [apply percent_encode_clean; set_solver|apply not_elem_of_nil]. }
  assert (Hd : (if decide (ut = []) then Ok None else let? x := percent_decode_str ut in Ok (Some x))
               = (Ok u : result UriError _)).
  { unfold ut. destruct u as [x|]; [|done]. destruct (Hu x eq_refl) as [Hx Hs].
    assert (percent_encode (encode_str x) <> []) as Hne.
    { apply percent_encode_nonempty. destruct x as [|y x]; [done|]. unfold encode_str. cbn [mbind list_bind].
      pose proof (encode_char_nonempty y). destruct (encode_char y); [simpl in *; lia|done]. }
    rewrite decide_False, percent_decode_str_encode by done.
    done. }
  destruct p as [p|].
  - rewrite split_once_app by done. rewrite bool_decide_false by (apply percent_encode_clean; set_solver).
    rewrite Hd. cbn [rbind]. by rewrite percent_decode_bytes_encode.
  - rewrite app_nil_r, split_once_none by done. rewrite Hd. done.
Qed.

(** ** Host, port and database *)

Lemma decimal_digits n : 0 <= n -> Forall (fun c => 48 <= c <= 57) (decimal n).
Proof.
  intros Hn. destruct (print_unsigned_spec n Hn) as (_ & Hd & _). unfold decimal. apply Forall_fmap.
  eapply Forall_impl; [exact Hd|]. intros b Hb. by apply is_ascii_digit_spec in Hb.
Qed.

Lemma decimal_clean n c : 0 <= n -> ~ 48 <= c <= 57 -> (c ∉ decimal n).
Proof.
  intros Hn Hc Hin. pose proof (decimal_digits n Hn) as H. rewrite Forall_forall in H. by apply Hc, H.
Qed.

Lemma decimal_bytes n : 0 <= n -> encode_str (decimal n) = print_unsigned n.
Proof.
  intros Hn. apply encode_str_ascii. destruct (print_unsigned_spec n Hn) as (_ & Hd & _).
  eapply Forall_impl; [exact Hd|]. intros b Hb. apply is_ascii_digit_spec in Hb. lia.
Qed.

Lemma parse_decimal max n : 0 <= n <= max -> parse_unsigned max (encode_str (decimal n)) = Some n.
Proof. intros Hn. rewrite decimal_bytes by lia. by apply parse_unsigned_print. Qed.

Lemma decimal_nonempty n : 0 <= n -> decimal n <> [].
Proof.
  intros Hn. destruct (print_unsigned_spec n Hn) as (Hne & _). unfold decimal. by destruct (print_unsigned n).
Qed.

Lemma parse_hostport_text h n : h <> [] -> (91 ∉ h) -> (93 ∉ h) -> 0 <= n ->
  parse_hostport (host_text h ++ 58 :: decimal n) = Ok (h, Some (decimal n)).
Proof.
  intros Hh Ho Hc Hn. unfold host_text. case_decide as Hcolon.
  - cbn [app parse_hostport]. rewrite decide_True by done.
    rewrite <- app_assoc. cbn [app]. rewrite split_once_app by done. by rewrite decide_True.
  - unfold parse_hostport. rewrite rsplit_once_app by (apply decimal_clean; lia).
    destruct h as [|c h]; [done|]. cbn [app]. apply not_elem_of_cons in Ho as [Ho _].
    by rewrite decide_False.
Qed.

Lemma parse_port_decimal n : 1 <= n <= u16_max -> parse_port (Some (decimal n)) = Ok n.
Proof. intros Hn. unfold parse_port. rewrite parse_decimal by lia. by rewrite decide_True by lia. Qed.

Lemma parse_db_decimal n : 0 <= n <= u32_max -> parse_db (Some (decimal n)) = Ok n.
Proof.
  intros Hn. unfold parse_db. pose proof (decimal_nonempty n ltac:(lia)).
  destruct (decimal n) eqn:E; [done|]. rewrite <- E, parse_decimal by done. done.
Qed.

Lemma split_scheme_text (t : bool) x :
  split_scheme ((if t then chars "rediss" else chars "redis") ++ chars "://" ++ x)
  = Some (if t then chars "rediss" else chars "redis", x).
Proof. by destruct t. Qed.

Lemma authority_clean r : writable r ->
  (64 ∉ host_text (host r) ++ 58 :: decimal (port r) ++ 47 :: decimal (db r)).
Proof.
  intros [_ (_ & H64 & _) Hp Hd]. unfold host_text.
  rewrite not_elem_of_app, not_elem_of_cons, not_elem_of_app, not_elem_of_cons.
  split_and!; try lia; try (apply decimal_clean; lia).
  case_decide; [|done]. rewrite !not_elem_of_app, !list_elem_of_singleton. split_and!; lia || done.
Qed.

(** Every connection can be written as a URI that parses back to it — user,
    password bytes, host, port and database — and parsing registers the
    password, and nothing else, as a secret. *)
Theorem uri_roundtrip r register : writable r ->
  parse (uri_text r) register =
    (Ok r, match password r with
           | Some p => (remember p register).2
           | None => register
           end).
Proof.
  intros Hw. pose proof (authority_clean r Hw) as H64. destruct Hw as [Hu (Hh & _ & H47 & H91 & H93) Hp Hd].
  unfold parse, uri_text. rewrite split_scheme_text. cbn [ok_or rbind fst snd].
  set (a := host_text (host r) ++ _) in *.
  assert (parse_scheme (if tls r then chars "rediss" else chars "redis") = Ok (tls r)) as -> by (by destruct (tls r)).
  cbn [rbind]. set (before := match user r with Some _ => _ | None => _ end).
  assert (Hua : exists ua, split_userinfo (before ++ a) = (ua, a) /\ parse_userinfo ua = Ok (user r, password r)).
  { assert (Hs : forall x, split_userinfo ((x ++ [64]) ++ a) = (Some x, a)).
    { intros x. unfold split_userinfo. rewrite <- app_assoc. cbn [app]. by rewrite rsplit_once_app. }
    unfold before. destruct (user r) as [u|] eqn:Eu, (password r) as [p|] eqn:Ep.
    4: { exists None. unfold split_userinfo. cbn [app]. by rewrite rsplit_once_none. }
    all: eexists; split; [apply Hs|]; apply parse_userinfo_text; [exact Hu|auto]. }
  destruct Hua as (ua & -> & Hui). cbn [fst snd]. rewrite Hui. cbn [rbind].
  assert (split_path a = (host_text (host r) ++ 58 :: decimal (port r), Some (decimal (db r)))) as ->.
  { unfold split_path, a. rewrite app_comm_cons, app_assoc, split_once_app; [done|].
    rewrite not_elem_of_app, not_elem_of_cons. split_and!; [|lia|apply decimal_clean; lia].
    unfold host_text. case_decide; [|done]. rewrite !not_elem_of_app, !list_elem_of_singleton.
    split_and!; lia || done. }
  cbn [fst snd]. rewrite parse_hostport_text by (done || lia). cbn [rbind fst snd].
  rewrite decide_False, parse_port_decimal, parse_db_decimal by done. cbn [rbind fst snd].
  by destruct r.
Qed.

Definition sample_redis : Redis :=
  mkRedis true (Some (chars "app")) (Some (bs "p@ss:word")) (chars "::1") 6380 2.

Lemma uri_roundtrip_witness :
  writable sample_redis /\
  parse (uri_text sample_redis) new_secrets = (Ok sample_redis, mkSecrets [bs "p@ss:word"]).
Proof.
  assert (H : writable sample_redis).
  { split; [|split_and!; [discriminate|set_solver..]|vm_compute; split; discriminate|vm_compute; split; discriminate].
    intros u [= <-]. split; [discriminate|]. repeat (apply List.Forall_cons; [unfold scalar; vm_compute; left; split; discriminate || reflexivity|]).
    apply List.Forall_nil. }
  split; [exact H|]. exact (uri_roundtrip sample_redis new_secrets H).
Defined.

(** The printable form says that there is a password and nothing about it. *)
Lemma redacted_hides_password r p q :
  redacted (mkRedis (tls r) (user r) (Some p) (host r) (port r) (db r))
  = redacted (mkRedis (tls r) (user r) (Some q) (host r) (port r) (db r)).
Proof. done. Qed.

(** ** What the module's comments promise and the code does not do *)

(** A percent escape is two hexadecimal digits; [from_str_radix] also takes a
    plus and one digit, so another password than the one written is sent. *)
Lemma plus_escape_accepted :
  (parse (chars "redis://:a%+fb@h") new_secrets).1
  = Ok (mkRedis false None (Some ([zb 97; zb 15; zb 98])) (chars "h") 6379 0).
Proof. vm_compute. reflexivity. Qed.

(** A password shorter than four bytes is not registered, although parsing is
    said to register the password, if there is one. *)
Lemma short_password_not_registered :
  parse (chars "redis://:abc@h") new_secrets
  = (Ok (mkRedis false None (Some (bs "abc")) (chars "h") 6379 0), new_secrets).
Proof. vm_compute. reflexivity. Qed.
