(* ===== verification/History.v ===== *)
(** * Command history ([crates/pr-repl/src/history.rs])

    What is stored of a command, and the table it is stored in.  The statements
    the code sends to SQLite are translated as operations on the table's rows;
    that each succeeds is assumed.  Writing the parts of an entry as JSON text
    and reading them back is a library's, the class [PartsText]; [blake3] and the
    Unicode upper-case table [upper] are parameters. *)

From Stdlib Require Import Sorting.Sorted.
From S2P Require Import Prelude Text TextFacts Request Quoting.

Definition SCHEMA_VERSION : Z := 1.

Inductive RedactionLevel := KeepAll | HashNames | AllArguments.
#[export] Instance RedactionLevel_eq_dec : EqDecision RedactionLevel.
Proof. solve_decision. Defined.

Definition lower (s : str) : str := (fun c => if decide (65 <= c <= 90) then c + 32 else c) <$> s.

Definition for_environment (env : str) : RedactionLevel :=
  let e := lower env in
  if decide (e ∈ [chars "development"; chars "local"; chars "dev"]) then KeepAll
  else if decide (e ∈ [chars "staging"; chars "test"]) then HashNames
  else AllArguments.

Record Scope := mkScope { scope_uuid : str; scope_identity : Z; scope_database : Z }.

Definition is_secret_bearing (name : str) : bool :=
  bool_decide (name ∈ [chars "AUTH"; chars "HELLO"; chars "MIGRATE"; chars "CONFIG"; chars "ACL"]).

Definition KEYWORDS : list bytes :=
  bs <$> ["NX"; "XX"; "GET"; "EX"; "PX"; "EXAT"; "PXAT"; "KEEPTTL"; "WITHSCORES"; "REV"; "BYSCORE";
          "BYLEX"; "LIMIT"; "COUNT"; "MATCH"; "NOVALUES"; "STREAMS"; "ASC"; "DESC"; "ALPHA"]%string.
Definition is_keyword (arg : bytes) : bool := bool_decide (to_ascii_uppercase arg ∈ KEYWORDS).

Section Redaction.
Context (blake3 : bytes -> bytes) (upper : Z -> str).

(** The first eight hexadecimal digits of the hash. *)
Definition short_hash (b : bytes) : str :=
  chars "[hashed:" ++ (bz <$> take 8 (blake3 b ≫= hex2)) ++ chars "]".

Definition stored (effective : RedactionLevel) (arg : bytes) : str :=
  if is_keyword arg then to_uppercase upper (from_utf8_lossy arg)
  else match effective with
       | KeepAll => quote arg
       | HashNames => short_hash arg
       | AllArguments => chars "[redacted]"
       end.

Definition effective_level (name : str) (level : RedactionLevel) : RedactionLevel :=
  if is_secret_bearing name then AllArguments else level.

Definition redact (argv : list bytes) (level : RedactionLevel) : list str :=
  match argv with
  | [] => []
  | first :: rest =>
      let name := to_uppercase upper (from_utf8_lossy first) in
      name :: (stored (effective_level name level) <$> rest)
  end.

Definition is_placeholder (p : str) : bool :=
  bool_decide (p = chars "[redacted]")
  || match strip_prefix (chars "[hashed:") p with Some _ => true | None => false end.
Definition has_placeholder (parts : list str) : bool := existsb is_placeholder parts.

Record Entry := mkEntry { entry_id : Z; parts : list str; entry_at : Z }.
Definition entry_line (e : Entry) : str := join [32] (parts e).
Definition is_submittable (e : Entry) : bool := negb (has_placeholder (parts e)).

(** ** The table

    Rows are kept in order of their ids, which SQLite hands out in increasing
    order and never twice ([AUTOINCREMENT]). *)

Class PartsText := {
  to_text : list str -> str;
  of_text : str -> option (list str);
}.

Record Row := mkRow {
  row_id : Z; row_profile : str; row_identity : Z; row_db : Z; row_parts : str; row_at : Z;
}.

Record History := mkHistory { rows : list Row; next_id : Z }.
Definition empty_history : History := mkHistory [] 1.

(** [i64::try_from(..).unwrap_or(i64::MAX)]. *)
Definition clamp_i64 (n : Z) : Z := if decide (n <= i64_max) then n else i64_max.

Definition in_scope (s : Scope) (r : Row) : Prop :=
  row_profile r = scope_uuid s /\ row_identity r = clamp_i64 (scope_identity s) /\ row_db r = scope_database s.
#[local] Instance in_scope_dec s r : Decision (in_scope s r).
Proof. unfold in_scope. apply _. Defined.

Context {PT : PartsText}.

Definition record_command (s : Scope) (argv : list bytes) (level : RedactionLevel) (at_ms : Z) (h : History)
  : Z * History :=
  let ps := redact argv level in
  if decide (ps = []) then (0, h)
  else
    let row := mkRow (next_id h) (scope_uuid s) (clamp_i64 (scope_identity s)) (scope_database s) (to_text ps) at_ms in
    (next_id h, mkHistory (rows h ++ [row]) (next_id h + 1)).

Definition entry_of (r : Row) : Entry := mkEntry (row_id r) (default [] (of_text (row_parts r))) (row_at r).

Definition recent (s : Scope) (limit : Z) (h : History) : list Entry :=
  entry_of <$> take (Z.to_nat (clamp_i64 limit)) (filter (in_scope s) (reverse (rows h))).

Definition search (s : Scope) (needle : str) (limit : Z) (h : History) : list Entry :=
  let n := to_uppercase upper needle in
  take (Z.to_nat limit)
    (filter (fun e => contains_str n (to_uppercase upper (entry_line e)) = true) (recent s 10000 h)).

Definition clear (profile : option str) (h : History) : Z * History :=
  let gone r := match profile with
                | Some p => bool_decide (row_profile r = p)
                | None => true
                end in
  (zlen (filter (fun r => gone r = true) (rows h)),
   mkHistory (filter (fun r => gone r = false) (rows h)) (next_id h)).

Definition prune (older_than_ms keep_max : Z) (h : History) : Z * History :=
  let young := filter (fun r => older_than_ms <= row_at r) (rows h) in
  let keep := Z.to_nat (clamp_i64 keep_max) in
  let kept := drop (length young - keep) young in
  (zlen (rows h) - zlen young + (zlen young - zlen kept), mkHistory kept (next_id h)).

Definition count (h : History) : Z := zlen (rows h).

(** [init]: a newer schema is refused. *)
Definition schema_ok (found : Z) : result Z unit :=
  if decide (SCHEMA_VERSION < found) then Err found else Ok tt.

End Redaction.

(** ** What an entry reveals *)

Section Facts.
Context (blake3 : bytes -> bytes) (upper : Z -> str).

(** Arguments a stored entry does not tell apart. *)
Definition alike (level : RedactionLevel) (a a' : bytes) : Prop :=
  (is_keyword a = true /\ a' = a) \/
  (is_keyword a = false /\ is_keyword a' = false /\
   match level with
   | AllArguments => True
   | HashNames => short_hash blake3 a = short_hash blake3 a'
   | KeepAll => a = a'
   end).

Lemma stored_alike level a a' : alike level a a' ->
  stored blake3 upper level a = stored blake3 upper level a'.
Proof.
  unfold stored. intros [[_ ->]|(-> & -> & H)]; [done|]. destruct level; congruence.
Qed.

(** Under the strictest level an entry depends on nothing but the command's
    name and its option keywords, and so does the entry of a command that
    carries secrets, whatever the level; under the middle level it depends on
    the rest only through the short hashes. *)
Theorem redaction_reveals first rest rest' level :
  let name := to_uppercase upper (from_utf8_lossy first) in
  Forall2 (alike (effective_level name level)) rest rest' ->
  redact blake3 upper (first :: rest) level = redact blake3 upper (first :: rest') level /\
  (is_secret_bearing name = true -> effective_level name level = AllArguments).
Proof.
  intros name H. split; [|unfold effective_level; by intros ->]. cbn [redact]. fold name. f_equal.
  induction H as [|a a' l l' Ha _ IH]; [done|]. cbn [fmap list_fmap]. f_equal; [by apply stored_alike|done].
Qed.

(** ** Recalling an entry *)

Lemma to_uppercase_ascii s : Forall (fun b => bz b < 128) s ->
  to_uppercase upper (bz <$> s) = bz <$> to_ascii_uppercase s.
Proof.
  induction 1 as [|b s Hb _ IH]; [done|]. unfold to_uppercase, to_ascii_uppercase in *.
  cbn [fmap list_fmap mbind list_bind]. rewrite decide_True by done. cbn [app]. rewrite IH. f_equal.
  unfold to_ascii_uppercase_byte. case_decide; [|done]. rewrite bz_zb; [done|]. pose proof (bz_range b). lia.
Qed.

Lemma simple_upper c : (is_ascii_graphic c && bool_decide (c ∉ [dquote; squote; backslash])) = true ->
  (is_ascii_graphic (to_ascii_uppercase_byte c)
   && bool_decide (to_ascii_uppercase_byte c ∉ [dquote; squote; backslash])) = true.
Proof.
  assert (H : forall c, implb (is_ascii_graphic c && bool_decide (c ∉ [dquote; squote; backslash]))
     (is_ascii_graphic (to_ascii_uppercase_byte c)
      && bool_decide (to_ascii_uppercase_byte c ∉ [dquote; squote; backslash])) = true)
    by (apply byte_forall; vm_compute; reflexivity).
  specialize (H c). by destruct (_ && _).
Qed.

Lemma is_simple_upper a : is_simple a = true -> is_simple (to_ascii_uppercase a) = true.
Proof.
  unfold is_simple. intros [Hn Ha]%andb_true_iff. apply andb_true_iff. split.
  - apply bool_decide_eq_true in Hn. apply bool_decide_eq_true. by destruct a.
  - clear Hn. unfold to_ascii_uppercase. induction a as [|c a IH]; [done|]. cbn [fmap list_fmap forallb] in *.
    apply andb_true_iff in Ha as [Hc Ha]. rewrite simple_upper by done. by apply IH.
Qed.

Lemma is_simple_ascii a : is_simple a = true -> Forall (fun b => bz b < 128) a.
Proof.
  unfold is_simple. intros [_ Ha]%andb_true_iff. rewrite forallb_forall in Ha. apply Forall_forall.
  intros c Hc%list_elem_of_In. apply Ha in Hc. by apply simple_byte in Hc as (_ & _ & _ & ?).
Qed.

(** A word without spaces or quotes is stored upper-cased as itself. *)
Lemma simple_stored a : is_simple a = true ->
  to_uppercase upper (from_utf8_lossy a) = quote (to_ascii_uppercase a).
Proof.
  intros Ha. pose proof (is_simple_ascii _ Ha) as Hs. rewrite from_utf8_lossy_ascii, to_uppercase_ascii by done.
  unfold quote. rewrite is_simple_upper by done. pose proof (is_simple_ascii _ (is_simple_upper _ Ha)).
  by rewrite from_utf8_lossy_ascii.
Qed.

Lemma keyword_simple a : is_keyword a = true -> is_simple a = true.
Proof.
  unfold is_keyword. intros Hk%bool_decide_eq_true.
  assert (Hs : is_simple (to_ascii_uppercase a) = true).
  { assert (H : forallb is_simple KEYWORDS = true) by (vm_compute; reflexivity).
    rewrite forallb_forall in H. apply H. by apply list_elem_of_In. }
  unfold is_simple in *. apply andb_true_iff in Hs as [Hn Hs]. apply andb_true_iff. split.
  - apply bool_decide_eq_true in Hn. apply bool_decide_eq_true. by destruct a.
  - clear Hk Hn. unfold to_ascii_uppercase in Hs. induction a as [|c a IH]; [done|]. cbn [fmap list_fmap forallb] in *.
    apply andb_true_iff in Hs as [Hc Hs]. rewrite IH by done. rewrite andb_true_r.
    assert (H : forall c, implb (is_ascii_graphic (to_ascii_uppercase_byte c)
      && bool_decide (to_ascii_uppercase_byte c ∉ [dquote; squote; backslash]))
      (is_ascii_graphic c && bool_decide (c ∉ [dquote; squote; backslash])) = true)
      by (apply byte_forall; vm_compute; reflexivity).
    specialize (H c). by rewrite Hc in H.
Qed.

(** An argument as an entry gives it back: keywords upper-cased. *)
Definition recalled (a : bytes) : bytes := if is_keyword a then to_ascii_uppercase a else a.

Lemma stored_recalled level a : is_placeholder (stored blake3 upper level a) = false ->
  stored blake3 upper level a = quote (recalled a).
Proof.
  unfold stored, recalled. destruct (is_keyword a) eqn:E.
  - intros _. by apply simple_stored, keyword_simple.
  - destruct level; [done| |done]. unfold is_placeholder, short_hash. by rewrite orb_true_r.
Qed.

Lemma stored_all level rest : existsb is_placeholder (stored blake3 upper level <$> rest) = false ->
  stored blake3 upper level <$> rest = quote <$> (recalled <$> rest).
Proof.
  induction rest as [|a rest IH]; [done|]. cbn [fmap list_fmap existsb]. intros [Ha Hr]%orb_false_iff.
  rewrite (stored_recalled _ _ Ha). f_equal. by apply IH.
Qed.

(** An entry that may be submitted unchanged, put back in the editor, splits
    into the command that was typed: its name and keywords in upper case, every
    other argument byte for byte. *)
Theorem submittable_recalls first rest level id at_ :
  is_simple first = true ->
  let e := mkEntry id (redact blake3 upper (first :: rest) level) at_ in
  is_submittable e = true ->
  exists toks, split_args (encode_str (entry_line e)) = Ok toks /\
    map token_bytes toks = to_ascii_uppercase first :: (recalled <$> rest).
Proof.
  intros Hf e Hs.
  set (args := to_ascii_uppercase first :: (recalled <$> rest)).
  assert (He : parts e = quote <$> args).
  { unfold is_submittable, has_placeholder, e in Hs. cbn [parts redact existsb] in Hs.
    apply negb_true_iff, orb_false_iff in Hs as [_ Hs%stored_all].
    unfold e, args. cbn [parts redact]. rewrite Hs, fmap_cons. f_equal. by apply simple_stored. }
  assert (Hl : encode_str (entry_line e) = quoted_line args).
  { unfold entry_line. rewrite He, encode_join_sep. unfold quoted_line. f_equal. by rewrite <- list_fmap_compose. }
  rewrite Hl. apply split_from_quoted. lia.
Qed.

End Facts.

(** ** The table over its life *)

Class PartsTextLaws `{PartsText} : Prop := { of_to_text p : of_text (to_text p) = Some p }.

Section Table.
Context (blake3 : bytes -> bytes) (upper : Z -> str) `{PTL : PartsTextLaws}.

Inductive hop :=
| Record_ (s : Scope) (argv : list bytes) (level : RedactionLevel) (at_ms : Z)
| Clear (profile : option str)
| Prune (older_than_ms keep_max : Z).

Definition do_hop (o : hop) (h : History) : History :=
  match o with
  | Record_ s argv level at_ms => (record_command blake3 upper s argv level at_ms h).2
  | Clear p => (clear p h).2
  | Prune a k => (prune a k h).2
  end.
Definition run_history (os : list hop) : History := foldl (fun h o => do_hop o h) empty_history os.

(** A row that the operation stored. *)
Definition stored_by (o : hop) (r : Row) : Prop :=
  match o with
  | Record_ s argv level at_ms =>
      in_scope s r /\ row_at r = at_ms /\ row_parts r = to_text (redact blake3 upper argv level)
  | _ => False
  end.

Definition older (r r' : Row) : Prop := row_id r < row_id r'.

Record table_ok (os : list hop) (h : History) : Prop := mkTableOk {
  table_sorted : StronglySorted older (rows h);
  table_fresh : Forall (fun r => row_id r < next_id h) (rows h);
  table_stored : Forall (fun r => exists o, o ∈ os /\ stored_by o r) (rows h);
}.

Lemma strongly_sorted_snoc {A} (R : A -> A -> Prop) l x :
  StronglySorted R l -> Forall (fun y => R y x) l -> StronglySorted R (l ++ [x]).
Proof.
  induction 1 as [|a l Hl IH Ha]; intros Hx; cbn [app]; [by repeat constructor|].
  apply Forall_cons in Hx as [Hax Hx]. constructor; [by apply IH|]. apply Forall_app. by repeat constructor.
Qed.

Lemma forall_sublist {A} (P : A -> Prop) l k : l `sublist_of` k -> Forall P k -> Forall P l.
Proof.
  induction 1 as [|x l k Hs IH|x l k Hs IH]; intros Hk; [done| |]; apply Forall_cons in Hk as [Hx Hk];
    [constructor; auto|auto].
Qed.

Lemma strongly_sorted_sublist {A} (R : A -> A -> Prop) l k :
  l `sublist_of` k -> StronglySorted R k -> StronglySorted R l.
Proof.
  induction 1 as [|x l k Hs IH|x l k Hs IH]; intros Hk; [done| |]; inversion Hk as [|? ? Hk' Hx]; subst.
  - constructor; [by apply IH|]. by eapply forall_sublist.
  - by apply IH.
Qed.

(** Removing rows keeps the table in order. *)
Lemma table_ok_sublist os h rs n :
  rs `sublist_of` rows h -> next_id h <= n -> table_ok os h -> table_ok os (mkHistory rs n).
Proof.
  intros Hs Hn [H1 H2 H3]. split; cbn.
  - by eapply strongly_sorted_sublist.
  - apply (Forall_impl (fun r => row_id r < next_id h)); [by eapply forall_sublist|]. intros r Hr. simpl in *. lia.
  - by eapply forall_sublist.
Qed.

Lemma table_ok_more os o h : table_ok os h -> table_ok (os ++ [o]) h.
Proof.
  intros [H1 H2 H3]. split; [done|done|]. eapply Forall_impl; [exact H3|]. intros r (x & Hx & Hr).
  exists x. split; [|done]. apply elem_of_app. by left.
Qed.

Lemma sublist_filter {A} (P : A -> Prop) `{forall x, Decision (P x)} (l : list A) : filter P l `sublist_of` l.
Proof.
  induction l as [|x l IH]; [done|]. rewrite filter_cons. case_decide; [by apply sublist_skip|by apply sublist_cons].
Qed.

Lemma sublist_drop_of {A} n (l : list A) : drop n l `sublist_of` l.
Proof. apply sublist_drop. Qed.

Lemma run_ok os : table_ok os (run_history os).
Proof.
  induction os as [|o os IH] using rev_ind; [by repeat constructor|].
  unfold run_history in *. rewrite foldl_app. cbn [foldl]. set (h := foldl _ _ os) in *.
  apply (table_ok_more _ o) in IH. destruct o as [s argv level at_ms|p|a k]; cbn [do_hop].
  - unfold record_command. case_decide; [done|]. cbn [snd]. destruct IH as [H1 H2 H3]. split; cbn.
    + apply strongly_sorted_snoc; [done|]. eapply Forall_impl; [exact H2|done].
    + apply Forall_app. split; [eapply Forall_impl; [exact H2|simpl; lia]|]. repeat constructor. simpl. lia.
    + apply Forall_app. split; [done|]. repeat constructor. exists (Record_ s argv level at_ms).
      split; [apply elem_of_app; right; by left|]. done.
  - eapply table_ok_sublist; [|reflexivity|exact IH]. apply sublist_filter.
  - unfold prune. cbn [snd]. eapply table_ok_sublist; [|reflexivity|exact IH].
    etrans; [apply sublist_drop_of|apply sublist_filter].
Qed.

Lemma sublist_reverse_filter {A} (P : A -> Prop) `{forall x, Decision (P x)} (l : list A) n :
  take n (filter P (reverse l)) `sublist_of` reverse l.
Proof. etrans; [apply sublist_take|apply sublist_filter]. Qed.

Lemma sorted_reverse {A} (R : A -> A -> Prop) l : StronglySorted R l -> StronglySorted (fun x y => R y x) (reverse l).
Proof.
  induction 1 as [|a l Hl IH Ha]; [constructor|]. rewrite reverse_cons. apply strongly_sorted_snoc; [done|].
  by apply Forall_reverse.
Qed.

Lemma sorted_fmap {A B} (f : A -> B) (R : A -> A -> Prop) (Q : B -> B -> Prop) l :
  (forall x y, R x y -> Q (f x) (f y)) -> StronglySorted R l -> StronglySorted Q (f <$> l).
Proof.
  intros HR. induction 1 as [|a l Hl IH Ha]; cbn [fmap list_fmap]; constructor; [done|].
  apply Forall_fmap. eapply Forall_impl; [exact Ha|]. intros y Hy. by apply HR.
Qed.

(** Whatever was recorded, cleared and pruned, the entries offered for a
    scope were recorded under that scope and are what redaction left of their
    commands, newest first, at most the number asked for; and after clearing a
    profile nothing of it is offered. *)
Theorem recent_scoped os s limit : 0 <= limit ->
  let h := run_history os in
  let es := recent s limit h in
  (forall e, e ∈ es -> exists s' argv level,
     Record_ s' argv level (entry_at e) ∈ os /\ parts e = redact blake3 upper argv level /\
     scope_uuid s' = scope_uuid s /\ scope_database s' = scope_database s /\
     clamp_i64 (scope_identity s') = clamp_i64 (scope_identity s)) /\
  StronglySorted (fun e e' => entry_id e' < entry_id e) es /\
  zlen es <= limit /\
  recent s limit (clear (Some (scope_uuid s)) h).2 = [].
Proof.
  intros Hl h es. pose proof (run_ok os) as [H1 H2 H3]. fold h in H1, H2, H3. split_and!.
  - intros e (r & -> & Hr)%list_elem_of_fmap.
    assert (Hin : r ∈ filter (in_scope s) (reverse (rows h))) by (by eapply subseteq_take in Hr).
    apply list_elem_of_filter in Hin as [(Hu & Hi & Hd) Hin]. rewrite elem_of_reverse in Hin.
    rewrite Forall_forall in H3. destruct (H3 r Hin) as ([s' argv level at_ms| |] & Ho & Hs); try done.
    destruct Hs as ((Hu' & Hi' & Hd') & Ha & Hp). exists s', argv, level.
    cbn [entry_of entry_at parts]. rewrite Ha, Hp, of_to_text. split_and!; [done|done|congruence..].
  - unfold es, recent. apply (sorted_fmap _ (fun r r' => older r' r)); [done|].
    eapply strongly_sorted_sublist; [apply sublist_reverse_filter|]. by apply sorted_reverse.
  - unfold es, recent, zlen. rewrite length_fmap, length_take.
    assert (clamp_i64 limit <= limit) by (unfold clamp_i64; case_decide; lia).
    assert (0 <= clamp_i64 limit) by (unfold clamp_i64; case_decide; [lia|unfold i64_max; lia]). lia.
  - unfold recent, clear. cbn [snd rows].
    match goal with |- _ <$> take _ ?l = [] => assert (l = []) as ->; [|by rewrite take_nil] end.
    apply elem_of_nil_inv. intros r [[Hu _] Hr]%list_elem_of_filter.
    rewrite elem_of_reverse, list_elem_of_filter in Hr. destruct Hr as [Hr _]. cbn in Hr.
    by rewrite bool_decide_true in Hr.
Qed.

End Table.

(** ** Witnesses *)

(** A parts text: the parts with their lengths, and its reader. *)
Definition sample_to_text (ps : list str) : str := ps ≫= (fun p => zlen p :: p).
Fixpoint sample_of_text (fuel : nat) (t : str) : option (list str) :=
  match fuel, t with
  | _, [] => Some []
  | O, _ => None
  | S f, n :: r => cons (take (Z.to_nat n) r) <$> sample_of_text f (drop (Z.to_nat n) r)
  end.
#[export] Instance sample_parts : PartsText :=
  {| to_text := sample_to_text; of_text t := sample_of_text (length t) t |}.

Lemma sample_of_to ps : forall f, (length (sample_to_text ps) <= f)%nat ->
  sample_of_text f (sample_to_text ps) = Some ps.
Proof.
  induction ps as [|p ps IH]; intros f Hf; [by destruct f|].
  unfold sample_to_text in *. cbn [mbind list_bind app] in *. rewrite ?app_comm_cons, length_app in Hf.
  cbn [length] in Hf. destruct f as [|f]; [lia|]. cbn [app sample_of_text]. unfold zlen. rewrite Nat2Z.id.
  rewrite take_app_length, drop_app_length. setoid_rewrite IH; [done|]. lia.
Qed.

#[export] Instance sample_parts_laws : PartsTextLaws (H := sample_parts).
Proof. split. intros p. by apply sample_of_to. Qed.

Definition sample_hash (b : bytes) : bytes := take 32 (b ++ replicate 32 x00).
Definition no_upper (c : Z) : str := [c].

Lemma redaction_reveals_witness :
  redact sample_hash no_upper [bs "auth"; bs "hunter2"] KeepAll
  = redact sample_hash no_upper [bs "auth"; bs "swordfish"] KeepAll.
Proof.
  apply (redaction_reveals sample_hash no_upper (bs "auth") [bs "hunter2"] [bs "swordfish"] KeepAll).
  apply List.Forall2_cons; [right; split; [vm_compute; reflexivity|split; [vm_compute; reflexivity|exact I]]|].
  apply List.Forall2_nil.
Defined.

Lemma submittable_recalls_witness :
  exists toks, split_args (encode_str (entry_line
      (mkEntry 1 (redact sample_hash no_upper [bs "set"; bs "my key"; bs "1"; bs "nx"] KeepAll) 0))) = Ok toks /\
    map token_bytes toks = [bs "SET"; bs "my key"; bs "1"; bs "NX"].
Proof.
  exact (submittable_recalls sample_hash no_upper (bs "set") [bs "my key"; bs "1"; bs "nx"] KeepAll 1 0
           ltac:(vm_compute; reflexivity) ltac:(vm_compute; reflexivity)).
Defined.

Definition dev_scope : Scope := mkScope (chars "dev") 1 0.
Definition prod_scope : Scope := mkScope (chars "prod") 1 0.
Definition sample_history : list hop :=
  [Record_ dev_scope [bs "get"; bs "a"] KeepAll 10; Record_ prod_scope [bs "get"; bs "b"] AllArguments 20;
   Record_ dev_scope [bs "get"; bs "c"] KeepAll 30].

Lemma recent_scoped_witness :
  recent dev_scope 10 (run_history sample_hash no_upper sample_history)
    = [mkEntry 3 [chars "GET"; chars "c"] 30; mkEntry 1 [chars "GET"; chars "a"] 10]
  /\ recent dev_scope 10 (clear (Some (chars "dev")) (run_history sample_hash no_upper sample_history)).2 = [].
Proof.
  split; [vm_compute; reflexivity|].
  destruct (recent_scoped sample_hash no_upper sample_history dev_scope 10 ltac:(lia)) as (_ & _ & _ & H).
  exact H.
Defined.

(** ** What the module's comments promise and the code does not do *)

(** The loosest level is said never to store values; it stores every argument,
    the value of a write included. *)
Lemma values_are_stored :
  redact sample_hash no_upper [bs "SET"; bs "token"; bs "s3cret"] KeepAll
  = [chars "SET"; chars "token"; chars "s3cret"].
Proof. vm_compute. reflexivity. Qed.

(** Arguments that read as option keywords are kept in clear at every level,
    also where they are the password. *)
Lemma keyword_password_is_stored :
  redact sample_hash no_upper [bs "AUTH"; bs "alpha"] AllArguments = [chars "AUTH"; chars "ALPHA"].
Proof. vm_compute. reflexivity. Qed.
