(* ===== verification/Local.v ===== *)
(** * The grammar of local commands ([crates/pr-repl/src/local.rs])

    Lines that start with a colon.  Not the Redis tokenizer: it has options, and
    quotes may stand inside a word.  The Unicode lower-case table is [lower_table]. *)

From S2P Require Import Prelude Text TextFacts.

Inductive LocalError :=
| NotLocal
| MissingName
| UnbalancedQuotes
| DuplicateOption (name : str)
| MissingOptionValue (name : str).

Record LocalCommand := mkLocal {
  local_name : str;
  options : gmap str bytes;
  positionals : list bytes;
  free_text : option str;
}.

Definition FREE_TEXT_COMMANDS : list str := [chars "find"; chars "help"].

Abbreviation dq := x22.
Abbreviation sq := x27.
Abbreviation bslash := x5c.

(** ** Words *)

Definition simple_unescape (e : byte) : byte :=
  if decide (e = "n"%byte) then x0a
  else if decide (e = "t"%byte) then x09
  else if decide (e = "r"%byte) then x0d
  else e.

(** [unquote], the escapes of a double-quoted part. *)
Fixpoint unquote (fuel : nat) (double : bool) (seg : bytes) : bytes :=
  match fuel, seg with
  | O, _ | _, [] => []
  | S f, c :: r =>
      match r with
      | e :: r' =>
          if double && bool_decide (c = bslash) then
            match (if decide (e = "x"%byte) then
                     match r' with
                     | h :: l :: r'' =>
                         match hex_value h, hex_value l with
                         | Some a, Some b => Some (zb (a * 16 + b), r'')
                         | _, _ => None
                         end
                     | _ => None
                     end
                   else None) with
            | Some (b, r'') => b :: unquote f double r''
            | None => simple_unescape e :: unquote f double r'
            end
          else c :: unquote f double r
      | [] => [c]
      end
  end.
Definition unquote_segment (double : bool) (seg : bytes) : bytes := unquote (S (length seg)) double seg.

(** The loop that looks for the closing quote: how far it is, [None] at the end
    of the line.  In double quotes a backslash takes the next byte with it. *)
Fixpoint find_close (q : byte) (s : bytes) : option nat :=
  match s with
  | [] => None
  | c :: r =>
      if decide (c = q) then Some O
      else if bool_decide (q = dq) && bool_decide (c = bslash) then
        match r with
        | [] => None
        | _ :: r' => (fun n => S (S n)) <$> find_close q r'
        end
      else S <$> find_close q r
  end.

(** One word: its bytes and what follows it. *)
Fixpoint word (fuel : nat) (cur s : bytes) : result LocalError (bytes * bytes) :=
  match fuel with
  | O => Ok (cur, s)
  | S f =>
      match s with
      | [] => Ok (cur, [])
      | c :: r =>
          if is_ascii_whitespace c then Ok (cur, s)
          else if decide (c = dq \/ c = sq) then
            match find_close c r with
            | None => Err UnbalancedQuotes
            | Some n => word f (cur ++ unquote_segment (bool_decide (c = dq)) (take n r)) (drop (S n) r)
            end
          else word f (cur ++ [c]) r
      end
  end.

Fixpoint skip_blanks (s : bytes) : bytes :=
  match s with
  | c :: r => if is_ascii_whitespace c then skip_blanks r else s
  | [] => []
  end.

Fixpoint segments_loop (fuel : nat) (s : bytes) : result LocalError (list bytes) :=
  match fuel with
  | O => Ok []
  | S f =>
      match skip_blanks s with
      | [] => Ok []
      | s' =>
          let? wr := word (S (length s')) [] s' in
          let? rest := segments_loop f wr.2 in
          Ok (wr.1 :: rest)
      end
  end.
Definition segments (b : bytes) : result LocalError (list bytes) := segments_loop (S (length b)) b.

(** ** Options and positionals *)

Definition dashes : bytes := bs "--".
Definition starts_with_dashes (s : bytes) : bool :=
  match s with
  | a :: b :: _ => bool_decide (a = "-"%byte /\ b = "-"%byte)
  | _ => false
  end.

(** The first [=] of an option's body. *)
Fixpoint split_equals (body : bytes) : bytes * option bytes :=
  match body with
  | [] => ([], None)
  | c :: r => if decide (c = "="%byte) then ([], Some r)
              else let '(k, v) := split_equals r in (c :: k, v)
  end.

Record Parsed := mkParsed { p_options : gmap str bytes; p_positionals : list bytes; p_free : list str }.

Fixpoint arguments (free only_positional : bool) (acc : Parsed) (rest : list bytes)
  : result LocalError Parsed :=
  match rest with
  | [] => Ok acc
  | seg :: r =>
      if negb only_positional && bool_decide (seg = dashes) then arguments free true acc r
      else if negb only_positional && starts_with_dashes seg && bool_decide (2 < zlen seg) then
        let '(k, inline) := split_equals (drop 2 seg) in
        let key := from_utf8_lossy k in
        let insert_option v := mkParsed (<[key := v]> (p_options acc)) (p_positionals acc) (p_free acc) in
        match p_options acc !! key with
        | Some _ => Err (DuplicateOption key)
        | None =>
            match inline with
            | Some v => arguments free only_positional (insert_option v) r
            | None =>
                match r with
                | n :: r' =>
                    if negb (starts_with_dashes n) then arguments free only_positional (insert_option n) r'
                    else arguments free only_positional (insert_option []) r
                | [] => arguments free only_positional (insert_option []) r
                end
            end
        end
      else
        let acc := if free then mkParsed (p_options acc) (p_positionals acc) (p_free acc ++ [from_utf8_lossy seg])
                   else mkParsed (p_options acc) (p_positionals acc ++ [seg]) (p_free acc) in
        arguments free only_positional acc r
  end.

Section Parse.
Context (lower_table : Z -> str).

(** [str::to_lowercase]. *)
Definition to_lowercase (s : str) : str :=
  s ≫= (fun c => if decide (c < 128) then [if decide (65 <= c <= 90) then c + 32 else c] else lower_table c).

Definition parse_local (line : bytes) : result LocalError LocalCommand :=
  match line with
  | c :: t =>
      if decide (c = ":"%byte) then
        let? segs := segments t in
        match segs with
        | [] | [] :: _ => Err MissingName
        | name_raw :: rest =>
            let name := to_lowercase (from_utf8_lossy name_raw) in
            let free := bool_decide (name ∈ FREE_TEXT_COMMANDS) in
            let? p := arguments free false (mkParsed ∅ [] []) rest in
            Ok (mkLocal name (p_options p) (p_positionals p)
                  (match p_free p with [] => None | fs => Some (join [32] fs) end))
        end
      else Err NotLocal
  | [] => Err NotLocal
  end.

End Parse.

(** ** Writing a command

    Every word between double quotes, every byte of it as [\xHH]. *)

Definition hex_escaped (b : byte) : bytes := bslash :: "x"%byte :: hex2 b.
Definition quoted_word (s : bytes) : bytes := [dq] ++ (s ≫= hex_escaped) ++ [dq].
Definition print_words (ws : list bytes) : bytes := ws ≫= (fun w => x20 :: quoted_word w).

Lemma find_close_escape b r : find_close dq (hex_escaped b ++ r) = (fun n => (4 + n)%nat) <$> find_close dq r.
Proof. destruct b; cbn; by destruct (find_close dq r). Qed.

Lemma find_close_word s r : find_close dq ((s ≫= hex_escaped) ++ dq :: r) = Some (4 * length s)%nat.
Proof.
  induction s as [|b s IH]; [reflexivity|]. rewrite bind_cons, <- app_assoc, find_close_escape, IH.
  cbn [fmap option_fmap option_map length]. f_equal. lia.
Qed.

Lemma escaped_length s : length (s ≫= hex_escaped) = (4 * length s)%nat.
Proof. induction s as [|b s IH]; [done|]. rewrite bind_cons, length_app, IH. cbn. lia. Qed.

Lemma unquote_escape f b r : unquote (S f) true (hex_escaped b ++ r) = b :: unquote f true r.
Proof. destruct b; reflexivity. Qed.

Lemma unquote_word s f : (length s < f)%nat -> unquote f true (s ≫= hex_escaped) = s.
Proof.
  revert f. induction s as [|b s IH]; intros [|f] Hf; cbn [length] in Hf; [lia|done|lia|].
  rewrite bind_cons, unquote_escape, IH by lia. done.
Qed.

Lemma drop_closing {A} (l : list A) x r : drop (S (length l)) (l ++ x :: r) = r.
Proof. induction l; cbn; auto. Qed.

(** A quoted word adds its bytes to the word, whatever they are. *)
Lemma word_quoted f cur s r : word (S f) cur (quoted_word s ++ r) = word f (cur ++ s) r.
Proof.
  unfold quoted_word. rewrite <- !app_assoc. cbn [app word].
  change (is_ascii_whitespace dq) with false. cbv iota.
  rewrite decide_True by auto. rewrite find_close_word, bool_decide_true by done.
  rewrite <- escaped_length, drop_closing, take_app_length. unfold unquote_segment.
  rewrite unquote_word; [done|rewrite escaped_length; lia].
Qed.

Lemma word_end f cur r : is_ascii_whitespace (default x20 (head r)) = true -> word (S f) cur r = Ok (cur, r).
Proof. destruct r as [|c r]; cbn; [done|]. by intros ->. Qed.

Lemma print_words_head ws : is_ascii_whitespace (default x20 (head (print_words ws))) = true.
Proof. by destruct ws. Qed.

Lemma segments_print ws f : (length ws < f)%nat -> segments_loop f (print_words ws) = Ok ws.
Proof.
  revert f. induction ws as [|w ws IH]; intros [|f] Hf; cbn [length] in Hf; [lia|done|lia|].
  cbn [segments_loop]. change (print_words (w :: ws)) with (x20 :: quoted_word w ++ print_words ws).
  cbn [skip_blanks]. change (is_ascii_whitespace x20) with true. cbv iota.
  assert (Hl : exists n, length (quoted_word w ++ print_words ws) = S n) by (by eexists).
  destruct Hl as [n Hn].
  change (quoted_word w ++ print_words ws) with (dq :: ((w ≫= hex_escaped) ++ [dq]) ++ print_words ws) at 1.
  cbn [skip_blanks]. change (is_ascii_whitespace dq) with false. cbv iota.
  change (dq :: ((w ≫= hex_escaped) ++ [dq]) ++ print_words ws) with (quoted_word w ++ print_words ws).
  rewrite Hn, word_quoted, word_end by apply print_words_head. cbn [rbind fst snd app].
  rewrite IH by lia. done.
Qed.

(** Writing then splitting gives the words back. *)
Lemma segments_print_words w ws : segments (quoted_word w ++ print_words ws) = Ok (w :: ws).
Proof.
  assert (H : forall v, (length v <= length (print_words v))%nat).
  { induction v as [|x v IH]; [done|]. change (print_words (x :: v)) with (x20 :: quoted_word x ++ print_words v).
    cbn [length]. rewrite length_app. lia. }
  unfold segments. pose proof (H ws). rewrite length_app.
  rewrite <- (segments_print (w :: ws) (S (length (quoted_word w) + length (print_words ws)))).
  - done.
  - cbn [quoted_word app length]. lia.
Qed.

(** ** Reading the words back *)

(** An option written as one word. *)
Definition option_word (o : str * bytes) : bytes := dashes ++ encode_str o.1 ++ "="%byte :: o.2.

Definition key_ok (k : str) : Prop := Forall scalar k /\ (("="%byte : byte) ∉ encode_str k).

Lemma split_equals_first k v : ("="%byte : byte) ∉ k -> split_equals (k ++ "="%byte :: v) = (k, Some v).
Proof.
  induction k as [|c k IH]; intros Hk; [done|]. cbn [app split_equals].
  apply not_elem_of_cons in Hk as [Hc Hk]. rewrite decide_False by congruence. by rewrite IH.
Qed.

Lemma arguments_option free acc k v r :
  key_ok k ->
  arguments free false acc (option_word (k, v) :: r)
  = match p_options acc !! k with
    | Some _ => Err (DuplicateOption k)
    | None => arguments free false (mkParsed (<[k := v]> (p_options acc)) (p_positionals acc) (p_free acc)) r
    end.
Proof.
  intros [Hs He]. change (option_word (k, v)) with ("-"%byte :: "-"%byte :: encode_str k ++ "="%byte :: v).
  set (w := "-"%byte :: _). cbn [arguments]. rewrite (bool_decide_false (w = dashes))
    by (intros E; apply (f_equal length) in E; cbn in E; rewrite length_app in E; cbn in E; lia).
  rewrite (bool_decide_true (2 < zlen w)).
  2: { subst w. autorewrite with zlen. pose proof (zlen_nonneg (encode_str k)). pose proof (zlen_nonneg v). lia. }
  change (starts_with_dashes w) with true. change (drop 2 w) with (encode_str k ++ "="%byte :: v).
  cbn [negb andb]. rewrite split_equals_first, from_utf8_lossy_encode by done. done.
Qed.

Lemma arguments_options free os acc r :
  Forall (fun o => key_ok o.1) os -> NoDup os.*1 -> Forall (fun o => p_options acc !! o.1 = None) os ->
  arguments free false acc ((option_word <$> os) ++ r)
  = arguments free false (mkParsed (list_to_map os ∪ p_options acc) (p_positionals acc) (p_free acc)) r.
Proof.
  revert acc. induction os as [|[k v] os IH]; intros [o p q] Hk Hd Hn; cbn [p_options p_positionals p_free] in *.
  { by rewrite list_to_map_nil, (left_id_L ∅ (∪)). }
  apply Forall_cons in Hk as [Hk Hks]. apply Forall_cons in Hn as [Hn Hns]. apply NoDup_cons in Hd as [Hkd Hd].
  cbn [fmap list_fmap app]. rewrite arguments_option by done. cbn [p_options p_positionals p_free fst] in *.
  rewrite Hn, IH; cbn [p_options p_positionals p_free]; [|done|done|].
  - do 2 f_equal. rewrite list_to_map_cons, <- insert_union_l, insert_union_r; [done|].
    by apply not_elem_of_list_to_map.
  - apply Forall_forall. intros [k' v'] Hin. cbn. rewrite Forall_forall in Hns.
    rewrite lookup_insert_ne; [by apply (Hns _ Hin)|]. intros ->. apply Hkd. apply list_elem_of_fmap. by exists (k', v').
Qed.

(** After [--] every word is an argument. *)
Lemma arguments_positional free acc ws :
  arguments free true acc ws
  = Ok (mkParsed (p_options acc) (p_positionals acc ++ if free then [] else ws)
          (p_free acc ++ if free then from_utf8_lossy <$> ws else [])).
Proof.
  revert acc. induction ws as [|w ws IH]; intros [o p q]; cbn [arguments].
  - by destruct free; rewrite !app_nil_r.
  - cbn [negb andb]. rewrite IH. destruct free; cbn; by rewrite <- ?app_assoc, ?app_nil_r.
Qed.

(** ** The round trip *)

Section RoundTrip.
Context (lower_table : Z -> str).

Definition print_local (name : str) (os : list (str * bytes)) (ws : list bytes) : bytes :=
  ":"%byte :: quoted_word (encode_str name) ++ print_words ((option_word <$> os) ++ dashes :: ws).

Definition name_ok (name : str) : Prop :=
  name <> [] /\ Forall scalar name /\ to_lowercase lower_table name = name.

Lemma parse_words name ws p :
  name_ok name ->
  arguments (bool_decide (name ∈ FREE_TEXT_COMMANDS)) false (mkParsed ∅ [] []) ws = Ok p ->
  parse_local lower_table (":"%byte :: quoted_word (encode_str name) ++ print_words ws)
  = Ok (mkLocal name (p_options p) (p_positionals p)
          (match p_free p with [] => None | fs => Some (join [32] fs) end)).
Proof.
  intros (Hn & Hs & Hl) Hp. cbn [parse_local]. rewrite decide_True, segments_print_words by done. cbn [rbind].
  destruct (encode_str name) as [|b r] eqn:E.
  { exfalso. apply Hn. rewrite <- (from_utf8_lossy_encode name Hs), E. done. }
  rewrite <- E, from_utf8_lossy_encode, Hl by done. by rewrite Hp.
Qed.

(** A command written with every word quoted reads back: the same name,
    options and positional arguments, whatever bytes they hold. *)
Theorem local_roundtrip name os ws :
  name_ok name -> (name ∉ FREE_TEXT_COMMANDS) -> Forall (fun o => key_ok o.1) os -> NoDup os.*1 ->
  parse_local lower_table (print_local name os ws) = Ok (mkLocal name (list_to_map os) ws None).
Proof.
  intros Hn Hf Hk Hd. unfold print_local.
  rewrite (parse_words _ _ (mkParsed (list_to_map os) ws [])) by
    (done || (rewrite bool_decide_false, arguments_options by (done || by apply Forall_true);
              cbn [arguments p_options p_positionals p_free]; rewrite arguments_positional; cbn;
              by rewrite (right_id_L ∅ (∪)))).
  done.
Qed.

(** A repeated option is refused, whatever its values and whatever follows. *)
Lemma local_duplicate name os k v ws :
  name_ok name -> Forall (fun o => key_ok o.1) os -> NoDup os.*1 -> k ∈ os.*1 ->
  match parse_local lower_table (":"%byte :: quoted_word (encode_str name)
          ++ print_words ((option_word <$> os) ++ option_word (k, v) :: ws)) with
  | Err e => e = DuplicateOption k
  | Ok _ => False
  end.
Proof.
  intros (Hn & Hs & Hl) Hk Hd Hin. cbn [parse_local]. rewrite decide_True, segments_print_words by done. cbn [rbind].
  destruct (encode_str name) as [|b r] eqn:E.
  { exfalso. apply Hn. rewrite <- (from_utf8_lossy_encode name Hs), E. done. }
  rewrite <- E, from_utf8_lossy_encode, Hl by done.
  rewrite arguments_options by (done || by apply Forall_true). rewrite arguments_option.
  - cbn [p_options]. rewrite (right_id_L ∅ (∪)). apply list_elem_of_fmap in Hin as ([k' v'] & -> & Hin).
    cbn [fst]. by rewrite (elem_of_list_to_map_1 _ _ _ Hd Hin).
  - apply list_elem_of_fmap in Hin as (o & -> & Hin). by rewrite Forall_forall in Hk; apply (Hk o).
Qed.

Lemma word_error f cur s e : word f cur s = Err e -> e = UnbalancedQuotes.
Proof.
  revert cur s. induction f as [|f IH]; intros cur s; cbn [word]; [done|].
  destruct s as [|c r]; [done|]. case_match; [done|]. case_decide; [case_match; [by apply IH|congruence]|by apply IH].
Qed.

Lemma segments_error f s e : segments_loop f s = Err e -> e = UnbalancedQuotes.
Proof.
  revert s. induction f as [|f IH]; intros s; cbn [segments_loop]; [done|].
  destruct (skip_blanks s) as [|c r]; [done|].
  destruct (word _ _ _) as [wr|e'] eqn:E; cbn [rbind];
    [|by intros [= <-]; apply word_error in E].
  destruct (segments_loop f wr.2) eqn:E'; cbn [rbind]; [done|]. intros [= <-]. by eapply IH.
Qed.

Lemma arguments_error free only acc ws e :
  arguments free only acc ws = Err e -> exists k, e = DuplicateOption k.
Proof.
  revert only acc. induction ws as [ws IH] using (induction_ltof1 _ length). unfold ltof in IH.
  intros only acc. destruct ws as [|w r]; cbn [arguments]; [done|].
  repeat case_match; cbn [length] in IH;
    first [ done | by eauto | by intros [= <-]; eauto | by intros H'; eapply IH in H'; eauto; cbn [length]; lia ].
Qed.

(** No line is refused for an option without a value: [MissingOptionValue] has no producer. *)
Lemma missing_value_never line e k : parse_local lower_table line = Err e -> e <> MissingOptionValue k.
Proof.
  destruct line as [|c t]; cbn [parse_local]; [congruence|]. case_decide; [|congruence].
  destruct (segments t) as [segs|e'] eqn:E; cbn [rbind];
    [|intros [= <-]; apply segments_error in E; congruence].
  destruct segs as [|[|b n] rest]; [congruence..|].
  destruct (arguments _ _ _ _) as [p|e'] eqn:Ea; cbn [rbind]; [done|]. intros [= <-].
  apply arguments_error in Ea as [k' ->]. done.
Qed.

(** Free text is split, unquoted and read for options like any other line. *)
Lemma free_text_is_split :
  parse_local lower_table (bs ":find delete --all  'all  keys'   now")
  = Ok (mkLocal (chars "find") {[ chars "all" := bs "all  keys" ]} [] (Some (chars "delete now"))).
Proof. reflexivity. Qed.

(** Quotes do not keep a word from being an option. *)
Lemma quoted_word_is_option :
  parse_local lower_table (bs ":send '--raw'")
  = Ok (mkLocal (chars "send") {[ chars "raw" := [] ]} [] None).
Proof. reflexivity. Qed.

End RoundTrip.

Lemma local_roundtrip_witness :
  parse_local (fun _ => []) (print_local (chars "complete") [(chars "prefix", bs "a b")] [bs "--x"; []])
  = Ok (mkLocal (chars "complete") {[ chars "prefix" := bs "a b" ]} [bs "--x"; []] None).
Proof.
  apply (local_roundtrip (fun _ => []) (chars "complete") [(chars "prefix", bs "a b")] [bs "--x"; []]).
  - split; [done|]. split; [|reflexivity]. repeat (apply Forall_cons; split; [unfold scalar; vm_compute; intuition congruence|]). constructor.
  - apply (bool_decide_unpack _); vm_compute; exact I.
  - apply Forall_cons; split; [|constructor]. split.
    + repeat (apply Forall_cons; split; [unfold scalar; vm_compute; intuition congruence|]). constructor.
    + apply (bool_decide_unpack _); vm_compute; exact I.
  - apply (bool_decide_unpack _); vm_compute; exact I.
Defined.
