(* ===== verification/Ordered.v ===== *)
(** * Ordered strings and sorted lists

    What the catalog needs of Rust's [Ord for str], [sort], [dedup] and the
    iteration order of a [BTreeMap].  A [str] compares by the bytes of its UTF-8,
    which is the order of its scalar values. *)

From Stdlib Require Export Sorting.Sorted.
From S2P Require Import Prelude Text.

Fixpoint lex_le (s t : str) : bool :=
  match s, t with
  | [], _ => true
  | _ :: _, [] => false
  | a :: s', b :: t' => if decide (a < b) then true else if decide (a = b) then lex_le s' t' else false
  end.
Definition lex_lt (s t : str) : bool := lex_le s t && negb (bool_decide (s = t)).

(** A pair compares by its first component, then by its second. *)
Definition pair_le (p q : str * str) : bool :=
  if decide (p.1 = q.1) then lex_le p.2 q.2 else lex_le p.1 q.1.

(** [slice::sort_by]: insertion, which keeps the order of equals. *)
Fixpoint insert_by {A} (le : A -> A -> bool) (x : A) (l : list A) : list A :=
  match l with
  | [] => [x]
  | y :: r => if le x y then x :: l else y :: insert_by le x r
  end.
Definition sort_by {A} (le : A -> A -> bool) (l : list A) : list A := foldr (insert_by le) [] l.

(** [Vec::dedup]: an element equal to the one before it goes. *)
Fixpoint dedup {A} `{EqDecision A} (l : list A) : list A :=
  match l with
  | [] => []
  | x :: r => match dedup r with
              | y :: r' => if decide (x = y) then y :: r' else x :: y :: r'
              | [] => [x]
              end
  end.

(** The keys of a [BTreeMap<String, _>] in the order of its iteration. *)
Definition keys {A} (m : gmap str A) : list str := sort_by lex_le (map_to_list m).*1.

(** ** Decided orders: total, and total without ties *)

Class TotalPre {A} (le : A -> A -> bool) : Prop := {
  le_refl x : le x x = true;
  le_total x y : le x y = true \/ le y x = true;
  le_trans x y z : le x y = true -> le y z = true -> le x z = true;
}.

Class TotalLe {A} (le : A -> A -> bool) : Prop := {
  le_pre :: TotalPre le;
  le_antisym x y : le x y = true -> le y x = true -> x = y;
}.

#[export] Instance lex_le_pre : TotalPre lex_le.
Proof.
  split.
  - induction x as [|a x IH]; cbn [lex_le]; [done|]. rewrite decide_False by lia. by rewrite decide_True.
  - induction x as [|a x IH]; intros [|b y]; cbn [lex_le]; auto.
    destruct (decide (a < b)); [by left|]. destruct (decide (b < a)); [by right|].
    assert (a = b) as -> by lia. rewrite !decide_True by done. apply IH.
  - induction x as [|a x IH]; intros [|b y] [|c z]; cbn [lex_le]; try done.
    repeat case_decide; try lia; try done. by apply IH.
Qed.

#[export] Instance lex_le_total : TotalLe lex_le.
Proof.
  split; [apply _|]. induction x as [|a x IH]; intros [|b y]; cbn [lex_le]; try done.
  repeat case_decide; try lia; try done. intros ??. f_equal; [lia|by apply IH].
Qed.

#[export] Instance pair_le_pre : TotalPre pair_le.
Proof.
  split; unfold pair_le.
  - intros [a b]. cbn. rewrite decide_True by done. apply le_refl.
  - intros [a b] [c d]. cbn. destruct (decide (a = c)) as [->|Hn].
    + rewrite decide_True by done. apply le_total.
    + rewrite decide_False by congruence. apply le_total.
  - intros [a b] [c d] [e f]. cbn. destruct (decide (a = c)) as [->|Hn], (decide (c = e)) as [->|Hm]; intros H1 H2.
    + rewrite ?decide_True by done. by eapply le_trans.
    + by rewrite ?decide_False.
    + by rewrite ?decide_False.
    + destruct (decide (a = e)) as [->|]; [|by eapply le_trans].
      exfalso. apply Hn. by apply le_antisym.
Qed.

#[export] Instance pair_le_total : TotalLe pair_le.
Proof.
  split; [apply _|]. intros [a b] [c d]. unfold pair_le. cbn. destruct (decide (a = c)) as [->|Hn]; intros H1 H2.
  - rewrite decide_True in H2 by done. f_equal. by apply le_antisym.
  - rewrite decide_False in H2 by congruence. exfalso. apply Hn. by apply le_antisym.
Qed.

Lemma lex_lt_irrefl s : lex_lt s s = false.
Proof. unfold lex_lt. rewrite bool_decide_true by done. by rewrite andb_false_r. Qed.

Lemma lex_lt_trans s t u : lex_lt s t = true -> lex_lt t u = true -> lex_lt s u = true.
Proof.
  unfold lex_lt. rewrite !andb_true_iff, !negb_true_iff, !bool_decide_eq_false. intros [H1 N1] [H2 N2].
  split; [by eapply le_trans|]. intros ->. apply N1. by apply le_antisym.
Qed.

Section Sorted.
Context {A : Type} (le : A -> A -> bool) `{!TotalPre le}.

Lemma insert_by_perm x l : insert_by le x l ≡ₚ x :: l.
Proof.
  induction l as [|y l IH]; cbn [insert_by]; [done|]. case_match; [done|]. rewrite IH. apply perm_swap.
Qed.

Lemma sort_by_perm l : sort_by le l ≡ₚ l.
Proof. induction l as [|x l IH]; [done|]. cbn [sort_by foldr]. by rewrite insert_by_perm, IH. Qed.

Lemma insert_by_sorted x l : StronglySorted (fun a b => le a b = true) l ->
  StronglySorted (fun a b => le a b = true) (insert_by le x l).
Proof.
  induction 1 as [|y l Hs IH Hy]; cbn [insert_by]; [by repeat constructor|]. destruct (le x y) eqn:E.
  - constructor; [by constructor|]. constructor; [done|]. eapply Forall_impl; [exact Hy|]. intros z. by apply le_trans.
  - constructor; [done|]. rewrite insert_by_perm. constructor; [|done].
    destruct (le_total x y) as [E'|E']; congruence.
Qed.

Lemma sort_by_sorted l : StronglySorted (fun a b => le a b = true) (sort_by le l).
Proof. induction l as [|x l IH]; [constructor|]. by apply insert_by_sorted. Qed.

(** Sorting again changes nothing. *)
Lemma sort_by_idem l : StronglySorted (fun a b => le a b = true) l -> sort_by le l = l.
Proof.
  induction 1 as [|x l Hs IH Hx]; [done|]. cbn [sort_by foldr]. fold (sort_by le l). rewrite IH.
  destruct Hx as [|y l Hy _]; [done|]. cbn [insert_by]. by rewrite Hy.
Qed.

End Sorted.

Section Dedup.
Context {A : Type} `{EqDecision A} (le : A -> A -> bool) `{!TotalLe le}.

Lemma dedup_elem (l : list A) x : x ∈ dedup l <-> x ∈ l.
Proof.
  induction l as [|y l IH]; cbn [dedup]; [done|]. destruct (dedup l) as [|z r].
  - rewrite elem_of_nil in IH. rewrite list_elem_of_singleton, elem_of_cons. naive_solver.
  - case_decide as E; rewrite !elem_of_cons in *; naive_solver.
Qed.

(** [sort] then [dedup] leaves each element once. *)
Lemma dedup_sorted (l : list A) : StronglySorted (fun a b => le a b = true) l ->
  StronglySorted (fun a b => le a b = true) (dedup l) /\ NoDup (dedup l).
Proof.
  induction 1 as [|x l Hs [IHs IHn] Hx]; cbn [dedup]; [split; constructor|].
  destruct (dedup l) as [|y r] eqn:E; [split; [by repeat constructor|apply NoDup_singleton]|].
  assert (Hall : Forall (fun b => le x b = true) (y :: r)).
  { apply Forall_forall. intros z Hz. rewrite <- E, dedup_elem in Hz. rewrite Forall_forall in Hx. by apply Hx. }
  case_decide as Exy; [done|]. split; [by constructor|]. constructor; [|done].
  intros Hin. apply elem_of_cons in Hin as [->|Hin]; [done|].
  apply Exy. apply le_antisym; [by inversion_clear Hall|].
  inversion_clear IHs as [|?? _ Hy]. rewrite Forall_forall in Hy. by apply Hy.
Qed.

Lemma sort_dedup_elem l x : x ∈ dedup (sort_by le l) <-> x ∈ l.
Proof. by rewrite dedup_elem, sort_by_perm. Qed.

End Dedup.

(** ** Maps *)

Lemma keys_elem {A} (m : gmap str A) k : k ∈ keys m <-> is_Some (m !! k).
Proof.
  unfold keys. rewrite sort_by_perm, list_elem_of_fmap. split.
  - intros ([k' v] & -> & H). apply elem_of_map_to_list in H. by exists v.
  - intros [v H]. exists (k, v). split; [done|]. by apply elem_of_map_to_list.
Qed.

Lemma keys_nodup {A} (m : gmap str A) : NoDup (keys m).
Proof. unfold keys. rewrite sort_by_perm. apply NoDup_fst_map_to_list. Qed.

Lemma keys_sorted {A} (m : gmap str A) : StronglySorted (fun a b => lex_le a b = true) (keys m).
Proof. apply sort_by_sorted, _. Qed.
