(* ===== verification/Spec.v ===== *)
(** * Command specifications and their grammar ([crates/pr-catalog/src/spec.rs])

    A grammar is a tree; [resolve_roles] walks it against the arguments that were
    typed and gives every argument a role.  The walker's position, output and
    what it knows about [numkeys] are its state. *)

From S2P Require Import Prelude Text TextFacts Request Ordered.

(** ** Data *)

Inductive Unit := Count | Seconds | Milliseconds | UnixSeconds | UnixMilliseconds.

#[export] Instance Unit_eq_dec : EqDecision Unit.
Proof. solve_decision. Defined.

Inductive Role :=
| Subcommand | Key | Field | Member | Score | Value | Cursor | Group | Channel | Consumer
| EntryId | NumKeysRole | Keyword | Integer (u : Unit) | Pattern.

#[export] Instance Role_eq_dec : EqDecision Role.
Proof. solve_decision. Defined.

Definition accepts_observed_names (r : Role) : bool :=
  match r with
  | Key | Field | Member | Group | Consumer | Channel | EntryId => true
  | _ => false
  end.

Definition label (u : Unit) : str :=
  match u with
  | Count => chars "count"
  | Seconds => chars "seconds"
  | Milliseconds => chars "milliseconds"
  | UnixSeconds => chars "unix seconds"
  | UnixMilliseconds => chars "unix milliseconds"
  end.

Inductive Node :=
| Token (text : str) (role : Role)
| Arg (name : str) (role : Role)
| Optional (inner : Node)
| Choice (alts : list Node)
| Seq (items : list Node)
| Repeat (inner : Node)
| Paired (first second : Role).

Definition keyword (text : str) : Node := Token text Keyword.
Definition subcommand (text : str) : Node := Token text Subcommand.
Definition arg (name : str) (r : Role) : Node := Arg name r.

(** ** Positions *)

(** [flatten], which pushes the roles of the mandatory spine. *)
Fixpoint flatten (n : Node) : list Role :=
  match n with
  | Token _ r | Arg _ r => [r]
  | Seq items => (fix go items := match items with [] => [] | i :: r => flatten i ++ go r end) items
  | Optional _ | Choice _ => []
  | Repeat inner => flatten inner
  | Paired a b => [a; b]
  end.

Fixpoint trailing_repeat (n : Node) : option Node :=
  match n with
  | Repeat inner => Some inner
  | Seq items =>
      (fix go items := match items with
                       | [] => None
                       | [i] => trailing_repeat i
                       | _ :: r => go r
                       end) items
  | _ => None
  end.

Definition role_at (n : Node) (index : nat) : option Role :=
  let flat := flatten n in
  match flat !! index with
  | Some r => Some r
  | None =>
      match trailing_repeat n with
      | Some rep =>
          let cycle := flatten rep in
          match cycle with
          | [] => None
          | _ =>
              let fixed := (length flat - length cycle)%nat in
              cycle !! ((index - fixed) mod length cycle)%nat
          end
      | None => None
      end
  end.

(** ** Keywords *)

Fixpoint collect_keywords (n : Node) : list str :=
  match n with
  | Token text Keyword => [text]
  | Optional inner | Repeat inner => collect_keywords inner
  | Choice items | Seq items =>
      (fix go items := match items with [] => [] | i :: r => collect_keywords i ++ go r end) items
  | Token _ _ | Arg _ _ | Paired _ _ => []
  end.
Definition keywords (n : Node) : list str := dedup (sort_by lex_le (collect_keywords n)).

Record ExclusiveGroup := mkGroup { group_name : str; members : list str }.

Inductive Family := Both | Redis | Valkey.

#[export] Instance Family_eq_dec : EqDecision Family.
Proof. solve_decision. Defined.

Record CommandSpec := mkSpec {
  name : str;
  summary : str;
  effects : Effects;
  grammar : Node;
  exclusive : list ExclusiveGroup;
  family : Family;
  group : str;
  since : option str;
  keyword_since : list (str * str);
  is_container : bool;
}.

Definition spec_role_at (c : CommandSpec) (index : nat) : option Role := role_at (grammar c) index.
Definition accepts_observed_names_at (c : CommandSpec) (index : nat) : bool :=
  match spec_role_at c index with
  | Some r => accepts_observed_names r
  | None => false
  end.

Section Available.
Context (upper : Z -> str).

(** The members of every group one of whose keywords is present. *)
Definition blocked_by (already : list str) (gs : list ExclusiveGroup) : list str :=
  gs ≫= (fun g => if existsb (fun m => bool_decide (m ∈ already)) (members g) then members g else []).

Definition available_keywords (c : CommandSpec) (already : list str) : list str :=
  let present := to_uppercase upper <$> already in
  let blocked := blocked_by present (exclusive c) in
  filter (fun k => (k ∉ blocked) /\ (k ∉ present)) (keywords (grammar c)).

Definition group_of (c : CommandSpec) (k : str) : option ExclusiveGroup :=
  List.find (fun g => bool_decide (to_uppercase upper k ∈ members g)) (exclusive c).

(** ** Versions *)

(** [split(['.', '-'])] and [parse().unwrap_or(0)]. *)
Fixpoint split_parts (cur : str) (v : str) : list str :=
  match v with
  | [] => [cur]
  | c :: r => if decide (c = 46 \/ c = 45) then cur :: split_parts [] r else split_parts (cur ++ [c]) r
  end.
Definition parts (v : str) : list Z :=
  (fun p => default 0 (parse_unsigned u64_max (encode_str p))) <$> split_parts [] v.

(** The loop over positions: the first that differs decides. *)
Fixpoint parts_at_least (n i : nat) (h w : list Z) : bool :=
  match n with
  | O => true
  | S n' =>
      let a := default 0 (h !! i) in
      let b := default 0 (w !! i) in
      if decide (a = b) then parts_at_least n' (S i) h w else bool_decide (b < a)
  end.
Definition version_at_least (have want : str) : bool :=
  let h := parts have in
  let w := parts want in
  parts_at_least (length h `max` length w) 0 h w.

Definition supported (c : CommandSpec) (server_version k : str) : bool :=
  match List.find (fun p => bool_decide (p.1 = k)) (keyword_since c) with
  | Some p => version_at_least server_version p.2
  | None => true
  end.
Definition available_keywords_for (c : CommandSpec) (already : list str) (server_version : str) : list str :=
  filter (fun k => supported c server_version k = true) (available_keywords c already).

End Available.

(** [None] where the sum of a [usize] overflows. *)
Definition eval_role_at (index : nat) (numkeys : option Z) : option Role :=
  match index with
  | O => Some Value
  | S O => Some NumKeysRole
  | _ =>
      match numkeys with
      | None => Some Value
      | Some n => if decide (2 + n <= usize_max) then
                    Some (if decide (Z.of_nat index < 2 + n) then Key else Value)
                  else None
      end
  end.

(** ** The walker *)

(** If a node consumes exactly one argument, its role. *)
Fixpoint single_role (n : Node) : option Role :=
  match n with
  | Arg _ r => Some r
  | Seq [one] => single_role one
  | _ => None
  end.

(** The keywords that can introduce a node, [None] when it starts with a plain
    argument. *)
Fixpoint leading_tokens (n : Node) : option (list str) :=
  match n with
  | Token text _ => Some [text]
  | Arg _ _ | Paired _ _ => None
  | Optional inner | Repeat inner => leading_tokens inner
  | Seq items => match items with [] => None | i :: _ => leading_tokens i end
  | Choice alts =>
      (fix go alts := match alts with
                      | [] => Some []
                      | a :: r => t ← leading_tokens a; ts ← go r; Some (t ++ ts)
                      end) alts
  end.

Inductive NumKeys := Unseen | Unparsed | Exactly (n : Z).

Record Walker := mkWalker { w_i : nat; out : list Role; numkeys : NumKeys }.

Section Walk.
Context (args : list bytes).

Definition peek_matches (w : Walker) (text : str) : bool :=
  match args !! w_i w with
  | Some a => eq_ignore_ascii_case a (encode_str text)
  | None => false
  end.

Definition take_role (r : Role) (w : Walker) : Walker :=
  if decide (w_i w < length args)%nat then mkWalker (S (w_i w)) (out w ++ [r]) (numkeys w) else w.

Definition may_start (w : Walker) (n : Node) : bool :=
  match leading_tokens n with
  | None => true
  | Some toks => existsb (peek_matches w) toks
  end.
Definition starts_with_matching_token (w : Walker) (n : Node) : bool :=
  match leading_tokens n with
  | Some toks => existsb (peek_matches w) toks
  | None => false
  end.

(** The value of the [numkeys] argument at the position. *)
Definition read_numkeys (w : Walker) : NumKeys :=
  match (a ← args !! w_i w; _ ← from_utf8 a; parse_unsigned usize_max a) with
  | Some n => Exactly n
  | None => Unparsed
  end.

Definition walk_paired (first second : Role) (w : Walker) : Walker :=
  let remaining := (length args - w_i w)%nat in
  let firsts := (S remaining / 2)%nat in
  foldl (fun w n => take_role (if decide (n < firsts)%nat then first else second) w) w (seq 0 remaining).

(** The alternative a choice takes. *)
Definition chosen (w : Walker) (alts : list Node) : option nat :=
  match list_find (fun a => starts_with_matching_token w a = true) alts with
  | Some (i, _) => Some i
  | None => fst <$> list_find (fun a => leading_tokens a = None) alts
  end.

(** The keys after a [numkeys]. *)
Definition take_keys (w : Walker) : Walker :=
  let n := match numkeys w with Exactly n => Z.to_nat n | Unseen | Unparsed => O end in
  Nat.iter n (take_role Key) (mkWalker (w_i w) (out w) Unseen).

Definition counted (w : Walker) (inner : Node) : bool :=
  match numkeys w with
  | Unseen => false
  | _ => bool_decide (single_role inner = Some Key)
  end.

(** The loop of a repeat, around the walk of its body. *)
Fixpoint repeat_loop (body : Walker -> Walker) (starts : Walker -> bool) (fuel : nat) (w : Walker) : Walker :=
  match fuel with
  | O => w
  | S f =>
      if decide (w_i w < length args)%nat then
        if starts w then
          let w' := body w in
          if decide (w_i w' = w_i w) then w' else repeat_loop body starts f w'
        else w
      else w
  end.

Fixpoint walk (n : Node) (w : Walker) {struct n} : Walker :=
  if decide (length args <= w_i w)%nat then w
  else
    match n with
    | Token text r => if peek_matches w text then take_role r w else w
    | Arg _ r =>
        take_role r (if decide (r = NumKeysRole) then mkWalker (w_i w) (out w) (read_numkeys w) else w)
    | Seq items => (fix go items w := match items with [] => w | i :: r => go r (walk i w) end) items w
    | Optional inner => if may_start w inner then walk inner w else w
    | Choice alts =>
        match chosen w alts with
        | Some i =>
            (fix go alts i := match alts, i with
                              | [], _ => w
                              | a :: _, O => walk a w
                              | _ :: r, S i' => go r i'
                              end) alts i
        | None => w
        end
    | Repeat inner =>
        if counted w inner then take_keys w
        else repeat_loop (walk inner) (fun w => may_start w inner) (length args - w_i w)%nat w
    | Paired a b => walk_paired a b w
    end.

Definition resolve_roles (g : Node) : list Role :=
  let w := walk g (mkWalker 0 [] Unseen) in
  out w ++ replicate (length args - length (out w))%nat Value.

End Walk.

(** ** Induction and unfolding *)

Fixpoint node_induction (P : Node -> Prop)
    (Htoken : forall t r, P (Token t r)) (Harg : forall n r, P (Arg n r))
    (Hopt : forall n, P n -> P (Optional n)) (Hchoice : forall l, Forall P l -> P (Choice l))
    (Hseq : forall l, Forall P l -> P (Seq l)) (Hrep : forall n, P n -> P (Repeat n))
    (Hpair : forall a b, P (Paired a b)) (n : Node) {struct n} : P n :=
  let go := node_induction P Htoken Harg Hopt Hchoice Hseq Hrep Hpair in
  let all := fix all (l : list Node) : Forall P l :=
    match l with [] => Forall_nil_2 P | x :: r => Forall_cons_2 P x r (go x) (all r) end in
  match n with
  | Token t r => Htoken t r
  | Arg m r => Harg m r
  | Optional m => Hopt m (go m)
  | Choice l => Hchoice l (all l)
  | Seq l => Hseq l (all l)
  | Repeat m => Hrep m (go m)
  | Paired a b => Hpair a b
  end.

Lemma flatten_seq items : flatten (Seq items) = items ≫= flatten.
Proof. cbn [flatten]. induction items as [|i r IH]; [done|]. by rewrite bind_cons, IH. Qed.

Lemma collect_items items : collect_keywords (Seq items) = items ≫= collect_keywords.
Proof. cbn [collect_keywords]. induction items as [|i r IH]; [done|]. by rewrite bind_cons, IH. Qed.

Lemma collect_alts items : collect_keywords (Choice items) = items ≫= collect_keywords.
Proof. apply collect_items. Qed.

Lemma trailing_seq items : trailing_repeat (Seq items) = (i ← last items; trailing_repeat i).
Proof. cbn [trailing_repeat]. induction items as [|i [|j r] IH]; [done..|]. exact IH. Qed.

(** What the leaves of a grammar may give to an argument: a role, and for a
    token the text the argument must read. *)
Fixpoint leaves (n : Node) : list (option str * Role) :=
  match n with
  | Token t r => [(Some t, r)]
  | Arg _ r => [(None, r)]
  | Optional inner | Repeat inner => leaves inner
  | Choice items | Seq items =>
      (fix go items := match items with [] => [] | i :: r => leaves i ++ go r end) items
  | Paired a b => [(None, a); (None, b)]
  end.

Lemma leaves_items items : leaves (Seq items) = items ≫= leaves.
Proof. cbn [leaves]. induction items as [|i r IH]; [done|]. by rewrite bind_cons, IH. Qed.

Lemma leaves_alts items : leaves (Choice items) = items ≫= leaves.
Proof. apply leaves_items. Qed.

(** The keywords are the texts of the leaves that are keywords. *)
Lemma keywords_leaves n t : t ∈ keywords n <-> (Some t, Keyword) ∈ leaves n.
Proof.
  unfold keywords. rewrite sort_dedup_elem by apply _. revert n. apply node_induction.
  - intros u r. destruct r; cbn [collect_keywords leaves]; rewrite list_elem_of_singleton, ?elem_of_nil;
      try rewrite list_elem_of_singleton; naive_solver.
  - intros u r. cbn. rewrite list_elem_of_singleton, elem_of_nil. naive_solver.
  - done.
  - intros l Hl. rewrite collect_alts, leaves_alts, !list_elem_of_bind. rewrite Forall_forall in Hl.
    split; intros (x & Hx & Hin); exists x; (split; [by apply (Hl x)|done]).
  - intros l Hl. rewrite collect_items, leaves_items, !list_elem_of_bind. rewrite Forall_forall in Hl.
    split; intros (x & Hx & Hin); exists x; (split; [by apply (Hl x)|done]).
  - done.
  - intros a b. cbn. rewrite !elem_of_cons, !elem_of_nil. split; [done|]. intros [H|[H|[]]]; discriminate H.
Qed.

Lemma single_role_leaf n r : single_role n = Some r -> (None, r) ∈ leaves n.
Proof.
  revert n. apply (node_induction (fun n => single_role n = Some r -> (None, r) ∈ leaves n)); cbn [single_role]; try done.
  - intros m r' [= ->]. by left.
  - intros [|x [|y l]] Hl; [done| |done]. intros H. rewrite leaves_items, bind_cons. cbn. rewrite app_nil_r.
    by inversion_clear Hl; auto.
Qed.

(** ** What the walker gives out *)

Definition justified (ls : list (option str * Role)) (a : bytes) (r : Role) : Prop :=
  exists g, (g, r) ∈ ls /\ match g with
                           | Some t => eq_ignore_ascii_case a (encode_str t) = true
                           | None => True
                           end.

Section Sound.
Context (args : list bytes).

(** One walker follows another: it gave out roles for the next arguments, each
    with a leaf that allows it. *)
Definition advance (ls : list (option str * Role)) (w w' : Walker) : Prop :=
  exists rs, out w' = out w ++ rs /\ w_i w' = (w_i w + length rs)%nat /\
    Forall2 (justified ls) (take (length rs) (drop (w_i w) args)) rs.

Lemma advance_still ls w w' : out w' = out w -> w_i w' = w_i w -> advance ls w w'.
Proof. intros Ho Hi. exists []. rewrite app_nil_r. cbn. split; [done|]. split; [lia|constructor]. Qed.

Lemma advance_refl ls w : advance ls w w.
Proof. by apply advance_still. Qed.

Lemma advance_trans ls w1 w2 w3 : advance ls w1 w2 -> advance ls w2 w3 -> advance ls w1 w3.
Proof.
  intros (r1 & Ho1 & Hi1 & H1) (r2 & Ho2 & Hi2 & H2). exists (r1 ++ r2).
  rewrite Ho2, Ho1, length_app, app_assoc. split; [done|]. split; [lia|].
  rewrite <- take_take_drop, drop_drop, <- Hi1. by apply Forall2_app.
Qed.

Lemma advance_weaken ls ls' w w' : ls ⊆ ls' -> advance ls w w' -> advance ls' w w'.
Proof.
  intros Hs (r & Ho & Hi & H). exists r. split; [done|]. split; [done|].
  eapply Forall2_impl; [exact H|]. intros a b (g & Hg & Ht). exists g. split; [by apply Hs|done].
Qed.

Lemma advance_take ls r w :
  (forall a, args !! w_i w = Some a -> justified ls a r) -> advance ls w (take_role args r w).
Proof.
  intros H. unfold take_role. case_decide as Hi; [|apply advance_refl].
  apply lookup_lt_is_Some_2 in Hi as [a Ha]. exists [r]. cbn [out w_i length]. split; [done|]. split; [lia|].
  rewrite (drop_S _ _ _ Ha). cbn. constructor; [by apply H|constructor].
Qed.

(** A state whose [numkeys] changed before the walk. *)
Lemma advance_from ls w w0 w' : out w0 = out w -> w_i w0 = w_i w -> advance ls w0 w' -> advance ls w w'.
Proof. intros Ho Hi H. eapply advance_trans; [by apply advance_still|done]. Qed.

Lemma peek_eq w t a : peek_matches args w t = true -> args !! w_i w = Some a ->
  eq_ignore_ascii_case a (encode_str t) = true.
Proof. unfold peek_matches. by intros H E; rewrite E in H. Qed.

Lemma advance_loop ls body starts f w :
  (forall v, advance ls v (body v)) -> advance ls w (repeat_loop args body starts f w).
Proof.
  intros Hb. revert w. induction f as [|f IH]; intros w; cbn [repeat_loop]; [apply advance_refl|].
  case_decide; [|apply advance_refl]. destruct (starts w); [|apply advance_refl].
  case_decide; [apply Hb|]. eapply advance_trans; [apply Hb|apply IH].
Qed.

Lemma advance_iter ls r n w :
  (forall a, justified ls a r) -> advance ls w (Nat.iter n (take_role args r) w).
Proof.
  intros H. induction n as [|n IH]; cbn [Nat.iter nat_rect]; [apply advance_refl|].
  eapply advance_trans; [exact IH|]. apply advance_take. auto.
Qed.

Lemma advance_paired ls a b w :
  (forall x, justified ls x a) -> (forall x, justified ls x b) -> advance ls w (walk_paired args a b w).
Proof.
  intros Ha Hb. unfold walk_paired. generalize (S (length args - w_i w) / 2)%nat as h.
  generalize (seq 0 (length args - w_i w)) as ns. intros ns h. revert w.
  induction ns as [|n ns IH]; intros w; cbn [foldl]; [apply advance_refl|].
  eapply advance_trans; [|apply IH]. apply advance_take. intros; case_decide; auto.
Qed.

Lemma walk_seq items w :
  walk args (Seq items) w = if decide (length args <= w_i w)%nat then w else foldl (fun w i => walk args i w) w items.
Proof.
  cbn [walk]. case_decide; [done|]. clear. revert w. induction items as [|i r IH]; intros w; [done|]. apply IH.
Qed.

Lemma walk_choice alts w :
  walk args (Choice alts) w =
  if decide (length args <= w_i w)%nat then w
  else match (i ← chosen args w alts; alts !! i) with Some a => walk args a w | None => w end.
Proof.
  cbn [walk]. case_decide; [done|]. destruct (chosen args w alts) as [i|]; [|done]. cbn. clear.
  revert i. induction alts as [|a r IH]; intros [|i]; [done..|]. apply IH.
Qed.

Lemma walk_sound n w : advance (leaves n) w (walk args n w).
Proof.
  revert n w. apply (node_induction (fun n => forall w, advance (leaves n) w (walk args n w))).
  - intros t r w. cbn [walk]. case_decide; [apply advance_refl|]. destruct (peek_matches args w t) eqn:E; [|apply advance_refl].
    apply advance_take. intros a Ha. exists (Some t). split; [by left|by eapply peek_eq].
  - intros m r w. cbn [walk]. case_decide; [apply advance_refl|].
    set (w0 := if decide (r = NumKeysRole) then _ else w).
    apply (advance_from _ w w0); [by subst w0; case_decide..|]. apply advance_take.
    intros a _. exists None. split; [by left|done].
  - intros m IH w. cbn [walk leaves]. case_decide; [apply advance_refl|]. case_match; [apply IH|apply advance_refl].
  - intros l Hl w. rewrite walk_choice, leaves_alts. case_decide; [apply advance_refl|].
    destruct (i ← chosen args w l; l !! i) as [a|] eqn:E; [|apply advance_refl].
    apply bind_Some in E as (i & _ & Hi). rewrite Forall_lookup in Hl. eapply advance_weaken; [|by eapply Hl].
    intros x Hx. apply list_elem_of_bind. exists a. split; [done|]. by eapply list_elem_of_lookup_2.
  - intros l Hl w. rewrite walk_seq, leaves_items. case_decide as Hw; [apply advance_refl|].
    assert (H : forall l' w, l' ⊆ l -> advance (l ≫= leaves) w (foldl (fun w i => walk args i w) w l')).
    { clear w Hw. induction l' as [|i l' IH]; intros w Hs; cbn [foldl]; [apply advance_refl|].
      eapply advance_trans; [|apply IH; set_solver]. rewrite Forall_forall in Hl.
      assert (i ∈ l) by set_solver. eapply advance_weaken; [|by apply Hl].
      intros x Hx. apply list_elem_of_bind. by exists i. }
    by apply H.
  - intros m IH w. cbn [walk leaves]. case_decide; [apply advance_refl|]. destruct (counted w m) eqn:Ec.
    + unfold take_keys. set (w0 := mkWalker _ _ _).
      apply (advance_from _ w w0); [done|done|]. apply advance_iter. intros a. exists None. split; [|done].
      apply single_role_leaf. unfold counted in Ec. by destruct (numkeys w); [..|]; try apply bool_decide_eq_true in Ec.
    + apply advance_loop. apply IH.
  - intros a b w. cbn [walk]. case_decide; [apply advance_refl|].
    apply advance_paired; intros x; exists None; cbn; (split; [|done]); [by left|by right; left].
Qed.

End Sound.

(** Every argument gets one role, and any but the fallback from a leaf. *)
Lemma resolve_leaves g args :
  length (resolve_roles args g) = length args /\
  forall i a r, args !! i = Some a -> resolve_roles args g !! i = Some r -> r = Value \/ justified (leaves g) a r.
Proof.
  unfold resolve_roles. destruct (walk_sound args g (mkWalker 0 [] Unseen)) as (rs & Ho & Hi & H).
  cbn [out w_i app Nat.add] in *. rewrite drop_0 in H. rewrite Ho.
  assert (Hl : (length rs <= length args)%nat) by (apply Forall2_length in H; rewrite length_take in H; lia).
  split; [rewrite length_app, length_replicate; lia|]. intros i a r Ha Hr.
  destruct (decide (i < length rs)%nat) as [Hlt|Hge].
  - right. rewrite lookup_app_l in Hr by done. eapply Forall2_lookup_lr; [exact H| |exact Hr].
    by rewrite lookup_take_lt.
  - left. rewrite lookup_app_r in Hr by lia. by apply lookup_replicate in Hr as [-> _].
Qed.

Lemma resolve_leaf g args i a r : args !! i = Some a -> resolve_roles args g !! i = Some r ->
  r = Value \/ justified (leaves g) a r.
Proof. apply resolve_leaves. Qed.
