(* ===== verification/SpecFacts.v ===== *)
(** * Positions, counts, halves, options and versions of a grammar

    The walker against the positional reading ([role_at]), against the rule of
    [numkeys] ([eval_role_at]) and on paired halves; which keywords are still
    offered; the order on versions. *)

From S2P Require Import Prelude Text TextFacts Request Ordered Spec.

(** ** Runs of plain arguments *)

Section Plain.
Context (args : list bytes).

Definition plain (l : list (str * Role)) : list Node := (fun p => Arg p.1 p.2) <$> l.
Definition no_numkeys (l : list (str * Role)) : Prop := NumKeysRole ∉ l.*2.

(** The walker after it gave out [rs], as many as there are arguments for. *)
Definition after (w : Walker) (rs : list Role) : Walker :=
  let n := (length args - w_i w)%nat in
  mkWalker (w_i w + length (take n rs)) (out w ++ take n rs) (numkeys w).

Lemma after_nil w : after w [] = w.
Proof. destruct w. unfold after. cbn. by rewrite take_nil, app_nil_r, Nat.add_0_r. Qed.

Lemma after_app w r1 r2 : after (after w r1) r2 = after w (r1 ++ r2).
Proof.
  unfold after. cbn [w_i out numkeys]. rewrite length_take, take_app.
  destruct (decide (length r1 <= length args - w_i w)%nat).
  - rewrite (take_ge r1) by lia. rewrite Nat.min_r by lia.
    replace (length args - (w_i w + length r1))%nat with (length args - w_i w - length r1)%nat by lia.
    rewrite length_app, <- app_assoc. f_equal. lia.
  - rewrite Nat.min_l by lia. replace (length args - (w_i w + (length args - w_i w)))%nat with 0%nat by lia.
    replace (length args - w_i w - length r1)%nat with 0%nat by lia. rewrite !take_0, !app_nil_r, length_take.
    f_equal. cbn. lia.
Qed.

Lemma take_role_after r w : take_role args r w = after w [r].
Proof.
  unfold take_role, after. case_decide as Hi.
  - rewrite take_ge by (cbn; lia). cbn. f_equal. lia.
  - replace (length args - w_i w)%nat with 0%nat by lia. rewrite take_0, app_nil_r, Nat.add_0_r. by destruct w.
Qed.

Lemma after_end w rs : (length args <= w_i w)%nat -> after w rs = w.
Proof.
  intros H. unfold after. replace (length args - w_i w)%nat with 0%nat by lia.
  rewrite take_0, app_nil_r, Nat.add_0_r. by destruct w.
Qed.

Lemma walk_arg m r w : r <> NumKeysRole -> walk args (Arg m r) w = after w [r].
Proof.
  intros Hr. cbn [walk]. case_decide as Hi; [by rewrite after_end|].
  rewrite decide_False by done. apply take_role_after.
Qed.

Lemma walk_plain l w : no_numkeys l ->
  foldl (fun w i => walk args i w) w (plain l) = after w l.*2.
Proof.
  revert w. induction l as [|[m r] l IH]; intros w Hn; cbn [plain fmap list_fmap foldl]; [by rewrite after_nil|].
  apply not_elem_of_cons in Hn as [Hr Hn]. cbn [fst snd] in *. rewrite walk_arg by congruence.
  change ((fun p => Arg p.1 p.2) <$> l) with (plain l). rewrite IH by done.
  by rewrite (after_app _ [r]).
Qed.

Lemma walk_seq_plain l w : no_numkeys l -> walk args (Seq (plain l)) w = after w l.*2.
Proof. intros Hn. rewrite walk_seq. case_decide; [by rewrite after_end|]. by apply walk_plain. Qed.

Lemma leading_plain m r l : leading_tokens (Seq (plain ((m, r) :: l))) = None.
Proof. done. Qed.

Lemma walk_repeat inner w :
  walk args (Repeat inner) w =
  if decide (length args <= w_i w)%nat then w
  else if counted w inner then take_keys args w
  else repeat_loop args (walk args inner) (fun v => may_start args v inner) (length args - w_i w)%nat w.
Proof. done. Qed.

(** The loop of a repeat gives the cycle over and over, until the arguments end. *)
Lemma repeat_plain l w f : l <> [] -> no_numkeys l -> (length args - w_i w <= f)%nat ->
  repeat_loop args (walk args (Seq (plain l))) (fun v => may_start args v (Seq (plain l))) f w
  = after w (mjoin (replicate f l.*2)).
Proof.
  intros Hl Hn. revert w. destruct l as [|[m r] l]; [done|]. clear Hl.
  assert (Hm : forall v, may_start args v (Seq (plain ((m, r) :: l))) = true) by done.
  set (cyc := (m, r) :: l) in *.
  induction f as [|f IH]; intros w Hf; cbn [repeat_loop]; [by rewrite after_nil|].
  case_decide as Hi; [|by rewrite after_end by lia]. rewrite Hm, walk_seq_plain by done.
  assert (Hw : (w_i w < w_i (after w cyc.*2))%nat).
  { unfold after. cbn [w_i]. subst cyc. cbn [fmap list_fmap]. rewrite length_take. cbn [length]. lia. }
  rewrite decide_False by lia. rewrite IH by lia. by rewrite after_app.
Qed.

End Plain.

(** ** The positional reading *)

Definition positional (fixed cycle : list (str * Role)) : Node :=
  Seq (plain fixed ++ [Repeat (Seq (plain cycle))]).

Lemma flatten_plain l : (plain l ≫= flatten) = l.*2.
Proof. induction l as [|[m r] l IH]; [done|]. cbn [plain fmap list_fmap]. rewrite bind_cons. cbn. f_equal. exact IH. Qed.

Lemma flatten_positional fixed cycle : flatten (positional fixed cycle) = fixed.*2 ++ cycle.*2.
Proof.
  unfold positional. rewrite flatten_seq, bind_app, flatten_plain, bind_cons, app_nil_r.
  f_equal. change (flatten (Repeat (Seq (plain cycle)))) with (flatten (Seq (plain cycle))).
  by rewrite flatten_seq, flatten_plain.
Qed.

Lemma trailing_positional fixed cycle :
  trailing_repeat (positional fixed cycle) = Some (Seq (plain cycle)).
Proof. unfold positional. by rewrite trailing_seq, last_snoc. Qed.

Lemma lookup_cycles {A} (c : list A) f i : c <> [] -> (i < f * length c)%nat ->
  mjoin (replicate f c) !! i = c !! (i mod length c)%nat.
Proof.
  intros Hc. revert i. induction f as [|f IH]; intros i Hi; [cbn in Hi; lia|].
  assert (length c <> 0%nat) by (by destruct c). cbn [replicate mjoin list_join].
  destruct (decide (i < length c)%nat).
  - rewrite lookup_app_l by done. by rewrite Nat.mod_small.
  - rewrite lookup_app_r, IH by (cbn in Hi; lia). f_equal.
    replace i with ((i - length c) + 1 * length c)%nat at 2 by lia. by rewrite Nat.Div0.mod_add.
Qed.

(** [role_at] past the fixed part is the cycle, from its start. *)
Lemma role_at_positional fixed cycle i : cycle <> [] ->
  role_at (positional fixed cycle) i =
  if decide (i < length fixed)%nat then fixed.*2 !! i else cycle.*2 !! ((i - length fixed) mod length cycle)%nat.
Proof.
  intros Hc. unfold role_at. rewrite flatten_positional, trailing_positional, flatten_seq, flatten_plain.
  assert (Hl : length cycle <> 0%nat) by (by destruct cycle). case_decide as Hi.
  - rewrite lookup_app_l by (rewrite length_fmap; done).
    destruct (lookup_lt_is_Some_2 fixed.*2 i) as [r Hr]; [by rewrite length_fmap|]. by rewrite Hr.
  - rewrite lookup_app_r, length_fmap by (rewrite length_fmap; lia).
    destruct (cycle.*2 !! (i - length fixed)%nat) as [r|] eqn:E.
    + pose proof (lookup_lt_Some _ _ _ E) as Hlt. rewrite length_fmap in Hlt. by rewrite Nat.mod_small.
    + destruct (cycle.*2) as [|c0 cs] eqn:Ec; [by destruct cycle|]. rewrite <- Ec.
      rewrite length_app, !length_fmap. do 2 f_equal. lia.
Qed.

Lemma walk_positional fixed cycle args w : cycle <> [] -> no_numkeys fixed -> no_numkeys cycle ->
  numkeys w = Unseen ->
  exists f, (length args - w_i w - length fixed <= f)%nat /\
    walk args (positional fixed cycle) w = after args w (fixed.*2 ++ mjoin (replicate f cycle.*2)).
Proof.
  intros Hc Hf Hy Hw. destruct (decide (length args <= w_i w)%nat) as [Hle|Hlt].
  { exists 0%nat. split; [lia|]. unfold positional. rewrite walk_seq, decide_True, after_end by done. done. }
  exists (length args - w_i (after args w fixed.*2))%nat. split.
  { unfold after. cbn [w_i]. rewrite length_take, length_fmap. lia. }
  unfold positional. rewrite walk_seq, decide_False, foldl_app, walk_plain by done. cbn [foldl].
  rewrite <- after_app. set (w1 := after args w fixed.*2). rewrite walk_repeat. case_decide; [by rewrite after_end|].
  assert (counted w1 (Seq (plain cycle)) = false) as -> by (unfold counted; subst w1; cbn; by rewrite Hw).
  by rewrite repeat_plain.
Qed.

Lemma mjoin_replicate_length {A} f (c : list A) : length (mjoin (replicate f c)) = (f * length c)%nat.
Proof. induction f as [|f IH]; [done|].
  change (mjoin (replicate (S f) c)) with (c ++ mjoin (replicate f c)). rewrite length_app, IH. done. Qed.

(** For a grammar of plain arguments that ends in a repeating group, the
    walk gives every argument the role of its position: the fixed ones first,
    then the group over and over ([HSET key field value field value]), whatever
    the arguments read. *)
Theorem resolve_positional fixed cycle args :
  cycle <> [] -> no_numkeys (fixed ++ cycle) ->
  resolve_roles args (positional fixed cycle)
  = (fun i => default Value (role_at (positional fixed cycle) i)) <$> seq 0 (length args).
Proof.
  intros Hc Hn. unfold no_numkeys in Hn. rewrite fmap_app in Hn. apply not_elem_of_app in Hn as [Hf Hy].
  destruct (walk_positional fixed cycle args (mkWalker 0 [] Unseen)) as (f & Hfuel & Hw); [done..|].
  cbn [w_i] in Hfuel. assert (Hl : (0 < length cycle)%nat) by (destruct cycle; [done|cbn; lia]).
  unfold resolve_roles. rewrite Hw. unfold after. cbn [out w_i app]. rewrite Nat.sub_0_r.
  set (rs := fixed.*2 ++ _).
  assert (Hrs : (length args <= length rs)%nat).
  { subst rs. rewrite length_app, length_fmap, mjoin_replicate_length, length_fmap. nia. }
  rewrite length_take_le by done. rewrite Nat.sub_diag. cbn [replicate]. rewrite app_nil_r.
  apply list_eq. intros i. rewrite list_lookup_fmap. destruct (decide (i < length args)%nat) as [Hi|Hi].
  2: { rewrite lookup_take_ge, lookup_seq_ge by lia. done. }
  rewrite lookup_take_lt, lookup_seq_lt by lia. cbn [fmap option_fmap option_map Nat.add].
  rewrite role_at_positional by done. subst rs. case_decide as Hif.
  - rewrite lookup_app_l by (rewrite length_fmap; done).
    destruct (lookup_lt_is_Some_2 fixed.*2 i) as [r Hr]; [by rewrite length_fmap|]. by rewrite Hr.
  - rewrite lookup_app_r, length_fmap by (rewrite length_fmap; lia).
    assert (Hcc : cycle.*2 <> []) by (by destruct cycle).
    rewrite lookup_cycles by (done || rewrite length_fmap; nia). rewrite length_fmap.
    destruct (lookup_lt_is_Some_2 cycle.*2 ((i - length fixed) mod length cycle)%nat) as [r Hr];
      [rewrite length_fmap; apply Nat.mod_upper_bound; lia|]. by rewrite Hr.
Qed.

Lemma resolve_positional_witness :
  let g := positional [(chars "key", Key)] [(chars "field", Field); (chars "value", Value)] in
  resolve_roles [bs "h"; bs "NX"; bs "1"; bs "g"; bs "2"; bs "f"] g
  = (fun i => default Value (role_at g i)) <$> seq 0 6
  /\ resolve_roles [bs "h"; bs "NX"; bs "1"; bs "g"; bs "2"; bs "f"] g = [Key; Field; Value; Field; Value; Field].
Proof.
  assert (Hn : no_numkeys ([(chars "key", Key)] ++ [(chars "field", Field); (chars "value", Value)]))
    by (apply (bool_decide_unpack _); vm_compute; exact I).
  split; [|vm_compute; reflexivity].
  apply (resolve_positional [(chars "key", Key)] [(chars "field", Field); (chars "value", Value)]
           [bs "h"; bs "NX"; bs "1"; bs "g"; bs "2"; bs "f"]); [done|exact Hn].
Defined.

(** A keyword is given out only where the argument reads one of the grammar's
    keywords: a key named [NX] stays a key. *)
Lemma keyword_is_read g args i a :
  ((None, Keyword) ∉ leaves g) -> args !! i = Some a -> resolve_roles args g !! i = Some Keyword ->
  exists t, t ∈ keywords g /\ eq_ignore_ascii_case a (encode_str t) = true.
Proof.
  intros Hn Ha Hr. destruct (resolve_leaf g args i a Keyword Ha Hr) as [?|(gd & Hin & Hg)]; [done|].
  destruct gd as [t|]; [|done]. exists t. split; [by apply keywords_leaves|done].
Qed.

(** ** Counted keys *)

(** The grammar of [EVAL] as the snapshot compiles to it. *)
Definition eval_grammar : Node :=
  Seq [Arg (chars "script") Value; Arg (chars "numkeys") NumKeysRole;
       Optional (Repeat (Arg (chars "key") Key)); Optional (Repeat (Arg (chars "arg") Value))].

Definition read_count (a : bytes) : option Z := _ ← from_utf8 a; parse_unsigned usize_max a.

Lemma iter_take args r n w : Nat.iter n (take_role args r) w = after args w (replicate n r).
Proof.
  induction n as [|n IH]; [by rewrite after_nil|].
  change (Nat.iter (S n) (take_role args r) w) with (take_role args r (Nat.iter n (take_role args r) w)).
  by rewrite IH, take_role_after, after_app, <- replicate_S_end.
Qed.

(** Keys beyond the arguments are not given out, however many are announced. *)
Lemma iter_take_bounded args r n w :
  Nat.iter n (take_role args r) w = Nat.iter (n `min` (length args - w_i w)) (take_role args r) w.
Proof.
  rewrite !iter_take. unfold after. rewrite !take_replicate.
  by replace ((length args - w_i w) `min` (n `min` (length args - w_i w)))%nat
    with ((length args - w_i w) `min` n)%nat by lia.
Qed.

Lemma repeat_arg args m r w f : r <> NumKeysRole -> (length args - w_i w <= f)%nat ->
  repeat_loop args (walk args (Arg m r)) (fun v => may_start args v (Arg m r)) f w
  = after args w (replicate f r).
Proof.
  intros Hr. revert w. induction f as [|f IH]; intros w Hf; cbn [repeat_loop]; [by rewrite after_nil|].
  case_decide as Hi; [|by rewrite after_end by lia]. change (may_start args w (Arg m r)) with true. cbv iota.
  rewrite walk_arg by done.
  assert (Hw : w_i (after args w [r]) = S (w_i w)).
  { unfold after. cbn [w_i]. rewrite length_take. cbn. lia. }
  rewrite decide_False by lia. rewrite IH by lia. by rewrite after_app.
Qed.

(** The walk after the two fixed arguments of [EVAL]: [n] keys, then values. *)
Lemma eval_walk s a rest :
  let args := s :: a :: rest in
  let n := match read_count a with Some k => Z.to_nat k | None => O end in
  out (walk args eval_grammar (mkWalker 0 [] Unseen))
  = [Value; NumKeysRole] ++ take (length rest) (replicate n Key ++ replicate (length rest) Value).
Proof.
  intros args n. unfold eval_grammar. rewrite walk_seq, decide_False by (cbn; lia). cbn [foldl].
  rewrite (walk_arg _ (chars "script") Value) by done.
  change (after args (mkWalker 0 [] Unseen) [Value]) with (mkWalker 1 [Value] Unseen).
  set (nk := match read_count a with Some k => Exactly k | None => Unparsed end).
  assert (walk args (Arg (chars "numkeys") NumKeysRole) (mkWalker 1 [Value] Unseen)
          = mkWalker 2 [Value; NumKeysRole] nk) as ->.
  { cbn [walk w_i]. rewrite decide_False by (cbn; lia). rewrite decide_True by done. unfold take_role. cbn [w_i].
    rewrite decide_True by (cbn; lia). cbn [out numkeys app]. done. }
  destruct rest as [|b rest]; [done|]. set (w2 := mkWalker 2 _ nk).
  assert (Hopt : forall m r w, walk args (Optional (Repeat (Arg m r))) w = walk args (Repeat (Arg m r)) w).
  { intros m r w. cbn [walk]. case_decide; done. }
  rewrite !Hopt, (walk_repeat _ _ w2), decide_False by (cbn; lia).
  assert (counted w2 (Arg (chars "key") Key) = true) as -> by (unfold counted, w2, nk; cbn; by destruct (read_count a)).
  assert (take_keys args w2 = after args (mkWalker 2 [Value; NumKeysRole] Unseen) (replicate n Key)) as ->.
  { unfold take_keys, w2, nk, n. cbn [numkeys w_i out]. rewrite iter_take. by destruct (read_count a). }
  set (w3 := after args _ _). rewrite walk_repeat.
  assert (Hc : counted w3 (Arg (chars "arg") Value) = false) by done. rewrite Hc.
  assert (Hf : forall f, (length args - w_i w3 <= f)%nat ->
     (if decide (length args <= w_i w3)%nat then w3 else after args w3 (replicate (length args - w_i w3) Value))
     = after args w3 (replicate f Value)).
  { intros f Hf. case_decide; [by rewrite after_end|]. unfold after. rewrite !take_replicate.
    rewrite Nat.min_id. by rewrite Nat.min_l. }
  rewrite repeat_arg by done. rewrite (Hf (length (b :: rest))).
  - subst w3. rewrite after_app. unfold after. cbn [out w_i]. by subst args.
  - subst w3. unfold after. cbn [w_i]. subst args. cbn [length]. lia.
Qed.

(** On the grammar of [EVAL] the walk and the rule of [numkeys] agree at
    every position: as many keys as the number says, as far as there are
    arguments, then values; no key when it is not a number. *)
Theorem eval_roles s a rest :
  let n := read_count a in
  (forall k, n = Some k -> 2 + k <= usize_max) ->
  Some <$> resolve_roles (s :: a :: rest) eval_grammar
  = (fun i => eval_role_at i n) <$> seq 0 (length (s :: a :: rest)).
Proof.
  intros n Hn. unfold resolve_roles. rewrite eval_walk. fold n. set (k := match n with Some k => Z.to_nat k | None => O end).
  rewrite length_app, length_take, length_app, !length_replicate. cbn [length].
  replace (S (S (length rest)) - (2 + length rest `min` (k + length rest)))%nat with O by lia.
  cbn [replicate app seq]. rewrite app_nil_r. rewrite !fmap_cons. do 2 (apply (f_equal2 cons); [done|]).
  apply list_eq. intros i. rewrite !list_lookup_fmap. destruct (decide (i < length rest)%nat) as [Hi|Hi].
  2: { rewrite lookup_take_ge, lookup_seq_ge by lia. done. }
  rewrite lookup_take_lt, lookup_seq_lt by lia. cbn [fmap option_fmap option_map].
  assert (He : eval_role_at (2 + i) n = Some (if decide (i < k)%nat then Key else Value)).
  { cbn [eval_role_at Nat.add]. subst k. destruct n as [z|]; [|done]. rewrite decide_True by auto.
    do 2 (case_decide; try done); lia. }
  rewrite He. case_decide as Hk.
  - rewrite lookup_app_l by (by rewrite length_replicate). by rewrite lookup_replicate_2.
  - rewrite lookup_app_r, length_replicate by (rewrite length_replicate; lia). by rewrite lookup_replicate_2 by lia.
Qed.

Lemma eval_roles_witness :
  Some <$> resolve_roles [bs "return 1"; bs "2"; bs "a"; bs "b"; bs "c"] eval_grammar
  = (fun i => eval_role_at i (read_count (bs "2"))) <$> seq 0 5
  /\ resolve_roles [bs "return 1"; bs "2"; bs "a"; bs "b"; bs "c"] eval_grammar = [Value; NumKeysRole; Key; Key; Value].
Proof.
  assert (E : read_count (bs "2") = Some 2) by (vm_compute; reflexivity).
  split; [|vm_compute; reflexivity].
  apply (eval_roles (bs "return 1") (bs "2") [bs "a"; bs "b"; bs "c"]).
  intros k. rewrite E. intros [= <-]. unfold usize_max. lia.
Defined.

(** ** Paired halves *)

Lemma walk_paired_halves args a b w :
  let n := (length args - w_i w)%nat in
  walk_paired args a b w = after args w (replicate (S n / 2) a ++ replicate (n / 2) b).
Proof.
  intros n. unfold walk_paired. fold n. set (h := (S n / 2)%nat).
  assert (Hh : (h + n / 2 = n)%nat).
  { subst h. pose proof (Nat.div_mod_eq n 2). pose proof (Nat.mod_upper_bound n 2).
    pose proof (Nat.div_mod_eq (S n) 2). pose proof (Nat.mod_upper_bound (S n) 2). lia. }
  assert (H : forall k j v, foldl (fun w n => take_role args (if decide (n < h)%nat then a else b) w) v (seq j k)
      = after args v ((fun i => if decide (i < h)%nat then a else b) <$> seq j k)).
  { induction k as [|k IH]; intros j v; cbn [seq foldl fmap list_fmap]; [by rewrite after_nil|].
    rewrite take_role_after, IH, after_app. done. }
  rewrite H. f_equal. rewrite <- Hh at 1. rewrite seq_app, fmap_app. f_equal.
  - apply list_eq. intros i. rewrite list_lookup_fmap. destruct (decide (i < h)%nat).
    + rewrite lookup_seq_lt, lookup_replicate_2 by done. cbn. by rewrite decide_True.
    + rewrite lookup_seq_ge by lia. symmetry. apply lookup_replicate_None. lia.
  - apply list_eq. intros i. rewrite list_lookup_fmap. destruct (decide (i < n / 2)%nat).
    + rewrite lookup_seq_lt, lookup_replicate_2 by done. cbn. by rewrite decide_False by lia.
    + rewrite lookup_seq_ge by lia. symmetry. apply lookup_replicate_None. lia.
Qed.

(** Keys and ids of one length come apart in the middle. *)
Lemma paired_halves a b args m :
  length args = (2 * m)%nat -> resolve_roles args (Paired a b) = replicate m a ++ replicate m b.
Proof.
  intros Hl. unfold resolve_roles. cbn [walk w_i]. case_decide.
  - assert (m = 0%nat) as -> by lia. destruct args; [done|cbn in *; lia].
  - rewrite walk_paired_halves. unfold after. cbn [w_i out app]. rewrite Nat.sub_0_r, Hl.
    replace (S (2 * m) / 2)%nat with m by (apply Nat.div_unique with 1%nat; lia).
    replace (2 * m / 2)%nat with m by (apply Nat.div_unique with 0%nat; lia).
    rewrite take_ge by (rewrite length_app, !length_replicate; lia).
    rewrite length_app, !length_replicate. replace (2 * m - (m + m))%nat with 0%nat by lia. cbn. by rewrite app_nil_r.
Qed.

(** ** Options still offered *)

Lemma blocked_elem present gs k :
  k ∈ blocked_by present gs <-> exists g, g ∈ gs /\ k ∈ members g /\ exists m, m ∈ members g /\ m ∈ present.
Proof.
  unfold blocked_by. rewrite list_elem_of_bind. split.
  - intros (g & Hk & Hg). destruct (existsb _ _) eqn:E; [|by apply elem_of_nil in Hk].
    apply existsb_exists in E as (m & Hm & E). apply bool_decide_eq_true in E.
    exists g. do 2 (split; [done|]). exists m. by split; [apply list_elem_of_In|].
  - intros (g & Hg & Hk & m & Hm & Hp). exists g. split; [|done].
    assert (existsb (fun m => bool_decide (m ∈ present)) (members g) = true) as ->; [|done].
    apply existsb_exists. exists m. split; [by apply list_elem_of_In|by apply bool_decide_eq_true].
Qed.

Section Offered.
Context (upper : Z -> str).

Lemma available_iff c already k :
  let present := to_uppercase upper <$> already in
  k ∈ available_keywords upper c already <->
  k ∈ keywords (grammar c) /\ (k ∉ present) /\
  forall g, g ∈ exclusive c -> k ∈ members g -> forall m, m ∈ members g -> (m ∉ present).
Proof.
  intros present. unfold available_keywords. fold present.
  rewrite list_elem_of_filter, blocked_elem. split.
  - intros [[Hb Hp] Hk]. do 2 (split; [done|]). intros g Hg Hin m Hm Hmp. apply Hb. eauto 10.
  - intros (Hk & Hp & H). split; [|done]. split; [|done]. intros (g & Hg & Hin & m & Hm & Hmp). by eapply H.
Qed.

(** Choosing a keyword takes away exactly itself and the members of its own
    exclusive groups; the keywords of other groups stay. *)
Theorem choosing_keyword c already m k :
  k ∈ available_keywords upper c (m :: already) <->
  k ∈ available_keywords upper c already /\ k <> to_uppercase upper m /\
  forall g, g ∈ exclusive c -> k ∈ members g -> (to_uppercase upper m ∉ members g).
Proof.
  rewrite !available_iff, fmap_cons. setoid_rewrite not_elem_of_cons. split.
  - intros (Hk & (Hm & Hp) & Hg). split; [|split; [done|]].
    + do 2 (split; [done|]). intros g H1 H2 m' H3. by destruct (Hg g H1 H2 m' H3).
    + intros g H1 H2 H3. by destruct (Hg g H1 H2 _ H3).
  - intros ((Hk & Hp & Hg) & Hm & Hn). do 2 (split; [done|]). intros g H1 H2 m' H3.
    split; [|by apply (Hg g)]. intros ->. by apply (Hn g).
Qed.

Lemma version_filter c already v k :
  k ∈ available_keywords_for upper c already v <-> k ∈ available_keywords upper c already /\ supported c v k = true.
Proof. unfold available_keywords_for. rewrite list_elem_of_filter. tauto. Qed.

End Offered.

(** ** Versions *)

Definition part (v : list Z) (i : nat) : Z := default 0 (v !! i).

Lemma part_past v i : (length v <= i)%nat -> part v i = 0.
Proof. intros H. unfold part. by rewrite lookup_ge_None_2. Qed.

(** The first position that differs, if there is one before [n]. *)
Lemma parts_first n i h w :
  parts_at_least n i h w = true <->
  (forall j, (i <= j < i + n)%nat -> part h j = part w j) \/
  (exists j, (i <= j < i + n)%nat /\ (forall k, (i <= k < j)%nat -> part h k = part w k) /\ part w j < part h j).
Proof.
  revert i. induction n as [|n IH]; intros i; cbn [parts_at_least].
  - split; [|done]. intros _. left. intros j Hj. lia.
  - fold (part h i) (part w i). case_decide as E.
    + rewrite IH. split.
      * intros [H|(j & Hj & He & Hlt)]; [left|right].
        -- intros j Hj. destruct (decide (j = i)) as [->|]; [done|]. apply H. lia.
        -- exists j. split; [lia|]. split; [|done]. intros k Hk. destruct (decide (k = i)) as [->|]; [done|]. apply He. lia.
      * intros [H|(j & Hj & He & Hlt)]; [left|right].
        -- intros j Hj. apply H. lia.
        -- exists j. assert (j <> i) by (intros ->; lia). split; [lia|]. split; [|done]. intros k Hk. apply He. lia.
    + rewrite bool_decide_eq_true. split.
      * intros Hlt. right. exists i. split; [lia|]. split; [|done]. intros k Hk. lia.
      * intros [H|(j & Hj & He & Hlt)]; [exfalso; apply E, H; lia|].
        destruct (decide (j = i)) as [->|]; [done|]. exfalso. apply E, He. lia.
Qed.

(** A version as its parts, zero from some point on. *)
Definition at_least (h w : list Z) : Prop :=
  (forall j, part h j = part w j) \/
  (exists j, (forall k, (k < j)%nat -> part h k = part w k) /\ part w j < part h j).

Lemma version_spec have want : version_at_least have want = true <-> at_least (parts have) (parts want).
Proof.
  unfold version_at_least, at_least. set (h := parts have). set (w := parts want). rewrite parts_first.
  split; intros [H|(j & Hj)].
  - left. intros j. destruct (decide (j < length h `max` length w)%nat); [apply H; lia|].
    by rewrite !part_past by lia.
  - right. exists j. destruct Hj as (Hj & He & Hlt). split; [|done]. intros k Hk. apply He. lia.
  - left. intros j _. apply H.
  - right. exists j. destruct Hj as (He & Hlt). split; [|split; [intros k Hk; apply He; lia|done]].
    destruct (decide (j < length h `max` length w)%nat); [lia|]. rewrite !part_past in Hlt by lia. lia.
Qed.

Lemma parts_total n i h w : parts_at_least n i h w = true \/ parts_at_least n i w h = true.
Proof.
  revert i. induction n as [|n IH]; intros i; cbn [parts_at_least]; [by left|].
  destruct (decide (default 0 (h !! i) = default 0 (w !! i))) as [E|E].
  - rewrite decide_True by done. apply IH.
  - rewrite decide_False by congruence. rewrite !bool_decide_eq_true. lia.
Qed.

Lemma at_least_trans a b c : at_least a b -> at_least b c -> at_least a c.
Proof.
  intros [H1|(i & H1 & L1)] [H2|(j & H2 & L2)].
  - left. intros k. by rewrite H1.
  - right. exists j. split; [intros k Hk; by rewrite H1, H2|]. by rewrite H1.
  - right. exists i. split; [intros k Hk; by rewrite H1, H2|]. by rewrite <- H2.
  - right. exists (i `min` j)%nat. split; [intros k Hk; rewrite H1, H2 by lia; done|].
    destruct (Nat.lt_trichotomy i j) as [Hij|[->|Hij]].
    + rewrite Nat.min_l by lia. by rewrite <- H2.
    + rewrite Nat.min_id. lia.
    + rewrite Nat.min_r by lia. by rewrite H1.
Qed.

Lemma at_least_antisym a b : at_least a b -> at_least b a -> forall i, part a i = part b i.
Proof.
  intros [H1|(i & H1 & L1)] [H2|(j & H2 & L2)]; try done.
  exfalso. destruct (Nat.lt_trichotomy i j) as [Hij|[->|Hij]].
  - rewrite H2 in L1 by done. lia.
  - lia.
  - rewrite H1 in L2 by done. lia.
Qed.

(** Versions are totally preordered, and two that are each at least the
    other have the same parts. *)
Theorem version_order a b c :
  version_at_least a a = true /\
  (version_at_least a b = true \/ version_at_least b a = true) /\
  (version_at_least a b = true -> version_at_least b c = true -> version_at_least a c = true) /\
  (version_at_least a b = true -> version_at_least b a = true -> forall i, part (parts a) i = part (parts b) i).
Proof.
  split; [rewrite version_spec; by left|]. split.
  - unfold version_at_least. rewrite (Nat.max_comm (length (parts b))). apply parts_total.
  - rewrite !version_spec. split; [apply at_least_trans|apply at_least_antisym].
Qed.

(** A numeric suffix is compared, although suffixes are said to be ignored, and
    a part beyond 64 bits counts as zero. *)
Lemma numeric_suffix_compared :
  version_at_least (chars "7.2.0") (chars "7.2.0-1") = false /\
  version_at_least (chars "7.2.0") (chars "7.2.0-rc1") = true.
Proof. split; reflexivity. Qed.

Lemma suffix_taken_for_part :
  version_at_least (chars "6.2-7") (chars "6.2.5") = true /\
  version_at_least (chars "6.2") (chars "6.2.5") = false.
Proof. split; reflexivity. Qed.

(** ** Repeats end *)

(** The loop of a repeat stops by itself: more fuel changes nothing. *)
Lemma repeat_loop_enough args body starts f g w :
  (forall v, (w_i v <= w_i (body v))%nat) -> (length args - w_i w <= f)%nat -> (f <= g)%nat ->
  repeat_loop args body starts g w = repeat_loop args body starts f w.
Proof.
  intros Hb. revert g w. induction f as [|f IH]; intros [|g] w Hf Hg; cbn [repeat_loop]; try lia; [done| |].
  - by rewrite decide_False by lia.
  - case_decide; [|done]. destruct (starts w); [|done]. case_decide; [done|].
    pose proof (Hb w). apply IH; lia.
Qed.

(** The body of a repeat never moves the position back. *)
Lemma walk_forward args n w : (w_i w <= w_i (walk args n w))%nat.
Proof. destruct (walk_sound args n w) as (rs & _ & -> & _). lia. Qed.
