(* ===== verification/Compile.v ===== *)
(** * Compiling the pinned catalog ([crates/pr-catalog/src]: [snapshot.rs], [compile.rs], [embedded.rs])

    A snapshot is checked against its digest and for canonical order, every
    command becomes a [CommandSpec] with its grammar and its effects, and the two
    families are merged.  The hash, the JSON reader, the table of upper-case
    letters and the escapes of the Debug format are parameters. *)

From S2P Require Import Prelude Text TextFacts Request Ordered Spec.

(** ** The snapshot *)

Definition SCHEMA : Z := 1.

Record Provenance := mkProvenance {
  p_family : str; line : str; server_version : str; image : str; captured_utc : str; source : list str;
}.

Inductive RawArg := mkRawArg (arg_name kind : str) (token display_text arg_since : option str)
  (key_spec_index : option Z) (optional multiple multiple_token : bool) (arguments : option (list RawArg)).

Definition arg_name (a : RawArg) : str := let '(mkRawArg n _ _ _ _ _ _ _ _ _) := a in n.
Definition kind (a : RawArg) : str := let '(mkRawArg _ k _ _ _ _ _ _ _ _) := a in k.
Definition token (a : RawArg) : option str := let '(mkRawArg _ _ t _ _ _ _ _ _ _) := a in t.
Definition arg_since (a : RawArg) : option str := let '(mkRawArg _ _ _ _ s _ _ _ _ _) := a in s.
Definition optional (a : RawArg) : bool := let '(mkRawArg _ _ _ _ _ _ o _ _ _) := a in o.
Definition multiple (a : RawArg) : bool := let '(mkRawArg _ _ _ _ _ _ _ m _ _) := a in m.
Definition multiple_token (a : RawArg) : bool := let '(mkRawArg _ _ _ _ _ _ _ _ m _) := a in m.
Definition arguments (a : RawArg) : option (list RawArg) := let '(mkRawArg _ _ _ _ _ _ _ _ _ l) := a in l.

Record RawCommand := mkRawCommand {
  cmd_name : str;
  container : option str;
  cmd_since : option str;
  cmd_group : option str;
  arity : option Z;
  flags : list str;
  acl : list str;
  first_key : option Z;
  last_key : option Z;
  key_step : option Z;
  cmd_arguments : option (list RawArg);
}.

Record Snapshot := mkSnapshot { schema : Z; provenance : Provenance; commands : list RawCommand }.

Inductive LoadError :=
| ParseError (e : str)
| SchemaError (found : Z)
| DigestError (expected actual : str)
| NotCanonical (why : str).

Definition show_load_error (e : LoadError) : str :=
  match e with
  | ParseError e => chars "snapshot is not readable: " ++ e
  | SchemaError found =>
      chars "snapshot schema " ++ (bz <$> print_unsigned found) ++ chars " is not supported (this build reads "
        ++ (bz <$> print_unsigned SCHEMA) ++ chars ")"
  | DigestError expected actual =>
      chars "snapshot digest mismatch: expected " ++ expected ++ chars ", file hashes to " ++ actual
  | NotCanonical why => chars "snapshot is not canonical: " ++ why
  end.

Section Load.
Context (blake3 : bytes -> bytes) (from_slice : bytes -> result str Snapshot).
Context (upper : Z -> str) (debug : str -> str).

Definition digest (b : bytes) : str := bz <$> (blake3 b ≫= hex2).

Fixpoint canonical_from (prev : option str) (cs : list RawCommand) : result LoadError unit :=
  match cs with
  | [] => Ok tt
  | c :: r =>
      let sorted := match prev with Some p => negb (lex_le (cmd_name c) p) | None => true end in
      if negb sorted then
        Err (NotCanonical (chars "commands must be sorted and unique; " ++ debug (default [] prev)
               ++ chars " is followed by " ++ debug (cmd_name c)))
      else if decide (cmd_name c = to_uppercase upper (cmd_name c)) then canonical_from (Some (cmd_name c)) r
      else Err (NotCanonical (chars "command name " ++ debug (cmd_name c) ++ chars " is not uppercase"))
  end.
Definition check_canonical (s : Snapshot) : result LoadError unit := canonical_from None (commands s).

Definition parse_unverified (b : bytes) : result LoadError Snapshot :=
  match from_slice b with
  | Err e => Err (ParseError e)
  | Ok snap =>
      if decide (schema snap = SCHEMA) then let? _ := check_canonical snap in Ok snap
      else Err (SchemaError (schema snap))
  end.

Definition load (b : bytes) (expected_digest : str) : result LoadError Snapshot :=
  let actual := digest b in
  let expected := trim expected_digest in
  if decide (actual = expected) then parse_unverified b
  else Err (DigestError expected actual).

End Load.

(** ** Effects *)

Record Override := mkOverride {
  ov_destructive : bool;
  ov_consumes : bool;
  ov_admin : bool;
  ov_blocks : bool;
  ov_reads_data : bool;
  ov_writes_data : bool;
  ov_classified : bool;
}.

Definition NONE_OV : Override := mkOverride false false false false false false false.
Definition DESTRUCTIVE_OV : Override := mkOverride true false false false false false true.
Definition DESTRUCTIVE_ADMIN_OV : Override := mkOverride true false true false false false true.
Definition ADMIN_OV : Override := mkOverride false false true false false false true.
Definition CONSUMES_OV : Override := mkOverride false true false false false false true.
Definition DIAGNOSTIC_OV : Override := mkOverride false false false false true false true.
Definition ADMIN_CLASSIFIED_OV : Override := mkOverride false false true false false false true.
Definition SESSION_OV : Override := mkOverride false false false false false false true.
Definition PUBLISHES_OV : Override := mkOverride false false false false false true true.
Definition BLOCKING_OV : Override := mkOverride false false false true false false true.

Definition OVERRIDES : list (str * Override) := [
  (chars "FLUSHALL", DESTRUCTIVE_OV); (chars "FLUSHDB", DESTRUCTIVE_OV); (chars "SWAPDB", DESTRUCTIVE_ADMIN_OV);
  (chars "SCRIPT|FLUSH", DESTRUCTIVE_ADMIN_OV); (chars "FUNCTION|FLUSH", DESTRUCTIVE_ADMIN_OV); (chars "CLUSTER|RESET", DESTRUCTIVE_ADMIN_OV);
  (chars "CLUSTER|FLUSHSLOTS", DESTRUCTIVE_ADMIN_OV); (chars "CLUSTER|FORGET", DESTRUCTIVE_ADMIN_OV); (chars "CLUSTER|DELSLOTS", DESTRUCTIVE_ADMIN_OV);
  (chars "CLUSTER|DELSLOTSRANGE", DESTRUCTIVE_ADMIN_OV); (chars "CLUSTER|SETSLOT", DESTRUCTIVE_ADMIN_OV); (chars "CLUSTER|FAILOVER", DESTRUCTIVE_ADMIN_OV);
  (chars "ACL|DELUSER", DESTRUCTIVE_ADMIN_OV); (chars "ACL|LOAD", ADMIN_OV); (chars "ACL|SETUSER", ADMIN_OV);
  (chars "SHUTDOWN", DESTRUCTIVE_ADMIN_OV); (chars "FAILOVER", DESTRUCTIVE_ADMIN_OV); (chars "REPLICAOF", DESTRUCTIVE_ADMIN_OV);
  (chars "SLAVEOF", DESTRUCTIVE_ADMIN_OV); (chars "DEBUG", DESTRUCTIVE_ADMIN_OV); (chars "MIGRATE", ADMIN_OV);
  (chars "CLIENT|KILL", ADMIN_OV); (chars "CLIENT|PAUSE", ADMIN_OV); (chars "CLIENT|UNPAUSE", ADMIN_OV);
  (chars "CONFIG|SET", ADMIN_OV); (chars "CONFIG|REWRITE", ADMIN_OV); (chars "CONFIG|RESETSTAT", ADMIN_OV);
  (chars "BGREWRITEAOF", ADMIN_OV); (chars "BGSAVE", ADMIN_OV); (chars "SAVE", ADMIN_OV);
  (chars "LASTSAVE", DIAGNOSTIC_OV); (chars "MEMORY|DOCTOR", DIAGNOSTIC_OV); (chars "MEMORY|STATS", DIAGNOSTIC_OV);
  (chars "MEMORY|MALLOC-STATS", DIAGNOSTIC_OV); (chars "MEMORY|USAGE", DIAGNOSTIC_OV); (chars "MEMORY|PURGE", ADMIN_CLASSIFIED_OV);
  (chars "LATENCY|DOCTOR", DIAGNOSTIC_OV); (chars "LATENCY|HISTORY", DIAGNOSTIC_OV); (chars "LATENCY|LATEST", DIAGNOSTIC_OV);
  (chars "LATENCY|GRAPH", DIAGNOSTIC_OV); (chars "LATENCY|RESET", ADMIN_CLASSIFIED_OV); (chars "SLOWLOG|GET", DIAGNOSTIC_OV);
  (chars "SLOWLOG|LEN", DIAGNOSTIC_OV); (chars "SLOWLOG|HELP", DIAGNOSTIC_OV); (chars "SLOWLOG|RESET", ADMIN_CLASSIFIED_OV);
  (chars "OBJECT|ENCODING", DIAGNOSTIC_OV); (chars "OBJECT|FREQ", DIAGNOSTIC_OV); (chars "OBJECT|IDLETIME", DIAGNOSTIC_OV);
  (chars "OBJECT|REFCOUNT", DIAGNOSTIC_OV); (chars "OBJECT|HELP", DIAGNOSTIC_OV); (chars "PUBSUB|CHANNELS", DIAGNOSTIC_OV);
  (chars "PUBSUB|NUMSUB", DIAGNOSTIC_OV); (chars "PUBSUB|NUMPAT", DIAGNOSTIC_OV); (chars "PUBSUB|SHARDCHANNELS", DIAGNOSTIC_OV);
  (chars "PUBSUB|SHARDNUMSUB", DIAGNOSTIC_OV); (chars "PUBSUB|HELP", DIAGNOSTIC_OV); (chars "MODULE|LIST", DIAGNOSTIC_OV);
  (chars "MODULE|HELP", DIAGNOSTIC_OV); (chars "MODULE|LOAD", ADMIN_CLASSIFIED_OV); (chars "MODULE|LOADEX", ADMIN_CLASSIFIED_OV);
  (chars "MODULE|UNLOAD", ADMIN_CLASSIFIED_OV); (chars "MONITOR", ADMIN_OV); (chars "XREADGROUP", CONSUMES_OV);
  (chars "XCLAIM", CONSUMES_OV); (chars "XAUTOCLAIM", CONSUMES_OV); (chars "XACK", CONSUMES_OV);
  (chars "XGROUP|SETID", CONSUMES_OV); (chars "XGROUP|DESTROY", CONSUMES_OV); (chars "SPOP", CONSUMES_OV);
  (chars "LPOP", CONSUMES_OV); (chars "RPOP", CONSUMES_OV); (chars "LMPOP", CONSUMES_OV);
  (chars "ZMPOP", CONSUMES_OV); (chars "BLPOP", CONSUMES_OV); (chars "BRPOP", CONSUMES_OV);
  (chars "BLMPOP", CONSUMES_OV); (chars "BZMPOP", CONSUMES_OV); (chars "BZPOPMIN", CONSUMES_OV);
  (chars "BZPOPMAX", CONSUMES_OV); (chars "ZPOPMIN", CONSUMES_OV); (chars "ZPOPMAX", CONSUMES_OV);
  (chars "GETDEL", CONSUMES_OV); (chars "HGETDEL", CONSUMES_OV); (chars "ASKING", SESSION_OV);
  (chars "AUTH", SESSION_OV); (chars "CLIENT|CACHING", SESSION_OV); (chars "CLIENT|CAPA", SESSION_OV);
  (chars "CLIENT|NO-TOUCH", SESSION_OV); (chars "CLIENT|REPLY", SESSION_OV); (chars "CLIENT|SETINFO", SESSION_OV);
  (chars "CLIENT|SETNAME", SESSION_OV); (chars "CLIENT|TRACKING", SESSION_OV); (chars "DISCARD", SESSION_OV);
  (chars "ECHO", SESSION_OV); (chars "HELLO", SESSION_OV); (chars "MULTI", SESSION_OV);
  (chars "PING", SESSION_OV); (chars "PSUBSCRIBE", SESSION_OV); (chars "PUNSUBSCRIBE", SESSION_OV);
  (chars "QUIT", SESSION_OV); (chars "READONLY", SESSION_OV); (chars "READWRITE", SESSION_OV);
  (chars "RESET", SESSION_OV); (chars "SELECT", SESSION_OV); (chars "SSUBSCRIBE", SESSION_OV);
  (chars "SUBSCRIBE", SESSION_OV); (chars "SUNSUBSCRIBE", SESSION_OV); (chars "UNSUBSCRIBE", SESSION_OV);
  (chars "UNWATCH", SESSION_OV); (chars "WATCH", SESSION_OV); (chars "PUBLISH", PUBLISHES_OV);
  (chars "SPUBLISH", PUBLISHES_OV); (chars "WAIT", BLOCKING_OV); (chars "WAITAOF", BLOCKING_OV);
  (chars "ACL|CAT", DIAGNOSTIC_OV); (chars "ACL|GENPASS", DIAGNOSTIC_OV); (chars "ACL|HELP", DIAGNOSTIC_OV);
  (chars "ACL|WHOAMI", DIAGNOSTIC_OV); (chars "CLIENT|GETNAME", DIAGNOSTIC_OV); (chars "CLIENT|GETREDIR", DIAGNOSTIC_OV);
  (chars "CLIENT|HELP", DIAGNOSTIC_OV); (chars "CLIENT|ID", DIAGNOSTIC_OV); (chars "CLIENT|INFO", DIAGNOSTIC_OV);
  (chars "CLIENT|TRACKINGINFO", DIAGNOSTIC_OV); (chars "CLUSTER|COUNTKEYSINSLOT", DIAGNOSTIC_OV); (chars "CLUSTER|GETKEYSINSLOT", DIAGNOSTIC_OV);
  (chars "CLUSTER|HELP", DIAGNOSTIC_OV); (chars "CLUSTER|INFO", DIAGNOSTIC_OV); (chars "CLUSTER|KEYSLOT", DIAGNOSTIC_OV);
  (chars "CLUSTER|LINKS", DIAGNOSTIC_OV); (chars "CLUSTER|MYID", DIAGNOSTIC_OV); (chars "CLUSTER|MYSHARDID", DIAGNOSTIC_OV);
  (chars "CLUSTER|NODES", DIAGNOSTIC_OV); (chars "CLUSTER|SHARDS", DIAGNOSTIC_OV); (chars "CLUSTER|SLOTS", DIAGNOSTIC_OV);
  (chars "CLUSTER|SLOT-STATS", DIAGNOSTIC_OV); (chars "COMMAND", DIAGNOSTIC_OV); (chars "COMMAND|COUNT", DIAGNOSTIC_OV);
  (chars "COMMAND|DOCS", DIAGNOSTIC_OV); (chars "COMMAND|GETKEYS", DIAGNOSTIC_OV); (chars "COMMAND|GETKEYSANDFLAGS", DIAGNOSTIC_OV);
  (chars "COMMAND|HELP", DIAGNOSTIC_OV); (chars "COMMAND|INFO", DIAGNOSTIC_OV); (chars "COMMAND|LIST", DIAGNOSTIC_OV);
  (chars "COMMANDLOG|HELP", DIAGNOSTIC_OV); (chars "CONFIG|HELP", DIAGNOSTIC_OV); (chars "FUNCTION|DUMP", DIAGNOSTIC_OV);
  (chars "FUNCTION|HELP", DIAGNOSTIC_OV); (chars "FUNCTION|LIST", DIAGNOSTIC_OV); (chars "FUNCTION|STATS", DIAGNOSTIC_OV);
  (chars "INFO", DIAGNOSTIC_OV); (chars "LATENCY|HELP", DIAGNOSTIC_OV); (chars "MEMORY|HELP", DIAGNOSTIC_OV);
  (chars "ROLE", DIAGNOSTIC_OV); (chars "SCRIPT|EXISTS", DIAGNOSTIC_OV); (chars "SCRIPT|HELP", DIAGNOSTIC_OV);
  (chars "SCRIPT|SHOW", DIAGNOSTIC_OV); (chars "TIME", DIAGNOSTIC_OV); (chars "XGROUP|HELP", DIAGNOSTIC_OV);
  (chars "XINFO|HELP", DIAGNOSTIC_OV); (chars "CLIENT|IMPORT-SOURCE", ADMIN_CLASSIFIED_OV); (chars "FUNCTION|KILL", ADMIN_CLASSIFIED_OV);
  (chars "SCRIPT|DEBUG", ADMIN_CLASSIFIED_OV); (chars "SCRIPT|KILL", ADMIN_CLASSIFIED_OV); (chars "SCRIPT|LOAD", ADMIN_CLASSIFIED_OV)].

Definition DELIBERATELY_UNKNOWN : list str := [chars "EVAL"; chars "EVALSHA"; chars "EXEC"; chars "FCALL"].

Definition effects_from_flags (c : RawCommand) : Effects :=
  let has f := bool_decide (chars f ∈ flags c) in
  let read := has "readonly"%string in
  let write := has "write"%string in
  let adm := has "admin"%string in
  mkEffects read write false (has "blocking"%string) adm false (negb (read || write || adm)).

Definition apply_override (base : Effects) (ov : Override) : Effects :=
  mkEffects (reads_data base || ov_reads_data ov) (writes_data base || ov_writes_data ov)
    (consumes_state base || ov_consumes ov) (blocks base || ov_blocks ov) (admin base || ov_admin ov)
    (destructive base || ov_destructive ov) (unknown base && negb (ov_classified ov)).

Definition override_for (n : str) : Override :=
  match List.find (fun p => bool_decide (p.1 = n)) OVERRIDES with
  | Some p => p.2
  | None => NONE_OV
  end.

(** ** Arguments *)

Definition to_ascii_lower (s : str) : str := (fun c => if decide (65 <= c <= 90) then c + 32 else c) <$> s.
Definition to_ascii_upper (s : str) : str := (fun c => if decide (97 <= c <= 122) then c - 32 else c) <$> s.

(** The roles that an argument's name decides. *)
Definition named_role (n k grp : str) : Role :=
  if decide (n = chars "numkeys") then NumKeysRole
  else if decide (n = chars "field") then Field
  else if decide (n = chars "member") then Member
  else if decide (n ∈ [chars "group"; chars "groupname"]) then Group
  else if decide (n ∈ [chars "channel"; chars "shardchannel"]) then Channel
  else if decide (n = chars "consumer") then Consumer
  else if decide (n = chars "cursor") then Cursor
  else if decide (n = chars "score" /\ k = chars "double") then Score
  else if decide (n ∈ [chars "id"; chars "entry-id"; chars "start-id"; chars "end-id"] /\ grp = chars "stream")
       then EntryId
  else if decide (n ∈ [chars "seconds"; chars "timeout"]) then Integer Seconds
  else if decide (n = chars "milliseconds") then Integer Milliseconds
  else if decide (k = chars "integer") then Integer Count
  else Value.

Definition leaf_role (a : RawArg) (grp : str) : Role :=
  let n := to_ascii_lower (arg_name a) in
  if decide (kind a = chars "key") then Key
  else if decide (kind a = chars "pattern") then Pattern
  else if decide (kind a = chars "unix-time") then
    Integer (if contains_str (chars "milliseconds") n then UnixMilliseconds else UnixSeconds)
  else named_role n (kind a) grp.

(** A token of its own, or the upper-case name of a pure token. *)
Definition keyword_text (a : RawArg) : str := default (to_ascii_upper (arg_name a)) (token a).
Definition keyword_of (a : RawArg) : option str :=
  match token a with
  | Some t => Some t
  | None => if decide (kind a = chars "pure-token") then Some (to_ascii_upper (arg_name a)) else None
  end.

Definition finish_optional (a : RawArg) (n : Node) : Node := if optional a then Optional n else n.

Definition wrap (a : RawArg) (inner : Node) (is_pure_token : bool) : Node :=
  let repeated n := finish_optional a (if multiple a then Repeat n else n) in
  match token a with
  | Some t =>
      if is_pure_token then repeated inner
      else if multiple a && negb (multiple_token a) then finish_optional a (Seq [keyword t; Repeat inner])
      else repeated (Seq [keyword t; inner])
  | None => repeated inner
  end.

Definition plain_arg (a : RawArg) : bool :=
  multiple a && bool_decide (token a = None) && negb (optional a)
  && match arguments a with None => true | Some _ => false end.

Definition paired (kids : list RawArg) (grp : str) : option Node :=
  match kids with
  | [a; b] => if plain_arg a && plain_arg b then Some (Paired (leaf_role a grp) (leaf_role b grp)) else None
  | _ => None
  end.

Fixpoint node_from (grp : str) (a : RawArg) : Node :=
  let kids := match arguments a with
              | Some l => (fix go l := match l with [] => [] | x :: r => node_from grp x :: go r end) l
              | None => []
              end in
  if decide (kind a = chars "pure-token") then wrap a (keyword (keyword_text a)) true
  else
    wrap a (if decide (kind a = chars "oneof") then Choice kids
            else if decide (kind a = chars "block") then
              match paired (default [] (arguments a)) grp with
              | Some n => n
              | None => Seq kids
              end
            else arg (arg_name a) (leaf_role a grp)) false.

(** The group a [oneof] makes, when all its alternatives have a keyword. *)
Definition own_group (a : RawArg) : list ExclusiveGroup :=
  if decide (kind a = chars "oneof") then
    let kids := default [] (arguments a) in
    let ms := omap keyword_of kids in
    if decide (length ms = length kids /\ (1 < length ms)%nat) then [mkGroup (arg_name a) ms] else []
  else [].
Fixpoint groups_of (a : RawArg) : list ExclusiveGroup :=
  own_group a ++
  match arguments a with
  | Some l => (fix go l := match l with [] => [] | x :: r => groups_of x ++ go r end) l
  | None => []
  end.
Definition collect_groups (args : list RawArg) : list ExclusiveGroup := args ≫= groups_of.

Fixpoint since_of (parent : option str) (a : RawArg) : list (str * str) :=
  let since := match arg_since a with Some v => Some v | None => parent end in
  match keyword_of a, since with
  | Some t, Some v => [(t, v)]
  | _, _ => []
  end ++
  match arguments a with
  | Some l => (fix go l := match l with [] => [] | x :: r => since_of since x ++ go r end) l
  | None => []
  end.
Definition collect_since (args : list RawArg) (parent : option str) : list (str * str) := args ≫= since_of parent.

(** ** Commands *)

Definition is_bare_container (c : RawCommand) : bool :=
  bool_decide (container c = None) && bool_decide (flags c = [])
  && match cmd_arguments c with None => true | Some _ => false end && bool_decide (arity c = Some (-2)).

Definition compile_command (c : RawCommand) (f : Family) : CommandSpec :=
  let grp := default [] (cmd_group c) in
  let args := default [] (cmd_arguments c) in
  let bare := is_bare_container c in
  {| name := cmd_name c;
     summary := [];
     effects := if bare then effects_unknown else apply_override (effects_from_flags c) (override_for (cmd_name c));
     grammar := Seq (node_from grp <$> args);
     exclusive := collect_groups args;
     family := f;
     group := grp;
     since := cmd_since c;
     keyword_since := dedup (sort_by pair_le (collect_since args None));
     is_container := bare |}.

Definition compile (s : Snapshot) (f : Family) : list CommandSpec := (fun c => compile_command c f) <$> commands s.

(** ** Merging *)

Record Merged := mkMerged {
  merged_commands : list CommandSpec;
  redis_only : list str;
  valkey_only : list str;
  effect_conflicts : list str;
}.

Definition more_restrictive (a b : Effects) : Effects :=
  mkEffects (reads_data a || reads_data b) (writes_data a || writes_data b) (consumes_state a || consumes_state b)
    (blocks a || blocks b) (admin a || admin b) (destructive a || destructive b) (unknown a || unknown b).

Definition by_name (v : list CommandSpec) : gmap str CommandSpec :=
  foldl (fun m c => <[name c := c]> m) ∅ v.

Definition set_family (c : CommandSpec) (f : Family) : CommandSpec :=
  mkSpec (name c) (summary c) (effects c) (grammar c) (exclusive c) f (group c) (since c) (keyword_since c)
    (is_container c).
Definition set_effects (c : CommandSpec) (e : Effects) : CommandSpec :=
  mkSpec (name c) (summary c) e (grammar c) (exclusive c) (family c) (group c) (since c) (keyword_since c)
    (is_container c).

(** The loop over Redis's commands: what is left of Valkey's, and the lists so far. *)
Fixpoint merge_loop (redis : list CommandSpec) (v : gmap str CommandSpec) (m : Merged) : gmap str CommandSpec * Merged :=
  match redis with
  | [] => (v, m)
  | r :: rest =>
      match v !! name r with
      | Some vc =>
          let conflict := negb (bool_decide (effects r = effects vc)) in
          let r' := set_family (if conflict then set_effects r (more_restrictive (effects r) (effects vc)) else r) Both in
          merge_loop rest (delete (name r) v)
            (mkMerged (merged_commands m ++ [r']) (redis_only m) (valkey_only m)
               (effect_conflicts m ++ if conflict then [name r] else []))
      | None =>
          merge_loop rest v
            (mkMerged (merged_commands m ++ [set_family r Redis]) (redis_only m ++ [name r]) (valkey_only m)
               (effect_conflicts m))
      end
  end.

Definition spec_le (a b : CommandSpec) : bool := lex_le (name a) (name b).

Definition merge (redis valkey : list CommandSpec) : Merged :=
  let '(v, m) := merge_loop redis (by_name valkey) (mkMerged [] [] [] []) in
  let left_over := omap (fun k => v !! k) (keys v) in
  mkMerged (sort_by spec_le (merged_commands m ++ ((fun c => set_family c Valkey) <$> left_over)))
    (redis_only m) (valkey_only m ++ keys v) (effect_conflicts m).

(** ** The embedded catalog ([embedded.rs])

    Its cells are filled once; the bytes and digests are those built in. *)

Record Embedded := mkEmbedded {
  loaded : bool;
  integrity : option str;
  redis_cell : option (list CommandSpec);
  valkey_cell : option (list CommandSpec);
  merged_cell : option Merged;
}.
Definition unloaded : Embedded := mkEmbedded false None None None None.

Section Embed.
Context (blake3 : bytes -> bytes) (from_slice : bytes -> result str Snapshot).
Context (upper : Z -> str) (debug : str -> str).
Context (redis_json valkey_json : bytes) (redis_sum valkey_sum : str).

(** [OnceLock::set]: the first error stays. *)
Definition set_integrity (e : str) (s : Embedded) : Embedded :=
  match integrity s with
  | Some _ => s
  | None => mkEmbedded (loaded s) (Some e) (redis_cell s) (valkey_cell s) (merged_cell s)
  end.

Definition parse (b : bytes) (sum : str) (s : Embedded) : option Snapshot * Embedded :=
  let s := mkEmbedded true (integrity s) (redis_cell s) (valkey_cell s) (merged_cell s) in
  match load blake3 from_slice upper debug b sum with
  | Ok snap => (Some snap, s)
  | Err e => (None, set_integrity
      (chars "the embedded catalog snapshot is not the one that was reviewed: " ++ show_load_error e) s)
  end.

Definition compiled (o : option Snapshot) (f : Family) : list CommandSpec :=
  match o with
  | Some snap => compile snap f
  | None => []
  end.

Definition redis (s : Embedded) : list CommandSpec * Embedded :=
  match redis_cell s with
  | Some l => (l, s)
  | None => let '(o, s) := parse redis_json redis_sum s in
            let l := compiled o Redis in
            (l, mkEmbedded (loaded s) (integrity s) (Some l) (valkey_cell s) (merged_cell s))
  end.
Definition valkey (s : Embedded) : list CommandSpec * Embedded :=
  match valkey_cell s with
  | Some l => (l, s)
  | None => let '(o, s) := parse valkey_json valkey_sum s in
            let l := compiled o Valkey in
            (l, mkEmbedded (loaded s) (integrity s) (redis_cell s) (Some l) (merged_cell s))
  end.
Definition merged (s : Embedded) : Merged * Embedded :=
  match merged_cell s with
  | Some m => (m, s)
  | None => let '(r, s) := redis s in
            let '(v, s) := valkey s in
            let m := merge r v in
            (m, mkEmbedded (loaded s) (integrity s) (redis_cell s) (valkey_cell s) (Some m))
  end.

Definition verify (s : Embedded) : result str unit * Embedded :=
  let '(_, s) := merged s in
  (match integrity s with Some e => Err e | None => Ok tt end, s).

Definition lookup_spec (n : str) (s : Embedded) : option CommandSpec * Embedded :=
  let up := to_uppercase upper n in
  let '(m, s) := merged s in
  (List.find (fun c => bool_decide (name c = up)) (merged_commands m), s).

(** What [--version] says of one snapshot. *)
Definition describe_provenance (o : option Snapshot) : str :=
  match o with
  | None => chars "unverified"
  | Some snap => server_version (provenance snap) ++ chars " from " ++ image (provenance snap)
  end.
Definition provenances (s : Embedded) : list (str * str) * Embedded :=
  let '(r, s) := parse redis_json redis_sum s in
  let '(v, s) := parse valkey_json valkey_sum s in
  ([(chars "redis", describe_provenance r); (chars "valkey", describe_provenance v)], s).

End Embed.

(** ** Unfolding *)

Fixpoint raw_induction (P : RawArg -> Prop)
    (H : forall a, Forall P (default [] (arguments a)) -> P a) (a : RawArg) {struct a} : P a :=
  H a (match a return Forall P (default [] (arguments a)) with
       | mkRawArg _ _ _ _ _ _ _ _ _ (Some l) =>
           (fix all l : Forall P l :=
              match l with [] => Forall_nil_2 P | x :: r => Forall_cons_2 P x r (raw_induction P H x) (all r) end) l
       | mkRawArg _ _ _ _ _ _ _ _ _ None => Forall_nil_2 P
       end).

Definition kids (a : RawArg) : list RawArg := default [] (arguments a).

Lemma node_from_eq grp a :
  node_from grp a =
  if decide (kind a = chars "pure-token") then wrap a (keyword (keyword_text a)) true
  else
    wrap a (if decide (kind a = chars "oneof") then Choice (node_from grp <$> kids a)
            else if decide (kind a = chars "block") then default (Seq (node_from grp <$> kids a)) (paired (kids a) grp)
            else arg (arg_name a) (leaf_role a grp)) false.
Proof.
  destruct a as [n k t d s ki o m mt [l|]]; cbn [node_from arguments kids default]; [|done].
  repeat case_decide; done.
Qed.

Lemma groups_of_eq a : groups_of a = own_group a ++ (kids a ≫= groups_of).
Proof.
  destruct a as [n k t d s ki o m mt [l|]]; cbn [groups_of arguments kids default]; [|done].
  done.
Qed.

Lemma since_of_eq parent a :
  since_of parent a =
  (let since := match arg_since a with Some v => Some v | None => parent end in
   match keyword_of a, since with Some t, Some v => [(t, v)] | _, _ => [] end ++ (kids a ≫= since_of since)).
Proof.
  destruct a as [n k t d s ki o m mt [l|]]; cbn [since_of arguments kids default]; [|done].
  done.
Qed.
