(* ===== verification/CompileFacts.v ===== *)
(** * What the compiled catalog promises

    A snapshot is accepted exactly when it is the reviewed, canonical one; effects
    are never relaxed; every role comes from the snapshot; the merge of the two
    families is exact; and what the embedded catalog answers does not depend on
    what was asked before. *)

From S2P Require Import Prelude Text TextFacts Request Ordered Spec Compile.

(** ** Loading *)

Lemma lex_lt_spec s t : lex_lt s t = negb (lex_le t s).
Proof.
  unfold lex_lt. destruct (lex_le s t) eqn:E, (lex_le t s) eqn:E'; cbn [andb negb]; [..|done|].
  - rewrite (le_antisym _ _ E E'). by rewrite bool_decide_true.
  - rewrite bool_decide_false; [done|]. intros ->. congruence.
  - destruct (le_total s t) as [H|H]; congruence.
Qed.

Section Loading.
Context (blake3 : bytes -> bytes) (from_slice : bytes -> result str Snapshot).
Context (upper : Z -> str) (debug : str -> str).

Definition ascending (l : list str) : Prop := StronglySorted (fun s t => lex_lt s t = true) l.
Definition canonical (s : Snapshot) : Prop :=
  ascending (cmd_name <$> commands s) /\ Forall (fun c => cmd_name c = to_uppercase upper (cmd_name c)) (commands s).

Lemma ascending_cons x l : ascending (x :: l) <-> ascending l /\ match l with [] => True | y :: _ => lex_lt x y = true end.
Proof.
  split.
  - intros H. inversion_clear H as [|?? Hl Hx]. split; [done|]. destruct l; [done|]. by inversion_clear Hx.
  - intros [Hl Hx]. constructor; [done|]. destruct l as [|y l]; [constructor|]. constructor; [done|].
    inversion_clear Hl as [|?? _ Hy]. eapply Forall_impl; [exact Hy|]. intros z. by apply lex_lt_trans.
Qed.

Lemma canonical_from_spec prev cs :
  canonical_from upper debug prev cs = Ok tt <->
  ascending (from_option (fun p => [p]) [] prev ++ (cmd_name <$> cs))
  /\ Forall (fun c => cmd_name c = to_uppercase upper (cmd_name c)) cs.
Proof.
  revert prev. induction cs as [|c cs IH]; intros prev; cbn [canonical_from].
  - split; [|done]. intros _. split; [|constructor]. destruct prev; cbn; repeat constructor.
  - rewrite fmap_cons, Forall_cons. assert (Hh : match prev with Some p => negb (lex_le (cmd_name c) p) | None => true end
      = match prev with Some p => lex_lt p (cmd_name c) | None => true end) by (destruct prev; [by rewrite lex_lt_spec|done]).
    rewrite Hh. destruct prev as [p|]; cbn [from_option app].
    + rewrite (ascending_cons p). destruct (lex_lt p (cmd_name c)) eqn:E; cbn [negb]; [|split; [done|intros [[_ ?] _]; done]].
      case_decide as Hu; [rewrite IH; cbn; tauto|]. split; [done|]. intros [_ [? _]]; done.
    + cbn [negb]. case_decide as Hu; [rewrite IH; cbn; tauto|]. split; [done|]. intros [_ [? _]]; done.
Qed.

Lemma check_canonical_spec s : check_canonical upper debug s = Ok tt <-> canonical s.
Proof. unfold check_canonical. rewrite canonical_from_spec. done. Qed.

(** A snapshot is loaded exactly when its bytes have the stamped digest,
    read as JSON of the schema, and its commands are upper-case and strictly
    ascending. *)
Theorem load_exact b sum snap :
  load blake3 from_slice upper debug b sum = Ok snap <->
  digest blake3 b = trim sum /\ from_slice b = Ok snap /\ schema snap = SCHEMA /\ canonical snap.
Proof.
  unfold load, parse_unverified. case_decide as Hd; [|split; [done|tauto]].
  destruct (from_slice b) as [s|e]; [|split; [done|intros (_ & ? & _); done]].
  case_decide as Hs.
  - destruct (check_canonical upper debug s) as [[]|e] eqn:E; cbn [rbind].
    + apply check_canonical_spec in E. split; [intros [= <-]; done|intros (_ & [= ->] & _); done].
    + split; [done|]. intros (_ & [= ->] & _ & Hc). apply check_canonical_spec in Hc. congruence.
  - split; [done|]. intros (_ & [= ->] & ? & _). done.
Qed.

End Loading.

(** ** Effects *)

Lemma overrides_classified p : p ∈ OVERRIDES -> ov_classified p.2 = true.
Proof.
  assert (H : forallb (fun p => ov_classified p.2) OVERRIDES = true) by (vm_compute; reflexivity).
  intros Hp. rewrite forallb_forall in H. by apply H, list_elem_of_In.
Qed.

Lemma override_for_classified n : ov_classified (override_for n) = bool_decide (n ∈ OVERRIDES.*1).
Proof.
  unfold override_for. destruct (List.find _ OVERRIDES) as [p|] eqn:E.
  - apply List.find_some in E as [Hin E]. apply bool_decide_eq_true in E. subst n.
    apply list_elem_of_In in Hin. rewrite overrides_classified by done. symmetry. apply bool_decide_eq_true.
    apply list_elem_of_fmap. by exists p.
  - symmetry. apply bool_decide_eq_false. intros Hin. apply list_elem_of_fmap in Hin as (p & -> & Hin).
    apply list_elem_of_In in Hin. pose proof (List.find_none _ _ E p Hin) as Hf.
    apply bool_decide_eq_false in Hf. by apply Hf.
Qed.

(** A bit of a command's entry in the reviewed table. *)
Definition entered (n : str) (bit : Override -> bool) : Prop := exists ov, (n, ov) ∈ OVERRIDES /\ bit ov = true.

Lemma overrides_once : NoDup OVERRIDES.*1.
Proof. apply (bool_decide_unpack _). by vm_compute. Qed.

Lemma entered_once (l : list (str * Override)) n ov ov' :
  NoDup l.*1 -> (n, ov) ∈ l -> (n, ov') ∈ l -> ov = ov'.
Proof.
  intros Hn H H'. apply list_elem_of_lookup in H as [i Hi], H' as [j Hj].
  assert (i = j) as ->; [|congruence]. eapply NoDup_lookup; [exact Hn|..]; rewrite list_lookup_fmap.
  - rewrite Hi. reflexivity.
  - by rewrite Hj.
Qed.

Lemma override_entered n bit : bit NONE_OV = false -> bit (override_for n) = true <-> entered n bit.
Proof.
  intros Hn. unfold override_for, entered. destruct (List.find _ OVERRIDES) as [[k ov]|] eqn:E.
  - apply List.find_some in E as [Hin E]. apply bool_decide_eq_true in E. simpl in E. subst k.
    apply list_elem_of_In in Hin. cbn [snd]. split; [intros H; by exists ov|].
    intros (ov' & Hin' & H). by rewrite (entered_once _ _ _ _ overrides_once Hin Hin').
  - rewrite Hn. split; [done|]. intros (ov & Hin & _). apply list_elem_of_In in Hin.
    pose proof (List.find_none _ _ E _ Hin) as Hf. apply bool_decide_eq_false in Hf. by exfalso; apply Hf.
Qed.

(** C16. What a command is classified as is what the server's flags and the
    reviewed table say, and neither takes anything away from the other.  A bare
    container (no container of its own, no flags, no arguments, arity -2) is
    unknown and nothing else.  Any other command reads, writes, administers or
    blocks exactly when the flag of that name is among its flags or its entry in
    the table says so; it consumes or destroys exactly when its entry says so;
    and it is unknown exactly when none of the flags [readonly], [write] and
    [admin] classifies it and the table has no entry for it.  Unknown counts as
    mutating. *)
Theorem effects_fail_closed c f :
  let e := effects (compile_command c f) in
  let flag w := chars w ∈ flags c in
  let n := cmd_name c in
  let bare := container c = None /\ flags c = [] /\ cmd_arguments c = None /\ arity c = Some (-2) in
  (bare -> e = mkEffects false false false false false false true) /\
  (~ bare ->
     (reads_data e = true <-> flag "readonly"%string \/ entered n ov_reads_data) /\
     (writes_data e = true <-> flag "write"%string \/ entered n ov_writes_data) /\
     (admin e = true <-> flag "admin"%string \/ entered n ov_admin) /\
     (blocks e = true <-> flag "blocking"%string \/ entered n ov_blocks) /\
     (consumes_state e = true <-> entered n ov_consumes) /\
     (destructive e = true <-> entered n ov_destructive) /\
     (unknown e = true <->
        ~ flag "readonly"%string /\ ~ flag "write"%string /\ ~ flag "admin"%string /\ n ∉ OVERRIDES.*1)) /\
  (unknown e = true -> mutates e = true).
Proof.
  cbn zeta. cbn [effects compile_command].
  assert (is_bare_container c = true <->
    container c = None /\ flags c = [] /\ cmd_arguments c = None /\ arity c = Some (-2)) as Hbare.
  { unfold is_bare_container. rewrite !andb_true_iff, !bool_decide_eq_true.
    destruct (cmd_arguments c); naive_solver. }
  rewrite <- Hbare. split_and!.
  - by intros ->.
  - intros ->%not_true_is_false. unfold apply_override, effects_from_flags.
    cbn [reads_data writes_data consumes_state blocks admin destructive unknown].
    rewrite !orb_true_iff, !bool_decide_eq_true, !override_entered by done.
    rewrite andb_true_iff, !negb_true_iff, !orb_false_iff, !bool_decide_eq_false,
      override_for_classified, bool_decide_eq_false.
    split_and!; naive_solver.
  - unfold mutates. intros ->. by rewrite !orb_true_r.
Qed.

(** The commands left unknown on purpose have no entry in the table. *)
Lemma deliberately_unknown n : n ∈ DELIBERATELY_UNKNOWN -> n ∉ OVERRIDES.*1.
Proof.
  assert (H : forallb (fun n => bool_decide (n ∉ OVERRIDES.*1)) DELIBERATELY_UNKNOWN = true) by (vm_compute; reflexivity).
  intros Hn. rewrite forallb_forall in H. apply list_elem_of_In, H, bool_decide_eq_true in Hn. done.
Qed.

(** ** Roles come from the snapshot *)

(** An argument of a list, at any depth. *)
Inductive within : RawArg -> list RawArg -> Prop :=
| within_here a l : a ∈ l -> within a l
| within_kid a b l : b ∈ l -> within a (kids b) -> within a l.

Lemma within_mono a l l' : l ⊆ l' -> within a l -> within a l'.
Proof. 
  intros Hs H. revert Hs. destruct H as [x l H|x b l H Hw]; intros Hs; [apply within_here; by apply Hs|].
  apply (within_kid _ b); [by apply Hs|done].
Qed.

Definition from_snapshot (grp : str) (l : list RawArg) (lf : option str * Role) : Prop :=
  match lf.1 with
  | Some t => lf.2 = Keyword
  | None => exists a, within a l /\ leaf_role a grp = lf.2
  end.

Lemma leaves_keyword_seq t n : leaves (Seq [keyword t; n]) = (Some t, Keyword) :: leaves n.
Proof. rewrite leaves_items. cbn. by rewrite app_nil_r. Qed.

(** Wrapping adds at most the argument's keyword. *)
Lemma leaves_wrap a n b lf : lf ∈ leaves (wrap a n b) -> lf ∈ leaves n \/ (exists t, lf = (Some t, Keyword)).
Proof.
  assert (Ho : forall m, leaves (finish_optional a m) = leaves m) by (intros m; unfold finish_optional; by case_match).
  assert (Hm : forall m, leaves (if multiple a then Repeat m else m) = leaves m) by (intros m; by case_match).
  unfold wrap. cbv beta zeta. destruct (token a) as [t|]; [|rewrite Ho, Hm; by left].
  destruct b; [rewrite Ho, Hm; by left|]. destruct (multiple a && negb (multiple_token a));
    rewrite Ho, ?Hm, leaves_keyword_seq, elem_of_cons; (intros [->|H]; [right; by eexists|by left]).
Qed.

Lemma leaves_compiled grp a : Forall (from_snapshot grp [a]) (leaves (node_from grp a)).
Proof.
  revert a. apply raw_induction. intros a IH. fold (kids a) in IH. rewrite Forall_forall. intros [gd r] Hin.
  assert (Hk : forall lf, lf ∈ ((node_from grp <$> kids a) ≫= leaves) -> from_snapshot grp [a] lf).
  { intros lf Hl. apply list_elem_of_bind in Hl as (n & Hl & Hn). apply list_elem_of_fmap in Hn as (k & -> & Hk).
    rewrite Forall_forall in IH. pose proof (IH k Hk) as Hf. rewrite Forall_forall in Hf.
    pose proof (Hf lf Hl) as Hs. unfold from_snapshot in *. destruct (lf.1); [done|].
    destruct Hs as (b & Hw & Hr). exists b. split; [|done]. eapply within_kid; [by left|].
    eapply within_mono; [|exact Hw]. intros x Hx. apply list_elem_of_singleton in Hx. by subst. }
  rewrite node_from_eq in Hin. case_decide as Hp.
  - apply leaves_wrap in Hin as [Hin|(t & [= -> ->])]; [|done]. apply list_elem_of_singleton in Hin as [= -> ->]. done.
  - apply leaves_wrap in Hin as [Hin|(t & [= -> ->])]; [|done]. case_decide; [|case_decide].
    + rewrite leaves_alts in Hin. by apply Hk.
    + destruct (paired (kids a) grp) as [n|] eqn:E; cbn [default from_option id] in Hin.
      * unfold paired in E. destruct (kids a) as [|x [|y [|]]] eqn:Ek; try discriminate E.
        case_match; [|discriminate E]. injection E as <-. cbn [leaves] in Hin.
        apply elem_of_cons in Hin as [[= -> ->]|Hin]; [|apply list_elem_of_singleton in Hin as [= -> ->]].
        -- exists x. split; [|done]. eapply within_kid; [by left|]. rewrite Ek. apply within_here. by left.
        -- exists y. split; [|done]. eapply within_kid; [by left|]. rewrite Ek. apply within_here. right. by left.
      * rewrite leaves_items in Hin. by apply Hk.
    + apply list_elem_of_singleton in Hin as [= -> ->]. exists a. split; [|done]. apply within_here. by left.
Qed.

Lemma leaves_command c f lf : lf ∈ leaves (grammar (compile_command c f)) ->
  from_snapshot (default [] (cmd_group c)) (default [] (cmd_arguments c)) lf.
Proof.
  cbn [grammar compile_command]. rewrite leaves_items, list_elem_of_bind. intros (n & Hl & Hn).
  apply list_elem_of_fmap in Hn as (a & -> & Ha). pose proof (leaves_compiled (default [] (cmd_group c)) a) as H.
  rewrite Forall_forall in H. pose proof (H lf Hl) as Hs. unfold from_snapshot in *. destruct (lf.1); [done|].
  destruct Hs as (b & Hw & Hr). exists b. split; [|done]. eapply within_mono; [|exact Hw].
  intros x Hx. apply list_elem_of_singleton in Hx. by subst.
Qed.

Lemma leaf_role_key a grp : leaf_role a grp = Key <-> kind a = chars "key".
Proof.
  unfold leaf_role. case_decide; [done|]. split; [|done]. do 2 (case_decide; [done|]).
  unfold named_role. repeat case_decide; done.
Qed.

(** C15. Whatever is typed, a role other than the fallback comes from the
    snapshot: a keyword where the argument reads one of the grammar's keywords,
    or the role of an argument the snapshot declares, a key only where it
    declares a key. *)
Theorem roles_from_snapshot c f args i x r :
  args !! i = Some x -> resolve_roles args (grammar (compile_command c f)) !! i = Some r ->
  r = Value \/
  (r = Keyword /\ exists t, t ∈ keywords (grammar (compile_command c f)) /\ eq_ignore_ascii_case x (encode_str t) = true) \/
  (exists a, within a (default [] (cmd_arguments c)) /\ leaf_role a (default [] (cmd_group c)) = r /\
     (r = Key <-> kind a = chars "key")).
Proof.
  intros Hx Hr. destruct (resolve_leaf _ _ _ _ _ Hx Hr) as [->|(gd & Hin & Hg)]; [by left|right].
  pose proof (leaves_command _ _ _ Hin) as Hs. unfold from_snapshot in Hs. cbn [fst snd] in Hs.
  destruct gd as [t|].
  - left. subst r. split; [done|]. exists t. split; [by apply keywords_leaves|done].
  - right. destruct Hs as (a & Hw & Ha). exists a. split; [done|]. split; [done|]. rewrite <- Ha. apply leaf_role_key.
Qed.

(** ** Exclusive groups *)

(** The shape of a snapshot's arguments: only [oneof] and [block] have arguments
    of their own, and a pure token has its text. *)
Inductive shaped : RawArg -> Prop :=
| shape a : (kids a = [] \/ kind a = chars "oneof" \/ kind a = chars "block") ->
    (kind a = chars "pure-token" -> token a <> None) -> Forall shaped (kids a) -> shaped a.

Lemma wrap_leaves a n b lf : lf ∈ leaves n -> lf ∈ leaves (wrap a n b).
Proof.
  assert (Ho : forall m, leaves (finish_optional a m) = leaves m) by (intros m; unfold finish_optional; by case_match).
  assert (Hm : forall m, leaves (if multiple a then Repeat m else m) = leaves m) by (intros m; by case_match).
  intros H. unfold wrap. cbv beta zeta. destruct (token a) as [t|]; [|by rewrite Ho, Hm].
  destruct b; [by rewrite Ho, Hm|]. destruct (multiple a && negb (multiple_token a));
    rewrite Ho, ?Hm, leaves_keyword_seq; by right.
Qed.

Lemma wrap_token a n t : token a = Some t -> (Some t, Keyword) ∈ leaves (wrap a n false).
Proof.
  assert (Ho : forall m, leaves (finish_optional a m) = leaves m) by (intros m; unfold finish_optional; by case_match).
  assert (Hm : forall m, leaves (if multiple a then Repeat m else m) = leaves m) by (intros m; by case_match).
  intros H. unfold wrap. cbv beta zeta. rewrite H. destruct (multiple a && negb (multiple_token a));
    rewrite Ho, ?Hm, leaves_keyword_seq; by left.
Qed.

(** The keyword of an argument is a leaf of what it compiles to. *)
Lemma keyword_leaf grp a t : keyword_of a = Some t -> (Some t, Keyword) ∈ leaves (node_from grp a).
Proof.
  unfold keyword_of. intros H. rewrite node_from_eq. case_decide as Hp.
  - apply wrap_leaves, list_elem_of_singleton. unfold keyword_text. destruct (token a); injection H as ->; done.
  - destruct (token a) as [t'|] eqn:E; [|done]. injection H as ->. by apply wrap_token.
Qed.

(** A plain repeating argument has no keyword. *)
Lemma plain_no_keyword grp a t : shaped a -> plain_arg a = true -> (Some t, Keyword) ∉ leaves (node_from grp a).
Proof.
  intros Hs Hp. unfold plain_arg in Hp. rewrite !andb_true_iff, bool_decide_eq_true in Hp.
  destruct Hp as [[[_ Ht] _] Ha]. inversion_clear Hs as [? _ Hpt _].
  assert (Hk : kids a = []) by (unfold kids; by destruct (arguments a)).
  assert (Hw : forall n, leaves (wrap a n false) = leaves n).
  { intros n. unfold wrap, finish_optional. cbv beta zeta. rewrite Ht. by repeat case_match. }
  rewrite node_from_eq, decide_False, Hw, Hk by (intros H; by apply Hpt). repeat case_decide; cbn.
  - apply not_elem_of_nil.
  - apply not_elem_of_nil.
  - rewrite list_elem_of_singleton. done.
Qed.

(** The keywords of an argument's arguments are keywords of what it compiles to. *)
Lemma kid_leaves grp a k t : shaped a -> k ∈ kids a ->
  (Some t, Keyword) ∈ leaves (node_from grp k) -> (Some t, Keyword) ∈ leaves (node_from grp a).
Proof.
  intros Hs Hk Hl. inversion_clear Hs as [? Hkind _ Hkids].
  destruct Hkind as [H|Hkind]; [rewrite H in Hk; by apply elem_of_nil in Hk|].
  rewrite node_from_eq. rewrite decide_False by (destruct Hkind as [-> | ->]; by vm_compute). apply wrap_leaves.
  assert (Hin : (Some t, Keyword) ∈ ((node_from grp <$> kids a) ≫= leaves)).
  { apply list_elem_of_bind. exists (node_from grp k). split; [done|]. apply list_elem_of_fmap. by exists k. }
  case_decide; [by rewrite leaves_alts|]. destruct Hkind as [|Hb]; [done|]. rewrite decide_True by done.
  destruct (paired (kids a) grp) as [n|] eqn:E; cbn [default from_option id]; [|by rewrite leaves_items].
  exfalso. unfold paired in E. destruct (kids a) as [|x [|y [|]]]; try discriminate E.
  destruct (plain_arg x && plain_arg y) eqn:Ep; [|discriminate E]. apply andb_true_iff in Ep as [Hx Hy].
  rewrite !Forall_cons in Hkids. destruct Hkids as (Sx & Sy & _).
  apply elem_of_cons in Hk as [->|Hk]; [exact (plain_no_keyword grp x t Sx Hx Hl)|].
  apply list_elem_of_singleton in Hk as ->. exact (plain_no_keyword grp y t Sy Hy Hl).
Qed.

Lemma group_keywords grp a g m : shaped a -> g ∈ groups_of a -> m ∈ members g ->
  (Some m, Keyword) ∈ leaves (node_from grp a).
Proof.
  revert a. apply (raw_induction (fun a => shaped a -> g ∈ groups_of a -> m ∈ members g ->
    (Some m, Keyword) ∈ leaves (node_from grp a))).
  intros a IH Hs Hg Hm. fold (kids a) in IH. rewrite groups_of_eq in Hg. apply elem_of_app in Hg as [Hg|Hg].
  - unfold own_group in Hg. fold (kids a) in Hg. case_decide; [|by apply elem_of_nil in Hg]. case_decide as Hl; [|by apply elem_of_nil in Hg].
    apply list_elem_of_singleton in Hg as ->. cbn [members] in Hm. apply list_elem_of_omap in Hm as (k & Hk & Ht).
    apply (kid_leaves _ _ k); [done..|]. by apply keyword_leaf.
  - apply list_elem_of_bind in Hg as (k & Hg & Hk). apply (kid_leaves _ _ k); [done..|].
    inversion_clear Hs as [? _ _ Hkids]. rewrite Forall_forall in IH, Hkids. by apply IH; [|apply Hkids|..].
Qed.

Lemma group_size a g : g ∈ groups_of a -> (2 <= length (members g))%nat.
Proof.
  revert a. apply (raw_induction (fun a => g ∈ groups_of a -> (2 <= length (members g))%nat)).
  intros a IH Hg. fold (kids a) in IH. rewrite groups_of_eq in Hg. apply elem_of_app in Hg as [Hg|Hg].
  - unfold own_group in Hg. case_decide; [|by apply elem_of_nil in Hg]. case_decide as Hl; [|by apply elem_of_nil in Hg].
    apply list_elem_of_singleton in Hg as ->. cbn [members]. lia.
  - apply list_elem_of_bind in Hg as (k & Hg & Hk). rewrite Forall_forall in IH. by apply (IH k).
Qed.

(** Every exclusive group of a compiled command has at least two members,
    all of them keywords of its grammar. *)
Theorem exclusive_groups_real c f g :
  Forall shaped (default [] (cmd_arguments c)) -> g ∈ exclusive (compile_command c f) ->
  (2 <= length (members g))%nat /\ forall m, m ∈ members g -> m ∈ keywords (grammar (compile_command c f)).
Proof.
  intros Hs Hg. cbn [exclusive compile_command] in Hg. apply list_elem_of_bind in Hg as (a & Hg & Ha).
  split; [by eapply group_size|]. intros m Hm. apply keywords_leaves. cbn [grammar compile_command].
  rewrite leaves_items. apply list_elem_of_bind. exists (node_from (default [] (cmd_group c)) a).
  split; [|apply list_elem_of_fmap; by exists a]. rewrite Forall_forall in Hs. eapply group_keywords; eauto.
Qed.

(** [CLIENT KILL] takes several of its filters; the snapshot writes them as a
    repeating [oneof], which becomes an exclusive group. *)
Definition kill_filter (n t : string) : RawArg :=
  mkRawArg (chars n) (chars "string") (Some (chars t)) None None None true false false None.
Definition client_kill : RawCommand :=
  mkRawCommand (chars "CLIENT|KILL") (Some (chars "CLIENT")) None (Some (chars "connection")) (Some (-3))
    [chars "admin"] [] None None None
    (Some [mkRawArg (chars "new-format") (chars "oneof") None None None None false true false
             (Some [kill_filter "client-id" "ID"; kill_filter "username" "USER"; kill_filter "addr" "ADDR"])]).

Lemma repeating_oneof_is_exclusive upper :
  resolve_roles [bs "ID"; bs "7"; bs "USER"; bs "bob"] (grammar (compile_command client_kill Redis))
    = [Keyword; Value; Keyword; Value] /\
  available_keywords upper (compile_command client_kill Redis) [] = [chars "ADDR"; chars "ID"; chars "USER"] /\
  available_keywords upper (compile_command client_kill Redis) [chars "ID"] = [].
Proof. repeat split; vm_compute; reflexivity. Qed.

Lemma exclusive_groups_real_witness :
  let g := mkGroup (chars "new-format") [chars "ID"; chars "USER"; chars "ADDR"] in
  Forall shaped (default [] (cmd_arguments client_kill)) /\ g ∈ exclusive (compile_command client_kill Redis) /\
  (2 <= length (members g))%nat /\
  forall m, m ∈ members g -> m ∈ keywords (grammar (compile_command client_kill Redis)).
Proof.
  assert (Hf : forall n t, shaped (kill_filter n t)).
  { intros n t. constructor; [by left|discriminate|constructor]. }
  assert (Hs : Forall shaped (default [] (cmd_arguments client_kill))).
  { apply Forall_cons; split; [|constructor]. constructor; [by right; left|discriminate|].
    repeat (apply Forall_cons; split; [apply Hf|]). constructor. }
  assert (Hg : mkGroup (chars "new-format") [chars "ID"; chars "USER"; chars "ADDR"]
    ∈ exclusive (compile_command client_kill Redis)) by (apply list_elem_of_here).
  split; [exact Hs|]. split; [exact Hg|].
  apply (exclusive_groups_real client_kill Redis (mkGroup (chars "new-format") [chars "ID"; chars "USER"; chars "ADDR"]) Hs Hg).
Defined.

(** ** The merge of two families *)

Definition find_name (n : str) (l : list CommandSpec) : option CommandSpec :=
  List.find (fun c => bool_decide (name c = n)) l.

Lemma find_name_some n l c : NoDup (name <$> l) -> find_name n l = Some c <-> c ∈ l /\ name c = n.
Proof.
  induction l as [|x l IH]; intros Hd; cbn [find_name List.find].
  - split; [done|]. intros [H _]. by apply elem_of_nil in H.
  - rewrite fmap_cons in Hd. apply NoDup_cons in Hd as [Hx Hd]. rewrite elem_of_cons. case_bool_decide as E.
    + split; [intros [= ->]; auto|]. intros [[->|Hc] Hn]; [done|]. exfalso. apply Hx. rewrite E, <- Hn.
      by apply list_elem_of_fmap_2.
    + fold (find_name n l). rewrite IH by done. split; [intros []; auto|]. intros [[->|Hc] Hn]; [done|auto].
Qed.

Lemma find_name_none n l : find_name n l = None <-> (n ∉ name <$> l).
Proof.
  induction l as [|x l IH]; cbn [find_name List.find]; [split; [intros _; apply not_elem_of_nil|done]|].
  rewrite fmap_cons, not_elem_of_cons. case_bool_decide; [split; [done|intros []; congruence]|].
  fold (find_name n l). rewrite IH. split; [intros; split; congruence|tauto].
Qed.

Lemma by_name_lookup l n : NoDup (name <$> l) -> by_name l !! n = find_name n l.
Proof.
  intros Hd. apply option_eq. intros c. rewrite find_name_some by done. unfold by_name. revert Hd.
  induction l as [|x l IH] using rev_ind; intros Hd.
  - cbn. rewrite lookup_empty, elem_of_nil. split; [done|tauto].
  - rewrite fmap_app in Hd. apply NoDup_app in Hd as (Hd & Hx & _). rewrite foldl_app. cbn [foldl].
    rewrite elem_of_app, list_elem_of_singleton. destruct (decide (name x = n)) as [<-|Hn].
    + rewrite lookup_insert_eq. split; [intros [= ->]; auto|]. intros [[Hc| ->] He]; [|done].
      exfalso. apply (Hx (name x)); [|cbn; by left]. rewrite <- He. by apply list_elem_of_fmap_2.
    + rewrite lookup_insert_ne, IH by done. split; [intros []; auto|]. intros [[Hc| ->] He]; [done|congruence].
Qed.

Definition conflicts (v : gmap str CommandSpec) (r : CommandSpec) : Prop :=
  exists vc, v !! name r = Some vc /\ effects r <> effects vc.

#[local] Instance conflicts_dec v r : Decision (conflicts v r).
Proof.
  destruct (v !! name r) as [vc|] eqn:E; [destruct (decide (effects r = effects vc))|].
  - right. intros (vc' & H & Hn). congruence.
  - left. by exists vc.
  - right. intros (vc' & H & Hn). congruence.
Defined.

(** What the loop makes of one command of Redis. *)
Definition merge_one (v : gmap str CommandSpec) (r : CommandSpec) : CommandSpec :=
  match v !! name r with
  | Some vc => set_family (set_effects r (more_restrictive (effects r) (effects vc))) Both
  | None => set_family r Redis
  end.

Lemma more_restrictive_refl e : more_restrictive e e = e.
Proof. destruct e. unfold more_restrictive. cbn. by rewrite !orb_diag. Qed.

Lemma set_effects_same r : set_effects r (effects r) = r.
Proof. by destruct r. Qed.

Lemma merge_one_delete n v (rest : list CommandSpec) : (n ∉ name <$> rest) ->
  merge_one (delete n v) <$> rest = merge_one v <$> rest.
Proof.
  intros Hn. apply list_fmap_ext. intros i r Hr. unfold merge_one. rewrite lookup_delete_ne; [done|].
  intros ->. apply Hn. by apply list_elem_of_fmap_2, (list_elem_of_lookup_2 _ i).
Qed.

Lemma filter_delete n (rest : list CommandSpec) (P Q : CommandSpec -> Prop) `{!forall x, Decision (P x), !forall x, Decision (Q x)} :
  (forall r, name r <> n -> P r <-> Q r) -> (n ∉ name <$> rest) -> filter P rest = filter Q rest.
Proof.
  intros Hpq Hn. induction rest as [|r rest IH]; [done|]. rewrite fmap_cons in Hn.
  apply not_elem_of_cons in Hn as [Hr Hn]. rewrite !filter_cons, IH by done.
  pose proof (Hpq r ltac:(congruence)) as Hi. do 2 case_decide; tauto.
Qed.

Lemma merge_loop_spec redis v m : NoDup (name <$> redis) ->
  merge_loop redis v m =
  (foldl (fun v r => delete (name r) v) v redis,
   mkMerged (merged_commands m ++ (merge_one v <$> redis))
     (redis_only m ++ (name <$> filter (fun r => v !! name r = None) redis)) (valkey_only m)
     (effect_conflicts m ++ (name <$> filter (conflicts v) redis))).
Proof.
  revert v m. induction redis as [|r rest IH]; intros v m Hd.
  { cbn. rewrite !app_nil_r. by destruct m. }
  rewrite fmap_cons in Hd. apply NoDup_cons in Hd as [Hr Hd]. cbn [merge_loop foldl].
  assert (Hf1 : forall w, w = delete (name r) v ->
     filter (fun r => w !! name r = None) rest = filter (fun r => v !! name r = None) rest).
  { intros w ->. apply (filter_delete (name r)); [|done]. intros x Hx. by rewrite lookup_delete_ne by congruence. }
  assert (Hf2 : filter (conflicts (delete (name r) v)) rest = filter (conflicts v) rest).
  { apply (filter_delete (name r)); [|done]. intros x Hx. unfold conflicts. by rewrite lookup_delete_ne by congruence. }
  rewrite !filter_cons. destruct (v !! name r) as [vc|] eqn:E.
  - rewrite IH by done. cbn [merged_commands redis_only valkey_only effect_conflicts].
    rewrite merge_one_delete, (Hf1 _ eq_refl), Hf2 by done. rewrite (decide_False (P := Some vc = None)) by done.
    f_equal. f_equal.
    + rewrite fmap_cons, <- app_assoc. unfold merge_one at 2. rewrite E. cbn [app]. do 2 f_equal. f_equal.
      case_bool_decide as Ee; cbn [negb]; [|done]. rewrite <- Ee, more_restrictive_refl. by rewrite set_effects_same.
    + rewrite <- app_assoc. f_equal. case_bool_decide as Ee; cbn [negb].
      * rewrite decide_False; [done|]. intros (vc' & H & Hn). congruence.
      * rewrite decide_True; [done|]. by exists vc.
  - rewrite IH by done. cbn [merged_commands redis_only valkey_only effect_conflicts].
    rewrite (decide_True (P := None = None)) by done. rewrite (delete_id v) by done.
    f_equal. f_equal.
    + rewrite fmap_cons, <- app_assoc. unfold merge_one at 2. by rewrite E.
    + by rewrite fmap_cons, <- app_assoc.
    + rewrite decide_False; [done|]. intros (vc & H & _). congruence.
Qed.

Lemma foldl_delete (redis : list CommandSpec) (v : gmap str CommandSpec) n :
  foldl (fun v r => delete (name r) v) v redis !! n = if decide (n ∈ name <$> redis) then None else v !! n.
Proof.
  revert v. induction redis as [|r rest IH]; intros v; cbn [foldl].
  - rewrite decide_False; [done|]. apply not_elem_of_nil.
  - rewrite IH, fmap_cons. destruct (decide (n = name r)) as [->|Hn].
    + rewrite lookup_delete_eq, (decide_True (P := name r ∈ name r :: _)) by (by left). by case_decide.
    + rewrite lookup_delete_ne by done. do 2 case_decide; set_solver.
Qed.

Lemma merge_one_name v r : name (merge_one v r) = name r.
Proof. unfold merge_one. by case_match. Qed.

(** What the two families say of one name, together. *)
Definition merged_entry (r v : option CommandSpec) : option CommandSpec :=
  match r, v with
  | Some r, Some v => Some (set_family (set_effects r (more_restrictive (effects r) (effects v))) Both)
  | Some r, None => Some (set_family r Redis)
  | None, Some v => Some (set_family v Valkey)
  | None, None => None
  end.

#[export] Instance spec_le_pre : TotalPre spec_le.
Proof.
  split; unfold spec_le.
  - intros x. apply le_refl.
  - intros x y. apply le_total.
  - intros x y z. apply le_trans.
Qed.

Section Merging.
Context (redis valkey : list CommandSpec) (Hr : NoDup (name <$> redis)) (Hv : NoDup (name <$> valkey)).

Definition left_over : gmap str CommandSpec := foldl (fun v r => delete (name r) v) (by_name valkey) redis.

Lemma left_over_lookup n :
  left_over !! n = if decide (n ∈ name <$> redis) then None else find_name n valkey.
Proof. unfold left_over. by rewrite foldl_delete, by_name_lookup. Qed.

Lemma left_over_name n c : left_over !! n = Some c -> name c = n.
Proof. rewrite left_over_lookup. case_decide; [done|].
  intros Hf. apply find_name_some in Hf as [_ Hf]; done.
Qed.

Lemma merge_commands :
  merged_commands (merge redis valkey) ≡ₚ
  (merge_one (by_name valkey) <$> redis) ++ ((fun c => set_family c Valkey) <$> omap (fun k => left_over !! k) (keys left_over)).
Proof.
  unfold merge. rewrite merge_loop_spec by done. cbn [merged_commands app]. fold left_over.
  apply sort_by_perm.
Qed.

Lemma leftover_names (ks : list str) : Forall (fun k => is_Some (left_over !! k)) ks ->
  name <$> ((fun c => set_family c Valkey) <$> omap (fun k => left_over !! k) ks) = ks.
Proof.
  induction 1 as [|k ks [c Hc] _ IH]; [done|]. cbn [omap list_omap]. rewrite Hc, !fmap_cons, IH.
  f_equal. cbn. by apply left_over_name.
Qed.

Lemma merge_names : name <$> merged_commands (merge redis valkey) ≡ₚ (name <$> redis) ++ keys left_over.
Proof.
  rewrite merge_commands, fmap_app, leftover_names.
  - rewrite <- list_fmap_compose. erewrite list_fmap_ext; [done|]. intros i r _. apply merge_one_name.
  - rewrite Forall_forall. intros k. apply keys_elem.
Qed.

Lemma merge_nodup : NoDup (name <$> merged_commands (merge redis valkey)).
Proof.
  rewrite merge_names. apply NoDup_app. split; [done|]. split; [|apply keys_nodup].
  intros n Hn Hk. apply keys_elem in Hk as [c Hc]. rewrite left_over_lookup, decide_True in Hc by done. done.
Qed.

Lemma merge_find n : find_name n (merged_commands (merge redis valkey)) = merged_entry (find_name n redis) (find_name n valkey).
Proof.
  apply option_eq. intros c. rewrite find_name_some by apply merge_nodup. rewrite merge_commands, elem_of_app.
  assert (Hone : forall r, name r = n -> merged_entry (Some r) (find_name n valkey) = Some (merge_one (by_name valkey) r)).
  { intros r <-. unfold merge_one. rewrite by_name_lookup by done. by destruct (find_name (name r) valkey). }
  split.
  - intros [[Hin|Hin] Hn]; apply list_elem_of_fmap in Hin as (r & -> & Hin).
    + rewrite merge_one_name in Hn. rewrite (proj2 (find_name_some n redis r Hr)) by done. by apply Hone.
    + apply list_elem_of_omap in Hin as (k & _ & Hk). pose proof (left_over_name _ _ Hk) as <-.
      change (name r = n) in Hn. subst n. rewrite left_over_lookup in Hk. case_decide as Hd; [done|].
      rewrite (proj2 (find_name_none _ _) Hd), Hk. done.
  - destruct (find_name n redis) as [r|] eqn:E.
    + apply find_name_some in E as [Hin Hn]; [|done]. rewrite Hone by done. intros [= <-].
      rewrite merge_one_name. split; [left; by apply list_elem_of_fmap_2|done].
    + destruct (find_name n valkey) as [v|] eqn:Ev; [|done]. intros [= <-]. pose proof Ev as Ev'.
      apply find_name_some in Ev' as [_ Hn]; [|done]. split; [right|done].
      apply list_elem_of_fmap. exists v. split; [done|]. apply list_elem_of_omap. exists n.
      apply find_name_none in E. assert (Hl : left_over !! n = Some v) by (by rewrite left_over_lookup, decide_False).
      split; [|done]. apply keys_elem. by exists v.
Qed.

End Merging.

(** The merge of the two families is exact: for each name the entry of the
    one side that has it, or Redis's entry with the union of both effects; no
    name twice, in order; and the names of one side, and those whose effects
    differ, are the ones reported. *)
Theorem merge_exact redis valkey n :
  NoDup (name <$> redis) -> NoDup (name <$> valkey) ->
  let m := merge redis valkey in
  find_name n (merged_commands m) = merged_entry (find_name n redis) (find_name n valkey) /\
  NoDup (name <$> merged_commands m) /\
  StronglySorted (fun a b => lex_le (name a) (name b) = true) (merged_commands m) /\
  (n ∈ redis_only m <-> is_Some (find_name n redis) /\ find_name n valkey = None) /\
  (n ∈ valkey_only m <-> find_name n redis = None /\ is_Some (find_name n valkey)) /\
  (n ∈ effect_conflicts m <->
     exists r v, find_name n redis = Some r /\ find_name n valkey = Some v /\ effects r <> effects v).
Proof.
  intros Hr Hv m. split; [by apply merge_find|]. split; [by apply merge_nodup|]. subst m.
  unfold merge. rewrite merge_loop_spec by done. fold (left_over redis valkey).
  cbn [merged_commands redis_only valkey_only effect_conflicts app]. split; [|split; [|split]].
  - apply (sort_by_sorted spec_le).
  - rewrite list_elem_of_fmap. split.
    + intros (r & -> & Hin). apply list_elem_of_filter in Hin as [Hf Hin]. rewrite by_name_lookup in Hf by done.
      split; [|done]. exists r. by apply find_name_some.
    + intros [[r Hf] Hn]. apply find_name_some in Hf as [Hin <-]; [|done]. exists r. split; [done|].
      apply list_elem_of_filter. by rewrite by_name_lookup.
  - rewrite keys_elem, left_over_lookup, find_name_none by done. case_decide; split.
    + by intros [? ?].
    + tauto.
    + tauto.
    + tauto.
  - rewrite list_elem_of_fmap. split.
    + intros (r & -> & Hin). apply list_elem_of_filter in Hin as [(v & Hf & He) Hin]. rewrite by_name_lookup in Hf by done.
      exists r, v. split; [by apply find_name_some|done].
    + intros (r & v & Hf & Hf' & He). apply find_name_some in Hf as [Hin <-]; [|done]. exists r. split; [done|].
      apply list_elem_of_filter. split; [|done]. exists v. by rewrite by_name_lookup.
Qed.

Lemma merge_exact_witness :
  let get := compile_command (mkRawCommand (chars "GET") None None None None [chars "readonly"] [] None None None None) in
  let wait f := compile_command (mkRawCommand (chars "HEXPIRE") None None None None f [] None None None None) in
  let r := [get Redis; wait [chars "write"] Redis] in
  let v := [get Valkey; wait [chars "readonly"] Valkey] in
  let m := merge r v in
  find_name (chars "HEXPIRE") (merged_commands m) = merged_entry (find_name (chars "HEXPIRE") r) (find_name (chars "HEXPIRE") v)
  /\ (effects <$> find_name (chars "HEXPIRE") (merged_commands m))
     = Some (mkEffects true true false false false false false)
  /\ effect_conflicts m = [chars "HEXPIRE"].
Proof.
  intros get wait r v m.
  assert (H : NoDup (name <$> r)) by (apply (bool_decide_unpack _); vm_compute; exact I).
  assert (H' : NoDup (name <$> v)) by (apply (bool_decide_unpack _); vm_compute; exact I).
  split; [|split; vm_compute; reflexivity].
  exact (proj1 (merge_exact r v (chars "HEXPIRE") H H')).
Defined.

Lemma roles_from_snapshot_witness :
  let c := mkRawCommand (chars "GET") None None None None [chars "readonly"] [] None None None
             (Some [mkRawArg (chars "key") (chars "key") None None None None false false false None]) in
  resolve_roles [bs "NX"] (grammar (compile_command c Redis)) !! 0%nat = Some Key /\
  (Key = Value \/
  (Key = Keyword /\ exists t, t ∈ keywords (grammar (compile_command c Redis)) /\ eq_ignore_ascii_case (bs "NX") (encode_str t) = true) \/
  (exists a, within a (default [] (cmd_arguments c)) /\ leaf_role a (default [] (cmd_group c)) = Key /\
     (Key = Key <-> kind a = chars "key"))).
Proof.
  intros c.
  assert (H1 : [bs "NX"] !! 0%nat = Some (bs "NX")) by reflexivity.
  assert (H2 : resolve_roles [bs "NX"] (grammar (compile_command c Redis)) !! 0%nat = Some Key) by (vm_compute; reflexivity).
  split; [exact H2|]. exact (roles_from_snapshot c Redis [bs "NX"] 0 (bs "NX") Key H1 H2).
Defined.

(** ** The embedded catalog *)

Section Embedding.
Context (blake3 : bytes -> bytes) (from_slice : bytes -> result str Snapshot).
Context (upper : Z -> str) (debug : str -> str).
Context (redis_json valkey_json : bytes) (redis_sum valkey_sum : str).

Abbreviation load_redis := (load blake3 from_slice upper debug redis_json redis_sum).
Abbreviation load_valkey := (load blake3 from_slice upper debug valkey_json valkey_sum).
Abbreviation get_redis := (redis blake3 from_slice upper debug redis_json redis_sum).
Abbreviation get_valkey := (valkey blake3 from_slice upper debug valkey_json valkey_sum).
Abbreviation get_merged := (merged blake3 from_slice upper debug redis_json valkey_json redis_sum valkey_sum).
Abbreviation get_provenances := (provenances blake3 from_slice upper debug redis_json valkey_json redis_sum valkey_sum).

Definition loaded_ok {E A} (r : result E A) : option A := match r with Ok a => Some a | Err _ => None end.
Definition redis_specs : list CommandSpec := compiled (loaded_ok load_redis) Redis.
Definition valkey_specs : list CommandSpec := compiled (loaded_ok load_valkey) Valkey.

(** The states the accessors lead to. *)
Inductive reached : Embedded -> Prop :=
| reached_start : reached unloaded
| reached_redis s : reached s -> reached (get_redis s).2
| reached_valkey s : reached s -> reached (get_valkey s).2
| reached_merged s : reached s -> reached (get_merged s).2
| reached_provenances s : reached s -> reached (get_provenances s).2.

Record consistent (s : Embedded) : Prop := {
  redis_filled : forall l, redis_cell s = Some l -> l = redis_specs /\ (is_ok load_redis = false -> integrity s <> None);
  valkey_filled : forall l, valkey_cell s = Some l -> l = valkey_specs /\ (is_ok load_valkey = false -> integrity s <> None);
  merged_filled : forall m, merged_cell s = Some m ->
    m = merge redis_specs valkey_specs /\ redis_cell s <> None /\ valkey_cell s <> None;
  integrity_filled : integrity s <> None -> is_ok load_redis = false \/ is_ok load_valkey = false;
}.

Lemma set_integrity_some e s : integrity (set_integrity e s) <> None.
Proof. unfold set_integrity. destruct (integrity s) eqn:E; cbn; congruence. Qed.

Lemma parse_spec b sum s :
  parse blake3 from_slice upper debug b sum s =
  (loaded_ok (load blake3 from_slice upper debug b sum),
   (parse blake3 from_slice upper debug b sum s).2) /\
  let s' := (parse blake3 from_slice upper debug b sum s).2 in
  redis_cell s' = redis_cell s /\ valkey_cell s' = valkey_cell s /\ merged_cell s' = merged_cell s /\
  (integrity s <> None -> integrity s' <> None) /\
  (is_ok (load blake3 from_slice upper debug b sum) = false -> integrity s' <> None) /\
  (is_ok (load blake3 from_slice upper debug b sum) = true -> integrity s' = integrity s).
Proof.
  unfold parse. destruct (load _ _ _ _ _ _) as [snap|e]; cbn [loaded_ok fst snd is_ok].
  - split; [done|]. repeat split; done.
  - set (s0 := mkEmbedded _ _ _ _ _). pose proof (set_integrity_some
      (chars "the embedded catalog snapshot is not the one that was reviewed: " ++ show_load_error e) s0) as Hi.
    assert (Hc : forall e, redis_cell (set_integrity e s0) = redis_cell s /\ valkey_cell (set_integrity e s0) = valkey_cell s
      /\ merged_cell (set_integrity e s0) = merged_cell s) by (intros e'; unfold set_integrity; by case_match).
    destruct (Hc (chars "the embedded catalog snapshot is not the one that was reviewed: " ++ show_load_error e)) as (H1 & H2 & H3).
    split; [done|]. repeat split; done.
Qed.

Lemma consistent_parse b sum s :
  (b = redis_json /\ sum = redis_sum) \/ (b = valkey_json /\ sum = valkey_sum) -> consistent s ->
  consistent (parse blake3 from_slice upper debug b sum s).2.
Proof.
  intros Hb [Hr Hv Hm Hi]. destruct (parse_spec b sum s) as (_ & E1 & E2 & E3 & K1 & K2 & K3).
  constructor; rewrite ?E1, ?E2, ?E3.
  - intros l Hl. destruct (Hr l Hl). auto.
  - intros l Hl. destruct (Hv l Hl). auto.
  - done.
  - intros H. destruct (is_ok (load blake3 from_slice upper debug b sum)) eqn:E.
    + rewrite K3 in H by done. by apply Hi.
    + destruct Hb as [[-> ->]|[-> ->]]; auto.
Qed.

Lemma consistent_redis s : consistent s ->
  consistent (get_redis s).2 /\ (get_redis s).1 = redis_specs /\ redis_cell (get_redis s).2 = Some redis_specs /\
  (valkey_cell s <> None -> valkey_cell (get_redis s).2 <> None).
Proof.
  intros Hs. unfold redis. destruct (redis_cell s) as [l|] eqn:E.
  - destruct (redis_filled _ Hs l E) as [-> _]. done.
  - pose proof (consistent_parse redis_json redis_sum s (or_introl (conj eq_refl eq_refl)) Hs) as [Hr Hv Hm Hi].
    destruct (parse_spec redis_json redis_sum s) as (Hp & E1 & E2 & E3 & K1 & K2 & K3). rewrite Hp. cbn [fst snd].
    fold redis_specs. split; [|by rewrite E2]. constructor; cbn [redis_cell valkey_cell merged_cell integrity].
    + intros l [= <-]. auto.
    + done.
    + intros m Em. by destruct (Hm m Em) as (-> & _ & H3).
    + done.
Qed.

Lemma consistent_valkey s : consistent s ->
  consistent (get_valkey s).2 /\ (get_valkey s).1 = valkey_specs /\ valkey_cell (get_valkey s).2 = Some valkey_specs /\
  redis_cell (get_valkey s).2 = redis_cell s.
Proof.
  intros Hs. unfold valkey. destruct (valkey_cell s) as [l|] eqn:E.
  - destruct (valkey_filled _ Hs l E) as [-> _]. done.
  - pose proof (consistent_parse valkey_json valkey_sum s (or_intror (conj eq_refl eq_refl)) Hs) as [Hr Hv Hm Hi].
    destruct (parse_spec valkey_json valkey_sum s) as (Hp & E1 & E2 & E3 & K1 & K2 & K3). rewrite Hp. cbn [fst snd].
    fold valkey_specs. split; [|done]. constructor; cbn [redis_cell valkey_cell merged_cell integrity].
    + done.
    + intros l [= <-]. auto.
    + intros m Em. by destruct (Hm m Em) as (-> & H2 & _).
    + done.
Qed.

Lemma consistent_merged s : consistent s ->
  consistent (get_merged s).2 /\ (get_merged s).1 = merge redis_specs valkey_specs /\
  redis_cell (get_merged s).2 <> None /\ valkey_cell (get_merged s).2 <> None.
Proof.
  intros Hs. unfold merged. destruct (merged_cell s) as [m|] eqn:E.
  - destruct (merged_filled _ Hs m E) as (-> & H1 & H2). done.
  - destruct (consistent_redis s Hs) as (C1 & V1 & F1 & _). destruct (get_redis s) as [r s1]. cbn [fst snd] in *. subst r.
    destruct (consistent_valkey s1 C1) as (C2 & V2 & F2 & G2). destruct (get_valkey s1) as [v s2]. cbn [fst snd] in *. subst v.
    assert (redis_cell s2 <> None) by congruence. assert (valkey_cell s2 <> None) by congruence.
    split; [|done]. destruct C2 as [Hr Hv Hm Hi]. constructor; cbn [redis_cell valkey_cell merged_cell integrity]; try done.
    by intros m [= <-].
Qed.

Lemma reached_consistent s : reached s -> consistent s.
Proof.
  induction 1 as [|s _ IH|s _ IH|s _ IH|s _ IH].
  - by constructor.
  - by apply consistent_redis.
  - by apply consistent_valkey.
  - by apply consistent_merged.
  - unfold provenances. pose proof (consistent_parse redis_json redis_sum s (or_introl (conj eq_refl eq_refl)) IH) as H1.
    destruct (parse _ _ _ _ redis_json redis_sum s) as [o1 s1]. cbn [snd] in H1.
    pose proof (consistent_parse valkey_json valkey_sum s1 (or_intror (conj eq_refl eq_refl)) H1) as H2.
    by destruct (parse _ _ _ _ valkey_json valkey_sum s1) as [o2 s2].
Qed.

(** Whatever was asked before, the embedded catalog gives one answer: the
    entry of the merge of what verifies; it verifies exactly when both snapshots
    do, and with neither there is no entry for any name. *)
Theorem embedded_answers s n :
  reached s ->
  (lookup_spec blake3 from_slice upper debug redis_json valkey_json redis_sum valkey_sum n s).1
    = find_name (to_uppercase upper n) (merged_commands (merge redis_specs valkey_specs)) /\
  ((verify blake3 from_slice upper debug redis_json valkey_json redis_sum valkey_sum s).1 = Ok tt
    <-> is_ok load_redis = true /\ is_ok load_valkey = true) /\
  (is_ok load_redis = false -> is_ok load_valkey = false ->
    (lookup_spec blake3 from_slice upper debug redis_json valkey_json redis_sum valkey_sum n s).1 = None).
Proof.
  intros Hs%reached_consistent. destruct (consistent_merged s Hs) as (C & V & F1 & F2). unfold lookup_spec, verify.
  destruct (get_merged s) as [m s']. cbn [fst snd] in *. subst m. split; [done|]. split.
  - destruct C as [Hr Hv Hm Hi]. destruct (redis_cell s') as [r|]; [|done]. destruct (valkey_cell s') as [v|]; [|done].
    destruct (Hr r eq_refl) as [_ Ir]. destruct (Hv v eq_refl) as [_ Iv].
    destruct (integrity s') as [e|]; split.
    + done.
    + intros [H1 H2]. destruct (Hi ltac:(done)); congruence.
    + intros _. destruct (is_ok load_redis); [|by destruct (Ir eq_refl)].
      destruct (is_ok load_valkey); [done|by destruct (Iv eq_refl)].
    + done.
  - intros H1 H2. unfold redis_specs, valkey_specs, is_ok in *. by destruct load_redis, load_valkey.
Qed.

End Embedding.

Lemma embedded_answers_witness :
  let from_slice (_ : bytes) : result str Snapshot := Err (chars "no") in
  let s := (redis (fun _ => []) from_slice (fun _ => []) id [] [] unloaded).2 in
  reached (fun _ => []) from_slice (fun _ => []) id [] [] [] (chars "00") s /\
  (lookup_spec (fun _ => []) from_slice (fun _ => []) id [] [] [] (chars "00") (chars "GET") s).1 = None.
Proof.
  intros from_slice s.
  assert (Hs : reached (fun _ => []) from_slice (fun _ => []) id [] [] [] (chars "00") s)
    by (apply reached_redis, reached_start).
  split; [exact Hs|].
  exact (proj2 (proj2 (embedded_answers (fun _ => []) from_slice (fun _ => []) id [] [] [] (chars "00") s (chars "GET") Hs))
           eq_refl eq_refl).
Defined.
