(* ===== verification/CatalogDiff.v ===== *)
(** * What differs between the two catalogs ([crates/pr-catalog/src/diff.rs])

    Two compiled catalogs are compared name by name, in the order of the names;
    a grammar is compared by the text it is shown as. *)

From S2P Require Import Prelude Text Request Ordered Spec Compile CompileFacts.

Record ArgumentDifference := mkArgDiff {
  ad_name : str; ad_redis : str; ad_valkey : str; redis_only_keywords : list str; valkey_only_keywords : list str;
}.
Record SinceDifference := mkSinceDiff { sd_name : str; sd_redis : option str; sd_valkey : option str }.
Record EffectDifference := mkEffectDiff { ed_name : str; ed_redis : str; ed_valkey : str }.

Record CatalogDiff := mkDiff {
  diff_redis_only : list str;
  diff_valkey_only : list str;
  diff_arguments : list ArgumentDifference;
  diff_since : list SinceDifference;
  diff_effects : list EffectDifference;
  identical : nat;
}.

Definition total (d : CatalogDiff) : nat :=
  length (diff_redis_only d) + length (diff_valkey_only d) + length (diff_arguments d)
  + length (diff_since d) + length (diff_effects d).

(** ** Text *)

Definition role_tag (r : Role) : str :=
  match r with
  | Subcommand => chars "subcommand"
  | Key => chars "key"
  | Field => chars "field"
  | Member => chars "member"
  | Score => chars "score"
  | Value => chars "value"
  | Cursor => chars "cursor"
  | Group => chars "group"
  | Consumer => chars "consumer"
  | Channel => chars "channel"
  | EntryId => chars "id"
  | NumKeysRole => chars "numkeys"
  | Keyword => chars "keyword"
  | Integer u => label u
  | Pattern => chars "pattern"
  end.

Fixpoint signature (n : Node) : str :=
  match n with
  | Token text _ => text
  | Arg m r =>
      match r with
      | Key => chars "<" ++ m ++ chars ":key>"
      | Value => chars "<" ++ m ++ chars ">"
      | other => chars "<" ++ m ++ chars ":" ++ role_tag other ++ chars ">"
      end
  | Optional inner => chars "[" ++ signature inner ++ chars "]"
  | Choice alts =>
      join (chars " | ") ((fix go l := match l with [] => [] | x :: r => signature x :: go r end) alts)
  | Seq items =>
      join (chars " ")
        (filter (fun s => s <> []) ((fix go l := match l with [] => [] | x :: r => signature x :: go r end) items))
  | Repeat inner => signature inner ++ chars " ..."
  | Paired a b => chars "<" ++ role_tag a ++ chars "...> <" ++ role_tag b ++ chars "...>"
  end.

Definition describe (c : CommandSpec) : str :=
  let e := effects c in
  let parts := omap (fun p : bool * string => if p.1 then Some (chars p.2) else None)
    [(reads_data e, "read"); (writes_data e, "write"); (consumes_state e, "consumes"); (blocks e, "blocks");
     (admin e, "admin"); (destructive e, "destructive"); (unknown e, "unknown")]%string in
  match parts with
  | [] => chars "none"
  | _ => join (chars "+") parts
  end.

(** ** The comparison *)

Definition only_in (ks ls : list str) : list str := filter (fun k => k ∉ ls) ks.

Definition compare_arguments (n : str) (rc vc : CommandSpec) : option ArgumentDifference :=
  let rs := signature (grammar rc) in
  let vs := signature (grammar vc) in
  if decide (rs = vs) then None
  else
    let rk := keywords (grammar rc) in
    let vk := keywords (grammar vc) in
    Some (mkArgDiff n rs vs (only_in rk vk) (only_in vk rk)).
Definition compare_since (n : str) (rc vc : CommandSpec) : option SinceDifference :=
  if decide (since rc = since vc) then None else Some (mkSinceDiff n (since rc) (since vc)).
Definition compare_effects (n : str) (rc vc : CommandSpec) : option EffectDifference :=
  if decide (effects rc = effects vc) then None else Some (mkEffectDiff n (describe rc) (describe vc)).

Definition push_opt {A} (l : list A) (o : option A) : list A := l ++ match o with Some a => [a] | None => [] end.

(** One round of the loop: a name both sides have. *)
Definition compare_one (out : CatalogDiff) (n : str) (rc vc : CommandSpec) : CatalogDiff :=
  let a := compare_arguments n rc vc in
  let s := compare_since n rc vc in
  let e := compare_effects n rc vc in
  let differed := match a, s, e with None, None, None => false | _, _, _ => true end in
  mkDiff (diff_redis_only out) (diff_valkey_only out) (push_opt (diff_arguments out) a)
    (push_opt (diff_since out) s) (push_opt (diff_effects out) e)
    (if differed then identical out else S (identical out)).

Definition diff (redis valkey : list CommandSpec) : CatalogDiff :=
  let r := by_name redis in
  let v := by_name valkey in
  let out := mkDiff (only_in (keys r) (keys v)) (only_in (keys v) (keys r)) [] [] [] 0 in
  foldl (fun out n => match r !! n, v !! n with
                      | Some rc, Some vc => compare_one out n rc vc
                      | _, _ => out
                      end) out (keys r).

(** ** What the comparison says *)

Section Compare.
Context (redis valkey : list CommandSpec).
Abbreviation r := (by_name redis).
Abbreviation v := (by_name valkey).

(** The value of a comparison for a name both sides have. *)
Definition at_name {A} (cmp : str -> CommandSpec -> CommandSpec -> option A) (n : str) : option A :=
  rc ← r !! n; vc ← v !! n; cmp n rc vc.

Definition same (n : str) : Prop :=
  exists rc vc, r !! n = Some rc /\ v !! n = Some vc /\
    signature (grammar rc) = signature (grammar vc) /\ since rc = since vc /\ effects rc = effects vc.

#[local] Instance same_dec n : Decision (same n).
Proof.
  destruct (r !! n) as [rc|] eqn:Er; [destruct (v !! n) as [vc|] eqn:Ev|].
  - destruct (decide (signature (grammar rc) = signature (grammar vc) /\ since rc = since vc /\ effects rc = effects vc)) as [H|H].
    + left. exists rc, vc. do 2 (split; [done|]). exact H.
    + right. intros (rc' & vc' & H1 & H2 & H3). rewrite Er in H1. rewrite Ev in H2. simplify_eq. done.
  - right. intros (rc' & vc' & H1 & H2 & H3). congruence.
  - right. intros (rc' & vc' & H1 & H2 & H3). congruence.
Defined.

Lemma diff_loop ns out :
  foldl (fun out n => match r !! n, v !! n with
                      | Some rc, Some vc => compare_one out n rc vc
                      | _, _ => out
                      end) out ns =
  mkDiff (diff_redis_only out) (diff_valkey_only out)
    (diff_arguments out ++ omap (at_name compare_arguments) ns)
    (diff_since out ++ omap (at_name compare_since) ns)
    (diff_effects out ++ omap (at_name compare_effects) ns)
    (identical out + length (filter same ns)).
Proof.
  revert out. induction ns as [|n ns IH]; intros out; cbn [foldl].
  { cbn. rewrite !app_nil_r, Nat.add_0_r. by destruct out. }
  rewrite IH, filter_cons. cbn [omap list_omap].
  assert (Ha : forall A (cmp : str -> CommandSpec -> CommandSpec -> option A),
    at_name cmp n = rc ← r !! n; vc ← v !! n; cmp n rc vc) by done.
  rewrite !Ha. destruct (r !! n) as [rc|] eqn:Er; cbn [mbind option_bind].
  2: { rewrite (decide_False (P := same n)); [done|]. intros (rc & vc & H & _). congruence. }
  destruct (v !! n) as [vc|] eqn:Ev; cbn [mbind option_bind].
  2: { rewrite (decide_False (P := same n)); [done|]. intros (rc' & vc & _ & H & _). congruence. }
  unfold compare_one. cbn [diff_redis_only diff_valkey_only diff_arguments diff_since diff_effects identical].
  assert (Hp : forall A (l : list A) o k, push_opt l o ++ k = l ++ match o with Some a => a :: k | None => k end).
  { intros A l o k. unfold push_opt. rewrite <- app_assoc. by destruct o. }
  rewrite !Hp. f_equal.
  assert (Hs : same n <-> compare_arguments n rc vc = None /\ compare_since n rc vc = None /\ compare_effects n rc vc = None).
  { unfold compare_arguments, compare_since, compare_effects. split.
    - intros (rc' & vc' & H1 & H2 & E1 & E2 & E3). rewrite Er in H1. rewrite Ev in H2. simplify_eq.
      by rewrite E1, E2, E3, !decide_True.
    - intros (H1 & H2 & H3). exists rc, vc. repeat case_decide; done. }
  destruct (compare_arguments n rc vc), (compare_since n rc vc), (compare_effects n rc vc);
    (case_decide as Hd; [rewrite Hs in Hd; cbn [length]; first [lia|by destruct Hd as (?&?&?)]|]);
    first [done|exfalso; apply Hd, Hs; done].
Qed.

Lemma diff_eq :
  diff redis valkey =
  mkDiff (only_in (keys r) (keys v)) (only_in (keys v) (keys r))
    (omap (at_name compare_arguments) (keys r)) (omap (at_name compare_since) (keys r))
    (omap (at_name compare_effects) (keys r)) (length (filter same (keys r))).
Proof. unfold diff. by rewrite diff_loop. Qed.

End Compare.

Lemma only_in_elem n (ks ls : list str) : n ∈ only_in ks ls <-> n ∈ ks /\ (n ∉ ls).
Proof. unfold only_in. rewrite list_elem_of_filter. tauto. Qed.

Lemma only_in_self (ks : list str) : only_in ks ks = [].
Proof.
  destruct (only_in ks ks) as [|k l] eqn:E; [done|].
  assert (H : k ∈ only_in ks ks) by (rewrite E; by left). apply only_in_elem in H as [H1 H2]. done.
Qed.

(** ** The text of effects tells them apart *)

Definition all_effects : list Effects :=
  let b := [false; true] in
  r ← b; w ← b; c ← b; k ← b; a ← b; d ← b; u ← b; [mkEffects r w c k a d u].

Lemma all_effects_complete e : e ∈ all_effects.
Proof. destruct e as [[] [] [] [] [] [] []]; apply (bool_decide_unpack _); vm_compute; exact I. Qed.

Definition describe_effects (e : Effects) : str :=
  describe (mkSpec [] [] e (Seq []) [] Both [] None [] false).

Lemma describe_effects_inj a b : describe_effects a = describe_effects b -> a = b.
Proof.
  assert (H : forallb (fun a => forallb (fun b =>
      implb (bool_decide (describe_effects a = describe_effects b)) (bool_decide (a = b))) all_effects) all_effects = true)
    by (vm_compute; reflexivity).
  rewrite forallb_forall in H. pose proof (H a (proj1 (list_elem_of_In _ _) (all_effects_complete a))) as Ha.
  rewrite forallb_forall in Ha. pose proof (Ha b (proj1 (list_elem_of_In _ _) (all_effects_complete b))) as Hb.
  intros E. rewrite (bool_decide_true _ E) in Hb. by apply bool_decide_eq_true in Hb.
Qed.

Lemma describe_inj c d : describe c = describe d -> effects c = effects d.
Proof. apply describe_effects_inj. Qed.

(** ** Exactness *)

Section Exact.
Context (redis valkey : list CommandSpec) (Hr : NoDup (name <$> redis)) (Hv : NoDup (name <$> valkey)).

Lemma in_keys l n : NoDup (name <$> l) -> n ∈ keys (by_name l) <-> is_Some (find_name n l).
Proof. intros H. by rewrite keys_elem, by_name_lookup. Qed.

Lemma in_compared {A} (cmp : str -> CommandSpec -> CommandSpec -> option A) x :
  x ∈ omap (at_name redis valkey cmp) (keys (by_name redis)) <->
  exists n rc vc, find_name n redis = Some rc /\ find_name n valkey = Some vc /\ cmp n rc vc = Some x.
Proof.
  rewrite list_elem_of_omap. unfold at_name. split.
  - intros (n & _ & H). apply bind_Some in H as (rc & H1 & H). apply bind_Some in H as (vc & H2 & H).
    rewrite by_name_lookup in H1, H2 by done. by exists n, rc, vc.
  - intros (n & rc & vc & H1 & H2 & H). exists n. rewrite in_keys, !by_name_lookup, H1, H2 by done. by split.
Qed.

End Exact.

(** The comparison is exact: the names of one side only, and the shared
    names whose effects, version or shown grammar differ, each in its list and
    nowhere else; and two effects that differ are described differently. *)
Theorem diff_exact redis valkey n :
  NoDup (name <$> redis) -> NoDup (name <$> valkey) ->
  let d := diff redis valkey in
  (n ∈ diff_redis_only d <-> is_Some (find_name n redis) /\ find_name n valkey = None) /\
  (n ∈ diff_valkey_only d <-> find_name n redis = None /\ is_Some (find_name n valkey)) /\
  (n ∈ ed_name <$> diff_effects d <->
    exists rc vc, find_name n redis = Some rc /\ find_name n valkey = Some vc /\ effects rc <> effects vc) /\
  (n ∈ sd_name <$> diff_since d <->
    exists rc vc, find_name n redis = Some rc /\ find_name n valkey = Some vc /\ since rc <> since vc) /\
  (n ∈ ad_name <$> diff_arguments d <->
    exists rc vc, find_name n redis = Some rc /\ find_name n valkey = Some vc /\
      signature (grammar rc) <> signature (grammar vc)) /\
  (forall e, e ∈ diff_effects d -> ed_redis e <> ed_valkey e).
Proof.
  intros Hr Hv d. subst d. rewrite diff_eq.
  cbn [diff_redis_only diff_valkey_only diff_effects diff_since diff_arguments].
  assert (Hf : forall l, NoDup (name <$> l) -> (n ∉ keys (by_name l)) <-> find_name n l = None).
  { intros l H. rewrite in_keys by done. destruct (find_name n l).
    - split; [|done]. intros Hn. destruct Hn. by eexists.
    - split; [done|]. by intros _ []. }
  split; [by rewrite only_in_elem, in_keys, Hf|]. split; [rewrite only_in_elem, in_keys, Hf by done; tauto|].
  split; [|split; [|split]].
  - rewrite list_elem_of_fmap. setoid_rewrite in_compared; [|done..]. unfold compare_effects. split.
    + intros (x & -> & m & rc & vc & H1 & H2 & H). case_decide; [done|]. injection H as <-. by exists rc, vc.
    + intros (rc & vc & H1 & H2 & Hn). eexists (mkEffectDiff n _ _). split; [done|].
      exists n, rc, vc. rewrite decide_False by done. do 2 (split; [done|]). reflexivity.
  - rewrite list_elem_of_fmap. setoid_rewrite in_compared; [|done..]. unfold compare_since. split.
    + intros (x & -> & m & rc & vc & H1 & H2 & H). case_decide; [done|]. injection H as <-. by exists rc, vc.
    + intros (rc & vc & H1 & H2 & Hn). eexists (mkSinceDiff n _ _). split; [done|].
      exists n, rc, vc. rewrite decide_False by done. do 2 (split; [done|]). reflexivity.
  - rewrite list_elem_of_fmap. setoid_rewrite in_compared; [|done..]. unfold compare_arguments. split.
    + intros (x & -> & m & rc & vc & H1 & H2 & H). case_decide; [done|]. injection H as <-. by exists rc, vc.
    + intros (rc & vc & H1 & H2 & Hn). eexists (mkArgDiff n _ _ _ _). split; [done|].
      exists n, rc, vc. rewrite decide_False by done. do 2 (split; [done|]). reflexivity.
  - intros e. rewrite in_compared by done. intros (m & rc & vc & _ & _ & H). unfold compare_effects in H.
    case_decide as E; [done|]. injection H as <-. cbn. intros H. by apply E, describe_inj.
Qed.

(** A catalog does not differ from itself. *)
Lemma diff_self l : total (diff l l) = 0%nat /\ identical (diff l l) = length (keys (by_name l)).
Proof.
  rewrite diff_eq. unfold total. cbn. rewrite only_in_self.
  assert (Hn : forall A (cmp : str -> CommandSpec -> CommandSpec -> option A),
    (forall n c, cmp n c c = None) -> omap (at_name l l cmp) (keys (by_name l)) = []).
  { intros A cmp H. induction (keys (by_name l)) as [|k ks IH]; [done|]. cbn [omap list_omap].
    assert (at_name l l cmp k = None) as -> by (unfold at_name; destruct (by_name l !! k); [apply H|done]). exact IH. }
  unfold compare_arguments, compare_since, compare_effects.
  rewrite !Hn by (intros; cbv beta zeta; by rewrite decide_True). split; [done|].
  assert (Hk : Forall (same l l) (keys (by_name l))).
  { apply Forall_forall. intros k Hk. apply keys_elem in Hk as [c Hc]. by exists c, c. }
  clear Hn. induction Hk as [|k ks Hk _ IH]; [done|]. rewrite filter_cons, decide_True by done. cbn [length]. by rewrite IH.
Qed.

(** Two grammars that accept different lines can be shown as one text. *)
Lemma signature_ambiguous :
  let tok t := Token (chars t) Keyword in
  let g1 := Seq [Choice [tok "A"; tok "B"]; tok "C"] in
  let g2 := Choice [tok "A"; Seq [tok "B"; tok "C"]] in
  signature g1 = signature g2 /\
  resolve_roles [bs "A"; bs "C"] g1 = [Keyword; Keyword] /\ resolve_roles [bs "A"; bs "C"] g2 = [Keyword; Value].
Proof. repeat split; vm_compute; reflexivity. Qed.

(** So the difference of the two commands is not reported. *)
Lemma different_grammars_identical :
  let tok t := Token (chars t) Keyword in
  let spec g := mkSpec (chars "X") [] effects_read g [] Both [] None [] false in
  let d := diff [spec (Seq [Choice [tok "A"; tok "B"]; tok "C"])] [spec (Choice [tok "A"; Seq [tok "B"; tok "C"]])] in
  total d = 0%nat /\ identical d = 1%nat.
Proof. split; vm_compute; reflexivity. Qed.
