(* ===== verification/Args.v ===== *)
(** * The command line of the executable ([crates/prc/src]: [args.rs], [startup.rs], [main.rs])

    Client options, then the command; the profile and the flags that may not be
    combined with it; the paths answered before any of that, and the texts of help
    and version.  An argument is its
    characters.  A URI that parses registers its password, so the register of
    secrets is threaded through. *)

From S2P Require Import Prelude Text TextFacts Lines Secrets Uri.

(** ** Data *)

Inductive ArgError :=
| TargetConflict (flag profile : str)
| MultipleProfiles (a b : str)
| ProfileAndUrl (profile : str)
| MissingValue (flag : str)
| BadValue (flag value : str)
| OutputConflict (a b : str)
| TlsWeakening (flag profile : str)
| InsecureTlsRefused (flag : str)
| UriRefused (flag : str) (e : UriError)
| UnknownOption (flag : str).

Inductive OutputMode := Auto | Pretty | Raw | Json | Csv | TypedJson | Ndjson | Resp | BytesOnly.

#[export] Instance OutputMode_eq_dec : EqDecision OutputMode.
Proof. solve_decision. Defined.

Definition mode_name (m : OutputMode) : str :=
  match m with
  | Auto => chars "auto"
  | Pretty => chars "--output pretty"
  | Raw => chars "--raw"
  | Json => chars "--json"
  | Csv => chars "--csv"
  | TypedJson => chars "--output typed-json"
  | Ndjson => chars "--output ndjson"
  | Resp => chars "--output resp"
  | BytesOnly => chars "--bytes"
  end.

Inductive Target :=
| Unspecified
| Profile (name : str)
| Direct (host : option str) (port : option Z) (url : option Redis).

Record TlsArgs := mkTls {
  tls_enabled : bool;
  tls_ca : option str;
  tls_name : option str;
  tls_cert : option str;
  tls_key : option str;
}.

Record Invocation := mkInv {
  target : Target;
  inv_db : option Z;
  output : OutputMode;
  protocol : option Z;
  color : option str;
  plain : bool;
  tui : bool;
  inv_tls : TlsArgs;
  command : list bytes;
}.

Definition default_tls : TlsArgs := mkTls false None None None None.
Definition default_invocation : Invocation := mkInv Unspecified None Auto None None false false default_tls [].

Definition TARGET_FLAGS : list str :=
  [chars "-h"; chars "-p"; chars "-s"; chars "-u"; chars "--user"; chars "--askpass"; chars "--sentinel"; chars "--cluster"].
Definition TLS_WEAKENING : list str := [chars "--insecure"; chars "--no-verify"; chars "--tls-verify=none"].
Definition TLS_CONFIGURING : list (str * str) := [
  (chars "--tls", chars "                 require TLS");
  (chars "--tls-ca", chars " FILE         the CA set that must have signed the server certificate");
  (chars "--tls-name", chars " NAME       the name to verify, when it differs from the address");
  (chars "--tls-cert", chars " FILE       client certificate");
  (chars "--tls-key", chars " FILE        client private key")].

(** ** Parsing *)

Definition is_profile (tok : str) : bool :=
  match tok with
  | c :: _ :: _ => bool_decide (c = 64)
  | _ => false
  end.
Definition starts_dash (tok : str) : bool :=
  match tok with
  | c :: _ => bool_decide (c = 45)
  | [] => false
  end.

(** [trim_start_matches('-')]. *)
Fixpoint trim_dashes (s : str) : str :=
  match s with
  | c :: r => if decide (c = 45) then trim_dashes r else s
  | [] => []
  end.

(** The locals of [parse]. *)
Record Parsing := mkParsing {
  inv : Invocation;
  profile : option str;
  direct_host : option str;
  direct_port : option Z;
  direct_url : option Redis;
  seen_target_flags : list str;
  weakening : option str;
}.
Definition start_parsing : Parsing := mkParsing default_invocation None None None None [] None.

Definition on_inv (f : Invocation -> Invocation) (p : Parsing) : Parsing :=
  mkParsing (f (inv p)) (profile p) (direct_host p) (direct_port p) (direct_url p) (seen_target_flags p) (weakening p).
Definition see_flag (flag : str) (p : Parsing) : Parsing :=
  mkParsing (inv p) (profile p) (direct_host p) (direct_port p) (direct_url p) (seen_target_flags p ++ [flag]) (weakening p).
Definition weaken (flag : str) (p : Parsing) : Parsing :=
  mkParsing (inv p) (profile p) (direct_host p) (direct_port p) (direct_url p) (seen_target_flags p)
    (match weakening p with Some w => Some w | None => Some flag end).
Definition set_tls (f : TlsArgs -> TlsArgs) (p : Parsing) : Parsing :=
  on_inv (fun i => mkInv (target i) (inv_db i) (output i) (protocol i) (color i) (plain i) (tui i) (f (inv_tls i)) (command i)) p.
Definition set_command (ws : list str) (p : Parsing) : Parsing :=
  on_inv (fun i => mkInv (target i) (inv_db i) (output i) (protocol i) (color i) (plain i) (tui i) (inv_tls i)
                     (encode_str <$> ws)) p.

Definition set_output (m : OutputMode) (p : Parsing) : result ArgError Parsing :=
  let o := output (inv p) in
  if decide (o <> Auto /\ o <> m) then Err (OutputConflict (mode_name o) (mode_name m))
  else Ok (on_inv (fun i => mkInv (target i) (inv_db i) m (protocol i) (color i) (plain i) (tui i) (inv_tls i) (command i)) p).

Definition output_mode (v : str) : result ArgError OutputMode :=
  if decide (v = chars "pretty") then Ok Pretty
  else if decide (v = chars "raw") then Ok Raw
  else if decide (v = chars "json") then Ok Json
  else if decide (v = chars "csv") then Ok Csv
  else if decide (v = chars "typed-json") then Ok TypedJson
  else if decide (v = chars "ndjson") then Ok Ndjson
  else if decide (v = chars "resp") then Ok Resp
  else Err (BadValue (chars "output") v).

(** The flags without a value. *)
Definition bare_flag (a : str) (p : Parsing) : option (result ArgError Parsing) :=
  if decide (a ∈ [chars "--askpass"; chars "--sentinel"; chars "--cluster"]) then Some (Ok (see_flag a p))
  else if decide (a = chars "-2") then Some (Ok (on_inv (fun i =>
    mkInv (target i) (inv_db i) (output i) (Some 2) (color i) (plain i) (tui i) (inv_tls i) (command i)) p))
  else if decide (a = chars "-3") then Some (Ok (on_inv (fun i =>
    mkInv (target i) (inv_db i) (output i) (Some 3) (color i) (plain i) (tui i) (inv_tls i) (command i)) p))
  else if decide (a = chars "--raw") then Some (set_output Raw p)
  else if decide (a = chars "--json") then Some (set_output Json p)
  else if decide (a = chars "--csv") then Some (set_output Csv p)
  else if decide (a = chars "--bytes") then Some (set_output BytesOnly p)
  else if decide (a = chars "--no-color") then Some (Ok (on_inv (fun i =>
    mkInv (target i) (inv_db i) (output i) (protocol i) (Some (chars "never")) (plain i) (tui i) (inv_tls i) (command i)) p))
  else if decide (a = chars "--plain") then Some (Ok (on_inv (fun i =>
    mkInv (target i) (inv_db i) (output i) (protocol i) (color i) true (tui i) (inv_tls i) (command i)) p))
  else if decide (a = chars "--tui") then Some (Ok (on_inv (fun i =>
    mkInv (target i) (inv_db i) (output i) (protocol i) (color i) (plain i) true (inv_tls i) (command i)) p))
  else if decide (a = chars "--tls") then Some (Ok (set_tls (fun t =>
    mkTls true (tls_ca t) (tls_name t) (tls_cert t) (tls_key t)) p))
  else None.

(** The flags with a value: what they do with it. *)
Definition valued_flag (a : str) : option (str -> Parsing -> SecretSet -> result ArgError Parsing * SecretSet) :=
  let keep r (reg : SecretSet) : result ArgError Parsing * SecretSet := (r, reg) in
  if decide (a = chars "-h") then Some (fun v p => keep (Ok (let p := see_flag a p in
    mkParsing (inv p) (profile p) (Some v) (direct_port p) (direct_url p) (seen_target_flags p) (weakening p))))
  else if decide (a = chars "-p") then Some (fun v p => keep (
    let? n := ok_or (parse_unsigned u16_max (encode_str v)) (BadValue (chars "p") v) in
    let p := see_flag a p in
    Ok (mkParsing (inv p) (profile p) (direct_host p) (Some n) (direct_url p) (seen_target_flags p) (weakening p))))
  else if decide (a = chars "-u") then Some (fun v p reg =>
    match parse v reg with
    | (Ok u, reg) => let p := see_flag a p in
        (Ok (mkParsing (inv p) (profile p) (direct_host p) (direct_port p) (Some u) (seen_target_flags p) (weakening p)), reg)
    | (Err e, reg) => (Err (UriRefused (chars "u") e), reg)
    end)
  else if decide (a ∈ [chars "-s"; chars "--user"]) then Some (fun _ p => keep (Ok (see_flag a p)))
  else if decide (a = chars "-n") then Some (fun v p => keep (
    let? n := ok_or (parse_unsigned u32_max (encode_str v)) (BadValue (chars "n") v) in
    Ok (on_inv (fun i => mkInv (target i) (Some n) (output i) (protocol i) (color i) (plain i) (tui i) (inv_tls i) (command i)) p)))
  else if decide (a = chars "--output") then Some (fun v p => keep (let? m := output_mode v in set_output m p))
  else if decide (a = chars "--color") then Some (fun v p => keep (Ok (on_inv (fun i =>
    mkInv (target i) (inv_db i) (output i) (protocol i) (Some v) (plain i) (tui i) (inv_tls i) (command i)) p)))
  else if decide (a = chars "--tls-ca") then Some (fun v p => keep (Ok (set_tls (fun t =>
    mkTls true (Some v) (tls_name t) (tls_cert t) (tls_key t)) p)))
  else if decide (a = chars "--tls-name") then Some (fun v p => keep (Ok (set_tls (fun t =>
    mkTls true (tls_ca t) (Some v) (tls_cert t) (tls_key t)) p)))
  else if decide (a = chars "--tls-cert") then Some (fun v p => keep (Ok (set_tls (fun t =>
    mkTls true (tls_ca t) (tls_name t) (Some v) (tls_key t)) p)))
  else if decide (a = chars "--tls-key") then Some (fun v p => keep (Ok (set_tls (fun t =>
    mkTls true (tls_ca t) (tls_name t) (tls_cert t) (Some v)) p)))
  else None.

(** Every other option. *)
Definition other_flag (a : str) (p : Parsing) : result ArgError Parsing :=
  if decide (a ∈ TLS_WEAKENING) then Ok (weaken a p)
  else
    match strip_prefix (chars "--tls-verify=") a with
    | Some v => if decide (v = chars "full") then Ok (set_tls (fun t =>
                    mkTls true (tls_ca t) (tls_name t) (tls_cert t) (tls_key t)) p)
                else Ok (weaken a p)
    | None => Err (UnknownOption a)
    end.

Fixpoint parse_loop (argv : list str) (p : Parsing) (reg : SecretSet) : result ArgError Parsing * SecretSet :=
  match argv with
  | [] => (Ok p, reg)
  | a :: rest =>
      if decide (a = chars "--") then (Ok (set_command rest p), reg)
      else if is_profile a then
        match profile p with
        | Some q => (Err (MultipleProfiles q (tail a)), reg)
        | None => parse_loop rest (mkParsing (inv p) (Some (tail a)) (direct_host p) (direct_port p) (direct_url p)
                                     (seen_target_flags p) (weakening p)) reg
        end
      else if negb (starts_dash a) then (Ok (set_command argv p), reg)
      else
        match valued_flag a with
        | Some set =>
            match rest with
            | [] => (Err (MissingValue (trim_dashes a)), reg)
            | v :: rest' =>
                match set v p reg with
                | (Ok p, reg) => parse_loop rest' p reg
                | (Err e, reg) => (Err e, reg)
                end
            end
        | None =>
            match default (other_flag a p) (bare_flag a p) with
            | Ok p => parse_loop rest p reg
            | Err e => (Err e, reg)
            end
        end
  end.

(** The flags seen, against the profile: the first that conflicts. *)
Fixpoint target_conflict (q : str) (seen : list str) : option ArgError :=
  match seen with
  | [] => None
  | f :: r =>
      match strip_prefix (chars "__weaken") f with
      | Some w => Some (TlsWeakening (trim_dashes w) q)
      | None => if decide (f ∈ TARGET_FLAGS) then Some (TargetConflict (trim_dashes f) q) else target_conflict q r
      end
  end.

Definition set_target (t : Target) (i : Invocation) : Invocation :=
  mkInv t (inv_db i) (output i) (protocol i) (color i) (plain i) (tui i) (inv_tls i) (command i).

(** What follows the loop of [parse]. *)
Definition finish_parsing (p : Parsing) : result ArgError Invocation :=
  match weakening p with
  | Some w =>
      match profile p with
      | Some q => Err (TlsWeakening (trim_dashes w) q)
      | None => Err (InsecureTlsRefused w)
      end
  | None =>
      match profile p with
      | Some q =>
          match direct_url p with
          | Some _ => Err (ProfileAndUrl q)
          | None => match target_conflict q (seen_target_flags p) with
                    | Some e => Err e
                    | None => Ok (set_target (Profile q) (inv p))
                    end
          end
      | None =>
          match direct_host p, direct_port p, direct_url p with
          | None, None, None => Ok (inv p)
          | h, n, u => Ok (set_target (Direct h n u) (inv p))
          end
      end
  end.

Definition parse_args (argv : list str) (reg : SecretSet) : result ArgError Invocation * SecretSet :=
  match parse_loop argv start_parsing reg with
  | (Ok p, reg) => (finish_parsing p, reg)
  | (Err e, reg) => (Err e, reg)
  end.

(** ** The paths before the arguments *)

Inductive Fast := Help | Version | ProbeWidth | Diagnostics | NoFast.

#[export] Instance Fast_eq_dec : EqDecision Fast.
Proof. solve_decision. Defined.

Fixpoint fast_scan (alone : bool) (argv : list str) : Fast :=
  match argv with
  | [] => NoFast
  | a :: r =>
      if decide (a = chars "--help" \/ (a = chars "-h" /\ alone = true)) then Help
      else if decide (a ∈ [chars "--version"; chars "-V"]) then Version
      else if decide (a = chars "--probe-width") then ProbeWidth
      else if decide (a = chars "--diagnostics") then Diagnostics
      else fast_scan alone r
  end.
Definition fast_path (argv : list str) : Fast := fast_scan (bool_decide (length argv = 1%nat)) argv.

Inductive Probe := ReplProbe | TuiProbe | CatalogProbe | AssistanceOff | AssistanceOn.

#[export] Instance Probe_eq_dec : EqDecision Probe.
Proof. solve_decision. Defined.

Definition parse_probe (n : str) : option Probe :=
  if decide (n = chars "repl") then Some ReplProbe
  else if decide (n = chars "tui") then Some TuiProbe
  else if decide (n = chars "catalog") then Some CatalogProbe
  else if decide (n = chars "assistance-off") then Some AssistanceOff
  else if decide (n = chars "assistance-on") then Some AssistanceOn
  else None.
Definition probe_name (p : Probe) : str :=
  match p with
  | ReplProbe => chars "repl"
  | TuiProbe => chars "tui"
  | CatalogProbe => chars "catalog"
  | AssistanceOff => chars "assistance-off"
  | AssistanceOn => chars "assistance-on"
  end.
Definition format_probe (p : Probe) (rss : option Z) (detail : str) : str :=
  chars "probe=" ++ probe_name p ++ chars " rss_bytes="
  ++ (match rss with Some b => bz <$> print_unsigned b | None => chars "unavailable" end)
  ++ chars " " ++ detail ++ [10].

(** What [main] does with the arguments, once no probe is asked for. *)
Inductive Action :=
| ServeMcp
| Answer (f : Fast)
| UsageError (e : ArgError)
| UrlNotImplemented
| Passthrough (i : Invocation) (host : str) (port : Z)
| ExitSuccess.

Definition main_action (argv : list str) (reg : SecretSet) : Action * SecretSet :=
  if decide (chars "--mcp-stdio" ∈ argv) then (ServeMcp, reg)
  else
    match fast_path argv with
    | NoFast =>
        match parse_args argv reg with
        | (Err e, reg) => (UsageError e, reg)
        | (Ok i, reg) =>
            (match target i, command i with
             | Direct h n u, _ :: _ =>
                 match u with
                 | Some _ => UrlNotImplemented
                 | None => Passthrough i (default (chars "127.0.0.1") h) (default 6379 n)
                 end
             | _, _ => ExitSuccess
             end, reg)
        end
    | f => (Answer f, reg)
    end.

(** ** The option region

    [consumed ws opts p reg q reg']: the words [ws] are complete client options,
    [opts] those of them read as options, which take the parser from [p] to [q]. *)

Inductive consumed : list str -> list str -> Parsing -> SecretSet -> Parsing -> SecretSet -> Prop :=
| consumed_nil p reg : consumed [] [] p reg p reg
| consumed_profile a rest opts p reg q reg' :
    a <> chars "--" -> is_profile a = true -> profile p = None ->
    consumed rest opts (mkParsing (inv p) (Some (tail a)) (direct_host p) (direct_port p) (direct_url p)
                          (seen_target_flags p) (weakening p)) reg q reg' ->
    consumed (a :: rest) opts p reg q reg'
| consumed_valued a v rest opts p reg set p1 reg1 q reg' :
    a <> chars "--" -> is_profile a = false -> starts_dash a = true ->
    valued_flag a = Some set -> set v p reg = (Ok p1, reg1) ->
    consumed rest opts p1 reg1 q reg' -> consumed (a :: v :: rest) (a :: opts) p reg q reg'
| consumed_bare a rest opts p reg p1 q reg' :
    a <> chars "--" -> is_profile a = false -> starts_dash a = true ->
    valued_flag a = None -> default (other_flag a p) (bare_flag a p) = Ok p1 ->
    consumed rest opts p1 reg q reg' -> consumed (a :: rest) (a :: opts) p reg q reg'.

Lemma parse_loop_consumed ws opts p reg q reg' rest :
  consumed ws opts p reg q reg' -> parse_loop (ws ++ rest) p reg = parse_loop rest q reg'.
Proof.
  induction 1 as [p reg|a ws opts p reg q reg' Hd Ha Hp _ IH|a v ws opts p reg set p1 reg1 q reg' Hd Ha Hs Hv Hset _ IH
    |a ws opts p reg p1 q reg' Hd Ha Hs Hv Hb _ IH]; [done|..]; cbn [app parse_loop]; rewrite decide_False, Ha by done.
  - by rewrite Hp.
  - rewrite Hs, Hv. cbn [negb]. by rewrite Hset.
  - rewrite Hs, Hv. cbn [negb]. by rewrite Hb.
Qed.

(** What starts the command: [--], or a word that is neither an option nor a
    profile, which then belongs to it. *)
Definition command_word (w : str) : Prop := w <> chars "--" /\ is_profile w = false /\ starts_dash w = false.
Inductive ends : list str -> Parsing -> Parsing -> Prop :=
| ends_empty p : ends [] p p
| ends_dashes ws p : ends (chars "--" :: ws) p (set_command ws p)
| ends_word w ws p : command_word w -> ends (w :: ws) p (set_command (w :: ws) p).

Lemma parse_loop_ends rest p q reg : ends rest p q -> parse_loop rest p reg = (Ok q, reg).
Proof.
  destruct 1 as [p|ws p|w ws p (Hd & Hp & Hs)]; cbn [parse_loop]; [done|by rewrite decide_True|].
  rewrite decide_False by done. by rewrite Hp, Hs.
Qed.

Lemma parse_loop_inv argv p reg p' reg' : parse_loop argv p reg = (Ok p', reg') ->
  exists ws opts rest q, argv = ws ++ rest /\ consumed ws opts p reg q reg' /\ ends rest q p'.
Proof.
  revert p reg. induction argv as [argv IH] using (induction_ltof1 _ length). unfold ltof in IH.
  intros p reg. destruct argv as [|a rest]; cbn [parse_loop].
  { intros [= -> ->]. exists [], [], [], p'. repeat constructor. }
  case_decide as Hd; [subst a; intros [= <- ->]; exists [], [], (chars "--" :: rest), p; repeat constructor|].
  destruct (is_profile a) eqn:Ha.
  { destruct (profile p) eqn:Hp; [done|]. intros H. apply IH in H as (ws & opts & r & q & -> & Hc & He); [|cbn; lia].
    exists (a :: ws), opts, r, q. split; [done|]. split; [|done]. by apply consumed_profile. }
  destruct (starts_dash a) eqn:Hs; cbn [negb].
  2: { intros [= <- ->]. exists [], [], (a :: rest), p. split; [done|]. split; [constructor|]. by apply ends_word. }
  destruct (valued_flag a) as [set|] eqn:Hv.
  - destruct rest as [|v rest]; [done|]. destruct (set v p reg) as [[p1|e] reg1] eqn:Hset; [|done].
    intros H. apply IH in H as (ws & opts & r & q & -> & Hc & He); [|cbn; lia].
    exists (a :: v :: ws), (a :: opts), r, q. split; [done|]. split; [|done]. by eapply consumed_valued.
  - destruct (default (other_flag a p) (bare_flag a p)) as [p1|e] eqn:Hb; [|done].
    intros H. apply IH in H as (ws & opts & r & q & -> & Hc & He); [|cbn; lia].
    exists (a :: ws), (a :: opts), r, q. split; [done|]. split; [|done]. by eapply consumed_bare.
Qed.

(** ** What an option leaves behind *)

Definition weakens (o : str) : Prop :=
  o ∈ TLS_WEAKENING \/ exists v, strip_prefix (chars "--tls-verify=") o = Some v /\ v <> chars "full".

(** One option: it is remembered if it names a target, it weakens if it asks to,
    and it leaves the command and the profile alone. *)
Record option_effect (o : str) (p q : Parsing) : Prop := {
  effect_seen : seen_target_flags q = seen_target_flags p ++ (if decide (o ∈ TARGET_FLAGS) then [o] else []);
  effect_weak : weakening q = None <-> weakening p = None /\ ~ weakens o;
  effect_command : command (inv q) = command (inv p);
  effect_target : target (inv q) = target (inv p);
  effect_profile : profile q = profile p;
}.

Definition weakensb (o : str) : bool :=
  bool_decide (o ∈ TLS_WEAKENING)
  || match strip_prefix (chars "--tls-verify=") o with
     | Some v => negb (bool_decide (v = chars "full"))
     | None => false
     end.

Lemma weakens_spec o : weakens o <-> weakensb o = true.
Proof.
  unfold weakens, weakensb. rewrite orb_true_iff, bool_decide_eq_true.
  destruct (strip_prefix _ o) as [v|]; [rewrite negb_true_iff, bool_decide_eq_false|]; naive_solver.
Qed.

#[local] Instance weakens_dec o : Decision (weakens o).
Proof. destruct (weakensb o) eqn:E; [left|right]; rewrite weakens_spec; congruence. Defined.

(** An option that names a target, and any other that does not weaken. *)
Lemma effect_of_target o p q : bool_decide (o ∈ TARGET_FLAGS) = true -> weakensb o = false ->
  seen_target_flags q = seen_target_flags p ++ [o] -> weakening q = weakening p ->
  command (inv q) = command (inv p) -> target (inv q) = target (inv p) -> profile q = profile p -> option_effect o p q.
Proof.
  intros Ht%bool_decide_eq_true Hw Hs Hk ???. constructor; try done.
  - by rewrite decide_True.
  - rewrite Hk, weakens_spec, Hw. split; [done|by intros []].
Qed.

Lemma effect_of_other o p q : bool_decide (o ∈ TARGET_FLAGS) = false -> weakensb o = false ->
  seen_target_flags q = seen_target_flags p -> weakening q = weakening p ->
  command (inv q) = command (inv p) -> target (inv q) = target (inv p) -> profile q = profile p -> option_effect o p q.
Proof.
  intros Ht%bool_decide_eq_false Hw Hs Hk ???. constructor; try done.
  - by rewrite decide_False, app_nil_r.
  - rewrite Hk, weakens_spec, Hw. split; [done|by intros []].
Qed.

Ltac known_option := first [apply effect_of_target; [reflexivity|reflexivity|done..]
                           |apply effect_of_other; [reflexivity|reflexivity|done..]].
(** The options of a list, one by one. *)
Ltac each_option H :=
  repeat (apply elem_of_cons in H as [->|H]; [known_option|]); by apply elem_of_nil in H.

Lemma effect_set_output o m p q : bool_decide (o ∈ TARGET_FLAGS) = false -> weakensb o = false ->
  set_output m p = Ok q -> option_effect o p q.
Proof.
  intros H1 H2 Hs. unfold set_output in Hs. cbv zeta in Hs.
  destruct (decide (output (inv p) <> Auto /\ output (inv p) <> m)); [done|]. injection Hs as <-. by apply effect_of_other.
Qed.

Lemma valued_effect a set v p reg q reg' : valued_flag a = Some set -> set v p reg = (Ok q, reg') -> option_effect a p q.
Proof.
  unfold valued_flag. intros Hv Hset.
  case_decide; [subst a; injection Hv as <-; injection Hset as <- <-; known_option|].
  case_decide. { subst a. injection Hv as <-. destruct (parse_unsigned _ _); [|done]. injection Hset as <- <-. known_option. }
  case_decide. { subst a. injection Hv as <-. destruct (parse v reg) as [[u|e] r]; [|done]. injection Hset as <- <-. known_option. }
  case_decide as Hin. { injection Hv as <-. injection Hset as <- <-. each_option Hin. }
  case_decide. { subst a. injection Hv as <-. destruct (parse_unsigned _ _); [|done]. injection Hset as <- <-. known_option. }
  case_decide. { subst a. injection Hv as <-. destruct (output_mode v) as [m|e]; cbn [rbind] in Hset; [|done].
    injection Hset as Hset <-. eapply effect_set_output; [reflexivity|reflexivity|exact Hset]. }
  do 5 (case_decide; [subst a; injection Hv as <-; injection Hset as <- <-; known_option|]). done.
Qed.

Lemma bare_effect a p q : bare_flag a p = Some (Ok q) -> option_effect a p q.
Proof.
  unfold bare_flag. case_decide as Hin. { intros [= <-]. each_option Hin. }
  do 2 (case_decide; [subst a; intros [= <-]; known_option|]).
  do 4 (case_decide; [subst a; intros Hq; apply (inj Some) in Hq; eapply effect_set_output; [reflexivity|reflexivity|exact Hq]|]).
  do 4 (case_decide; [subst a; intros [= <-]; known_option|]). done.
Qed.

Lemma other_effect a p q : valued_flag a = None -> bare_flag a p = None -> other_flag a p = Ok q -> option_effect a p q.
Proof.
  intros Hv Hb Ho.
  assert (Ht : a ∉ TARGET_FLAGS).
  { intros Hin. unfold TARGET_FLAGS in Hin.
    repeat (apply elem_of_cons in Hin as [->|Hin]; [first [discriminate Hv|discriminate Hb]|]). by apply elem_of_nil in Hin. }
  unfold other_flag in Ho.
  assert (Hw : weakens a -> q = weaken a p).
  { intros [Hin|(v & E & Hn)]; [rewrite decide_True in Ho by done; congruence|].
    case_decide; [congruence|]. rewrite E, decide_False in Ho by done. congruence. }
  destruct (decide (weakens a)) as [Hy|Hn].
  - rewrite (Hw Hy). constructor; cbn; try done.
    + by rewrite decide_False, app_nil_r.
    + destruct (weakening p); split; try done; by intros [].
  - assert (Hq : exists f, q = set_tls f p).
    { case_decide as Hin; [exfalso; apply Hn; by left|]. destruct (strip_prefix _ a) as [v|] eqn:E; [|done].
      case_decide as Ef; [injection Ho as <-; by eexists|]. exfalso. apply Hn. right. by exists v. }
    destruct Hq as [f ->]. constructor; cbn; try done.
    + by rewrite decide_False, app_nil_r.
    + tauto.
Qed.

Lemma consumed_effect ws opts p reg q reg' : consumed ws opts p reg q reg' ->
  seen_target_flags q = seen_target_flags p ++ filter (fun o => o ∈ TARGET_FLAGS) opts /\
  (weakening q = None <-> weakening p = None /\ Forall (fun o => ~ weakens o) opts) /\
  command (inv q) = command (inv p) /\ target (inv q) = target (inv p).
Proof.
  assert (Hstep : forall o opts p p1 q, option_effect o p p1 ->
    seen_target_flags q = seen_target_flags p1 ++ filter (fun o => o ∈ TARGET_FLAGS) opts /\
    (weakening q = None <-> weakening p1 = None /\ Forall (fun o => ~ weakens o) opts) /\
    command (inv q) = command (inv p1) /\ target (inv q) = target (inv p1) ->
    seen_target_flags q = seen_target_flags p ++ filter (fun o => o ∈ TARGET_FLAGS) (o :: opts) /\
    (weakening q = None <-> weakening p = None /\ Forall (fun o => ~ weakens o) (o :: opts)) /\
    command (inv q) = command (inv p) /\ target (inv q) = target (inv p)).
  { intros o os p0 p1 q0 [E1 E2 E3 E4 _] (H1 & H2 & H3 & H4). rewrite H1, H2, H3, H4, E1, E2, E3, E4, Forall_cons, filter_cons.
    rewrite <- app_assoc. split; [f_equal; by case_decide|]. tauto. }
  induction 1 as [p reg|a ws opts p reg q reg' Hd Ha Hp _ IH|a v ws opts p reg set p1 reg1 q reg' Hd Ha Hs Hv Hset _ IH
    |a ws opts p reg p1 q reg' Hd Ha Hs Hv Hb _ IH].
  - rewrite app_nil_r, Forall_nil. tauto.
  - exact IH.
  - eapply Hstep; [|exact IH]. by eapply valued_effect.
  - eapply Hstep; [|exact IH]. destruct (bare_flag a p) as [r|] eqn:E; cbn [default from_option id] in Hb.
    + subst r. by apply bare_effect.
    + by apply other_effect.
Qed.

(** ** What is accepted *)

Definition with_command (ws : list str) (i : Invocation) : Invocation :=
  mkInv (target i) (inv_db i) (output i) (protocol i) (color i) (plain i) (tui i) (inv_tls i) (encode_str <$> ws).

(** The command that starts at the first word that is not consumed. *)
Definition command_of (rest : list str) : list bytes :=
  match rest with
  | [] => []
  | w :: r => encode_str <$> (if decide (w = chars "--") then r else rest)
  end.

Lemma finish_with_command ws p :
  finish_parsing (set_command ws p) = match finish_parsing p with Ok i => Ok (with_command ws i) | Err e => Err e end.
Proof.
  unfold finish_parsing. cbn [weakening profile direct_url direct_host direct_port seen_target_flags set_command on_inv].
  destruct (weakening p) as [w|]; [by destruct (profile p)|]. destruct (profile p) as [q|].
  - destruct (direct_url p); [done|]. by destruct (target_conflict q (seen_target_flags p)).
  - by destruct (direct_host p), (direct_port p), (direct_url p).
Qed.

Lemma ends_command rest p q : ends rest p q -> command (inv p) = [] -> command (inv q) = command_of rest.
Proof.
  destruct 1 as [p|ws p|w ws p (Hd & _)]; intros Hc; cbn [command_of]; [done|by rewrite decide_True|by rewrite decide_False].
Qed.

Lemma ends_same rest p q : ends rest p q ->
  weakening q = weakening p /\ seen_target_flags q = seen_target_flags p /\ target (inv q) = target (inv p).
Proof. by destruct 1. Qed.

(** The flags seen are target flags, so any of them conflicts with a profile. *)
Lemma target_conflict_none q seen : Forall (fun f => f ∈ TARGET_FLAGS) seen ->
  target_conflict q seen = None -> seen = [].
Proof.
  intros H Hc. destruct H as [|f seen Hf _]; [done|]. cbn [target_conflict] in Hc.
  assert (Hp : strip_prefix (chars "__weaken") f = None).
  { unfold TARGET_FLAGS in Hf. repeat (apply elem_of_cons in Hf as [->|Hf]; [reflexivity|]). by apply elem_of_nil in Hf. }
  by rewrite Hp, decide_True in Hc.
Qed.

Lemma finish_ok p i : finish_parsing p = Ok i ->
  weakening p = None /\ command i = command (inv p) /\
  (forall n, target i = Profile n -> target (inv p) = Profile n \/ target_conflict n (seen_target_flags p) = None).
Proof.
  unfold finish_parsing. destruct (weakening p); [by destruct (profile p)|].
  destruct (profile p) as [q|].
  - destruct (direct_url p); [done|]. destruct (target_conflict q (seen_target_flags p)) eqn:E; [done|].
    intros [= <-]. do 2 (split; [done|]). intros n [= ->]. by right.
  - destruct (direct_host p), (direct_port p), (direct_url p); intros [= <-]; do 2 (split; [done|]);
      intros n Hn; cbn in Hn; try discriminate Hn; by left.
Qed.

(** C18. An accepted command line is its client options followed by the command,
    sent as written; no option asks for weaker verification, and with a profile
    none names another target. *)
Theorem accepted_command_line argv reg i reg' :
  parse_args argv reg = (Ok i, reg') ->
  exists ws opts rest q, argv = ws ++ rest /\ consumed ws opts start_parsing reg q reg' /\
    command i = command_of rest /\
    (forall o, o ∈ opts -> ~ weakens o) /\
    (forall n, target i = Profile n -> forall o, o ∈ opts -> (o ∉ TARGET_FLAGS)).
Proof.
  unfold parse_args. destruct (parse_loop argv start_parsing reg) as [[p|e] r] eqn:E; [|done].
  intros [= Hf <-]. apply parse_loop_inv in E as (ws & opts & rest & q & -> & Hc & He).
  exists ws, opts, rest, q. do 2 (split; [done|]).
  destruct (consumed_effect _ _ _ _ _ _ Hc) as (Hs & Hw & Hcmd & Ht).
  destruct (ends_same _ _ _ He) as (Ew & Es & Et). apply finish_ok in Hf as (Hweak & Hcm & Hn).
  split; [rewrite Hcm; by apply (ends_command _ _ _ He)|]. split.
  - rewrite Ew, Hw, Forall_forall in Hweak. by destruct Hweak.
  - intros n Hi o Ho Hin. destruct (Hn n Hi) as [Hp|Hp]; [by rewrite Et, Ht in Hp|].
    rewrite Es, Hs in Hp. apply target_conflict_none in Hp.
    + assert (Hx : o ∈ filter (fun o => o ∈ TARGET_FLAGS) opts) by (by apply list_elem_of_filter).
      cbn in Hp. rewrite Hp in Hx. by apply elem_of_nil in Hx.
    + cbn. apply Forall_forall. intros x Hx. by apply list_elem_of_filter in Hx as [? _].
Qed.

Lemma accepted_command_line_witness :
  let argv := [chars "@prod"; chars "--tls-verify=full"; chars "-n"; chars "2"; chars "SET"; chars "k"; chars "--insecure"] in
  exists i ws opts rest q, argv = ws ++ rest /\ consumed ws opts start_parsing new_secrets q new_secrets /\
    command i = command_of rest /\
    (forall o, o ∈ opts -> ~ weakens o) /\
    (forall n, target i = Profile n -> forall o, o ∈ opts -> (o ∉ TARGET_FLAGS)).
Proof.
  intros argv.
  pose (i := mkInv (Profile (chars "prod")) (Some 2) Auto None None false false (mkTls true None None None None)
          [bs "SET"; bs "k"; bs "--insecure"]).
  assert (H : parse_args argv new_secrets = (Ok i, new_secrets)) by (vm_compute; reflexivity).
  exists i. exact (accepted_command_line argv new_secrets i new_secrets H).
Defined.

(** Once the command starts every word belongs to it: what the options mean,
    and whether they are refused, does not depend on it, and it is kept byte for
    byte. *)
Theorem command_verbatim ws opts reg q reg' w args :
  consumed ws opts start_parsing reg q reg' -> command_word w ->
  let options := (parse_args ws reg).1 in
  parse_args (ws ++ w :: args) reg
    = (match options with Ok i => Ok (with_command (w :: args) i) | Err e => Err e end, reg') /\
  parse_args (ws ++ chars "--" :: args) reg
    = (match options with Ok i => Ok (with_command args i) | Err e => Err e end, reg').
Proof.
  intros Hc Hw options. subst options. unfold parse_args.
  assert (Ho : parse_loop ws start_parsing reg = (Ok q, reg')).
  { rewrite <- (app_nil_r ws). by rewrite (parse_loop_consumed _ _ _ _ _ _ _ Hc). }
  rewrite !(parse_loop_consumed _ _ _ _ _ _ _ Hc), Ho. cbn [fst].
  rewrite (parse_loop_ends _ _ _ _ (ends_word w args q Hw)), (parse_loop_ends _ _ _ _ (ends_dashes args q)).
  by rewrite !finish_with_command.
Qed.

Lemma command_verbatim_witness :
  parse_args [chars "-h"; chars "r"; chars "SET"; chars "k"; chars "--raw"] new_secrets
  = (match (parse_args [chars "-h"; chars "r"] new_secrets).1 with
     | Ok i => Ok (with_command [chars "SET"; chars "k"; chars "--raw"] i)
     | Err e => Err e
     end, new_secrets).
Proof.
  pose (set := fun (v : str) (p : Parsing) (r : SecretSet) => (Ok (E := ArgError) (let p := see_flag (chars "-h") p in
    mkParsing (inv p) (profile p) (Some v) (direct_port p) (direct_url p) (seen_target_flags p) (weakening p)), r)).
  assert (Hc : consumed [chars "-h"; chars "r"] [chars "-h"] start_parsing new_secrets
    (mkParsing default_invocation None (Some (chars "r")) None None [chars "-h"] None) new_secrets).
  { eapply (consumed_valued _ _ _ _ _ _ set); [discriminate|reflexivity|reflexivity|reflexivity|reflexivity|constructor]. }
  assert (Hw : command_word (chars "SET")) by (split; [discriminate|split; reflexivity]).
  exact (proj1 (command_verbatim [chars "-h"; chars "r"] [chars "-h"] new_secrets _ new_secrets (chars "SET")
    [chars "k"; chars "--raw"] Hc Hw)).
Defined.

(** ** What the other paths do with the command's words *)

(** A word of the command answers for the client: the arguments would have been
    sent, but help is printed, or the MCP server started. *)
Lemma help_taken_from_command :
  let argv := [chars "-h"; chars "r"; chars "SET"; chars "k"; chars "--help"] in
  (exists i, (parse_args argv new_secrets).1 = Ok i /\ command i = [bs "SET"; bs "k"; bs "--help"]) /\
  (main_action argv new_secrets).1 = Answer Help.
Proof. split; [eexists; split; vm_compute; reflexivity|vm_compute; reflexivity]. Qed.

Lemma mcp_taken_from_command :
  let argv := [chars "-h"; chars "r"; chars "SET"; chars "k"; chars "--mcp-stdio"] in
  (exists i, (parse_args argv new_secrets).1 = Ok i /\ command i = [bs "SET"; bs "k"; bs "--mcp-stdio"]) /\
  (main_action argv new_secrets).1 = ServeMcp.
Proof. split; [eexists; split; vm_compute; reflexivity|vm_compute; reflexivity]. Qed.

(** A lone [-h] is help, although it is said always to mean the host. *)
Lemma lone_h_is_help : fast_path [chars "-h"] = Help.
Proof. reflexivity. Qed.

(** The user named on the command line reaches nothing. *)
Lemma user_flag_dropped :
  (parse_args [chars "-h"; chars "r"; chars "--user"; chars "bob"; chars "GET"; chars "k"] new_secrets).1
  = (parse_args [chars "-h"; chars "r"; chars "GET"; chars "k"] new_secrets).1.
Proof. vm_compute. reflexivity. Qed.

(** Probe names read back. *)
Lemma probe_roundtrip p : parse_probe (probe_name p) = Some p.
Proof. by destruct p. Qed.

(** * The help and version texts ([startup.rs])

    The texts and what they say of the options: what is advertised, and whether
    the command line understands it. *)

(** [writeln!] of a row. *)
Definition row (r : str * str) : str := txt "    " ++ r.1 ++ r.2 ++ [10].

Definition tls_section : str :=
  [10] ++ txt "TLS (§21.1, §21.3):" ++ [10] ++ concat (map row TLS_CONFIGURING)
  ++ txt "  There is no option that disables verification. If a certificate does not verify," ++ [10]
  ++ txt "  configure the CA or the name above; reachability is not a reason to stop checking." ++ [10].

Definition help_lines : list string := [
  "prc — Penguin Redis client";
  "";
  "USAGE:";
  "    prc [@profile | -h HOST -p PORT | -u URL] [OPTIONS] [COMMAND ...]";
  "";
  "OUTPUT:";
  "    --raw                 the official CLI's raw behaviour";
  "    --json                the official CLI's JSON (RESP3 unless -2 is given)";
  "    --csv                 CSV for one command";
  "    --bytes               one blob, no delimiter";
  "    --output FORMAT       pretty | raw | json | csv | typed-json | ndjson | resp";
  "    --show-pushes         write push frames to stderr as NDJSON events";
  "    --trace-wire FILE     record the raw wire bytes, unnormalised";
  "";
  "PROTOCOL:";
  "    -2, -3                choose the RESP version explicitly";
  "";
  "OTHER:";
  "    --mcp-stdio           speak JSON-RPC over stdin/stdout for an MCP host";
  "    --probe-width         measure this terminal's character widths (§14.6)";
  "    --diagnostics         print a support bundle: build and platform, no session data";
  "    --tui                 open the terminal UI";
  "    --help                this text";
  "    --version             version and the catalog it was built from"]%string.

Definition help : str := concat (map (fun l => txt l ++ [10]) help_lines) ++ tls_section.

(** [version], of the crate's version, the provenance of the catalogs and the
    outcome of their verification. *)
Definition version (pkg : str) (provenance : list (str * str)) (verified : option str) : str :=
  txt "prc " ++ pkg ++ [10]
  ++ concat (map (fun p => txt "catalog " ++ p.1 ++ txt ": " ++ p.2 ++ [10]) provenance)
  ++ match verified with
     | None => txt "catalog integrity: verified" ++ [10]
     | Some e => txt "catalog integrity: FAILED — " ++ e ++ [10]
     end.

(** ** What the help advertises *)

(** The options a line of the help is about: its first words that start with a
    dash, without a comma. *)
Fixpoint leading_options (ws : list str) : list str :=
  match ws with
  | w :: r => if starts_dash w then filter (fun c => c <> 44) w :: leading_options r else []
  | [] => []
  end.
Definition line_options (l : str) : list str :=
  match strip_prefix (txt "    -") l with
  | None => []
  | Some _ => leading_options (filter (fun w => w <> []) (split_on 32 l))
  end.
Definition advertised : list str := str_lines help ≫= line_options.

(** What [main] and the parser understand as an option. *)
Definition understood (a : str) : bool :=
  bool_decide (a = chars "--mcp-stdio") || negb (bool_decide (fast_path [a] = NoFast))
  || bool_decide (is_Some (bare_flag a start_parsing))
  || match valued_flag a with Some _ => true | None => false end.

(** Every option that configures TLS is advertised, each in its own line, and
    understood. *)
Lemma tls_options_advertised r : r ∈ TLS_CONFIGURING -> r.1 ∈ advertised /\ understood r.1 = true.
Proof.
  assert (forallb (fun r => bool_decide (r.1 ∈ advertised) && understood r.1) TLS_CONFIGURING = true) as H by (by vm_compute).
  rewrite forallb_forall in H. intros Hr%list_elem_of_In. specialize (H r Hr).
  apply andb_true_iff in H as [H1 H2]. by apply bool_decide_eq_true in H1.
Qed.

(** Two advertised options are refused as unknown: [--show-pushes] and
    [--trace-wire]. *)
Lemma advertised_not_understood :
  filter (fun a => understood a = false) advertised = [chars "--show-pushes"; chars "--trace-wire"].
Proof. by vm_compute. Qed.

Lemma show_pushes_refused reg :
  (main_action [chars "--show-pushes"; chars "PING"] reg).1 = UsageError (UnknownOption (chars "--show-pushes")).
Proof. reflexivity. Qed.

(** And these are understood, and advertised nowhere. *)
Definition OPTIONS : list str := chars <$> [
  "-s"; "--user"; "--askpass"; "--sentinel"; "--cluster"; "-n"; "-2"; "-3"; "--raw"; "--json"; "--csv"; "--bytes";
  "--output"; "--no-color"; "--color"; "--plain"; "--tui"]%string.

Lemma understood_not_advertised :
  forallb understood OPTIONS = true /\
  filter (fun a => a ∉ advertised) OPTIONS =
    chars <$> ["-s"; "--user"; "--askpass"; "--sentinel"; "--cluster"; "-n"; "--no-color"; "--color"; "--plain"]%string.
Proof. split; by vm_compute. Qed.
