(* ===== verification/Passthrough.v ===== *)
(** * The one-shot passthrough ([crates/prc/src]: [passthrough.rs], [binout.rs])

    One command over one connection: the handshakes the options ask for, the
    command, its reply on stdout.  The connection is the answer of the connect
    call; what the operating system says of an error is [show]. *)

From S2P Require Import Prelude Text TextFacts Value Decoder Outcome Secrets Output Args Oneshot.

(** [render_raw]: the elements of an aggregate are separated, not ended, by line
    feeds. *)
Fixpoint render_raw (v : Value) (top : bool) : bytes :=
  match v with
  | VSimple b | VBulk b | VVerbatim _ b => b
  | VInteger n => print_signed n
  | VDouble lex | VBigNumber lex => lex
  | VBoolean t => if t then bs "true" else bs "false"
  | VNull _ => []
  | VArray items | VSet items | VPush items => join [x0a] (map (fun x => render_raw x false) items)
  | VMap entries =>
      join [x0a] (map (fun '(k, w) => render_raw k false ++ [x0a] ++ render_raw w false) entries)
  | VAttribute _ w => render_raw w false
  | VError b | VBulkError b => b
  end ++ (if top then [x0a] else []).

(** What a run leaves: its exit code, the two streams and the connection. *)
Record Ran := mkRan { code : ExitCode; ran_stdout : bytes; ran_stderr : bytes; ran_conn : option Oneshot }.

Section Run.
Context (show : CallError -> bytes).

Definition hello3 : list bytes := [bs "HELLO"; bs "3"].
Definition select_db (n : Z) : list bytes := [bs "SELECT"; print_unsigned n].

(** A handshake: the complaint, if there is one. *)
Definition handshake (what : bytes) (argv : list bytes) (conn : Oneshot) : option bytes * Oneshot :=
  match call argv conn with
  | (Ok (VError e), c) | (Ok (VBulkError e), c) =>
      (Some (bs "prc: " ++ what ++ bs ": " ++ encode_str (from_utf8_lossy e) ++ [x0a]), c)
  | (Ok _, c) => (None, c)
  | (Err e, c) => (Some (bs "prc: " ++ what ++ bs ": " ++ show e ++ [x0a]), c)
  end.

(** [stdout_takes] is how many bytes standard output takes before it fails;
    [None] when it does not. *)
Definition send_command (argv : list bytes) (stdout_takes : option nat) (conn : Oneshot) : Ran :=
  match call argv conn with
  | (Err e, c) => mkRan ResultUnknown [] (bs "prc: " ++ show e ++ [x0a]) (Some c)
  | (Ok (VError msg), c) | (Ok (VBulkError msg), c) =>
      mkRan CommandError [] (bs "(error) " ++ msg ++ [x0a]) (Some c)
  | (Ok reply, c) =>
      match stdout_takes with
      | None => mkRan Success (render_raw reply true) [] (Some c)
      | Some n => mkRan LocalFailure (take n (render_raw reply true)) [] (Some c)
      end
  end.

(** The handshakes in order, then the command. *)
Definition handshakes (i : Invocation) : list (bytes * list bytes) :=
  (match protocol i with Some n => if decide (n = 3) then [(bs "HELLO 3", hello3)] else [] | None => [] end)
  ++ match inv_db i with
     | Some n => [(bs "SELECT " ++ print_unsigned n, select_db n)]
     | None => []
     end.

Fixpoint after_handshakes (hs : list (bytes * list bytes)) (k : Oneshot -> Ran) (conn : Oneshot) : Ran :=
  match hs with
  | [] => k conn
  | (what, argv) :: r =>
      match handshake what argv conn with
      | (Some complaint, c) => mkRan Connection [] complaint (Some c)
      | (None, c) => after_handshakes r k c
      end
  end.

Definition run (i : Invocation) (host : str) (port : Z) (connected : result CallError Oneshot)
    (stdout_takes : option nat) : Ran :=
  match connected with
  | Err e => mkRan Connection []
               (bs "prc: " ++ encode_str host ++ bs ":" ++ print_unsigned port ++ bs ": " ++ show e ++ [x0a]) None
  | Ok conn => after_handshakes (handshakes i) (send_command (command i) stdout_takes) conn
  end.

End Run.

(** ** Binary output *)

Inductive BinaryOutError := ConsoleCannotTakeBinary | OutIo.

(** [write_binary]: what reaches stdout. *)
Definition write_binary (is_terminal write_ok : bool) (b : bytes) : result BinaryOutError bytes :=
  if is_terminal && bool_decide (from_utf8 b = None) then Err ConsoleCannotTakeBinary
  else if write_ok then Ok b else Err OutIo.

Definition canary : bytes :=
  bs "start" ++ [x0d; x0a] ++ [x0d] ++ [x0a] ++ [x1a] ++ [x00] ++ [xff; xfe]
  ++ [xe4; xb8; xad; xe6; x96; x87] ++ bs "end".

Lemma canary_refused_by_terminal : write_binary true true canary = Err ConsoleCannotTakeBinary
  /\ write_binary false true canary = Ok canary.
Proof. split; vm_compute; reflexivity. Qed.

(** ** What is sent, and what the exit code says of it *)

Definition is_error_reply (v : Value) : bool :=
  match v with
  | VError _ | VBulkError _ => true
  | _ => false
  end.

(** Handshakes that were each written whole and answered, by no error. *)
Inductive greeted : list (bytes * list bytes) -> Oneshot -> Oneshot -> Prop :=
| greeted_none c : greeted [] c c
| greeted_one what argv v hs c c1 c2 :
    call argv c = (Ok v, c1) -> is_error_reply v = false -> greeted hs c1 c2 ->
    greeted ((what, argv) :: hs) c c2.

Lemma greeted_writes hs c c' : greeted hs c c' ->
  written c' = written c ++ concat (encode_command <$> hs.*2).
Proof.
  induction 1 as [c|what argv v hs c c1 c2 Hc _ _ IH]; [by rewrite app_nil_r|].
  destruct (call_writes argv c) as (part & Hw & _ & Hall). rewrite Hc in *. cbn [fst snd] in *.
  rewrite IH, Hw, (Hall eq_refl), <- app_assoc. done.
Qed.

(** What a handshake that does not pass has met. *)
Definition refused (r : result CallError Value) : Prop :=
  match r with
  | Ok v => is_error_reply v = true
  | Err _ => True
  end.

Lemma handshake_none show what argv c c' : handshake show what argv c = (None, c') ->
  exists v, call argv c = (Ok v, c') /\ is_error_reply v = false.
Proof. unfold handshake. destruct (call argv c) as [[[]|e] c1]; intros [= <-]; by eexists. Qed.

Lemma handshake_some show what argv c m c' : handshake show what argv c = (Some m, c') ->
  call argv c = ((call argv c).1, c') /\ refused (call argv c).1.
Proof. unfold handshake. by destruct (call argv c) as [[[]|e] c1]; intros [= _ <-]. Qed.

Lemma after_handshakes_cases show hs k : forall c,
  (exists c', greeted hs c c' /\ after_handshakes show hs k c = k c')
  \/ exists sent what argv rest c0 m, hs = sent ++ (what, argv) :: rest /\ greeted sent c c0 /\
       refused (call argv c0).1 /\ after_handshakes show hs k c = mkRan Connection [] m (Some (call argv c0).2).
Proof.
  induction hs as [|[what argv] hs IH]; intros c; cbn [after_handshakes].
  { left. exists c. split; [constructor|done]. }
  destruct (handshake show what argv c) as [[m|] c1] eqn:E.
  - right. apply handshake_some in E as [E Hr]. exists [], what, argv, hs, c, m.
    split_and!; [done|constructor|done|]. by rewrite E.
  - apply handshake_none in E as (v & E & Hv). destruct (IH c1) as [(c' & Hg & ->)|H].
    + left. exists c'. split; [by econstructor|done].
    + right. destruct H as (sent & w & a & rest & c0 & m & -> & Hg & Hr & ->).
      exists ((what, argv) :: sent), w, a, rest, c0, m. split_and!; [done|by econstructor|done|done].
Qed.

(** C19. A run writes its handshakes and then its command, in order, and its
    exit code says how far it came, whatever the socket does once the connection
    is made.  Either a
    handshake fails (its write or its read fails, or an error answers it): then
    those before it were written whole and answered, of it a part was written
    and nothing after it, the code is that of a connection failure and nothing is
    printed.  Or every handshake was answered and a part of the command was
    written: then the code is "result unknown" when the call fails (even if
    nothing of the command went out: [unsent_command_unknown]); when a reply
    came, the whole command was written, and an error reply gives the code for
    one and prints nothing, any other reply is printed, with success, or in part
    with the code of a local failure if standard output fails. *)
Theorem run_accounts show i host port conn takes :
  let r := run show i host port (Ok conn) takes in
  exists sent c0 c part, greeted sent conn c0 /\ ran_conn r = Some c /\
    written c = written conn ++ concat (encode_command <$> sent.*2) ++ part /\
    ((exists what argv rest, handshakes i = sent ++ (what, argv) :: rest /\
        part `prefix_of` encode_command argv /\ refused (call argv c0).1 /\
        code r = Connection /\ ran_stdout r = [])
     \/ (sent = handshakes i /\ part `prefix_of` encode_command (command i) /\
         match (call (command i) c0).1 with
         | Err _ => code r = ResultUnknown /\ ran_stdout r = []
         | Ok v => part = encode_command (command i) /\
             if is_error_reply v then code r = CommandError /\ ran_stdout r = []
             else match takes with
                  | None => code r = Success /\ ran_stdout r = render_raw v true
                  | Some n => code r = LocalFailure /\ ran_stdout r = take n (render_raw v true)
                  end
         end)).
Proof.
  cbn zeta. cbn [run].
  destruct (after_handshakes_cases show (handshakes i) (send_command show (command i) takes) conn)
    as [(c0 & Hg & ->)|(sent & what & argv & rest & c0 & m & Hs & Hg & Hr & ->)].
  - destruct (call_writes (command i) c0) as (part & Hw & Hp & Hall).
    exists (handshakes i), c0, (call (command i) c0).2, part.
    rewrite Hw, (greeted_writes _ _ _ Hg), <- app_assoc. unfold send_command.
    destruct (call (command i) c0) as [[v|e] c]; cbn [fst snd is_ok] in *.
    + specialize (Hall eq_refl). destruct v, takes; (split_and!; try done; right; split_and!; done).
    + split_and!; try done. right. by split_and!.
  - destruct (call_writes argv c0) as (part & Hw & Hp & _).
    exists sent, c0, (call argv c0).2, part. cbn [ran_conn code ran_stdout].
    rewrite Hw, (greeted_writes _ _ _ Hg), <- app_assoc. split_and!; try done.
    left. by exists what, argv, rest.
Qed.

Definition sample_invocation : Invocation :=
  mkInv Unspecified (Some 3) Auto None None false false default_tls [bs "GET"; bs "k"].

(** A write that fails at the first byte of the command: nothing of it went out,
    and the code is the one for unknown effects all the same. *)
Lemma unsent_command_unknown :
  let conn := over [Sent; WriteFails 0 "broken pipe"] [Ok (bs "+OK" ++ crlf)] in
  let r := run (fun _ => []) sample_invocation (chars "r") 6379 (Ok conn) None in
  code r = ResultUnknown /\ (written <$> ran_conn r) = Some (encode_command (select_db 3)).
Proof. split; vm_compute; reflexivity. Qed.

Lemma run_accounts_witness :
  exists sent c0, greeted sent (over [] [Ok (bs "+OK" ++ crlf); Ok (bs "$1" ++ crlf ++ bs "v" ++ crlf)]) c0 /\
    code (run (fun _ => []) sample_invocation (chars "r") 6379
      (Ok (over [] [Ok (bs "+OK" ++ crlf); Ok (bs "$1" ++ crlf ++ bs "v" ++ crlf)])) None) = Success.
Proof.
  destruct (run_accounts (fun _ => []) sample_invocation (chars "r") 6379
    (over [] [Ok (bs "+OK" ++ crlf); Ok (bs "$1" ++ crlf ++ bs "v" ++ crlf)]) None) as (sent & c0 & _ & _ & H & _).
  exists sent, c0. split; [exact H|vm_compute; reflexivity].
Defined.

(** The options for TLS, and every output mode, reach nothing here: the same
    bytes go out over the same plain connection. *)
Lemma tls_ignored show i host port conn ok t m :
  run show (mkInv (target i) (inv_db i) m (protocol i) (color i) (plain i) (tui i) t (command i)) host port conn ok
  = run show i host port conn ok.
Proof. done. Qed.

Lemma tls_required_but_plain :
  exists i, main_action [chars "-h"; chars "r"; chars "--tls"; chars "AUTH"; chars "secret"] new_secrets
    = (Passthrough i (chars "r") 6379, new_secrets) /\ tls_enabled (inv_tls i) = true /\
  (written <$> ran_conn (run (fun _ => []) i (chars "r") 6379 (Ok (over [] [])) None))
    = Some (encode_command [bs "AUTH"; bs "secret"]).
Proof. eexists. split; [vm_compute; reflexivity|]. split; vm_compute; reflexivity. Qed.

(** ** The two renderings of raw mode *)

(** Every payload is text, and no boolean occurs. *)
Fixpoint textual (v : Value) : Prop :=
  match v with
  | VSimple b | VBulk b | VVerbatim _ b | VError b | VBulkError b | VDouble b | VBigNumber b => is_Some (from_utf8 b)
  | VInteger _ | VNull _ => True
  | VBoolean _ => False
  | VArray items | VSet items | VPush items => (fix go l := match l with [] => True | x :: r => textual x /\ go r end) items
  | VMap entries =>
      (fix go l := match l with [] => True | (k, w) :: r => (textual k /\ textual w) /\ go r end) entries
  | VAttribute _ w => textual w
  end.

Lemma lossy_text b : is_Some (from_utf8 b) -> encode_str (from_utf8_lossy b) = b.
Proof. intros [t Ht]. rewrite (from_utf8_lossy_valid b t Ht). by apply from_utf8_encode. Qed.

Lemma print_signed_encode z : encode_str (bz <$> print_signed z) = print_signed z.
Proof.
  apply encode_str_ascii. eapply Forall_impl; [apply print_signed_graphic|]. intros b Hb.
  unfold graphic in Hb. lia.
Qed.

Lemma render_items vs : Forall (fun v => textual v -> render_raw v false = encode_str (raw_text v)) vs ->
  textual (VArray vs) ->
  join [x0a] (map (fun x => render_raw x false) vs) = encode_str (join [10] (map raw_text vs)).
Proof.
  intros H Ht. rewrite encode_join_sep. change (encode_str [10]) with [x0a]. f_equal.
  induction H as [|v vs Hv _ IH]; [done|]. destruct Ht as [Hx Hr]. cbn [map fmap list_fmap]. by rewrite Hv, IH.
Qed.

Lemma render_entries kv :
  Forall (fun e => (textual e.1 -> render_raw e.1 false = encode_str (raw_text e.1)) /\
                   (textual e.2 -> render_raw e.2 false = encode_str (raw_text e.2))) kv ->
  textual (VMap kv) ->
  join [x0a] (map (fun '(k, w) => render_raw k false ++ [x0a] ++ render_raw w false) kv)
  = encode_str (join [10] (map (fun '(k, w) => raw_text k ++ [10] ++ raw_text w) kv)).
Proof.
  intros H Ht. rewrite encode_join_sep. change (encode_str [10]) with [x0a]. f_equal.
  induction H as [|[k w] kv [Hk Hw] _ IH]; [done|]. destruct Ht as [[Tk Tw] Hr]. cbn [fst snd map fmap list_fmap] in *.
  by rewrite Hk, Hw, IH, !encode_str_app.
Qed.

Lemma render_agrees v : textual v -> render_raw v false = encode_str (raw_text v).
Proof.
  revert v. apply (value_rect' (fun v => textual v -> render_raw v false = encode_str (raw_text v)));
    cbn [render_raw raw_text]; intros; rewrite app_nil_r.
  all: try (symmetry; by apply lossy_text).
  all: try (by apply render_items).
  all: try done.
  - by rewrite print_signed_encode.
  - by apply render_entries.
  - auto.
Qed.

(** On replies whose payloads are text and that hold no boolean, the
    passthrough prints what raw mode prints. *)
Theorem raw_renderers_agree v :
  textual v -> render_raw v true = encode_str (render_simple Output.Raw v).
Proof.
  intros Hv. cbn [render_simple]. rewrite encode_str_app, <- render_agrees by done.
  destruct v; cbn [render_raw]; by rewrite app_nil_r.
Qed.

(** On a boolean the two disagree. *)
Lemma raw_booleans_differ : render_raw (VBoolean true) true = bs "true" ++ [x0a]
  /\ encode_str (render_simple Output.Raw (VBoolean true)) = bs "1" ++ [x0a].
Proof. split; reflexivity. Qed.
