(* ===== verification/Credentials.v ===== *)
(** * Credential references and stores ([pr-profiles/src/credentials.rs])

    A profile holds an opaque reference, never a secret; the secret is in a
    platform store.  A store is an instance of the class [CredentialStore] over
    its own state; [StoreLaws] is what the trait's documentation promises of it,
    and what [Journal] relies on.  The platform store is built over the keyring
    library, a parameter here (the class [Keyring]), and its laws follow from the
    library's. *)

From S2P Require Import Prelude Text TextFacts Lines.

Inductive CredentialError :=
| NotFound (r : str)
| Unavailable (why : str)
| StoreError (why : str)
| MalformedRef (s : str).

#[export] Instance credential_error_eq_dec : EqDecision CredentialError.
Proof. solve_decision. Defined.

(** ** References *)

Record SecretRef := mkRef { as_str : str }.

#[export] Instance secret_ref_eq_dec : EqDecision SecretRef.
Proof. solve_decision. Defined.

(** [char::is_ascii_alphanumeric]. *)
Definition char_is_ascii_alphanumeric (c : Z) : bool :=
  bool_decide (48 <= c <= 57) || bool_decide (65 <= c <= 90) || bool_decide (97 <= c <= 122).
Definition ref_char (c : Z) : bool := char_is_ascii_alphanumeric c || bool_decide (c = 45).

Definition parse_ref (s : str) : result CredentialError SecretRef :=
  match strip_prefix (chars "credential:") s with
  | Some r => if negb (bool_decide (r = [])) && forallb ref_char r then Ok (mkRef s)
              else Err (MalformedRef s)
  | None => Err (MalformedRef s)
  end.

Definition generate (uuid : str) : SecretRef := mkRef (chars "credential:" ++ uuid).

(** ** Stores *)

Inductive StoreKind := AppleKeychain | WindowsCredentialManager | SecretService | LinuxKeyutils | NoStore.

#[export] Instance store_kind_eq_dec : EqDecision StoreKind.
Proof. solve_decision. Defined.

Definition is_persistent (k : StoreKind) : bool :=
  match k with
  | AppleKeychain | WindowsCredentialManager | SecretService => true
  | LinuxKeyutils | NoStore => false
  end.

Definition kind_name (k : StoreKind) : str :=
  match k with
  | AppleKeychain => chars "macOS Keychain"
  | WindowsCredentialManager => chars "Windows Credential Manager"
  | SecretService => chars "Secret Service (D-Bus)"
  | LinuxKeyutils => chars "Linux keyutils (session only)"
  | NoStore => chars "none"
  end.

(** The trait: [S] is the state behind the store. *)
Class CredentialStore (S : Type) := {
  kind : StoreKind;
  set_secret : SecretRef -> str -> S -> S * result CredentialError unit;
  get_secret : SecretRef -> S -> result CredentialError str;
  delete_secret : SecretRef -> S -> S * result CredentialError unit;
}.

(** What the trait's documentation promises: a stored secret is what is read, a
    deleted one is [NotFound], deleting an absent one succeeds, and other
    references are untouched. *)
Class StoreLaws (S : Type) `{CredentialStore S} : Prop := {
  set_get r secret s s' : set_secret r secret s = (s', Ok tt) -> get_secret r s' = Ok secret;
  set_other r r' secret s : r <> r' -> get_secret r' (set_secret r secret s).1 = get_secret r' s;
  delete_get r s s' : delete_secret r s = (s', Ok tt) -> get_secret r s' = Err (NotFound (as_str r));
  delete_other r r' s : r <> r' -> get_secret r' (delete_secret r s).1 = get_secret r' s;
  delete_absent r s : get_secret r s = Err (NotFound (as_str r)) -> (delete_secret r s).2 = Ok tt;
}.

(** ** The platform store, over the keyring library *)

Definition SERVICE : str := chars "penguin-redis".

(** The library's errors, as the source tells them apart; the payload is the
    error's text. *)
Inductive KeyringError :=
| NoEntry
| NoStorageAccess (inner : str)
| PlatformFailure (inner : str)
| OtherFailure (text : str).

#[export] Instance keyring_error_eq_dec : EqDecision KeyringError.
Proof. solve_decision. Defined.

Definition map_err (e : KeyringError) (r : SecretRef) : CredentialError :=
  match e with
  | NoEntry => NotFound (as_str r)
  | NoStorageAccess inner | PlatformFailure inner => Unavailable inner
  | OtherFailure text => StoreError text
  end.

(** The library: an entry is found by service and user. *)
Class Keyring (K : Type) := {
  KeyEntry : Type;
  entry_new : str -> str -> result KeyringError KeyEntry;
  set_password : KeyEntry -> str -> K -> K * result KeyringError unit;
  get_password : KeyEntry -> K -> result KeyringError str;
  delete_credential : KeyEntry -> K -> K * result KeyringError unit;
}.

Class KeyringLaws (K : Type) `{Keyring K} : Prop := {
  entries_apart u u' e e' : entry_new SERVICE u = Ok e -> entry_new SERVICE u' = Ok e' -> u <> u' -> e <> e';
  password_set e p k k' : set_password e p k = (k', Ok tt) -> get_password e k' = Ok p;
  password_set_other e e' p k : e <> e' -> get_password e' (set_password e p k).1 = get_password e' k;
  credential_deleted e k k' : delete_credential e k = (k', Ok tt) -> get_password e k' = Err NoEntry;
  credential_no_entry e k k' : delete_credential e k = (k', Err NoEntry) -> get_password e k' = Err NoEntry;
  credential_absent e k : get_password e k = Err NoEntry -> (delete_credential e k).2 = Err NoEntry;
  credential_deleted_other e e' k : e <> e' -> get_password e' (delete_credential e k).1 = get_password e' k;
  entry_present u : entry_new SERVICE u <> Err NoEntry;
}.

Inductive TargetOs := MacOs | Windows | Linux | OtherOs.

Section Platform.
Context {K : Type} `{Keyring K} (target_os : TargetOs).

Definition platform_kind : StoreKind :=
  match target_os with
  | MacOs => AppleKeychain
  | Windows => WindowsCredentialManager
  | Linux => SecretService
  | OtherOs => NoStore
  end.

Definition entry (r : SecretRef) : result CredentialError KeyEntry :=
  match entry_new SERVICE (as_str r) with
  | Ok e => Ok e
  | Err e => Err (map_err e r)
  end.

Definition platform_set (r : SecretRef) (secret : str) (k : K) : K * result CredentialError unit :=
  match entry r with
  | Err e => (k, Err e)
  | Ok e => match set_password e secret k with
            | (k', Ok _) => (k', Ok tt)
            | (k', Err x) => (k', Err (map_err x r))
            end
  end.

Definition platform_get (r : SecretRef) (k : K) : result CredentialError str :=
  match entry r with
  | Err e => Err e
  | Ok e => match get_password e k with
            | Ok p => Ok p
            | Err x => Err (map_err x r)
            end
  end.

Definition platform_delete (r : SecretRef) (k : K) : K * result CredentialError unit :=
  match entry r with
  | Err e => (k, Err e)
  | Ok e => match delete_credential e k with
            | (k', Ok _) | (k', Err NoEntry) => (k', Ok tt)
            | (k', Err x) => (k', Err (map_err x r))
            end
  end.

Definition PlatformStore : CredentialStore K :=
  {| kind := platform_kind; set_secret := platform_set;
     get_secret := platform_get; delete_secret := platform_delete |}.

End Platform.

(** ** The store that always refuses *)

Definition refusal : CredentialError := Unavailable (chars "no session keyring").

#[export] Instance UnavailableStore : CredentialStore unit :=
  {| kind := NoStore; set_secret _ _ s := (s, Err refusal);
     get_secret _ _ := Err refusal; delete_secret _ s := (s, Err refusal) |}.

(** ** Without a store *)

Inductive HeadlessFallback := AskPass | SessionOnly | ApprovedProvider | Refuse.

#[export] Instance headless_fallback_eq_dec : EqDecision HeadlessFallback.
Proof. solve_decision. Defined.

Definition headless_options (interactive : bool) : list HeadlessFallback :=
  if interactive then [AskPass; SessionOnly; ApprovedProvider] else [ApprovedProvider; Refuse].

(** ** Facts *)

Lemma parse_ref_ok s r : parse_ref s = Ok r ->
  as_str r = s /\ exists u, s = chars "credential:" ++ u /\ u <> [] /\ Forall (fun c => ref_char c = true) u.
Proof.
  unfold parse_ref. destruct (strip_prefix _ s) as [u|] eqn:E; [|done].
  destruct (negb _ && _) eqn:G; [|done]. intros [= <-]. apply andb_true_iff in G as [Hn Hf].
  apply negb_true_iff, bool_decide_eq_false in Hn. split; [done|]. exists u. split; [|split; [done|]].
  - by apply strip_prefix_spec.
  - apply Forall_forall. rewrite forallb_forall in Hf. intros c Hc. apply Hf. by apply list_elem_of_In.
Qed.

(** A minted reference is read back exactly when its id is what a reference may hold. *)
Lemma parse_generate u :
  parse_ref (as_str (generate u)) =
    if bool_decide (u <> [] /\ Forall (fun c => ref_char c = true) u) then Ok (generate u)
    else Err (MalformedRef (as_str (generate u))).
Proof.
  unfold parse_ref, generate. cbn [as_str]. rewrite strip_prefix_app.
  assert (E : negb (bool_decide (u = [])) && forallb ref_char u =
              bool_decide (u <> [] /\ Forall (fun c => ref_char c = true) u)); [|by rewrite E].
  apply eq_true_iff_eq. rewrite andb_true_iff, negb_true_iff, bool_decide_eq_false, bool_decide_eq_true.
  rewrite forallb_forall, Forall_forall. by setoid_rewrite list_elem_of_In.
Qed.

(** Every character of a reference is ASCII, visible, and no separator of the journal. *)
Lemma ref_char_graphic c : ref_char c = true -> 33 <= c <= 126.
Proof.
  unfold ref_char, char_is_ascii_alphanumeric. rewrite !orb_true_iff, !bool_decide_eq_true. lia.
Qed.

Lemma parse_ref_graphic s r : parse_ref s = Ok r -> Forall (fun c => 33 <= c <= 126) s.
Proof.
  intros (_ & u & -> & _ & Hu)%parse_ref_ok. apply Forall_app. split.
  - repeat (constructor; [by vm_compute; split; intros ?|]). constructor.
  - eapply Forall_impl; [exact Hu|]. apply ref_char_graphic.
Qed.

Section PlatformLaws.
Context {K : Type} `{HK : KeyringLaws K} (os : TargetOs).

Lemma map_err_not_found e r : map_err e r = NotFound (as_str r) -> e = NoEntry.
Proof. by destruct e. Qed.

(** The platform store keeps the trait's promises when the keyring keeps its own. *)
Lemma platform_laws : @StoreLaws K (PlatformStore os).
Proof.
  split; cbn; unfold platform_set, platform_get, platform_delete, entry.
  - intros r secret s s'. destruct (entry_new _ _) as [e|] eqn:E; [|by intros [= <-]].
    destruct (set_password e secret s) as [k' [[]|x]] eqn:P; intros [= <-]; try done.
    by rewrite (password_set _ _ _ _ P).
  - intros r r' secret s Hn. destruct (entry_new _ (as_str r)) as [e|] eqn:E; [|done].
    destruct (entry_new _ (as_str r')) as [e'|] eqn:E'; [|done].
    assert (He : e <> e'). { eapply entries_apart; [done..|]. intros Hs. apply Hn. destruct r, r'. by cbn in Hs; subst. }
    pose proof (password_set_other e e' secret s He) as Ho.
    destruct (set_password e secret s) as [k' [[]|x]]; cbn [fst] in *; by rewrite Ho.
  - intros r s s'. destruct (entry_new _ _) as [e|] eqn:E; [|by intros [= <-]].
    destruct (delete_credential e s) as [k' [[]|x]] eqn:P; [intros [= <-]|destruct x; intros [= <-]]; cbn [map_err].
    + by rewrite (credential_deleted _ _ _ P).
    + by rewrite (credential_no_entry _ _ _ P).
  - intros r r' s Hn. destruct (entry_new _ (as_str r)) as [e|] eqn:E; [|done].
    destruct (entry_new _ (as_str r')) as [e'|] eqn:E'; [|done].
    assert (He : e <> e'). { eapply entries_apart; [done..|]. intros Hs. apply Hn. destruct r, r'. by cbn in Hs; subst. }
    pose proof (credential_deleted_other e e' s He) as Ho.
    destruct (delete_credential e s) as [k' [[]|x]]; [|destruct x]; cbn [fst] in *; by rewrite Ho.
  - intros r s. destruct (entry_new _ _) as [e|x] eqn:E.
    + destruct (get_password e s) as [p|x] eqn:P; [done|]. intros [= Hx%map_err_not_found]. subst x.
      pose proof (credential_absent _ _ P) as Hd. destruct (delete_credential e s) as [k' o]. cbn in Hd. by subst o.
    + intros [= Hx%map_err_not_found]. subst x. by apply entry_present in E.
Qed.

End PlatformLaws.

(** A keyring in memory: one password per user. *)
#[export] Instance memory_keyring : Keyring (gmap str str) :=
  {| KeyEntry := str; entry_new _ u := Ok u;
     set_password e p k := (<[e := p]> k, Ok tt);
     get_password e k := ok_or (k !! e) NoEntry;
     delete_credential e k := match k !! e with
                              | Some _ => (delete e k, Ok tt)
                              | None => (k, Err NoEntry)
                              end |}.

#[export] Instance memory_keyring_laws : KeyringLaws (gmap str str).
Proof.
  split; cbn; unfold ok_or.
  - intros u u' e e' [= <-] [= <-]. done.
  - intros e p k k' [= <-]. by rewrite lookup_insert_eq.
  - intros e e' p k Hn. by rewrite lookup_insert_ne.
  - intros e k k'. destruct (k !! e) eqn:E; intros [= <-]. by rewrite lookup_delete_eq.
  - intros e k k'. destruct (k !! e) eqn:E; intros [= <-]. by rewrite E.
  - intros e k. by destruct (k !! e).
  - intros e e' k Hn. destruct (k !! e); [cbn; by rewrite lookup_delete_ne|done].
  - intros u. done.
Qed.

#[export] Instance memory_store : CredentialStore (gmap str str) := PlatformStore Linux.
#[export] Instance memory_store_laws : StoreLaws (gmap str str) := platform_laws Linux.

(** ** What is promised without a store *)

(** The store that refuses never reports a secret as stored, read or deleted. *)
Lemma unavailable_fails_closed r secret :
  set_secret r secret tt = (tt, Err refusal) /\ get_secret r tt = Err refusal /\ delete_secret r tt = (tt, Err refusal).
Proof. done. Qed.

(** A refusal is always among the answers when nobody can be asked, and asking
    only when somebody can. *)
Lemma headless_exact i : AskPass ∈ headless_options i <-> i = true.
Proof. destruct i; cbn; rewrite ?elem_of_cons, ?elem_of_nil; naive_solver. Qed.
