(* ===== verification/Journal.v ===== *)
(** * The credential journal ([pr-profiles/src/journal.rs])

    An append-only file of records beside [profiles.toml], read back to find what
    a crash left behind.  The file is the bytes it holds ([None]: there is no such
    file).  An append is a sequence of calls of the file system, each of which may
    fail, or be the last one before the process dies: [Fault] says which.  The
    store is any instance of [Credentials.CredentialStore]. *)

From S2P Require Import Prelude Text TextFacts Lines Credentials.

Inductive State := Pending | Committed | Cleaned.

#[export] Instance state_eq_dec : EqDecision State.
Proof. solve_decision. Defined.

Definition state_str (s : State) : str :=
  match s with
  | Pending => chars "pending"
  | Committed => chars "committed"
  | Cleaned => chars "cleaned"
  end.

Definition parse_state (s : str) : option State :=
  if decide (s = chars "pending") then Some Pending
  else if decide (s = chars "committed") then Some Committed
  else if decide (s = chars "cleaned") then Some Cleaned
  else None.

Record Entry := mkEntry {
  profile_uuid : str;
  secret_ref : SecretRef;
  supersedes : option SecretRef;
  state : State;
}.

#[export] Instance entry_eq_dec : EqDecision Entry.
Proof. solve_decision. Defined.

Inductive IoError := InvalidData | IoFailed.

Inductive JournalError :=
| Io (e : IoError)
| Malformed (line : Z)
| Credential (e : CredentialError).

Record Reconciliation := mkReconciliation {
  orphaned_secrets : list SecretRef;
  dangling_profiles : list str;
  retryable_cleanups : list SecretRef;
  entries_examined : Z;
}.

Definition needs_attention (r : Reconciliation) : bool :=
  negb (bool_decide (orphaned_secrets r = [])) || negb (bool_decide (dangling_profiles r = [])).

(** The content of the journal's file. *)
Abbreviation file := (option bytes).

(** ** Writing *)

(** The line without its newline. *)
Definition record (e : Entry) : str :=
  join [9] [profile_uuid e; as_str (secret_ref e);
            match supersedes e with Some r => as_str r | None => [45] end; state_str (state e)].

(** Where an append stops, and how much of the line a failing write leaves. *)
Inductive Fault := CreateDir | Open | SetPrivate | Write (written : nat) | Sync.

Definition append (fault : option Fault) (e : Entry) (f : file) : file * result JournalError unit :=
  let line := encode_str (record e ++ [10]) in
  match fault with
  | Some CreateDir | Some Open => (f, Err (Io IoFailed))
  | Some SetPrivate => (Some (default [] f), Err (Io IoFailed))
  | Some (Write n) => (Some (default [] f ++ take n line), Err (Io IoFailed))
  | Some Sync => (Some (default [] f ++ line), Err (Io IoFailed))
  | None => (Some (default [] f ++ line), Ok tt)
  end.

(** ** Reading *)

(** The record of the fields of one line, [i] lines after the first. *)
Definition parse_fields (i : Z) (fields : list str) : result JournalError Entry :=
  match fields with
  | [p; s; old; st] =>
      match parse_ref s with
      | Err _ => Err (Malformed (i + 1))
      | Ok secret =>
          let? sup := (if decide (old = [45]) then Ok None
                       else match parse_ref old with
                            | Ok o => Ok (Some o)
                            | Err _ => Err (Malformed (i + 1))
                            end) in
          let? s := ok_or (parse_state st) (Malformed (i + 1)) in
          Ok (mkEntry p secret sup s)
      end
  | _ => Err (Malformed (i + 1))
  end.

Fixpoint read_lines (i : Z) (ls : list str) : result JournalError (list Entry) :=
  match ls with
  | [] => Ok []
  | l :: r =>
      if decide (trim l = []) then read_lines (i + 1) r
      else let? e := parse_fields i (split_on 9 l) in
           let? es := read_lines (i + 1) r in
           Ok (e :: es)
  end.

Definition read (f : file) : result JournalError (list Entry) :=
  match f with
  | None => Ok []
  | Some b => match from_utf8 b with
              | Some t => read_lines 0 (str_lines t)
              | None => Err (Io InvalidData)
              end
  end.

(** ** The last state of every binding *)

Definition same_binding (e o : Entry) : bool :=
  bool_decide (profile_uuid o = profile_uuid e) && bool_decide (secret_ref o = secret_ref e).

(** The first slot of the binding takes the state; without one, the entry is new. *)
Fixpoint settle (out : list Entry) (e : Entry) : list Entry :=
  match out with
  | [] => [e]
  | o :: r => if same_binding e o
              then mkEntry (profile_uuid o) (secret_ref o) (supersedes e) (state e) :: r
              else o :: settle r e
  end.

Definition latest (f : file) : result JournalError (list Entry) :=
  let? all := read f in Ok (foldl settle [] all).

(** ** Reconciliation *)

Section Reconcile.
Context {S : Type} `{CredentialStore S}.

Definition exists_in (s : S) (r : SecretRef) : result JournalError bool :=
  match get_secret r s with
  | Ok _ => Ok true
  | Err (NotFound _) => Ok false
  | Err e => Err (Credential e)
  end.

(** One round of the loop. *)
Definition judge (s : S) (referenced : list SecretRef) (e : Entry) (r : Reconciliation) : result JournalError Reconciliation :=
  let? ex := exists_in s (secret_ref e) in
  let is_referenced := bool_decide (secret_ref e ∈ referenced) in
  Ok (match state e, ex, is_referenced with
      | Pending, true, false =>
          mkReconciliation (orphaned_secrets r ++ [secret_ref e]) (dangling_profiles r) (retryable_cleanups r) (entries_examined r)
      | Pending, false, true | Committed, false, true =>
          mkReconciliation (orphaned_secrets r) (dangling_profiles r ++ [profile_uuid e]) (retryable_cleanups r) (entries_examined r)
      | Committed, _, _ =>
          match supersedes e with
          | Some old =>
              if negb (bool_decide (old ∈ referenced)) && is_ok (get_secret old s)
              then mkReconciliation (orphaned_secrets r) (dangling_profiles r) (retryable_cleanups r ++ [old]) (entries_examined r)
              else r
          | None => r
          end
      | _, _, _ => r
      end).

Fixpoint judge_all (s : S) (referenced : list SecretRef) (es : list Entry) (r : Reconciliation) : result JournalError Reconciliation :=
  match es with
  | [] => Ok r
  | e :: rest => let? r' := judge s referenced e r in judge_all s referenced rest r'
  end.

Definition reconcile (s : S) (referenced : list SecretRef) (f : file) : result JournalError Reconciliation :=
  let? es := latest f in
  judge_all s referenced es (mkReconciliation [] [] [] (zlen es)).

(** The cleanups; [faults n] is what happens to the append after the [n]th deletion. *)
Fixpoint clean_all (faults : nat -> option Fault) (profile : str) (n : nat) (olds : list SecretRef) (s : S) (f : file)
  : S * file * result JournalError nat :=
  match olds with
  | [] => (s, f, Ok n)
  | old :: rest =>
      match delete_secret old s with
      | (s', Err e) => (s', f, Err (Credential e))
      | (s', Ok _) =>
          match append (faults n) (mkEntry profile old None Cleaned) f with
          | (f', Err e) => (s', f', Err e)
          | (f', Ok _) => clean_all faults profile (n + 1) rest s' f'
          end
      end
  end.

Definition finish_cleanups (faults : nat -> option Fault) (r : Reconciliation) (profile : str) (s : S) (f : file)
  : S * file * result JournalError nat :=
  clean_all faults profile 0 (retryable_cleanups r) s f.

End Reconcile.

(** [remove_file], which fails with [NotFound] when there is no file. *)
Definition truncate (fails : bool) (f : file) : file * result JournalError unit :=
  match f with
  | None => (None, Ok tt)
  | Some _ => if fails then (f, Err (Io IoFailed)) else (None, Ok tt)
  end.

(** ** What is appended is what is read *)

(** An entry whose line can be told apart: the profile's id holds no separator,
    the references are well formed. *)
Record entry_ok (e : Entry) : Prop := {
  ok_scalars : Forall scalar (profile_uuid e);
  ok_profile : (9 ∉ profile_uuid e) /\ (10 ∉ profile_uuid e);
  ok_ref : parse_ref (as_str (secret_ref e)) = Ok (secret_ref e);
  ok_old : match supersedes e with Some o => parse_ref (as_str o) = Ok o | None => True end;
}.

(** The text of the third field. *)
Definition old_str (o : option SecretRef) : str := match o with Some r => as_str r | None => [45] end.

Lemma graphic_not s c : Forall (fun c => 33 <= c <= 126) s -> ~ 33 <= c <= 126 -> c ∉ s.
Proof. intros Hs Hc Hin. rewrite Forall_forall in Hs. by apply Hc, Hs. Qed.

Lemma graphic_scalar s : Forall (fun c => 33 <= c <= 126) s -> Forall scalar s.
Proof. intros Hs. eapply Forall_impl; [exact Hs|]. intros c Hc. left. cbn in Hc. lia. Qed.

Lemma state_str_graphic s : Forall (fun c => 33 <= c <= 126) (state_str s).
Proof. destruct s; repeat (constructor; [by vm_compute; split; intros ?|]); constructor. Qed.

Lemma parse_state_str s : parse_state (state_str s) = Some s.
Proof. by destruct s. Qed.

Lemma old_str_graphic e : entry_ok e -> Forall (fun c => 33 <= c <= 126) (old_str (supersedes e)).
Proof.
  intros [_ _ _ Ho]. destruct (supersedes e) as [o|]; cbn; [by eapply parse_ref_graphic|].
  constructor; [lia|constructor].
Qed.

(** The four fields of a line. *)
Definition record_fields (e : Entry) : list str :=
  [profile_uuid e; as_str (secret_ref e); old_str (supersedes e); state_str (state e)].

Lemma record_split e : entry_ok e -> split_on 9 (record e) = record_fields e.
Proof.
  intros He. pose proof (old_str_graphic e He) as Ho. destruct He as [_ [Hp _] Hr _].
  apply split_on_join; [|done].
  repeat (constructor; [first [done|eapply graphic_not; [first [exact Ho|by eapply parse_ref_graphic|apply state_str_graphic]|lia]]|]).
  constructor.
Qed.

Lemma record_scalar e : entry_ok e -> Forall scalar (record e).
Proof.
  intros He. pose proof (graphic_scalar _ (old_str_graphic e He)) as Ho. destruct He as [Hs _ Hr _].
  pose proof (graphic_scalar _ (parse_ref_graphic _ _ Hr)). pose proof (graphic_scalar _ (state_str_graphic (state e))).
  unfold record. cbn [join]. rewrite !Forall_app, !Forall_singleton. unfold scalar. repeat split; auto; left; lia.
Qed.

Lemma record_no_lf e : entry_ok e -> 10 ∉ record e.
Proof.
  intros He. pose proof (graphic_not _ 10 (old_str_graphic e He)) as Ho. destruct He as [_ [_ Hp] Hr _].
  pose proof (graphic_not _ 10 (parse_ref_graphic _ _ Hr)). pose proof (graphic_not _ 10 (state_str_graphic (state e))).
  unfold record. cbn [join]. rewrite !not_elem_of_app, !not_elem_of_cons.
  repeat split; try lia; first [done|by apply Ho; lia|apply H; lia|apply H0; lia|apply not_elem_of_nil].
Qed.

Lemma record_last e : exists c, last (record e) = Some c /\ 97 <= c <= 122.
Proof.
  unfold record. cbn [join]. rewrite !app_assoc, last_app.
  destruct (state e); cbn; eexists; (split; [done|]); vm_compute; split; discriminate.
Qed.

Lemma record_visible e : entry_ok e -> trim (record e) <> [].
Proof.
  intros [_ _ Hr _]. apply (trim_nonempty _ 99); [|done].
  apply parse_ref_ok in Hr as (_ & u & Hu & _). unfold record. cbn [join]. rewrite Hu.
  rewrite !elem_of_app. right. right. left. left. by left.
Qed.

Lemma parse_record i e : entry_ok e -> parse_fields i (record_fields e) = Ok e.
Proof.
  intros [_ _ Hr Ho]. unfold parse_fields, record_fields. rewrite Hr. destruct e as [p s [o|] st]; cbn in *.
  - rewrite decide_False; [by rewrite Ho; cbn; rewrite parse_state_str|].
    apply parse_ref_ok in Ho as (_ & u & -> & _). by vm_compute.
  - by rewrite parse_state_str.
Qed.

Lemma read_lines_app i ls ks es : read_lines i ls = Ok es ->
  read_lines i (ls ++ ks) = let? r := read_lines (i + zlen ls) ks in Ok (es ++ r).
Proof.
  revert i es. induction ls as [|l ls IH]; intros i es; cbn [read_lines app].
  - intros [= <-]. rewrite zlen_nil, Z.add_0_r. by destruct (read_lines i ks).
  - rewrite zlen_cons. replace (i + (zlen ls + 1)) with (i + 1 + zlen ls) by lia. case_decide; [by apply IH|].
    intros Hr. inv_result. rewrite (IH _ _ E0). cbn. by destruct (read_lines _ ks); cbn; simplify_eq/=.
Qed.

(** A journal whose lines are all ended. *)
Definition complete (f : file) : Prop :=
  match f with None => True | Some b => exists t, from_utf8 b = Some t /\ terminated t end.

Lemma complete_text f : complete f -> exists t, default [] f = encode_str t /\ Forall scalar t /\ terminated t /\
  forall es, read f = Ok es -> read_lines 0 (str_lines t) = Ok es.
Proof.
  destruct f as [b|]; cbn; [|intros _; exists []; split; [done|split; [constructor|split; [by left|by intros es [= <-]]]]].
  intros (t & Ht & Hterm). exists t. split; [by rewrite (from_utf8_encode _ _ Ht)|]. split; [by eapply from_utf8_scalars|].
  split; [done|]. intros es. by rewrite Ht.
Qed.

Lemma append_complete f e : complete f -> entry_ok e -> complete (append None e f).1.
Proof.
  intros (t & Hf & Hs & _)%complete_text He. unfold append. cbn [fst complete]. rewrite Hf. exists (t ++ record e ++ [10]).
  split; [|apply terminated_snoc]. rewrite <- encode_str_app. apply from_utf8_encode_str.
  rewrite !Forall_app, Forall_singleton. split; [done|]. split; [by apply record_scalar|]. left. lia.
Qed.

Lemma read_append f e es : complete f -> read f = Ok es -> entry_ok e -> read (append None e f).1 = Ok (es ++ [e]).
Proof.
  intros (t & Hf & Hs & Ht & Hr)%complete_text Hes He. unfold append. cbn [fst read]. rewrite Hf.
  rewrite <- encode_str_app, from_utf8_encode_str.
  2: { rewrite !Forall_app, Forall_singleton. split; [done|]. split; [by apply record_scalar|]. left. lia. }
  rewrite str_lines_app by done. destruct (record_last e) as (c & Hc & Hr').
  rewrite str_lines_single; [|by apply record_no_lf|rewrite Hc; intros [= ->]; lia].
  rewrite (read_lines_app _ _ _ es) by auto. cbn [read_lines].
  rewrite decide_False by (by apply record_visible). by rewrite record_split, parse_record.
Qed.

(** Appends, each to the end. *)
Definition append_all (es : list Entry) (f : file) : file := foldl (fun f e => (append None e f).1) f es.

Lemma append_all_read es : Forall entry_ok es -> forall f old, complete f -> read f = Ok old ->
  read (append_all es f) = Ok (old ++ es) /\ complete (append_all es f).
Proof.
  induction 1 as [|e es He _ IH]; intros f old Hf Hr; [by rewrite app_nil_r|].
  change (append_all (e :: es) f) with (append_all es (append None e f).1).
  destruct (IH (append None e f).1 (old ++ [e])) as [E C]; [by apply append_complete|by apply read_append|].
  split; [|done]. by rewrite E, <- app_assoc.
Qed.

(** ** A torn append *)

Lemma parse_fields_err i fs : (exists e, parse_fields i fs = Ok e) \/ parse_fields i fs = Err (Malformed (i + 1)).
Proof.
  unfold parse_fields. repeat (case_match || case_decide); cbn; eauto.
  all: destruct (parse_state _); cbn; eauto.
Qed.

Lemma state_str_proper x y q : state_str x = state_str y ++ q -> q = [].
Proof. by destruct x, y; vm_compute; intros [= ?]. Qed.

(** A line cut before its end is no record. *)
Lemma cut_record e p q i : entry_ok e -> record e = p ++ q -> q <> [] ->
  parse_fields i (split_on 9 p) = Err (Malformed (i + 1)).
Proof.
  intros He Hr Hq. destruct (parse_fields_err i (split_on 9 p)) as [[e' E]|E]; [exfalso|done].
  destruct (split_on_concat_any 9 p q) as (ps & l & r & qs & Ep & Eq & Epq).
  rewrite <- Hr, record_split in Epq by done. rewrite Ep in E.
  destruct ps as [|a [|b [|c [|d ps]]]]; try done; [|by destruct ps].
  destruct qs as [|]; [|done]. injection Epq as _ _ _ Hl.
  assert (r = q) as -> by (by rewrite <- (join_split_on 9 q), Eq).
  cbn in E. destruct (parse_ref b) as [sr|]; [|done].
  destruct (decide (c = [45])); [|destruct (parse_ref c); [|done]]; cbn in E;
    (destruct (parse_state l) as [y|] eqn:El; [|done]); apply Hq;
    (apply (state_str_proper (state e) y); rewrite Hl; f_equal);
    revert El; unfold parse_state; repeat case_decide; by intros [= <-].
Qed.

Lemma encode_small l : Forall (fun c => 0 <= c < 128) l -> encode_str l = zb <$> l.
Proof.
  induction 1 as [|c l Hc _ IH]; [done|]. change (encode_str (c :: l)) with (encode_char c ++ encode_str l).
  rewrite IH. unfold encode_char. by rewrite decide_True by lia.
Qed.

(** A crash in the middle of an append makes the whole journal unreadable: the
    torn line is no record, and [read] stops at it. *)
Lemma torn_append f e es n : complete f -> read f = Ok es -> entry_ok e ->
  Forall (fun c => 33 <= c <= 126) (profile_uuid e) -> profile_uuid e <> [] ->
  (0 < n < length (record e))%nat ->
  exists i, read (append (Some (Write n)) e f).1 = Err (Malformed i).
Proof.
  intros (t & Hf & Hs & Ht & Hr)%complete_text Hes He Hu Hn Hlen. unfold append. cbn [fst read]. rewrite Hf.
  assert (Ha : Forall (fun c => 0 <= c < 128) (record e ++ [10])).
  { pose proof (old_str_graphic e He) as Ho. destruct He as [_ _ Hp _]. apply parse_ref_graphic in Hp.
    pose proof (state_str_graphic (state e)). unfold record. cbn [join].
    rewrite !Forall_app, !Forall_singleton. repeat split; try lia; (eapply Forall_impl; [eassumption|cbn; lia]). }
  rewrite (encode_small _ Ha), <- fmap_take, <- encode_small by (by apply Forall_take).
  rewrite take_app_le by lia. set (p := take n (record e)).
  assert (Hp : record e = p ++ drop n (record e)) by (unfold p; by rewrite take_drop).
  assert (Hp10 : 10 ∉ p).
  { pose proof (record_no_lf e He) as Hno. rewrite Hp, not_elem_of_app in Hno. tauto. }
  assert (Hhead : exists c r, p = c :: r /\ 33 <= c <= 126).
  { destruct (profile_uuid e) as [|c u] eqn:E; [done|]. exists c, (take (n - 1) (drop 1 (record e))).
    split; [|by inversion_clear Hu]. unfold p, record. rewrite E. destruct n; [lia|]. cbn. by rewrite Nat.sub_0_r. }
  destruct Hhead as (c & r & Hc & Hcr).
  rewrite <- encode_str_app, from_utf8_encode_str.
  2: { apply Forall_app. split; [done|]. apply Forall_take. by apply record_scalar. }
  rewrite str_lines_app, (str_lines_open p), (read_lines_app _ _ _ es) by (first [done|by rewrite Hc|by auto]).
  cbn [read_lines]. rewrite decide_False.
  2: { apply (trim_nonempty _ c); [rewrite Hc; by left|by apply char_not_whitespace]. }
  rewrite (cut_record e p (drop n (record e))) by (try done; intros E; apply (f_equal length) in E; rewrite length_drop in E; cbn [length] in E; lia).
  cbn. by eexists.
Qed.

(** ** The last state of every binding is the one kept *)

Definition binding (e : Entry) : str * SecretRef := (profile_uuid e, secret_ref e).

Lemma same_binding_spec e o : same_binding e o = true <-> binding o = binding e.
Proof.
  unfold same_binding, binding. rewrite andb_true_iff, !bool_decide_eq_true. split; [by intros [-> ->]|by intros [= -> ->]].
Qed.

Lemma settle_bindings out e : binding <$> settle out e =
  (binding <$> out) ++ (if decide (binding e ∈ binding <$> out) then [] else [binding e]).
Proof.
  induction out as [|o out IH]; cbn [settle fmap list_fmap app].
  - rewrite decide_False by apply not_elem_of_nil. done.
  - destruct (same_binding e o) eqn:E.
    + apply same_binding_spec in E. rewrite decide_True by (rewrite E; left). by rewrite app_nil_r.
    + assert (Hn : binding o <> binding e) by (by intros Hb%same_binding_spec; congruence).
      cbn [fmap list_fmap app]. rewrite IH. f_equal. f_equal.
      destruct (decide (binding e ∈ binding <$> out)) as [Hd|Hd].
      * rewrite decide_True; [done|by right].
      * rewrite decide_False; [done|]. intros [?|?]%elem_of_cons; done.
Qed.

Lemma settle_nodup out e : NoDup (binding <$> out) -> NoDup (binding <$> settle out e).
Proof.
  intros Hn. rewrite settle_bindings. case_decide as Hd; [by rewrite app_nil_r|].
  apply NoDup_app. split; [done|]. split; [|apply NoDup_singleton]. intros b Hb ->%list_elem_of_singleton. done.
Qed.

Lemma settle_elem out e x : NoDup (binding <$> out) ->
  x ∈ settle out e <-> x = e \/ x ∈ out /\ binding x <> binding e.
Proof.
  induction out as [|o out IH]; cbn [settle fmap list_fmap]; intros Hn.
  - rewrite list_elem_of_singleton. split; [by left|]. intros [?|[Hx _]]; [done|by apply elem_of_nil in Hx].
  - apply NoDup_cons in Hn as [Ho Hn]. destruct (same_binding e o) eqn:E.
    + apply same_binding_spec in E. injection E as Ep Es.
      assert (Heq : mkEntry (profile_uuid o) (secret_ref o) (supersedes e) (state e) = e) by (destruct e; cbn in *; by subst).
      rewrite Heq, !elem_of_cons. split; [|by intros [->|[[->|Hx] Hb]]; [left|exfalso; apply Hb; unfold binding; by rewrite Ep, Es|right]].
      intros [->|Hx]; [by left|]. right. split; [by right|]. intros Hb. apply Ho.
      replace (binding o) with (binding x) by (rewrite Hb; unfold binding; by rewrite Ep, Es).
      by apply list_elem_of_fmap_2.
    + assert (Hoe : binding o <> binding e) by (by intros Hb%same_binding_spec; congruence).
      rewrite !elem_of_cons, IH by done. naive_solver.
Qed.

Lemma settle_all es : NoDup (binding <$> foldl settle [] es) /\
  forall x, x ∈ foldl settle [] es <-> last (filter (fun o => binding o = binding x) es) = Some x.
Proof.
  induction es as [|e es [Hn IH]] using rev_ind; [split; [constructor|]; intros x; cbn; split; [by intros ?%elem_of_nil|done]|].
  rewrite foldl_snoc. split; [by apply settle_nodup|]. intros x. rewrite settle_elem by done.
  rewrite filter_app, filter_cons, filter_nil. case_decide as Hb.
  - rewrite last_snoc. split; [|by intros [= ->]; left]. intros [->|[_ Hx]]; [done|by symmetry in Hb].
  - rewrite app_nil_r, <- IH. split; [|by intros; right]. intros [->|[? _]]; done.
Qed.

(** ** References read are well formed *)

Definition refs_ok (e : Entry) : Prop :=
  parse_ref (as_str (secret_ref e)) = Ok (secret_ref e) /\
  match supersedes e with Some o => parse_ref (as_str o) = Ok o | None => True end.

Lemma parse_ref_same s r : parse_ref s = Ok r -> parse_ref (as_str r) = Ok r.
Proof. intros Hp. pose proof (parse_ref_ok _ _ Hp) as [-> _]. done. Qed.

Lemma parse_fields_refs i fs e : parse_fields i fs = Ok e -> refs_ok e.
Proof.
  destruct fs as [|p [|s [|o [|st [|]]]]]; try done. cbn. destruct (parse_ref s) as [sr|] eqn:Es; [|done].
  destruct (decide (o = [45])) as [_|_].
  - destruct (parse_state st); cbn; [|done]. intros [= <-]. split; [by eapply parse_ref_same|done].
  - destruct (parse_ref o) as [old|] eqn:Eo; cbn; [|done]. destruct (parse_state st); cbn; [|done].
    intros [= <-]. split; by eapply parse_ref_same.
Qed.

Lemma read_refs f es : read f = Ok es -> Forall refs_ok es.
Proof.
  destruct f as [b|]; cbn; [|by intros [= <-]]. destruct (from_utf8 b) as [t|]; [|done].
  generalize (str_lines t) as ls, 0 as i. intros ls. revert es. induction ls as [|l ls IH]; intros es i; cbn [read_lines].
  - by intros [= <-].
  - case_decide; [by apply IH|]. intros Hr. inv_result. subst. constructor; [by eapply parse_fields_refs|by eapply IH].
Qed.

Lemma latest_refs f es : latest f = Ok es -> Forall refs_ok es.
Proof.
  unfold latest. intros Hl. inv_result. subst. pose proof (read_refs _ _ E) as Hr. rewrite Forall_forall in Hr.
  apply Forall_forall. intros x Hx. apply (proj2 (settle_all a)), last_Some_elem_of, list_elem_of_filter in Hx.
  apply Hr, Hx.
Qed.

(** ** What reconciliation reports *)

Section ReconcileFacts.
Context {S : Type} `{CS : CredentialStore S}.

Definition present (s : S) (r : SecretRef) : bool := is_ok (get_secret r s).

(** The store can tell whether it holds the secret. *)
Definition known (s : S) (r : SecretRef) : Prop :=
  match get_secret r s with Ok _ | Err (NotFound _) => True | Err _ => False end.

(** The three findings, each on its own. *)
Definition is_orphan (s : S) (referenced : list SecretRef) (e : Entry) : bool :=
  bool_decide (state e = Pending) && present s (secret_ref e) && negb (bool_decide (secret_ref e ∈ referenced)).
Definition is_dangling (s : S) (referenced : list SecretRef) (e : Entry) : bool :=
  negb (bool_decide (state e = Cleaned)) && negb (present s (secret_ref e)) && bool_decide (secret_ref e ∈ referenced).
Definition cleanup_of (s : S) (referenced : list SecretRef) (e : Entry) : option SecretRef :=
  old ← supersedes e;
  if bool_decide (state e = Committed) && negb (is_dangling s referenced e) &&
     negb (bool_decide (old ∈ referenced)) && present s old then Some old else None.

Definition add_verdict (s : S) (referenced : list SecretRef) (es : list Entry) (r : Reconciliation) : Reconciliation :=
  mkReconciliation (orphaned_secrets r ++ (secret_ref <$> filter (fun e => is_orphan s referenced e = true) es))
                   (dangling_profiles r ++ (profile_uuid <$> filter (fun e => is_dangling s referenced e = true) es))
                   (retryable_cleanups r ++ omap (cleanup_of s referenced) es)
                   (entries_examined r).

Lemma judge_exact s referenced e r :
  judge s referenced e r =
    let? _ := exists_in s (secret_ref e) in Ok (add_verdict s referenced [e] r).
Proof.
  unfold judge, exists_in, add_verdict. cbn [omap list_omap]. rewrite !filter_cons, !filter_nil.
  unfold cleanup_of, is_orphan, is_dangling, present.
  destruct r as [os ds cs n], e as [p x o st]. cbn [orphaned_secrets dangling_profiles retryable_cleanups entries_examined state secret_ref supersedes profile_uuid].
  destruct (get_secret x s) as [v|[]]; cbn [rbind is_ok negb]; try done; do 2 f_equal;
    destruct st, (bool_decide (x ∈ referenced)), o as [o|]; cbn; rewrite ?app_nil_r; try done;
    destruct (bool_decide (o ∈ referenced)), (is_ok (get_secret o s)); cbn; rewrite ?app_nil_r; done.
Qed.

Lemma judge_all_ok s referenced es r : Forall (fun e => known s (secret_ref e)) es ->
  judge_all s referenced es r = Ok (add_verdict s referenced es r).
Proof.
  intros Hk. revert r. induction Hk as [|e es He _ IH]; intros r.
  - unfold add_verdict. cbn. rewrite !app_nil_r. by destruct r.
  - cbn [judge_all]. rewrite judge_exact. unfold exists_in, known in *.
    destruct (get_secret (secret_ref e) s) as [v|[]]; try done; cbn [rbind]; rewrite IH; f_equal;
      unfold add_verdict; cbn [orphaned_secrets dangling_profiles retryable_cleanups entries_examined];
      rewrite <- !app_assoc, <- !fmap_app, <- !filter_app, <- omap_app; done.
Qed.

Lemma judge_all_known s referenced es r r' : judge_all s referenced es r = Ok r' ->
  Forall (fun e => known s (secret_ref e)) es.
Proof.
  revert r. induction es as [|e es IH]; intros r; [by constructor|]. cbn [judge_all]. rewrite judge_exact.
  unfold exists_in, known. intros Hj. constructor; destruct (get_secret (secret_ref e) s) as [v|[]];
    cbn [rbind] in Hj; try done; by eapply IH.
Qed.

(** The report, from the last state of every binding. *)
Lemma reconcile_inv s referenced f r : reconcile s referenced f = Ok r ->
  exists es, latest f = Ok es /\ Forall (fun e => known s (secret_ref e)) es /\
    r = add_verdict s referenced es (mkReconciliation [] [] [] (zlen es)).
Proof.
  unfold reconcile. intros Hr. inv_result. exists a. split; [done|].
  pose proof (judge_all_known _ _ _ _ _ Hr) as Hk. split; [done|]. rewrite judge_all_ok in Hr by done. by injection Hr.
Qed.

Lemma reconcile_known s referenced f es : latest f = Ok es -> Forall (fun e => known s (secret_ref e)) es ->
  reconcile s referenced f = Ok (add_verdict s referenced es (mkReconciliation [] [] [] (zlen es))).
Proof. intros Hl Hk. unfold reconcile. rewrite Hl. cbn. by apply judge_all_ok. Qed.

Lemma cleanup_of_spec s referenced e old : cleanup_of s referenced e = Some old ->
  supersedes e = Some old /\ state e = Committed /\ (old ∉ referenced) /\ present s old = true.
Proof.
  unfold cleanup_of. destruct (supersedes e) as [o|]; cbn; [|done]. destruct (_ && _) eqn:E; [|done].
  rewrite !andb_true_iff, bool_decide_eq_true in E. destruct E as [[[Es _] Eo] Ep]. intros [= <-].
  apply negb_true_iff, bool_decide_eq_false in Eo. done.
Qed.

(** ** Cleanups *)

Definition cleaned (profile : str) (old : SecretRef) : Entry := mkEntry profile old None Cleaned.

Context `{!StoreLaws S}.

(** Whatever fails, and wherever it stops, only the listed secrets are touched. *)
Lemma clean_all_others faults profile n olds s f r : r ∉ olds ->
  get_secret r (clean_all faults profile n olds s f).1.1 = get_secret r s.
Proof.
  revert n s f. induction olds as [|old olds IH]; intros n s f Hr; cbn [clean_all]; [done|].
  apply not_elem_of_cons in Hr as [Hn Hr]. pose proof (delete_other old r s ltac:(congruence)) as Hd.
  destruct (delete_secret old s) as [s' [[]|x]]; cbn in Hd; [|done].
  destruct (append _ _ _) as [f' [[]|]]; [|done]. by rewrite IH.
Qed.

Lemma append_ok fault e f f' : append fault e f = (f', Ok tt) -> fault = None /\ f' = (append None e f).1.
Proof. destruct fault as [[]|]; cbn; try done. by intros [= <-]. Qed.

(** A run that ends has deleted every one of them and recorded it. *)
Lemma clean_all_done faults profile n olds s f s' f' m :
  clean_all faults profile n olds s f = (s', f', Ok m) ->
  m = (n + length olds)%nat /\ f' = append_all (cleaned profile <$> olds) f /\
  forall r, r ∈ olds -> get_secret r s' = Err (NotFound (as_str r)).
Proof.
  revert n s f. induction olds as [|old olds IH]; intros n s f; cbn [clean_all].
  - intros [= <- <- <-]. split; [cbn; lia|]. split; [done|]. by intros r ?%elem_of_nil.
  - destruct (delete_secret old s) as [t [[]|x]] eqn:Ed; [|done].
    destruct (append _ _ _) as [g [[]|]] eqn:Ea; [|done]. intros Hc.
    apply append_ok in Ea as [_ ->]. pose proof (clean_all_others faults profile (n + 1) olds t (append None (cleaned profile old) f).1 old) as Ho.
    apply IH in Hc as Hi. destruct Hi as (-> & -> & Hg). split; [cbn; lia|]. split; [done|].
    intros r [->|Hr]%elem_of_cons; [|by apply Hg].
    destruct (decide (old ∈ olds)) as [Hin|Hin]; [by apply Hg|]. unfold cleaned in *. rewrite Hc in Ho. cbn in Ho.
    rewrite Ho by done. by eapply delete_get.
Qed.

(** What stays of the report when cleaned bindings are settled: nothing about
    them is dangling. *)
Lemma settle_dangling s referenced out profile old : (old ∉ referenced) ->
  filter (fun e => is_dangling s referenced e = true) (settle out (cleaned profile old)) =
  filter (fun e => is_dangling s referenced e = true) out.
Proof.
  intros Ho. assert (Hd : forall e, secret_ref e = old -> is_dangling s referenced e = false).
  { intros e <-. unfold is_dangling. rewrite (bool_decide_false _ Ho). by rewrite andb_false_r. }
  induction out as [|o out IH]; cbn [settle].
  - rewrite filter_cons, Hd by done. done.
  - destruct (same_binding _ o) eqn:E.
    + apply same_binding_spec in E. injection E as Ep Es. rewrite !filter_cons, !Hd by done. done.
    + rewrite !filter_cons, IH. done.
Qed.

Lemma settle_all_dangling s referenced profile olds out : Forall (fun old => old ∉ referenced) olds ->
  filter (fun e => is_dangling s referenced e = true) (foldl settle out (cleaned profile <$> olds)) =
  filter (fun e => is_dangling s referenced e = true) out.
Proof.
  intros Ho. revert out. induction Ho as [|old olds Ho _ IH]; intros out; [done|]. cbn [fmap list_fmap foldl].
  by rewrite IH, settle_dangling.
Qed.

Lemma settle_all_elem profile olds out x : NoDup (binding <$> out) ->
  x ∈ foldl settle out (cleaned profile <$> olds) -> x ∈ out \/ exists old, old ∈ olds /\ x = cleaned profile old.
Proof.
  revert out. induction olds as [|old olds IH]; intros out Hn; [by left|]. cbn [fmap list_fmap foldl]. intros Hx.
  destruct (IH _ (settle_nodup _ _ Hn) Hx) as [H'|(o & Ho & ->)]; [|right; exists o; split; [by right|done]].
  apply settle_elem in H' as [->|[H' _]]; [right; exists old; split; [by left|done]|by left|done].
Qed.

End ReconcileFacts.

(** ** What the journal promises *)

(** Records appended to the journal are read back, in order, behind those
    already there: for every journal whose lines are ended and every list of
    entries with well-formed references, reading after the appends gives the old
    entries followed by the new ones, and the last state of a binding is the last
    one appended for it. *)
Theorem journal_roundtrip f old es : complete f -> read f = Ok old -> Forall entry_ok es ->
  read (append_all es f) = Ok (old ++ es) /\
  exists last_states, latest (append_all es f) = Ok last_states /\ NoDup (binding <$> last_states) /\
    forall e, e ∈ last_states <-> last (filter (fun o => binding o = binding e) (old ++ es)) = Some e.
Proof.
  intros Hf Ho He. destruct (append_all_read es He f old Hf Ho) as [Hr _]. split; [done|].
  exists (foldl settle [] (old ++ es)). unfold latest. rewrite Hr. split; [done|]. apply settle_all.
Qed.

Section Cleanup.
Context {S : Type} `{SL : StoreLaws S}.

(** C11. Cleaning up never touches a secret a profile refers to: after any report,
    whatever fails while it is carried out and wherever it stops, every referenced
    secret reads as before; and nothing is deleted but superseded secrets of
    committed bindings, each present and unreferenced. *)
Theorem cleanup_safe s referenced f r faults profile x : reconcile s referenced f = Ok r ->
  (x ∈ referenced -> get_secret x (finish_cleanups faults r profile s f).1.1 = get_secret x s) /\
  (get_secret x (finish_cleanups faults r profile s f).1.1 <> get_secret x s ->
   exists es e, latest f = Ok es /\ e ∈ es /\ supersedes e = Some x /\ state e = Committed /\
     (x ∉ referenced) /\ present s x = true).
Proof.
  intros (es & Hl & _ & ->)%reconcile_inv.
  assert (Hc : x ∈ omap (cleanup_of s referenced) es -> exists e, e ∈ es /\ cleanup_of s referenced e = Some x)
    by (intros ?%list_elem_of_omap; done).
  unfold finish_cleanups, add_verdict. cbn [retryable_cleanups app]. split.
  - intros Hx. apply clean_all_others. intros (e & _ & (_ & _ & Hn & _)%cleanup_of_spec)%Hc. done.
  - intros Hd. destruct (decide (x ∈ omap (cleanup_of s referenced) es)) as [(e & He & Hs)%Hc|Hn].
    + exists es, e. split; [done|]. split; [done|]. by apply cleanup_of_spec.
    + by rewrite clean_all_others in Hd.
Qed.

(** What a finished cleanup leaves: the listed secrets are gone, the others read
    as before, and every binding is as it was or recorded as cleaned. *)
Lemma cleanup_state s referenced f es faults profile s' f' n :
  complete f -> Forall scalar profile -> (9 ∉ profile) -> (10 ∉ profile) ->
  latest f = Ok es -> Forall (fun e => known s (secret_ref e)) es ->
  let olds := omap (cleanup_of s referenced) es in
  clean_all faults profile 0 olds s f = (s', f', Ok n) ->
  let es' := foldl settle es (cleaned profile <$> olds) in
  n = length olds /\ latest f' = Ok es' /\
  (forall x, x ∈ es' -> x ∈ es \/ exists old, old ∈ olds /\ x = cleaned profile old) /\
  (forall old, old ∈ olds -> get_secret old s' = Err (NotFound (as_str old))) /\
  (forall x, x ∉ olds -> get_secret x s' = get_secret x s) /\
  Forall (fun e => known s' (secret_ref e)) es'.
Proof.
  intros Hf Hs H9 H10 Hl Hk olds Hrun es'. pose proof (clean_all_done _ _ _ _ _ _ _ _ _ Hrun) as (-> & -> & Hgone).
  assert (Hother : forall x, x ∉ olds -> get_secret x s' = get_secret x s).
  { intros x Hx. pose proof (clean_all_others faults profile 0 olds s f x Hx) as Ho. by rewrite Hrun in Ho. }
  pose proof (latest_refs _ _ Hl) as Hrefs. rewrite Forall_forall in Hrefs, Hk. unfold latest in Hl.
  destruct (read f) as [all|] eqn:Er; [|done]. injection Hl as Hl. destruct (settle_all all) as [Hnd _]. rewrite Hl in Hnd.
  destruct (append_all_read (cleaned profile <$> olds)) with (f := f) (old := all) as [Hr' _]; [|done..|].
  { apply Forall_fmap, Forall_forall. intros old (e & He & (Hsup & _)%cleanup_of_spec)%list_elem_of_omap.
    destruct (Hrefs e He) as [_ Hp]. rewrite Hsup in Hp. by split. }
  assert (Hnote : forall x, x ∈ es' -> x ∈ es \/ exists old, old ∈ olds /\ x = cleaned profile old)
    by (intros x; by apply settle_all_elem).
  split; [cbn; lia|]. split; [unfold latest; rewrite Hr'; cbn; by rewrite foldl_app, Hl|]. do 3 (split; [done|]).
  apply Forall_forall. intros x Hx. unfold known. destruct (decide (secret_ref x ∈ olds)) as [Hin|Hin].
  - by rewrite Hgone.
  - rewrite Hother by done. destruct (Hnote x Hx) as [He|(old & Ho & ->)]; [by apply Hk|done].
Qed.

(** Carrying out the cleanups finishes them: when the run ends without an
    error, a second reconciliation succeeds, lists no cleanup, reports the same
    profiles as dangling and no new orphan, and the number returned is the number
    of secrets that were listed. *)
Theorem cleanup_converges s referenced f r faults profile s' f' n :
  complete f -> Forall scalar profile -> (9 ∉ profile) -> (10 ∉ profile) ->
  reconcile s referenced f = Ok r -> finish_cleanups faults r profile s f = (s', f', Ok n) ->
  n = length (retryable_cleanups r) /\
  exists r', reconcile s' referenced f' = Ok r' /\ retryable_cleanups r' = [] /\
    dangling_profiles r' = dangling_profiles r /\
    forall x, x ∈ orphaned_secrets r' -> x ∈ orphaned_secrets r.
Proof.
  intros Hf Hs H9 H10 (es & Hl & Hk & ->)%reconcile_inv. unfold finish_cleanups, add_verdict.
  cbn [orphaned_secrets dangling_profiles retryable_cleanups app]. set (olds := omap _ es). intros Hrun.
  destruct (cleanup_state _ _ _ _ _ _ _ _ _ Hf Hs H9 H10 Hl Hk Hrun) as (-> & Hl' & Hnote & Hgone & Hother & Hk').
  fold olds in Hl', Hnote, Hgone, Hother, Hk'. split; [done|].
  assert (Holds : forall old, old ∈ olds -> old ∉ referenced) by (by intros old (e & _ & (_ & _ & Hn & _)%cleanup_of_spec)%list_elem_of_omap).
  assert (Hsame : forall e, is_dangling s' referenced e = is_dangling s referenced e).
  { intros e. unfold is_dangling, present. destruct (decide (secret_ref e ∈ referenced)) as [Hin|Hin].
    - rewrite Hother; [done|]. by intros ?%Holds.
    - by rewrite (bool_decide_false _ Hin), !andb_false_r. }
  eexists. split; [by apply reconcile_known|]. unfold add_verdict.
  cbn [orphaned_secrets dangling_profiles retryable_cleanups app]. split; [|split].
  - apply elem_of_nil_inv. intros old (x & Hx & Hc)%list_elem_of_omap. pose proof (cleanup_of_spec _ _ _ _ Hc) as (Hsup & Hst & _ & Hp).
    unfold present in Hp. destruct (decide (old ∈ olds)) as [Hin|Hin]; [by rewrite Hgone in Hp|].
    destruct (Hnote x Hx) as [He|(o & _ & ->)]; [|done]. apply Hin, list_elem_of_omap. exists x. split; [done|].
    revert Hc. unfold cleanup_of. rewrite Hsup. cbn. rewrite Hsame. unfold present. by rewrite Hother.
  - f_equal. rewrite (list_filter_iff _ (fun e => is_dangling s referenced e = true)) by (intros e; by rewrite Hsame).
    by apply settle_all_dangling, Forall_forall.
  - intros x (e & -> & [Ho He]%list_elem_of_filter)%list_elem_of_fmap. apply list_elem_of_fmap_2, list_elem_of_filter.
    unfold is_orphan, present in *. destruct (decide (secret_ref e ∈ olds)) as [Hin|Hin].
    + rewrite Hgone in Ho by done. by rewrite andb_false_r in Ho.
    + rewrite Hother in Ho by done. split; [done|]. destruct (Hnote e He) as [?|(old & _ & ->)]; [done|].
      cbn in Ho. by rewrite bool_decide_false in Ho.
Qed.

End Cleanup.

(** A store that cannot answer is an error, never a verdict. *)
Lemma unavailable_reports_nothing referenced f e es : latest f = Ok (e :: es) ->
  reconcile tt referenced f = Err (Credential refusal).
Proof. intros Hl. unfold reconcile. rewrite Hl. done. Qed.

(** ** Examples *)

Definition ref_of (s : string) : SecretRef := generate (chars s).
Definition rotation : list Entry :=
  [mkEntry (chars "p1") (ref_of "a") None Pending; mkEntry (chars "p1") (ref_of "a") None Committed;
   mkEntry (chars "p1") (ref_of "b") (Some (ref_of "a")) Pending;
   mkEntry (chars "p1") (ref_of "b") (Some (ref_of "a")) Committed].
Definition both_secrets : gmap str str :=
  <[as_str (ref_of "b") := chars "new"]> (<[as_str (ref_of "a") := chars "old"]> ∅).

(** Conditions on literal texts, by computation. *)
Ltac literal := first
  [ exact I | reflexivity
  | repeat (constructor; [left; vm_compute; split; [discriminate|reflexivity]|]); constructor
  | apply (bool_decide_unpack _); vm_compute; exact I ].

Lemma rotation_ok : Forall entry_ok rotation.
Proof. repeat (constructor; [split; [literal|split; literal|literal|literal]|]). constructor. Qed.

Lemma journal_roundtrip_witness :
  read (append_all rotation None) = Ok ([] ++ rotation) /\
  exists last_states, latest (append_all rotation None) = Ok last_states /\ NoDup (binding <$> last_states) /\
    forall e, e ∈ last_states <-> last (filter (fun o => binding o = binding e) ([] ++ rotation)) = Some e.
Proof. apply (journal_roundtrip None [] rotation); [exact I|reflexivity|exact rotation_ok]. Defined.

Definition rotated : file := Eval vm_compute in append_all rotation None.
Definition report : Reconciliation := mkReconciliation [] [] [ref_of "a"] 2.

Lemma cleanup_safe_witness :
  let s' := (finish_cleanups (fun _ => Some Sync) report (chars "p1") both_secrets rotated).1.1 in
  get_secret (ref_of "b") s' = get_secret (ref_of "b") both_secrets.
Proof.
  assert (Hr : reconcile both_secrets [ref_of "b"] rotated = Ok report) by (vm_compute; reflexivity).
  apply (cleanup_safe both_secrets [ref_of "b"] rotated report (fun _ => Some Sync) (chars "p1") (ref_of "b") Hr).
  by left.
Defined.

Lemma cleanup_converges_witness :
  let '(s', f', n) := finish_cleanups (fun _ => None) report (chars "p1") both_secrets rotated in
  n = Ok 1%nat /\ exists r', reconcile s' [ref_of "b"] f' = Ok r' /\ retryable_cleanups r' = [].
Proof.
  assert (Hr : reconcile both_secrets [ref_of "b"] rotated = Ok report) by (vm_compute; reflexivity).
  assert (Hc : complete rotated).
  { exists (default [] (from_utf8 (default [] rotated))). split; [vm_compute; reflexivity|].
    right. exists (List.removelast (default [] (from_utf8 (default [] rotated)))). vm_compute. reflexivity. }
  destruct (finish_cleanups _ _ _ _ _) as [[s' f'] n] eqn:E.
  assert (Hn : n = Ok 1%nat) by (apply (f_equal snd) in E; vm_compute in E; by rewrite <- E). subst n.
  destruct (cleanup_converges both_secrets [ref_of "b"] rotated report (fun _ => None) (chars "p1") s' f' 1%nat Hc
    ltac:(literal) ltac:(literal) ltac:(literal) Hr E)
    as (_ & r' & H1 & H2 & _). split; [done|]. by exists r'.
Defined.

(** An append torn inside the profile's id, and one more: the file reads, with a
    profile nobody has. *)
Lemma torn_append_glues :
  let e := mkEntry (chars "p1") (ref_of "a") None Pending in
  read (append None e (append (Some (Write 1)) e None).1).1 =
  Ok [mkEntry (chars "pp1") (ref_of "a") None Pending].
Proof. vm_compute. reflexivity. Qed.

(** A crash after the profile was written and before the record of it: the old
    secret is referenced by no profile and nothing reports it. *)
Lemma rotation_crash_unreported :
  exists r, reconcile both_secrets [ref_of "b"] (append_all (take 3 rotation) None) = Ok r /\
    present both_secrets (ref_of "a") = true /\
    orphaned_secrets r = [] /\ retryable_cleanups r = [] /\ needs_attention r = false.
Proof. eexists. vm_compute. repeat split. Qed.

(** A profile's id with a separator breaks its own line. *)
Lemma profile_separator_breaks :
  read (append None (mkEntry [97; 9; 98] (ref_of "a") None Pending) None).1 = Err (Malformed 1).
Proof. vm_compute. reflexivity. Qed.
