(* ===== verification/Shared.v ===== *)
(** * Files several processes edit ([pr-profiles/src/shared.rs], [perms.rs])

    A versioned file is read, edited and replaced under an advisory lock, with a
    check of its version; a rejected edit is kept in [conflicts/].  The file
    system is a map from paths (a directory and a name) to contents and modes;
    of [perms.rs], the modes of Unix are part of it and the access lists of Windows
    are judged as texts.  A write is a sequence of calls
    that may each fail, or be the last one before the process dies ([Fault]).
    [step] interleaves any number of processes at each call of [update]; what
    programs that do not take the lock do between the two reads, and between the
    last read and the write, are arguments of [update]. *)

From S2P Require Import Prelude Text TextFacts Lines.

(** ** The file system *)

Record File := mkFile { content : bytes; mode : Z }.
Abbreviation path := (str * str)%type.
Abbreviation fsys := (gmap path File).

(** [perms.rs] on Unix. *)
Definition restrict_to_current_user (p : path) (fs : fsys) : fsys :=
  match fs !! p with
  | None => fs
  | Some f => <[p := mkFile (content f) 384]> fs
  end.
Definition is_user_only (f : File) : bool := bool_decide (Z.land (mode f) 63 = 0).

Inductive SharedFileError :=
| Io
| Locked (p : path)
| Conflict (p : path) (expected found : Z) (conflict : path)
| NoVersion (p : path).

(** A path with a final component: its parent and that component. *)
Record SharedFile := mkShared { dir : str; file_name : str }.

Definition path_of (s : SharedFile) : path := (dir s, file_name s).

Definition VERSION_PREFIX : str := chars "# penguin-version: ".

Record Versioned := mkVersioned { version : Z; body : str }.

#[export] Instance versioned_eq_dec : EqDecision Versioned.
Proof. solve_decision. Defined.

Definition decimal (n : Z) : str := bz <$> print_unsigned n.

Definition conflicts_dir (s : SharedFile) : str := dir s ++ chars "/conflicts".
Definition lock_path (s : SharedFile) : path := (dir s, file_name s ++ chars ".lock").

(** ** Reading *)

Definition parse (text : str) : option Versioned :=
  let '(first, rest) := default (text, []) (split_once 10 text) in
  v ← strip_prefix VERSION_PREFIX first;
  n ← parse_unsigned u64_max (encode_str (trim v));
  Some (mkVersioned n rest).

Definition read (s : SharedFile) (fs : fsys) : result SharedFileError Versioned :=
  match fs !! path_of s with
  | None => Ok (mkVersioned 0 [])
  | Some f => match from_utf8 (content f) with
              | None => Err Io
              | Some t => ok_or (parse t) (NoVersion (path_of s))
              end
  end.

(** ** Writing *)

Definition render (v : Z) (b : str) : bytes := encode_str (VERSION_PREFIX ++ decimal v ++ [10] ++ b).

(** Where a write stops; a failing write leaves the first [written] bytes. *)
Inductive Fault := Create | WritePart (written : nat) | SyncFile | Restrict | Rename.

Section Write.
(** The mode of a new file (what the process's umask leaves), and the process's id. *)
Context (create_mode pid : Z).

(** [File::create]: a new file, or the old one emptied with its mode kept. *)
Definition put (p : path) (b : bytes) (fs : fsys) : fsys :=
  <[p := mkFile b (match fs !! p with Some f => mode f | None => create_mode end)]> fs.

Definition tmp_path (s : SharedFile) : path := (dir s, [46] ++ file_name s ++ [46] ++ decimal pid ++ chars ".tmp").

Definition write_atomically (s : SharedFile) (fault : option Fault) (v : Z) (b : str) (fs : fsys)
  : fsys * result SharedFileError unit :=
  let tmp := tmp_path s in
  let text := render v b in
  match fault with
  | Some Create => (fs, Err Io)
  | Some (WritePart n) => (put tmp (take n text) fs, Err Io)
  | Some SyncFile | Some Restrict => (put tmp text fs, Err Io)
  | Some Rename => (restrict_to_current_user tmp (put tmp text fs), Err Io)
  | None =>
      let fs' := restrict_to_current_user tmp (put tmp text fs) in
      (match fs' !! tmp with
       | Some f => <[path_of s := f]> (delete tmp fs')
       | None => fs'
       end, Ok tt)
  end.

Definition conflict_path (s : SharedFile) (expected found : Z) : path :=
  (conflicts_dir s, file_name s ++ chars ".v" ++ decimal expected ++ chars "-vs-v" ++ decimal found ++ [46]
                    ++ decimal pid ++ chars ".conflict").

Definition write_conflict (s : SharedFile) (fault : option Fault) (b : str) (expected found : Z) (fs : fsys)
  : fsys * result SharedFileError path :=
  let out := conflict_path s expected found in
  let text := render expected b in
  match fault with
  | Some Create => (fs, Err Io)
  | Some (WritePart n) => (put out (take n text) fs, Err Io)
  | Some SyncFile | Some Restrict => (put out text fs, Err Io)
  | Some Rename | None => (restrict_to_current_user out (put out text fs), Ok out)
  end.

(** The lock file is created when missing and never emptied; [private] says
    whether the caller also restricts it. *)
Definition open_lock (s : SharedFile) (private : bool) (fs : fsys) : fsys :=
  let fs' := match fs !! lock_path s with
             | Some _ => fs
             | None => put (lock_path s) [] fs
             end in
  if private then restrict_to_current_user (lock_path s) fs' else fs'.

(** The comparison and what follows it: a conflict, or the new version. *)
Definition commit (s : SharedFile) (fault : option Fault) (expected found : Z) (b : str) (fs : fsys)
  : fsys * result SharedFileError Z :=
  if decide (found = expected) then
    let next := (expected + 1) mod 2 ^ 64 in
    match write_atomically s fault next b fs with
    | (fs', Ok _) => (fs', Ok next)
    | (fs', Err e) => (fs', Err e)
    end
  else
    match write_conflict s fault b expected found fs with
    | (fs', Ok c) => (fs', Err (Conflict (path_of s) expected found c))
    | (fs', Err e) => (fs', Err e)
    end.

(** [update] by one process; [between] is what happens to the file system
    between the two reads, [late] what happens after the second. *)
Definition update (s : SharedFile) (edit : str -> str) (between late : fsys -> fsys) (fault : option Fault) (fs : fsys)
  : fsys * result SharedFileError Z :=
  let fs0 := open_lock s true fs in
  match read s fs0 with
  | Err e => (fs0, Err e)
  | Ok before =>
      let fs1 := between fs0 in
      match read s fs1 with
      | Err e => (fs1, Err e)
      | Ok after => commit s fault (version before) (version after) (edit (body before)) (late fs1)
      end
  end.

Definition write_if_unchanged (s : SharedFile) (expected : Z) (b : str) (late : fsys -> fsys) (fault : option Fault) (fs : fsys)
  : fsys * result SharedFileError Z :=
  let fs0 := open_lock s false fs in
  match read s fs0 with
  | Err e => (fs0, Err e)
  | Ok current => commit s fault expected (version current) b (late fs0)
  end.

End Write.

(** [read_locked]: the lock taken is that of the data file itself. *)
Definition read_locked (p : path) (fs : fsys) : option str := f ← fs !! p; from_utf8 (content f).

(** ** Processes that take the lock

    Each process runs [update] once, one call at a time. *)

Section Processes.
Context (create_mode : Z) (pid : nat -> Z) (s : SharedFile) (edits : nat -> str -> str).

Inductive Phase :=
| Waiting
| Holding
| HasRead (before : Versioned)
| HasReread (before after : Versioned)
| Finished (r : result SharedFileError Z).

Record Sys := mkSys { disk : fsys; holder : option nat; phases : list Phase }.

(** The outcome of a call that ends the update: the lock is released. *)
Definition finished (y : Sys) (i : nat) (fs : fsys) (r : result SharedFileError Z) : Sys :=
  mkSys fs None (<[i := Finished r]> (phases y)).
Definition moved (y : Sys) (i : nat) (p : Phase) : Sys := mkSys (disk y) (holder y) (<[i := p]> (phases y)).

(** The next call of process [i]; [None] while it waits for the lock or is done. *)
Definition next_call (y : Sys) (i : nat) : option Sys :=
  match phases y !! i with
  | Some Waiting =>
      match holder y with
      | None => Some (mkSys (open_lock create_mode s true (disk y)) (Some i) (<[i := Holding]> (phases y)))
      | Some _ => None
      end
  | Some Holding =>
      match read s (disk y) with
      | Ok before => Some (moved y i (HasRead before))
      | Err e => Some (finished y i (disk y) (Err e))
      end
  | Some (HasRead before) =>
      match read s (disk y) with
      | Ok after => Some (moved y i (HasReread before after))
      | Err e => Some (finished y i (disk y) (Err e))
      end
  | Some (HasReread before after) =>
      let '(fs, r) := commit create_mode (pid i) s None (version before) (version after) (edits i (body before)) (disk y) in
      Some (finished y i fs r)
  | Some (Finished _) | None => None
  end.

(** One step of the system, and the processes whose update it completed. *)
Inductive step : Sys -> list nat -> Sys -> Prop :=
| step_call y i y' : next_call y i = Some y' ->
    step y (match phases y' !! i with Some (Finished (Ok _)) => [i] | _ => [] end) y'.

Inductive steps : Sys -> list nat -> Sys -> Prop :=
| steps_none y : steps y [] y
| steps_more y t y' u y'' : steps y t y' -> step y' u y'' -> steps y (t ++ u) y''.

Definition start (fs : fsys) (n : nat) : Sys := mkSys fs None (replicate n Waiting).

(** The edits of the processes in [order], one after the other. *)
Definition apply_edits (order : list nat) (b : str) : str := foldl (fun b i => edits i b) b order.

End Processes.

(** ** Paths are apart *)

(** Two texts that differ in length are not equal. *)
Ltac by_length E :=
  apply (f_equal length) in E; do 3 (cbn [app length] in E; rewrite ?length_app in E); cbn in E; lia.

Lemma tmp_path_ne pid s : tmp_path pid s <> path_of s.
Proof.
  unfold tmp_path, path_of. intros [= E]. by_length E.
Qed.

Lemma lock_path_ne s : lock_path s <> path_of s.
Proof. unfold lock_path, path_of. intros [= E]. by_length E. Qed.

Lemma conflict_path_ne pid s e f : conflict_path pid s e f <> path_of s.
Proof.
  unfold conflict_path, path_of, conflicts_dir. intros [= E _]. by_length E.
Qed.

Lemma restrict_other p q fs : p <> q -> restrict_to_current_user p fs !! q = fs !! q.
Proof. intros Hn. unfold restrict_to_current_user. destruct (fs !! p); [|done]. by rewrite lookup_insert_ne. Qed.

Lemma put_other cm p b q fs : p <> q -> put cm p b fs !! q = fs !! q.
Proof. intros Hn. unfold put. by rewrite lookup_insert_ne. Qed.

Lemma restrict_put cm p b fs : restrict_to_current_user p (put cm p b fs) !! p = Some (mkFile b 384).
Proof. unfold restrict_to_current_user, put. by rewrite lookup_insert_eq, lookup_insert_eq. Qed.

Lemma read_ext s fs fs' : fs' !! path_of s = fs !! path_of s -> read s fs' = read s fs.
Proof. unfold read. by intros ->. Qed.

Lemma open_lock_data cm s private fs : open_lock cm s private fs !! path_of s = fs !! path_of s.
Proof.
  pose proof (lock_path_ne s). unfold open_lock.
  destruct private; [rewrite restrict_other by done|]; (destruct (fs !! lock_path s); [done|by apply put_other]).
Qed.

(** ** The header round trips *)

Lemma decimal_graphic n : 0 <= n -> Forall graphic (print_unsigned n).
Proof.
  intros Hn. apply digit_graphic. by destruct (print_unsigned_spec n Hn) as (_ & Hd & _).
Qed.

Lemma parse_render v b : 0 <= v <= u64_max -> parse (VERSION_PREFIX ++ decimal v ++ [10] ++ b) = Some (mkVersioned v b).
Proof.
  intros Hv. pose proof (decimal_graphic v ltac:(lia)) as Hg. unfold parse. rewrite (app_assoc VERSION_PREFIX).
  cbn [app]. rewrite split_once_app.
  2: { apply not_elem_of_app. split; [by apply (bool_decide_unpack _); vm_compute|]. unfold decimal.
       intros (c & Hc & Hin)%list_elem_of_fmap. rewrite Forall_forall in Hg. pose proof (Hg c Hin). unfold graphic in *. lia. }
  cbn [from_option id]. rewrite strip_prefix_app. cbn [mbind option_bind]. unfold decimal. rewrite graphic_trim by done.
  rewrite encode_str_ascii by (by apply graphic_ascii). by rewrite parse_unsigned_print.
Qed.

Lemma render_text v b : 0 <= v -> Forall scalar b -> from_utf8 (render v b) = Some (VERSION_PREFIX ++ decimal v ++ [10] ++ b).
Proof.
  intros Hv Hb. apply from_utf8_encode_str. rewrite !Forall_app. split.
  - repeat (constructor; [left; vm_compute; split; [discriminate|reflexivity]|]). constructor.
  - split; [|split; [constructor; [left; lia|constructor]|done]]. unfold decimal. apply Forall_fmap.
    eapply Forall_impl; [by apply decimal_graphic|]. intros c Hc. unfold graphic in Hc. left. cbn. lia.
Qed.

Lemma read_rendered s fs v b m : 0 <= v <= u64_max -> Forall scalar b ->
  fs !! path_of s = Some (mkFile (render v b) m) -> read s fs = Ok (mkVersioned v b).
Proof. intros Hv Hb Hf. unfold read. rewrite Hf. cbn [content]. rewrite render_text by (done || lia). by rewrite parse_render. Qed.

Lemma digits_from_nonneg acc t n : 0 <= acc -> digits_from acc t = Some n -> 0 <= n.
Proof.
  revert acc. induction t as [|b t IH]; intros acc Ha; cbn [digits_from]; [by intros [= <-]|].
  unfold digit_value. case_decide; [|done]. apply IH. lia.
Qed.

Lemma parse_unsigned_range max t n : parse_unsigned max t = Some n -> 0 <= n <= max.
Proof.
  unfold parse_unsigned, digits. intros Hp. destruct (match t with [] => t | _ => _ end) as [|b r]; [done|].
  destruct (digits_from 0 (b :: r)) as [m|] eqn:E; [|done]. apply digits_from_nonneg in E; [|lia].
  case_decide; [|done]. injection Hp as <-. lia.
Qed.

(** What is read is a valid version and body. *)
Lemma read_valid s fs v : read s fs = Ok v -> 0 <= version v <= u64_max /\ Forall scalar (body v).
Proof.
  unfold read. destruct (fs !! path_of s) as [f|]; [|intros [= <-]; cbn; split; [vm_compute; split; discriminate|constructor]].
  destruct (from_utf8 (content f)) as [t|] eqn:Et; [|done]. apply from_utf8_scalars in Et. unfold parse.
  destruct (default _ _) as [first rest] eqn:Es. destruct (strip_prefix _ first) as [p|]; [|done]. cbn.
  destruct (parse_unsigned _ _) as [n|] eqn:En; [|done]. cbn. intros [= <-]. cbn. split.
  - by eapply parse_unsigned_range.
  - destruct (split_once 10 t) as [[a c]|] eqn:E; cbn in Es; injection Es as <- <-; [|constructor].
    apply split_once_some in E as [-> _]. apply Forall_app in Et as [_ Et]. by inversion_clear Et.
Qed.

(** ** One write *)

Section WriteFacts.
Context (cm pid : Z).

(** A write that stops anywhere leaves the old file; one that ends leaves exactly
    the new one, for the current user only. *)
Lemma write_atomic s fault v b fs :
  let '(fs', r) := write_atomically cm pid s fault v b fs in
  match r with
  | Ok _ => fault = None /\ fs' !! path_of s = Some (mkFile (render v b) 384)
  | Err _ => fs' !! path_of s = fs !! path_of s
  end.
Proof.
  pose proof (tmp_path_ne pid s) as Hn. destruct fault as [[]|]; unfold write_atomically; cbv zeta iota;
    rewrite ?restrict_put, ?restrict_other, ?put_other by done; try done.
  split; [done|]. by rewrite lookup_insert_eq.
Qed.

Lemma write_other s v b fs p : p <> path_of s -> p <> tmp_path pid s ->
  (write_atomically cm pid s None v b fs).1 !! p = fs !! p.
Proof.
  intros Hp Ht. unfold write_atomically. cbv zeta. cbn [fst]. rewrite restrict_put, lookup_insert_ne, lookup_delete_ne by congruence.
  by rewrite restrict_other, put_other by congruence.
Qed.

Lemma conflict_kept s b expected found fs :
  write_conflict cm pid s None b expected found fs =
    (restrict_to_current_user (conflict_path pid s expected found) (put cm (conflict_path pid s expected found) (render expected b) fs),
     Ok (conflict_path pid s expected found)) /\
  (write_conflict cm pid s None b expected found fs).1 !! conflict_path pid s expected found = Some (mkFile (render expected b) 384) /\
  (write_conflict cm pid s None b expected found fs).1 !! path_of s = fs !! path_of s.
Proof.
  pose proof (conflict_path_ne pid s expected found). unfold write_conflict. cbv zeta. cbn [fst]. split; [done|]. rewrite restrict_put, restrict_other, put_other by done. done.
Qed.

Lemma wrap_small v n : 0 <= v -> v < u64_max -> n = (v + 1) mod 2 ^ 64 -> n = v + 1.
Proof. unfold u64_max. intros ?? ->. apply Z.mod_small. lia. Qed.

(** The commit of an edit, on every branch without a failing call. *)
Lemma commit_spec s expected found b fs :
  (found = expected -> exists fs', commit cm pid s None expected found b fs = (fs', Ok ((expected + 1) mod 2 ^ 64)) /\
     fs' !! path_of s = Some (mkFile (render ((expected + 1) mod 2 ^ 64) b) 384)) /\
  (found <> expected -> exists fs', let out := conflict_path pid s expected found in
     commit cm pid s None expected found b fs = (fs', Err (Conflict (path_of s) expected found out)) /\
     fs' !! out = Some (mkFile (render expected b) 384) /\ fs' !! path_of s = fs !! path_of s).
Proof.
  unfold commit. split; intros Hf.
  - rewrite decide_True by done. pose proof (write_atomic s None ((expected + 1) mod 2 ^ 64) b fs) as Hw.
    destruct (write_atomically _ _ _ _ _ _ _) as [fs' [[]|]] eqn:E; [|by cbn in E]. destruct Hw as [_ Hw]. by exists fs'.
  - rewrite decide_False by done. destruct (conflict_kept s b expected found fs) as (E & Ho & Hd).
    rewrite E in *. eexists. split; [done|]. by split.
Qed.

End WriteFacts.

(** C26. An update never silently loses its edit: whatever programs that ignore
    the lock do between its two reads ([between]) and between the second read and
    the write ([late]), an update none of whose calls fails, whose edit gives text
    and that does not start at the largest version ([version_wraps]) ends in one of
    two ways. Either the version was the one read, and the file holds exactly the
    edited body under the next version; or it had moved, the file stays as the
    other programs left it, and the edited body is in the conflict file that the
    error names, readable by the current user only. *)
Theorem update_keeps_edit cm pid s edit between late fs before found :
  (forall b, Forall scalar b -> Forall scalar (edit b)) ->
  let fs0 := open_lock cm s true fs in
  read s fs0 = Ok before -> read s (between fs0) = Ok found -> version before < u64_max ->
  let '(fs', r) := update cm pid s edit between late None fs in
  (version found = version before /\ r = Ok (version before + 1) /\
   read s fs' = Ok (mkVersioned (version before + 1) (edit (body before)))) \/
  (version found <> version before /\ exists c f,
     r = Err (Conflict (path_of s) (version before) (version found) c) /\
     fs' !! path_of s = late (between fs0) !! path_of s /\ fs' !! c = Some f /\ is_user_only f = true /\
     exists t, from_utf8 (content f) = Some t /\ parse t = Some (mkVersioned (version before) (edit (body before)))).
Proof.
  intros Hedit fs0 Hb Hf Hmax. unfold update. fold fs0. rewrite Hb, Hf.
  pose proof (read_valid _ _ _ Hb) as [Hv Hsc]. apply Hedit in Hsc.
  destruct (commit_spec cm pid s (version before) (version found) (edit (body before)) (late (between fs0))) as [Hsame Hmoved].
  destruct (decide (version found = version before)) as [E|E].
  - destruct (Hsame E) as (fs' & -> & Hd). left. pose proof (wrap_small _ _ (proj1 Hv) Hmax eq_refl) as Hw. rewrite Hw in *.
    split; [done|]. split; [done|]. eapply read_rendered; [lia|done|exact Hd].
  - destruct (Hmoved E) as (fs' & -> & Hc & Hd). right. split; [done|]. eexists _, _. split; [done|].
    split; [exact Hd|]. split; [exact Hc|]. split; [done|].
    cbn [content]. eexists. split; [apply render_text; [lia|done]|]. by apply parse_render.
Qed.

(** [write_if_unchanged] writes exactly when the version it reads is the expected
    one, and then the file holds the new body under the next version; otherwise it
    does not touch the file and the rejected body can be read back from the
    conflict file. *)
Theorem write_if_unchanged_exact cm pid s expected b late fs current :
  Forall scalar b -> read s fs = Ok current -> 0 <= expected < u64_max ->
  let '(fs', r) := write_if_unchanged cm pid s expected b late None fs in
  (is_ok r = true <-> version current = expected) /\
  (version current = expected -> r = Ok (expected + 1) /\ read s fs' = Ok (mkVersioned (expected + 1) b)) /\
  (version current <> expected -> fs' !! path_of s = late (open_lock cm s false fs) !! path_of s /\ exists c f,
     r = Err (Conflict (path_of s) expected (version current) c) /\ fs' !! c = Some f /\ is_user_only f = true /\
     exists t, from_utf8 (content f) = Some t /\ parse t = Some (mkVersioned expected b)).
Proof.
  intros Hb Hr He. unfold write_if_unchanged. rewrite (read_ext s fs) by apply open_lock_data. rewrite Hr.
  destruct (commit_spec cm pid s expected (version current) b (late (open_lock cm s false fs))) as [Hsame Hmoved].
  destruct (decide (version current = expected)) as [E|E].
  - destruct (Hsame E) as (fs' & -> & Hd). rewrite (wrap_small expected _ ltac:(lia) ltac:(lia) eq_refl) in *. split; [done|].
    split; [intros _; split; [done|]; by eapply read_rendered; [lia|done|exact Hd]|done].
  - destruct (Hmoved E) as (fs' & -> & Hc & Hd). split; [done|]. split; [done|]. intros _.
    split; [exact Hd|]. eexists _, _. split; [done|]. split; [exact Hc|]. split; [done|].
    cbn [content]. eexists. split; [by apply render_text; [lia|]|]. by apply parse_render; lia.
Qed.

(** ** Processes that take the lock *)

Section ProcessFacts.
Context (cm : Z) (pid : nat -> Z) (s : SharedFile) (edits : nat -> str -> str).
Context (edits_scalar : forall i b, Forall scalar b -> Forall scalar (edits i b)).

Abbreviation next_call := (next_call cm pid s edits).
Abbreviation step := (step cm pid s edits).
Abbreviation steps := (steps cm pid s edits).

Definition holding (p : Phase) : bool :=
  match p with Holding | HasRead _ | HasReread _ _ => true | Waiting | Finished _ => false end.

(** Everything a holder of the lock has read is what the file still holds. *)
Definition fresh (v : Versioned) (p : Phase) : Prop :=
  match p with
  | HasRead b => b = v
  | HasReread b a => b = v /\ a = v
  | _ => True
  end.

Record running (n : nat) (v0 : Z) (b0 : str) (t : list nat) (y : Sys) : Prop := {
  r_disk : read s (disk y) = Ok (mkVersioned (v0 + zlen t) (apply_edits edits t b0));
  r_length : length (phases y) = n;
  r_holder i p : phases y !! i = Some p -> holding p = true <-> holder y = Some i;
  r_held i : holder y = Some i -> (i < n)%nat;
  r_fresh i p : phases y !! i = Some p -> fresh (mkVersioned (v0 + zlen t) (apply_edits edits t b0)) p;
  r_done i r : phases y !! i = Some (Finished r) -> exists k, t !! k = Some i /\ r = Ok (v0 + Z.of_nat k + 1);
  r_trace i : i ∈ t -> exists r, phases y !! i = Some (Finished r);
  r_nodup : NoDup t;
}.

Lemma running_start n v0 b0 fs : read s fs = Ok (mkVersioned v0 b0) -> running n v0 b0 [] (start fs n).
Proof.
  intros Hr. assert (Hw : forall i p, replicate n Waiting !! i = Some p -> p = Waiting) by (by intros i p [-> _]%lookup_replicate).
  split; cbn [start disk holder phases].
  - by rewrite zlen_nil, Z.add_0_r.
  - apply length_replicate.
  - intros i p ->%Hw. done.
  - done.
  - intros i p ->%Hw. exact I.
  - intros i r ?%Hw. done.
  - by intros i ?%elem_of_nil.
  - constructor.
Qed.

Lemma nodup_bound n l : NoDup l -> (forall i : nat, i ∈ l -> (i < n)%nat) -> (length l <= n)%nat.
Proof.
  intros Hn Hl. rewrite <- (length_seq n 0). apply submseteq_length, NoDup_submseteq; [done|].
  intros i Hi%Hl. apply elem_of_seq. lia.
Qed.

(** A call that completes no update keeps the invariant. *)
Lemma running_moved n v0 b0 t y i p q fs :
  running n v0 b0 t y -> phases y !! i = Some p ->
  holding p = true \/ holder y = None -> holding q = true ->
  fs !! path_of s = disk y !! path_of s -> fresh (mkVersioned (v0 + zlen t) (apply_edits edits t b0)) q ->
  (forall r, p <> Finished r) -> running n v0 b0 t (mkSys fs (Some i) (<[i := q]> (phases y))).
Proof.
  intros [Rd Rl Rh Rb Rf Ro Rt Rn] Hp Hh Hq Hd Hfr Hnf. pose proof (lookup_lt_Some _ _ _ Hp) as Hi.
  assert (Hlk : forall j p', <[i:=q]> (phases y) !! j = Some p' -> (j = i /\ p' = q) \/ (j <> i /\ phases y !! j = Some p')).
  { intros j p'. destruct (decide (j = i)) as [->|Hj]; [rewrite list_lookup_insert_eq by done; intros [= <-]; by left|].
    rewrite list_lookup_insert_ne by done. by right. }
  split; cbn [disk holder phases].
  - by rewrite (read_ext _ (disk y)).
  - by rewrite length_insert.
  - intros j p' [[-> ->]|[Hj Hlj]]%Hlk; [done|]. pose proof (Rh _ _ Hlj) as Hr. split; [|by intros [= <-]].
    intros Hh'. apply Hr in Hh'. destruct Hh as [Hh|Hh]; [apply (Rh _ _ Hp) in Hh|]; congruence.
  - intros j [= <-]. lia.
  - intros j p' [[-> ->]|[Hj Hlj]]%Hlk; [done|]. by eapply Rf.
  - intros j r [[-> Hr]|[Hj Hlj]]%Hlk; [by destruct q|by eapply Ro].
  - intros j Hj. destruct (Rt j Hj) as [r Hr]. exists r. rewrite list_lookup_insert_ne; [done|]. intros ->. by eapply Hnf; simplify_eq.
  - done.
Qed.

(** The call that completes the holder's update extends the order by it. *)
Lemma running_finished n v0 b0 t y i p fs :
  running n v0 b0 t y -> phases y !! i = Some p -> holding p = true ->
  read s fs = Ok (mkVersioned (v0 + zlen (t ++ [i])) (apply_edits edits (t ++ [i]) b0)) ->
  running n v0 b0 (t ++ [i]) (finished y i fs (Ok (v0 + zlen t + 1))).
Proof.
  intros [Rd Rl Rh Rb Rf Ro Rt Rn] Hp Hh Hd. pose proof (lookup_lt_Some _ _ _ Hp) as Hi. unfold finished.
  assert (Hlk : forall j p', <[i:=Finished (Ok (v0 + zlen t + 1))]> (phases y) !! j = Some p' ->
            (j = i /\ p' = Finished (Ok (v0 + zlen t + 1))) \/ (j <> i /\ phases y !! j = Some p' /\ holding p' = false)).
  { intros j p'. destruct (decide (j = i)) as [->|Hj]; [rewrite list_lookup_insert_eq by done; intros [= <-]; by left|].
    rewrite list_lookup_insert_ne by done. intros Hlj. right. split; [done|]. split; [done|].
    destruct (holding p') eqn:E; [|done]. apply (Rh _ _ Hlj) in E. apply (Rh _ _ Hp) in Hh. congruence. }
  split; cbn [disk holder phases].
  - done.
  - by rewrite length_insert.
  - intros j p' [[-> ->]|(Hj & Hlj & Hf)]%Hlk; [done|]. by rewrite Hf.
  - done.
  - intros j p' [[-> ->]|(Hj & Hlj & Hf)]%Hlk; [exact I|]. destruct p'; done.
  - intros j r [[-> [= ->]]|(Hj & Hlj & _)]%Hlk.
    + exists (length t). split; [by rewrite lookup_app_r, Nat.sub_diag by lia|]. done.
    + destruct (Ro _ _ Hlj) as (k & Hk & ->). exists k. split; [by apply lookup_app_l_Some|done].
  - intros j [Hj| ->%list_elem_of_singleton]%elem_of_app; [|eexists; by apply list_lookup_insert_eq].
    destruct (decide (j = i)) as [->|Hn]; [eexists; by apply list_lookup_insert_eq|].
    destruct (Rt j Hj) as [r Hr]. exists r. by rewrite list_lookup_insert_ne.
  - apply NoDup_app. split; [done|]. split; [|apply NoDup_singleton]. intros j Hj ->%list_elem_of_singleton.
    destruct (Rt i Hj) as [r Hr]. rewrite Hp in Hr. injection Hr as ->. done.
Qed.

Lemma running_call n v0 b0 t y i y' : 0 <= v0 -> v0 + Z.of_nat n <= u64_max -> Forall scalar b0 ->
  running n v0 b0 t y -> next_call y i = Some y' ->
  exists u, running n v0 b0 (t ++ u) y' /\
    u = match phases y' !! i with Some (Finished (Ok _)) => [i] | _ => [] end.
Proof.
  intros H0 Hmax Hsc R Hc. unfold Shared.next_call in Hc. destruct (phases y !! i) as [p|] eqn:Hp; [|done].
  pose proof (lookup_lt_Some _ _ _ Hp) as Hi.
  destruct p as [| |before|before after|r]; [| | | |done].
  - destruct (holder y) eqn:Eh; [done|]. injection Hc as <-. exists []. cbn [phases].
    rewrite list_lookup_insert_eq, app_nil_r by done. split; [|done].
    eapply running_moved; [done|exact Hp|by right|done|apply (open_lock_data cm s true)|exact I|done].
  - rewrite (r_disk _ _ _ _ _ R) in Hc. injection Hc as <-. exists []. cbn [phases moved].
    rewrite list_lookup_insert_eq, app_nil_r by done. split; [|done]. unfold moved.
    rewrite (proj1 (r_holder _ _ _ _ _ R _ _ Hp) eq_refl).
    by eapply running_moved; [done|exact Hp|by left|..].
  - rewrite (r_disk _ _ _ _ _ R) in Hc. injection Hc as <-. exists []. cbn [phases moved].
    rewrite list_lookup_insert_eq, app_nil_r by done. split; [|done]. unfold moved.
    rewrite (proj1 (r_holder _ _ _ _ _ R _ _ Hp) eq_refl).
    eapply running_moved; [done|exact Hp|by left|done|done| |done].
    split; [|done]. exact (r_fresh _ _ _ _ _ R _ _ Hp).
  - destruct (r_fresh _ _ _ _ _ R _ _ Hp) as [-> ->].
    assert (Hlt : (length t < n)%nat).
    { pose proof (r_trace _ _ _ _ _ R) as Ht. rewrite <- (r_length _ _ _ _ _ R).
      assert (Hni : i ∉ t) by (intros [r Hr]%Ht; congruence).
      apply (nodup_bound _ (i :: t)); [constructor; [done|apply (r_nodup _ _ _ _ _ R)]|].
      intros j [->|[r Hr%lookup_lt_Some]%Ht]%elem_of_cons; done. }
    assert (Hvn : v0 + zlen t + 1 <= u64_max) by (unfold zlen; lia).
    destruct (commit_spec cm (pid i) s (v0 + zlen t) (v0 + zlen t) (edits i (apply_edits edits t b0)) (disk y)) as [Hs _].
    destruct (Hs eq_refl) as (fs' & E & Hd). cbn [version body] in Hc. rewrite E in Hc. injection Hc as <-.
    pose proof (zlen_nonneg t). rewrite (wrap_small (v0 + zlen t) _ ltac:(lia) ltac:(lia) eq_refl) in *.
    exists [i]. cbn [phases finished]. rewrite list_lookup_insert_eq by done. split; [|done].
    eapply running_finished; [done|exact Hp|done|]. assert (Hz : v0 + zlen (t ++ [i]) = v0 + zlen t + 1) by (unfold zlen; rewrite length_app; cbn; lia).
    rewrite Hz. eapply read_rendered; [lia| |].
    2: { rewrite Hd. unfold apply_edits. rewrite foldl_snoc. done. }
    unfold apply_edits. rewrite foldl_snoc. apply edits_scalar. clear -Hsc edits_scalar.
    induction t as [|j t IH] using rev_ind; [done|]. rewrite foldl_snoc. by apply edits_scalar.
Qed.

Lemma running_steps n v0 b0 fs t y : 0 <= v0 -> v0 + Z.of_nat n <= u64_max -> Forall scalar b0 ->
  read s fs = Ok (mkVersioned v0 b0) -> steps (start fs n) t y -> running n v0 b0 t y.
Proof.
  intros H0 Hmax Hsc Hr Hs. remember (start fs n) as y0 eqn:E. induction Hs as [y|y t y' u y'' Hs IH Hstep]; subst.
  - by apply running_start.
  - destruct Hstep as [z i z' Hc]. destruct (running_call _ _ _ _ _ _ _ H0 Hmax Hsc (IH eq_refl) Hc) as (u & R & <-). exact R.
Qed.

(** ** Progress *)

Definition rank (p : Phase) : nat :=
  match p with Waiting => 4 | Holding => 3 | HasRead _ => 2 | HasReread _ _ => 1 | Finished _ => 0 end.
Definition remaining (y : Sys) : nat := sum_list_with rank (phases y).

Lemma sum_insert_lt l i (p q : Phase) : l !! i = Some p -> (rank q < rank p)%nat ->
  (sum_list_with rank (<[i := q]> l) < sum_list_with rank l)%nat.
Proof.
  revert i. induction l as [|x l IH]; intros [|i]; try done; [intros [= ->] ?; simpl; lia|].
  intros Hl Hq. pose proof (IH _ Hl Hq). simpl. lia.
Qed.

(** Every call brings its process nearer to the end. *)
Lemma call_decreases y i y' : next_call y i = Some y' -> (remaining y' < remaining y)%nat.
Proof.
  unfold Shared.next_call, remaining. destruct (phases y !! i) as [p|] eqn:Hp; [|done].
  assert (D : forall q, (rank q < rank p)%nat -> (sum_list_with rank (<[i:=q]> (phases y)) < sum_list_with rank (phases y))%nat)
    by (intros q; by eapply sum_insert_lt).
  destruct p as [| |before|before after|r]; [| | | |done].
  - destruct (holder y); [done|]. intros [= <-]. apply D. cbn. lia.
  - destruct (read s (disk y)); intros [= <-]; apply D; cbn; lia.
  - destruct (read s (disk y)); intros [= <-]; apply D; cbn; lia.
  - destruct (commit _ _ _ _ _ _ _ _); intros [= <-]. apply D. cbn. lia.
Qed.

(** While a process is not done, some process can make its next call. *)
Lemma some_call n v0 b0 t y : running n v0 b0 t y ->
  (exists i p, phases y !! i = Some p /\ (0 < rank p)%nat) -> exists i y', next_call y i = Some y'.
Proof.
  intros R (i & p & Hp & Hr). destruct (holder y) as [j|] eqn:Eh.
  - pose proof (r_held _ _ _ _ _ R j Eh) as Hj. rewrite <- (r_length _ _ _ _ _ R) in Hj.
    apply lookup_lt_is_Some in Hj as [q Hq]. pose proof (proj2 (r_holder _ _ _ _ _ R _ _ Hq) Eh) as Hh.
    exists j. unfold Shared.next_call. rewrite Hq. destruct q as [| |b|b a|r]; try done.
    + rewrite (r_disk _ _ _ _ _ R). by eexists.
    + rewrite (r_disk _ _ _ _ _ R). by eexists.
    + destruct (commit _ _ _ _ _ _ _ _). by eexists.
  - exists i. unfold Shared.next_call. rewrite Hp, Eh. destruct p as [| |b|b a|r]; cbn in Hr; try lia; [by eexists|..];
      (pose proof (proj1 (r_holder _ _ _ _ _ R _ _ Hp) eq_refl); congruence).
Qed.

(** C12. Updates that take the lock are never lost and never block each other for
    ever.  However the calls of [n] processes interleave, the file always holds
    the edits of the completed updates applied one after the other in the order of
    completion, under the initial version plus their number, as long as that is a
    64-bit number and the edits give text; each returns the
    version it wrote, no update reports a conflict, and none is done twice.  From
    every such state all the others can still complete. *)
Theorem no_lost_update n v0 b0 fs t y : v0 + Z.of_nat n <= u64_max ->
  read s fs = Ok (mkVersioned v0 b0) -> steps (start fs n) t y ->
  read s (disk y) = Ok (mkVersioned (v0 + zlen t) (apply_edits edits t b0)) /\ NoDup t /\
  (forall i r, phases y !! i = Some (Finished r) -> exists k, t !! k = Some i /\ r = Ok (v0 + Z.of_nat k + 1)) /\
  exists u y', steps (start fs n) (t ++ u) y' /\ t ++ u ≡ₚ seq 0 n /\
    read s (disk y') = Ok (mkVersioned (v0 + Z.of_nat n) (apply_edits edits (t ++ u) b0)).
Proof.
  intros Hmax Hr Hs. pose proof (read_valid _ _ _ Hr) as [Hv Hsc]. cbn [version body] in Hv, Hsc.
  pose proof (running_steps n v0 b0 fs t y (proj1 Hv) Hmax Hsc Hr Hs) as R.
  split; [apply (r_disk _ _ _ _ _ R)|]. split; [apply (r_nodup _ _ _ _ _ R)|]. split; [apply (r_done _ _ _ _ _ R)|].
  remember (remaining y) as m eqn:Em. revert t y Hs R Em. induction m as [m IH] using lt_wf_ind. intros t y Hs R ->.
  destruct (decide (Exists (fun p => (0 < rank p)%nat) (phases y))) as [He|He].
  - apply Exists_exists in He as (p & [i Hi]%list_elem_of_lookup & Hp).
    destruct (some_call _ _ _ _ _ R) as (j & y' & Hc); [by exists i, p|].
    destruct (running_call _ _ _ _ _ _ _ (proj1 Hv) Hmax Hsc R Hc) as (u & R' & Hu).
    assert (Hs' : steps (start fs n) (t ++ u) y'). { eapply steps_more; [done|]. rewrite Hu. by constructor. }
    destruct (IH _ (call_decreases _ _ _ Hc) (t ++ u) y' Hs' R' eq_refl) as (u' & y'' & H1 & H2 & H3).
    rewrite <- app_assoc in *. by exists (u ++ u'), y''.
  - exists [], y. rewrite app_nil_r. split; [done|].
    assert (Hp : t ≡ₚ seq 0 n).
    { apply NoDup_Permutation; [apply (r_nodup _ _ _ _ _ R)|apply NoDup_seq|]. intros i. rewrite elem_of_seq, <- (r_length _ _ _ _ _ R).
      split; [intros [r Hi%lookup_lt_Some]%(r_trace _ _ _ _ _ R); lia|]. intros [_ [p Hp]%lookup_lt_is_Some].
      apply not_Exists_Forall in He; [|apply _]. pose proof (Forall_lookup_1 _ _ _ _ He Hp) as Hrk. cbn in Hrk.
      destruct p; cbn in Hrk; try lia. destruct (r_done _ _ _ _ _ R _ _ Hp) as (k & Hk & _). by eapply list_elem_of_lookup_2. }
    split; [done|]. rewrite (r_disk _ _ _ _ _ R). unfold zlen. by rewrite (Permutation_length Hp), length_seq.
Qed.

End ProcessFacts.

(** ** Examples *)

Definition profiles : SharedFile := mkShared (chars "/cfg") (chars "profiles.toml").
Definition add_line (l : string) (b : str) : str := b ++ chars l ++ [10].
Definition on_disk (v : Z) (b : str) : fsys := <[path_of profiles := mkFile (render v b) 384]> ∅.

Lemma add_line_scalar l b : Forall scalar b -> Forall scalar (add_line l b).
Proof.
  intros Hb. unfold add_line. rewrite !Forall_app, Forall_singleton. split; [done|]. split; [|left; lia].
  unfold chars. apply Forall_fmap, Forall_forall. intros c _. pose proof (bz_range c). left. cbn. lia.
Qed.

Lemma update_keeps_edit_witness :
  let between := fun fs => on_disk 8 (chars "theirs") in
  let '(fs', r) := update 420 1 profiles (add_line "mine") between (fun fs => fs) None (on_disk 7 (chars "old")) in
  exists c f, r = Err (Conflict (path_of profiles) 7 8 c) /\ fs' !! c = Some f /\ is_user_only f = true /\
    exists t, from_utf8 (content f) = Some t /\ parse t = Some (mkVersioned 7 (chars "oldmine" ++ [10])).
Proof.
  pose proof (update_keeps_edit 420 1 profiles (add_line "mine") (fun fs => on_disk 8 (chars "theirs")) (fun fs => fs)
    (on_disk 7 (chars "old")) (mkVersioned 7 (chars "old")) (mkVersioned 8 (chars "theirs")) (add_line_scalar _)
    ltac:(vm_compute; reflexivity) ltac:(vm_compute; reflexivity) ltac:(vm_compute; reflexivity)) as Hk.
  cbv zeta. destruct (update _ _ _ _ _ _ _ _) as [fs' r].
  destruct Hk as [(E & _)|(_ & c & f & Hr & _ & Hc & Hu & Ht)]; [by vm_compute in E|]. by exists c, f.
Defined.

Lemma write_if_unchanged_exact_witness :
  let '(fs', r) := write_if_unchanged 420 1 profiles 7 (chars "mine") (fun fs => fs) None (on_disk 7 (chars "old")) in
  r = Ok 8 /\ read profiles fs' = Ok (mkVersioned 8 (chars "mine")).
Proof.
  pose proof (write_if_unchanged_exact 420 1 profiles 7 (chars "mine") (fun fs => fs) (on_disk 7 (chars "old")) (mkVersioned 7 (chars "old"))
    ltac:(repeat (constructor; [left; vm_compute; split; [discriminate|reflexivity]|]); constructor)
    ltac:(vm_compute; reflexivity) ltac:(vm_compute; split; [discriminate|reflexivity])) as Hk.
  destruct (write_if_unchanged _ _ _ _ _ _ _ _) as [fs' r]. destruct Hk as (_ & Hs & _). by apply Hs.
Defined.

Definition two_edits (i : nat) : str -> str := if decide (i = 0%nat) then add_line "first" else add_line "second".

Lemma no_lost_update_witness :
  exists u y', steps 420 (fun i => Z.of_nat i) profiles two_edits (start ∅ 2) ([] ++ u) y' /\ [] ++ u ≡ₚ seq 0 2 /\
    read profiles (disk y') = Ok (mkVersioned (0 + Z.of_nat 2) (apply_edits two_edits ([] ++ u) [])).
Proof.
  assert (Hsc : forall i b, Forall scalar b -> Forall scalar (two_edits i b))
    by (intros i b Hb; unfold two_edits; case_decide; by apply add_line_scalar).
  destruct (no_lost_update 420 (fun i => Z.of_nat i) profiles two_edits Hsc 2 0 [] ∅ [] (start ∅ 2)
    ltac:(vm_compute; discriminate) ltac:(vm_compute; reflexivity) (steps_none _ _ _ _ _)) as (_ & _ & _ & Hk).
  exact Hk.
Defined.

(** ** Where the comments promise more *)

(** The name of a conflict file is made of the versions and the process only: a
    second rejected edit of the same process replaces the first. *)
Lemma second_conflict_replaces_first :
  let fs := on_disk 2 (chars "current") in
  let '(fs1, r1) := write_if_unchanged 420 1 profiles 1 (chars "first edit") (fun fs => fs) None fs in
  let '(fs2, r2) := write_if_unchanged 420 1 profiles 1 (chars "second edit") (fun fs => fs) None fs1 in
  exists c, r1 = Err (Conflict (path_of profiles) 1 2 c) /\ r2 = Err (Conflict (path_of profiles) 1 2 c) /\
    content <$> fs1 !! c = Some (render 1 (chars "first edit")) /\
    content <$> fs2 !! c = Some (render 1 (chars "second edit")).
Proof. eexists. vm_compute. repeat split. Qed.

(** [write_if_unchanged] leaves a lock file it creates with the mode of the umask. *)
Lemma lock_file_not_private :
  let '(fs', r) := write_if_unchanged 420 1 profiles 0 (chars "first") (fun fs => fs) None ∅ in
  r = Ok 1 /\ is_user_only <$> fs' !! lock_path profiles = Some false.
Proof. vm_compute. repeat split. Qed.

(** A file at the largest version wraps to version 0. *)
Lemma version_wraps :
  (update 420 1 profiles (fun b => b) (fun fs => fs) (fun fs => fs) None (on_disk u64_max (chars "x"))).2 = Ok 0.
Proof. vm_compute. reflexivity. Qed.

(** What a program that ignores the lock writes after the second read is replaced,
    with no conflict: the check of the version comes before the write. *)
Lemma late_write_lost :
  let '(fs', r) := update 420 1 profiles (add_line "mine") (fun fs => fs) (fun _ => on_disk 8 (chars "theirs")) None
                     (on_disk 7 (chars "old")) in
  r = Ok 8 /\ read profiles fs' = Ok (mkVersioned 8 (chars "oldmine" ++ [10])).
Proof. vm_compute. by split. Qed.

(** * Access lists of Windows ([perms.rs])

    What [restrict] writes and how [is_user_only] judges the text of an access
    list.  The system's own spelling of an account, and the texts it returns, are
    arguments. *)

(** [restrict]: protected, one acl_entry, full access for one account. *)
Definition sddl_for (sid : str) : str := chars "D:P(A;;FA;;;" ++ sid ++ chars ")".

(** The account acl_field of an acl_entry: up to the first closing bracket, the sixth
    acl_field. *)
Definition ace_trustee (ace : str) : option str :=
  match split_on 41 ace with
  | s :: _ => split_on 59 s !! 5%nat
  | [] => None
  end.

(** [canonical_trustee], of the text the system gives for [sddl_for]. *)
Definition canonical_of (s : str) : option str := split_on 40 s !! 1%nat ≫= ace_trustee.

(** [is_user_only], of the three texts. *)
Definition judge_acl (sddl sid canonical : str) : bool :=
  let protected := bool_decide (is_Some (strip_prefix (chars "D:P") sddl)) in
  let aces := drop 1 (split_on 40 sddl) in
  let only_me := negb (bool_decide (aces = []))
    && forallb (fun a => match ace_trustee a with
                         | Some who => bool_decide (who = sid \/ who = canonical)
                         | None => false
                         end) aces in
  protected && only_me.

Section System.
(** The system's texts: of the list of a file, and of a list it is given. *)
Context (current_user_sid : option str) (sddl_of : option str) (respell : str -> option str).

Definition canonical_trustee (sid : str) : option str := respell (sddl_for sid) ≫= canonical_of.

Definition acl_user_only : option bool :=
  sddl ← sddl_of;
  sid ← current_user_sid;
  canonical ← canonical_trustee sid;
  Some (judge_acl sddl sid canonical).
End System.

(** ** Access lists as their entries *)

(** An acl_entry is its fields; a text has a prefix of flags and its entries. *)
Definition acl_field (f : str) : Prop := Forall (fun c => c <> 40 /\ c <> 41 /\ c <> 59) f.
Definition acl_entry (e : list str) : Prop := e <> [] /\ Forall acl_field e.
Definition acl_entry_text (e : list str) : str := chars "(" ++ join [59] e ++ chars ")".
Definition sddl_text (flags : str) (es : list (list str)) : str := chars "D:" ++ flags ++ concat (map acl_entry_text es).

Lemma field_absent c f : c = 40 \/ c = 41 \/ c = 59 -> acl_field f -> (c ∉ f).
Proof. unfold acl_field. rewrite Forall_forall. intros Hc Hf H. specialize (Hf c H). lia. Qed.

Lemma entry_absent c e : c = 40 \/ c = 41 -> acl_entry e -> (c ∉ join [59] e).
Proof.
  intros Hc [_ He]. apply join_avoids; [lia|]. eapply Forall_impl; [exact He|].
  intros f. apply field_absent. lia.
Qed.

Lemma ace_trustee_entry e : acl_entry e -> ace_trustee (join [59] e ++ [41]) = e !! 5%nat.
Proof.
  intros He. unfold ace_trustee. rewrite (split_on_app 41 _ []) by (apply entry_absent; [lia|done]).
  destruct He as [Hn He]. rewrite split_on_join; [done| |done].
  eapply Forall_impl; [exact He|]. intros f. apply field_absent. lia.
Qed.

Lemma split_entries pre es : (40 ∉ pre) -> Forall acl_entry es ->
  split_on 40 (pre ++ concat (map acl_entry_text es)) = pre :: map (fun e => join [59] e ++ [41]) es.
Proof.
  intros Hp He. revert pre Hp. induction He as [|e es He _ IH]; intros pre Hp; cbn [map concat].
  - rewrite app_nil_r. by apply split_on_single.
  - unfold acl_entry_text at 1. change (chars "(") with [40]. change (chars ")") with [41]. rewrite <- !app_assoc.
    cbn [app]. rewrite split_on_app by done. f_equal.
    change (join [59] e ++ 41 :: concat (map acl_entry_text es)) with (join [59] e ++ [41] ++ concat (map acl_entry_text es)).
    rewrite app_assoc. apply IH. rewrite not_elem_of_app. split; [apply entry_absent; [lia|done]|by intros ?%list_elem_of_singleton].
Qed.

(** The entry names the account, under either spelling. *)
Definition names_user (sid canonical : str) (e : list str) : Prop := e !! 5%nat = Some sid \/ e !! 5%nat = Some canonical.

Lemma judge_acl_exact flags es sid canonical : (40 ∉ flags) -> Forall acl_entry es ->
  judge_acl (sddl_text flags es) sid canonical = true <->
  head flags = Some 80 /\ es <> [] /\ Forall (names_user sid canonical) es.
Proof.
  intros Hf He. unfold names_user, judge_acl, sddl_text. rewrite app_assoc, split_entries; [|by rewrite not_elem_of_app; split; [vm_compute; set_solver|]|done].
  cbn [drop]. rewrite !andb_true_iff, negb_true_iff, bool_decide_eq_true, bool_decide_eq_false.
  assert (is_Some (strip_prefix (chars "D:P") ((chars "D:" ++ flags) ++ concat (map acl_entry_text es))) <-> head flags = Some 80) as ->.
  { change (chars "D:P") with [68; 58; 80]. change (chars "D:") with [68; 58]. cbn [app strip_prefix].
    rewrite !decide_True by done. destruct flags as [|c flags]; cbn [app head].
    - destruct es as [|e es]; [by split; [intros []|]|]. cbn. by split; [intros []|].
    - case_decide as E; [subst c; split; [done|intros _; by eexists]|].
      split; [by intros []|intros [= E']; congruence]. }
  assert ((map (fun e => join [59] e ++ [41]) es <> []) <-> es <> []) as -> by (by destruct es).
  rewrite forallb_forall, Forall_forall. setoid_rewrite in_map_iff.
  do 2 apply and_iff_compat_l. rewrite Forall_forall in He. split.
  - intros H e Hi. specialize (H _ (ex_intro _ e (conj eq_refl (proj1 (list_elem_of_In _ _) Hi)))).
    rewrite ace_trustee_entry in H by auto. destruct (e !! 5%nat); [|done]. apply bool_decide_eq_true in H. naive_solver.
  - intros H a (e&<-&Hi%list_elem_of_In). rewrite ace_trustee_entry by auto.
    destruct (H e Hi) as [-> | ->]; apply bool_decide_eq_true; auto.
Qed.

(** The kinds of entry that allow: plain, of an object, conditional, and both. *)
Definition allows (e : list str) : Prop := head e ∈ (fun k => Some (chars k)) <$> ["A"; "OA"; "XA"; "ZA"]%string.

(** What the comment promises: the list inherits nothing, is not empty, and every
    entry that allows names the user. *)
Definition only_the_user (flags : str) (es : list (list str)) (sid canonical : str) : Prop :=
  head flags = Some 80 /\ es <> [] /\ Forall (fun e => allows e -> names_user sid canonical e) es.



(** An entry that only denies, of another account, is judged as one that allows. *)
Lemma denial_refused :
  let sid := chars "S-1-5-21" in
  let es := [chars <$> ["D"; ""; "FA"; ""; ""; "WD"]%string; chars <$> ["A"; ""; "FA"; ""; ""; "S-1-5-21"]%string] in
  only_the_user (chars "P") es sid sid /\ judge_acl (sddl_text (chars "P") es) sid sid = false.
Proof.
  cbv zeta. split; [|by vm_compute]. split_and!; [done|done|].
  apply Forall_cons. split; [|apply Forall_cons; split; [by left|done]].
  unfold allows. cbn. rewrite !elem_of_cons, elem_of_nil. intros Ha. exfalso. naive_solver.
Qed.

(** A file just restricted is judged to be the user's alone, however the system
    spells the account, when it spells it the same way twice. *)
Lemma restricted_is_user_only sid flags flags' e e' who respell :
  (40 ∉ flags) -> (40 ∉ flags') -> acl_entry e -> acl_entry e' -> e !! 5%nat = Some who -> e' !! 5%nat = Some who ->
  respell (sddl_for sid) = Some (sddl_text flags' [e']) ->
  acl_user_only (Some sid) (Some (sddl_text (80 :: flags) [e])) respell = Some true.
Proof.
  intros Hf Hf' He He' Hw Hw' Hr. unfold acl_user_only, canonical_trustee. cbn [mbind option_bind]. rewrite Hr. cbn [mbind option_bind].
  assert (canonical_of (sddl_text flags' [e']) = Some who) as ->.
  { unfold canonical_of, sddl_text. rewrite app_assoc, split_entries by
      (first [by rewrite not_elem_of_app; split; [vm_compute; set_solver|] | by apply Forall_singleton]).
    cbn [map lookup list_lookup mbind option_bind]. by rewrite ace_trustee_entry. }
  cbn [mbind option_bind]. f_equal. apply judge_acl_exact.
  - by apply not_elem_of_cons.
  - by apply Forall_singleton.
  - split_and!; [done|done|]. constructor; [by right|constructor].
Qed.

(** What is written is an acl_entry for the account and nothing else. *)
Lemma sddl_for_entry sid : sddl_for sid = sddl_text (chars "P") [(chars <$> ["A"; ""; "FA"; ""; ""]%string) ++ [sid]].
Proof. unfold sddl_for, sddl_text, acl_entry_text. cbn [map concat]. by rewrite app_nil_r. Qed.
