(* ===== verification/F64.v ===== *)
(** * Binary64 numbers

    The [f64] arithmetic the ranking of the purpose search computes with: the
    Standard Library's executable specification of IEEE 754 ([SpecFloat]) at 53
    bits of precision, round to nearest even.  [ln] is not part of it. *)

From Stdlib Require Export Floats.SpecFloat.
From S2P Require Import Prelude Ordered.

Abbreviation f64 := spec_float.

#[export] Instance f64_eq_dec : EqDecision f64.
Proof. solve_decision. Defined.

(** [n as f64]. *)
Definition of_int (n : Z) : f64 := binary_normalize 53 1024 n 0 false.
(** A decimal literal [n / 10]. *)
Definition tenths (n : Z) : f64 := SFdiv 53 1024 (of_int n) (of_int 10).

Definition fadd : f64 -> f64 -> f64 := SFadd 53 1024.
Definition fmul : f64 -> f64 -> f64 := SFmul 53 1024.
Definition fdiv : f64 -> f64 -> f64 := SFdiv 53 1024.
Definition fsqrt : f64 -> f64 := SFsqrt 53 1024.
Definition zero : f64 := S754_zero false.
Definition one : f64 := of_int 1.

(** [f64::max]: a NaN gives way to the other. *)
Definition fmax (x y : f64) : f64 :=
  match SFcompare x y with
  | None => match x with S754_nan => y | _ => x end
  | Some Lt => y
  | Some _ => x
  end.
(** [<=] and [>]. *)
Definition fle (x y : f64) : bool :=
  match SFcompare x y with Some Lt | Some Eq => true | _ => false end.
Definition fgt (x y : f64) : bool := match SFcompare x y with Some Gt => true | _ => false end.

Definition is_nan (x : f64) : bool := match x with S754_nan => true | _ => false end.

(** ** The order, on numbers

    A number's place: its side of zero, then exponent and mantissa. *)

Definition place (x : f64) : Z * Z * Z :=
  match x with
  | S754_infinity true => (-2, 0, 0)
  | S754_finite true m e => (-1, - e, - Z.pos m)
  | S754_zero _ | S754_nan => (0, 0, 0)
  | S754_finite false m e => (1, e, Z.pos m)
  | S754_infinity false => (2, 0, 0)
  end.

Definition place_cmp (p q : Z * Z * Z) : comparison :=
  match p.1.1 ?= q.1.1 with
  | Eq => match p.1.2 ?= q.1.2 with Eq => p.2 ?= q.2 | c => c end
  | c => c
  end.

Lemma compare_place x y : is_nan x = false -> is_nan y = false -> SFcompare x y = Some (place_cmp (place x) (place y)).
Proof.
  destruct x as [?|[]| |[] m e], y as [?|[]| |[] m' e']; intros Hx Hy; try done; unfold place_cmp; cbn.
  f_equal. rewrite !Z.compare_opp, (Z.compare_antisym e e').
  destruct (e ?= e'); cbn; try done. change (Pos.compare_cont Eq m m') with (m ?= m')%positive.
  by rewrite (Pos.compare_antisym m m').
Qed.

Lemma place_cmp_le p q : place_cmp p q <> Gt <->
  p.1.1 < q.1.1 \/ (p.1.1 = q.1.1 /\ (p.1.2 < q.1.2 \/ (p.1.2 = q.1.2 /\ p.2 <= q.2))).
Proof.
  unfold place_cmp. destruct (Z.compare_spec p.1.1 q.1.1); [|split; [lia|done]|split; [done|lia]].
  destruct (Z.compare_spec p.1.2 q.1.2); [|split; [lia|done]|split; [done|lia]].
  destruct (Z.compare_spec p.2 q.2); split; try done; lia.
Qed.

Lemma place_cmp_eq p q : place_cmp p q = Eq <-> p = q.
Proof.
  destruct p as [[a b] c], q as [[a' b'] c']. unfold place_cmp. cbn.
  destruct (Z.compare_spec a a'); [|split; [done|intros [= ]; lia]..].
  destruct (Z.compare_spec b b'); [|split; [done|intros [= ]; lia]..].
  rewrite Z.compare_eq_iff. split; [by intros ->; subst|by intros [=]].
Qed.

Lemma place_cmp_antisym p q : place_cmp q p = CompOpp (place_cmp p q).
Proof.
  unfold place_cmp. rewrite (Z.compare_antisym p.1.1 q.1.1), (Z.compare_antisym p.1.2 q.1.2), (Z.compare_antisym p.2 q.2).
  destruct (p.1.1 ?= q.1.1), (p.1.2 ?= q.1.2); done.
Qed.
