(* ===== verification/Find.v ===== *)
(** * Purpose search ([pr-intelligence/src/find.rs])

    Two rankings of the commands, by the concepts a query means and by the text
    of known phrases, and their fusion by rank.  The tables are arguments
    ([Vocabulary] holds those of the repository); so are the Unicode lower-case
    mapping and the natural logarithm.  [concepts_of] is [None] where a slice of
    the marks would be out of range and the code panics. *)

From S2P Require Import Prelude Text Ordered F64.

Abbreviation Concept := str.

Record Term := mkTerm { text : str; term_concepts : list Concept }.
Record Purpose := mkPurpose { p_command : str; p_concepts : list Concept }.

Definition DEPRECATED : Concept := chars "deprecated".

Definition CONTAINERS : list Concept :=
  [chars "string"; chars "hash"; chars "list"; chars "set"; chars "sortedset"; chars "bitmap"; chars "geo";
   chars "hyperloglog"; chars "pubsub"; chars "transaction"].

(** What is needed, what follows, and whether the needed concepts are removed. *)
Record Implication := mkImplication { needs : list Concept; follows : Concept; consumes : bool }.

Record Hit := mkHit { command : str; score : f64; matched : list Concept }.

Record Finder := mkFinder {
  by_concept : gmap Concept (list (str * Z));
  superseded : gset str;
  containers_of : gmap str (list Concept);
  weight_of : gmap str f64;
  terms : list Term;
  commands : Z;
  phrases : list (Z * Z);
  postings : gmap Z (list Z);
  phrase_commands : list str;
}.

(** The elements of a [BTreeSet] and the keys of a [BTreeMap], in their order. *)
Definition set_keys (s : gset str) : list str := sort_by lex_le (elements s).
Definition num_le (x y : Z) : bool := bool_decide (x <= y).
Definition num_set (s : gset Z) : list Z := sort_by num_le (elements s).
Definition num_keys {A} (m : gmap Z A) : list Z := sort_by num_le (map_to_list m).*1.

(** [map.entry(k).or_insert(d)] changed by [f]. *)
Definition upsert {K A} `{Countable K} (k : K) (d : A) (f : A -> A) (m : gmap K A) : gmap K A :=
  <[k := f (default d (m !! k))]> m.

Definition inverse (n : Z) : f64 := fdiv one (fadd one (of_int n)).

(** ** Building the index *)

(** One concept of a purpose; the rank counts those that are not [DEPRECATED]. *)
Definition index_concept (cmd : str) (st : Finder * Z) (c : Concept) : Finder * Z :=
  let '(x, rank) := st in
  if decide (c = DEPRECATED) then
    (mkFinder (by_concept x) ({[cmd]} ∪ superseded x) (containers_of x) (weight_of x) (terms x) (commands x)
              (phrases x) (postings x) (phrase_commands x), rank)
  else
    (mkFinder (upsert c [] (fun l => l ++ [(cmd, rank)]) (by_concept x)) (superseded x)
              (if decide (c ∈ CONTAINERS) then upsert cmd [] (fun l => l ++ [c]) (containers_of x) else containers_of x)
              (upsert cmd zero (fun w => fadd w (inverse rank)) (weight_of x))
              (terms x) (commands x) (phrases x) (postings x) (phrase_commands x), rank + 1).

Definition index_purpose (x : Finder) (p : Purpose) : Finder :=
  (foldl (index_concept (p_command p)) (x, 0) (p_concepts p)).1.

(** Longer terms first, in the order given among equals. *)
Definition longer (a b : Term) : bool := bool_decide (length (text b) <= length (text a))%nat.

Definition from_parts (ts : list Term) (ps : list Purpose) : Finder :=
  foldl index_purpose (mkFinder ∅ ∅ ∅ ∅ (sort_by longer ts) (zlen ps) [] ∅ []) ps.

Definition len (x : Finder) : Z := commands x.
Definition is_empty (x : Finder) : bool := bool_decide (commands x = 0).

(** ** Grams *)

Definition hash_gram (s : str) : Z :=
  foldl (fun h b => (Z.lxor h (bz b) * 16777619) mod 2 ^ 32) 2166136261 (encode_str s).

Definition is_cjk (c : Z) : bool :=
  bool_decide (19968 <= c <= 40959) || bool_decide (13312 <= c <= 19903) || bool_decide (63744 <= c <= 64255).

Definition is_ascii_alnum (c : Z) : bool :=
  bool_decide (48 <= c <= 57) || bool_decide (65 <= c <= 90) || bool_decide (97 <= c <= 122).

Definition flush_latin (buf : str) (out : gset Z) : gset Z :=
  if decide (2 <= length buf)%nat then
    let out' := {[hash_gram buf]} ∪ out in
    if decide (5 < length buf)%nat then {[hash_gram (take 5 buf)]} ∪ out' else out'
  else out.

Fixpoint windows2 (buf : str) : list str :=
  match buf with
  | a :: r => match r with b :: _ => [a; b] :: windows2 r | [] => [] end
  | [] => []
  end.
Definition flush_cjk (buf : str) (out : gset Z) : gset Z :=
  let out' := match buf with [c] => {[hash_gram [c]]} ∪ out | _ => out end in
  foldl (fun o w => {[hash_gram w]} ∪ o) out' (windows2 buf).

(** The loop over the characters: the two pending runs and the grams so far. *)
Fixpoint gram_loop (s latin cjk : str) (out : gset Z) : gset Z :=
  match s with
  | [] => flush_cjk cjk (flush_latin latin out)
  | ch :: r =>
      if is_ascii_alnum ch then gram_loop r (latin ++ [ch]) [] (flush_cjk cjk out)
      else if is_cjk ch then gram_loop r [] (cjk ++ [ch]) (flush_latin latin out)
      else gram_loop r [] [] (flush_cjk cjk (flush_latin latin out))
  end.

Section Search.
Context (to_lowercase : str -> str) (ln : f64 -> f64).

Definition grams (s : str) : gset Z := gram_loop (to_lowercase s) [] [] ∅.

(** One phrase: its command's number, its postings and its row. *)
Definition index_phrase (st : gmap str Z * Finder) (row : str * str) : gmap str Z * Finder :=
  let '(index_of, x) := st in
  let '(cmd, phrase) := row in
  let next := Z.min (zlen (phrase_commands x)) u16_max in
  let '(cid, index_of', cmds) := match index_of !! cmd with
                                 | Some i => (i, index_of, phrase_commands x)
                                 | None => (next, <[cmd := next]> index_of, phrase_commands x ++ [cmd])
                                 end in
  let g := grams phrase in
  let pid := Z.min (zlen (phrases x)) u32_max in
  (index_of',
   mkFinder (by_concept x) (superseded x) (containers_of x) (weight_of x) (terms x) (commands x)
            (phrases x ++ [(cid, Z.min (Z.of_nat (size g)) u16_max)])
            (foldl (fun m k => upsert k [] (fun l => l ++ [pid]) m) (postings x) (num_set g))
            cmds).

Definition with_phrases (x : Finder) (rows : list (str * str)) : Finder :=
  (foldl index_phrase
     (∅, mkFinder (by_concept x) (superseded x) (containers_of x) (weight_of x) (terms x) (commands x) [] ∅ []) rows).2.

(** ** What a query mentions *)

Definition is_word_boundary (cs : str) (at_ len : nat) : bool :=
  let first := default 0 (cs !! at_) in
  let last := default 0 (cs !! (at_ + len - 1)%nat) in
  let start_ok := negb (is_ascii_alnum first) || bool_decide (at_ = 0%nat) ||
                  negb (is_ascii_alnum (default 0 (cs !! (at_ - 1)%nat))) in
  let end_ok := negb (is_ascii_alnum last) || bool_decide (at_ + len = length cs)%nat ||
                negb (is_ascii_alnum (default 0 (cs !! (at_ + len)%nat))) in
  start_ok && end_ok.

(** [consumed[from..to].iter().any()]: [None] out of range. *)
Definition any_consumed (consumed : list bool) (from upto : nat) : option bool :=
  if decide (upto <= length consumed)%nat then Some (existsb (fun b => b) (take (upto - from) (drop from consumed)))
  else None.

Definition mark (consumed : list bool) (from upto : nat) : option (list bool) :=
  if decide (upto <= length consumed)%nat
  then Some (take from consumed ++ replicate (upto - from) true ++ drop upto consumed)
  else None.

Definition plural_suffix (s : str) : bool := bool_decide (s ∈ [[]; chars "s"; chars "es"]).

(** One round of the loop over the suffixes: the longest match so far. *)
Definition try_extra (cs : str) (consumed : list bool) (at_ tl extra best : nat) : option nat :=
  let upto := (at_ + tl + extra)%nat in
  if decide (length cs < upto)%nat then Some best
  else if plural_suffix (take extra (drop (at_ + tl) cs)) then
    any ← any_consumed consumed at_ upto;
    Some (if negb any && is_word_boundary cs at_ (upto - at_) then (upto - at_)%nat else best)
  else Some best.

(** The length matched at a place where the term stands unconsumed. *)
Definition match_length (cs : str) (consumed : list bool) (at_ tl : nat) : option nat :=
  l0 ← try_extra cs consumed at_ tl 0 tl;
  l1 ← try_extra cs consumed at_ tl 1 l0;
  try_extra cs consumed at_ tl 2 l1.

(** One place: whether the term is found there, and the marks afterwards. *)
Definition scan_at (cs : str) (consumed : list bool) (term : str) (at_ : nat) : option (bool * list bool) :=
  if decide (take (length term) (drop at_ cs) = term) then
    any ← any_consumed consumed at_ (at_ + length term);
    if any : bool then Some (false, consumed)
    else
      l ← match_length cs consumed at_ (length term);
      if is_word_boundary cs at_ l then
        c' ← mark consumed at_ (at_ + l); Some (true, c')
      else Some (false, consumed)
  else Some (false, consumed).

Definition add_all (cs : list Concept) (found : gset Concept) : gset Concept := list_to_set cs ∪ found.

(** The places of one term, from left to right. *)
Fixpoint scan_term (cs : str) (term : str) (concepts : list Concept) (places : list nat) (found : gset Concept) (consumed : list bool)
  : option (gset Concept * list bool) :=
  match places with
  | [] => Some (found, consumed)
  | at_ :: r =>
      '(hit, consumed') ← scan_at cs consumed term at_;
      scan_term cs term concepts r (if hit : bool then add_all concepts found else found) consumed'
  end.

Fixpoint scan_terms (cs : str) (ts : list Term) (found : gset Concept) (consumed : list bool) : option (gset Concept) :=
  match ts with
  | [] => Some found
  | t :: r =>
      let term := to_lowercase (text t) in
      if decide (term = [] \/ (length cs < length term)%nat) then scan_terms cs r found consumed
      else
        '(found', consumed') ← scan_term cs term (term_concepts t) (seq 0 (length cs - length term + 1)) found consumed;
        scan_terms cs r found' consumed'
  end.

Definition concepts_of (x : Finder) (query : str) : option (gset Concept) :=
  scan_terms (to_lowercase query) (terms x) ∅ (replicate (length query) false).

(** ** The ranking by concepts *)

(** One rule, applied if it adds something. *)
Definition imply (st : gset Concept * bool) (r : Implication) : gset Concept * bool :=
  let '(cs, added) := st in
  if bool_decide (follows r ∉ cs) && forallb (fun n => bool_decide (n ∈ cs)) (needs r) then
    let cs' := {[follows r]} ∪ cs in
    (if consumes r then foldl (fun s n => s ∖ {[n]}) cs' (needs r) else cs', true)
  else (cs, added).

(** At most [rounds] passes over the rules, ending after one that adds nothing. *)
Fixpoint apply_implications (rules : list Implication) (rounds : nat) (cs : gset Concept) : gset Concept :=
  match rounds with
  | O => cs
  | S k => let '(cs', added) := foldl imply (cs, false) rules in
           if added : bool then apply_implications rules k cs' else cs'
  end.

Abbreviation Score := (f64 * list Concept * f64)%type.

Definition add_score (c : Concept) (rarity : f64) (m : gmap str Score) (e : str * Z) : gmap str Score :=
  let '(cmd, rank) := e in
  let position := inverse rank in
  upsert cmd (zero, [], zero) (fun s => (fadd s.1.1 (fmul rarity position), s.1.2 ++ [c], fadd s.2 position)) m.

Definition score_concept (x : Finder) (m : gmap str Score) (c : Concept) : gmap str Score :=
  match by_concept x !! c with
  | None => m
  | Some cmds => foldl (add_score c (fdiv one (fsqrt (of_int (zlen cmds))))) m cmds
  end.

Definition concept_hit (x : Finder) (concepts : gset Concept) (cmd : str) (s : Score) : Hit :=
  let '(raw, found, weight) := s in
  let asked := fdiv (of_int (zlen found)) (of_int (Z.of_nat (size concepts))) in
  let mine := fsqrt (fdiv weight (default one (weight_of x !! cmd))) in
  let currency := if bool_decide (cmd ∈ superseded x) && bool_decide (DEPRECATED ∉ concepts) then tenths 7 else one in
  let asked_containers := filter (fun c => c ∈ concepts) CONTAINERS in
  let family :=
    if decide (asked_containers = []) then one
    else match default [] (containers_of x !! cmd) with
         | [] => tenths 6
         | l => if existsb (fun c => bool_decide (c ∈ asked_containers)) l then one else tenths 2
         end in
  mkHit cmd (fmul (fmul (fmul (fmul raw asked) mine) currency) family) found.

(** Higher scores first, then by name; scores that do not compare are equal. *)
Definition hit_le (a b : Hit) : bool :=
  match SFcompare (score b) (score a) with
  | Some Lt => true
  | Some Gt => false
  | Some Eq | None => lex_le (command a) (command b)
  end.

(** One hit per entry of a [BTreeMap], in its order. *)
Definition hits_of {A} (f : str -> A -> Hit) (m : gmap str A) : list Hit := omap (fun k => f k <$> (m !! k)) (keys m).

Definition rank_concepts (x : Finder) (rules : list Implication) (mentioned : gset Concept) : list Hit :=
  if decide (mentioned = ∅) then []
  else
    let concepts := apply_implications rules 4 mentioned in
    let scores := foldl (score_concept x) ∅ (set_keys concepts) in
    sort_by hit_le (hits_of (concept_hit x concepts) scores).

Definition rank_by_concept (x : Finder) (rules : list Implication) (query : str) : option (list Hit) :=
  rank_concepts x rules <$> concepts_of x query.

(** ** The ranking by phrases *)

Definition idf (n : f64) (df : Z) : f64 := fmax (ln (fdiv n (fadd one (of_int df)))) zero.

Definition match_gram (x : Finder) (n : f64) (st : gmap Z f64 * f64) (k : Z) : gmap Z f64 * f64 :=
  let '(m, w) := st in
  let posting := postings x !! k in
  let i := idf n (zlen (default [] posting)) in
  (foldl (fun m pid => upsert pid zero (fun s => fadd s i) m) m (default [] posting), fadd w i).

Definition phrase_score (x : Finder) (query_weight : f64) (best : gmap str f64) (e : Z * f64) : gmap str f64 :=
  let '(pid, num) := e in
  match phrases x !! Z.to_nat pid with
  | None => best
  | Some (cid, len) =>
      match phrase_commands x !! Z.to_nat cid with
      | None => best
      | Some cmd =>
          let s := fmul (fdiv num query_weight) (fdiv num (fadd num (fsqrt (of_int len)))) in
          upsert cmd zero (fun e => if fgt s e then s else e) best
      end
  end.

Definition rank_by_phrase (x : Finder) (query : str) : list Hit :=
  if decide (phrases x = []) then []
  else
    let q := grams query in
    if decide (q = ∅) then []
    else
      let n := of_int (zlen (phrases x)) in
      let '(m, query_weight) := foldl (match_gram x n) (∅, zero) (num_set q) in
      if fle query_weight zero then []
      else
        let best := foldl (phrase_score x query_weight) ∅ (omap (fun pid => pair pid <$> m !! pid) (num_keys m)) in
        take 32 (sort_by hit_le (hits_of (fun k s => mkHit k s []) best)).

(** ** Fusion *)

Definition fuse_one (keep_matched : bool) (acc : gmap str (f64 * list Concept)) (e : nat * Hit) : gmap str (f64 * list Concept) :=
  let '(rank, h) := e in
  upsert (command h) (zero, [])
    (fun s => (fadd s.1 (fdiv one (fadd (of_int 12) (of_int (Z.of_nat rank)))), if keep_matched then matched h else s.2)) acc.

Definition enumerate {A} (l : list A) : list (nat * A) := imap pair l.

Definition fuse (a b : list Hit) (limit : nat) : list Hit :=
  let acc := foldl (fuse_one false) (foldl (fuse_one true) ∅ (enumerate a)) (enumerate b) in
  take limit (sort_by hit_le (hits_of (fun k s => mkHit k s.1 s.2) acc)).

(** [None] where [concepts_of] panics. *)
Definition search (x : Finder) (rules : list Implication) (query : str) (limit : nat) : option (list Hit) :=
  a ← rank_by_concept x rules query;
  let b := rank_by_phrase x query in
  Some (if decide (b = []) then take limit a
        else if decide (a = []) then take limit b
        else fuse a b limit).

End Search.
