(* ===== verification/FindFacts.v ===== *)
(** * What the purpose search promises

    The concepts found are in the query; every hit is a command of the tables,
    once, with the concepts that led to it; the order of hits; and a checker that
    decides, for a table of implications, whether the passes over it reach a
    fixed point ([settles]). *)

From S2P Require Import Prelude Text TextFacts Lines Ordered F64 Find.

(** ** Maps filled by [upsert] *)

Lemma upsert_eq {K A} `{Countable K} (k : K) (d : A) f m : upsert k d f m !! k = Some (f (default d (m !! k))).
Proof. unfold upsert. by rewrite lookup_insert_eq. Qed.

Lemma upsert_ne {K A} `{Countable K} (k k' : K) (d : A) f m : k <> k' -> upsert k d f m !! k' = m !! k'.
Proof. intros Hn. unfold upsert. by rewrite lookup_insert_ne. Qed.

Lemma take_elem {A} n (l : list A) x : x ∈ take n l -> x ∈ l.
Proof. intros Hx. rewrite <- (take_drop n l). apply elem_of_app. by left. Qed.

Lemma take_nodup {A B} (f : A -> B) n (l : list A) : NoDup (f <$> l) -> NoDup (f <$> take n l).
Proof. intros Hn. rewrite <- (take_drop n l), fmap_app in Hn. by apply NoDup_app in Hn as [Hn _]. Qed.

(** ** The concepts of a query *)

Section Concepts.
Context (to_lowercase : str -> str).

(** A term stands at a place: its text, possibly with a plural suffix, between
    word boundaries. *)
Definition stands (cs term : str) (at_ : nat) : Prop :=
  take (length term) (drop at_ cs) = term /\
  exists extra, (extra <= 2)%nat /\ (at_ + (length term + extra) <= length cs)%nat /\
    plural_suffix (take extra (drop (at_ + length term) cs)) = true /\
    is_word_boundary cs at_ (length term + extra) = true.

Lemma try_extra_spec cs consumed at_ tl extra best l : try_extra cs consumed at_ tl extra best = Some l ->
  l = best \/ (l = (tl + extra)%nat /\ (at_ + (tl + extra) <= length cs)%nat /\
               plural_suffix (take extra (drop (at_ + tl) cs)) = true).
Proof.
  unfold try_extra. case_decide as Hl; [intros [= <-]; by left|].
  destruct (plural_suffix _) eqn:E; [|intros [= <-]; by left].
  destruct (any_consumed _ _ _) as [any|]; cbn; [|done]. destruct (_ && _); intros [= <-]; [|by left].
  right. split; [lia|]. split; [lia|done].
Qed.

Lemma scan_at_stands cs consumed term at_ c' : (at_ + length term <= length cs)%nat ->
  scan_at cs consumed term at_ = Some (true, c') -> stands cs term at_.
Proof.
  intros Hlen. unfold scan_at. case_decide as Ht; [|done]. destruct (any_consumed _ _ _) as [[]|]; cbn; try done.
  destruct (match_length _ _ _ _) as [l|] eqn:El; cbn; [|done]. destruct (is_word_boundary cs at_ l) eqn:Eb; [|done].
  destruct (mark _ _ _); cbn; [|done]. intros [= <-]. split; [done|].
  unfold match_length in El. destruct (try_extra _ _ _ _ 0 _) as [la|] eqn:E0; cbn in El; [|done].
  destruct (try_extra _ _ _ _ 1 _) as [lb|] eqn:E1; cbn in El; [|done].
  assert (Hzero : l = length term -> exists extra, (extra <= 2)%nat /\ (at_ + (length term + extra) <= length cs)%nat /\
    plural_suffix (take extra (drop (at_ + length term) cs)) = true /\ is_word_boundary cs at_ (length term + extra) = true).
  { intros ->. exists 0%nat. rewrite Nat.add_0_r, take_0. repeat split; [lia|lia|done]. }
  apply try_extra_spec in El as [->|(-> & H1 & H2)]; [|by exists 2%nat].
  apply try_extra_spec in E1 as [->|(-> & H1 & H2)]; [|exists 1%nat; repeat split; auto].
  apply try_extra_spec in E0 as [->|(-> & H1 & H2)]; [by apply Hzero|]. apply Hzero. lia.
Qed.

Lemma scan_term_sound cs term concepts places found consumed found' consumed' c :
  Forall (fun p => (p + length term <= length cs)%nat) places ->
  scan_term cs term concepts places found consumed = Some (found', consumed') -> c ∈ found' ->
  c ∈ found \/ (c ∈ concepts /\ exists at_, stands cs term at_).
Proof.
  intros Hp. revert found consumed. induction Hp as [|p r Hp _ IH]; intros found consumed; cbn [scan_term].
  - intros [= <- <-]. by left.
  - destruct (scan_at cs consumed term p) as [[[] c']|] eqn:E; cbn; [| |done]; intros Hs Hc.
    + destruct (IH _ _ Hs Hc) as [Hin|Hin]; [|by right].
      unfold add_all in Hin. apply elem_of_union in Hin as [Hin%elem_of_list_to_set|Hin]; [|by left].
      right. split; [done|]. exists p. by eapply scan_at_stands.
    + by eapply IH.
Qed.

Lemma scan_terms_sound cs ts found consumed found' c :
  scan_terms to_lowercase cs ts found consumed = Some found' -> c ∈ found' ->
  c ∈ found \/ exists t at_, t ∈ ts /\ c ∈ term_concepts t /\ to_lowercase (text t) <> [] /\ stands cs (to_lowercase (text t)) at_.
Proof.
  revert found consumed. induction ts as [|t ts IH]; intros found consumed; cbn [scan_terms].
  - intros [= <-]. by left.
  - assert (Hmore : forall f k, scan_terms to_lowercase cs ts f k = Some found' -> c ∈ found' -> (c ∈ f -> c ∈ found \/
        (c ∈ term_concepts t /\ to_lowercase (text t) <> [] /\ exists at_, stands cs (to_lowercase (text t)) at_)) ->
      c ∈ found \/ exists t0 at_, t0 ∈ t :: ts /\ c ∈ term_concepts t0 /\ to_lowercase (text t0) <> [] /\
        stands cs (to_lowercase (text t0)) at_).
    { intros f k Hs Hc Hf. destruct (IH f k Hs Hc) as [H1|(t0 & a & H1 & H2)].
      - destruct (Hf H1) as [H2|(H2 & H3 & a & H4)]; [by left|]. right. exists t, a. split; [by left|]. done.
      - right. exists t0, a. split; [by right|done]. }
    case_decide as Hd; [intros Hs Hc; apply (Hmore _ _ Hs Hc); by left|].
    destruct (scan_term _ _ _ _ _ _) as [[f k]|] eqn:E; cbn; [|done]. intros Hs Hc. eapply Hmore; [done..|].
    intros Hf. eapply scan_term_sound in Hf; [|clear E|exact E].
    + destruct Hf as [Hf|[Hf Hst]]; [by left|]. right. split; [done|]. split; [|done]. intros E0. apply Hd. by left.
    + apply Forall_forall. intros p Hp%elem_of_seq. assert (~ (length _ < length _)%nat) by (intros Hlt; apply Hd; right; exact Hlt). lia.
Qed.

(** Without a longer lower case nothing is out of range. *)
Lemma scan_term_total cs term concepts places found consumed : length cs = length consumed ->
  Forall (fun p => (p + length term <= length cs)%nat) places ->
  exists found' consumed', scan_term cs term concepts places found consumed = Some (found', consumed') /\ length consumed' = length consumed.
Proof.
  intros Hl Hp. revert found consumed Hl. induction Hp as [|p r Hp _ IH]; intros found consumed Hl; cbn [scan_term].
  - by exists found, consumed.
  - assert (Hany : forall a b, (b <= length cs)%nat -> exists v, any_consumed consumed a b = Some v).
    { intros a b Hb. unfold any_consumed. rewrite decide_True by lia. by eexists. }
    assert (Hex : forall extra best, (p + best <= length cs)%nat -> exists l, try_extra cs consumed p (length term) extra best = Some l /\ (p + l <= length cs)%nat).
    { intros extra best Hb. unfold try_extra. case_decide; [by exists best|]. destruct (plural_suffix _); [|by exists best].
      destruct (Hany p (p + length term + extra)%nat ltac:(lia)) as [v ->]. cbn. destruct (_ && _); [eexists; split; [done|lia]|by exists best]. }
    assert (Hat : exists b c', scan_at cs consumed term p = Some (b, c') /\ length c' = length consumed).
    { unfold scan_at. case_decide; [|by exists false, consumed]. destruct (Hany p (p + length term)%nat ltac:(lia)) as [[] ->]; cbn; [by exists false, consumed|].
      unfold match_length. destruct (Hex 0%nat (length term) ltac:(lia)) as (l0 & -> & H0). cbn.
      destruct (Hex 1%nat l0 H0) as (l1 & -> & H1). cbn. destruct (Hex 2%nat l1 H1) as (l2 & -> & H2). cbn.
      destruct (is_word_boundary _ _ _); [|by exists false, consumed]. unfold mark. rewrite decide_True by lia. cbn.
      eexists _, _. split; [done|]. rewrite !length_app, length_take, length_replicate, length_drop. lia. }
    destruct Hat as (b & c' & -> & Hc). cbn. destruct (IH (if b then add_all concepts found else found) c' ltac:(lia)) as (f & k & -> & Hk).
    exists f, k. split; [done|lia].
Qed.

Lemma concepts_total x q : (length (to_lowercase q) = length q) -> is_Some (concepts_of to_lowercase x q).
Proof.
  intros Hl. unfold concepts_of. assert (Hc : length (to_lowercase q) = length (replicate (length q) false)) by (by rewrite length_replicate).
  revert Hc. generalize (replicate (length q) false) as consumed, (∅ : gset Concept) as found.
  induction (terms x) as [|t ts IH]; intros consumed found Hc; cbn [scan_terms]; [by eexists|].
  case_decide as Hd; [by apply IH|].
  destruct (scan_term_total (to_lowercase q) (to_lowercase (text t)) (term_concepts t)
    (seq 0 (length (to_lowercase q) - length (to_lowercase (text t)) + 1)) found consumed Hc) as (f & k & -> & Hk).
  - apply Forall_forall. intros p Hp%elem_of_seq. assert (~ (length _ < length _)%nat) by (intros Hlt; apply Hd; right; exact Hlt). lia.
  - cbn. apply IH. congruence.
Qed.

End Concepts.

(** ** What a command serves *)

Definition serves (x : Finder) (cmd : str) (c : Concept) : Prop :=
  exists l rank, by_concept x !! c = Some l /\ (cmd, rank) ∈ l.

Lemma index_concept_serves cmd0 st c0 cmd c : serves (index_concept cmd0 st c0).1 cmd c <->
  serves st.1 cmd c \/ (cmd = cmd0 /\ c = c0 /\ c0 <> DEPRECATED).
Proof.
  destruct st as [x rank]. unfold index_concept. case_decide as Hd; [unfold serves; naive_solver|].
  unfold serves. cbn [fst by_concept]. destruct (decide (c0 = c)) as [->|Hc].
  - rewrite upsert_eq. split.
    + intros (l & r & [= <-] & [Hin|[= -> ->]%list_elem_of_singleton]%elem_of_app); [|by right].
      left. destruct (by_concept x !! c) as [l|]; [by exists l, r|by apply elem_of_nil in Hin].
    + intros [(l & r & -> & Hin)|(-> & _ & _)]; eexists _, _; (split; [done|]); apply elem_of_app; [by left|by right; left].
  - rewrite upsert_ne by done. naive_solver.
Qed.

Lemma from_parts_serves ts ps cmd c : serves (from_parts ts ps) cmd c <->
  exists p, p ∈ ps /\ p_command p = cmd /\ c ∈ p_concepts p /\ c <> DEPRECATED.
Proof.
  unfold from_parts. assert (Hc : forall cmd0 cs st, serves (foldl (index_concept cmd0) st cs).1 cmd c <->
    serves st.1 cmd c \/ (cmd = cmd0 /\ c ∈ cs /\ c <> DEPRECATED)).
  { intros cmd0 cs. induction cs as [|c0 cs IH]; intros st; cbn [foldl]; [set_solver|].
    rewrite IH, index_concept_serves, elem_of_cons. naive_solver. }
  assert (Hp : forall x, serves (foldl index_purpose x ps) cmd c <->
    serves x cmd c \/ exists p, p ∈ ps /\ p_command p = cmd /\ c ∈ p_concepts p /\ c <> DEPRECATED).
  { induction ps as [|p ps IH]; intros x; cbn [foldl].
    - split; [by left|]. intros [?|(p & Hin & _)]; [done|by apply elem_of_nil in Hin].
    - rewrite IH. unfold index_purpose. rewrite Hc. cbn [fst]. setoid_rewrite elem_of_cons. naive_solver. }
  rewrite Hp. split; [|by right]. intros [(l & r & Hl & _)|?]; [|done]. cbn in Hl. by rewrite lookup_empty in Hl.
Qed.

Lemma with_phrases_index lower x rows : by_concept (with_phrases lower x rows) = by_concept x /\
  terms (with_phrases lower x rows) = terms x /\ forall cmd, cmd ∈ phrase_commands (with_phrases lower x rows) -> cmd ∈ rows.*1.
Proof.
  unfold with_phrases.
  assert (G : forall st, by_concept (foldl (index_phrase lower) st rows).2 = by_concept st.2 /\
    terms (foldl (index_phrase lower) st rows).2 = terms st.2 /\
    forall cmd, cmd ∈ phrase_commands (foldl (index_phrase lower) st rows).2 -> cmd ∈ phrase_commands st.2 \/ cmd ∈ rows.*1).
  { induction rows as [|[c p] rows IH]; intros [m y]; cbn [foldl fmap list_fmap fst]; [split; [done|split; [done|by left]]|].
    destruct (IH (index_phrase lower (m, y) (c, p))) as (H1 & H2 & H3). unfold index_phrase in *.
    destruct (m !! c) as [i|]; cbn [snd by_concept terms phrase_commands] in *; (split; [done|]); (split; [done|]); intros cmd [Hin|Hin]%H3.
    - by left.
    - right. by right.
    - apply elem_of_app in Hin as [Hin| ->%list_elem_of_singleton]; [by left|right; by left].
    - right. by right. }
  edestruct G as (H1 & H2 & H3). rewrite H1, H2. split; [done|]. split; [done|]. intros cmd [Hin|Hin]%H3; [by apply elem_of_nil in Hin|done].
Qed.

(** ** The ranking by concepts *)

(** What the scores of a set of concepts hold, of every command. *)
Definition scored (x : Finder) (cs : list Concept) (m : gmap str (f64 * list Concept * f64)) : Prop :=
  forall cmd c, (c ∈ cs /\ serves x cmd c) <-> exists s, m !! cmd = Some s /\ c ∈ s.1.2.

Lemma add_score_fold c rarity l m cmd c' :
  (exists s, foldl (add_score c rarity) m l !! cmd = Some s /\ c' ∈ s.1.2) <->
  (exists s, m !! cmd = Some s /\ c' ∈ s.1.2) \/ (c' = c /\ exists rank, (cmd, rank) ∈ l).
Proof.
  revert m. induction l as [|[k rank] l IH]; intros m; cbn [foldl].
  - split; [by left|]. intros [?|(_ & r & Hr)]; [done|by apply elem_of_nil in Hr].
  - rewrite IH. unfold add_score. destruct (decide (k = cmd)) as [->|Hk].
    + rewrite upsert_eq. split.
      * intros [(s & [= <-] & Hc)|(-> & r & Hr)]; [|right; split; [done|exists r; by right]].
        cbn in Hc. apply elem_of_app in Hc as [Hc| ->%list_elem_of_singleton]; [|right; split; [done|exists rank; by left]].
        destruct (m !! cmd) as [s|]; [left; by exists s|by apply elem_of_nil in Hc].
      * intros [(s & -> & Hc)|(-> & r & [[= ->]|Hr]%elem_of_cons)].
        -- left. eexists. split; [done|]. cbn. apply elem_of_app. by left.
        -- left. eexists. split; [done|]. cbn. apply elem_of_app. right. by left.
        -- right. split; [done|by exists r].
    + rewrite upsert_ne by done. split.
      * intros [?|(-> & r & Hr)]; [by left|right; split; [done|exists r; by right]].
      * intros [?|(-> & r & [[= <- _]|Hr]%elem_of_cons)]; [by left|done|right; split; [done|by exists r]].
Qed.

Lemma score_concepts x cs : scored x cs (foldl (score_concept x) ∅ cs).
Proof.
  assert (G : forall m cmd c, (exists s, foldl (score_concept x) m cs !! cmd = Some s /\ c ∈ s.1.2) <->
    (exists s, m !! cmd = Some s /\ c ∈ s.1.2) \/ (c ∈ cs /\ serves x cmd c)).
  { induction cs as [|c0 cs IH]; intros m cmd c; cbn [foldl].
    - split; [by left|]. intros [?|[Hin _]]; [done|by apply elem_of_nil in Hin].
    - rewrite IH. unfold score_concept. destruct (by_concept x !! c0) as [l|] eqn:E.
      + rewrite add_score_fold, elem_of_cons. unfold serves. split.
        * intros [[?|(-> & r & Hr)]|[? ?]]; [by left|right; split; [by left|by exists l, r]|right; split; [by right|done]].
        * intros [?|[[->|Hc] (l' & r & Hl & Hr)]]; [by left; left|left; right; split; [done|]|right; split; [done|by exists l', r]].
          rewrite Hl in E. injection E as ->. by exists r.
      + rewrite elem_of_cons. split; [intros [?|[? ?]]; [by left|right; split; [by right|done]]|].
        intros [?|[[->|Hc] Hs]]; [by left| |by right]. destruct Hs as (l & r & Hl & _). congruence. }
  intros cmd c. rewrite G. split; [by right|]. intros [(s & Hs & _)|?]; [by rewrite lookup_empty in Hs|done].
Qed.

Lemma hits_of_spec {A} (f : str -> A -> Hit) (m : gmap str A) : (forall k a, command (f k a) = k) ->
  NoDup (command <$> hits_of f m) /\
  forall h, h ∈ hits_of f m <-> exists k a, m !! k = Some a /\ h = f k a.
Proof.
  intros Hf. unfold hits_of. split.
  - assert (Hall : forall ks, (forall k, k ∈ ks -> is_Some (m !! k)) -> command <$> (omap (fun k => f k <$> (m !! k)) ks : list Hit) = ks).
    { induction ks as [|k ks IH]; intros Hk; [done|]. cbn [omap list_omap]. destruct (Hk k ltac:(by left)) as [a ->]. cbn.
      rewrite Hf. f_equal. apply IH. intros k' ?. apply Hk. by right. }
    rewrite Hall; [apply keys_nodup|]. intros k. apply keys_elem.
  - intros h. rewrite list_elem_of_omap. split.
    + intros (k & _ & E). destruct (m !! k) as [a|] eqn:Ea; [|done]. injection E as <-. by exists k, a.
    + intros (k & a & Ha & ->). exists k. rewrite Ha. split; [by apply keys_elem; exists a|done].
Qed.

Lemma set_keys_elem s c : c ∈ set_keys s <-> c ∈ s.
Proof. unfold set_keys. by rewrite sort_by_perm, elem_of_elements. Qed.

Lemma concept_hit_fields x cs cmd s : command (concept_hit x cs cmd s) = cmd /\ matched (concept_hit x cs cmd s) = s.1.2.
Proof. by destruct s as [[raw found] weight]. Qed.

(** A hit per command that serves something meant, with exactly what it serves. *)
Lemma rank_concepts_spec x rules mentioned :
  NoDup (command <$> rank_concepts x rules mentioned) /\
  forall h, h ∈ rank_concepts x rules mentioned ->
    forall c, c ∈ matched h <-> c ∈ apply_implications rules 4 mentioned /\ serves x (command h) c.
Proof.
  unfold rank_concepts. case_decide; [split; [constructor|by intros h ?%elem_of_nil]|].
  set (cl := apply_implications rules 4 mentioned). set (m := foldl _ _ _).
  destruct (hits_of_spec (concept_hit x cl) m) as [Hn He]; [intros; apply concept_hit_fields|].
  pose proof (score_concepts x (set_keys cl)) as Hs. fold m in Hs. split; [by rewrite sort_by_perm|].
  intros h. rewrite sort_by_perm, He. intros (k & s & Hk & ->) c. destruct (concept_hit_fields x cl k s) as [-> ->].
  rewrite <- (set_keys_elem cl), (Hs k c). split; [by exists s|]. intros (s' & Hs' & Hc). rewrite Hk in Hs'. by injection Hs' as <-.
Qed.

Lemma rank_concepts_complete x rules mentioned cmd c : mentioned <> ∅ ->
  c ∈ apply_implications rules 4 mentioned -> serves x cmd c -> cmd ∈ command <$> rank_concepts x rules mentioned.
Proof.
  intros Hm Hc Hs. unfold rank_concepts. rewrite decide_False by done. rewrite sort_by_perm.
  set (cl := apply_implications rules 4 mentioned) in *. set (m := foldl _ _ _).
  destruct (proj1 (score_concepts x (set_keys cl) cmd c)) as (s & Hk & _); [by rewrite set_keys_elem|]. fold m in Hk.
  destruct (hits_of_spec (concept_hit x cl) m) as [_ He]; [intros; apply concept_hit_fields|].
  apply list_elem_of_fmap. exists (concept_hit x cl cmd s). split; [symmetry; apply concept_hit_fields|]. apply He. by exists cmd, s.
Qed.

(** ** The ranking by phrases and the fusion *)

Lemma rank_by_phrase_spec lower ln x q :
  NoDup (command <$> rank_by_phrase lower ln x q) /\ (length (rank_by_phrase lower ln x q) <= 32)%nat /\
  forall h, h ∈ rank_by_phrase lower ln x q -> command h ∈ phrase_commands x /\ matched h = [].
Proof.
  assert (Hnil : NoDup (command <$> ([] : list Hit)) /\ (length ([] : list Hit) <= 32)%nat /\
    forall h, h ∈ ([] : list Hit) -> command h ∈ phrase_commands x /\ matched h = []).
  { split; [constructor|]. split; [cbn; lia|]. by intros h ?%elem_of_nil. }
  unfold rank_by_phrase. repeat (case_decide; [exact Hnil|]). destruct (foldl _ _ _) as [m w].
  destruct (fle w zero); [exact Hnil|]. set (best := foldl _ _ _).
  assert (Hb : forall es b, (forall cmd s, b !! cmd = Some s -> cmd ∈ phrase_commands x) ->
    forall cmd s, foldl (phrase_score x w) b es !! cmd = Some s -> cmd ∈ phrase_commands x).
  { induction es as [|[pid num] es IH]; intros b Hok; cbn [foldl]; [exact Hok|]. apply IH. unfold phrase_score.
    destruct (phrases x !! _) as [[cid l]|]; [|exact Hok]. destruct (phrase_commands x !! _) as [cmd0|] eqn:E; [|exact Hok].
    intros cmd s. destruct (decide (cmd0 = cmd)) as [->|Hn].
    - intros _. by eapply list_elem_of_lookup_2.
    - rewrite upsert_ne by done. apply Hok. }
  destruct (hits_of_spec (fun k s => mkHit k s []) best) as [Hn He]; [done|].
  assert (Hp : command <$> sort_by hit_le (hits_of (fun k s => mkHit k s []) best) ≡ₚ command <$> hits_of (fun k s => mkHit k s []) best)
    by (by rewrite sort_by_perm).
  split; [|split].
  - apply take_nodup. by rewrite Hp.
  - rewrite length_take. lia.
  - intros h Hin%take_elem. rewrite sort_by_perm in Hin. apply He in Hin as (k & s & Hk & ->).
    split; [|done]. cbn. eapply Hb; [|exact Hk]. intros cmd s'. by rewrite lookup_empty.
Qed.

(** The last entry of a command decides what it keeps. *)
Lemma fuse_fold keep es acc cmd v : foldl (fuse_one keep) acc es !! cmd = Some v ->
  (exists v0, acc !! cmd = Some v0 /\ v.2 = v0.2) \/
  (exists e, e ∈ es /\ command e.2 = cmd /\
     (if keep : bool then v.2 = matched e.2 else match acc !! cmd with Some v0 => v.2 = v0.2 | None => v.2 = [] end)).
Proof.
  revert acc. induction es as [|[r h] es IH]; intros acc; cbn [foldl]; [intros E; left; by exists v|].
  intros E. apply IH in E as [(v0 & E & Hv)|((r', h') & Hin & Hc & Hv)].
  - unfold fuse_one in E. destruct (decide (command h = cmd)) as [Hcmd|Hcmd].
    + subst cmd. rewrite upsert_eq in E. injection E as <-. right. exists (r, h). split; [by left|]. split; [done|].
      destruct keep; cbn in *; [done|]. destruct (acc !! command h) as [v0|]; done.
    + rewrite upsert_ne in E by done. left. by exists v0.
  - right. exists (r', h'). split; [by right|]. split; [done|]. destruct keep; [done|].
    unfold fuse_one in Hv. destruct (decide (command h = cmd)) as [<-|Hcmd].
    + rewrite upsert_eq in Hv. cbn in Hv. destruct (acc !! command h) as [v0|]; done.
    + by rewrite upsert_ne in Hv.
Qed.

Lemma enumerate_elem {A} (l : list A) r a : (r, a) ∈ enumerate l -> a ∈ l.
Proof.
  unfold enumerate. intros Hin. apply elem_of_lookup_imap in Hin as (i & y & [= -> ->] & Hy). by eapply list_elem_of_lookup_2.
Qed.

Lemma fuse_spec a b limit :
  NoDup (command <$> fuse a b limit) /\ (length (fuse a b limit) <= limit)%nat /\
  forall h, h ∈ fuse a b limit ->
    (exists h', h' ∈ a /\ command h' = command h /\ matched h = matched h') \/
    (exists h', h' ∈ b /\ command h' = command h /\ matched h = []).
Proof.
  unfold fuse. set (acc := foldl (fuse_one true) _ _). set (acc' := foldl (fuse_one false) _ _).
  destruct (hits_of_spec (fun k s => mkHit k s.1 s.2) acc') as [Hn He]; [done|].
  assert (Hp : command <$> sort_by hit_le (hits_of (fun k s => mkHit k s.1 s.2) acc') ≡ₚ command <$> hits_of (fun k s => mkHit k s.1 s.2) acc')
    by (by rewrite sort_by_perm).
  split; [apply take_nodup; by rewrite Hp|].
  split; [rewrite length_take; lia|]. intros h Hin%take_elem. rewrite sort_by_perm in Hin.
  apply He in Hin as (k & s & Hk & ->). cbn [command matched].
  assert (Ha : forall v, acc !! k = Some v -> exists h', h' ∈ a /\ command h' = k /\ v.2 = matched h').
  { intros v Hv. apply fuse_fold in Hv as [(v0 & Hv0 & _)|((r & h') & Hin & Hc & Hm)]; [by rewrite lookup_empty in Hv0|].
    exists h'. split; [by eapply enumerate_elem|done]. }
  apply fuse_fold in Hk as [(v0 & Hv0 & Hv)|((r & h') & Hin & Hc & Hv)].
  - left. destruct (Ha _ Hv0) as (h' & H1 & H2 & H3). exists h'. repeat split; [done..|congruence].
  - cbn in Hc, Hv. destruct (acc !! k) as [v0|] eqn:E.
    + left. destruct (Ha _ eq_refl) as (h2 & H1 & H2 & H3). exists h2. repeat split; [done..|congruence].
    + right. exists h'. split; [by eapply enumerate_elem|done].
Qed.

(** ** The order of the hits *)

Definition hit_place_le (a b : Hit) : bool :=
  match place_cmp (place (score b)) (place (score a)) with
  | Lt => true
  | Gt => false
  | Eq => lex_le (command a) (command b)
  end.

#[export] Instance hit_place_pre : TotalPre hit_place_le.
Proof.
  split; unfold hit_place_le.
  - intros x. rewrite (proj2 (place_cmp_eq _ _) eq_refl). apply le_refl.
  - intros x y. rewrite (place_cmp_antisym (place (score x)) (place (score y))). destruct (place_cmp _ _); cbn; [|by right|by left].
    apply le_total.
  - intros x y z Hxy Hyz. pose proof (place_cmp_le (place (score z)) (place (score x))) as Hle.
    assert (L1 : place_cmp (place (score y)) (place (score x)) <> Gt) by (intros E; by rewrite E in Hxy).
    assert (L2 : place_cmp (place (score z)) (place (score y)) <> Gt) by (intros E; by rewrite E in Hyz).
    destruct (place_cmp (place (score z)) (place (score x))) eqn:E; [|done|].
    + apply place_cmp_eq in E. rewrite <- E in *.
      assert (Es : place_cmp (place (score y)) (place (score z)) = Eq).
      { revert L1 L2. rewrite (place_cmp_antisym (place (score y)) (place (score z))). by destruct (place_cmp (place (score y)) (place (score z))). }
      rewrite Es in Hxy. rewrite (place_cmp_antisym (place (score y)) (place (score z))), Es in Hyz. cbn in Hyz. by eapply le_trans.
    + exfalso. rewrite place_cmp_le in L1, L2. assert (Hx : Gt <> Gt) by (apply Hle; lia). done.
Qed.

Lemma sort_by_ext {A} (le le' : A -> A -> bool) l :
  (forall x y, x ∈ l -> y ∈ l -> le x y = le' x y) -> sort_by le l = sort_by le' l.
Proof.
  induction l as [|x l IH]; intros He; [done|]. cbn [sort_by foldr]. fold (sort_by le l) (sort_by le' l).
  rewrite IH by (intros; apply He; by right).
  assert (Hs : forall y, y ∈ sort_by le' l -> le x y = le' x y).
  { intros y Hy. rewrite sort_by_perm in Hy. apply He; [by left|by right]. }
  revert Hs. generalize (sort_by le' l) as r. clear IH He. induction r as [|y r IHr]; intros Hs; [done|].
  cbn [insert_by]. rewrite Hs by left.
  case_match; [done|]. f_equal. apply IHr. intros z Hz. apply Hs. by right.
Qed.

(** Hits whose scores are numbers come best first, ties by name. *)
Lemma hits_sorted l : Forall (fun h => is_nan (score h) = false) l ->
  StronglySorted (fun a b => hit_le a b = true) (sort_by hit_le l).
Proof.
  intros Hn. rewrite Forall_forall in Hn.
  assert (E : forall x y, x ∈ l -> y ∈ l -> hit_le x y = hit_place_le x y).
  { intros x y Hx Hy. unfold hit_le, hit_place_le. rewrite compare_place by auto. by destruct (place_cmp _ _). }
  rewrite (sort_by_ext hit_le hit_place_le) by done.
  pose proof (sort_by_sorted hit_place_le l) as Hs.
  assert (Hin : forall x, x ∈ sort_by hit_place_le l -> x ∈ l) by (intros x; by rewrite sort_by_perm).
  induction Hs as [|x r Hs IH Hx]; [constructor|]. constructor; [apply IH; intros; apply Hin; by right|].
  rewrite Forall_forall in Hx. apply Forall_forall. intros y Hy. rewrite E; [by apply Hx|apply Hin; by left|apply Hin; by right].
Qed.

(** ** The search *)

Lemma index_terms ps x : terms (foldl index_purpose x ps) = terms x.
Proof.
  revert x. induction ps as [|p ps IH]; intros x; cbn [foldl]; [done|]. rewrite IH. unfold index_purpose.
  assert (G : forall cs st, terms (foldl (index_concept (p_command p)) st cs).1 = terms st.1); [|by rewrite G].
  induction cs as [|c cs IHc]; intros [y r]; cbn [foldl]; [done|]. rewrite IHc. unfold index_concept. by case_decide.
Qed.

Lemma from_parts_terms ts ps : terms (from_parts ts ps) ≡ₚ ts.
Proof. unfold from_parts. rewrite index_terms. apply sort_by_perm. Qed.

(** A command scores only through a concept it serves. *)
Lemma scores_served x cs cmd s : foldl (score_concept x) ∅ cs !! cmd = Some s -> exists c, serves x cmd c.
Proof.
  intros Hs. assert (G : s.1.2 <> []); [|].
  { revert s Hs. assert (Hf : forall m, (forall s, m !! cmd = Some s -> s.1.2 <> []) -> forall s, foldl (score_concept x) m cs !! cmd = Some s -> s.1.2 <> []).
    { induction cs as [|c cs IH]; intros m Hm; cbn [foldl]; [exact Hm|]. apply IH. unfold score_concept.
      destruct (by_concept x !! c) as [l|]; [|exact Hm]. generalize (fdiv one (fsqrt (of_int (zlen l)))) as r. intros r. clear IH. revert m Hm.
      induction l as [|[k n] l IHl]; intros m Hm; cbn [foldl]; [exact Hm|]. apply IHl. intros s. unfold add_score.
      destruct (decide (k = cmd)) as [->|Hk]; [rewrite upsert_eq; intros [= <-]; cbn; by destruct (default _ _).1.2|].
      rewrite upsert_ne by done. apply Hm. }
    apply Hf. intros s. by rewrite lookup_empty. }
  destruct (s.1.2) as [|c l] eqn:E; [done|]. exists c. apply (proj2 (score_concepts x cs cmd c)). exists s. split; [done|]. rewrite E. by left.
Qed.

Lemma rank_concepts_nonempty x rules mentioned h : h ∈ rank_concepts x rules mentioned -> exists c, serves x (command h) c.
Proof.
  unfold rank_concepts. case_decide; [by intros ?%elem_of_nil|]. rewrite sort_by_perm.
  set (cl := apply_implications rules 4 mentioned). set (m := foldl _ _ _). intros Hh.
  destruct (hits_of_spec (concept_hit x cl) m) as [_ He]; [intros; apply concept_hit_fields|].
  apply He in Hh as (k & s & Hk & ->). destruct (concept_hit_fields x cl k s) as [-> _]. by eapply scores_served.
Qed.

(** C22. A search names only commands of its tables and says truly why.  For every
    table of terms, purposes, rules and phrases and every query: there are at most
    [limit] hits and no command twice; each hit's command has a purpose or a
    phrase; and every concept a hit lists is one the query means (mentioned by a
    term that stands in it, or implied) and that the tables give the command. *)
Theorem search_sound lower ln ts ps rows rules query limit hits :
  search lower ln (with_phrases lower (from_parts ts ps) rows) rules query limit = Some hits ->
  (length hits <= limit)%nat /\ NoDup (command <$> hits) /\
  exists mentioned, concepts_of lower (with_phrases lower (from_parts ts ps) rows) query = Some mentioned /\
    (forall c, c ∈ mentioned -> exists t at_, t ∈ ts /\ c ∈ term_concepts t /\
      stands (lower query) (lower (text t)) at_) /\
    forall h, h ∈ hits ->
      (command h ∈ (p_command <$> ps) \/ command h ∈ rows.*1) /\
      forall c, c ∈ matched h -> c ∈ apply_implications rules 4 mentioned /\
        exists p, p ∈ ps /\ p_command p = command h /\ c ∈ p_concepts p /\ c <> DEPRECATED.
Proof.
  destruct (with_phrases_index lower (from_parts ts ps) rows) as (Hidx & Hterms & Hcmds).
  set (x := with_phrases lower (from_parts ts ps) rows) in *. unfold search, rank_by_concept.
  destruct (concepts_of lower x query) as [mentioned|] eqn:Em; cbn; [|done]. intros Hs.
  assert (Hserves : forall cmd c, serves x cmd c <-> exists p, p ∈ ps /\ p_command p = cmd /\ c ∈ p_concepts p /\ c <> DEPRECATED).
  { intros cmd c. rewrite <- (from_parts_serves ts). unfold serves. by rewrite Hidx. }
  destruct (rank_concepts_spec x rules mentioned) as [Hna Hma]. set (a := rank_concepts x rules mentioned) in *.
  destruct (rank_by_phrase_spec lower ln x query) as (Hnb & _ & Hmb). set (b := rank_by_phrase lower ln x query) in *.
  assert (Hsa : forall h, h ∈ a -> exists c, serves x (command h) c) by (intros h Hh; by eapply rank_concepts_nonempty).
  assert (Ha : forall h, h ∈ a -> (command h ∈ p_command <$> ps \/ command h ∈ rows.*1) /\ forall c, c ∈ matched h ->
    c ∈ apply_implications rules 4 mentioned /\ exists p, p ∈ ps /\ p_command p = command h /\ c ∈ p_concepts p /\ c <> DEPRECATED).
  { intros h Hh. split.
    - left. destruct (Hsa h Hh) as [c Hc]. apply Hserves in Hc as (p & Hp & <- & _). by apply list_elem_of_fmap_2.
    - intros c Hc. apply (Hma h Hh) in Hc as [H1 H2]. split; [done|]. by apply Hserves. }
  assert (Hb : forall h, h ∈ b -> command h ∈ rows.*1) by (intros h [Hc _]%Hmb; by apply Hcmds).
  assert (Hhits : (length hits <= limit)%nat /\ NoDup (command <$> hits) /\ forall h, h ∈ hits ->
    (exists h', h' ∈ a /\ command h' = command h /\ matched h = matched h') \/ (exists h', h' ∈ b /\ command h' = command h /\ matched h = [])).
  { injection Hs as <-. repeat case_decide; [| |by destruct (fuse_spec a b limit) as (H1 & H2 & H3)].
    all: split; [rewrite length_take; lia|]; split; [by apply take_nodup|]; intros h Hh%take_elem.
    - left. by exists h.
    - right. exists h. split; [done|]. split; [done|]. by apply Hmb. }
  destruct Hhits as (Hlen & Hnd & Hh). split; [done|]. split; [done|]. exists mentioned. split; [done|]. split.
  - intros c Hc. unfold concepts_of in Em. destruct (scan_terms_sound _ _ _ _ _ _ c Em Hc) as [Hin|(t & p & Ht & H1 & _ & H2)].
    + by apply elem_of_empty in Hin.
    + exists t, p. split; [|done]. rewrite Hterms in Ht. by rewrite from_parts_terms in Ht.
  - intros h [(h' & H1 & <- & ->)|(h' & H1 & <- & ->)]%Hh; [by apply Ha|]. split; [right; by apply Hb|]. by intros c ?%elem_of_nil.
Qed.

(** ** Implications

    The passes over a table are run on symbolic sets: every concept stands for
    the alternatives under which it is present, each a list of concepts that were
    present at the start. *)

Abbreviation alternatives := (list (list Concept)).
Abbreviation symbolic := (gmap Concept alternatives).

Definition alts (D : symbolic) (c : Concept) : alternatives := default [[c]] (D !! c).

(** Both of two conditions: every pair of alternatives. *)
Definition both (p q : alternatives) : alternatives := p ≫= (fun a => (fun b => a ++ b) <$> q).
Definition all_of (D : symbolic) (cs : list Concept) : alternatives := foldr (fun c r => both (alts D c) r) [[]] cs.

(** Some alternative of [q] asks for no more than [a]. *)
Definition covered (q : alternatives) (a : list Concept) : bool :=
  existsb (fun b => forallb (fun c => bool_decide (c ∈ a)) b) q.

(** What a rule adds, beyond what already makes its conclusion present. *)
Definition new_alts (D : symbolic) (r : Implication) : alternatives :=
  filter (fun a => covered (alts D (follows r)) a = false) (all_of D (needs r)).

(** One rule; [None] when a rule that removes something could apply. *)
Definition sym_imply (D : option symbolic) (r : Implication) : option symbolic :=
  d ← D;
  match new_alts d r with
  | [] => Some d
  | new => if consumes r then None else Some (<[follows r := remove_dups (alts d (follows r) ++ new)]> d)
  end.

Fixpoint sym_rounds (rules : list Implication) (rounds : nat) : option symbolic :=
  match rounds with
  | O => Some ∅
  | S k => d ← sym_rounds rules k; foldl sym_imply (Some d) rules
  end.

(** After the passes no rule adds anything, and none of them removed anything. *)
Definition settles (rules : list Implication) (rounds : nat) : bool :=
  match sym_rounds rules rounds with
  | None => false
  | Some d => forallb (fun r => bool_decide (new_alts d r = [])) rules
  end.

Section Implications.
Context (start : gset Concept).

Definition holds (a : list Concept) : Prop := forall c, c ∈ a -> c ∈ start.
Definition present (q : alternatives) : Prop := exists a, a ∈ q /\ holds a.
Definition describes (D : symbolic) (cs : gset Concept) : Prop := forall c, c ∈ cs <-> present (alts D c).

Lemma holds_app a b : holds (a ++ b) <-> holds a /\ holds b.
Proof. unfold holds. setoid_rewrite elem_of_app. naive_solver. Qed.

Lemma present_both p q : present (both p q) <-> present p /\ present q.
Proof.
  unfold present, both. setoid_rewrite list_elem_of_bind. setoid_rewrite list_elem_of_fmap. split.
  - intros (x & (a & (b & -> & Hb) & Ha) & Hh). apply holds_app in Hh as [? ?]. split; [by exists a|by exists b].
  - intros [(a & Ha & Hx) (b & Hb & Hy)]. exists (a ++ b). split; [exists a; split; [by exists b|done]|by apply holds_app].
Qed.

Lemma present_all_of D cs l : describes D cs -> present (all_of D l) <-> forall c, c ∈ l -> c ∈ cs.
Proof.
  intros Hd. induction l as [|c l IH]; cbn [all_of foldr].
  - split; [by intros _ c ?%elem_of_nil|]. intros _. exists []. split; [by left|]. by intros c ?%elem_of_nil.
  - fold (all_of D l). rewrite present_both, IH, <- (Hd c). setoid_rewrite elem_of_cons. naive_solver.
Qed.

Lemma covered_present q a : covered q a = true -> holds a -> present q.
Proof.
  unfold covered. intros (b & Hb & Hc)%existsb_exists Ha. exists b. split; [by apply list_elem_of_In|].
  intros c Hin%list_elem_of_In. rewrite forallb_forall in Hc. apply Ha. by apply Hc, bool_decide_eq_true in Hin.
Qed.

(** A rule that applies adds something. *)
Lemma applies_new D cs r : describes D cs -> (follows r ∉ cs) -> (forall c, c ∈ needs r -> c ∈ cs) ->
  present (new_alts D r).
Proof.
  intros Hd Hf Hn. apply (present_all_of D cs (needs r) Hd) in Hn as (a & Ha & Hh). exists a. split; [|done].
  apply list_elem_of_filter. split; [|done]. destruct (covered _ a) eqn:E; [|done]. exfalso. apply Hf, Hd. by eapply covered_present.
Qed.

Lemma new_applies D cs r : describes D cs -> present (new_alts D r) -> forall c, c ∈ needs r -> c ∈ cs.
Proof.
  intros Hd (a & Ha & Hh). apply (present_all_of D cs (needs r) Hd). exists a. split; [|done].
  by apply list_elem_of_filter in Ha as [_ Ha].
Qed.

(** One rule on the sets is the rule on what describes them; nothing is removed. *)
Lemma imply_described D D' cs added r : describes D cs -> sym_imply (Some D) r = Some D' ->
  let st := imply (cs, added) r in
  describes D' st.1 /\ (st = (cs, added) \/ ((follows r ∉ cs) /\ (forall c, c ∈ needs r -> c ∈ cs) /\ st = ({[follows r]} ∪ cs, true))).
Proof.
  intros Hd Hs. cbn [imply]. destruct (bool_decide (follows r ∉ cs) && forallb _ (needs r)) eqn:E.
  - apply andb_true_iff in E as [Hf%bool_decide_eq_true Hn]. rewrite forallb_forall in Hn.
    assert (Hn' : forall c, c ∈ needs r -> c ∈ cs) by (intros c Hc%list_elem_of_In; by apply Hn, bool_decide_eq_true in Hc).
    pose proof (applies_new D cs r Hd Hf Hn') as Hp. cbn in Hs. destruct (new_alts D r) as [|a new] eqn:En.
    + destruct Hp as (a & Ha & _). by apply elem_of_nil in Ha.
    + destruct (consumes r); [done|]. injection Hs as <-. split; [|by right]. intros c. cbn [fst]. unfold alts.
      destruct (decide (c = follows r)) as [->|Hc].
      * rewrite lookup_insert_eq. cbn [from_option]. split; [intros _|set_solver]. destruct Hp as (b & Hb & Hh). exists b. split; [|done].
        unfold id. apply elem_of_remove_dups, elem_of_app. by right.
      * rewrite lookup_insert_ne by done. fold (alts D c). rewrite <- (Hd c). set_solver.
  - split; [|by left]. cbn [fst]. cbn in Hs. destruct (new_alts D r) as [|a new] eqn:En; [by injection Hs as <-|].
    destruct (consumes r); [done|]. injection Hs as <-. intros c. unfold alts. destruct (decide (c = follows r)) as [->|Hc].
    + rewrite lookup_insert_eq. cbn [from_option]. unfold id. rewrite (Hd (follows r)). split.
      * intros (b & Hb & Hh). exists b. split; [|done]. apply elem_of_remove_dups, elem_of_app. by left.
      * intros (b & Hb & Hh). apply elem_of_remove_dups, elem_of_app in Hb as [Hb|Hb]; [by exists b|].
        apply Hd. destruct (decide (follows r ∈ cs)) as [Hin|Hin]; [done|]. exfalso.
        assert (Hn : forall c, c ∈ needs r -> c ∈ cs). { apply (new_applies D); [done|]. rewrite En. by exists b. }
        apply andb_false_iff in E as [E%bool_decide_eq_false|E]; [done|].
        assert (E' : forallb (fun n => bool_decide (n ∈ cs)) (needs r) = true); [|congruence].
        apply forallb_forall. intros n ?%list_elem_of_In. by apply bool_decide_eq_true, Hn.
    + rewrite lookup_insert_ne by done. apply Hd.
Qed.

(** A pass that adds nothing has found the rules closed. *)
Lemma pass_closed_gen rules cs : (foldl imply (cs, false) rules).2 = false -> forall r, r ∈ rules ->
  (forall c, c ∈ needs r -> c ∈ cs) -> follows r ∈ cs.
Proof.
  assert (T : forall rs cs', (foldl imply (cs', true) rs).2 = true).
  { induction rs as [|r rs IH]; intros cs'; [done|]. cbn [foldl imply]. case_match; apply IH. }
  induction rules as [|r0 rules IH]; cbn [foldl]; [by intros _ r ?%elem_of_nil|]. intros Hf r Hr Hn. cbn [imply] in Hf.
  destruct (bool_decide (follows r0 ∉ cs) && _) eqn:E; [by rewrite T in Hf|].
  apply elem_of_cons in Hr as [->|Hr]; [|by eapply IH]. destruct (decide (follows r0 ∈ cs)) as [Hin|Hin]; [done|].
  exfalso. rewrite bool_decide_true in E by done. cbn in E. assert (E' : forallb (fun n => bool_decide (n ∈ cs)) (needs r0) = true); [|congruence].
  apply forallb_forall. intros n ?%list_elem_of_In. by apply bool_decide_eq_true, Hn.
Qed.

(** A closed superset keeps everything the rules add. *)
Definition closed (rules : list Implication) (T : gset Concept) : Prop :=
  forall r, r ∈ rules -> (forall c, c ∈ needs r -> c ∈ T) -> follows r ∈ T.

Lemma sym_imply_none l : foldl sym_imply None l = None.
Proof. by induction l. Qed.

Lemma pass_described rules : forall D D' cs added, describes D cs -> foldl sym_imply (Some D) rules = Some D' ->
  let st := foldl imply (cs, added) rules in
  describes D' st.1 /\ cs ⊆ st.1 /\ (forall T, closed rules T -> cs ⊆ T -> st.1 ⊆ T) /\
  (st.2 = false -> added = false /\ st.1 = cs).
Proof.
  induction rules as [|r rules IH]; intros D D' cs added Hd; cbn [foldl].
  { intros [= <-]. split; [done|]. split; [done|]. split; [by intros T _ ?|]. intros E. cbn in E. by rewrite E. }
  destruct (sym_imply (Some D) r) as [D1|] eqn:E1; [|by rewrite sym_imply_none]. intros Hs.
  destruct (imply_described D D1 cs added r Hd E1) as [Hd1 Hst]. destruct (imply (cs, added) r) as [cs1 a1]. cbn [fst] in Hd1.
  destruct (IH D1 D' cs1 a1 Hd1 Hs) as (H1 & H2 & H3 & H4). split; [done|].
  assert (Hcl : forall T, closed (r :: rules) T -> closed rules T) by (intros T Hc r' Hr'; apply Hc; by right).
  destruct Hst as [[= -> ->]|(Hf & Hn & [= -> ->])].
  - split; [done|]. split; [|done]. intros T Hc Hsub. apply H3; [by apply Hcl|done].
  - split; [set_solver|]. split.
    + intros T Hc Hsub. apply H3; [by apply Hcl|]. assert (follows r ∈ T) by (apply Hc; [by left|set_solver]). set_solver.
    + intros Hf'. by destruct (H4 Hf').
Qed.

Lemma sym_rounds_start rules k D : sym_rounds rules (S k) = Some D -> is_Some (sym_rounds rules k).
Proof. cbn. destruct (sym_rounds rules k); [by eexists|done]. Qed.


Lemma describes_start : describes ∅ start.
Proof.
  intros c. unfold alts. rewrite lookup_empty. cbn [from_option]. split.
  - intros Hc. exists [c]. split; [by left|]. by intros c' ->%list_elem_of_singleton.
  - intros (a & ->%list_elem_of_singleton & Hh). apply Hh. by left.
Qed.

(** After [k] passes on the symbolic side, the code's passes are described. *)
Lemma rounds_from rules n : forall k D D0 cs, sym_rounds rules k = Some D0 -> sym_rounds rules (n + k) = Some D ->
  describes D0 cs ->
  let res := apply_implications rules n cs in
  cs ⊆ res /\ (forall T, closed rules T -> cs ⊆ T -> res ⊆ T) /\ (describes D res \/ closed rules res).
Proof.
  induction n as [|n IH]; intros k D D0 cs H0 Hk Hd; cbn [apply_implications].
  - cbn in Hk. rewrite H0 in Hk. injection Hk as ->. split; [done|]. split; [by intros T _ ?|by left].
  - assert (Hs : exists D1, sym_rounds rules (S k) = Some D1).
    { clear -Hk. revert D Hk. induction n as [|n IHn]; intros D Hk; [by exists D|].
      change (S (S n) + k)%nat with (S (S n + k)) in Hk. apply sym_rounds_start in Hk as [D1 H1]. by eapply IHn. }
    destruct Hs as [D1 H1]. pose proof H1 as Hp. cbn in Hp. rewrite H0 in Hp. cbn in Hp.
    destruct (pass_described rules D0 D1 cs false Hd Hp) as (P1 & P2 & P3 & P4).
    destruct (foldl imply (cs, false) rules) as [cs1 added] eqn:Ef. cbn [fst snd] in *. destruct added.
    + replace (S n + k)%nat with (n + S k)%nat in Hk by lia. destruct (IH (S k) D D1 cs1 H1 Hk P1) as (Q1 & Q2 & Q3).
      split; [by etrans|]. split; [|done]. intros T Hc Hsub. apply Q2; [done|]. by apply P3.
    + split; [done|]. split; [done|]. right. destruct (P4 eq_refl) as [_ ->]. intros r. apply pass_closed_gen. by rewrite Ef.
Qed.

(** The checker is right: the result of the passes is the least set that holds
    the concepts mentioned and is closed under the rules. *)
Lemma settles_closure rules n : settles rules n = true ->
  let res := apply_implications rules n start in
  start ⊆ res /\ closed rules res /\ forall T, closed rules T -> start ⊆ T -> res ⊆ T.
Proof.
  unfold settles. destruct (sym_rounds rules n) as [D|] eqn:E; [|done]. intros Hf.
  destruct (rounds_from rules n 0 D ∅ start eq_refl ltac:(by rewrite Nat.add_0_r) describes_start) as (H1 & H2 & H3).
  split; [done|]. split; [|done]. destruct H3 as [Hd|Hc]; [|done]. intros r Hr Hn.
  destruct (decide (follows r ∈ apply_implications rules n start)) as [Hin|Hin]; [done|]. exfalso.
  destruct (applies_new D _ r Hd Hin Hn) as (a & Ha & _). rewrite forallb_forall in Hf.
  apply list_elem_of_In, Hf, bool_decide_eq_true in Hr. rewrite Hr in Ha. by apply elem_of_nil in Ha.
Qed.

End Implications.

(** ** Examples *)

(** ASCII lower case. *)
Definition lower (s : str) : str := (fun c => if decide (65 <= c <= 90) then c + 32 else c) <$> s.

Definition some_terms : list Term := [mkTerm (chars "set") [chars "set"]; mkTerm (chars "count") [chars "count"]].
Definition some_purposes : list Purpose :=
  [mkPurpose (chars "SCARD") [chars "count"; chars "set"]; mkPurpose (chars "SADD") [chars "add"; chars "set"]].
Definition some_rows : list (str * str) := [(chars "SCARD", chars "how many in a set")].
Definition some_finder : Finder := with_phrases lower (from_parts some_terms some_purposes) some_rows.

Lemma search_sound_witness :
  exists hits, search lower (fun x => x) some_finder [] (chars "Count several SETS") 1 = Some hits /\
    command <$> hits = [chars "SCARD"] /\ NoDup (command <$> hits).
Proof.
  destruct (search lower (fun x => x) some_finder [] (chars "Count several SETS") 1) as [hits|] eqn:E; [|vm_compute in E; discriminate].
  exists hits. split; [reflexivity|]. split; [vm_compute in E; injection E as <-; reflexivity|].
  apply (search_sound lower (fun x => x) some_terms some_purposes some_rows [] (chars "Count several SETS") 1 hits E).
Defined.
