(* ===== verification/Vocabulary.v ===== *)
(** * The vocabulary of the purpose search ([pr-intelligence/src/vocabulary.rs])

    The terms, the purposes of the commands and the implications, as the source
    lists them, and what holds of these very tables: the passes over the
    implications reach the least closed set ([implications_settle]).  The phrases
    of [phrases.rs] are generated and stay an argument of the search. *)

From S2P Require Import Prelude Text TextFacts Lines Ordered F64 Find FindFacts.

Definition term (t : string) (cs : list string) : Term := mkTerm (txt t) (chars <$> cs).
Definition purpose (c : string) (cs : list string) : Purpose := mkPurpose (chars c) (chars <$> cs).
Definition rule (cs : list string) (c : string) (b : bool) : Implication := mkImplication (chars <$> cs) (chars c) b.

#[local] Open Scope string_scope.
#[local] Open Scope list_scope.

(** ** The tables *)

Definition TERMS_1 : list Term := [
  term "at least one subscriber" ["subscribe"; "introspect"];
  term "internal representation" ["encoding"; "introspect"];
  term "replica acknowledgement" ["replication"; "acknowledge"]; term "another redis instance" ["migrate"];
  term "since anything touched" ["idle"]; term "together or not at all" ["transaction"; "atomic"];
  term "someone else touched" ["watch"; "optimistic-lock"];
  term "anyone else touched" ["watch"; "optimistic-lock"]; term "different database" ["database"; "move"];
  term "what kind of thing" ["type-of"]; term "begin transaction" ["transaction"];
  term "compact bit array" ["bitmap"]; term "internal encoding" ["encoding"; "introspect"];
  term "numbered database" ["database"]; term "particular moment" ["timestamp"; "expire"];
  term "a page at a time" ["iterate"; "scan"]; term "access frequency" ["frequency"];
  term "different server" ["migrate"]; term "go ahead and run" ["commit"];
  term "how many seconds" ["ttl"; "seconds"]; term "into another key" ["store"];
  term "part of a string" ["substring"; "string"]; term "present in every" ["intersection"];
  term "reached the file" ["persistence"]; term "subscriber count" ["subscribe"; "count"];
  term "too long to list" ["iterate"; "scan"]; term "what is going on" ["introspect"];
  term "without removing" ["read"]; term "without stalling" ["async"];
  term "aof persistence" ["persistence"]; term "array of packed" ["bit"];
  term "carry elsewhere" ["serialise"; "migrate"]; term "going on inside" ["introspect"];
  term "how much longer" ["ttl"]; term "packed integers" ["bit"; "number"];
  term "reference count" ["memory"]; term "replace a value" ["set-value"; "atomic"]].

Definition TERMS_2 : list Term := [
  term "start receiving" ["subscribe"]; term "too big to read" ["iterate"; "scan"];
  term "unique visitors" ["cardinality"; "approximate"]; term "without loading" ["iterate"; "scan"];
  term "without writing" ["read-only"]; term "across several" ["union"; "multiple"];
  term "add with score" ["add-member"; "score"]; term "as a timestamp" ["ttl"; "timestamp"];
  term "at what moment" ["ttl"; "timestamp"]; term "coordinates of" ["location"];
  term "different ones" ["cardinality"; "approximate"]; term "expiry instant" ["ttl"; "timestamp"];
  term "how long since" ["idle"]; term "in one request" ["multiple"]; term "keeping an eye" ["watch"];
  term "precise moment" ["timestamp"; "expire"]; term "push a message" ["publish"];
  term "return the old" ["read-value"; "atomic"]; term "stop receiving" ["unsubscribe"];
  term "under the hood" ["introspect"]; term "which of these" ["exists"; "multiple"];
  term "add a decimal" ["increment"; "float"]; term "between lists" ["move"; "list"];
  term "check whether" ["exists"]; term "everyone from" ["union"; "read-all"];
  term "exact instant" ["timestamp"; "ttl"]; term "has something" ["multiple"];
  term "highest first" ["reverse"]; term "introspection" ["introspect"];
  term "lexicographic" ["lexicographic"]; term "recently used" ["touch"; "idle"];
  term "references to" ["memory"]; term "small numbers" ["bit"; "number"]; term "stop expiring" ["persist"];
  term "stop watching" ["watch"; "cancel"]; term "take five off" ["decrement"]; term "what position" ["rank"]].

Definition TERMS_3 : list Term := [
  term "where exactly" ["location"]; term "accumulating" ["increment"];
  term "across lists" ["multiple"; "list"]; term "across zsets" ["multiple"; "sortedset"];
  term "alphabetical" ["lexicographic"]; term "another node" ["migrate"]; term "combine them" ["union"];
  term "first writer" ["set-if-absent"; "conditional"]; term "hyperloglogs" ["hyperloglog"; "cardinality"];
  term "intersection" ["intersection"]; term "life is left" ["ttl"]; term "member score" ["score"; "member"];
  term "milliseconds" ["milliseconds"]; term "on what date" ["ttl"; "timestamp"];
  term "onto another" ["move"]; term "onto the end" ["append"; "tail"];
  term "page by page" ["iterate"; "scan"]; term "previous one" ["read-value"; "atomic"];
  term "queued batch" ["transaction"]; term "range search" ["radius"; "search"];
  term "seconds left" ["ttl"; "seconds"]; term "take one off" ["decrement"];
  term "which moment" ["ttl"; "timestamp"]; term "access time" ["touch"; "idle"];
  term "acknowledge" ["acknowledge"]; term "all succeed" ["transaction"; "atomic"];
  term "between two" ["move"; "multiple"]; term "binary blob" ["serialise"; "backup"];
  term "cache entry" ["key"; "expire"]; term "cardinality" ["cardinality"; "approximate"];
  term "common ones" ["intersection"]; term "coordinates" ["location"];
  term "cursor scan" ["scan"; "iterate"]; term "deserialise" ["deserialise"];
  term "field names" ["list-fields"]; term "flag arrays" ["bitmap"; "multiple"];
  term "hyperloglog" ["hyperloglog"; "cardinality"]].

Definition TERMS_4 : list Term := [
  term "keep a copy" ["store"]; term "keep an eye" ["watch"; "blocking"];
  term "leaderboard" ["sortedset"; "leaderboard"]; term "legacy code" ["deprecated"];
  term "member rank" ["rank"; "member"]; term "millisecond" ["milliseconds"]; term "most recent" ["range"];
  term "not already" ["set-if-absent"]; term "plain value" ["string"];
  term "random peek" ["random"; "read-value"]; term "round trips" ["multiple"];
  term "slot one in" ["insert"]; term "still empty" ["set-if-absent"]; term "stock count" ["counter"];
  term "top hundred" ["range"; "rank"]; term "top scorers" ["score"; "reverse"];
  term "transaction" ["transaction"]; term "unsubscribe" ["unsubscribe"];
  term "wait across" ["blocking"; "multiple"]; term "waits until" ["blocking"]; term "will expire" ["ttl"];
  term "attributes" ["field"; "hash"; "multiple"]; term "best first" ["reverse"; "score"];
  term "byte range" ["substring"; "range"]; term "collection" ["list"; "set"; "sortedset"];
  term "consume it" ["read-and-delete"]; term "difference" ["difference"];
  term "duplicates" ["set"; "member"]; term "exactly is" ["location"]; term "field name" ["list-fields"];
  term "flag array" ["bitmap"]; term "get rid of" ["delete"]; term "into a key" ["store"];
  term "latest few" ["range"]; term "list every" ["read-all"]; term "membership" ["exists"; "member"];
  term "never mind" ["cancel"]].

Definition TERMS_5 : list Term := [
  term "optimistic" ["optimistic-lock"]; term "page views" ["counter"; "increment"];
  term "random pop" ["pop"; "random"]; term "read write" ["read-value"; "set-value"];
  term "set moment" ["timestamp"; "expire"]; term "short code" ["encoding"; "location"];
  term "sorted set" ["sortedset"]; term "the result" ["store"]; term "the values" ["list-values"];
  term "walk every" ["iterate"; "scan"]; term "at random" ["random"]; term "attribute" ["field"; "hash"];
  term "backwards" ["reverse"]; term "before an" ["insert"]; term "bit array" ["bitmap"];
  term "caught up" ["replication"]; term "decrement" ["decrement"]; term "disappear" ["expire"];
  term "does this" ["exists"]; term "duplicate" ["copy"]; term "estimator" ["hyperloglog"; "cardinality"];
  term "expire at" ["expire"; "timestamp"]; term "expiry as" ["ttl"]; term "far apart" ["distance"];
  term "frequency" ["frequency"]; term "geo range" ["radius"; "search"]; term "how alike" ["compare"];
  term "how often" ["frequency"]; term "idle time" ["idle"]; term "in common" ["intersection"; "count"];
  term "in one go" ["read-all"; "multiple"]; term "increment" ["increment"]; term "inside it" ["introspect"];
  term "keep only" ["trim"]; term "leftovers" ["difference"]; term "life left" ["ttl"];
  term "listeners" ["subscribe"; "count"]].

Definition TERMS_6 : list Term := [
  term "listening" ["subscribe"]; term "make sure" ["acknowledge"]; term "more text" ["append"; "string"];
  term "no longer" ["persist"; "cancel"]; term "read only" ["read-only"]; term "read-only" ["read-only"];
  term "remaining" ["ttl"]; term "serialise" ["serialise"]; term "subscribe" ["subscribe"];
  term "the names" ["list-fields"]; term "timestamp" ["timestamp"]; term "whichever" ["multiple"];
  term "before a" ["insert"]; term "bitfield" ["bit"; "bitmap"]; term "database" ["database"];
  term "distinct" ["cardinality"; "approximate"]; term "encoding" ["encoding"];
  term "estimate" ["approximate"]; term "hit disk" ["persistence"]; term "how deep" ["count"];
  term "how long" ["ttl"]; term "how many" ["count"]; term "in a set" ["set"]; term "increase" ["increment"];
  term "is there" ["exists"]; term "keyspace" ["key"; "scan"]; term "lined up" ["transaction"];
  term "location" ["location"]; term "matching" ["pattern"]; term "one flag" ["bit"; "index"];
  term "one-shot" ["read-and-delete"; "atomic"]; term "point at" ["memory"];
  term "position" ["index"; "rank"]; term "put back" ["deserialise"]; term "replicas" ["replication"];
  term "shows up" ["blocking"]; term "stalling" ["async"]].

Definition TERMS_7 : list Term := [
  term "the sets" ["set"; "multiple"]; term "time out" ["expire"]; term "wait for" ["blocking"];
  term "watching" ["watch"]; term "where in" ["index"; "search"]; term "abandon" ["cancel"];
  term "backlog" ["count"; "list"]; term "balance" ["float"; "number"]; term "bitwise" ["bit"];
  term "but not" ["difference"]; term "channel" ["channel"]; term "cluster" ["cluster"];
  term "combine" ["union"]; term "counter" ["counter"]; term "details" ["cardinality"];
  term "element" ["member"]; term "entries" ["key"]; term "execute" ["commit"];
  term "geohash" ["encoding"; "location"]; term "give me" ["read-value"; "read-all"];
  term "go away" ["expire"]; term "how big" ["length"]; term "how far" ["distance"];
  term "how hot" ["frequency"]; term "in both" ["intersection"]; term "inspect" ["introspect"];
  term "iterate" ["iterate"; "scan"]; term "kind of" ["type-of"]; term "left on" ["ttl"];
  term "look at" ["read-value"]; term "migrate" ["migrate"]; term "ms left" ["ttl"; "milliseconds"];
  term "near me" ["radius"; "search"]; term "numeric" ["score"; "number"];
  term "old one" ["read-value"; "atomic"]; term "on this" ["ttl"];
  term "only if" ["set-if-absent"; "conditional"]].

Definition TERMS_8 : list Term := [
  term "ordered" ["rank"; "sort"]; term "overlap" ["intersection"]; term "package" ["serialise"];
  term "pattern" ["pattern"]; term "players" ["sortedset"; "member"; "multiple"]; term "publish" ["publish"];
  term "replica" ["replication"]; term "restore" ["deserialise"]; term "reverse" ["reverse"];
  term "seconds" ["seconds"]; term "several" ["multiple"]; term "swap in" ["set-value"; "atomic"];
  term "timeout" ["expire"]; term "top ten" ["range"; "rank"]; term "whether" ["exists"];
  term "0 还是 1" ["bit"]; term "across" ["multiple"]; term "active" ["introspect"]; term "append" ["append"];
  term "atomic" ["atomic"]; term "bitmap" ["bitmap"]; term "boards" ["sortedset"; "leaderboard"; "multiple"];
  term "common" ["compare"]; term "concat" ["append"]; term "delete" ["delete"]; term "exists" ["exists"];
  term "expire" ["expire"]; term "expiry" ["expire"]; term "groups" ["set"; "member"; "multiple"];
  term "insert" ["insert"]; term "legacy" ["deprecated"]; term "length" ["length"]; term "marked" ["bit"];
  term "member" ["member"]; term "nearby" ["radius"; "search"]; term "not in" ["difference"];
  term "number" ["number"]].

Definition TERMS_9 : list Term := [
  term "offset" ["offset"]; term "packed" ["bit"]; term "people" ["member"; "multiple"];
  term "person" ["member"]; term "places" ["location"; "multiple"]; term "player" ["sortedset"; "member"];
  term "radius" ["radius"]; term "random" ["random"]; term "record" ["member"]; term "remove" ["remove"];
  term "rename" ["rename"]; term "rotate" ["move"]; term "sample" ["random"];
  term "scores" ["score"; "multiple"]; term "string" ["string"]; term "topics" ["channel"; "multiple"];
  term "unpack" ["deserialise"]; term "values" ["list-values"]; term "vanish" ["expire"];
  term "window" ["range"]; term "worker" ["list"; "queue"; "blocking"]; term "不再自动过期" ["persist"];
  term "多久没被动过" ["idle"]; term "多少地方在用" ["memory"]; term "时刻的毫秒值" ["timestamp"; "milliseconds"; "ttl"];
  term "用得频不频繁" ["frequency"]; term "0 或 1" ["bit"]; term "a set" ["set"]; term "abort" ["cancel"];
  term "block" ["blocking"]; term "board" ["sortedset"; "leaderboard"]; term "cache" ["key"; "expire"];
  term "claim" ["set-if-absent"; "conditional"]; term "clear" ["delete"; "remove"]; term "count" ["count"];
  term "entry" ["key"]; term "every" ["read-all"]].

Definition TERMS_10 : list Term := [
  term "exist" ["exists"]; term "fetch" ["read-value"]; term "field" ["field"];
  term "flags" ["bit"; "count"]; term "float" ["float"]; term "go up" ["increment"];
  term "group" ["set"; "member"]; term "index" ["index"]; term "is in" ["exists"; "member"];
  term "items" ["field"; "member"; "multiple"]; term "lapse" ["expire"; "ttl"]; term "merge" ["union"];
  term "minus" ["decrement"]; term "order" ["sort"]; term "place" ["location"];
  term "purge" ["remove"; "delete"]; term "queue" ["list"; "queue"]; term "range" ["range"];
  term "right" ["tail"]; term "score" ["score"]; term "shard" ["shard"]; term "share" ["intersection"];
  term "shops" ["location"; "geo"; "multiple"]; term "slice" ["range"; "substring"]; term "stall" ["async"];
  term "store" ["set-value"; "store"]; term "thing" ["key"]; term "throw" ["cancel"; "delete"];
  term "token" ["expire"]; term "topic" ["channel"]; term "union" ["union"]; term "watch" ["watch"];
  term "write" ["set-value"]; term "一串二进制" ["serialise"; "backup"]; term "不管叫什么" ["list-values"];
  term "字段名列表" ["list-fields"]; term "很小的空间" ["approximate"; "cardinality"]].

Definition TERMS_11 : list Term := [
  term "所有订阅者" ["subscribe"]; term "新 key" ["store"]; term "相同的部分" ["compare"]; term "第 n 个" ["index"];
  term "第一个请求" ["set-if-absent"; "conditional"]; term "过期时间点" ["ttl"; "timestamp"];
  term "重复的不算" ["set"; "member"]; term "blob" ["backup"]; term "bulk" ["multiple"];
  term "bump" ["increment"]; term "copy" ["copy"]; term "drop" ["delete"; "remove"];
  term "dump" ["read-all"; "serialise"]; term "find" ["search"]; term "flag" ["bit"];
  term "flip" ["set-value"; "bit"]; term "glob" ["pattern"]; term "grab" ["read-value"];
  term "hash" ["hash"]; term "head" ["head"]; term "idle" ["idle"]; term "item" ["member"];
  term "left" ["head"]; term "list" ["list"]; term "live" ["introspect"];
  term "lock" ["set-if-absent"; "conditional"]; term "mark" ["bit"]; term "move" ["move"];
  term "name" ["key"]; term "only" ["difference"]; term "peek" ["introspect"; "read-value"];
  term "plus" ["increment"]; term "push" ["push"]; term "rank" ["rank"]; term "read" ["read-value"];
  term "scan" ["scan"]; term "shop" ["location"; "geo"]].

Definition TERMS_12 : list Term := [
  term "show" ["read-value"; "read-all"]; term "size" ["length"; "count"]; term "slot" ["insert"];
  term "sort" ["sort"]; term "stop" ["cancel"; "unsubscribe"]; term "tack" ["append"]; term "tail" ["tail"];
  term "take" ["pop"; "remove"]; term "trim" ["trim"]; term "type" ["type-of"];
  term "walk" ["iterate"; "scan"]; term "zset" ["sortedset"]; term "一共多少" ["count"]; term "一条记录" ["hash"];
  term "一次全列" ["iterate"; "scan"]; term "一次全读" ["iterate"; "scan"]; term "一起成功" ["transaction"; "atomic"];
  term "一页一页" ["iterate"; "scan"]; term "不一样的" ["cardinality"; "approximate"]; term "不再接收" ["unsubscribe"];
  term "东西很大" ["key"; "length"]; term "两段文本" ["compare"; "multiple"]; term "什么时候" ["ttl"; "timestamp"];
  term "什么结构" ["type-of"]; term "从高到低" ["reverse"]; term "他的成绩" ["score"];
  term "位置在哪" ["bit"; "index"; "search"]; term "保证不写" ["read-only"]; term "公共子串" ["compare"; "substring"];
  term "其中一项" ["field"]; term "内部细节" ["introspect"]; term "内部编码" ["encoding"; "introspect"];
  term "分布式锁" ["set-if-absent"; "conditional"]; term "刚被用过" ["touch"];
  term "别人动过" ["watch"; "optimistic-lock"]; term "到某个点" ["timestamp"; "expire"]; term "到第几个" ["range"]].

Definition TERMS_13 : list Term := [
  term "剩余毫秒" ["ttl"; "milliseconds"]; term "副本确认" ["replication"; "acknowledge"]; term "去掉过期" ["persist"];
  term "去重计数" ["cardinality"; "approximate"]; term "反序列化" ["deserialise"]; term "取出放到" ["move"];
  term "取消订阅" ["unsubscribe"]; term "可靠队列" ["queue"; "move"]; term "名字排序" ["lexicographic"];
  term "多少毫秒" ["ttl"; "milliseconds"]; term "存不存在" ["exists"]; term "存的内容" ["read-value"];
  term "底层用的" ["encoding"; "introspect"]; term "开始接收" ["subscribe"]; term "引用计数" ["memory"];
  term "打个标记" ["set-value"; "bit"]; term "换个名字" ["rename"]; term "换成新值" ["set-value"; "atomic"];
  term "排在第几" ["rank"; "index"]; term "普通的值" ["string"]; term "有人订阅" ["subscribe"; "introspect"];
  term "有序集合" ["sortedset"]; term "某个范围" ["range"]; term "没有的人" ["difference"];
  term "独立访客" ["cardinality"; "approximate"]; term "用户资料" ["hash"; "field"]; term "看第几位" ["bit"; "index"];
  term "空闲时长" ["idle"]; term "精确时刻" ["ttl"; "timestamp"]; term "绝对时间" ["timestamp"];
  term "绝对过期" ["expire"; "timestamp"]; term "续一下命" ["expire"]; term "编号的库" ["database"];
  term "自己消失" ["expire"]; term "落到文件" ["persistence"]; term "落盘确认" ["persistence"; "acknowledge"];
  term "被别人改" ["watch"; "optimistic-lock"]].

Definition TERMS_14 : list Term := [
  term "订阅人数" ["subscribe"; "count"]; term "访问时间" ["touch"]; term "访问次数" ["counter"; "increment"];
  term "访问频率" ["frequency"]; term "过期时刻" ["ttl"; "timestamp"]; term "过期时间" ["expire"; "ttl"];
  term "还有多少" ["ttl"]; term "这是什么" ["type-of"]; term "那个数字" ["score"]; term "都有哪些" ["read-all"];
  term "随机弹出" ["pop"; "random"]; term "频不频繁" ["frequency"]; term "add" ["add-member"];
  term "aof" ["persistence"]; term "bit" ["bit"]; term "db1" ["database"]; term "geo" ["geo"];
  term "job" ["list"; "queue"]; term "key" ["key"]; term "pop" ["pop"]; term "put" ["set-value"; "push"];
  term "set" ["set-value"]; term "ttl" ["ttl"]; term "一个人" ["member"]; term "一小段" ["range"];
  term "一次性" ["read-and-delete"; "atomic"]; term "一起成" ["transaction"; "atomic"];
  term "不存在" ["set-if-absent"]; term "不想再" ["unsubscribe"; "cancel"]; term "不想发" ["multiple"];
  term "不要了" ["delete"; "cancel"]; term "不重复" ["cardinality"; "approximate"];
  term "与或非" ["bit"; "intersection"; "union"]; term "乐观锁" ["optimistic-lock"];
  term "从一个" ["move"; "multiple"]; term "从后面" ["tail"]; term "估计器" ["hyperloglog"; "cardinality"]].

Definition TERMS_15 : list Term := [
  term "位运算" ["bit"]; term "值列表" ["list-values"]; term "写回去" ["deserialise"]; term "几个人" ["count"];
  term "几秒后" ["seconds"; "expire"]; term "判存在" ["exists"]; term "别人改" ["watch"; "optimistic-lock"];
  term "前一百" ["range"; "rank"]; term "剩余秒" ["ttl"; "seconds"]; term "加带分" ["add-member"; "score"];
  term "占多少" ["length"]; term "原来的" ["read-value"; "atomic"]; term "取一个" ["pop"]; term "另一台" ["migrate"];
  term "只保留" ["trim"]; term "只读地" ["read-only"]; term "合起来" ["union"]; term "后面接" ["append"];
  term "哪一位" ["bit"; "index"]; term "哪一刻" ["ttl"; "timestamp"]; term "哪个有" ["multiple"];
  term "在不在" ["exists"]; term "基数加" ["add-member"; "cardinality"]; term "处理中" ["list"; "queue"];
  term "多少个" ["count"]; term "多少人" ["count"]; term "多少分" ["score"]; term "多少天" ["count"];
  term "多少秒" ["ttl"; "seconds"]; term "字典序" ["lexicographic"]; term "字段值" ["field"; "list-values"];
  term "字段名" ["field"; "list-fields"]; term "字符串" ["string"]; term "存一份" ["store"]; term "存起来" ["store"];
  term "存进去" ["add-member"; "set-value"]; term "小数字" ["bit"; "number"]].

Definition TERMS_16 : list Term := [
  term "小整数" ["bit"; "number"]; term "属性值" ["field"; "list-values"; "hash"]; term "带分数" ["score"];
  term "序列化" ["serialise"]; term "开事务" ["transaction"]; term "往上加" ["increment"]; term "往下减" ["decrement"];
  term "往后推" ["expire"]; term "持久化" ["persistence"]; term "挂着等" ["blocking"]; term "按顺序" ["rank"; "sort"];
  term "排一下" ["sort"]; term "排个序" ["sort"]; term "排第几" ["rank"]; term "排行榜" ["sortedset"; "leaderboard"];
  term "接一段" ["append"]; term "撑多久" ["ttl"]; term "改一个" ["set-value"]; term "改个名" ["rename"];
  term "数一数" ["count"]; term "数据库" ["database"]; term "时间戳" ["timestamp"]; term "时间点" ["timestamp"];
  term "最低的" ["score"]; term "最前面" ["head"]; term "最后面" ["tail"]; term "最大的" ["score"]; term "最小分" ["score"];
  term "最高的" ["score"]; term "有哪些" ["read-all"; "introspect"]; term "有多像" ["compare"]; term "有没有" ["exists"];
  term "某一位" ["bit"; "index"]; term "某一项" ["field"]; term "某个人" ["member"]; term "某个量" ["increment"];
  term "某区间" ["range"]].

Definition TERMS_17 : list Term := [
  term "查出来" ["read-value"; "multiple"]; term "没人碰" ["idle"]; term "游标扫" ["scan"; "iterate"];
  term "灰名单" ["set"; "member"]; term "留一份" ["store"]; term "白名单" ["set"; "member"];
  term "看一眼" ["read-value"]; term "真的跑" ["commit"]; term "短代码" ["encoding"; "location"];
  term "碰一下" ["touch"]; term "符合的" ["pattern"]; term "第一名" ["rank"; "score"]; term "第几个" ["index"];
  term "第几位" ["index"]; term "第几名" ["rank"]; term "经纬度" ["location"]; term "翻一遍" ["iterate"; "scan"];
  term "老代码" ["deprecated"]; term "自动没" ["expire"]; term "范围内" ["range"]; term "装回去" ["deserialise"];
  term "计数器" ["counter"]; term "订阅数" ["subscribe"; "count"]; term "订阅者" ["subscribe"; "count"];
  term "记录里" ["hash"; "field"]; term "跨实例" ["migrate"]; term "还空着" ["set-if-absent"]; term "还能撑" ["ttl"];
  term "还能活" ["ttl"]; term "通配符" ["pattern"]; term "那一刻" ["timestamp"; "ttl"]; term "那一项" ["field"];
  term "都有的" ["intersection"]; term "都有谁" ["read-all"]; term "随机看" ["random"; "read-value"];
  term "隔多远" ["distance"]; term "验证码" ["expire"]].

Definition TERMS_18 : list Term := [
  term "db" ["database"]; term "ms" ["milliseconds"]; term "一共" ["count"]; term "一有" ["blocking"];
  term "一次" ["multiple"]; term "一步" ["atomic"]; term "一段" ["range"; "substring"];
  term "一页" ["iterate"; "scan"]; term "一项" ["field"]; term "下标" ["index"]; term "不再" ["persist"];
  term "不写" ["read-only"]; term "不删" ["read"]; term "不在" ["difference"]; term "不盯" ["watch"; "cancel"];
  term "东西" ["key"]; term "主题" ["channel"]; term "事务" ["transaction"]; term "交集" ["intersection"];
  term "从库" ["replication"]; term "令牌" ["expire"]; term "任务" ["list"; "queue"]; term "会没" ["expire"; "ttl"];
  term "估算" ["approximate"]; term "位图" ["bitmap"]; term "位域" ["bit"; "bitmap"]; term "位置" ["index"; "bit"];
  term "余额" ["float"; "number"]; term "作废" ["expire"; "delete"]; term "保存" ["store"]; term "倒序" ["reverse"];
  term "偏移" ["offset"]; term "元素" ["member"]; term "全列" ["read-all"]; term "全部" ["read-all"];
  term "公里" ["distance"; "radius"]; term "共同" ["intersection"]].

Definition TERMS_19 : list Term := [
  term "共有" ["intersection"]; term "内存" ["memory"]; term "内省" ["introspect"]; term "内部" ["introspect"];
  term "写入" ["set-value"]; term "写好" ["set-value"; "multiple"]; term "写成" ["set-value"];
  term "冠军" ["score"; "rank"]; term "减一" ["decrement"]; term "减去" ["decrement"]; term "减掉" ["decrement"];
  term "几个" ["count"; "multiple"]; term "几天" ["count"]; term "分数" ["score"]; term "分片" ["shard"];
  term "分页" ["iterate"; "scan"]; term "列出" ["read-all"; "introspect"]; term "列表" ["list"];
  term "删掉" ["delete"; "remove"]; term "删除" ["delete"; "remove"]; term "判断" ["exists"];
  term "别让" ["persist"; "cancel"]; term "到新" ["store"]; term "到期" ["expire"]; term "刷新" ["touch"];
  term "前十" ["range"; "rank"]; term "前面" ["head"]; term "剩余" ["ttl"]; term "剩几" ["ttl"];
  term "副本" ["replication"]; term "加 " ["increment"]; term "加一" ["increment"]; term "加上" ["increment"];
  term "加分" ["increment"; "score"]; term "加进" ["add-member"]; term "匹配" ["pattern"; "search"];
  term "区间" ["range"]].

Definition TERMS_20 : list Term := [
  term "半径" ["radius"]; term "占坑" ["set-if-absent"; "conditional"]; term "卡住" ["async"];
  term "原子" ["atomic"]; term "去掉" ["delete"; "remove"]; term "去重" ["cardinality"];
  term "及格" ["score"; "range"]; term "反向" ["reverse"]; term "取值" ["read-value"]; term "取出" ["read-value"];
  term "取消" ["cancel"]; term "取谁" ["pop"]; term "取走" ["pop"]; term "另存" ["store"; "copy"];
  term "只留" ["trim"]; term "只读" ["read-only"]; term "右出" ["pop"; "tail"]; term "右边" ["tail"];
  term "右进" ["push"; "tail"]; term "合并" ["union"]; term "同时" ["atomic"; "multiple"];
  term "同步" ["replication"]; term "名单" ["set"; "member"]; term "名字" ["key"]; term "名次" ["rank"];
  term "后台" ["async"]; term "后面" ["tail"]; term "周边" ["radius"]; term "哈希" ["hash"];
  term "哪些" ["introspect"; "read-all"]; term "哪天" ["ttl"; "timestamp"]; term "回收" ["async"; "delete"];
  term "在听" ["subscribe"]; term "在哪" ["location"]; term "在线" ["publish"; "channel"]; term "地方" ["location"];
  term "地点" ["location"]].

Definition TERMS_21 : list Term := [
  term "坐标" ["location"]; term "垫底" ["score"]; term "基数" ["cardinality"]; term "增量" ["increment"];
  term "复制" ["copy"]; term "复刻" ["copy"]; term "多个" ["multiple"]; term "多大" ["length"];
  term "多远" ["distance"]; term "多长" ["length"]; term "失效" ["expire"]; term "失败" ["optimistic-lock"];
  term "头像" ["field"; "hash"]; term "头部" ["head"]; term "字段" ["field"]; term "字节" ["length"];
  term "存到" ["set-value"]; term "存在" ["exists"; "set-if-absent"]; term "存好" ["store"]; term "存活" ["ttl"];
  term "存起" ["store"]; term "守着" ["blocking"]; term "导入" ["deserialise"]; term "导出" ["serialise"; "backup"];
  term "寿命" ["ttl"; "expire"]; term "小数" ["float"]; term "就等" ["blocking"]; term "尾部" ["tail"];
  term "属于" ["member"; "exists"]; term "属性" ["field"; "hash"]; term "左出" ["pop"; "head"]; term "左边" ["head"];
  term "左进" ["push"; "head"]; term "差集" ["difference"]; term "并集" ["union"]; term "广播" ["publish"];
  term "库存" ["counter"]].

Definition TERMS_22 : list Term := [
  term "底层" ["introspect"; "encoding"]; term "引用" ["memory"]; term "弹出" ["pop"]; term "待办" ["list"; "queue"];
  term "恢复" ["deserialise"]; term "情况" ["introspect"]; term "成员" ["member"]; term "成绩" ["score"];
  term "截取" ["substring"]; term "所有" ["read-all"; "list-fields"]; term "打包" ["serialise"; "batch"];
  term "批量" ["multiple"]; term "找出" ["search"]; term "拼接" ["append"]; term "拿掉" ["remove"; "delete"];
  term "指着" ["memory"]; term "按位" ["bit"]; term "换库" ["database"; "move"]; term "换掉" ["index"; "set-value"];
  term "排名" ["rank"]; term "排在" ["rank"; "index"]; term "排好" ["transaction"; "sort"]; term "排序" ["sort"];
  term "排的" ["transaction"]; term "排队" ["transaction"]; term "接收" ["subscribe"];
  term "推送" ["publish"; "channel"]; term "提交" ["commit"]; term "插入" ["push"; "insert"]; term "插到" ["insert"];
  term "搜索" ["search"]; term "搬到" ["migrate"; "move"]; term "撤掉" ["remove"; "delete"]; term "改名" ["rename"];
  term "改掉" ["set-value"; "index"]; term "放到" ["move"]; term "放进" ["add-member"]].

Definition TERMS_23 : list Term := [
  term "数值" ["number"]; term "数字" ["number"]; term "数量" ["count"]; term "整个" ["read-all"];
  term "整数" ["number"]; term "文件" ["persistence"]; term "文本" ["string"; "compare"];
  term "日志" ["append"; "string"]; term "旧值" ["read-value"; "atomic"]; term "旧的" ["deprecated"];
  term "时刻" ["timestamp"; "ttl"]; term "明细" ["cardinality"; "approximate"]; term "昵称" ["field"; "hash"];
  term "最近" ["range"]; term "有而" ["difference"]; term "某段" ["range"]; term "查分" ["score"]; term "标记" ["bit"];
  term "模式" ["pattern"]; term "比较" ["compare"]; term "毫秒" ["milliseconds"]; term "没掉" ["expire"];
  term "活的" ["introspect"]; term "活跃" ["introspect"]; term "浮点" ["float"]; term "消失" ["expire"];
  term "消息" ["publish"; "channel"; "list"; "queue"]; term "淘汰" ["eviction"]; term "清掉" ["delete"; "remove"];
  term "游标" ["scan"]; term "片段" ["substring"]; term "版本" ["compare"]; term "状态" ["introspect"];
  term "玩家" ["sortedset"; "member"]; term "监视" ["watch"]; term "盯着" ["watch"; "blocking"];
  term "相隔" ["distance"]].

Definition TERMS_24 : list Term := [
  term "看看" ["read-value"; "introspect"]; term "确保" ["acknowledge"]; term "确认" ["acknowledge"];
  term "积分" ["score"]; term "积压" ["count"; "list"]; term "移到" ["move"]; term "移除" ["remove"];
  term "空闲" ["idle"]; term "等到" ["blocking"]; term "等待" ["blocking"]; term "等着" ["blocking"];
  term "签到" ["bit"; "bitmap"]; term "类型" ["type-of"]; term "精确" ["timestamp"];
  term "累加" ["increment"; "float"]; term "统计" ["count"]; term "续期" ["expire"]; term "缓存" ["key"; "expire"];
  term "编码" ["encoding"]; term "置位" ["set-value"; "bit"]; term "自减" ["decrement"]; term "自增" ["increment"];
  term "范围" ["range"]; term "落到" ["persistence"]; term "落盘" ["persistence"];
  term "补上" ["set-if-absent"; "set-value"]; term "裁剪" ["trim"]; term "要么" ["transaction"; "atomic"];
  term "覆盖" ["set-value"]; term "见过" ["cardinality"]; term "订阅" ["subscribe"]; term "记下" ["add-member"];
  term "记录" ["hash"; "field"; "add-member"]; term "设置" ["set-value"]; term "访问" ["touch"; "idle"];
  term "读位" ["read-value"; "bit"]; term "读写" ["read-value"; "set-value"]].

Definition TERMS_25 : list Term := [
  term "读取" ["read-value"]; term "谁有" ["multiple"]; term "距离" ["distance"]; term "转到" ["move"];
  term "转移" ["move"]; term "迁移" ["migrate"]; term "过期" ["expire"]; term "近似" ["approximate"];
  term "还剩" ["ttl"]; term "还有" ["ttl"]; term "这堆" ["key"; "multiple"]; term "这段" ["range"];
  term "追加" ["append"; "push"; "tail"]; term "退订" ["unsubscribe"]; term "遍历" ["iterate"; "scan"];
  term "都在" ["intersection"]; term "重合" ["intersection"]; term "长度" ["length"; "count"];
  term "门店" ["location"; "geo"]; term "闲置" ["idle"]; term "队列" ["list"; "queue"]; term "阻塞" ["blocking"];
  term "附近" ["radius"; "search"]; term "随便" ["random"]; term "随手" ["random"]; term "随机" ["random"];
  term "集合" ["set"]; term "集群" ["cluster"]; term "零点" ["timestamp"]; term "顺序" ["rank"; "sort"];
  term "频率" ["frequency"]; term "频道" ["channel"]; term "高分" ["score"]; term "人" ["member"]; term "位" ["bit"];
  term "写" ["set-value"]; term "减" ["decrement"]].

Definition TERMS_26 : list Term := [
  term "出" ["pop"]; term "删" ["delete"; "remove"]; term "加" ["add-member"; "increment"];
  term "发" ["publish"]; term "取" ["read-value"]; term "右" ["tail"]; term "塞" ["set-value"; "push"];
  term "存" ["set-value"; "store"]; term "左" ["head"]; term "店" ["location"; "geo"];
  term "打" ["set-value"; "bit"]; term "扣" ["decrement"]; term "扫" ["scan"]; term "找" ["search"];
  term "抽" ["random"]; term "拷" ["copy"]; term "拿" ["read-value"]; term "挑" ["random"]; term "挪" ["move"];
  term "排" ["sort"; "rank"]; term "推" ["publish"]; term "插" ["push"; "insert"]; term "搜" ["search"];
  term "搬" ["move"]; term "收" ["subscribe"]; term "改" ["set-value"]; term "放" ["add-member"];
  term "榜" ["sortedset"; "leaderboard"]; term "清" ["delete"; "remove"];
  term "看" ["read-value"; "introspect"]; term "碰" ["touch"]; term "秒" ["seconds"]; term "移" ["move"];
  term "等" ["blocking"]; term "组" ["set"; "member"]; term "续" ["expire"]; term "群" ["set"; "member"]].

Definition TERMS_27 : list Term := [
  term "翻" ["iterate"; "range"]; term "记" ["set-value"; "add-member"]; term "读" ["read-value"];
  term "进" ["push"]; term "退" ["unsubscribe"]; term "锁" ["set-if-absent"; "conditional"]; term "键" ["key"];
  term "项" ["field"]; term "assign" ["set-value"]; term "overwriting" ["set-value"];
  term "overwrit" ["set-value"]; term "赋一个值" ["set-value"; "string"]; term "赋值" ["set-value"; "string"];
  term "look up" ["read-value"]; term "stored under" ["read-value"]; term "读出" ["read-value"];
  term "存着的" ["read-value"]; term "atomically" ["atomic"]; term "take the key away" ["delete"];
  term "hand back" ["read-value"]; term "replace the value" ["set-value"]; term "subtract" ["decrement"];
  term "a given amount" ["number"]; term "floating point" ["float"]; term "delta" ["number"];
  term "is absent" ["set-if-absent"]; term "multi-key" ["multiple"]; term "only if none" ["set-if-absent"];
  term "keep adding" ["append"]; term "superseded" ["deprecated"]; term "starting at an offset" ["offset"];
  term "pairs" ["multiple"]; term "middle part" ["substring"]; term "add one" ["increment"];
  term "numeric value" ["number"]; term "knock" ["decrement"]; term "down by one" ["decrement"]].

Definition TERMS_28 : list Term := [
  term "wipe" ["delete"]; term "out of the database" ["database"]; term "干掉" ["delete"];
  term "background thread" ["async"]; term "free the memory" ["memory"; "async"];
  term "serialize" ["serialise"]; term "rebuilt later" ["serialise"]; term "recreate" ["deserialise"];
  term "serialized payload" ["deserialise"]; term "unix time" ["timestamp"]; term "die at" ["expire"];
  term "deadline" ["timestamp"]; term "按毫秒时间戳" ["timestamp"; "milliseconds"]; term "定时删除" ["expire"];
  term "absolute second" ["timestamp"]; term "permanent" ["persist"]; term "transfer" ["migrate"];
  term "lfu" ["frequency"]; term "被访问得" ["frequency"]; term "没人读过" ["idle"]; term "多久没人" ["idle"];
  term "arbitrary" ["random"]; term "pick an" ["random"]; term "change the name" ["rename"];
  term "ranked output" ["sort"]; term "排好的" ["sort"]; term "不写回" ["read-only"]; term "refresh" ["touch"];
  term "how recently" ["idle"; "touch"]; term "lifetime" ["ttl"]; term "walk the" ["iterate"];
  term "scored set" ["sortedset"]; term "scored" ["sortedset"]; term "排序集合" ["sortedset"];
  term "打个分" ["score"]; term "combined" ["union"; "intersection"]; term "between a min and a max" ["range"]].

Definition TERMS_29 : list Term := [
  term "lies between" ["range"]; term "destination key" ["store"]; term "destination" ["store"];
  term "写进新的 key" ["store"]; term "index positions" ["rank"]; term "裁掉名次" ["rank"];
  term "counting down from" ["reverse"; "rank"]; term "随机抽几个" ["random"];
  term "lowest scoring" ["score"; "rank"]; term "highest scoring" ["score"; "rank"]; term "evict" ["remove"];
  term "threshold" ["range"]; term "bounds" ["range"]; term "同分" ["sortedset"; "lexicographic"];
  term "字典区间" ["lexicographic"; "range"]; term "shared members" ["intersection"; "union"];
  term "prepend" ["push"; "head"]; term "newest" ["head"]; term "back end" ["tail"]; term "队尾" ["tail"];
  term "just before" ["insert"]; term "前面插一条" ["insert"]; term "drop the rest" ["trim"];
  term "handoff" ["move"]; term "the front one" ["head"]; term "broadcast" ["publish"];
  term "listener" ["subscribe"]; term "wildcard" ["pattern"]; term "通配" ["pattern"];
  term "leave the" ["unsubscribe"]; term "运行情况" ["introspect"]; term "ignore any duplicates" ["set"];
  term "标签集合" ["set"]; term "丢进" ["add-member"]; term "draw a random" ["random"]; term "随机抽一个" ["random"];
  term "queued up" ["transaction"]].

Definition TERMS_30 : list Term := [
  term "run everything" ["commit"]; term "drop all" ["cancel"]; term "fail if" ["optimistic-lock"];
  term "有多少个 1" ["bit"; "count"]; term "custom width" ["bit"; "offset"]; term "counters" ["counter"];
  term "inside a box" ["search"; "radius"]; term "a circle" ["radius"]; term "points" ["location"];
  term "proximity" ["search"; "distance"]; term "save the result" ["store"]; term "latitude" ["location"];
  term "longitude" ["location"]; term "how far apart" ["distance"]; term "neighbour" ["search"; "radius"];
  term "anchored on" ["radius"]; term "remaining before" ["ttl"]; term "skip the names" ["list-values"];
  term "cheap" ["approximate"]; term "unique counter" ["cardinality"];
  term "UV" ["cardinality"; "approximate"]; term "location point" ["location"]; term "point" ["location"];
  term "proximity lookups" ["search"; "distance"]; term "compact location string" ["encoding"; "location"];
  term "within" ["radius"]; term "km" ["distance"; "radius"]; term "replica safe" ["read-only"];
  term "safe" ["read-only"]; term "不带写操作" ["read-only"]; term "area lookup" ["search"; "radius"];
  term "area" ["radius"; "search"]; term "area query" ["search"; "radius"]; term "落成新 key" ["store"];
  term "wall clock" ["timestamp"]; term "stays forever" ["persist"]; term "stays" ["persist"]].

Definition TERMS_31 : list Term := [
  term "at position" ["index"]; term "head item" ["head"]; term "grab the head" ["head"; "pop"];
  term "最前面那条" ["head"]; term "最早进来" ["tail"]; term "highest-scoring" ["score"; "rank"];
  term "smallest-score" ["score"; "rank"]; term "blocking while" ["blocking"];
  term "highest score first" ["reverse"; "rank"]; term "top ranked" ["rank"; "reverse"];
  term "从高往低" ["reverse"]; term "第一个非空" ["multiple"]; term "分数合并" ["intersection"; "score"];
  term "分数相加" ["union"; "score"]; term "存到另一个 key" ["store"]; term "string-ordered" ["lexicographic"];
  term "interval" ["range"]; term "不重复的访客" ["cardinality"; "member"]; term "几点钟" ["timestamp"];
  term "还有多久" ["ttl"]; term "optimistic lock" ["optimistic-lock"; "watch"; "transaction"];
  term "乐观地锁住" ["optimistic-lock"; "watch"; "transaction"]; term "a few members" ["member"; "random"];
  term "without taking" ["read-value"]].

Definition TERMS : list Term :=
  TERMS_1 ++ TERMS_2 ++ TERMS_3 ++ TERMS_4 ++ TERMS_5 ++ TERMS_6 ++ TERMS_7 ++ TERMS_8 ++ TERMS_9 ++ TERMS_10 ++ TERMS_11 ++
  TERMS_12 ++ TERMS_13 ++ TERMS_14 ++ TERMS_15 ++ TERMS_16 ++ TERMS_17 ++ TERMS_18 ++ TERMS_19 ++ TERMS_20 ++ TERMS_21 ++
  TERMS_22 ++ TERMS_23 ++ TERMS_24 ++ TERMS_25 ++ TERMS_26 ++ TERMS_27 ++ TERMS_28 ++ TERMS_29 ++ TERMS_30 ++ TERMS_31.

Definition PURPOSES_1 : list Purpose := [
  purpose "APPEND" ["append"; "string"]; purpose "BITCOUNT" ["bit"; "count"; "bitmap"; "string"];
  purpose "BITFIELD" ["bit"; "number"; "bitmap"; "offset"; "string"];
  purpose "BITFIELD_RO" ["read-only"; "bit"; "number"; "bitmap"; "offset"; "read-value"; "string"];
  purpose "BITOP" ["bit"; "bitmap"; "intersection"; "union"; "difference"; "multiple"; "string"];
  purpose "BITPOS" ["bit"; "index"; "search"; "bitmap"; "string"];
  purpose "BLMOVE" ["move"; "blocking"; "list"; "queue"; "multiple"];
  purpose "BLMPOP" ["pop"; "multiple"; "blocking"; "queue"; "list"];
  purpose "BLPOP" ["pop"; "head"; "blocking"; "queue"; "list"];
  purpose "BRPOP" ["pop"; "tail"; "blocking"; "queue"; "list"];
  purpose "BRPOPLPUSH" ["move"; "queue"; "blocking"; "list"; "multiple"; "deprecated"];
  purpose "BZMPOP" ["pop"; "blocking"; "multiple"; "sortedset"; "member"];
  purpose "BZPOPMAX" ["pop"; "blocking"; "score"; "sortedset"; "member"];
  purpose "BZPOPMIN" ["pop"; "blocking"; "score"; "sortedset"; "member"]; purpose "COPY" ["copy"; "key"];
  purpose "DECR" ["decrement"; "counter"; "number"; "string"];
  purpose "DECRBY" ["decrement"; "counter"; "number"; "string"]; purpose "DEL" ["delete"; "key"; "blocking"];
  purpose "DISCARD" ["transaction"; "cancel"; "rollback"]; purpose "DUMP" ["serialise"; "backup"; "key"];
  purpose "EXEC" ["transaction"; "atomic"; "commit"]; purpose "EXISTS" ["exists"; "key"];
  purpose "EXPIRE" ["expire"; "ttl"; "seconds"; "key"];
  purpose "EXPIREAT" ["expire"; "ttl"; "timestamp"; "key"];
  purpose "EXPIRETIME" ["ttl"; "timestamp"; "key"; "read-value"];
  purpose "GEOADD" ["add-member"; "location"; "geo"; "member"; "set-value"];
  purpose "GEODIST" ["distance"; "location"; "geo"; "member"];
  purpose "GEOHASH" ["location"; "encoding"; "geo"; "member"; "read-value"];
  purpose "GEOPOS" ["location"; "geo"; "member"; "read-value"];
  purpose "GEORADIUS" ["search"; "location"; "radius"; "geo"; "deprecated"]].

Definition PURPOSES_2 : list Purpose := [
  purpose "GEORADIUSBYMEMBER" ["search"; "location"; "radius"; "member"; "geo"; "deprecated"];
  purpose "GEORADIUSBYMEMBER_RO" ["read-only"; "search"; "location"; "radius"; "member"; "geo"; "deprecated"];
  purpose "GEORADIUS_RO" ["read-only"; "search"; "location"; "radius"; "geo"; "deprecated"];
  purpose "GEOSEARCH" ["search"; "location"; "radius"; "geo"];
  purpose "GEOSEARCHSTORE" ["search"; "radius"; "location"; "store"; "geo"];
  purpose "GET" ["read-value"; "string"];
  purpose "GETBIT" ["bit"; "read-value"; "index"; "offset"; "bitmap"; "string"];
  purpose "GETDEL" ["read-and-delete"; "read-value"; "delete"; "atomic"; "string"];
  purpose "GETEX" ["read-and-expire"; "read-value"; "expire"; "string"];
  purpose "GETRANGE" ["substring"; "range"; "offset"; "index"; "string"; "read-value"];
  purpose "GETSET" ["atomic"; "read-value"; "set-value"; "string"; "deprecated"];
  purpose "HDEL" ["delete"; "remove"; "hash"; "field"]; purpose "HEXISTS" ["exists"; "hash"; "field"];
  purpose "HEXPIRE" ["expire"; "field-ttl"; "hash"; "seconds"; "field"];
  purpose "HEXPIREAT" ["expire"; "field-ttl"; "timestamp"; "hash"; "field"];
  purpose "HEXPIRETIME" ["ttl"; "field-ttl"; "timestamp"; "hash"; "field"; "read-value"];
  purpose "HGET" ["read-value"; "hash"; "field"]; purpose "HGETALL" ["read-all"; "hash"; "read-value"];
  purpose "HGETDEL" ["read-and-delete"; "read-value"; "delete"; "atomic"; "hash"; "field"];
  purpose "HGETEX" ["read-and-expire"; "read-value"; "expire"; "hash"; "field"];
  purpose "HINCRBY" ["increment"; "counter"; "number"; "hash"; "field"];
  purpose "HINCRBYFLOAT" ["increment"; "float"; "number"; "hash"; "field"];
  purpose "HKEYS" ["list-fields"; "read-all"; "hash"; "field"; "read-value"];
  purpose "HLEN" ["count"; "hash"; "field"]; purpose "HMGET" ["read-value"; "multiple"; "hash"; "field"]].

Definition PURPOSES_3 : list Purpose := [
  purpose "HMSET" ["set-value"; "multiple"; "hash"; "deprecated"; "field"];
  purpose "HPERSIST" ["persist"; "field-ttl"; "hash"; "field"];
  purpose "HPEXPIRE" ["expire"; "field-ttl"; "hash"; "milliseconds"; "field"];
  purpose "HPEXPIREAT" ["expire"; "field-ttl"; "timestamp"; "milliseconds"; "hash"; "field"];
  purpose "HPEXPIRETIME" ["ttl"; "field-ttl"; "timestamp"; "milliseconds"; "hash"; "field"; "read-value"];
  purpose "HPTTL" ["ttl"; "field-ttl"; "milliseconds"; "hash"; "field"; "read-value"];
  purpose "HRANDFIELD" ["random"; "hash"; "field"; "read-value"];
  purpose "HSCAN" ["scan"; "iterate"; "hash"; "field"]; purpose "HSET" ["set-value"; "hash"; "field"];
  purpose "HSETEX" ["set-and-expire"; "set-value"; "expire"; "field-ttl"; "hash"; "field"];
  purpose "HSETNX" ["set-value"; "set-if-absent"; "hash"; "conditional"; "field"];
  purpose "HSTRLEN" ["length"; "hash"; "field"; "read-value"];
  purpose "HTTL" ["ttl"; "field-ttl"; "hash"; "field"; "read-value"];
  purpose "HVALS" ["list-values"; "read-all"; "hash"; "field"; "read-value"];
  purpose "INCR" ["increment"; "counter"; "number"; "string"];
  purpose "INCRBY" ["increment"; "counter"; "number"; "string"];
  purpose "INCRBYFLOAT" ["increment"; "float"; "number"; "string"];
  purpose "KEYS" ["search"; "pattern"; "key"; "dangerous"; "read-all"];
  purpose "LCS" ["compare"; "substring"; "multiple"; "string"];
  purpose "LINDEX" ["index"; "list"; "member"; "read-value"; "queue"];
  purpose "LINSERT" ["insert"; "list"; "queue"; "member"]; purpose "LLEN" ["count"; "list"; "queue"];
  purpose "LMOVE" ["move"; "list"; "atomic"; "queue"; "multiple"];
  purpose "LMPOP" ["pop"; "multiple"; "list"; "queue"; "member"];
  purpose "LPOP" ["pop"; "head"; "list"; "queue"; "member"];
  purpose "LPOS" ["search"; "index"; "list"; "queue"; "member"];
  purpose "LPUSH" ["push"; "head"; "list"; "queue"; "member"];
  purpose "LPUSHX" ["push"; "head"; "list"; "conditional"; "queue"];
  purpose "LRANGE" ["range"; "index"; "list"; "read-value"; "queue"; "member"];
  purpose "LREM" ["remove"; "member"; "list"; "queue"]].

Definition PURPOSES_4 : list Purpose := [
  purpose "LSET" ["index"; "set-value"; "list"; "member"; "queue"];
  purpose "LTRIM" ["trim"; "range"; "list"; "queue"]; purpose "MGET" ["read-value"; "multiple"; "string"];
  purpose "MIGRATE" ["migrate"; "move"; "cluster"; "key"]; purpose "MOVE" ["move"; "database"; "key"];
  purpose "MSET" ["set-value"; "multiple"; "string"];
  purpose "MSETNX" ["set-if-absent"; "multiple"; "string"; "conditional"];
  purpose "MULTI" ["transaction"; "atomic"; "batch"]; purpose "OBJECT" ["introspect"; "key"];
  purpose "OBJECT|ENCODING" ["introspect"; "encoding"; "memory"; "key"];
  purpose "OBJECT|FREQ" ["introspect"; "frequency"; "eviction"; "key"];
  purpose "OBJECT|IDLETIME" ["idle"; "introspect"; "eviction"; "key"];
  purpose "OBJECT|REFCOUNT" ["memory"; "introspect"; "key"]; purpose "PERSIST" ["persist"; "ttl"; "key"];
  purpose "PEXPIRE" ["expire"; "ttl"; "milliseconds"; "key"];
  purpose "PEXPIREAT" ["expire"; "ttl"; "timestamp"; "milliseconds"; "key"];
  purpose "PEXPIRETIME" ["ttl"; "timestamp"; "milliseconds"; "key"; "read-value"];
  purpose "PFADD" ["add-member"; "cardinality"; "approximate"; "hyperloglog"; "set-value"];
  purpose "PFCOUNT" ["count"; "cardinality"; "approximate"; "hyperloglog"];
  purpose "PFMERGE" ["union"; "cardinality"; "approximate"; "hyperloglog"; "multiple"];
  purpose "PSETEX" ["set-and-expire"; "expire"; "set-value"; "milliseconds"; "string"];
  purpose "PSUBSCRIBE" ["subscribe"; "pattern"; "channel"; "pubsub"];
  purpose "PTTL" ["ttl"; "milliseconds"; "key"; "read-value"];
  purpose "PUBLISH" ["publish"; "channel"; "pubsub"]; purpose "PUBSUB" ["introspect"; "pubsub"; "subscribe"];
  purpose "PUBSUB|CHANNELS" ["introspect"; "channel"; "subscribe"; "pubsub"];
  purpose "PUBSUB|NUMPAT" ["count"; "introspect"; "pattern"; "subscribe"; "pubsub"];
  purpose "PUBSUB|NUMSUB" ["count"; "introspect"; "channel"; "subscribe"; "pubsub"];
  purpose "PUBSUB|SHARDCHANNELS" ["introspect"; "shard"; "channel"; "subscribe"; "cluster"; "pubsub"]].

Definition PURPOSES_5 : list Purpose := [
  purpose "PUBSUB|SHARDNUMSUB" ["count"; "introspect"; "shard"; "channel"; "subscribe"; "cluster"; "pubsub"];
  purpose "PUNSUBSCRIBE" ["unsubscribe"; "pattern"; "channel"; "pubsub"];
  purpose "RANDOMKEY" ["random"; "key"]; purpose "RENAME" ["rename"; "key"];
  purpose "RENAMENX" ["rename"; "set-if-absent"; "key"; "conditional"];
  purpose "RESTORE" ["deserialise"; "backup"; "key"];
  purpose "RPOP" ["pop"; "tail"; "list"; "queue"; "member"];
  purpose "RPOPLPUSH" ["move"; "queue"; "list"; "atomic"; "multiple"; "deprecated"];
  purpose "RPUSH" ["push"; "tail"; "append"; "list"; "queue"; "member"];
  purpose "RPUSHX" ["push"; "tail"; "append"; "list"; "conditional"; "queue"];
  purpose "SADD" ["add-member"; "set"; "member"; "set-value"];
  purpose "SCAN" ["scan"; "key"; "iterate"; "pattern"]; purpose "SCARD" ["count"; "set"; "member"];
  purpose "SDIFF" ["difference"; "set"; "member"]; purpose "SDIFFSTORE" ["difference"; "store"; "set"];
  purpose "SET" ["set-value"; "string"; "conditional"; "expire"];
  purpose "SETBIT" ["bit"; "set-value"; "index"; "offset"; "bitmap"; "string"];
  purpose "SETEX" ["set-and-expire"; "expire"; "set-value"; "seconds"; "string"];
  purpose "SETNX" ["set-if-absent"; "conditional"; "set-value"; "string"];
  purpose "SETRANGE" ["substring"; "offset"; "string"; "set-value"];
  purpose "SINTER" ["intersection"; "set"; "member"];
  purpose "SINTERCARD" ["intersection"; "count"; "set"; "member"];
  purpose "SINTERSTORE" ["intersection"; "store"; "set"]; purpose "SISMEMBER" ["exists"; "member"; "set"];
  purpose "SMEMBERS" ["read-all"; "set"; "member"; "read-value"];
  purpose "SMISMEMBER" ["exists"; "member"; "multiple"; "set"];
  purpose "SMOVE" ["move"; "set"; "atomic"; "member"; "multiple"];
  purpose "SORT" ["sort"; "list"; "set"; "sortedset"];
  purpose "SORT_RO" ["read-only"; "sort"; "list"; "set"; "sortedset"];
  purpose "SPOP" ["pop"; "random"; "set"; "member"];
  purpose "SPUBLISH" ["publish"; "shard"; "channel"; "cluster"; "pubsub"];
  purpose "SRANDMEMBER" ["random"; "set"; "member"]; purpose "SREM" ["remove"; "member"; "set"];
  purpose "SSCAN" ["scan"; "iterate"; "set"];
  purpose "SSUBSCRIBE" ["subscribe"; "shard"; "channel"; "cluster"; "pubsub"]].

Definition PURPOSES_6 : list Purpose := [
  purpose "STRLEN" ["length"; "string"]; purpose "SUBSCRIBE" ["subscribe"; "channel"; "pubsub"];
  purpose "SUBSTR" ["substring"; "range"; "offset"; "string"; "deprecated"; "read-value"];
  purpose "SUNION" ["union"; "set"; "member"]; purpose "SUNIONSTORE" ["union"; "store"; "set"];
  purpose "SUNSUBSCRIBE" ["unsubscribe"; "shard"; "channel"; "cluster"; "pubsub"];
  purpose "TOUCH" ["touch"; "idle"; "key"]; purpose "TTL" ["ttl"; "seconds"; "key"; "read-value"];
  purpose "TYPE" ["type-of"; "key"]; purpose "UNLINK" ["delete"; "key"; "async"];
  purpose "UNSUBSCRIBE" ["unsubscribe"; "channel"; "pubsub"];
  purpose "UNWATCH" ["watch"; "cancel"; "optimistic-lock"; "transaction"];
  purpose "WAIT" ["replication"; "durability"; "acknowledge"];
  purpose "WAITAOF" ["persistence"; "durability"; "replication"; "acknowledge"];
  purpose "WATCH" ["watch"; "optimistic-lock"; "transaction"];
  purpose "ZADD" ["add-member"; "score"; "sortedset"; "conditional"; "member"; "set-value"; "insert"];
  purpose "ZCARD" ["count"; "sortedset"; "member"];
  purpose "ZCOUNT" ["count"; "score"; "range"; "sortedset"; "member"];
  purpose "ZDIFF" ["difference"; "sortedset"; "member"];
  purpose "ZDIFFSTORE" ["difference"; "store"; "sortedset"];
  purpose "ZINCRBY" ["increment"; "score"; "sortedset"; "member"];
  purpose "ZINTER" ["intersection"; "sortedset"; "member"];
  purpose "ZINTERCARD" ["intersection"; "count"; "sortedset"; "member"];
  purpose "ZINTERSTORE" ["intersection"; "store"; "sortedset"];
  purpose "ZLEXCOUNT" ["count"; "lexicographic"; "range"; "sortedset"];
  purpose "ZMPOP" ["pop"; "multiple"; "sortedset"; "member"];
  purpose "ZMSCORE" ["score"; "multiple"; "sortedset"; "member"; "read-value"];
  purpose "ZPOPMAX" ["pop"; "score"; "sortedset"; "member"];
  purpose "ZPOPMIN" ["pop"; "score"; "sortedset"; "member"];
  purpose "ZRANDMEMBER" ["random"; "sortedset"; "member"];
  purpose "ZRANGE" ["range"; "rank"; "leaderboard"; "sortedset"; "member"; "read-value"]].

Definition PURPOSES_7 : list Purpose := [
  purpose "ZRANGEBYLEX" ["range"; "lexicographic"; "sortedset"; "deprecated"; "member"];
  purpose "ZRANGEBYSCORE" ["range"; "score"; "sortedset"; "deprecated"; "member"];
  purpose "ZRANGESTORE" ["range"; "store"; "sortedset"];
  purpose "ZRANK" ["rank"; "leaderboard"; "sortedset"; "member"];
  purpose "ZREM" ["remove"; "member"; "sortedset"];
  purpose "ZREMRANGEBYLEX" ["remove"; "lexicographic"; "range"; "sortedset"; "member"];
  purpose "ZREMRANGEBYRANK" ["remove"; "rank"; "range"; "sortedset"; "member"];
  purpose "ZREMRANGEBYSCORE" ["remove"; "score"; "range"; "sortedset"; "member"];
  purpose "ZREVRANGE" ["range"; "rank"; "reverse"; "leaderboard"; "sortedset"; "member"; "read-value"; "deprecated"];
  purpose "ZREVRANGEBYLEX" ["range"; "lexicographic"; "reverse"; "sortedset"; "deprecated"; "member"];
  purpose "ZREVRANGEBYSCORE" ["range"; "score"; "reverse"; "sortedset"; "deprecated"; "member"];
  purpose "ZREVRANK" ["rank"; "reverse"; "leaderboard"; "sortedset"; "member"];
  purpose "ZSCAN" ["scan"; "iterate"; "sortedset"];
  purpose "ZSCORE" ["score"; "sortedset"; "member"; "read-value"];
  purpose "ZUNION" ["union"; "sortedset"; "member"]; purpose "ZUNIONSTORE" ["union"; "store"; "sortedset"]].

Definition PURPOSES : list Purpose :=
  PURPOSES_1 ++ PURPOSES_2 ++ PURPOSES_3 ++ PURPOSES_4 ++ PURPOSES_5 ++ PURPOSES_6 ++ PURPOSES_7.

Definition IMPLIES : list Implication := [
  rule ["remove"; "expire"] "persist" false;
  rule ["delete"; "expire"] "persist" false;
  rule ["read-value"; "delete"] "delete" false;
  rule ["count"; "member"] "count" false;
  rule ["search"; "location"] "radius" false;
  rule ["read-all"; "hash"] "read-all" false;
  rule ["set-value"; "expire"] "expire" false;
  rule ["set-value"; "expire"] "field-ttl" false;
  rule ["ttl"; "hash"] "field-ttl" false;
  rule ["expire"; "hash"] "field-ttl" false;
  rule ["persist"; "hash"] "field-ttl" false;
  rule ["sort"; "read"] "sort" false;
  rule ["read-value"; "expire"] "read-and-expire" false;
  rule ["read-value"; "delete"] "read-and-delete" false;
  rule ["set-value"; "expire"] "set-and-expire" false;
  rule ["cancel"; "subscribe"] "unsubscribe" false;
  rule ["pop"; "push"] "move" false;
  rule ["pop"; "move"] "move" false;
  rule ["pop"; "push"] "move" true;
  rule ["set-value"; "ttl"] "set-and-expire" false;
  rule ["set-value"; "ttl"] "expire" false;
  rule ["read-value"; "ttl"] "read-and-expire" false;
  rule ["score"] "sortedset" false;
  rule ["field"] "hash" false;
  rule ["channel"] "pubsub" false;
  rule ["queue"] "list" false;
  rule ["remove"; "key"] "delete" false;
  rule ["delete"; "member"] "remove" false;
  rule ["remove"; "read-value"] "pop" false].

(** ** Facts of the tables *)

Lemma implies_settles : settles IMPLIES 4 = true.
Proof. vm_compute. reflexivity. Qed.

(** Four passes over the implications are enough, and order does not matter:
    whatever concepts a query mentions, the result of the passes is the least set
    that holds all of them and is closed under every rule.  In particular nothing
    mentioned is ever removed, though one rule of the table is to remove what it
    is drawn from ([moving_is_answered_by_lpush]). *)
Theorem implications_settle mentioned :
  mentioned ⊆ apply_implications IMPLIES 4 mentioned /\
  closed IMPLIES (apply_implications IMPLIES 4 mentioned) /\
  forall T, closed IMPLIES T -> mentioned ⊆ T -> apply_implications IMPLIES 4 mentioned ⊆ T.
Proof. apply (settles_closure mentioned IMPLIES 4), implies_settles. Qed.

Lemma implications_settle_witness :
  chars "field-ttl" ∈ apply_implications IMPLIES 4 {[chars "persist"; chars "field"]}.
Proof.
  destruct (implications_settle {[chars "persist"; chars "field"]}) as (Hs & Hc & _).
  apply (Hc (rule ["persist"; "hash"] "field-ttl" false)); [apply (list_elem_of_lookup_2 _ 10); vm_compute; reflexivity|].
  assert (Hh : chars "hash" ∈ apply_implications IMPLIES 4 {[chars "persist"; chars "field"]}).
  { apply (Hc (rule ["field"] "hash" false)); [apply (list_elem_of_lookup_2 _ 23); vm_compute; reflexivity|].
    intros c E%list_elem_of_singleton. subst c. apply Hs, elem_of_union. right. apply elem_of_singleton. reflexivity. }
  intros c E. change (c ∈ [chars "persist"; chars "hash"]) in E. apply elem_of_cons in E as [E|E%list_elem_of_singleton]; subst c.
  - apply Hs, elem_of_union. left. apply elem_of_singleton. reflexivity.
  - exact Hh.
Defined.

(** The finder of the repository, without its phrases. *)
Definition finder : Finder := from_parts TERMS PURPOSES.

Definition names (hits : option (list Hit)) : option (list str) := option_map (map command) hits.

(** ** Where the comments promise more *)

(** The rule that is to replace [pop] and [push] by [move] comes after one that
    adds [move] and keeps them, so it never applies: the question about moving
    is answered by [LPUSH]. *)
Lemma moving_is_answered_by_lpush :
  rule ["pop"; "push"] "move" true ∈ IMPLIES /\
  (option_map (take 1) (names (rank_by_concept lower finder IMPLIES (chars "pop from one list and push onto another")))) =
    Some [chars "LPUSH"].
Proof. split; [apply (list_elem_of_lookup_2 _ 18); vm_compute; reflexivity|]. vm_compute. reflexivity. Qed.

(** Terms do mean [DEPRECATED]. *)
Lemma deprecated_is_matchable :
  (fun s => bool_decide (DEPRECATED ∈ s)) <$> concepts_of lower finder (chars "legacy range by score") = Some true.
Proof. vm_compute. reflexivity. Qed.

(** Concepts that purposes list and no term or rule gives. *)
Definition unreachable : list Concept := [chars "rollback"; chars "durability"; chars "dangerous"].

Lemma unreachable_never_mentioned to_lower query found c : c ∈ unreachable ->
  concepts_of to_lower finder query = Some found -> c ∉ apply_implications IMPLIES 4 found.
Proof.
  intros Hc Hf Hin.
  assert (Hterms : forall t, t ∈ TERMS -> c ∉ term_concepts t).
  { assert (G : forallb (fun t => forallb (fun u => bool_decide (u ∉ term_concepts t)) unreachable) TERMS = true) by (vm_compute; reflexivity).
    rewrite forallb_forall in G. intros t Ht%list_elem_of_In. specialize (G t Ht). rewrite forallb_forall in G.
    apply list_elem_of_In, G, bool_decide_eq_true in Hc. exact Hc. }
  assert (Hout : c ∉ found).
  { intros Hin'. destruct (scan_terms_sound _ _ _ _ _ _ c Hf Hin') as [He|(t & _ & Ht & Hct & _)]; [by apply elem_of_empty in He|].
    unfold finder in Ht. rewrite from_parts_terms in Ht. exact (Hterms t Ht Hct). }
  destruct (settles_closure found IMPLIES 4 implies_settles) as (Hs & Hcl & Hmin).
  revert Hin Hs Hcl Hmin. generalize (apply_implications IMPLIES 4 found) as res. intros res Hin Hs Hcl Hmin.
  assert (Hsub : res ⊆ res ∖ {[c]}).
  2: { apply Hsub, elem_of_difference in Hin as [_ Hin]. apply Hin, elem_of_singleton. reflexivity. }
  apply Hmin.
  2: { intros d Hd. apply elem_of_difference. split; [exact (Hs d Hd)|].
       intros E%elem_of_singleton. subst d. exact (Hout Hd). }
  intros r Hr Hn. apply elem_of_difference. split.
  - apply Hcl; [exact Hr|]. intros d Hd%Hn. apply elem_of_difference in Hd as [Hd _]. exact Hd.
  - intros E%elem_of_singleton. subst c.
    assert (G : forallb (fun r => bool_decide (follows r ∉ unreachable)) IMPLIES = true) by (vm_compute; reflexivity).
    rewrite forallb_forall in G. apply list_elem_of_In, G, bool_decide_eq_true in Hr. exact (Hr Hc).
Qed.

(** A query whose lower case is longer than it: the marks are too few, and the
    search panics. *)
Lemma longer_lower_case_panics :
  let to_lower := fun s => s ≫= (fun c => if decide (c = 304) then [105; 775] else [c]) in
  concepts_of to_lower finder (304 :: chars " set") = None.
Proof. vm_compute. reflexivity. Qed.
