(* ===== verification/Mcp.v ===== *)
(** * The MCP adapter ([pr-mcp/src/tools.rs], [stdio.rs])

    The closed list of tools and what authorises a call, over [Approval] and
    [Policy]; and the loop that answers JSON-RPC lines on standard output.  JSON
    is that of the serde_json library, a parameter (the class [SerdeJson], with
    the documented laws the loop relies on); so are the backend and the Debug
    format. *)

From S2P Require Import Prelude Text TextFacts Lines SafeText Request Trust Approval Policy.

(** ** Tools *)

Inductive Tool :=
| ConnectionsListSafe
| RedisRead
| RedisInspect
| RedisScanLimited
| RedisDiagnose
| RedisPlanWrite
| RedisExecuteApprovedPlan.

#[export] Instance tool_eq_dec : EqDecision Tool.
Proof. solve_decision. Defined.

Definition tool_name (t : Tool) : str :=
  match t with
  | ConnectionsListSafe => chars "connections.list_safe"
  | RedisRead => chars "redis.read"
  | RedisInspect => chars "redis.inspect"
  | RedisScanLimited => chars "redis.scan_limited"
  | RedisDiagnose => chars "redis.diagnose"
  | RedisPlanWrite => chars "redis.plan_write"
  | RedisExecuteApprovedPlan => chars "redis.execute_approved_plan"
  end.

Definition ALL : list Tool :=
  [ConnectionsListSafe; RedisRead; RedisInspect; RedisScanLimited; RedisDiagnose; RedisPlanWrite; RedisExecuteApprovedPlan].

Definition parse_tool (name : str) : option Tool := List.find (fun t => bool_decide (tool_name t = name)) ALL.

Definition description (t : Tool) : str :=
  match t with
  | ConnectionsListSafe => chars "List profiles the agent may use. Endpoints and secrets are withheld."
  | RedisRead => chars "Read named keys. Covered by a policy approval only when every key matches a pattern the profile lists."
  | RedisInspect => chars "Type, length and TTL for named keys. Does not read values."
  | RedisScanLimited => chars "Scan with an explicit bound. There is no unbounded sweep."
  | RedisDiagnose => chars "Read-only diagnostics about the connection and server."
  | RedisPlanWrite => chars "Produce a write plan and its plan_hash for a person to review. Runs nothing."
  | RedisExecuteApprovedPlan =>
      chars "Execute a plan a person approved. Every call requires a human-signed approval token whose plan_hash matches."
  end.

Definition policy_may_reach (t : Tool) : bool :=
  match t with
  | ConnectionsListSafe | RedisRead | RedisInspect | RedisScanLimited | RedisDiagnose => true
  | RedisPlanWrite | RedisExecuteApprovedPlan => false
  end.

Inductive Authorisation :=
| NotRequired
| ByPolicy (rule : bytes) (version : Z)
| ByHuman.

Inductive ToolRefusal :=
| UnknownTool (n : str)
| NeedsApproval (policy : PolicyRefusal)
| TokenRefused (r : ApprovalRefusal)
| TokenIsNotHuman
| PlanHashMismatch (expected got : str)
| PlanNeedsHumanToken.

(** The names of the variants, which is their Debug format. *)
Definition refusal_debug (r : ApprovalRefusal) : str :=
  match r with
  | RequestMismatch => chars "RequestMismatch"
  | ProfileMismatch => chars "ProfileMismatch"
  | TrustIdentityMismatch => chars "TrustIdentityMismatch"
  | DbMismatch => chars "DbMismatch"
  | EpochChanged => chars "EpochChanged"
  | Expired => chars "Expired"
  | ActionBudgetExhausted => chars "ActionBudgetExhausted"
  | PolicyCannotAuthorise => chars "PolicyCannotAuthorise"
  end.

Definition refusal_message (r : ToolRefusal) : str :=
  match r with
  | UnknownTool n => n ++ txt " is not a tool. Penguin exposes a closed list; there is no arbitrary-command tool (§29.4)"
  | NeedsApproval policy => chars "a person must approve this: " ++ from_utf8_lossy (Policy.message policy)
  | TokenRefused r => chars "the approval token does not authorise this: " ++ refusal_debug r
  | TokenIsNotHuman => txt "this request needs an approval a person signed; a policy cannot issue one (§29.4)"
  | PlanHashMismatch expected got =>
      chars "the approval is for plan " ++ expected ++ chars " and this call is for " ++ got
      ++ chars "; approving a plan does not approve a different one"
  | PlanNeedsHumanToken =>
      txt "every execute_approved_plan call needs a human-signed token whose plan_hash matches, even when the plan only reads (§29.4)"
  end.

Record Call := mkCall {
  tool : Tool;
  request : option CommandRequest;
  call_keys : list bytes;
  estimated_bytes : Z;
  calls_in_last_hour : Z;
}.

Definition is_human (i : Issuer) : bool := match i with Human => true | Approval.Policy _ => false end.

Section Authorise.
Context (blake3 : bytes -> bytes).

(** A token's answer, as the call's. *)
Definition by_token (t : ApprovalToken) (req : CommandRequest) (ctx : ExecutionContext) : result ToolRefusal Authorisation :=
  match Approval.authorise blake3 t req ctx with
  | Ok _ => Ok ByHuman
  | Err r => Err (TokenRefused r)
  end.

Definition authorise (c : Call) (rule : option PolicyRule) (token : option ApprovalToken) (ctx : ExecutionContext)
  : result ToolRefusal Authorisation :=
  if decide (tool c = RedisExecuteApprovedPlan) then
    match token with
    | None => Err PlanNeedsHumanToken
    | Some t =>
        if negb (is_human (issued_by t)) then Err TokenIsNotHuman
        else match request c with
             | None => Err PlanNeedsHumanToken
             | Some req => by_token t req ctx
             end
    end
  else
    match request c with
    | None => Ok NotRequired
    | Some req =>
        match (t ← token; if is_human (issued_by t) then Some t else None) with
        | Some t => by_token t req ctx
        | None =>
            if negb (policy_may_reach (tool c)) then
              Err (NeedsApproval (NotReadOnly (bs "not a tool a policy can reach")))
            else
              match rule with
              | None => Err (NeedsApproval NoKeyPatterns)
              | Some r =>
                  match may_authorise r req (call_keys c) (estimated_bytes c) (calls_in_last_hour c) with
                  | Ok _ => Ok (ByPolicy (rule_id r) (Policy.version r))
                  | Err e => Err (NeedsApproval e)
                  end
              end
        end
    end.

End Authorise.

(** ** JSON, as the library's documentation describes it *)

Class SerdeJson (V : Type) := {
  from_str : str -> result str V;
  to_string : V -> str;
  get : str -> V -> option V;
  as_str : V -> option str;
  jnull : V;
  jstr : str -> V;
  jnum : Z -> V;
  jarr : list V -> V;
  jobj : list (str * V) -> V;
}.

(** The compact printer writes no line break, and a member of an object is found
    by its name. *)
Class SerdeLaws (V : Type) `{SerdeJson V} : Prop := {
  print_line v : 10 ∉ to_string v;
  print_end v : last (to_string v) <> Some 13;
  get_obj k ms : NoDup ms.*1 -> get k (jobj ms) = snd <$> List.find (fun m => bool_decide (m.1 = k)) ms;
}.

(** ** The server *)

Record Backend := mkBackend {
  safe_profile_names : list str;
  policy_rule : str -> option PolicyRule;
  credential_available : str -> bool;
}.

Definition EmptyBackend : Backend := mkBackend [] (fun _ => None) (fun _ => false).

Definition PARSE_ERROR : Z := -32700.
Definition INVALID_REQUEST : Z := -32600.
Definition METHOD_NOT_FOUND : Z := -32601.
Definition INVALID_PARAMS : Z := -32602.
Definition APPROVAL_REQUIRED : Z := -32001.
Definition CREDENTIAL_UNAVAILABLE : Z := -32002.
Definition NOT_IMPLEMENTED : Z := -32003.

Section Stdio.
Context {V : Type} `{SerdeJson V} (debug : str -> str) (pkg_version : str) (backend : Backend).

Definition ok_frame (id r : V) : V :=
  jobj [(chars "jsonrpc", jstr (chars "2.0")); (chars "id", id); (chars "result", r)].
Definition error_frame (id : V) (code : Z) (m : str) : V :=
  jobj [(chars "jsonrpc", jstr (chars "2.0")); (chars "id", id);
        (chars "error", jobj [(chars "code", jnum code); (chars "message", jstr m)])].

Definition answer_frame (id : V) (r : result (Z * str) V) : V :=
  match r with
  | Ok v => ok_frame id v
  | Err (c, m) => error_frame id c m
  end.

Definition initialize_result : V :=
  jobj [(chars "protocolVersion", jstr (chars "2025-06-18"));
        (chars "capabilities", jobj [(chars "tools", jobj [])]);
        (chars "serverInfo", jobj [(chars "name", jstr (chars "penguin-redis")); (chars "version", jstr pkg_version)])].

Definition tools_list_result : V :=
  jobj [(chars "tools", jarr ((fun t => jobj [(chars "name", jstr (tool_name t)); (chars "description", jstr (description t))]) <$> ALL))].

(** [tools/call]: the answer, before it is known whether one is due. *)
Definition call_result (v : V) : result (Z * str) V :=
  let params := get (chars "params") v in
  match (p ← params; n ← get (chars "name") p; as_str n) with
  | None => Err (INVALID_PARAMS, chars "no tool name")
  | Some name =>
      match parse_tool name with
      | None => Err (METHOD_NOT_FOUND,
                     name ++ txt " is not a tool; Penguin exposes a closed list and no arbitrary-command tool (§29.4)")
      | Some t =>
          let profile := default [] (p ← params; a ← get (chars "arguments") p; pr ← get (chars "profile") a; as_str pr) in
          match t with
          | ConnectionsListSafe =>
              Ok (jobj [(chars "profiles", jarr (jstr <$> safe_profile_names backend));
                        (chars "note", jstr (txt "endpoints and secrets are not exposed over MCP (§29.4)"))])
          | RedisExecuteApprovedPlan => Err (APPROVAL_REQUIRED, refusal_message PlanNeedsHumanToken)
          | _ =>
              if credential_available backend profile
              then Err (NOT_IMPLEMENTED, name ++ chars " is not implemented in Phase 0")
              else Err (CREDENTIAL_UNAVAILABLE,
                        chars "no credential is available for " ++ debug profile
                        ++ chars " and this path never prompts; run `prc @" ++ profile
                        ++ chars "` once in a terminal to store one")
          end
      end
  end.

Definition method_result (method : str) (v : V) : result (Z * str) V :=
  if decide (method = chars "initialize") then Ok initialize_result
  else if decide (method = chars "tools/list") then Ok tools_list_result
  else if decide (method = chars "tools/call") then call_result v
  else if decide (method = chars "ping") then Ok (jobj [])
  else Err (METHOD_NOT_FOUND, method).

(** One line; [None] for a notification. *)
Definition handle (line : str) : option str :=
  match from_str line with
  | Err e => Some (to_string (error_frame jnull PARSE_ERROR e))
  | Ok v =>
      let id := default jnull (get (chars "id") v) in
      match (m ← get (chars "method") v; as_str m) with
      | None => Some (to_string (error_frame id INVALID_REQUEST (chars "no method")))
      | Some method =>
          match get (chars "id") v with
          | None => None
          | Some _ => Some (to_string (answer_frame id (method_result method v)))
          end
      end
  end.

(** What becomes of one frame on the pipe: it goes through, or the pipe fails
    after some of its bytes (all of them, when it is the flush that fails). *)
Inductive Write := Through | Broken (n : nat).

Definition write_frame (w : Write) (f : str) : bytes * bool :=
  let b := encode_str f ++ [x0a] in
  match w with
  | Through => (b, true)
  | Broken n => (take n b, false)
  end.

Fixpoint serve_lines (writes : list Write) (lines : list bytes) (out : bytes) : bytes * bool :=
  match lines with
  | [] => (out, true)
  | b :: r =>
      match from_utf8 b with
      | None => (out, false)
      | Some line =>
          if decide (trim line = []) then serve_lines writes r out
          else match handle line with
               | Some f =>
                   let '(o, ok) := write_frame (default Through (head writes)) f in
                   if ok then serve_lines (tail writes) r (out ++ o) else (out ++ o, false)
               | None => serve_lines writes r out
               end
      end
  end.

(** [BufRead::lines] cuts bytes as [str::lines] cuts text; a line that is not
    UTF-8 is an error of the read. *)
Definition byte_lines (b : bytes) : list bytes := map (map zb) (str_lines (map bz b)).

Record Served := mkServed { served_out : bytes; served_log : list str; finished : bool }.

Definition serve (writes : list Write) (input : bytes) : Served :=
  let '(out, ok) := serve_lines writes (byte_lines input) [] in
  mkServed out
    (chars "penguin-redis mcp-stdio: ready"
     :: (if ok then [chars "penguin-redis mcp-stdio: stdin closed"] else [])) ok.

End Stdio.

(** ** What is authorised *)

Lemma find_tool_some name l t : List.find (fun t => bool_decide (tool_name t = name)) l = Some t -> t ∈ l /\ tool_name t = name.
Proof. intros [Hin Ht%bool_decide_eq_true]%find_some. split; [by apply list_elem_of_In|done]. Qed.

(** The list is closed: exactly the names of its tools are tools. *)
Lemma parse_tool_exact name t : parse_tool name = Some t <-> name = tool_name t.
Proof.
  split; [by intros [_ ->]%find_tool_some|]. intros ->. by destruct t.
Qed.

Lemma by_token_ok blake3 t req ctx a : by_token blake3 t req ctx = Ok a <->
  a = ByHuman /\ Approval.authorise blake3 t req ctx = Ok tt.
Proof.
  unfold by_token. destruct (Approval.authorise _ _ _ _) as [[]|]; split; intros Hk; try done; [by injection Hk as <-|by destruct Hk as [-> _]|by destruct Hk].
Qed.

(** C9. What an agent may do without a person: a call that touches the server is
    let through only by a token a person signed, which authorises exactly this
    request, or by a rule; and by a rule only when the tool is one a policy may
    reach, the request is a plain read and every key is covered.  Executing a plan
    always takes the person's token. *)
Theorem tool_calls_authorised blake3 c rule token ctx a : authorise blake3 c rule token ctx = Ok a ->
  (tool c = RedisExecuteApprovedPlan -> a = ByHuman) /\
  match request c with
  | None => a = NotRequired
  | Some req =>
      (a = ByHuman /\ exists t, token = Some t /\ issued_by t = Human /\ Approval.authorise blake3 t req ctx = Ok tt) \/
      (exists r, rule = Some r /\ a = ByPolicy (rule_id r) (Policy.version r) /\ policy_may_reach (tool c) = true /\
         mutates (effects req) = false /\ effects req = effects_read /\ call_keys c <> [] /\
         (forall k, k ∈ call_keys c -> covered (key_patterns r) k) /\
         estimated_bytes c <= max_result_bytes r /\ calls_in_last_hour c < max_calls_per_hour r)
  end.
Proof.
  unfold authorise. destruct (decide (tool c = _)) as [Ht|Ht].
  - destruct token as [t|]; [|done]. destruct (issued_by t) eqn:Ei; cbn; [|done].
    destruct (request c) as [req|]; [|done]. intros [-> Hk]%by_token_ok. split; [done|]. left. split; [done|]. by exists t.
  - intros Hk. split; [by intros ?|]. destruct (request c) as [req|]; [|by injection Hk].
    destruct (t ← token; _) as [t|] eqn:Et.
    + apply by_token_ok in Hk as [-> Hk]. left. split; [done|]. destruct token as [t'|]; [|done]. cbn in Et.
      destruct (issued_by t') eqn:Ei; [|done]. injection Et as ->. by exists t.
    + destruct (policy_may_reach (tool c)) eqn:Ep; cbn in Hk; [|done]. destruct rule as [r|]; [|done].
      destruct (may_authorise _ _ _ _ _) as [[]|] eqn:Em; [|done]. injection Hk as <-. right. exists r.
      apply may_authorise_ok in Em as (He & _ & Hk & Hc & Hs & Hr).
      repeat (split; [first [done|by rewrite He]|]). done.
Qed.

(** ** What is written to standard output *)

Section Frames.
Context {V : Type} `{SL : SerdeLaws V} (debug : str -> str) (pkg_version : str) (backend : Backend).

Abbreviation handle := (handle debug pkg_version backend).

(** The answer to a line, as a document: none for a notification. *)
Definition answers (line : str) (v : V) : Prop :=
  exists id, get (chars "jsonrpc") v = Some (jstr (chars "2.0")) /\ get (chars "id") v = Some id /\
    (is_Some (get (chars "result") v) <-> get (chars "error") v = None) /\
    match from_str line with
    | Err _ => id = jnull
    | Ok req => id = default jnull (get (chars "id") req)
    end.

Lemma get_member k k' (v : V) ms : NoDup (k' :: ms.*1) ->
  get k (jobj ((k', v) :: ms)) = if decide (k' = k) then Some v else get k (jobj ms).
Proof.
  intros Hn. rewrite get_obj by done. inversion_clear Hn. rewrite get_obj by done. cbn [List.find fst].
  case_decide as E; [by rewrite bool_decide_true|by rewrite bool_decide_false].
Qed.

Lemma get_none k : get k (jobj ([] : list (str * V))) = None.
Proof. by rewrite get_obj by constructor. Qed.

Ltac members := repeat (rewrite get_member by (apply (bool_decide_unpack _); vm_compute; exact I)); rewrite ?get_none; cbn [decide].

Lemma ok_frame_answers line id r :
  match from_str line with Err _ => id = jnull | Ok req => id = default jnull (get (chars "id") req) end ->
  answers line (ok_frame id r).
Proof.
  intros Hid. exists id. unfold ok_frame. members. vm_compute decide. split; [done|]. split; [done|]. split; [|done].
  split; [done|by eexists].
Qed.

Lemma error_frame_answers line id c m :
  match from_str line with Err _ => id = jnull | Ok req => id = default jnull (get (chars "id") req) end ->
  answers line (error_frame id c m).
Proof.
  intros Hid. exists id. unfold error_frame. members. vm_compute decide. split; [done|]. split; [done|]. split; [|done].
  split; [by intros [? ?]|done].
Qed.

Lemma handle_answers line f : handle line = Some f ->
  exists v, f = to_string v /\ answers line v.
Proof.
  unfold Mcp.handle. destruct (from_str line) as [req|e] eqn:E.
  - destruct (m ← get _ req; as_str m) as [method|].
    + destruct (get (chars "id") req) as [id|] eqn:Ei; [|done]. intros [= <-]. eexists. split; [done|].
      destruct (method_result _ _ _ _ _) as [r|[c m]]; cbn [answer_frame];
        [apply ok_frame_answers|apply error_frame_answers]; by rewrite E, Ei.
    + intros [= <-]. eexists. split; [done|]. apply error_frame_answers. by rewrite E.
  - intros [= <-]. eexists. split; [done|]. apply error_frame_answers. by rewrite E.
Qed.

(** A notification: a document with a method and no id. *)
Definition is_notification (line : str) : Prop :=
  exists req, from_str line = Ok req /\ is_Some (m ← get (chars "method") req; as_str m) /\ get (chars "id") req = None.

Lemma handle_none line : handle line = None <-> is_notification line.
Proof.
  unfold Mcp.handle, is_notification. destruct (from_str line) as [req|e]; [|split; [done|by intros (? & ? & _)]].
  destruct (m ← get _ req; as_str m) as [method|] eqn:Em.
  - destruct (get (chars "id") req) as [id|] eqn:Ei; split; try done.
    + intros (r & [= <-] & _ & Hn). congruence.
    + intros _. exists req. rewrite Em. by repeat split.
  - split; [done|]. intros (r & [= <-] & [m Hm] & _). congruence.
Qed.

(** The lines that are due an answer: neither blank nor a notification. *)
Definition due (l : str) : bool := negb (bool_decide (trim l = [])) && bool_decide (handle l <> None).

Lemma due_spec l : due l = true <-> trim l <> [] /\ ~ is_notification l.
Proof. unfold due. by rewrite andb_true_iff, negb_true_iff, bool_decide_eq_false, bool_decide_eq_true, handle_none. Qed.

(** The frames, as one text. *)
Definition frames (fs : list str) : str := fs ≫= (fun f => f ++ [10]).

Lemma frames_lines fs : Forall (fun f => (10 ∉ f) /\ last f <> Some 13) fs ->
  terminated (frames fs) /\ str_lines (frames fs) = fs.
Proof.
  induction fs as [|f fs IH] using rev_ind; [intros _; split; [by left|done]|]. intros [Hf [Hn Hc]%Forall_singleton]%Forall_app.
  destruct (IH Hf) as [Ht Hl]. unfold frames in *. rewrite bind_app. cbn [mbind list_bind]. rewrite app_nil_r.
  split; [apply terminated_snoc|]. by rewrite str_lines_app, Hl, str_lines_single.
Qed.

(** The lines up to the first that is not text. *)
Fixpoint texts (lines : list bytes) : list str :=
  match lines with
  | [] => []
  | b :: r => match from_utf8 b with Some t => t :: texts r | None => [] end
  end.

(** What a pipe passes on of the frames written to it: those before the failure
    whole, and the part of the next it took. *)
Inductive passed : list Write -> list str -> bytes -> bool -> Prop :=
| passed_all ws fs : Forall (eq Through) (take (length fs) ws) -> passed ws fs (encode_str (frames fs)) true
| passed_until ws ws' n fs f fs' : Forall (eq Through) ws -> length ws = length fs ->
    passed (ws ++ Broken n :: ws') (fs ++ f :: fs') (encode_str (frames fs) ++ take n (encode_str f ++ [x0a])) false.

Lemma passed_cons ws f fs o ok : passed (tail ws) fs o ok -> default Through (head ws) = Through ->
  passed ws (f :: fs) ((encode_str f ++ [x0a]) ++ o) ok.
Proof.
  assert (Ef : forall gs, encode_str (frames (f :: gs)) = (encode_str f ++ [x0a]) ++ encode_str (frames gs)).
  { intros gs. unfold frames. cbn [mbind list_bind]. by rewrite !encode_str_app. }
  destruct ws as [|w ws]; cbn [tail head default].
  - inversion 1 as [ws fs' Hf|us]; subst; [|by destruct us]. intros _. rewrite <- Ef. constructor. by rewrite take_nil.
  - intros Hp Hw. cbn in Hw. subst w. inversion Hp as [us fs' Hf|us us' n gs g gs' Hu Hl]; subst.
    + rewrite <- Ef. constructor. by constructor.
    + rewrite app_assoc, <- Ef. apply (passed_until (Through :: us) us' n (f :: gs)); [by constructor|cbn; lia].
Qed.

Lemma passed_whole fs o ok : passed [] fs o ok -> o = encode_str (frames fs).
Proof. inversion 1 as [|us]; [done|]. by destruct us. Qed.

Lemma serve_lines_out lines : forall ws out,
  exists vs o ok, serve_lines debug pkg_version backend ws lines out
      = (out ++ o, ok && bool_decide (length (texts lines) = length lines)) /\
    passed ws (to_string <$> vs) o ok /\ Forall2 answers (filter (fun l => due l = true) (texts lines)) vs.
Proof.
  induction lines as [|b lines IH]; intros ws out; cbn [serve_lines texts].
  - exists [], [], true. split_and!; [by rewrite app_nil_r|by apply (passed_all ws [])|constructor].
  - destruct (from_utf8 b) as [t|]; [|exists [], [], true; split_and!; [by rewrite app_nil_r|by apply (passed_all ws [])|constructor]].
    rewrite filter_cons. assert (Hd : due t = negb (bool_decide (trim t = [])) && bool_decide (handle t <> None)) by done.
    cbn [length]. rewrite (bool_decide_ext (S _ = S _) (length (texts lines) = length lines)) by lia.
    revert Hd. destruct (decide (trim t = [])) as [Et|Et].
    + rewrite (bool_decide_true _ Et). intros Hd. rewrite decide_False by (by rewrite Hd). apply IH.
    + rewrite (bool_decide_false _ Et). destruct (handle t) as [f|] eqn:Eh; intros Hd.
      2: { rewrite decide_False by (by rewrite Hd). apply IH. }
      destruct (handle_answers _ _ Eh) as (v & -> & Hv). rewrite decide_True by (by rewrite Hd).
      destruct (default Through (head ws)) as [|n] eqn:Ew; cbn [write_frame].
      * destruct (IH (tail ws) (out ++ encode_str (to_string v) ++ [x0a])) as (vs & o & ok & -> & Hp & Hvs).
        exists (v :: vs), ((encode_str (to_string v) ++ [x0a]) ++ o), ok. split_and!; [by rewrite <- !app_assoc| |by constructor].
        by apply passed_cons.
      * destruct ws as [|w ws]; cbn in Ew; subst; [done|].
        destruct (IH [] []) as (vs & _ & _ & _ & _ & Hvs).
        exists (v :: vs), (take n (encode_str (to_string v) ++ [x0a])), false. split_and!; [done| |by constructor].
        by apply (passed_until [] ws n []).
Qed.

(** C24. Standard output carries answers and nothing else, with any JSON library
    that prints a document without line breaks: whatever the input,
    the backend and the pipe, the lines read up to the first that is not UTF-8
    get one frame each, in their order: a line of its own that holds the JSON of
    an answer with its request's id and either a result or an error; blank lines
    and notifications get none. What is written is these frames, all of them
    unless the pipe fails, and then those before the failure and the part of one
    the pipe took. The server ends without an error exactly when the pipe never
    failed and every line was UTF-8. *)
Theorem stdout_is_frames writes input :
  let r := serve debug pkg_version backend writes input in
  let read := texts (byte_lines input) in
  exists vs ok, Forall2 answers (filter (fun l => due l = true) read) vs /\
    (forall l, due l = true <-> trim l <> [] /\ ~ is_notification l) /\
    str_lines (frames (to_string <$> vs)) = to_string <$> vs /\
    passed writes (to_string <$> vs) (served_out r) ok /\
    (finished r = true <-> ok = true /\ length read = length (byte_lines input)).
Proof.
  intros r read. destruct (serve_lines_out (byte_lines input) writes []) as (vs & o & ok & E & Hp & Hv).
  exists vs, ok. unfold r, serve. rewrite E. split_and!; [done|apply due_spec| |done|].
  - apply frames_lines, Forall_fmap, Forall_forall. intros v _. split; [apply print_line|apply print_end].
  - cbn [finished]. by rewrite andb_true_iff, bool_decide_eq_true.
Qed.

End Frames.

(** ** Examples *)

(** A stand-in for the library: documents are trees, printed as the bits of their
    code. *)
Abbreviation doc := (gen_tree str).

Fixpoint bits (p : positive) : str :=
  match p with xH => [49] | xO q => 48 :: bits q | xI q => 49 :: bits q end.
Fixpoint of_bits (s : str) : option positive :=
  match s with
  | [] => None
  | c :: r => match r with
              | [] => if decide (c = 49) then Some xH else None
              | _ :: _ => p ← of_bits r; if decide (c = 49) then Some (xI p) else if decide (c = 48) then Some (xO p) else None
              end
  end.

Lemma bits_range p : Forall (fun c => c = 48 \/ c = 49) (bits p).
Proof. induction p; cbn [bits]; (apply Forall_cons; split; [auto|]); auto. Qed.

Fixpoint member (k : str) (ms : list doc) : option doc :=
  match ms with
  | GenNode 4 [GenLeaf k'; v] :: r => if decide (k' = k) then Some v else member k r
  | _ => None
  end.

#[export] Instance sample_json : SerdeJson doc := {|
  from_str s := ok_or (p ← of_bits s; decode p) (chars "no document");
  to_string v := bits (encode v);
  get k v := match v with GenNode 3 ms => member k ms | _ => None end;
  as_str v := match v with GenLeaf s => Some s | _ => None end;
  jnull := GenNode 0 [];
  jstr s := GenLeaf s;
  jnum n := GenNode 1 [GenLeaf [n]];
  jarr vs := GenNode 2 vs;
  jobj ms := GenNode 3 ((fun m => GenNode 4 [GenLeaf m.1; m.2]) <$> ms)
|}.

#[export] Instance sample_json_laws : SerdeLaws doc.
Proof.
  split; cbn.
  - intros v Hin. pose proof (bits_range (encode v)) as Hr. rewrite Forall_forall in Hr. specialize (Hr _ Hin). lia.
  - intros v Hl%last_Some_elem_of. pose proof (bits_range (encode v)) as Hr. rewrite Forall_forall in Hr. specialize (Hr _ Hl). lia.
  - intros k ms _. induction ms as [|[k' v] ms IH]; [done|]. cbn [fmap list_fmap member List.find fst snd].
    case_decide as E; [by rewrite bool_decide_true|by rewrite bool_decide_false].
Qed.

Definition ping : doc := jobj [(chars "id", jstr (chars "a")); (chars "method", jstr (chars "ping"))].
Definition note : doc := jobj [(chars "method", jstr (chars "ping"))].
Definition two_lines : bytes := encode_str (to_string ping ++ [10] ++ to_string note ++ [10]).

Lemma stdout_is_frames_witness :
  exists v, served_out (serve (fun s => s) (chars "1") EmptyBackend [] (two_lines ++ [xff])) = encode_str (frames [to_string v]) /\
    answers (V := doc) (to_string ping) v.
Proof.
  destruct (stdout_is_frames (fun s => s) (chars "1") EmptyBackend [] (two_lines ++ [xff])) as (vs & ok & Hv & _ & _ & Hp & _).
  assert (E : filter (fun l => due (V := doc) (fun s => s) (chars "1") EmptyBackend l = true) (texts (byte_lines (two_lines ++ [xff])))
    = [to_string ping]) by (vm_compute; reflexivity).
  rewrite E in Hv. inversion Hv as [|? v ? vs' Ha Hn]; subst. inversion Hn; subst. exists v. split; [exact (passed_whole _ _ _ Hp)|exact Ha].
Defined.

Lemma tool_calls_authorised_witness :
  let rule := mkRule (bs "r") 1 [bs "user:*"] 100 10 in
  let req := new_request [bs "GET"; bs "user:1"] Agent effects_read in
  let c := mkCall RedisRead (Some req) [bs "user:1"] 50 3 in
  authorise (fun b => b) c (Some rule) None sample_context = Ok (ByPolicy (bs "r") 1) /\ mutates (effects req) = false.
Proof.
  cbv zeta. assert (E : authorise (fun b => b) (mkCall RedisRead (Some (new_request [bs "GET"; bs "user:1"] Agent effects_read)) [bs "user:1"] 50 3)
    (Some (mkRule (bs "r") 1 [bs "user:*"] 100 10)) None sample_context = Ok (ByPolicy (bs "r") 1)) by (vm_compute; reflexivity).
  split; [exact E|].
  destruct (proj2 (tool_calls_authorised _ _ _ _ _ _ E)) as [(Hh & _)|(r & _ & _ & _ & Hm & _)]; [discriminate|exact Hm].
Defined.

(** ** Where the comments promise more *)

(** A line that is not UTF-8 ends the server, with an error of the read. *)
Lemma bad_line_ends_server :
  let r := serve (V := doc) (fun s => s) (chars "1") EmptyBackend [] ([xff; x0a] ++ two_lines) in
  finished r = false /\ served_out r = [].
Proof. vm_compute. by split. Qed.

(** The plan hash of a token is never looked at: any value authorises. *)
Lemma plan_hash_ignored h req :
  let t := mkApprovalToken (bs "p1") (identity_hash (fun b => b) (moved_service None)) 0 (mkEpochs 0 0 0)
             (request_hash (fun b => b) req) h 1 10000 Human in
  authorise (fun b => b) (mkCall RedisExecuteApprovedPlan (Some req) [] 0 0) None (Some t) sample_context = Ok ByHuman.
Proof.
  cbv zeta. unfold authorise. rewrite decide_True by done. cbn [issued_by is_human negb request]. apply by_token_ok. split; [done|].
  apply authorise_ok. cbn. split_and!; try done.
Qed.
