(* ===== verification/Theme.v ===== *)
(** * Colour tokens and what a terminal draws ([crates/pr-render/src/theme.rs])

    A palette gives each token a colour, the depth of the terminal the SGR
    parameters of the colour, and [display] the styled run.  [draw] reads the
    bytes the way a terminal does: it is the reference against which the
    renderers are proved. *)

From S2P Require Import Prelude Text TextFacts Lines.

(** ** Colours *)

Record Rgb := mkRgb { red : Z; green : Z; blue : Z }.

#[export] Instance Rgb_eq_dec : EqDecision Rgb.
Proof. solve_decision. Defined.

Definition char_is_hexdigit (c : Z) : bool := bool_decide (c < 128) && is_ascii_hexdigit (zb c).

(** [u8::from_str_radix] on two hexadecimal digits. *)
Definition from_str_radix_16 (a b : Z) : option Z :=
  x ← hex_value (zb a); y ← hex_value (zb b); Some (16 * x + y).

Definition Rgb_hex (s : str) : option Rgb :=
  h ← strip_prefix [35] s;
  if bool_decide (zlen (encode_str h) <> 6) || negb (forallb char_is_hexdigit h) then None
  else match h with
       | [r1; r2; g1; g2; b1; b2] =>
           r ← from_str_radix_16 r1 r2; g ← from_str_radix_16 g1 g2;
           b ← from_str_radix_16 b1 b2; Some (mkRgb r g b)
       | _ => None
       end.

Definition to_256 (c : Rgb) : Z :=
  if decide (red c = green c /\ green c = blue c) then
    let g := red c in
    if decide (g < 8) then 16
    else if decide (248 < g) then 231
    else let step := (g - 8) * 24 / 247 in Z.min 255 (232 + step)
  else
    let q v := v * 5 / 255 in
    let idx := 16 + 36 * q (red c) + 6 * q (green c) + q (blue c) in
    if decide (idx <= 255) then idx else 231.

Definition to_16 (c : Rgb) : Z :=
  let bright := bool_decide (384 < red c + green c + blue c) in
  let bit v := if decide (110 < v) then 1 else 0 in
  let base := Z.lor (Z.lor (bit (red c)) (Z.shiftl (bit (green c)) 1))
                    (Z.shiftl (bit (blue c)) 2) in
  if bright then base + 8 else base.

Inductive ColorDepth := DepthMono | Ansi16 | Ansi256 | TrueColor.

Inductive Token :=
| Surface | Text | Muted | Border | Title | HeaderBg | HeaderFg | JsonKey | JsonString
| JsonNumber | JsonBool | JsonNull | Warning | Error | Production.

Inductive ThemeKind := Dark | Light | HighContrast | Mono.

#[export] Instance ColorDepth_eq_dec : EqDecision ColorDepth.
Proof. solve_decision. Defined.
#[export] Instance Token_eq_dec : EqDecision Token.
Proof. solve_decision. Defined.
#[export] Instance ThemeKind_eq_dec : EqDecision ThemeKind.
Proof. solve_decision. Defined.

Record Theme := mkTheme { kind : ThemeKind; depth : ColorDepth; attributes : bool }.

Definition default_theme : Theme := mkTheme Dark TrueColor true.

Definition new_theme (k : ThemeKind) (d : ColorDepth) : Theme :=
  mkTheme (if decide (d = DepthMono) then Mono else k) d true.

Definition plain : Theme := mkTheme Mono DepthMono false.

Definition background (t : Theme) : Rgb :=
  match kind t with
  | Dark => mkRgb 17 24 39
  | Light | HighContrast => mkRgb 255 255 255
  | Mono => mkRgb 0 0 0
  end.

(** The table of [rgb], as it is written. *)
Definition palette (k : ThemeKind) (t : Token) : option string :=
  match k with
  | Mono => None
  | Dark =>
      Some match t with
           | Surface => "#111827"
           | Text => "#E5E7EB"
           | Muted => "#9CA3AF"
           | Border => "#64748B"
           | Title => "#67E8F9"
           | HeaderBg => "#164E63"
           | HeaderFg => "#ECFEFF"
           | JsonKey => "#7DD3FC"
           | JsonString => "#A7F3D0"
           | JsonNumber => "#FDE68A"
           | JsonBool => "#C4B5FD"
           | JsonNull => "#CBD5E1"
           | Warning => "#FBBF24"
           | Error => "#FCA5A5"
           | Production => "#FDA4AF"
           end
  | Light =>
      Some match t with
           | Surface => "#FFFFFF"
           | Text => "#1F2937"
           | Muted => "#6B7280"
           | Border => "#9CA3AF"
           | Title => "#0E7490"
           | HeaderBg => "#CFFAFE"
           | HeaderFg => "#164E63"
           | JsonKey => "#0369A1"
           | JsonString => "#047857"
           | JsonNumber => "#B45309"
           | JsonBool => "#6D28D9"
           | JsonNull => "#475569"
           | Warning => "#B45309"
           | Error => "#B91C1C"
           | Production => "#BE123C"
           end
  | HighContrast =>
      Some match t with
           | Surface | HeaderFg => "#FFFFFF"
           | HeaderBg => "#000000"
           | Text | Border | JsonNull => "#000000"
           | Muted => "#3F3F46"
           | Title | JsonKey => "#00417A"
           | JsonString => "#00553D"
           | JsonNumber | Warning => "#6B3A00"
           | JsonBool => "#4B0082"
           | Error | Production => "#8B0000"
           end
  end%string.

Definition rgb (th : Theme) (t : Token) : option Rgb :=
  hex ← palette (kind th) t; Rgb_hex (chars hex).

(** SGR parameters; empty means no colour. *)
Definition sgr (th : Theme) (t : Token) : list Z :=
  match rgb th t with
  | None => []
  | Some c =>
      let bg := bool_decide (t = HeaderBg \/ t = Surface) in
      match depth th with
      | DepthMono => []
      | Ansi16 =>
          let n := to_16 c in
          let base := if bg then 40 else 30 in
          [base + Z.land n 7 + (if decide (8 <= n) then 60 else 0)]
      | Ansi256 => [if bg then 48 else 38; 5; to_256 c]
      | TrueColor => [if bg then 48 else 38; 2; red c; green c; blue c]
      end
  end.

(** ** Styled runs *)

Record Styled := mkStyled { text : str; token : Token; bold : bool; theme : Theme }.

Definition params (s : Styled) : list Z :=
  (if bold s && attributes (theme s) then [1] else []) ++ sgr (theme s) (token s).

(** The [Display] of a run. *)
Definition display (s : Styled) : str :=
  match params s with
  | [] => text s
  | ps =>
      [27; 91] ++ join [59] ((fun n => bz <$> print_unsigned n) <$> ps) ++ [109]
      ++ text s ++ [27; 91; 48; 109]
  end.

(** ** What a terminal draws

    The column of the cursor and the state of the escape parser.  [tw] is how
    many columns the terminal gives a character.  A carriage return goes to
    column 0, [ESC [ n C] moves right, every other control sequence draws
    nothing. *)

Inductive Parser := Ground | Esc | Csi (n : Z).

Definition step (tw : Z -> Z) (st : Parser * Z) (c : Z) : list (Z * Z) * (Parser * Z) :=
  let '(m, col) := st in
  match m with
  | Ground =>
      if decide (c = 27) then ([], (Esc, col))
      else if decide (c = 13) then ([], (Ground, 0))
      else ([(col, c)], (Ground, col + tw c))
  | Esc => if decide (c = 91) then ([], (Csi 0, col)) else ([], (Ground, col))
  | Csi n =>
      if decide (48 <= c <= 57) then ([], (Csi (10 * n + (c - 48)), col))
      else if decide (c = 59) then ([], (Csi 0, col))
      else if decide (c = 67) then ([], (Ground, col + Z.max n 1))
      else ([], (Ground, col))
  end.

(** The characters drawn, each with its column, and where the line ends. *)
Fixpoint draw (tw : Z -> Z) (st : Parser * Z) (s : str) : list (Z * Z) * (Parser * Z) :=
  match s with
  | [] => ([], st)
  | c :: r =>
      let '(g, st') := step tw st c in
      let '(g', st'') := draw tw st' r in (g ++ g', st'')
  end.

(** Printable text, one character after the other. *)
Fixpoint place (tw : Z -> Z) (col : Z) (s : str) : list (Z * Z) :=
  match s with
  | [] => []
  | c :: r => (col, c) :: place tw (col + tw c) r
  end.

Definition extent (tw : Z -> Z) (s : str) : Z := foldr (fun c t => tw c + t) 0 s.

Definition printable (c : Z) : Prop := 32 <= c /\ c <> 127.

Lemma draw_app tw st s t :
  draw tw st (s ++ t) =
    let '(g, st') := draw tw st s in let '(g', st'') := draw tw st' t in (g ++ g', st'').
Proof.
  revert st. induction s as [|c s IH]; intros st; cbn [draw app]; [by destruct (draw tw st t)|].
  destruct (step tw st c) as [g st']. rewrite IH. destruct (draw tw st' s) as [g' st''].
  destruct (draw tw st'' t). by rewrite app_assoc.
Qed.

Lemma extent_app tw s t : extent tw (s ++ t) = extent tw s + extent tw t.
Proof. induction s; simpl; lia. Qed.

Lemma place_app tw col s t : place tw col (s ++ t) = place tw col s ++ place tw (col + extent tw s) t.
Proof.
  revert col. induction s as [|c s IH]; intros col; simpl; [by rewrite Z.add_0_r|].
  rewrite IH. f_equal. f_equal. f_equal. lia.
Qed.

Lemma draw_printable tw col s : Forall printable s ->
  draw tw (Ground, col) s = (place tw col s, (Ground, col + extent tw s)).
Proof.
  intros H. revert col. induction H as [|c s [Hc _] _ IH]; intros col; cbn [draw step];
    [simpl; by rewrite Z.add_0_r|].
  rewrite !decide_False by lia. rewrite IH. simpl. by rewrite Z.add_assoc.
Qed.

(** A control sequence that sets attributes draws nothing and stays put. *)
Lemma draw_digits tw n col s : Forall (fun c => 48 <= c <= 57 \/ c = 59) s ->
  exists n', draw tw (Csi n, col) s = ([], (Csi n', col)).
Proof.
  intros H. revert n. induction H as [|c s Hc _ IH]; intros n; cbn [draw step]; [by exists n|].
  destruct Hc as [Hc| ->].
  - rewrite decide_True by done. destruct (IH (10 * n + (c - 48))) as [n' ->]. by exists n'.
  - rewrite decide_False, decide_True by lia. destruct (IH 0) as [n' ->]. by exists n'.
Qed.

Lemma print_digit_chars n : 0 <= n -> Forall (fun c => 48 <= c <= 57 \/ c = 59) (bz <$> print_unsigned n).
Proof.
  intros Hn. apply Forall_fmap. destruct (print_unsigned_spec n Hn) as (_ & H & _).
  eapply Forall_impl; [exact H|]. intros b Hb. left. by apply is_ascii_digit_spec.
Qed.

Lemma params_digits ps : Forall (fun n => 0 <= n) ps ->
  Forall (fun c => 48 <= c <= 57 \/ c = 59) (join [59] ((fun n => bz <$> print_unsigned n) <$> ps)).
Proof.
  induction 1 as [|n ps Hn Hps IH]; [constructor|]. cbn [fmap list_fmap].
  destruct ps as [|m ps]; cbn [join fmap list_fmap] in *.
  - by apply print_digit_chars.
  - rewrite !Forall_app. split_and!; [by apply print_digit_chars|by repeat constructor; right|done].
Qed.

Lemma draw_params tw col ps : Forall (fun n => 0 <= n) ps ->
  draw tw (Ground, col) ([27; 91] ++ join [59] ((fun n => bz <$> print_unsigned n) <$> ps) ++ [109])
  = ([], (Ground, col)).
Proof.
  intros H. cbn [app draw step]. rewrite decide_True by done. cbn [draw step].
  rewrite decide_True by done. rewrite draw_app.
  pose proof (params_digits ps H) as Hd.
  destruct (draw_digits tw 0 col _ Hd) as [n' ->]. cbn [draw step].
  by rewrite !decide_False by lia.
Qed.

(** ** The palettes *)

Definition u8_rgb (c : Rgb) : Prop :=
  0 <= red c < 256 /\ 0 <= green c < 256 /\ 0 <= blue c < 256.

(** Every token of every palette but [Mono] has a colour: all the entries of
    the table parse. *)
Lemma palette_parses th t : kind th <> Mono -> exists c, rgb th t = Some c /\ u8_rgb c.
Proof.
  intros Hk. unfold rgb. destruct (kind th); [..|done]; destruct t; eexists;
    (split; [vm_compute; reflexivity|]); unfold u8_rgb; simpl; lia.
Qed.

Lemma rgb_u8 th t c : rgb th t = Some c -> u8_rgb c.
Proof.
  intros H. destruct (decide (kind th = Mono)) as [E|E].
  - unfold rgb in H. by rewrite E in H.
  - destruct (palette_parses th t E) as (c' & H' & Hu). congruence.
Qed.

Lemma to_256_range c : u8_rgb c -> 16 <= to_256 c <= 255.
Proof.
  intros (Hr & Hg & Hb). unfold to_256. cbv zeta.
  assert (forall v, 0 <= v < 256 -> 0 <= v * 5 / 255 <= 5) as Hq.
  { intros v Hv. split; [apply Z.div_pos; lia|]. apply Z.div_le_upper_bound; lia. }
  pose proof (Hq _ Hr). pose proof (Hq _ Hg). pose proof (Hq _ Hb).
  assert (0 <= red c - 8 -> 0 <= (red c - 8) * 24 / 247) by (intros; apply Z.div_pos; lia).
  repeat case_decide; lia.
Qed.

Lemma to_16_range c : 0 <= to_16 c < 16.
Proof.
  unfold to_16. cbv zeta. repeat case_decide; case_bool_decide; by vm_compute.
Qed.

(** The parameters are bytes, and with the terminal without colour there is
    none. *)
Theorem sgr_bytes th t : Forall (fun n => 0 <= n < 256) (sgr th t).
Proof.
  unfold sgr. destruct (rgb th t) as [c|] eqn:E; [|constructor].
  apply rgb_u8 in E as Hu. pose proof (to_256_range c Hu). pose proof (to_16_range c).
  destruct Hu as (? & ? & ?). pose proof (Z.land_nonneg (to_16 c) 7).
  assert (Z.land (to_16 c) 7 <= 7).
  { change 7 with (Z.ones 3) at 1. rewrite Z.land_ones by lia.
    pose proof (Z.mod_pos_bound (to_16 c) (2 ^ 3)). lia. }
  destruct (depth th); rewrite ?Forall_cons; split_and?; try apply Forall_nil_2;
    try case_bool_decide; try case_decide; lia.
Qed.

Theorem mono_colourless k t : sgr (new_theme k DepthMono) t = [].
Proof. done. Qed.

(** ** Styled runs *)

Lemma params_nonneg s : Forall (fun n => 0 <= n) (params s).
Proof.
  apply Forall_app. split; [destruct (_ && _); repeat constructor; lia|].
  eapply Forall_impl; [apply sgr_bytes|]. simpl. lia.
Qed.

(** A plain theme writes the text and not a byte more. *)
Theorem plain_verbatim t tok b : display (mkStyled t tok b plain) = t.
Proof. unfold display, params. cbn [bold attributes theme plain]. by rewrite andb_false_r. Qed.

(** Whatever the theme, a run of printable text draws that text and nothing
    else, and leaves the terminal as it found it, the cursor after the text. *)
Theorem draw_display tw col s : Forall printable (text s) ->
  draw tw (Ground, col) (display s) = (place tw col (text s), (Ground, col + extent tw (text s))).
Proof.
  intros H. unfold display. pose proof (params_nonneg s) as Hn.
  destruct (params s) as [|n ps] eqn:E; [by apply draw_printable|]. rewrite <- E in *.
  change ([27; 91] ++ ?a ++ [109] ++ ?t ++ ?z) with ([27; 91] ++ a ++ ([109] ++ (t ++ z))).
  rewrite (app_assoc _ [109]), (app_assoc [27; 91]), draw_app, draw_params by done.
  rewrite draw_app, draw_printable by done.
  assert (draw tw (Ground, col + extent tw (text s)) [27; 91; 48; 109]
          = ([], (Ground, col + extent tw (text s)))) as -> by done.
  cbn [app]. by rewrite app_nil_r.
Qed.

Lemma draw_display_witness :
  draw (fun _ => 1) (Ground, 2) (display (mkStyled (chars "key") Title true default_theme))
  = (place (fun _ => 1) 2 (chars "key"), (Ground, 2 + extent (fun _ => 1) (chars "key"))).
Proof.
  apply (draw_display (fun _ => 1) 2 (mkStyled (chars "key") Title true default_theme)).
  repeat constructor; vm_compute; congruence.
Defined.

(** ** What the comments promise and the code does not do *)

(** [to_256] is said to give the nearest index.  The levels of the colour cube
    are 0, 95, 135, 175, 215 and 255, and the code rounds down: almost pure red
    becomes index 160, whose red is 215, and 196, whose red is 255, is nearer. *)
Lemma to_256_not_nearest : to_256 (mkRgb 254 0 0) = 160 /\ 254 - 215 > 255 - 254.
Proof. by vm_compute. Qed.
