(* ===== verification/Table.v ===== *)
(** * The table design ([crates/pr-render/src/table.rs])

    Cells, columns, the fitting of widths and the two layouts.  A rendered
    line is the string the code pushes; what it puts on the screen is read
    back with [Theme.draw].  Box characters are written by code point. *)

From S2P Require Import Prelude Text TextFacts SafeText Lines Width Theme.

(** ** Cells and columns *)

Inductive Cell :=
| Text (t : SafeText)
| Lines (v : list SafeText)
| Nil
| Empty
| Missing.

Definition cell_text (s : str) : Cell := Text (from_str_escaped s).

Definition lines (c : Cell) : list str :=
  match c with
  | Text t => [as_display t]
  | Lines v => as_display <$> v
  | Nil => [chars "(nil)"]
  | Empty => [chars "(empty)"]
  | Missing => [chars "(missing)"]
  end.

Definition is_annotation (c : Cell) : bool :=
  match c with
  | Nil | Empty | Missing => true
  | _ => false
  end.

Definition height (c : Cell) : nat :=
  match c with
  | Lines v => Nat.max (length v) 1
  | _ => 1%nat
  end.

Inductive Align := Left | Right.
#[export] Instance Align_eq_dec : EqDecision Align.
Proof. solve_decision. Defined.

Record Column := mkColumn { title : str; align : Align }.

Definition column (t : str) : Column := mkColumn t Left.
Definition numeric (t : str) : Column := mkColumn t Right.

Inductive Layout := Columns | Stacked.
Inductive DrawMode := Padded | CursorReset.

#[export] Instance Layout_eq_dec : EqDecision Layout.
Proof. solve_decision. Defined.
#[export] Instance DrawMode_eq_dec : EqDecision DrawMode.
Proof. solve_decision. Defined.

Record Rendered := mkRendered {
  r_lines : list str;
  r_layout : Layout;
  r_widths : list Z;
  r_truncated : bool;
}.

Record Table := mkTable {
  t_columns : list Column;
  t_rows : list (list Cell);
  frozen : option (list Z);
}.

Definition MIN_CONTENT : Z := 3.
Definition SAMPLE_ROWS : nat := 100.

Definition new_table (cs : list Column) : Table := mkTable cs [] None.

Definition field_value : Table := new_table [column (chars "FIELD"); column (chars "VALUE")].

(** A short row is completed, a long one cut. *)
Definition squared (t : Table) (row : list Cell) : list Cell :=
  take (length (t_columns t))
    (row ++ replicate (length (t_columns t) - length row) Missing).

Definition push (t : Table) (row : list Cell) : Table :=
  mkTable (t_columns t) (t_rows t ++ [squared t row]) (frozen t).

Definition row_count (t : Table) : Z := zlen (t_rows t).

(** ** Fitting the widths *)

(** [iter().max().unwrap_or(0)] on [usize]s. *)
Definition maximum (l : list Z) : Z := foldr Z.max 0 l.

Section Render.
Context `{W : UnicodeWidth}.

Definition widest (p : WidthPolicy) (c : Cell) : Z := maximum (str_width p <$> lines c).

Fixpoint widen (p : WidthPolicy) (w : list Z) (row : list Cell) : list Z :=
  match w, row with
  | slot :: w', c :: row' => Z.max slot (widest p c) :: widen p w' row'
  | _, _ => w
  end.

Definition sample_widths (t : Table) (p : WidthPolicy) : list Z :=
  foldl (widen p) ((fun c => str_width p (title c)) <$> t_columns t) (take SAMPLE_ROWS (t_rows t)).

(** The loop over all columns but the last; [n] are left. *)
Fixpoint shrink (n : nat) (out : list Z) (excess : Z) : list Z * Z :=
  match n, out with
  | S n', slot :: r =>
      if decide (excess = 0) then (out, excess)
      else
        let can := Z.max 0 (slot - MIN_CONTENT) in
        let take := Z.min can excess in
        let '(r', e) := shrink n' r (excess - take) in (slot - take :: r', e)
  | _, _ => (out, excess)
  end.

Definition fit (t : Table) (natural : list Z) (total : Z) : option (list Z) :=
  let n := zlen (t_columns t) in
  if decide (n = 0) then None
  else
    let overhead := (n + 1) + 2 * n in
    if decide (total < overhead) then None
    else
      let content := total - overhead in
      if decide (content < n * MIN_CONTENT) then None
      else
        let want := foldr Z.add 0 natural in
        if decide (want <= content) then Some natural
        else
          let last_index := (length (t_columns t) - 1)%nat in
          let '(out, excess) := shrink last_index natural (want - content) in
          Some (if decide (0 < excess)
                then alter (fun w => w - Z.min (Z.max 0 (w - MIN_CONTENT)) excess) last_index out
                else out).

(** ** Drawing *)

Definition spaces (n : Z) : str := replicate (Z.to_nat n) 32.

Definition BAR : Z := 9474.

(** The closure [rule]. *)
Definition rule (l mid r fill : Z) (w : list Z) : str :=
  l :: concat (imap (fun i width =>
         replicate (Z.to_nat (width + 2)) fill
         ++ [if decide (S i = length w) then r else mid]) w).

(** Column of every vertical border. *)
Fixpoint bounds_from (last : Z) (w : list Z) : list Z :=
  last :: match w with
          | [] => []
          | x :: w' => bounds_from (last + x + 3) w'
          end.
Definition bounds (w : list Z) : list Z := bounds_from 0 w.

(** The closure [at]. *)
Definition at_border (mode : DrawMode) (bs : list Z) (i : nat) : str :=
  match mode with
  | Padded => []
  | CursorReset =>
      let col := default 0 (bs !! i) in
      if decide (col = 0) then [13]
      else [13; 27; 91] ++ (bz <$> print_unsigned col) ++ [67]
  end.

(** One cell of a line: the text, truncated to the width of its column and
    padded, and the border after it. *)
Definition draw_cell (theme : Theme) (p : WidthPolicy) (mode : DrawMode) (ws : list Z)
    (right : bool) (tok : Token) (strong : bool) (i : nat) (raw : str) : str * bool :=
  let w := default 0 (ws !! i) in
  let '(text, tw) := truncate p raw w in
  let pad := spaces (Z.max 0 (w - tw)) in
  let styled := display (mkStyled text tok strong theme) in
  ([32] ++ (if right then pad ++ styled else styled ++ pad) ++ [32]
   ++ at_border mode (bounds ws) (S i) ++ [BAR],
   bool_decide (tw < str_width p raw)).

Definition draw_line (mode : DrawMode) (ws : list Z) (cells : list (str * bool)) : str :=
  at_border mode (bounds ws) 0 ++ [BAR] ++ concat (fst <$> cells).

Definition head_cells (t : Table) theme p mode ws : list (str * bool) :=
  imap (fun i c => draw_cell theme p mode ws false HeaderFg true i (title c)) (t_columns t).

Definition row_cells (t : Table) theme p mode ws (row : list Cell) (li : nat) : list (str * bool) :=
  imap (fun i c =>
          draw_cell theme p mode ws (bool_decide (align <$> (t_columns t !! i) = Some Right))
            (if is_annotation c then Muted else Theme.Text) false i (default [] (lines c !! li))) row.

Definition row_height (row : list Cell) : nat :=
  match row with
  | [] => 1%nat
  | _ => foldr Nat.max 0%nat (height <$> row)
  end.

Definition row_block (t : Table) theme p mode ws (row : list Cell) : list (list (str * bool)) :=
  row_cells t theme p mode ws row <$> seq 0 (row_height row).

Definition top_rule := rule 9581 9516 9582 9472.
Definition head_rule := rule 9566 9578 9569 9552.
Definition row_rule := rule 9500 9532 9508 9472.
Definition bottom_rule := rule 9584 9524 9583 9472.

(** The loop over the rows: a rule after every row but the last. *)
Fixpoint body_lines (mode : DrawMode) (ws : list Z) (blocks : list (list (list (str * bool)))) : list str :=
  match blocks with
  | [] => []
  | b :: bs =>
      (draw_line mode ws <$> b) ++ (match bs with [] => [] | _ => [row_rule ws] end)
      ++ body_lines mode ws bs
  end.

Definition render_columns (t : Table) theme p mode ws : Rendered :=
  let head := head_cells t theme p mode ws in
  let blocks := row_block t theme p mode ws <$> t_rows t in
  mkRendered
    ([top_rule ws; draw_line mode ws head; head_rule ws] ++ body_lines mode ws blocks ++ [bottom_rule ws])
    Columns ws
    (existsb snd head || existsb (existsb (existsb snd)) blocks).

(** The lines of a cell in the stacked layout. *)
Definition stacked_cell (theme : Theme) (p : WidthPolicy) (label_w : Z) (title : str) (c : Cell) : list str :=
  let pad := Z.max 0 (label_w - str_width p title) in
  let styled := display (mkStyled title HeaderFg true theme) in
  imap (fun li l =>
          if decide (li = 0%nat) then styled ++ spaces pad ++ [32] ++ l
          else spaces label_w ++ [32] ++ l) (lines c).

Definition stacked_row (t : Table) theme p label_w (ri : nat) (row : list Cell) : list str :=
  (if decide (0 < ri)%nat then [[]] else [])
  ++ concat (imap (fun ci c =>
       stacked_cell theme p label_w (from_option title [] (t_columns t !! ci)) c) row).

Definition render_stacked (t : Table) theme p : Rendered :=
  let label_w := maximum ((fun c => str_width p (title c)) <$> t_columns t) in
  mkRendered (concat (imap (stacked_row t theme p label_w) (t_rows t))) Stacked [label_w] false.

Definition render_with (t : Table) (total : Z) theme p mode : Rendered * Table :=
  let natural := match frozen t with Some w => w | None => sample_widths t p end in
  match fit t natural total with
  | None => (render_stacked t theme p, t)
  | Some ws =>
      (render_columns t theme p mode ws,
       match frozen t with
       | None => mkTable (t_columns t) (t_rows t) (Some ws)
       | Some _ => t
       end)
  end.

Definition render (t : Table) (total : Z) theme p : Rendered * Table :=
  render_with t total theme p Padded.

End Render.
