(* ===== verification/TableFacts.v ===== *)
(** * What the tables put on the screen

    The widths fit the terminal, the borders are where the frame has them, the
    theme changes the colours only, and nothing is left out unannounced. *)

From S2P Require Import Prelude Text TextFacts SafeText Lines Width Theme Table.

(** ** Well-formed tables *)

(** Rows as long as the columns, and widths frozen for them. *)
Record wf (t : Table) : Prop := {
  wf_rows : Forall (fun r => length r = length (t_columns t)) (t_rows t);
  wf_frozen w : frozen t = Some w -> length w = length (t_columns t) /\ Forall (fun x => 0 <= x) w;
}.

Lemma new_table_wf cs : wf (new_table cs).
Proof. split; [constructor|done]. Qed.

Lemma squared_length t row : length (squared t row) = length (t_columns t).
Proof. unfold squared. rewrite length_take, length_app, length_replicate. lia. Qed.

Lemma push_wf t row : wf t -> wf (push t row).
Proof.
  intros [Hr Hf]. split; [|intros w Hw; apply (Hf w Hw)]. cbn [t_rows t_columns push].
  apply Forall_app. split; [done|]. constructor; [apply squared_length|constructor].
Qed.

Lemma push_rows rows : forall t, wf t ->
  wf (foldl push t rows) /\ frozen (foldl push t rows) = frozen t
  /\ t_columns (foldl push t rows) = t_columns t.
Proof.
  induction rows as [|row rows IH]; intros t Hw; [done|]. cbn [foldl].
  apply (IH (push t row)). by apply push_wf.
Qed.

(** Pushing a row keeps every cell that has a column, and fills up with
    [Missing]. *)
Theorem push_squares t row : wf t ->
  wf (push t row)
  /\ forall i c, (i < length (t_columns t))%nat ->
       squared t row !! i = Some c <->
       row !! i = Some c \/ (length row <= i)%nat /\ c = Missing.
Proof.
  intros Hwf. split; [by apply push_wf|].
  intros i c Hi. unfold squared. rewrite lookup_take_lt by done.
  rewrite lookup_app. destruct (row !! i) as [d|] eqn:E.
  - pose proof (lookup_lt_Some _ _ _ E). split; [intros [= ->]; by left|]. intros [?|[? _]]; [done|lia].
  - apply lookup_ge_None in E. rewrite lookup_replicate. split; [intros [-> _]; by right|].
      intros [?|[_ ->]]; [done|]. split; [done|lia].
Qed.

Lemma push_squares_witness :
  wf (push (push field_value [cell_text (chars "a")]) [Nil; Empty; Nil])
  /\ forall i c, (i < 2)%nat ->
       squared (push field_value [cell_text (chars "a")]) [Nil; Empty; Nil] !! i = Some c <->
       [Nil; Empty; Nil] !! i = Some c \/ (3 <= i)%nat /\ c = Missing.
Proof.
  apply (push_squares (push field_value [cell_text (chars "a")]) [Nil; Empty; Nil]).
  split; [repeat constructor|done].
Defined.

(** ** Fitting *)

Lemma maximum_nonneg l : 0 <= maximum l.
Proof. unfold maximum. induction l; simpl; lia. Qed.

Definition total_width (ws : list Z) : Z := foldr Z.add 0 ws.

(** What shrinking takes from the columns it takes from the excess, and it
    stops only when nothing is left to take. *)
Lemma shrink_spec n : forall out excess out' e,
  0 <= excess -> (n <= length out)%nat -> shrink n out excess = (out', e) ->
  length out' = length out /\ 0 <= e <= excess /\ total_width out' + excess = total_width out + e
  /\ Forall2 (fun a b => Z.min a MIN_CONTENT <= b <= a) out out'
  /\ drop n out' = drop n out
  /\ (0 < e -> Forall (fun b => b <= MIN_CONTENT) (take n out')).
Proof.
  induction n as [|n IH]; intros [|slot r] excess out' e He Hn; cbn [shrink].
  1,3: intros [= <- <-]; split_and!; try done; constructor.
  - intros [= <- <-]. split_and!; try done.
    constructor; [lia|]. clear. induction r; constructor; [lia|done].
  - case_decide as Hz.
    + intros [= <- <-]. split_and!; try done; [|lia].
      constructor; [lia|]. clear. induction r; constructor; [lia|done].
    + set (take := Z.min _ excess). destruct (shrink n r (excess - take)) as [r' e'] eqn:E.
      intros [= <- <-]. apply IH in E as (Hl & He' & Ht & Hf & Hd & Hs); [|lia|simpl in Hn; lia].
      cbn [total_width foldr length] in *. fold (total_width r) (total_width r') in *.
      assert (0 <= take) by (unfold take, MIN_CONTENT in *; lia).
      split_and!; try done; try lia; [constructor; [unfold take, MIN_CONTENT in *; lia|done]|].
      intros H0. cbn [firstn]. constructor; [unfold take, MIN_CONTENT in *; lia|by apply Hs].
Qed.

Lemma last_alter {A} (f : A -> A) (l : list A) x : alter f (length l) (l ++ [x]) = l ++ [f x].
Proof. induction l; simpl; [done|]. by f_equal. Qed.

Lemma total_width_app a b : total_width (a ++ b) = total_width a + total_width b.
Proof. induction a; simpl; unfold total_width in *; simpl; lia. Qed.

Lemma total_width_le k l : Forall (fun b => b <= k) l -> total_width l <= zlen l * k.
Proof.
  induction 1; simpl; [done|]. rewrite zlen_cons. unfold total_width in *. simpl. lia.
Qed.

(** What [fit] answers: one width per column, none above the natural width
    and none shrunk below the least useful one, the whole frame within the
    terminal, and no shrinking where the natural widths fit. *)
Definition frame_width (ws : list Z) : Z := total_width ws + 3 * zlen ws + 1.

Lemma fit_fits t natural total ws :
  length natural = length (t_columns t) -> fit t natural total = Some ws ->
  length ws = length natural
  /\ Forall2 (fun a b => Z.min a MIN_CONTENT <= b <= a) natural ws
  /\ frame_width ws <= total
  /\ (frame_width natural <= total -> ws = natural).
Proof.
  intros Hl. unfold fit, frame_width.
  assert (zlen natural = zlen (t_columns t)) as Hz by (unfold zlen; by rewrite Hl).
  set (n := zlen (t_columns t)) in *. repeat case_decide; try done.
  { intros [= <-]. split_and!; [done| |fold (total_width natural) in *; lia|done].
    clear. induction natural; constructor; [lia|done]. }
  fold (total_width natural) in *.
  destruct (shrink _ natural _) as [out e] eqn:E. intros [= <-].
  apply shrink_spec in E as (Ho & He & Ht & Hf & Hd & Hs); [|lia|lia].
  case_decide as He0.
  2: { split_and!; [done|done|unfold zlen in *; rewrite Ho; lia|unfold zlen in *; lia]. }
  destruct out as [|x out0 _] using rev_ind; [unfold zlen in *; simpl in *; lia|].
  rewrite length_app in Ho. cbn [length] in Ho.
  assert (length (t_columns t) - 1 = length out0)%nat as Hk by lia. rewrite Hk in *.
  rewrite last_alter. rewrite take_app_length in Hs. specialize (Hs He0).
  apply total_width_le in Hs. rewrite !total_width_app in *. unfold zlen in *.
  apply Forall2_app_inv_r in Hf as (a0 & [|a [|]] & Hf0 & Hfx & ->); inversion_clear Hfx as [|? ? ? ? Ha Hn].
  2: by inversion_clear Hn.
  unfold MIN_CONTENT in *. cbn [total_width foldr] in *. rewrite !length_app in *. cbn [length] in *.
  split_and!; [lia| |unfold total_width in *; lia|unfold total_width in *; lia].
  apply Forall2_app; [done|]. constructor; [lia|constructor].
Qed.

(** Columns are given up exactly when there is none, or when the frame leaves
    less than the least useful width for each. *)
Lemma fit_none t natural total :
  fit t natural total = None <->
  t_columns t = [] \/ total < 3 * zlen (t_columns t) + 1 + zlen (t_columns t) * MIN_CONTENT.
Proof.
  unfold fit. set (n := zlen (t_columns t)).
  assert (n = 0 <-> t_columns t = []) as Hn.
  { unfold n, zlen. destruct (t_columns t); simpl; split; intros; (done || lia). }
  assert (0 <= n) by apply zlen_nonneg.
  unfold MIN_CONTENT in *. repeat case_decide; try (split; [intros _|done]; try (left; tauto); lia).
  - split; [done|]. intros [?%Hn|?]; lia.
  - destruct (shrink _ _ _). split; [done|]. intros [?%Hn|?]; lia.
Qed.

(** ** Drawing a line *)

Definition Draws (tw : Z -> Z) (col : Z) (s : str) (g : list (Z * Z)) (col' : Z) : Prop :=
  draw tw (Ground, col) s = (g, (Ground, col')).

Lemma draws_app tw c s g c' t g' c'' :
  Draws tw c s g c' -> Draws tw c' t g' c'' -> Draws tw c (s ++ t) (g ++ g') c''.
Proof. unfold Draws. intros Hs Ht. by rewrite draw_app, Hs, Ht. Qed.

Lemma draws_printable tw c s : Forall printable s -> Draws tw c s (place tw c s) (c + extent tw s).
Proof. apply draw_printable. Qed.

Lemma draws_char tw c x : printable x -> Draws tw c [x] [(c, x)] (c + tw x).
Proof.
  intros Hx. pose proof (draws_printable tw c [x]) as H. simpl in H. rewrite Z.add_0_r in H.
  apply H. by constructor.
Qed.

Lemma draw_csi_number tw col ds : forall a n, digits_from a ds = Some n ->
  draw tw (Csi a, col) (bz <$> ds) = ([], (Csi n, col)).
Proof.
  induction ds as [|d ds IH]; intros a n; cbn [digits_from fmap list_fmap draw step];
    [by intros [= <-]|].
  unfold digit_value. case_decide as Hd; [|done]. intros H. apply IH in H.
  rewrite (Z.mul_comm 10 a). by rewrite H.
Qed.

(** Going to a border puts the cursor in its column, wherever it was. *)
Lemma draws_border tw bs i b col : bs !! i = Some b -> 0 <= b ->
  Draws tw col (at_border CursorReset bs i) [] b.
Proof.
  intros Hb Hz. unfold Draws, at_border. rewrite Hb. cbn [default]. unfold id.
  case_decide as H0; [by subst|]. cbn [app draw step].
  rewrite (decide_False (P := 13 = 27)), (decide_True (P := 13 = 13)) by lia. cbn [draw step].
  rewrite (decide_True (P := 27 = 27)) by done. cbn [draw step].
  rewrite (decide_True (P := 91 = 91)) by done. rewrite draw_app.
  destruct (print_unsigned_spec b Hz) as (Hne & _ & Hd). unfold digits in Hd.
  destruct (print_unsigned b) as [|d ds] eqn:E; [done|]. rewrite <- E in *.
  rewrite (draw_csi_number tw 0 _ _ _ Hd). cbn [draw step].
  rewrite decide_False, decide_False, decide_True by lia. cbn [app]. do 3 f_equal. lia.
Qed.

(** ** The screen

    A terminal [cols] wide: the state of its escape parser, its cursor and its
    cells, by row and column.  A character that does not fit the row goes to the
    start of the next one; it takes its cells from whatever was there.  A move to
    the right stops at the margin. *)

Record Term := mkTerm { te_parser : Parser; te_row : Z; te_col : Z; te_cells : gmap (Z * Z) Z }.

Definition paint (tw : Z -> Z) (r x c : Z) (m : gmap (Z * Z) Z) : gmap (Z * Z) Z :=
  foldl (fun m k => <[(r, x + Z.of_nat k) := c]> m) m (seq 0 (Z.to_nat (tw c))).

(** Where a character goes that is typed with the cursor in a column. *)
Definition landing (cols : Z) (tw : Z -> Z) (r x c : Z) : Z * Z :=
  if decide (cols < x + tw c) then (r + 1, 0) else (r, x).

Definition type_char (cols : Z) (tw : Z -> Z) (t : Term) (c : Z) : Term :=
  match te_parser t with
  | Ground =>
      if decide (c = 27) then mkTerm Esc (te_row t) (te_col t) (te_cells t)
      else if decide (c = 13) then mkTerm Ground (te_row t) 0 (te_cells t)
      else let '(r, x) := landing cols tw (te_row t) (te_col t) c in
           mkTerm Ground r (x + tw c) (paint tw r x c (te_cells t))
  | Esc => mkTerm (if decide (c = 91) then Csi 0 else Ground) (te_row t) (te_col t) (te_cells t)
  | Csi n =>
      if decide (48 <= c <= 57) then mkTerm (Csi (10 * n + (c - 48))) (te_row t) (te_col t) (te_cells t)
      else if decide (c = 59) then mkTerm (Csi 0) (te_row t) (te_col t) (te_cells t)
      else if decide (c = 67)
        then mkTerm Ground (te_row t) (Z.min (cols - 1) (te_col t + Z.max n 1)) (te_cells t)
      else mkTerm Ground (te_row t) (te_col t) (te_cells t)
  end.

Definition type_on (cols : Z) (tw : Z -> Z) (t : Term) (s : str) : Term := foldl (type_char cols tw) t s.

(** A line on blank rows, from the start of the first. *)
Definition typed (cols : Z) (tw : Z -> Z) (l : str) : Term := type_on cols tw (mkTerm Ground 0 0 ∅) l.

(** Text read from a cell on, to the end of its row and on in the next. *)
Fixpoint reads (cols : Z) (tw : Z -> Z) (m : gmap (Z * Z) Z) (r x : Z) (s : str) : Prop :=
  match s with
  | [] => True
  | c :: s' =>
      let '(r', x') := landing cols tw r x c in
      (forall k, 0 <= k < tw c -> m !! (r', x' + k) = Some c) /\ reads cols tw m r' (x' + tw c) s'
  end.

(** The characters drawn on one row, one over the other. *)
Definition paint_all (tw : Z -> Z) (r : Z) (m : gmap (Z * Z) Z) (g : list (Z * Z)) : gmap (Z * Z) Z :=
  foldl (fun m xc => paint tw r xc.1 xc.2 m) m g.

(** Nothing drawn leaves the terminal. *)
Definition inside (cols : Z) (tw : Z -> Z) (g : list (Z * Z)) : Prop :=
  Forall (fun xc : Z * Z => 0 <= xc.1 /\ xc.1 + tw xc.2 <= cols) g.

Lemma paint_lookup tw r x c m r' y :
  paint tw r x c m !! (r', y) = if decide (r' = r /\ x <= y < x + tw c) then Some c else m !! (r', y).
Proof.
  unfold paint. assert (forall n, foldl (fun m k => <[(r, x + Z.of_nat k) := c]> m) m (seq 0 n) !! (r', y) =
    if decide (r' = r /\ x <= y < x + Z.of_nat n) then Some c else m !! (r', y)) as H.
  { induction n as [|n IH]; [rewrite decide_False by lia; done|].
    rewrite seq_S, foldl_app. cbn [foldl Nat.add].
    destruct (decide (r' = r /\ y = x + Z.of_nat n)) as [[-> ->]|Hne].
    - rewrite lookup_insert_eq. by rewrite decide_True by lia.
    - rewrite lookup_insert_ne by (intros [= <- <-]; by apply Hne). rewrite IH.
      destruct (decide (r' = r /\ x <= y < x + Z.of_nat n)).
      + by rewrite decide_True by lia.
      + by rewrite decide_False by lia. }
  rewrite H. destruct (decide (r' = r /\ x <= y < x + tw c)).
  - by rewrite decide_True by lia.
  - by rewrite decide_False by lia.
Qed.

Lemma paint_all_lookup_lt tw r m g y : Forall (fun xc : Z * Z => y < xc.1) g ->
  paint_all tw r m g !! (r, y) = m !! (r, y).
Proof.
  intros H. revert m. induction H as [|[x c] g Hx _ IH]; intros m; [done|].
  change (paint_all tw r m ((x, c) :: g)) with (paint_all tw r (paint tw r x c m) g). rewrite IH, paint_lookup. simpl in Hx. by rewrite decide_False by lia.
Qed.

Lemma paint_all_app tw r m g h : paint_all tw r m (g ++ h) = paint_all tw r (paint_all tw r m g) h.
Proof. apply foldl_app. Qed.

(** Typing a line that stays inside the terminal is painting what it draws. *)
Lemma type_draw cols tw s : forall st r x x' m g st' y,
  draw tw (st, x) s = (g, (st', y)) -> inside cols tw g -> (forall c, 0 <= tw c) ->
  x' = x \/ cols <= x /\ x' = cols - 1 ->
  exists x'', type_on cols tw (mkTerm st r x' m) s = mkTerm st' r x'' (paint_all tw r m g).
Proof.
  induction s as [|c s IH]; intros st r x x' m g st' y; cbn [draw type_on foldl].
  { intros [= <- <- <-] _ _ _. by exists x'. }
  destruct (step tw (st, x) c) as [g1 [st1 x1]] eqn:E1.
  destruct (draw tw (st1, x1) s) as [g2 [st2 x2]] eqn:E2. intros [= <- <- <-] Hin Htw Hx.
  apply Forall_app in Hin as [Hin1 Hin2]. fold (type_on cols tw (type_char cols tw (mkTerm st r x' m) c) s).
  rewrite paint_all_app. cbn [step] in E1. unfold type_char. cbn [te_parser te_row te_col te_cells].
  destruct st as [| |n].
  - repeat case_decide; injection E1 as <- <- <-; cbn [paint_all foldl].
    + eapply IH; [exact E2|done..].
    + eapply IH; [exact E2|done|done|by left].
    + apply Forall_singleton in Hin1 as [Hx0 Hx1]. cbn [fst snd] in *. pose proof (Htw c) as Hc.
      unfold landing. rewrite decide_False by lia.
      assert (paint tw r x' c m = paint tw r x c m) as ->.
      { destruct Hx as [->|[Hx ->]]; [done|]. unfold paint. by replace (tw c) with 0 by lia. }
      eapply IH; [exact E2|done|done|]. lia.
  - case_decide; injection E1 as <- <- <-; (eapply IH; [exact E2|done..]).
  - repeat case_decide; injection E1 as <- <- <-; (eapply IH; [exact E2|done|done|]); lia.
Qed.

Lemma typed_draw cols tw l g y : (forall c, 0 <= tw c) -> Draws tw 0 l g y -> inside cols tw g ->
  te_row (typed cols tw l) = 0 /\ te_cells (typed cols tw l) = paint_all tw 0 ∅ g.
Proof.
  intros Htw Hd Hin. destruct (type_draw cols tw l Ground 0 0 0 ∅ g Ground y Hd Hin Htw) as [x E]; [by left|].
  unfold typed. by rewrite E.
Qed.

(** Drawn in a column, and nothing after it there. *)
Definition settled (g : list (Z * Z)) (y x : Z) : Prop :=
  exists pre post, g = pre ++ (y, x) :: post /\ Forall (fun xc : Z * Z => y < xc.1) post.

Lemma settled_app_l g h y x : settled g y x -> Forall (fun xc : Z * Z => y < xc.1) h -> settled (g ++ h) y x.
Proof.
  intros (pre & post & -> & Hp) Hh. exists pre, (post ++ h). rewrite <- app_assoc. split; [done|].
  by apply Forall_app.
Qed.
Lemma settled_app_r g h y x : settled h y x -> settled (g ++ h) y x.
Proof. intros (pre & post & -> & Hp). exists (g ++ pre), post. by rewrite <- app_assoc. Qed.

Lemma settled_lookup tw r m g y x : settled g y x -> 0 < tw x -> paint_all tw r m g !! (r, y) = Some x.
Proof.
  intros (pre & post & -> & Hp) Hx. rewrite paint_all_app.
  change (paint_all tw r (paint_all tw r m pre) ((y, x) :: post))
    with (paint_all tw r (paint tw r y x (paint_all tw r m pre)) post).
  rewrite paint_all_lookup_lt by done. rewrite paint_lookup, decide_True by (cbn [fst snd]; lia). done.
Qed.

(** [x] is drawn without a gap inside [g], and nothing after it before its
    end. *)
Definition shown (tw : Z -> Z) (g : list (Z * Z)) (col : Z) (x : str) : Prop :=
  exists pre post, g = pre ++ place tw col x ++ post /\
    Forall (fun xc : Z * Z => col + extent tw x <= xc.1) post.

Lemma shown_app_l tw g h col x : shown tw g col x ->
  Forall (fun xc : Z * Z => col + extent tw x <= xc.1) h -> shown tw (g ++ h) col x.
Proof.
  intros (a & b & -> & Hb) Hh. exists a, (b ++ h). rewrite <- !app_assoc. split; [done|]. by apply Forall_app.
Qed.
Lemma shown_app_r tw g h col x : shown tw h col x -> shown tw (g ++ h) col x.
Proof. intros (a & b & -> & Hb). exists (g ++ a), b. by rewrite <- !app_assoc. Qed.

Lemma extent_nonneg tw s : (forall c, 0 <= tw c) -> 0 <= extent tw s.
Proof. intros H. induction s as [|c s IH]; simpl; [done|]. specialize (H c). lia. Qed.

Lemma shown_reads cols tw r m g col x : (forall c, 0 <= tw c) ->
  shown tw g col x -> inside cols tw g -> reads cols tw (paint_all tw r m g) r col x.
Proof.
  intros Htw (pre & post & -> & Hp) Hin. rewrite paint_all_app. generalize (paint_all tw r m pre) as m0.
  apply Forall_app in Hin as [_ Hin]. clear m pre. revert col Hp Hin.
  induction x as [|c x IH]; intros col Hp Hin m0; [done|]. cbn [place app reads extent foldr] in *.
  fold (extent tw x) in *. pose proof (extent_nonneg tw x Htw) as Hx. pose proof (Htw c) as Hc.
  apply Forall_cons in Hin as [[H0 H1] Hin]. cbn [fst snd] in *. unfold landing. rewrite decide_False by lia.
  change (paint_all tw r m0 ((col, c) :: place tw (col + tw c) x ++ post))
    with (paint_all tw r (paint tw r col c m0) (place tw (col + tw c) x ++ post)). split.
  - intros k Hk. rewrite paint_all_lookup_lt; [rewrite paint_lookup, decide_True by (cbn [fst snd]; lia); done|].
    apply Forall_app. split; [|eapply Forall_impl; [exact Hp|]; simpl; intros; lia].
    clear -Htw Hk. assert (col + k < col + tw c) as Hlt by lia. revert Hlt. generalize (col + tw c) as y.
    induction x as [|d x IH]; intros y Hy; cbn [place]; [constructor|]. constructor; [done|].
    apply IH. specialize (Htw d). lia.
  - apply IH; [|done]. eapply Forall_impl; [exact Hp|]. simpl. intros. lia.
Qed.

(** The code points of the frames. *)
Definition frame_chars : list Z :=
  [BAR; 9581; 9516; 9582; 9472; 9566; 9578; 9569; 9552; 9500; 9532; 9508; 9584; 9524; 9583].

(** Text a renderer may be given: nothing that moves the cursor, and no
    joiner, whose cluster [truncate] measures differently from its parts. *)
Definition clean (s : str) : Prop := Forall printable s /\ zero_joiner ∉ s.

(** The terminal draws box characters one column wide; where the code pads
    with spaces, the terminal also agrees with the policy on the rest. *)
Definition agrees `{UnicodeWidth} (p : WidthPolicy) (mode : DrawMode) (tw : Z -> Z) : Prop :=
  Forall (fun c => tw c = 1) frame_chars /\ (forall c, 0 <= tw c)
  /\ (mode = Padded -> tw 32 = 1 /\ forall c, printable c -> tw c = char_width p c).

(** It gives no character more columns than the policy does. *)
Definition no_wider `{UnicodeWidth} (p : WidthPolicy) (tw : Z -> Z) : Prop :=
  tw 32 <= 1 /\ forall c, printable c -> tw c <= char_width p c.

Lemma extent_no_wider `{UnicodeWidth} p tw s :
  no_wider p tw -> Forall printable s -> extent tw s <= columns p s.
Proof.
  intros [_ Hw]. induction 1 as [|c s Hc _ IH]; simpl; [done|]. specialize (Hw c Hc). simpl in IH. lia.
Qed.

Lemma extent_columns `{UnicodeWidth} p tw s :
  (forall c, printable c -> tw c = char_width p c) -> Forall printable s -> extent tw s = columns p s.
Proof. intros Hw. induction 1 as [|c s Hc _ IH]; simpl; [done|]. rewrite Hw by done. simpl in IH. lia. Qed.

Lemma extent_spaces tw n : extent tw (spaces n) = Z.max 0 n * tw 32.
Proof.
  unfold spaces. rewrite <- (Z2Nat.id (Z.max 0 n)) by lia.
  replace (Z.to_nat (Z.max 0 n)) with (Z.to_nat n) by lia.
  induction (Z.to_nat n) as [|k IH]; [done|]. cbn [replicate extent foldr].
  rewrite Nat2Z.inj_succ. unfold extent in IH. lia.
Qed.

Lemma spaces_printable n : Forall printable (spaces n).
Proof. apply Forall_replicate. split; lia. Qed.

Lemma bar_printable : printable BAR.
Proof. split; unfold BAR; lia. Qed.

Lemma agrees_bar `{UnicodeWidth} p mode tw : agrees p mode tw -> tw BAR = 1.
Proof. intros [Hf _]. by inversion_clear Hf. Qed.

Lemma place_ge tw col s : (forall c, 0 <= tw c) -> Forall (fun xc : Z * Z => col <= xc.1) (place tw col s).
Proof.
  intros Htw. assert (forall y, col <= y -> Forall (fun xc : Z * Z => col <= xc.1) (place tw y s)) as H; [|by apply H].
  induction s as [|c s IH]; intros y Hy; cbn [place]; [constructor|]. constructor; [done|].
  apply IH. specialize (Htw c). lia.
Qed.

Lemma place_within tw col s B : (forall c, 0 <= tw c) -> col + extent tw s <= B ->
  Forall (fun xc : Z * Z => xc.1 + tw xc.2 <= B) (place tw col s).
Proof.
  intros Htw. revert col. induction s as [|c s IH]; intros col HB; cbn [place]; [constructor|].
  cbn [extent foldr] in HB. fold (extent tw s) in HB. pose proof (extent_nonneg tw s Htw).
  constructor; [simpl; lia|]. apply IH. lia.
Qed.

(** ** One cell *)

Section Cells.
Context `{W : UnicodeWidth} {WL : UnicodeWidthLaws W}.
Variables (p : WidthPolicy) (mode : DrawMode) (tw : Z -> Z) (Hagree : agrees p mode tw).

Lemma tw_nonneg c : 0 <= tw c.
Proof. destruct Hagree as (_ & H & _). apply H. Qed.

(** A cell of width [w] after the border in column [b]: it ends with the next
    border, draws nothing left of its start, and draws [x]; and if the terminal
    draws no text wider than the policy says, [x] is not drawn over and nothing
    of the cell reaches beyond it. *)
Definition cell_ok (b w : Z) (s x : str) : Prop :=
  exists g col0,
    Draws tw (b + 1) s (g ++ [(b + w + 3, BAR)]) (b + w + 3 + 1)
    /\ Forall (fun xc : Z * Z => b + 1 <= xc.1) g
    /\ (no_wider p tw -> shown tw (g ++ [(b + w + 3, BAR)]) col0 x /\ col0 + extent tw x <= b + w + 3
          /\ Forall (fun xc : Z * Z => xc.1 + tw xc.2 <= b + w + 3) g).

Lemma truncate_clean raw w text tw' : clean raw -> 0 <= w -> truncate p raw w = (text, tw') ->
  Forall printable text /\ tw' <= w /\ tw' = columns p text
  /\ (str_width p raw <= tw' -> text = raw).
Proof.
  intros [Hp Hz] Hw E. apply truncate_prefix in E as H; [|done..].
  destruct H as (-> & Hle & rest & -> & Hr).
  apply Forall_app in Hp as [Hp _]. rewrite not_elem_of_app in Hz. destruct Hz as [Hz Hzr].
  split_and!; [done|done|by apply str_width_columns|]. intros Hs.
  revert E. unfold truncate. case_decide as Hd; [intros [= H _]; done|lia].
Qed.

(** The text of a cell and the spaces that pad it, on either side. *)
Lemma inside_ok (right : bool) n text styled b w :
  Forall printable text -> 0 <= n -> 0 <= w ->
  (forall col, Draws tw col styled (place tw col text) (col + extent tw text)) ->
  (no_wider p tw -> n + extent tw text <= w) ->
  exists g col0, Draws tw (b + 1 + tw 32) (if right then spaces n ++ styled else styled ++ spaces n) g
      (b + 1 + tw 32 + extent tw (spaces n) + extent tw text)
    /\ Forall (fun xc : Z * Z => b + 1 <= xc.1) g
    /\ shown tw g col0 text
    /\ col0 + extent tw text <= b + 1 + tw 32 + extent tw (spaces n) + extent tw text
    /\ (no_wider p tw -> Forall (fun xc : Z * Z => xc.1 + tw xc.2 <= b + 2 + w) g).
Proof.
  intros Ht Hn Hw Hd Hnw. pose proof tw_nonneg as Htw. pose proof (spaces_printable n) as Hs.
  pose proof (Htw 32) as H32. pose proof (extent_nonneg tw (spaces n) Htw) as Hes.
  pose proof (extent_nonneg tw text Htw) as Het.
  assert (no_wider p tw -> extent tw (spaces n) <= n) as Hsp.
  { intros [H1 _]. rewrite extent_spaces, Z.max_r by done. nia. }
  destruct right.
  - eexists _, (b + 1 + tw 32 + extent tw (spaces n)). split_and!.
    + eapply draws_app; [by apply draws_printable|by apply Hd].
    + apply Forall_app. split; eapply Forall_impl; [by apply place_ge| |by apply place_ge|]; simpl; lia.
    + exists (place tw (b + 1 + tw 32) (spaces n)), []. by rewrite app_nil_r.
    + done.
    + intros H. specialize (Hnw H). specialize (Hsp H). destruct H as [H1 _].
      apply Forall_app. split; apply place_within; try done; lia.
  - eexists _, (b + 1 + tw 32). split_and!.
    + eapply draws_app; [by apply Hd|]. rewrite (Z.add_shuffle0 (b + 1 + tw 32)). by apply draws_printable.
    + apply Forall_app. split; eapply Forall_impl; [by apply place_ge| |by apply place_ge|]; simpl; lia.
    + exists [], (place tw (b + 1 + tw 32 + extent tw text) (spaces n)). split; [done|]. by apply place_ge.
    + lia.
    + intros H. specialize (Hnw H). specialize (Hsp H). destruct H as [H1 _].
      apply Forall_app. split; apply place_within; try done; lia.
Qed.

Lemma draw_cell_ok theme ws right tok strong i raw b w :
  ws !! i = Some w -> 0 <= w -> 0 <= b -> clean raw -> bounds ws !! S i = Some (b + w + 3) ->
  cell_ok b w (draw_cell theme p mode ws right tok strong i raw).1 (truncate p raw w).1.
Proof.
  intros Hw Hw0 Hb0 Hc Hb. unfold draw_cell. rewrite Hw. cbn [default]. unfold id.
  destruct (truncate p raw w) as [text tw'] eqn:E. cbn [fst].
  apply truncate_clean in E as (Hp & Hle & Htw & _); [|done..]. pose proof tw_nonneg as Hnn.
  set (n := Z.max 0 (w - tw')).
  destruct (inside_ok right n text (display (mkStyled text tok strong theme)) b w Hp) as
    (g & col0 & Hi & Hge & Hsh & Hend & Hle'); [lia|done| | |].
  { intros col. by apply (draw_display tw col (mkStyled text tok strong theme)). }
  { intros H. apply (extent_no_wider p tw text) in H; [|done]. lia. }
  set (stop := b + 1 + tw 32 + extent tw (spaces n) + extent tw text) in *.
  assert (Draws tw (stop + tw 32) (at_border mode (bounds ws) (S i)) [] (b + w + 3)) as Ha.
  { destruct mode; [|apply draws_border; [done|lia]].
    destruct Hagree as (_ & _ & [H32 Hch]); [done|].
    unfold stop. rewrite extent_spaces, (extent_columns p) by done. rewrite H32.
    unfold Draws. cbn [at_border draw]. f_equal. f_equal. lia. }
  pose proof (extent_nonneg tw text Hnn) as Het. pose proof (extent_nonneg tw (spaces n) Hnn) as Hes.
  pose proof (Hnn 32) as H32.
  exists ([(b + 1, 32)] ++ (g ++ [(stop, 32)])), col0. split_and!.
  - rewrite <- !app_assoc. eapply draws_app; [by apply draws_char|].
    eapply draws_app; [exact Hi|]. eapply draws_app; [by apply draws_char|].
    change [(b + w + 3, BAR)] with ([] ++ [(b + w + 3, BAR)]). eapply draws_app; [exact Ha|].
    pose proof (draws_char tw (b + w + 3) BAR bar_printable) as Hbar.
    by rewrite (agrees_bar p mode tw Hagree) in Hbar.
  - apply Forall_cons; split; [simpl; lia|]. apply Forall_app. split; [done|].
    apply Forall_singleton. unfold stop. simpl. lia.
  - intros H. specialize (Hle' H). pose proof (extent_no_wider p tw text H Hp) as Hx. destruct H as [H1 _].
    assert (stop <= b + 2 + w) as Hstop.
    { unfold stop. rewrite extent_spaces, Z.max_r by lia. nia. }
    split_and!.
    + rewrite <- app_assoc. apply shown_app_r. rewrite <- app_assoc. apply shown_app_l; [done|].
      repeat (apply Forall_cons; split); try apply Forall_nil; simpl; lia.
    + lia.
    + apply Forall_cons; split; [simpl; lia|]. apply Forall_app. split; [|apply Forall_singleton; simpl; lia].
      eapply Forall_impl; [exact Hle'|]. simpl. lia.
Qed.

(** ** Lines and rules *)

(** The cells of a line, one per column from border [b] on. *)
Fixpoint cells_ok (b : Z) (ws : list Z) (cells xs : list str) : Prop :=
  match ws, cells, xs with
  | [], [], [] => True
  | w :: ws', s :: cells', x :: xs' => cell_ok b w s x /\ cells_ok (b + w + 3) ws' cells' xs'
  | _, _, _ => False
  end.

Lemma bounds_from_0 b ws : bounds_from b ws !! 0%nat = Some b.
Proof. by destruct ws. Qed.

Lemma bounds_from_ge b ws : forall i c, Forall (fun w => 0 <= w) ws -> bounds_from b ws !! S i = Some c -> b < c.
Proof.
  revert b. induction ws as [|w ws IH]; intros b i c; [done|]. intros [H0 Hw]%Forall_cons.
  cbn [bounds_from lookup list_lookup]. destruct i as [|i].
  - rewrite bounds_from_0. intros [= <-]. lia.
  - intros H. apply IH in H; [lia|done].
Qed.

Lemma draw_cells b ws : forall cells xs,
  cells_ok b ws cells xs -> Forall (fun w => 0 <= w) ws -> exists g,
    Draws tw (b + 1) (concat cells) g (b + total_width ws + 3 * zlen ws + 1)
    /\ Forall (fun xc : Z * Z => b + 1 <= xc.1) g
    /\ (forall i c, bounds_from b ws !! S i = Some c -> settled g c BAR)
    /\ (no_wider p tw -> Forall (fun xc : Z * Z => xc.1 + tw xc.2 <= b + total_width ws + 3 * zlen ws + 1) g
          /\ forall x, x ∈ xs -> exists col0, shown tw g col0 x).
Proof.
  revert b. induction ws as [|w ws IH]; intros b [|s cells] [|x xs]; cbn [cells_ok]; try done.
  - intros _ _. exists []. split_and!; [|constructor|done|intros _; split; [constructor|by intros x ?%elem_of_nil]].
    unfold Draws. cbn [concat imap draw]. f_equal. f_equal. unfold total_width, zlen. simpl. lia.
  - intros [(g & col0 & Hg & Hge & Hsh) Hcs] [Hw0 Hws]%Forall_cons.
    destruct (IH (b + w + 3) _ _ Hcs Hws) as (g' & Hg' & Hge' & Hb & Hx).
    assert (0 <= total_width ws /\ 0 <= zlen ws) as [Htot Hzl].
    { split; [|apply zlen_nonneg]. clear -Hws. unfold total_width. induction Hws; simpl; lia. }
    exists ((g ++ [(b + w + 3, BAR)]) ++ g'). rewrite zlen_cons. cbn [total_width foldr]. fold (total_width ws).
    replace (b + (w + total_width ws) + 3 * (zlen ws + 1) + 1)
      with (b + w + 3 + total_width ws + 3 * zlen ws + 1) by lia. split_and!.
    + cbn [concat]. eapply draws_app; [exact Hg|exact Hg'].
    + repeat (apply Forall_app; split); [done|apply Forall_singleton; simpl; lia|].
      eapply Forall_impl; [exact Hge'|]. simpl. lia.
    + intros [|i] c; cbn [bounds_from lookup list_lookup]; intros Hc.
      * rewrite bounds_from_0 in Hc. injection Hc as <-. apply settled_app_l; [by exists g, []|].
        eapply Forall_impl; [exact Hge'|]. simpl. lia.
      * apply settled_app_r. by eapply Hb.
    + intros H. destruct (Hsh H) as (Hs & Hend & Hl), (Hx H) as [Hl' Hx']. split.
      * repeat (apply Forall_app; split); [|apply Forall_singleton; simpl;
          rewrite (agrees_bar p mode tw Hagree); lia|done].
        eapply Forall_impl; [exact Hl|]. simpl. lia.
      * intros y [->|Hy]%elem_of_cons.
        -- exists col0. apply shown_app_l; [done|]. eapply Forall_impl; [exact Hge'|]. simpl. lia.
        -- destruct (Hx' y Hy) as [c1 H1]. exists c1. by apply shown_app_r.
Qed.

(** What the frame promises of a printed line: a border in every bound that
    nothing is drawn over, and the line ends with the last one; and it stays
    within the frame if the terminal draws no text wider than the policy says. *)
Definition framed (ws : list Z) (l : str) (g : list (Z * Z)) : Prop :=
  Draws tw 0 l g (frame_width ws)
  /\ Forall (fun xc : Z * Z => 0 <= xc.1) g
  /\ (forall i c, bounds ws !! i = Some c -> exists x, x ∈ frame_chars /\ settled g c x)
  /\ (no_wider p tw -> Forall (fun xc : Z * Z => xc.1 + tw xc.2 <= frame_width ws) g).

Lemma frame_width_ge ws : Forall (fun w => 0 <= w) ws -> 1 <= frame_width ws.
Proof.
  intros H. unfold frame_width. assert (0 <= total_width ws).
  { unfold total_width. induction H; simpl; lia. }
  pose proof (zlen_nonneg ws). lia.
Qed.

Lemma draw_line_framed ws cells xs :
  Forall (fun w => 0 <= w) ws ->
  cells_ok 0 ws (fst <$> cells) xs -> exists g, framed ws (draw_line mode ws cells) g
    /\ (no_wider p tw -> forall x, x ∈ xs -> exists col0, shown tw g col0 x).
Proof.
  intros Hws Hc. assert (Draws tw 0 (at_border mode (bounds ws) 0) [] 0) as H0.
  { destruct mode; [done|]. apply draws_border; [by destruct ws|done]. }
  destruct (draw_cells 0 ws _ _ Hc Hws) as (g & Hg & Hge & Hb & Hx).
  exists ([] ++ [(0, BAR)] ++ g). split; [split_and!|].
  - unfold draw_line. eapply draws_app; [exact H0|].
    eapply draws_app; [|exact Hg]. pose proof (draws_char tw 0 BAR bar_printable) as H.
    by rewrite (agrees_bar p mode tw Hagree) in H.
  - cbn [app]. constructor; [simpl; lia|]. eapply Forall_impl; [exact Hge|]. simpl. lia.
  - intros [|i] c Hi; exists BAR; (split; [by left|]); cbn [app].
    + unfold bounds in Hi. rewrite bounds_from_0 in Hi. injection Hi as <-. exists [], g. split; [done|].
      eapply Forall_impl; [exact Hge|]. simpl. lia.
    + apply (settled_app_r [(0, BAR)]). by eapply Hb.
  - intros H. destruct (Hx H) as [Hl _]. cbn [app]. constructor.
    + simpl. rewrite (agrees_bar p mode tw Hagree). by apply frame_width_ge.
    + unfold frame_width. eapply Forall_impl; [exact Hl|]. simpl. lia.
  - intros H x Hin. destruct (Hx H) as [_ Hx']. destruct (Hx' x Hin) as [c Hs]. exists c. by apply (shown_app_r tw [(0, BAR)]).
Qed.

Lemma place_replicate fill n : tw fill = 1 ->
  extent tw (replicate n fill) = Z.of_nat n.
Proof. intros H. induction n as [|n IH]; [done|]. cbn [replicate extent foldr]. unfold extent in IH. lia. Qed.

Lemma rule_cells mid r fill b ws n k :
  tw fill = 1 -> tw mid = 1 -> tw r = 1 -> printable fill -> printable mid -> printable r ->
  mid ∈ frame_chars -> r ∈ frame_chars -> Forall (fun w => 0 <= w) ws -> n = (k + length ws)%nat ->
  exists g,
  Draws tw (b + 1) (concat (imap (fun i width =>
         replicate (Z.to_nat (width + 2)) fill ++ [if decide (S (k + i) = n) then r else mid]) ws))
    g (b + total_width ws + 3 * zlen ws + 1)
  /\ Forall (fun xc : Z * Z => b + 1 <= xc.1 /\ xc.1 + tw xc.2 <= b + total_width ws + 3 * zlen ws + 1) g
  /\ forall i c, bounds_from b ws !! S i = Some c -> exists x, x ∈ frame_chars /\ settled g c x.
Proof.
  intros Tf Tm Tr Pf Pm Pr Em Er. pose proof tw_nonneg as Htw.
  revert b k. induction ws as [|w ws IH]; intros b k Hw ->.
  - exists []. split_and!; [|constructor|done].
    unfold Draws. cbn [concat imap draw]. f_equal. f_equal. unfold total_width, zlen. simpl. lia.
  - apply Forall_cons in Hw as [H0 Hws]. cbn [imap concat].
    destruct (IH (b + w + 3) (S k) Hws) as (g & Hg & Hge & Hb); [simpl; lia|].
    set (x := if decide (S (k + 0) = _) then r else mid).
    assert (tw x = 1 /\ printable x /\ x ∈ frame_chars) as (Tx & Px & Ex)
      by (unfold x; by case_decide).
    pose proof (frame_width_ge ws Hws) as Hfw. unfold frame_width in Hfw.
    exists ((place tw (b + 1) (replicate (Z.to_nat (w + 2)) fill) ++ [(b + w + 3, x)]) ++ g).
    rewrite zlen_cons. cbn [total_width foldr]. fold (total_width ws).
    replace (b + (w + total_width ws) + 3 * (zlen ws + 1) + 1)
      with (b + w + 3 + total_width ws + 3 * zlen ws + 1) by lia. split_and!.
    + eapply draws_app.
      * eapply draws_app; [apply draws_printable; by apply Forall_replicate|].
        rewrite place_replicate by done. rewrite Z2Nat.id by lia.
        replace (b + 1 + (w + 2)) with (b + w + 3) by lia. by apply draws_char.
      * rewrite Tx. revert Hg. unfold Draws. intros <-. do 2 f_equal. apply imap_ext. intros i y _. simpl.
        by rewrite !Nat.add_succ_r.
    + repeat (apply Forall_app; split).
      * apply Forall_and. split; [by apply place_ge|]. apply place_within; [done|].
        rewrite place_replicate by done. rewrite Z2Nat.id by lia. lia.
      * apply Forall_singleton. simpl. rewrite Tx. lia.
      * eapply Forall_impl; [exact Hge|]. simpl. lia.
    + intros [|i] c; cbn [bounds_from lookup list_lookup]; intros Hc.
      * rewrite bounds_from_0 in Hc. injection Hc as <-. exists x. split; [done|].
        apply settled_app_l; [by eexists _, []|]. eapply Forall_impl; [exact Hge|]. simpl. lia.
      * destruct (Hb i c Hc) as (y & Hy & Hin). exists y. split; [done|]. by apply settled_app_r.
Qed.

Lemma rule_framed l mid r fill ws :
  forallb (fun c => bool_decide (c ∈ frame_chars)) [l; mid; r; fill] = true ->
  Forall (fun w => 0 <= w) ws ->
  exists g, framed ws (rule l mid r fill ws) g
    /\ Forall (fun xc : Z * Z => xc.1 + tw xc.2 <= frame_width ws) g.
Proof.
  intros Hin Hws.
  assert (forall c, c ∈ frame_chars -> tw c = 1 /\ printable c) as Hf.
  { intros c Hc. split; [destruct Hagree as [H _]; by eapply Forall_forall in H|].
    assert (Forall printable frame_chars) as H by (repeat constructor; unfold BAR; lia).
    by eapply Forall_forall in H. }
  assert (l ∈ frame_chars /\ mid ∈ frame_chars /\ r ∈ frame_chars /\ fill ∈ frame_chars)
    as (El & Em & Er & Ef).
  { cbn [forallb] in Hin. rewrite !andb_true_iff, !bool_decide_eq_true in Hin. tauto. }
  destruct (rule_cells mid r fill 0 ws (length ws) 0) as (g & Hg & Hge & Hb); try by (apply Hf || done).
  assert (Forall (fun xc : Z * Z => xc.1 + tw xc.2 <= frame_width ws) ([(0, l)] ++ g)) as Hle.
  { constructor; [simpl; rewrite (proj1 (Hf l El)); by apply frame_width_ge|].
    eapply Forall_impl; [exact Hge|]. unfold frame_width. simpl. lia. }
  exists ([(0, l)] ++ g). split; [|done]. split_and!.
  - unfold rule. change (l :: ?x) with ([l] ++ x). eapply draws_app; [|exact Hg].
    pose proof (draws_char tw 0 l (proj2 (Hf l El))) as H. by rewrite (proj1 (Hf l El)) in H.
  - constructor; [done|]. eapply Forall_impl; [exact Hge|]. simpl. lia.
  - intros [|i] c Hi.
    + exists l. split; [done|]. unfold bounds in Hi. rewrite bounds_from_0 in Hi. injection Hi as <-.
      exists [], g. split; [done|]. eapply Forall_impl; [exact Hge|]. simpl. lia.
    + destruct (Hb i c Hi) as (x & Hx & Hg'). exists x. split; [done|]. by apply settled_app_r.
  - by intros _.
Qed.

(** ** The cells of a row *)

Lemma bounds_succ ws : forall a k b w,
  bounds_from a ws !! k = Some b -> ws !! k = Some w -> bounds_from a ws !! S k = Some (b + w + 3).
Proof.
  induction ws as [|x ws IH]; intros a [|k] b w; cbn [bounds_from lookup list_lookup]; try done.
  - intros [= <-] [= <-]. apply bounds_from_0.
  - intros Hb Hw. by apply IH.
Qed.

Definition cut (ws : list Z) (i : nat) (raw : str) : str := (truncate p raw (default 0 (ws !! i))).1.

Lemma imap_cells_ok {A} theme strong (right : nat -> A -> bool) (tok : nat -> A -> Token)
    (raw : nat -> A -> str) (all : list Z) (l : list A) : forall ws k b,
  (forall j, ws !! j = all !! (k + j)%nat) -> length l = length ws ->
  bounds all !! k = Some b -> 0 <= b -> Forall (fun w => 0 <= w) ws ->
  (forall i c, l !! i = Some c -> clean (raw (k + i)%nat c)) ->
  cells_ok b ws
    (fst <$> imap (fun i c => draw_cell theme p mode all (right (k + i)%nat c) (tok (k + i)%nat c)
                                strong (k + i)%nat (raw (k + i)%nat c)) l)
    (imap (fun i c => cut all (k + i) (raw (k + i)%nat c)) l).
Proof.
  induction l as [|c l IH]; intros [|w ws] k b Hall Hl Hb Hb0 Hw Hc; try done.
  inversion_clear Hw as [|? ? Hw0 Hws]. cbn [imap fmap list_fmap cells_ok].
  pose proof (Hall 0%nat) as Hk. rewrite Nat.add_0_r in Hk. cbn [lookup list_lookup] in Hk.
  assert (bounds all !! S k = Some (b + w + 3)) as Hb' by (by apply bounds_succ).
  split.
  - rewrite Nat.add_0_r. unfold cut. rewrite <- Hk. cbn [default].
    apply draw_cell_ok; try done. specialize (Hc 0%nat c eq_refl). by rewrite Nat.add_0_r in Hc.
  - assert (forall i, (k + S i = S k + i)%nat) as Hs by (intros; lia).
    rewrite (imap_ext _ (fun i d => draw_cell theme p mode all (right (S k + i)%nat d)
      (tok (S k + i)%nat d) strong (S k + i)%nat (raw (S k + i)%nat d)))
      by (intros i d _; simpl; by rewrite !Nat.add_succ_r).
    rewrite (imap_ext _ (fun i d => cut all (S k + i) (raw (S k + i)%nat d)))
      by (intros i d _; simpl; by rewrite !Nat.add_succ_r).
    apply IH; try done; [|by injection Hl| |].
    + intros j. rewrite <- Hs. apply (Hall (S j)).
    + lia.
    + intros i d Hi. rewrite <- Hs. by apply (Hc (S i)).
Qed.

(** Every title and every line of every cell is clean. *)
Definition texts_clean (t : Table) : Prop :=
  Forall (fun c => clean (title c)) (t_columns t)
  /\ Forall (Forall (fun c => Forall clean (lines c))) (t_rows t).

Lemma clean_nil : clean [].
Proof. split; [constructor|by apply not_elem_of_nil]. Qed.

Lemma head_ok t theme ws : length ws = length (t_columns t) -> Forall (fun w => 0 <= w) ws ->
  Forall (fun c => clean (title c)) (t_columns t) ->
  cells_ok 0 ws (fst <$> head_cells t theme p mode ws)
    (imap (fun i c => cut ws i (title c)) (t_columns t)).
Proof.
  intros Hl Hw Hc. refine (imap_cells_ok theme true (fun _ _ => false) (fun _ _ => HeaderFg)
    (fun _ c => title c) ws (t_columns t) ws 0 0 _ _ _ _ _ _); try done.
  - unfold bounds. by rewrite bounds_from_0.
  - intros i c Hi. by eapply Forall_lookup_1 in Hc.
Qed.

Lemma row_ok t theme ws row li :
  length ws = length row -> Forall (fun w => 0 <= w) ws ->
  Forall (fun c => Forall clean (lines c)) row ->
  cells_ok 0 ws (fst <$> row_cells t theme p mode ws row li)
    (imap (fun i c => cut ws i (default [] (lines c !! li))) row).
Proof.
  intros Hl Hw Hc. refine (imap_cells_ok theme false
    (fun i _ => bool_decide (align <$> (t_columns t !! i) = Some Right))
    (fun _ c => if is_annotation c then Muted else Theme.Text)
    (fun _ c => default [] (lines c !! li)) ws row ws 0 0 _ _ _ _ _ _); try done.
  - unfold bounds. by rewrite bounds_from_0.
  - intros i c Hi. eapply Forall_lookup_1 in Hc; [|exact Hi].
    destruct (lines c !! li) as [l|] eqn:E; [by eapply Forall_lookup_1 in Hc|apply clean_nil].
Qed.

Lemma body_lines_in ws blocks l : l ∈ body_lines mode ws blocks ->
  l = row_rule ws \/ exists b c, b ∈ blocks /\ c ∈ b /\ l = draw_line mode ws c.
Proof.
  induction blocks as [|b bs IH]; cbn [body_lines]; [by intros ?%elem_of_nil|].
  intros [H|[H|H]%elem_of_app]%elem_of_app.
  - apply list_elem_of_fmap in H as (c & -> & Hc). right. exists b, c. split; [by left|done].
  - destruct bs; [by apply elem_of_nil in H|]. apply list_elem_of_singleton in H. by left.
  - destruct (IH H) as [?|(b' & c & Hb & Hc)]; [by left|]. right. exists b', c. split; [by right|done].
Qed.

Lemma columns_framed t theme ws : wf t -> texts_clean t ->
  length ws = length (t_columns t) -> Forall (fun w => 0 <= w) ws ->
  Forall (fun l => exists g, framed ws l g) (r_lines (render_columns t theme p mode ws)).
Proof.
  intros [Hr _] [Ht Hc] Hl Hw. apply Forall_forall. intros l.
  assert (forall l mid r fill, forallb (fun c => bool_decide (c ∈ frame_chars)) [l; mid; r; fill] = true ->
    exists g, framed ws (rule l mid r fill ws) g) as Hrule
    by (intros l0 m0 r0 f0 H0; destruct (rule_framed l0 m0 r0 f0 ws H0 Hw) as (g & Hg & _); by exists g).
  cbn [r_lines render_columns]. rewrite !elem_of_app, !elem_of_cons, !elem_of_nil.
  intros [[->|[->|[->|[]]]]|[H|[->|[]]]].
  - by apply Hrule.
  - destruct (draw_line_framed ws _ _ Hw (head_ok t theme ws Hl Hw Ht)) as (g & Hg & _). by exists g.
  - by apply Hrule.
  - apply body_lines_in in H as [->|(b & c & Hb & Hin & ->)]; [by apply Hrule|].
    apply list_elem_of_fmap in Hb as (row & -> & Hrow).
    apply list_elem_of_fmap in Hin as (li & -> & _).
    rewrite Forall_forall in Hr, Hc. specialize (Hr _ Hrow). specialize (Hc _ Hrow).
    destruct (draw_line_framed ws _ _ Hw (row_ok t theme ws row li ltac:(lia) Hw Hc)) as (g & Hg & _).
    by exists g.
  - by apply Hrule.
Qed.

End Cells.

(** ** The widths a rendering uses *)

Section Widths.
Context `{W : UnicodeWidth} {WL : UnicodeWidthLaws W}.

Lemma clusters_nonneg p n : forall w s, (length s <= n)%nat ->
  (forall v, w = Some v -> 0 <= v) -> 0 <= clusters p w s.
Proof.
  induction n as [|n IH]; intros [w|] [|c r] Hn Hw; cbn [clusters]; simpl in Hn; try lia;
    try (by apply Hw); pose proof (char_width_nonneg p c).
  - specialize (Hw w eq_refl).
    case_decide; [destruct r as [|d r]; [lia|]; apply IH; [simpl in *; lia|intros v [= <-]; lia]|].
    destruct (is_zero_width c); [apply IH; [lia|by intros v [= <-]]|].
    assert (0 <= clusters p (Some (char_width p c)) r); [|lia].
    apply IH; [lia|by intros v [= <-]].
  - destruct (is_zero_width c); apply IH; try lia; [done|by intros v [= <-]].
Qed.

Lemma str_width_nonneg p s : 0 <= str_width p s.
Proof. by apply (clusters_nonneg p (length s)). Qed.

Lemma widen_spec p w row : Forall (fun x => 0 <= x) w ->
  length (widen p w row) = length w /\ Forall (fun x => 0 <= x) (widen p w row).
Proof.
  intros H. revert row. induction H as [|x w Hx Hw IH]; intros [|c row]; cbn [widen]; try done.
  - split; [done|by constructor].
  - destruct (IH row) as [Hl Hf]. simpl. split; [lia|]. constructor; [lia|done].
Qed.

Lemma sample_widths_spec t p :
  length (sample_widths t p) = length (t_columns t) /\ Forall (fun x => 0 <= x) (sample_widths t p).
Proof.
  unfold sample_widths. set (w := _ <$> t_columns t). 
  assert (length w = length (t_columns t) /\ Forall (fun x => 0 <= x) w) as [<- Hw].
  { unfold w. rewrite length_fmap. split; [done|]. apply Forall_fmap, Forall_forall.
    intros c _. apply str_width_nonneg. }
  clearbody w. revert w Hw. induction (take SAMPLE_ROWS (t_rows t)) as [|row rows IH]; intros w Hw; simpl.
  - done.
  - destruct (widen_spec p w row Hw) as [Hl Hf]. destruct (IH _ Hf) as [E ?]. split; [|done].
    by rewrite E, Hl.
Qed.

Definition natural_widths (t : Table) (p : WidthPolicy) : list Z :=
  match frozen t with Some w => w | None => sample_widths t p end.

Lemma natural_widths_spec t p : wf t ->
  length (natural_widths t p) = length (t_columns t) /\ Forall (fun x => 0 <= x) (natural_widths t p).
Proof.
  intros [_ Hf]. unfold natural_widths. destruct (frozen t) as [w|] eqn:E; [by apply Hf|].
  apply sample_widths_spec.
Qed.

(** The two ways a table is drawn. *)
Lemma render_cases t total theme p mode : wf t ->
  (fit t (natural_widths t p) total = None
   /\ render_with t total theme p mode = (render_stacked t theme p, t))
  \/ fit t (natural_widths t p) total <> None /\ exists ws t', render_with t total theme p mode = (render_columns t theme p mode ws, t')
     /\ length ws = length (t_columns t) /\ Forall (fun w => 0 <= w) ws
     /\ frame_width ws <= total
     /\ (frozen t = None -> t' = mkTable (t_columns t) (t_rows t) (Some ws))
     /\ (frozen t <> None -> t' = t)
     /\ Forall2 (fun a b => Z.min a MIN_CONTENT <= b <= a) (natural_widths t p) ws
     /\ (frame_width (natural_widths t p) <= total -> ws = natural_widths t p).
Proof.
  intros Hwf. destruct (natural_widths_spec t p Hwf) as [Hl Hn].
  unfold render_with. fold (natural_widths t p).
  destruct (fit t (natural_widths t p) total) as [ws|] eqn:E; [right|by left].
  apply fit_fits in E as (Hlw & Hf & Htot & Hsame); [|done]. split; [done|].
  exists ws, (match frozen t with
              | None => mkTable (t_columns t) (t_rows t) (Some ws)
              | Some _ => t
              end).
  split_and!; [done|lia| |done|by intros ->|by destruct (frozen t)|done|done].
  clear Hl Hlw Htot Hsame. induction Hf as [|a b na ws Hab _ IH]; [done|].
  inversion_clear Hn. constructor; [unfold MIN_CONTENT in *; lia|by apply IH].
Qed.

(** Rendering keeps a table well formed; the widths are frozen once, and a
    later rendering as wide as they need uses them, whatever rows arrived. *)
Theorem widths_frozen t total theme p mode r t' rows total' theme' mode' : wf t ->
  render_with t total theme p mode = (r, t') -> r_layout r = Columns -> frozen t = None ->
  total <= total' ->
  let t'' := foldl push t' rows in
  wf t'' /\ r_widths (render_with t'' total' theme' p mode').1 = r_widths r
  /\ r_layout (render_with t'' total' theme' p mode').1 = Columns.
Proof.
  intros Hwf Hr Hlay Hf Htot t''.
  destruct (render_cases t total theme p mode Hwf) as [[_ E]|(Hsome & ws & u & E & Hl & Hw & Hfw & Hu & _)].
  { rewrite E in Hr. injection Hr as <- _. done. }
  rewrite E in Hr. injection Hr as <- <-. specialize (Hu Hf). subst u. clear E Hlay.
  assert (wf t'' /\ frozen t'' = Some ws /\ t_columns t'' = t_columns t) as (Hwf' & Hfz & Hc).
  { apply (push_rows rows (mkTable (t_columns t) (t_rows t) (Some ws))).
    split; [apply Hwf|by intros w [= <-]]. }
  split; [done|]. destruct (natural_widths_spec t'' p Hwf') as [Hln _].
  assert (natural_widths t'' p = ws) as Hnat by (unfold natural_widths; by rewrite Hfz).
  destruct (render_cases t'' total' theme' p mode' Hwf') as [[E _]|(_ & ws' & u & -> & _ & _ & _ & _ & _ & _ & Hs)].
  - apply fit_none in E. rewrite Hc in E. exfalso. apply Hsome, fit_none. destruct E; [by left|right; lia].
  - cbn [fst r_widths r_layout render_columns]. rewrite Hnat in Hs. split; [|done].
    apply Hs. lia.
Qed.

(** ** The frame *)

(** Every border of the frame is on the row, in its column. *)
Definition bordered (ws : list Z) (t : Term) : Prop :=
  te_row t = 0 /\
  forall i c, bounds ws !! i = Some c -> exists x, x ∈ frame_chars /\ te_cells t !! (0, c) = Some x.

Lemma framed_bordered p mode tw ws l g cols : agrees p mode tw ->
  framed p tw ws l g -> inside cols tw g -> bordered ws (typed cols tw l).
Proof.
  intros (Hf & Htw & _) (Hd & _ & Hb & _) Hin.
  destruct (typed_draw cols tw l g _ Htw Hd Hin) as [Hr Hc]. split; [done|].
  intros i c Hi. destruct (Hb i c Hi) as (x & Hx & Hs). exists x. split; [done|]. rewrite Hc.
  apply settled_lookup; [done|]. rewrite Forall_forall in Hf. rewrite (Hf x Hx). lia.
Qed.

Lemma framed_inside p tw ws l g cols :
  framed p tw ws l g -> no_wider p tw -> frame_width ws <= cols -> inside cols tw g.
Proof.
  intros (_ & Hge & _ & Hle) Hn Hw. specialize (Hle Hn). unfold inside. rewrite Forall_forall in Hge, Hle.
  apply Forall_forall. intros xc Hxc. specialize (Hge xc Hxc). specialize (Hle xc Hxc). simpl in *. lia.
Qed.


(** ** Nothing hidden *)

Lemma existsb_false {A} (f : A -> bool) l x : existsb f l = false -> x ∈ l -> f x = false.
Proof.
  intros H Hx. destruct (f x) eqn:E; [|done]. exfalso. rewrite <- not_true_iff_false, existsb_exists in H.
  apply H. exists x. split; [by apply list_elem_of_In|done].
Qed.

Lemma uncut theme p mode ws right tok strong i raw w :
  ws !! i = Some w -> 0 <= w -> clean raw ->
  (draw_cell theme p mode ws right tok strong i raw).2 = false -> cut p ws i raw = raw.
Proof.
  intros Hw H0 Hc. unfold cut, draw_cell. rewrite Hw. cbn [default]. unfold id.
  destruct (truncate p raw w) as [text tw'] eqn:E. cbn [fst snd].
  apply truncate_clean in E as (_ & _ & _ & H); [|done..].
  intros Hb%bool_decide_eq_false. apply H. lia.
Qed.

Lemma height_lines c : (length (lines c) <= height c)%nat.
Proof. destruct c; simpl; rewrite ?length_fmap; lia. Qed.

Lemma row_height_lines row c : c ∈ row -> (length (lines c) <= row_height row)%nat.
Proof.
  intros Hc. destruct row as [|d row]; [by apply elem_of_nil in Hc|]. unfold row_height.
  revert Hc. generalize (d :: row). clear. intros row.
  induction row as [|d row IH]; [by intros ?%elem_of_nil|].
  intros [->|Hc]%elem_of_cons; cbn [fmap list_fmap foldr].
  - pose proof (height_lines d). lia.
  - specialize (IH Hc). lia.
Qed.

Lemma draw_line_in mode ws blocks b c :
  b ∈ blocks -> c ∈ b -> draw_line mode ws c ∈ body_lines mode ws blocks.
Proof.
  induction blocks as [|d bs IH]; [by intros ?%elem_of_nil|].
  intros [->|Hb]%elem_of_cons Hc; cbn [body_lines]; rewrite !elem_of_app.
  - left. by apply list_elem_of_fmap_2.
  - right. right. by apply IH.
Qed.

(** A text is on the screen when some line, typed on blank rows, leaves it there
    in full: each character in the cells after those of the one before, in the
    next row once it does not fit. *)
Definition on_screen (cols : Z) (tw : Z -> Z) (r : Rendered) (x : str) : Prop :=
  exists l row col, l ∈ r_lines r /\ reads cols tw (te_cells (typed cols tw l)) row col x.

Lemma columns_show t total theme p mode tw ws row c l :
  wf t -> texts_clean t -> agrees p mode tw ->
  length ws = length (t_columns t) -> Forall (fun w => 0 <= w) ws ->
  r_truncated (render_columns t theme p mode ws) = false ->
  no_wider p tw -> frame_width ws <= total ->
  row ∈ t_rows t -> c ∈ row -> l ∈ lines c -> on_screen total tw (render_columns t theme p mode ws) l.
Proof.
  intros [Hr _] [_ Hc] Ha Hl Hw Htr Hnw Htot Hrow Hcell Hline. cbn [r_truncated render_columns] in Htr.
  apply orb_false_iff in Htr as [_ Htr].
  rewrite Forall_forall in Hr, Hc. specialize (Hr _ Hrow). specialize (Hc _ Hrow).
  apply list_elem_of_lookup in Hline as [li Hli], Hcell as [ci Hci].
  assert (li ∈ seq 0 (row_height row)) as Hseq.
  { apply elem_of_seq. apply lookup_lt_Some in Hli. apply list_elem_of_lookup_2 in Hci.
    pose proof (row_height_lines row c Hci). lia. }
  pose proof (row_ok p mode tw Ha t theme ws row li ltac:(lia) Hw Hc) as Hok.
  destruct (draw_line_framed p mode tw Ha ws _ _ Hw Hok) as (g & Hg & Hx). specialize (Hx Hnw).
  assert (row_cells t theme p mode ws row li ∈ row_block t theme p mode ws row) as Hb
    by (by apply (list_elem_of_fmap_2 (row_cells t theme p mode ws row))).
  destruct (ws !! ci) as [w|] eqn:Ew.
  2: { apply lookup_ge_None in Ew. apply lookup_lt_Some in Hci. lia. }
  assert (cut p ws ci l = l) as Hcut.
  { eapply existsb_false in Htr; [|by apply (list_elem_of_fmap_2 (row_block t theme p mode ws))].
    eapply existsb_false in Htr; [|exact Hb].
    eapply existsb_false in Htr; [|eapply list_elem_of_lookup_2; unfold row_cells;
      rewrite list_lookup_imap, Hci; reflexivity].
    rewrite Hli in Htr. eapply uncut; [exact Ew|by eapply Forall_lookup_1 in Hw| |exact Htr].
    eapply Forall_lookup_1 in Hc; [|exact Hci]. by eapply Forall_lookup_1 in Hc. }
  destruct (Hx l) as [col Hsh].
  { rewrite <- Hcut at 1. eapply list_elem_of_lookup_2. rewrite list_lookup_imap, Hci. cbn [fmap option_fmap option_map].
    by rewrite Hli. }
  exists (draw_line mode ws (row_cells t theme p mode ws row li)), 0, col. split.
  - cbn [r_lines render_columns]. rewrite !elem_of_app. right. left.
    eapply draw_line_in; [|exact Hb]. by apply (list_elem_of_fmap_2 (row_block t theme p mode ws)).
  - pose proof (framed_inside p tw ws _ g total Hg Hnw Htot) as Hin. destruct Ha as (_ & Htw & _).
    destruct (typed_draw total tw _ g _ Htw (proj1 Hg) Hin) as [_ ->]. by apply shown_reads.
Qed.

Lemma elem_of_concat {A} (x : A) ls : x ∈ concat ls <-> exists l, l ∈ ls /\ x ∈ l.
Proof.
  induction ls as [|l ls IH]; cbn [concat].
  - rewrite elem_of_nil. split; [done|]. by intros (l & ?%elem_of_nil & _).
  - rewrite elem_of_app, IH. setoid_rewrite elem_of_cons. naive_solver.
Qed.

(** Typing printable text, with rows that wrap. *)
Fixpoint flow_end (cols : Z) (tw : Z -> Z) (r x : Z) (s : str) : Z * Z :=
  match s with
  | [] => (r, x)
  | c :: s' => let '(r', x') := landing cols tw r x c in flow_end cols tw r' (x' + tw c) s'
  end.

(** A cell is before a position. *)
Definition before (r x : Z) (k : Z * Z) : Prop := k.1 < r \/ k.1 = r /\ k.2 < x.

Lemma type_printable cols tw s : (forall c, 0 <= tw c) -> Forall printable s -> forall r x m,
  exists m', type_on cols tw (mkTerm Ground r x m) s =
      mkTerm Ground (flow_end cols tw r x s).1 (flow_end cols tw r x s).2 m'
    /\ reads cols tw m' r x s /\ (forall k, before r x k -> m' !! k = m !! k).
Proof.
  intros Htw. induction 1 as [|c s Hc Hs IH]; intros r x m; [by exists m|].
  cbn [type_on foldl flow_end reads]. unfold type_char at 2. cbn [te_parser te_row te_col te_cells].
  destruct Hc as [H1 H2]. rewrite decide_False, decide_False by lia.
  destruct (landing cols tw r x c) as [r' x'] eqn:El.
  destruct (IH r' (x' + tw c) (paint tw r' x' c m)) as (m' & E & Hr & Hb). exists m'. split_and!; [exact E| |done|].
  - intros k Hk. rewrite Hb; [|right; simpl; lia]. rewrite paint_lookup. by rewrite decide_True by lia.
  - intros [kr kx] Hk. unfold landing in El. specialize (Htw c).
    assert (before r' x' (kr, kx)) as Hk'.
    { unfold before in *. simpl in *. case_decide; injection El as <- <-; lia. }
    rewrite Hb; [|unfold before in *; simpl in *; lia]. rewrite paint_lookup.
    unfold before in Hk'. simpl in Hk'. by rewrite decide_False by lia.
Qed.

(** A control sequence that sets attributes moves nothing. *)
Lemma type_digits cols tw n r x m s : Forall (fun c => 48 <= c <= 57 \/ c = 59) s ->
  exists n', type_on cols tw (mkTerm (Csi n) r x m) s = mkTerm (Csi n') r x m.
Proof.
  intros H. revert n. induction H as [|c s Hc _ IH]; intros n; [by exists n|].
  cbn [type_on foldl]. unfold type_char at 2. cbn [te_parser te_row te_col te_cells].
  destruct Hc as [Hc| ->].
  - rewrite decide_True by done. apply IH.
  - rewrite decide_False, decide_True by lia. apply IH.
Qed.

Lemma type_app cols tw t a b : type_on cols tw t (a ++ b) = type_on cols tw (type_on cols tw t a) b.
Proof. apply foldl_app. Qed.

Lemma type_attributes cols tw r x m s : Forall (fun c => 48 <= c <= 57 \/ c = 59) s ->
  type_on cols tw (mkTerm Ground r x m) ([27; 91] ++ s ++ [109]) = mkTerm Ground r x m.
Proof.
  intros H. rewrite !type_app.
  change (type_on cols tw (mkTerm Ground r x m) [27; 91]) with (mkTerm (Csi 0) r x m).
  destruct (type_digits cols tw 0 r x m s H) as [n' ->].
  cbn [type_on foldl]. unfold type_char. cbn [te_parser te_row te_col te_cells]. by rewrite !decide_False by lia.
Qed.

Lemma type_display cols tw r x m st : Forall printable (text st) -> (forall c, 0 <= tw c) ->
  exists r' x' m', type_on cols tw (mkTerm Ground r x m) (display st) = mkTerm Ground r' x' m'.
Proof.
  intros Ht Htw. destruct (type_printable cols tw (text st) Htw Ht r x m) as (m' & E & _).
  unfold display. pose proof (params_nonneg st) as Hn.
  destruct (params st) as [|n ps] eqn:Ep; [by eexists _, _, _|]. rewrite <- Ep in *.
  change ([27; 91] ++ ?a ++ [109] ++ ?t ++ ?z) with ([27; 91] ++ a ++ ([109] ++ (t ++ z))).
  rewrite (app_assoc _ [109]), (app_assoc [27; 91]), type_app, type_attributes by (by apply params_digits).
  rewrite type_app, E. change [27; 91; 48; 109] with ([27; 91] ++ [48] ++ [109]).
  rewrite type_attributes by (apply Forall_singleton; lia). by eexists _, _, _.
Qed.

Lemma type_after cols tw l pre r x m : (forall c, 0 <= tw c) -> clean l ->
  typed cols tw pre = mkTerm Ground r x m ->
  exists r' x', reads cols tw (te_cells (typed cols tw (pre ++ [32] ++ l))) r' x' l.
Proof.
  intros Htw [Hl _] Hp. unfold typed in *. rewrite !type_app, Hp.
  destruct (type_printable cols tw [32] Htw) with (r := r) (x := x) (m := m) as (m1 & E & _).
  { apply Forall_singleton. split; lia. }
  rewrite E.
  destruct (type_printable cols tw l Htw Hl (flow_end cols tw r x [32]).1 (flow_end cols tw r x [32]).2 m1)
    as (m2 & -> & Hr & _). by eexists _, _.
Qed.

Lemma stacked_show t total theme p tw row c l : (forall c, 0 <= tw c) ->
  texts_clean t -> row ∈ t_rows t -> c ∈ row -> l ∈ lines c ->
  on_screen total tw (render_stacked t theme p) l.
Proof.
  intros Htw [Ht Hc] Hrow Hcell Hline.
  assert (clean l) as Hcl.
  { rewrite Forall_forall in Hc. specialize (Hc _ Hrow). rewrite Forall_forall in Hc.
    specialize (Hc _ Hcell). by eapply Forall_forall in Hc. }
  apply list_elem_of_lookup in Hrow as [ri Hri], Hcell as [ci Hci], Hline as [li Hli].
  set (label_w := maximum ((fun c => str_width p (title c)) <$> t_columns t)).
  set (ttl := from_option title [] (t_columns t !! ci)).
  assert (clean ttl) as [Htp _].
  { unfold ttl. destruct (t_columns t !! ci) as [k|] eqn:E; [by eapply Forall_lookup_1 in Ht|apply clean_nil]. }
  set (line := if decide (li = 0%nat) then display (mkStyled ttl HeaderFg true theme)
                    ++ spaces (Z.max 0 (label_w - str_width p ttl)) ++ [32] ++ l
               else spaces label_w ++ [32] ++ l).
  assert (line ∈ r_lines (render_stacked t theme p)) as Hin.
  { cbn [r_lines render_stacked]. apply elem_of_concat. eexists. split.
    - eapply list_elem_of_lookup_2. rewrite list_lookup_imap, Hri. reflexivity.
    - unfold stacked_row. rewrite elem_of_app. right. apply elem_of_concat. eexists. split.
      + eapply list_elem_of_lookup_2. rewrite list_lookup_imap, Hci. reflexivity.
      + eapply list_elem_of_lookup_2. unfold stacked_cell. rewrite list_lookup_imap, Hli. reflexivity. }
  destruct (type_display total tw 0 0 ∅ (mkStyled ttl HeaderFg true theme) Htp Htw) as (r1 & x1 & m1 & E1).
  destruct (type_printable total tw (spaces (Z.max 0 (label_w - str_width p ttl))) Htw (spaces_printable _) r1 x1 m1)
    as (m2 & E2 & _).
  destruct (type_printable total tw (spaces label_w) Htw (spaces_printable _) 0 0 ∅) as (m3 & E3 & _).
  unfold line in Hin. case_decide.
  - rewrite app_assoc in Hin.
    assert (typed total tw (display (mkStyled ttl HeaderFg true theme)
      ++ spaces (Z.max 0 (label_w - str_width p ttl))) = _) as E4 by (unfold typed; rewrite type_app, E1; exact E2).
    destruct (type_after total tw l _ _ _ _ Htw Hcl E4) as (r' & x' & Hr).
    by exists (((display (mkStyled ttl HeaderFg true theme))
      ++ spaces (Z.max 0 (label_w - str_width p ttl))) ++ [32] ++ l), r', x'.
  - destruct (type_after total tw l _ _ _ _ Htw Hcl E3) as (r' & x' & Hr).
    by exists (spaces label_w ++ [32] ++ l), r', x'.
Qed.


(** ** Colour is decoration *)

(** The two strings draw the same and leave the terminal ready. *)
Definition alike (s s' : str) : Prop :=
  forall tw col, exists g col', Draws tw col s g col' /\ Draws tw col s' g col'.

Lemma alike_app s s' u u' : alike s s' -> alike u u' -> alike (s ++ u) (s' ++ u').
Proof.
  intros H H' tw col. destruct (H tw col) as (g & c & Hs & Hs'), (H' tw c) as (g' & c' & Hu & Hu').
  exists (g ++ g'), c'. split; by eapply draws_app.
Qed.

Lemma alike_printable s : Forall printable s -> alike s s.
Proof. intros H tw col. eexists _, _. split; by apply draws_printable. Qed.

Lemma alike_display t tok b th th' : Forall printable t ->
  alike (display (mkStyled t tok b th)) (display (mkStyled t tok b th')).
Proof.
  intros H tw col. exists (place tw col t), (col + extent tw t).
  split; by apply (draw_display tw col (mkStyled t tok b _)).
Qed.

Lemma alike_border mode ws i b : bounds ws !! i = Some b -> 0 <= b ->
  alike (at_border mode (bounds ws) i) (at_border mode (bounds ws) i).
Proof.
  intros Hb H0 tw col. destruct mode; [by exists [], col|]. exists [], b.
  split; by apply draws_border.
Qed.

Lemma bounds_lookup ws : forall a i, Forall (fun w => 0 <= w) ws -> 0 <= a -> (i <= length ws)%nat ->
  exists b, bounds_from a ws !! i = Some b /\ 0 <= b.
Proof.
  induction ws as [|w ws IH]; intros a [|i] Hw Ha Hi; cbn [bounds_from lookup list_lookup]; simpl in Hi;
    try lia; try (by exists a). inversion_clear Hw. apply IH; [done|lia|lia].
Qed.

Lemma alike_cell th th' p mode ws right tok strong i raw :
  Forall (fun w => 0 <= w) ws -> (i < length ws)%nat -> clean raw ->
  alike (draw_cell th p mode ws right tok strong i raw).1
        (draw_cell th' p mode ws right tok strong i raw).1
  /\ (draw_cell th p mode ws right tok strong i raw).2 = (draw_cell th' p mode ws right tok strong i raw).2.
Proof.
  intros Hw Hi Hc. destruct (lookup_lt_is_Some_2 ws i Hi) as [w E].
  assert (0 <= w) as H0 by (by eapply Forall_lookup_1 in Hw).
  destruct (bounds_lookup ws 0 (S i) Hw) as (b & Hb & Hb0); [done|lia|].
  unfold draw_cell. rewrite E. cbn [default]. unfold id.
  destruct (truncate p raw w) as [text tw'] eqn:Et. cbn [fst snd].
  apply truncate_clean in Et as (Hp & _); [|done..].
  split; [|done]. pose proof (alike_display text tok strong th th' Hp) as Hd.
  pose proof (alike_printable _ (spaces_printable (Z.max 0 (w - tw')))) as Hs.
  assert (forall c, printable c -> alike [c] [c]) as H1 by (intros; apply alike_printable; by constructor).
  repeat apply alike_app; try (by eapply alike_border); try (apply H1; split; unfold BAR; lia).
  destruct right; by apply alike_app.
Qed.

Lemma Forall2_imap_cells {A} (f f' : nat -> A -> str * bool) (n : nat) (l : list A) :
  length l = n ->
  (forall i c, (i < n)%nat -> l !! i = Some c -> alike (f i c).1 (f' i c).1 /\ (f i c).2 = (f' i c).2) ->
  alike (concat (fst <$> imap f l)) (concat (fst <$> imap f' l))
  /\ existsb snd (imap f l) = existsb snd (imap f' l).
Proof.
  intros <-. revert f f'. induction l as [|c l IH]; intros f f' H; [split; [by apply alike_printable|done]|].
  cbn [imap fmap list_fmap concat existsb].
  destruct (H 0%nat c) as [H0 E0]; [simpl; lia|done|].
  destruct (IH (f ∘ S) (f' ∘ S)) as [H1 E1]; [|split; [by apply alike_app|by rewrite E0, E1]].
  intros i d Hi Hd. apply (H (S i) d); [simpl; lia|done].
Qed.

Lemma alike_line mode ws cells cells' : Forall (fun w => 0 <= w) ws ->
  alike (concat (fst <$> cells)) (concat (fst <$> cells')) ->
  alike (draw_line mode ws cells) (draw_line mode ws cells').
Proof.
  intros Hw H. destruct (bounds_lookup ws 0 0 Hw) as (b & Hb & Hb0); [done|lia|].
  unfold draw_line. repeat apply alike_app; [by eapply alike_border| |done].
  apply alike_printable. constructor; [apply bar_printable|constructor].
Qed.

Lemma rule_printable l mid r fill ws :
  Forall printable [l; mid; r; fill] -> Forall printable (rule l mid r fill ws).
Proof.
  intros H. inversion_clear H as [|? ? Hl H']. inversion_clear H' as [|? ? Hm H''].
  inversion_clear H'' as [|? ? Hr H3]. inversion_clear H3 as [|? ? Hf _].
  constructor; [done|]. apply Forall_concat. apply Forall_forall. intros x Hx.
  apply elem_of_lookup_imap in Hx as (i & w & -> & _). apply Forall_app. split; [by apply Forall_replicate|].
  constructor; [by case_decide|constructor].
Qed.

Lemma alike_rule l mid r fill ws :
  Forall printable [l; mid; r; fill] -> alike (rule l mid r fill ws) (rule l mid r fill ws).
Proof. intros H. by apply alike_printable, rule_printable. Qed.

Lemma alike_body mode ws blocks blocks' : 
  Forall2 (Forall2 (fun c c' => alike (draw_line mode ws c) (draw_line mode ws c')
                                /\ existsb snd c = existsb snd c')) blocks blocks' ->
  Forall2 alike (body_lines mode ws blocks) (body_lines mode ws blocks')
  /\ existsb (existsb (existsb snd)) blocks = existsb (existsb (existsb snd)) blocks'.
Proof.
  induction 1 as [|b b' bs bs' Hb Hbs [IH E]]; [by split; [constructor|]|].
  cbn [body_lines existsb]. assert (existsb (existsb snd) b = existsb (existsb snd) b') as ->.
  { clear -Hb. induction Hb as [|c c' b b' [_ Hc] _ IH]; [done|]. cbn [existsb]. by rewrite Hc, IH. }
  rewrite E. split; [|done]. apply Forall2_app; [|apply Forall2_app; [|done]].
  - clear -Hb. induction Hb as [|c c' b b' [Hc _] _ IH]; [constructor|]. by constructor.
  - destruct Hbs; [constructor|]. constructor; [|constructor]. apply alike_rule.
    repeat constructor; lia.
Qed.

Lemma row_alike t th th' p mode ws row li :
  length ws = length row -> Forall (fun w => 0 <= w) ws -> Forall (fun c => Forall clean (lines c)) row ->
  alike (draw_line mode ws (row_cells t th p mode ws row li))
        (draw_line mode ws (row_cells t th' p mode ws row li))
  /\ existsb snd (row_cells t th p mode ws row li) = existsb snd (row_cells t th' p mode ws row li).
Proof.
  intros Hl Hw Hc.
  destruct (Forall2_imap_cells
    (fun i c => draw_cell th p mode ws (bool_decide (align <$> (t_columns t !! i) = Some Right))
       (if is_annotation c then Muted else Theme.Text) false i (default [] (lines c !! li)))
    (fun i c => draw_cell th' p mode ws (bool_decide (align <$> (t_columns t !! i) = Some Right))
       (if is_annotation c then Muted else Theme.Text) false i (default [] (lines c !! li)))
    (length row) row eq_refl) as [Ha He]; [|by split; [apply alike_line|]].
  intros i c Hi Hci. apply alike_cell; [done|lia|].
  eapply Forall_lookup_1 in Hc; [|exact Hci].
  destruct (lines c !! li) as [l|] eqn:E; [by eapply Forall_lookup_1 in Hc|apply clean_nil].
Qed.

Lemma columns_alike t th th' p mode ws : wf t -> texts_clean t ->
  length ws = length (t_columns t) -> Forall (fun w => 0 <= w) ws ->
  let r := render_columns t th p mode ws in
  let r' := render_columns t th' p mode ws in
  Forall2 alike (r_lines r) (r_lines r') /\ r_truncated r = r_truncated r'.
Proof.
  intros [Hr _] [Ht Hc] Hl Hw. cbn [r_lines r_truncated render_columns].
  destruct (Forall2_imap_cells
    (fun i c => draw_cell th p mode ws false HeaderFg true i (title c))
    (fun i c => draw_cell th' p mode ws false HeaderFg true i (title c))
    (length (t_columns t)) (t_columns t) eq_refl) as [Ha He].
  { intros i c Hi Hci. apply alike_cell; [done|lia|]. by eapply Forall_lookup_1 in Ht. }
  destruct (alike_body mode ws (row_block t th p mode ws <$> t_rows t)
              (row_block t th' p mode ws <$> t_rows t)) as [Hb Hx].
  { apply Forall2_fmap, Forall_Forall2_diag, Forall_forall. intros row Hrow.
    apply Forall2_fmap, Forall_Forall2_diag, Forall_forall. intros li _.
    rewrite Forall_forall in Hr, Hc. specialize (Hr _ Hrow). specialize (Hc _ Hrow).
    apply row_alike; [lia|done|done]. }
  rewrite Hx. unfold head_cells. rewrite He. split; [|done].
  repeat apply Forall2_cons_2; [apply alike_rule; repeat constructor; lia|by apply alike_line
    |apply alike_rule; repeat constructor; lia|].
  apply Forall2_app; [done|]. constructor; [apply alike_rule; repeat constructor; lia|constructor].
Qed.

Lemma Forall2_concat_imap {A} (f f' : nat -> A -> list str) (l : list A) :
  (forall i x, l !! i = Some x -> Forall2 alike (f i x) (f' i x)) ->
  Forall2 alike (concat (imap f l)) (concat (imap f' l)).
Proof.
  revert f f'. induction l as [|x l IH]; intros f f' H; [constructor|]. cbn [imap concat].
  apply Forall2_app; [by apply H|]. apply IH. intros i y Hy. by apply (H (S i)).
Qed.

Lemma stacked_alike t th th' p : texts_clean t ->
  Forall2 alike (r_lines (render_stacked t th p)) (r_lines (render_stacked t th' p)).
Proof.
  intros [Ht Hc]. apply Forall2_concat_imap. intros ri row Hrow.
  eapply Forall_lookup_1 in Hc; [|exact Hrow]. unfold stacked_row. apply Forall2_app.
  { case_decide; [|constructor]. constructor; [by apply alike_printable|constructor]. }
  apply Forall2_concat_imap. intros ci c Hci. eapply Forall_lookup_1 in Hc; [|exact Hci].
  unfold stacked_cell. apply Forall2_same_length_lookup. rewrite !length_imap. split; [done|].
  intros li x y. rewrite !list_lookup_imap. destruct (lines c !! li) as [l|] eqn:E; [|done].
  eapply Forall_lookup_1 in Hc as [Hl _]; [|exact E]. cbn [fmap option_fmap option_map].
  intros [= <-] [= <-]. apply alike_printable in Hl.
  assert (forall n, alike (spaces n) (spaces n)) as Hs by (intros; apply alike_printable, spaces_printable).
  assert (alike (32 :: l) (32 :: l)) by
    (apply (alike_app [32] [32]); [apply alike_printable; repeat constructor; lia|done]).
  case_decide; repeat apply alike_app; try done; [].
  apply alike_display. destruct (t_columns t !! ci) as [k|] eqn:Ek; [|constructor].
  by eapply Forall_lookup_1 in Ht as [? _].
Qed.

(** The theme is decoration: under any two themes a table has the same
    layout, widths, truncation mark and state, and line for line the terminal
    draws the same characters in the same columns. *)
Theorem colour_is_decoration t total th th' p mode : wf t -> texts_clean t ->
  let '(r, t1) := render_with t total th p mode in
  let '(r', t2) := render_with t total th' p mode in
  Forall2 alike (r_lines r) (r_lines r') /\ r_layout r = r_layout r'
  /\ r_widths r = r_widths r' /\ r_truncated r = r_truncated r' /\ t1 = t2.
Proof.
  intros Hwf Hc. destruct (natural_widths_spec t p Hwf) as [Hl Hn].
  unfold render_with. fold (natural_widths t p).
  destruct (fit t (natural_widths t p) total) as [ws|] eqn:E.
  - apply fit_fits in E as (Hlw & Hf & _); [|done].
    assert (Forall (fun w => 0 <= w) ws) as Hw.
    { clear -Hf Hn. induction Hf as [|a b na ws Hab _ IH]; [done|].
      inversion_clear Hn. constructor; [unfold MIN_CONTENT in *; lia|by apply IH]. }
    destruct (columns_alike t th th' p mode ws Hwf Hc) as [H1 H2]; [lia|done|]. by split_and!.
  - split_and!; try done. by apply stacked_alike.
Qed.

(** ** A plain table *)

Lemma plain_cell_printable p ws right tok strong i raw w : ws !! i = Some w -> 0 <= w -> clean raw ->
  Forall printable (draw_cell plain p Padded ws right tok strong i raw).1.
Proof.
  intros E H0 Hc. unfold draw_cell. rewrite E. cbn [default]. unfold id.
  destruct (truncate p raw w) as [text tw'] eqn:Et. cbn [fst at_border].
  apply truncate_clean in Et as (Hp & _); [|done..].
  pose proof (spaces_printable (Z.max 0 (w - tw'))) as Hs. rewrite plain_verbatim.
  repeat (apply Forall_app; split); try (repeat constructor; unfold BAR; lia).
  destruct right; by apply Forall_app.
Qed.

Lemma imap_printable {A} (f : nat -> A -> str * bool) (l : list A) mode ws :
  (forall i c, l !! i = Some c -> Forall printable (f i c).1) -> mode = Padded ->
  Forall printable (draw_line mode ws (imap f l)).
Proof.
  intros H ->. unfold draw_line. cbn [at_border app]. constructor; [apply bar_printable|].
  apply Forall_concat. apply Forall_forall. intros x Hx.
  apply list_elem_of_fmap in Hx as (y & -> & Hy). apply elem_of_lookup_imap in Hy as (i & c & -> & Hi).
  by apply H.
Qed.

(** Plain and padded, a table in columns is printable characters only: not an
    escape byte, not a carriage return. *)
Theorem plain_table_printable t total p r t' : wf t -> texts_clean t ->
  render_with t total plain p Padded = (r, t') -> r_layout r = Columns ->
  Forall (Forall printable) (r_lines r).
Proof.
  intros Hwf [Ht Hc] Hr Hlay.
  destruct (render_cases t total plain p Padded Hwf) as [[_ E]|(_ & ws & u & E & Hl & Hw & _)];
    rewrite E in Hr; injection Hr as <- <-; [done|]. clear E Hlay.
  assert (forall l mid r fill, Forall printable [l; mid; r; fill] -> Forall printable (rule l mid r fill ws)) as Hrule
    by (intros; by apply rule_printable).
  assert (forall i, (i < length ws)%nat -> exists w, ws !! i = Some w /\ 0 <= w) as Hws.
  { intros i Hi. destruct (lookup_lt_is_Some_2 ws i Hi) as [w E]. exists w. split; [done|].
    by eapply Forall_lookup_1 in Hw. }
  apply Forall_forall. intros l. cbn [r_lines render_columns].
  rewrite !elem_of_app, !elem_of_cons, !elem_of_nil.
  intros [[->|[->|[->|[]]]]|[H|[->|[]]]]; try (apply Hrule; repeat constructor; lia).
  - apply imap_printable; [|done]. intros i c Hi. destruct (Hws i) as (w & Ew & H0).
    { apply lookup_lt_Some in Hi. lia. }
    eapply plain_cell_printable; [exact Ew|done|]. by eapply Forall_lookup_1 in Ht.
  - apply body_lines_in in H as [->|(b & cs & Hb & Hin & ->)];
      [apply Hrule; repeat constructor; lia|].
    apply list_elem_of_fmap in Hb as (row & -> & Hrow).
    apply list_elem_of_fmap in Hin as (li & -> & _).
    destruct Hwf as [Hrl _]. rewrite Forall_forall in Hrl, Hc. specialize (Hrl _ Hrow). specialize (Hc _ Hrow).
    apply imap_printable; [|done]. intros i c Hi. destruct (Hws i) as (w & Ew & H0).
    { apply lookup_lt_Some in Hi. lia. }
    eapply plain_cell_printable; [exact Ew|done|]. eapply Forall_lookup_1 in Hc; [|exact Hi].
    destruct (lines c !! li) as [x|] eqn:El; [by eapply Forall_lookup_1 in Hc|apply clean_nil].
Qed.

End Widths.

(** ** Witnesses *)

(** A table of two columns and two rows, one cell of two lines. *)
Definition sample_table : Table :=
  push (push field_value [cell_text (chars "name"); Lines (from_str_escaped <$> [chars "{"; chars "}"])])
    [cell_text (chars "age"); Nil].

Definition sample_tw (c : Z) : Z := char_width narrow c.

Lemma sample_wf : wf sample_table.
Proof. by do 2 apply push_wf; apply new_table_wf. Defined.

Lemma clean_bool s : forallb (fun c => bool_decide (32 <= c /\ c <> 127 /\ c <> zero_joiner)) s = true -> clean s.
Proof.
  intros H. rewrite forallb_forall in H. split.
  - apply Forall_forall. intros c Hc%list_elem_of_In. apply H, bool_decide_eq_true in Hc as (? & ? & _). by split.
  - intros Hc%list_elem_of_In. by apply H, bool_decide_eq_true in Hc as (_ & _ & ?).
Qed.

Lemma sample_clean : texts_clean sample_table.
Proof.
  split; repeat (apply Forall_cons_2 || apply Forall_nil_2);
    apply clean_bool; vm_compute; reflexivity.
Qed.

Lemma sample_agrees mode : agrees narrow mode sample_tw.
Proof.
  split; [by repeat constructor|]. split; [intros c; apply char_width_nonneg|]. intros _. by split.
Qed.

Lemma sample_no_wider : no_wider narrow sample_tw.
Proof. by split. Qed.



Lemma colour_is_decoration_witness :
  r_widths (render_with sample_table 40 default_theme narrow Padded).1
  = r_widths (render_with sample_table 40 plain narrow Padded).1.
Proof.
  pose proof (colour_is_decoration sample_table 40 default_theme plain narrow Padded sample_wf sample_clean) as H.
  destruct (render_with sample_table 40 default_theme narrow Padded) as [r t1].
  destruct (render_with sample_table 40 plain narrow Padded) as [r' t2]. apply H.
Defined.

(** ** What the module's comments promise and the code does not do *)

(** A real [(nil)] is said to be rendered with quotes; it is drawn like a nil. *)
Lemma nil_text_looks_nil : lines (cell_text (chars "(nil)")) = lines Nil.
Proof. by vm_compute. Qed.

(** The stacked layout is said to show every column; a cell of no lines loses
    its label as well. *)
Lemma stacked_drops_empty_cell :
  r_lines (render_stacked (push field_value [cell_text (chars "k"); Lines []]) plain narrow)
  = [chars "FIELD k"].
Proof. by vm_compute. Qed.

(** A line feed in a value is not escaped, so one cell can draw lines of its
    own outside the frame. *)
Lemma cell_breaks_frame :
  existsb (fun l => bool_decide (10 ∈ l))
    (r_lines (render (push field_value [cell_text (chars "a"); cell_text [120; 10; 121]]) 40 plain narrow).1)
  = true.
Proof. by vm_compute. Qed.

(** Where box characters are ambiguous and the terminal, like the wide policy,
    draws them two columns wide, the rules are wider than the terminal: the
    resets of [CursorReset] are in the lines of cells only. *)
Lemma wide_rule_overflows :
  let tw c := if decide (c = 9472) then 2 else 1 in
  let ws := r_widths (render_with sample_table 20 plain wide CursorReset).1 in
  frame_width ws <= 20 /\ 20 < extent tw (top_rule ws).
Proof. by vm_compute. Qed.
