(* ===== verification/Generic.v ===== *)
(** * Generic reply trees ([crates/pr-render/src/generic.rs])

    What is shown of a reply no other renderer knows: one line per scalar,
    heading and position, indented by depth. *)

From S2P Require Import Prelude Text TextFacts SafeText Lines Value Theme.

Definition MAX_RENDER_DEPTH : nat := 32.

Definition indent (depth : nat) : str := concat (replicate depth [32; 32]).

Definition styled (t : str) (tok : Token) (th : Theme) : str := display (mkStyled t tok false th).

(** A type tag, a space and a value. *)
Definition tagged (tag : str) (t : str) (tok : Token) (th : Theme) : str :=
  styled tag Muted th ++ [32] ++ styled t tok th.

Definition shown_bytes (b : bytes) : str := as_display (from_bytes b).

Definition decimal (z : Z) : str := bz <$> print_signed z.

Definition scalar (v : Value) (th : Theme) : option str :=
  match v with
  | VSimple b => Some (tagged (chars "(status)") (shown_bytes b) Theme.Text th)
  | VError b | VBulkError b => Some (tagged (chars "(error)") (shown_bytes b) Theme.Error th)
  | VInteger i => Some (tagged (chars "(integer)") (decimal i) JsonNumber th)
  | VDouble lex => Some (tagged (chars "(double)") (shown_bytes lex) JsonNumber th)
  | VBigNumber d => Some (tagged (chars "(big number)") (shown_bytes d) JsonNumber th)
  | VBoolean b =>
      Some (tagged (chars "(boolean)") (if b then chars "true" else chars "false") JsonBool th)
  | VNull form =>
      Some (styled (match form with
                    | NBulk => chars "(nil)"
                    | NArray => chars "(nil array)"
                    | NResp3 => chars "(null)"
                    end) JsonNull th)
  | VBulk b =>
      let t := from_bytes b in
      if was_escaped t then
        Some (tagged (chars "(" ++ decimal (zlen b) ++ chars " bytes)") (as_display t) JsonString th)
      else Some (styled (as_display t) JsonString th)
  | VVerbatim (f0, f1, f2) data =>
      let tag := from_utf8_lossy [f0; f1; f2] in
      Some (tagged (chars "(verbatim " ++ tag ++ chars ")") (shown_bytes data) JsonString th)
  | _ => None
  end.

Definition key_line (k : Value) (th : Theme) : str :=
  default (styled (chars "(aggregate key)") Muted th) (scalar k th).

(** The heading of an aggregate, e.g. [(map, 2 entries)]. *)
Definition heading (depth : nat) (tag : string) (n : Z) (unit : string) (th : Theme) : str :=
  indent depth ++ styled (chars "(" ++ chars tag ++ chars ", " ++ decimal n ++ chars unit) Muted th.

Definition position (depth : nat) (i : nat) (th : Theme) : str :=
  indent (depth + 1) ++ styled (decimal (Z.of_nat i + 1) ++ chars ":") Muted th.

Definition too_deep (depth : nat) (th : Theme) : str :=
  indent depth ++ styled (chars "(nesting beyond render depth; use --output resp)") Warning th.

Fixpoint walk (v : Value) (depth : nat) (th : Theme) : list str :=
  if decide (MAX_RENDER_DEPTH < depth)%nat then [too_deep depth th]
  else
    match scalar v th with
    | Some line => [indent depth ++ line]
    | None =>
        let fix items (i : nat) (vs : list Value) : list str :=
          match vs with
          | [] => []
          | x :: r => position depth i th :: walk x (depth + 2) th ++ items (S i) r
          end in
        let fix entries (kv : list (Value * Value)) : list str :=
          match kv with
          | [] => []
          | (k, x) :: r =>
              (indent (depth + 1) ++ key_line k th) :: walk x (depth + 2) th ++ entries r
          end in
        match v with
        | VArray vs => heading depth "array" (zlen vs) " items)" th :: items 0%nat vs
        | VSet vs => heading depth "set" (zlen vs) " items)" th :: items 0%nat vs
        | VPush vs => heading depth "push" (zlen vs) " items)" th :: items 0%nat vs
        | VMap kv => heading depth "map" (zlen kv) " entries)" th :: entries kv
        | VAttribute attrs value =>
            heading depth "attribute" (zlen attrs) " entries)" th :: entries attrs
            ++ walk value depth th
        | _ => [indent depth ++ styled (chars "(unrenderable)") Warning th]
        end
    end.

Definition render (v : Value) (th : Theme) : list str := walk v 0 th.

(** ** The lines of an aggregate *)

Fixpoint item_lines (depth : nat) (th : Theme) (i : nat) (vs : list Value) : list str :=
  match vs with
  | [] => []
  | x :: r => position depth i th :: walk x (depth + 2) th ++ item_lines depth th (S i) r
  end.

Fixpoint entry_lines (depth : nat) (th : Theme) (kv : list (Value * Value)) : list str :=
  match kv with
  | [] => []
  | (k, x) :: r => (indent (depth + 1) ++ key_line k th) :: walk x (depth + 2) th ++ entry_lines depth th r
  end.

Definition aggregate_lines (v : Value) (depth : nat) (th : Theme) : list str :=
  match v with
  | VArray vs => heading depth "array" (zlen vs) " items)" th :: item_lines depth th 0 vs
  | VSet vs => heading depth "set" (zlen vs) " items)" th :: item_lines depth th 0 vs
  | VPush vs => heading depth "push" (zlen vs) " items)" th :: item_lines depth th 0 vs
  | VMap kv => heading depth "map" (zlen kv) " entries)" th :: entry_lines depth th kv
  | VAttribute attrs value =>
      heading depth "attribute" (zlen attrs) " entries)" th :: entry_lines depth th attrs
      ++ walk value depth th
  | _ => []
  end.

Lemma walk_eq v depth th :
  walk v depth th =
    if decide (MAX_RENDER_DEPTH < depth)%nat then [too_deep depth th]
    else match scalar v th with
         | Some line => [indent depth ++ line]
         | None => aggregate_lines v depth th
         end.
Proof.
  assert (forall kv, (fix entries kv := match kv with
      | [] => []
      | (k, x) :: r => (indent (depth + 1) ++ key_line k th) :: walk x (depth + 2) th ++ entries r
      end) kv = entry_lines depth th kv) as He.
  { induction kv as [|[k x] r IH]; cbn [entry_lines]; [done|]. by rewrite <- IH. }
  assert (forall vs i, (fix items i vs := match vs with
      | [] => []
      | x :: r => position depth i th :: walk x (depth + 2) th ++ items (S i) r
      end) i vs = item_lines depth th i vs) as Hi.
  { induction vs as [|x r IH]; intros i; cbn [item_lines]; [done|]. by rewrite <- IH. }
  destruct v as [| | | | | | | | | |[[? ?] ?] ?| | | |]; cbn [walk scalar aggregate_lines];
    try done; case_decide; try done; cbv zeta; rewrite ?He, ?Hi; try done.
  by destruct (was_escaped _).
Qed.

Lemma scalar_none v th : scalar v th = None <->
  match v with
  | VArray _ | VSet _ | VPush _ | VMap _ | VAttribute _ _ => True
  | _ => False
  end.
Proof.
  destruct v as [| | | | | | | | | |[[? ?] ?] ?| | | |]; cbn [scalar]; try done.
  by destruct (was_escaped _).
Qed.

(** ** Every line is indented within the limit *)

Definition within (n : nat) (l : str) : Prop := exists d x, l = indent d ++ x /\ (d <= n)%nat.

Lemma walk_within v : forall depth th, (depth <= MAX_RENDER_DEPTH + 2)%nat ->
  Forall (within (MAX_RENDER_DEPTH + 2)) (walk v depth th).
Proof.
  assert (forall vs, Forall (fun v => forall depth th, (depth <= MAX_RENDER_DEPTH + 2)%nat ->
      Forall (within (MAX_RENDER_DEPTH + 2)) (walk v depth th)) vs ->
    forall depth th i, (depth <= MAX_RENDER_DEPTH)%nat ->
      Forall (within (MAX_RENDER_DEPTH + 2)) (item_lines depth th i vs)) as Hitems.
  { induction 1 as [|x vs Hv _ IH]; intros depth th i Hd; cbn [item_lines]; constructor.
    - eexists _, _. split; [reflexivity|lia].
    - apply Forall_app. split; [apply Hv; lia|by apply IH]. }
  assert (forall kv, Forall (fun kv : Value * Value =>
      (forall depth th, (depth <= MAX_RENDER_DEPTH + 2)%nat ->
        Forall (within (MAX_RENDER_DEPTH + 2)) (walk kv.1 depth th)) /\
      (forall depth th, (depth <= MAX_RENDER_DEPTH + 2)%nat ->
        Forall (within (MAX_RENDER_DEPTH + 2)) (walk kv.2 depth th))) kv ->
    forall depth th, (depth <= MAX_RENDER_DEPTH)%nat ->
      Forall (within (MAX_RENDER_DEPTH + 2)) (entry_lines depth th kv)) as Hentries.
  { induction 1 as [|[k x] kv [_ Hv] _ IH]; intros depth th Hd; cbn [entry_lines]; constructor.
    - eexists _, _. split; [reflexivity|lia].
    - apply Forall_app. split; [apply Hv; lia|by apply IH]. }
  induction v using value_rect'; intros d th Hd; rewrite walk_eq;
    (case_decide; [constructor; [eexists _, _; split; [reflexivity|lia]|constructor]|]);
    (destruct (scalar _ th) as [line|] eqn:E;
     [constructor; [eexists _, _; split; [reflexivity|lia]|constructor]|]);
    apply scalar_none in E; try done; cbn [aggregate_lines];
    (constructor; [eexists _, _; split; [reflexivity|lia]|]); try (apply Hitems; [done|lia]);
    try (apply Hentries; [done|lia]).
  apply Forall_app. split; [apply Hentries; [done|lia]|by apply IHv].
Qed.

(** ** No scalar is lost *)

Definition is_scalar (v : Value) : bool :=
  match v with
  | VArray _ | VSet _ | VPush _ | VMap _ | VAttribute _ _ => false
  | _ => true
  end.

(** How many levels of indentation the tree of a value needs. *)
Fixpoint nest (v : Value) : nat :=
  match v with
  | VArray vs | VSet vs | VPush vs => max_list (map (fun x => 2 + nest x)%nat vs)
  | VMap kv => max_list (map (fun '(_, x) => 2 + nest x)%nat kv)
  | VAttribute attrs w => (max_list (map (fun '(_, x) => 2 + nest x)%nat attrs) `max` nest w)%nat
  | _ => 0%nat
  end.

(** The scalars of a reply in wire order, duplicates and scalar keys
    included, each with its depth. *)
Fixpoint scalars (v : Value) (depth : nat) : list (nat * Value) :=
  let entries kv := kv ≫= (fun '(k, x) =>
    (if is_scalar k then [(depth + 1, k)%nat] else []) ++ scalars x (depth + 2)) in
  match v with
  | VArray vs | VSet vs | VPush vs => vs ≫= (fun x => scalars x (depth + 2))
  | VMap kv => entries kv
  | VAttribute attrs w => entries attrs ++ scalars w depth
  | _ => [(depth, v)]
  end.

Definition scalar_line (th : Theme) (x : nat * Value) : str :=
  indent x.1 ++ default [] (scalar x.2 th).

Lemma is_scalar_some v th : is_scalar v = true -> exists l, scalar v th = Some l.
Proof.
  destruct v as [| | | | | | | | | |[[? ?] ?] ?| | | |]; cbn [is_scalar scalar]; try done; eauto.
  intros _. destruct (was_escaped _); eauto.
Qed.

Definition complete (v : Value) : Prop := forall depth th, (depth + nest v <= MAX_RENDER_DEPTH)%nat ->
  (scalar_line th <$> scalars v depth) `sublist_of` walk v depth th.

Lemma items_complete vs : Forall complete vs -> forall depth th i,
  (depth + max_list (map (fun x => 2 + nest x)%nat vs) <= MAX_RENDER_DEPTH)%nat ->
  (scalar_line th <$> (vs ≫= fun x => scalars x (depth + 2))) `sublist_of` item_lines depth th i vs.
Proof.
  induction 1 as [|x vs Hx _ IH]; intros depth th i Hd; [constructor|].
  cbn [map max_list foldr] in Hd. fold (max_list (map (fun x => 2 + nest x)%nat vs)) in Hd.
  cbn [item_lines mbind list_bind]. apply sublist_cons. rewrite fmap_app. apply sublist_app.
  - apply Hx. lia.
  - apply IH. lia.
Qed.

Lemma entries_complete kv : Forall (fun kv : Value * Value => complete kv.1 /\ complete kv.2) kv ->
  forall depth th,
  (depth + max_list (map (fun '(_, x) => 2 + nest x)%nat kv) <= MAX_RENDER_DEPTH)%nat ->
  (scalar_line th <$> (kv ≫= fun '(k, x) =>
    (if is_scalar k then [(depth + 1, k)%nat] else []) ++ scalars x (depth + 2)))
  `sublist_of` entry_lines depth th kv.
Proof.
  induction 1 as [|[k x] kv [_ Hx] _ IH]; intros depth th Hd; [constructor|].
  cbn [map max_list foldr] in Hd. fold (max_list (map (fun '((_, x) : Value * Value) => 2 + nest x)%nat kv)) in Hd.
  cbn [entry_lines mbind list_bind]. rewrite !fmap_app. rewrite <- app_assoc.
  assert ((scalar_line th <$> scalars x (depth + 2)) `sublist_of` walk x (depth + 2) th) as H1
    by (apply Hx; simpl; lia).
  specialize (IH depth th ltac:(lia)).
  destruct (is_scalar k) eqn:E.
  - destruct (is_scalar_some k th E) as [l Hl]. unfold key_line. rewrite Hl.
    cbn [fmap list_fmap app]. unfold scalar_line at 1. cbn [fst snd]. rewrite Hl.
    apply sublist_skip. by apply sublist_app.
  - cbn [fmap list_fmap app]. apply sublist_cons. by apply sublist_app.
Qed.

(** Where the nesting fits the render depth, the tree holds the line of
    every scalar of the reply, in wire order and with its duplicates, and no
    line is indented further than the limit allows. *)
Theorem render_complete v th : (nest v <= MAX_RENDER_DEPTH)%nat ->
  (scalar_line th <$> scalars v 0) `sublist_of` render v th
  /\ Forall (within (MAX_RENDER_DEPTH + 2)) (render v th).
Proof.
  intros Hn. split; [|apply walk_within; lia]. unfold render.
  assert (complete v) as H; [|by apply H]. clear Hn.
  induction v using value_rect'; intros d th' Hd; rewrite walk_eq, decide_False by lia;
    try (cbn [scalars scalar]; reflexivity);
    cbn [scalars scalar aggregate_lines nest] in *; try (apply sublist_cons, items_complete; done);
    try (apply sublist_cons, entries_complete; done).
  - unfold scalar_line. cbn [fmap list_fmap fst snd scalar]. cbv zeta.
    destruct (was_escaped (from_bytes b)); reflexivity.
  - destruct f as [[f0 f1] f2]. reflexivity.
  - apply sublist_cons. rewrite fmap_app. apply sublist_app; [apply entries_complete; [done|lia]|].
    apply IHv. lia.
Qed.

Lemma render_complete_witness :
  (scalar_line plain <$> scalars (VMap [(VBulk (bs "a"), VInteger 1); (VBulk (bs "a"), VNull NBulk)]) 0)
    `sublist_of` render (VMap [(VBulk (bs "a"), VInteger 1); (VBulk (bs "a"), VNull NBulk)]) plain
  /\ Forall (within (MAX_RENDER_DEPTH + 2))
       (render (VMap [(VBulk (bs "a"), VInteger 1); (VBulk (bs "a"), VNull NBulk)]) plain).
Proof. apply render_complete. vm_compute. lia. Defined.

(** ** Nothing that drives the terminal *)

Definition safe (l : str) : Prop := Forall (fun c => is_dangerous_char c = false) l.

(** Every format tag of the reply, which is shown as it arrived, is safe. *)
Fixpoint tags_safe (v : Value) : Prop :=
  let all := fix all (kv : list (Value * Value)) : Prop :=
    match kv with
    | [] => True
    | (k, x) :: r => tags_safe k /\ tags_safe x /\ all r
    end in
  match v with
  | VVerbatim (f0, f1, f2) _ => safe (from_utf8_lossy [f0; f1; f2])
  | VArray vs | VSet vs | VPush vs =>
      (fix all (vs : list Value) : Prop := match vs with [] => True | x :: r => tags_safe x /\ all r end) vs
  | VMap kv => all kv
  | VAttribute attrs w => all attrs /\ tags_safe w
  | _ => True
  end.

Lemma shown_bytes_safe b : safe (shown_bytes b).
Proof.
  unfold shown_bytes, from_bytes, as_display, safe. pose proof (from_bytes_loop_safe (S (length b)) b) as H.
  by destruct (from_bytes_loop _ b).
Qed.

Lemma safe_bool l : forallb (fun c => negb (is_dangerous_char c)) l = true -> safe l.
Proof.
  intros H. rewrite forallb_forall in H. apply Forall_forall. intros c Hc%list_elem_of_In.
  by apply negb_true_iff, H.
Qed.

Lemma graphic_safe b : graphic b -> is_dangerous_char (bz b) = false.
Proof.
  intros H. unfold graphic in H. unfold is_dangerous_char, C1_START, C1_END.
  rewrite !decide_False by lia. apply bool_decide_eq_false. lia.
Qed.

Lemma decimal_safe z : safe (decimal z).
Proof.
  unfold decimal, safe. apply Forall_fmap. eapply Forall_impl; [apply print_signed_graphic|].
  apply graphic_safe.
Qed.

Lemma indent_safe d : safe (indent d).
Proof. unfold indent. apply Forall_concat, Forall_replicate. by apply safe_bool. Qed.

Lemma styled_plain t tok : styled t tok plain = t.
Proof. unfold styled, display, params. cbn [bold attributes theme plain]. done. Qed.

Lemma tagged_safe tag t tok : safe tag -> safe t -> safe (tagged tag t tok plain).
Proof.
  intros H1 H2. unfold tagged. rewrite !styled_plain. unfold safe in *. rewrite !Forall_app.
  split_and!; [done|by apply safe_bool|done].
Qed.

Lemma enclosed_safe a t b :
  forallb (fun c => negb (is_dangerous_char c)) (chars a) = true ->
  forallb (fun c => negb (is_dangerous_char c)) (chars b) = true -> safe t -> safe (chars a ++ t ++ chars b).
Proof. intros H1%safe_bool H2%safe_bool Ht. by repeat (apply Forall_app; split). Qed.

Lemma scalar_safe v l : tags_safe v -> scalar v plain = Some l -> safe l.
Proof.
  destruct v as [| | | | | | |lex| | |[[f0 f1] f2] data| | | |]; cbn [scalar tags_safe]; try done; intros Ht;
    try (intros [= <-]; apply tagged_safe;
         [by apply safe_bool|(apply shown_bytes_safe || apply decimal_safe || by case_match; apply safe_bool)]).
  - destruct (was_escaped _); intros [= <-].
    + apply tagged_safe; [|apply shown_bytes_safe]. apply (enclosed_safe "(" (decimal _) " bytes)"); [done..|].
      apply decimal_safe.
    + rewrite styled_plain. apply shown_bytes_safe.
  - intros [= <-]. rewrite styled_plain. destruct form; by apply safe_bool.
  - intros [= <-]. apply tagged_safe; [|apply shown_bytes_safe].
    by apply (enclosed_safe "(verbatim " (from_utf8_lossy [f0; f1; f2]) ")").
Qed.

Lemma key_line_safe k : tags_safe k -> safe (key_line k plain).
Proof.
  intros H. unfold key_line. destruct (scalar k plain) as [l|] eqn:E; [by eapply scalar_safe|].
  cbn [default]. rewrite styled_plain. by apply safe_bool.
Qed.

Lemma indented_safe d l : safe l -> safe (indent d ++ l).
Proof. intros H. apply Forall_app. split; [apply indent_safe|done]. Qed.

Lemma heading_safe d tag n unit :
  safe (chars tag) -> safe (chars unit) -> safe (heading d tag n unit plain).
Proof.
  intros H1 H2. unfold heading. rewrite styled_plain. apply indented_safe. unfold safe in *.
  rewrite !Forall_app. split_and!; try done; try (by apply safe_bool). apply decimal_safe.
Qed.

Lemma position_safe d i : safe (position d i plain).
Proof.
  unfold position. rewrite styled_plain. apply indented_safe, Forall_app.
  split; [apply decimal_safe|by apply safe_bool].
Qed.

Definition walk_safe (v : Value) : Prop := tags_safe v -> forall depth, Forall safe (walk v depth plain).

Lemma items_safe vs : Forall walk_safe vs ->
  (fix all (vs : list Value) : Prop := match vs with [] => True | x :: r => tags_safe x /\ all r end) vs ->
  forall depth i, Forall safe (item_lines depth plain i vs).
Proof.
  induction 1 as [|x vs Hx _ IH]; intros Ht depth i; [constructor|]. destruct Ht as [H1 H2].
  cbn [item_lines]. constructor; [apply position_safe|]. apply Forall_app. split; [by apply Hx|by apply IH].
Qed.

Lemma entries_safe kv : Forall (fun kv : Value * Value => walk_safe kv.1 /\ walk_safe kv.2) kv ->
  (fix all (kv : list (Value * Value)) : Prop :=
    match kv with
    | [] => True
    | (k, x) :: r => tags_safe k /\ tags_safe x /\ all r
    end) kv ->
  forall depth, Forall safe (entry_lines depth plain kv).
Proof.
  induction 1 as [|[k x] kv [_ Hx] _ IH]; intros Ht depth; [constructor|]. destruct Ht as (H1 & H2 & H3).
  cbn [entry_lines]. constructor; [by apply indented_safe, key_line_safe|].
  apply Forall_app. split; [by apply Hx|by apply IH].
Qed.

Lemma render_plain_safe v : tags_safe v -> Forall safe (render v plain).
Proof.
  unfold render. generalize 0%nat. intros d Ht. revert Ht d.
  change (walk_safe v). induction v using value_rect'; intros Ht d; rewrite walk_eq;
    (case_decide; [constructor; [|constructor]; unfold too_deep; rewrite styled_plain;
       apply indented_safe; by apply safe_bool|]);
    (destruct (scalar _ plain) as [line|] eqn:E;
     [constructor; [apply indented_safe; eapply scalar_safe; [|exact E]; exact Ht|constructor]|]);
    cbn [aggregate_lines]; try constructor; try (apply heading_safe; by apply safe_bool);
    try (by apply items_safe); try (by apply entries_safe).
  destruct Ht as [H1 H2]. apply Forall_app. split; [by apply entries_safe|by apply IHv].
Qed.

(** ** Colour adds nothing else *)

(** [coloured l p]: [l] is [p] with settings of colour and weight put in, each
    an escape, an opening bracket, digits and semicolons, and [m]. *)
Inductive coloured : str -> str -> Prop :=
| coloured_nil : coloured [] []
| coloured_char c l p : coloured l p -> coloured (c :: l) (c :: p)
| coloured_set ps l p : Forall (fun c => 48 <= c <= 57 \/ c = 59) ps -> coloured l p ->
    coloured ([27; 91] ++ ps ++ [109] ++ l) p.

Lemma coloured_app l p l' p' : coloured l p -> coloured l' p' -> coloured (l ++ l') (p ++ p').
Proof.
  intros H H'. induction H as [|c l p _ IH|ps l p Hp _ IH]; [done|by apply coloured_char|].
  rewrite <- !app_assoc. by apply (coloured_set ps).
Qed.

Lemma coloured_refl s : coloured s s.
Proof. induction s; by constructor. Qed.

Lemma styled_coloured t tok th : coloured (styled t tok th) (styled t tok plain).
Proof.
  rewrite styled_plain. unfold styled, display. pose proof (params_nonneg (mkStyled t tok false th)) as Hp.
  destruct (params _) as [|n ns]; [apply coloured_refl|]. cbn [text].
  apply coloured_set; [by apply params_digits|]. rewrite <- (app_nil_r t) at 2.
  apply coloured_app; [apply coloured_refl|]. apply (coloured_set [48] [] []); [|constructor].
  constructor; [left; lia|constructor].
Qed.

Lemma tagged_coloured tag t tok th : coloured (tagged tag t tok th) (tagged tag t tok plain).
Proof. unfold tagged. apply coloured_app; [apply styled_coloured|]. apply coloured_app; [apply coloured_refl|apply styled_coloured]. Qed.

Lemma scalar_coloured v th : option_Forall2 coloured (scalar v th) (scalar v plain).
Proof.
  destruct v as [| | | | | | | | | |[[? ?] ?] ?| | | |]; cbn [scalar]; try constructor;
    try apply tagged_coloured; try apply styled_coloured.
  cbv zeta. destruct (was_escaped _); constructor; [apply tagged_coloured|apply styled_coloured].
Qed.

Lemma indented_coloured d l p : coloured l p -> coloured (indent d ++ l) (indent d ++ p).
Proof. intros H. apply coloured_app; [apply coloured_refl|done]. Qed.

Lemma key_line_coloured k th : coloured (key_line k th) (key_line k plain).
Proof. unfold key_line. destruct (scalar_coloured k th); [done|]. apply styled_coloured. Qed.

Definition walk_coloured (th : Theme) (v : Value) : Prop :=
  forall depth, Forall2 coloured (walk v depth th) (walk v depth plain).

Lemma items_coloured th vs : Forall (walk_coloured th) vs ->
  forall depth i, Forall2 coloured (item_lines depth th i vs) (item_lines depth plain i vs).
Proof.
  induction 1 as [|x vs Hx _ IH]; intros depth i; cbn [item_lines]; constructor.
  - apply indented_coloured, styled_coloured.
  - apply Forall2_app; [apply Hx|apply IH].
Qed.

Lemma entries_coloured th kv : Forall (fun kv : Value * Value => walk_coloured th kv.1 /\ walk_coloured th kv.2) kv ->
  forall depth, Forall2 coloured (entry_lines depth th kv) (entry_lines depth plain kv).
Proof.
  induction 1 as [|[k x] kv [_ Hx] _ IH]; intros depth; cbn [entry_lines]; constructor.
  - apply indented_coloured, key_line_coloured.
  - apply Forall2_app; [apply Hx|apply IH].
Qed.

Lemma walks_coloured th v : walk_coloured th v.
Proof.
  induction v using value_rect'; intros d; rewrite !walk_eq;
    (case_decide; [constructor; [apply indented_coloured, styled_coloured|constructor]|]);
    match goal with |- context [scalar ?v th] => destruct (scalar_coloured v th) end;
    try (constructor; [by apply indented_coloured|constructor]);
    cbn [aggregate_lines]; try constructor; try (apply indented_coloured, styled_coloured);
    try (by apply items_coloured); try (by apply entries_coloured).
  apply Forall2_app; [by apply entries_coloured|apply IHv].
Qed.

(** A character that a terminal only prints, a tab, or the end of a line: no
    other control, and none of the marks that reorder a line. *)
Definition harmless (c : Z) : Prop :=
  (32 <= c \/ c = 9 \/ c = 10 \/ c = 13) /\ ~ 127 <= c <= 159 /\
  ~ (c = 8206 \/ c = 8207 \/ 8234 <= c <= 8238 \/ 8294 <= c <= 8297).

Lemma safe_harmless l : safe l -> Forall harmless l.
Proof.
  intros H. eapply Forall_impl; [exact H|]. intros c. cbn. unfold is_dangerous_char, harmless, C1_START, C1_END.
  do 3 (case_decide; [discriminate|]). intros Hb. apply bool_decide_eq_false in Hb. repeat split; lia.
Qed.



(** ** What the module's comments promise and the code does not do *)

(** Every string is said to go through [SafeText]; the format of a verbatim
    string does not, and the decoder takes any three bytes for it. *)
Lemma verbatim_format_escapes :
  render (VVerbatim (x1b, "c"%byte, " "%byte) (bs "x")) plain
  = [chars "(verbatim " ++ [27; 99; 32] ++ chars ") x"].
Proof. by vm_compute. Qed.

(** The text is said to carry every difference that a colour carries; a bulk
    string that spells a nil or an integer is drawn like one. *)
Lemma bulk_looks_like_nil :
  render (VBulk (bs "(nil)")) plain = render (VNull NBulk) plain
  /\ render (VBulk (bs "(integer) 5")) plain = render (VInteger 5) plain.
Proof. by vm_compute. Qed.

(** Keys are said to be rendered as values; of a key that is an aggregate
    nothing is shown. *)
Lemma aggregate_key_hidden :
  render (VMap [(VArray [VInteger 1], VInteger 2)]) plain
  = render (VMap [(VArray [VInteger 3; VInteger 4], VInteger 2)]) plain.
Proof. by vm_compute. Qed.

(** The render depth does not count the levels of attributes around a value. *)
Lemma attributes_uncounted :
  length (render (Nat.iter 100 (VAttribute []) (VInteger 1)) plain) = 101%nat.
Proof. by vm_compute. Qed.
