(* ===== verification/Plugin.v ===== *)
(** * Rendering plugins and the clipboard
    ([crates/pr-render/src/plugin.rs], [clipboard.rs])

    A call is modelled with what it does to the outside as a trace.  What the
    child process does is given: the reads of its output, and what each round
    of the polling loop observes.  The JSON library is the class of [Mcp]. *)

From S2P Require Import Prelude Text TextFacts Lines SafeText Secrets Mcp.

(** ** Grants and failures *)

Record Limits := mkLimits { timeout : Z; max_output_bytes : Z }.

(** Milliseconds. *)
Definition default_limits : Limits := mkLimits 2000 (1024 * 1024).

Inductive PluginFailure :=
| NotGranted (p : str)
| SpawnFailed (e : str)
| TimedOut (after : Z)
| Crashed (status : str)
| OutputTooLarge (limit : Z)
| Malformed (why : str).

Definition decimal (z : Z) : str := bz <$> print_unsigned z.

(** [debug] is the [Debug] form of a duration. *)
Definition failure_message (debug : Z -> str) (f : PluginFailure) (plugin : str) : str :=
  match f with
  | NotGranted p =>
      chars "the plugin " ++ p
      ++ txt " is not granted, so it was not run. Plugins are denied by default and granted one at a time (§30.4)"
  | SpawnFailed e => plugin ++ chars " could not be started: " ++ e
  | TimedOut after =>
      plugin ++ chars " was still running after " ++ debug after
      ++ chars " and was stopped; showing the built-in view instead"
  | Crashed status =>
      plugin ++ chars " stopped unexpectedly (" ++ status
      ++ chars "); showing the built-in view instead. Your results are unaffected"
  | OutputTooLarge limit =>
      plugin ++ chars " produced more than " ++ decimal limit
      ++ chars " bytes, which is more than a rendering should be; showing the built-in view instead"
  | Malformed why =>
      plugin ++ chars " produced output this version does not understand (" ++ why
      ++ chars "); showing the built-in view instead"
  end.

Record Rendering := mkRendering { lines : list SafeText }.

Record Grant := mkGrant { name : str; program : str; args : list str }.

Record PluginHost := mkHost { granted : list Grant }.

Definition new_host : PluginHost := mkHost [].
Definition grant (g : Grant) (h : PluginHost) : PluginHost := mkHost (granted h ++ [g]).
Definition is_granted (h : PluginHost) (n : str) : bool :=
  existsb (fun g => bool_decide (name g = n)) (granted h).

(** ** The child *)

Inductive ExitStatus := ExitCode (c : Z) | Signal (s : Z) | NoStatus.

Definition success (s : ExitStatus) : bool :=
  match s with
  | ExitCode c => bool_decide (c = 0)
  | _ => false
  end.

Definition describe (s : ExitStatus) : str :=
  match s with
  | Signal sig =>
      let n := if decide (sig = 2) then " (SIGINT)"
               else if decide (sig = 6) then " (SIGABRT)"
               else if decide (sig = 9) then " (SIGKILL)"
               else if decide (sig = 11) then " (SIGSEGV)"
               else if decide (sig = 15) then " (SIGTERM)" else "" in
      chars "killed by signal " ++ (bz <$> print_signed sig) ++ chars n
  | ExitCode c => chars "exit status " ++ (bz <$> print_signed c)
  | NoStatus => chars "ended without an exit status"
  end.

(** What [try_wait] answers. *)
Inductive Waited := Exited | Running | WaitError (e : str).

(** One round: whether the reader's message has arrived, what [try_wait]
    answers, and whether the time is over. *)
Record Poll := mkPoll { received : bool; waited : Waited; late : bool }.

Record Child := mkChild {
  spawn_error : option str;
  stdout_pipe : bool;
  reads : list (option bytes);
  polls : list Poll;
  drained : bool;
  status : result str ExitStatus;
}.

(** What the call does to the outside. *)
Inductive Effect :=
| Spawn (program : str) (args : list str) (env : list (str * str))
| Feed (payload : bytes)
| Kill
| Wait.

(** The loop of the reader thread: [None] is a failed read, an empty read the
    end. *)
Fixpoint read_loop (cap : Z) (buf : bytes) (rs : list (option bytes)) : result PluginFailure bytes :=
  match rs with
  | [] | None :: _ | Some [] :: _ => Ok buf
  | Some chunk :: r =>
      if decide (cap < zlen buf + zlen chunk) then Err (OutputTooLarge cap)
      else read_loop cap (buf ++ chunk) r
  end.

(** The polling loop; [None] while no round has decided. *)
Fixpoint poll_loop (limits : Limits) (message : result PluginFailure bytes) (drained : bool)
    (ps : list Poll) : option (result PluginFailure bytes) :=
  match ps with
  | [] => None
  | p :: r =>
      if received p then Some message
      else match waited p with
           | Exited => Some (if drained then message else Ok [])
           | WaitError e => Some (Err (SpawnFailed e))
           | Running =>
               if late p then Some (Err (TimedOut (timeout limits)))
               else poll_loop limits message drained r
           end
  end.

Definition outcome_of (outcome : result PluginFailure bytes) (s : result str ExitStatus) :
    result PluginFailure bytes :=
  match outcome with
  | Err e => Err e
  | Ok buf =>
      match s with
      | Ok s => if success s then Ok buf else Err (Crashed (describe s))
      | Err e => Err (Crashed e)
      end
  end.

Definition run (g : Grant) (input : str) (limits : Limits) (c : Child) :
    option (list Effect * result PluginFailure bytes) :=
  let spawn := Spawn (program g) (args g) [(chars "PENGUIN_PLUGIN_API", chars "1")] in
  match spawn_error c with
  | Some e => Some ([spawn], Err (SpawnFailed e))
  | None =>
      let fed := [spawn; Feed (encode_str input)] in
      if stdout_pipe c then
        outcome ← poll_loop limits (read_loop (max_output_bytes limits) [] (reads c)) (drained c) (polls c);
        Some (fed ++ [Kill; Wait], outcome_of outcome (status c))
      else Some (fed ++ [Kill; Wait], Err (SpawnFailed (chars "the plugin's stdout pipe was not created")))
  end.

Section Call.
Context {V : Type} `{SerdeJson V} (as_array : V -> option (list V)).

Fixpoint parse_lines (ls : list V) : result PluginFailure (list SafeText) :=
  match ls with
  | [] => Ok []
  | l :: r =>
      match as_str l with
      | None => Err (Malformed (chars "a line is not a string"))
      | Some s => let? out := parse_lines r in Ok (from_bytes (encode_str s) :: out)
      end
  end.

(** [utf8_error] is the library's description of a decoding error. *)
Definition parse (utf8_error : bytes -> str) (raw : bytes) : result PluginFailure Rendering :=
  match from_utf8 raw with
  | None => Err (Malformed (chars "output is not UTF-8: " ++ utf8_error raw))
  | Some text =>
      let text := trim text in
      if decide (text = []) then Err (Malformed (chars "no output"))
      else
        match from_str text with
        | Err e => Err (Malformed (chars "not JSON: " ++ e))
        | Ok v =>
            match (l ← get (chars "lines") v; as_array l) with
            | None => Err (Malformed (txt "no `lines` array in the output"))
            | Some ls => let? out := parse_lines ls in Ok (mkRendering out)
            end
        end
  end.

Definition call (utf8_error : bytes -> str) (h : PluginHost) (n : str) (input : str) (limits : Limits)
    (child : Grant -> Child) : option (list Effect * result PluginFailure Rendering) :=
  match List.find (fun g => bool_decide (name g = n)) (granted h) with
  | None => Some ([], Err (NotGranted n))
  | Some g =>
      '(effects, raw) ← run g input limits (child g);
      Some (effects, let? raw := raw in parse utf8_error raw)
  end.

(** ** What a plugin is given and what is taken from it *)

Lemma parse_lines_safe ls out : parse_lines ls = Ok out ->
  Forall (fun t => Forall (fun c => is_dangerous_char c = false) (as_display t)) out.
Proof.
  revert out. induction ls as [|l ls IH]; intros out; cbn [parse_lines]; [intros [= <-]; constructor|].
  destruct (as_str l) as [s|]; [|done]. destruct (parse_lines ls) as [o|]; [|done].
  cbn [rbind]. intros [= <-]. constructor; [|by apply IH].
  unfold from_bytes, as_display. pose proof (from_bytes_loop_safe (S (length (encode_str s))) (encode_str s)) as Hs.
  by destruct (from_bytes_loop _ (encode_str s)).
Qed.

Lemma read_loop_spec cap rs : forall buf out, zlen buf <= cap ->
  read_loop cap buf rs = Ok out -> zlen out <= cap /\ exists taken,
    out = buf ++ concat taken /\ exists rest, rs = (Some <$> taken) ++ rest
    /\ (rest = [] \/ head rest = Some None \/ head rest = Some (Some [])).
Proof.
  induction rs as [|[[|b chunk]|] rs IH]; intros buf out Hb; cbn [read_loop].
  1,2,4: intros [= <-]; split; [done|]; exists []; cbn [concat]; rewrite app_nil_r;
    split; [done|]; eexists; split; [reflexivity|]; auto.
  case_decide as Hc; [done|]. intros H1. apply IH in H1 as (Hl & taken & -> & rest & -> & Hr);
    [|rewrite zlen_app; lia].
  split; [done|]. exists ((b :: chunk) :: taken). cbn [concat]. rewrite <- app_assoc.
  split; [done|]. by exists rest.
Qed.

(** A message of the polling loop is the reader's, or nothing was drained. *)
Lemma poll_loop_ok limits m d ps buf : poll_loop limits m d ps = Some (Ok buf) -> m = Ok buf \/ buf = [].
Proof.
  induction ps as [|p ps IH]; cbn [poll_loop]; [done|].
  destruct (received p); [intros [= ->]; by left|]. destruct (waited p).
  - destruct d; intros [=]; subst; auto.
  - by destruct (late p).
  - done.
Qed.

Lemma find_name n gs g : List.find (fun g => bool_decide (name g = n)) gs = Some g ->
  g ∈ gs /\ name g = n.
Proof.
  intros Hf. apply List.find_some in Hf as [Hin Hn%bool_decide_eq_true]. by rewrite list_elem_of_In.
Qed.

Lemma run_effects g input limits c effects res : run g input limits c = Some (effects, res) ->
  let spawn := Spawn (program g) (args g) [(chars "PENGUIN_PLUGIN_API", chars "1")] in
  (exists e, spawn_error c = Some e /\ effects = [spawn] /\ res = Err (SpawnFailed e))
  \/ spawn_error c = None /\ effects = [spawn; Feed (encode_str input); Kill; Wait].
Proof.
  unfold run. destruct (spawn_error c) as [e|]; [intros [= <- <-]; left; by exists e|].
  destruct (stdout_pipe c); [|intros [= <- _]; by right].
  destruct (poll_loop _ _ _ _) as [o|]; [|done]. cbn [mbind option_bind]. intros [= <- _]. by right.
Qed.

(** Bytes are taken only from a child that succeeded, and they are all that
    was read before its output ended, within the budget. *)
Lemma plugin_run_ok g input limits c effects buf : 0 <= max_output_bytes limits ->
  run g input limits c = Some (effects, Ok buf) ->
  (exists s, status c = Ok s /\ success s = true) /\ zlen buf <= max_output_bytes limits
  /\ (buf <> [] -> read_loop (max_output_bytes limits) [] (reads c) = Ok buf).
Proof.
  intros H0. unfold run. destruct (spawn_error c); [done|]. destruct (stdout_pipe c); [|done].
  destruct (poll_loop _ _ _ _) as [o|] eqn:E; [|done]. cbn [mbind option_bind].
  intros [= _ Ho]. unfold outcome_of in Ho. destruct o as [b|]; [|done].
  destruct (status c) as [s|]; [|done]. destruct (success s) eqn:Es; [|done]. injection Ho as ->.
  split; [by exists s|]. apply poll_loop_ok in E as [E| ->]; [|split; [by rewrite zlen_nil|done]].
  split; [|done]. by apply read_loop_spec in E as [? _].
Qed.

(** C23. A plugin that was not granted is not run: the call has no effect.  A
    granted one is started exactly as its grant says, whatever the data, with
    an environment of one variable, and is killed and reaped whatever happens;
    and a rendering is taken only from a child that succeeded, within the
    output budget, with every line safe to display. *)
Theorem call_contained utf8_error h n input limits child effects res :
  0 <= max_output_bytes limits ->
  call utf8_error h n input limits child = Some (effects, res) ->
  (is_granted h n = false /\ effects = [] /\ res = Err (NotGranted n))
  \/ exists g, g ∈ granted h /\ name g = n /\
       let spawn := Spawn (program g) (args g) [(chars "PENGUIN_PLUGIN_API", chars "1")] in
       (effects = [spawn] /\ spawn_error (child g) <> None
        \/ effects = [spawn; Feed (encode_str input); Kill; Wait])
       /\ forall r, res = Ok r ->
            (exists s, status (child g) = Ok s /\ success s = true)
            /\ (exists raw, read_loop (max_output_bytes limits) [] (reads (child g)) = Ok raw
                            /\ zlen raw <= max_output_bytes limits /\ parse utf8_error raw = Ok r)
            /\ Forall (fun t => Forall (fun c => is_dangerous_char c = false) (as_display t)) (lines r).
Proof.
  intros H0. unfold call. destruct (List.find _ (granted h)) as [g|] eqn:E.
  2: { intros [= <- <-]. left. split_and!; try done. unfold is_granted. clear -E.
       induction (granted h) as [|g gs IH]; [done|]. cbn [List.find existsb] in *.
       destruct (bool_decide (name g = n)); [done|by apply IH]. }
  apply find_name in E as [Hg Hn]. destruct (run g input limits (child g)) as [[eff raw]|] eqn:Er; [|done].
  cbn [mbind option_bind]. intros [= <- <-]. right. exists g. split_and!; [done|done|..].
  - destruct (run_effects _ _ _ _ _ _ Er) as [(e & -> & -> & _)|[_ ->]]; [by left|by right].
  - intros r. destruct raw as [buf|]; [|done]. cbn [rbind]. intros Hp.
    destruct (plugin_run_ok _ _ _ _ _ _ H0 Er) as (Hs & Hl & Hb). split; [done|].
    assert (buf <> []) as Hne by (intros ->; by vm_compute in Hp). split; [exists buf; auto|].
    revert Hp. unfold parse. destruct (from_utf8 buf); [|done]. case_decide; [done|].
    destruct (from_str _) as [v|]; [|done]. destruct (mbind _ _) as [ls|]; [|done].
    destruct (parse_lines ls) as [out|] eqn:Ep; [|done]. cbn [rbind]. intros [= <-].
    by eapply parse_lines_safe.
Qed.

(** A round that finds the time over ends the call, whatever the child does. *)
Theorem call_ends utf8_error h n input limits child :
  (forall g, Exists (fun p => late p = true) (polls (child g))) ->
  exists effects res, call utf8_error h n input limits child = Some (effects, res).
Proof.
  intros Hlate. unfold call. destruct (List.find _ _) as [g|]; [|eauto]. unfold run.
  destruct (spawn_error _); [cbn; eauto|]. destruct (stdout_pipe _); [|cbn; eauto].
  assert (exists o, poll_loop limits (read_loop (max_output_bytes limits) [] (reads (child g)))
    (drained (child g)) (polls (child g)) = Some o) as [o ->]; [|cbn; eauto].
  specialize (Hlate g). induction Hlate as [p ps Hp|p ps _ IH]; cbn [poll_loop];
    destruct (received p); eauto; destruct (waited p); eauto; [by rewrite Hp; eauto|].
  destruct (late p); eauto.
Qed.

End Call.

(** ** The clipboard *)

Definition prepare (secrets : SecretSet) (raw : bytes) : Emitted :=
  emit secrets DClipboard (as_display (from_bytes raw)).

(** What is neither dangerous nor secret is copied as it arrived. *)
Theorem prepare_verbatim ss raw :
  was_escaped (from_bytes raw) = false -> from_utf8 raw <> None ->
  (forall w, w ∈ values (registered ss) -> ~ occurs w raw) ->
  encode_str (emitted_text (prepare (registered ss) raw)) = raw.
Proof.
  intros He Hu Hs. unfold prepare, emit, scrub_str. cbn [emitted_text].
  rewrite unescaped_is_verbatim, scrub_clean by done. destruct (from_utf8 raw) as [t|] eqn:E; [|done].
  rewrite (from_utf8_lossy_valid _ _ E). by apply from_utf8_encode.
Qed.

Lemma prepare_verbatim_witness :
  encode_str (emitted_text (prepare (registered [bs "hunter2"]) (bs "value"))) = bs "value".
Proof.
  apply (prepare_verbatim [bs "hunter2"] (bs "value")).
  - by vm_compute.
  - by vm_compute.
  - intros w [Hw _]%registered_elem. apply list_elem_of_singleton in Hw as ->.
    apply position_of_none. by vm_compute.
Defined.

(** ** Witnesses *)

Definition sample_host : PluginHost :=
  grant (mkGrant (chars "table") (chars "/opt/table") [chars "--json"]) new_host.

Definition sample_array (d : doc) : option (list doc) :=
  match d with
  | GenNode 2 vs => Some vs
  | _ => None
  end.

Definition sample_output : bytes := encode_str (to_string (jobj [(chars "lines", jarr [jstr (chars "a")])])).

Definition sample_child (_ : Grant) : Child :=
  mkChild None true [Some sample_output; Some []] [mkPoll false Running false; mkPoll true Exited true]
    true (Ok (ExitCode 0)).

Lemma call_contained_witness :
  call sample_array (fun _ => []) sample_host (chars "table") (chars "in") default_limits sample_child
  = Some ([Spawn (chars "/opt/table") [chars "--json"] [(chars "PENGUIN_PLUGIN_API", chars "1")];
           Feed (bs "in"); Kill; Wait],
          Ok (mkRendering [from_bytes (bs "a")]))
  /\ Forall (fun t => Forall (fun c => is_dangerous_char c = false) (as_display t)) [from_bytes (bs "a")].
Proof.
  assert (call sample_array (fun _ => []) sample_host (chars "table") (chars "in") default_limits sample_child
    = Some ([Spawn (chars "/opt/table") [chars "--json"] [(chars "PENGUIN_PLUGIN_API", chars "1")];
             Feed (bs "in"); Kill; Wait],
            Ok (mkRendering [from_bytes (bs "a")]))) as E by (vm_compute; reflexivity).
  split; [exact E|].
  destruct (call_contained sample_array (fun _ => []) sample_host (chars "table") (chars "in") default_limits
              sample_child _ _ ltac:(vm_compute; discriminate) E) as [(_ & Hf & _)|(g & _ & _ & _ & Hr)];
    [discriminate Hf|].
  apply (Hr _ eq_refl).
Defined.

Lemma call_ends_witness :
  exists effects res, call sample_array (fun _ => []) sample_host (chars "table") (chars "in") default_limits
                        sample_child = Some (effects, res).
Proof. apply call_ends. intros g. apply Exists_cons_tl, Exists_cons_hd. reflexivity. Defined.

(** ** What the module's comments promise and the code does not do *)

(** A secret that has to be escaped is not found after the escaping: what is
    copied is the secret in escaped form. *)
Lemma escaped_secret_copied :
  emitted_text (prepare (registered [bs "pass" ++ [x1b] ++ bs "word"]) (bs "pass" ++ [x1b] ++ bs "word"))
  = chars "pass\x1bword".
Proof. by vm_compute. Qed.

(** A plugin that closes its output and exits a moment later is killed in
    between, and its complete output is reported as a crash. *)
Lemma early_close_killed :
  run (mkGrant [] [] []) [] default_limits
    (mkChild None true [Some (bs "ok"); Some []] [mkPoll true Running false] true (Ok (Signal 9)))
  = Some ([Spawn [] [] [(chars "PENGUIN_PLUGIN_API", chars "1")]; Feed []; Kill; Wait],
          Err (Crashed (chars "killed by signal 9 (SIGKILL)"))).
Proof. by vm_compute. Qed.
