(* ===== verification/Ssh.v ===== *)
(** * Tunnels through OpenSSH ([crates/pr-transport/src/ssh.rs])

    The command lines handed to [ssh], the start of a tunnel, the pool of
    per-node tunnels and the SOCKS5 client.  What the operating system answers
    while a tunnel starts is given; what the code does to processes is a trace,
    every child with its own number.  Paths are their displayed text. *)

From S2P Require Import Prelude Text TextFacts Lines.

Inductive Mode := PerNode | Socks5.
#[export] Instance Mode_eq_dec : EqDecision Mode.
Proof. solve_decision. Defined.

Definition mode_name (m : Mode) : str :=
  match m with
  | PerNode => chars "per-node"
  | Socks5 => chars "socks5"
  end.

Record Bastion := mkBastion {
  host : str;
  port : Z;
  user : str;
  known_hosts : str;
  identity : option str;
}.

Inductive SshError :=
| NotRunnable (e : str)
| NoKnownHosts (path : str)
| Exited (status : str)
| Timeout (t : Z)
| TunnelBudget (limit : nat)
| Io (kind : string) (message : str).

Definition decimal (z : Z) : str := bz <$> print_unsigned z.

(** [debug] is the [Debug] form of a duration. *)
Definition error_message (debug : Z -> str) (e : SshError) : str :=
  match e with
  | NotRunnable e => chars "cannot run ssh: " ++ e
  | NoKnownHosts p => p ++ chars " does not exist; a tunnel will not create a known-hosts file for you"
  | Exited s => chars "ssh exited before the tunnel came up: " ++ s
  | Timeout t => chars "the tunnel did not come up within " ++ debug t
  | TunnelBudget limit =>
      chars "this profile allows " ++ decimal (Z.of_nat limit) ++ chars " tunnels and all of them are in use"
  | Io _ m => m
  end.

(** ** Command lines *)

Definition base_options (b : Bastion) : list str :=
  [chars "-N"; chars "-T";
   chars "-o"; chars "BatchMode=yes";
   chars "-o"; chars "StrictHostKeyChecking=yes";
   chars "-o"; chars "UserKnownHostsFile=" ++ known_hosts b;
   chars "-o"; chars "ControlMaster=no";
   chars "-o"; chars "ControlPath=none";
   chars "-o"; chars "ProxyCommand=none";
   chars "-o"; chars "ServerAliveInterval=15";
   chars "-o"; chars "ServerAliveCountMax=3";
   chars "-o"; chars "ExitOnForwardFailure=yes";
   chars "-p"; decimal (port b)]
  ++ match identity b with
     | Some id => [chars "-o"; chars "IdentitiesOnly=yes"; chars "-i"; id]
     | None => []
     end.

Definition forward (local_port : Z) (internal : str) (internal_port : Z) : str :=
  chars "127.0.0.1:" ++ decimal local_port ++ chars ":" ++ internal ++ chars ":" ++ decimal internal_port.

Definition destination (b : Bastion) : str := user b ++ chars "@" ++ host b.

Definition per_node_argv (b : Bastion) (local_port : Z) (internal : str) (internal_port : Z) : list str :=
  base_options b ++ [chars "-L"; forward local_port internal internal_port; destination b].

Definition socks5_argv (b : Bastion) (local_port : Z) : list str :=
  base_options b ++ [chars "-D"; chars "127.0.0.1:" ++ decimal local_port; destination b].

(** ** Starting a tunnel *)

Record Tunnel := mkTunnel { child : nat; local_port : Z; mode : Mode; target : str }.

(** What happens to processes: a child is started; its port accepts a
    connection; it ends by itself; [try_wait] reports that it has, which reaps
    it, or fails; it is killed; it is waited for, which ends once it was killed. *)
Inductive Effect :=
| Spawn (id : nat) (program : str) (argv : list str)
| Accepted (id : nat)
| Exits (id : nat)
| Reaped (id : nat)
| WaitFailed (id : nat)
| Kill (id : nat)
| Wait (id : nat).

(** One round of the loop: what [try_wait] answers, whether the loopback port
    accepts, and whether the deadline has passed. *)
Record Round := mkRound { exited : result str (option str); accepts : bool; overdue : bool }.

Record Launch := mkLaunch {
  hosts_file : bool;
  free_port : result str Z;
  spawn_error : option str;
  rounds : list Round;
}.

(** [None] while no round has decided. *)
Fixpoint wait_up (t : Tunnel) (timeout : Z) (rs : list Round) : option (list Effect * result SshError Tunnel) :=
  match rs with
  | [] => None
  | r :: rs' =>
      match exited r with
      | Err e => Some ([WaitFailed (child t)], Err (Io "other" e))
      | Ok (Some status) => Some ([Reaped (child t)], Err (Exited status))
      | Ok None =>
          if accepts r then Some ([Accepted (child t)], Ok t)
          else if overdue r then Some ([Kill (child t); Wait (child t)], Err (Timeout timeout))
          else wait_up t timeout rs'
      end
  end.

Definition address (h : str) (p : Z) : str := h ++ chars ":" ++ decimal p.

(** The command line and the name of what is reached. *)
Definition plan (b : Bastion) (m : Mode) (internal : option (str * Z)) (local : Z) : result SshError (list str * str) :=
  match m, internal with
  | PerNode, Some (h, p) => Ok (per_node_argv b local h p, address h p)
  | PerNode, None => Err (NotRunnable (chars "per-node mode needs the internal address to forward to"))
  | Socks5, _ => Ok (socks5_argv b local, address (host b) (port b))
  end.

Definition start (b : Bastion) (m : Mode) (internal : option (str * Z)) (timeout : Z) (id : nat) (l : Launch) :
    option (list Effect * result SshError Tunnel) :=
  if negb (hosts_file l) then Some ([], Err (NoKnownHosts (known_hosts b)))
  else
    match free_port l with
    | Err e => Some ([], Err (Io "other" e))
    | Ok local =>
        match plan b m internal local with
        | Err e => Some ([], Err e)
        | Ok (argv, target) =>
            match spawn_error l with
            | Some e => Some ([], Err (NotRunnable e))
            | None =>
                '(eff, r) ← wait_up (mkTunnel id local m target) timeout (rounds l);
                Some (Spawn id (chars "ssh") argv :: eff, r)
            end
        end
    end.

(** [Drop] of a tunnel. *)
Definition drop_tunnel (t : Tunnel) : list Effect := [Kill (child t); Wait (child t)].

(** ** The pool *)

Definition DEFAULT_MAX_TUNNELS : nat := 16.

(** [next] numbers the children. *)
Record PerNodeTunnels := mkPool {
  bastion : Bastion;
  limit : nat;
  tunnels : list (str * Tunnel);
  next : nat;
}.

Definition new_pool (b : Bastion) (n : nat) : PerNodeTunnels := mkPool b n [] 0.
Definition pool_len (p : PerNodeTunnels) : nat := length (tunnels p).
Definition pool_is_empty (p : PerNodeTunnels) : bool := bool_decide (tunnels p = []).

Definition find_tunnel (key : str) (ts : list (str * Tunnel)) : option Tunnel :=
  snd <$> List.find (fun kt => bool_decide (kt.1 = key)) ts.

Definition port_for (p : PerNodeTunnels) (h : str) (pt : Z) (timeout : Z) (l : Launch) :
    option (PerNodeTunnels * list Effect * result SshError Z) :=
  let key := address h pt in
  match find_tunnel key (tunnels p) with
  | Some t => Some (p, [], Ok (local_port t))
  | None =>
      if decide (limit p <= length (tunnels p))%nat then Some (p, [], Err (TunnelBudget (limit p)))
      else
        '(eff, r) ← start (bastion p) PerNode (Some (h, pt)) timeout (next p) l;
        let p' := mkPool (bastion p) (limit p) (tunnels p) (S (next p)) in
        match r with
        | Err e => Some (p', eff, Err e)
        | Ok t =>
            Some (mkPool (bastion p) (limit p) (tunnels p ++ [(key, t)]) (S (next p)), eff,
                  Ok (local_port t))
        end
  end.

(** The tunnels that are dropped, in their order. *)
Definition retain_nodes (p : PerNodeTunnels) (live : list str) : PerNodeTunnels * list Effect * nat :=
  let kept := filter (fun kt : str * Tunnel => kt.1 ∈ live) (tunnels p) in
  let gone := filter (fun kt : str * Tunnel => ~ kt.1 ∈ live) (tunnels p) in
  (mkPool (bastion p) (limit p) kept (next p), gone ≫= (fun kt => drop_tunnel kt.2),
   (length (tunnels p) - length kept)%nat).

Definition mapping (p : PerNodeTunnels) : list (str * Z) :=
  (fun kt => (kt.1, local_port kt.2)) <$> tunnels p.

(** ** SOCKS5 *)

Definition socks5_reason (code : Z) : string :=
  if decide (code = 1) then "general failure"
  else if decide (code = 2) then "not allowed by ruleset"
  else if decide (code = 3) then "network unreachable"
  else if decide (code = 4) then "host unreachable"
  else if decide (code = 5) then "connection refused"
  else if decide (code = 6) then "TTL expired"
  else if decide (code = 7) then "command not supported"
  else if decide (code = 8) then "address type not supported"
  else "unknown".

(** What the operating system and the proxy answer: whether the connection is
    made and set up, whether each of the two writes succeeds, what the proxy
    sends, and what a read says that wants more (the end of the stream, or a
    timeout). *)
Record Proxy := mkProxy {
  px_connect : option SshError;
  px_greeting : option SshError;
  px_request : option SshError;
  px_sent : bytes;
  px_end : SshError;
}.

(** [read_exact] on the bytes the proxy sends. *)
Definition read_exact (ends : SshError) (n : nat) (s : bytes) : result SshError (bytes * bytes) :=
  if decide (length s < n)%nat then Err ends else Ok (take n s, drop n s).

Definition greeting : bytes := [x05; x01; x00].

(** [to_be_bytes] of a [u16]. *)
Definition be16 (p : Z) : bytes := [zb (p / 256); zb p].

Definition connect_request (h : bytes) (p : Z) : bytes :=
  [x05; x01; x00; x03; zb (zlen h)] ++ h ++ be16 p.

(** What is consumed of the address the proxy is bound to. *)
Definition bound_address (ends : SshError) (atyp : byte) (s : bytes) : result SshError bytes :=
  if decide (atyp = x01) then let? r := read_exact ends 6 s in Ok r.2
  else if decide (atyp = x04) then let? r := read_exact ends 18 s in Ok r.2
  else if decide (atyp = x03) then
    let? len := read_exact ends 1 s in
    match len.1 with
    | n :: _ => let? r := read_exact ends (Z.to_nat (bz n) + 2) len.2 in Ok r.2
    | [] => Err ends
    end
  else Err (Io "InvalidData" (chars "unknown SOCKS5 address type " ++ decimal (bz atyp))).

(** The reply to the request. *)
Definition read_reply (ends : SshError) (h : bytes) (p : Z) (s : bytes) : result SshError bytes :=
  match read_exact ends 4 s with
  | Ok ([v; rep; _; atyp], s) =>
      if decide (v <> x05) then Err (Io "InvalidData" (chars "not a SOCKS5 reply"))
      else if decide (rep <> x00) then
        Err (Io "ConnectionRefused"
          (chars "the proxy refused " ++ from_utf8_lossy h ++ chars ":" ++ decimal p ++ chars ": "
           ++ chars (socks5_reason (bz rep))))
      else bound_address ends atyp s
  | Ok _ => Err ends
  | Err e => Err e
  end.

(** What is written to the proxy in full, and what the proxy has sent and is not
    read yet once the connection is through.  [debug] is the [Debug] form of
    bytes. *)
Definition socks5_connect (debug : bytes -> str) (h : bytes) (p : Z) (px : Proxy) :
    list bytes * result SshError bytes :=
  match px_connect px, px_greeting px with
  | Some e, _ | None, Some e => ([], Err e)
  | None, None =>
      match read_exact (px_end px) 2 (px_sent px) with
      | Err e => ([greeting], Err e)
      | Ok (reply, s) =>
          if decide (reply <> [x05; x00]) then
            ([greeting], Err (Io "InvalidData" (chars "the SOCKS5 proxy refused the no-auth method: " ++ debug reply)))
          else if decide (255 < zlen h) then
            ([greeting], Err (Io "InvalidInput" (chars "a SOCKS5 domain name may be at most 255 bytes")))
          else
            match px_request px with
            | Some e => ([greeting], Err e)
            | None => ([greeting; connect_request h p], read_reply (px_end px) h p s)
            end
      end
  end.

(** [ssh -V]: whether it ran, succeeded, and what it wrote to stderr. *)
Definition mode_available (m : Mode) (o : result str (bool * bytes)) : result str unit :=
  match o with
  | Ok (true, _) => Ok tt
  | Ok (false, err) => Err (chars "ssh -V failed: " ++ trim (from_utf8_lossy err))
  | Err e => Err (chars "ssh is not on PATH: " ++ e)
  end.

(** [Path::join] with a relative name. *)
Definition default_known_hosts (config_dir : str) : str :=
  match last config_dir with
  | None => chars "known_hosts"
  | Some c => config_dir ++ (if decide (c = 47) then [] else chars "/") ++ chars "known_hosts"
  end.

(** ** The command line *)

(** What every tunnel is started with, whatever the profile says. *)
Definition required : list str :=
  chars <$> ["BatchMode=yes"; "StrictHostKeyChecking=yes"; "ControlMaster=no"; "ControlPath=none";
             "ProxyCommand=none"; "ServerAliveInterval=15"; "ServerAliveCountMax=3";
             "ExitOnForwardFailure=yes"]%string.

(** The name of a setting: what precedes its equals sign. *)
Definition setting_name (v : str) : str := (default (v, []) (split_once 61 v)).1.

(** Options that take the next word, as the words they are written as. *)
Definition words (pairs : list (str * str)) : list str := pairs ≫= (fun kv => [kv.1; kv.2]).

(** The forward of a plan: [-L] to one address, or [-D]; its listening side is
    the loopback address at the port that was chosen. *)
Definition forward_pair (m : Mode) (internal : option (str * Z)) (local : Z) (kv : str * str) : Prop :=
  match m, internal with
  | PerNode, Some (h, p) =>
      kv = (chars "-L", chars "127.0.0.1:" ++ decimal local ++ chars ":" ++ h ++ chars ":" ++ decimal p)
  | PerNode, None => False
  | Socks5, _ => kv = (chars "-D", chars "127.0.0.1:" ++ decimal local)
  end.

(** The options of a bastion, in the order they are written. *)
Definition option_pairs (b : Bastion) : list (str * str) :=
  (pair (chars "-o") <$> [chars "BatchMode=yes"; chars "StrictHostKeyChecking=yes";
      chars "UserKnownHostsFile=" ++ known_hosts b; chars "ControlMaster=no"; chars "ControlPath=none";
      chars "ProxyCommand=none"; chars "ServerAliveInterval=15"; chars "ServerAliveCountMax=3";
      chars "ExitOnForwardFailure=yes"])
  ++ [(chars "-p", decimal (port b))]
  ++ match identity b with
     | Some id => [(chars "-o", chars "IdentitiesOnly=yes"); (chars "-i", id)]
     | None => []
     end.

Lemma base_options_words b : base_options b = [chars "-N"; chars "-T"] ++ words (option_pairs b).
Proof. unfold base_options, option_pairs, words. by destruct (identity b). Qed.

Lemma plan_shape b m internal local argv target : plan b m internal local = Ok (argv, target) ->
  exists kv, forward_pair m internal local kv /\
    argv = [chars "-N"; chars "-T"] ++ words (option_pairs b ++ [kv]) ++ [destination b].
Proof.
  assert (forall w v, base_options b ++ [w; v; destination b] =
    [chars "-N"; chars "-T"] ++ words (option_pairs b ++ [(w, v)]) ++ [destination b]) as E.
  { intros w v. rewrite base_options_words. unfold words. by rewrite bind_app, <- !app_assoc. }
  destruct m; [destruct internal as [[h p]|]|]; intros [= <- <-].
  - eexists. split; [reflexivity|]. unfold per_node_argv. by rewrite E.
  - eexists. split; [reflexivity|]. unfold socks5_argv. by rewrite E.
Qed.

(** A setting of a bastion. *)
Definition permitted (b : Bastion) (kv : str * str) : Prop :=
  (exists v, v ∈ required /\ kv = (chars "-o", v))
  \/ kv = (chars "-o", chars "UserKnownHostsFile=" ++ known_hosts b)
  \/ kv = (chars "-p", decimal (port b))
  \/ exists id, identity b = Some id /\ (kv = (chars "-o", chars "IdentitiesOnly=yes") \/ kv = (chars "-i", id)).

Lemma required_bool v : bool_decide (v ∈ required) = true -> v ∈ required.
Proof. apply bool_decide_eq_true. Qed.

Lemma option_pairs_permitted b kv : kv ∈ option_pairs b -> permitted b kv.
Proof.
  unfold option_pairs. rewrite !elem_of_app, list_elem_of_fmap, list_elem_of_singleton.
  intros [(v & -> & Hv)|[->|Hid]].
  - rewrite !elem_of_cons, elem_of_nil in Hv. unfold permitted.
    destruct Hv as [->|[->|[->|[->|[->|[->|[->|[->|[->|[]]]]]]]]]]; [| |by right; left| | | | | |];
      left; (eexists; split; [|reflexivity]; by apply required_bool).
  - by right; right; left.
  - destruct (identity b) as [id|] eqn:E; [|by apply elem_of_nil in Hid].
    rewrite !elem_of_cons, elem_of_nil in Hid. right; right; right. exists id. naive_solver.
Qed.

Lemma option_pairs_required b v : v ∈ required -> (chars "-o", v) ∈ option_pairs b.
Proof.
  intros Hv. unfold option_pairs. apply elem_of_app. left. apply list_elem_of_fmap_2.
  revert Hv. unfold required. cbn [fmap list_fmap]. rewrite !elem_of_cons. tauto.
Qed.

(** No setting is given twice, so none overrides another. *)
Lemma settings_once b :
  NoDup ((fun kv : str * str => setting_name kv.2) <$> filter (fun kv => kv.1 = chars "-o") (option_pairs b)).
Proof.
  assert (forall l, setting_name (chars "UserKnownHostsFile=" ++ l) = chars "UserKnownHostsFile") as Hk by done.
  unfold option_pairs. destruct (identity b) as [id|]; cbn [fmap list_fmap app];
    rewrite !filter_cons; cbn [fst]; rewrite !decide_True by done;
    repeat (rewrite decide_False by (by vm_compute)); rewrite ?decide_True by done; cbn [fmap list_fmap snd];
    rewrite Hk; apply (bool_decide_unpack _); by vm_compute.
Qed.

(** C13. The command line handed to [ssh] is this and nothing else, whatever the
    bastion's names hold: [-N] and [-T]; then options that each take the next
    word, among them, each exactly as required, the settings that rule out
    prompts, trust on first use, shared sessions and proxy commands; every other
    option is the known-hosts file, the port or the identity of the bastion, and
    no setting is named twice; then one forward, whose listening side is the
    loopback address at the chosen port; and last one word, the destination,
    which does not start with a hyphen unless the user does
    ([user_becomes_option]). *)
Theorem argv_controlled b m internal local argv target :
  plan b m internal local = Ok (argv, target) ->
  exists pairs kv,
    argv = [chars "-N"; chars "-T"] ++ words (pairs ++ [kv]) ++ [user b ++ chars "@" ++ host b]
    /\ (forall v, v ∈ required -> (chars "-o", v) ∈ pairs)
    /\ Forall (permitted b) pairs
    /\ NoDup ((fun kv : str * str => setting_name kv.2) <$> filter (fun kv => kv.1 = chars "-o") pairs)
    /\ forward_pair m internal local kv
    /\ (head (user b) <> Some 45 -> head (user b ++ chars "@" ++ host b) <> Some 45).
Proof.
  intros (kv & Hkv & ->)%plan_shape. exists (option_pairs b), kv. split_and!.
  - done.
  - apply option_pairs_required.
  - apply Forall_forall, option_pairs_permitted.
  - apply settings_once.
  - done.
  - by destruct (user b).
Qed.

Definition hostile_bastion : Bastion :=
  mkBastion (chars "-x; rm") 22 (chars "ops") (chars "/k h") (Some (chars "-oX")).

Lemma argv_controlled_witness :
  exists pairs kv, socks5_argv hostile_bastion 4711 =
    [chars "-N"; chars "-T"] ++ words (pairs ++ [kv]) ++ [chars "ops@-x; rm"] /\
    kv = (chars "-D", chars "127.0.0.1:4711").
Proof.
  destruct (argv_controlled hostile_bastion Socks5 None 4711 (socks5_argv hostile_bastion 4711)
    (address (chars "-x; rm") 22)) as (pairs & kv & H & _ & _ & _ & Hkv & _); [reflexivity|].
  exists pairs, kv. split; [exact H|exact Hkv].
Defined.

(** ** The pool *)

(** The children of a trace that have not been reaped: they run, or ended and
    still keep their number. *)
Definition step_unreaped (rs : list nat) (e : Effect) : list nat :=
  match e with
  | Spawn id _ _ => id :: rs
  | Reaped id | Wait id => filter (fun x => x <> id) rs
  | _ => rs
  end.
Definition unreaped (tr : list Effect) : list nat := foldl step_unreaped [] tr.

Lemma unreaped_app tr e : unreaped (tr ++ e) = foldl step_unreaped (unreaped tr) e.
Proof. apply foldl_app. Qed.

(** The children whose start was given up because [try_wait] failed. *)
Definition lost (tr : list Effect) : list nat :=
  tr ≫= (fun e => match e with WaitFailed id => [id] | _ => [] end).

(** Every child that is killed is one of this process that it has not reaped,
    so that its number cannot have become another's. *)
Fixpoint kills_own (rs : list nat) (tr : list Effect) : Prop :=
  match tr with
  | [] => True
  | e :: r => match e with Kill id => id ∈ rs | _ => True end /\ kills_own (step_unreaped rs e) r
  end.

Lemma kills_own_app a b : forall rs, kills_own rs (a ++ b) <-> kills_own rs a /\ kills_own (foldl step_unreaped rs a) b.
Proof. induction a as [|e a IH]; intros rs; cbn [kills_own app foldl]; [tauto|]. rewrite IH. tauto. Qed.

(** A tunnel is asked for, the topology changes, or a child ends by itself. *)
Inductive pool_step : PerNodeTunnels * list Effect -> PerNodeTunnels * list Effect -> Prop :=
| step_port p tr h pt timeout l p' eff r :
    0 <= pt <= u16_max -> port_for p h pt timeout l = Some (p', eff, r) ->
    pool_step (p, tr) (p', tr ++ eff)
| step_retain p tr live p' eff n :
    retain_nodes p live = (p', eff, n) -> pool_step (p, tr) (p', tr ++ eff)
| step_exit p tr id : id ∈ unreaped tr -> pool_step (p, tr) (p, tr ++ [Exits id]).

(** A child was started to forward a port to an address, and the port accepted. *)
Definition came_up (b : Bastion) (tr : list Effect) (id : nat) (local : Z) (h : str) (pt : Z) : Prop :=
  Spawn id (chars "ssh") (per_node_argv b local h pt) ∈ tr /\ Accepted id ∈ tr.

Lemma came_up_app b tr eff id local h pt : came_up b tr id local h pt -> came_up b (tr ++ eff) id local h pt.
Proof. intros [H1 H2]. split; apply elem_of_app; by left. Qed.

(** The pool accounts for every child: those not reaped are those it holds and
    those that were lost, every tunnel came up for the address it is filed
    under, and nothing is killed that is not its own. *)
Record accounted (s : PerNodeTunnels * list Effect) : Prop := {
  acc_limit : (length (tunnels s.1) <= limit s.1)%nat;
  acc_keys : NoDup (tunnels s.1).*1;
  acc_unreaped : unreaped s.2 ≡ₚ (child <$> (tunnels s.1).*2) ++ lost s.2;
  acc_fresh : Forall (fun i => i < next s.1)%nat (unreaped s.2);
  acc_children : NoDup (unreaped s.2);
  acc_forward : Forall (fun kt => exists h pt, kt.1 = address h pt /\ 0 <= pt /\
      came_up (bastion s.1) s.2 (child kt.2) (local_port kt.2) h pt) (tunnels s.1);
  acc_kills : kills_own [] s.2;
}.

Lemma new_pool_accounted b n : accounted (new_pool b n, []).
Proof. split; cbn; try constructor; lia. Qed.

Lemma lost_app tr e : lost (tr ++ e) = lost tr ++ lost e.
Proof. apply bind_app. Qed.

(** What starting a tunnel does: nothing, or a child that is gone again or
    lost, or the tunnel. *)
Lemma start_effects b h pt timeout id l eff r :
  start b PerNode (Some (h, pt)) timeout id l = Some (eff, r) ->
  (eff = [] /\ is_ok r = false)
  \/ exists local, let sp := Spawn id (chars "ssh") (per_node_argv b local h pt) in
     (is_ok r = false /\ eff ∈ [[sp; Reaped id]; [sp; Kill id; Wait id]; [sp; WaitFailed id]])
     \/ (r = Ok (mkTunnel id local PerNode (address h pt)) /\ eff = [sp; Accepted id]).
Proof.
  unfold start. destruct (hosts_file l); [|intros [= <- <-]; by left]. cbn [negb].
  destruct (free_port l) as [local|]; [|intros [= <- <-]; by left]. cbn [plan].
  destruct (spawn_error l); [intros [= <- <-]; by left|].
  induction (rounds l) as [|x rs IH]; [done|]. cbn [wait_up].
  destruct (exited x) as [[st|]|].
  - intros [= <- <-]. right. exists local. left. split; [done|set_solver].
  - destruct (accepts x); [intros [= <- <-]; right; exists local; by right|].
    destruct (overdue x); [|done].
    intros [= <- <-]. right. exists local. left. split; [done|set_solver].
  - intros [= <- <-]. right. exists local. left. split; [done|set_solver].
Qed.

Lemma filter_fresh rs id : Forall (fun i => i < id)%nat rs -> filter (fun x => x <> id) rs = rs.
Proof. intros H. apply filter_all. intros x Hx. eapply Forall_forall in H; [|exact Hx]. simpl in H. lia. Qed.

Lemma find_tunnel_none key ts : find_tunnel key ts = None -> key ∉ ts.*1.
Proof.
  unfold find_tunnel. induction ts as [|kt ts IH]; cbn [List.find fmap list_fmap option_fmap option_map].
  - intros _. apply not_elem_of_nil.
  - case_bool_decide as E; [done|]. intros H [->|Hin]%elem_of_cons; [done|by apply IH].
Qed.

Lemma find_tunnel_some key ts t : find_tunnel key ts = Some t -> (key, t) ∈ ts.
Proof.
  unfold find_tunnel. induction ts as [|[k u] ts IH]; cbn [List.find]; [done|].
  case_bool_decide as E; cbn [fst] in E.
  - intros [= <-]. subst. by left.
  - intros H. right. by apply IH.
Qed.

Definition drops (gone : list (str * Tunnel)) : list Effect := gone ≫= (fun kt => drop_tunnel kt.2).

Lemma unreaped_drops gone : forall rs,
  foldl step_unreaped rs (drops gone) = filter (fun i => i ∉ (child <$> gone.*2)) rs.
Proof.
  induction gone as [|kt gone IH]; intros rs; cbn [drops mbind list_bind].
  - cbn [foldl]. symmetry. apply filter_all. intros x _. apply not_elem_of_nil.
  - fold (drops gone). unfold drop_tunnel. cbn [foldl app step_unreaped]. rewrite IH.
    cbn [fmap list_fmap]. rewrite list_filter_filter. apply list_filter_iff. intros x.
    rewrite not_elem_of_cons. tauto.
Qed.

Lemma lost_drops gone : lost (drops gone) = [].
Proof.
  induction gone as [|kt gone IH]; [done|]. cbn [drops mbind list_bind]. fold (drops gone).
  by rewrite lost_app, IH.
Qed.

Lemma kills_drops gone : forall rs,
  NoDup (child <$> gone.*2) -> (forall i, i ∈ child <$> gone.*2 -> i ∈ rs) -> kills_own rs (drops gone).
Proof.
  induction gone as [|kt gone IH]; intros rs Hn Hin; [done|]. cbn [drops mbind list_bind]. fold (drops gone).
  cbn [fmap list_fmap] in *. apply NoDup_cons in Hn as [Hk Hn]. unfold drop_tunnel.
  cbn [app kills_own step_unreaped]. split; [apply Hin; by left|]. split; [done|]. apply IH; [done|].
  intros i Hi. apply list_elem_of_filter. split; [by intros ->|]. apply Hin. by right.
Qed.

Lemma filter_partition {A} (P : A -> Prop) `{!forall x, Decision (P x)} (l : list A) :
  l ≡ₚ filter P l ++ filter (fun x => ~ P x) l.
Proof.
  induction l as [|x l IH]; [done|]. destruct (decide (P x)) as [Hx|Hx].
  - rewrite (filter_cons_True P), (filter_cons_False (fun x => ~ P x)) by tauto. cbn [app]. by rewrite <- IH.
  - rewrite (filter_cons_False P), (filter_cons_True (fun x => ~ P x)) by tauto.
    rewrite <- Permutation_middle. by rewrite <- IH.
Qed.

Lemma filter_apart (a b c : list nat) :
  NoDup (a ++ b ++ c) -> filter (fun i => i ∉ b) (a ++ b ++ c) = a ++ c.
Proof.
  intros (Ha & Hd & (Hb & Hbc & _)%NoDup_app)%NoDup_app. rewrite !filter_app.
  assert (filter (fun i => i ∉ b) b = []) as ->.
  { apply filter_none. intros x Hx Hn. done. }
  cbn [app]. f_equal; apply filter_all; intros x Hx.
  - intros Hxb. apply (Hd x Hx), elem_of_app. by left.
  - intros Hxb. by apply (Hbc x).
Qed.

Lemma sublist_map {A B} (f : A -> B) (l k : list A) : l `sublist_of` k -> (f <$> l) `sublist_of` (f <$> k).
Proof. induction 1; cbn [fmap list_fmap]; by constructor. Qed.

(** Dropping tunnels leaves the rest accounted for. *)
Lemma drops_unreaped held kept gone tr :
  held ≡ₚ kept ++ gone -> unreaped tr ≡ₚ (child <$> held.*2) ++ lost tr -> NoDup (unreaped tr) ->
  unreaped (tr ++ drops gone) ≡ₚ (child <$> kept.*2) ++ lost (tr ++ drops gone).
Proof.
  intros Hp Hr Hc. rewrite unreaped_app, unreaped_drops, lost_app, lost_drops, app_nil_r.
  assert (unreaped tr ≡ₚ (child <$> kept.*2) ++ (child <$> gone.*2) ++ lost tr) as E.
  { by rewrite Hr, Hp, !fmap_app, <- app_assoc. }
  rewrite E. rewrite filter_apart; [done|]. by rewrite <- E.
Qed.

Lemma drops_kills held kept gone tr :
  held ≡ₚ kept ++ gone -> unreaped tr ≡ₚ (child <$> held.*2) ++ lost tr -> NoDup (unreaped tr) ->
  kills_own [] tr -> kills_own [] (tr ++ drops gone).
Proof.
  intros Hp Hr Hc Hk. apply kills_own_app. split; [done|].
  assert (unreaped tr ≡ₚ (child <$> kept.*2) ++ (child <$> gone.*2) ++ lost tr) as E.
  { by rewrite Hr, Hp, !fmap_app, <- app_assoc. }
  apply kills_drops.
  - rewrite E in Hc. by apply NoDup_app in Hc as (_ & _ & (? & _)%NoDup_app).
  - intros i Hi. fold (unreaped tr). rewrite E, !elem_of_app. auto.
Qed.

Lemma retain_accounted p tr live p' eff n :
  accounted (p, tr) -> retain_nodes p live = (p', eff, n) -> accounted (p', tr ++ eff).
Proof.
  intros [Hl Hk Hr Hf Hc Hw Hi] [= <- <- <-]. cbn [fst snd] in *.
  set (kept := filter (fun kt : str * Tunnel => kt.1 ∈ live) (tunnels p)).
  set (gone := filter (fun kt : str * Tunnel => ~ kt.1 ∈ live) (tunnels p)).
  change (gone ≫= (fun kt => drop_tunnel kt.2)) with (drops gone).
  assert (kept `sublist_of` tunnels p) as Hsub by apply sublist_filter.
  assert (tunnels p ≡ₚ kept ++ gone) as Hpart by apply filter_partition.
  split; cbn [fst snd tunnels limit next bastion].
  - pose proof (sublist_length _ _ Hsub). lia.
  - eapply sublist_NoDup; [exact Hk|by apply sublist_map].
  - by eapply drops_unreaped.
  - rewrite unreaped_app, unreaped_drops. apply Forall_forall. intros x [_ Hx]%list_elem_of_filter.
    by eapply Forall_forall in Hf.
  - rewrite unreaped_app, unreaped_drops. by apply NoDup_filter.
  - apply Forall_forall. intros kt [_ Hkt]%list_elem_of_filter.
    rewrite Forall_forall in Hw. destruct (Hw _ Hkt) as (h & pt & He & H0 & Hs). exists h, pt.
    split; [done|]. split; [done|]. by apply came_up_app.
  - by eapply drops_kills.
Qed.

Lemma exit_accounted p tr id : accounted (p, tr) -> accounted (p, tr ++ [Exits id]).
Proof.
  intros [Hl Hk Hr Hf Hc Hw Hi]. cbn [fst snd] in *.
  split; cbn [fst snd]; rewrite ?unreaped_app, ?lost_app; cbn [foldl step_unreaped]; rewrite ?app_nil_r; try done.
  - eapply Forall_impl; [exact Hw|]. intros kt (h & pt & He & H0 & Hs). exists h, pt.
    split; [done|]. split; [done|]. by apply came_up_app.
  - apply kills_own_app. split; [done|]. by split.
Qed.

(** A start that gave no tunnel: its child is gone again, or lost. *)
Lemma failed_start p tr id argv eff :
  accounted (p, tr) -> id = next p ->
  eff ∈ [[]; [Spawn id (chars "ssh") argv; Reaped id]; [Spawn id (chars "ssh") argv; Kill id; Wait id];
         [Spawn id (chars "ssh") argv; WaitFailed id]] ->
  accounted (mkPool (bastion p) (limit p) (tunnels p) (S (next p)), tr ++ eff).
Proof.
  intros [Hl Hk Hr Hf Hc Hw Hi] -> Heff. cbn [fst snd] in *.
  assert (Forall (fun kt => exists h pt, kt.1 = address h pt /\ 0 <= pt /\
    came_up (bastion p) (tr ++ eff) (child kt.2) (local_port kt.2) h pt) (tunnels p)) as Hw'.
  { eapply Forall_impl; [exact Hw|]. intros kt (h & pt & He & H0 & Hs). exists h, pt.
    split; [done|]. split; [done|]. by apply came_up_app. }
  assert (Forall (fun i => i < S (next p))%nat (unreaped tr)) as Hf'
    by (eapply Forall_impl; [exact Hf|]; simpl; lia).
  assert (next p ∉ unreaped tr) as Hnew.
  { intros Hin. rewrite Forall_forall in Hf. specialize (Hf _ Hin). lia. }
  assert (filter (fun x => x <> next p) (next p :: unreaped tr) = unreaped tr) as Egone.
  { rewrite filter_cons_False by (intros E; by apply E). by apply filter_fresh. }
  rewrite !elem_of_cons, elem_of_nil in Heff.
  destruct Heff as [->|[->|[->|[->|[]]]]]; split; cbn [fst snd tunnels limit next bastion]; try done;
    rewrite ?kills_own_app, ?unreaped_app, ?lost_app; cbn [foldl step_unreaped lost mbind list_bind app kills_own];
    rewrite ?app_nil_r, ?Egone; try done.
  - split_and!; try done. by left.
  - rewrite Hr, app_assoc. apply Permutation_cons_append.
  - by constructor; [lia|].
  - by constructor.
Qed.

Lemma port_accounted p tr h pt timeout l p' eff r : 0 <= pt ->
  accounted (p, tr) -> port_for p h pt timeout l = Some (p', eff, r) -> accounted (p', tr ++ eff).
Proof.
  intros Hpt Hacc. unfold port_for. destruct (find_tunnel _ _) as [t|] eqn:Ef.
  { intros [= <- <- _]. by rewrite app_nil_r. }
  case_decide as Hlim; [intros [= <- <- _]; by rewrite app_nil_r|].
  destruct (start _ _ _ _ _ _) as [[e res]|] eqn:Es; [|done]. cbn [mbind option_bind].
  apply start_effects in Es. destruct Es as [[-> Hres]|(local & [[Hres Heff]|[-> ->]])].
  - destruct res; [done|]. intros [= <- <- _]. apply (failed_start p tr (next p) []); [done|done|by left].
  - destruct res; [done|]. intros [= <- <- _]. eapply failed_start; [done|done|]. right. exact Heff.
  - intros [= <- <- _]. destruct Hacc as [Hl Hk Hr Hf Hc Hw Hi]. cbn [fst snd] in *.
    split; cbn [fst snd tunnels limit next bastion];
      rewrite ?kills_own_app, ?unreaped_app, ?lost_app, ?fmap_app;
      cbn [foldl step_unreaped fmap list_fmap child lost mbind list_bind kills_own]; rewrite ?app_nil_r.
    + rewrite length_app. simpl. lia.
    + apply NoDup_app. split; [done|]. split; [|apply NoDup_singleton].
      intros k Hin ->%list_elem_of_singleton. by apply (find_tunnel_none _ _ Ef).
    + rewrite Hr, <- app_assoc. cbn [app]. by rewrite <- Permutation_middle.
    + constructor; [lia|]. eapply Forall_impl; [exact Hf|]. simpl. lia.
    + constructor; [|done]. intros Hin. rewrite Forall_forall in Hf. specialize (Hf _ Hin). lia.
    + apply Forall_app. split.
      * eapply Forall_impl; [exact Hw|]. intros kt (h' & pt' & He & H0 & Hs). exists h', pt'.
        split; [done|]. split; [done|]. by apply came_up_app.
      * constructor; [|constructor]. exists h, pt. split_and!; [done|done|].
        split; apply elem_of_app; right; [by left|by right; left].
    + done.
Qed.

Lemma address_inj h p h' p' : 0 <= p -> 0 <= p' -> address h p = address h' p' -> h = h' /\ p = p'.
Proof.
  intros Hp Hp' E.
  assert (forall n, 0 <= n -> 58 ∉ decimal n) as Hd.
  { intros n Hn (b & Hb & Hin)%list_elem_of_fmap. destruct (print_unsigned_spec n Hn) as (_ & Hf & _).
    rewrite Forall_forall in Hf. specialize (Hf _ Hin). apply is_ascii_digit_spec in Hf. lia. }
  assert (rsplit_once 58 (address h p) = Some (h, decimal p)) as H1 by (by apply rsplit_once_app, Hd).
  assert (rsplit_once 58 (address h' p') = Some (h', decimal p')) as H2 by (by apply rsplit_once_app, Hd).
  rewrite E, H2 in H1. injection H1 as <- Hq. split; [done|].
  assert (Inj (=) (=) bz) by (intros x y; apply bz_inj). apply (inj (fmap (M := list) bz)) in Hq.
  destruct (print_unsigned_spec p Hp) as (_ & _ & H3), (print_unsigned_spec p' Hp') as (_ & _ & H4). congruence.
Qed.

(** The port that is handed out belongs to a child that came up for the address
    that was asked for, and that is held. *)
Lemma port_for_reaches p tr h pt timeout l p' eff local : accounted (p, tr) -> 0 <= pt ->
  port_for p h pt timeout l = Some (p', eff, Ok local) ->
  exists id, came_up (bastion p) (tr ++ eff) id local h pt /\ id ∈ child <$> (tunnels p').*2.
Proof.
  intros [_ _ Hr _ _ Hw _] Hpt. unfold port_for. cbn [fst snd] in *.
  destruct (find_tunnel _ _) as [t|] eqn:Ef.
  - intros [= <- <- <-]. rewrite app_nil_r. apply find_tunnel_some in Ef as Hin. exists (child t).
    rewrite Forall_forall in Hw. destruct (Hw _ Hin) as (h' & pt' & He & H0 & Hs). cbn [fst snd] in *.
    apply address_inj in He as [<- <-]; [|done..]. split; [done|].
    by apply (list_elem_of_fmap_2 child), (list_elem_of_fmap_2 snd _ (address h pt, t)).
  - case_decide; [done|]. destruct (start _ _ _ _ _ _) as [[e res]|] eqn:Es; [|done]. cbn [mbind option_bind].
    apply start_effects in Es.
    destruct Es as [[-> Hres]|(loc & [[Hres Heff]|[-> ->]])]; [by destruct res..|].
    intros [= <- <- <-]. exists (next p). split.
    + split; apply elem_of_app; right; [by left|by right; left].
    + cbn [tunnels]. rewrite !fmap_app. apply elem_of_app. right. by left.
Qed.

(** C35. However tunnels are asked for, topologies change, [ssh] ends by itself
    and [try_wait] fails, the pool is within its limit, files every address once
    and under the forward it was started with, and kills no process but a child
    of its own that it has not reaped; the children not reaped are exactly those
    it holds and those whose start ended in a failure of [try_wait]
    ([wait_error_leaks]), so that dropping the pool leaves none but these.  A
    port it hands out is that of a tunnel it holds, started to forward that port
    to the address asked for, and something accepted there then: that is not
    looked at again ([dead_tunnel_reused]), nor whether it was [ssh]
    ([foreign_listener_accepted]). *)
Theorem pool_accounts b n s : rtc pool_step (new_pool b n, []) s ->
  accounted s
  /\ unreaped (s.2 ++ drops (tunnels s.1)) ≡ₚ lost s.2
  /\ forall h pt timeout l p' eff local, 0 <= pt <= u16_max ->
       port_for s.1 h pt timeout l = Some (p', eff, Ok local) ->
       exists id, came_up (bastion s.1) (s.2 ++ eff) id local h pt /\ id ∈ child <$> (tunnels p').*2.
Proof.
  intros H. assert (accounted (new_pool b n, [])) as H0 by apply new_pool_accounted.
  assert (accounted s) as Hs.
  { revert H0. induction H as [s|s s' s'' Hs _ IH]; [done|]. intros H0. apply IH. clear IH.
    destruct Hs as [p tr h pt timeout l p' eff r Hpt Hp|p tr live p' eff m Hp|p tr id _].
    - eapply port_accounted; [|exact H0|exact Hp]. lia.
    - by eapply retain_accounted.
    - by apply exit_accounted. }
  split; [done|]. destruct s as [p tr]. cbn [fst snd]. split.
  - destruct Hs as [_ _ Hr _ Hc _ _]. cbn [fst snd] in *.
    rewrite (drops_unreaped (tunnels p) [] (tunnels p) tr) by done.
    cbn [fmap list_fmap app]. by rewrite lost_app, lost_drops, app_nil_r.
  - intros h pt timeout l p' eff local Hpt Hp. eapply port_for_reaches; [exact Hs|lia|exact Hp].
Qed.

(** Within the budget a tunnel that is filed is used again, and a full pool
    refuses without starting anything. *)
Theorem port_for_exact p h pt timeout l :
  (forall t, find_tunnel (address h pt) (tunnels p) = Some t ->
     port_for p h pt timeout l = Some (p, [], Ok (local_port t)))
  /\ (find_tunnel (address h pt) (tunnels p) = None -> (limit p <= pool_len p)%nat ->
     port_for p h pt timeout l = Some (p, [], Err (TunnelBudget (limit p)))).
Proof.
  split; intros; unfold port_for.
  - by rewrite H.
  - rewrite H. by rewrite decide_True.
Qed.

Definition sample_bastion : Bastion := mkBastion (chars "jump") 22 (chars "ops") (chars "/kh") None.
Definition sample_launch : Launch :=
  mkLaunch true (Ok 40001) None [mkRound (Ok None) false false; mkRound (Ok None) true false].

Lemma pool_accounts_witness :
  exists s, rtc pool_step (new_pool sample_bastion 2, []) s /\ length (tunnels s.1) = 1%nat /\ accounted s.
Proof.
  assert (exists s, rtc pool_step (new_pool sample_bastion 2, []) s /\ length (tunnels s.1) = 1%nat)
    as (s & Hs & Hl).
  { eexists. split.
    - eapply rtc_l; [|apply rtc_refl].
      eapply (step_port _ _ (chars "10.0.0.7") 6379 1000 sample_launch); [done|].
      vm_compute. reflexivity.
    - reflexivity. }
  exists s. split; [exact Hs|]. split; [exact Hl|]. apply (pool_accounts sample_bastion 2 s Hs).
Defined.

(** ** SOCKS5 *)

(** A CONNECT to a domain name, as a server reads it. *)
Definition parse_request (b : bytes) : option (bytes * Z) :=
  match b with
  | x05 :: x01 :: x00 :: x03 :: n :: r =>
      let name := take (Z.to_nat (bz n)) r in
      match drop (Z.to_nat (bz n)) r with
      | [hi; lo] => Some (name, bz hi * 256 + bz lo)
      | _ => None
      end
  | _ => None
  end.

(** The address a proxy may answer with. *)
Definition bound_shape (atyp : byte) (addr : bytes) : Prop :=
  (atyp = x01 /\ length addr = 6%nat) \/ (atyp = x04 /\ length addr = 18%nat)
  \/ (atyp = x03 /\ exists n r, addr = n :: r /\ length r = (Z.to_nat (bz n) + 2)%nat).

Lemma read_exact_ok e n s a r : read_exact e n s = Ok (a, r) <-> s = a ++ r /\ length a = n.
Proof.
  unfold read_exact. case_decide as H.
  - split; [done|]. intros [-> Hl]. rewrite length_app in H. lia.
  - split.
    + intros [= <- <-]. rewrite take_drop, length_take. split; [done|lia].
    + intros [-> <-]. by rewrite take_app_length, drop_app_length.
Qed.

Lemma request_parses h p : zlen h <= 255 -> 0 <= p <= u16_max -> parse_request (connect_request h p) = Some (h, p).
Proof.
  intros Hh Hp. unfold u16_max in Hp. unfold connect_request, be16, parse_request. cbn [app].
  pose proof (zlen_nonneg h). rewrite bz_zb by lia.
  replace (Z.to_nat (zlen h)) with (length h) by (unfold zlen; lia).
  rewrite take_app_length, drop_app_length.
  assert (bz (zb (p / 256)) = p / 256) as ->.
  { apply bz_zb. split; [apply Z.div_pos; lia|apply Z.div_lt_upper_bound; lia]. }
  assert (bz (zb p) = p mod 256) as ->.
  { replace (zb p) with (zb (p mod 256)) by (unfold zb; by rewrite Z.mod_mod).
    apply bz_zb, Z.mod_pos_bound. lia. }
  do 2 f_equal. rewrite (Z.div_mod p 256) at 3 by lia. lia.
Qed.

Lemma bound_address_ok e atyp s rest :
  bound_address e atyp s = Ok rest <-> exists addr, s = addr ++ rest /\ bound_shape atyp addr.
Proof.
  assert (forall n t, (let? r := read_exact e n t in Ok r.2) = Ok rest (E := SshError)
    <-> exists a, t = a ++ rest /\ length a = n) as Hr.
  { intros n t. destruct (read_exact e n t) as [[a r]|] eqn:E; cbn [rbind snd].
    - apply read_exact_ok in E as [-> Hl]. split; [intros [= ->]; by exists a|].
      intros (a' & Ha & Hl'). apply app_inj_1 in Ha as [_ ->]; [done|congruence].
    - split; [done|]. intros (a & Ha). apply (read_exact_ok e n t a rest) in Ha. congruence. }
  unfold bound_address, bound_shape. repeat case_decide; subst.
  - rewrite Hr. naive_solver.
  - rewrite Hr. naive_solver.
  - destruct s as [|n s].
    + split; [done|]. by intros (addr & Ha & [[? _]|[[? _]|(_ & n & r & -> & _)]]).
    + assert (read_exact e 1 (n :: s) = Ok ([n], s)) as -> by (by apply read_exact_ok).
      cbn [rbind fst snd]. rewrite Hr. split.
      * intros (a & -> & Hl). exists (n :: a). split; [done|]. right. right. split; [done|]. by exists n, a.
      * intros (addr & Ha & [[? _]|[[? _]|(_ & m & r & -> & Hl)]]); [done..|].
        injection Ha as -> ->. by exists r.
  - split; [done|]. by intros (addr & _ & [[? _]|[[? _]|[? _]]]).
Qed.

Lemma read_reply_ok e h p s rest :
  read_reply e h p s = Ok rest <->
  exists rsv atyp addr, s = [x05; x00; rsv; atyp] ++ addr ++ rest /\ bound_shape atyp addr.
Proof.
  unfold read_reply. destruct (read_exact e 4 s) as [[head s2]|x] eqn:E.
  2: { split; [done|]. intros (rsv & atyp & addr & -> & _). done. }
  apply read_exact_ok in E as [-> Hl]. destruct head as [|v [|rep [|rsv [|atyp [|]]]]]; try discriminate Hl.
  repeat case_decide; subst.
  - split; [done|]. intros (? & ? & ? & [=] & _). congruence.
  - split; [done|]. intros (? & ? & ? & [=] & _). congruence.
  - rewrite bound_address_ok. split.
    + intros (addr & -> & Hb). by exists rsv, atyp, addr.
    + intros (rsv' & atyp' & addr & Hs & Hb). injection Hs as -> -> ->. by exists addr.
Qed.

(** C25. The client connects exactly when the connection and both writes
    succeed, the proxy accepts the method without authentication, the name fits,
    and the reply is a success with a well-formed bound address; it then leaves
    exactly the bytes of the connection.  It writes the greeting once the
    connection is made, and, exactly when the proxy has accepted the method, the
    name fits and the write succeeds, one request after it, which a server reads
    as the name and port asked for; nothing else is written. (What is counted as
    written is what was written whole; the port is a 16-bit number.) *)
Theorem socks5_exact debug h p px : 0 <= p <= u16_max ->
  let written := (socks5_connect debug h p px).1 in
  let connected := px_connect px = None /\ px_greeting px = None in
  let agreed := [x05; x00] `prefix_of` px_sent px /\ zlen h <= 255 /\ px_request px = None in
  (forall rest, (socks5_connect debug h p px).2 = Ok rest <->
     connected /\ agreed /\ exists rsv atyp addr,
       px_sent px = [x05; x00] ++ [x05; x00; rsv; atyp] ++ addr ++ rest /\ bound_shape atyp addr)
  /\ (~ connected -> written = [])
  /\ (connected -> ~ agreed -> written = [greeting])
  /\ (connected -> agreed -> written = [greeting; connect_request h p]
        /\ parse_request (connect_request h p) = Some (h, p)).
Proof.
  intros Hp. cbn zeta. unfold socks5_connect.
  destruct (px_connect px); [split_and!; try done; naive_solver|].
  destruct (px_greeting px); [split_and!; try done; naive_solver|].
  destruct (read_exact _ 2 _) as [[reply s1]|e] eqn:E1.
  2: { assert (~ [x05; x00] `prefix_of` px_sent px) as Hno.
       { intros [r Er]. rewrite Er in E1. done. }
       split_and!; try done; naive_solver. }
  apply read_exact_ok in E1 as [-> Hl1]. case_decide as Hr.
  { assert (~ [x05; x00] `prefix_of` reply ++ s1) as Hno.
    { intros [r Er]. by apply app_inj_1 in Er as [-> _]. }
    split_and!; try done; naive_solver. }
  assert (reply = [x05; x00]) as -> by (by destruct (decide (reply = [x05; x00]))).
  assert ([x05; x00] `prefix_of` [x05; x00] ++ s1) as Hpre by (by eexists).
  case_decide as Hh; [split_and!; try done; intros; naive_solver lia|].
  destruct (px_request px); [split_and!; try done; naive_solver|]. cbn [fst snd]. split_and!.
  - intros rest. rewrite read_reply_ok. split.
    + intros (rsv & atyp & addr & -> & Hb). split; [done|]. split; [split_and!; [done|lia|done]|].
      by exists rsv, atyp, addr.
    + intros (_ & _ & rsv & atyp & addr & Hs & Hb). injection Hs as ->. by exists rsv, atyp, addr.
  - naive_solver.
  - intros _ Hn. exfalso. apply Hn. split_and!; [done|lia|done].
  - intros _ _. split; [done|]. apply request_parses; [lia|done].
Qed.

Definition sample_proxy : Proxy :=
  mkProxy None None None
    ([x05; x00] ++ [x05; x00; x00; x01] ++ [x00; x00; x00; x00; x00; x00] ++ bs "+OK")
    (Io "UnexpectedEof" []).

Lemma socks5_exact_witness :
  (socks5_connect (fun _ => []) (bs "redis.internal") 6379 sample_proxy).2 = Ok (bs "+OK") /\
  (socks5_connect (fun _ => []) (bs "redis.internal") 6379 sample_proxy).1 =
    [greeting; connect_request (bs "redis.internal") 6379].
Proof.
  destruct (socks5_exact (fun _ => []) (bs "redis.internal") 6379 sample_proxy) as (H1 & _ & _ & H4);
    [by vm_compute|].
  assert ([x05; x00] `prefix_of` px_sent sample_proxy /\ zlen (bs "redis.internal") <= 255 /\
    px_request sample_proxy = None) as Ha.
  { split_and!; [by eexists|by vm_compute|done]. }
  split; [|by apply H4]. apply H1. split; [done|]. split; [exact Ha|].
  exists x00, x01, [x00; x00; x00; x00; x00; x00]. split; [reflexivity|]. left. split; reflexivity.
Defined.

(** ** What the module's comments promise and the code does not do *)

(** A user that starts with a hyphen makes the last word an option: nothing ends
    the options before it. *)
Lemma user_becomes_option :
  last (socks5_argv (mkBastion (chars "jump") 22 (chars "-oProxyCommand=sh") [] None) 1)
    = Some (chars "-oProxyCommand=sh@jump")
  /\ chars "--" ∉ socks5_argv (mkBastion (chars "jump") 22 (chars "-oProxyCommand=sh") [] None) 1.
Proof. split; [by vm_compute|]. apply (bool_decide_unpack _). by vm_compute. Qed.

(** The user's configuration is said not to be read; no command line names
    another one with [-F]. *)
Lemma config_still_read b m internal local argv target :
  plan b m internal local = Ok (argv, target) ->
  exists pairs, argv = [chars "-N"; chars "-T"] ++ words pairs ++ [destination b] /\
    Forall (fun kv => kv.1 <> chars "-F") pairs.
Proof.
  intros (kv & Hkv & ->)%plan_shape. exists (option_pairs b ++ [kv]). split; [done|].
  apply Forall_app. split.
  - apply Forall_forall. intros x Hx%option_pairs_permitted.
    destruct Hx as [(v & _ & ->)|[->|[->|(id & _ & [->| ->])]]]; by vm_compute.
  - apply Forall_singleton. destruct m; [destruct internal as [[h p]|]|]; cbn [forward_pair] in Hkv;
      [subst kv; by vm_compute|done|subst kv; by vm_compute].
Qed.

(** A loopback port that another program took in between accepts as well: the
    tunnel counts as up while [ssh] is still starting. *)
Lemma foreign_listener_accepted :
  start sample_bastion Socks5 None 1000 0 (mkLaunch true (Ok 40001) None [mkRound (Ok None) true false])
  = Some ([Spawn 0 (chars "ssh") (socks5_argv sample_bastion 40001); Accepted 0],
          Ok (mkTunnel 0 40001 Socks5 (chars "jump:22"))).
Proof. by vm_compute. Qed.

(** A tunnel whose [ssh] has ended is handed out again. *)
Lemma dead_tunnel_reused p tr id t h pt timeout l :
  find_tunnel (address h pt) (tunnels p) = Some t -> child t = id -> id ∈ unreaped tr ->
  pool_step (p, tr) (p, tr ++ [Exits id]) /\ port_for p h pt timeout l = Some (p, [], Ok (local_port t)).
Proof. intros Hf Ht Hid. split; [by constructor|]. by apply port_for_exact. Qed.

(** When waiting for the child fails, the child is left running. *)
Lemma wait_error_leaks :
  match start sample_bastion Socks5 None 1000 0 (mkLaunch true (Ok 40001) None [mkRound (Err []) false false]) with
  | Some (eff, r) => unreaped eff = [0%nat] /\ is_ok r = false
  | None => False
  end.
Proof. by vm_compute. Qed.
