(* ===== verification/Tls.v ===== *)
(** * TLS with an explicit set of authorities ([crates/pr-transport/src/tls.rs])

    The TLS and hashing libraries are parameters: reading PEM, adding a root,
    names, keys, the client, and blake3.  The handshake is the list of what
    driving it returns. *)

From S2P Require Import Prelude Text TextFacts Request Oneshot.

Inductive TlsError :=
| CaBundle (e : str)
| EmptyCaBundle
| ClientCert (e : str)
| BadServerName (name : str)
| Verification (reason : str)
| TlsIo (e : str)
| Connect (e : CallError)
| Config (e : str).

(** [debug_str] is the [Debug] form of a string, [call_error] the text of a
    connection error. *)
Definition tls_message (debug_str : str -> str) (call_error : CallError -> str) (e : TlsError) : str :=
  match e with
  | CaBundle e => chars "the CA bundle is not valid PEM: " ++ e
  | EmptyCaBundle => chars "the CA bundle contains no certificate"
  | ClientCert e => chars "the client certificate is not usable: " ++ e
  | BadServerName n => debug_str n ++ chars " is not a name a certificate can be checked against"
  | Verification e => chars "TLS verification failed: " ++ e
  | TlsIo e => e
  | Connect e => call_error e
  | Config e => chars "TLS configuration rejected: " ++ e
  end.

(** An I/O error: its kind, its text, the errors below it and the one inside
    it; [Some] is the text of an error of the TLS library. *)
Record IoError := mkIoError {
  invalid_data : bool;
  io_text : str;
  sources : list (option str);
  inner : option (option str);
}.

Definition classify (e : IoError) : TlsError :=
  match head (omap id (sources e)) with
  | Some r => Verification r
  | None =>
      match inner e with
      | Some (Some r) => Verification r
      | _ => if invalid_data e then Verification (io_text e) else TlsIo (io_text e)
      end
  end.

Definition hex (b : bytes) : str := bz <$> (b ≫= hex2).

Inductive ServerName := DnsName (d : str) | IpAddress (ip : str) | OtherName.

(** What the client library is, as far as the code relies on it. *)
Record Library (Root Key Client : Type) := mkLibrary {
  pem_certificates : bytes -> list (result str bytes);
  add_root : bytes -> result str Root;
  parse_name : str -> option ServerName;
  pem_key : bytes -> result str Key;
  blake3 : bytes -> bytes;
  build_client : list Root -> option (list bytes * Key) -> result str Client;
  new_connection : Client -> ServerName -> result str unit;
}.
Arguments pem_certificates {_ _ _}.
Arguments add_root {_ _ _}.
Arguments parse_name {_ _ _}.
Arguments pem_key {_ _ _}.
Arguments blake3 {_ _ _}.
Arguments build_client {_ _ _}.
Arguments new_connection {_ _ _}.

Section Tls.
Context {Root Key Client : Type} (L : Library Root Key Client).

Record TlsConfig := mkTlsConfig {
  roots : list Root;
  ca_set_hash : bytes;
  server_name_of : ServerName;
  client_auth : option (list bytes * Key);
}.

(** What is hashed of a certificate. *)
Definition framed (cert : bytes) : bytes := le_bytes 8 (zlen cert) ++ cert.

(** The loop over the bundle: the roots, the bytes fed to the hasher and the
    count. *)
Fixpoint add_certificates (certs : list (result str bytes)) (rs : list Root) (hashed : bytes) (count : Z) :
    result TlsError (list Root * bytes * Z) :=
  match certs with
  | [] => Ok (rs, hashed, count)
  | Err e :: _ => Err (CaBundle e)
  | Ok cert :: r =>
      match add_root L cert with
      | Err e => Err (CaBundle e)
      | Ok root => add_certificates r (rs ++ [root]) (hashed ++ framed cert) (count + 1)
      end
  end.

Definition new_config (ca_pem : bytes) (name : str) : result TlsError TlsConfig :=
  let? x := add_certificates (pem_certificates L ca_pem) [] [] 0 in
  let '(rs, hashed, count) := x in
  if decide (count = 0) then Err EmptyCaBundle
  else
    match parse_name L name with
    | None => Err (BadServerName name)
    | Some n => Ok (mkTlsConfig rs (blake3 L hashed) n None)
    end.

(** [collect::<Result<_, _>>()]. *)
Fixpoint collect (certs : list (result str bytes)) : result str (list bytes) :=
  match certs with
  | [] => Ok []
  | Err e :: _ => Err e
  | Ok c :: r => let? cs := collect r in Ok (c :: cs)
  end.

Definition with_client_certificate (c : TlsConfig) (cert_pem key_pem : bytes) : result TlsError TlsConfig :=
  match collect (pem_certificates L cert_pem) with
  | Err e => Err (ClientCert e)
  | Ok [] => Err (ClientCert (chars "no certificate in the PEM"))
  | Ok chain =>
      match pem_key L key_pem with
      | Err e => Err (ClientCert e)
      | Ok key => Ok (mkTlsConfig (roots c) (ca_set_hash c) (server_name_of c) (Some (chain, key)))
      end
  end.

Definition server_name (c : TlsConfig) : str :=
  match server_name_of c with
  | DnsName d => d
  | IpAddress ip => ip
  | OtherName => chars "<unknown>"
  end.

(** The [Debug] form: name, hash, and whether there is a key. *)
Definition debug_fields (c : TlsConfig) : ServerName * str * bool :=
  (server_name_of c, hex (ca_set_hash c), bool_decide (client_auth c <> None)).

Definition build (c : TlsConfig) : result TlsError Client :=
  match build_client L (roots c) (client_auth c) with
  | Ok x => Ok x
  | Err e => Err (Config e)
  end.

(** One round of driving the handshake: whether it still goes on before the
    round, and what the round returns.  [None] while it goes on. *)
Fixpoint drive (rounds : list (bool * option IoError)) : option (result TlsError unit) :=
  match rounds with
  | [] => None
  | (false, _) :: _ => Some (Ok tt)
  | (true, Some e) :: _ => Some (Err (classify e))
  | (true, None) :: r => drive r
  end.

Definition handshake (c : TlsConfig) (flush : option IoError) (rounds : list (bool * option IoError)) :
    option (result TlsError (Client * ServerName)) :=
  match build c with
  | Err e => Some (Err e)
  | Ok client =>
      match new_connection L client (server_name_of c) with
      | Err e => Some (Err (Config e))
      | Ok _ =>
          match flush with
          | Some e => Some (Err (classify e))
          | None =>
              r ← drive rounds;
              Some (match r with Err e => Err e | Ok _ => Ok (client, server_name_of c) end)
          end
      end
  end.

(** The TCP target and the name that is verified are separate. *)
Definition connect (connect_tcp : str -> Z -> result CallError unit) (host : str) (port : Z) (c : TlsConfig)
    (flush : option IoError) (rounds : list (bool * option IoError)) :
    option (result TlsError (Client * ServerName)) :=
  match connect_tcp host port with
  | Err e => Some (Err (Connect e))
  | Ok _ => handshake c flush rounds
  end.

(** ** The configured identity *)

Lemma add_certificates_ok certs : forall rs h n out,
  add_certificates certs rs h n = Ok out <->
  exists cs new, certs = Ok <$> cs /\ Forall2 (fun c r => add_root L c = Ok r) cs new
    /\ out = (rs ++ new, h ++ (cs ≫= framed), n + zlen cs).
Proof.
  induction certs as [|[c|e] certs IH]; intros rs h n out; cbn [add_certificates].
  - split.
    + intros [= <-]. exists [], []. cbn. rewrite !app_nil_r, Z.add_0_r. by repeat constructor.
    + intros ([|] & new & Hc & Hf & ->); [|done]. inversion_clear Hf. cbn.
      by rewrite !app_nil_r, Z.add_0_r.
  - destruct (add_root L c) as [r|e] eqn:E.
    + rewrite IH. split.
      * intros (cs & new & -> & Hf & ->). exists (c :: cs), (r :: new).
        split; [done|]. split; [by constructor|]. cbn [mbind list_bind]. rewrite zlen_cons, <- !app_assoc.
        cbn [app]. f_equal. lia.
      * intros ([|c' cs] & new & Hc & Hf & ->); [done|]. injection Hc as <- ->.
        inversion_clear Hf as [|? r' ? new' Hr Hf']. rewrite E in Hr. injection Hr as <-.
        exists cs, new'. split; [done|]. split; [done|]. cbn [mbind list_bind].
        rewrite zlen_cons, <- !app_assoc. cbn [app]. f_equal. lia.
    + split; [done|]. intros ([|c' cs] & new & Hc & Hf & _); [done|]. injection Hc as <- _.
      inversion_clear Hf. congruence.
  - split; [done|]. intros ([|c' cs] & new & Hc & _); done.
Qed.

Lemma framed_inj cs : forall ds, Forall (fun c => in_u64 (zlen c)) cs -> Forall (fun c => in_u64 (zlen c)) ds ->
  cs ≫= framed = ds ≫= framed -> cs = ds.
Proof.
  induction cs as [|c cs IH]; intros [|d ds] Hc Hd; cbn [mbind list_bind]; try done.
  inversion_clear Hc as [|? ? Hc0 Hcs]. inversion_clear Hd as [|? ? Hd0 Hds]. unfold framed at 1 3.
  rewrite <- !app_assoc. intros [En E]%len_prefix_app; [|done..].
  apply app_inj_1 in E as [-> E]; [|unfold zlen in En; lia]. f_equal. by apply IH.
Qed.

Lemma oks_inj {E A} (l k : list A) : (Ok (E := E) <$> l) = (Ok <$> k) -> l = k.
Proof.
  revert k. induction l as [|x l IH]; intros [|y k]; cbn [fmap list_fmap]; try done.
  intros [= -> H]. f_equal. by apply IH.
Qed.

Lemma roots_unique cs rs rs' : Forall2 (fun x r => add_root L x = Ok r) cs rs ->
  Forall2 (fun x r => add_root L x = Ok r) cs rs' -> rs = rs'.
Proof.
  intros Hf. revert rs'. induction Hf as [|x r cs rs Hx _ IH]; intros rs' Hf';
    inversion_clear Hf' as [|? r' ? rs'' Hx' Hf'']; [done|]. rewrite Hx in Hx'. injection Hx' as <-.
  f_equal. by apply IH.
Qed.

Definition configured (pem : bytes) (name : str) (c : TlsConfig) : Prop :=
  exists certs rs n, pem_certificates L pem = Ok <$> certs /\ certs <> []
    /\ Forall2 (fun x r => add_root L x = Ok r) certs rs /\ parse_name L name = Some n
    /\ c = mkTlsConfig rs (blake3 L (certs ≫= framed)) n None.

Lemma new_config_ok pem name c : new_config pem name = Ok c <-> configured pem name c.
Proof.
  unfold new_config, configured.
  destruct (add_certificates (pem_certificates L pem) [] [] 0) as [[[rs h] n]|e] eqn:E; cbn [rbind].
  - apply add_certificates_ok in E as (cs & new & Hp & Hf & [= -> -> ->]). cbn [app].
    assert (0 + zlen cs = 0 <-> cs = []) as Hz.
    { destruct cs; [done|]. rewrite zlen_cons. split; [|done].
      intros H. pose proof (zlen_nonneg cs). exfalso. lia. }
    split.
    + case_decide as Hc; [done|]. destruct (parse_name L name) as [m|]; [|done]. intros [= <-].
      exists cs, new, m. split_and!; try done. tauto.
    + intros (cs' & rs' & m & Hp' & Hne & Hf' & Hm & ->). rewrite Hp in Hp'. apply oks_inj in Hp' as <-.
      rewrite decide_False by tauto. rewrite Hm. by rewrite (roots_unique _ _ _ Hf Hf').
  - split; [done|]. intros (cs & rs & m & Hp & _ & Hf & _).
    assert (add_certificates (pem_certificates L pem) [] [] 0 = Ok (rs, cs ≫= framed, zlen cs)) as E'.
    { apply add_certificates_ok. by exists cs, rs. }
    congruence.
Qed.

(** A configuration exists exactly when every certificate of the bundle
    reads and is accepted as a root, there is one, and the name can be
    verified; its roots are then those of exactly these certificates.  Two
    configurations with one hash have the same certificates in the same
    order, or there is a collision of the hash. *)
Theorem config_exact pem name :
  (forall c, new_config pem name = Ok c <-> configured pem name c)
  /\ (forall pem' name' c c' certs certs', new_config pem name = Ok c -> new_config pem' name' = Ok c' ->
       pem_certificates L pem = Ok <$> certs -> pem_certificates L pem' = Ok <$> certs' ->
       Forall (fun x => in_u64 (zlen x)) certs -> Forall (fun x => in_u64 (zlen x)) certs' ->
       ca_set_hash c = ca_set_hash c' ->
       certs = certs' \/ exists x y, x <> y /\ blake3 L x = blake3 L y).
Proof.
  split; [apply new_config_ok|]. intros pem' name' c c' certs certs' H1 H2 Hp Hp' Hc Hc' Hh.
  apply new_config_ok in H1 as (cs & rs & n & Hcs & _ & _ & _ & ->),
    H2 as (cs' & rs' & n' & Hcs' & _ & _ & _ & ->).
  rewrite Hp in Hcs. rewrite Hp' in Hcs'. apply oks_inj in Hcs as <-, Hcs' as <-.
  cbn [ca_set_hash] in Hh. destruct (decide (certs ≫= framed = certs' ≫= framed)) as [E|E].
  - left. by apply framed_inj.
  - right. by eexists _, _.
Qed.

(** A connection is returned only when the client built from the configured
    roots says the handshake is over, for the configured name, whatever host
    was connected to. *)
Theorem connected_verified connect_tcp host port c flush rounds client name :
  connect connect_tcp host port c flush rounds = Some (Ok (client, name)) ->
  build_client L (roots c) (client_auth c) = Ok client /\ name = server_name_of c
  /\ new_connection L client name = Ok tt /\ flush = None
  /\ exists before e after, rounds = before ++ (false, e) :: after /\ Forall (fun r => r = (true, None)) before.
Proof.
  unfold connect, handshake, build. destruct (connect_tcp host port); [|done].
  destruct (build_client _ _ _) as [cl|]; [|done].
  destruct (new_connection L cl _) as [[]|] eqn:En; [|done]. destruct flush; [done|].
  destruct (drive rounds) as [[[]|]|] eqn:Ed; [|done..]. cbn [mbind option_bind]. intros [= <- <-].
  split_and!; try done. revert Ed. clear. induction rounds as [|[[|] e] rounds IH]; cbn [drive]; [done|..].
  - destruct e; [done|]. intros (b & e & a & -> & Hb)%IH. exists ((true, None) :: b), e, a. by split; [|constructor].
  - intros _. by exists [], e, rounds.
Qed.

End Tls.

(** ** A concrete library *)

(** One certificate per byte; a root is its certificate, and the hash the
    bytes themselves. *)
Definition sample_library : Library bytes bytes (list bytes) :=
  mkLibrary _ _ _ (fun b => Ok <$> ((fun x => [x]) <$> b)) Ok
    (fun n => if decide (n = []) then None else Some (DnsName n)) Ok (fun b => b)
    (fun rs _ => Ok rs) (fun _ _ => Ok tt).

Lemma config_exact_witness :
  is_ok (new_config sample_library [] (chars "redis.internal")) = false
  /\ (forall c, new_config sample_library [x01; x02] (chars "redis.internal") = Ok c <->
        configured sample_library [x01; x02] (chars "redis.internal") c)
  /\ ([[x01]; [x02]] = [[x01]; [x02]]
      \/ exists x y, x <> y /\ blake3 sample_library x = blake3 sample_library y).
Proof.
  split; [reflexivity|]. split.
  - apply (config_exact sample_library [x01; x02] (chars "redis.internal")).
  - destruct (config_exact sample_library [x01; x02] (chars "redis.internal")) as [_ H].
    eapply (H [x01; x02] (chars "other")); [reflexivity|reflexivity|reflexivity|reflexivity|..|reflexivity];
      repeat constructor; vm_compute; congruence.
Defined.
