(* ===== verification/Probe.v ===== *)
(** * Measuring what the terminal does ([crates/pr-terminal/src/probe.rs])

    The terminal is a state and what one exchange with it answers.  The probe
    decides how tables are drawn ([Table]). *)

From S2P Require Import Prelude Text TextFacts Lines Width Table.

Record Sample := mkSample { ch : Z; assumed : Z; measured : Z }.

#[export] Instance Sample_eq_dec : EqDecision Sample.
Proof. solve_decision. Defined.

Definition agrees (s : Sample) : bool := bool_decide (assumed s = measured s).

Inductive ProbeError := NotATty | NoReply | BadReply.

Definition probe_error_message (e : ProbeError) : str :=
  match e with
  | NotATty => chars "width probing needs a terminal; output is not a tty"
  | NoReply => chars "the terminal did not report a cursor position"
  | BadReply => chars "unrecognised reply to the cursor position request"
  end.

Definition representative_chars : list Z := [20013; 8594; 177; 167; 9312; 128039; 769].

Definition QUERY : bytes := x1b :: bs "[6n".
Definition CLEAR : bytes := [x0d; x1b] ++ bs "[K".

Definition probe_sequence (c : Z) : bytes := CLEAR ++ encode_char c ++ QUERY.
Definition probe_cleanup : bytes := CLEAR.

(** What follows the last [ESC \[]. *)
Fixpoint after_last_csi (b : bytes) : option bytes :=
  match b with
  | [] => None
  | c :: r =>
      match after_last_csi r with
      | Some u => Some u
      | None =>
          match r with
          | d :: r' => if decide (c = x1b /\ d = "["%byte) then Some r' else None
          | [] => None
          end
      end
  end.

(** The bytes before the first [R], if there is one. *)
Fixpoint before_r (b : bytes) : option bytes :=
  match b with
  | [] => None
  | c :: r => if decide (c = "R"%byte) then Some [] else x ← before_r r; Some (c :: x)
  end.

Definition parse_usize (s : str) : option Z := parse_unsigned usize_max (encode_str (trim s)).

Definition parse_cursor_report (b : bytes) : option (Z * Z) :=
  r ← after_last_csi b; body ← before_r r; text ← from_utf8 body;
  '(row, col) ← split_once 59 text;
  row ← parse_usize row; col ← parse_usize col; Some (row, col).

Record Conclusion := mkConclusion { disagreements : list Sample; draw : DrawMode }.

Definition conclude (samples : list Sample) : Conclusion :=
  let ds := filter (fun s => agrees s = false) samples in
  mkConclusion ds (if decide (ds = []) then Padded else CursorReset).

Section Run.
Context `{W : UnicodeWidth} {S : Type} (exchange : bytes -> S -> option bytes * S).

(** The loop over the characters. *)
Fixpoint probe_loop (p : WidthPolicy) (cs : list Z) (s : S) : result ProbeError (list Sample) * S :=
  match cs with
  | [] => (Ok [], s)
  | c :: r =>
      match exchange (probe_sequence c) s with
      | (None, s) => (Err NoReply, s)
      | (Some reply, s) =>
          match parse_cursor_report reply with
          | None => (Err BadReply, s)
          | Some (_, col) =>
              let sample := mkSample c (char_width p c) (Z.max 0 (col - 1)) in
              let '(rest, s) := probe_loop p r s in
              (let? samples := rest in Ok (sample :: samples), s)
          end
      end
  end.

Definition run (p : WidthPolicy) (is_tty : bool) (s : S) : result ProbeError (list Sample) * S :=
  if negb is_tty then (Err NotATty, s)
  else
    match probe_loop p representative_chars s with
    | (Ok samples, s) => (Ok samples, (exchange probe_cleanup s).2)
    | (Err e, s) => (Err e, s)
    end.

End Run.

(** ** The real terminal *)

(** What the process can do with its terminal: whether output is one, raw
    mode, writing, and where the cursor is (column and row, from 0). *)
Class TerminalIo (S : Type) := {
  is_terminal : S -> bool;
  is_raw : S -> bool;
  enable_raw : S -> bool * S;
  disable_raw : S -> S;
  write_all : bytes -> S -> bool * S;
  position : S -> option (Z * Z) * S;
}.

Section Terminal.
Context `{W : UnicodeWidth} {S : Type} `{T : TerminalIo S}.

Definition cursor_report (row col : Z) : bytes :=
  x1b :: bs "[" ++ print_unsigned (row + 1) ++ bs ";" ++ print_unsigned (col + 1) ++ bs "R".

Definition ask_where_the_cursor_is (s : S) : option bytes * S :=
  let '(pos, s) := position s in ('(col, row) ← pos; Some (cursor_report row col), s).

Definition strip_suffix (suffix b : bytes) : option bytes :=
  if decide (drop (length b - length suffix) b = suffix) then Some (take (length b - length suffix) b) else None.

(** The closure handed to [run]. *)
Definition exchange_terminal (b : bytes) (s : S) : option bytes * S :=
  let body := default b (strip_suffix QUERY b) in
  match write_all body s with
  | (false, s) => (None, s)
  | (true, s) =>
      match strip_suffix QUERY b with
      | None => (Some [], s)
      | Some _ => ask_where_the_cursor_is s
      end
  end.

Definition run_on_terminal (p : WidthPolicy) (s : S) : result ProbeError (list Sample) * S :=
  if negb (is_terminal s) then (Err NotATty, s)
  else
    let was_raw := is_raw s in
    let '(raw, s) := if was_raw then (true, s) else enable_raw s in
    if negb raw then (Err NotATty, s)
    else
      let '(r, s) := run exchange_terminal p true s in
      (r, if was_raw then s else disable_raw s).

End Terminal.

(** ** The report is understood *)

Lemma after_last_csi_app noise b u : after_last_csi b = Some u -> after_last_csi (noise ++ b) = Some u.
Proof. intros Hb. induction noise as [|c noise IH]; [done|]. cbn [app after_last_csi]. by rewrite IH. Qed.

Lemma no_csi b : x1b ∉ b -> after_last_csi b = None.
Proof.
  induction b as [|c b IH]; [done|]. intros [Hc Hb]%not_elem_of_cons. cbn [after_last_csi].
  rewrite IH by done. destruct b; [done|]. rewrite decide_False; [done|]. by intros [? _].
Qed.

Lemma before_r_app a b : "R"%byte ∉ a -> before_r (a ++ "R"%byte :: b) = Some a.
Proof.
  induction a as [|c a IH]; [done|]. intros [Hc Ha]%not_elem_of_cons. cbn [app before_r].
  rewrite decide_False by done. by rewrite IH.
Qed.

Lemma digits_apart n c : 0 <= n -> is_ascii_digit c = false -> c ∉ print_unsigned n.
Proof.
  intros Hn Hc Hin. destruct (print_unsigned_spec n Hn) as (_ & Hf & _).
  rewrite Forall_forall in Hf. rewrite (Hf _ Hin) in Hc. done.
Qed.

Lemma parse_usize_print n : 0 <= n <= usize_max -> parse_usize (bz <$> print_unsigned n) = Some n.
Proof.
  intros Hn. unfold parse_usize. destruct (print_unsigned_spec n) as (_ & Hf & _); [lia|].
  assert (Forall graphic (print_unsigned n)) as Hg by (by apply digit_graphic).
  rewrite graphic_trim by done. rewrite encode_str_ascii by (by apply graphic_ascii).
  by apply parse_unsigned_print.
Qed.

(** A report is read back whatever arrived before it. *)
Lemma report_roundtrip noise row col tail :
  0 <= row < usize_max -> 0 <= col < usize_max -> x1b ∉ tail ->
  parse_cursor_report (noise ++ cursor_report row col ++ tail) = Some (row + 1, col + 1).
Proof.
  intros Hr Hc Ht. unfold parse_cursor_report, cursor_report.
  set (body := print_unsigned (row + 1) ++ bs ";" ++ print_unsigned (col + 1)).
  assert (forall c, is_ascii_digit c = false -> c <> ";"%byte -> c ∉ body) as Hb.
  { intros c Hd Hs. unfold body. rewrite !not_elem_of_app. split_and!; [by apply digits_apart; [lia|]| |by apply digits_apart; [lia|]].
    by intros ->%list_elem_of_singleton. }
  assert (after_last_csi ((x1b :: bs "[" ++ print_unsigned (row + 1) ++ bs ";" ++ print_unsigned (col + 1) ++ bs "R") ++ tail)
          = Some (body ++ "R"%byte :: tail)) as E.
  { change (after_last_csi (x1b :: "["%byte :: (print_unsigned (row + 1) ++ bs ";" ++ print_unsigned (col + 1) ++ bs "R") ++ tail)
            = Some (body ++ "R"%byte :: tail)).
    assert ((print_unsigned (row + 1) ++ bs ";" ++ print_unsigned (col + 1) ++ bs "R") ++ tail = body ++ "R"%byte :: tail) as ->
      by (unfold body; by rewrite <- !app_assoc).
    assert (x1b ∉ body ++ "R"%byte :: tail) as Hn.
    { rewrite not_elem_of_app, not_elem_of_cons. split_and!; [by apply Hb|done|done]. }
    assert (after_last_csi ("["%byte :: body ++ "R"%byte :: tail) = None) as Hn'.
    { apply no_csi. rewrite not_elem_of_cons. by split. }
    cbn [after_last_csi] in *. rewrite (no_csi _ Hn) in *. by rewrite Hn', decide_True. }
  rewrite (after_last_csi_app noise _ _ E). cbn [mbind option_bind].
  rewrite before_r_app by (by apply Hb). cbn [mbind option_bind].
  assert (Forall (fun b => bz b < 128) body) as Ha.
  { destruct (print_unsigned_spec (row + 1)) as (_ & H1 & _); [lia|].
    destruct (print_unsigned_spec (col + 1)) as (_ & H2 & _); [lia|].
    unfold body. rewrite !Forall_app. split_and!; [by apply graphic_ascii, digit_graphic|by repeat constructor|by apply graphic_ascii, digit_graphic]. }
  rewrite from_utf8_ascii by done. cbn [mbind option_bind]. unfold body. rewrite !fmap_app.
  change ((bz <$> bs ";") ++ ?x) with (59 :: x). rewrite split_once_app.
  - cbn [mbind option_bind]. rewrite parse_usize_print by lia. cbn [mbind option_bind].
    by rewrite parse_usize_print by lia.
  - intros (b & Hb' & Hin)%list_elem_of_fmap.
    assert (b = ";"%byte) as -> by (apply bz_inj; by rewrite <- Hb').
    by apply (digits_apart (row + 1) ";"%byte) in Hin; [|lia|].
Qed.

(** ** What the probe concludes *)

Section Exact.
Context `{W : UnicodeWidth} (tw : Z -> Z).

(** A terminal that draws [c] in [tw c] columns and reports its cursor, with
    whatever the user typed before the report, and after it what holds no escape. *)
Definition honest {S} (exchange : bytes -> S -> option bytes * S) : Prop :=
  forall c s, c ∈ representative_chars -> exists noise row tail s',
    0 <= row < usize_max /\ 0 <= tw c < usize_max /\ (x1b ∉ tail)
    /\ exchange (probe_sequence c) s = (Some (noise ++ cursor_report row (tw c) ++ tail), s').

Definition true_samples (p : WidthPolicy) (cs : list Z) : list Sample :=
  (fun c => mkSample c (char_width p c) (tw c)) <$> cs.

Lemma probe_loop_exact {S} (exchange : bytes -> S -> option bytes * S) p cs : honest exchange ->
  (forall c, c ∈ cs -> c ∈ representative_chars) ->
  forall s, exists s', probe_loop exchange p cs s = (Ok (true_samples p cs), s').
Proof.
  intros Hh. induction cs as [|c cs IH]; intros Hcs s; cbn [probe_loop]; [by exists s|].
  destruct (Hh c s) as (noise & row & tail & s1 & Hr & Hw & Ht & ->); [apply Hcs; by left|].
  rewrite report_roundtrip by done. destruct (IH (fun d Hd => Hcs d (list_elem_of_further _ _ _ Hd)) s1) as [s2 ->].
  exists s2. cbn [rbind]. cbn [true_samples fmap list_fmap]. by replace (Z.max 0 (tw c + 1 - 1)) with (tw c) by lia.
Qed.

Lemma conclude_padded samples :
  draw (conclude samples) = Padded <-> Forall (fun s => assumed s = measured s) samples.
Proof.
  unfold conclude. cbn [draw]. induction samples as [|x xs IH]; [by split|].
  rewrite Forall_cons. destruct (agrees x) eqn:E.
  - rewrite filter_cons_False by (by rewrite E). apply bool_decide_eq_true in E. tauto.
  - rewrite filter_cons_True by done. rewrite decide_False by done.
    apply bool_decide_eq_false in E. split; [done|tauto].
Qed.

Lemma true_samples_agree p cs :
  Forall (fun s => assumed s = measured s) (true_samples p cs) <-> forall c, c ∈ cs -> tw c = char_width p c.
Proof.
  unfold true_samples. rewrite Forall_fmap, Forall_forall. unfold compose. cbn [assumed measured].
  split; intros H c Hc; by rewrite H.
Qed.

(** C36. Against a terminal that answers every query with the cursor's position,
    whatever arrives before a report and whatever without an escape arrives after
    it ([late_key_hides_report] is what happens otherwise), the probe measures what the terminal does, character for
    character, and tables go on being padded exactly when the terminal and the
    policy agree on every probed character. *)
Theorem probe_exact {S} (exchange : bytes -> S -> option bytes * S) p s : honest exchange ->
  exists samples s', run exchange p true s = (Ok samples, s')
    /\ samples = true_samples p representative_chars
    /\ (draw (conclude samples) = Padded <-> forall c, c ∈ representative_chars -> tw c = char_width p c).
Proof.
  intros Hh. unfold run. cbn [negb].
  destruct (probe_loop_exact exchange p representative_chars Hh (fun c Hc => Hc) s) as [s' ->].
  eexists _, _. split; [reflexivity|]. split; [done|]. by rewrite conclude_padded, true_samples_agree.
Qed.

(** Output that is not a terminal is not written to. *)
Lemma not_a_tty {S} (exchange : bytes -> S -> option bytes * S) p s :
  run exchange p false s = (Err NotATty, s).
Proof. done. Qed.

(** The terminal of the process: a probe that is written is answered, raw mode
    is what was last asked for, and the rest leaves it alone. *)
Class TerminalLaws {S} (T : TerminalIo S) : Prop := {
  probe_answered c s : c ∈ representative_chars -> exists s' row s'',
    write_all (CLEAR ++ encode_char c) s = (true, s') /\ position s' = (Some (tw c, row), s'')
    /\ 0 <= row < usize_max /\ 0 <= tw c < usize_max;
  raw_enabled s : is_raw (enable_raw s).2 = (enable_raw s).1 || is_raw s;
  raw_disabled s : is_raw (disable_raw s) = false;
  raw_written b s : is_raw (write_all b s).2 = is_raw s;
  raw_position s : is_raw (position s).2 = is_raw s;
}.

Context {S : Type} (T : TerminalIo S) {TL : TerminalLaws T}.

Lemma strip_suffix_app a b : strip_suffix b (a ++ b) = Some a.
Proof.
  unfold strip_suffix. rewrite length_app, Nat.add_sub. by rewrite drop_app_length, decide_True, take_app_length.
Qed.

Lemma exchange_honest : honest (@exchange_terminal S T).
Proof.
  intros c s Hc. unfold exchange_terminal, probe_sequence. rewrite app_assoc, strip_suffix_app. cbn [default].
  destruct (probe_answered c s Hc) as (s' & row & s'' & Hw & Hp & Hr & Ht). unfold id. rewrite Hw.
  unfold ask_where_the_cursor_is. rewrite Hp. exists [], row, [], s''.
  split_and!; try lia; [apply not_elem_of_nil|]. cbn [app]. by rewrite app_nil_r.
Qed.

Lemma exchange_raw b s : is_raw (exchange_terminal b s).2 = is_raw s.
Proof.
  unfold exchange_terminal. pose proof (raw_written (default b (strip_suffix QUERY b)) s) as Hw.
  destruct (write_all _ s) as [[] s']; cbn [snd] in Hw; [|done].
  destruct (strip_suffix QUERY b); [|done]. unfold ask_where_the_cursor_is.
  pose proof (raw_position s') as Hp. destruct (position s') as [pos s'']. cbn [snd] in *. congruence.
Qed.

Lemma run_raw p s : is_raw (run exchange_terminal p true s).2 = is_raw s.
Proof.
  assert (forall cs s, is_raw (probe_loop exchange_terminal p cs s).2 = is_raw s) as Hl.
  { induction cs as [|c cs IH]; intros t; cbn [probe_loop]; [done|].
    pose proof (exchange_raw (probe_sequence c) t) as He.
    destruct (exchange_terminal (probe_sequence c) t) as [[reply|] t']; cbn [snd] in He; [|done].
    destruct (parse_cursor_report reply) as [[_ col]|]; [|done]. specialize (IH t').
    destruct (probe_loop _ p cs t') as [rest t'']. cbn [snd] in *. congruence. }
  unfold run. cbn [negb]. specialize (Hl representative_chars s).
  destruct (probe_loop _ _ _ _) as [[samples|] t]; cbn [snd] in *; [|done]. by rewrite exchange_raw.
Qed.

(** Whatever happens, raw mode is afterwards what it was before; and where the
    mode can be had, the probe of the real terminal is exact. *)
Theorem run_on_terminal_exact p s : is_terminal s = true ->
  is_raw (run_on_terminal p s).2 = is_raw s
  /\ (is_raw s = true \/ (enable_raw s).1 = true ->
      (run_on_terminal p s).1 = Ok (true_samples p representative_chars)).
Proof.
  intros Ht. unfold run_on_terminal. rewrite Ht. cbn [negb]. pose proof (raw_enabled s) as He.
  assert (forall t, (run exchange_terminal p true t).1 = Ok (true_samples p representative_chars)) as Hx.
  { intros t. unfold run. cbn [negb].
    by destruct (probe_loop_exact exchange_terminal p representative_chars exchange_honest (fun c Hc => Hc) t)
      as [t' ->]. }
  destruct (is_raw s) eqn:E.
  - cbn [negb]. pose proof (run_raw p s) as Hr. specialize (Hx s).
    destruct (run exchange_terminal p true s) as [r t]. cbn [fst snd] in *. split; [congruence|done].
  - destruct (enable_raw s) as [ok t]. cbn [fst snd] in *. rewrite orb_false_r in He.
    destruct ok; cbn [negb].
    + specialize (Hx t). destruct (run exchange_terminal p true t) as [r t']. cbn [fst snd] in *.
      split; [apply raw_disabled|done].
    + cbn [fst snd]. split; [done|]. by intros [|].
Qed.

End Exact.

(** ** Witnesses *)

(** A terminal that draws every character in one column, on its third row,
    while the user types an arrow key and an R. *)
Definition one_column (b : bytes) (n : nat) : option bytes * nat :=
  (Some ([x1b] ++ bs "[AR" ++ cursor_report 2 1), S n).

Lemma probe_exact_witness :
  exists samples s', run one_column narrow true 0%nat = (Ok samples, s')
    /\ samples = true_samples (fun _ => 1) narrow representative_chars
    /\ (draw (conclude samples) = Padded <->
        forall c, c ∈ representative_chars -> 1 = char_width narrow c).
Proof.
  apply (probe_exact (fun _ => 1) one_column narrow 0%nat).
  intros c s Hc. exists ([x1b] ++ bs "[AR"), 2, [], (S s).
  split_and!; [by vm_compute..|apply not_elem_of_nil|]. unfold one_column. by rewrite app_nil_r.
Defined.

(** ** What the module does not do *)

(** A key pressed after the report hides it: the last [ESC \[] is taken, and
    an arrow key is one. *)
Lemma late_key_hides_report :
  parse_cursor_report (cursor_report 2 1 ++ [x1b] ++ bs "[A") = None.
Proof. by vm_compute. Qed.

(** A probe that fails leaves the probed character on the screen: only a
    complete run clears the line. *)
Lemma failed_probe_leaves_line :
  run (fun b (s : list bytes) => (None, s ++ [b])) narrow true []
  = (Err NoReply, [probe_sequence 20013]).
Proof. by vm_compute. Qed.
