(* ===== verification/Keys.v ===== *)
(** * Keys and their text entries
    ([crates/pr-terminal/src/bridge.rs], [crates/pr-repl/src/entries.rs])

    What the terminal library delivers becomes the inputs of [Terminal]; every
    function has a key, which can be remapped, and a text, which cannot. *)

From S2P Require Import Prelude Text TextFacts Terminal.

(** ** Events of the terminal library

    The variants the code tells apart; every other key code is [OtherCode]. *)

Inductive KeyEventKind := Press | Repeat | Release.

Inductive KeyCode :=
| CChar (c : Z)
| CBackspace | CEnter | CTab | CEsc | CUp | CDown | CLeft | CRight
| CF (n : Z)
| OtherCode.

Record KeyEvent := mkKeyEvent { code : KeyCode; control : bool; key_kind : KeyEventKind }.

Inductive Event :=
| EKey (k : KeyEvent)
| EPaste (s : str)
| EResize (cols rows : Z)
| EFocusGained
| EFocusLost
| EMouse.

Definition to_ascii_lowercase_char (c : Z) : Z := if decide (65 <= c <= 90) then c + 32 else c.

Definition translate_key (k : KeyEvent) : option Key :=
  match key_kind k with
  | Release => None
  | Press | Repeat =>
      match code k with
      | CChar c => if control k then Some (KCtrl (to_ascii_lowercase_char c)) else Some (KChar c)
      | CBackspace => Some KBackspace
      | CEnter => Some KEnter
      | CTab => Some KTab
      | CEsc => Some KEsc
      | CUp => Some KUp
      | CDown => Some KDown
      | CLeft => Some KLeft
      | CRight => Some KRight
      | CF n => Some (KFunction n)
      | OtherCode => None
      end
  end.

Definition translate (e : Event) : option Input :=
  match e with
  | EKey k => IKey <$> translate_key k
  | EPaste s => Some (IPaste (encode_str s))
  | EResize cols rows => Some (IResize cols rows)
  | EFocusGained | EFocusLost | EMouse => None
  end.

(** ** The table of functions *)

Record KeyEntry := mkEntry { function : str; default_key : str; command : str }.

#[export] Instance KeyEntry_eq_dec : EqDecision KeyEntry.
Proof. solve_decision. Defined.

Definition entry_text (e : KeyEntry) : str := command e.

Definition key_is_contended (e : KeyEntry) : bool :=
  bool_decide (head (default_key e) = Some 70) || contains_str (chars "Ctrl+") (default_key e).

Definition ENTRIES : list KeyEntry :=
  [mkEntry (chars "full command and argument help") (chars "F1") (chars ":help");
   mkEntry (chars "find a command or tool by purpose") (chars "F2") (chars ":find");
   mkEntry (chars "build the current command step by step") (chars "F3") (chars ":guide");
   mkEntry (chars "focus the TUI command box") (chars "F4") (chars ":focus command");
   mkEntry (chars "explicit candidate discovery") (chars "F6") (chars ":complete");
   mkEntry (chars "history search") (chars "Ctrl+R") (chars ":history");
   mkEntry (chars "cancel input or the current wait") (chars "Ctrl+C") [];
   mkEntry (chars "leave the REPL") (chars "Ctrl+D on an empty line") (chars "exit")].

Definition entry_for (f : str) : option KeyEntry := List.find (fun e => bool_decide (function e = f)) ENTRIES.

Definition text_entries : list (str * str) :=
  (fun e => (function e, command e)) <$> filter (fun e => command e <> []) ENTRIES.

Record KeyMap := mkKeyMap { overrides : list (str * str) }.

Definition new_key_map : KeyMap := mkKeyMap [].

Definition remap (m : KeyMap) (f key : str) : KeyMap :=
  mkKeyMap (filter (fun fk => fk.1 <> f) (overrides m) ++ [(f, key)]).

Definition key_for (m : KeyMap) (f : str) : option str :=
  match List.find (fun fk => bool_decide (fk.1 = f)) (overrides m) with
  | Some (_, k) => Some k
  | None => default_key <$> entry_for f
  end.

Definition text_for (m : KeyMap) (f : str) : option str :=
  e ← entry_for f; if decide (entry_text e = []) then None else Some (entry_text e).

(** ** Properties *)

Definition is_release (e : Event) : bool :=
  match e with
  | EKey k => match key_kind k with Release => true | _ => false end
  | _ => false
  end.

(** A release gives nothing: however presses, repetitions and releases are
    interleaved, the inputs are those without the releases, and a press and a
    repetition of a key give the same. *)
Theorem releases_ignored (evs : list Event) :
  omap translate evs = omap translate (filter (fun e => is_release e = false) evs)
  /\ forall c ctl, translate_key (mkKeyEvent c ctl Repeat) = translate_key (mkKeyEvent c ctl Press).
Proof.
  split; [|done]. induction evs as [|e evs IH]; [done|]. destruct (is_release e) eqn:E.
  - rewrite filter_cons_False by congruence. cbn [omap list_omap].
    assert (translate e = None) as ->; [|done].
    destruct e as [k| | | | |]; try done. cbn in *. unfold translate_key. by destruct (key_kind k).
  - rewrite filter_cons_True by done. cbn [omap list_omap]. by rewrite IH.
Qed.

(** Every function but cancelling can be reached by typing, whatever was
    remapped, and no two by the same text. *)
Theorem reachable_by_text m :
  (forall e, e ∈ ENTRIES -> function e <> chars "cancel input or the current wait" ->
     text_for m (function e) = Some (command e) /\ command e <> [])
  /\ NoDup (text_entries.*2) /\ NoDup (function <$> ENTRIES).
Proof.
  split; [|split; apply (bool_decide_unpack _); vm_compute; exact I].
  assert (Forall (fun e => function e <> chars "cancel input or the current wait" ->
    text_for m (function e) = Some (command e) /\ command e <> []) ENTRIES) as H.
  { unfold ENTRIES. repeat (apply Forall_cons_2; [intros He; first [by destruct He | by split; vm_compute]|]).
    apply Forall_nil_2. }
  intros e He. by eapply Forall_forall in H.
Qed.

Lemma find_filter_none f (l : list (str * str)) :
  List.find (fun fk => bool_decide (fk.1 = f)) (filter (fun fk => fk.1 <> f) l) = None.
Proof.
  induction l as [|x l IH]; [done|]. destruct (decide (x.1 = f)) as [E|E].
  - by rewrite filter_cons_False by (intros H; apply H, E).
  - rewrite filter_cons_True by done. cbn [List.find]. by rewrite bool_decide_false.
Qed.

Lemma find_filter_other f g (l : list (str * str)) : f <> g ->
  List.find (fun fk => bool_decide (fk.1 = g)) (filter (fun fk => fk.1 <> f) l)
  = List.find (fun fk => bool_decide (fk.1 = g)) l.
Proof.
  intros Hfg. induction l as [|x l IH]; [done|]. destruct (decide (x.1 = f)) as [E|E].
  - rewrite filter_cons_False by (intros H; apply H, E). cbn [List.find].
    rewrite bool_decide_false by congruence. done.
  - rewrite filter_cons_True by done. cbn [List.find]. by rewrite IH.
Qed.

Lemma find_app (P : str * str -> bool) l x :
  List.find P (l ++ [x]) = match List.find P l with Some y => Some y | None => if P x then Some x else None end.
Proof. induction l as [|y l IH]; cbn [app List.find]; [done|]. by destruct (P y). Qed.

(** A remapping binds its function to its key and leaves every other function,
    and every text, alone. *)
Theorem remap_exact m f key g :
  key_for (remap m f key) g = (if decide (g = f) then Some key else key_for m g)
  /\ text_for (remap m f key) g = text_for m g.
Proof.
  split; [|done]. unfold key_for, remap. cbn [overrides]. rewrite find_app. cbn [fst].
  case_decide as E.
  - subst g. by rewrite find_filter_none, bool_decide_true.
  - rewrite find_filter_other by congruence.
    destruct (List.find _ (overrides m)) as [[? ?]|]; [done|]. by rewrite bool_decide_false by congruence.
Qed.

(** ** What the module's comments promise and the code does not do *)

(** The text of a row is said to be missing only where the function is the
    text; cancelling has no text, and so no entry by typing. *)
Lemma cancel_has_no_text m : text_for m (chars "cancel input or the current wait") = None.
Proof. by vm_compute. Qed.
