(* ===== verification/Scope.v ===== *)
(** * Task supervision ([crates/pr-core/src/scope.rs])

    A scope and the runtime around it, as a transition system.  A task runs,
    is told to stop by its token, may be aborted, and is over when it has
    returned or the runtime has dropped it; only then is its guard gone. *)

From S2P Require Import Prelude.

(** Where a task is. *)
Inductive TaskState := Running | AbortRequested | Returned | Dropped.

#[export] Instance TaskState_eq_dec : EqDecision TaskState.
Proof. solve_decision. Defined.

Definition is_finished (t : TaskState) : bool :=
  match t with
  | Returned | Dropped => true
  | _ => false
  end.

(** [tasks] are all that were ever spawned, [aborts] the handles the scope
    holds, [live] the counter of the guards. *)
Record TaskScope := mkScope {
  cancelled : bool;
  aborts : list nat;
  live : nat;
  tasks : list TaskState;
}.

Definition new_scope : TaskScope := mkScope false [] 0 [].

(** [AbortHandle::abort]: a finished task is not touched. *)
Definition abort (s : TaskScope) (i : nat) : TaskScope :=
  mkScope (cancelled s) (aborts s) (live s)
    (alter (fun t => match t with Running => AbortRequested | _ => t end) i (tasks s)).

Definition FLOOR : nat := 64.

Definition prune_finished (s : TaskScope) : TaskScope :=
  if decide ((FLOOR <= length (aborts s))%nat /\ (live s * 2 < length (aborts s))%nat) then
    mkScope (cancelled s)
      (filter (fun i => from_option is_finished true (tasks s !! i) = false) (aborts s))
      (live s) (tasks s)
  else s.

Definition spawn (s : TaskScope) : TaskScope :=
  prune_finished (mkScope (cancelled s) (aborts s ++ [length (tasks s)]) (live s + 1) (tasks s ++ [Running])).

Definition tracked_aborts (s : TaskScope) : nat := length (aborts s).

Definition cancel (s : TaskScope) : TaskScope := mkScope true (aborts s) (live s) (tasks s).

(** The loop over the handles. *)
Definition abort_all (s : TaskScope) : TaskScope := foldl abort s (aborts s).

(** The end of [shutdown]: whether the scope was seen empty before the
    deadline. *)
Definition finish_shutdown (drained : bool) (s : TaskScope) : TaskScope :=
  let s := if drained then s else abort_all s in
  mkScope (cancelled s) [] (live s) (tasks s).

Definition drop_scope (s : TaskScope) : TaskScope := abort_all (cancel s).

(** ** The runtime *)

(** A task is over: its future, and with it its guard, is dropped. *)
Definition finish (s : TaskScope) (i : nat) (t : TaskState) : TaskScope :=
  mkScope (cancelled s) (aborts s) (live s - 1) (<[i := t]> (tasks s)).

Inductive runtime_step : TaskScope -> TaskScope -> Prop :=
| returns s i : tasks s !! i = Some Running -> runtime_step s (finish s i Returned)
| returns_anyway s i : tasks s !! i = Some AbortRequested -> runtime_step s (finish s i Returned)
| dropped s i : tasks s !! i = Some AbortRequested -> runtime_step s (finish s i Dropped)
| holder_aborts s i : runtime_step s (abort s i).

(** [shutdown]: signal, wait while the runtime goes on, then stop what is
    left.  It answers whether the scope was seen empty. *)
Inductive shutdown : TaskScope -> bool -> TaskScope -> Prop :=
| shutdown_drained s s' : rtc runtime_step (cancel s) s' -> live s' = 0%nat ->
    shutdown s true (finish_shutdown true s')
| shutdown_timeout s s' : rtc runtime_step (cancel s) s' -> shutdown s false (finish_shutdown false s').

Inductive step : TaskScope -> TaskScope -> Prop :=
| step_spawn s : step s (spawn s)
| step_runtime s s' : runtime_step s s' -> step s s'
| step_shutdown s b s' : shutdown s b s' -> step s s'.

(** ** The counter and the handles *)

Definition unfinished (ts : list TaskState) : nat := length (filter (fun t => is_finished t = false) ts).

(** The counter counts the tasks that are not over, and every task that runs
    without having been told to stop is one the scope can stop. *)
Record supervised (s : TaskScope) : Prop := {
  sup_live : live s = unfinished (tasks s);
  sup_aborts : forall i, tasks s !! i = Some Running -> i ∈ aborts s;
  sup_once : NoDup (aborts s);
  sup_known : forall i, i ∈ aborts s -> (i < length (tasks s))%nat;
}.

Lemma unfinished_app a b : unfinished (a ++ b) = (unfinished a + unfinished b)%nat.
Proof. unfold unfinished. by rewrite filter_app, length_app. Qed.

Lemma unfinished_cons t ts :
  unfinished (t :: ts) = ((if is_finished t then 0 else 1) + unfinished ts)%nat.
Proof. unfold unfinished. rewrite filter_cons. by destruct (is_finished t). Qed.

Lemma unfinished_insert ts : forall i t u, ts !! i = Some u -> is_finished u = false ->
  is_finished t = true -> unfinished (<[i := t]> ts) = (unfinished ts - 1)%nat.
Proof.
  induction ts as [|x ts IH]; intros [|i] t u; cbn [lookup list_lookup]; try done.
  - change (<[0%nat := t]> (x :: ts)) with (t :: ts). intros [= ->] Hu Ht. rewrite !unfinished_cons, Hu, Ht. lia.
  - change (<[S i := t]> (x :: ts)) with (x :: <[i := t]> ts).
    intros Hi Hu Ht. rewrite !unfinished_cons, (IH i t u) by done.
    assert (0 < unfinished ts)%nat; [|lia].
    apply list_elem_of_lookup_2 in Hi. unfold unfinished. destruct (filter _ ts) eqn:E; [|simpl; lia].
    exfalso. assert (u ∈ filter (fun t => is_finished t = false) ts) as Hin by (by apply list_elem_of_filter).
    rewrite E in Hin. by apply elem_of_nil in Hin.
Qed.

Definition stopped (t : TaskState) : TaskState := match t with Running => AbortRequested | _ => t end.

Lemma unfinished_alter ts : forall i : nat, unfinished (alter stopped i ts) = unfinished ts.
Proof.
  induction ts as [|x ts IH]; intros [|i]; try done; cbn [alter list_alter]; rewrite !unfinished_cons.
  - by destruct x.
  - by rewrite IH.
Qed.

Lemma alter_running (ts : list TaskState) (i j : nat) : alter stopped i ts !! j = Some Running -> j <> i /\ ts !! j = Some Running.
Proof.
  destruct (decide (i = j)) as [->|Hij].
  - rewrite list_lookup_alter_eq. destruct (ts !! j) as [[]|]; cbn; intros [=].
  - rewrite list_lookup_alter_ne by done. done.
Qed.

Lemma abort_supervised s i : supervised s -> supervised (abort s i).
Proof.
  intros [Hl Ha Ho Hk]. split; cbn [live tasks aborts abort]; try done.
  - fold stopped. by rewrite unfinished_alter.
  - intros j [_ Hj]%alter_running. by apply Ha.
  - by rewrite length_alter.
Qed.

Lemma runtime_supervised s s' : runtime_step s s' -> supervised s -> supervised s'.
Proof.
  intros Hs. destruct Hs as [s i Hi|s i Hi|s i Hi|s i]; [..|apply abort_supervised]; intros [Hl Ha Ho Hk];
    (split; cbn [live tasks aborts finish]; [rewrite Hl; by erewrite unfinished_insert| |done|by rewrite length_insert]);
    intros j; (destruct (decide (i = j)) as [->|Hij];
      [rewrite list_lookup_insert_eq by (by eapply lookup_lt_Some); done
      |rewrite list_lookup_insert_ne by done; apply Ha]).
Qed.

Lemma prune_supervised s : supervised s -> supervised (prune_finished s).
Proof.
  intros [Hl Ha Ho Hk]. unfold prune_finished. case_decide; [|done].
  split; cbn [live tasks aborts]; [done| |by apply NoDup_filter|].
  - intros i Hi. apply list_elem_of_filter. rewrite Hi. split; [done|by apply Ha].
  - intros i [_ Hi]%list_elem_of_filter. by apply Hk.
Qed.

Lemma spawn_supervised s : supervised s -> supervised (spawn s).
Proof.
  intros [Hl Ha Ho Hk]. apply prune_supervised. split; cbn [live tasks aborts].
  - rewrite unfinished_app, Hl. done.
  - intros i Hi. apply elem_of_app. apply lookup_app_Some in Hi as [Hi|[Hle Hi]]; [left; by apply Ha|].
    right. apply list_elem_of_singleton. apply lookup_lt_Some in Hi. simpl in Hi. lia.
  - apply NoDup_app. split; [done|]. split; [|apply NoDup_singleton].
    intros i Hi ->%list_elem_of_singleton. apply Hk in Hi. lia.
  - intros i. rewrite length_app. simpl. intros [Hi| ->%list_elem_of_singleton]%elem_of_app; [apply Hk in Hi|]; lia.
Qed.

(** Handles of unfinished tasks, each held once, are no more than the tasks. *)
Lemma handles_bounded (ts : list TaskState) : forall (hs : list nat), NoDup hs ->
  (forall i, i ∈ hs -> exists t, ts !! i = Some t /\ is_finished t = false) -> (length hs <= unfinished ts)%nat.
Proof.
  induction ts as [|t ts IH] using rev_ind; intros hs Hn Hi.
  - destruct hs as [|i hs]; [simpl; lia|]. destruct (Hi i) as (t & Ht & _); [by left|]. done.
  - set (ks' := filter (fun i => i <> length ts) hs).
    assert (length ks' <= unfinished ts)%nat as H.
    { apply IH; [by apply NoDup_filter|]. intros i [Hne Hin]%list_elem_of_filter.
      destruct (Hi i Hin) as (u & Hu & Hf). exists u. split; [|done].
      apply lookup_app_Some in Hu as [Hu|[Hle Hu]]; [done|]. apply lookup_lt_Some in Hu as Hlt. simpl in Hlt. lia. }
    rewrite unfinished_app, unfinished_cons. destruct (decide (length ts ∈ hs)) as [Hin|Hin].
    + destruct (Hi _ Hin) as (u & Hu & Hf). rewrite list_lookup_middle in Hu by done. injection Hu as ->.
      rewrite Hf. apply elem_of_Permutation in Hin as [k Hk].
      assert (length hs = S (length k)) as -> by (by rewrite Hk).
      assert (ks' ≡ₚ k) as Hp.
      { unfold ks'. rewrite Hk. rewrite filter_cons_False by (intros E; by apply E).
        rewrite Hk in Hn. apply NoDup_cons in Hn as [Hn _]. rewrite filter_all; [done|].
        intros i Hik ->. done. }
      rewrite Hp in H. simpl. lia.
    + assert (ks' = hs) as E.
      { apply filter_all. intros i Hik ->. done. }
      rewrite E in H. lia.
Qed.

(** Aborting every handle leaves no task running. *)
Lemma abort_list hs : forall s, (forall i, tasks s !! i = Some Running -> i ∈ hs) ->
  (forall i, tasks (foldl abort s hs) !! i <> Some Running)
  /\ live (foldl abort s hs) = live s /\ aborts (foldl abort s hs) = aborts s
  /\ unfinished (tasks (foldl abort s hs)) = unfinished (tasks s)
  /\ cancelled (foldl abort s hs) = cancelled s.
Proof.
  induction hs as [|i hs IH]; intros s Hs; cbn [foldl].
  - split_and!; try done. intros i Hi. apply Hs in Hi. by apply elem_of_nil in Hi.
  - destruct (IH (abort s i)) as (H1 & H2 & H3 & H4 & H5).
    { intros j [Hj Hr]%alter_running. apply Hs in Hr. by apply elem_of_cons in Hr as [->|]. }
    split_and!; try done. rewrite H4. cbn [tasks abort]. fold stopped. by rewrite unfinished_alter.
Qed.

Lemma bare_supervised c n ts :
  n = unfinished ts -> (forall i, ts !! i <> Some Running) -> supervised (mkScope c [] n ts).
Proof.
  intros Hn Hr. split; cbn [live tasks aborts]; [done| |constructor|].
  - intros i Hi. by apply Hr in Hi.
  - intros i Hi. by apply elem_of_nil in Hi.
Qed.

Lemma shutdown_supervised s b s' : shutdown s b s' -> supervised s ->
  supervised s' /\ cancelled s' = true /\ (forall i, tasks s' !! i <> Some Running)
  /\ (b = true -> unfinished (tasks s') = 0%nat).
Proof.
  assert (forall u v, rtc runtime_step u v -> supervised u -> supervised v /\ cancelled v = cancelled u) as Hr.
  { induction 1 as [u|u u1 v Hs _ IH]; [done|]. intros Hsup.
    destruct (IH (runtime_supervised _ _ Hs Hsup)) as [H1 H2]. split; [done|]. rewrite H2. by destruct Hs. }
  intros H Hsup. assert (supervised (cancel s)) as Hc by (split; apply Hsup).
  destruct H as [s0 s1 Hs H0|s0 s1 Hs]; destruct (Hr _ _ Hs Hc) as [[Hl Ha Ho Hk] Hcan]; cbn [cancel cancelled] in Hcan;
    unfold finish_shutdown.
  - assert (forall i, tasks s1 !! i <> Some Running) as Hn.
    { intros i Hi. rewrite H0 in Hl. symmetry in Hl. unfold unfinished in Hl. apply nil_length_inv in Hl.
      assert (Running ∈ filter (fun t => is_finished t = false) (tasks s1)) as Hin
        by (apply list_elem_of_filter; split; [done|by eapply list_elem_of_lookup_2]).
      rewrite Hl in Hin. by apply elem_of_nil in Hin. }
    split_and!; [by apply bare_supervised|done|done|intros _; cbn [tasks]; congruence].
  - destruct (abort_list (aborts s1) s1 Ha) as (H1 & H2 & H3 & H4 & H5).
    split_and!; [apply bare_supervised; unfold abort_all; [congruence|done]|..]; unfold abort_all;
      cbn [cancelled tasks]; (done || congruence).
Qed.

(** C28. Whatever is spawned, returns, is aborted or is shut down, the counter
    counts the tasks that are not over, and a task that has not been told to
    stop can be stopped by the scope.  After a shutdown or a drop no task goes
    on unstopped; a shutdown answers yes only when every task is over; and
    right after a spawn the handles held are few, or at most twice the live
    tasks. *)
Theorem nothing_outlives s : rtc step new_scope s ->
  supervised s
  /\ (forall b s', shutdown s b s' -> cancelled s' = true /\ (forall i, tasks s' !! i <> Some Running)
       /\ (b = true -> unfinished (tasks s') = 0%nat))
  /\ (cancelled (drop_scope s) = true /\ forall i, tasks (drop_scope s) !! i <> Some Running)
  /\ (tracked_aborts (spawn s) < FLOOR \/ tracked_aborts (spawn s) <= 2 * live (spawn s))%nat.
Proof.
  intros H. assert (supervised s) as Hs.
  { assert (supervised new_scope) as H0 by (by apply (bare_supervised false 0 [])). revert H0.
    induction H as [u|u v w Hs _ IH]; [done|]. intros H0. apply IH. destruct Hs as [u|u v Hs|u b v Hs].
    - by apply spawn_supervised.
    - by eapply runtime_supervised.
    - by apply (shutdown_supervised _ _ _ Hs). }
  split; [done|]. split; [intros b s' Hb; by apply (shutdown_supervised _ _ _ Hb)|]. split.
  - unfold drop_scope, abort_all. destruct (abort_list (aborts (cancel s)) (cancel s)) as (H1 & _ & _ & _ & H5); [apply Hs|].
    split; [by rewrite H5|done].
  - pose proof (spawn_supervised s Hs) as [Hl _ Ho _]. revert Hl Ho.
    unfold spawn, prune_finished, tracked_aborts. case_decide as Hd; cbn [aborts live tasks] in *; intros Hl Ho.
    + right. rewrite Hl. etransitivity; [apply (handles_bounded (tasks s ++ [Running])); [exact Ho|]|lia].
      intros i [Hi _]%list_elem_of_filter. destruct (_ !! i) as [t|] eqn:E; [|done]. by exists t.
    + destruct (decide (FLOOR <= length (aborts s ++ [length (tasks s)]))%nat); [right|left]; lia.
Qed.

Lemma nothing_outlives_witness :
  exists s, rtc step new_scope s /\ live s = 1%nat /\ tracked_aborts s = 2%nat /\ supervised s
    /\ forall i, tasks (drop_scope s) !! i <> Some Running.
Proof.
  assert (rtc step new_scope (finish (spawn (spawn new_scope)) 0 Returned)) as H.
  { eapply rtc_l; [apply step_spawn|]. eapply rtc_l; [apply step_spawn|].
    eapply rtc_l; [apply step_runtime, (returns _ 0); reflexivity|]. apply rtc_refl. }
  exists (finish (spawn (spawn new_scope)) 0 Returned). split; [exact H|]. split; [reflexivity|].
  split; [reflexivity|].
  destruct (nothing_outlives (finish (spawn (spawn new_scope)) 0 Returned) H) as (Hs & _ & [_ Hd] & _).
  split; [exact Hs|exact Hd].
Defined.

(** ** What the module's comments promise and the code does not do *)

(** A shutdown is said to answer yes only when every task left on its own; it
    looks at the counter, which also counts down for a task that the holder
    of its handle aborted. *)
Lemma aborted_counts_as_drained :
  exists s, shutdown (spawn new_scope) true s /\ tasks s = [Dropped].
Proof.
  eexists. split.
  - apply (shutdown_drained _ (finish (abort (cancel (spawn new_scope)) 0) 0 Dropped)); [|reflexivity].
    eapply rtc_l; [apply (holder_aborts _ 0)|]. eapply rtc_l; [apply (dropped _ 0); reflexivity|]. apply rtc_refl.
  - reflexivity.
Qed.
