(* ===== verification/Screen.v ===== *)
(** * The screen of the terminal harness ([xtask/pty-harness/src/screen.rs])

    A grid of clusters to which a stream of terminal output is applied.
    [None] is a panic: an index out of range, or an overflow of a [usize] where
    a number of the stream takes part. *)

From S2P Require Import Prelude Text TextFacts Lines Width.

Inductive CellWidth := OnePerChar | UnicodeWide.

Abbreviation Row := (list str).

Definition CONTINUATION : str := [].
Definition BLANK : str := [32].

Inductive State := Ground | Escape | Csi | StringSeq | StringSeqEsc | SkipOne.

Record Screen := mkScreen {
  cols : Z;
  rows : Z;
  grid : list Row;
  row : Z;
  col : Z;
  scrollback : list str;
  saved : option (list Row * Z * Z);
  saved_cursor : option (Z * Z);
  pending : bytes;
  state : State;
  params : bytes;
  unhandled : Z;
  cell_width : CellWidth;
}.

(** ** Assignments to fields *)

Definition set_cursor (s : Screen) (r c : Z) : Screen :=
  mkScreen (cols s) (rows s) (grid s) r c (scrollback s) (saved s) (saved_cursor s) (pending s) (state s)
    (params s) (unhandled s) (cell_width s).
Definition set_row (s : Screen) (r : Z) : Screen := set_cursor s r (col s).
Definition set_col (s : Screen) (c : Z) : Screen := set_cursor s (row s) c.
Definition set_grid (s : Screen) (g : list Row) : Screen :=
  mkScreen (cols s) (rows s) g (row s) (col s) (scrollback s) (saved s) (saved_cursor s) (pending s) (state s)
    (params s) (unhandled s) (cell_width s).
Definition set_scrollback (s : Screen) (b : list str) : Screen :=
  mkScreen (cols s) (rows s) (grid s) (row s) (col s) b (saved s) (saved_cursor s) (pending s) (state s)
    (params s) (unhandled s) (cell_width s).
Definition set_saved (s : Screen) (x : option (list Row * Z * Z)) : Screen :=
  mkScreen (cols s) (rows s) (grid s) (row s) (col s) (scrollback s) x (saved_cursor s) (pending s) (state s)
    (params s) (unhandled s) (cell_width s).
Definition set_saved_cursor (s : Screen) (x : option (Z * Z)) : Screen :=
  mkScreen (cols s) (rows s) (grid s) (row s) (col s) (scrollback s) (saved s) x (pending s) (state s)
    (params s) (unhandled s) (cell_width s).
Definition set_pending (s : Screen) (b : bytes) : Screen :=
  mkScreen (cols s) (rows s) (grid s) (row s) (col s) (scrollback s) (saved s) (saved_cursor s) b (state s)
    (params s) (unhandled s) (cell_width s).
Definition set_state (s : Screen) (x : State) : Screen :=
  mkScreen (cols s) (rows s) (grid s) (row s) (col s) (scrollback s) (saved s) (saved_cursor s) (pending s) x
    (params s) (unhandled s) (cell_width s).
Definition set_params (s : Screen) (b : bytes) : Screen :=
  mkScreen (cols s) (rows s) (grid s) (row s) (col s) (scrollback s) (saved s) (saved_cursor s) (pending s)
    (state s) b (unhandled s) (cell_width s).
Definition skipped (s : Screen) : Screen :=
  mkScreen (cols s) (rows s) (grid s) (row s) (col s) (scrollback s) (saved s) (saved_cursor s) (pending s)
    (state s) (params s) (unhandled s + 1) (cell_width s).

(** [usize] arithmetic, checked. *)
Definition add (a b : Z) : option Z := if decide (a + b <= usize_max) then Some (a + b) else None.
Definition sub (a b : Z) : option Z := if decide (b <= a) then Some (a - b) else None.
Definition saturating_sub (a b : Z) : Z := Z.max 0 (a - b).

(** [Vec::remove], [Vec::insert], [Vec::resize]. *)
Definition vec_remove {A} (i : Z) (l : list A) : option (A * list A) :=
  x ← l !! Z.to_nat i; Some (x, delete (Z.to_nat i) l).
Definition vec_insert {A} (i : Z) (x : A) (l : list A) : option (list A) :=
  if decide (i <= zlen l) then Some (take (Z.to_nat i) l ++ x :: drop (Z.to_nat i) l) else None.
Definition vec_resize {A} (n : Z) (x : A) (l : list A) : list A :=
  take (Z.to_nat n) l ++ replicate (Z.to_nat n - length l) x.
Definition pop {A} (l : list A) : list A := take (length l - 1) l.

Definition blank_row (c : Z) : Row := replicate (Z.to_nat c) BLANK.

Definition new_screen (c r : Z) (w : CellWidth) : Screen :=
  let c := Z.max c 1 in
  let r := Z.max r 1 in
  mkScreen c r (replicate (Z.to_nat r) (blank_row c)) 0 0 [] None None [] Ground [] 0 w.

(** Replace the row the cursor is in; indexing it panics out of range. *)
Definition in_row (s : Screen) (f : Row -> option Row) : option Screen :=
  r ← grid s !! Z.to_nat (row s); r' ← f r; Some (set_grid s (<[Z.to_nat (row s) := r']> (grid s))).

(** ** Printing *)

Definition is_box_drawing (c : Z) : bool := bool_decide (9472 <= c <= 9631).

Section Width.
Context `{W : UnicodeWidth}.

Definition char_cols (w : CellWidth) (c : Z) : Z :=
  match w with
  | OnePerChar => 1
  | UnicodeWide => if is_box_drawing c then 1 else default 0 (width_cjk c)
  end.

Definition newline (s : Screen) : option Screen :=
  let s := set_row s (row s + 1) in
  if decide (row s < rows s) then Some s
  else
    '(gone, g) ← vec_remove 0 (grid s);
    let s := set_row s (rows s - 1) in
    let s := match saved s with
             | None => set_scrollback s (scrollback s ++ [trim_end (concat gone)])
             | Some _ => s
             end in
    Some (set_grid s (g ++ [blank_row (cols s)])).

(** The walk back past the second columns of wide clusters. *)
Fixpoint compose_row (r : Row) (at_ : nat) (c : Z) : option Row :=
  match at_ with
  | O => Some r
  | S a =>
      x ← r !! a;
      if decide (x = CONTINUATION) then compose_row r a c else Some (<[a := x ++ [c]]> r)
  end.

Definition compose (s : Screen) (c : Z) : option Screen :=
  match grid s !! Z.to_nat (row s) with
  | None => Some s
  | Some r => r' ← compose_row r (Z.to_nat (col s)) c; Some (set_grid s (<[Z.to_nat (row s) := r']> (grid s)))
  end.

(** The cells after the first of a wide cluster. *)
Fixpoint continue_cells (n : nat) (at_ : nat) (r : Row) : Row :=
  match n with
  | O => r
  | S n' => continue_cells n' (S at_) (<[at_ := CONTINUATION]> r)
  end.

Definition put (s : Screen) (c : Z) : option Screen :=
  let w := char_cols (cell_width s) c in
  if decide (w = 0) then compose s c
  else
    s ← (if decide (cols s < col s + w) then newline (set_col s 0) else Some s);
    let write r := continue_cells (Z.to_nat w - 1) (S (Z.to_nat (col s))) (<[Z.to_nat (col s) := [c]]> r) in
    Some (set_col (set_grid s (alter write (Z.to_nat (row s)) (grid s))) (col s + w)).

Definition control_or_print (s : Screen) (b : byte) : option Screen :=
  if decide (b = x0d) then Some (set_col s 0)
  else if decide (b = x0a) then newline s
  else if decide (b = x08) then Some (set_col s (saturating_sub (col s) 1))
  else if decide (b = x09) then Some (set_col s ((col s / 8 + 1) * 8))
  else if decide (bz b < 32 \/ b = x7f) then Some s
  else put s (bz b).

(** ** Erasing and the cursor *)

Definition restore_cursor (s : Screen) : Screen :=
  match saved_cursor s with
  | Some (r, c) => set_cursor s (Z.min r (rows s - 1)) (Z.min c (cols s - 1))
  | None => s
  end.

Definition fill (r : Row) : Row := replicate (length r) BLANK.

(** [for c in a..b { BLANK.clone_into(&mut row[c]) }]. *)
Fixpoint blank_cells (n : nat) (at_ : nat) (r : Row) : option Row :=
  match n with
  | O => Some r
  | S n' => _ ← r !! at_; blank_cells n' (S at_) (<[at_ := BLANK]> r)
  end.
Definition blank_range (a b : Z) (r : Row) : option Row := blank_cells (Z.to_nat (b - a)) (Z.to_nat a) r.

Definition erase_all (s : Screen) : Screen := set_grid s (fill <$> grid s).

(** [for r in a..b { self.grid[r].fill(BLANK) }]. *)
Fixpoint fill_rows (n : nat) (at_ : nat) (g : list Row) : option (list Row) :=
  match n with
  | O => Some g
  | S n' => r ← g !! at_; fill_rows n' (S at_) (<[at_ := fill r]> g)
  end.

Definition erase_line (s : Screen) : option Screen := in_row s (fun r => Some (fill r)).
Definition erase_line_to_end (s : Screen) : option Screen :=
  if decide (col s < cols s) then in_row s (blank_range (col s) (cols s)) else Some s.
Definition erase_line_to_start (s : Screen) : option Screen :=
  in_row s (blank_range 0 (Z.min (col s) (cols s - 1) + 1)).
Definition erase_below (s : Screen) : option Screen :=
  s ← erase_line_to_end s;
  g ← fill_rows (Z.to_nat (rows s - (row s + 1))) (Z.to_nat (row s + 1)) (grid s); Some (set_grid s g).
Definition erase_to_start (s : Screen) : option Screen :=
  s ← erase_line_to_start s;
  g ← fill_rows (Z.to_nat (row s)) 0 (grid s); Some (set_grid s g).

Definition enter_alternate (s : Screen) : Screen :=
  match saved s with
  | None => set_cursor (erase_all (set_saved s (Some (grid s, row s, col s)))) 0 0
  | Some _ => s
  end.
Definition leave_alternate (s : Screen) : Screen :=
  match saved s with
  | Some (g, r, c) => set_cursor (set_grid (set_saved s None) g) r c
  | None => s
  end.

(** ** Control sequences *)

Fixpoint trim_marks (s : str) : str :=
  match s with
  | c :: r => if decide (c = 63 \/ c = 62 \/ c = 60 \/ c = 61) then trim_marks r else s
  | [] => []
  end.

Definition number (p : str) : Z := default 0 (parse_unsigned usize_max (encode_str (trim p))).

Definition nums (s : Screen) : list Z := number <$> split_on 59 (trim_marks (from_utf8_lossy (params s))).

Definition private (s : Screen) : bool := bool_decide (head (params s) = Some "?"%byte).

(** Iterate an operation that may panic. *)
Fixpoint times {A} (n : nat) (f : A -> option A) (x : A) : option A :=
  match n with
  | O => Some x
  | S n' => y ← f x; times n' f y
  end.

Definition delete_cell (c : Z) (r : Row) : option Row := '(_, r) ← vec_remove c r; Some (r ++ [BLANK]).
Definition insert_cell (c : Z) (r : Row) : option Row := r ← vec_insert c BLANK r; Some (pop r).
Definition insert_line (i c : Z) (g : list Row) : option (list Row) :=
  g ← vec_insert i (blank_row c) g; Some (pop g).
Definition delete_line (i c : Z) (g : list Row) : option (list Row) :=
  '(_, g) ← vec_remove i g; Some (g ++ [blank_row c]).

Definition csi (s : Screen) (final : byte) : option Screen :=
  let n := nums s in
  let first := default 0 (head n) in
  let count := Z.max first 1 in
  match final with
  | "A" => Some (set_row s (saturating_sub (row s) count))
  | "B" => r ← add (row s) count; Some (set_row s (Z.min r (rows s - 1)))
  | "C" => c ← add (col s) count; Some (set_col s (Z.min c (cols s - 1)))
  | "D" => Some (set_col s (saturating_sub (col s) count))
  | "E" => r ← add (row s) count; Some (set_cursor s (Z.min r (rows s - 1)) 0)
  | "F" => Some (set_cursor s (saturating_sub (row s) count) 0)
  | "G" | "`" => Some (set_col s (Z.min (saturating_sub count 1) (cols s - 1)))
  | "d" => Some (set_row s (Z.min (saturating_sub count 1) (rows s - 1)))
  | "H" | "f" =>
      let r := Z.max (default 1 (head n)) 1 in
      let c := Z.max (default 1 (n !! 1%nat)) 1 in
      Some (set_cursor s (Z.min (r - 1) (rows s - 1)) (Z.min (c - 1) (cols s - 1)))
  | "J" =>
      if decide (first = 1) then erase_to_start s
      else if decide (first = 2 \/ first = 3) then Some (erase_all s)
      else erase_below s
  | "K" =>
      if decide (first = 1) then erase_line_to_start s
      else if decide (first = 2) then erase_line s
      else erase_line_to_end s
  | "X" =>
      e ← add (col s) count;
      if decide (col s < Z.min e (cols s)) then in_row s (blank_range (col s) (Z.min e (cols s))) else Some s
  | "P" =>
      in_row s (fun r => d ← sub (cols s) (col s); times (Z.to_nat (Z.min count d)) (delete_cell (col s)) r)
  | "@" =>
      in_row s (fun r => d ← sub (cols s) (col s); times (Z.to_nat (Z.min count d)) (insert_cell (col s)) r)
  | "L" =>
      d ← sub (rows s) (row s);
      g ← times (Z.to_nat (Z.min count d)) (insert_line (row s) (cols s)) (grid s); Some (set_grid s g)
  | "M" =>
      d ← sub (rows s) (row s);
      g ← times (Z.to_nat (Z.min count d)) (delete_line (row s) (cols s)) (grid s); Some (set_grid s g)
  | "h" => Some (if private s && bool_decide (1049 ∈ n) then enter_alternate s else s)
  | "l" => Some (if private s && bool_decide (1049 ∈ n) then leave_alternate s else s)
  | "s" => Some (set_saved_cursor s (Some (row s, col s)))
  | "u" => Some (restore_cursor s)
  | "m" | "n" | "r" | "t" | "c" | "q" => Some s
  | _ => Some (skipped s)
  end%byte.

(** ** The stream *)

Definition utf8_len (b : byte) : nat :=
  let n := bz b in
  if decide (240 <= n <= 247) then 4%nat
  else if decide (224 <= n <= 239) then 3%nat
  else if decide (192 <= n <= 223) then 2%nat
  else 1%nat.

Definition escape (s : Screen) (b : byte) : Screen :=
  match b with
  | "[" => set_state (set_params s []) Csi
  | "]" | "P" | "_" | "^" => set_state s StringSeq
  | "(" | ")" | "*" | "+" => set_state s SkipOne
  | "7" => set_state (set_saved_cursor s (Some (row s, col s))) Ground
  | "8" => set_state (restore_cursor s) Ground
  | "c" => set_state (set_cursor (erase_all s) 0 0) Ground
  | "M" => set_state (set_row s (saturating_sub (row s) 1)) Ground
  | _ => set_state (skipped s) Ground
  end%byte.

Fixpoint put_all (s : Screen) (cs : str) : option Screen :=
  match cs with
  | [] => Some s
  | c :: r => s ← put s c; put_all s r
  end.

(** One round of the loop: what the buffer begins with, and the rest of the
    buffer; the inner [None] when it does not hold a whole character. *)
Definition feed_one (s : Screen) (b : byte) (r : bytes) : option (option (Screen * bytes)) :=
  match state s with
  | Ground =>
      if decide (b = x1b) then Some (Some (set_state s Escape, r))
      else if decide (bz b < 128) then s ← control_or_print s b; Some (Some (s, r))
      else
        let len := utf8_len b in
        if decide (length (b :: r) < len)%nat then Some None
        else
          s ← match from_utf8 (take len (b :: r)) with
              | Some cs => put_all s cs
              | None => put s 65533
              end;
          Some (Some (s, drop len (b :: r)))
  | Escape => Some (Some (escape s b, r))
  | SkipOne => Some (Some (set_state s Ground, r))
  | Csi =>
      if decide (64 <= bz b <= 126) then s ← csi s b; Some (Some (set_state s Ground, r))
      else Some (Some (set_params s (params s ++ [b]), r))
  | StringSeq =>
      Some (Some (set_state s (if decide (b = x07) then Ground
                               else if decide (b = x1b) then StringSeqEsc else StringSeq), r))
  | StringSeqEsc => Some (Some (set_state s (if decide (b = "\"%byte) then Ground else StringSeq), r))
  end.

(** Every round consumes a byte. *)
Fixpoint feed_loop (fuel : nat) (s : Screen) (buf : bytes) : option (Screen * bytes) :=
  match buf, fuel with
  | [], _ | _, O => Some (s, buf)
  | b :: r, S f =>
      x ← feed_one s b r;
      match x with
      | None => Some (s, buf)
      | Some (s', rest) => feed_loop f s' rest
      end
  end.

Definition feed (s : Screen) (b : bytes) : option Screen :=
  let buf := pending s ++ b in
  '(s, rest) ← feed_loop (length buf) (set_pending s []) buf; Some (set_pending s rest).

End Width.

(** ** What a test asks *)

Definition line (s : Screen) (r : Z) : str :=
  match grid s !! Z.to_nat r with
  | Some cells => trim_end (concat cells)
  | None => []
  end.

Definition columns_of (s : Screen) (r : Z) : list (nat * str) :=
  match grid s !! Z.to_nat r with
  | Some cells => filter (fun x => x.2 <> CONTINUATION) (imap pair cells)
  | None => []
  end.

Definition last_column (s : Screen) (r : Z) : option nat :=
  cells ← grid s !! Z.to_nat r;
  last (fst <$> filter (fun x : nat * str => x.2 <> CONTINUATION /\ x.2 <> BLANK) (imap pair cells)).

Definition columns_at (s : Screen) (r : Z) (needle : Z) : list nat :=
  fst <$> filter (fun x : nat * str => head x.2 = Some needle) (columns_of s r).

Definition screen_lines (s : Screen) : list str := (fun r => line s (Z.of_nat r)) <$> seq 0 (Z.to_nat (rows s)).
Definition screen_text (s : Screen) : str := join [10] (screen_lines s).

Definition history (s : Screen) : str :=
  let out := join [10] (scrollback s) in
  (if decide (out = []) then [] else out ++ [10]) ++ screen_text s.

Definition shows (s : Screen) (needle : str) : bool := existsb (contains_str needle) (screen_lines s).
Definition seen (s : Screen) (needle : str) : bool := existsb (contains_str needle) (str_lines (history s)).
Definition cursor (s : Screen) : Z * Z := (row s, col s).
Definition in_alternate (s : Screen) : bool := bool_decide (saved s <> None).
Definition size (s : Screen) : Z * Z := (Z.min (cols s) u16_max, Z.min (rows s) u16_max).

Definition resize (s : Screen) (c r : Z) : Screen :=
  let c := Z.max c 1 in
  let r := Z.max r 1 in
  let g := vec_resize r (blank_row c) ((fun x => vec_resize c BLANK x) <$> grid s) in
  mkScreen c r g (Z.min (row s) (r - 1)) (Z.min (col s) (c - 1)) (scrollback s) (saved s) (saved_cursor s)
    (pending s) (state s) (params s) (unhandled s) (cell_width s).
