(* ===== verification/ScreenFacts.v ===== *)
(** * The terminal harness screen: chunks, safety, the alternate screen *)

From S2P Require Import Prelude Text TextFacts Lines Width Screen.

Section ScreenFacts.
Context `{W : UnicodeWidth}.

(** ** What an operation on the grid and the cursor leaves alone *)

Definition keeps (s s' : Screen) : Prop :=
  cols s' = cols s /\ rows s' = rows s /\ pending s' = pending s /\ saved s' = saved s
  /\ (saved s <> None -> scrollback s' = scrollback s).

Lemma keeps_refl s : keeps s s.
Proof. by repeat split. Qed.

Lemma keeps_trans a b c : keeps a b -> keeps b c -> keeps a c.
Proof. intros (?&?&?&?&Ka) (?&?&?&?&Kb). repeat split; try congruence. intros Hs. rewrite Kb; [auto|congruence]. Qed.

Lemma in_row_keeps s f s' : in_row s f = Some s' -> keeps s s'.
Proof. unfold in_row. intros (?&_&(?&_&[= <-])%bind_Some)%bind_Some. by repeat split. Qed.

Lemma newline_keeps s s' : newline s = Some s' -> keeps s s'.
Proof.
  unfold newline. case_decide; [intros [= <-]; by repeat split|].
  intros ([??]&_&[= <-])%bind_Some. cbn. destruct (saved s) eqn:E; cbn; repeat split; cbn; congruence.
Qed.

Lemma put_keeps s c s' : put s c = Some s' -> keeps s s'.
Proof.
  unfold put, compose. case_decide.
  - case_match; [intros (?&_&[= <-])%bind_Some|intros [= <-]]; by repeat split.
  - intros (t&Ht&[= <-])%bind_Some. apply keeps_trans with t; [|by repeat split].
    case_decide; [by apply newline_keeps in Ht|injection Ht as <-; apply keeps_refl].
Qed.

Lemma put_all_keeps cs s s' : put_all s cs = Some s' -> keeps s s'.
Proof.
  revert s. induction cs as [|c cs IH]; cbn; intros s; [intros [= <-]; apply keeps_refl|].
  intros (t&Ht&H)%bind_Some. eauto using keeps_trans, put_keeps.
Qed.

Lemma control_or_print_keeps s b s' : control_or_print s b = Some s' -> keeps s s'.
Proof.
  unfold control_or_print. repeat case_decide; try (intros [= <-]; by repeat split);
    eauto using newline_keeps, put_keeps.
Qed.

Lemma erases_keep s s' :
  erase_line s = Some s' \/ erase_line_to_end s = Some s' \/ erase_line_to_start s = Some s'
  \/ erase_below s = Some s' \/ erase_to_start s = Some s' -> keeps s s'.
Proof.
  assert (T : forall s s', erase_line_to_end s = Some s' -> keeps s s').
  { intros ? ?. unfold erase_line_to_end. case_decide; [apply in_row_keeps|intros [= <-]; apply keeps_refl]. }
  intros [H|[H|[H|[H|H]]]]; eauto using in_row_keeps.
  all: unfold erase_below, erase_to_start in H; apply bind_Some in H as (t&Ht&(g&_&[= <-])%bind_Some).
  all: apply keeps_trans with t; [|by repeat split]; eauto using in_row_keeps.
Qed.

Lemma restore_cursor_keeps s : keeps s (restore_cursor s).
Proof. unfold restore_cursor. case_match; [case_match|]; by repeat split. Qed.

(** The byte that ends a control sequence of an operation on the grid. *)
Definition switches (s : Screen) (b : byte) : Prop :=
  private s = true /\ 1049 ∈ nums s /\ (b = "h"%byte \/ b = "l"%byte).

Lemma csi_keeps s b s' : ~ switches s b -> csi s b = Some s' -> keeps s s'.
Proof.
  intros Hs. unfold csi.
  destruct b; repeat case_decide; cbn [andb];
    try (intros [= <-]; by (repeat split || apply restore_cursor_keeps));
    try (intros (?&_&[= <-])%bind_Some; by repeat split);
    try (intros (?&_&(?&_&[= <-])%bind_Some)%bind_Some; by repeat split);
    eauto using in_row_keeps, erases_keep.
  all: try (intros He; apply erases_keep; tauto).
  all: try (intros (?&_&He)%bind_Some; case_decide; [by apply in_row_keeps in He|injection He as <-; apply keeps_refl]).
  all: destruct (private s) eqn:E; cbn [andb]; [|intros [= <-]; apply keeps_refl].
  all: case_bool_decide; [|intros [= <-]; apply keeps_refl].
  all: exfalso; apply Hs; repeat split; auto.
Qed.

Lemma csi_switches s b :
  switches s b -> csi s b = Some (if decide (b = "h"%byte) then enter_alternate s else leave_alternate s).
Proof.
  intros (P&N&[->| ->]); unfold csi; rewrite P, bool_decide_true by done; cbn [andb]; by case_decide.
Qed.

(** ** The alternate screen *)

Lemma escape_keeps s b : keeps s (escape s b).
Proof.
  unfold escape. destruct b; try (by repeat split).
  apply keeps_trans with (restore_cursor s); [apply restore_cursor_keeps|by repeat split].
Qed.

(** A round of the loop is an operation on the grid and the cursor, or it is
    the end of a control sequence that switches screens. *)
Lemma feed_one_cases s b r s' rest :
  feed_one s b r = Some (Some (s', rest)) ->
  keeps s s' \/ (state s = Csi /\ switches s b /\
                 s' = set_state (if decide (b = "h"%byte) then enter_alternate s else leave_alternate s) Ground).
Proof.
  unfold feed_one. destruct (state s) eqn:Es.
  - intros H. left. repeat case_decide; try (injection H as <- <-; by repeat split); [|discriminate H|].
    + apply bind_Some in H as (t&Ht&[= <- <-]). eauto using control_or_print_keeps.
    + apply bind_Some in H as (t&Ht&[= <- <-]). case_match; eauto using put_keeps, put_all_keeps.
  - intros [= <- <-]. left. apply escape_keeps.
  - case_decide; [|intros [= <- <-]; left; by repeat split].
    intros (t&Ht&[= <- <-])%bind_Some.
    destruct (decide (private s = true /\ 1049 ∈ nums s /\ (b = "h"%byte \/ b = "l"%byte))) as [Hs|Hs].
    + right. rewrite (csi_switches s b Hs) in Ht. injection Ht as <-. done.
    + left. apply keeps_trans with t; [by apply (csi_keeps s b)|by repeat split].
  - case_decide; [|case_decide]; intros [= <- <-]; left; by repeat split.
  - case_decide; intros [= <- <-]; left; by repeat split.
  - intros [= <- <-]. left. by repeat split.
Qed.

Lemma feed_one_pending s b r s' rest : feed_one s b r = Some (Some (s', rest)) -> pending s' = pending s.
Proof.
  intros [(_&_&E&_)|(_&_&->)]%feed_one_cases; [done|].
  unfold enter_alternate, leave_alternate. by repeat case_match.
Qed.

(** ** Chunks *)

Lemma feed_one_app s b r x :
  match feed_one s b r with
  | None => feed_one s b (r ++ x) = None
  | Some None => True
  | Some (Some (s', rest)) =>
      feed_one s b (r ++ x) = Some (Some (s', rest ++ x)) /\ (length rest <= length r)%nat
  end.
Proof.
  unfold feed_one. destruct (state s); try done; [|by case_decide; [destruct (csi s b)|]].
  case_decide; [done|]. case_decide; [by destruct (control_or_print s b)|].
  case_decide as Hl; [done|]. rewrite app_comm_cons. rewrite decide_False by (rewrite length_app; lia).
  rewrite take_app_le, drop_app_le by lia.
  destruct (from_utf8 _) as [cs|]; [destruct (put_all s cs)|destruct (put s 65533)]; cbn [mbind option_bind]; try done.
  all: split; [done|]; rewrite length_drop; cbn; unfold utf8_len; repeat case_decide; lia.
Qed.

Lemma feed_loop_rest f s buf s' rest :
  feed_loop f s buf = Some (s', rest) -> (length rest <= length buf)%nat.
Proof.
  revert s buf. induction f as [|f IH]; intros s [|b r]; cbn [feed_loop]; try by intros [= <- <-].
  intros ([[t r']|]&Ht&H)%bind_Some; [|by injection H as <- <-].
  pose proof (feed_one_app s b r []) as Ha. rewrite Ht in Ha. apply IH in H. cbn in *. lia.
Qed.

Lemma feed_loop_fuel f g s buf :
  (length buf <= f)%nat -> (length buf <= g)%nat -> feed_loop f s buf = feed_loop g s buf.
Proof.
  revert g s buf. induction f as [|f IH]; intros [|g] s [|b r]; cbn [feed_loop length]; try lia; try done.
  intros Hf Hg. pose proof (feed_one_app s b r []) as Ha.
  destruct (feed_one s b r) as [[[t r']|]|]; [|done|done]. cbn. apply IH; lia.
Qed.

Lemma feed_loop_app f s a x :
  (length (a ++ x) <= f)%nat ->
  feed_loop f s (a ++ x) = ('(s', rest) ← feed_loop f s a; feed_loop f s' (rest ++ x)).
Proof.
  revert s a. induction f as [|f IH]; intros s [|b r] Hf;
    [by destruct x|by cbn in Hf; lia|done|].
  cbn [feed_loop app]. pose proof (feed_one_app s b r x) as Ha. rewrite length_app in Hf.
  destruct (feed_one s b r) as [[[t r']|]|] eqn:E; [| |by rewrite Ha].
  - destruct Ha as [-> Hr]. cbn [mbind option_bind length] in *. rewrite IH by (rewrite length_app; lia).
    destruct (feed_loop f t r') as [[t' r'']|] eqn:E'; cbn [mbind option_bind]; [|done].
    apply feed_loop_rest in E'. apply (feed_loop_fuel f (S f)); rewrite length_app; lia.
  - cbn [mbind option_bind]. by rewrite app_comm_cons.
Qed.

Lemma feed_loop_pending f s buf s' rest :
  feed_loop f s buf = Some (s', rest) -> pending s' = pending s.
Proof.
  revert s buf. induction f as [|f IH]; intros s [|b r]; cbn [feed_loop]; try by intros [= <- <-].
  intros ([[t r']|]&Ht&H)%bind_Some; [|by injection H as <- <-].
  apply IH in H. apply feed_one_pending in Ht. congruence.
Qed.

(** The screen does not depend on how its output is cut into chunks, panics
    included. *)
Theorem feed_chunks s a b : feed s (a ++ b) = s' ← feed s a; feed s' b.
Proof.
  unfold feed. rewrite app_assoc. set (n := length ((pending s ++ a) ++ b)).
  rewrite feed_loop_app by done.
  rewrite (feed_loop_fuel n (length (pending s ++ a))) by (subst n; rewrite ?length_app; lia).
  destruct (feed_loop (length (pending s ++ a)) (set_pending s []) (pending s ++ a)) as [[t r]|] eqn:E; [|done].
  cbn [mbind option_bind]. pose proof (feed_loop_rest _ _ _ _ _ E) as Hr.
  apply feed_loop_pending in E. destruct t as [? ? ? ? ? ? ? ? p ? ? ? ?]. cbn in E. subst p.
  cbn -[feed_loop].
  rewrite (feed_loop_fuel n (length (r ++ b))) by (subst n; rewrite ?length_app in *; lia). done.
Qed.

(** While the alternate screen is up, nothing applied to it reaches the
    history or the main screen: after any output the saved screen and the
    history are what they were, or the output left the alternate screen, and
    at that point the screen and the cursor were put back exactly as saved. *)
Theorem alternate_isolated f s buf s' rest g r c :
  saved s = Some (g, r, c) -> feed_loop f s buf = Some (s', rest) ->
  (saved s' = Some (g, r, c) /\ scrollback s' = scrollback s)
  \/ exists t buf' f', saved t = None /\ grid t = g /\ cursor t = (r, c) /\ scrollback t = scrollback s
                       /\ feed_loop f' t buf' = Some (s', rest).
Proof.
  revert s buf. induction f as [|f IH]; intros s [|b bs] Hs; cbn [feed_loop]; try (intros [= <- <-]; by left).
  intros ([[t r']|]&Ht&H)%bind_Some; [|injection H as <- <-; by left].
  destruct (feed_one_cases _ _ _ _ _ Ht) as [(_&_&_&Es&Eb)|(_&_&->)].
  - rewrite Hs in Es, Eb. specialize (Eb ltac:(done)). rewrite <- Eb. by apply IH with r'.
  - unfold enter_alternate, leave_alternate in H. rewrite Hs in H. case_decide.
    + apply (IH (set_state s Ground) r'); done.
    + right. by exists (set_state (set_cursor (set_grid (set_saved s None) g) r c) Ground), r', f.
Qed.

(** ** Safety *)

Context {L : UnicodeWidthLaws W}.

Definition MAX_COLS : Z := 2 ^ 62.

Record fits (c r : Z) (g : list Row) : Prop := mkFits {
  fits_rows : zlen g = r;
  fits_cols : forall x, x ∈ g -> zlen x = c;
}.

(** The grid has the screen's dimensions and the cursor is in it, or just past
    the end of its row; the saved grid has dimensions of its own, those of the
    screen when it was saved. *)
Record wf (s : Screen) : Prop := mkWf {
  wf_cols : 1 <= cols s <= MAX_COLS;
  wf_rows : 1 <= rows s <= MAX_COLS;
  wf_grid : fits (cols s) (rows s) (grid s);
  wf_row : 0 <= row s < rows s;
  wf_col : 0 <= col s <= cols s;
  wf_saved g r c : saved s = Some (g, r, c) -> exists w h, fits w h g /\ 0 <= r < h /\ 0 <= c <= w;
  wf_saved_cursor r c : saved_cursor s = Some (r, c) -> 0 <= r /\ 0 <= c;
}.

Lemma fits_blank c r : 0 <= c -> 0 <= r -> fits c r (replicate (Z.to_nat r) (blank_row c)).
Proof.
  split; [unfold zlen; rewrite length_replicate; lia|].
  intros x [-> _]%elem_of_replicate. unfold zlen, blank_row. rewrite length_replicate. lia.
Qed.

Lemma fits_lookup c r g i : fits c r g -> 0 <= i < r -> exists x, g !! Z.to_nat i = Some x /\ zlen x = c.
Proof.
  intros [Hr Hc] Hi. destruct (lookup_lt_is_Some_2 g (Z.to_nat i)) as [x Hx]; [unfold zlen in *; lia|].
  exists x. split; [done|]. apply Hc. by eapply list_elem_of_lookup_2.
Qed.

Lemma fits_insert c r g i x : fits c r g -> zlen x = c -> fits c r (<[i := x]> g).
Proof.
  intros [Hr Hc] Hx. split; [unfold zlen; by rewrite length_insert|].
  intros y [i' Hy]%list_elem_of_lookup. apply list_lookup_insert_Some in Hy as [(_&->&_)|[_ Hy]]; [done|].
  apply Hc. by eapply list_elem_of_lookup_2.
Qed.

Lemma fits_alter c r g i f : fits c r g -> (forall x, zlen x = c -> zlen (f x) = c) -> fits c r (alter f i g).
Proof.
  intros [Hr Hc] Hf. split; [unfold zlen; by rewrite length_alter|].
  intros y [i' Hy]%list_elem_of_lookup. destruct (decide (i = i')) as [->|].
  - rewrite list_lookup_alter_eq in Hy. apply fmap_Some in Hy as (x&Hx&->). apply Hf, Hc.
    by eapply list_elem_of_lookup_2.
  - rewrite list_lookup_alter_ne in Hy by done. apply Hc. by eapply list_elem_of_lookup_2.
Qed.

(** What an operation that does not switch screens has to show. *)
Lemma wf_step s g r c :
  wf s -> fits (cols s) (rows s) g -> 0 <= r < rows s -> 0 <= c <= cols s -> wf (set_cursor (set_grid s g) r c).
Proof. intros [] ? ? ?. by constructor. Qed.

(** The outcome of an operation that only changes the grid. *)
Definition repaints (s : Screen) (m : option Screen) : Prop :=
  exists g, m = Some (set_grid s g) /\ fits (cols s) (rows s) g.

Lemma repaints_same s : wf s -> repaints s (Some s).
Proof. intros []. exists (grid s). split; [by destruct s|done]. Qed.

Lemma repaints_in_row s f :
  wf s -> (forall x, zlen x = cols s -> exists y, f x = Some y /\ zlen y = cols s) -> repaints s (in_row s f).
Proof.
  intros [] Hf. destruct (fits_lookup _ _ _ (row s) wf_grid0 ltac:(lia)) as (x&Hx&Hl).
  destruct (Hf x Hl) as (y&Hy&Hly). unfold in_row. rewrite Hx. cbn. rewrite Hy. cbn.
  eexists. split; [done|]. by apply fits_insert.
Qed.

Lemma blank_cells_ok n i (r : Row) :
  (i + n <= length r)%nat -> exists y, blank_cells n i r = Some y /\ length y = length r.
Proof.
  revert i r. induction n as [|n IH]; intros i r Hn; cbn [blank_cells]; [by exists r|].
  destruct (lookup_lt_is_Some_2 r i) as [x ->]; [lia|]. cbn.
  destruct (IH (S i) (<[i:=BLANK]> r)) as (y&->&Hy); [rewrite length_insert; lia|].
  exists y. by rewrite length_insert in Hy.
Qed.

Lemma blank_range_ok a b (r : Row) :
  0 <= a -> b <= zlen r -> a <= b -> exists y, blank_range a b r = Some y /\ zlen y = zlen r.
Proof.
  intros. destruct (blank_cells_ok (Z.to_nat (b - a)) (Z.to_nat a) r) as (y&H'&Hy); [unfold zlen in *; lia|].
  exists y. split; [done|]. unfold zlen. lia.
Qed.

Lemma fill_rows_ok n i c r g :
  fits c r g -> (i + n <= length g)%nat -> exists g', fill_rows n i g = Some g' /\ fits c r g'.
Proof.
  revert i g. induction n as [|n IH]; intros i g Hg Hn; cbn [fill_rows]; [by exists g|].
  destruct (lookup_lt_is_Some_2 g i) as [x Hx]; [lia|]. rewrite Hx. cbn. apply IH; [|by rewrite length_insert; lia].
  apply fits_insert; [done|]. unfold zlen, fill. rewrite length_replicate.
  destruct Hg as [_ Hc]. by apply Hc, list_elem_of_lookup_2 with i.
Qed.

Lemma times_ok {A} (P : A -> Prop) n (f : A -> option A) x :
  P x -> (forall x, (0 < n)%nat -> P x -> exists y, f x = Some y /\ P y) -> exists y, times n f x = Some y /\ P y.
Proof.
  revert x. induction n as [|n IH]; intros x Hx Hf; cbn [times]; [by exists x|].
  destruct (Hf x ltac:(lia) Hx) as (y&->&Hy). cbn. apply IH; [done|]. intros z _. apply Hf. lia.
Qed.

Lemma length_pop {A} (l : list A) : length (pop l) = (length l - 1)%nat.
Proof. unfold pop. rewrite length_take. lia. Qed.

Lemma vec_remove_ok {A} i (l : list A) :
  0 <= i < zlen l -> exists x, vec_remove i l = Some (x, delete (Z.to_nat i) l)
                               /\ length (delete (Z.to_nat i) l) = (length l - 1)%nat.
Proof.
  unfold zlen, vec_remove. intros Hi. destruct (lookup_lt_is_Some_2 l (Z.to_nat i)) as [x Hx]; [lia|].
  exists x. rewrite Hx. split; [done|]. apply length_delete. by exists x.
Qed.

Lemma fits_snoc c r (g : list Row) :
  0 <= c -> zlen g = r - 1 -> (forall x, x ∈ g -> zlen x = c) -> fits c r (g ++ [blank_row c]).
Proof.
  intros Hc Hg Hx. split; [unfold zlen in *; rewrite length_app; cbn; lia|].
  intros x [?| ->%list_elem_of_singleton]%elem_of_app; [auto|]. unfold zlen, blank_row. rewrite length_replicate. lia.
Qed.

Lemma delete_line_ok i c r g : 0 <= c -> 0 <= i < r -> fits c r g -> exists g', delete_line i c g = Some g' /\ fits c r g'.
Proof.
  intros Hc Hi [Hr Hg]. unfold delete_line. destruct (vec_remove_ok i g) as (x&->&Hl); [lia|]. cbn.
  eexists. split; [done|]. apply fits_snoc; [done|unfold zlen in *; lia|]. eauto using list_elem_of_delete_inv.
Qed.

Lemma insert_line_ok i c r g : 0 <= c -> 0 <= i < r -> fits c r g -> exists g', insert_line i c g = Some g' /\ fits c r g'.
Proof.
  intros Hc Hi [Hr Hg]. unfold insert_line, vec_insert. rewrite decide_True by lia. cbn.
  eexists. split; [done|]. split; [unfold zlen in *; rewrite length_pop, length_app; cbn;
    rewrite length_take, length_drop; lia|].
  unfold pop. intros x Hx. eapply elem_of_sublist in Hx; [|apply sublist_take].
  apply elem_of_app in Hx as [Hx|[->|Hx]%elem_of_cons];
    eauto using elem_of_sublist, sublist_take, sublist_drop.
  unfold zlen, blank_row. rewrite length_replicate. lia.
Qed.

Lemma delete_cell_ok i (x : Row) : 0 <= i < zlen x -> exists y, delete_cell i x = Some y /\ zlen y = zlen x.
Proof.
  intros Hi. unfold delete_cell. destruct (vec_remove_ok i x) as (z&->&Hl); [done|]. cbn.
  eexists. split; [done|]. rewrite zlen_app. unfold zlen in *. cbn. lia.
Qed.

Lemma insert_cell_ok i (x : Row) : 0 <= i < zlen x -> exists y, insert_cell i x = Some y /\ zlen y = zlen x.
Proof.
  intros Hi. unfold insert_cell, vec_insert. rewrite decide_True by lia. cbn.
  eexists. split; [done|]. unfold zlen in *. rewrite length_pop, length_app. cbn.
  rewrite length_take, length_drop. lia.
Qed.

Lemma times_cells n f i (x : Row) :
  (forall x : Row, 0 <= i < zlen x -> exists y, f x = Some y /\ zlen y = zlen x) ->
  0 <= i <= zlen x -> (i = zlen x -> n = 0%nat) -> exists y, times n f x = Some y /\ zlen y = zlen x.
Proof.
  intros Hf Hi Hn. apply (times_ok (fun y => zlen y = zlen x)); [done|].
  intros z Hpos Hz. rewrite <- Hz. apply Hf. lia.
Qed.

(** ** Operations are safe on a well-formed screen *)

Definition safe (m : option Screen) : Prop := exists s', m = Some s' /\ wf s'.

Lemma wf_cursor s r c : wf s -> 0 <= r < rows s -> 0 <= c <= cols s -> wf (set_cursor s r c).
Proof. intros [] ? ?. by constructor. Qed.

Lemma wf_repaints s m : wf s -> repaints s m -> safe m.
Proof. intros [] (g&->&Hg). eexists. split; [done|]. by constructor. Qed.

Lemma newline_safe s : wf s -> col s <= cols s -> exists s', newline s = Some s' /\ wf s' /\ col s' = col s.
Proof.
  intros Hw Hc. pose proof Hw as []. unfold newline. cbn. case_decide.
  - eexists. split; [done|]. split; [|done]. apply wf_cursor; [done|lia..].
  - destruct (vec_remove_ok 0 (grid s)) as (x&Hx&Hl); [destruct wf_grid0; lia|]. rewrite Hx. cbn.
    eexists. split; [done|].
    assert (fits (cols s) (rows s) (delete (Z.to_nat 0) (grid s) ++ [blank_row (cols s)])).
    { destruct wf_grid0. apply fits_snoc; [lia|unfold zlen in *; lia|]. eauto using list_elem_of_delete_inv. }
    destruct (saved s) as [[[??]?]|] eqn:E; cbn; (split; [|done]); constructor; cbn; try done; try lia.
    all: intros ? ? ? Hs; apply wf_saved0; congruence.
Qed.

Lemma char_cols_nonneg w c : 0 <= char_cols w c.
Proof.
  unfold char_cols. destruct w; [lia|]. case_match; [lia|].
  destruct (width_cjk c) as [n|] eqn:E; cbn; [by apply width_cjk_nonneg in E|lia].
Qed.

(** The character has room on a line of its own. *)
Definition has_room (s : Screen) (c : Z) : Prop := char_cols (cell_width s) c <= cols s.

Lemma newline_width s s' : newline s = Some s' -> cell_width s' = cell_width s.
Proof.
  unfold newline. case_decide; [by intros [= <-]|]. intros ([??]&_&[= <-])%bind_Some. cbn. by destruct (saved s).
Qed.

Lemma put_width s c s' : put s c = Some s' -> cell_width s' = cell_width s.
Proof.
  unfold put, compose. case_decide.
  - case_match; [intros (?&_&[= <-])%bind_Some|intros [= <-]]; done.
  - intros (t&Ht&[= <-])%bind_Some. cbn. case_decide; [by apply newline_width in Ht|by injection Ht as <-].
Qed.

Lemma compose_row_ok (x : Row) n c :
  (n <= length x)%nat -> exists y, compose_row x n c = Some y /\ zlen y = zlen x.
Proof.
  induction n as [|n IH]; intros Hn; cbn [compose_row]; [by exists x|].
  destruct (lookup_lt_is_Some_2 x n) as [z ->]; [lia|]. cbn. case_decide; [apply IH; lia|].
  eexists. split; [done|]. unfold zlen. by rewrite length_insert.
Qed.

Lemma length_continue_cells n i (x : Row) : length (continue_cells n i x) = length x.
Proof. revert i x. induction n as [|n IH]; intros i x; cbn; [done|]. by rewrite IH, length_insert. Qed.

Lemma put_safe s c : wf s -> has_room s c -> safe (put s c).
Proof.
  intros Hw Hroom. pose proof Hw as []. pose proof (char_cols_nonneg (cell_width s) c). unfold has_room in Hroom. unfold put. case_decide.
  - unfold compose. destruct (fits_lookup _ _ _ (row s) wf_grid0 ltac:(lia)) as (x&Hx&Hl). rewrite Hx.
    destruct (compose_row_ok x (Z.to_nat (col s)) c) as (y&Hy&Hly); [unfold zlen in Hl; lia|]. rewrite Hy. cbn.
    apply (wf_repaints s); [done|]. eexists. split; [done|]. apply fits_insert; [done|lia].
  - assert (exists t, (if decide (cols s < col s + char_cols (cell_width s) c)
                       then newline (set_col s 0) else Some s) = Some t
                      /\ wf t /\ cols t = cols s /\ col t + char_cols (cell_width s) c <= cols s) as (t&->&Ht&Ec&Hc).
    { case_decide; [|exists s; split_and!; [done..|lia]].
      destruct (newline_safe (set_col s 0)) as (t&Hn&Ht&Hc); [by apply wf_cursor; [done|lia..]|cbn; lia|].
      exists t. pose proof (newline_keeps _ _ Hn) as (Ec&_). cbn in Hc, Ec. split_and!; [done..|]. lia. }
    cbn. eexists. split; [done|]. pose proof Ht as [].
    apply (wf_step t); [done| |done|lia]. apply fits_alter; [done|].
    intros x Hx. unfold zlen in *. by rewrite length_continue_cells, length_insert.
Qed.

Lemma put_all_safe cs s : wf s -> Forall (has_room s) cs -> safe (put_all s cs).
Proof.
  revert s. induction cs as [|c cs IH]; intros s Hw Hr; cbn [put_all]; [by exists s|].
  inversion_clear Hr as [|?? Hc Hcs]. destruct (put_safe s c Hw Hc) as (t&Et&Ht). rewrite Et. cbn. apply IH; [done|].
  eapply Forall_impl; [exact Hcs|]. intros d. unfold has_room.
  rewrite (put_width _ _ _ Et). by destruct (put_keeps _ _ _ Et) as (->&_).
Qed.

Lemma erase_line_to_end_repaints s : wf s -> repaints s (erase_line_to_end s).
Proof.
  intros Hw. unfold erase_line_to_end. case_decide; [|by apply repaints_same].
  apply repaints_in_row; [done|]. intros x Hx. rewrite <- Hx. apply blank_range_ok; destruct Hw; lia.
Qed.

Lemma erase_line_to_start_repaints s : wf s -> repaints s (erase_line_to_start s).
Proof.
  intros Hw. pose proof Hw as []. apply repaints_in_row; [done|]. intros x Hx. rewrite <- Hx.
  apply blank_range_ok; lia.
Qed.

Lemma fill_rows_repaints s g n i :
  wf s -> fits (cols s) (rows s) g -> (i + n <= Z.to_nat (rows s))%nat ->
  repaints s (g' ← fill_rows n i g; Some (set_grid (set_grid s g) g')).
Proof.
  intros Hw Hg Hn. destruct (fill_rows_ok n i _ _ _ Hg) as (g'&->&Hg');
    [destruct Hg; unfold zlen in *; lia|]. by exists g'.
Qed.

Lemma erase_below_repaints s : wf s -> repaints s (erase_below s).
Proof.
  intros Hw. unfold erase_below. destruct (erase_line_to_end_repaints s Hw) as (g&->&Hg). cbn.
  apply fill_rows_repaints; [done..|]. destruct Hw; lia.
Qed.

Lemma erase_to_start_repaints s : wf s -> repaints s (erase_to_start s).
Proof.
  intros Hw. unfold erase_to_start. destruct (erase_line_to_start_repaints s Hw) as (g&->&Hg). cbn.
  apply fill_rows_repaints; [done..|]. destruct Hw; lia.
Qed.

Lemma fits_fill c r g : fits c r g -> fits c r (fill <$> g).
Proof.
  intros [Hr Hc]. split; [unfold zlen; by rewrite length_fmap|].
  intros x (y&->&Hy)%list_elem_of_fmap. unfold zlen, fill. rewrite length_replicate. by apply Hc.
Qed.

Lemma control_or_print_safe s b : wf s -> b <> x09 -> has_room s (bz b) -> safe (control_or_print s b).
Proof.
  intros Hw Hb Hr. pose proof Hw as []. unfold control_or_print. repeat case_decide; try done.
  - eexists. split; [done|]. apply wf_cursor; [done|lia..].
  - destruct (newline_safe s Hw) as (t&->&Ht&_); [lia|]. by exists t.
  - eexists. split; [done|]. apply wf_cursor; [done|lia|unfold saturating_sub; lia].
  - by exists s.
  - by apply put_safe.
Qed.

(** The saved screen has the size of the present one. *)
Definition same_size (s : Screen) : Prop :=
  match saved s with
  | Some (g, _, _) => fits (cols s) (rows s) g
  | None => True
  end.

Lemma fits_same w h w' h' g : fits w h g -> fits w' h' g -> 0 < h -> w' = w /\ h' = h.
Proof.
  intros [Hh Hw] [Hh' Hw'] Hp. destruct g as [|x g]; [unfold zlen in *; cbn in *; lia|].
  split; [|lia]. rewrite <- (Hw x), <- (Hw' x); [done|by left..].
Qed.

Lemma wf_switch s b : wf s -> (b <> "h"%byte -> same_size s) -> wf (if decide (b = "h"%byte) then enter_alternate s else leave_alternate s).
Proof.
  intros Hw Hsame. pose proof Hw as []. unfold enter_alternate, leave_alternate. unfold same_size in Hsame.
  destruct (saved s) as [[[g r] c]|] eqn:E; destruct (decide _) as [|Hb]; try done.
  - destruct (wf_saved0 _ _ _ eq_refl) as (w&h&Hf&?&?). specialize (Hsame Hb).
    destruct (fits_same _ _ _ _ _ Hf Hsame) as [Ew Eh]; [lia|]. subst w h. constructor; done || lia.
  - constructor; cbn; try done; try lia; [by apply fits_fill|].
    intros ? ? ? [= <- <- <-]. exists (cols s), (rows s). split_and!; done || lia.
Qed.

Lemma wf_restore_cursor s : wf s -> wf (restore_cursor s).
Proof.
  intros Hw. pose proof Hw as []. unfold restore_cursor. destruct (saved_cursor s) as [[r c]|] eqn:E; [|done].
  destruct (wf_saved_cursor0 _ _ eq_refl). apply wf_cursor; [done|lia..].
Qed.

Lemma wf_save_cursor s : wf s -> wf (set_saved_cursor s (Some (row s, col s))).
Proof. intros []. constructor; cbn; try done. intros ? ? [= <- <-]. lia. Qed.

(** Edits of the cells from the cursor to the end of its row. *)
Lemma cells_edit_repaints s n f :
  wf s -> (forall x : Row, 0 <= col s < zlen x -> exists y, f x = Some y /\ zlen y = zlen x) ->
  repaints s (in_row s (fun r => d ← sub (cols s) (col s); times (Z.to_nat (Z.min n d)) f r)).
Proof.
  intros Hw Hf. pose proof Hw as []. apply repaints_in_row; [done|]. intros x Hx.
  unfold sub. rewrite decide_True by lia. cbn. rewrite <- Hx. apply (times_cells _ f (col s)); [done|lia|lia].
Qed.

(** Edits of the rows from the cursor's to the last. *)
Lemma lines_edit_repaints s n f :
  wf s -> (forall g, fits (cols s) (rows s) g -> exists g', f g = Some g' /\ fits (cols s) (rows s) g') ->
  repaints s (d ← sub (rows s) (row s); g ← times (Z.to_nat (Z.min n d)) f (grid s); Some (set_grid s g)).
Proof.
  intros Hw Hf. pose proof Hw as []. unfold sub. rewrite decide_True by lia. cbn.
  destruct (times_ok (fits (cols s) (rows s)) (Z.to_nat (Z.min n (rows s - row s))) f (grid s)) as (g&->&Hg);
    [done|by intros; apply Hf|]. by exists g.
Qed.

Lemma add_small a b : 0 <= a <= MAX_COLS -> b <= MAX_COLS -> add a b = Some (a + b).
Proof. unfold add, MAX_COLS, usize_max. intros. by rewrite decide_True by lia. Qed.

Lemma csi_safe s b : wf s -> default 0 (head (nums s)) <= MAX_COLS -> (b = "l"%byte -> same_size s) -> safe (csi s b).
Proof.
  intros Hw Hn Hsame. pose proof Hw as []. unfold csi. cbv zeta.
  set (n := default 0 (head (nums s))) in *.
  assert (HC : Z.max n 1 <= MAX_COLS) by (unfold MAX_COLS in *; lia).
  destruct b; try (eexists; split; [done|]; apply wf_cursor; unfold saturating_sub; [done|lia..]);
    try (by exists s);
    try (eexists; split; [reflexivity|]; by constructor);
    try (rewrite add_small by (done || lia); cbn);
    try (eexists; split; [done|]; apply wf_cursor; unfold saturating_sub; [done|lia..]).
  all: try (apply wf_repaints with s; [done|]; apply cells_edit_repaints; eauto using delete_cell_ok, insert_cell_ok).
  all: try (apply wf_repaints with s; [done|]; apply lines_edit_repaints;
            [done|intros ? Hg; first [apply delete_line_ok|apply insert_line_ok]; done || lia]).
  all: repeat case_decide.
  all: try (eexists; split; [done|]; destruct (private s && _);
            [first [apply (wf_switch s "h"%byte Hw); intros Hh; by destruct Hh|apply (wf_switch s "l"%byte Hw); auto]|done]).
  all: try (eexists; split; [done|]; first [by apply wf_save_cursor|by apply wf_restore_cursor]).
  all: apply wf_repaints with s; [done|];
    eauto using erase_to_start_repaints, erase_below_repaints, erase_line_to_start_repaints,
      erase_line_to_end_repaints, repaints_same.
  - eexists. split; [done|]. by apply fits_fill.
  - apply repaints_in_row; [done|]. intros x Hx. eexists. split; [done|]. unfold zlen, fill in *.
    by rewrite length_replicate.
  - apply repaints_in_row; [done|]. intros x Hx. rewrite <- Hx. apply blank_range_ok; lia.
Qed.

Lemma escape_wf s b : wf s -> wf (escape s b).
Proof.
  intros Hw. pose proof Hw as []. unfold escape.
  assert (forall x t, wf t -> wf (set_state t x)) as Hst by (intros ? ? []; by constructor).
  destruct b; try by constructor.
  all: apply Hst; eauto using wf_save_cursor, wf_restore_cursor.
  - apply wf_cursor; unfold saturating_sub; [done|lia..].
  - apply (wf_step s); [done|by apply fits_fill|lia..].
Qed.

(** The characters that a byte and those after it print. *)
Definition printed (b : byte) (r : bytes) : str :=
  if decide (bz b < 128) then [bz b] else default [65533] (from_utf8 (take (utf8_len b) (b :: r))).

(** Output that the screen can hold: no tab, no character wider than the screen,
    no control sequence whose first number is more than [MAX_COLS], and no return
    from the alternate screen in another size than it was entered in. *)
Definition calm (s : Screen) (b : byte) (r : bytes) : Prop :=
  (state s = Ground -> b <> x09 /\ Forall (has_room s) (printed b r)) /\
  (state s = Csi -> default 0 (head (nums s)) <= MAX_COLS /\ (b = "l"%byte -> same_size s)).

Lemma feed_one_safe s b r :
  wf s -> calm s b r ->
  exists x, feed_one s b r = Some x /\ forall s' rest, x = Some (s', rest) -> wf s'.
Proof.
  intros Hw [Hg Hc]. assert (forall x t, wf t -> wf (set_state t x)) as Hst by (intros ? ? []; by constructor).
  unfold feed_one. destruct (state s); repeat case_decide;
    try (eexists; split; [done|]; intros ? ? [= <- <-]; by apply Hst).
  - destruct (Hg eq_refl) as [Hb Hr]. unfold printed in Hr. rewrite decide_True in Hr by done. apply Forall_cons in Hr as [Hr _].
    destruct (control_or_print_safe s b Hw Hb Hr) as (t&->&Ht). eexists. split; [done|].
    by intros ? ? [= <- <-].
  - destruct (Hg eq_refl) as [_ Hr]. unfold printed in Hr. rewrite decide_False in Hr by done.
    assert (safe (match from_utf8 (take (utf8_len b) (b :: r)) with
                  | Some cs => put_all s cs
                  | None => put s 65533
                  end)) as (t&->&Ht)
      by (revert Hr; destruct (from_utf8 _); cbn [default from_option id]; intros Hr;
          [by apply put_all_safe|apply put_safe; [done|]; apply Forall_cons in Hr as [Hr _]; exact Hr]).
    eexists. split; [done|]. by intros ? ? [= <- <-].
  - eexists. split; [done|]. intros ? ? [= <- <-]. by apply escape_wf.
  - destruct (Hc eq_refl) as [Hn Hs]. destruct (csi_safe s b Hw Hn Hs) as (t&->&Ht). eexists. split; [done|].
    intros ? ? [= <- <-]. by apply Hst.
  - eexists. split; [done|]. intros ? ? [= <- <-]. destruct Hw. by constructor.
Qed.

Lemma elem_of_vec_resize {A} n (x y : A) l : y ∈ vec_resize n x l -> y ∈ l \/ y = x.
Proof.
  unfold vec_resize. intros [H|H]%elem_of_app; [left; eauto using elem_of_sublist, sublist_take|].
  apply elem_of_replicate in H as [-> _]. by right.
Qed.

Lemma zlen_vec_resize {A} n (x : A) l : 0 <= n -> zlen (vec_resize n x l) = n.
Proof. unfold zlen, vec_resize. rewrite length_app, length_take, length_replicate. lia. Qed.

Lemma wf_resize s c r : wf s -> c <= MAX_COLS -> r <= MAX_COLS -> wf (resize s c r).
Proof.
  intros [] Hc Hr. assert (MAX_COLS = 2 ^ 62) by done. constructor; cbn; try done; try lia.
  split; [by apply zlen_vec_resize; lia|].
  intros x [(y&->&_)%list_elem_of_fmap| ->]%elem_of_vec_resize; [apply zlen_vec_resize; lia|].
  unfold zlen, blank_row. rewrite length_replicate. lia.
Qed.

(** The screens of a harness whose program is calm: a new screen, of any size; a
    round of the loop of [feed]; and a resize, whichever screen is up. *)
Inductive run : Screen -> Prop :=
  | run_new c r w : c <= MAX_COLS -> r <= MAX_COLS -> run (new_screen c r w)
  | run_round s b r s' rest : run s -> calm s b r -> feed_one s b r = Some (Some (s', rest)) -> run s'
  | run_resize s c r : run s -> c <= MAX_COLS -> r <= MAX_COLS -> run (resize s c r).

Lemma run_wf s : run s -> wf s.
Proof.
  induction 1 as [c r w Hc Hr|s b r s' rest _ IH Hb Hs|s c r _ IH Hc Hr].
  - assert (MAX_COLS = 2 ^ 62) by done. constructor; cbn; try done; try lia. apply fits_blank; lia.
  - destruct (feed_one_safe s b r IH Hb) as (x&Hx&Hw). rewrite Hs in Hx. injection Hx as <-. by eapply Hw.
  - by apply wf_resize.
Qed.


End ScreenFacts.

(** ** Concrete runs *)

Definition fed (c r : Z) (b : bytes) : option Screen := feed (new_screen c r UnicodeWide) b.

Definition ESC : byte := x1b.


Lemma alternate_isolated_witness :
  exists s s' rest g r c,
    fed 2 1 (bs "a" ++ ESC :: bs "[?1049h") = Some s /\ saved s = Some (g, r, c)
    /\ ((saved s' = Some (g, r, c) /\ scrollback s' = scrollback s)
        \/ exists t buf' f', saved t = None /\ grid t = g /\ cursor t = (r, c) /\ scrollback t = scrollback s
                             /\ feed_loop f' t buf' = Some (s', rest)).
Proof.
  do 6 eexists. split; [vm_compute; reflexivity|]. split; [reflexivity|].
  refine (alternate_isolated 12 _ (bs "b" ++ ESC :: bs "[?1049lc") _ _ _ _ _ _ _); [reflexivity|].
  vm_compute. reflexivity.
Defined.

(** ** What is not calm *)

(** A tab near the right margin leaves the cursor outside the row, and the next
    edit of the row panics. *)
Lemma tab_leaves_the_row :
  (col <$> fed 10 2 [x09; x09]) = Some 16 /\ fed 10 2 ([x09; x09; ESC] ++ bs "[P") = None
  /\ fed 10 2 ([x09; x09; ESC] ++ bs "[@") = None.
Proof. by vm_compute. Qed.

(** A count at the top of [usize]. *)
Lemma count_overflows : fed 10 2 ([x0a; ESC] ++ bs "[18446744073709551615B") = None.
Proof. by vm_compute. Qed.

(** A resize while the alternate screen is up does not reach the saved screen:
    leaving it restores a grid of the old size. *)
Lemma resize_in_alternate :
  (s ← fed 10 2 (ESC :: bs "[?1049h");
   feed (resize s 10 5) ([ESC] ++ bs "[?1049l" ++ [ESC] ++ bs "[5;1H" ++ [ESC] ++ bs "[K")) = None.
Proof. by vm_compute. Qed.

(** A wide character on a screen of one column. *)
Lemma wide_on_one_column :
  (col <$> fed 1 2 [xe4; xb8; xad]) = Some 2 /\ fed 1 2 ([xe4; xb8; xad; ESC] ++ bs "[P") = None.
Proof. by vm_compute. Qed.
