(* ===== verification/Fixtures.v ===== *)
(** * The synthetic server ([xtask/resp-server/src/frame.rs], [encode.rs],
    [inbound.rs], [script.rs], [server.rs])

    What a test server sends, how it reads the commands of a client, and the
    scripts it plays.  A connection is the list of what its reads return, the
    empty one and the end of the list being the end of the stream, and the
    list of its writes; delays leave nothing behind.  The client decodes what the
    frames stand for, and the server reads the commands that were sent. *)

From S2P Require Import Prelude Text TextFacts Lines Value Decoder DecoderFacts Framing Output Roundtrip Oneshot.

(** ** Frames *)

#[warnings="-register-all"]
Inductive Frame :=
| Simple (b : bytes)
| Error (b : bytes)
| Integer (i : Z)
| Bulk (b : bytes)
| NullBulk
| NullArray
| Null
| Array (v : list Frame)
| Boolean (b : bool)
| Double (lex : bytes)
| BigNumber (d : bytes)
| BulkError (b : bytes)
| Verbatim (format : byte * byte * byte) (data : bytes)
| Map (kv : list (Frame * Frame))
| FSet (v : list Frame)
| Attribute (attrs : list (Frame * Frame)) (value : Frame)
| Push (v : list Frame)
| StreamedBulk (chunks : list bytes)
| StreamedArray (v : list Frame)
| StreamedMap (kv : list (Frame * Frame))
| StreamedSet (v : list Frame).

(** [Frame::command]. *)
Definition command (args : list bytes) : Frame := Array (map Bulk args).

Definition is_resp3_only (f : Frame) : bool :=
  match f with
  | Null | Boolean _ | Double _ | BigNumber _ | BulkError _ | Verbatim _ _ | Map _ | FSet _ | Attribute _ _
  | Push _ | StreamedBulk _ | StreamedArray _ | StreamedMap _ | StreamedSet _ => true
  | _ => false
  end.

Definition maximum (ns : list nat) : nat := foldr Nat.max O ns.

Fixpoint frame_depth (f : Frame) : nat :=
  let pairs kv := maximum (map (fun p => (frame_depth p.1 `max` frame_depth p.2)%nat) kv) in
  match f with
  | Array v | FSet v | Push v | StreamedArray v | StreamedSet v => S (maximum (map frame_depth v))
  | Map kv | StreamedMap kv => S (pairs kv)
  | Attribute attrs value => S (pairs attrs `max` frame_depth value)
  | _ => 1%nat
  end.

(** ** Encoding *)

Inductive Proto := Resp2 | Resp3.
#[export] Instance Proto_eq_dec : EqDecision Proto.
Proof. solve_decision. Defined.

Inductive EncodeError :=
| NoResp2Form (what : string)
| UnrepresentableFrame (what : string).
#[export] Instance EncodeError_eq_dec : EqDecision EncodeError.
Proof. solve_decision. Defined.

(** What is pushed onto the output. *)
Definition put_len (prefix : byte) (len : Z) : bytes := prefix :: print_unsigned len ++ crlf.
Definition put_blob (prefix : byte) (b : bytes) : bytes := put_len prefix (zlen b) ++ b ++ crlf.

Definition encode_scalar (f : Frame) (proto : Proto) : option bytes :=
  match f, proto with
  | Simple b, _ => Some (bs "+" ++ b ++ crlf)
  | Error b, _ => Some (bs "-" ++ b ++ crlf)
  | Integer i, _ => Some (bs ":" ++ print_signed i ++ crlf)
  | Bulk b, _ => Some (put_blob "$" b)
  | NullBulk, _ => Some (bs "$-1" ++ crlf)
  | NullArray, _ => Some (bs "*-1" ++ crlf)
  | Null, Resp3 => Some (bs "_" ++ crlf)
  | Null, Resp2 => Some (bs "$-1" ++ crlf)
  | Boolean b, Resp3 => Some (bs (if b then "#t" else "#f") ++ crlf)
  | Boolean b, Resp2 => Some (bs (if b then ":1" else ":0") ++ crlf)
  | Double lex, Resp3 => Some (bs "," ++ lex ++ crlf)
  | Double lex, Resp2 => Some (put_blob "$" lex)
  | BigNumber d, Resp3 => Some (bs "(" ++ d ++ crlf)
  | BigNumber d, Resp2 => Some (put_blob "$" d)
  | BulkError b, Resp3 => Some (put_blob "!" b)
  | BulkError b, Resp2 => Some (bs "-" ++ b ++ crlf)
  | Verbatim (f0, f1, f2) data, Resp3 =>
      Some (put_len "=" (zlen data + 4) ++ [f0; f1; f2] ++ bs ":" ++ data ++ crlf)
  | Verbatim _ data, Resp2 => Some (put_blob "$" data)
  | _, _ => None
  end.

(** The loops over elements, over the encoder [enc] of one. *)
Section loops.
Context (enc : Frame -> result EncodeError bytes).

Fixpoint encode_items (v : list Frame) : result EncodeError bytes :=
  match v with
  | [] => Ok []
  | x :: r => let? b := enc x in let? bs' := encode_items r in Ok (b ++ bs')
  end.

Fixpoint encode_entries (kv : list (Frame * Frame)) : result EncodeError bytes :=
  match kv with
  | [] => Ok []
  | (k, v) :: r =>
      let? bk := enc k in let? bv := enc v in let? bs' := encode_entries r in Ok (bk ++ bv ++ bs')
  end.

Fixpoint encode_chunks (chunks : list bytes) : result EncodeError bytes :=
  match chunks with
  | [] => Ok []
  | c :: r =>
      if decide (c = []) then Err (UnrepresentableFrame "empty streamed chunk")
      else let? bs' := encode_chunks r in Ok (put_len ";" (zlen c) ++ c ++ crlf ++ bs')
  end.

Definition encode_streamed (f : Frame) (proto : Proto) : result EncodeError bytes :=
  if decide (proto = Resp2) then
    Err (NoResp2Form (match f with
                      | StreamedBulk _ => "streamed-bulk"
                      | StreamedMap _ => "streamed-map"
                      | _ => "streamed-aggregate"
                      end))
  else
    match f with
    | StreamedBulk chunks => let? b := encode_chunks chunks in Ok (bs "$?" ++ crlf ++ b ++ bs ";0" ++ crlf)
    | StreamedArray v => let? b := encode_items v in Ok (bs "*?" ++ crlf ++ b ++ bs "." ++ crlf)
    | StreamedSet v => let? b := encode_items v in Ok (bs "~?" ++ crlf ++ b ++ bs "." ++ crlf)
    | StreamedMap kv => let? b := encode_entries kv in Ok (bs "%?" ++ crlf ++ b ++ bs "." ++ crlf)
    | _ => Ok []
    end.
End loops.

(** The [unreachable!] arms are the frames [encode_scalar] answers for. *)
Fixpoint encode (f : Frame) (proto : Proto) : result EncodeError bytes :=
  match encode_scalar f proto with
  | Some b => Ok b
  | None =>
      let enc x := encode x proto in
      match f, proto with
      | Array v, _ => let? b := encode_items enc v in Ok (put_len "*" (zlen v) ++ b)
      | Map kv, Resp3 => let? b := encode_entries enc kv in Ok (put_len "%" (zlen kv) ++ b)
      | Map kv, Resp2 => let? b := encode_entries enc kv in Ok (put_len "*" (zlen kv * 2) ++ b)
      | FSet v, _ =>
          let? b := encode_items enc v in
          Ok (put_len (match proto with Resp3 => "~" | Resp2 => "*" end)%byte (zlen v) ++ b)
      | Attribute attrs value, Resp3 =>
          let? a := encode_entries enc attrs in
          let? b := enc value in
          Ok (put_len "|" (zlen attrs) ++ a ++ b)
      | Attribute _ _, Resp2 => Err (NoResp2Form "attribute")
      | Push v, _ =>
          let? b := encode_items enc v in
          Ok (put_len (match proto with Resp3 => ">" | Resp2 => "*" end)%byte (zlen v) ++ b)
      | _, _ => encode_streamed enc f proto
      end
  end.

Definition to_vec (f : Frame) (proto : Proto) : result EncodeError bytes := encode f proto.

(** ** Reading a client's commands *)

Inductive InboundError :=
| InboundIncomplete
| Malformed (at_ : Z).
#[export] Instance InboundError_eq_dec : EqDecision InboundError.
Proof. solve_decision. Defined.

(** The first CRLF at or behind [from]. *)
Fixpoint position_crlf (b : bytes) : option nat :=
  match b with
  | x :: (y :: _) as r => if decide (x = x0d /\ y = x0a) then Some O else S <$> position_crlf r
  | _ => None
  end.
Definition find_crlf (buf : bytes) (from : nat) : option nat :=
  p ← position_crlf (drop from buf); Some (from + p)%nat.

Definition slice (b : bytes) (i j : nat) : bytes := take (j - i) (drop i b).

Definition inbound_len (buf : bytes) (from : nat) : result InboundError (Z * nat) :=
  match find_crlf buf from with
  | None => Err InboundIncomplete
  | Some end_ =>
      let s := slice buf from end_ in
      match from_utf8 s with
      | None => Err (Malformed (Z.of_nat from))
      | Some _ =>
          match parse_signed i64_min i64_max s with
          | None => Err (Malformed (Z.of_nat from))
          | Some n => Ok (n, (end_ + 2)%nat)
          end
      end
  end.

Definition MAX_ARGS : Z := 1000000.

(** [for _ in 0..n]. *)
Fixpoint inbound_args (n : nat) (buf : bytes) (pos : nat) : result InboundError (list bytes * nat) :=
  match n with
  | O => Ok ([], pos)
  | S n' =>
      match buf !! pos with
      | None => Err InboundIncomplete
      | Some b =>
          if negb (bool_decide (b = "$"%byte)) then Err (Malformed (Z.of_nat pos))
          else
            let? r := inbound_len buf (pos + 1) in
            let '(len, data_start) := r in
            if decide (len < 0) then Err (Malformed (Z.of_nat pos))
            else if decide (zlen buf < Z.of_nat data_start + len + 2) then Err InboundIncomplete
            else
              let data_end := (data_start + Z.to_nat len)%nat in
              if negb (bool_decide (slice buf data_end (data_end + 2) = crlf))
              then Err (Malformed (Z.of_nat data_end))
              else
                let? r := inbound_args n' buf (data_end + 2) in
                Ok (slice buf data_start data_end :: r.1, r.2)
      end
  end.

(** [split] on a predicate. *)
Fixpoint split_if (f : byte -> bool) (b : bytes) : list bytes :=
  match b with
  | [] => [[]]
  | c :: r =>
      if f c then [] :: split_if f r
      else match split_if f r with
           | x :: xs => (c :: x) :: xs
           | [] => [[c]]
           end
  end.

Definition parse_command (buf : bytes) : result InboundError (list bytes * nat) :=
  match buf with
  | [] => Err InboundIncomplete
  | b :: _ =>
      if decide (b <> "*"%byte) then
        match find_crlf buf 0 with
        | None => Err InboundIncomplete
        | Some end_ =>
            Ok (filter (fun s => s <> []) (split_if (fun b => bool_decide (b = " "%byte \/ b = x09)) (take end_ buf)),
                (end_ + 2)%nat)
        end
      else
        let? r := inbound_len buf 1 in
        let '(n, pos) := r in
        if decide (0 <= n <= MAX_ARGS) then inbound_args (Z.to_nat n) buf pos
        else Err (Malformed 0)
  end.

(** ** Scripts *)

Inductive Step :=
| Expect (argv : list bytes)
| ReadCommand
| Send (f : Frame)
| SendRaw (b : bytes)
| SendChunked (b : bytes) (chunk : nat) (delay_ms : Z)
| SplitAt (b : bytes) (at_ : list nat) (delay_ms : Z)
| BlobStream (len : Z) (chunk : nat) (fill : byte)
| TruncatedBulk (declared : Z) (actual : nat)
| Delay (ms : Z)
| Close
| Hang.

(** [Script::then] and [Script::reply]. *)
Definition then_ (script : list Step) (s : Step) : list Step := script ++ [s].
Definition reply (script : list Step) (f : Frame) : list Step := then_ (then_ script ReadCommand) (Send f).

Inductive ServeError :=
| EncodeFailed (e : EncodeError)
| Inbound (e : InboundError)
| Mismatch (expected got : list bytes)
| Disconnected (step : nat).

(** ** Playing a script *)

(** The reads to come, and the bytes read and not yet used. *)
Fixpoint read_one_command (rs : list bytes) (buf : bytes) (step_idx : nat)
  : result ServeError (list bytes * list bytes * bytes) :=
  match parse_command buf with
  | Ok (cmd, used) => Ok (cmd, rs, drop used buf)
  | Err InboundIncomplete =>
      match rs with
      | [] | [] :: _ => Err (Disconnected step_idx)
      | c :: rs' => read_one_command rs' (buf ++ c) step_idx
      end
  | Err e => Err (Inbound e)
  end.

(** [slice::chunks], every piece but the last [n] bytes long. *)
Fixpoint chunks (fuel n : nat) (b : bytes) : list bytes :=
  match b, fuel with
  | [], _ | _, O => []
  | _, S f => take n b :: chunks f n (drop n b)
  end.

(** The pieces of [SplitAt], [prev] bytes being written. *)
Fixpoint pieces (b : bytes) (prev : nat) (at_ : list nat) : list bytes :=
  match at_ with
  | [] => if decide (prev < length b)%nat then [drop prev b] else []
  | cut :: r =>
      let cut := (cut `min` length b)%nat in
      if decide (prev < cut)%nat then slice b prev cut :: pieces b cut r else pieces b prev r
  end.

(** The writes of the body of a [BlobStream]. *)
Fixpoint blob_writes (fuel : nat) (remaining : Z) (chunk : nat) (fill : byte) : list bytes :=
  match fuel with
  | O => []
  | S f =>
      if decide (0 < remaining) then
        let n := Z.to_nat (Z.min remaining (Z.of_nat chunk)) in
        replicate n fill :: blob_writes f (remaining - Z.of_nat n) chunk fill
      else []
  end.

(** The writes of a step that only writes. *)
Definition step_writes (proto : Proto) (s : Step) : result EncodeError (list bytes) :=
  match s with
  | Send f => let? b := to_vec f proto in Ok [b]
  | SendRaw b => Ok [b]
  | SendChunked b chunk _ => Ok (chunks (length b) (chunk `max` 1) b)
  | SplitAt b at_ _ => Ok (pieces b 0 at_)
  | BlobStream len chunk fill =>
      Ok ([bs "$" ++ print_unsigned len ++ crlf]
          ++ blob_writes (Z.to_nat len) len (chunk `max` 1) fill ++ [crlf])
  | TruncatedBulk declared actual => Ok [bs "$" ++ print_unsigned declared ++ crlf; replicate actual "x"%byte]
  | _ => Ok []
  end.

(** The writes, and the commands received or the error. *)
Fixpoint play_from (proto : Proto) (i : nat) (script : list Step) (rs : list bytes) (inbuf : bytes)
    (received : list (list bytes)) : list bytes * result ServeError (list (list bytes)) :=
  match script with
  | [] => ([], Ok received)
  | s :: rest =>
      match s with
      | Expect _ | ReadCommand =>
          match read_one_command rs inbuf i with
          | Err e => ([], Err e)
          | Ok (got, rs', inbuf') =>
              match s with
              | Expect expected =>
                  if decide (expected <> [] /\ got <> expected) then ([], Err (Mismatch expected got))
                  else play_from proto (S i) rest rs' inbuf' (received ++ [got])
              | _ => play_from proto (S i) rest rs' inbuf' (received ++ [got])
              end
          end
      | TruncatedBulk _ _ =>
          match step_writes proto s with
          | Ok w => (w, Ok received)
          | Err e => ([], Err (EncodeFailed e))
          end
      | Close | Hang => ([], Ok received)
      | _ =>
          match step_writes proto s with
          | Err e => ([], Err (EncodeFailed e))
          | Ok w => let '(ws, r) := play_from proto (S i) rest rs inbuf received in (w ++ ws, r)
          end
      end
  end.

Definition play (proto : Proto) (script : list Step) (rs : list bytes)
  : list bytes * result ServeError (list (list bytes)) := play_from proto 0 script rs [] [].

(** * The synthetic server and the client agree

    The client decodes a frame of the server to what the frame stands for, in
    both protocols; the server reads a command of the client as its arguments,
    however its bytes arrive; and a script that answers a call answers it. *)

(** ** What a frame stands for *)

Definition resp3 (proto : Proto) : bool := match proto with Resp3 => true | Resp2 => false end.

Fixpoint value_of (proto : Proto) (f : Frame) : Value :=
  let pairs kv := map (fun p => (value_of proto p.1, value_of proto p.2)) kv in
  match f with
  | Simple b => VSimple b
  | Error b => VError b
  | Integer i => VInteger i
  | Bulk b => VBulk b
  | NullBulk => VNull NBulk
  | NullArray => VNull NArray
  | Null => VNull (if resp3 proto then NResp3 else NBulk)
  | Array v | StreamedArray v => VArray (map (value_of proto) v)
  | Boolean b => if resp3 proto then VBoolean b else VInteger (if b then 1 else 0)
  | Double b => if resp3 proto then VDouble b else VBulk b
  | BigNumber b => if resp3 proto then VBigNumber b else VBulk b
  | BulkError b => if resp3 proto then VBulkError b else VError b
  | Verbatim f b => if resp3 proto then VVerbatim f b else VBulk b
  | Map kv | StreamedMap kv =>
      if resp3 proto then VMap (pairs kv)
      else VArray (concat (map (fun p => [p.1; p.2]) (pairs kv)))
  | FSet v | StreamedSet v =>
      if resp3 proto then VSet (map (value_of proto) v) else VArray (map (value_of proto) v)
  | Attribute attrs x => VAttribute (pairs attrs) (value_of proto x)
  | Push v => VPush (map (value_of proto) v)
  | StreamedBulk cs => VBulk (concat cs)
  end.

(** The frames that can be sent: payloads of lines are one line, numbers are
    numbers, everything is within the client's budget, and the protocol has a
    form for it. *)
Fixpoint sendable (proto : Proto) (room : nat) (bud : Budget) (f : Frame) : bool :=
  match room with
  | O => false
  | S deeper =>
      let all v := forallb (sendable proto deeper bud) v in
      let all_pairs kv := forallb (fun p => sendable proto deeper bud p.1 && sendable proto deeper bud p.2) kv in
      match f with
      | Simple b | Error b => one_line b
      | Integer z => bool_decide (i64_min <= z <= i64_max)
      | Bulk b => fits (zlen b) (max_bulk_bytes bud)
      | NullBulk | NullArray | Null | Boolean _ => true
      | Double b => if resp3 proto then one_line b && is_ok (validate_double b) else fits (zlen b) (max_bulk_bytes bud)
      | BigNumber b => if resp3 proto then one_line b && is_ok (validate_bignum b) else fits (zlen b) (max_bulk_bytes bud)
      | BulkError b => if resp3 proto then fits (zlen b) (max_bulk_bytes bud) else one_line b
      | Verbatim _ b => fits (zlen b + (if resp3 proto then 4 else 0)) (max_bulk_bytes bud)
      | Array v | FSet v => fits (zlen v) (max_elements bud) && all v
      | Map kv => fits (if resp3 proto then zlen kv else zlen kv * 2) (max_elements bud) && all_pairs kv
      | Attribute attrs x => resp3 proto && (fits (zlen attrs) (max_elements bud) && all_pairs attrs && sendable proto deeper bud x)
      | StreamedBulk cs =>
          resp3 proto && (forallb (fun c => bool_decide (c <> [])) cs && fits (zlen (concat cs)) (max_bulk_bytes bud))
      | Push v | StreamedArray v | StreamedSet v => resp3 proto && (fits (zlen v) (max_elements bud) && all v)
      | StreamedMap kv => resp3 proto && (fits (zlen kv) (max_elements bud) && all_pairs kv)
      end
  end.

Definition frame_reads (proto : Proto) (room : nat) (bud : Budget) (f : Frame) : Prop :=
  exists b, encode f proto = Ok b /\ forall r, parse_value room bud (b ++ r) = PDone (value_of proto f) r.

(** ** Sequences *)

Section sequences.
Context (proto : Proto) (room : nat) (bud : Budget).
Context (IH : forall f, sendable proto room bud f = true -> frame_reads proto room bud f).
Abbreviation enc := (fun x => encode x proto).
Abbreviation pv := (parse_value room bud).

(** A byte string that some parser reads, whatever follows, as a value. *)
Definition reads_as {A} (p : bytes -> parsed A) (x : bytes * A) : Prop := forall r, p (x.1 ++ r) = PDone x.2 r.

Lemma parse_n_reads {A} (p : bytes -> parsed A) (xs : list (bytes * A)) r :
  Forall (reads_as p) xs -> parse_n p (length xs) (concat xs.*1 ++ r) = PDone xs.*2 r.
Proof.
  induction 1 as [|[b x] xs Hx _ IHxs]; cbn; [done|]. rewrite <- app_assoc, (Hx _). cbn. by rewrite IHxs.
Qed.

Lemma items_read v : forallb (sendable proto room bud) v = true ->
  exists xs, encode_items enc v = Ok (concat xs.*1) /\ xs.*2 = map (value_of proto) v /\ Forall (reads_as pv) xs.
Proof.
  induction v as [|f v IHv]; cbn [forallb]; [by exists []|].
  intros [(b&Hb&Hr)%IH (xs&Hxs&Hv&Hf)%IHv]%andb_true_iff.
  exists ((b, value_of proto f) :: xs). cbn. rewrite Hb. cbn. rewrite Hxs. cbn.
  split_and!; [done|by rewrite Hv|by constructor].
Qed.

Lemma entries_read kv : forallb (fun p => sendable proto room bud p.1 && sendable proto room bud p.2) kv = true ->
  exists xs, encode_entries enc kv = Ok (concat (map (fun x => x.1.1 ++ x.2.1) xs)) /\
    map (fun x => (x.1.2, x.2.2)) xs = map (fun p => (value_of proto p.1, value_of proto p.2)) kv /\
    Forall (fun x => reads_as pv x.1 /\ reads_as pv x.2) xs.
Proof.
  induction kv as [|[k w] kv IHkv]; cbn [forallb]; [by exists []|].
  intros [[(bk&Hk&Hrk)%IH (bw&Hw&Hrw)%IH]%andb_true_iff (xs&Hxs&Hv&Hf)%IHkv]%andb_true_iff.
  exists (((bk, value_of proto k), (bw, value_of proto w)) :: xs). cbn in *. rewrite Hk. cbn. rewrite Hw. cbn.
  rewrite Hxs. cbn. split_and!; [by rewrite <- app_assoc|by rewrite Hv|by constructor].
Qed.

(** Entries as pairs, and as items one after the other. *)
Lemma entries_pairs (xs : list ((bytes * Value) * (bytes * Value))) r :
  Forall (fun x => reads_as pv x.1 /\ reads_as pv x.2) xs ->
  parse_n (parse_pair pv) (length xs) (concat (map (fun x => x.1.1 ++ x.2.1) xs) ++ r)
  = PDone (map (fun x => (x.1.2, x.2.2)) xs) r.
Proof.
  induction 1 as [|[[bk k] [bw w]] xs [Hk Hw] _ IHxs]; cbn; [done|].
  unfold parse_pair at 1. rewrite <- !app_assoc, (Hk _). cbn. rewrite (Hw _). cbn. by rewrite IHxs.
Qed.

Lemma entries_items (xs : list ((bytes * Value) * (bytes * Value))) r :
  Forall (fun x => reads_as pv x.1 /\ reads_as pv x.2) xs ->
  parse_n pv (length xs * 2) (concat (map (fun x => x.1.1 ++ x.2.1) xs) ++ r)
  = PDone (concat (map (fun p : Value * Value => [p.1; p.2]) (map (fun x => (x.1.2, x.2.2)) xs))) r.
Proof.
  induction 1 as [|[[bk k] [bw w]] xs [Hk Hw] _ IHxs]; cbn; [done|].
  rewrite <- !app_assoc, (Hk _). cbn. rewrite (Hw _). cbn. by rewrite IHxs.
Qed.

End sequences.

(** ** Streams *)

Section streams.
Context (bud : Budget).

(** A parser that does not take a stream's terminator for an element. *)
Definition not_dot {A} (p : bytes -> parsed A) : Prop := forall b x r, p b = PDone x r -> exists c b', b = c :: b' /\ c <> "."%byte.

Lemma value_not_dot room : not_dot (parse_value room bud).
Proof.
  intros [|c b] x r; destruct room as [|room]; try done. intros H. exists c, b. split; [done|]. by intros ->.
Qed.

Lemma pair_not_dot room : not_dot (parse_pair (parse_value room bud)).
Proof.
  intros b [k w] r. unfold parse_pair. destruct (parse_value room bud b) as [v r'| |] eqn:E; [|done|done].
  intros _. by apply value_not_dot in E.
Qed.

Lemma streamed_loop {A} (p : bytes -> parsed A) (xs : list (bytes * A)) acc r :
  consumes p -> not_dot p -> Forall (reads_as p) xs -> zlen acc + zlen xs <= max_elements bud ->
  let b := concat xs.*1 ++ bs "." ++ crlf ++ r in
  ploop (streamed_round bud p) (S (length b)) acc b = PDone (acc ++ xs.*2) r.
Proof.
  intros Hp Hd Hxs. cbv zeta. revert acc. induction Hxs as [|[b x] xs Hx _ IH]; intros acc Hl.
  - cbn. rewrite decide_True by done. cbn. by rewrite app_nil_r.
  - rewrite ploop_unroll by (intros; by apply streamed_round_consumes). cbn [fmap list_fmap concat fst].
    rewrite <- app_assoc. specialize (Hx (concat xs.*1 ++ bs "." ++ crlf ++ r)). cbn [fst snd] in Hx.
    destruct (Hd _ _ _ Hx) as (c&b'&Eb&Hc). rewrite zlen_cons in Hl. pose proof (zlen_nonneg xs).
    unfold streamed_round at 1. rewrite Eb in Hx |- *. rewrite decide_False by done. rewrite Hx. cbn [pbind].
    rewrite decide_False by (rewrite zlen_app; unfold zlen in *; cbn; lia). cbn [pbind].
    rewrite IH; [by rewrite <- app_assoc|]. rewrite zlen_app. unfold zlen in *. cbn. lia.
Qed.

Lemma streamed_reads {A} (p : bytes -> parsed A) (xs : list (bytes * A)) r :
  consumes p -> not_dot p -> Forall (reads_as p) xs -> zlen xs <= max_elements bud ->
  parse_streamed bud p (concat xs.*1 ++ bs "." ++ crlf ++ r) = PDone xs.*2 r.
Proof. intros. by apply (streamed_loop p xs []). Qed.

Lemma chunk_reads c out r :
  c <> [] -> zlen out + zlen c <= max_bulk_bytes bud -> zlen c <= i64_max ->
  chunk_round bud out (put_len ";" (zlen c) ++ c ++ crlf ++ r) = PDone (inl (out ++ c)) r.
Proof.
  intros Hc Hb Hm. pose proof (zlen_nonneg c). pose proof (zlen_nonneg out).
  assert (zlen c <> 0) by (unfold zlen; destruct c; cbn; [done|lia]).
  assert (zlen c <= max_bulk_bytes bud) by lia.
  unfold put_len, chunk_round. cbn [app]. rewrite decide_True by done. rewrite print_unsigned_signed by done.
  rewrite <- app_assoc. change (crlf ++ c ++ crlf ++ r) with ([x0d; x0a] ++ c ++ crlf ++ r).
  rewrite line_line_of by apply graphic_one_line, print_signed_graphic. cbn [pbind].
  rewrite parse_len_print by (done || lia). cbn [pcheck].
  rewrite !decide_False by lia. by rewrite payload_exact.
Qed.

Lemma chunks_end out r :
  0 <= max_bulk_bytes bud -> chunk_round bud out (bs ";0" ++ crlf ++ r) = PDone (inr out) r.
Proof.
  intros H0. change (bs ";0" ++ crlf ++ r) with (";"%byte :: print_signed 0 ++ [x0d; x0a] ++ r).
  unfold chunk_round. cbv beta iota. rewrite decide_True by done. rewrite line_line_of by done. cbn [pbind].
  by rewrite parse_len_print by done.
Qed.

Lemma chunks_loop cs out r b :
  Forall (fun c => c <> []) cs -> zlen out + zlen (concat cs) <= max_bulk_bytes bud -> zlen (concat cs) <= i64_max ->
  encode_chunks cs = Ok b ->
  ploop (chunk_round bud) (S (length (b ++ bs ";0" ++ crlf ++ r))) out (b ++ bs ";0" ++ crlf ++ r)
  = PDone (out ++ concat cs) r.
Proof.
  intros Hcs. revert out b. induction Hcs as [|c cs Hc _ IH]; intros out b Hb Hm He.
  - injection He as <-. cbn [app]. rewrite ploop_unroll by apply chunk_round_consumes.
    rewrite chunks_end by (pose proof (zlen_nonneg out); unfold zlen in *; cbn in Hb; lia).
    cbn. by rewrite app_nil_r.
  - cbn [encode_chunks concat] in *. rewrite decide_False in He by done.
    destruct (encode_chunks cs) as [b'|] eqn:E; [|done]. cbn [rbind] in He.
    assert (b = put_len ";" (zlen c) ++ c ++ crlf ++ b') as -> by congruence. clear He.
    rewrite zlen_app in Hb, Hm. pose proof (zlen_nonneg c). pose proof (zlen_nonneg (concat cs)).
    rewrite <- !app_assoc. rewrite ploop_unroll by apply chunk_round_consumes.
    rewrite chunk_reads by (done || lia). cbn [pbind].
    rewrite IH; [by rewrite <- app_assoc|rewrite zlen_app; lia|lia|done].
Qed.

Lemma encode_chunks_ok cs : Forall (fun c => c <> []) cs -> exists b, encode_chunks cs = Ok b.
Proof.
  induction 1 as [|c cs Hc _ (b&IH)]; cbn; [by eexists|]. rewrite decide_False by done. rewrite IH. by eexists.
Qed.
End streams.

(** ** One frame *)

Lemma put_len_signed tag n : 0 <= n -> put_len tag n = tag :: print_signed n ++ [x0d; x0a].
Proof. intros. unfold put_len. by rewrite print_unsigned_signed. Qed.

Section one_frame.
Context (proto : Proto) (room : nat) (bud : Budget).
Context (IH : forall f, sendable proto room bud f = true -> frame_reads proto room bud f).

Lemma blob_frame_reads (tag : byte) b r :
  tag = "$"%byte \/ tag = "!"%byte -> fits (zlen b) (max_bulk_bytes bud) = true ->
  parse_value (S room) bud (put_blob tag b ++ r)
  = PDone (if decide (tag = "$"%byte) then VBulk b else VBulkError b) r.
Proof.
  intros Ht Hf. unfold put_blob. rewrite put_len_signed by apply zlen_nonneg. rewrite <- !app_assoc. cbn [app].
  destruct Ht as [-> | ->]; rewrite parse_value_blob by done; rewrite <- !app_assoc;
    change (crlf ++ r) with ([x0d; x0a] ++ r); by rewrite parse_blob_print.
Qed.

Lemma line_reads (tag : byte) l r :
  is_line_tag tag = true -> one_line l = true ->
  parse_value (S room) bud (tag :: (l ++ crlf) ++ r) = parse_line_scalar tag (l ++ crlf ++ r)
  /\ line (l ++ crlf ++ r) = PDone l r.
Proof.
  intros Ht Hl. rewrite <- app_assoc. split; [by rewrite parse_value_line|by apply line_line_of].
Qed.

Lemma items_aggregate (tag : byte) v :
  tag = "*"%byte \/ tag = "~"%byte \/ tag = ">"%byte ->
  fits (zlen v) (max_elements bud) = true -> forallb (sendable proto room bud) v = true ->
  exists b, encode_items (fun x => encode x proto) v = Ok b /\
    forall r, parse_value (S room) bud ((put_len tag (zlen v) ++ b) ++ r)
              = PDone (collection tag (map (value_of proto) v)) r.
Proof.
  intros Ht Hf (xs&Hb&Hv&Hx)%(items_read proto room bud IH). exists (concat xs.*1). split; [done|]. intros r.
  rewrite put_len_signed by apply zlen_nonneg. cbn [app]. rewrite <- !app_assoc.
  assert (length v = length xs) as Hl by (rewrite <- (length_map (value_of proto)), <- Hv; by rewrite length_fmap).
  rewrite parse_value_aggregate by (destruct Ht as [-> |[-> | ->]]; done).
  rewrite read_aggregate by (done || (destruct Ht as [-> |[-> | ->]]; done)).
  rewrite Hl, parse_n_reads by done. cbn [pbind]. by rewrite Hv.
Qed.

Lemma entries_map kv :
  fits (zlen kv) (max_elements bud) = true ->
  forallb (fun p => sendable proto room bud p.1 && sendable proto room bud p.2) kv = true ->
  exists b, encode_entries (fun x => encode x proto) kv = Ok b /\
    forall r, parse_value (S room) bud ((put_len "%" (zlen kv) ++ b) ++ r)
              = PDone (VMap (map (fun p => (value_of proto p.1, value_of proto p.2)) kv)) r.
Proof.
  intros Hf (xs&Hb&Hv&Hx)%(entries_read proto room bud IH). eexists. split; [done|]. intros r.
  rewrite put_len_signed by apply zlen_nonneg. cbn [app]. rewrite <- !app_assoc.
  assert (length kv = length xs) as Hl by (rewrite <- (length_map (fun p => (value_of proto p.1, value_of proto p.2))), <- Hv; by rewrite length_map).
  unfold zlen. rewrite Hl. fold (zlen xs).
  rewrite parse_value_aggregate by done.
  replace (zlen xs) with (zlen (map (fun x : (bytes * Value) * (bytes * Value) => (x.1.2, x.2.2)) xs))
    by (unfold zlen; by rewrite length_map).
  rewrite read_map by (rewrite Hv; unfold fits, zlen in *; by rewrite length_map).
  rewrite length_map, entries_pairs by done. cbn [pbind]. by rewrite Hv.
Qed.

Lemma entries_array kv :
  fits (zlen kv * 2) (max_elements bud) = true ->
  forallb (fun p => sendable proto room bud p.1 && sendable proto room bud p.2) kv = true ->
  exists b, encode_entries (fun x => encode x proto) kv = Ok b /\
    forall r, parse_value (S room) bud ((put_len "*" (zlen kv * 2) ++ b) ++ r)
              = PDone (VArray (concat (map (fun p : Value * Value => [p.1; p.2])
                                         (map (fun p => (value_of proto p.1, value_of proto p.2)) kv)))) r.
Proof.
  intros Hf (xs&Hb&Hv&Hx)%(entries_read proto room bud IH). eexists. split; [done|]. intros r.
  assert (length kv = length xs) as Hl by (rewrite <- (length_map (fun p => (value_of proto p.1, value_of proto p.2))), <- Hv; by rewrite length_map).
  set (ys := replicate (length xs * 2) tt).
  assert (zlen kv * 2 = zlen ys) as En by (unfold zlen, ys; rewrite length_replicate; lia). rewrite En in Hf |- *.
  rewrite put_len_signed by apply zlen_nonneg. cbn [app]. rewrite <- !app_assoc.
  rewrite parse_value_aggregate by done. rewrite read_aggregate by done.
  replace (length ys) with (length xs * 2)%nat by (unfold ys; by rewrite length_replicate).
  rewrite entries_items by done. cbn [pbind]. by rewrite Hv.
Qed.

Lemma attribute_frame_reads attrs x :
  fits (zlen attrs) (max_elements bud) = true ->
  forallb (fun p => sendable proto room bud p.1 && sendable proto room bud p.2) attrs = true ->
  sendable proto room bud x = true ->
  exists a b, encode_entries (fun x => encode x proto) attrs = Ok a /\ encode x proto = Ok b /\
    forall r, parse_value (S room) bud ((put_len "|" (zlen attrs) ++ a ++ b) ++ r)
              = PDone (VAttribute (map (fun p => (value_of proto p.1, value_of proto p.2)) attrs) (value_of proto x)) r.
Proof.
  intros Hf (xs&Hb&Hv&Hx)%(entries_read proto room bud IH) (b&Hbx&Hrx)%IH. do 2 eexists. split; [done|].
  split; [done|]. intros r.
  rewrite put_len_signed by apply zlen_nonneg. cbn [app]. rewrite <- !app_assoc.
  assert (length attrs = length xs) as Hl by (rewrite <- (length_map (fun p => (value_of proto p.1, value_of proto p.2))), <- Hv; by rewrite length_map).
  unfold zlen. rewrite Hl. fold (zlen xs). rewrite parse_value_attribute by done.
  replace (zlen xs) with (zlen (map (fun x : (bytes * Value) * (bytes * Value) => (x.1.2, x.2.2)) xs))
    by (unfold zlen; by rewrite length_map).
  rewrite read_attribute by (rewrite Hv; unfold fits, zlen in *; by rewrite length_map).
  rewrite length_map, entries_pairs by done. cbn [pbind]. rewrite Hrx. cbn [pbind]. by rewrite Hv.
Qed.
End one_frame.

Section one_streamed.
Context (room : nat) (bud : Budget).
Context (IH : forall f, sendable Resp3 room bud f = true -> frame_reads Resp3 room bud f).

Lemma streamed_items (tag : byte) v :
  tag = "*"%byte \/ tag = "~"%byte ->
  fits (zlen v) (max_elements bud) = true -> forallb (sendable Resp3 room bud) v = true ->
  exists b, encode_items (fun x => encode x Resp3) v = Ok b /\
    forall r, parse_value (S room) bud (((tag :: bs "?") ++ crlf ++ b ++ bs "." ++ crlf) ++ r)
              = PDone (collection tag (map (value_of Resp3) v)) r.
Proof.
  intros Ht [Hf _]%fits_spec (xs&Hb&Hv&Hx)%(items_read Resp3 room bud IH).
  exists (concat xs.*1). split; [done|]. intros r. cbn [app].
  assert (length v = length xs) as Hl by (rewrite <- (length_map (value_of Resp3)), <- Hv; by rewrite length_fmap).
  rewrite parse_value_aggregate by (destruct Ht as [-> | ->]; done).
  rewrite <- !app_assoc. unfold parse_aggregate.
  change (bs "?" ++ crlf ++ ?x) with (bs "?" ++ [x0d; x0a] ++ x). rewrite line_line_of by done. cbn [pbind].
  rewrite decide_True by done. rewrite decide_False by (destruct Ht as [-> | ->]; done).
  rewrite streamed_reads; [cbn [pbind]; by rewrite Hv|apply parse_value_consumes|apply value_not_dot|done|].
  unfold zlen in *. lia.
Qed.

Lemma streamed_entries kv :
  fits (zlen kv) (max_elements bud) = true ->
  forallb (fun p => sendable Resp3 room bud p.1 && sendable Resp3 room bud p.2) kv = true ->
  exists b, encode_entries (fun x => encode x Resp3) kv = Ok b /\
    forall r, parse_value (S room) bud ((("%"%byte :: bs "?") ++ crlf ++ b ++ bs "." ++ crlf) ++ r)
              = PDone (VMap (map (fun p => (value_of Resp3 p.1, value_of Resp3 p.2)) kv)) r.
Proof.
  intros [Hf _]%fits_spec (xs&Hb&Hv&Hx)%(entries_read Resp3 room bud IH).
  eexists. split; [done|]. intros r. cbn [app].
  assert (length kv = length xs) as Hl by (rewrite <- (length_map (fun p => (value_of Resp3 p.1, value_of Resp3 p.2))), <- Hv; by rewrite length_map).
  set (ys := map (fun x : (bytes * Value) * (bytes * Value) => (x.1.1 ++ x.2.1, (x.1.2, x.2.2))) xs).
  assert (map (fun x : (bytes * Value) * (bytes * Value) => x.1.1 ++ x.2.1) xs = ys.*1) as E1
    by (unfold ys; rewrite <- list_fmap_compose; done).
  assert (map (fun x : (bytes * Value) * (bytes * Value) => (x.1.2, x.2.2)) xs = ys.*2) as E2
    by (unfold ys; rewrite <- list_fmap_compose; done).
  assert (Forall (reads_as (parse_pair (parse_value room bud))) ys) as Hy.
  { apply Forall_map. eapply Forall_impl; [exact Hx|]. intros [[bk k] [bw w]] [Hk Hw] r'.
    unfold parse_pair. cbn. rewrite <- app_assoc, (Hk _). cbn. by rewrite (Hw _). }
  rewrite E1. rewrite E2 in Hv. rewrite parse_value_aggregate by done.
  rewrite <- !app_assoc. unfold parse_aggregate.
  change (bs "?" ++ crlf ++ ?x) with (bs "?" ++ [x0d; x0a] ++ x). rewrite line_line_of by done. cbn [pbind].
  rewrite !decide_True by done.
  rewrite streamed_reads; [cbn [pbind]; by rewrite Hv|apply parse_pair_consumes, parse_value_consumes
                          |apply pair_not_dot|done|].
  unfold ys, zlen in *. rewrite length_map. lia.
Qed.

Lemma streamed_bulk cs :
  forallb (fun c => bool_decide (c <> [])) cs = true -> fits (zlen (concat cs)) (max_bulk_bytes bud) = true ->
  exists b, encode_chunks cs = Ok b /\
    forall r, parse_value (S room) bud ((("$"%byte :: bs "?") ++ crlf ++ b ++ bs ";0" ++ crlf) ++ r)
              = PDone (VBulk (concat cs)) r.
Proof.
  intros Hc [Hf Hm]%fits_spec.
  assert (Forall (fun c => c <> []) cs) as Hcs.
  { apply Forall_forall. intros c Hin. rewrite forallb_forall in Hc. eapply bool_decide_eq_true, Hc, list_elem_of_In, Hin. }
  destruct (encode_chunks_ok cs Hcs) as [b Hb]. exists b. split; [done|]. intros r. cbn [app].
  rewrite parse_value_blob by done. rewrite <- !app_assoc. unfold parse_blob.
  change (bs "?" ++ crlf ++ ?x) with (bs "?" ++ [x0d; x0a] ++ x). rewrite line_line_of by done. cbn [pbind].
  rewrite decide_True by done. unfold bulk_chunks.
  by rewrite (chunks_loop bud cs [] r b) by (done || (cbn; lia)).
Qed.
End one_streamed.

(** Every frame that can be sent is encoded, and read as what it stands for. *)
Ltac line_case tag l :=
  intros r;
  match goal with |- parse_value (S ?room) ?bud _ = _ =>
    destruct (line_reads room bud tag l r) as [Ev El]; [done|done|];
    etransitivity; [exact Ev|]; unfold parse_line_scalar; rewrite El; cbn [pbind]
  end.

Ltac blob_case tag b := intros r; etransitivity; [apply (blob_frame_reads _ _ tag b r); [by auto|done]|]; done.

Lemma scalar_sendable_reads proto bud room f b :
  sendable proto (S room) bud f = true -> encode_scalar f proto = Some b ->
  forall r, parse_value (S room) bud (b ++ r) = PDone (value_of proto f) r.
Proof.
  intros H Hb. destruct f as [l|l|i|l| | | | |t|l|l|l|[[f0 f1] f2] l| | | | | | | |];
    destruct proto; cbn [encode_scalar] in Hb; simplify_eq; cbn [sendable resp3 value_of] in *;
    try (rewrite Z.add_0_r in H); try (apply andb_true_iff in H as [H Hv]); try (by blob_case "$"%byte l);
    try (by blob_case "!"%byte l); try (by destruct t); try done.
  1, 2: by line_case "+"%byte l.
  1, 2: by line_case "-"%byte l.
  1, 2: assert (one_line (print_signed i) = true) by apply graphic_one_line, print_signed_graphic;
        line_case ":"%byte (print_signed i); apply bool_decide_eq_true in H; by rewrite parse_i64_print.
  - line_case ","%byte l. by read_checked.
  - line_case "("%byte l. by read_checked.
  - by line_case "-"%byte l.
  - intros r. rewrite put_len_signed by (pose proof (zlen_nonneg l); lia). cbn [app]. rewrite <- !app_assoc.
    rewrite parse_value_blob by done. pose (b := f0 :: f1 :: f2 :: ":"%byte :: l).
    replace (zlen l + 4) with (zlen b) in * by (unfold zlen; cbn; lia).
    change (bs ":") with [":"%byte]. cbn [app]. rewrite <- app_assoc.
    change (parse_blob "="%byte bud (print_signed (zlen b) ++ [x0d; x0a] ++ b ++ [x0d; x0a] ++ r)
            = PDone (VVerbatim (f0, f1, f2) l) r).
    by rewrite parse_blob_print.
Qed.

Lemma sendable_reads proto bud room f : sendable proto room bud f = true -> frame_reads proto room bud f.
Proof.
  revert f. induction room as [|room IH]; intros f H; [done|].
  destruct (encode_scalar f proto) as [b|] eqn:E.
  { exists b. split; [destruct f; cbn [encode]; by rewrite E|by apply scalar_sendable_reads]. }
  unfold frame_reads. destruct f; destruct proto; cbn [encode_scalar] in E; try discriminate E;
    try destruct format as [[f0 f1] f2]; try discriminate E;
    cbn [sendable resp3 andb] in H; try discriminate H;
    repeat match goal with H : _ && _ = true |- _ => apply andb_true_iff in H as [? ?] end;
    cbn [encode encode_scalar value_of resp3]; clear E; unfold encode_streamed;
    rewrite ?decide_False by done.
  all: try (destruct (items_aggregate Resp2 room bud IH "*"%byte v) as (b&->&Hb); [by auto|done|done|]; by eexists).
  - destruct (items_aggregate Resp3 room bud IH "*"%byte v) as (b&->&Hb); [by auto|done|done|]. by eexists.
  - destruct (entries_array Resp2 room bud IH kv) as (b&->&Hb); [done|done|]. by eexists.
  - destruct (entries_map Resp3 room bud IH kv) as (b&->&Hb); [done|done|]. by eexists.
  - destruct (items_aggregate Resp3 room bud IH "~"%byte v) as (b&->&Hb); [by auto|done|done|]. by eexists.
  - destruct (attribute_frame_reads Resp3 room bud IH attrs f) as (a&b&->&->&Hb); [done|done|done|]. by eexists.
  - destruct (items_aggregate Resp3 room bud IH ">"%byte v) as (b&->&Hb); [by auto|done|done|]. by eexists.
  - match goal with _ : fits (zlen (concat ?cs)) _ = true |- _ => destruct (streamed_bulk room bud cs) as (b&->&Hb) end;
      [done|done|]. by eexists.
  - destruct (streamed_items room bud IH "*"%byte v) as (b&->&Hb); [by auto|done|done|]. by eexists.
  - destruct (streamed_entries room bud IH kv) as (b&->&Hb); [done|done|]. by eexists.
  - destruct (streamed_items room bud IH "~"%byte v) as (b&->&Hb); [by auto|done|done|]. by eexists.
Qed.

(** ** Reading commands *)

Lemma position_crlf_cons x y b :
  position_crlf (x :: y :: b) = if decide (x = x0d /\ y = x0a) then Some O else S <$> position_crlf (y :: b).
Proof. done. Qed.

Lemma position_crlf_app b c i : position_crlf b = Some i -> position_crlf (b ++ c) = Some i.
Proof.
  revert i. induction b as [|x [|y b] IH]; intros i; [done|done|]. cbn [app].
  rewrite !position_crlf_cons. destruct (decide _); [done|].
  intros (j&Hj&->)%fmap_Some. change (y :: b ++ c) with ((y :: b) ++ c). by rewrite (IH j).
Qed.

Lemma position_crlf_bound b i : position_crlf b = Some i -> (i + 2 <= length b)%nat.
Proof.
  revert i. induction b as [|x [|y b] IH]; intros i; [done|done|]. rewrite position_crlf_cons. destruct (decide _).
  - intros [= <-]. cbn. lia.
  - intros (j&Hj&->)%fmap_Some. specialize (IH j Hj). cbn in *. lia.
Qed.

Lemma position_crlf_line l r : (x0d ∉ l) -> position_crlf (l ++ crlf ++ r) = Some (length l).
Proof.
  induction l as [|c l IH]; intros Hl; [done|]. apply not_elem_of_cons in Hl as [Hc Hl]. specialize (IH Hl).
  cbn [app] in *. destruct (l ++ crlf ++ r) as [|y b] eqn:E; [by destruct l|].
  rewrite position_crlf_cons, decide_False by naive_solver. by rewrite IH.
Qed.

Lemma find_crlf_app b c i e : find_crlf b i = Some e -> find_crlf (b ++ c) i = Some e /\ (i + 2 <= e + 2 <= length b)%nat.
Proof.
  unfold find_crlf. intros (j&Hj&[= <-])%bind_Some. pose proof (position_crlf_bound _ _ Hj) as Hl.
  rewrite length_drop in Hl. rewrite drop_app_le by lia. rewrite (position_crlf_app _ _ _ Hj). cbn. split; [done|lia].
Qed.

Lemma slice_app b c i j : (j <= length b)%nat -> (i <= j)%nat -> slice (b ++ c) i j = slice b i j.
Proof.
  intros. unfold slice. rewrite drop_app_le by lia. apply take_app_le. rewrite length_drop. lia.
Qed.

(** A parser of the front of a buffer that answers does not change its answer
    when more arrives, and has used only what is there. *)
Lemma inbound_len_app b c i : inbound_len b i <> Err InboundIncomplete ->
  inbound_len (b ++ c) i = inbound_len b i /\ forall n e, inbound_len b i = Ok (n, e) -> (i + 2 <= e <= length b)%nat.
Proof.
  unfold inbound_len. destruct (find_crlf b i) as [e|] eqn:E; [|done]. intros _.
  destruct (find_crlf_app _ c _ _ E) as [-> He]. rewrite slice_app by lia. split; [done|].
  destruct (from_utf8 _); [|done]. destruct (parse_signed _ _ _); [|done]. intros ? ? [= <- <-]. lia.
Qed.

Lemma inbound_args_app n b c i : inbound_args n b i <> Err InboundIncomplete -> (i <= length b)%nat ->
  inbound_args n (b ++ c) i = inbound_args n b i /\ forall l e, inbound_args n b i = Ok (l, e) -> (e <= length b)%nat.
Proof.
  revert i. induction n as [|n IH]; intros i H Hi; cbn [inbound_args] in *.
  { split; [done|]. intros l e [= <- <-]. done. }
  destruct (b !! i) as [x|] eqn:E; [|done]. rewrite (lookup_app_l_Some _ _ _ _ E).
  destruct (negb _); [done|].
  destruct (inbound_len_app b c (i + 1)) as [El Hl].
  { intros E'. rewrite E' in H. by apply H. }
  rewrite El. destruct (inbound_len b (i + 1)) as [[len st]|e]; cbn [rbind] in *; [|done].
  specialize (Hl _ _ eq_refl). case_decide; [done|]. case_decide as Hs; [done|].
  rewrite decide_False by (rewrite zlen_app; pose proof (zlen_nonneg c); lia).
  assert (st + Z.to_nat len + 2 <= length b)%nat by (unfold zlen in Hs; lia).
  rewrite (slice_app b c (st + Z.to_nat len)) by lia. destruct (negb _); [done|].
  destruct (IH (st + Z.to_nat len + 2)%nat) as [Ea Ha]; [|lia|].
  { intros E'. rewrite E' in H. by apply H. }
  rewrite Ea. rewrite slice_app by lia. split; [done|].
  destruct (inbound_args n b _) as [[l e]|] eqn:E'; [|done]. intros ? ? [= <- <-]. by apply (Ha l).
Qed.

Lemma parse_command_app b c : parse_command b <> Err InboundIncomplete ->
  parse_command (b ++ c) = parse_command b /\ forall l e, parse_command b = Ok (l, e) -> (e <= length b)%nat.
Proof.
  destruct b as [|x b]; [done|]. unfold parse_command. cbn [app]. change (x :: b ++ c) with ((x :: b) ++ c).
  generalize (x :: b). clear b. intros b. case_decide.
  - destruct (find_crlf b 0) as [e|] eqn:E; [|done]. destruct (find_crlf_app _ c _ _ E) as [-> He].
    intros _. rewrite take_app_le by lia. split; [done|]. intros ? ? [= <- <-]. lia.
  - intros H'. destruct (inbound_len_app b c 1) as [El Hl].
    { intros E'. rewrite E' in H'. by apply H'. }
    rewrite El. destruct (inbound_len b 1) as [[n pos]|e]; cbn [rbind] in *; [|done].
    specialize (Hl _ _ eq_refl). case_decide; [|done]. apply inbound_args_app; [done|lia].
Qed.

(** ** The client's commands *)

Definition receivable (argv : list bytes) : Prop :=
  zlen argv <= MAX_ARGS /\ Forall (fun a : bytes => zlen a <= i64_max) argv.

Definition encode_args (argv : list bytes) : bytes :=
  concat (map (fun a => bs "$" ++ print_unsigned (zlen a) ++ crlf ++ a ++ crlf) argv).

Lemma slice_mid (p x r : bytes) i j : i = length p -> j = (length p + length x)%nat -> slice (p ++ x ++ r) i j = x.
Proof.
  intros -> ->. unfold slice. rewrite drop_app_length. replace (_ + _ - _)%nat with (length x) by lia.
  by rewrite take_app_length.
Qed.

Lemma inbound_len_print p n r i : i = length p -> 0 <= n <= i64_max ->
  inbound_len (p ++ print_unsigned n ++ crlf ++ r) i = Ok (n, (length p + length (print_unsigned n) + 2)%nat).
Proof.
  intros -> Hn. rewrite print_unsigned_signed by lia. pose proof (print_signed_graphic n) as Hg.
  assert (x0d ∉ print_signed n) by (by apply graphic_no_byte; [|intros []]).
  unfold inbound_len, find_crlf. rewrite drop_app_length, position_crlf_line by done. cbn [mbind option_bind].
  rewrite slice_mid by done. rewrite from_utf8_ascii by (by apply graphic_ascii).
  rewrite parse_signed_print by (unfold i64_min; lia). do 2 f_equal.
Qed.

Lemma inbound_args_encode argv p r i : Forall (fun a : bytes => zlen a <= i64_max) argv -> i = length p ->
  inbound_args (length argv) (p ++ encode_args argv ++ r) i = Ok (argv, (length p + length (encode_args argv))%nat).
Proof.
  intros Ha. revert p i. induction Ha as [|a argv Ha _ IH]; intros p i ->; cbn [inbound_args length].
  { unfold encode_args. cbn. do 2 f_equal. lia. }
  set (d := print_unsigned (zlen a)).
  assert (encode_args (a :: argv) = "$"%byte :: d ++ crlf ++ a ++ crlf ++ encode_args argv) as E.
  { unfold encode_args. cbn [map concat]. rewrite <- !app_assoc. done. }
  rewrite E. cbn [app]. rewrite list_lookup_middle by done. rewrite bool_decide_true by done. cbn [negb].
  replace (p ++ "$"%byte :: (d ++ crlf ++ a ++ crlf ++ encode_args argv) ++ r)
    with ((p ++ bs "$") ++ d ++ crlf ++ a ++ crlf ++ encode_args argv ++ r)
    by (change (bs "$") with ["$"%byte]; rewrite <- ?app_assoc; cbn [app]; by rewrite <- ?app_assoc).
  pose proof (zlen_nonneg a). unfold d at 1. rewrite inbound_len_print; [|by rewrite length_app|lia].
  fold d. cbn [rbind]. rewrite decide_False by lia.
  set (q := (p ++ bs "$") ++ d ++ crlf).
  assert ((length (p ++ bs "$") + length d + 2)%nat = length q) as Eq.
  { unfold q. rewrite !length_app. cbn. lia. }
  rewrite Eq.
  replace ((p ++ bs "$") ++ d ++ crlf ++ a ++ crlf ++ encode_args argv ++ r)
    with (q ++ a ++ crlf ++ encode_args argv ++ r) by (unfold q; by rewrite <- !app_assoc).
  rewrite decide_False by (rewrite !zlen_app; unfold zlen; cbn; lia).
  replace (Z.to_nat (zlen a)) with (length a) by (unfold zlen; lia).
  rewrite (slice_mid q a _ (length q) (length q + length a)) by done.
  replace (q ++ a ++ crlf ++ encode_args argv ++ r) with ((q ++ a) ++ crlf ++ encode_args argv ++ r)
    by (by rewrite <- !app_assoc).
  rewrite (slice_mid (q ++ a) crlf) by (rewrite length_app; cbn; lia). rewrite bool_decide_true by done. cbn [negb].
  replace ((q ++ a) ++ crlf ++ encode_args argv ++ r) with ((q ++ a ++ crlf) ++ encode_args argv ++ r)
    by (by rewrite <- !app_assoc).
  rewrite IH by (rewrite !length_app; cbn; lia). cbn [rbind fst snd]. do 2 f_equal.
  clearbody q d. rewrite !length_app in *. cbn [length] in *. rewrite !length_app.
  change (length crlf) with 2%nat. change (length (bs "$")) with 1%nat in Eq. lia.
Qed.

Lemma parse_command_array b : parse_command ("*"%byte :: b) =
  (let? r := inbound_len ("*"%byte :: b) 1 in
   if decide (0 <= r.1 <= MAX_ARGS) then inbound_args (Z.to_nat r.1) ("*"%byte :: b) r.2 else Err (Malformed 0)).
Proof.
  unfold parse_command. rewrite decide_False by tauto. by destruct (inbound_len _ 1) as [[n pos]|].
Qed.

Lemma parse_command_encode argv r : receivable argv ->
  parse_command (encode_command argv ++ r) = Ok (argv, length (encode_command argv)).
Proof.
  intros [Hn Ha]. pose proof (zlen_nonneg argv). set (d := print_unsigned (zlen argv)).
  assert (encode_command argv = (bs "*" ++ d ++ crlf) ++ encode_args argv) as E.
  { unfold encode_command, d. fold (encode_args argv). by rewrite <- !app_assoc. }
  rewrite E. replace (((bs "*" ++ d ++ crlf) ++ encode_args argv) ++ r)
    with ("*"%byte :: d ++ crlf ++ encode_args argv ++ r) by (rewrite <- !app_assoc; done).
  rewrite parse_command_array.
  change ("*"%byte :: d ++ crlf ++ encode_args argv ++ r) with (bs "*" ++ d ++ crlf ++ encode_args argv ++ r).
  unfold d at 1. rewrite inbound_len_print by (done || (unfold MAX_ARGS, i64_max in *; lia)). fold d. cbn [rbind fst snd].
  rewrite decide_True by lia. replace (Z.to_nat (zlen argv)) with (length argv) by (unfold zlen; lia).
  replace (bs "*" ++ d ++ crlf ++ encode_args argv ++ r) with ((bs "*" ++ d ++ crlf) ++ encode_args argv ++ r)
    by (by rewrite <- !app_assoc).
  clearbody d. rewrite inbound_args_encode; [|done|rewrite !length_app; cbn; lia]. do 2 f_equal.
  by rewrite !length_app.
Qed.

(** ** Conversations *)

Abbreviation nonempty := (Forall (fun c : bytes => c <> [])).

(** However the bytes of a command arrive, it is read, and what follows it is
    kept. *)
Lemma read_one_command_spec rs buf i argv u : nonempty rs ->
  parse_command (buf ++ concat rs) = Ok (argv, u) ->
  exists rs' buf', read_one_command rs buf i = Ok (argv, rs', buf') /\
    buf' ++ concat rs' = drop u (buf ++ concat rs) /\ nonempty rs'.
Proof.
  intros Hrs. revert buf. induction Hrs as [|c rs Hc Hrs IH]; intros buf Hp.
  - cbn in *. rewrite app_nil_r in *. exists [], (drop u buf). rewrite Hp. by rewrite app_nil_r.
  - destruct (decide (parse_command buf = Err InboundIncomplete)) as [E|E].
    + cbn [concat] in Hp. rewrite app_assoc in Hp. destruct (IH _ Hp) as (rs'&buf'&Hr&Hb&Hn).
      exists rs', buf'. cbn [read_one_command concat]. rewrite E. destruct c as [|x c]; [done|].
      split_and!; [done|by rewrite app_assoc|done].
    + destruct (parse_command_app buf (concat (c :: rs)) E) as [Ea Hl]. rewrite Ea in Hp.
      exists (c :: rs), (drop u buf). cbn [read_one_command]. rewrite Hp.
      split_and!; [done| |by constructor]. rewrite drop_app_le; [done|]. by apply (Hl argv).
Qed.

Definition exchange (c : list bytes * Frame) : list Step := [Expect c.1; Send c.2].

Lemma play_exchanges proto calls : Forall (fun c => receivable c.1) calls -> forall ws i rs buf received,
  Forall2 (fun c w => encode c.2 proto = Ok w) calls ws -> nonempty rs ->
  buf ++ concat rs = concat (map (fun c => encode_command c.1) calls) ->
  play_from proto i (concat (map exchange calls)) rs buf received = (ws, Ok (received ++ map fst calls)).
Proof.
  induction 1 as [|[argv f] calls Hc _ IH]; intros ws i rs buf received Hws Hrs Hb.
  { apply Forall2_nil_inv_l in Hws as ->. cbn. by rewrite app_nil_r. }
  apply Forall2_cons_inv_l in Hws as (w&ws'&Hw&Hws&->). cbn [map concat fst snd] in *.
  pose proof (parse_command_encode argv (concat (map (fun c => encode_command c.1) calls)) Hc) as Hp.
  rewrite <- Hb in Hp. destruct (read_one_command_spec rs buf i _ _ Hrs Hp) as (rs'&buf'&Hr&Hb'&Hn).
  rewrite Hb, drop_app_length in Hb'.
  unfold exchange at 1. cbn [app fst snd play_from]. rewrite Hr, decide_False by tauto.
  unfold step_writes, to_vec. rewrite Hw. cbn [rbind].
  rewrite (IH ws' _ rs' buf' _ Hws Hn Hb'). by rewrite <- app_assoc.
Qed.

Definition new_with (b : bytes) : Decoder := mkDecoder b default_budget.

(** What a client decodes from frames one after the other. *)
Lemma read_frames proto (calls : list (list bytes * Frame)) ws :
  Forall (fun c => sendable proto (max_depth default_budget) default_budget c.2 = true) calls ->
  Forall2 (fun c w => encode c.2 proto = Ok w) calls ws -> zlen (concat ws) <= max_frame_bytes default_budget ->
  read_all (new_with (concat ws)) = mkReading (map (fun c => value_of proto c.2) calls) None with_defaults.
Proof.
  intros Hs. revert ws. induction Hs as [|c calls Hc _ IH]; intros ws Hws Hl.
  { by apply Forall2_nil_inv_l in Hws as ->. }
  apply Forall2_cons_inv_l in Hws as (w&ws'&Hw&Hws&->). cbn [concat map] in *.
  destruct (sendable_reads _ _ _ _ Hc) as (b&Hb&Hr). rewrite Hw in Hb. injection Hb as <-.
  rewrite read_all_unroll, decode_in_frame by done. cbn [buf budget new_with]. rewrite Hr.
  rewrite zlen_app in Hl. pose proof (zlen_nonneg w).
  change (mkDecoder (concat ws') default_budget) with (new_with (concat ws')). rewrite (IH ws') by (done || lia). done.
Qed.

(** C39. A conversation with the synthetic server is exact in both directions:
    for every list of commands with the frames that answer them, however the
    bytes of the client arrive at the server and those of the server at the
    client, the server reads the commands that were sent, argument for argument,
    and the client decodes the values the frames stand for in the protocol
    spoken, one per command, with nothing left over. The commands are those the
    server takes ([receivable]: no more than a million arguments, each within the
    range of a length). The frames are those that can be sent ([sendable]): a
    payload that is written on one line holds no line break, numbers are numbers,
    no chunk of a streamed string is empty, depth, elements and bulks are within
    the client's budget, and the protocol has a form for the frame, so neither
    pushes nor attributes nor streams in RESP2. All the answers together fit one
    frame buffer. *)
Theorem conversation_exact proto calls arriving :
  Forall (fun c : list bytes * Frame => receivable c.1
            /\ sendable proto (max_depth default_budget) default_budget c.2 = true) calls ->
  nonempty arriving -> concat arriving = concat (map (fun c => encode_command c.1) calls) ->
  exists ws, play proto (concat (map exchange calls)) arriving = (ws, Ok (map fst calls)) /\
    forall chunks, concat chunks = concat ws -> zlen (concat ws) <= max_frame_bytes default_budget ->
      receive with_defaults chunks = mkReading (map (fun c => value_of proto c.2) calls) None with_defaults.
Proof.
  intros Hc Ha He.
  assert (exists ws, Forall2 (fun c w => encode c.2 proto = Ok w) calls ws) as [ws Hws].
  { clear Ha He. induction Hc as [|c calls [_ Hc] _ [ws IH]]; [by exists []|].
    destruct (sendable_reads _ _ _ _ Hc) as (b&Hb&_). exists (b :: ws). by constructor. }
  exists ws. split.
  - apply (play_exchanges proto calls); [|done..]. eapply Forall_impl; [exact Hc|]. by intros ? [? _].
  - intros chunks E Hl. rewrite receive_whole by (unfold in_frame; cbn; by rewrite E).
    change (feed with_defaults (concat chunks)) with (new_with (concat chunks)). rewrite E.
    apply read_frames; [|done..]. eapply Forall_impl; [exact Hc|]. by intros ? [_ ?].
Qed.

Lemma conversation_exact_witness :
  let calls := [([bs "GET"; bs "k"], Bulk (bs "v")); ([bs "PING"], Map [(Simple (bs "a"), StreamedBulk [bs "x"])])] in
  let arriving := [bs "*2" ++ crlf ++ bs "$3" ++ [x0d]; [x0a] ++ bs "GET" ++ crlf ++ bs "$1" ++ crlf ++ bs "k" ++ crlf
                   ++ bs "*1" ++ crlf; bs "$4" ++ crlf ++ bs "PING" ++ crlf] in
  exists ws, play Resp3 (concat (map exchange calls)) arriving = (ws, Ok (map fst calls)) /\
    forall chunks, concat chunks = concat ws -> zlen (concat ws) <= max_frame_bytes default_budget ->
      receive with_defaults chunks = mkReading (map (fun c => value_of Resp3 c.2) calls) None with_defaults.
Proof.
  cbv zeta. apply conversation_exact.
  - repeat constructor; by vm_compute.
  - repeat constructor; discriminate.
  - reflexivity.
Defined.

(** ** Fragments *)

(** Steps that send the same bytes at once. *)
Definition whole (s : Step) : Step :=
  match s with
  | SendChunked b _ _ | SplitAt b _ _ => SendRaw b
  | BlobStream len _ fill => SendRaw (bs "$" ++ print_unsigned len ++ crlf ++ replicate (Z.to_nat len) fill ++ crlf)
  | _ => s
  end.

Lemma concat_chunks f n b : (0 < n)%nat -> (length b <= f)%nat -> concat (chunks f n b) = b.
Proof.
  intros Hn. revert b. induction f as [|f IH]; intros [|c b] Hl; try done; [cbn in Hl; lia|].
  destruct n as [|n]; [lia|]. cbn [chunks concat]. rewrite IH; [apply take_drop|].
  rewrite length_drop. cbn in *. lia.
Qed.

Lemma concat_pieces b prev at_ : (prev <= length b)%nat -> concat (pieces b prev at_) = drop prev b.
Proof.
  revert prev. induction at_ as [|cut at_ IH]; intros prev Hp; cbn [pieces].
  - case_decide; cbn; [by rewrite app_nil_r|]. by rewrite drop_ge by lia.
  - case_decide; [|by apply IH]. cbn [concat]. rewrite IH by lia. unfold slice.
    rewrite <- (take_drop (cut `min` length b - prev) (drop prev b)) at 2. rewrite drop_drop. do 3 f_equal. lia.
Qed.

Lemma concat_blob f len n fill : (0 < n)%nat -> (Z.to_nat len <= f)%nat ->
  concat (blob_writes f len n fill) = replicate (Z.to_nat len) fill.
Proof.
  intros Hn. revert len. induction f as [|f IH]; intros len Hl; cbn [blob_writes].
  - by replace (Z.to_nat len) with 0%nat by lia.
  - case_decide; [|by replace (Z.to_nat len) with 0%nat by lia]. cbn [concat]. rewrite IH by lia.
    rewrite <- replicate_add. f_equal. lia.
Qed.

Lemma step_writes_whole proto s :
  match step_writes proto s, step_writes proto (whole s) with
  | Ok ws, Ok ws' => concat ws = concat ws'
  | Err e, Err e' => e = e'
  | _, _ => False
  end.
Proof.
  destruct s as [| |f|b|b n d|b at_ d|len n fill|decl act| | |]; cbn [step_writes whole rbind]; try done.
  - by destruct (to_vec f proto).
  - rewrite concat_chunks by lia. cbn. by rewrite app_nil_r.
  - rewrite concat_pieces by lia. cbn. by rewrite app_nil_r.
  - cbn [concat app]. rewrite concat_app, concat_blob by lia. cbn [concat]. rewrite !app_nil_r. by rewrite <- !app_assoc.
Qed.

(** However a script cuts what it sends, the bytes on the wire and the outcome
    of the script are those of sending it whole. *)
Theorem fragments_are_whole proto script rs :
  concat (play proto script rs).1 = concat (play proto (map whole script) rs).1
  /\ (play proto script rs).2 = (play proto (map whole script) rs).2.
Proof.
  unfold play. generalize (@nil byte) (@nil (list bytes)) 0%nat rs. clear rs.
  induction script as [|s script IH]; intros inbuf received i rs; [done|].
  pose proof (step_writes_whole proto s) as Hs. cbn [map play_from].
  destruct s; cbn [whole] in *; try done; try (destruct (read_one_command _ _ _) as [[[got rs'] inbuf']|]; [|done]).
  1: by case_decide; [|apply IH].
  1: by apply IH.
  all: match type of Hs with
       | match ?m with _ => _ end => destruct m as [ws|e] eqn:E
       end.
  all: try match type of Hs with
       | match ?m with _ => _ end => destruct m as [ws'|e'] eqn:E'; [|done]
       end; try (cbn [step_writes] in Hs; by subst).
  all: destruct (IH inbuf received (S i) rs) as [Hw Hr].
  all: destruct (play_from _ _ script _ _ _) as [w1 r1], (play_from _ _ (map whole script) _ _ _) as [w2 r2].
  all: cbn [fst snd] in *; split; [|done]; rewrite !concat_app; congruence.
Qed.

(** ** What the encoder does not refuse *)

(** A push has a form in RESP2, which the comment says is refused: an array. *)
Lemma push_down_converted v b : to_vec (Push v) Resp2 = Ok b -> to_vec (Array v) Resp2 = Ok b.
Proof. done. Qed.

(** A line break in a payload of one line makes two frames of one. *)
Lemma line_break_splits :
  exists b, to_vec (BulkError (bs "a" ++ crlf ++ bs "+b")) Resp2 = Ok b /\
    values (read_all (new_with b)) = [VError (bs "a"); VSimple (bs "b")].
Proof. eexists. split; [reflexivity|]. by vm_compute. Qed.
