(* ===== verification/Corpus.v ===== *)
(** * The hostile corpus ([xtask/resp-server/src/hostile.rs])

    The samples of every category, as the generator computes them, and what
    the decoder makes of each under its default budget. *)

From S2P Require Import Prelude Text TextFacts Value Decoder Framing Roundtrip Oneshot Fixtures.

Inductive Expectation := ProtocolError | Valid | BudgetExceeded | IncompleteFrame.
#[export] Instance Expectation_eq_dec : EqDecision Expectation.
Proof. solve_decision. Defined.

Record Sample := mkSample {
  category : string;
  name : bytes;
  content : bytes;
  expectation : Expectation;
}.

Definition r3 (f : Frame) : bytes :=
  match to_vec f Resp3 with
  | Ok b => b
  | Err _ => []
  end.

(** [{:02x}], [{i}] and [{i:02}]. *)
Definition dec (n : Z) : bytes := print_unsigned n.
Definition dec2 (n : Z) : bytes := if decide (n < 10) then bs "0" ++ dec n else dec n.

Definition enumerate {A} (l : list A) : list (Z * A) := imap (fun i x => (Z.of_nat i, x)) l.
Definition upto (n : nat) : list Z := Z.of_nat <$> seq 0 n.

(** ** The categories *)

Definition malformed_length : list Sample :=
  let c := "malformed-length"%string in
  concat (map (fun '(i, b) =>
    map (fun '(j, p) =>
      mkSample c (bs "t" ++ hex2 p ++ bs "-" ++ dec i ++ bs "-" ++ dec j) (p :: b ++ crlf) ProtocolError)
      (enumerate (bs "$*%~!=")))
    (enumerate [bs "abc"; bs "-5"; bs "1.5"; bs "+3"; bs " 3"; bs "3 "; []; bs "0x10"]))
  ++ concat (map (fun '(i, big) =>
       [mkSample c (bs "overflow-" ++ dec i) (bs "$" ++ big ++ crlf) ProtocolError;
        mkSample c (bs "overflow-int-" ++ dec i) (bs ":" ++ big ++ crlf) ProtocolError])
       (enumerate [bs "99999999999999999999"; bs "18446744073709551616"; bs "9223372036854775808"])).

Definition oversized_declared : list Sample :=
  let c := "oversized-declared"%string in
  concat (map (fun '(i, len) =>
    [mkSample c (bs "bulk-" ++ dec i) (bs "$" ++ dec len ++ crlf) BudgetExceeded;
     mkSample c (bs "array-" ++ dec i) (bs "*" ++ dec len ++ crlf) BudgetExceeded;
     mkSample c (bs "map-" ++ dec i) (bs "%" ++ dec len ++ crlf) BudgetExceeded;
     mkSample c (bs "bulk-truncated-" ++ dec i) (bs "$" ++ dec len ++ crlf ++ bs "short") IncompleteFrame])
    (enumerate [2 ^ 20; 2 ^ 24; 2 ^ 28; 2 ^ 30; 2 ^ 32; 2 ^ 40; 2 ^ 62])).

(** [depth] openings around one integer. *)
Definition nested (opening : bytes) (depth : nat) : bytes := Nat.iter depth (app opening) (bs ":1" ++ crlf).
Definition ARRAY_OF_ONE : bytes := bs "*1" ++ crlf.
Definition MAP_OF_ONE : bytes := bs "%1" ++ crlf ++ bs "+k" ++ crlf.

Definition deep_samples (depth : Z) : list Sample :=
  let c := "deep-nesting"%string in
  let exp := if decide (depth <= 64) then Valid else BudgetExceeded in
  [mkSample c (bs "array-" ++ dec depth) (nested ARRAY_OF_ONE (Z.to_nat depth)) exp;
   mkSample c (bs "map-" ++ dec depth) (nested MAP_OF_ONE (Z.to_nat depth)) exp].
Definition DEPTHS : list Z := [16; 32; 64; 128; 256; 512; 1024; 4096; 16384; 65536].
Definition deep_nesting : list Sample := concat (map deep_samples DEPTHS).

Definition invalid_type : list Sample :=
  map (fun b => mkSample "invalid-type" (bs "byte-" ++ hex2 b) (b :: bs "OK" ++ crlf) ProtocolError)
    (bs "@&aZ0" ++ [x00; x1b] ++ bs " " ++ [x0a] ++ bs "/\'" ++ [x22] ++ bs "[{<?`" ++ [x7f; xff; xc3; xe2]).

Definition truncated_crlf : list Sample :=
  let c := "truncated-crlf"%string in
  let lf := [x0a] in
  let cr := [x0d] in
  map (fun '(n, b, e) => mkSample c n b e)
    [(bs "simple-lf", bs "+OK" ++ lf, ProtocolError);
     (bs "simple-cr", bs "+OK" ++ cr, IncompleteFrame);
     (bs "simple-none", bs "+OK", IncompleteFrame);
     (bs "int-lf", bs ":1" ++ lf, ProtocolError);
     (bs "bulk-len-lf", bs "$3" ++ lf ++ bs "foo" ++ crlf, ProtocolError);
     (bs "bulk-body-lf", bs "$3" ++ crlf ++ bs "foo" ++ lf, ProtocolError);
     (bs "bulk-body-none", bs "$3" ++ crlf ++ bs "foo", IncompleteFrame);
     (bs "bulk-body-cr", bs "$3" ++ crlf ++ bs "foo" ++ cr, IncompleteFrame);
     (bs "bulk-body-wrong-len", bs "$3" ++ crlf ++ bs "foobar" ++ crlf, ProtocolError);
     (bs "array-partial", bs "*2" ++ crlf ++ bs ":1" ++ crlf, IncompleteFrame);
     (bs "map-odd", bs "%1" ++ crlf ++ bs "+k" ++ crlf, IncompleteFrame);
     (bs "null-lf", bs "_" ++ lf, ProtocolError)]
  ++ map (fun i => mkSample c (bs "crlf-in-body-" ++ dec i)
                     (r3 (Bulk (concat (replicate (Z.to_nat i) crlf)))) Valid) [1; 2; 3; 4; 5; 6; 7; 8].

Definition utf8_boundary : list Sample :=
  let c := "utf8-boundary"%string in
  map (fun '(i, b) => mkSample c (bs "valid-" ++ dec i) (r3 (Bulk b)) Valid)
    (enumerate [bs "héllo"; bs "中文字段"; bs "🐧";
                bs "👨" ++ [xe2; x80; x8d] ++ bs "👩" ++ [xe2; x80; x8d] ++ bs "👧";
                bs "e" ++ [xcc; x81]; [xef; xbb; xbf] ++ bs "bom"; [xe2; x80; xae] ++ bs "rtl"; bs "a" ++ [x00] ++ bs "b"])
  ++ map (fun '(i, b) => mkSample c (bs "invalid-" ++ dec i) (r3 (Bulk b)) Valid)
       (enumerate [[xff]; [xc3]; [xc3; x28]; [xe2; x82]; [xf0; x9f; x90]; [xed; xa0; x80]; [xc0; xaf];
                   [xf8; x88; x80; x80; x80]; [x80]; bs "abc" ++ [xff] ++ bs "def"; [xef; xbf; xbe];
                   [xf4; x90; x80; x80]]).

Definition terminal_escape : list Sample :=
  let c := "terminal-escape"%string in
  let e := [x1b] in
  let bel := [x07] in
  map (fun '(i, p) => mkSample c (bs "bulk-" ++ dec2 i) (r3 (Bulk p)) Valid)
    (enumerate [e ++ bs "]0;evil title" ++ bel; e ++ bs "]52;c;ZXZpbA==" ++ bel;
                e ++ bs "]8;;http://evil" ++ bel ++ bs "link" ++ e ++ bs "]8;;" ++ bel;
                e ++ bs "[2J"; e ++ bs "[H"; e ++ bs "[?1049h"; e ++ bs "[31mred" ++ e ++ bs "[0m"; e ++ bs "c";
                e ++ bs "P+q" ++ e ++ bs "\"; e ++ bs "_APC" ++ e ++ bs "\"; [x9b] ++ bs "2J"; [x9d] ++ bs "0;t" ++ [x9c];
                [x0d] ++ e ++ bs "[Kfake prompt> "; [x07; x07; x07]; [x08; x08; x08]; [x0c]; e ++ bs "[6n"; e ++ bs "[>c";
                e ++ bs "[?2004h"; e ++ bs "[200~pasted" ++ e ++ bs "[201~"])
  ++ [mkSample c (bs "simple") (r3 (Simple (e ++ bs "]0;x" ++ bel))) Valid;
      mkSample c (bs "error") (r3 (Error (bs "ERR " ++ e ++ bs "[2J"))) Valid].

Definition attributes : list Sample :=
  let c := "attribute"%string in
  map (fun n => mkSample c (bs "dup-" ++ dec2 n)
                  (r3 (Attribute (replicate (Z.to_nat n) (Simple (bs "k"), Integer 1)) (Simple (bs "OK")))) Valid)
    (upto 21)
  ++ [mkSample c (bs "nested") (r3 (Attribute [] (Attribute [(Simple (bs "a"), Integer 1)] (Integer 7)))) Valid;
      mkSample c (bs "no-value") (bs "|1" ++ crlf ++ bs "+k" ++ crlf ++ bs ":1" ++ crlf) IncompleteFrame].

Definition overlong_number : list Sample :=
  let c := "overlong-number"%string in
  let number prefix stem exp := fun '(i, n) => mkSample c (bs stem ++ dec i) (bs prefix ++ n ++ crlf) exp in
  map (number ":" "int-edge-" Valid)%string (enumerate [bs "9223372036854775807"; bs "-9223372036854775808"])
  ++ map (number ":" "int-bad-" ProtocolError)%string
       (enumerate [bs "9223372036854775808"; bs "-9223372036854775809"; bs "1e3"; bs "0x1"; bs "١٢٣"; bs "1_000";
                   bs "+1"; bs "--1"; bs "1-"; []])
  ++ map (number "," "double-" Valid)%string
       (enumerate [bs "1.2300"; bs "-0"; bs "0"; bs "1e3"; bs "1E-3"; bs "inf"; bs "-inf"; bs "nan";
                   bs "3.14159265358979323846264338327950288"; bs "9007199254740993"])
  ++ map (number "," "double-bad-" ProtocolError)%string
       (enumerate [[]; bs "abc"; bs "1..2"; bs "--1"; bs "1e"; bs "0x10"])
  ++ [mkSample c (bs "bignum-huge") (bs "(" ++ replicate (Z.to_nat 4096) "9"%byte ++ crlf) Valid;
      mkSample c (bs "bignum-bad") (bs "(12a" ++ crlf) ProtocolError].

Definition binary_nul : list Sample :=
  let c := "binary-nul"%string in
  map (fun i => mkSample c (bs "mixed-" ++ dec2 i)
                  (r3 (Bulk (((fun j => zb ((i * 13 + j * 7) mod 256)) <$> upto (Z.to_nat i + 1)) ++ [x00]))) Valid)
    (upto 20)
  ++ [mkSample c (bs "all-bytes") (r3 (Bulk (zb <$> upto 256))) Valid; mkSample c (bs "empty") (r3 (Bulk [])) Valid].

Definition streamed : list Sample :=
  let c := "streamed"%string in
  map (fun n => mkSample c (bs "bulk-" ++ dec2 n ++ bs "chunks")
                  (r3 (StreamedBulk ((fun i => replicate (Z.to_nat i + 1) (zb (97 + i mod 26))) <$> upto (Z.to_nat n)))) Valid)
    (upto 13)
  ++ concat (map (fun n =>
       [mkSample c (bs "array-" ++ dec n) (r3 (StreamedArray (Integer <$> upto (Z.to_nat n)))) Valid;
        mkSample c (bs "map-" ++ dec n)
          (r3 (StreamedMap ((fun i => (Simple (bs "k"), Integer i)) <$> upto (Z.to_nat n)))) Valid;
        mkSample c (bs "set-" ++ dec n) (r3 (StreamedSet (Integer <$> upto (Z.to_nat n)))) Valid])
       [0; 1; 2; 5; 50])
  ++ [mkSample c (bs "bulk-no-terminator") (bs "$?" ++ crlf ++ bs ";3" ++ crlf ++ bs "abc" ++ crlf) IncompleteFrame;
      mkSample c (bs "bulk-bad-chunk-len") (bs "$?" ++ crlf ++ bs ";x" ++ crlf) ProtocolError;
      mkSample c (bs "array-no-terminator") (bs "*?" ++ crlf ++ bs ":1" ++ crlf) IncompleteFrame;
      mkSample c (bs "bad-terminator") (bs "*?" ++ crlf ++ bs ":1" ++ crlf ++ bs "," ++ crlf) ProtocolError].

Definition push : list Sample :=
  let c := "push"%string in
  let ok := r3 (Simple (bs "OK")) in
  map (fun n => mkSample c (bs "before-reply-" ++ dec2 n)
                  (concat (map (fun i => r3 (Push [Simple (bs "message"); Bulk (bs "ch"); Bulk (bs "m" ++ dec i)]))
                             (upto (Z.to_nat n))) ++ ok) Valid)
    (upto 21)
  ++ [mkSample c (bs "after-reply") (ok ++ r3 (Push [Simple (bs "invalidate"); Array [Bulk (bs "k")]])) Valid;
      mkSample c (bs "push-nested-in-array") (bs "*1" ++ crlf ++ bs ">1" ++ crlf ++ bs "+x" ++ crlf) ProtocolError].

(** The corpus: what is before and what is behind the deep samples. *)
Definition shallow_before : list Sample := malformed_length ++ oversized_declared.
Definition shallow_after : list Sample :=
  invalid_type ++ truncated_crlf ++ utf8_boundary ++ terminal_escape ++ attributes ++ overlong_number ++ binary_nul
  ++ streamed ++ push.
Definition corpus : list Sample := shallow_before ++ deep_nesting ++ shallow_after.

(** ** What the decoder makes of a sample *)

Definition judged (x : Reading) : Expectation :=
  match failure x with
  | Some (Protocol _) => ProtocolError
  | Some (OverBudget _) => BudgetExceeded
  | None => if decide (buf (after x) = []) then Valid else IncompleteFrame
  end.

Definition verdict (b : bytes) : Expectation := judged (read_all (new_with b)).

(** The sample is met: the decoder makes of it what it states. *)
Definition met (s : Sample) : Prop := verdict (content s) = expectation s.
#[export] Instance met_dec s : Decision (met s) := decide (verdict (content s) = expectation s).

(** The samples the decoder does not meet (see the end of the file). *)
Definition UNMET : list (string * bytes) :=
  ((fun n => ("oversized-declared"%string, n)) <$>
     [bs "bulk-0"; bs "array-0"; bs "map-0"; bs "bulk-1"; bs "bulk-truncated-2"; bs "bulk-truncated-3";
      bs "bulk-truncated-4"; bs "bulk-truncated-5"; bs "bulk-truncated-6"])
  ++ [("deep-nesting"%string, bs "array-64"); ("deep-nesting"%string, bs "map-64");
      ("truncated-crlf"%string, bs "bulk-body-lf"); ("push"%string, bs "push-nested-in-array")].

Definition unmet (s : Sample) : Prop := (category s, name s) ∈ UNMET.
#[export] Instance unmet_dec s : Decision (unmet s) := decide ((category s, name s) ∈ UNMET).

(** ** The samples that can be computed *)

Lemma shallow_met :
  forallb (fun s => bool_decide (met s <-> ~ unmet s)) (shallow_before ++ shallow_after) = true.
Proof. vm_compute. reflexivity. Qed.

Lemma shallow_small :
  forallb (fun s => bool_decide (zlen (content s) <= max_frame_bytes default_budget)) (shallow_before ++ shallow_after)
  = true.
Proof. vm_compute. reflexivity. Qed.

(** ** The deep ones *)

(** An opening is read as one more level around whatever follows. *)
Definition opens (o : bytes) (f : Value -> Value) : Prop :=
  forall room b, parse_value (S room) default_budget (o ++ b)
                 = (need! v @ r := parse_value room default_budget b in PDone (f v) r).

Lemma array_opens : opens ARRAY_OF_ONE (fun v => VArray [v]).
Proof.
  intros room b. change (ARRAY_OF_ONE ++ b) with ("*"%byte :: print_signed (zlen [tt]) ++ [x0d; x0a] ++ [] ++ b).
  rewrite parse_value_aggregate by done. rewrite read_aggregate by done.
  cbn [parse_n length app]. by destruct (parse_value room _ b).
Qed.

Lemma map_opens : opens MAP_OF_ONE (fun v => VMap [(VSimple (bs "k"), v)]).
Proof.
  intros room b.
  change (MAP_OF_ONE ++ b) with ("%"%byte :: print_signed (zlen [(VNull NBulk, VNull NBulk)]) ++ [x0d; x0a]
                                   ++ ("+"%byte :: bs "k" ++ crlf) ++ b).
  rewrite parse_value_aggregate by done. rewrite read_map by done.
  cbn [parse_n length]. unfold parse_pair. destruct room as [|room]; [done|].
  destruct (line_reads room default_budget "+"%byte (bs "k") b) as [E El]; [done|done|].
  change (("+"%byte :: bs "k" ++ crlf) ++ b) with ("+"%byte :: (bs "k" ++ crlf) ++ b).
  rewrite E. unfold parse_line_scalar. rewrite El. cbn [pbind]. rewrite decide_True by done. cbn [pbind].
  by destruct (parse_value (S room) _ b).
Qed.

Lemma nested_parse o f room d r : opens o f ->
  parse_value room default_budget (nested o d ++ r)
  = if decide (d < room)%nat then PDone (Nat.iter d f (VInteger 1)) r else PFail (OverBudget "depth").
Proof.
  intros Ho. revert room. induction d as [|d IH]; intros [|room]; try (by rewrite decide_False by lia).
  - rewrite decide_True by lia. done.
  - cbn [nested Nat.iter nat_rect]. unfold nested in *. cbn [Nat.iter]. rewrite <- app_assoc, (Ho room), IH.
    destruct (decide (d < room)%nat); [rewrite decide_True by lia|rewrite decide_False by lia]; done.
Qed.

Lemma length_nested o d : length (nested o d) = (d * length o + 4)%nat.
Proof.
  induction d as [|d IH]; [done|]. change (nested o (S d)) with (o ++ nested o d). rewrite length_app, IH. lia.
Qed.

Lemma nested_verdict o f d : opens o f -> (length o <= 100)%nat -> (d <= Z.to_nat 65536)%nat ->
  verdict (nested o d) = (if decide (d < 64)%nat then Valid else BudgetExceeded)
  /\ zlen (nested o d) <= max_frame_bytes default_budget.
Proof.
  intros Ho Hl Hd.
  assert (zlen (nested o d) <= max_frame_bytes default_budget) as Hz.
  { unfold zlen. rewrite length_nested. cbn [max_frame_bytes default_budget]. nia. }
  split; [|done]. unfold verdict. rewrite read_all_unroll, decode_in_frame by done. cbn [buf budget new_with].
  rewrite <- (app_nil_r (nested o d)), (nested_parse o f) by done. cbn [max_depth default_budget].
  case_decide; done.
Qed.

Lemma deep_met s : s ∈ deep_nesting ->
  (met s <-> ~ unmet s) /\ zlen (content s) <= max_frame_bytes default_budget.
Proof.
  unfold deep_nesting, deep_samples, met. rewrite list_elem_of_In, in_concat. intros (l&(depth&<-&Hd)%in_map_iff&Hs).
  apply list_elem_of_In in Hd. apply list_elem_of_In in Hs.
  assert (Z.to_nat depth <= Z.to_nat 65536)%nat as Hle.
  { clear Hs. unfold DEPTHS in Hd. repeat (apply elem_of_cons in Hd as [->|Hd]; [lia|]). by apply not_elem_of_nil in Hd. }
  apply elem_of_cons in Hs as [->|[->|[]%not_elem_of_nil]%elem_of_cons]; cbn [content].
  - destruct (nested_verdict ARRAY_OF_ONE _ (Z.to_nat depth) array_opens) as [-> Hz]; [cbn; lia|done|]. split; [|done].
    clear Hz Hle. unfold DEPTHS in Hd.
    repeat (apply elem_of_cons in Hd as [->|Hd]; [by apply (bool_decide_unpack _); vm_compute|]). by apply not_elem_of_nil in Hd.
  - destruct (nested_verdict MAP_OF_ONE _ (Z.to_nat depth) map_opens) as [-> Hz]; [cbn; lia|done|]. split; [|done].
    clear Hz Hle. unfold DEPTHS in Hd.
    repeat (apply elem_of_cons in Hd as [->|Hd]; [by apply (bool_decide_unpack _); vm_compute|]). by apply not_elem_of_nil in Hd.
Qed.

(** Every sample of the hostile corpus but those listed is met, however its bytes
    are cut into chunks: the decoder accepts what is valid to the last byte, waits
    for what is incomplete, and tells a protocol error from an exhausted budget,
    as the sample states. Those listed are not met. *)
Theorem corpus_met s chunks : s ∈ corpus -> concat chunks = content s ->
  judged (receive with_defaults chunks) = expectation s <-> (category s, name s) ∉ UNMET.
Proof.
  intros Hs Hc.
  assert ((met s <-> ~ unmet s) /\ zlen (content s) <= max_frame_bytes default_budget) as [Hv Hz].
  { unfold corpus in Hs. apply elem_of_app in Hs as [Hs|[Hs|Hs]%elem_of_app]; [|by apply deep_met|].
    all: pose proof shallow_met as Hm; pose proof shallow_small as Hz.
    all: rewrite forallb_forall in Hm, Hz; split; eapply bool_decide_eq_true; [apply Hm|apply Hz];
      apply list_elem_of_In, elem_of_app; auto. }
  rewrite receive_whole by (unfold in_frame; cbn; by rewrite Hc). by rewrite Hc.
Qed.

Lemma corpus_met_witness :
  let s := mkSample "push" (bs "after-reply") (r3 (Simple (bs "OK")) ++ r3 (Push [Simple (bs "invalidate"); Array [Bulk (bs "k")]])) Valid in
  s ∈ corpus /\ judged (receive with_defaults [take 3 (content s); drop 3 (content s)]) = Valid.
Proof.
  cbv zeta. set (s := mkSample _ _ _ _).
  assert (s ∈ corpus) as Hs.
  { unfold corpus, shallow_after, push. rewrite !elem_of_app. subst s. do 11 right. by left. }
  split; [done|]. apply (corpus_met s); [done|by cbn [concat]; rewrite app_nil_r, take_drop|].
  apply (bool_decide_eq_true_1 _). by vm_compute.
Defined.

(** ** What is expected and what the decoder does *)

Definition sample (c : string) (n : bytes) : option Sample :=
  List.find (fun s => bool_decide (category s = c /\ name s = n)) corpus.
Definition stated_and_found (c : string) (n : bytes) : option (Expectation * Expectation) :=
  s ← sample c n; Some (expectation s, verdict (content s)).

(** Under the default budget a mebibyte is not too long, nor an array of a
    mebi-element too large, and the decoder waits for what was declared; a length
    that is too long is refused before the body is looked at. *)
Lemma declared_at_the_limits :
  stated_and_found "oversized-declared" (bs "bulk-0") = Some (BudgetExceeded, IncompleteFrame) /\
  stated_and_found "oversized-declared" (bs "array-0") = Some (BudgetExceeded, IncompleteFrame) /\
  stated_and_found "oversized-declared" (bs "bulk-truncated-2") = Some (IncompleteFrame, BudgetExceeded).
Proof. by vm_compute. Qed.

(** Sixty-four openings around an integer are sixty-five levels. *)
Lemma sixty_four_openings :
  stated_and_found "deep-nesting" (bs "array-64") = Some (Valid, BudgetExceeded) /\
  stated_and_found "deep-nesting" (bs "map-64") = Some (Valid, BudgetExceeded).
Proof. by vm_compute. Qed.

(** A body that ends in a line feed alone is one byte short for the decoder. *)
Lemma body_ends_in_line_feed :
  stated_and_found "truncated-crlf" (bs "bulk-body-lf") = Some (ProtocolError, IncompleteFrame).
Proof. by vm_compute. Qed.

(** A push may be anywhere. *)
Lemma nested_push_accepted :
  stated_and_found "push" (bs "push-nested-in-array") = Some (ProtocolError, Valid).
Proof. by vm_compute. Qed.

(** ** The shape of the corpus *)

Definition count (c : string) : nat := length (filter (fun s => category s = c) corpus).

(** Names are unique within their category, no category is small, and no
    sample is empty. *)
Lemma corpus_shape :
  length corpus = 316%nat /\ NoDup (map (fun s => (category s, name s)) corpus)
  /\ (forall s, s ∈ corpus -> (20 <= count (category s))%nat) /\ (forall s, s ∈ corpus -> content s <> []).
Proof.
  split_and!.
  - by vm_compute.
  - apply (bool_decide_eq_true_1 _). by vm_compute.
  - assert (forallb (fun c => bool_decide (20 <= count c)%nat) (map category corpus) = true) as H by by vm_compute.
    intros s Hs. rewrite forallb_forall in H. eapply bool_decide_eq_true, H, in_map, list_elem_of_In, Hs.
  - assert (forallb (fun s => negb (bool_decide (content s = []))) corpus = true) as H by by vm_compute.
    intros s Hs. rewrite forallb_forall in H. apply list_elem_of_In in Hs. specialize (H s Hs).
    by apply negb_true_iff, bool_decide_eq_false in H.
Qed.
