(* ===== verification/Harness.v ===== *)
(** * The recordings of the terminal harness ([xtask/pty-harness/src/lib.rs])

    Escaping of recorded bytes, the reader that records a child's output and
    answers its queries, and waiting.  A session is what its reads return; the
    clock is an argument; writes to the child succeed. *)

From S2P Require Import Prelude Text TextFacts Lines Width Screen.

(** ** Escapes *)

Definition BACKSLASH : byte := x5c.

Definition escape_byte (c : byte) : bytes :=
  if decide (c = x0a) then [BACKSLASH; "n"%byte]
  else if decide (c = x0d) then [BACKSLASH; "r"%byte]
  else if decide (c = x09) then [BACKSLASH; "t"%byte]
  else if decide (c = BACKSLASH) then [BACKSLASH; BACKSLASH]
  else if decide (32 <= bz c <= 126) then [c]
  else [BACKSLASH; "x"%byte] ++ hex2 c.

Definition escape (b : bytes) : bytes := b ≫= escape_byte.

(** [u8::from_str_radix(h, 16).unwrap_or(0)]: a sign is accepted. *)
Definition radix16 (h l : byte) : byte :=
  match hex_value h, hex_value l with
  | Some a, Some b => zb (a * 16 + b)
  | _, Some b => if decide (h = "+"%byte) then zb b else x00
  | _, None => x00
  end.

(** One round: what is pushed, and how many bytes are used. *)
Definition unescape_one (b : byte) (r : bytes) : byte * nat :=
  if decide (b = BACKSLASH) then
    match r with
    | [] => (b, 1%nat)
    | c :: r' =>
        if decide (c = "n"%byte) then (x0a, 2%nat)
        else if decide (c = "r"%byte) then (x0d, 2%nat)
        else if decide (c = "t"%byte) then (x09, 2%nat)
        else if decide (c = BACKSLASH) then (BACKSLASH, 2%nat)
        else if decide (c = "x"%byte) then
          match r' with
          | h :: l :: _ => (radix16 h l, 4%nat)
          | _ => (b, 1%nat)
          end
        else (b, 1%nat)
    end
  else (b, 1%nat).

(** Every round uses a byte. *)
Fixpoint unescape_loop (fuel : nat) (b : bytes) : bytes :=
  match b, fuel with
  | [], _ | _, O => []
  | c :: r, S f => let '(x, n) := unescape_one c r in x :: unescape_loop f (drop n b)
  end.
Definition unescape (b : bytes) : bytes := unescape_loop (length b) b.

(** ** Recordings *)

Inductive Event :=
| Input (at_ms : Z) (b : bytes)
| OutputBytes (at_ms : Z) (b : bytes)
| AutoReply (at_ms : Z) (b query : bytes)
| Resize (at_ms cols rows : Z).

Definition output_bytes (events : list Event) : bytes :=
  events ≫= fun e => match e with OutputBytes _ b => unescape b | _ => [] end.

(** The rows of [to_golden], before they are printed as JSON. *)
Definition golden_row (e : Event) : string * bytes :=
  match e with
  | Input _ b => ("in"%string, b)
  | OutputBytes _ b => ("out"%string, b)
  | AutoReply _ b query => ("auto"%string, query ++ bs ":" ++ b)
  | Resize _ c r => ("resize"%string, print_unsigned c ++ bs "x" ++ print_unsigned r)
  end.
Definition to_golden (events : list Event) : list (string * bytes) := map golden_row events.

(** ** The session *)

Definition DSR_CURSOR : bytes := x1b :: bs "[6n".
Definition DSR_REPLY : bytes := x1b :: bs "[1;1R".

Record Session := mkSession {
  out_buf : bytes;
  events : list Event;
  carry : bytes;
  to_child : list bytes;
  auto_replies : nat;
  s_cols : Z;
  s_rows : Z;
}.

Definition new_session (c r : Z) : Session := mkSession [] [] [] [] 0 c r.

(** [scan.windows(4).filter(|w| *w == DSR_CURSOR).count()]. *)
Fixpoint queries (b : bytes) : nat :=
  match b with
  | [] => 0
  | _ :: r => (if decide (take 4 b = DSR_CURSOR) then 1 else 0) + queries r
  end%nat.

(** A read of the child's output. *)
Definition on_read (at_ms : Z) (s : Session) (chunk : bytes) : Session :=
  let scan := carry s ++ chunk in
  let n := queries scan in
  mkSession (out_buf s ++ chunk)
    (events s ++ [OutputBytes at_ms (escape chunk)] ++ replicate n (AutoReply at_ms (escape DSR_REPLY) (bs "DSR")))
    (drop (length scan - 3) scan) (to_child s ++ replicate n DSR_REPLY) (auto_replies s + n) (s_cols s) (s_rows s).

Definition send (at_ms : Z) (b : bytes) (s : Session) : Session :=
  mkSession (out_buf s) (events s ++ [Input at_ms (escape b)]) (carry s) (to_child s ++ [b]) (auto_replies s)
    (s_cols s) (s_rows s).

Definition send_bracketed_paste (at_ms : Z) (text : bytes) (s : Session) : Session :=
  send at_ms ((x1b :: bs "[200~") ++ text ++ (x1b :: bs "[201~")) s.

Definition resize_session (at_ms c r : Z) (s : Session) : Session :=
  mkSession (out_buf s) (events s ++ [Resize at_ms c r]) (carry s) (to_child s) (auto_replies s) c r.

(** What a timeout carries: the bytes that arrived, escaped and cut. *)
Record Timeout := mkTimeout { needle : str; received : nat; got : str }.

Fixpoint is_infix (n b : bytes) : bool :=
  bool_decide (take (length n) b = n) || match b with [] => false | _ :: r => is_infix n r end.

(** [wait_for] looks at what has arrived, at each poll before the deadline;
    an empty needle makes windows of no bytes, which panics. *)
Fixpoint wait_for (n : bytes) (polls : list bytes) (at_deadline : bytes) : option (Timeout + ()) :=
  match polls with
  | [] => Some (inl (mkTimeout (from_utf8_lossy n) (length at_deadline) (bz <$> escape (take 4096 at_deadline))))
  | b :: r => if decide (n = []) then None else if is_infix n b then Some (inr ()) else wait_for n r at_deadline
  end.

Section Screen.
Context `{W : UnicodeWidth}.

Definition screen (s : Session) (b : bytes) : option Screen := feed (new_screen (s_cols s) (s_rows s) OnePerChar) b.

(** The screen is looked at once more when the deadline is over; how much had
    arrived is asked again after that. *)
Fixpoint wait_for_screen (n : str) (s : Session) (polls : list bytes) (at_deadline later : bytes) : option (Timeout + ()) :=
  match polls with
  | [] =>
      sc ← screen s at_deadline;
      Some (if seen sc n then inr () else inl (mkTimeout n (length later) (history sc)))
  | b :: r => sc ← screen s b; if seen sc n then Some (inr ()) else wait_for_screen n s r at_deadline later
  end.
End Screen.

(** ** Escapes are undone *)

Lemma unescape_escape_byte c r :
  exists h t, escape_byte c = h :: t /\ unescape_one h (t ++ r) = (c, length (escape_byte c)).
Proof. destruct c; do 2 eexists; split; reflexivity. Qed.

(** What undoes each byte undoes them all. *)
Lemma unescape_loop_undoes (show : byte -> bytes) :
  (forall c r, exists h t, show c = h :: t /\ unescape_one h (t ++ r) = (c, length (show c))) ->
  forall b f, (length (b ≫= show) <= f)%nat -> unescape_loop f (b ≫= show) = b.
Proof.
  intros Hs b. induction b as [|c b IH]; intros f Hf; [by destruct f|].
  rewrite bind_cons in *. destruct (Hs c (b ≫= show)) as (h&t&E&Hu). rewrite E in *. cbn [app] in *.
  destruct f as [|f]; [cbn in Hf; lia|]. cbn [unescape_loop]. rewrite Hu. f_equal.
  change (h :: t ++ (b ≫= show)) with ((h :: t) ++ (b ≫= show)). rewrite drop_app_length.
  apply IH. cbn in Hf. rewrite length_app in Hf. lia.
Qed.

Lemma unescape_recorded b : unescape (escape b) = b.
Proof. by apply (unescape_loop_undoes escape_byte); [apply unescape_escape_byte|]. Qed.

Lemma escape_printable b : Forall (fun c => 32 <= bz c <= 126) (escape b).
Proof.
  unfold escape. induction b as [|c b IH]; [constructor|]. rewrite bind_cons. apply Forall_app. split; [|done].
  apply (bool_decide_eq_true_1 _). by destruct c.
Qed.

(** ** Counting queries *)

Lemma queries_short b : (length b < 4)%nat -> queries b = 0%nat.
Proof.
  induction b as [|c b IH]; intros Hl; [done|]. cbn [queries]. rewrite IH by (cbn in Hl; lia).
  rewrite decide_False; [done|]. intros E. apply (f_equal length) in E. rewrite length_take in E.
  change (length DSR_CURSOR) with 4%nat in E. lia.
Qed.

(** Three bytes carried over are enough to see the query that is cut. *)
Lemma queries_app a b : queries (a ++ b) = (queries a + queries (drop (length a - 3) a ++ b))%nat.
Proof.
  induction a as [|c a IH]; [done|].
  destruct (decide (length (c :: a) <= 3)%nat) as [Hl|Hl].
  - rewrite (queries_short (c :: a)) by lia. replace (length (c :: a) - 3)%nat with 0%nat by lia. done.
  - cbn [app queries]. rewrite IH. cbn [length] in Hl.
    replace (take 4 (c :: a ++ b)) with (take 4 (c :: a)).
    2: { rewrite app_comm_cons, take_app_le by (cbn [length]; lia). done. }
    replace (drop (length (c :: a) - 3) (c :: a)) with (drop (length a - 3) a); [lia|].
    cbn [length]. by replace (S (length a) - 3)%nat with (S (length a - 3)) by lia.
Qed.

Definition last3 (b : bytes) : bytes := drop (length b - 3) b.

Lemma last3_suffix p q : (3 <= length q)%nat -> last3 (p ++ q) = last3 q.
Proof.
  intros Hq. unfold last3. rewrite length_app, drop_app, drop_ge by lia. cbn [app]. f_equal. lia.
Qed.

Lemma last3_app a b : last3 (last3 a ++ b) = last3 (a ++ b).
Proof.
  change (last3 a) with (drop (length a - 3) a). destruct (decide (length a <= 3)%nat).
  - by replace (length a - 3)%nat with 0%nat by lia.
  - replace (a ++ b) with (take (length a - 3) a ++ drop (length a - 3) a ++ b) by (by rewrite app_assoc, take_drop).
    symmetry. apply last3_suffix. rewrite length_app, length_drop. lia.
Qed.

(** ** Sessions *)

Inductive Action :=
| Read (at_ms : Z) (chunk : bytes)
| Type_ (at_ms : Z) (b : bytes)
| Paste (at_ms : Z) (text : bytes)
| SetSize (at_ms c r : Z).

Definition act (s : Session) (a : Action) : Session :=
  match a with
  | Read t b => on_read t s b
  | Type_ t b => send t b s
  | Paste t b => send_bracketed_paste t b s
  | SetSize t c r => resize_session t c r s
  end.

Definition chunk_of (a : Action) : bytes := match a with Read _ b => b | _ => [] end.

(** What an event holds is fit to be shown. *)
Definition printable (e : Event) : Prop :=
  match e with
  | Input _ b | OutputBytes _ b | AutoReply _ b _ => Forall (fun c => 32 <= bz c <= 126) b
  | Resize _ _ _ => True
  end.

Definition is_auto (e : Event) : bool := match e with AutoReply _ _ _ => true | _ => false end.

Definition recorded (s : Session) : Prop :=
  output_bytes (events s) = out_buf s /\ carry s = last3 (out_buf s) /\ auto_replies s = queries (out_buf s)
  /\ length (filter (fun e => is_auto e = true) (events s)) = auto_replies s /\ Forall printable (events s)
  /\ (auto_replies s <= length (filter (fun b => b = DSR_REPLY) (to_child s)))%nat.

Lemma output_bytes_app a b : output_bytes (a ++ b) = output_bytes a ++ output_bytes b.
Proof. unfold output_bytes. by rewrite bind_app. Qed.

Lemma filter_replicate {A} (P : A -> Prop) `{!forall x, Decision (P x)} n x :
  filter P (replicate n x) = if decide (P x) then replicate n x else [].
Proof.
  induction n as [|n IH]; cbn [replicate]; [by case_decide|]. rewrite filter_cons, IH. by case_decide.
Qed.

Lemma act_recorded s a : recorded s -> recorded (act s a) /\ out_buf (act s a) = out_buf s ++ chunk_of a.
Proof.
  intros (Ho&Hc&Ha&Hn&Hp&Hw). destruct a as [t b|t b|t b|t c r]; cbn [act chunk_of]; rewrite ?app_nil_r.
  2-4: (split; [|done]; unfold recorded, send_bracketed_paste, send, resize_session;
    cbn [out_buf events carry to_child auto_replies];
    rewrite output_bytes_app, Ho, !filter_app, !length_app || rewrite output_bytes_app, Ho, filter_app, length_app;
    split_and!; [apply app_nil_r|done|done|rewrite Hn; apply Nat.add_0_r| |lia]; apply Forall_app; split; [done|];
    apply Forall_singleton; first [exact I | apply escape_printable]).
  split; [|done]. unfold recorded, on_read. cbn [out_buf events carry to_child auto_replies].
  assert (queries (out_buf s ++ b) = (queries (out_buf s) + queries (carry s ++ b))%nat) as Hq by (by rewrite Hc, queries_app).
  split_and!.
  - rewrite output_bytes_app, Ho. f_equal. unfold output_bytes. cbn [app]. rewrite bind_cons, unescape_recorded.
    assert (forall n, replicate n (AutoReply t (escape DSR_REPLY) (bs "DSR"))
                      ≫= (fun e => match e with OutputBytes _ b => unescape b | _ => [] end) = []) as Hr
      by (intros n; by induction n).
    by rewrite Hr, app_nil_r.
  - rewrite Hc. apply last3_app.
  - by rewrite Hq, Ha.
  - rewrite filter_app, length_app, Hn. cbn [app]. rewrite filter_cons_False by done.
    rewrite filter_replicate, decide_True by done. by rewrite length_replicate.
  - apply Forall_app; split; [done|]. constructor; [apply escape_printable|]. apply Forall_replicate, escape_printable.
  - rewrite filter_app, length_app, filter_replicate, decide_True, length_replicate by done. lia.
Qed.

(** A recording is faithful however the child's output arrives: its output
    events, unescaped, are exactly the bytes received; every cursor query in
    them is answered exactly once, also one cut between two reads; every answer
    is recorded as one; and nothing recorded can drive the terminal of whoever
    reads the recording. *)
Theorem recording_exact c r acts :
  let s := foldl act (new_session c r) acts in
  out_buf s = acts ≫= chunk_of /\ output_bytes (events s) = out_buf s
  /\ auto_replies s = queries (out_buf s)
  /\ length (filter (fun e => is_auto e = true) (events s)) = auto_replies s
  /\ Forall printable (events s).
Proof.
  cbv zeta. assert (recorded (foldl act (new_session c r) acts)
    /\ out_buf (foldl act (new_session c r) acts) = acts ≫= chunk_of) as [(?&?&?&?&?&?) ?]; [|done].
  induction acts as [|a acts [IH Ho]] using rev_ind; [by repeat constructor|].
  rewrite foldl_app. cbn [foldl]. destruct (act_recorded _ a IH) as [Hr Hb]. split; [done|].
  rewrite Hb, Ho, bind_app. cbn. by rewrite app_nil_r.
Qed.

(** ** Waiting *)

Lemma is_infix_spec n b : is_infix n b = true <-> exists p q, b = p ++ n ++ q.
Proof.
  induction b as [|c b IH]; cbn [is_infix]; rewrite orb_true_iff, bool_decide_eq_true.
  - split; [intros [E|]; [|done]|].
    + exists [], []. rewrite take_nil in E. by rewrite <- E.
    + intros (p&q&E). left. symmetry in E. apply app_nil in E as [_ [-> _]%app_nil]. done.
  - rewrite IH. split.
    + intros [E|(p&q&->)]; [|by exists (c :: p), q]. exists [], (drop (length n) (c :: b)).
      cbn [app]. rewrite <- E at 1. by rewrite take_drop.
    + intros ([|x p]&q&E).
      * left. rewrite E. cbn. apply take_app_length.
      * injection E as -> ->. right. by exists p, q.
Qed.

(** Waiting succeeds exactly when one of the looks taken before the deadline
    saw the needle. *)
Lemma wait_for_exact n polls at_deadline : n <> [] ->
  wait_for n polls at_deadline = Some (inr ()) <-> exists b, b ∈ polls /\ exists p q, b = p ++ n ++ q.
Proof.
  intros Hn. induction polls as [|b polls IH]; cbn [wait_for]; [split; [done|by intros (?&?%elem_of_nil&_)]|].
  rewrite decide_False by done. destruct (is_infix n b) eqn:E.
  - split; [|done]. intros _. exists b. split; [by left|by apply is_infix_spec].
  - rewrite IH. split; intros (x&Hx&Hi); exists x; (split; [|done]).
    + by right.
    + apply elem_of_cons in Hx as [->|Hx]; [|done]. apply is_infix_spec in Hi. congruence.
Qed.
