(* ===== verification/Differential.v ===== *)
(** * The comparison with the baseline ([xtask/differential/src])

    The four layers two clients are compared on ([compare.rs]), the cases and
    what each allows ([cases.rs]), and the report ([report.rs] and the runner).
    What the runs recorded is an argument; so is the [Debug] text of a value. *)

From S2P Require Import Prelude Text TextFacts Lines Value Decoder DecoderFacts Framing Roundtrip Oneshot Admission.
From S2P Require Import Harness.

Inductive LayerVerdict :=
| Same
| ExpectedDifference (why baseline penguin : bytes)
| UnexpectedDifference (baseline penguin : bytes).

Definition verdict_ok (v : LayerVerdict) : bool :=
  match v with UnexpectedDifference _ _ => false | _ => true end.

Record Side := mkSide {
  sent : bytes;
  replied : bytes;
  stdout : bytes;
  stderr : bytes;
  exit : Z;
  final_state : list bytes;
}.

Record Outcome := mkOutcome {
  argv_bytes : LayerVerdict;
  reply_bytes : LayerVerdict;
  state_layer : LayerVerdict;
  output_and_exit : LayerVerdict;
}.

Definition outcome_ok (o : Outcome) : bool :=
  verdict_ok (argv_bytes o) && verdict_ok (reply_bytes o) && verdict_ok (state_layer o) && verdict_ok (output_and_exit o).

Inductive OutputExpectation :=
| Identical
| SameBytesDifferentExit (why : bytes)
| Divergent (why : bytes).

Definition layer (baseline penguin : bytes) (allowed : option bytes) : LayerVerdict :=
  if decide (baseline = penguin) then Same
  else match allowed with
       | None => UnexpectedDifference baseline penguin
       | Some why => ExpectedDifference why baseline penguin
       end.

(** Unlike that of the recordings, this [escape] has no form for a tab. *)
Definition show_byte (c : byte) : bytes :=
  if decide (c = x0d) then [BACKSLASH; "r"%byte]
  else if decide (c = x0a) then [BACKSLASH; "n"%byte]
  else if decide (c = BACKSLASH) then [BACKSLASH; BACKSLASH]
  else if decide (32 <= bz c <= 126) then [c]
  else [BACKSLASH; "x"%byte] ++ hex2 c.
Definition show (b : bytes) : bytes := b ≫= show_byte.

Definition output_text (s : Side) : bytes :=
  bs "exit=" ++ print_signed (exit s) ++ bs " stdout=" ++ show (stdout s) ++ bs " stderr=" ++ show (stderr s).

Definition output_layer (baseline penguin : Side) (expect : OutputExpectation) : LayerVerdict :=
  let b := output_text baseline in
  let p := output_text penguin in
  match expect with
  | Identical => layer b p None
  | SameBytesDifferentExit why =>
      if decide (stdout baseline = stdout penguin) then layer b p (Some why) else UnexpectedDifference b p
  | Divergent why => layer b p (Some why)
  end.

Definition render_state (replies : list bytes) : bytes := join [x0a] (show <$> replies).

(** [DecodeError]'s [Display]. *)
Definition error_text (e : DecodeError) : bytes :=
  match e with
  | Protocol w => bs "protocol error: " ++ bs w
  | OverBudget w => bs "budget exceeded: " ++ bs w
  end.

Section Debug.
Context (debug : Value -> bytes).

Definition render_argument (v : Value) : bytes :=
  match v with
  | VBulk b | VSimple b => show b
  | _ => bs "<non-string: " ++ debug v ++ bs ">"
  end.
Definition render_value (v : Value) : bytes :=
  match v with
  | VArray items => bs "[" ++ join (bs " ") (render_argument <$> items) ++ bs "]"
  | _ => bs "<not a command: " ++ debug v ++ bs ">"
  end.

(** The loop decodes until the stream is incomplete or does not decode. *)
Definition render_commands (stream : bytes) : bytes :=
  let x := read_all (feed with_defaults stream) in
  join [x0a] ((render_value <$> values x) ++
    match failure x with Some e => [bs "<undecodable: " ++ error_text e ++ bs ">"] | None => [] end).

Definition compare (baseline penguin : Side) (output : OutputExpectation) : Outcome :=
  mkOutcome
    (layer (render_commands (sent baseline)) (render_commands (sent penguin)) None)
    (layer (show (replied baseline)) (show (replied penguin)) None)
    (layer (render_state (final_state baseline)) (render_state (final_state penguin)) None)
    (output_layer baseline penguin output).
End Debug.

(** ** The cases *)

Record Case := mkCase {
  id : string;
  scenario : string;
  criterion : string;
  initial_state_fixture : string;
  seed : list (list bytes);
  request : list bytes;
  state_probes : list (list bytes);
  expectation : OutputExpectation;
  expected_reply : string;
}.

#[local] Open Scope string_scope.
#[local] Open Scope list_scope.

Definition words (ws : list string) : list bytes := bs <$> ws.

Definition cases : list Case := [
  mkCase "CMD-01" "SET k '--raw'" "`--raw` 原样作为 value" "empty" [words ["DEL"; "diff:cmd01"]]
    (words ["SET"; "diff:cmd01"; "--raw"]) [words ["GET"; "diff:cmd01"]] Identical "simple string OK";
  mkCase "CMD-02" "大小写命令与混合大小写 key" "只识别命令，不修改 key/value" "empty"
    [words ["DEL"; "diff:CMD02:MixedKey"]; words ["DEL"; "diff:cmd02:mixedkey"]]
    (words ["set"; "diff:CMD02:MixedKey"; "VaLuE"])
    [words ["GET"; "diff:CMD02:MixedKey"]; words ["EXISTS"; "diff:cmd02:mixedkey"]] Identical "simple string OK";
  mkCase "CMD-03" "MGET k k missing" "保留重复、顺序、nil" "one-string"
    [words ["SET"; "diff:cmd03"; "present"]; words ["DEL"; "diff:cmd03:absent"]]
    (words ["MGET"; "diff:cmd03"; "diff:cmd03"; "diff:cmd03:absent"]) [words ["GET"; "diff:cmd03"]] Identical
    "array of three: bulk, the same bulk again, null";
  mkCase "CMD-04" "HMGET 缺字段和空字段值" "nil 与 empty string 明确区分" "hash-with-empty-field"
    [words ["DEL"; "diff:cmd04"]; words ["HSET"; "diff:cmd04"; "present"; "P"; "empty"; ""]]
    (words ["HMGET"; "diff:cmd04"; "empty"; "absent"]) [words ["HGETALL"; "diff:cmd04"]] Identical
    "array of two: empty bulk, null — distinguishable on the wire only";
  mkCase "CMD-05" "HSET 覆盖返回 0" "不显示失败，不捏造修改数" "hash-existing-field"
    [words ["DEL"; "diff:cmd05"]; words ["HSET"; "diff:cmd05"; "status"; "ACTIVE"]]
    (words ["HSET"; "diff:cmd05"; "status"; "SUSPENDED"]) [words ["HGET"; "diff:cmd05"; "status"]] Identical "integer 0"].

(** ** The report *)

Definition IMAGE : string := "redis@sha256:71da9275c5f3fcb97d0fa0c8c5b36cc995327265420f17a04bfd544f458059f7".
Definition BASELINE_CLI : string := "redis-cli 7.4.11".

Record Observed := mkObserved {
  o_sent : bytes;
  o_received : bytes;
  o_stdout : bytes;
  o_stderr : bytes;
  o_exit : Z;
  o_final_state : list bytes;
}.

Record CaseReport := mkCaseReport {
  r_case : Case;
  baseline_cli : string;
  server_image_digest : string;
  protocol : string;
  execution_status : string;
  layers : Outcome;
  baseline_observed : Observed;
  penguin_observed : Observed;
}.

Definition report_ok (r : list CaseReport) : bool := forallb (fun c => outcome_ok (layers c)) r.

Section Runner.
Context (debug : Value -> bytes).

Definition observed (s : Side) : Observed :=
  mkObserved (render_commands debug (sent s)) (show (replied s)) (show (stdout s)) (show (stderr s)) (exit s)
    (show <$> final_state s).

Definition run_case (x : Case * Side * Side) : CaseReport :=
  let '(case, baseline, penguin) := x in
  let l := compare debug baseline penguin (expectation case) in
  mkCaseReport case BASELINE_CLI IMAGE "RESP2" (if outcome_ok l then "PASS" else "FAIL") l
    (observed baseline) (observed penguin).

(** The runner, given what each case recorded. *)
Definition run (xs : list (Case * Side * Side)) : list CaseReport := map run_case xs.
End Runner.

(** ** Shown bytes are the bytes *)

Lemma unescape_show_byte c r :
  exists h t, show_byte c = h :: t /\ unescape_one h (t ++ r) = (c, length (show_byte c)).
Proof. destruct c; do 2 eexists; split; reflexivity. Qed.

Lemma unescape_loop_show b f : (length (show b) <= f)%nat -> unescape_loop f (show b) = b.
Proof. apply (unescape_loop_undoes show_byte). apply unescape_show_byte. Qed.

Lemma show_inj b c : show b = show c -> b = c.
Proof. intros E. rewrite <- (unescape_loop_show b _ (le_n _)), E. by apply unescape_loop_show. Qed.

Lemma show_list_inj (ls ks : list bytes) : show <$> ls = show <$> ks -> ls = ks.
Proof.
  revert ks. induction ls as [|l ls IH]; intros [|k ks] E; try done. cbn in E. injection E as E1 E2.
  f_equal; [by apply show_inj|by apply IH].
Qed.

Lemma show_printable b : Forall (fun c => 32 <= bz c <= 126) (show b).
Proof.
  unfold show. induction b as [|c b IH]; [constructor|]. rewrite bind_cons. apply Forall_app. split; [|done].
  apply (bool_decide_eq_true_1 _). by destruct c.
Qed.

Lemma show_no_break b : x0a ∉ show b.
Proof. intros H. pose proof (show_printable b) as Hp. rewrite Forall_forall in Hp. specialize (Hp _ H). change (bz x0a) with 10 in Hp. lia. Qed.

(** A space is shown as one, and nothing else is. *)
Lemma show_no_space b : x20 ∉ b -> x20 ∉ show b.
Proof.
  intros Hb H. apply list_elem_of_bind in H as (c&Hc&H). assert (c <> x20) as Hn by congruence.
  clear Hb H b. revert Hc. apply (bool_decide_eq_true_1 (~ _)). by destruct c.
Qed.

(** ** Rendered lists are the lists *)

Lemma sep_inj (c : byte) p q r s : c ∉ p -> c ∉ q -> p ++ c :: r = q ++ c :: s -> p = q /\ r = s.
Proof.
  revert q. induction p as [|x p IH]; intros [|y q] Hp Hq E; cbn in E; simplify_eq; [done|set_solver..|].
  destruct (IH q) as [-> ->]; [set_solver..|done|done].
Qed.

Lemma join_inj (c : byte) ls ks :
  Forall (fun l => c ∉ l) ls -> Forall (fun l => c ∉ l) ks -> length ls = length ks \/ ls <> [] /\ ks <> [] ->
  join [c] ls = join [c] ks -> ls = ks.
Proof.
  intros Hl. revert ks. induction Hl as [|l ls Hl Hls IH]; intros ks Hk Hn E.
  - destruct Hn as [Hn|[[] _]]; [|done]. by destruct ks.
  - destruct ks as [|k ks]; [destruct Hn as [|[_ []]]; done|]. apply Forall_cons in Hk as [Hk Hks].
    assert (forall x (xs : list bytes), xs <> [] -> join [c] (x :: xs) = x ++ c :: join [c] xs) as Hj
      by (intros x [|]; done).
    destruct ls as [|l' ls], ks as [|k' ks].
    + cbn in E. by subst.
    + rewrite (Hj k) in E by done. cbn in E. rewrite E in Hl. set_solver.
    + rewrite (Hj l) in E by done. cbn in E. rewrite <- E in Hk. set_solver.
    + rewrite !Hj in E by done. apply sep_inj in E as [-> E]; [|done..]. f_equal. apply IH; [done|by right|done].
Qed.

Lemma render_state_inj a b : length a = length b -> render_state a = render_state b -> a = b.
Proof.
  intros Hl E. apply join_inj in E.
  - by apply show_list_inj.
  - apply Forall_fmap, Forall_forall. intros; apply show_no_break.
  - apply Forall_fmap, Forall_forall. intros; apply show_no_break.
  - left. by rewrite !length_fmap.
Qed.

(** ** Commands on the wire *)

(** Commands whose arguments hold no space. *)
Definition plain_command (argv : list bytes) : Prop := sendable argv /\ Forall (fun a => x20 ∉ a) argv.

Definition on_the_wire (argvs : list (list bytes)) : bytes := concat (map encode_command argvs).

Lemma read_commands argvs : Forall sendable argvs -> zlen (on_the_wire argvs) <= max_frame_bytes default_budget ->
  read_all (mkDecoder (on_the_wire argvs) default_budget) =
  mkReading (map (fun argv => VArray (map VBulk argv)) argvs) None with_defaults.
Proof.
  unfold on_the_wire. induction 1 as [|argv argvs Ha _ IH]; intros Hl; [done|]. cbn [map concat] in *.
  rewrite read_all_unroll, decode_command by done. rewrite zlen_app in Hl.
  pose proof (zlen_nonneg (encode_command argv)). rewrite IH by lia. done.
Qed.

Definition command_line (argv : list bytes) : bytes := bs "[" ++ join (bs " ") (show <$> argv) ++ bs "]".

Lemma command_line_inj a b : plain_command a -> plain_command b -> command_line a = command_line b -> a = b.
Proof.
  intros [[Ha _] Hsa] [[Hb _] Hsb] E. unfold command_line in E. apply app_inv_head, app_inv_tail in E.
  apply (join_inj x20) in E.
  - by apply show_list_inj.
  - apply Forall_fmap. eapply Forall_impl; [exact Hsa|]. intros x. apply show_no_space.
  - apply Forall_fmap. eapply Forall_impl; [exact Hsb|]. intros x. apply show_no_space.
  - right. by split; intros ?%fmap_nil_inv.
Qed.

Lemma command_line_no_break argv : x0a ∉ command_line argv.
Proof.
  unfold command_line. rewrite !not_elem_of_app. split_and!; [by vm_compute; set_solver| |by vm_compute; set_solver].
  apply (join_avoids x0a x20); [done|]. apply Forall_fmap, Forall_forall. intros; apply show_no_break.
Qed.

Section Exact.
Context (debug : Value -> bytes).

Lemma render_wire argvs : Forall sendable argvs -> zlen (on_the_wire argvs) <= max_frame_bytes default_budget ->
  render_commands debug (on_the_wire argvs) = join [x0a] (command_line <$> argvs).
Proof.
  intros Hs Hl. unfold render_commands. change (feed with_defaults (on_the_wire argvs)) with (mkDecoder (on_the_wire argvs) default_budget).
  rewrite read_commands by done. cbn [values failure]. rewrite app_nil_r. f_equal.
  clear. induction argvs as [|argv argvs IH]; [done|]. cbn [map fmap list_fmap]. f_equal; [|done].
  cbn [render_value]. unfold command_line. do 3 f_equal. clear. by induction argv as [|a argv IH]; [|cbn; f_equal].
Qed.

Lemma command_lines_inj cs ds : Forall plain_command cs -> Forall plain_command ds ->
  join [x0a] (command_line <$> cs) = join [x0a] (command_line <$> ds) -> cs = ds.
Proof.
  intros Hc Hd E. assert (length cs = length ds \/ cs <> [] /\ ds <> []) as Hn.
  { destruct cs as [|c cs], ds as [|d ds]; [by left| | |by right].
    - cbn [fmap list_fmap] in E. by destruct (command_line <$> ds).
    - cbn [fmap list_fmap] in E. by destruct (command_line <$> cs). }
  apply (join_inj x0a) in E.
  - clear Hn. revert ds Hd E. induction Hc as [|c cs Hc _ IH]; intros [|d ds] Hd E; try done.
    apply Forall_cons in Hd as [Hd Hds]. rewrite !fmap_cons in E.
    f_equal; [apply command_line_inj; [done..|congruence]|apply IH; [done|congruence]].
  - apply Forall_fmap, Forall_forall. intros; apply command_line_no_break.
  - apply Forall_fmap, Forall_forall. intros; apply command_line_no_break.
  - rewrite !length_fmap. destruct Hn as [|[]]; [by left|right]. by split; intros ?%fmap_nil_inv.
Qed.

(** A recorded stream of commands without spaces. *)
Definition plain_stream (s : bytes) : Prop :=
  zlen s <= max_frame_bytes default_budget /\ exists cs, s = on_the_wire cs /\ Forall plain_command cs.

Lemma commands_exact s t : plain_stream s -> plain_stream t -> render_commands debug s = render_commands debug t <-> s = t.
Proof.
  intros [Hs (cs&->&Hc)] [Ht (ds&->&Hd)]. split; [|by intros ->]. rewrite !render_wire; try done.
  - intros E. by rewrite (command_lines_inj cs ds).
  - eapply Forall_impl; [exact Hd|]. by intros ? [].
  - eapply Forall_impl; [exact Hc|]. by intros ? [].
Qed.

(** ** What the layers say *)

Lemma layer_ok_strict a b : verdict_ok (layer a b None) = true <-> a = b.
Proof. unfold layer. by case_decide. Qed.
Lemma layer_ok_allowed a b why : verdict_ok (layer a b (Some why)) = true.
Proof. unfold layer. by case_decide. Qed.

Definition streams_text (s : Side) : bytes := show (stdout s) ++ bs " stderr=" ++ show (stderr s).

(** What a case allows of output and exit. *)
Definition permitted (e : OutputExpectation) (b p : Side) : Prop :=
  match e with
  | Identical => exit b = exit p /\ streams_text b = streams_text p
  | SameBytesDifferentExit _ => stdout b = stdout p
  | Divergent _ => True
  end.

Lemma print_signed_inj a b : print_signed a = print_signed b -> a = b.
Proof.
  intros E. pose proof (parse_signed_print (Z.min a b) (Z.max a b) a ltac:(lia)) as Ha.
  pose proof (parse_signed_print (Z.min a b) (Z.max a b) b ltac:(lia)) as Hb. rewrite E in Ha. congruence.
Qed.

Lemma output_text_exact b p : output_text b = output_text p <-> exit b = exit p /\ streams_text b = streams_text p.
Proof.
  unfold output_text, streams_text. split; [|by intros [-> ->]]. intros E. apply app_inv_head in E.
  assert (forall z, x20 ∉ print_signed z) as Hs
    by (intros z; apply graphic_no_byte; [apply print_signed_graphic|by intros []]).
  change (bs " stdout=") with (x20 :: bs "stdout=") in E. cbn [app] in E.
  apply sep_inj in E as [Hx%print_signed_inj E]; [|apply Hs..]. split; [done|]. by apply app_inv_head in E.
Qed.

Lemma output_layer_exact b p e : verdict_ok (output_layer b p e) = true <-> permitted e b p.
Proof.
  destruct e as [|why|why]; cbn [output_layer permitted].
  - rewrite layer_ok_strict. apply output_text_exact.
  - case_decide; [|done]. by rewrite layer_ok_allowed.
  - by rewrite layer_ok_allowed.
Qed.
End Exact.

(** ** What the report promises *)

(** What the runner records of a case: streams of commands, and a reply for
    every probe on both sides. *)
Definition recorded_run (x : Case * Side * Side) : Prop :=
  let '(c, b, p) := x in
  plain_stream (sent b) /\ plain_stream (sent p) /\
  length (final_state b) = length (state_probes c) /\ length (final_state p) = length (state_probes c).

Definition agree (x : Case * Side * Side) : Prop :=
  let '(c, b, p) := x in
  sent b = sent p /\ replied b = replied p /\ final_state b = final_state p /\ permitted (expectation c) b p.

Lemma compare_exact debug c b p : recorded_run (c, b, p) ->
  outcome_ok (compare debug b p (expectation c)) = true <-> agree (c, b, p).
Proof.
  intros (Hb&Hp&Hlb&Hlp). unfold outcome_ok, compare, agree. cbn [argv_bytes reply_bytes state_layer output_and_exit].
  rewrite !andb_true_iff, !layer_ok_strict, output_layer_exact, commands_exact by done.
  split; [intros [[[? ?%show_inj] ?%render_state_inj] ?]; [done|congruence]|].
  by intros (->&->&->&?).
Qed.

(** The report passes exactly when, in every case, the two clients sent the
    same bytes, received the same bytes, left their servers in the same state, and
    differ in output and exit code only as the case announced; and the status of a
    case is PASS exactly when that case agrees.  The streams are of commands
    without spaces in their arguments, and every probe has its reply. *)
Theorem report_exact debug xs : Forall recorded_run xs ->
  (report_ok (run debug xs) = true <-> Forall agree xs) /\
  Forall2 (fun x r => execution_status r = "PASS" <-> agree x) xs (run debug xs).
Proof.
  induction 1 as [|[[c b] p] xs Hx _ [IH1 IH2]]; [by split; [split|]; constructor|].
  pose proof (compare_exact debug c b p Hx) as He. split.
  - unfold report_ok, run in *. cbn [map forallb]. cbn [run_case layers].
    rewrite andb_true_iff, IH1, He, Forall_cons. done.
  - constructor; [|exact IH2]. cbn [run_case execution_status]. destruct (outcome_ok _); naive_solver.
Qed.

Definition quiet (argv : list bytes) (reply : bytes) (code : Z) : Side :=
  mkSide (encode_command argv) reply (bs "OK") [] code [bs "Bulk(v)"].

Lemma report_exact_witness :
  let c := mkCase "X" "" "" "" [] [] [words ["GET"; "k"]] (SameBytesDifferentExit (bs "why")) "" in
  let b := quiet (words ["SET"; "k"; "v"]) (bs "+OK") 0 in
  let p := quiet (words ["SET"; "k"; "v"]) (bs "+OK") 4 in
  let q := quiet (words ["SET"; "k"; "w"]) (bs "+OK") 0 in
  (report_ok (run (fun _ => []) [(c, b, p); (c, b, q)]) = true <-> Forall agree [(c, b, p); (c, b, q)]) /\
  Forall2 (fun x r => execution_status r = "PASS" <-> agree x) [(c, b, p); (c, b, q)]
    (run (fun _ => []) [(c, b, p); (c, b, q)]).
Proof.
  cbv zeta. apply (report_exact (fun _ => [])).
  assert (forall w, w ∈ ["v"; "w"] -> forall n, plain_stream (sent (quiet (words ["SET"; "k"; w]) (bs "+OK") n))) as H.
  { intros w Hw n. apply elem_of_cons in Hw as [->|Hw%list_elem_of_singleton]; [|subst w].
    - split; [by vm_compute|]. exists [words ["SET"; "k"; "v"]]. split; [by vm_compute|].
      repeat constructor; try done; by vm_compute; set_solver.
    - split; [by vm_compute|]. exists [words ["SET"; "k"; "w"]]. split; [by vm_compute|].
      repeat constructor; try done; by vm_compute; set_solver. }
  repeat constructor; apply H; set_solver.
Defined.

(** Two clients whose sides are the same pass whatever they sent. *)
Lemma compare_same debug s e : outcome_ok (compare debug s s e) = true.
Proof.
  unfold outcome_ok, compare. cbn. rewrite !(proj2 (layer_ok_strict _ _) eq_refl). cbn.
  apply output_layer_exact. by destruct e.
Qed.

(** Every case of the suite asks for identical output. *)
Lemma cases_identical : Forall (fun c => expectation c = Identical /\ state_probes c <> []) cases.
Proof. by repeat constructor. Qed.

(** With the same standard output, the fourth layer tells standard error apart. *)
Lemma stderr_told_apart b p : stdout b = stdout p -> streams_text b = streams_text p <-> stderr b = stderr p.
Proof.
  unfold streams_text. intros ->. split; [|by intros ->]. intros E. apply app_inv_head, app_inv_head in E. by apply show_inj.
Qed.

(** ** What the layers do not tell apart *)

(** Where an argument ends is lost: one argument with a space, or two. *)
Lemma argument_ends_lost debug :
  render_commands debug (encode_command [bs "a b"]) = render_commands debug (encode_command [bs "a"; bs "b"]).
Proof. reflexivity. Qed.

(** Where standard output ends is lost. *)
Lemma output_ends_lost :
  output_text (mkSide [] [] (bs "x stderr=y") [] 0 []) = output_text (mkSide [] [] (bs "x") (bs "y stderr=") 0 []).
Proof. reflexivity. Qed.
