(* ===== verification/Tools.v ===== *)
(** * Tools of the development ([xtask/src], [xtask/soak/src/lib.rs], [crates/pr-core/src/mem.rs])

    [Faults]: the proxy that makes connections fail; [Measure]: the counting
    allocator, budgets and the resident set size; [Stamp]: fingerprints of the
    pinned catalogs and the text of their difference; [Soak]: the analysis of a
    long run. *)

From S2P Require Import Prelude Text TextFacts Slot Lines Ordered F64 Compile CompileFacts CatalogDiff.
From S2P Require Import Fixtures.

(** The faulty proxy ([xtask/src/fault.rs])

    What the proxy forwards in each direction for what it reads, fault by fault.
    Sockets are the lists of what their reads return; a read of no bytes and the
    end of the list end the stream, and writes succeed.  Delays are left out. *)

Module Faults.

Inductive Fault :=
| NoFault
| CutAfterClientBytes (after_bytes : Z)
| CutAfterServerBytes (after_bytes : Z)
| Blackhole
| SlowServer (delay_ms : Z)
| FragmentServer (chunk : nat)
| CorruptServerByte (at_ : Z)
| RefuseConnection.

#[export] Instance Fault_eq_dec : EqDecision Fault.
Proof. solve_decision. Defined.

Record ProxyStats := mkStats {
  client_to_server : Z;
  server_to_client : Z;
  connections : Z;
}.

(** [saturating_sub] and the cap on what a chunk still may contribute. *)
Definition allowance (after before : Z) (c : bytes) : nat := Z.to_nat (Z.min (Z.max 0 (after - before)) (zlen c)).

(** From the client: what is forwarded, and the counter, which lasts as long as
    the proxy. *)
Fixpoint pump_up (fault : Fault) (count : Z) (reads : list bytes) : bytes * Z :=
  match reads with
  | [] => ([], count)
  | c :: rs =>
      if decide (c = []) then ([], count)
      else
        let total := count + zlen c in
        let on := let '(w, n) := pump_up fault total rs in (c ++ w, n) in
        match fault with
        | CutAfterClientBytes after =>
            if decide (total > after) then (take (allowance after (total - zlen c) c) c, total) else on
        | _ => on
        end
  end.

(** [out[idx] ^= 0xff]. *)
Definition corrupt (idx : nat) (c : bytes) : bytes := alter (fun b => zb (Z.lxor (bz b) 255)) idx c.

(** From the server: the writes, and how many bytes were read.  [seen] is of
    this connection. *)
Fixpoint pump_down (fault : Fault) (seen : Z) (reads : list bytes) : list bytes * Z :=
  match reads with
  | [] => ([], seen)
  | c :: rs =>
      if decide (c = []) then ([], seen)
      else
        let n := zlen c in
        let out :=
          match fault with
          | CorruptServerByte a => if decide (seen <= a < seen + n) then corrupt (Z.to_nat (a - seen)) c else c
          | _ => c
          end in
        let on writes := let '(ws, k) := pump_down fault (seen + n) rs in (writes ++ ws, k) in
        match fault with
        | CutAfterServerBytes after =>
            if decide (seen + n > after) then ([take (allowance after seen out) out], seen + n) else on [out]
        | FragmentServer k => on (chunks (length out) (Nat.max k 1) out)
        | _ => on [out]
        end
  end.

(** [run_once]: one connection.  [None] is a connection never served. *)
Definition run_once (fault : Fault) (s : ProxyStats) (client server : list bytes) : ProxyStats * option (bytes * list bytes) :=
  match fault with
  | RefuseConnection => (s, None)
  | Blackhole => (mkStats (client_to_server s) (server_to_client s) (connections s + 1), Some ([], []))
  | _ =>
      let '(up, n) := pump_up fault (client_to_server s) client in
      let '(down, k) := pump_down fault 0 server in
      (mkStats n (server_to_client s + k) (connections s + 1), Some (up, down))
  end.

(** ** What each fault does to a stream *)

(** Of the whole stream of a client, [count] bytes having gone before. *)
Definition to_server (fault : Fault) (count : Z) (s : bytes) : bytes :=
  match fault with
  | CutAfterClientBytes after => take (Z.to_nat (after - count)) s
  | _ => s
  end.

Definition to_client (fault : Fault) (s : bytes) : bytes :=
  match fault with
  | CutAfterServerBytes after => take (Z.to_nat after) s
  | CorruptServerByte a => if decide (0 <= a) then corrupt (Z.to_nat a) s else s
  | _ => s
  end.

Lemma pump_up_exact fault count rs : nonempty rs -> (pump_up fault count rs).1 = to_server fault count (concat rs).
Proof.
  intros Hn. revert count. induction Hn as [|c rs Hc _ IH]; intros count.
  { destruct fault; cbn; try done. by rewrite take_nil. }
  cbn [pump_up concat]. rewrite decide_False by done.
  specialize (IH (count + zlen c)). destruct (pump_up fault (count + zlen c) rs) as [w n]. cbn [fst] in IH. subst w.
  destruct fault; try done. cbn [to_server]. case_decide as Hd; cbn [fst].
  - rewrite take_app_le by (unfold zlen in *; lia). f_equal. unfold allowance. unfold zlen in *. lia.
  - rewrite take_app, (take_ge c) by (unfold zlen in *; lia). do 2 f_equal. unfold zlen in *. lia.
Qed.

(** The same, [seen] bytes of the connection having gone before. *)
Definition to_client_from (fault : Fault) (seen : Z) (s : bytes) : bytes :=
  match fault with
  | CutAfterServerBytes after => take (Z.to_nat (after - seen)) s
  | CorruptServerByte a => if decide (seen <= a) then corrupt (Z.to_nat (a - seen)) s else s
  | _ => s
  end.

Lemma corrupt_here i c s : (i < length c)%nat -> corrupt i c ++ s = corrupt i (c ++ s).
Proof. intros Hi. unfold corrupt. by rewrite alter_app_l. Qed.

Lemma corrupt_later i c s : (length c <= i)%nat -> c ++ corrupt (i - length c) s = corrupt i (c ++ s).
Proof. intros Hi. unfold corrupt. replace i with (length c + (i - length c))%nat at 2 by lia. by rewrite alter_app_r. Qed.

Lemma pump_down_from fault seen rs : nonempty rs ->
  concat (pump_down fault seen rs).1 = to_client_from fault seen (concat rs).
Proof.
  intros Hn. revert seen. induction Hn as [|c rs Hc _ IH]; intros seen.
  { destruct fault; cbn; try done; [by rewrite take_nil|by case_decide]. }
  cbn [pump_down concat]. rewrite (decide_False (P := c = [])) by done.
  specialize (IH (seen + zlen c)). destruct (pump_down fault (seen + zlen c) rs) as [ws k]. cbn [fst] in IH.
  assert (zlen c = Z.of_nat (length c)) as Hz by done.
  destruct fault; cbn [fst] in *; rewrite ?concat_app, ?IH; cbn [concat to_client_from app]; rewrite ?app_nil_r; try done.
  - case_decide as Hd; cbn [fst concat].
    + rewrite app_nil_r, take_app_le by lia. f_equal. unfold allowance. lia.
    + cbn [app concat]. rewrite IH. cbn [to_client_from]. rewrite take_app, (take_ge c) by lia. do 2 f_equal. lia.
  - rewrite concat_chunks by lia. done.
  - destruct (decide (seen <= at_ < seen + zlen c)) as [Hd|Hd].
    + rewrite (decide_False (P := seen + zlen c <= at_)), decide_True by lia. apply corrupt_here. lia.
    + destruct (decide (seen <= at_)) as [Hs|Hs].
      * rewrite decide_True by lia. rewrite <- corrupt_later by lia. do 2 f_equal. lia.
      * by rewrite decide_False by lia.
Qed.

(** However the two streams arrive, a fault does what it says and nothing
    else: each side receives exactly the other's stream, cut after the stated
    number of bytes, or with the stated byte changed; pieces and delays change no
    byte; the connection is counted once. *)
Theorem faults_exact fault s client server :
  nonempty client -> nonempty server -> fault <> RefuseConnection -> fault <> Blackhole ->
  exists s' up down, run_once fault s client server = (s', Some (up, down)) /\
    up = to_server fault (client_to_server s) (concat client) /\
    concat down = to_client fault (concat server) /\ connections s' = connections s + 1.
Proof.
  intros Hc Hs Hr Hb. pose proof (pump_up_exact fault (client_to_server s) client Hc) as Hu.
  pose proof (pump_down_from fault 0 server Hs) as Hd. unfold run_once.
  destruct (pump_up _ _ _) as [up n], (pump_down _ _ _) as [down k]. cbn [fst] in *.
  exists (mkStats n (server_to_client s + k) (connections s + 1)), up, down.
  assert (concat down = to_client fault (concat server)) as Hd'.
  { rewrite Hd. destruct fault; cbn [to_client_from to_client]; by rewrite ?Z.sub_0_r. }
  by destruct fault.
Qed.

Lemma faults_exact_witness :
  let s := mkStats 0 0 0 in
  exists s' up down, run_once (CutAfterServerBytes 3) s [bs "GET"] [bs "+O"; bs "K!"; bs "x"] = (s', Some (up, down)) /\
    up = to_server (CutAfterServerBytes 3) (client_to_server s) (concat [bs "GET"]) /\
    concat down = to_client (CutAfterServerBytes 3) (concat [bs "+O"; bs "K!"; bs "x"]) /\
    connections s' = connections s + 1.
Proof. cbv zeta. apply faults_exact; repeat constructor; discriminate. Defined.

(** ** What the counters and the fault say otherwise *)

(** [client_bytes] counts bytes that were not forwarded. *)
Lemma cut_bytes_counted :
  pump_up (CutAfterClientBytes 2) 0 [bs "abc"] = (bs "ab", 3).
Proof. reflexivity. Qed.

(** The cut is over all connections of a proxy: a second one gets nothing. *)
Lemma cut_outlasts_connection s' r :
  run_once (CutAfterClientBytes 2) (mkStats 0 0 0) [bs "abc"] [] = (s', r) ->
  (run_once (CutAfterClientBytes 2) s' [bs "abc"] []).2 = Some ([], []).
Proof. vm_compute. by intros [= <- <-]. Qed.

(** Corruption flips every bit of the byte. *)
Lemma corruption_flips_all b : corrupt 0 [b] = [zb (255 - bz b)].
Proof. by destruct b. Qed.

End Faults.

(** Measuring memory ([xtask/src/measure.rs], [crates/pr-core/src/mem.rs])

    The counting allocator, samples, budgets, and the resident set size read
    from what the operating system says, which is an argument.  Counters are of
    64 bits and wrap; allocations that fail change nothing and are left out. *)

Module Measure.

(** ** The counting allocator *)

Record Counter := mkCounter {
  live : Z;
  peak : Z;
  allocs : Z;
}.

Definition wrap64 (z : Z) : Z := z mod 2 ^ 64.
Definition new_counter : Counter := mkCounter 0 0 0.

Definition record_alloc (n : Z) (c : Counter) : Counter :=
  let now := wrap64 (live c + n) in
  mkCounter now (Z.max (peak c) now) (wrap64 (allocs c + 1)).
Definition record_free (n : Z) (c : Counter) : Counter := mkCounter (wrap64 (live c - n)) (peak c) (allocs c).
Definition reset_peak (c : Counter) : Counter := mkCounter (live c) (live c) 0.

(** The calls of the allocator, with the sizes of their layouts. *)
Inductive Call :=
| Alloc (size : Z)
| Dealloc (size : Z)
| Realloc (size new_size : Z).

Definition call (c : Counter) (x : Call) : Counter :=
  match x with
  | Alloc n => record_alloc n c
  | Dealloc n => record_free n c
  | Realloc n m => record_alloc m (record_free n c)
  end.

(** ** Samples and budgets *)

Record Sample := mkSample {
  heap_live : Z;
  heap_peak : Z;
  alloc_count : Z;
  rss : option Z;
}.
Record Delta := mkDelta {
  d_live : Z;
  d_peak : Z;
  d_allocs : Z;
  d_rss : option Z;
}.

Definition take_sample (c : Counter) (rss : option Z) : Sample := mkSample (live c) (peak c) (allocs c) rss.

Definition to_i (v : Z) : Z := Z.min v i64_max.

Definition since (after before : Sample) : Delta :=
  mkDelta (to_i (heap_live after) - to_i (heap_live before)) (to_i (heap_peak after) - to_i (heap_peak before))
    (Z.max 0 (alloc_count after - alloc_count before))
    match rss after, rss before with
    | Some a, Some b => Some (to_i a - (if decide (b <= i64_max) then b else 0))
    | _, _ => None
    end.

Record Budget := mkBudget { b_name : string; max_heap_bytes : Z }.
Inductive BudgetCheck := Within (used allowed : Z) | Exceeded (used allowed : Z).

Definition check_ok (c : BudgetCheck) : bool := match c with Within _ _ => true | Exceeded _ _ => false end.

Definition check (b : Budget) (d : Delta) : BudgetCheck :=
  let used := Z.max (d_peak d) (d_live d) in
  if decide (used <= max_heap_bytes b) then Within used (max_heap_bytes b) else Exceeded used (max_heap_bytes b).

Definition ASSISTANCE_HEAP : Budget := mkBudget "assistance heap increment" (12 * 1024 * 1024).
Definition RESULT_STORE : Budget := mkBudget "result store" (64 * 1024 * 1024).
Definition SINGLE_RESULT : Budget := mkBudget "single retained result" (16 * 1024 * 1024).
Definition IDLE_REPL_RSS : Budget := mkBudget "idle REPL RSS" (30 * 1024 * 1024).
Definition IDLE_TUI_RSS : Budget := mkBudget "idle TUI RSS" (60 * 1024 * 1024).

(** ** The resident set size *)

Definition parse_u64 (s : str) : option Z := parse_unsigned u64_max (encode_str s).

(** Of [/proc/.../statm]; products wrap, as a release build's do. *)
Definition rss_linux (statm : str) : option Z :=
  field ← split_whitespace statm !! 1%nat;
  pages ← parse_u64 field;
  Some (wrap64 (pages * 4096)).

(** Of [ps -o rss=]. *)
Definition rss_macos (out : bytes) : option Z :=
  kb ← parse_u64 (trim (from_utf8_lossy out));
  Some (wrap64 (kb * 1024)).

(** [trim_matches] of one character, and the last part of [str::split]. *)
Fixpoint strip_start (d : Z) (s : str) : str :=
  match s with
  | c :: r => if decide (c = d) then strip_start d r else s
  | [] => []
  end.
Definition trim_matches (d : Z) (s : str) : str := reverse (strip_start d (reverse (strip_start d s))).
Fixpoint last_part (fuel : nat) (p s : str) : str :=
  match fuel with
  | O => s
  | S f => match Slot.split_once p s with Some (_, r) => last_part f p r | None => s end
  end.

Definition BOUNDARY : str := [34; 44; 34].

(** Of [tasklist /FO CSV]. *)
Definition rss_windows (pid : Z) (out : bytes) : option Z :=
  row ← List.find (contains_str (bz <$> print_unsigned pid)) (str_lines (from_utf8_lossy out));
  let s := trim_matches 34 (trim row) in
  let field := last_part (length s) BOUNDARY s in
  kb ← parse_u64 (filter (fun c => 48 <= c <= 57) field);
  Some (wrap64 (kb * 1024)).

(** ** The counter and the heap *)

(** What the process holds after a call, and whether the call is one it can
    make: it frees what it holds, and never holds [2 ^ 63] bytes. *)
Definition held (u : Z) (x : Call) : Z :=
  match x with Alloc n => u + n | Dealloc n => u - n | Realloc n m => u - n + m end.
Definition possible (u : Z) (x : Call) : Prop :=
  match x with
  | Alloc n => 0 <= n
  | Dealloc n => 0 <= n <= u
  | Realloc n m => 0 <= n <= u /\ 0 <= m
  end /\ held u x <= i64_max.
Fixpoint possible_run (u : Z) (xs : list Call) : Prop :=
  match xs with [] => True | x :: r => possible u x /\ possible_run (held u x) r end.
(** The most held, from now on. *)
Fixpoint highest (u : Z) (xs : list Call) : Z :=
  match xs with [] => u | x :: r => Z.max u (highest (held u x) r) end.

Lemma highest_ge u xs : u <= highest u xs /\ foldl held u xs <= highest u xs.
Proof. revert u. induction xs as [|x xs IH]; intros u; cbn; [lia|]. destruct (IH (held u x)). lia. Qed.

Lemma wrap64_id z : 0 <= z <= i64_max -> wrap64 z = z.
Proof. intros Hz. apply Z.mod_small. change (2 ^ 64) with 18446744073709551616. change i64_max with 9223372036854775807 in Hz. lia. Qed.

Lemma call_exact c x : 0 <= live c <= peak c -> live c <= i64_max -> possible (live c) x ->
  live (call c x) = held (live c) x /\ peak (call c x) = Z.max (peak c) (held (live c) x) /\ 0 <= held (live c) x.
Proof.
  intros Hl Hm [Hx Hh]. destruct x as [n|n|n m]; cbn [call record_alloc record_free live peak held] in *;
    repeat rewrite (wrap64_id (live c + n)), (wrap64_id (live c - n)) by lia.
  - rewrite wrap64_id by lia. lia.
  - rewrite wrap64_id by lia. lia.
  - rewrite (wrap64_id (live c - n)) by lia. rewrite wrap64_id by lia. lia.
Qed.

Lemma calls_exact c xs : 0 <= live c <= peak c -> live c <= i64_max -> possible_run (live c) xs ->
  live (foldl call c xs) = foldl held (live c) xs /\ peak (foldl call c xs) = Z.max (peak c) (highest (live c) xs)
  /\ 0 <= foldl held (live c) xs <= i64_max /\ highest (live c) xs <= Z.max (live c) i64_max.
Proof.
  revert c. induction xs as [|x xs IH]; intros c Hl Hm Hr; cbn [foldl highest]; [lia|].
  destruct Hr as [Hx Hr]. destruct (call_exact c x) as (E1&E2&E3); [done..|]. pose proof (proj2 Hx) as Hh.
  destruct (IH (call c x)) as (I1&I2&I3&I4); [lia|lia|by rewrite E1|]. rewrite E1 in I1, I2, I3, I4.
  pose proof (highest_ge (held (live c) x) xs). rewrite I1, I2, E2. lia.
Qed.

(** A budget measured over a window that starts with [reset_peak] holds
    exactly when the process never held, at any moment of the window, more than
    the budget above what it held at its start: no allocation is missed, also one
    freed before the window ended, and what was held before is not blamed. *)
Theorem window_budget b c xs r r' :
  0 <= live c <= i64_max -> possible_run (live c) xs ->
  let before := reset_peak c in
  let after := foldl call before xs in
  check_ok (check b (since (take_sample after r') (take_sample before r))) = true
    <-> highest (live c) xs - live c <= max_heap_bytes b.
Proof.
  cbv zeta. intros Hl Hr. destruct (calls_exact (reset_peak c) xs) as (E1&E2&E3&E4); [cbn; lia|cbn; lia|done|].
  cbn [reset_peak live peak] in E1, E2, E3, E4. pose proof (highest_ge (live c) xs) as [Hg1 Hg2].
  unfold check, since, take_sample. cbn [d_peak d_live heap_live heap_peak]. rewrite E1, E2.
  unfold to_i. cbn [reset_peak live peak].
  replace (Z.max _ _) with (highest (live c) xs - live c) by lia. by case_decide.
Qed.

Lemma window_budget_witness :
  let c := mkCounter 1000 5000 7 in
  let xs := [Alloc 300; Realloc 300 900; Dealloc 900] in
  check_ok (check (mkBudget "b" 800) (since (take_sample (foldl call (reset_peak c) xs) None) (take_sample (reset_peak c) None))) = true
    <-> highest 1000 xs - 1000 <= 800.
Proof. cbv zeta. apply (window_budget (mkBudget "b" 800) (mkCounter 1000 5000 7)); repeat split; by vm_compute. Defined.

(** Without the reset an earlier peak hides what the window held. *)
Lemma earlier_peak_hides :
  let before := mkCounter 0 (64 * 1024 * 1024) 1 in
  let xs := [Alloc (20 * 1024 * 1024); Dealloc (20 * 1024 * 1024)] in
  check_ok (check SINGLE_RESULT (since (take_sample (foldl call before xs) None) (take_sample before None))) = true
  /\ max_heap_bytes SINGLE_RESULT < highest (live before) xs - live before.
Proof. split; [by vm_compute|]. cbn. lia. Qed.

(** ** Reading the resident set *)

Lemma split_once_boundary l r : (34 ∉ l) -> Slot.split_once BOUNDARY (l ++ BOUNDARY ++ r) = Some (l, r).
Proof.
  induction l as [|c l IH]; intros Hl; [reflexivity|]. apply not_elem_of_cons in Hl as [Hc Hl].
  change ((c :: l) ++ BOUNDARY ++ r) with (c :: l ++ BOUNDARY ++ r). cbn [Slot.split_once strip_prefix BOUNDARY].
  rewrite decide_False by congruence. fold BOUNDARY. by rewrite IH.
Qed.

Lemma split_once_absent l : (34 ∉ l) -> Slot.split_once BOUNDARY l = None.
Proof.
  induction l as [|c l IH]; intros Hl; [reflexivity|]. apply not_elem_of_cons in Hl as [Hc Hl].
  cbn [Slot.split_once strip_prefix BOUNDARY]. rewrite decide_False by congruence. fold BOUNDARY. by rewrite IH.
Qed.

Lemma last_part_field fields field f :
  Forall (fun l => 34 ∉ l) fields -> (34 ∉ field) -> (length fields <= f)%nat ->
  last_part f BOUNDARY (concat (map (fun l => l ++ BOUNDARY) fields) ++ field) = field.
Proof.
  intros Hs Hf. revert f. induction Hs as [|l ls Hl _ IH]; intros f Hn; cbn [map concat app].
  - destruct f; [done|]. cbn [last_part]. by rewrite split_once_absent.
  - destruct f as [|f]; [cbn in Hn; lia|]. cbn [last_part]. rewrite <- !app_assoc, split_once_boundary by done.
    apply IH. cbn in Hn. lia.
Qed.

Lemma strip_start_app d n s : head s <> Some d -> strip_start d (replicate n d ++ s) = s.
Proof.
  intros Hs. induction n as [|n IH]; cbn [replicate app strip_start]; [|by rewrite decide_True].
  destruct s as [|c s]; [done|]. cbn [strip_start]. rewrite decide_False; [done|]. intros ->. by cbn in Hs.
Qed.

(** A quoted text, whatever blank space is around it, is read without both. *)
Lemma trim_quoted s : head s <> Some 34 -> last s <> Some 34 -> s <> [] -> trim_matches 34 (trim (34 :: s ++ [34])) = s.
Proof.
  intros Hh Hl Hn. assert (trim (34 :: s ++ [34]) = 34 :: s ++ [34]) as ->.
  { unfold trim. cbn [trim_start]. change (char_is_whitespace 34) with false. cbn match.
    change (34 :: s ++ [34]) with ([34] ++ s ++ [34]). rewrite !reverse_app, reverse_singleton.
    cbn [app trim_start]. change (char_is_whitespace 34) with false. cbn match.
    rewrite reverse_cons, reverse_app, reverse_involutive. done. }
  unfold trim_matches. change (34 :: s ++ [34]) with (replicate 1 34 ++ s ++ [34]). rewrite strip_start_app.
  - rewrite reverse_app, reverse_singleton. change ([34] ++ reverse s) with (replicate 1 34 ++ reverse s).
    rewrite strip_start_app, reverse_involutive; [done|]. by rewrite head_reverse.
  - by destruct s.
Qed.

(** The row [tasklist] prints: quoted fields, the last of them a number with
    separators and a unit. *)
Definition row_of (fields : list str) (usage : str) : str :=
  34 :: (concat (map (fun l => l ++ BOUNDARY) fields) ++ usage) ++ [34].

(** Text that fits in a quoted field. *)
Definition plain (l : str) : Prop := Forall (fun c => c <> 34 /\ c <> 10 /\ scalar c) l /\ l <> [].

Lemma plain_absent d l : d = 34 \/ d = 10 -> plain l -> (d ∉ l).
Proof. intros Hd [Hl _] H. rewrite Forall_forall in Hl. destruct (Hl d H) as (?&?&_), Hd; congruence. Qed.

Lemma body_ends fields usage : Forall plain fields -> plain usage ->
  let body := concat (map (fun l => l ++ BOUNDARY) fields) ++ usage in
  head body <> Some 34 /\ last body <> Some 34 /\ body <> [].
Proof.
  intros Hf [Hu Hn]. cbv zeta.
  assert (forall l r, plain l -> head (l ++ r) <> Some 34) as Hh.
  { intros [|c l] r [Hl Hl']; [done|]. apply Forall_cons in Hl as [(?&_) _]. cbn. congruence. }
  split_and!.
  - destruct fields as [|l ls]; cbn [map concat app]; [rewrite <- (app_nil_r usage); by apply Hh|].
    apply Forall_cons in Hf as [Hl _]. rewrite <- !app_assoc. by apply Hh.
  - rewrite last_app. destruct (last usage) as [c|] eqn:E; [|by apply last_None in E].
    apply last_Some_elem_of in E. rewrite Forall_forall in Hu. destruct (Hu _ E) as (?&_). congruence.
  - intros [_ ?]%app_nil. done.
Qed.

Lemma row_text fields usage : Forall plain fields -> plain usage ->
  Forall scalar (row_of fields usage) /\ 10 ∉ row_of fields usage.
Proof.
  intros Hf Hu. assert (Forall (fun c => scalar c /\ c <> 10) (row_of fields usage)) as H.
  { assert (scalar 34 /\ 34 <> 10) as Hq by (split; [unfold scalar; lia|done]).
    assert (forall l, plain l -> Forall (fun c => scalar c /\ c <> 10) l) as Hp
      by (intros l [Hl _]; eapply Forall_impl; [exact Hl|]; by intros c (?&?&?)).
    unfold row_of. constructor; [done|]. apply Forall_app. split; [|by constructor].
    apply Forall_app. split; [|by apply Hp]. induction Hf as [|l ls Hl _ IH]; [constructor|]. cbn [map concat].
    rewrite !Forall_app. split_and!; [by apply Hp| |done].
    unfold BOUNDARY. repeat constructor; unfold scalar; lia. }
  split; [eapply Forall_impl; [exact H|]; by intros ? []|]. intros Hi. rewrite Forall_forall in H. by destruct (H _ Hi).
Qed.

(** The resident set size of a Windows process is the whole number of its row,
    whatever separates its thousands: nothing before it is read as part of it, and
    no part of it is lost. *)
Theorem tasklist_exact pid fields usage kb :
  Forall plain fields -> plain usage ->
  filter (fun c => 48 <= c <= 57) usage = bz <$> print_unsigned kb -> 0 <= kb -> kb * 1024 <= u64_max ->
  contains_str (bz <$> print_unsigned pid) (row_of fields usage) = true ->
  rss_windows pid (encode_str (row_of fields usage)) = Some (kb * 1024).
Proof.
  intros Hf Hu Hd Hk Hm Hc. destruct (row_text fields usage Hf Hu) as [Hs Hb].
  destruct (body_ends fields usage Hf Hu) as (Hh&Hl&Hn). unfold rss_windows.
  rewrite from_utf8_lossy_encode, str_lines_open by done. cbn [List.find]. rewrite Hc. cbn [mbind option_bind].
  unfold row_of. rewrite trim_quoted by done. rewrite last_part_field; [|by eapply Forall_impl; [exact Hf|];
    intros l; apply plain_absent; left|apply plain_absent; [by left|done]|].
  - unfold parse_u64. rewrite Hd, encode_str_ascii.
    + rewrite parse_unsigned_print by lia. cbn [mbind option_bind]. unfold wrap64. f_equal. apply Z.mod_small.
      unfold u64_max in Hm. lia.
    + destruct (print_unsigned_spec kb) as (_&Hg&_); [done|]. by apply graphic_ascii, digit_graphic.
  - rewrite length_app. clear. induction fields as [|l ls IH]; cbn; [lia|]. rewrite !length_app. cbn. lia.
Qed.

Lemma tasklist_exact_witness :
  let fields := chars <$> ["prc.exe"; "1234"; "Console"; "1"]%string in
  rss_windows 1234 (encode_str (row_of fields (chars "48,120 K"))) = Some (48120 * 1024).
Proof.
  cbv zeta. apply tasklist_exact; [|split; [|done]|done|done|by vm_compute|by vm_compute].
  - repeat constructor; try done; vm_compute; intuition congruence.
  - repeat constructor; try done; vm_compute; intuition congruence.
Defined.

Lemma words_word w u c r : Forall (fun c => char_is_whitespace c = false) w -> char_is_whitespace c = true ->
  u ++ w <> [] -> words (reverse u) (w ++ c :: r) = (u ++ w) :: words [] r.
Proof.
  intros Hw Hc. revert u. induction Hw as [|d w Hd _ IH]; intros u Hn; cbn [app words].
  - rewrite Hc, app_nil_r in *. rewrite decide_False, reverse_involutive; [done|].
    intros E. apply Hn. by rewrite <- (reverse_involutive u), E.
  - rewrite Hd. change (d :: reverse u) with (reverse [d] ++ reverse u). rewrite <- reverse_app.
    rewrite IH by (rewrite <- app_assoc; done). by rewrite <- app_assoc.
Qed.

(** The second field of [statm] is the number of pages. *)
Lemma statm_exact total pages rest : 0 <= total -> 0 <= pages -> pages * 4096 <= u64_max ->
  rss_linux ((bz <$> print_unsigned total) ++ chars " " ++ (bz <$> print_unsigned pages) ++ chars " " ++ rest)
  = Some (pages * 4096).
Proof.
  intros Ht Hp Hm. unfold rss_linux, split_whitespace.
  assert (forall n, 0 <= n -> Forall (fun c => char_is_whitespace c = false) (bz <$> print_unsigned n)
            /\ (bz <$> print_unsigned n) <> []) as Hw.
  { intros n Hn. destruct (print_unsigned_spec n) as (Hne&Hg%digit_graphic&_); [done|]. split.
    - apply Forall_fmap. eapply Forall_impl; [exact Hg|]. intros b. apply char_not_whitespace.
    - by intros ?%fmap_nil_inv. }
  destruct (Hw total Ht) as [H1 N1], (Hw pages Hp) as [H2 N2]. change (chars " ") with [32]. cbn [app].
  change (@nil Z) with (reverse (@nil Z)) at 1. rewrite words_word by done.
  change (@nil Z) with (reverse (@nil Z)) at 2. rewrite words_word by done. cbn [lookup list_lookup mbind option_bind app].
  destruct (print_unsigned_spec pages) as (_&Hg&_); [done|].
  unfold parse_u64. rewrite encode_str_ascii by (by apply graphic_ascii, digit_graphic).
  rewrite parse_unsigned_print by lia. cbn [mbind option_bind]. unfold wrap64. f_equal. apply Z.mod_small.
  unfold u64_max in Hm. lia.
Qed.

End Measure.

(** Stamping and comparing catalogs ([xtask/src/catalog.rs])

    Writing the fingerprint of a snapshot, verifying it, and the texts of the
    comparison of the two families.  A file system is a map from paths; the texts
    of its errors, and what makes a write fail, are arguments. *)

Module Stamp.

Section Files.
Context (blake3 : bytes -> bytes) (from_slice : bytes -> result str Snapshot).
Context (upper : Z -> str) (debug : str -> str).
(** The system's errors: of a read, of a text that is not UTF-8, of a write. *)
Context (no_file not_utf8 : str) (write_error : str -> option str).

Abbreviation Files := (gmap str bytes).

Definition sidecar (path : str) : str := path ++ chars ".blake3".

Definition at_path {E A} (path sep : str) (show : E -> str) (r : result E A) : result str A :=
  match r with Ok a => Ok a | Err e => Err (path ++ sep ++ show e) end.

Definition read (fs : Files) (path : str) : result str bytes := ok_or (fs !! path) no_file.
Definition read_to_string (fs : Files) (path : str) : result str str :=
  let? b := read fs path in ok_or (from_utf8 b) not_utf8.
Definition write (fs : Files) (path : str) (b : bytes) : result str Files :=
  match write_error path with Some e => Err e | None => Ok (<[path := b]> fs) end.

Definition stamp (fs : Files) (path : str) : result str (str * Files) :=
  let? b := at_path path (chars ": ") id (read fs path) in
  let? _ := at_path path (chars ": ") show_load_error (parse_unverified from_slice upper debug b) in
  let d := digest blake3 b in
  let? fs' := at_path (sidecar path) (chars ": ") id (write fs (sidecar path) (encode_str (d ++ [10]))) in
  Ok (d, fs').

Definition summary_of (snap : Snapshot) : str :=
  let p := provenance snap in
  p_family p ++ chars " " ++ line p ++ chars " (" ++ server_version p ++ chars ") "
  ++ (bz <$> print_unsigned (zlen (commands snap))) ++ chars " commands, captured " ++ captured_utc p
  ++ chars " from " ++ image p.

Definition verify (fs : Files) (path : str) : result str str :=
  let? b := at_path path (chars ": ") id (read fs path) in
  let? expected := at_path (sidecar path) (chars " (run `xtask catalog-stamp`): ") id (read_to_string fs (sidecar path)) in
  let? snap := at_path path (chars ": ") show_load_error (load blake3 from_slice upper debug b expected) in
  Ok (summary_of snap).

(** ** What a stamp is worth *)

Lemma hex2_graphic c : Forall graphic (hex2 c).
Proof. apply (bool_decide_eq_true_1 _). by destruct c. Qed.

Lemma digest_graphic b : exists g, digest blake3 b = bz <$> g /\ Forall graphic g.
Proof.
  eexists. split; [done|]. induction (blake3 b) as [|c r IH]; [constructor|].
  rewrite bind_cons. apply Forall_app. split; [apply hex2_graphic|done].
Qed.

Lemma trim_line g : Forall graphic g -> trim ((bz <$> g) ++ [10]) = bz <$> g.
Proof.
  intros Hg. assert (Forall (fun c => char_is_whitespace c = false) (bz <$> g)) as Hw.
  { apply Forall_fmap. eapply Forall_impl; [exact Hg|]. intros c. apply char_not_whitespace. }
  unfold trim. assert (forall s, Forall (fun c => char_is_whitespace c = false) s -> trim_start (s ++ [10]) = if decide (s = []) then [] else s ++ [10]) as Hs.
  { intros [|c s] Hc; [done|]. apply Forall_cons in Hc as [Hc _]. cbn [app trim_start]. by rewrite Hc. }
  rewrite Hs by done. case_decide as E; [by rewrite E|]. rewrite reverse_app, reverse_singleton. cbn [app trim_start].
  change (char_is_whitespace 10) with true. cbn match.
  rewrite trim_start_id, reverse_involutive; [done|].
  destruct (reverse (bz <$> g)) as [|c s] eqn:Er; [by left|right]. exists c. split; [done|].
  apply Forall_reverse in Hw. rewrite Er in Hw. by apply Forall_cons in Hw as [? _].
Qed.

Lemma digest_text b : from_utf8 (encode_str (digest blake3 b ++ [10])) = Some (digest blake3 b ++ [10])
  /\ trim (digest blake3 b ++ [10]) = digest blake3 b.
Proof.
  destruct (digest_graphic b) as (g&->&Hg). split; [|by apply trim_line]. apply from_utf8_encode_str.
  apply Forall_app. split; [|constructor; [unfold scalar; lia|constructor]].
  apply Forall_fmap. eapply Forall_impl; [exact Hg|]. intros c [Hc Hc']. cbn. unfold scalar. lia.
Qed.

(** A stamp certifies exactly the bytes it was made of: the file that was
    stamped verifies, as what it parses to; and a file that verifies against the
    stamp, whatever was done to it since, has the fingerprint of the stamped bytes
    and is a canonical snapshot. *)
Theorem stamp_certifies fs path d fs' : stamp fs path = Ok (d, fs') ->
  exists b snap, fs !! path = Some b /\ d = digest blake3 b
    /\ parse_unverified from_slice upper debug b = Ok snap
    /\ verify fs' path = Ok (summary_of snap)
    /\ forall fs'' b'' text, fs'' !! sidecar path = fs' !! sidecar path -> fs'' !! path = Some b'' ->
         verify fs'' path = Ok text ->
         digest blake3 b'' = d /\ exists snap'', parse_unverified from_slice upper debug b'' = Ok snap''
           /\ text = summary_of snap''.
Proof.
  unfold stamp, read, write. destruct (fs !! path) as [b|] eqn:Eb; cbn [ok_or at_path rbind]; [|done].
  destruct (parse_unverified from_slice upper debug b) as [snap|e] eqn:Ep; cbn [at_path rbind]; [|done].
  destruct (write_error _); cbn [at_path rbind]; [done|]. intros E. injection E as <- <-.
  destruct (digest_text b) as [Hu Ht]. exists b, snap. split_and!; try done.
  - unfold verify, read_to_string, read. rewrite lookup_insert_ne, Eb, lookup_insert_eq.
    + cbn [ok_or at_path rbind]. rewrite Hu. cbn [ok_or at_path rbind]. unfold load.
      rewrite Ht, decide_True, Ep by done. done.
    + unfold sidecar. intros E. apply (f_equal length) in E. rewrite length_app in E. cbn in E. lia.
  - intros fs'' b'' text Hs Hb Hv. revert Hv. unfold verify, read_to_string, read.
    rewrite Hb, Hs, lookup_insert_eq. cbn [ok_or at_path rbind]. rewrite Hu. cbn [ok_or at_path rbind]. unfold load.
    rewrite Ht. case_decide as E; [|done].
    destruct (parse_unverified from_slice upper debug b'') as [snap''|]; cbn [at_path rbind]; [|done].
    intros [= <-]. split; [done|]. by exists snap''.
Qed.
End Files.

Definition some_snapshot : Snapshot :=
  mkSnapshot SCHEMA (mkProvenance (chars "redis") (chars "7.4") (chars "7.4.11") (chars "redis:7.4") (chars "2026-09-01") []) [].

Lemma stamp_certifies_witness :
  let hash (b : bytes) := take 2 b in
  let parse (_ : bytes) : result str Snapshot := Ok some_snapshot in
  let none (_ : str) : option str := None in
  let p := chars "s.json" in
  let fs : gmap str bytes := {[p := bs "{}"]} in
  exists d fs', stamp hash parse (fun z => [z]) id [] none fs p = Ok (d, fs') /\
  exists b snap, fs !! p = Some b /\ d = digest hash b
    /\ parse_unverified parse (fun z => [z]) id b = Ok snap
    /\ verify hash parse (fun z => [z]) id [] [] fs' p = Ok (summary_of snap)
    /\ forall fs'' b'' text, fs'' !! sidecar p = fs' !! sidecar p -> fs'' !! p = Some b'' ->
         verify hash parse (fun z => [z]) id [] [] fs'' p = Ok text ->
         digest hash b'' = d /\ exists snap'', parse_unverified parse (fun z => [z]) id b'' = Ok snap''
           /\ text = summary_of snap''.
Proof.
  cbv zeta. do 2 eexists. split; [reflexivity|].
  eapply (stamp_certifies _ _ _ _ [] [] (fun _ => None)). reflexivity.
Defined.

(** ** The texts of the comparison *)

Definition join_code (v : list str) : str := join (chars ", ") ((fun k => chars "`" ++ k ++ chars "`") <$> v).

Definition number (n : nat) : str := bz <$> print_unsigned (Z.of_nat n).
Definition name_row (n : str) : str := chars "- `" ++ n ++ chars "`" ++ [10].
Definition write_list (names : list str) : str :=
  if decide (names = []) then txt "None." ++ [10] else names ≫= name_row.

Definition effect_row (e : EffectDifference) : str :=
  chars "| `" ++ ed_name e ++ chars "` | " ++ ed_redis e ++ chars " | " ++ ed_valkey e ++ chars " |" ++ [10].
Definition since_row (e : SinceDifference) : str :=
  chars "| `" ++ sd_name e ++ chars "` | " ++ default (txt "—") (sd_redis e) ++ chars " | "
  ++ default (txt "—") (sd_valkey e) ++ chars " |" ++ [10].
Definition argument_rows (a : ArgumentDifference) : str :=
  chars "### `" ++ ad_name a ++ chars "`" ++ [10; 10]
  ++ chars "- Redis:  `" ++ ad_redis a ++ chars "`" ++ [10]
  ++ chars "- Valkey: `" ++ ad_valkey a ++ chars "`" ++ [10]
  ++ (if decide (redis_only_keywords a = []) then []
      else chars "- Redis-only keywords: " ++ join_code (redis_only_keywords a) ++ [10])
  ++ (if decide (valkey_only_keywords a = []) then []
      else chars "- Valkey-only keywords: " ++ join_code (valkey_only_keywords a) ++ [10])
  ++ [10].

Definition paragraph (ls : list string) : str := ls ≫= fun l => txt l ++ [10].

Definition table_head : str := paragraph ["| command | Redis | Valkey |"; "|---|---|---|"]%string.

Definition render_markdown (d : CatalogDiff) (redis_n valkey_n : nat) : str :=
  paragraph [
    "# Redis vs Valkey — catalog difference list"; "";
    "Generated by `cargo run -p xtask -- catalog-diff`. Do not edit: CI regenerates this ";
    "and fails on a difference, so an edit here is a change nobody reviewed."; "";
    "Each section says what ignoring it would break, because the four kinds are not ";
    "equally dangerous."; ""; "| | count |"; "|---|---|"]%string
  ++ chars "| Redis commands | " ++ number redis_n ++ chars " |" ++ [10]
  ++ chars "| Valkey commands | " ++ number valkey_n ++ chars " |" ++ [10]
  ++ chars "| identical in both | " ++ number (identical d) ++ chars " |" ++ [10]
  ++ chars "| Redis only | " ++ number (length (diff_redis_only d)) ++ chars " |" ++ [10]
  ++ chars "| Valkey only | " ++ number (length (diff_valkey_only d)) ++ chars " |" ++ [10]
  ++ chars "| argument differences | " ++ number (length (diff_arguments d)) ++ chars " |" ++ [10]
  ++ chars "| `since` differences | " ++ number (length (diff_since d)) ++ chars " |" ++ [10]
  ++ chars "| **effect differences** | " ++ number (length (diff_effects d)) ++ chars " |" ++ [10; 10]
  ++ paragraph [
    ""; "## Effect differences"; "";
    "The dangerous category: an approval prompt is driven by the classification, so a ";
    "mismatch means one of the two servers gets a decision made on the wrong information. ";
    "An empty section here is the expected state."; ""]%string
  ++ (if decide (diff_effects d = []) then txt "None." ++ [10] else table_head ++ (diff_effects d ≫= effect_row))
  ++ paragraph [""; "## Commands only Redis has"; "";
    "Suggesting one of these to a Valkey server produces an error the user did not cause."; ""]%string
  ++ write_list (diff_redis_only d)
  ++ paragraph [""; "## Commands only Valkey has"; "";
    "Hiding one of these from a Valkey user is the same failure in the other direction."; ""]%string
  ++ write_list (diff_valkey_only d)
  ++ paragraph [""; "## Argument differences"; "";
    "Same command, different shape. Offering the wrong option produces a syntax error."; ""]%string
  ++ (if decide (diff_arguments d = []) then txt "None." ++ [10] else diff_arguments d ≫= argument_rows)
  ++ paragraph [""; "## `since` differences"; "";
    "Same command, introduced at different versions. Offering an option to a server too ";
    "old for it is an error the user did not cause."; ""]%string
  ++ (if decide (diff_since d = []) then txt "None." ++ [10] else table_head ++ (diff_since d ≫= since_row)).

(** [summary.txt]. *)
Definition diff_summary (d : CatalogDiff) (redis_n valkey_n : nat) : str :=
  concat (map (fun p : string * nat => chars p.1 ++ chars " " ++ number p.2 ++ [10]) [
    ("redis_commands", redis_n); ("valkey_commands", valkey_n); ("identical", identical d);
    ("redis_only", length (diff_redis_only d)); ("valkey_only", length (diff_valkey_only d));
    ("argument_differences", length (diff_arguments d)); ("since_differences", length (diff_since d));
    ("effect_differences", length (diff_effects d))]%string).

(** [t] stands somewhere in [s]. *)
Definition within (t s : str) : Prop := exists p q, s = p ++ t ++ q.

Lemma within_refl t : within t t.
Proof. exists [], []. by rewrite app_nil_r. Qed.
Lemma within_l t s r : within t s -> within t (s ++ r).
Proof. intros (p&q&->). exists p, (q ++ r). by rewrite <- !app_assoc. Qed.
Lemma within_r t s r : within t r -> within t (s ++ r).
Proof. intros (p&q&->). exists (s ++ p), q. by rewrite <- !app_assoc. Qed.
Lemma within_bind {A} (f : A -> str) x l : x ∈ l -> within (f x) (l ≫= f).
Proof.
  induction 1 as [x l|x y l _ IH]; rewrite bind_cons; [apply within_l, within_refl|by apply within_r].
Qed.
Lemma within_rows {A} (f : A -> str) x l h t (D : Decision (l = [])) : x ∈ l -> within (f x) (if decide (l = []) then h else t ++ (l ≫= f)).
Proof. intros Hx. destruct (decide (l = [])) as [->|_]; [by apply not_elem_of_nil in Hx|]. by apply within_r, within_bind. Qed.
Lemma within_plain_rows {A} (f : A -> str) x l h (D : Decision (l = [])) : x ∈ l -> within (f x) (if decide (l = []) then h else l ≫= f).
Proof. apply (within_rows f x l h [] D). Qed.

Ltac find_within :=
  match goal with
  | |- within _ (_ ++ _) => first [apply within_l; first [apply within_rows | apply within_plain_rows]; assumption | apply within_r; find_within]
  | |- _ => first [apply within_rows | apply within_plain_rows]; assumption
  end.

(** Nothing is left out of the list: every difference has its row or its
    rows. *)
Theorem markdown_complete d rn vn :
  (forall e, e ∈ diff_effects d -> within (effect_row e) (render_markdown d rn vn))
  /\ (forall e, e ∈ diff_since d -> within (since_row e) (render_markdown d rn vn))
  /\ (forall a, a ∈ diff_arguments d -> within (argument_rows a) (render_markdown d rn vn))
  /\ (forall n, n ∈ diff_redis_only d \/ n ∈ diff_valkey_only d ->
        within (name_row n) (render_markdown d rn vn)).
Proof.
  split_and!; [intros x Hx..|intros x [Hx|Hx]]; unfold render_markdown, write_list.
  all: find_within.
Qed.

End Stamp.

(** The soak analysis ([xtask/soak/src/lib.rs])

    Least squares over a series in 64-bit floats, the verdict, and the report of
    a run.  The parser of one line of the metrics file is an argument. *)

Module Soak.

Definition fsub : f64 -> f64 -> f64 := SFsub 53 1024.
Definition flt (x y : f64) : bool := match SFcompare x y with Some Lt => true | _ => false end.
Definition feq (x y : f64) : bool := match SFcompare x y with Some Eq => true | _ => false end.

(** [Sum for f64] starts from the negative zero. *)
Definition fsum (xs : list f64) : f64 := foldl fadd (S754_zero true) xs.
(** [powi(2)]. *)
Definition square (x : f64) : f64 := fmul x x.

Record Measurement := mkMeasurement {
  at_s : f64;
  rss_bytes : Z;
  heap_bytes : Z;
  live_tasks : Z;
  commands : Z;
  pushes : Z;
  tui_cycles : Z;
}.

Inductive Verdict := Steady | Growing | TooShort.
#[export] Instance Verdict_eq_dec : EqDecision Verdict.
Proof. solve_decision. Defined.

Record Fit := mkFit {
  per_hour : f64;
  intercept : f64;
  residual_sd : f64;
  total_change : f64;
  samples : nat;
  hours : f64;
  verdict : Verdict;
}.

Definition first_x (points : list (f64 * f64)) : f64 := match points with p :: _ => p.1 | [] => zero end.
Definition last_x (points : list (f64 * f64)) : f64 := match last points with Some p => p.1 | None => zero end.

Definition analyse (points : list (f64 * f64)) (noise_multiple min_hours : f64) : Fit :=
  let n := length points in
  let hours := if decide (2 <= n)%nat then fdiv (fsub (last_x points) (first_x points)) (of_int 3600) else zero in
  if decide (n < 30)%nat then mkFit zero zero zero zero n hours TooShort
  else
    let fn := of_int (Z.of_nat n) in
    let mean_x := fdiv (fsum (map fst points)) fn in
    let mean_y := fdiv (fsum (map snd points)) fn in
    let sxx := fsum (map (fun p => square (fsub p.1 mean_x)) points) in
    let sxy := fsum (map (fun p => fmul (fsub p.1 mean_x) (fsub p.2 mean_y)) points) in
    let slope := if feq sxx zero then zero else fdiv sxy sxx in
    let intercept := fsub mean_y (fmul slope mean_x) in
    let ss := fsum (map (fun p => square (fsub p.2 (fadd intercept (fmul slope p.1)))) points) in
    let residual_sd := fsqrt (fdiv ss (fsub fn (of_int 2))) in
    let total_change := fmul slope (fsub (last_x points) (first_x points)) in
    let verdict :=
      if flt hours min_hours then TooShort
      else if fgt total_change (fmul noise_multiple residual_sd) && fgt total_change zero then Growing
      else Steady in
    mkFit (fmul slope (of_int 3600)) intercept residual_sd total_change n hours verdict.

Record Report := mkReport {
  rss_fit : Fit;
  heap_fit : Fit;
  task_fit : Fit;
  command_fit : Fit;
}.

Definition report_ok (r : Report) : bool :=
  bool_decide (verdict (rss_fit r) = Steady) && bool_decide (verdict (heap_fit r) = Steady)
  && bool_decide (verdict (task_fit r) = Steady) && bool_decide (verdict (command_fit r) = Growing).

Definition series (f : Measurement -> Z) (xs : list Measurement) : list (f64 * f64) := map (fun s => (at_s s, of_int (f s))) xs.

Definition report (xs : list Measurement) (min_hours : f64) : Report :=
  let three := of_int 3 in
  mkReport (analyse (series rss_bytes xs) three min_hours) (analyse (series heap_bytes xs) three min_hours)
    (analyse (series live_tasks xs) three min_hours) (analyse (series commands xs) three min_hours).

(** [read_samples], of the text of the file; the number of the line that does
    not parse is the error. *)
Section Reading.
Context (from_str : str -> option Measurement).

Fixpoint read_lines (i : nat) (ls : list str) : result nat (list Measurement) :=
  match ls with
  | [] => Ok []
  | l :: r =>
      if decide (trim l = []) then read_lines (S i) r
      else match from_str l with
           | Some s => let? xs := read_lines (S i) r in Ok (s :: xs)
           | None => if decide (r = []) then Ok [] else Err (S i)
           end
  end.
Definition read_samples (text : str) : result nat (list Measurement) := read_lines 0 (str_lines text).

(** A run that is still going is read: what its last, unfinished line has of it
    is left, and every line before it is a sample. *)
Theorem live_run_read ls xs l :
  Forall2 (fun l x => trim l <> [] /\ from_str l = Some x) ls xs -> trim l <> [] -> from_str l = None ->
  forall i, read_lines i (ls ++ [l]) = Ok xs.
Proof.
  intros Hl Ht Hn. induction Hl as [|k x ls xs [Hk Hx] _ IH]; intros i; cbn [app read_lines].
  - by rewrite decide_False, Hn.
  - by rewrite decide_False, Hx, IH.
Qed.
End Reading.

(** ** What a passing run has *)

(** What a verdict means of the numbers of its fit. *)
Lemma analyse_verdict points k h :
  match verdict (analyse points k h) with
  | TooShort => (length points < 30)%nat \/ flt (hours (analyse points k h)) h = true
  | v =>
      (30 <= length points)%nat /\ flt (hours (analyse points k h)) h = false /\
      (fgt (total_change (analyse points k h)) (fmul k (residual_sd (analyse points k h)))
       && fgt (total_change (analyse points k h)) zero = match v with Growing => true | _ => false end)
  end.
Proof.
  unfold analyse. destruct (decide (length points < 30)%nat) as [Hn|Hn]; [by left|].
  cbn [verdict hours total_change residual_sd]. destruct (flt _ h) eqn:Eh; [by right|].
  destruct (_ && _) eqn:Eg; split_and!; (lia || done).
Qed.

(** No short run passes: a report that is ok comes from at least thirty
    samples over at least the hours asked for, with memory and task_fit that do not
    rise beyond three deviations of their noise and commands that do. *)
Theorem passing_run xs min_hours :
  let r := report xs min_hours in
  let rises f := fgt (total_change f) (fmul (of_int 3) (residual_sd f)) && fgt (total_change f) zero in
  report_ok r = true <->
  (30 <= length xs)%nat /\ flt (hours (command_fit r)) min_hours = false
  /\ rises (rss_fit r) = false /\ rises (heap_fit r) = false /\ rises (task_fit r) = false /\ rises (command_fit r) = true.
Proof.
  cbv zeta. unfold report_ok. rewrite !andb_true_iff, !bool_decide_eq_true. unfold report.
  cbn [rss_fit heap_fit task_fit command_fit].
  assert (forall f, length (series f xs) = length xs) as Hl by (intros; apply length_map).
  assert (forall f, hours (analyse (series f xs) (of_int 3) min_hours) =
                    hours (analyse (series commands xs) (of_int 3) min_hours)) as Hh.
  { intros f. unfold analyse. rewrite !Hl.
    assert (forall g, first_x (series g xs) = match xs with s :: _ => at_s s | [] => zero end) as Hf by (by destruct xs).
    assert (forall g, last_x (series g xs) = match last xs with Some s => at_s s | None => zero end) as Hx.
    { intros g. unfold last_x, series.
      rewrite (fmap_last (fun s => (at_s s, of_int (g s))) xs : last (map _ xs) = _). by destruct (last xs). }
    rewrite !Hf, !Hx. by case_decide. }
  pose proof (fun f => analyse_verdict (series f xs) (of_int 3) min_hours) as Hv.
  pose proof (Hv rss_bytes) as V1. pose proof (Hv heap_bytes) as V2.
  pose proof (Hv live_tasks) as V3. pose proof (Hv commands) as V4. clear Hv.
  rewrite Hl, Hh in V1, V2, V3. rewrite Hl in V4.
  split.
  - intros [[[E1 E2] E3] E4]. rewrite E1 in V1. rewrite E2 in V2. rewrite E3 in V3. rewrite E4 in V4.
    destruct V1 as (?&?&?), V2 as (_&_&?), V3 as (_&_&?), V4 as (_&_&?). do 5 (split; [assumption|]). by apply andb_true_iff.
  - intros (Hn&Hs&R1&R2&R3&R4%andb_true_iff). rewrite Hs in *.
    destruct (verdict (analyse (series rss_bytes xs) _ _)), (verdict (analyse (series heap_bytes xs) _ _)),
      (verdict (analyse (series live_tasks xs) _ _)), (verdict (analyse (series commands xs) _ _));
      try (split_and!; done); exfalso; intuition (lia || congruence).
Qed.

(** A run of eight hours whose commands stop after two of them passes. *)
Definition stalled : list Measurement :=
  map (fun i => mkMeasurement (of_int (900 * i)) 1000 1000 5 (Z.min i 8 * 100) 0 0) (seqZ 0 33).

Lemma stalled_run_passes : report_ok (report stalled (of_int 8)) = true.
Proof. by vm_compute. Qed.

End Soak.
